(* ===== verification/_CoqProject ===== *)
-Q . S2P
Prelude.v
Str.v
Words.v
Utf8.v
F64.v
Error.v
Pool.v
Config.v
Detect.v
TsvLog.v
Ledger.v
RateLimit.v
Headroom.v
Usage.v
Router.v
Invoke.v
Gateway.v
Sse.v
ProxyLines.v
GitDiff.v
ProxyFilters.v
Grep.v
GitText.v
Proxy.v
F32.v
MemDb.v
MemStore.v
MemSafety.v
MemRows.v
MemRecall.v
MemWalk.v
MemFuse.v
MemSweep.v
MemSearch.v
Fs.v
Wire.v
Spool.v
Forward.v
Project.v
Collector.v
Delivery.v
Files.v
Scaffold.v
ScaffoldSafety.v
Standard.v
Repair.v
Retire.v
OcRows.v
OcRoute.v
SessionRoutes.v
OcEvents.v
OcSchema.v
SchemaSafety.v
EventSafety.v
OcMerge.v
MergeSafety.v
RowSafety.v
Confine.v
Arrival.v
OcMigrate.v
MigrateSafety.v
Json.v
StrictClaude.v
SbxCommand.v
Jsonc.v
OcConfig.v
Sandbox.v
SandboxSetup.v
SandboxSafety.v
RegistrySafety.v
ConfigSafety.v
JsonCodec.v
SetupSafety.v
JsoncSafety.v
CompressRules.v
Compress.v
CompressSafety.v
MlCompress.v
ModelCache.v
ModelCacheSafety.v
