(* ===== verification/Prelude.v ===== *)
(** * A verification of rtrt: routing, gateway, memory, forwarding, scaffolds, session migration, sandbox, filters, compression

    rtrt sits between a developer's tools and language models.  It detects the
    agents and model APIs installed on a machine, chooses one for a request by
    capability, cost and remaining quota, runs it with retries and failover,
    records what was used, shortens command output before a model reads it, and keeps
    a searchable memory of what happened in each project.

    ** The parts and how they interact

    A request enters as a [RouteRequest].  The router ranks the detected tools'
    quota buckets using a usage snapshot, which is read from the ledger's rolling
    windows and the configured limits; the invoker walks the ranked targets,
    classifies every failure, and records each invocation in the ledger, so the
    next snapshot sees it.  API targets go through the gateway, which has its own
    model routing, cache, budget, retries and metrics, and whose streaming answers
    are decoded by the event-stream decoder.  Rate-limit headers of API answers are
    logged beside the ledger and refine the headroom.  Independently, the proxy
    turns the output of shell commands into a shorter text, the compressor shortens prose
    around the parts that must stay as they are, and the memory store
    keeps notes, their text index, vectors and links in one SQLite file, from which
    recall answers a query.  A guest machine forwards its notes: it queues each in a
    private spool and posts it until the collector on the host acknowledges it; the
    collector admits a guest by its token and stores the note in the memory store of
    the host project mapped to it, whose identity and directory the core derives.
    Templates write a project's contract and agent files, repair them, and retire what
    older versions wrote.  A migration moves the sessions another program (OpenCode)
    keeps in one global database into one private database per project.  The commands that
    program runs go through a shell wrapper: one strict line starts Claude Code directly
    under a policy of its own, every other runs in a mount namespace that shows the
    checkout, after a registry has said that this checkout is authorized; setup changes
    that program's configuration and the registry together.

    ** Files, and the code they model

    Generic layer.
    - [Prelude] (this file): strings as lists of Unicode scalar values, machine
      integers with their wrapping and saturating operations, comparators and
      stable sorting ([sort_by], [TotalCmp]), lemmas on folds and finite maps, the
      hint databases and tactics.
    - [Str], [Utf8], [F64]: the methods of [str], UTF-8, and IEEE doubles the
      program uses from Rust's standard library, executable.  [Words]: lemmas on
      splitting at white space.

    [crates/rtrt-core/src].
    - [Error] (error.rs, token.rs), [Pool] (pool.rs), [Config] (config.rs: limits,
      provider ids, toggles), [Detect] (detect.rs: tools and chat requests as data).
    - [ModelCache] (model_cache.rs, and the parser of model lists in detect.rs), over the
      file system below; [ModelCacheSafety] its properties.

    [crates/rtrt-providers/src].
    - [TsvLog], [Ledger], [RateLimit], [Headroom]: usage_ledger.rs, that is the
      capped log file and its lock; invocation rows and their windows; provider
      signals; what is left of a quota and how it is known.
    - [Usage]: usage.rs and the usage types of lib.rs.
    - [Router]: router.rs.  [Invoke]: invoke.rs.  [Gateway]: gateway.rs.
    - [Sse]: stream.rs.

    [crates/rtrt-proxy/src].
    - [ProxyLines]: the shared passes of lib.rs and generic.rs.
    - [GitDiff] and [GitText]: git.rs.  [Grep]: the search filter of generic.rs.
    - [ProxyFilters]: cargo.rs, node.rs, containers.rs, kubernetes.rs and the line
      filters of generic.rs.  [Proxy]: the table of filters.

    [crates/rtrt-compress/src].
    - [CompressRules] (lib.rs, secrets.rs): patterns, tables, language packs.
    - [Compress] (lib.rs, secrets.rs): stashing, the passes, restoring, framing;
      [CompressSafety] its properties.  [MlCompress] (ml.rs): the best words of a text up
      to a budget.

    [crates/rtrt-memory/src].
    - [F32] (embed.rs): vectors of [f32], their stored bytes, cosine similarity.
    - [MemDb] (lib.rs, [migrate] and the statements): the tables as a record, a monad
      of statements any of which may fail, transactions, and rules to reason about
      them: [preserves] and [triple] for every outcome, [clean] when nothing fails.
    - [MemStore] (lib.rs): the operations that write, and the store as a transition
      system ([StoreOp], [run_op], [reachable]).
    - [MemRecall] (lib.rs): the operations that search.
    - Their properties: [MemSafety] (every operation), [MemRows] (operations on rows),
      [MemWalk] (neighbours), [MemFuse] (rank fusion), [MemSweep] (embedding sweeps),
      [MemSearch] (recall and linking).

    Files and projects.
    - [Fs]: a POSIX file system from Rust's standard library: a tree of real paths,
      links followed as the kernel does, calls any of which may fail, and rules about
      them ([outcome], [read_only]).
    - [Project] (crates/rtrt-core/src/project.rs): project identity, linked worktrees,
      private directories and files.

    [crates/rtrt-templates/src].
    - [Files]: paths relative to a directory, strings of paths, the rest of [std::fs].
    - [Scaffold] (render.rs, lib.rs, builtin.rs): variables, planning and writing a
      scaffold; [ScaffoldSafety] its properties.
    - [Standard] (project.rs): inspecting a project, planning and applying a repair of
      its contract; [Repair] its properties.
    - [Retire] (project.rs): retiring old assets and the contract's old section.

    [crates/rtrt-cli/src].
    - [Wire] (forward.rs): the event, its validation, the retry delay, the address.
    - [Spool] (forward/spool.rs): opening the spool file, and its table, with the queue
      of events it implements ([holds], [q_select] and the other operations on queues).
    - [Forward] (forward.rs): the commands that queue and flush, as tasks on the spool
      and posts on an abstract network.
    - [Collector] (collector.rs): startup, the gate and the handler.
    - [Delivery]: guest, wire and collector together as a step relation ([step],
      [reachable_system]), of which the guest's commands are runs.
    - The migration (opencode_sessions.rs): [OcRows] (values, rows, tables), [OcRoute]
      (where sessions go, the rows of a destination), [OcEvents] (event histories),
      [OcSchema] (signatures, [probe_schema], [validate_complete_destination]), [OcMerge]
      (the merge of one destination, over [Sqlite], a class of what SQLite decides, with
      statements and file operations that fail as a list of faults says), [OcMigrate] (the
      command: the source and its generation, the lock, the manifest, one snapshot, every
      destination).  Their properties: [SessionRoutes], [EventSafety], [SchemaSafety],
      [MergeSafety] (histories), [RowSafety] (rows, and the merge as a whole), [Confine]
      (what a merge can bring in), [Arrival] (what it brings), [MigrateSafety] (the command).
    - The sandbox: [Json] (values of [serde_json]), [StrictClaude] (rtrt-core/src/detect.rs:
      the strict line, its policy, trusted executables), [SbxCommand] (sandbox.rs: the
      parser of the direct line, the search for hidden names, the dispatch), [Sandbox]
      (sandbox.rs: backend, checkout, registry and lock, the mounts, a run).  Properties:
      [SandboxSafety] (mounts, executables, checkout), [RegistrySafety] (registry, run).
    - Setting it up (setup.rs): [Jsonc] (the editor of JSON with comments), [OcConfig]
      (reading and replacing OpenCode's configuration), [SandboxSetup] (enabling and
      disabling, with the rollback of two files).  Properties: [JsoncSafety] (edits),
      [ConfigSafety] (files replaced whole), [SetupSafety] (both files together);
      [JsonCodec] is an instance of [serde_json] for its witnesses.

    Definitions keep the names of the functions they translate; a loop of a
    function [f] is a Fixpoint named after what one turn does, and the body of a
    stateful method takes and returns the state it changes.  Names of constructors
    that would clash are prefixed.

    ** What is outside

    Processes, files, clocks, HTTP, JSON, regular expressions and hashing belong to
    the operating system or to libraries.  They are arguments of the definitions:
    a file's content, the lock's answers, a process's exit, a world a provider acts
    on, a matching function that takes the pattern's text.  The full-text engine, the
    embedding model, the detection of a language, Unicode's tables and the natural logarithm
    are arguments too, and
    where a theorem relies on them the reliance is a hypothesis with a concrete
    instance beside it; of bubblewrap the theorem about mounts relies on its documented
    order of operations.  SQLite itself is modelled: its tables, the constraints and
    cascades the schema declares, and the failure of any statement; so are the calls
    on files that private directories and files are made of, and the wire between guest
    and collector, which may lose, delay and repeat what it carries.  [HeaderMap] is a class
    with the two look-ups the code makes, and [TsvFormat] a class stating what a
    row type promises the log, so that the log's theorems serve both row types.

    ** The theorems

    Each file ends with its properties.  In order of importance:
    - routing ([Router]): what may be chosen, that it is the best, that a pinned
      target keeps its place and fails over to exactly the other viable buckets,
      that the ranking is a total order on comparable candidates;
    - failover ([Invoke]): how a walk ends, how often each lane is tried, which
      failures are retried, that each invocation leaves one ledger row, that a
      prompt stays one argument, that output is cleaned and read in bounded memory;
    - the gateway ([Gateway]): the four ways a request ends, and an invariant of
      every reachable state against the log of all dispatches; model routing
      against declarative rules; repeated requests;
    - the ledger ([Ledger], [RateLimit], [Headroom], [Usage]): the file implements
      a capped list of rows, reading inverts writing, aggregation per pool folds to
      aggregation per target, every number of a signal was read and none outlives
      its reset, the source of every ceiling, and agreement between the two
      readers of the ledger;
    - streams ([Sse]): decoding inverts writing whatever the chunks, ends, and
      holds a bounded buffer;
    - filters ([GitDiff], [ProxyFilters], [Grep], [ProxyLines], [Proxy]): nothing
      that matters is hidden, what is hidden is counted, and the filter is chosen
      by the longest matching command;
    - compression ([CompressSafety], [MlCompress]): what is protected comes out as it was
      whatever the passes do, a frame of XML is read back whole, and the words that must
      stay do when the budget has room for them;
    - the memory store ([MemSafety], [MemRows], [MemSweep]): an integrity invariant of
      every reachable state under every pattern of failures, deliveries that are
      atomic and take effect once, an index that mirrors the rows, originals and
      archived rows that are never lost, sweeps that embed everything;
    - recall ([MemWalk], [MemFuse], [MemSearch]): a bounded walk that is complete
      unless cut, fusion that does not depend on a hash map's order, queries that are
      never rejected, and hybrid recall that always answers;
    - forwarding ([Delivery], [Forward], [Collector]): no queued event is lost and every
      event arrives when both sides are up, by an invariant of all interleavings that
      the guest's commands refine; an event leaves the spool only when acknowledged; a
      token opens one store, and the gate admits exactly its bearers;
    - files ([Project], [Spool]): private directories and files are real, owned and
      closed to others or refused, replacement is all or nothing, a worktree is followed
      only to a repository that links back, and slugs are safe names;
    - the model cache ([ModelCacheSafety]): what is served without asking and for how long,
      that a lookup always answers and leaves a whole cache file, and that what a list
      command prints is within the cache's bounds;
    - templates ([ScaffoldSafety], [Repair], [Retire]): a scaffold is written inside its
      target and completely, a repair converges and loses nothing, what is retired can
      be recovered, whatever calls fail;
    - migration ([SessionRoutes], [EventSafety], [SchemaSafety], [MergeSafety],
      [RowSafety], [MigrateSafety]): a session goes where its nearest attributed ancestor
      goes, whole and with what it refers to; histories are complete, extended or
      archived, never lost; rows arrive once and private rows stay; doing a merge again
      changes nothing; no table outside the known ones is copied.  A run that fails leaves
      each project finished or as it was and no manifest; one that succeeds has delivered
      every project's rows and histories; no project gets another's sessions;
    - the sandbox ([SandboxSafety], [RegistrySafety], [SbxCommand], [StrictClaude]): what a
      sandboxed command can write to, what was checked before it runs, which texts are the
      strict line and that no other word names Claude, that trusted executables and the
      checkout's Git directories are what they claim, and that the registry is a bounded
      map the loader always accepts;
    - setup ([SetupSafety], [ConfigSafety], [JsoncSafety]): enabling changes two files
      together whatever calls fail, disabling undoes it, and an edit of the configuration
      touches one value and keeps the rest.

    Concrete witnesses follow the theorems that have hypotheses.  Lemmas named in
    the files as departures ([Router.compare_candidates_cycle],
    [GitText.git_status_panics], [ProxyLines.errors_only_overflow],
    [RateLimit.tiny_window_collapses], [Invoke.strict_claude_unrecorded],
    [Gateway.budget_spent_under_reports], [Gateway.budget_refuses_free_models],
    [MemRows.set_block_stale], [Collector.nonascii_token_locked_out],
    [Repair.dangling_contract_emptied], [SessionRoutes.Examples.stray_escapes_quarantine],
    [SbxCommand.Examples.expansion_after_assignment], [SbxCommand.Examples.newline_joins],
    [StrictClaude.Examples.foreign_parent_accepted], [JsoncSafety.Examples.comment_removed],
    [SetupSafety.Examples.registry_forgotten], [CompressSafety.Examples.forged_not_restored],
    [CompressSafety.Examples.markdown_trims], [MlCompress.Examples.negation_lost],
    [MlCompress.Examples.least_ratio_accepted])
    show where the code and its documentation or intent differ.

    ** Integers, fuel and bounds

    Integers are [N] with the operation the code uses: [wrap_add] for plain addition
    in a release build, [sat_add] for saturating addition, [option] for checked
    subtraction; [usize] is 64 bits wide.  Floats are [SpecFloat] at binary64, with
    [f32] values embedded.  Counters of lines or occurrences of a text in memory
    are unbounded.  Fuel appears where the code loops over something that is not
    a list: decimal printing (the bit length bounds the digits), durations (one
    turn per character), the decoder ([Sse.measure]: one turn per byte, chunk and
    stop, proved enough by [Sse.decode_terminates]), and the neighbour walk (one turn
    per visited row, at most the cap, proved enough by [MemWalk.walk_loop_spec]), the members
    of a JSONC object (a turn moves the cursor, [JsoncSafety.members_end]), the compressor's
    passes over a text (a turn takes a character, [CompressSafety.dedup_loop_fuel] and
    [CompressSafety.pack_loop_fuel]), and
    path resolution, whose forty links are the kernel's own bound ([Fs.MAX_LINKS]);
    elsewhere recursion is structural.

    ** Not modelled

    The HTTP adapters and the gateway's HTTP surface (JSON over libraries), the probes of
    tool detection, compression by a language model, by syntax trees
    and by an ONNX scorer, the memory store's
    listings, clustering and import, custom templates, prompts and their chains,
    security profiles, the backups of OpenCode sessions and the repair of
    runtime sessions, the rest of setup and of the command line, the dashboard and the MCP server, which call the parts above.  Of
    the collector, reading the credentials file is an argument.  Other processes change
    the file system only between the program's operations, not between two calls of
    one; two links to one file and the branches for systems other than Unix are left
    out.
    SQLite's limit on bound parameters and what other connections do between two
    statements are left out, except that a rival delivery may commit where the code
    looks a second time. *)
From stdpp Require Export base tactics list list_numbers gmap option numbers sorting.
From Stdlib Require Export Lia.

Declare Scope rust_scope.
Delimit Scope rust_scope with rust.
Open Scope rust_scope.
Open Scope N_scope.

(** ** Characters and strings

    A Rust [str] is valid UTF-8; it is modelled by its list of Unicode scalar
    values.  Byte offsets and byte lengths are recovered in [Str] with the
    width of each character. *)

Abbreviation char := N (only parsing).
Abbreviation str := (list N) (only parsing).

(** ** Machine integers: unsigned integers are [N] with an explicit bound. *)

Definition u16_max : N := 65535.
Definition u32_max : N := 4294967295.
Definition u64_max : N := 18446744073709551615.

(** [u64::saturating_add] and its 32-bit and [usize] versions. *)
Definition sat_add (max a b : N) : N := N.min (a + b) max.

(** [+] on an unsigned integer of a release build: wraps around. *)
Definition wrap_add (max a b : N) : N := (a + b) mod (max + 1).

(** [div_ceil], written as the quotient plus one when a remainder is left. *)
Definition div_ceil (a b : N) : N :=
  if a mod b =? 0 then a / b else a / b + 1.

(** ** [std::cmp::Ordering] *)

Abbreviation Ordering := comparison (only parsing).

(** [Ordering::then_with]. *)
Definition then_with (c d : Ordering) : Ordering :=
  match c with Eq => d | _ => c end.

Notation "c '.then' d" := (then_with c d)
  (at level 50, left associativity, format "c  '.then'  d") : rust_scope.

(** Lexicographic comparison: [Ord] on [str] and on slices. *)
Fixpoint str_cmp (a b : str) : Ordering :=
  match a, b with
  | [], [] => Eq
  | [], _ :: _ => Lt
  | _ :: _, [] => Gt
  | x :: a', y :: b' => (x ?= y) .then str_cmp a' b'
  end.

(** [Ord] on [Option]: [None] first. *)
Definition option_cmp {A} (cmp : A → A → Ordering) (a b : option A) : Ordering :=
  match a, b with
  | None, None => Eq
  | None, Some _ => Lt
  | Some _, None => Gt
  | Some x, Some y => cmp x y
  end.

(** ** Stable sorting: [slice::sort_by]

    The insertion sort the standard library runs: the element at the right of
    the sorted prefix moves left while it compares [Less] than its neighbour.
    The prefix is kept reversed.  On a comparator that is a total preorder every
    stable sort returns this list. *)

Section SortBy.
Context {A : Type} (cmp : A → A → Ordering).

Fixpoint insert_tail (x : A) (rprefix : list A) : list A :=
  match rprefix with
  | [] => [x]
  | e :: r => match cmp x e with Lt => e :: insert_tail x r | _ => x :: rprefix end
  end.

Definition sort_by (l : list A) : list A :=
  rev (foldl (λ acc x, insert_tail x acc) [] l).

(** [Vec::dedup_by] on consecutive equal elements. *)
Fixpoint dedup (l : list A) : list A :=
  match l with
  | [] => []
  | x :: l' =>
      match dedup l' with
      | [] => [x]
      | y :: r => match cmp x y with Eq => x :: r | _ => x :: y :: r end
      end
  end.
End SortBy.

(** Iteration order of a [BTreeMap] keyed by strings. *)
Definition btree_list {V} (m : gmap str V) : list (str * V) :=
  sort_by (λ a b, str_cmp a.1 b.1) (map_to_list m).

(** ** Tactics *)

Ltac case_eq_match :=
  match goal with
  | |- context [match ?x with _ => _ end] => destruct x eqn:?
  end.

(** [lia] with quotients and remainders taken as opaque numbers. *)
Ltac divmod_atoms :=
  repeat match goal with
  | |- context [?a mod ?b] => let x := fresh "r" in set (x := a mod b) in *; clearbody x
  | H : context [?a mod ?b] |- _ => let x := fresh "r" in set (x := a mod b) in *; clearbody x
  | |- context [?a / ?b] => let x := fresh "q" in set (x := a / b) in *; clearbody x
  | H : context [?a / ?b] |- _ => let x := fresh "q" in set (x := a / b) in *; clearbody x
  end.
Ltac nlia := divmod_atoms; lia.

(** ** Lemmas *)

Create HintDb rust discriminated.
Create Rewrite HintDb rust_simp.

Lemma sat_add_le_max max a b : sat_add max a b ≤ max.
Proof. unfold sat_add. lia. Qed.

Lemma sat_add_comm max a b : sat_add max a b = sat_add max b a.
Proof. unfold sat_add. lia. Qed.

Lemma sat_add_assoc max a b c :
  sat_add max (sat_add max a b) c = sat_add max a (sat_add max b c).
Proof. unfold sat_add. lia. Qed.

Lemma sat_add_0_l max a : a ≤ max → sat_add max 0 a = a.
Proof. unfold sat_add. lia. Qed.

Lemma div_ceil_spec a b : b ≠ 0 → a ≤ b * div_ceil a b < a + b.
Proof.
  intros Hb. unfold div_ceil.
  pose proof (N.div_mod a b Hb). pose proof (N.mod_lt a b Hb).
  divmod_atoms. destruct (N.eqb_spec r 0); nia.
Qed.

#[export] Hint Resolve sat_add_le_max : rust.

(** Laws a comparator has to satisfy for [sort_by] to be a total order sort. *)
Class TotalCmp {A} (cmp : A → A → Ordering) : Prop := {
  cmp_opp : ∀ x y, cmp y x = CompOpp (cmp x y);
  cmp_trans_lt : ∀ x y z, cmp x y = Lt → cmp y z = Lt → cmp x z = Lt;
  cmp_eq_compat : ∀ x y z, cmp x y = Eq → cmp x z = cmp y z;
}.

Lemma cmp_refl `{TotalCmp A cmp} x : cmp x x = Eq.
Proof. pose proof (cmp_opp x x) as E. by destruct (cmp x x). Qed.

Lemma then_with_opp c d : CompOpp (c .then d) = CompOpp c .then CompOpp d.
Proof. by destruct c. Qed.

Lemma then_with_assoc c d e : (c .then d) .then e = c .then (d .then e).
Proof. by destruct c. Qed.

Lemma then_with_Eq c d : c .then d = Eq ↔ c = Eq ∧ d = Eq.
Proof. destruct c, d; naive_solver. Qed.

Lemma then_with_Lt c d : c .then d = Lt ↔ c = Lt ∨ (c = Eq ∧ d = Lt).
Proof. destruct c, d; naive_solver. Qed.

#[export] Instance N_compare_total : TotalCmp N.compare.
Proof.
  split.
  - intros x y. apply N.compare_antisym.
  - intros x y z. rewrite !N.compare_lt_iff. lia.
  - intros x y z ->%N.compare_eq_iff. done.
Qed.

(** Comparing by a projection keeps the laws. *)
#[export] Instance proj_total {A B} (f : A → B) (cmp : B → B → Ordering)
  `{!TotalCmp cmp} : TotalCmp (λ x y, cmp (f x) (f y)) | 10.
Proof.
  split; intros; [apply cmp_opp | by eapply cmp_trans_lt | by apply cmp_eq_compat].
Qed.

Lemma flip_total {A} (cmp : A → A → Ordering) :
  TotalCmp cmp → TotalCmp (λ x y, cmp y x).
Proof.
  intros H. split.
  - intros x y. apply cmp_opp.
  - intros x y z H1 H2. by eapply cmp_trans_lt.
  - intros x y z E. rewrite (cmp_opp x z), (cmp_opp y z).
    f_equal. rewrite (cmp_opp x y) in E. apply cmp_eq_compat.
    by destruct (cmp x y).
Qed.

(** Lexicographic composition of two total comparators is total. *)
Lemma then_total {A} (c1 c2 : A → A → Ordering) :
  TotalCmp c1 → TotalCmp c2 → TotalCmp (λ x y, c1 x y .then c2 x y).
Proof.
  intros H1 H2. split.
  - intros x y. by rewrite then_with_opp, <-!cmp_opp.
  - intros x y z. rewrite !then_with_Lt.
    assert (Heq : ∀ a b, c1 a b = Eq → c1 b a = Eq).
    { intros a b E. by rewrite (cmp_opp a b), E. }
    intros [L1|[E1 L1]] [L2|[E2 L2]].
    + left. by eapply cmp_trans_lt.
    + left. rewrite (cmp_opp z x), <-(cmp_eq_compat y z x) by done.
      rewrite (cmp_opp x y), L1. done.
    + left. by rewrite (cmp_eq_compat x y z).
    + right. rewrite (cmp_eq_compat x y z) by done. split; [done|].
      by eapply cmp_trans_lt.
  - intros x y z [E1 E2]%then_with_Eq.
    by rewrite (cmp_eq_compat x y z), (cmp_eq_compat (cmp:=c2) x y z).
Qed.

Lemma str_cmp_eq a b : str_cmp a b = Eq ↔ a = b.
Proof.
  revert b. induction a as [|x a IH]; intros [|y b]; cbn; try naive_solver.
  rewrite then_with_Eq, N.compare_eq_iff, IH. naive_solver.
Qed.

#[export] Instance str_cmp_total : TotalCmp str_cmp.
Proof.
  split.
  - induction x as [|x a IH]; intros [|y b]; cbn; try done.
    by rewrite then_with_opp, IH, <-N.compare_antisym.
  - induction x as [|x a IH]; intros [|y b] [|z c]; cbn; try done.
    rewrite !then_with_Lt, !N.compare_lt_iff, !N.compare_eq_iff.
    intros [?|[-> ?]] [?|[-> ?]]; eauto; left; lia.
  - intros x y z ->%str_cmp_eq. done.
Qed.

#[export] Instance option_cmp_total {A} (cmp : A → A → Ordering) :
  TotalCmp cmp → TotalCmp (option_cmp cmp).
Proof.
  intros H. split.
  - intros [x|] [y|]; cbn; auto. apply cmp_opp.
  - intros [x|] [y|] [z|]; cbn; try done. apply cmp_trans_lt.
  - intros [x|] [y|] [z|]; cbn; try done. apply cmp_eq_compat.
Qed.

(** *** [sort_by] *)

Section SortByLemmas.
Context {A : Type} (cmp : A → A → Ordering).

Lemma insert_tail_perm x r : insert_tail cmp x r ≡ₚ x :: r.
Proof.
  induction r as [|e r IH]; cbn; [done|].
  destruct (cmp x e); try done. rewrite IH. by constructor.
Qed.

Lemma sort_by_perm l : sort_by cmp l ≡ₚ l.
Proof.
  unfold sort_by. rewrite <-Permutation_rev.
  cut (∀ acc, foldl (λ acc x, insert_tail cmp x acc) acc l ≡ₚ acc ++ l).
  { intros H. apply H. }
  induction l as [|x l IH]; intros acc; cbn; [by rewrite app_nil_r|].
  rewrite IH, insert_tail_perm. cbn. apply Permutation_middle.
Qed.

Lemma sort_by_length l : length (sort_by cmp l) = length l.
Proof. by rewrite sort_by_perm. Qed.

Lemma elem_of_sort_by x l : x ∈ sort_by cmp l ↔ x ∈ l.
Proof. by rewrite sort_by_perm. Qed.

(** [R] is any transitive relation the comparator decides the right way, which
    need not be the comparator's own order: a prefix of its sort keys is
    enough.  No totality of [cmp] itself is required. *)
Context (R : A → A → Prop) `{!Transitive R}.
Hypothesis cmp_lt : ∀ x e, cmp x e = Lt → R x e.
Hypothesis cmp_ge : ∀ x e, cmp x e ≠ Lt → R e x.

Lemma insert_tail_sorted x r :
  StronglySorted (flip R) r → StronglySorted (flip R) (insert_tail cmp x r).
Proof using All.
  induction 1 as [|e r Hr IH He]; cbn; [by repeat constructor|].
  assert (Hstop : cmp x e ≠ Lt → StronglySorted (flip R) (x :: e :: r)).
  { intros Hge%cmp_ge. constructor; [by constructor|].
    constructor; [done|]. eapply Forall_impl; [done|].
    intros y Hy. unfold flip in *. by etrans. }
  destruct (cmp x e) eqn:E; [by apply Hstop| |by apply Hstop].
  constructor; [done|]. rewrite insert_tail_perm. constructor; [by apply cmp_lt|done].
Qed.

Lemma StronglySorted_rev (l : list A) :
  StronglySorted (flip R) l → StronglySorted R (rev l).
Proof using.
  induction 1 as [|x l Hl IH Hx]; cbn; [constructor|].
  clear Hl. apply StronglySorted_app_2; [|done|by repeat constructor].
  intros y z Hy%list_elem_of_In%in_rev%list_elem_of_In ->%list_elem_of_singleton.
  rewrite Forall_forall in Hx. by apply Hx.
Qed.

Lemma sort_by_sorted l : StronglySorted R (sort_by cmp l).
Proof using All.
  unfold sort_by. apply StronglySorted_rev.
  cut (∀ acc, StronglySorted (flip R) acc →
    StronglySorted (flip R) (foldl (λ acc x, insert_tail cmp x acc) acc l)).
  { intros H. apply H. constructor. }
  induction l as [|x l IH]; intros acc Hacc; cbn; [done|].
  apply IH, insert_tail_sorted, Hacc.
Qed.

Lemma sort_by_head l x r : sort_by cmp l = x :: r → Forall (R x) r.
Proof using All.
  intros E. pose proof (sort_by_sorted l) as H. rewrite E in H. by inv H.
Qed.
End SortByLemmas.

(** *** Consequences of the comparator laws *)

Lemma total_ext {A} (c1 c2 : A → A → Ordering) :
  (∀ x y, c1 x y = c2 x y) → TotalCmp c2 → TotalCmp c1.
Proof.
  intros E H. split; intros *; rewrite !E; [apply cmp_opp|apply cmp_trans_lt|apply cmp_eq_compat].
Qed.

Lemma cmp_not_Gt_trans `{TotalCmp A cmp} x y z : cmp x y ≠ Gt → cmp y z ≠ Gt → cmp x z ≠ Gt.
Proof.
  intros H1 H2. destruct (cmp x y) eqn:E1; [by rewrite (cmp_eq_compat x y z)| |done].
  destruct (cmp y z) eqn:E2; [|by rewrite (cmp_trans_lt x y z)|done].
  assert (E : cmp z y = Eq) by by rewrite (cmp_opp y z), E2.
  rewrite (cmp_opp z x), (cmp_eq_compat z y x), (cmp_opp x y), E1 by done. done.
Qed.

Lemma cmp_not_Lt `{TotalCmp A cmp} x y : cmp x y ≠ Lt → cmp y x ≠ Gt.
Proof. pose proof (cmp_opp x y) as E. rewrite E. by destruct (cmp x y). Qed.

(** Under a total comparator the sort is sorted, each element against every later one. *)
Lemma sort_by_sorted_total `{TotalCmp A cmp} l :
  StronglySorted (λ x y, cmp x y ≠ Gt) (sort_by cmp l).
Proof.
  apply sort_by_sorted.
  - intros x y z. apply cmp_not_Gt_trans.
  - intros x y E. by rewrite E.
  - intros x y. apply cmp_not_Lt.
Qed.

Lemma elem_of_dedup {A} (cmp : A → A → Ordering) l x :
  (∀ x y, cmp x y = Eq → x = y) → x ∈ dedup cmp l ↔ x ∈ l.
Proof.
  intros Heq. induction l as [|a l IH]; [done|]. cbn.
  destruct (dedup cmp l) as [|b r] eqn:E.
  - rewrite !elem_of_cons, <-IH. done.
  - destruct (cmp a b) eqn:Eab; [apply Heq in Eab as ->|..];
      rewrite !elem_of_cons, <-IH, !elem_of_cons; naive_solver.
Qed.

Lemma filter_sublist {A} (p : A → bool) l : List.filter p l `sublist_of` l.
Proof.
  induction l as [|x l IH]; cbn; [done|]. destruct (p x); [by apply sublist_skip|by apply sublist_cons].
Qed.

(** A map filled by one insertion per key of a list. *)
Lemma foldl_insert_lookup {A V} (f : A → str) (g : A → V) (l : list A) (m : gmap str V) k v :
  foldl (λ out a, <[f a := g a]> out) m l !! k = Some v →
  (∃ a, a ∈ l ∧ f a = k ∧ v = g a) ∨ m !! k = Some v.
Proof.
  revert m. induction l as [|a l IH]; intros m; cbn; [by right|].
  intros [(b & Hb & ? & ?)|Hm]%IH; [left; exists b; set_solver|].
  destruct (decide (f a = k)) as [<-|Hne].
  - rewrite lookup_insert_eq in Hm. injection Hm as <-. left. exists a. set_solver.
  - rewrite lookup_insert_ne in Hm by done. by right.
Qed.

Lemma foldl_insert_is_Some {A V} (f : A → str) (g : A → V) (l : list A) (m : gmap str V) k :
  is_Some (foldl (λ out a, <[f a := g a]> out) m l !! k) ↔
  (∃ a, a ∈ l ∧ f a = k) ∨ is_Some (m !! k).
Proof.
  revert m. induction l as [|a l IH]; intros m; cbn; [set_solver|].
  rewrite IH, lookup_insert_is_Some'. set_solver.
Qed.

Lemma elem_of_filter_bool {A} (p : A → bool) l x : x ∈ List.filter p l ↔ p x = true ∧ x ∈ l.
Proof. rewrite !list_elem_of_In, filter_In. naive_solver. Qed.

(** Filling a map with the entries that have a value; every element that shares a
    key agrees on the value. *)
Definition insert_option {V} (m : gmap str V) (k : str) (v : option V) : gmap str V :=
  match v with Some v => <[k := v]> m | None => m end.

Section InsertOption.
Context {A V : Type} (f : A → str) (g : A → option V).

Lemma foldl_insert_option_keep l m k o :
  (∀ a, a ∈ l → f a = k → g a = o) → m !! k = o →
  foldl (λ m a, insert_option m (f a) (g a)) m l !! k = o.
Proof using.
  revert m. induction l as [|a l IH]; intros m Ha Hm; cbn; [done|].
  apply IH; [set_solver|]. specialize (Ha a ltac:(set_solver)).
  destruct (g a) as [v|] eqn:E; cbn; [|done].
  destruct (decide (f a = k)) as [<-|Hne]; [|by rewrite lookup_insert_ne].
  rewrite lookup_insert_eq. by apply Ha.
Qed.

Lemma foldl_insert_option_lookup l m k o :
  (∀ a, a ∈ l → f a = k → g a = o) → m !! k = None →
  ((∃ a, a ∈ l ∧ f a = k) ∨ o = None) →
  foldl (λ m a, insert_option m (f a) (g a)) m l !! k = o.
Proof using.
  revert m. induction l as [|a l IH]; intros m Ha Hm Hex; cbn.
  { destruct Hex as [(a & Hin & _)| ->]; [set_solver|done]. }
  destruct (decide (f a = k)) as [<-|Hne].
  - apply foldl_insert_option_keep; [set_solver|].
    specialize (Ha a ltac:(set_solver) eq_refl).
    destruct (g a) as [v|]; cbn; [by rewrite lookup_insert_eq|congruence].
  - apply IH; [set_solver| |set_solver].
    destruct (g a); cbn; [by rewrite lookup_insert_ne|done].
Qed.
End InsertOption.

Lemma foldl_concat_map {A B C} (step : C → B → C) (h : A → list B) (l : list A) (c : C) :
  foldl (λ c a, foldl step c (h a)) c l = foldl step c (concat (map h l)).
Proof. revert c. induction l as [|a l IH]; intros c; cbn; [done|]. by rewrite foldl_app, IH. Qed.

Lemma foldl_insert_absent {A V} (f : A → str) (g : A → V) (l : list A) (m : gmap str V) k :
  (∀ a, a ∈ l → f a ≠ k) → foldl (λ m a, <[f a := g a]> m) m l !! k = m !! k.
Proof.
  revert m. induction l as [|a l IH]; intros m Ha; cbn; [done|].
  rewrite IH by set_solver. apply lookup_insert_ne, Ha. set_solver.
Qed.

Lemma foldl_insert_unique {A V} (f : A → str) (g : A → V) (l : list A) (m : gmap str V) k v :
  (∀ a, a ∈ l → f a = k → g a = v) → (∃ a, a ∈ l ∧ f a = k) →
  foldl (λ m a, <[f a := g a]> m) m l !! k = Some v.
Proof.
  induction l as [|a l IH] using rev_ind; intros Ha Hex; [set_solver|].
  rewrite foldl_app. cbn. destruct (decide (f a = k)) as [<-|Hne].
  - rewrite lookup_insert_eq. f_equal. apply Ha; [set_solver|done].
  - rewrite lookup_insert_ne by done. apply IH; [set_solver|].
    destruct Hex as (b & [Hb| ->%list_elem_of_singleton]%elem_of_app & Hk); [by exists b|done].
Qed.

(** The sort only looks at the comparisons of its elements. *)
Lemma sort_by_ext {A} (c1 c2 : A → A → Ordering) (l : list A) :
  (∀ x y, x ∈ l → y ∈ l → c1 x y = c2 x y) → sort_by c1 l = sort_by c2 l.
Proof.
  intros E. unfold sort_by. f_equal.
  assert (Hins : ∀ x r, x ∈ l → (∀ y, y ∈ r → y ∈ l) → insert_tail c1 x r = insert_tail c2 x r).
  { intros x r Hx. induction r as [|y r IH]; intros Hr; cbn; [done|].
    rewrite E by (auto || set_solver). rewrite IH by set_solver. done. }
  cut (∀ l' acc, (∀ y, y ∈ l' → y ∈ l) → (∀ y, y ∈ acc → y ∈ l) →
    foldl (λ acc x, insert_tail c1 x acc) acc l' = foldl (λ acc x, insert_tail c2 x acc) acc l').
  { intros H. apply H; [done|]. set_solver. }
  intros l'. induction l' as [|x l' IH]; intros acc Hl' Hacc; cbn; [done|].
  rewrite Hins by (auto || set_solver). apply IH; [set_solver|].
  intros y. rewrite insert_tail_perm. set_solver.
Qed.
