(* ===== verification/Str.v ===== *)
(** * The [str] operations of the Rust standard library

    Strings are lists of Unicode scalar values.  This file gives the [str]
    methods the program calls: searching, splitting, trimming, case folding,
    decimal printing and parsing, and byte offsets. *)
From S2P Require Import Prelude.
From Stdlib Require Import Ascii.
From Stdlib Require String.
Export String.StringSyntax.
Delimit Scope string_scope with string.

(** ** Literals: the UTF-8 text of a source literal as scalar values. *)

Definition byte_of (c : ascii) : N := N_of_ascii c.

Fixpoint lit (s : String.string) : str :=
  match s with
  | String.EmptyString => []
  | String.String a s1 =>
      let b := byte_of a in
      if b <? 128 then b :: lit s1 else
      match s1 with
      | String.EmptyString => [b]
      | String.String a1 s2 =>
          if b <? 224 then N.land b 31 * 64 + N.land (byte_of a1) 63 :: lit s2 else
          match s2 with
          | String.EmptyString => [b]
          | String.String a2 s3 =>
              if b <? 240 then
                (N.land b 15 * 64 + N.land (byte_of a1) 63) * 64 + N.land (byte_of a2) 63 :: lit s3
              else
              match s3 with
              | String.EmptyString => [b]
              | String.String a3 s4 =>
                  ((N.land b 7 * 64 + N.land (byte_of a1) 63) * 64 + N.land (byte_of a2) 63) * 64
                    + N.land (byte_of a3) 63 :: lit s4
              end
          end
      end
  end.
Arguments lit : simpl never.

Notation "$ s" := (lit s%string) (at level 1, s at level 0, format "$ s") : rust_scope.

(** Character constants. *)
Definition ch_nl : char := 10.
Definition ch_cr : char := 13.
Definition ch_tab : char := 9.
Definition ch_space : char := 32.
Definition ch_slash : char := 47.

(** ** Characters *)

(** [char::is_whitespace]: the Unicode [White_Space] property. *)
Definition is_whitespace (c : char) : bool :=
  ((9 <=? c) && (c <=? 13)) || (c =? 32) || (c =? 133) || (c =? 160) || (c =? 5760)
  || ((8192 <=? c) && (c <=? 8202)) || (c =? 8232) || (c =? 8233) || (c =? 8239)
  || (c =? 8287) || (c =? 12288).

Definition is_ascii_digit (c : char) : bool := (48 <=? c) && (c <=? 57).

Definition is_ascii_alphabetic (c : char) : bool :=
  ((65 <=? c) && (c <=? 90)) || ((97 <=? c) && (c <=? 122)).

(** [u8::is_ascii_whitespace]: space, tab, LF, FF, CR. *)
Definition is_ascii_whitespace (c : char) : bool :=
  (c =? 32) || (c =? 9) || (c =? 10) || (c =? 12) || (c =? 13).

Definition ascii_lower (c : char) : char :=
  if (65 <=? c) && (c <=? 90) then c + 32 else c.

(** Number of UTF-8 bytes of a character. *)
Definition utf8_width (c : char) : N :=
  if c <? 128 then 1 else if c <? 2048 then 2 else if c <? 65536 then 3 else 4.

(** ** Whole strings *)

Definition str_eqb (a b : str) : bool := bool_decide (a = b).

(** [str::len]: the length in bytes. *)
Definition str_len (s : str) : N := foldr (λ c n, utf8_width c + n) 0 s.

Definition is_empty (s : str) : bool := match s with [] => true | _ => false end.

Definition to_ascii_lowercase (s : str) : str := map ascii_lower s.

Definition eq_ignore_ascii_case (a b : str) : bool :=
  str_eqb (to_ascii_lowercase a) (to_ascii_lowercase b).

Definition is_ascii (s : str) : bool := forallb (λ c, c <? 128) s.

(** ** Trimming *)

Fixpoint drop_while (p : char → bool) (s : str) : str :=
  match s with
  | [] => []
  | c :: s' => if p c then drop_while p s' else s
  end.

Definition trim_start_matches (p : char → bool) (s : str) : str := drop_while p s.
Definition trim_end_matches (p : char → bool) (s : str) : str := rev (drop_while p (rev s)).
Definition trim_start (s : str) : str := trim_start_matches is_whitespace s.
Definition trim_end (s : str) : str := trim_end_matches is_whitespace s.
Definition trim (s : str) : str := trim_end (trim_start s).

(** ** Searching *)

Fixpoint strip_prefix (p s : str) : option str :=
  match p, s with
  | [], _ => Some s
  | _ :: _, [] => None
  | x :: p', y :: s' => if x =? y then strip_prefix p' s' else None
  end.

Definition starts_with (s p : str) : bool :=
  match strip_prefix p s with Some _ => true | None => false end.

Definition strip_suffix (p s : str) : option str :=
  (@rev char) <$> strip_prefix (rev p) (rev s).

Definition ends_with (s p : str) : bool :=
  match strip_suffix p s with Some _ => true | None => false end.

(** [str::split_once] with a string pattern: the first occurrence. *)
Fixpoint split_once (p s : str) : option (str * str) :=
  match strip_prefix p s with
  | Some rest => Some ([], rest)
  | None =>
      match s with
      | [] => None
      | c :: s' => match split_once p s' with Some (a, b) => Some (c :: a, b) | None => None end
      end
  end.

Definition contains (s p : str) : bool :=
  match split_once p s with Some _ => true | None => false end.

(** [split_once] with a character pattern. *)
Fixpoint split_once_char (d : char) (s : str) : option (str * str) :=
  match s with
  | [] => None
  | c :: s' =>
      if c =? d then Some ([], s')
      else match split_once_char d s' with Some (a, b) => Some (c :: a, b) | None => None end
  end.

Definition contains_char (s : str) (d : char) : bool := existsb (N.eqb d) s.

(** ** Splitting and joining *)

(** [str::split] on a character: always at least one piece. *)
Fixpoint split_char (d : char) (s : str) : list str :=
  match s with
  | [] => [[]]
  | c :: s' =>
      if c =? d then [] :: split_char d s'
      else match split_char d s' with
           | [] => [[c]]
           | w :: ws => (c :: w) :: ws
           end
  end.

(** [str::split_inclusive('\n')]: pieces keep their terminator, and there is no
    empty last piece. *)
Fixpoint split_inclusive_nl (s : str) : list str :=
  match s with
  | [] => []
  | c :: s' =>
      if c =? ch_nl then [c] :: split_inclusive_nl s'
      else match split_inclusive_nl s' with
           | [] => [[c]]
           | w :: ws => (c :: w) :: ws
           end
  end.

(** The line terminator [str::lines] removes from a piece. *)
Definition strip_eol (piece : str) : str :=
  match strip_suffix [ch_nl] piece with
  | None => piece
  | Some l => match strip_suffix [ch_cr] l with None => l | Some l' => l' end
  end.

Definition lines (s : str) : list str := map strip_eol (split_inclusive_nl s).

(** [str::split_whitespace]. *)
Fixpoint split_ws_aux (word : str) (s : str) : list str :=
  match s with
  | [] => match word with [] => [] | _ => [rev word] end
  | c :: s' =>
      if is_whitespace c
      then match word with [] => split_ws_aux [] s' | _ => rev word :: split_ws_aux [] s' end
      else split_ws_aux (c :: word) s'
  end.

Definition split_whitespace (s : str) : list str := split_ws_aux [] s.

Fixpoint join (sep : str) (ws : list str) : str :=
  match ws with
  | [] => []
  | [w] => w
  | w :: ws' => w ++ sep ++ join sep ws'
  end.

(** A line with its terminator, as [push_str(line); push('\n')] appends it. *)
Definition with_nl (l : str) : str := l ++ [ch_nl].
Definition unlines (ls : list str) : str := concat (map with_nl ls).

(** ** Byte offsets *)

(** The prefix and the rest at a byte offset; [None] when the offset is past the
    end or inside a character, where slicing panics. *)
Fixpoint split_at_byte (n : N) (s : str) : option (str * str) :=
  if n =? 0 then Some ([], s) else
  match s with
  | [] => None
  | c :: s' =>
      if n <? utf8_width c then None
      else match split_at_byte (n - utf8_width c) s' with
           | Some (a, b) => Some (c :: a, b)
           | None => None
           end
  end.

(** ** Decimal numbers *)

Fixpoint show_digits (fuel : nat) (n : N) (acc : str) : str :=
  match fuel with
  | O => acc
  | S fuel' =>
      let acc' := 48 + n mod 10 :: acc in
      if n / 10 =? 0 then acc' else show_digits fuel' (n / 10) acc'
  end.

(** [Display] of an unsigned integer.  The fuel is the bit length, which bounds
    the number of decimal digits. *)
Definition show_N (n : N) : str := show_digits (S (N.to_nat (N.size n))) n [].

Definition digits_value (ds : str) : N := foldl (λ v c, v * 10 + (c - 48)) 0 ds.

(** [str::parse] for an unsigned integer type with the given maximum: an
    optional [+], then at least one digit, and no overflow. *)
Definition parse_uint (max : N) (s : str) : option N :=
  let ds := match s with 43 :: s' => s' | _ => s end in
  match ds with
  | [] => None
  | _ => if forallb is_ascii_digit ds
         then let v := digits_value ds in if v <=? max then Some v else None
         else None
  end.

Definition parse_u64 : str → option N := parse_uint u64_max.
Definition parse_u32 : str → option N := parse_uint u32_max.
Definition parse_u16 : str → option N := parse_uint u16_max.
(** [usize] on the 64-bit targets the program is released for. *)
Definition parse_usize : str → option N := parse_uint u64_max.

(** ** Lemmas *)

Lemma str_eqb_eq a b : str_eqb a b = true ↔ a = b.
Proof. unfold str_eqb. by rewrite bool_decide_eq_true. Qed.

Lemma strip_prefix_Some p s r : strip_prefix p s = Some r ↔ s = p ++ r.
Proof.
  revert s. induction p as [|x p IH]; intros [|y s]; cbn; try (split; congruence).
  destruct (N.eqb_spec x y) as [->|]; [rewrite IH|]; split; congruence.
Qed.

Lemma strip_prefix_app p r : strip_prefix p (p ++ r) = Some r.
Proof. by apply strip_prefix_Some. Qed.

Lemma starts_with_spec s p : starts_with s p = true ↔ ∃ r, s = p ++ r.
Proof.
  unfold starts_with. destruct (strip_prefix p s) as [r|] eqn:E.
  - apply strip_prefix_Some in E. naive_solver.
  - split; [done|]. intros [r ->]. by rewrite strip_prefix_app in E.
Qed.

Lemma strip_suffix_Some p s r : strip_suffix p s = Some r ↔ s = r ++ p.
Proof.
  unfold strip_suffix. rewrite fmap_Some. setoid_rewrite strip_prefix_Some. split.
  - intros (x & E & ->). by rewrite <-(rev_involutive s), E, rev_app_distr, rev_involutive.
  - intros ->. exists (rev r). by rewrite rev_app_distr, rev_involutive.
Qed.

Lemma split_once_char_app d a b :
  d ∉ a → split_once_char d (a ++ d :: b) = Some (a, b).
Proof.
  induction a as [|c a IH]; cbn; intros Hd; [by rewrite N.eqb_refl|].
  destruct (N.eqb_spec c d); [set_solver|]. rewrite IH by set_solver. done.
Qed.

Lemma split_once_char_Some d s a b :
  split_once_char d s = Some (a, b) → s = a ++ d :: b ∧ d ∉ a.
Proof.
  revert a. induction s as [|c s IH]; intros a; cbn; [done|].
  destruct (N.eqb_spec c d) as [->|Hne]; [intros [= <- <-]; set_solver|].
  destruct (split_once_char d s) as [[a' b']|]; [|done]. intros [= <- <-].
  destruct (IH a' eq_refl) as [-> ?]. set_solver.
Qed.

Lemma split_once_char_None d s : split_once_char d s = None ↔ d ∉ s.
Proof.
  induction s as [|c s IH]; cbn; [set_solver|].
  destruct (N.eqb_spec c d) as [->|Hne]; [set_solver|].
  destruct (split_once_char d s) as [[a b]|]; set_solver.
Qed.

Lemma split_char_nonempty d s : split_char d s ≠ [].
Proof. destruct s as [|c s]; cbn; [done|]. destruct (c =? d); [done|]. by destruct (split_char d s). Qed.

(** A separator-free prefix is the first piece. *)
Lemma split_char_app d w s : d ∉ w → split_char d (w ++ d :: s) = w :: split_char d s.
Proof.
  induction w as [|c w IH]; cbn; intros Hd; [by rewrite N.eqb_refl|].
  destruct (N.eqb_spec c d); [set_solver|]. by rewrite IH by set_solver.
Qed.

Lemma split_char_free d w : d ∉ w → split_char d w = [w].
Proof.
  induction w as [|c w IH]; cbn; intros Hd; [done|].
  destruct (N.eqb_spec c d); [set_solver|]. by rewrite IH by set_solver.
Qed.

(** *** Trimming *)

Lemma drop_while_idem p s : drop_while p (drop_while p s) = drop_while p s.
Proof. induction s as [|c s IH]; cbn; [done|]. destruct (p c) eqn:E; [done|]. cbn. by rewrite E. Qed.

Lemma drop_while_suffix p s : ∃ l, s = l ++ drop_while p s ∧ Forall (λ c, p c = true) l.
Proof.
  induction s as [|c s (l & E & Hl)]; cbn; [by exists []|].
  destruct (p c) eqn:Hc; [|by exists []].
  exists (c :: l). split; [cbn; congruence|by constructor].
Qed.

Lemma drop_while_fixed p s :
  match s with [] => True | c :: _ => p c = false end → drop_while p s = s.
Proof. destruct s as [|c s]; cbn; [done|]. by intros ->. Qed.

Lemma drop_while_hd p s : match drop_while p s with [] => True | c :: _ => p c = false end.
Proof. induction s as [|c s IH]; cbn; [done|]. by destruct (p c) eqn:E. Qed.

Lemma drop_while_all p s : Forall (λ c, p c = true) s → drop_while p s = [].
Proof. induction 1 as [|c s Hc _ IH]; cbn; [done|]. by rewrite Hc. Qed.

(** No leading and no trailing white space. *)
Definition trimmed (s : str) : Prop :=
  match s with [] => True | c :: _ => is_whitespace c = false end ∧
  match rev s with [] => True | c :: _ => is_whitespace c = false end.

Lemma trim_fixed s : trimmed s → trim s = s.
Proof.
  intros [H1 H2]. unfold trim, trim_end, trim_end_matches, trim_start, trim_start_matches.
  rewrite (drop_while_fixed _ s) by done. rewrite drop_while_fixed by done.
  apply rev_involutive.
Qed.

Lemma trimmed_trim s : trimmed (trim s).
Proof.
  unfold trim, trim_end, trim_end_matches, trim_start, trim_start_matches.
  set (t := drop_while is_whitespace s).
  assert (Ht : match t with [] => True | c :: _ => is_whitespace c = false end)
    by apply drop_while_hd.
  split; [|rewrite rev_involutive; apply drop_while_hd].
  destruct (drop_while_suffix is_whitespace (rev t)) as (l & E & Hl).
  set (u := drop_while is_whitespace (rev t)) in *.
  assert (Et : t = rev u ++ rev l).
  { by rewrite <-(rev_involutive t), E, rev_app_distr. }
  destruct (rev u) as [|c r]; [done|]. by rewrite Et in Ht.
Qed.

Lemma trim_idem s : trim (trim s) = trim s.
Proof. apply trim_fixed, trimmed_trim. Qed.

Lemma ascii_lower_whitespace c : is_whitespace (ascii_lower c) = is_whitespace c.
Proof.
  unfold ascii_lower. destruct ((65 <=? c) && (c <=? 90)) eqn:E; [|done].
  apply andb_prop in E as [?%N.leb_le ?%N.leb_le]. unfold is_whitespace.
  repeat match goal with
  | |- context [?a =? ?b] => destruct (N.eqb_spec a b); [lia|]
  | |- context [?a <=? ?b] => destruct (N.leb_spec a b); try lia
  end; done.
Qed.

Lemma ascii_lower_idem c : ascii_lower (ascii_lower c) = ascii_lower c.
Proof.
  unfold ascii_lower at 2 3. destruct ((65 <=? c) && (c <=? 90)) eqn:E;
    unfold ascii_lower; [|by rewrite E].
  apply andb_prop in E as [?%N.leb_le ?%N.leb_le].
  destruct (N.leb_spec (c + 32) 90); [lia|]. by rewrite andb_false_r.
Qed.

Lemma to_ascii_lowercase_idem s :
  to_ascii_lowercase (to_ascii_lowercase s) = to_ascii_lowercase s.
Proof. unfold to_ascii_lowercase. rewrite map_map. apply map_ext, ascii_lower_idem. Qed.

Lemma to_ascii_lowercase_trimmed s : trimmed s → trimmed (to_ascii_lowercase s).
Proof.
  unfold trimmed, to_ascii_lowercase. rewrite <-map_rev.
  destruct s as [|c s]; [done|]. destruct (rev (c :: s)) as [|c' s']; cbn;
    by rewrite ?ascii_lower_whitespace.
Qed.

(** *** Decimal round trip *)

Lemma digits_value_app v ds c :
  foldl (λ v c, v * 10 + (c - 48)) v (ds ++ [c]) =
  foldl (λ v c, v * 10 + (c - 48)) v ds * 10 + (c - 48).
Proof. by rewrite foldl_app. Qed.

Definition digit_str (s : str) : Prop := Forall (λ c, is_ascii_digit c = true) s.

Lemma is_ascii_digit_show n : is_ascii_digit (48 + n mod 10) = true.
Proof.
  unfold is_ascii_digit. pose proof (N.mod_lt n 10 ltac:(done)).
  rewrite andb_true_iff, !N.leb_le. nlia.
Qed.

Lemma show_digits_app fuel n acc : show_digits fuel n acc = show_digits fuel n [] ++ acc.
Proof.
  revert n acc. induction fuel as [|fuel IH]; intros n acc; cbn; [done|].
  destruct (n / 10 =? 0); [done|]. rewrite IH, (IH _ [_]), <-app_assoc. done.
Qed.

Lemma show_digits_digit fuel n : digit_str (show_digits fuel n []).
Proof.
  revert n. induction fuel as [|fuel IH]; intros n; cbn; [constructor|].
  assert (H1 : digit_str [48 + n mod 10]) by (constructor; [apply is_ascii_digit_show|constructor]).
  destruct (n / 10 =? 0); [done|]. rewrite show_digits_app.
  apply Forall_app_2; [apply IH|done].
Qed.

Lemma show_digits_value fuel n :
  n < 2 ^ N.of_nat fuel → digits_value (show_digits fuel n []) = n.
Proof.
  unfold digits_value. revert n. induction fuel as [|fuel IH]; intros n Hn.
  { cbn in Hn |- *. change (2 ^ 0) with 1 in Hn. lia. }
  cbn [show_digits]. pose proof (N.div_mod n 10 ltac:(done)) as Hdm.
  pose proof (N.mod_lt n 10 ltac:(done)).
  destruct (N.eqb_spec (n / 10) 0) as [E|E].
  - rewrite E in Hdm. cbn [foldl]. nlia.
  - rewrite show_digits_app, digits_value_app, IH.
    + nlia.
    + rewrite Nat2N.inj_succ, N.pow_succ_r' in Hn.
      apply N.Div0.div_lt_upper_bound; lia.
Qed.

Lemma show_N_digits n : digit_str (show_N n).
Proof. apply show_digits_digit. Qed.

Lemma show_N_nonempty n : show_N n ≠ [].
Proof.
  unfold show_N. cbn [show_digits]. destruct (n / 10 =? 0); [done|].
  rewrite show_digits_app. by destruct (show_digits _ _ []).
Qed.

Lemma show_N_value n : digits_value (show_N n) = n.
Proof.
  apply show_digits_value. rewrite Nat2N.inj_succ, N2Nat.id, N.pow_succ_r'.
  pose proof (N.size_gt n). lia.
Qed.

(** Printing then parsing gives the number back, for every value of the type. *)
Lemma parse_show max n : n ≤ max → parse_uint max (show_N n) = Some n.
Proof.
  intros Hn. unfold parse_uint.
  pose proof (show_N_digits n) as Hd. pose proof (show_N_nonempty n).
  pose proof (show_N_value n) as Hv.
  destruct (show_N n) as [|c s] eqn:E; [done|].
  assert (Hc : c ≠ 43).
  { inversion Hd as [|?? Hc]; subst. intros ->. done. }
  assert (Hm : match c :: s with 43 :: s' => s' | _ => c :: s end = c :: s).
  { destruct c as [|p]; [done|].
    repeat (destruct p as [p|p|]; try done). }
  rewrite Hm. rewrite (proj2 (forallb_forall _ _)).
  - rewrite Hv. cbn. by rewrite (proj2 (N.leb_le _ _)).
  - intros x Hx%list_elem_of_In. by eapply Forall_forall in Hd.
Qed.

Lemma digit_str_no c s : is_ascii_digit c = false → digit_str s → c ∉ s.
Proof. intros Hc Hs Hin. eapply Forall_forall in Hs; [|done]. congruence. Qed.

Lemma digit_not_whitespace c : is_ascii_digit c = true → is_whitespace c = false.
Proof.
  unfold is_ascii_digit. intros [?%N.leb_le ?%N.leb_le]%andb_prop. unfold is_whitespace.
  repeat match goal with
  | |- context [?a =? ?b] => destruct (N.eqb_spec a b); [lia|]
  | |- context [?a <=? ?b] => destruct (N.leb_spec a b); try lia
  end; done.
Qed.

Lemma digit_str_trim s : digit_str s → trim s = s.
Proof.
  intros Hs. apply trim_fixed. split.
  - destruct Hs; [done|]. by apply digit_not_whitespace.
  - apply Forall_rev in Hs. destruct (rev s); [done|]. inversion Hs; subst.
    by apply digit_not_whitespace.
Qed.

Lemma show_N_trim n : trim (show_N n) = show_N n.
Proof. apply digit_str_trim, show_N_digits. Qed.

(** *** Lines *)

Lemma split_inclusive_nl_line l s :
  ch_nl ∉ l → split_inclusive_nl (with_nl l ++ s) = with_nl l :: split_inclusive_nl s.
Proof.
  unfold with_nl. rewrite <-app_assoc. cbn [app].
  induction l as [|c l IH]; intros Hl; [done|]. cbn.
  destruct (N.eqb_spec c ch_nl); [set_solver|]. by rewrite IH by set_solver.
Qed.

Lemma lines_cons_nl l s :
  ch_nl ∉ l → lines (l ++ ch_nl :: s) = strip_eol (with_nl l) :: lines s.
Proof.
  intros Hl. unfold lines. pose proof (split_inclusive_nl_line l s Hl) as E.
  unfold with_nl in E at 1. rewrite <-app_assoc in E. cbn [app] in E. by rewrite E.
Qed.

(** A line that [str::lines] gives back unchanged: no newline in it, and no
    carriage return at its end. *)
Definition line_ok (l : str) : Prop :=
  (ch_nl ∉ l) ∧ match rev l with c :: _ => c ≠ ch_cr | [] => True end.

#[export] Instance line_ok_dec l : Decision (line_ok l).
Proof. unfold line_ok. destruct (rev l); apply _. Defined.

Lemma strip_eol_with_nl l : line_ok l → strip_eol (with_nl l) = l.
Proof.
  intros [_ Hcr]. unfold strip_eol, with_nl.
  rewrite (proj2 (strip_suffix_Some [ch_nl] (l ++ [ch_nl]) l)) by done.
  destruct (strip_suffix [ch_cr] l) as [r|] eqn:E; [|done].
  apply strip_suffix_Some in E as ->. by rewrite rev_app_distr in Hcr.
Qed.

Lemma unlines_cons l ls : unlines (l :: ls) = l ++ ch_nl :: unlines ls.
Proof. unfold unlines. cbn. unfold with_nl at 1. by rewrite <-app_assoc. Qed.

Lemma unlines_app ls1 ls2 : unlines (ls1 ++ ls2) = unlines ls1 ++ unlines ls2.
Proof. unfold unlines. by rewrite map_app, concat_app. Qed.

Lemma lines_unlines ls : Forall line_ok ls → lines (unlines ls) = ls.
Proof.
  induction 1 as [|l ls Hl _ IH]; [done|]. rewrite unlines_cons.
  rewrite lines_cons_nl by apply Hl. by rewrite strip_eol_with_nl, IH.
Qed.

#[export] Hint Resolve show_N_digits show_N_nonempty trimmed_trim : rust.
#[export] Hint Rewrite trim_idem show_N_trim to_ascii_lowercase_idem strip_prefix_app : rust_simp.

(** A text that ends where a line ends. *)
Definition nl_terminated (s : str) : Prop := s = [] ∨ ∃ s', s = s' ++ [ch_nl].

Lemma split_inclusive_nl_app a t :
  split_inclusive_nl (a ++ ch_nl :: t) = split_inclusive_nl (a ++ [ch_nl]) ++ split_inclusive_nl t.
Proof.
  induction a as [|c a IH]; [done|]. cbn. destruct (c =? ch_nl).
  - by rewrite IH.
  - rewrite IH. destruct (split_inclusive_nl (a ++ [ch_nl])) as [|w ws] eqn:E; [|done].
    exfalso. clear IH. destruct a as [|c' a]; [done|]. cbn in E.
    destruct (c' =? ch_nl); [done|]. by destruct (split_inclusive_nl (a ++ [ch_nl])).
Qed.

Lemma lines_app s t : nl_terminated s → lines (s ++ t) = lines s ++ lines t.
Proof.
  intros [->|[s' ->]]; [done|]. unfold lines.
  rewrite <-app_assoc. cbn [app]. by rewrite split_inclusive_nl_app, map_app.
Qed.

Lemma lines_with_nl l : line_ok l → lines (with_nl l) = [l].
Proof.
  intros Hl. pose proof (lines_unlines [l] ltac:(by constructor)) as H.
  unfold unlines in H. cbn in H. by rewrite app_nil_r in H.
Qed.

Lemma nl_terminated_app s t : nl_terminated t → t ≠ [] → nl_terminated (s ++ t).
Proof. intros [->|[t' ->]] Ht; [done|]. right. exists (s ++ t'). by rewrite app_assoc. Qed.

Lemma nl_terminated_with_nl s l : nl_terminated (s ++ with_nl l).
Proof. right. exists (s ++ l). unfold with_nl. by rewrite app_assoc. Qed.

Lemma lines_no_nl s l : l ∈ lines s → ch_nl ∉ l.
Proof.
  unfold lines. intros (p & -> & Hp)%list_elem_of_fmap.
  assert (H : ∃ q, (ch_nl ∉ q) ∧ (p = q ∨ p = q ++ [ch_nl])).
  { revert p Hp. induction s as [|c s IH]; cbn; intros p Hp; [set_solver|].
    destruct (N.eqb_spec c ch_nl) as [->|Hc].
    - apply elem_of_cons in Hp as [->|Hp]; [|by apply IH].
      exists []. split; [set_solver|by right].
    - destruct (split_inclusive_nl s) as [|w ws].
      + apply list_elem_of_singleton in Hp as ->. exists [c]. split; [set_solver|by left].
      + apply elem_of_cons in Hp as [->|Hp]; [|apply IH; set_solver].
        destruct (IH w) as (q & Hq & Ew); [set_solver|].
        exists (c :: q). split; [set_solver|]. destruct Ew as [->| ->]; [by left|by right]. }
  destruct H as (q & Hq & Ep). unfold strip_eol.
  destruct (strip_suffix [ch_nl] p) as [l|] eqn:El.
  - apply strip_suffix_Some in El. destruct Ep as [->| ->]; [set_solver|].
    apply app_inj_tail in El as [-> _].
    destruct (strip_suffix [ch_cr] l) as [l'|] eqn:El'; [|done].
    apply strip_suffix_Some in El' as ->. set_solver.
  - destruct Ep as [->| ->]; [done|].
    by rewrite (proj2 (strip_suffix_Some [ch_nl] (q ++ [ch_nl]) q)) in El.
Qed.

Lemma join_with_nl ls : ls ≠ [] → join [ch_nl] ls ++ [ch_nl] = unlines ls.
Proof.
  induction ls as [|l ls IH]; [done|]. intros _. rewrite unlines_cons.
  destruct ls as [|l' ls]; [by cbn|]. cbn [join].
  rewrite <-!app_assoc. f_equal. cbn [app]. f_equal. apply IH. done.
Qed.

Lemma drop_while_nil p s : drop_while p s = [] → Forall (λ c, p c = true) s.
Proof.
  intros E. destruct (drop_while_suffix p s) as (l & El & Hl).
  rewrite E, app_nil_r in El. by subst.
Qed.

Lemma trim_nonempty s c : c ∈ s → is_whitespace c = false → trim s ≠ [].
Proof.
  intros Hin Hc E. unfold trim, trim_end, trim_end_matches, trim_start, trim_start_matches in E.
  destruct (drop_while_suffix is_whitespace s) as (l1 & E1 & Hl1).
  set (t := drop_while is_whitespace s) in *.
  apply (f_equal (@rev N)) in E. rewrite rev_involutive in E.
  apply drop_while_nil, Forall_rev in E. rewrite rev_involutive in E.
  assert (Ha : Forall (λ c, is_whitespace c = true) s).
  { rewrite E1. by apply Forall_app_2. }
  rewrite Forall_forall in Ha. rewrite (Ha _ Hin) in Hc. done.
Qed.
