(* ===== verification/Words.v ===== *)
(** * Words: lemmas on [str::split_whitespace] and on joining with a space *)
From S2P Require Import Prelude Str.

(** A word: not empty, no white space in it. *)
Definition token (w : str) : Prop := w ≠ [] ∧ Forall (λ c, is_whitespace c = false) w.

(** The word read so far, when there is one. *)
Definition word_so_far (word : str) : list str := match word with [] => [] | _ => [rev word] end.

Lemma split_ws_at_space word c s : is_whitespace c = true →
  split_ws_aux word (c :: s) = word_so_far word ++ split_ws_aux [] s.
Proof. intros H. cbn. rewrite H. by destruct word. Qed.

Lemma split_ws_word word w s : Forall (λ c, is_whitespace c = false) w →
  split_ws_aux word (w ++ s) = split_ws_aux (rev w ++ word) s.
Proof.
  intros H. revert word. induction H as [|c w Hc _ IH]; intros word; [done|].
  cbn. by rewrite Hc, IH, <-app_assoc.
Qed.

Lemma word_so_far_token (word w : str) : Forall (λ c, is_whitespace c = false) word → w ∈ word_so_far word →
  token w ∧ ∀ c : char, c ∈ w → c ∈ word.
Proof.
  intros Hword Hw. destruct word as [|x word]; [by apply elem_of_nil in Hw|].
  apply list_elem_of_singleton in Hw as ->. split; [split|].
  - intros E. apply (f_equal (@length _)) in E. rewrite length_rev in E. done.
  - by apply Forall_rev.
  - intros c. by rewrite !list_elem_of_In, <-in_rev.
Qed.

Lemma split_ws_aux_tokens (word s w : str) : Forall (λ c, is_whitespace c = false) word →
  w ∈ split_ws_aux word s → token w ∧ ∀ c : char, c ∈ w → c ∈ word ∨ c ∈ s.
Proof.
  revert word. induction s as [|c s IH]; intros word Hword.
  - intros Hw. destruct (word_so_far_token word w Hword Hw) as [Ht Hin]. split; [done|].
    intros x Hx. left. by apply Hin.
  - destruct (is_whitespace c) eqn:Hc.
    + rewrite split_ws_at_space by done. intros [Hw|Hw]%elem_of_app.
      * destruct (word_so_far_token word w Hword Hw) as [Ht Hin]. split; [done|].
        intros x Hx. left. by apply Hin.
      * destruct (IH [] (Forall_nil_2 _) Hw) as [Ht Hin]. split; [done|].
        intros x Hx. right. right. by destruct (Hin x Hx) as [?%elem_of_nil|?].
    + cbn. rewrite Hc. intros Hw. apply IH in Hw as [Ht Hin]; [|by constructor].
      split; [done|]. intros x Hx.
      destruct (Hin x Hx) as [[->|?]%elem_of_cons|?]; [right; left|by left|by do 2 right].
Qed.

Lemma split_whitespace_tokens s : Forall token (split_whitespace s).
Proof.
  apply Forall_forall. intros w Hw.
  by apply (split_ws_aux_tokens [] s w (Forall_nil_2 _)) in Hw as [? _].
Qed.

Lemma split_whitespace_chars s w c : w ∈ split_whitespace s → c ∈ w → c ∈ s.
Proof.
  intros Hw Hc. apply (split_ws_aux_tokens [] s w (Forall_nil_2 _)) in Hw as [_ Hin].
  by destruct (Hin c Hc) as [?%elem_of_nil|?].
Qed.

(** Splitting undoes joining with a space. *)
Lemma split_join_words ws : Forall token ws → split_whitespace (join [ch_space] ws) = ws.
Proof.
  intros H. unfold split_whitespace. induction H as [|w ws [Hne Hw] Hws IH]; [done|].
  assert (Hflush : word_so_far (rev w ++ []) = [w]).
  { rewrite app_nil_r. destruct (rev w) as [|c r] eqn:E.
    - destruct Hne. by rewrite <-(rev_involutive w), E.
    - unfold word_so_far. by rewrite <-E, rev_involutive. }
  destruct ws as [|w' ws].
  - cbn [join]. rewrite <-(app_nil_r w) at 1. rewrite split_ws_word by done. exact Hflush.
  - change (join [ch_space] (w :: w' :: ws)) with (w ++ ch_space :: join [ch_space] (w' :: ws)).
    by rewrite split_ws_word, split_ws_at_space, Hflush, IH.
Qed.

Lemma rev_token w : token w → token (rev w).
Proof.
  intros [Hne Hw]. split; [|by apply Forall_rev]. intros E. apply Hne.
  by rewrite <-(rev_involutive w), E.
Qed.
