(* ===== verification/Utf8.v ===== *)
(** * UTF-8

    Bytes and text: [str::as_bytes] and [String::from_utf8_lossy] of the standard
    library, which replaces every maximal ill-formed piece with U+FFFD. *)
From S2P Require Import Prelude Str.

Abbreviation byte := N (only parsing).

Definition is_cont (b : byte) : bool := (128 <=? b) && (b <=? 191).
Definition replacement : char := 65533.

(** The second byte a lead byte of a three or four byte sequence accepts. *)
Definition second_ok (b0 b1 : byte) : bool :=
  if b0 =? 224 then (160 <=? b1) && (b1 <=? 191)
  else if b0 =? 237 then (128 <=? b1) && (b1 <=? 159)
  else if b0 =? 240 then (144 <=? b1) && (b1 <=? 191)
  else if b0 =? 244 then (128 <=? b1) && (b1 <=? 143)
  else is_cont b1.

Fixpoint from_utf8_lossy (bs : list byte) : str :=
  match bs with
  | [] => []
  | b0 :: r =>
      if b0 <? 128 then b0 :: from_utf8_lossy r
      else if (194 <=? b0) && (b0 <=? 223) then
        match r with
        | b1 :: r1 => if is_cont b1 then ((b0 - 192) * 64 + (b1 - 128)) :: from_utf8_lossy r1
                      else replacement :: from_utf8_lossy r
        | [] => [replacement]
        end
      else if (224 <=? b0) && (b0 <=? 239) then
        match r with
        | b1 :: r1 =>
            if second_ok b0 b1 then
              match r1 with
              | b2 :: r2 =>
                  if is_cont b2
                  then ((b0 - 224) * 4096 + (b1 - 128) * 64 + (b2 - 128)) :: from_utf8_lossy r2
                  else replacement :: from_utf8_lossy r1
              | [] => [replacement]
              end
            else replacement :: from_utf8_lossy r
        | [] => [replacement]
        end
      else if (240 <=? b0) && (b0 <=? 244) then
        match r with
        | b1 :: r1 =>
            if second_ok b0 b1 then
              match r1 with
              | b2 :: r2 =>
                  if is_cont b2 then
                    match r2 with
                    | b3 :: r3 =>
                        if is_cont b3
                        then ((b0 - 240) * 262144 + (b1 - 128) * 4096 + (b2 - 128) * 64 + (b3 - 128))
                             :: from_utf8_lossy r3
                        else replacement :: from_utf8_lossy r2
                    | [] => [replacement]
                    end
                  else replacement :: from_utf8_lossy r1
              | [] => [replacement]
              end
            else replacement :: from_utf8_lossy r
        | [] => [replacement]
        end
      else replacement :: from_utf8_lossy r
  end.

(** A Unicode scalar value. *)
Definition scalar (c : char) : Prop := c < 55296 ∨ 57344 ≤ c < 1114112.

Definition encode_char (c : char) : list byte :=
  if c <? 128 then [c]
  else if c <? 2048 then [192 + c / 64; 128 + c mod 64]
  else if c <? 65536 then [224 + c / 4096; 128 + (c / 64) mod 64; 128 + c mod 64]
  else [240 + c / 262144; 128 + (c / 4096) mod 64; 128 + (c / 64) mod 64; 128 + c mod 64].

Definition as_bytes (s : str) : list byte := concat (map encode_char s).

(** ** Lemmas *)

Ltac bool_decide_all :=
  repeat match goal with
  | |- context [?a <? ?b] => destruct (N.ltb_spec a b); try (exfalso; lia)
  | |- context [?a <=? ?b] => destruct (N.leb_spec a b); try (exfalso; lia)
  | |- context [?a =? ?b] => destruct (N.eqb_spec a b); try (exfalso; lia)
  end; cbn [andb orb negb].

Lemma decode_1 b0 bs : b0 < 128 → from_utf8_lossy (b0 :: bs) = b0 :: from_utf8_lossy bs.
Proof. intros H. cbn [from_utf8_lossy]. bool_decide_all; done. Qed.

Lemma decode_2 b0 b1 bs :
  194 ≤ b0 ≤ 223 → 128 ≤ b1 ≤ 191 →
  from_utf8_lossy (b0 :: b1 :: bs) = ((b0 - 192) * 64 + (b1 - 128)) :: from_utf8_lossy bs.
Proof. intros H0 H1. cbn [from_utf8_lossy]. unfold is_cont. bool_decide_all; done. Qed.

Lemma decode_3 b0 b1 b2 bs :
  224 ≤ b0 ≤ 239 → second_ok b0 b1 = true → 128 ≤ b2 ≤ 191 →
  from_utf8_lossy (b0 :: b1 :: b2 :: bs) =
  ((b0 - 224) * 4096 + (b1 - 128) * 64 + (b2 - 128)) :: from_utf8_lossy bs.
Proof.
  intros H0 H1 H2. cbn [from_utf8_lossy]. rewrite H1. unfold is_cont. bool_decide_all; done.
Qed.

Lemma decode_4 b0 b1 b2 b3 bs :
  240 ≤ b0 ≤ 244 → second_ok b0 b1 = true → 128 ≤ b2 ≤ 191 → 128 ≤ b3 ≤ 191 →
  from_utf8_lossy (b0 :: b1 :: b2 :: b3 :: bs) =
  ((b0 - 240) * 262144 + (b1 - 128) * 4096 + (b2 - 128) * 64 + (b3 - 128)) :: from_utf8_lossy bs.
Proof.
  intros H0 H1 H2 H3. cbn [from_utf8_lossy]. rewrite H1. unfold is_cont. bool_decide_all; done.
Qed.

Lemma second_ok_3 q r :
  32 ≤ q * 64 + r → (q * 64 + r < 864 ∨ 896 ≤ q * 64 + r) → q < 16 → r < 64 →
  second_ok (224 + q) (128 + r) = true.
Proof. intros. unfold second_ok, is_cont. bool_decide_all; done. Qed.

Lemma second_ok_4 q r :
  16 ≤ q * 64 + r → q * 64 + r < 272 → r < 64 → second_ok (240 + q) (128 + r) = true.
Proof. intros. unfold second_ok, is_cont. bool_decide_all; done. Qed.

Lemma from_utf8_lossy_char c bs :
  scalar c → from_utf8_lossy (encode_char c ++ bs) = c :: from_utf8_lossy bs.
Proof.
  intros Hc. unfold encode_char, scalar in *.
  pose proof (N.div_mod c 64 ltac:(done)) as D1. pose proof (N.mod_lt c 64 ltac:(done)) as M1.
  pose proof (N.div_mod (c / 64) 64 ltac:(done)) as D2. pose proof (N.mod_lt (c / 64) 64 ltac:(done)) as M2.
  pose proof (N.div_mod (c / 4096) 64 ltac:(done)) as D3. pose proof (N.mod_lt (c / 4096) 64 ltac:(done)) as M3.
  replace (c / 64 / 64) with (c / 4096) in D2 by by rewrite N.Div0.div_div.
  replace (c / 4096 / 64) with (c / 262144) in D3 by by rewrite N.Div0.div_div.
  set (q1 := c / 64) in *. set (q2 := c / 4096) in *. set (q3 := c / 262144) in *.
  set (r1 := c mod 64) in *. set (r2 := q1 mod 64) in *. set (r3 := q2 mod 64) in *.
  clearbody q1 q2 q3 r1 r2 r3.
  destruct (N.ltb_spec c 128); [by apply decode_1|].
  destruct (N.ltb_spec c 2048); [cbn [app]; rewrite decode_2 by lia; f_equal; lia|].
  destruct (N.ltb_spec c 65536); cbn [app].
  - rewrite decode_3; [f_equal; lia|lia|apply second_ok_3; lia|lia].
  - rewrite decode_4; [f_equal; lia|lia|apply second_ok_4; lia|lia|lia].
Qed.

(** Decoding inverts encoding: well-formed text survives the lossy reading. *)
Lemma from_utf8_lossy_as_bytes s : Forall scalar s → from_utf8_lossy (as_bytes s) = s.
Proof.
  induction 1 as [|c s Hc _ IH]; [done|]. unfold as_bytes. cbn [map concat].
  rewrite from_utf8_lossy_char by done. fold (as_bytes s). by rewrite IH.
Qed.

Lemma as_bytes_app s1 s2 : as_bytes (s1 ++ s2) = as_bytes s1 ++ as_bytes s2.
Proof. unfold as_bytes. by rewrite map_app, concat_app. Qed.

(** [str::len] counts these bytes. *)
Lemma as_bytes_length s :
  Forall scalar s → N.of_nat (length (as_bytes s)) = str_len s.
Proof.
  induction 1 as [|c s Hc _ IH]; [done|]. unfold as_bytes, str_len in *. cbn [map concat foldr].
  rewrite length_app, Nat2N.inj_add, IH. f_equal. unfold encode_char, utf8_width.
  repeat case_match; cbn; try lia; exfalso; repeat match goal with
    | H : (_ <? _) = true |- _ => apply N.ltb_lt in H
    | H : (_ <? _) = false |- _ => apply N.ltb_ge in H
    end; unfold scalar in *; lia.
Qed.

Lemma second_ok_range b0 b1 : second_ok b0 b1 = true → 128 ≤ b1 ≤ 191 ∧
  (b0 = 224 → 160 ≤ b1) ∧ (b0 = 237 → b1 ≤ 159) ∧ (b0 = 240 → 144 ≤ b1) ∧ (b0 = 244 → b1 ≤ 143).
Proof. unfold second_ok, is_cont. bool_decide_all; intros; try done; lia. Qed.

Lemma is_cont_range b : is_cont b = true → 128 ≤ b ≤ 191.
Proof. unfold is_cont. bool_decide_all; intros; try done; lia. Qed.

(** What the lossy reading yields is text. *)
Lemma from_utf8_lossy_scalar bs : Forall scalar (from_utf8_lossy bs).
Proof.
  assert (Hr : scalar replacement) by (unfold scalar, replacement; lia).
  assert (H : ∀ n bs, (length bs ≤ n)%nat → Forall scalar (from_utf8_lossy bs)); [|by eapply H].
  clear bs. induction n as [|n IH]; intros bs Hn; [by destruct bs; [constructor|cbn in Hn; lia]|].
  destruct bs as [|b0 r]; [constructor|]. cbn [from_utf8_lossy length] in *.
  assert (IHr : ∀ t, (length t ≤ length r)%nat → Forall scalar (from_utf8_lossy t))
    by (intros; apply IH; lia).
  destruct (N.ltb_spec b0 128) as [H0|H0]; [constructor; [left; lia|by apply IHr]|].
  destruct ((194 <=? b0) && (b0 <=? 223)) eqn:E2.
  { apply andb_true_iff in E2 as [?%N.leb_le ?%N.leb_le]. destruct r as [|b1 r1]; [by constructor|].
    destruct (is_cont b1) eqn:C1; (constructor; [|apply IHr; cbn; lia]); [|done].
    apply is_cont_range in C1. left. lia. }
  destruct ((224 <=? b0) && (b0 <=? 239)) eqn:E3.
  { apply andb_true_iff in E3 as [?%N.leb_le ?%N.leb_le]. destruct r as [|b1 r1]; [by constructor|].
    destruct (second_ok b0 b1) eqn:S1; [|constructor; [done|apply IHr; cbn; lia]].
    destruct r1 as [|b2 r2]; [by constructor|].
    destruct (is_cont b2) eqn:C2; (constructor; [|apply IHr; cbn; lia]); [|done].
    apply is_cont_range in C2. apply second_ok_range in S1. unfold scalar. lia. }
  destruct ((240 <=? b0) && (b0 <=? 244)) eqn:E4; [|constructor; [done|by apply IHr]].
  apply andb_true_iff in E4 as [?%N.leb_le ?%N.leb_le]. destruct r as [|b1 r1]; [by constructor|].
  destruct (second_ok b0 b1) eqn:S1; [|constructor; [done|apply IHr; cbn; lia]].
  destruct r1 as [|b2 r2]; [by constructor|].
  destruct (is_cont b2) eqn:C2; [|constructor; [done|apply IHr; cbn; lia]].
  destruct r2 as [|b3 r3]; [by constructor|].
  destruct (is_cont b3) eqn:C3; (constructor; [|apply IHr; cbn; lia]); [|done].
  apply is_cont_range in C2, C3. apply second_ok_range in S1. unfold scalar. lia.
Qed.
