(* ===== verification/F64.v ===== *)
(** * Binary64 floating point

    The [f64] arithmetic the program uses, on the executable IEEE 754
    specification of the Standard Library ([SpecFloat], precision 53, maximal
    exponent 1024, rounding to nearest even). *)
From S2P Require Import Prelude Str.
From Stdlib Require Export SpecFloat.
From Stdlib Require Import ZArith.

Abbreviation f64 := spec_float (only parsing).

Definition f64_prec : Z := 53.
Definition f64_emax : Z := 1024.

Definition f64_add (a b : f64) : f64 := SFadd f64_prec f64_emax a b.
Definition f64_mul (a b : f64) : f64 := SFmul f64_prec f64_emax a b.
Definition f64_div (a b : f64) : f64 := SFdiv f64_prec f64_emax a b.
Definition f64_sqrt (a : f64) : f64 := SFsqrt f64_prec f64_emax a.

Definition f64_zero : f64 := S754_zero false.

(** [x as f64] for an integer: rounded to nearest even. *)
Definition f64_of_Z (z : Z) : f64 := binary_normalize f64_prec f64_emax z 0 false.
Definition f64_of_N (n : N) : f64 := f64_of_Z (Z.of_N n).

(** A positive decimal literal [m * 10^(-k)], correctly rounded: quotient of two
    exact integers. *)
Definition f64_decimal (neg : bool) (m : N) (e : Z) : f64 :=
  match m with
  | N0 => S754_zero neg
  | Npos p =>
      match e with
      | Z0 => binary_round f64_prec f64_emax neg p 0
      | Zpos q => binary_round f64_prec f64_emax neg (p * Pos.pow 10 q) 0
      | Zneg q => f64_div (S754_finite neg p 0) (S754_finite false (Pos.pow 10 q) 0)
      end
  end.

Definition f64_is_finite (a : f64) : bool :=
  match a with S754_zero _ | S754_finite _ _ _ => true | _ => false end.
Definition f64_is_nan (a : f64) : bool := match a with S754_nan => true | _ => false end.

Definition f64_lt (a b : f64) : bool := SFltb a b.
Definition f64_le (a b : f64) : bool := SFleb a b.

(** [f64::min]: a NaN operand is ignored. *)
Definition f64_min (a b : f64) : f64 :=
  if f64_is_nan a then b else if f64_is_nan b then a else if f64_lt b a then b else a.

(** [f64::total_cmp] on the values this program compares; the specification
    type has a single NaN, taken positive. *)
Definition f64_class (a : f64) : Z :=
  match a with
  | S754_infinity true => 0
  | S754_finite true _ _ => 1
  | S754_zero true => 2
  | S754_zero false => 3
  | S754_finite false _ _ => 4
  | S754_infinity false => 5
  | S754_nan => 6
  end%Z.

Definition f64_total_cmp (a b : f64) : Ordering :=
  match Z.compare (f64_class a) (f64_class b) with
  | Eq => match SFcompare a b with Some c => c | None => Eq end
  | c => c
  end.

(** Magnitude of a finite value, rounded towards zero. *)
Definition f64_trunc_mag (a : f64) : N :=
  match a with
  | S754_finite _ m e =>
      match e with
      | Z0 => Npos m
      | Zpos p => Npos m * 2 ^ Npos p
      | Zneg p => Npos m / 2 ^ Npos p
      end
  | _ => 0
  end.

(** [x as u64]: truncation, saturating at both ends, NaN to zero. *)
Definition f64_to_u64 (a : f64) : N :=
  match a with
  | S754_nan | S754_zero _ | S754_infinity true | S754_finite true _ _ => 0
  | S754_infinity false => u64_max
  | S754_finite false _ _ => N.min (f64_trunc_mag a) u64_max
  end.

(** [f64::round]: to the nearest integer, halves away from zero. *)
Definition f64_round (a : f64) : f64 :=
  match a with
  | S754_finite s m (Zneg p) =>
      let d := 2 ^ Npos p in
      let q := (2 * Npos m + d) / (2 * d) in
      match q with
      | N0 => S754_zero s
      | Npos q' => binary_round f64_prec f64_emax s q' 0
      end
  | _ => a
  end.

(** Nearest multiple of [10^-digits] to a non-negative exact value, half to even,
    as an integer count: what [format!] with a precision prints. *)
Definition round_half_even (num den : N) : N :=
  let q := num / den in
  let r := num mod den in
  match 2 * r ?= den with
  | Lt => q
  | Gt => q + 1
  | Eq => if N.even q then q else q + 1
  end.

Definition f64_scaled (digits : nat) (m : positive) (e : Z) : N :=
  let m10 := Npos m * 10 ^ N.of_nat digits in
  match e with
  | Z0 => m10
  | Zpos p => m10 * 2 ^ Npos p
  | Zneg p => round_half_even m10 (2 ^ Npos p)
  end.

(** Left padding with zeroes to a width. *)
Definition pad_zero (width : nat) (s : str) : str := replicate (width - length s) 48 ++ s.

Definition show_scaled (digits : nat) (n : N) : str :=
  let p := 10 ^ N.of_nat digits in
  show_N (n / p) ++ 46 :: pad_zero digits (show_N (n mod p)).

(** [format!] with a fixed number of decimals, at least one. *)
Definition show_f64_fixed (digits : nat) (a : f64) : str :=
  match a with
  | S754_nan => $"NaN"
  | S754_infinity s => if s then $"-inf" else $"inf"
  | S754_zero s => (if s then $"-" else []) ++ show_scaled digits 0
  | S754_finite s m e => (if s then $"-" else []) ++ show_scaled digits (f64_scaled digits m e)
  end.

(** [str::parse::<f64>]: optional sign, [inf], [infinity] or [nan] in any case,
    or digits with an optional point and exponent. *)
Fixpoint span_digits (s : str) : str * str :=
  match s with
  | c :: s' => if is_ascii_digit c then let '(d, r) := span_digits s' in (c :: d, r) else ([], s)
  | [] => ([], [])
  end.

Definition parse_exponent (s : str) : option Z :=
  match s with
  | [] => Some 0%Z
  | c :: s' =>
      if ascii_lower c =? 101 then
        let '(neg, ds) := match s' with
                          | 45 :: r => (true, r)
                          | 43 :: r => (false, r)
                          | _ => (false, s')
                          end in
        match ds with
        | [] => None
        | _ => if forallb is_ascii_digit ds
               then Some (if neg : bool then - Z.of_N (digits_value ds) else Z.of_N (digits_value ds))%Z
               else None
        end
      else None
  end.

Definition parse_f64_number (neg : bool) (s : str) : option f64 :=
  let '(ip, r) := span_digits s in
  let '(fp, r') := match r with 46 :: r1 => span_digits r1 | _ => ([], r) end in
  match ip ++ fp with
  | [] => None
  | ds => e ← parse_exponent r';
          Some (f64_decimal neg (digits_value ds) (e - Z.of_nat (length fp))%Z)
  end.

Definition parse_f64 (s : str) : option f64 :=
  let '(neg, r) := match s with
                   | 45 :: r => (true, r)
                   | 43 :: r => (false, r)
                   | _ => (false, s)
                   end in
  let l := to_ascii_lowercase r in
  if str_eqb l $"nan" then Some S754_nan
  else if str_eqb l $"inf" || str_eqb l $"infinity" then Some (S754_infinity neg)
  else parse_f64_number neg r.

(** ** Lemmas *)

Lemma f64_to_u64_le a : f64_to_u64 a ≤ u64_max.
Proof. destruct a as [| [] | | [] ]; cbn -[u64_max N.min]; lia. Qed.

#[export] Hint Resolve f64_to_u64_le : rust.

(** *** [total_cmp] is a total order *)

(** Exponent and mantissa with the sign applied: within a class the order is
    lexicographic on them. *)
Definition f64_skey (a : f64) : Z * Z :=
  match a with
  | S754_finite false m e => (e, Zpos m)
  | S754_finite true m e => (- e, Zneg m)%Z
  | _ => (0, 0)%Z
  end.

#[export] Instance Z_compare_total : TotalCmp Z.compare.
Proof.
  split.
  - intros x y. apply Z.compare_antisym.
  - intros x y z. rewrite !Z.compare_lt_iff. lia.
  - intros x y z ->%Z.compare_eq_iff. done.
Qed.

Lemma f64_total_cmp_key a b :
  f64_total_cmp a b =
  (Z.compare (f64_class a) (f64_class b)
   .then Z.compare (f64_skey a).1 (f64_skey b).1)
   .then Z.compare (f64_skey a).2 (f64_skey b).2.
Proof.
  destruct a as [[]|[]| |[] m e], b as [[]|[]| |[] m' e']; try reflexivity;
    unfold f64_total_cmp; cbn -[Z.compare Z.opp Pos.compare_cont].
  - change (Z.compare 1 1) with Eq. cbn [then_with]. 
    replace (Z.compare (- e) (- e')) with (CompOpp (Z.compare e e')) by
      (destruct (Z.compare_spec e e'), (Z.compare_spec (- e) (- e')); cbn; lia || done).
    destruct (Z.compare e e'); reflexivity.
  - change (Z.compare 4 4) with Eq. cbn [then_with]. destruct (Z.compare e e'); reflexivity.
Qed.

#[export] Instance f64_total_cmp_total : TotalCmp f64_total_cmp.
Proof.
  eapply total_ext; [apply f64_total_cmp_key|].
  apply (then_total (λ a b, _ .then _)); [apply then_total|]; apply proj_total, Z_compare_total.
Qed.
