(* ===== verification/Error.v ===== *)
(** * [rtrt-core]: the error type and token counters

    [Error] and [Result] of [crates/rtrt-core/src/error.rs], with the stdpp
    monad operations on [Result] that play the role of [?], and the counters of
    [crates/rtrt-core/src/token.rs]. *)
From S2P Require Import Prelude Str.

(** The payloads of [Io] and [Serde] are foreign errors; the program only
    displays them, so they are carried by their message. *)
Inductive Error : Type :=
| Config (s : str)
| Plugin (s : str)
| Provider (s : str)
| Memory (s : str)
| Io (message : str)
| Serde (message : str).

Inductive Result (A : Type) : Type :=
| Ok (a : A)
| Err (e : Error).
Arguments Ok {A} a.
Arguments Err {A} e.

#[export] Instance Result_ret : MRet Result := λ A a, Ok a.
#[export] Instance Result_bind : MBind Result :=
  λ A B f r, match r with Ok a => f a | Err e => Err e end.
#[export] Instance Result_fmap : FMap Result :=
  λ A B f r, match r with Ok a => Ok (f a) | Err e => Err e end.

(** [Option::ok_or]. *)
Definition ok_or {A} (o : option A) (e : Error) : Result A :=
  match o with Some a => Ok a | None => Err e end.

Definition is_ok {A} (r : Result A) : bool := match r with Ok _ => true | Err _ => false end.

(** [Display]: the [#[error(..)]] attributes. *)
Definition error_to_string (e : Error) : str :=
  match e with
  | Config s => $"config error: " ++ s
  | Plugin s => $"plugin error: " ++ s
  | Provider s => $"provider error: " ++ s
  | Memory s => $"memory error: " ++ s
  | Io m => $"io error: " ++ m
  | Serde m => $"serde error: " ++ m
  end.

#[export] Instance Error_eq_dec : EqDecision Error.
Proof. solve_decision. Defined.

(** ** Token counters *)

Inductive CompressionLevel := Lite | Full | Ultra | Extreme.

Definition TokenCount := N.

Record TokenStats := {
  input_before : TokenCount;
  input_after : TokenCount;
  output_before : TokenCount;
  output_after : TokenCount;
}.

Definition saved_input (t : TokenStats) : N := input_before t - input_after t.
Definition saved_output (t : TokenStats) : N := output_before t - output_after t.
Definition saved_total (t : TokenStats) : N :=
  wrap_add u64_max (saved_input t) (saved_output t).

(** ** Lemmas *)

Lemma Ok_bind {A B} (a : A) (f : A → Result B) : (Ok a ≫= f) = f a.
Proof. done. Qed.

Lemma Err_bind {A B} e (f : A → Result B) : (Err e ≫= f) = Err e.
Proof. done. Qed.

Lemma bind_Ok {A B} (r : Result A) (f : A → Result B) b :
  (r ≫= f) = Ok b ↔ ∃ a, r = Ok a ∧ f a = Ok b.
Proof. destruct r; cbn; naive_solver. Qed.

#[export] Hint Rewrite @Ok_bind @Err_bind : rust_simp.
