(* ===== verification/Pool.v ===== *)
(** * Pool identity: [crates/rtrt-core/src/pool.rs]

    A [PoolKey] is the quota bucket an invocation draws from: a target, and the
    upstream pool named by the prefix of the model string when there is one.
    The canonical string form is the key of every usage and limit map. *)
From S2P Require Import Prelude Str.

Definition POOL_SEPARATOR : char := 35.
Definition MODEL_POOL_SEPARATOR : char := 47.

Record PoolKey := mkPoolKey {
  pk_target : str;
  pk_pool : option str;
}.

#[export] Instance PoolKey_eq_dec : EqDecision PoolKey.
Proof. solve_decision. Defined.

Definition normalize_target (target : str) : str := to_ascii_lowercase (trim target).

Definition normalize_pool (pool : str) : option str :=
  let pool := trim pool in
  if is_empty pool then None else Some (to_ascii_lowercase pool).

Definition pool_from_model (model : str) : option str :=
  '(prefix, _) ← split_once_char MODEL_POOL_SEPARATOR (trim model);
  normalize_pool prefix.

Module PoolKey.

Definition new (target : str) (pool : option str) : PoolKey :=
  mkPoolKey (normalize_target target) (pool ≫= normalize_pool).

Definition unpooled (target : str) : PoolKey := mkPoolKey (normalize_target target) None.

Definition from_target_model (target : str) (model : option str) : PoolKey :=
  mkPoolKey (normalize_target target) (model ≫= pool_from_model).

Definition canonical (k : PoolKey) : str :=
  match pk_pool k with
  | Some pool => pk_target k ++ POOL_SEPARATOR :: pool
  | None => pk_target k
  end.

Definition target_key (k : PoolKey) : str := pk_target k.

Definition parse (key : str) : PoolKey :=
  match split_once_char POOL_SEPARATOR key with
  | Some (target, pool) => new target (Some pool)
  | None => unpooled key
  end.

Definition is_pooled (k : PoolKey) : bool :=
  match pk_pool k with Some _ => true | None => false end.

Definition pool (k : PoolKey) : option str := pk_pool k.

(** The derived [Ord]: target, then pool with [None] first. *)
Definition cmp (a b : PoolKey) : Ordering :=
  str_cmp (pk_target a) (pk_target b) .then option_cmp str_cmp (pk_pool a) (pk_pool b).

End PoolKey.

(** ** Well-formed keys: what the constructors build. *)

Definition norm_str (s : str) : Prop := trimmed s ∧ to_ascii_lowercase s = s.

Record wf_key (k : PoolKey) : Prop := {
  wf_target : norm_str (pk_target k);
  wf_pool : ∀ p, pk_pool k = Some p → norm_str p ∧ p ≠ [];
}.

(** A target a key can be parsed back from. *)
Definition sep_free (k : PoolKey) : Prop := POOL_SEPARATOR ∉ pk_target k.

Lemma normalize_target_fixed s : norm_str s → normalize_target s = s.
Proof. intros [Ht Hl]. unfold normalize_target. by rewrite trim_fixed. Qed.

Lemma norm_normalize_target s : norm_str (normalize_target s).
Proof.
  unfold normalize_target. split.
  - apply to_ascii_lowercase_trimmed, trimmed_trim.
  - apply to_ascii_lowercase_idem.
Qed.

Lemma normalize_target_idem s : normalize_target (normalize_target s) = normalize_target s.
Proof. apply normalize_target_fixed, norm_normalize_target. Qed.

Lemma normalize_pool_Some s p : normalize_pool s = Some p → norm_str p ∧ p ≠ [].
Proof.
  unfold normalize_pool. destruct (trim s) as [|c t] eqn:E; cbn; [done|].
  intros [= <-]. split; [|done]. split.
  - change (trimmed (to_ascii_lowercase (c :: t))).
    apply to_ascii_lowercase_trimmed. rewrite <-E. apply trimmed_trim.
  - apply (to_ascii_lowercase_idem (c :: t)).
Qed.

Lemma normalize_pool_fixed p : norm_str p → p ≠ [] → normalize_pool p = Some p.
Proof.
  intros [Ht Hl] Hne. unfold normalize_pool. rewrite trim_fixed by done.
  destruct p; [done|]. cbn. f_equal. done.
Qed.

Lemma wf_new t p : wf_key (PoolKey.new t p).
Proof.
  split; [apply norm_normalize_target|]. cbn. intros q Hq.
  destruct p as [p|]; [|done]. by apply (normalize_pool_Some p).
Qed.

Lemma wf_unpooled t : wf_key (PoolKey.unpooled t).
Proof. split; [apply norm_normalize_target|done]. Qed.

Lemma pool_from_model_Some m p : pool_from_model m = Some p → norm_str p ∧ p ≠ [].
Proof.
  unfold pool_from_model. destruct (split_once_char _ _) as [[a b]|]; cbn; [|done].
  apply normalize_pool_Some.
Qed.

Lemma wf_from_target_model t m : wf_key (PoolKey.from_target_model t m).
Proof.
  split; [apply norm_normalize_target|]. cbn. intros q Hq.
  destruct m as [m|]; [|done]. by apply (pool_from_model_Some m).
Qed.

Lemma wf_parse s : wf_key (PoolKey.parse s).
Proof.
  unfold PoolKey.parse. destruct (split_once_char _ _) as [[a b]|]; [apply wf_new|apply wf_unpooled].
Qed.

#[export] Hint Resolve wf_new wf_unpooled wf_from_target_model wf_parse
  norm_normalize_target : rust.

(** [parse] inverts [canonical] on every key whose target has no separator. *)
Lemma parse_canonical k : wf_key k → sep_free k → PoolKey.parse (PoolKey.canonical k) = k.
Proof.
  intros [Ht Hp] Hs. destruct k as [t [p|]]; cbn in *; unfold PoolKey.parse, PoolKey.canonical; cbn.
  - rewrite split_once_char_app by done. unfold PoolKey.new. cbn.
    destruct (Hp p eq_refl). by rewrite normalize_target_fixed, normalize_pool_fixed.
  - rewrite (proj2 (split_once_char_None _ _)) by done.
    unfold PoolKey.unpooled. by rewrite normalize_target_fixed.
Qed.

(** Hence distinct buckets never share a map key. *)
Lemma canonical_inj k1 k2 :
  wf_key k1 → sep_free k1 → wf_key k2 → sep_free k2 →
  PoolKey.canonical k1 = PoolKey.canonical k2 → k1 = k2.
Proof.
  intros H1 S1 H2 S2 E. by rewrite <-(parse_canonical k1), E, parse_canonical.
Qed.

Lemma trim_incl s c : c ∈ trim s → c ∈ s.
Proof.
  unfold trim, trim_end, trim_end_matches, trim_start, trim_start_matches.
  intros Hc%list_elem_of_In%in_rev%list_elem_of_In.
  destruct (drop_while_suffix is_whitespace s) as (l1 & E1 & _).
  destruct (drop_while_suffix is_whitespace (rev (drop_while is_whitespace s))) as (l2 & E2 & _).
  rewrite E1. apply elem_of_app. right.
  rewrite list_elem_of_In, in_rev, <-list_elem_of_In, E2. apply elem_of_app. by right.
Qed.

(** [parse] of any string gives a key that [canonical] and [parse] fix. *)
Lemma parse_sep_free s : sep_free (PoolKey.parse s).
Proof.
  unfold sep_free, PoolKey.parse.
  assert (Hn : ∀ t, POOL_SEPARATOR ∉ t → POOL_SEPARATOR ∉ normalize_target t).
  { intros t Ht Hin. apply Ht. unfold normalize_target, to_ascii_lowercase in Hin.
    apply list_elem_of_fmap in Hin as (c & E & Hc%trim_incl).
    unfold ascii_lower in E. destruct ((65 <=? c) && (c <=? 90)) eqn:Ec; [|by subst].
    apply andb_prop in Ec as [?%N.leb_le ?%N.leb_le]. unfold POOL_SEPARATOR in E. lia. }
  destruct (split_once_char POOL_SEPARATOR s) as [[a b]|] eqn:E; cbn; apply Hn.
  - by destruct (split_once_char_Some _ _ _ _ E).
  - by apply split_once_char_None in E.
Qed.

Lemma parse_canonical_parse s :
  PoolKey.parse (PoolKey.canonical (PoolKey.parse s)) = PoolKey.parse s.
Proof. apply parse_canonical; [apply wf_parse|apply parse_sep_free]. Qed.

Lemma PoolKey_cmp_eq a b : PoolKey.cmp a b = Eq ↔ a = b.
Proof.
  unfold PoolKey.cmp. rewrite then_with_Eq, str_cmp_eq.
  destruct a as [t1 p1], b as [t2 p2]; cbn.
  destruct p1, p2; cbn; rewrite ?str_cmp_eq; naive_solver.
Qed.

#[export] Instance PoolKey_cmp_total : TotalCmp PoolKey.cmp.
Proof.
  unfold PoolKey.cmp. apply then_total.
  - exact (proj_total pk_target str_cmp).
  - exact (proj_total pk_pool (option_cmp str_cmp)).
Qed.
