(* ===== verification/Config.v ===== *)
(** * Configuration the providers read: [crates/rtrt-core/src/config.rs]

    The [LimitsConfig] tables with their case-insensitive lookups, provider
    identity normalisation, the failover overrides and the API token ceiling.
    Parsing TOML is the [toml] crate's and is not modelled. *)
From S2P Require Import Prelude Str Pool.

(** ** [\[limits\]] *)

Record PoolLimit := mkPoolLimit {
  pl_daily_tokens : option N;
  pl_daily_requests : option N;
}.

Record TargetLimit := mkTargetLimit {
  tl_daily_tokens : option N;
  tl_daily_requests : option N;
  tl_pools : gmap str PoolLimit;
}.

Record LimitsConfig := mkLimitsConfig { lc_targets : gmap str TargetLimit }.

Definition is_some {A} (o : option A) : bool := match o with Some _ => true | None => false end.
Definition is_none {A} (o : option A) : bool := match o with Some _ => false | None => true end.

(** The first entry of a [BTreeMap], in key order, whose key matches without
    regard to ASCII case. *)
Definition find_ignore_case {V} (m : gmap str V) (name : str) : option V :=
  snd <$> List.find (λ kv, eq_ignore_ascii_case kv.1 name) (btree_list m).

Definition TargetLimit_pool (tl : TargetLimit) (name : str) : option PoolLimit :=
  match tl_pools tl !! name with
  | Some limit => Some limit
  | None => find_ignore_case (tl_pools tl) name
  end.

Definition PoolLimit_is_set (pl : PoolLimit) : bool :=
  is_some (pl_daily_tokens pl) || is_some (pl_daily_requests pl).

Definition TargetLimit_has_pool_limits (tl : TargetLimit) : bool :=
  existsb (λ kv, PoolLimit_is_set kv.2) (btree_list (tl_pools tl)).

Definition LimitsConfig_target (lc : LimitsConfig) (name : str) : option TargetLimit :=
  match lc_targets lc !! name with
  | Some limit => Some limit
  | None => find_ignore_case (lc_targets lc) name
  end.

Definition LimitsConfig_pool (lc : LimitsConfig) (target pool : str) : option PoolLimit :=
  tl ← LimitsConfig_target lc target; TargetLimit_pool tl pool.

Definition LimitsConfig_is_empty (lc : LimitsConfig) : bool :=
  bool_decide (lc_targets lc = ∅).

(** ** Provider identity *)

Definition normalize_provider_id (provider : str) : str :=
  let normalized := to_ascii_lowercase (trim provider) in
  if existsb (str_eqb normalized) [$"openai-compatible"; $"openai_compatible"; $"openai-compat"]
  then $"openai-compat"
  else if existsb (str_eqb normalized) [$"lmstudio"; $"lm_studio"; $"lms"; $"lm-studio"]
  then $"lm-studio"
  else if existsb (str_eqb normalized)
            [$"llama"; $"llamacpp"; $"llama_cpp"; $"llama-cpp"; $"llama.cpp"]
  then $"llama.cpp"
  else normalized.

Definition is_default_ollama_compatible_url (url : str) : bool :=
  existsb (str_eqb (trim_end_matches (N.eqb ch_slash) (trim url)))
    [$"http://127.0.0.1:11434"; $"http://127.0.0.1:11434/v1";
     $"http://localhost:11434"; $"http://localhost:11434/v1";
     $"http://[::1]:11434"; $"http://[::1]:11434/v1"].

(** [AutoCompressConfig::effective_provider], with the value of the environment
    variable [RTRT_OPENAI_COMPAT_PROVIDER] and the [provider] field given. *)
Definition effective_provider (env provider : option str) (base_url : str) : str :=
  let non_blank o := match o with
                     | Some v => if is_empty (trim v) then None else Some v
                     | None => None
                     end in
  let chosen :=
    match non_blank env with
    | Some v => v
    | None =>
        match non_blank provider with
        | Some v => v
        | None => if is_default_ollama_compatible_url base_url
                  then $"ollama" else $"openai-compat"
        end
    end in
  normalize_provider_id chosen.

(** ** [\[agents\]] and [\[providers\]] *)

Definition AgentsConfig := gmap str bool.
Definition Agents_enabled_override (cfg : AgentsConfig) (name : str) : option bool :=
  (cfg : gmap str bool) !! name.
Definition Agents_set_enabled (cfg : AgentsConfig) (name : str) (enabled : bool) : AgentsConfig :=
  <[name := enabled]> (cfg : gmap str bool).

Definition DEFAULT_API_MAX_TOKENS : N := 4096.

Record ProvidersConfig := mkProvidersConfig {
  pc_active : option str;
  pc_api_max_tokens : option N;
  pc_enabled : gmap str bool;
}.

Definition Providers_enabled_override (pc : ProvidersConfig) (name : str) : option bool :=
  let normalized := normalize_provider_id name in
  snd <$> List.find (λ kv, str_eqb (normalize_provider_id kv.1) normalized)
            (btree_list (pc_enabled pc)).

Definition Providers_set_enabled (pc : ProvidersConfig) (name : str) (enabled : bool) :
    ProvidersConfig :=
  mkProvidersConfig (pc_active pc) (pc_api_max_tokens pc)
    (<[normalize_provider_id name := enabled]> (pc_enabled pc)).

(** [effective_api_max_tokens], with the environment variable given. *)
Definition effective_api_max_tokens (env : option str) (pc : ProvidersConfig) : N :=
  let positive v := match v with
                    | Some n => if 0 <? n then Some n else None
                    | None => None
                    end in
  match positive (raw ← env; parse_u32 (trim raw)) with
  | Some value => value
  | None => default DEFAULT_API_MAX_TOKENS (positive (pc_api_max_tokens pc))
  end.

(** ** [\[failover\]] *)

Record FailoverConfig := mkFailoverConfig {
  fc_fatal : list str;
  fc_quota : list str;
  fc_transient : list str;
  fc_transient_retries : option N;
  fc_backoff_divisor : option N;
  fc_backoff_ms : option N;
}.

#[export] Instance FailoverConfig_eq_dec : EqDecision FailoverConfig.
Proof. solve_decision. Defined.

Definition FailoverConfig_default : FailoverConfig := mkFailoverConfig [] [] [] None None None.
Definition FailoverConfig_is_default (c : FailoverConfig) : bool :=
  bool_decide (c = FailoverConfig_default).

(** ** Lemmas *)

Lemma is_some_true {A} (o : option A) : is_some o = true ↔ is_Some o.
Proof. destruct o; cbn; split; intros H; try done; by destruct H. Qed.

Lemma btree_list_elem {V} (m : gmap str V) k v : (k, v) ∈ btree_list m ↔ m !! k = Some v.
Proof.
  unfold btree_list. etrans; [apply elem_of_sort_by|apply elem_of_map_to_list].
Qed.

Lemma find_ignore_case_Some {V} (m : gmap str V) name v :
  find_ignore_case m name = Some v →
  ∃ k, m !! k = Some v ∧ eq_ignore_ascii_case k name = true.
Proof.
  unfold find_ignore_case. intros ([k v'] & E & ->)%fmap_Some.
  apply find_some in E as [Hin%list_elem_of_In Hk]. exists k.
  split; [by apply btree_list_elem|done].
Qed.

Lemma normalize_provider_id_idem p :
  normalize_provider_id (normalize_provider_id p) = normalize_provider_id p.
Proof.
  unfold normalize_provider_id at 2 3.
  set (n := to_ascii_lowercase (trim p)).
  assert (Hn : to_ascii_lowercase (trim n) = n).
  { unfold n. rewrite trim_fixed by (apply to_ascii_lowercase_trimmed, trimmed_trim).
    apply to_ascii_lowercase_idem. }
  destruct (existsb (str_eqb n) [$"openai-compatible"; _; _]) eqn:E1; [by vm_compute|].
  destruct (existsb (str_eqb n) [$"lmstudio"; _; _; _]) eqn:E2; [by vm_compute|].
  destruct (existsb (str_eqb n) [$"llama"; _; _; _; _]) eqn:E3; [by vm_compute|].
  unfold normalize_provider_id. by rewrite Hn, E1, E2, E3.
Qed.
