(* ===== verification/Detect.v ===== *)
(** * Detected tools: [crates/rtrt-core/src/detect.rs] and the data types of
    [crates/rtrt-providers/src/lib.rs]

    Only the data: probing the machine for installed tools is I/O. *)
From S2P Require Import Prelude Str.

Inductive ToolKind := CodingAgent | LocalRuntime | ProviderApi | McpServer.
Inductive InvocationMode := IMCli | IMApi | IMMcp.
Inductive CostClass := LocalFree | SubscriptionFlat | ApiMetered | UnknownCost.
Inductive Capability := Reasoning | Code | Vision | Embed | Agentic | CheapBulk.

#[export] Instance ToolKind_eq_dec : EqDecision ToolKind.
Proof. solve_decision. Defined.
#[export] Instance InvocationMode_eq_dec : EqDecision InvocationMode.
Proof. solve_decision. Defined.
#[export] Instance CostClass_eq_dec : EqDecision CostClass.
Proof. solve_decision. Defined.
#[export] Instance Capability_eq_dec : EqDecision Capability.
Proof. solve_decision. Defined.

Record DetectedTool := mkTool {
  tool_name : str;
  tool_kind : ToolKind;
  tool_installed : bool;
  tool_path : option str;
  tool_version : option str;
  tool_invocation_modes : list InvocationMode;
  tool_cli_invocation : option str;
  tool_cost_class : CostClass;
  tool_capabilities : list Capability;
  tool_config_path : option str;
  tool_models : list str;
  tool_server_running : option bool;
  tool_enabled : bool;
}.

Definition has_mode (t : DetectedTool) (m : InvocationMode) : bool :=
  existsb (λ x, bool_decide (x = m)) (tool_invocation_modes t).

Definition has_capability (t : DetectedTool) (c : Capability) : bool :=
  existsb (λ x, bool_decide (x = c)) (tool_capabilities t).

(** [{:?}] of a capability. *)
Definition capability_debug (c : Capability) : str :=
  match c with
  | Reasoning => $"Reasoning"
  | Code => $"Code"
  | Vision => $"Vision"
  | Embed => $"Embed"
  | Agentic => $"Agentic"
  | CheapBulk => $"CheapBulk"
  end.

(** ** Chat data *)

Inductive Role := System | User | Assistant.

Record ChatMessage := mkMessage { msg_role : Role; msg_content : str }.

(** [temperature] is kept as the bit pattern of its [f32]: the program only
    hashes those bits and forwards the value. *)
Record ChatRequest := mkRequest {
  rq_model : str;
  rq_messages : list ChatMessage;
  rq_max_tokens : option N;
  rq_temperature : option N;
}.

#[export] Instance Role_eq_dec : EqDecision Role.
Proof. solve_decision. Defined.
#[export] Instance ChatMessage_eq_dec : EqDecision ChatMessage.
Proof. solve_decision. Defined.
#[export] Instance ChatRequest_eq_dec : EqDecision ChatRequest.
Proof. solve_decision. Defined.

(** [crate::Mode] of [invoke.rs]. *)
Inductive Mode := Cli | Api | Auto.
#[export] Instance Mode_eq_dec : EqDecision Mode.
Proof. solve_decision. Defined.
