(* ===== verification/TsvLog.v ===== *)
(** * Append-only tab-separated logs

    The file discipline the usage ledger and the rate-limit log share in
    [crates/rtrt-providers/src/usage_ledger.rs]: one appended line per record,
    an advisory lock file, and a trim to the newest rows.

    The file system is explicit: a log is [Some content], or [None] when it is
    absent or unreadable, and the operating system's answers are arguments. *)
From S2P Require Import Prelude Str.

Definition MAX_LEDGER_ROWS : N := 5000.
Definition LOCK_RETRY_ATTEMPTS : nat := 5.
Definition LOCK_STALE_SECS : N := 10.
Definition ABSENT_FIELD : str := $"-".

Definition non_blank (line : str) : bool := negb (is_empty (trim line)).

(** [read_rows] and [read_signals], for either line parser. *)
Definition read_log {A} (parse : str → option A) (file : option str) : list A :=
  match file with
  | None => []
  | Some raw => omap parse (List.filter non_blank (lines raw))
  end.

(** The text [trim_to_cap] writes back, or [None] when the file is left alone. *)
Definition trim_to_cap (raw : str) (cap : N) : option str :=
  let ls := List.filter non_blank (lines raw) in
  if N.of_nat (length ls) <=? cap then None
  else
    let start := (length ls - N.to_nat cap)%nat in
    Some (join [ch_nl] (drop start ls) ++ [ch_nl]).

Definition append_line (file : option str) (line : str) : option str :=
  Some (default [] file ++ with_nl line).

(** The age of the lock file, [None] when its metadata cannot be read. *)
Definition lock_is_stale (age : option N) (stale_secs : N) : bool :=
  match age with Some a => stale_secs <=? a | None => false end.

(** What the operating system answers to one exclusive create of the lock file. *)
Inductive LockAnswer :=
| LockCreated
| LockAlreadyExists (age : option N)
| LockError.

Inductive LockEffect := RemoveLock | SleepRetry.

(** [LedgerLock::try_acquire]: whether the lock was taken, and the effects of the
    attempts.  [answers n] is the answer to attempt [n]. *)
Fixpoint try_acquire_loop (answers : nat → LockAnswer) (stale_secs : N) (attempt left : nat) :
    bool * list LockEffect :=
  match left with
  | O => (false, [])
  | S left' =>
      match answers attempt with
      | LockCreated => (true, [])
      | LockError => (false, [])
      | LockAlreadyExists age =>
          let '(got, effs) := try_acquire_loop answers stale_secs (S attempt) left' in
          (got,
           if lock_is_stale age stale_secs then RemoveLock :: effs
           else if Nat.ltb (attempt + 1) LOCK_RETRY_ATTEMPTS then SleepRetry :: effs
           else effs)
      end
  end.

Definition try_acquire (answers : nat → LockAnswer) (stale_secs : N) : bool * list LockEffect :=
  try_acquire_loop answers stale_secs 0 LOCK_RETRY_ATTEMPTS.

(** The operating system's part of one recording call. *)
Record RecordEnv := mkRecordEnv {
  env_now : N;                     (* seconds since the epoch *)
  env_lock : nat → LockAnswer;
  env_append_ok : bool;            (* create_dir_all, open and write succeed *)
  env_read_back : bool;            (* the trim can read the file *)
  env_rewrite_ok : bool;           (* the trim can write it *)
}.

Definition locked (env : RecordEnv) : bool := (try_acquire (env_lock env) LOCK_STALE_SECS).1.

(** Append one line, then trim under the lock: the common tail of
    [record_invocation] and [record_rate_limit_at]. *)
Definition append_and_trim (env : RecordEnv) (file : option str) (line : str) :
    bool * option str :=
  if env_append_ok env then
    let file' := append_line file line in
    if locked env && env_read_back env && env_rewrite_ok env then
      match file' with
      | Some raw => (true, match trim_to_cap raw MAX_LEDGER_ROWS with
                           | Some kept => Some kept
                           | None => file'
                           end)
      | None => (true, file')
      end
    else (true, file')
  else (false, file).

(** ** Specification *)

(** What a record type owes the log: clean records print as one line that is not
    blank, and the parser inverts the printer. *)
Class TsvFormat {A} (print : A → str) (parse : str → option A) (clean : A → Prop) : Prop := {
  tsv_line_ok : ∀ a, clean a → line_ok (print a);
  tsv_non_blank : ∀ a, clean a → non_blank (print a) = true;
  tsv_roundtrip : ∀ a, clean a → parse (print a) = Some a;
}.

(** The newest [n] elements, and a push under a cap. *)
Definition last_n {A} (n : nat) (l : list A) : list A := drop (length l - n) l.
Definition log_push {A} (cap : N) (rows : list A) (r : A) : list A :=
  last_n (N.to_nat cap) (rows ++ [r]).

(** The file that holds exactly these records. *)
Definition file_of {A} (print : A → str) (rows : list A) : option str :=
  Some (unlines (map print rows)).

(** The records kept by one recording call that reaches the file. *)
Definition recorded {A} (env : RecordEnv) (rows : list A) (r : A) : list A :=
  if locked env && env_read_back env && env_rewrite_ok env
  then log_push MAX_LEDGER_ROWS rows r else rows ++ [r].

(** ** Lemmas *)

Lemma filter_all {A} (p : A → bool) l : Forall (λ x, p x = true) l → List.filter p l = l.
Proof. induction 1 as [|x l Hx _ IH]; cbn; [done|]. by rewrite Hx, IH. Qed.

Lemma last_n_suffix {A} n (l : list A) : last_n n l `suffix_of` l.
Proof. unfold last_n. eexists (take _ _). by rewrite take_drop. Qed.

Lemma last_n_elem {A} n (l : list A) x : x ∈ last_n n l → x ∈ l.
Proof. intros Hx. destruct (last_n_suffix n l) as [k ->]. set_solver. Qed.

Lemma last_n_length {A} n (l : list A) : (length (last_n n l) ≤ n)%nat.
Proof. unfold last_n. rewrite length_drop. lia. Qed.

Lemma log_push_last {A} cap (rows : list A) r : 0 < cap → last (log_push cap rows r) = Some r.
Proof.
  intros Hc. unfold log_push, last_n. rewrite drop_app_le, last_snoc; [done|].
  rewrite length_app. cbn. lia.
Qed.

Lemma recorded_suffix {A} env (rows : list A) r : recorded env rows r `suffix_of` rows ++ [r].
Proof. unfold recorded. case_match; [apply last_n_suffix|by exists []]. Qed.

Lemma recorded_last {A} env (rows : list A) r : last (recorded env rows r) = Some r.
Proof. unfold recorded. case_match; [by apply log_push_last|apply last_snoc]. Qed.

(** A line with a digit is not blank. *)
Lemma non_blank_show_N n s : non_blank (show_N n ++ s) = true.
Proof.
  unfold non_blank. pose proof (show_N_digits n) as Hd. pose proof (show_N_nonempty n).
  destruct (show_N n) as [|c l]; [done|]. inversion Hd as [|?? Hc _]; subst.
  apply digit_not_whitespace in Hc.
  match goal with |- negb (is_empty (trim ?l)) = true =>
    pose proof (trim_nonempty l c ltac:(set_solver) Hc); by destruct (trim l)
  end.
Qed.

Section Log.
Context {A} {print : A → str} {parse : str → option A} {clean : A → Prop}.
Context `{!TsvFormat print parse clean}.

Lemma lines_log rows : Forall clean rows → lines (unlines (map print rows)) = map print rows.
Proof using All.
  intros H. apply lines_unlines, Forall_map. eapply Forall_impl; [done|]. apply tsv_line_ok.
Qed.

Lemma filter_log rows : Forall clean rows →
  List.filter non_blank (map print rows) = map print rows.
Proof using All.
  intros H. apply filter_all, Forall_map. eapply Forall_impl; [done|]. apply tsv_non_blank.
Qed.

Lemma omap_log rows : Forall clean rows → omap parse (map print rows) = rows.
Proof using All.
  induction 1 as [|r rows Hr _ IH]; [done|]. cbn. by rewrite (tsv_roundtrip r Hr), IH.
Qed.

(** Reading back the file that holds some records gives those records. *)
Lemma read_file_of rows : Forall clean rows → read_log parse (file_of print rows) = rows.
Proof using All. intros H. cbn. by rewrite lines_log, filter_log, omap_log. Qed.

Lemma append_file_of rows r :
  append_line (file_of print rows) (print r) = file_of print (rows ++ [r]).
Proof using.
  unfold append_line, file_of. cbn. by rewrite map_app, unlines_app; cbn; rewrite app_nil_r.
Qed.

Lemma trim_file_of rows cap :
  Forall clean rows → 0 < cap →
  default (unlines (map print rows)) (trim_to_cap (unlines (map print rows)) cap) =
  unlines (map print (last_n (N.to_nat cap) rows)).
Proof using All.
  intros H Hcap. unfold trim_to_cap. rewrite lines_log, filter_log, length_map by done.
  unfold last_n. destruct (N.leb_spec (N.of_nat (length rows)) cap) as [Hle|Hlt].
  - replace (length rows - N.to_nat cap)%nat with 0%nat by lia. done.
  - cbn [default]. rewrite skipn_map, join_with_nl; [done|].
    intros E%(f_equal length). rewrite length_map, length_drop in E. cbn in E. lia.
Qed.

(** One recording call against the abstract log. *)
Lemma append_and_trim_file_of env rows r :
  Forall clean rows → clean r →
  append_and_trim env (file_of print rows) (print r) =
  if env_append_ok env then (true, file_of print (recorded env rows r))
  else (false, file_of print rows).
Proof using All.
  intros Hrows Hr. unfold append_and_trim, recorded. destruct (env_append_ok env); [|done].
  rewrite append_file_of. case_match; [|done].
  assert (Hall : Forall clean (rows ++ [r])) by by apply Forall_app; auto.
  pose proof (trim_file_of (rows ++ [r]) MAX_LEDGER_ROWS Hall ltac:(done)) as E.
  unfold file_of, log_push. f_equal. rewrite <-E. by destruct (trim_to_cap _ _).
Qed.

Lemma recorded_clean env rows r :
  Forall clean rows → clean r → Forall clean (recorded env rows r).
Proof using.
  intros Hrows Hr. destruct (recorded_suffix env rows r) as [k E].
  assert (H : Forall clean (rows ++ [r])) by (apply Forall_app; auto).
  rewrite E in H. by apply Forall_app in H as [_ H].
Qed.
End Log.

(** *** The advisory lock *)

Definition count_effect (e : LockEffect) (l : list LockEffect) : nat :=
  length (List.filter (λ x, match x, e with
                            | RemoveLock, RemoveLock | SleepRetry, SleepRetry => true
                            | _, _ => false
                            end) l).

Lemma try_acquire_loop_bounds answers stale attempt left :
  (attempt + left = LOCK_RETRY_ATTEMPTS)%nat →
  (length (try_acquire_loop answers stale attempt left).2 ≤ left)%nat ∧
  (count_effect SleepRetry (try_acquire_loop answers stale attempt left).2 ≤ left - 1)%nat.
Proof.
  revert attempt. induction left as [|left IH]; intros attempt Hn; cbn -[Nat.ltb]; [lia|].
  destruct (IH (S attempt)) as [H1 H2]; [lia|].
  destruct (answers attempt) as [|age|]; cbn -[Nat.ltb]; [lia| |lia].
  destruct (try_acquire_loop answers stale (S attempt) left) as [got effs]; cbn -[Nat.ltb] in *.
  unfold count_effect in *. split.
  - case_match; [cbn; lia|]. case_match; cbn; lia.
  - case_match; [cbn in *; lia|].
    destruct (Nat.ltb_spec (attempt + 1) LOCK_RETRY_ATTEMPTS); cbn in *; lia.
Qed.

(** The lock is taken exactly when a create succeeds after creates that found it
    held. *)
Lemma try_acquire_loop_spec answers stale attempt left :
  (try_acquire_loop answers stale attempt left).1 = true ↔
  ∃ n, (attempt ≤ n < attempt + left)%nat ∧ answers n = LockCreated ∧
       ∀ m, (attempt ≤ m < n)%nat → ∃ age, answers m = LockAlreadyExists age.
Proof.
  revert attempt. induction left as [|left IH]; intros attempt; cbn -[Nat.ltb].
  { split; [done|]. intros (n & ? & _). lia. }
  assert (Hhere : ∀ n, (attempt ≤ n)%nat → n = attempt ∨ (S attempt ≤ n)%nat) by lia.
  destruct (answers attempt) as [|age|] eqn:E.
  - split; [|done]. intros _. exists attempt. split_and!; [lia|lia|done|intros; lia].
  - specialize (IH (S attempt)).
    destruct (try_acquire_loop answers stale (S attempt) left) as [got effs]; cbn in *.
    rewrite IH. split; intros (n & Hn & En & Hm).
    + exists n. split_and!; [lia|lia|done|]. intros m Hm'.
      destruct (Hhere m) as [->|]; [lia|by exists age|apply Hm; lia].
    + destruct (Hhere n) as [->|]; [lia|congruence|].
      exists n. split_and!; [lia|lia|done|]. intros m Hm'. apply Hm. lia.
  - split; [done|]. intros (n & Hn & En & Hm).
    destruct (Hhere n) as [->|]; [lia|congruence|].
    destruct (Hm attempt) as [age Ha]; [lia|congruence].
Qed.
