(* ===== verification/Ledger.v ===== *)
(** * The provider-usage ledger: [crates/rtrt-providers/src/usage_ledger.rs]

    The rows of the ledger, recorded and read back through the log of [TsvLog], and
    the rolling windows aggregated per pool and folded per target. *)
From S2P Require Import Prelude Str Pool TsvLog.

Definition ESTIMATED_CHARS_PER_TOKEN : N := 4.
Definition WINDOW_5H_SECS : N := 5 * 60 * 60.
Definition WINDOW_24H_SECS : N := 24 * 60 * 60.
Definition WINDOW_7D_SECS : N := 7 * 24 * 60 * 60.

(** ** Rows *)

Record LedgerRow := mkRow {
  epoch_ts : N;
  row_target : str;
  row_model : str;
  input_tokens : N;
  output_tokens : N;
  estimated : bool;
  row_ok : bool;
}.

#[export] Instance LedgerRow_eq_dec : EqDecision LedgerRow.
Proof. solve_decision. Defined.

Definition total_tokens (r : LedgerRow) : N := sat_add u64_max (input_tokens r) (output_tokens r).

Definition row_pool_key (r : LedgerRow) : PoolKey :=
  PoolKey.from_target_model (row_target r) (Some (row_model r)).

Definition show_flag (b : bool) : str := if b then $"1" else $"0".

Definition to_tsv_line (r : LedgerRow) : str :=
  join [ch_tab] [show_N (epoch_ts r); row_target r; row_model r; show_N (input_tokens r);
                 show_N (output_tokens r); show_flag (estimated r); show_flag (row_ok r)].

Definition parse_row (line : str) : option LedgerRow :=
  match split_char ch_tab line with
  | f0 :: f1 :: f2 :: f3 :: f4 :: f5 :: f6 :: _ =>
      epoch ← parse_u64 (trim f0);
      inp ← parse_u64 (trim f3);
      out ← parse_u64 (trim f4);
      Some (mkRow epoch (normalize_target f1) f2 inp out
              (negb (str_eqb (trim f5) $"0")) (negb (str_eqb (trim f6) $"0")))
  | _ => None
  end.

Arguments to_tsv_line : simpl never.
Arguments parse_row : simpl never.

(** ** Windows *)

Record WindowUsage := mkWindow {
  requests : N;
  tokens : N;
  estimated_requests : N;
}.

Definition WindowUsage_default : WindowUsage := mkWindow 0 0 0.

Definition WindowUsage_add (w : WindowUsage) (row : LedgerRow) : WindowUsage :=
  mkWindow (sat_add u64_max (requests w) 1)
           (sat_add u64_max (tokens w) (total_tokens row))
           (if estimated row then sat_add u64_max (estimated_requests w) 1
            else estimated_requests w).

Definition WindowUsage_merge (w other : WindowUsage) : WindowUsage :=
  mkWindow (sat_add u64_max (requests w) (requests other))
           (sat_add u64_max (tokens w) (tokens other))
           (sat_add u64_max (estimated_requests w) (estimated_requests other)).

Definition has_estimates (w : WindowUsage) : bool := 0 <? estimated_requests w.

Record TargetWindows := mkWindows {
  last_5h : WindowUsage;
  last_24h : WindowUsage;
  last_7d : WindowUsage;
}.

Definition TargetWindows_default : TargetWindows :=
  mkWindows WindowUsage_default WindowUsage_default WindowUsage_default.

Definition TargetWindows_merge (w other : TargetWindows) : TargetWindows :=
  mkWindows (WindowUsage_merge (last_5h w) (last_5h other))
            (WindowUsage_merge (last_24h w) (last_24h other))
            (WindowUsage_merge (last_7d w) (last_7d other)).

(** The body of the loop of [pool_windows_from_rows] on the row's entry. *)
Definition add_row_by_age (age : N) (w : TargetWindows) (row : LedgerRow) : TargetWindows :=
  mkWindows (if age <=? WINDOW_5H_SECS then WindowUsage_add (last_5h w) row else last_5h w)
            (if age <=? WINDOW_24H_SECS then WindowUsage_add (last_24h w) row else last_24h w)
            (if age <=? WINDOW_7D_SECS then WindowUsage_add (last_7d w) row else last_7d w).

Definition pool_windows_step (now : N) (out : gmap str TargetWindows) (row : LedgerRow) :
    gmap str TargetWindows :=
  let key := PoolKey.canonical (row_pool_key row) in
  <[key := add_row_by_age (now - epoch_ts row) (default TargetWindows_default (out !! key)) row]> out.

Definition pool_windows_from_rows (rows : list LedgerRow) (now : N) : gmap str TargetWindows :=
  foldl (pool_windows_step now) ∅ rows.

Definition fold_step (out : gmap str TargetWindows) (kw : str * TargetWindows) :
    gmap str TargetWindows :=
  let target := pk_target (PoolKey.parse kw.1) in
  <[target := TargetWindows_merge (default TargetWindows_default (out !! target)) kw.2]> out.

Definition fold_pools_to_targets (pooled : gmap str TargetWindows) : gmap str TargetWindows :=
  foldl fold_step ∅ (btree_list pooled).

Definition estimate_tokens (text : str) : N :=
  div_ceil (N.of_nat (length text)) ESTIMATED_CHARS_PER_TOKEN.

(** ** The file *)

Definition read_rows (file : option str) : list LedgerRow := read_log parse_row file.

Definition record_invocation (env : RecordEnv) (file : option str)
    (target model : str) (inp out : N) (est ok : bool) : option LedgerRow * option str :=
  let row := mkRow (env_now env) (normalize_target target) model inp out est ok in
  let '(written, file') := append_and_trim env file (to_tsv_line row) in
  (if written then Some row else None, file').

Definition pool_usage_windows (file : option str) (now : N) : gmap str TargetWindows :=
  pool_windows_from_rows (read_rows file) now.

Definition provider_usage_windows (file : option str) (now : N) : gmap str TargetWindows :=
  fold_pools_to_targets (pool_usage_windows file now).

(** ** Specifications *)

(** A row the file format can carry: machine-width numbers, a normalised target,
    and no separator inside the text columns. *)
Record row_clean (r : LedgerRow) : Prop := {
  rc_epoch : epoch_ts r ≤ u64_max;
  rc_input : input_tokens r ≤ u64_max;
  rc_output : output_tokens r ≤ u64_max;
  rc_target : norm_str (row_target r);
  rc_target_tab : ch_tab ∉ row_target r;
  rc_target_nl : ch_nl ∉ row_target r;
  rc_model_tab : ch_tab ∉ row_model r;
  rc_model_nl : ch_nl ∉ row_model r;
}.

(** The aggregation keyed by target, with the model column ignored. *)
Definition legacy_step (now : N) (out : gmap str TargetWindows) (row : LedgerRow) :
    gmap str TargetWindows :=
  <[row_target row := add_row_by_age (now - epoch_ts row)
      (default TargetWindows_default (out !! row_target row)) row]> out.
Definition legacy_windows_from_rows (rows : list LedgerRow) (now : N) : gmap str TargetWindows :=
  foldl (legacy_step now) ∅ rows.

(** ** Lemmas *)

Lemma show_N_no_tab n : ch_tab ∉ show_N n.
Proof. by apply digit_str_no, show_N_digits. Qed.

Lemma show_N_no_nl n : ch_nl ∉ show_N n.
Proof. by apply digit_str_no, show_N_digits. Qed.

Lemma show_flag_props b :
  (ch_tab ∉ show_flag b) ∧ (ch_nl ∉ show_flag b) ∧ trim (show_flag b) = show_flag b ∧
  negb (str_eqb (show_flag b) $"0") = b.
Proof. destruct b; vm_compute; repeat split; auto; set_solver. Qed.

Lemma to_tsv_line_nl r : row_clean r → ch_nl ∉ to_tsv_line r.
Proof.
  intros []. unfold to_tsv_line, join.
  pose proof (show_N_no_nl (epoch_ts r)). pose proof (show_N_no_nl (input_tokens r)).
  pose proof (show_N_no_nl (output_tokens r)).
  destruct (show_flag_props (estimated r)) as (_ & ? & _).
  destruct (show_flag_props (row_ok r)) as (_ & ? & _).
  rewrite !not_elem_of_app. unfold ch_tab, ch_nl in *. set_solver.
Qed.

Lemma to_tsv_line_ok r : row_clean r → line_ok (to_tsv_line r).
Proof.
  intros Hr. split; [by apply to_tsv_line_nl|].
  unfold to_tsv_line, join. rewrite !app_assoc, rev_app_distr. by destruct (row_ok r).
Qed.

(** The line format is inverted by the parser. *)
Lemma parse_row_to_tsv r : row_clean r → parse_row (to_tsv_line r) = Some r.
Proof.
  intros [He Hi Ho Ht Htt _ Hmt _]. unfold parse_row, to_tsv_line. cbn [join].
  destruct (show_flag_props (estimated r)) as (Fe & _ & Te & Ve).
  destruct (show_flag_props (row_ok r)) as (Fo & _ & To & Vo).
  cbn [app]. rewrite !split_char_app by (done || apply show_N_no_tab).
  rewrite split_char_free by done.
  rewrite !show_N_trim, Te, To. unfold parse_u64. rewrite !parse_show by done.
  cbn. rewrite normalize_target_fixed, Ve, Vo by done. by destruct r.
Qed.

#[export] Instance LedgerRow_tsv : TsvFormat to_tsv_line parse_row row_clean.
Proof.
  split; [apply to_tsv_line_ok|intros r _; apply non_blank_show_N|apply parse_row_to_tsv].
Qed.

(** *** Windows form a commutative monoid under merging *)

Definition wu_bounded (w : WindowUsage) : Prop :=
  requests w ≤ u64_max ∧ tokens w ≤ u64_max ∧ estimated_requests w ≤ u64_max.
Definition tw_bounded (w : TargetWindows) : Prop :=
  wu_bounded (last_5h w) ∧ wu_bounded (last_24h w) ∧ wu_bounded (last_7d w).

Lemma WindowUsage_merge_comm a b : WindowUsage_merge a b = WindowUsage_merge b a.
Proof. unfold WindowUsage_merge. f_equal; apply sat_add_comm. Qed.

Lemma WindowUsage_merge_assoc a b c :
  WindowUsage_merge (WindowUsage_merge a b) c = WindowUsage_merge a (WindowUsage_merge b c).
Proof. unfold WindowUsage_merge. cbn. f_equal; apply sat_add_assoc. Qed.

Lemma WindowUsage_merge_0_l a : wu_bounded a → WindowUsage_merge WindowUsage_default a = a.
Proof.
  intros (H1 & H2 & H3). unfold WindowUsage_merge. cbn -[sat_add].
  rewrite !sat_add_0_l by done. by destruct a.
Qed.

Lemma TargetWindows_merge_comm a b : TargetWindows_merge a b = TargetWindows_merge b a.
Proof. unfold TargetWindows_merge. f_equal; apply WindowUsage_merge_comm. Qed.

Lemma TargetWindows_merge_assoc a b c :
  TargetWindows_merge (TargetWindows_merge a b) c = TargetWindows_merge a (TargetWindows_merge b c).
Proof. unfold TargetWindows_merge. cbn. f_equal; apply WindowUsage_merge_assoc. Qed.

Lemma TargetWindows_merge_0_l a : tw_bounded a → TargetWindows_merge TargetWindows_default a = a.
Proof.
  intros (H1 & H2 & H3). unfold TargetWindows_merge. cbn.
  rewrite !WindowUsage_merge_0_l by done. by destruct a.
Qed.

Lemma wu_bounded_merge a b : wu_bounded (WindowUsage_merge a b).
Proof. repeat split; apply sat_add_le_max. Qed.

Lemma tw_bounded_merge a b : tw_bounded (TargetWindows_merge a b).
Proof. repeat split; apply sat_add_le_max. Qed.

(** What one row contributes at a given age. *)
Definition row_windows (age : N) (row : LedgerRow) : TargetWindows :=
  add_row_by_age age TargetWindows_default row.

Lemma WindowUsage_add_merge w row :
  wu_bounded w → WindowUsage_add w row = WindowUsage_merge w (WindowUsage_add WindowUsage_default row).
Proof.
  intros (H1 & H2 & H3). unfold WindowUsage_add, WindowUsage_merge, total_tokens, sat_add. cbn -[u64_max N.min N.add].
  unfold u64_max in *. destruct (estimated row); f_equal; cbn -[N.add N.min]; lia.
Qed.

Lemma wu_bounded_default : wu_bounded WindowUsage_default.
Proof. by repeat split. Qed.

Lemma wu_bounded_add w row : wu_bounded w → wu_bounded (WindowUsage_add w row).
Proof.
  intros (H1 & H2 & H3). unfold WindowUsage_add. repeat split; cbn; try apply sat_add_le_max.
  destruct (estimated row); [apply sat_add_le_max|done].
Qed.

Lemma WindowUsage_merge_0_r a : wu_bounded a → WindowUsage_merge a WindowUsage_default = a.
Proof. intros H. by rewrite WindowUsage_merge_comm, WindowUsage_merge_0_l. Qed.

Lemma add_row_merge age w row :
  tw_bounded w → add_row_by_age age w row = TargetWindows_merge w (row_windows age row).
Proof.
  intros (H1 & H2 & H3). unfold row_windows, add_row_by_age, TargetWindows_merge. cbn.
  f_equal; case_match; rewrite ?WindowUsage_merge_0_r by done; by try apply WindowUsage_add_merge.
Qed.

Lemma tw_bounded_row age row : tw_bounded (row_windows age row).
Proof.
  unfold row_windows, add_row_by_age, tw_bounded. cbn -[WindowUsage_add wu_bounded].
  split_and!; case_match; try apply wu_bounded_add; apply wu_bounded_default.
Qed.

(** *** Folding pools into targets *)

Definition tw_upd (t : str) (w : TargetWindows) (out : gmap str TargetWindows) :
    gmap str TargetWindows :=
  <[t := TargetWindows_merge (default TargetWindows_default (out !! t)) w]> out.

Lemma tw_upd_comm t1 w1 t2 w2 out :
  tw_upd t1 w1 (tw_upd t2 w2 out) = tw_upd t2 w2 (tw_upd t1 w1 out).
Proof.
  unfold tw_upd. destruct (decide (t1 = t2)) as [->|Hne].
  - rewrite !lookup_insert_eq, !insert_insert_eq. cbn.
    by rewrite !TargetWindows_merge_assoc, (TargetWindows_merge_comm w2).
  - rewrite !lookup_insert_ne by done. by apply insert_insert_ne.
Qed.

Lemma tw_upd_merge t w1 w2 out :
  tw_upd t (TargetWindows_merge w1 w2) out = tw_upd t w2 (tw_upd t w1 out).
Proof.
  unfold tw_upd. rewrite lookup_insert_eq, insert_insert_eq. cbn.
  by rewrite TargetWindows_merge_assoc.
Qed.

Lemma fold_step_upd out kw : fold_step out kw = tw_upd (pk_target (PoolKey.parse kw.1)) kw.2 out.
Proof. done. Qed.

Lemma foldl_fold_step_perm l1 l2 out : l1 ≡ₚ l2 → foldl fold_step out l1 = foldl fold_step out l2.
Proof.
  intros Hp. revert out. induction Hp as [|x l1 l2 _ IH|x y l|l1 l2 l3 _ IH1 _ IH2]; intros out; cbn.
  - done.
  - apply IH.
  - by rewrite !fold_step_upd, tw_upd_comm.
  - by rewrite IH1, IH2.
Qed.

Lemma fold_pools_perm m l : map_to_list m ≡ₚ l → fold_pools_to_targets m = foldl fold_step ∅ l.
Proof.
  intros Hp. unfold fold_pools_to_targets, btree_list.
  apply foldl_fold_step_perm. by rewrite sort_by_perm.
Qed.

Lemma foldl_fold_step_upd t w out l :
  foldl fold_step (tw_upd t w out) l = tw_upd t w (foldl fold_step out l).
Proof.
  revert out. induction l as [|x l IH]; intros out; cbn; [done|].
  by rewrite fold_step_upd, tw_upd_comm, IH.
Qed.

Lemma fold_pools_insert_new m k w :
  m !! k = None →
  fold_pools_to_targets (<[k := w]> m) =
  tw_upd (pk_target (PoolKey.parse k)) w (fold_pools_to_targets m).
Proof.
  intros Hk. rewrite (fold_pools_perm _ ((k, w) :: map_to_list m)) by by rewrite map_to_list_insert.
  cbn. rewrite fold_step_upd, foldl_fold_step_upd. cbn. f_equal.
  symmetry. by apply fold_pools_perm.
Qed.

(** Growing one bucket grows its target by the same amount. *)
Lemma fold_pools_grow m k c :
  tw_bounded c →
  fold_pools_to_targets
    (<[k := TargetWindows_merge (default TargetWindows_default (m !! k)) c]> m) =
  tw_upd (pk_target (PoolKey.parse k)) c (fold_pools_to_targets m).
Proof.
  intros Hc. destruct (m !! k) as [w|] eqn:Hk; cbn [default].
  - rewrite <-insert_delete_eq, fold_pools_insert_new by apply lookup_delete_eq.
    rewrite tw_upd_merge. f_equal.
    rewrite <-fold_pools_insert_new by apply lookup_delete_eq.
    by rewrite insert_delete_eq, insert_id.
  - rewrite fold_pools_insert_new by done. by rewrite TargetWindows_merge_0_l.
Qed.

(** Every window stored by the aggregation is made of machine integers. *)
Lemma pool_windows_bounded rows now k w :
  pool_windows_from_rows rows now !! k = Some w → tw_bounded w.
Proof.
  unfold pool_windows_from_rows. revert k w.
  induction rows as [|r rows IH] using rev_ind; intros k w; [by cbn; rewrite lookup_empty|].
  rewrite foldl_app. cbn. unfold pool_windows_step at 1.
  set (m := foldl _ _ rows) in *. set (key := PoolKey.canonical _).
  destruct (decide (key = k)) as [<-|Hne]; [|rewrite lookup_insert_ne by done; apply IH].
  rewrite lookup_insert_eq. intros [= <-]. rewrite add_row_merge; [apply tw_bounded_merge|].
  destruct (m !! key) as [w|] eqn:E; cbn; [by eapply IH|].
  unfold tw_bounded. cbn. split_and!; apply wu_bounded_default.
Qed.

Lemma tw_bounded_default : tw_bounded TargetWindows_default.
Proof. unfold tw_bounded. cbn. split_and!; apply wu_bounded_default. Qed.

Lemma fold_pools_bounded m t w : fold_pools_to_targets m !! t = Some w → tw_bounded w.
Proof.
  unfold fold_pools_to_targets. revert t w.
  induction (btree_list m) as [|x l IH] using rev_ind; intros t w; [by cbn; rewrite lookup_empty|].
  rewrite foldl_app. cbn. rewrite fold_step_upd. unfold tw_upd.
  destruct (decide (pk_target (PoolKey.parse x.1) = t)) as [<-|Hne].
  - rewrite lookup_insert_eq. intros [= <-]. apply tw_bounded_merge.
  - rewrite lookup_insert_ne by done. apply IH.
Qed.

(** ** Properties *)

(** What the ledger keys need of a row: the target column as [normalize_target]
    writes it, without the pool separator. *)
Definition row_keyed (r : LedgerRow) : Prop :=
  norm_str (row_target r) ∧ POOL_SEPARATOR ∉ row_target r.

Lemma row_key_target r :
  row_keyed r → pk_target (PoolKey.parse (PoolKey.canonical (row_pool_key r))) = row_target r.
Proof.
  intros [Hn Hs]. rewrite parse_canonical.
  - cbn. by apply normalize_target_fixed.
  - apply wf_from_target_model.
  - unfold sep_free. cbn. by rewrite normalize_target_fixed.
Qed.

(** Windows that contain each other count at most as much. *)
Definition wu_le (a b : WindowUsage) : Prop :=
  requests a ≤ requests b ∧ tokens a ≤ tokens b ∧ estimated_requests a ≤ estimated_requests b.
Definition tw_nested (w : TargetWindows) : Prop :=
  wu_le (last_5h w) (last_24h w) ∧ wu_le (last_24h w) (last_7d w).

Lemma wu_le_add a b row : wu_le a b → wu_le (WindowUsage_add a row) (WindowUsage_add b row).
Proof.
  intros (H1 & H2 & H3). unfold WindowUsage_add, wu_le, sat_add. cbn -[N.min N.add].
  destruct (estimated row); lia.
Qed.

Lemma wu_le_add_r a b row :
  wu_bounded b → wu_le a b → wu_bounded a → wu_le a (WindowUsage_add b row).
Proof.
  intros Hb (H1 & H2 & H3) (B1 & B2 & B3). unfold WindowUsage_add, wu_le, sat_add. cbn -[N.min N.add].
  destruct (estimated row); lia.
Qed.

Lemma tw_nested_add age w row : tw_bounded w → tw_nested w → tw_nested (add_row_by_age age w row).
Proof.
  intros (B1 & B2 & B3) [H1 H2]. unfold add_row_by_age, tw_nested. cbn -[WindowUsage_add].
  destruct (N.leb_spec age WINDOW_5H_SECS), (N.leb_spec age WINDOW_24H_SECS),
    (N.leb_spec age WINDOW_7D_SECS); unfold WINDOW_5H_SECS, WINDOW_24H_SECS, WINDOW_7D_SECS in *;
    try lia; eauto using wu_le_add, wu_le_add_r.
Qed.


(** A recorded invocation can be read back: whatever the lock answers, a
    reported row is the newest row of the file, nothing older is reordered or
    invented, and a trimmed file holds at most 5000 rows. *)
Theorem record_invocation_read_back env rows target model inp out est ok row file' :
  Forall row_clean rows →
  row_clean (mkRow (env_now env) (normalize_target target) model inp out est ok) →
  record_invocation env (file_of to_tsv_line rows) target model inp out est ok =
    (Some row, file') →
  last (read_rows file') = Some row ∧
  read_rows file' `suffix_of` rows ++ [row] ∧
  (locked env && env_read_back env && env_rewrite_ok env = true →
   (length (read_rows file') ≤ N.to_nat MAX_LEDGER_ROWS)%nat).
Proof.
  intros Hrows Hr. unfold record_invocation. set (r := mkRow _ _ _ _ _ _ _) in *.
  rewrite append_and_trim_file_of by done. destruct (env_append_ok env); [|done].
  intros [= <- <-]. unfold read_rows.
  rewrite read_file_of by by apply recorded_clean.
  split_and!; [apply recorded_last|apply recorded_suffix|].
  intros E. unfold recorded. rewrite E. apply last_n_length.
Qed.

(** The advisory lock is bounded: at most five create attempts leave an
    effect, at most four of them sleep, whatever the file system answers; and the
    lock is only reported taken when one of the five creates succeeded. *)
Theorem try_acquire_bounded answers stale :
  (length (try_acquire answers stale).2 ≤ 5)%nat ∧
  (count_effect SleepRetry (try_acquire answers stale).2 ≤ 4)%nat ∧
  ((try_acquire answers stale).1 = true ↔ ∃ n, (n < 5)%nat ∧ answers n = LockCreated ∧
     ∀ m, (m < n)%nat → ∃ age, answers m = LockAlreadyExists age).
Proof.
  destruct (try_acquire_loop_bounds answers stale 0 LOCK_RETRY_ATTEMPTS) as [H1 H2]; [done|].
  split_and!; [done|done|]. unfold try_acquire. rewrite try_acquire_loop_spec.
  by split; intros (n & ? & ? & Hn); exists n; (split; [unfold LOCK_RETRY_ATTEMPTS in *; lia|]);
    (split; [done|]); intros m Hm; apply Hn; lia.
Qed.

(** The rolling windows nest: in every pool's usage the 5 hour window counts
    no more requests, tokens or estimates than the 24 hour window, and that no
    more than the 7 day window. *)
Theorem pool_windows_nested file now k w :
  pool_usage_windows file now !! k = Some w → tw_nested w.
Proof.
  unfold pool_usage_windows. generalize (read_rows file) as rows. clear file. intros rows. revert k w.
  induction rows as [|r rows IH] using rev_ind; intros k w; [by cbn; rewrite lookup_empty|].
  unfold pool_windows_from_rows. rewrite foldl_app. cbn. unfold pool_windows_step at 1.
  fold (pool_windows_from_rows rows now).
  destruct (decide (PoolKey.canonical (row_pool_key r) = k)) as [<-|Hne];
    [|rewrite lookup_insert_ne by done; apply IH].
  rewrite lookup_insert_eq. intros [= <-]. apply tw_nested_add.
  - destruct (pool_windows_from_rows rows now !! _) as [w|] eqn:E; cbn;
      [by eapply pool_windows_bounded|apply tw_bounded_default].
  - destruct (pool_windows_from_rows rows now !! _) as [w|] eqn:E; cbn; [by eapply IH|].
    by repeat split.
Qed.

(** The per-target view is a loss-free fold of the per-pool view: folding
    the pool windows gives exactly the windows aggregated by target alone, as
    they were before pools existed. *)
Theorem fold_pools_eq_legacy rows now :
  Forall row_keyed rows →
  fold_pools_to_targets (pool_windows_from_rows rows now) = legacy_windows_from_rows rows now.
Proof.
  unfold pool_windows_from_rows, legacy_windows_from_rows.
  induction rows as [|r rows IH] using rev_ind; intros Hr.
  { unfold fold_pools_to_targets, btree_list. cbn. by rewrite map_to_list_empty. }
  apply Forall_app in Hr as [Hrows Hr]. rewrite Forall_singleton in Hr.
  rewrite !foldl_app. cbn. unfold pool_windows_step at 1, legacy_step at 1.
  fold (pool_windows_from_rows rows now). fold (legacy_windows_from_rows rows now).
  fold (pool_windows_from_rows rows now) (legacy_windows_from_rows rows now) in IH.
  set (age := now - epoch_ts r).
  assert (Hb : ∀ k, tw_bounded (default TargetWindows_default (pool_windows_from_rows rows now !! k))).
  { intros k. destruct (_ !! k) as [w|] eqn:E; [by eapply pool_windows_bounded|].
    cbn. apply tw_bounded_default. }
  rewrite add_row_merge, fold_pools_grow by (apply Hb || apply tw_bounded_row).
  rewrite row_key_target, IH by done. unfold tw_upd. f_equal.
  rewrite add_row_merge; [done|]. rewrite <-IH by done.
  destruct (fold_pools_to_targets _ !! _) as [w|] eqn:E; cbn.
  - by eapply fold_pools_bounded.
  - apply tw_bounded_default.
Qed.

(** ** Witnesses *)

Definition demo_row (n : N) : LedgerRow := mkRow n $"claude" $"opus" 10 5 false true.
Definition demo_env : RecordEnv := mkRecordEnv 7 (λ _, LockCreated) true true true.

Lemma demo_row_clean n : n ≤ u64_max → row_clean (demo_row n).
Proof.
  intros Hn. split; cbn; try done; by apply (bool_decide_eq_true_1 _).
Qed.


Lemma record_invocation_read_back_witness :
  last (read_rows (file_of to_tsv_line [demo_row 1; demo_row 7])) = Some (demo_row 7).
Proof.
  refine (proj1 (record_invocation_read_back demo_env [demo_row 1] $" Claude" $"opus" 10 5 false true
    (demo_row 7) _ _ _ _)).
  - by repeat constructor; apply demo_row_clean.
  - by apply demo_row_clean.
  - reflexivity.
Defined.

Lemma pool_windows_nested_witness :
  tw_nested (mkWindows (mkWindow 1 15 0) (mkWindow 2 30 0) (mkWindow 2 30 0)).
Proof.
  apply (pool_windows_nested (file_of to_tsv_line [demo_row 1; demo_row 20000]) 20001 $"claude").
  vm_compute. reflexivity.
Defined.

Lemma fold_pools_eq_legacy_witness :
  fold_pools_to_targets (pool_windows_from_rows [demo_row 1; demo_row 2] 9) !! $"claude" =
  Some (mkWindows (mkWindow 2 30 0) (mkWindow 2 30 0) (mkWindow 2 30 0)).
Proof.
  rewrite fold_pools_eq_legacy.
  - vm_compute. reflexivity.
  - repeat constructor; by apply (bool_decide_eq_true_1 _).
Defined.
