(* ===== verification/RateLimit.v ===== *)
(** * Provider-reported rate limits: [crates/rtrt-providers/src/usage_ledger.rs]

    What one HTTP response says about the quota it drew from: reading the two
    header dialects, resolving durations and RFC 3339 instants, the log of
    signals, and when a signal still describes the present.

    The header map belongs to the HTTP library: it is a type class with the two
    look-ups the code makes. *)
From S2P Require Import Prelude Str F64 Pool TsvLog Ledger.
From Stdlib Require Import ZArith.

(** [headers.get(name)] (already case-insensitive) and [value.to_str().ok()]. *)
Class HeaderMap (H : Type) := {
  header_value : Type;
  header_get : H → str → option header_value;
  header_to_str : header_value → option str;
}.

Definition REQUEST_LIMIT_HEADERS : list str :=
  [$"anthropic-ratelimit-requests-limit"; $"x-ratelimit-limit-requests"].
Definition REQUEST_REMAINING_HEADERS : list str :=
  [$"anthropic-ratelimit-requests-remaining"; $"x-ratelimit-remaining-requests"].
Definition REQUEST_RESET_HEADERS : list str :=
  [$"anthropic-ratelimit-requests-reset"; $"x-ratelimit-reset-requests"].
Definition TOKEN_LIMIT_HEADERS : list str :=
  [$"anthropic-ratelimit-tokens-limit"; $"x-ratelimit-limit-tokens"].
Definition TOKEN_REMAINING_HEADERS : list str :=
  [$"anthropic-ratelimit-tokens-remaining"; $"x-ratelimit-remaining-tokens"].
Definition TOKEN_RESET_HEADERS : list str :=
  [$"anthropic-ratelimit-tokens-reset"; $"x-ratelimit-reset-tokens"].
Definition RETRY_AFTER_HEADERS : list str := [$"retry-after"].

Definition MILLIS_PER_SEC : N := 1000.
Definition SECS_PER_MINUTE : f64 := f64_of_N 60.
Definition SECS_PER_HOUR : f64 := f64_of_N 3600.
Definition SECS_PER_HOUR_i64 : Z := 3600.
Definition SECS_PER_DAY : Z := 86400.

(** ** Signals *)

Record RateLimitAxis := mkAxis {
  ax_limit : option N;
  ax_remaining : option N;
  ax_reset_at : option N;
}.
#[export] Instance RateLimitAxis_eq_dec : EqDecision RateLimitAxis.
Proof. solve_decision. Defined.

Definition Axis_default : RateLimitAxis := mkAxis None None None.

Definition Axis_is_empty (a : RateLimitAxis) : bool :=
  match ax_limit a, ax_remaining a, ax_reset_at a with None, None, None => true | _, _, _ => false end.

Definition Axis_is_current (a : RateLimitAxis) (observed_at now : N) : bool :=
  if Axis_is_empty a then false
  else match ax_reset_at a with
       | Some reset_at => now <? reset_at
       | None => now - observed_at <? WINDOW_24H_SECS
       end.

Record RateLimitSignal := mkSignal {
  sig_key : str;
  sig_observed_at : N;
  sig_status : N;
  sig_requests : RateLimitAxis;
  sig_tokens : RateLimitAxis;
  sig_retry_after_at : option N;
}.
#[export] Instance RateLimitSignal_eq_dec : EqDecision RateLimitSignal.
Proof. solve_decision. Defined.

Definition Signal_default : RateLimitSignal := mkSignal [] 0 0 Axis_default Axis_default None.

Definition Signal_is_empty (s : RateLimitSignal) : bool :=
  Axis_is_empty (sig_requests s) && Axis_is_empty (sig_tokens s) &&
  match sig_retry_after_at s with None => true | Some _ => false end.

Definition Signal_pool_key (s : RateLimitSignal) : PoolKey := PoolKey.parse (sig_key s).

Definition current_at (s : RateLimitSignal) (now : N) : option RateLimitSignal :=
  let keep a := if Axis_is_current a (sig_observed_at s) now then a else Axis_default in
  let fresh := mkSignal (sig_key s) (sig_observed_at s) (sig_status s)
                 (keep (sig_requests s)) (keep (sig_tokens s))
                 (at_ ← sig_retry_after_at s; if now <? at_ then Some at_ else None) in
  if Signal_is_empty fresh then None else Some fresh.

Definition backoff_until (s : RateLimitSignal) : option N := sig_retry_after_at s.

Definition optional_field (value : option N) : str :=
  match value with Some v => show_N v | None => ABSENT_FIELD end.

Definition parse_optional_field (field : str) : option N :=
  let field := trim field in
  if str_eqb field ABSENT_FIELD then None else parse_u64 field.

Definition signal_to_tsv_line (s : RateLimitSignal) : str :=
  join [ch_tab]
    [show_N (sig_observed_at s); sig_key s; show_N (sig_status s);
     optional_field (ax_limit (sig_requests s)); optional_field (ax_remaining (sig_requests s));
     optional_field (ax_reset_at (sig_requests s));
     optional_field (ax_limit (sig_tokens s)); optional_field (ax_remaining (sig_tokens s));
     optional_field (ax_reset_at (sig_tokens s)); optional_field (sig_retry_after_at s)].

Definition parse_signal (line : str) : option RateLimitSignal :=
  match split_char ch_tab line with
  | f0 :: f1 :: f2 :: f3 :: f4 :: f5 :: f6 :: f7 :: f8 :: f9 :: _ =>
      observed ← parse_u64 (trim f0);
      status ← parse_u16 (trim f2);
      Some (mkSignal (PoolKey.canonical (PoolKey.parse f1)) observed status
              (mkAxis (parse_optional_field f3) (parse_optional_field f4) (parse_optional_field f5))
              (mkAxis (parse_optional_field f6) (parse_optional_field f7) (parse_optional_field f8))
              (parse_optional_field f9))
  | _ => None
  end.

Arguments signal_to_tsv_line : simpl never.
Arguments parse_signal : simpl never.

(** ** Durations *)

Definition unit_secs (unit_ : str) : option f64 :=
  if str_eqb unit_ $"ns" then Some (f64_decimal false 1 (-9))
  else if str_eqb unit_ $"us" || str_eqb unit_ [181; 115] || str_eqb unit_ [956; 115]
       then Some (f64_decimal false 1 (-6))
  else if str_eqb unit_ $"ms" then Some (f64_decimal false 1 (-3))
  else if str_eqb unit_ $"s" then Some (f64_of_N 1)
  else if str_eqb unit_ $"m" then Some SECS_PER_MINUTE
  else if str_eqb unit_ $"h" then Some SECS_PER_HOUR
  else None.

Definition millis_from_secs (secs : f64) : option N :=
  if negb (f64_is_finite secs) || f64_lt secs f64_zero then None
  else
    let millis := f64_round (f64_mul secs (f64_of_N MILLIS_PER_SEC)) in
    if f64_le millis (f64_of_N u64_max) then Some (f64_to_u64 millis) else None.

(** [find] of a predicate, as the pair of the text before and from the match. *)
Fixpoint break_at (p : char → bool) (s : str) : str * str :=
  match s with
  | [] => ([], [])
  | c :: s' => if p c then ([], s) else let '(a, b) := break_at p s' in (c :: a, b)
  end.

Definition is_number_char (c : char) : bool := is_ascii_digit c || (c =? 46).

(** The loop over the segments of a Go-style duration.  Every turn takes at least
    one character, so the length of the text is enough fuel. *)
Fixpoint duration_segments (fuel : nat) (total : f64) (segments : N) (rest : str) :
    option (f64 * N) :=
  match rest, fuel with
  | [], _ => Some (total, segments)
  | _, O => None
  | _, S fuel' =>
      let '(num, rest1) := break_at (λ c, negb (is_number_char c)) rest in
      match rest1, num with
      | [], _ => None                       (* no unit boundary *)
      | _, [] => None                       (* no number *)
      | _, _ =>
          value ← parse_f64 num;
          let '(unit_, rest2) := break_at is_ascii_digit rest1 in
          secs ← unit_secs unit_;
          duration_segments fuel' (f64_add total (f64_mul value secs)) (segments + 1) rest2
      end
  end.

Definition parse_duration_millis (raw : str) : option N :=
  let raw := trim raw in
  if is_empty raw then None
  else match parse_f64 raw with
       | Some secs => millis_from_secs secs
       | None =>
           '(total, segments) ← duration_segments (length raw) f64_zero 0 raw;
           if 0 <? segments then millis_from_secs total else None
       end.

(** ** RFC 3339 instants *)

Definition ascii_number (raw : str) : option Z :=
  if is_empty raw || negb (forallb is_ascii_digit raw) then None
  else let v := Z.of_N (digits_value raw) in
       if (v <=? 9223372036854775807)%Z then Some v else None.

Definition days_in_month (year month : Z) : Z :=
  if existsb (Z.eqb month) [1; 3; 5; 7; 8; 10; 12]%Z then 31%Z
  else if existsb (Z.eqb month) [4; 6; 9; 11]%Z then 30%Z
  else if (month =? 2)%Z && ((Z.rem year 4 =? 0) && (negb (Z.rem year 100 =? 0) || (Z.rem year 400 =? 0)))%Z
       then 29%Z
  else if (month =? 2)%Z then 28%Z
  else 0%Z.

(** i64 division truncates. *)
Definition days_from_civil (year month day : Z) : Z :=
  let year := (if month <=? 2 then year - 1 else year)%Z in
  let era := Z.quot (if 0 <=? year then year else year - 399)%Z 400 in
  let year_of_era := (year - era * 400)%Z in
  let day_of_year := (Z.quot (153 * (if 2 <? month then month - 3 else month + 9) + 2) 5 + day - 1)%Z in
  let day_of_era := (year_of_era * 365 + Z.quot year_of_era 4 - Z.quot year_of_era 100 + day_of_year)%Z in
  (era * 146097 + day_of_era - 719468)%Z.

(** [&s[a..b]] on ASCII text: bytes and characters agree. *)
Definition slice (a b : nat) (s : str) : str := take (b - a) (drop a s).
Definition byte_at (n : nat) (s : str) : char := nth n s 0.

(** The offset that may follow the seconds, in seconds. *)
Definition rfc3339_offset (rest : str) : option Z :=
  match rest with
  | [] => Some 0%Z
  | c :: tl =>
      if ((c =? 90) || (c =? 122)) && is_empty tl then Some 0%Z
      else if (c =? 43) || (c =? 45) then
        if negb (Nat.eqb (length rest) 6) || negb (byte_at 3 rest =? 58) then None
        else
          h ← ascii_number (slice 1 3 rest);
          m ← ascii_number (slice 4 6 rest);
          if (23 <? h)%Z || (59 <? m)%Z then None
          else let magnitude := (h * SECS_PER_HOUR_i64 + m * 60)%Z in
               Some (if (c =? 43)%N then magnitude else (- magnitude)%Z)
      else None
  end.

(** The text after an optional fraction; [None] for a point with no digit. *)
Definition skip_fraction (rest : str) : option str :=
  match rest with
  | 46 :: fraction =>
      let '(ds, tl) := break_at (λ c, negb (is_ascii_digit c)) fraction in
      if is_empty ds then None else Some tl
  | _ => Some rest
  end.

Definition parse_rfc3339_epoch (raw : str) : option N :=
  let raw := trim raw in
  if (str_len raw <? 19) || negb (is_ascii raw) then None
  else if negb (byte_at 4 raw =? 45) || negb (byte_at 7 raw =? 45) ||
          negb (byte_at 13 raw =? 58) || negb (byte_at 16 raw =? 58) then None
  else if negb (existsb (N.eqb (byte_at 10 raw)) [84; 116; 32]) then None
  else
    year ← ascii_number (slice 0 4 raw);
    month ← ascii_number (slice 5 7 raw);
    day ← ascii_number (slice 8 10 raw);
    hour ← ascii_number (slice 11 13 raw);
    minute ← ascii_number (slice 14 16 raw);
    second0 ← ascii_number (slice 17 19 raw);
    let second := Z.min second0 59 in
    if negb ((1 <=? month) && (month <=? 12))%Z || (day <? 1)%Z || (days_in_month year month <? day)%Z
    then None
    else if (23 <? hour)%Z || (59 <? minute)%Z then None
    else
      rest ← skip_fraction (drop 19 raw);
      offset_secs ← rfc3339_offset rest;
      let epoch := (days_from_civil year month day * SECS_PER_DAY + hour * SECS_PER_HOUR_i64
                    + minute * 60 + second - offset_secs)%Z in
      if (0 <=? epoch)%Z then Some (Z.to_N epoch) else None.

Definition parse_count (raw : str) : option N :=
  let raw := trim raw in
  if is_empty raw || negb (forallb is_ascii_digit raw) then None else parse_u64 raw.

Definition parse_reset_instant (raw : str) (observed_at : N) : option N :=
  let raw := trim raw in
  if is_empty raw then None
  else match parse_rfc3339_epoch raw with
       | Some epoch => Some epoch
       | None =>
           millis ← parse_duration_millis raw;
           Some (sat_add u64_max observed_at (div_ceil millis MILLIS_PER_SEC))
       end.

(** ** Reading the headers *)

Section Headers.
Context {H : Type} `{!HeaderMap H}.

Fixpoint first_header (headers : H) (names : list str) : option str :=
  match names with
  | [] => None
  | name :: names' =>
      match header_get headers name ≫= header_to_str with
      | Some v => let v := trim v in
                  if is_empty v then first_header headers names' else Some v
      | None => first_header headers names'
      end
  end.

Definition axis_from_headers (headers : H) (observed_at : N) (limit remaining reset : list str) :
    RateLimitAxis :=
  mkAxis (first_header headers limit ≫= parse_count)
         (first_header headers remaining ≫= parse_count)
         (raw ← first_header headers reset; parse_reset_instant raw observed_at).

Definition rate_limit_signal (key : PoolKey) (status observed_at : N) (headers : H) :
    option RateLimitSignal :=
  let signal :=
    mkSignal (PoolKey.canonical key) observed_at status
      (axis_from_headers headers observed_at
         REQUEST_LIMIT_HEADERS REQUEST_REMAINING_HEADERS REQUEST_RESET_HEADERS)
      (axis_from_headers headers observed_at
         TOKEN_LIMIT_HEADERS TOKEN_REMAINING_HEADERS TOKEN_RESET_HEADERS)
      (raw ← first_header headers RETRY_AFTER_HEADERS; parse_reset_instant raw observed_at) in
  if Signal_is_empty signal then None else Some signal.
End Headers.

(** ** The log of signals *)

Definition record_rate_limit_at (env : RecordEnv) (file : option str) (signal : RateLimitSignal) :
    bool * option str :=
  if Signal_is_empty signal then (false, file)
  else append_and_trim env file (signal_to_tsv_line signal).

Definition record_response_rate_limit `{HeaderMap H} (env : RecordEnv) (file : option str)
    (key : PoolKey) (status : N) (headers : H) : option RateLimitSignal * option str :=
  match rate_limit_signal key status (env_now env) headers with
  | None => (None, file)
  | Some signal =>
      let '(written, file') := record_rate_limit_at env file signal in
      (if written then Some signal else None, file')
  end.

Definition read_signals (file : option str) : list RateLimitSignal := read_log parse_signal file.

Definition latest_step (out : gmap str RateLimitSignal) (row : RateLimitSignal) :
    gmap str RateLimitSignal :=
  match out !! sig_key row with
  | Some seen => if sig_observed_at row <? sig_observed_at seen then out
                 else <[sig_key row := row]> out
  | None => <[sig_key row := row]> out
  end.

Definition latest_signals (rows : list RateLimitSignal) : gmap str RateLimitSignal :=
  foldl latest_step ∅ rows.

Definition rate_limit_signals (file : option str) : gmap str RateLimitSignal :=
  latest_signals (read_signals file).

Definition rate_limit_signal_for (file : option str) (key : PoolKey) : option RateLimitSignal :=
  rate_limit_signals file !! PoolKey.canonical key.

(** ** Specifications *)

(** A signal the log format can carry. *)
Record signal_clean (s : RateLimitSignal) : Prop := {
  sc_observed : sig_observed_at s ≤ u64_max;
  sc_status : sig_status s ≤ u16_max;
  sc_key : PoolKey.canonical (PoolKey.parse (sig_key s)) = sig_key s;
  sc_key_tab : ch_tab ∉ sig_key s;
  sc_key_nl : ch_nl ∉ sig_key s;
  sc_axis : ∀ o, o ∈ [ax_limit (sig_requests s); ax_remaining (sig_requests s);
                      ax_reset_at (sig_requests s); ax_limit (sig_tokens s);
                      ax_remaining (sig_tokens s); ax_reset_at (sig_tokens s);
                      sig_retry_after_at s] → default 0 o ≤ u64_max;
}.

(** The signal that answers for a pool: the newest observation, the later row
    among equals. *)
Definition newest_signal (rows : list RateLimitSignal) (k : str) (s : RateLimitSignal) : Prop :=
  ∃ pre post, rows = pre ++ s :: post ∧ sig_key s = k ∧
    (∀ r, r ∈ pre → sig_key r = k → sig_observed_at r ≤ sig_observed_at s) ∧
    (∀ r, r ∈ post → sig_key r = k → sig_observed_at r < sig_observed_at s).

(** The calendar successor of a date. *)
Definition next_day (ymd : Z * Z * Z) : Z * Z * Z :=
  let '(y, m, d) := ymd in
  if (d <? days_in_month y m)%Z then (y, m, d + 1)%Z
  else if (m <? 12)%Z then (y, m + 1, 1)%Z else (y + 1, 1, 1)%Z.

Definition valid_date (y m d : Z) : Prop :=
  (0 ≤ y ≤ 9999 ∧ 1 ≤ m ≤ 12 ∧ 1 ≤ d ≤ days_in_month y m)%Z.

(** A number written with exactly [w] digits. *)
Fixpoint fixed_digits (w : nat) (n : N) : str :=
  match w with
  | O => []
  | S w' => fixed_digits w' (n / 10) ++ [48 + n mod 10]
  end.

Definition show_rfc3339 (y mo d h mi s : N) : str :=
  fixed_digits 4 y ++ 45 :: fixed_digits 2 mo ++ 45 :: fixed_digits 2 d ++ 84 ::
  fixed_digits 2 h ++ 58 :: fixed_digits 2 mi ++ 58 :: fixed_digits 2 s ++ [90].

(** ** Lemmas *)

Lemma optional_field_parse o :
  default 0 o ≤ u64_max → parse_optional_field (optional_field o) = o.
Proof.
  unfold parse_optional_field, optional_field. destruct o as [n|]; [|done]. intros Hn. cbn in Hn.
  rewrite show_N_trim. cbv zeta. case_match eqn:E; [|by apply parse_show].
  unfold str_eqb in E. apply bool_decide_eq_true in E.
  pose proof (show_N_digits n) as Hd. rewrite E in Hd. by inversion Hd.
Qed.

Lemma optional_field_free o : (ch_tab ∉ optional_field o) ∧ (ch_nl ∉ optional_field o).
Proof.
  destruct o; cbn [optional_field]; [split; [apply show_N_no_tab|apply show_N_no_nl]|].
  split; by apply (bool_decide_eq_true_1 _).
Qed.

Lemma signal_roundtrip s : signal_clean s → parse_signal (signal_to_tsv_line s) = Some s.
Proof.
  intros [Ho Hs Hk Ht _ Ha]. unfold parse_signal, signal_to_tsv_line. cbn [join].
  cbn [app]. rewrite !split_char_app by (done || apply show_N_no_tab || apply optional_field_free).
  rewrite split_char_free by apply optional_field_free.
  rewrite !show_N_trim. unfold parse_u64, parse_u16. rewrite !parse_show by done. cbn.
  rewrite Hk, !optional_field_parse by (apply Ha; set_solver). by destruct s as [? ? ? [] [] ?].
Qed.

Lemma signal_line_ok s : signal_clean s → line_ok (signal_to_tsv_line s).
Proof.
  intros [_ _ _ _ Hn _]. unfold signal_to_tsv_line. split.
  - unfold join. pose proof (show_N_no_nl (sig_observed_at s)).
    pose proof (show_N_no_nl (sig_status s)).
    rewrite !not_elem_of_app. split_and!; try apply optional_field_free; try done;
      unfold ch_tab, ch_nl; set_solver.
  - unfold join. rewrite !app_assoc, rev_app_distr.
    destruct (sig_retry_after_at s) as [n|]; [|done]. cbn [optional_field].
    pose proof (show_N_digits n) as Hd. pose proof (show_N_nonempty n) as Hne.
    apply Forall_rev in Hd. destruct (rev (show_N n)) as [|c l] eqn:E.
    { by rewrite <-(rev_involutive (show_N n)), E in Hne. }
    cbn. intros ->. inversion Hd as [|?? Hc]. by vm_compute in Hc.
Qed.

#[export] Instance signal_tsv : TsvFormat signal_to_tsv_line parse_signal signal_clean.
Proof.
  split; [apply signal_line_ok|intros s _; apply non_blank_show_N|apply signal_roundtrip].
Qed.

Lemma latest_signals_snoc rows r : latest_signals (rows ++ [r]) = latest_step (latest_signals rows) r.
Proof. unfold latest_signals. by rewrite foldl_app. Qed.

Lemma latest_step_other out r k : sig_key r ≠ k → latest_step out r !! k = out !! k.
Proof.
  intros Hk. unfold latest_step. repeat case_match; try done; by rewrite lookup_insert_ne.
Qed.

Lemma latest_step_same out r :
  latest_step out r !! sig_key r =
  match out !! sig_key r with
  | Some seen => Some (if sig_observed_at r <? sig_observed_at seen then seen else r)
  | None => Some r
  end.
Proof.
  unfold latest_step. destruct (out !! sig_key r) as [seen|] eqn:E;
    [case_match; [done|]|]; by rewrite lookup_insert_eq.
Qed.

Lemma newest_signal_snoc rows r k s :
  newest_signal (rows ++ [r]) k s ↔
  (newest_signal rows k s ∧ (sig_key r = k → sig_observed_at r < sig_observed_at s)) ∨
  (s = r ∧ sig_key r = k ∧ ∀ x, x ∈ rows → sig_key x = k → sig_observed_at x ≤ sig_observed_at r).
Proof.
  split.
  - intros (pre & post & E & Hk & Hpre & Hpost).
    destruct post as [|p post _] using rev_ind.
    + apply app_inj_tail in E as [-> ->]. by right.
    + rewrite app_comm_cons, app_assoc in E. apply app_inj_tail in E as [-> ->]. left. split.
      * exists pre, post. split_and!; auto. intros x Hx. apply Hpost. set_solver.
      * apply Hpost. set_solver.
  - intros [[(pre & post & -> & Hk & Hpre & Hpost) Hr]|(-> & Hk & Hall)].
    + exists pre, (post ++ [r]). rewrite <-app_assoc. split_and!; auto.
      intros x [Hx| ->%list_elem_of_singleton]%elem_of_app; auto.
    + exists rows, []. split_and!; auto. set_solver.
Qed.

Lemma newest_signal_bound rows k s x :
  newest_signal rows k s → x ∈ rows → sig_key x = k → sig_observed_at x ≤ sig_observed_at s.
Proof.
  intros (pre & post & -> & Hk & Hpre & Hpost) [Hx|[->|Hx]%elem_of_cons]%elem_of_app Hxk;
    [by apply Hpre|done|by apply N.lt_le_incl, Hpost].
Qed.

Lemma latest_signals_newest rows k s :
  latest_signals rows !! k = Some s ↔ newest_signal rows k s.
Proof.
  cut ((∀ s, latest_signals rows !! k = Some s ↔ newest_signal rows k s) ∧
       (latest_signals rows !! k = None → ∀ x, x ∈ rows → sig_key x ≠ k)).
  { intros [H _]. apply H. }
  clear s. induction rows as [|r rows [IH IHn]] using rev_ind.
  { split; [|set_solver]. intros s. cbn. rewrite lookup_empty. split; [done|].
    by intros ([] & post & ? & _). }
  rewrite latest_signals_snoc. destruct (decide (sig_key r = k)) as [<-|Hne].
  - rewrite latest_step_same. destruct (latest_signals rows !! sig_key r) as [seen|] eqn:E.
    + split; [|done]. intros s. rewrite newest_signal_snoc.
      pose proof (proj1 (IH seen) eq_refl) as Hseen.
      destruct (N.ltb_spec (sig_observed_at r) (sig_observed_at seen)) as [Hlt|Hge]; split.
      * intros [= <-]. left. by split.
      * intros [[Hs _]|(_ & _ & Hall)]; [by apply IH|].
        destruct Hseen as (pre & post & -> & Hk & _).
        specialize (Hall seen ltac:(set_solver) Hk). lia.
      * intros [= <-]. right. split_and!; [done|done|]. intros x Hx Hxk.
        pose proof (newest_signal_bound _ _ _ _ Hseen Hx Hxk). lia.
      * intros [[Hs Hlt]|(-> & _)]; [|done]. apply IH in Hs as [= ->]. specialize (Hlt eq_refl). lia.
    + split; [|done]. intros s. rewrite newest_signal_snoc. split.
      * intros [= <-]. right. split_and!; [done|done|]. intros x Hx Hxk. by destruct (IHn eq_refl x Hx).
      * intros [[Hs _]|(-> & _)]; [by apply IH in Hs|done].
  - rewrite latest_step_other by done. split.
    + intros s. rewrite newest_signal_snoc, IH. naive_solver.
    + intros E x [Hx| ->%list_elem_of_singleton]%elem_of_app; auto.
Qed.

(** *** Digits *)

Lemma fixed_digits_digit w n : digit_str (fixed_digits w n).
Proof.
  revert n. induction w as [|w IH]; intros n; cbn; [constructor|].
  apply Forall_app. split; [apply IH|]. constructor; [|constructor].
  pose proof (N.mod_lt n 10). unfold is_ascii_digit. divmod_atoms.
  rewrite andb_true_iff, !N.leb_le. lia.
Qed.

Lemma fixed_digits_length w n : length (fixed_digits w n) = w.
Proof.
  revert n. induction w as [|w IH]; intros n; cbn; [done|]. rewrite length_app, IH. cbn. lia.
Qed.

Lemma digits_value_snoc l c : digits_value (l ++ [c]) = digits_value l * 10 + (c - 48).
Proof. unfold digits_value. by rewrite foldl_app. Qed.

Lemma fixed_digits_value w n : n < 10 ^ N.of_nat w → digits_value (fixed_digits w n) = n.
Proof.
  revert n. induction w as [|w IH]; intros n Hn.
  { cbn in *. lia. }
  cbn [fixed_digits]. rewrite digits_value_snoc, IH.
  - pose proof (N.div_mod n 10). divmod_atoms. lia.
  - rewrite Nat2N.inj_succ, N.pow_succ_r' in Hn. apply N.Div0.div_lt_upper_bound. lia.
Qed.

Lemma ascii_number_fixed w n :
  w ≠ O → (w ≤ 18)%nat → n < 10 ^ N.of_nat w → ascii_number (fixed_digits w n) = Some (Z.of_N n).
Proof.
  intros Hw Hw' Hn. unfold ascii_number.
  pose proof (fixed_digits_length w n) as Hl. pose proof (fixed_digits_digit w n) as Hd.
  rewrite fixed_digits_value by done.
  destruct (is_empty (fixed_digits w n)) eqn:E.
  { destruct (fixed_digits w n); [by cbn in Hl|done]. }
  replace (forallb is_ascii_digit (fixed_digits w n)) with true.
  - cbn. assert (10 ^ N.of_nat w ≤ 10 ^ 18) by (apply N.pow_le_mono_r; lia).
    destruct (Z.leb_spec (Z.of_N n) 9223372036854775807); [done|]. change (10 ^ 18) with 1000000000000000000 in *. lia.
  - symmetry. apply forallb_forall. intros x Hx. unfold digit_str in Hd. rewrite Forall_forall in Hd.
    by apply Hd, list_elem_of_In.
Qed.

Lemma break_at_app p s : s = (break_at p s).1 ++ (break_at p s).2.
Proof.
  induction s as [|c s IH]; [done|]. cbn. destruct (p c); [done|].
  destruct (break_at p s). cbn in *. by f_equal.
Qed.

Lemma break_at_snd_length p s : (length (break_at p s).2 ≤ length s)%nat.
Proof. rewrite (break_at_app p s) at 2. rewrite length_app. lia. Qed.

(** Any fuel from the length of the text up gives the same answer. *)
Lemma duration_segments_fuel n m total segs rest :
  (length rest ≤ n)%nat → (length rest ≤ m)%nat →
  duration_segments n total segs rest = duration_segments m total segs rest.
Proof.
  revert m total segs rest. induction n as [|n IH]; intros m total segs rest Hn Hm.
  { destruct rest; [by destruct m|cbn in Hn; lia]. }
  destruct rest as [|c rest]; [by destruct m|]. destruct m as [|m]; [cbn in Hm; lia|].
  cbn [duration_segments].
  pose proof (break_at_app (λ c, negb (is_number_char c)) (c :: rest)) as E1.
  destruct (break_at _ (c :: rest)) as [num rest1]. cbn in E1.
  destruct rest1 as [|c1 rest1]; [done|]. destruct num as [|c2 num]; [done|].
  destruct (parse_f64 (c2 :: num)); [cbn [mbind option_bind]|done].
  pose proof (break_at_snd_length is_ascii_digit (c1 :: rest1)) as E2.
  destruct (break_at is_ascii_digit (c1 :: rest1)) as [u rest2]. cbn in E2.
  destruct (unit_secs u); [cbn|done]. apply (f_equal length) in E1. rewrite length_app in E1.
  cbn in *. apply IH; lia.
Qed.

(** *** The calendar *)

(** Days before March 1st of a year, by floor division: the shape [lia] reasons
    about. *)
Definition year_days (y : Z) : Z := (365 * y + y / 4 - y / 100 + y / 400)%Z.

Lemma days_from_civil_floor y m d :
  (0 ≤ y)%Z →
  days_from_civil y m d =
  (year_days (if m <=? 2 then y - 1 else y)
   + Z.quot (153 * (if 2 <? m then m - 3 else m + 9) + 2) 5 + d - 1 - 719468)%Z.
Proof.
  intros Hy. unfold days_from_civil, year_days.
  set (q := Z.quot (153 * _ + 2) 5). clearbody q.
  destruct (Z.leb_spec m 2); destruct (Z.leb_spec 0 (if (m <=? 2)%Z then y - 1 else y));
    repeat match goal with |- context [if ?b then _ else _] => destruct b eqn:? end; try lia;
    Z.to_euclidean_division_equations; lia.
Qed.

Lemma month_cases m : (1 ≤ m ≤ 12)%Z →
  m ∈ [1; 2; 3; 4; 5; 6; 7; 8; 9; 10; 11; 12]%Z.
Proof. intros H. rewrite !elem_of_cons. lia. Qed.

Lemma days_next y m d :
  valid_date y m d →
  let '(y', m', d') := next_day (y, m, d) in
  days_from_civil y' m' d' = (days_from_civil y m d + 1)%Z.
Proof.
  intros ([Hy1 Hy2] & Hm & [Hd1 Hd2]). unfold next_day.
  destruct (Z.ltb_spec d (days_in_month y m)) as [Hlt|Hge].
  { rewrite !days_from_civil_floor by done. lia. }
  assert (Hd : d = days_in_month y m) by lia. clear Hd1 Hd2 Hge. subst d.
  apply month_cases in Hm. rewrite !elem_of_cons, elem_of_nil in Hm.
  destruct Hm as [->|[->|[->|[->|[->|[->|[->|[->|[->|[->|[->|[->|[]]]]]]]]]]]]];
    cbn [Z.ltb Z.compare Pos.compare Pos.compare_cont]; rewrite !days_from_civil_floor by lia;
    unfold days_in_month, year_days; cbn -[Z.mul Z.add Z.sub Z.div Z.rem Z.leb Z.ltb];
    rewrite ?Z.add_simpl_r;
    repeat match goal with
    | |- context [(?a <=? ?b)%Z] => destruct (Z.leb_spec a b); try lia
    | |- context [(?a <? ?b)%Z] => destruct (Z.ltb_spec a b); try lia
    end;
    try (Z.to_euclidean_division_equations; lia).
  destruct (Z.eqb_spec (Z.rem y 4) 0), (Z.eqb_spec (Z.rem y 100) 0),
    (Z.eqb_spec (Z.rem y 400) 0); cbn [andb orb negb];
    Z.to_euclidean_division_equations; lia.
Qed.

Lemma days_from_civil_nonneg y m d :
  (1970 ≤ y)%Z → (1 ≤ m ≤ 12)%Z → (1 ≤ d)%Z → (0 ≤ days_from_civil y m d)%Z.
Proof.
  intros Hy Hm Hd. rewrite days_from_civil_floor by lia. unfold year_days.
  destruct (Z.leb_spec m 2), (Z.ltb_spec 2 m); try lia; Z.to_euclidean_division_equations; lia.
Qed.

Lemma fixed_digits_2 n : fixed_digits 2 n = [48 + (n / 10) mod 10; 48 + n mod 10].
Proof. done. Qed.

Lemma digit_bound n : 48 ≤ 48 + n mod 10 < 58.
Proof. pose proof (N.mod_lt n 10). nlia. Qed.

Lemma ascii_str_len s : Forall (λ c, c < 128) s → str_len s = N.of_nat (length s).
Proof.
  induction 1 as [|c s Hc _ IH]; [done|].
  unfold str_len in *. cbn [foldr length]. rewrite IH. unfold utf8_width.
  destruct (N.ltb_spec c 128); lia.
Qed.

Lemma show_rfc3339_ascii y mo d h mi s : Forall (λ c, c < 128) (show_rfc3339 y mo d h mi s).
Proof.
  assert (Hf : ∀ w n, Forall (λ c, c < 128) (fixed_digits w n)).
  { intros w n. eapply Forall_impl; [apply fixed_digits_digit|]. intros c Hc.
    unfold is_ascii_digit in Hc. apply andb_true_iff in Hc as [_ Hc%N.leb_le]. lia. }
  unfold show_rfc3339.
  repeat match goal with
  | |- Forall _ (_ ++ _) => apply Forall_app; split; [by apply Hf|]
  | |- Forall _ (_ :: _) => constructor; [lia|]
  | |- Forall _ [] => constructor
  end.
Qed.

Lemma show_rfc3339_trimmed y mo d h mi s : trimmed (show_rfc3339 y mo d h mi s).
Proof.
  split.
  - unfold show_rfc3339. pose proof (fixed_digits_digit 4 y) as Hd.
    pose proof (fixed_digits_length 4 y) as Hl. destruct (fixed_digits 4 y); [done|].
    inversion Hd; subst. cbn. by apply digit_not_whitespace.
  - unfold show_rfc3339. rewrite !app_comm_cons, !app_assoc, rev_app_distr. done.
Qed.

Record valid_instant (y mo d h mi s : N) : Prop := {
  vi_year : 1970 ≤ y ≤ 9999;
  vi_month : 1 ≤ mo ≤ 12;
  vi_day : 1 ≤ d ∧ (Z.of_N d ≤ days_in_month (Z.of_N y) (Z.of_N mo))%Z;
  vi_hour : h ≤ 23;
  vi_minute : mi ≤ 59;
  vi_second : s ≤ 59;
}.

Lemma days_in_month_le y m : (days_in_month y m ≤ 31)%Z.
Proof. unfold days_in_month. repeat case_match; lia. Qed.

Lemma parse_uint_digits max s :
  digit_str s → s ≠ [] →
  parse_uint max s = if digits_value s <=? max then Some (digits_value s) else None.
Proof.
  intros Hd Hne. unfold parse_uint.
  assert (E : match s with 43 :: s' => s' | _ => s end = s).
  { destruct Hd as [|c s Hc]; [done|]. apply andb_true_iff in Hc as [Hc%N.leb_le _].
    repeat case_match; try done; lia. }
  rewrite E. destruct s as [|c s]; [done|].
  replace (forallb is_ascii_digit (c :: s)) with true; [done|].
  symmetry. apply forallb_forall. intros x Hx%list_elem_of_In.
  unfold digit_str in Hd. rewrite Forall_forall in Hd. auto.
Qed.

Section HeaderProps.
Context {H : Type} `{!HeaderMap H}.

Lemma first_header_Some headers names v :
  first_header headers names = Some v →
  v ≠ [] ∧ ∃ name raw, name ∈ names ∧ header_get headers name ≫= header_to_str = Some raw ∧ v = trim raw.
Proof using.
  induction names as [|n names IH]; [done|]. cbn.
  destruct (header_get headers n ≫= header_to_str) as [raw|] eqn:E.
  - destruct (trim raw) eqn:Et; cbn.
    + intros Hv. destruct (IH Hv) as (Hne & name & raw' & ? & ? & ?). split; [done|].
      exists name, raw'. split_and!; auto. by right.
    + intros [= <-]. split; [done|]. exists n, raw. split_and!; auto. by left.
  - intros Hv. destruct (IH Hv) as (Hne & name & raw' & ? & ? & ?). split; [done|].
    exists name, raw'. split_and!; auto. by right.
Qed.

Lemma parse_count_Some raw v :
  parse_count raw = Some v → digit_str (trim raw) ∧ v = digits_value (trim raw) ∧ v ≤ u64_max.
Proof using.
  unfold parse_count. destruct (is_empty (trim raw)); [done|]. cbn.
  destruct (forallb is_ascii_digit (trim raw)) eqn:E; [|done]. cbn.
  assert (Hd : digit_str (trim raw)).
  { apply Forall_forall. intros x Hx%list_elem_of_In. rewrite forallb_forall in E. auto. }
  destruct (trim raw) as [|c l] eqn:El; [done|]. unfold parse_u64.
  rewrite parse_uint_digits by done. destruct (N.leb_spec (digits_value (c :: l)) u64_max); [|done].
  by intros [= <-].
Qed.
End HeaderProps.

(** ** Properties *)

(** RFC 3339 instants from 1970 to 9999 parse to the epoch second their
    calendar fields name: the parser inverts the printer. *)
Theorem rfc3339_roundtrip y mo d h mi s :
  valid_instant y mo d h mi s →
  parse_rfc3339_epoch (show_rfc3339 y mo d h mi s) =
  Some (Z.to_N (days_from_civil (Z.of_N y) (Z.of_N mo) (Z.of_N d) * 86400
                + Z.of_N h * 3600 + Z.of_N mi * 60 + Z.of_N s)).
Proof.
  intros [Hy Hmo [Hd1 Hd2] Hh Hmi Hs]. unfold parse_rfc3339_epoch.
  pose proof (days_in_month_le (Z.of_N y) (Z.of_N mo)) as Hd31.
  rewrite trim_fixed by apply show_rfc3339_trimmed.
  rewrite ascii_str_len by apply show_rfc3339_ascii.
  replace (is_ascii (show_rfc3339 y mo d h mi s)) with true.
  2: { symmetry. apply forallb_forall. intros x Hx%list_elem_of_In. apply N.ltb_lt.
       pose proof (show_rfc3339_ascii y mo d h mi s) as Ha. rewrite Forall_forall in Ha. auto. }
  assert (Hn : ∀ w n, w ≠ O → (w ≤ 4)%nat → n < 10 ^ N.of_nat w →
    ascii_number (fixed_digits w n) = Some (Z.of_N n)).
  { intros. apply ascii_number_fixed; lia || done. }
  pose proof (Hn 4%nat y ltac:(done) ltac:(lia) ltac:(cbn; lia)) as Ny.
  pose proof (Hn 2%nat mo ltac:(done) ltac:(lia) ltac:(cbn; lia)) as Nmo.
  pose proof (Hn 2%nat d ltac:(done) ltac:(lia) ltac:(cbn; lia)) as Nd.
  pose proof (Hn 2%nat h ltac:(done) ltac:(lia) ltac:(cbn; lia)) as Nh.
  pose proof (Hn 2%nat mi ltac:(done) ltac:(lia) ltac:(cbn; lia)) as Nmi.
  pose proof (Hn 2%nat s ltac:(done) ltac:(lia) ltac:(cbn; lia)) as Ns.
  unfold show_rfc3339. clear Hn. cbn [fixed_digits app] in *.
  cbn -[ascii_number N.add N.modulo N.div days_from_civil Z.mul Z.add].
  rewrite Ny, Nmo, Nd, Nh, Nmi, Ns.
  cbn -[days_from_civil Z.mul Z.add days_in_month Z.leb Z.ltb].
  pose proof (days_from_civil_nonneg (Z.of_N y) (Z.of_N mo) (Z.of_N d)).
  repeat match goal with
  | |- context [(?a <=? ?b)%Z] => destruct (Z.leb_spec a b); try lia
  | |- context [(?a <? ?b)%Z] => destruct (Z.ltb_spec a b); try lia
  end; unfold SECS_PER_DAY, SECS_PER_HOUR_i64 in *; cbn [negb andb orb];
  try (f_equal; f_equal; lia); exfalso; lia.
Qed.

(** [days_from_civil] counts days of the proleptic Gregorian calendar: it is
    zero at the epoch and grows by one from each date to the next, across month
    ends, leap days and centuries. *)
Theorem days_from_civil_calendar :
  days_from_civil 1970 1 1 = 0%Z ∧
  ∀ y m d, valid_date y m d →
    let '(y', m', d') := next_day (y, m, d) in
    days_from_civil y' m' d' = (days_from_civil y m d + 1)%Z.
Proof. split; [reflexivity|apply days_next]. Qed.

(** The duration parser terminates: its loop reads every text within as many
    turns as there are characters, so no answer depends on the fuel. *)
Theorem duration_segments_total n total segs rest :
  (length rest ≤ n)%nat →
  duration_segments n total segs rest = duration_segments (length rest) total segs rest.
Proof. intros H. by apply duration_segments_fuel. Qed.

(** The newest signal answers for a pool: the collapsed log holds, for every
    key, exactly the latest observation, the later row winning within a second. *)
Theorem latest_signals_spec rows k s :
  latest_signals rows !! k = Some s ↔ newest_signal rows k s.
Proof. apply latest_signals_newest. Qed.

(** A reported quota is never presented past the reset instant the provider
    named: what [current_at] keeps is the recorded signal, each axis either
    unchanged and still current or absent, and an expired retry hint is gone. *)
Theorem current_at_sound s now s' :
  current_at s now = Some s' →
  sig_key s' = sig_key s ∧ sig_observed_at s' = sig_observed_at s ∧
  sig_status s' = sig_status s ∧ Signal_is_empty s' = false ∧
  (∀ ax, ax ∈ [sig_requests; sig_tokens] →
     ax s' = Axis_default ∨
     (ax s' = ax s ∧
      match ax_reset_at (ax s) with
      | Some r => now < r
      | None => now - sig_observed_at s < WINDOW_24H_SECS
      end)) ∧
  (∀ at_, sig_retry_after_at s' = Some at_ → sig_retry_after_at s = Some at_ ∧ now < at_).
Proof.
  unfold current_at. cbv zeta. set (fresh := mkSignal _ _ _ _ _ _).
  destruct (Signal_is_empty fresh) eqn:E; [done|]. intros [= <-]. cbn. split_and!; auto.
  - assert (Hk : ∀ a, (if Axis_is_current a (sig_observed_at s) now then a else Axis_default)
        = Axis_default ∨ ((if Axis_is_current a (sig_observed_at s) now then a else Axis_default) = a ∧
        match ax_reset_at a with Some r => now < r
        | None => now - sig_observed_at s < WINDOW_24H_SECS end)).
    { intros a. destruct (Axis_is_current a (sig_observed_at s) now) eqn:Ea; [right|by left].
      split; [done|]. unfold Axis_is_current in Ea. destruct (Axis_is_empty a); [done|].
      destruct (ax_reset_at a); by apply N.ltb_lt. }
    intros ax [->|[->|[]%elem_of_nil]%elem_of_cons]%elem_of_cons; apply Hk.
  - intros at_. destruct (sig_retry_after_at s) as [x|]; [|done]. cbn.
    destruct (N.ltb_spec now x); [|done]. by intros [= <-].
Qed.

(** A recorded signal can be read back: after a successful recording, the log
    answers for the signal's pool with that signal, unless an older row claims a
    later observation. *)
Theorem record_rate_limit_latest env signals s file' :
  Forall signal_clean signals → signal_clean s →
  (∀ r, r ∈ signals → sig_key r = sig_key s → sig_observed_at r ≤ sig_observed_at s) →
  record_rate_limit_at env (file_of signal_to_tsv_line signals) s = (true, file') →
  rate_limit_signal_for file' (PoolKey.parse (sig_key s)) = Some s.
Proof.
  intros Hall Hs Hnew. unfold record_rate_limit_at. destruct (Signal_is_empty s); [done|].
  rewrite append_and_trim_file_of by done. destruct (env_append_ok env); [|done].
  intros [= <-]. unfold rate_limit_signal_for, rate_limit_signals, read_signals.
  rewrite read_file_of by by apply recorded_clean. rewrite sc_key by done.
  apply latest_signals_newest. destruct (recorded_suffix env signals s) as [k Ek].
  pose proof (recorded_last env signals s) as Hl. apply last_Some in Hl as [pre Epre].
  exists pre, []. rewrite Epre in *. split_and!; [done|done| |set_solver].
  intros r Hr. apply Hnew. rewrite app_assoc in Ek. apply app_inj_tail in Ek as [-> _]. set_solver.
Qed.

(** Nothing about a quota is invented: every count of a signal is a header the
    response carried, all digits, read as that number; every instant comes from a
    header that parses; and a signal with nothing in it is not produced. *)
Theorem rate_limit_signal_reported `{HeaderMap H} key status now (headers : H) s :
  rate_limit_signal key status now headers = Some s →
  Signal_is_empty s = false ∧ sig_key s = PoolKey.canonical key ∧ sig_status s = status ∧
  sig_observed_at s = now ∧
  (∀ names v,
     (names, Some v) ∈ [(REQUEST_LIMIT_HEADERS, ax_limit (sig_requests s));
                        (REQUEST_REMAINING_HEADERS, ax_remaining (sig_requests s));
                        (TOKEN_LIMIT_HEADERS, ax_limit (sig_tokens s));
                        (TOKEN_REMAINING_HEADERS, ax_remaining (sig_tokens s))] →
     ∃ name raw, name ∈ names ∧ header_get headers name ≫= header_to_str = Some raw ∧
       trim raw ≠ [] ∧ digit_str (trim raw) ∧ v = digits_value (trim raw) ∧ v ≤ u64_max) ∧
  (∀ names v,
     (names, Some v) ∈ [(REQUEST_RESET_HEADERS, ax_reset_at (sig_requests s));
                        (TOKEN_RESET_HEADERS, ax_reset_at (sig_tokens s));
                        (RETRY_AFTER_HEADERS, sig_retry_after_at s)] →
     ∃ name raw, name ∈ names ∧ header_get headers name ≫= header_to_str = Some raw ∧
       trim raw ≠ [] ∧ parse_reset_instant (trim raw) now = Some v).
Proof.
  unfold rate_limit_signal. cbv zeta. set (sg := mkSignal _ _ _ _ _ _).
  destruct (Signal_is_empty sg) eqn:E; [done|]. intros [= <-].
  split_and!; try done.
  - assert (Hc : ∀ names v, (first_header headers names ≫= parse_count) = Some v →
      ∃ name raw, name ∈ names ∧ header_get headers name ≫= header_to_str = Some raw ∧
       trim raw ≠ [] ∧ digit_str (trim raw) ∧ v = digits_value (trim raw) ∧ v ≤ u64_max).
    { intros names v (t & Ht & Hv)%bind_Some.
      destruct (first_header_Some _ _ _ Ht) as (Hne & name & raw & Hin & Hraw & ->).
      apply parse_count_Some in Hv. rewrite trim_idem in Hv. naive_solver. }
    intros names v. rewrite !elem_of_cons, elem_of_nil. intros Hin.
    repeat destruct Hin as [[= -> Hv]|Hin]; try (by apply Hc; symmetry); done.
  - assert (Hc : ∀ names v,
      (raw ← first_header headers names; parse_reset_instant raw now) = Some v →
      ∃ name raw, name ∈ names ∧ header_get headers name ≫= header_to_str = Some raw ∧
       trim raw ≠ [] ∧ parse_reset_instant (trim raw) now = Some v).
    { intros names v (t & Ht & Hv)%bind_Some.
      destruct (first_header_Some _ _ _ Ht) as (Hne & name & raw & Hin & Hraw & ->). naive_solver. }
    intros names v. rewrite !elem_of_cons, elem_of_nil. intros Hin.
    repeat destruct Hin as [[= -> Hv]|Hin]; try (by apply Hc; symmetry); done.
Qed.

(** A positive window shorter than half a millisecond rounds to zero milliseconds
    before the rounding up to whole seconds, so it reads as already reset. *)
Lemma tiny_window_collapses :
  parse_reset_instant $"400us" 100 = Some 100 ∧
  parse_reset_instant $"600us" 100 = Some 101 ∧
  Axis_is_current (mkAxis None (Some 3) (Some 100)) 100 100 = false.
Proof. by vm_compute. Qed.

(** ** Witnesses *)

#[export] Instance assoc_headers : HeaderMap (gmap str str) :=
  {| header_value := str; header_get h n := h !! n; header_to_str v := Some v |}.

Definition demo_headers : gmap str str :=
  {[ $"anthropic-ratelimit-tokens-remaining" := $" 42 "; $"retry-after" := $"30" ]}.
Definition demo_signal : RateLimitSignal :=
  mkSignal $"claude" 100 429 Axis_default (mkAxis None (Some 42) None) (Some 130).

Lemma demo_signal_clean : signal_clean demo_signal.
Proof.
  split; try done; try by apply (bool_decide_eq_true_1 _).
  intros o. cbn. rewrite !elem_of_cons, elem_of_nil. intros Ho.
  by repeat destruct Ho as [->|Ho].
Qed.

Lemma rfc3339_roundtrip_witness :
  parse_rfc3339_epoch (show_rfc3339 2024 2 29 12 30 59) = Some 1709209859.
Proof.
  rewrite rfc3339_roundtrip; [reflexivity|].
  split; try lia. split; [lia|]. vm_compute. discriminate.
Defined.

Lemma duration_segments_total_witness :
  duration_segments 100 f64_zero 0 $"6m0s" = Some (f64_of_N 360, 2).
Proof. rewrite duration_segments_total; [vm_compute; reflexivity|apply Nat.leb_le; vm_compute; reflexivity]. Defined.

Lemma current_at_sound_witness :
  current_at demo_signal 120 = Some demo_signal ∧
  (∀ at_, sig_retry_after_at demo_signal = Some at_ → 120 < at_).
Proof.
  split; [reflexivity|]. intros at_ Hat.
  destruct (current_at_sound demo_signal 120 demo_signal eq_refl) as (_ & _ & _ & _ & _ & Hr).
  apply (Hr at_ Hat).
Defined.

Lemma record_rate_limit_latest_witness :
  rate_limit_signal_for (file_of signal_to_tsv_line [demo_signal; demo_signal])
    (PoolKey.parse $"claude") = Some demo_signal.
Proof.
  apply (record_rate_limit_latest demo_env [demo_signal] demo_signal).
  - repeat constructor; apply demo_signal_clean.
  - apply demo_signal_clean.
  - intros r Hr%list_elem_of_singleton _. by subst r.
  - reflexivity.
Defined.

Lemma rate_limit_signal_reported_witness :
  Signal_is_empty demo_signal = false ∧ sig_key demo_signal = $"claude".
Proof.
  destruct (rate_limit_signal_reported (PoolKey.unpooled $"claude") 429 100 demo_headers demo_signal)
    as (H1 & H2 & _); [vm_compute; reflexivity|].
  exact (conj H1 H2).
Defined.
