(* ===== verification/Headroom.v ===== *)
(** * Headroom: [crates/rtrt-providers/src/usage_ledger.rs]

    How much of a quota is left for a target and for a pool, with the provenance
    of every number, and the ranking of sibling pools by room. *)
From S2P Require Import Prelude Str F64 Pool Config TsvLog Ledger RateLimit.

(** ** Targets *)

Record TargetHeadroom := mkTargetHeadroom {
  th_used_tokens : N;
  th_limit_tokens : option N;
  th_remaining_tokens : option N;
  th_used_requests : N;
  th_request_limit : option N;
  th_remaining_requests : option N;
  th_tokens_estimated : bool;
}.

Definition th_limits_unknown (h : TargetHeadroom) : bool :=
  is_none (th_limit_tokens h) && is_none (th_request_limit h).

Definition lookup_24h (windows : gmap str TargetWindows) (key : str) : WindowUsage :=
  last_24h (default TargetWindows_default (windows !! key)).

Definition headroom_for (target : str) (windows : gmap str TargetWindows) (limits : LimitsConfig) :
    TargetHeadroom :=
  let window := lookup_24h windows target in
  let limit := LimitsConfig_target limits target in
  let limit_tokens := limit ≫= tl_daily_tokens in
  let request_limit := limit ≫= tl_daily_requests in
  mkTargetHeadroom
    (tokens window) limit_tokens ((λ limit, limit - tokens window) <$> limit_tokens)
    (requests window) request_limit ((λ limit, limit - requests window) <$> request_limit)
    (has_estimates window).

Definition target_headroom (windows : gmap str TargetWindows) (limits : LimitsConfig) :
    gmap str TargetHeadroom :=
  let targets := (btree_list windows).*1 ++
                 map (λ kv, normalize_target kv.1) (btree_list (lc_targets limits)) in
  let targets := dedup str_cmp (sort_by str_cmp targets) in
  foldl (λ out t, <[t := headroom_for t windows limits]> out) ∅ targets.

Definition headroom_for_target (target : str) (windows : gmap str TargetWindows)
    (limits : LimitsConfig) : TargetHeadroom :=
  headroom_for (normalize_target target) windows limits.

(** ** One capped axis of a pool *)

Inductive CapScope := Reported | PoolCapped | Shared | Unknown.
#[export] Instance CapScope_eq_dec : EqDecision CapScope.
Proof. solve_decision. Defined.

Definition is_capped (s : CapScope) : bool := match s with Unknown => false | _ => true end.
Definition is_shared (s : CapScope) : bool := match s with Shared => true | _ => false end.
Definition is_reported (s : CapScope) : bool := match s with Reported => true | _ => false end.

Record PoolCap := mkCap {
  cap_scope : CapScope;
  cap_limit : option N;
  cap_used : N;
  cap_remaining : option N;
}.

Definition PoolCap_unknown (used : N) : PoolCap := mkCap Unknown None used None.

Definition PoolCap_capped (scope : CapScope) (limit : option N) (used : N) : PoolCap :=
  match limit with
  | Some limit => mkCap scope (Some limit) used (Some (limit - used))
  | None => PoolCap_unknown used
  end.

Definition PoolCap_reported (limit : option N) (remaining observed_used : N) : PoolCap :=
  mkCap Reported limit
    (match limit with Some limit => limit - remaining | None => observed_used end)
    (Some remaining).

Definition remaining_fraction (c : PoolCap) : option f64 :=
  limit ← cap_limit c;
  let remaining := default 0 (cap_remaining c) in
  if limit =? 0 then Some f64_zero
  else Some (f64_div (f64_of_N remaining) (f64_of_N limit)).

Definition axis_cap (pool_limit target_limit : option N) (pool_used target_used : N) : PoolCap :=
  match pool_limit, target_limit with
  | Some limit, _ => PoolCap_capped PoolCapped (Some limit) pool_used
  | None, Some limit => PoolCap_capped Shared (Some limit) target_used
  | None, None => PoolCap_unknown pool_used
  end.

Definition axis_cap_with_reported (reported : RateLimitAxis) (pool_limit target_limit : option N)
    (pool_used target_used : N) : PoolCap :=
  match ax_remaining reported with
  | Some remaining => PoolCap_reported (ax_limit reported) remaining pool_used
  | None => axis_cap pool_limit target_limit pool_used target_used
  end.

(** ** One pool *)

Record PoolHeadroom := mkPoolHeadroom {
  ph_key : str;
  ph_target : str;
  ph_pool : option str;
  ph_used_tokens : N;
  ph_used_requests : N;
  ph_tokens_estimated : bool;
  ph_tokens : PoolCap;
  ph_requests : PoolCap;
  ph_sibling_pools : N;
}.

Definition limits_unknown (h : PoolHeadroom) : bool :=
  negb (is_capped (cap_scope (ph_tokens h))) && negb (is_capped (cap_scope (ph_requests h))).
Definition shares_a_cap (h : PoolHeadroom) : bool :=
  is_shared (cap_scope (ph_tokens h)) || is_shared (cap_scope (ph_requests h)).

Definition room_fraction (h : PoolHeadroom) : option f64 :=
  match remaining_fraction (ph_tokens h), remaining_fraction (ph_requests h) with
  | Some tokens, Some requests => Some (f64_min tokens requests)
  | Some only, None | None, Some only => Some only
  | None, None => None
  end.

Definition room_scope (h : PoolHeadroom) : option CapScope :=
  match remaining_fraction (ph_tokens h), remaining_fraction (ph_requests h) with
  | Some tokens, Some requests =>
      Some (if f64_le tokens requests then cap_scope (ph_tokens h) else cap_scope (ph_requests h))
  | Some _, None => Some (cap_scope (ph_tokens h))
  | None, Some _ => Some (cap_scope (ph_requests h))
  | None, None => None
  end.

Definition has_reported_quota (h : PoolHeadroom) : bool :=
  is_reported (cap_scope (ph_tokens h)) || is_reported (cap_scope (ph_requests h)).

Definition ph_pool_key (h : PoolHeadroom) : PoolKey := PoolKey.new (ph_target h) (ph_pool h).

Definition sibling_pool_count (target : str) (pooled : gmap str TargetWindows) : N :=
  N.of_nat (length (List.filter (λ kv, str_eqb (pk_target (PoolKey.parse kv.1)) target)
                      (btree_list pooled))).

Definition headroom_for_pool_in (key : PoolKey) (pooled targets : gmap str TargetWindows)
    (limits : LimitsConfig) (signals : gmap str RateLimitSignal) (now : N) : PoolHeadroom :=
  let window := lookup_24h pooled (PoolKey.canonical key) in
  let target_window := lookup_24h targets (PoolKey.target_key key) in
  let target_limit := LimitsConfig_target limits (PoolKey.target_key key) in
  let pool_limit :=
    pool ← PoolKey.pool key; tl ← target_limit; limit ← TargetLimit_pool tl pool;
    if PoolLimit_is_set limit then Some limit else None in
  let reported :=
    default Signal_default
      (signal ← signals !! PoolKey.canonical key; current_at signal now) in
  mkPoolHeadroom (PoolKey.canonical key) (pk_target key) (PoolKey.pool key)
    (tokens window) (requests window) (has_estimates window)
    (axis_cap_with_reported (sig_tokens reported)
       (pool_limit ≫= pl_daily_tokens) (target_limit ≫= tl_daily_tokens)
       (tokens window) (tokens target_window))
    (axis_cap_with_reported (sig_requests reported)
       (pool_limit ≫= pl_daily_requests) (target_limit ≫= tl_daily_requests)
       (requests window) (requests target_window))
    (sibling_pool_count (PoolKey.target_key key) pooled).

(** ** All pools *)

Definition pool_keys (pooled : gmap str TargetWindows) (limits : LimitsConfig)
    (signals : gmap str RateLimitSignal) : list PoolKey :=
  map (λ kv, PoolKey.parse kv.1) (btree_list pooled) ++
  concat (map (λ tl, map (λ pc, PoolKey.new tl.1 (Some pc.1))
                         (List.filter (λ pc, PoolLimit_is_set pc.2) (btree_list (tl_pools tl.2))))
              (btree_list (lc_targets limits))) ++
  map (λ kv, PoolKey.parse kv.1) (btree_list signals).

Definition pool_headroom_from_parts (pooled : gmap str TargetWindows) (limits : LimitsConfig)
    (signals : gmap str RateLimitSignal) (now : N) : gmap str PoolHeadroom :=
  let targets := fold_pools_to_targets pooled in
  let keys := dedup PoolKey.cmp (sort_by PoolKey.cmp (pool_keys pooled limits signals)) in
  foldl (λ out key, <[PoolKey.canonical key :=
                       headroom_for_pool_in key pooled targets limits signals now]> out) ∅ keys.

Definition headroom_for_pool (key : PoolKey) (pooled : gmap str TargetWindows)
    (limits : LimitsConfig) (signals : gmap str RateLimitSignal) (now : N) : PoolHeadroom :=
  headroom_for_pool_in key pooled (fold_pools_to_targets pooled) limits signals now.

(** ** Comparing and ranking *)

Inductive RoomBasis := Quota | ObservedUsage.
#[export] Instance RoomBasis_eq_dec : EqDecision RoomBasis.
Proof. solve_decision. Defined.

Record RoomComparison := mkRoomComparison { rc_order : Ordering; rc_basis : RoomBasis }.

Definition compare_room (left right : PoolHeadroom) : RoomComparison :=
  match room_fraction left, room_fraction right with
  | Some left_room, Some right_room =>
      mkRoomComparison (f64_total_cmp left_room right_room) Quota
  | _, _ => mkRoomComparison (ph_used_tokens right ?= ph_used_tokens left) ObservedUsage
  end.

Record PoolRanking := mkRanking { rk_basis : RoomBasis; rk_ranked : list PoolHeadroom }.

Definition room_or_zero (h : PoolHeadroom) : f64 := default f64_zero (room_fraction h).

Definition room_order (basis : RoomBasis) (left right : PoolHeadroom) : Ordering :=
  match basis with
  | Quota => f64_total_cmp (room_or_zero right) (room_or_zero left)
             .then str_cmp (ph_key left) (ph_key right)
  | ObservedUsage => (ph_used_tokens left ?= ph_used_tokens right)
                     .then (ph_used_requests left ?= ph_used_requests right)
                     .then str_cmp (ph_key left) (ph_key right)
  end.

Definition ranking_basis (pools : list PoolHeadroom) : RoomBasis :=
  if negb (match pools with [] => true | _ => false end) && forallb (λ p, is_some (room_fraction p)) pools
  then Quota else ObservedUsage.

Definition rank_pools_by_room (pools : list PoolHeadroom) : PoolRanking :=
  let basis := ranking_basis pools in
  mkRanking basis (sort_by (room_order basis) pools).

Definition best (r : PoolRanking) : option PoolHeadroom := head (rk_ranked r).

(** The cap provenance every ranked pool shares. *)
Definition ranking_cap_scope (r : PoolRanking) : option CapScope :=
  match map room_scope (rk_ranked r) with
  | Some first :: scopes =>
      if forallb (λ s, bool_decide (s = Some first)) scopes then Some first else None
  | _ => None
  end.

Definition rank_target_pools (target : str) (pooled : gmap str TargetWindows)
    (limits : LimitsConfig) (signals : gmap str RateLimitSignal) (now : N) : PoolRanking :=
  let target := normalize_target target in
  let pools := List.filter (λ h, str_eqb (ph_target h) target)
                 (btree_list (pool_headroom_from_parts pooled limits signals now)).*2 in
  rank_pools_by_room pools.

Definition CapScope_label (s : CapScope) : str :=
  match s with
  | Reported => $"provider-reported (remaining quota from the provider's own rate-limit headers)"
  | PoolCapped => $"configured (this pool's own [limits] cap — a set belief, not a measurement)"
  | Shared => $"configured (the target's [limits] cap, shared with every sibling pool)"
  | Unknown => $"unknown (nothing reported by the provider, nothing configured)"
  end.

Definition RoomBasis_label (b : RoomBasis) : str :=
  match b with
  | Quota => $"quota-derived (remaining fraction of a configured cap)"
  | ObservedUsage => $"usage-derived (observed 24h usage, not a quota measurement)"
  end.

Definition basis_label (r : PoolRanking) : str :=
  match ranking_cap_scope r with
  | Some scope => if is_capped scope
                  then RoomBasis_label (rk_basis r) ++ $" — " ++ CapScope_label scope
                  else RoomBasis_label (rk_basis r)
  | None => RoomBasis_label (rk_basis r)
  end.

(** ** Specifications *)

(** The configured caps that apply to a pool on the axis a projection selects. *)
Definition configured_pool_cap (key : PoolKey) (limits : LimitsConfig)
    (axis : PoolLimit → option N) : option N :=
  pool ← pk_pool key; tl ← LimitsConfig_target limits (pk_target key);
  limit ← TargetLimit_pool tl pool; axis limit.

(** A quota the provider reported for exactly this pool, still current. *)
Definition reported_now (key : PoolKey) (signals : gmap str RateLimitSignal) (now : N)
    (axis : RateLimitSignal → RateLimitAxis) (limit : option N) (remaining : N) : Prop :=
  ∃ s, signals !! PoolKey.canonical key = Some s ∧
       Axis_is_current (axis s) (sig_observed_at s) now = true ∧
       ax_remaining (axis s) = Some remaining ∧ ax_limit (axis s) = limit.

(** The provenance of one axis: what each scope certifies about the numbers. *)
Definition axis_provenance (key : PoolKey) (limits : LimitsConfig)
    (signals : gmap str RateLimitSignal) (now : N)
    (sax : RateLimitSignal → RateLimitAxis) (pax : PoolLimit → option N)
    (tax : TargetLimit → option N) (pool_used target_used : N) (c : PoolCap) : Prop :=
  match cap_scope c with
  | Reported => ∃ r, reported_now key signals now sax (cap_limit c) r ∧ cap_remaining c = Some r
  | PoolCapped =>
      ∃ l, configured_pool_cap key limits pax = Some l ∧
           (∀ lim r, ¬ reported_now key signals now sax lim r) ∧
           c = mkCap PoolCapped (Some l) pool_used (Some (l - pool_used))
  | Shared =>
      ∃ l, (LimitsConfig_target limits (pk_target key) ≫= tax) = Some l ∧
           configured_pool_cap key limits pax = None ∧
           (∀ lim r, ¬ reported_now key signals now sax lim r) ∧
           c = mkCap Shared (Some l) target_used (Some (l - target_used))
  | Unknown =>
      configured_pool_cap key limits pax = None ∧
      (LimitsConfig_target limits (pk_target key) ≫= tax) = None ∧
      (∀ lim r, ¬ reported_now key signals now sax lim r) ∧
      c = mkCap Unknown None pool_used None
  end.

(** ** Lemmas *)

#[export] Instance room_order_total basis : TotalCmp (room_order basis).
Proof.
  destruct basis.
  - apply (then_total (λ l r, f64_total_cmp (room_or_zero r) (room_or_zero l))).
    + apply (flip_total (λ l r, f64_total_cmp (room_or_zero l) (room_or_zero r))), _.
    + apply (proj_total ph_key str_cmp).
  - apply (then_total (λ l r, _ .then _)); [apply then_total|].
    + apply (proj_total ph_used_tokens N.compare).
    + apply (proj_total ph_used_requests N.compare).
    + apply (proj_total ph_key str_cmp).
Qed.

Lemma room_order_Eq_key basis a b : room_order basis a b = Eq → ph_key a = ph_key b.
Proof. destruct basis; cbn; rewrite ?then_with_Eq, str_cmp_eq; tauto. Qed.

Lemma btree_list_keys {V} (m : gmap str V) k : k ∈ (btree_list m).*1 ↔ is_Some (m !! k).
Proof.
  rewrite list_elem_of_fmap. split.
  - intros ([k' v] & -> & Hkv%btree_list_elem). by exists v.
  - intros [v Hv]. exists (k, v). split; [done|]. by apply btree_list_elem.
Qed.

Lemma PoolKey_cmp_Eq a b : PoolKey.cmp a b = Eq → a = b.
Proof.
  unfold PoolKey.cmp. rewrite then_with_Eq, str_cmp_eq. intros [Ht Hp].
  destruct a as [t1 [p1|]], b as [t2 [p2|]]; cbn in *; try done; subst; [|done].
  by apply str_cmp_eq in Hp as ->.
Qed.

Lemma current_at_key s now s' : current_at s now = Some s' → sig_key s' = sig_key s.
Proof. unfold current_at. cbv zeta. case_match; [done|]. by intros [= <-]. Qed.

(** What a signal still current at [now] says about an axis. *)
Lemma current_at_axis s now s' r :
  current_at s now = Some s' →
  (∀ ax, ax ∈ [sig_requests; sig_tokens] → ax_remaining (ax s') = Some r →
     ax s' = ax s ∧ Axis_is_current (ax s) (sig_observed_at s) now = true).
Proof.
  intros Hs. assert (Hk : ∀ a, ax_remaining (if Axis_is_current a (sig_observed_at s) now
      then a else Axis_default) = Some r →
    (if Axis_is_current a (sig_observed_at s) now then a else Axis_default) = a ∧
    Axis_is_current a (sig_observed_at s) now = true).
  { intros a. by destruct (Axis_is_current a _ now). }
  revert Hs. unfold current_at. cbv zeta. case_match; [done|]. intros [= <-] ax Hin.
  rewrite !elem_of_cons, elem_of_nil in Hin. destruct Hin as [->|[->|[]]]; apply Hk.
Qed.

Lemma reported_axis_Some key signals now sax r :
  sax ∈ [sig_requests; sig_tokens] →
  ax_remaining (sax (default Signal_default
    (s ← signals !! PoolKey.canonical key; current_at s now))) = Some r →
  reported_now key signals now sax
    (ax_limit (sax (default Signal_default
       (s ← signals !! PoolKey.canonical key; current_at s now)))) r.
Proof.
  intros Hax. destruct (signals !! PoolKey.canonical key) as [s|] eqn:Es; cbn.
  - destruct (current_at s now) as [s'|] eqn:E; cbn.
    + intros Hr. destruct (current_at_axis s now s' r E sax Hax Hr) as [Heq Hc].
      rewrite Heq in Hr |- *. by exists s.
    + rewrite !elem_of_cons, elem_of_nil in Hax. by destruct Hax as [->|[->|[]]].
  - rewrite !elem_of_cons, elem_of_nil in Hax. by destruct Hax as [->|[->|[]]].
Qed.

Lemma reported_axis_None key signals now sax lim r :
  sax ∈ [sig_requests; sig_tokens] →
  ax_remaining (sax (default Signal_default
    (s ← signals !! PoolKey.canonical key; current_at s now))) = None →
  ¬ reported_now key signals now sax lim r.
Proof.
  intros Hax Hn (s & Es & Hc & Hr & _). rewrite Es in Hn. cbn in Hn.
  unfold current_at in Hn. cbv zeta in Hn.
  set (fresh := mkSignal _ _ _ _ _ _) in *.
  assert (Hf : sax fresh = sax s).
  { rewrite !elem_of_cons, elem_of_nil in Hax. unfold fresh.
    destruct Hax as [->|[->|[]]]; cbn; by rewrite Hc. }
  destruct (Signal_is_empty fresh) eqn:Ee; cbn in Hn; [|congruence].
  unfold Signal_is_empty in Ee. apply andb_true_iff in Ee as [[E1 E2]%andb_true_iff _].
  assert (Hemp : Axis_is_empty (sax fresh) = true).
  { rewrite !elem_of_cons, elem_of_nil in Hax. by destruct Hax as [->|[->|[]]]. }
  rewrite Hf in Hemp. unfold Axis_is_current in Hc. by rewrite Hemp in Hc.
Qed.

(** A pool cap table with no axis set changes nothing. *)
Lemma pool_limit_is_set key limits (pax : PoolLimit → option N) :
  pax ∈ [pl_daily_tokens; pl_daily_requests] →
  ((pool ← pk_pool key; tl ← LimitsConfig_target limits (pk_target key);
    limit ← TargetLimit_pool tl pool; if PoolLimit_is_set limit then Some limit else None) ≫= pax) =
  configured_pool_cap key limits pax.
Proof.
  intros Hin. unfold configured_pool_cap. destruct (pk_pool key); [cbn|done].
  destruct (LimitsConfig_target _ _); [cbn|done]. destruct (TargetLimit_pool _ _) as [pl|]; [cbn|done].
  unfold PoolLimit_is_set. rewrite !elem_of_cons, elem_of_nil in Hin.
  destruct pl as [[] []]; destruct Hin as [->|[->|[]]]; done.
Qed.

Lemma axis_provenance_ok key limits signals now sax pax tax pu tu :
  sax ∈ [sig_requests; sig_tokens] → pax ∈ [pl_daily_tokens; pl_daily_requests] →
  axis_provenance key limits signals now sax pax tax pu tu
    (axis_cap_with_reported
       (sax (default Signal_default (s ← signals !! PoolKey.canonical key; current_at s now)))
       (configured_pool_cap key limits pax)
       (LimitsConfig_target limits (pk_target key) ≫= tax) pu tu).
Proof.
  intros Hs Hp. unfold axis_cap_with_reported.
  destruct (ax_remaining _) as [r|] eqn:Er.
  - cbn. exists r. split; [by apply reported_axis_Some|done].
  - assert (Hno := λ lim r, reported_axis_None key signals now sax lim r Hs Er).
    unfold axis_cap. destruct (configured_pool_cap key limits pax) as [l|] eqn:Ec; cbn; [eauto|].
    destruct (LimitsConfig_target limits (pk_target key) ≫= tax) as [l|] eqn:Et; cbn; eauto 10.
Qed.

(** ** Properties *)

(** No ceiling is fabricated and the trust order holds.  On each axis of a
    pool's headroom, a provider report that is still current wins verbatim; else
    this pool's own configured cap against this pool's usage; else the target's cap
    against the usage of all its pools, never split; else nothing is claimed. *)
Theorem headroom_provenance key pooled targets limits signals now :
  let h := headroom_for_pool_in key pooled targets limits signals now in
  let own := lookup_24h pooled (PoolKey.canonical key) in
  let shared := lookup_24h targets (pk_target key) in
  axis_provenance key limits signals now sig_tokens pl_daily_tokens tl_daily_tokens
    (tokens own) (tokens shared) (ph_tokens h) ∧
  axis_provenance key limits signals now sig_requests pl_daily_requests tl_daily_requests
    (requests own) (requests shared) (ph_requests h).
Proof.
  cbv zeta. unfold headroom_for_pool_in. cbn [ph_tokens ph_requests].
  unfold PoolKey.pool, PoolKey.target_key. rewrite !pool_limit_is_set by set_solver.
  split; apply axis_provenance_ok; set_solver.
Qed.

(** The pool map is complete and consistent: it has an entry exactly for the
    pools of the ledger, of the configured caps that pin an axis and of the
    recorded signals, and every entry is what a single query answers. *)
Theorem pool_headroom_complete pooled limits signals now k :
  let m := pool_headroom_from_parts pooled limits signals now in
  (is_Some (m !! k) ↔ ∃ key, key ∈ pool_keys pooled limits signals ∧ PoolKey.canonical key = k) ∧
  (∀ h, m !! k = Some h → ∃ key, key ∈ pool_keys pooled limits signals ∧
     PoolKey.canonical key = k ∧ h = headroom_for_pool key pooled limits signals now).
Proof.
  cbv zeta. unfold pool_headroom_from_parts.
  assert (Hk : ∀ key, key ∈ dedup PoolKey.cmp (sort_by PoolKey.cmp (pool_keys pooled limits signals))
    ↔ key ∈ pool_keys pooled limits signals).
  { intros key. rewrite elem_of_dedup by apply PoolKey_cmp_Eq. by rewrite sort_by_perm. }
  split.
  - rewrite foldl_insert_is_Some, lookup_empty, is_Some_alt. setoid_rewrite Hk. naive_solver.
  - intros h [(key & Hin & Hc & ->)|Hm]%foldl_insert_lookup; [|by rewrite lookup_empty in Hm].
    apply Hk in Hin. eauto.
Qed.

(** The target map is complete: it has an entry exactly for the targets of the
    ledger and the configured ones, each entry is what a single query answers, and
    an unconfigured target reports no limit. *)
Theorem target_headroom_complete windows limits t :
  let m := target_headroom windows limits in
  (is_Some (m !! t) ↔
     is_Some (windows !! t) ∨ ∃ name, is_Some (lc_targets limits !! name) ∧ normalize_target name = t) ∧
  (∀ h, m !! t = Some h →
     h = headroom_for t windows limits ∧
     (LimitsConfig_target limits t = None → th_limits_unknown h = true) ∧
     (∀ l, th_limit_tokens h = Some l → th_remaining_tokens h = Some (l - th_used_tokens h)) ∧
     (∀ l, th_request_limit h = Some l → th_remaining_requests h = Some (l - th_used_requests h))).
Proof.
  cbv zeta. unfold target_headroom. set (ks := _ ++ _).
  assert (Hk : ∀ x, x ∈ dedup str_cmp (sort_by str_cmp ks) ↔ x ∈ ks).
  { intros x. rewrite elem_of_dedup by (intros a b; apply str_cmp_eq). by rewrite sort_by_perm. }
  split.
  - rewrite (foldl_insert_is_Some (λ t, t)), lookup_empty. setoid_rewrite Hk. unfold ks.
    setoid_rewrite elem_of_app. setoid_rewrite btree_list_keys.
    assert (Hm : ∀ x, x ∈ map (λ kv, normalize_target kv.1) (btree_list (lc_targets limits)) ↔
      ∃ name, is_Some (lc_targets limits !! name) ∧ normalize_target name = x).
    { intros x. rewrite list_elem_of_fmap. split.
      - intros ([n v] & -> & Hn%btree_list_elem). exists n. split; [by exists v|done].
      - intros (n & [v Hv] & <-). exists (n, v). split; [done|by apply btree_list_elem]. }
    setoid_rewrite Hm. split; [|naive_solver].
    intros [(a & H & ->)|[? ?]]; [done|done].
  - intros h [(a & _ & -> & ->)|Hm]%(foldl_insert_lookup (λ t, t)); [|by rewrite lookup_empty in Hm].
    split; [done|]. unfold headroom_for. cbn. split_and!.
    + intros ->. done.
    + intros l Hl. by rewrite Hl.
    + intros l Hl. by rewrite Hl.
Qed.

(** The ranking is a permutation of the pools with one stated basis: a quota
    order exactly when every pool has a fraction, most room first, and otherwise
    observed usage, least used first; pools of equal standing are ordered by key. *)
Theorem rank_pools_sorted pools :
  let r := rank_pools_by_room pools in
  rk_ranked r ≡ₚ pools ∧
  (rk_basis r = Quota ↔ pools ≠ [] ∧ ∀ p, p ∈ pools → is_Some (room_fraction p)) ∧
  StronglySorted (λ a b, room_order (rk_basis r) a b ≠ Gt) (rk_ranked r) ∧
  (∀ b, best r = Some b → ∀ p, p ∈ pools →
     match rk_basis r with
     | Quota => f64_total_cmp (room_or_zero p) (room_or_zero b) ≠ Gt
     | ObservedUsage => ph_used_tokens b ≤ ph_used_tokens p
     end).
Proof.
  cbv zeta. unfold rank_pools_by_room. cbn [rk_ranked rk_basis].
  pose proof (sort_by_sorted_total (cmp:=room_order (ranking_basis pools)) pools) as Hs.
  split_and!; [apply sort_by_perm| |done|].
  - unfold ranking_basis. case_match eqn:E; (split; [|try done]).
    + intros _. apply andb_true_iff in E as [E1 E2]. split; [by destruct pools|].
      intros p Hp%list_elem_of_In. rewrite forallb_forall in E2. specialize (E2 p Hp).
      by destruct (room_fraction p).
    + done.
    + intros [Hne Hall]. exfalso. apply andb_false_iff in E as [E|E]; [by destruct pools|].
      rewrite <-not_true_iff_false, forallb_forall in E. apply E.
      intros p Hp%list_elem_of_In. by destruct (Hall p Hp) as [f ->].
  - intros b Hb p Hp. unfold best in Hb. cbn in Hb.
    destruct (sort_by _ pools) as [|b' l] eqn:El; [done|]. injection Hb as ->.
    assert (Hord : room_order (ranking_basis pools) b p ≠ Gt).
    { rewrite <-(sort_by_perm (room_order (ranking_basis pools)) pools), El in Hp.
      apply elem_of_cons in Hp as [->|Hp]; [by rewrite cmp_refl|].
      inv Hs. rewrite Forall_forall in *. auto. }
    destruct (ranking_basis pools); cbn in Hord.
    + by destruct (f64_total_cmp _ _).
    + destruct (N.compare_spec (ph_used_tokens b) (ph_used_tokens p)); [lia|lia|done].
Qed.
