(* ===== verification/Usage.v ===== *)
(** * Usage snapshots: [crates/rtrt-providers/src/usage.rs]

    The snapshot routing ranks candidates with: usage and limits per target and
    per pool, loaded from the token log, the proxy statistics and the
    configuration, and overlaid with the ledger's rolling window.

    Files, the [sqlite3] process and the configuration loader are answers passed
    in as arguments. *)
From S2P Require Import Prelude Str Error Pool Config TsvLog Ledger RateLimit Headroom.

Definition CHARS_PER_TOKEN : N := 4.

Record Usage := mkUsage {
  u_input_tokens : N;
  u_output_tokens : N;
  u_cache_read_input_tokens : N;
  u_cache_creation_input_tokens : N;
}.

Definition Usage_default : Usage := mkUsage 0 0 0 0.

(** Plain [+] on [u64]: wraps around in the release profile. *)
Definition Usage_total (u : Usage) : N := wrap_add u64_max (u_input_tokens u) (u_output_tokens u).

Definition Usage_merge (u other : Usage) : Usage :=
  mkUsage (wrap_add u64_max (u_input_tokens u) (u_input_tokens other))
          (wrap_add u64_max (u_output_tokens u) (u_output_tokens other))
          (wrap_add u64_max (u_cache_read_input_tokens u) (u_cache_read_input_tokens other))
          (wrap_add u64_max (u_cache_creation_input_tokens u) (u_cache_creation_input_tokens other)).

Record ChatResponse := mkResponse {
  resp_provider : str;
  resp_model : str;
  resp_content : str;
  resp_usage : Usage;
}.

Inductive ChatStreamEvent :=
| Delta (text : str)
| UsageEvent (usage : Usage)
| Done.

Record ProxyUsage := mkProxyUsage { pu_runs : N; pu_input_chars : N; pu_output_chars : N }.

Record UsageSnapshot := mkSnapshot {
  usage_by_target : gmap str N;
  limits_by_target : gmap str N;
  requests_by_target : gmap str N;
  request_limits_by_target : gmap str N;
  usage_by_pool : gmap str N;
  limits_by_pool : gmap str N;
  requests_by_pool : gmap str N;
  request_limits_by_pool : gmap str N;
  proxy_runs : option ProxyUsage;
  sources : list str;
}.

Definition Snapshot_default : UsageSnapshot := mkSnapshot ∅ ∅ ∅ ∅ ∅ ∅ ∅ ∅ None [].

Record QuotaHeadroom := mkQuota {
  q_used : N;
  q_limit : N;
  q_remaining : N;
  q_token_limit_configured : bool;
  q_request_used : option N;
  q_request_limit : option N;
  q_request_remaining : option N;
}.

Record PoolQuota := mkPoolQuota {
  pq_key : str;
  pq_used : N;
  pq_request_used : N;
  pq_tokens : PoolCap;
  pq_requests : PoolCap;
}.

(** [normalize_target] of this file does not trim. *)
Definition usage_normalize_target (target : str) : str := to_ascii_lowercase target.

Definition lookup0 (m : gmap str N) (k : str) : N := default 0 (m !! k).

(** ** Queries *)

Definition pool_headroom (s : UsageSnapshot) (key : PoolKey) : option PoolQuota :=
  let canonical := PoolKey.canonical key in
  let target := PoolKey.target_key key in
  let pool_token_limit := limits_by_pool s !! canonical in
  let pool_request_limit := request_limits_by_pool s !! canonical in
  let target_token_limit := limits_by_target s !! target in
  let target_request_limit := request_limits_by_target s !! target in
  if is_none pool_token_limit && is_none pool_request_limit &&
     is_none target_token_limit && is_none target_request_limit then None
  else
    let used := lookup0 (usage_by_pool s) canonical in
    let request_used := lookup0 (requests_by_pool s) canonical in
    let target_used := lookup0 (usage_by_target s) target in
    let target_requests := lookup0 (requests_by_target s) target in
    Some (mkPoolQuota canonical used request_used
            (axis_cap pool_token_limit target_token_limit used target_used)
            (axis_cap pool_request_limit target_request_limit request_used target_requests)).

Definition headroom (s : UsageSnapshot) (target : str) : option QuotaHeadroom :=
  let target := usage_normalize_target target in
  let limit := limits_by_target s !! target in
  let request_limit := request_limits_by_target s !! target in
  if is_none limit && is_none request_limit then None
  else
    let used := lookup0 (usage_by_target s) target in
    let requests := lookup0 (requests_by_target s) target in
    Some (mkQuota used (default 0 limit)
            (match limit with Some limit => limit - used | None => u64_max end)
            (is_some limit)
            (match request_limit with Some _ => Some requests | None => None end)
            request_limit
            ((λ limit, limit - requests) <$> request_limit)).

(** ** Loading *)

Definition add_usage (usage : gmap str N) (target : str) (tokens : N) : gmap str N :=
  let k := to_ascii_lowercase target in
  <[k := match usage !! k with Some used => sat_add u64_max used tokens | None => tokens end]> usage.

Definition add_limit (limits : gmap str N) (target : str) (limit : option N) : gmap str N :=
  match limit with
  | Some limit => <[usage_normalize_target target := limit]> limits
  | None => limits
  end.

Definition push_source (s : UsageSnapshot) (line : str) : UsageSnapshot :=
  mkSnapshot (usage_by_target s) (limits_by_target s) (requests_by_target s)
    (request_limits_by_target s) (usage_by_pool s) (limits_by_pool s) (requests_by_pool s)
    (request_limits_by_pool s) (proxy_runs s) (sources s ++ [line]).

Definition set_usage (s : UsageSnapshot) (usage requests : gmap str N) : UsageSnapshot :=
  mkSnapshot usage (limits_by_target s) requests
    (request_limits_by_target s) (usage_by_pool s) (limits_by_pool s) (requests_by_pool s)
    (request_limits_by_pool s) (proxy_runs s) (sources s).

Definition provider_for_model (model : str) : option str :=
  let fallback :=
    let normalized := to_ascii_lowercase (trim model) in
    if starts_with normalized $"claude" then Some $"anthropic"
    else if starts_with normalized $"gpt" || starts_with normalized $"o1" || starts_with normalized $"o3"
    then Some $"openai"
    else None in
  match split_once_char ch_slash (trim model) with
  | Some (provider, upstream) =>
      if negb (is_empty provider) && negb (is_empty upstream)
      then Some (normalize_provider_id provider) else fallback
  | None => fallback
  end.

Definition token_log_trailing_text_fields : nat := 2.
Definition token_log_timestamp_fields : nat := 1.
Definition token_log_min_fields : nat :=
  (token_log_timestamp_fields + token_log_trailing_text_fields + 1)%nat.

(** One line of the token log: the model and its token total, when it counts. *)
Definition token_log_row (line : str) : option (str * N) :=
  let fields := split_char ch_tab line in
  if Nat.ltb (length fields) token_log_min_fields then None
  else
    let metric_end := (length fields - token_log_trailing_text_fields)%nat in
    model ← fields !! metric_end;
    let metrics := drop token_log_timestamp_fields (take metric_end fields) in
    let total := foldl (sat_add u64_max) 0 (omap parse_u64 metrics) in
    if total =? 0 then None else Some (model, total).

Definition token_log_step (acc : gmap str N * gmap str N * N) (line : str) :
    gmap str N * gmap str N * N :=
  let '(usage, requests, rows) := acc in
  match token_log_row line with
  | None => acc
  | Some (model, total) =>
      let usage := add_usage usage model total in
      let requests := add_usage requests model 1 in
      match provider_for_model model with
      | Some provider => (add_usage usage provider total, add_usage requests provider 1,
                          sat_add u64_max rows 1)
      | None => (usage, requests, sat_add u64_max rows 1)
      end
  end.

Definition load_token_log (path : str) (file : option str) (s : UsageSnapshot) : UsageSnapshot :=
  match file with
  | None => push_source s ($"token-log: unavailable (" ++ path ++ $")")
  | Some raw =>
      let '(usage, requests, rows) :=
        foldl token_log_step (usage_by_target s, requests_by_target s, 0)
          (List.filter non_blank (lines raw)) in
      push_source (set_usage s usage requests)
        ($"token-log: " ++ path ++ $" (" ++ show_N rows ++ $" parseable rows)")
  end.

(** The error text of [u64::from_str]. *)
Definition parse_u64_error (s : str) : str :=
  match s with
  | [] => $"cannot parse integer from empty string"
  | _ => let ds := match s with 43 :: s' => s' | _ => s end in
         if negb (is_empty ds) && forallb is_ascii_digit ds
         then $"number too large to fit in target type"
         else $"invalid digit found in string"
  end.

Definition parse_nonnegative_u64 (value : option str) (field : str) : N + str :=
  match value with
  | None => inr ($"sqlite3 missing " ++ field)
  | Some v => match parse_u64 v with
              | Some n => inl n
              | None => inr ($"sqlite3 invalid " ++ field ++ $": " ++ parse_u64_error v)
              end
  end.

Definition parse_proxy_usage_row (row : str) : ProxyUsage + str :=
  let fields := split_char 124 (trim row) in
  match parse_nonnegative_u64 (fields !! 0%nat) $"runs" with
  | inr e => inr e
  | inl runs =>
  match parse_nonnegative_u64 (fields !! 1%nat) $"input_chars" with
  | inr e => inr e
  | inl input_chars =>
  match parse_nonnegative_u64 (fields !! 2%nat) $"output_chars" with
  | inr e => inr e
  | inl output_chars =>
      match fields !! 3%nat with
      | Some _ => inr $"sqlite3 returned too many columns"
      | None => inl (mkProxyUsage runs input_chars output_chars)
      end
  end end end.

(** What running [sqlite3] gave: output texts are already decoded. *)
Inductive SqliteAnswer :=
| SqliteSpawnError (err : str)
| SqliteFailed (status stderr : str)
| SqliteOutput (stdout : str).

Definition load_proxy_usage (answer : SqliteAnswer) : ProxyUsage + str :=
  match answer with
  | SqliteSpawnError err => inr ($"spawn sqlite3: " ++ err)
  | SqliteFailed status stderr =>
      let stderr := trim stderr in
      inr (if is_empty stderr then $"sqlite3 exited with " ++ status else stderr)
  | SqliteOutput stdout =>
      match lines stdout with
      | [] => inr $"sqlite3 returned no rows"
      | row :: _ => parse_proxy_usage_row row
      end
  end.

Definition chars_to_estimated_tokens (chars : N) : N := div_ceil chars CHARS_PER_TOKEN.

(** [answer] is [None] when the database file does not exist. *)
Definition load_proxy_stats (path : str) (answer : option SqliteAnswer) (s : UsageSnapshot) :
    UsageSnapshot :=
  match answer with
  | None => push_source s ($"proxy-stats: unavailable (" ++ path ++ $" not found)")
  | Some answer =>
      match load_proxy_usage answer with
      | inl proxy =>
          let estimated :=
            chars_to_estimated_tokens (sat_add u64_max (pu_input_chars proxy) (pu_output_chars proxy)) in
          let usage := if 0 <? estimated then add_usage (usage_by_target s) $"proxy" estimated
                       else usage_by_target s in
          let requests := if 0 <? pu_runs proxy then add_usage (requests_by_target s) $"proxy" (pu_runs proxy)
                          else requests_by_target s in
          push_source
            (mkSnapshot usage (limits_by_target s) requests
               (request_limits_by_target s) (usage_by_pool s) (limits_by_pool s)
               (requests_by_pool s) (request_limits_by_pool s) (Some proxy) (sources s))
            ($"proxy-stats: " ++ path ++ $" (" ++ show_N (pu_runs proxy) ++ $" runs, chars/" ++
             show_N CHARS_PER_TOKEN ++ $" token estimate)")
      | inr err => push_source s ($"proxy-stats: unavailable (" ++ path ++ $": " ++ err ++ $")")
      end
  end.

(** The four limit maps, filled from the [limits] tables. *)
Record LimitMaps := mkLimitMaps {
  lm_tokens : gmap str N;
  lm_requests : gmap str N;
  lm_pool_tokens : gmap str N;
  lm_pool_requests : gmap str N;
}.

Definition load_pool_limit (target : str) (m : LimitMaps) (pc : str * PoolLimit) : LimitMaps :=
  let key := PoolKey.canonical (PoolKey.new target (Some pc.1)) in
  mkLimitMaps (lm_tokens m) (lm_requests m)
    (insert_option (lm_pool_tokens m) key (pl_daily_tokens pc.2))
    (insert_option (lm_pool_requests m) key (pl_daily_requests pc.2)).

Definition load_target_limit (m : LimitMaps) (tl : str * TargetLimit) : LimitMaps :=
  let m := mkLimitMaps (add_limit (lm_tokens m) tl.1 (tl_daily_tokens tl.2))
             (add_limit (lm_requests m) tl.1 (tl_daily_requests tl.2))
             (lm_pool_tokens m) (lm_pool_requests m) in
  foldl (load_pool_limit tl.1) m (btree_list (tl_pools tl.2)).

Definition count_N {V} (m : gmap str V) : N := N.of_nat (size m).

(** [config] is what [Config::load] returned, with the path it reads. *)
Definition load_limits (path : option str) (config : LimitsConfig + str) (s : UsageSnapshot) :
    UsageSnapshot :=
  match path with
  | None => push_source s $"limits: unavailable (no config path)"
  | Some path =>
      match config with
      | inr err => push_source s ($"limits: unavailable (" ++ path ++ $": " ++ err ++ $")")
      | inl limits =>
          if LimitsConfig_is_empty limits
          then push_source s ($"limits: unavailable (" ++ path ++ $" has no [limits.<target>])")
          else
            let m := foldl load_target_limit
                       (mkLimitMaps (limits_by_target s) (request_limits_by_target s)
                          (limits_by_pool s) (request_limits_by_pool s))
                       (btree_list (lc_targets limits)) in
            let s := mkSnapshot (usage_by_target s) (lm_tokens m) (requests_by_target s)
                       (lm_requests m) (usage_by_pool s) (lm_pool_tokens m) (requests_by_pool s)
                       (lm_pool_requests m) (proxy_runs s) (sources s) in
            let s := push_source s
                       ($"limits: " ++ path ++ $" (" ++ show_N (count_N (limits_by_target s)) ++
                        $" token limits, " ++ show_N (count_N (request_limits_by_target s)) ++
                        $" request limits)") in
            let pool_caps := count_N (limits_by_pool s) + count_N (request_limits_by_pool s) in
            if 0 <? pool_caps
            then push_source s ($"limits: " ++ show_N pool_caps ++
                                $" pool cap(s) nested under [limits.<target>.pools]")
            else s
      end
  end.

(** ** The ledger overlay *)

Definition overlay_step (f : WindowUsage → N) (m : gmap str N) (kw : str * TargetWindows) :
    gmap str N :=
  <[kw.1 := f (last_24h kw.2)]> m.

Definition overlay (f : WindowUsage → N) (m : gmap str N) (w : gmap str TargetWindows) : gmap str N :=
  foldl (overlay_step f) m (btree_list w).

Definition with_ledger_window (pooled : gmap str TargetWindows) (s : UsageSnapshot) :
    UsageSnapshot :=
  let windows := fold_pools_to_targets pooled in
  let s := set_usage s (overlay tokens (usage_by_target s) windows)
             (overlay requests (requests_by_target s) windows) in
  let s := push_source s ($"provider-usage-ledger: " ++ show_N (count_N (usage_by_target s)) ++
                          $" target(s) in the rolling 24h window") in
  let pools := N.of_nat (length (List.filter (λ kw, PoolKey.is_pooled (PoolKey.parse kw.1))
                                   (btree_list pooled))) in
  let s := mkSnapshot (usage_by_target s) (limits_by_target s) (requests_by_target s)
             (request_limits_by_target s) (overlay tokens (usage_by_pool s) pooled)
             (limits_by_pool s) (overlay requests (requests_by_pool s) pooled)
             (request_limits_by_pool s) (proxy_runs s) (sources s) in
  if 0 <? pools
  then push_source s ($"provider-usage-ledger: " ++ show_N pools ++ $" pool(s) inside those targets")
  else s.

(** Everything the loaders read. *)
Record SnapshotEnv := mkSnapshotEnv {
  se_token_log_path : str;
  se_token_log : option str;
  se_proxy_path : str;
  se_proxy : option SqliteAnswer;
  se_config_path : option str;
  se_config : LimitsConfig + str;
}.

Definition load_best_effort (env : SnapshotEnv) : UsageSnapshot :=
  load_limits (se_config_path env) (se_config env)
    (load_proxy_stats (se_proxy_path env) (se_proxy env)
       (load_token_log (se_token_log_path env) (se_token_log env) Snapshot_default)).

Definition load_for_routing (env : SnapshotEnv) (pooled : gmap str TargetWindows) : UsageSnapshot :=
  with_ledger_window pooled (load_best_effort env).

(** ** Specifications *)

(** Tables written with the names the queries normalise to. *)
Definition limits_normal (limits : LimitsConfig) : Prop :=
  ∀ t tl, lc_targets limits !! t = Some tl →
    norm_str t ∧ (POOL_SEPARATOR ∉ t) ∧
    ∀ p pl, tl_pools tl !! p = Some pl → norm_str p ∧ p ≠ [].

(** ** Lemmas *)

Lemma overlay_lookup f m w k :
  overlay f m w !! k =
  match w !! k with Some x => Some (f (last_24h x)) | None => m !! k end.
Proof.
  unfold overlay, overlay_step. destruct (w !! k) as [x|] eqn:E.
  - apply (foldl_insert_unique fst (λ kw, f (last_24h kw.2))).
    + intros [k' x'] Hin%btree_list_elem Hk. cbn in *. congruence.
    + exists (k, x). split; [by apply btree_list_elem|done].
  - apply (foldl_insert_absent fst (λ kw, f (last_24h kw.2))).
    intros [k' x'] Hin%btree_list_elem Hk. cbn in *. congruence.
Qed.

Lemma find_ignore_case_none {V} (m : gmap str V) name :
  to_ascii_lowercase name = name →
  (∀ k v, m !! k = Some v → to_ascii_lowercase k = k) →
  m !! name = None → find_ignore_case m name = None.
Proof.
  intros Hn Hk E. destruct (find_ignore_case m name) as [v|] eqn:Ef; [|done].
  apply find_ignore_case_Some in Ef as (k & Hkv & Heq). unfold eq_ignore_ascii_case in Heq.
  apply bool_decide_eq_true in Heq. rewrite Hn, (Hk k v) in Heq by done. congruence.
Qed.

Section Limits.
Context (limits : LimitsConfig) (Hnorm : limits_normal limits).

Lemma normal_target t : norm_str t → LimitsConfig_target limits t = lc_targets limits !! t.
Proof using Hnorm.
  intros [_ Ht]. unfold LimitsConfig_target. destruct (lc_targets limits !! t) eqn:E; [done|].
  apply find_ignore_case_none; [done| |done]. intros k v Hk. by apply Hnorm in Hk as [[_ Hl] _].
Qed.

Lemma normal_pool t tl p :
  lc_targets limits !! t = Some tl → norm_str p → TargetLimit_pool tl p = tl_pools tl !! p.
Proof using Hnorm.
  intros Ht [_ Hp]. unfold TargetLimit_pool. destruct (tl_pools tl !! p) eqn:E; [done|].
  apply find_ignore_case_none; [done| |done]. intros k v Hk.
  apply Hnorm in Ht as (_ & _ & Hpools). by apply Hpools in Hk as [[_ Hl] _].
Qed.

(** The maps [load_limits] fills, one fold each. *)
Lemma load_pool_limits_tokens t m l :
  lm_tokens (foldl (load_pool_limit t) m l) = lm_tokens m ∧
  lm_requests (foldl (load_pool_limit t) m l) = lm_requests m.
Proof using. revert m. induction l as [|a l IH]; intros m; cbn; [done|]. by rewrite !(proj1 (IH _)), !(proj2 (IH _)). Qed.

Definition pool_entries : list (str * (str * PoolLimit)) :=
  concat (map (λ tl, map (λ pc, (tl.1, pc)) (btree_list (tl_pools tl.2)))
              (btree_list (lc_targets limits))).
Definition pool_entry_key (e : str * (str * PoolLimit)) : str :=
  PoolKey.canonical (PoolKey.new e.1 (Some e.2.1)).

Lemma load_targets_tokens l m :
  lm_tokens (foldl load_target_limit m l) =
    foldl (λ m tl, insert_option m (usage_normalize_target tl.1) (tl_daily_tokens tl.2)) (lm_tokens m) l ∧
  lm_requests (foldl load_target_limit m l) =
    foldl (λ m tl, insert_option m (usage_normalize_target tl.1) (tl_daily_requests tl.2)) (lm_requests m) l.
Proof using.
  revert m. induction l as [|a l IH]; intros m; cbn; [done|].
  destruct (IH (load_target_limit m a)) as [-> ->]. unfold load_target_limit.
  destruct (load_pool_limits_tokens a.1
    (mkLimitMaps (add_limit (lm_tokens m) a.1 (tl_daily_tokens a.2))
       (add_limit (lm_requests m) a.1 (tl_daily_requests a.2)) (lm_pool_tokens m)
       (lm_pool_requests m)) (btree_list (tl_pools a.2))) as [-> ->].
  cbn. unfold add_limit, insert_option. done.
Qed.

Lemma load_pool_limits_pools t m l :
  lm_pool_tokens (foldl (load_pool_limit t) m l) =
    foldl (λ m e, insert_option m (pool_entry_key e) (pl_daily_tokens e.2.2)) (lm_pool_tokens m)
      (map (λ pc, (t, pc)) l) ∧
  lm_pool_requests (foldl (load_pool_limit t) m l) =
    foldl (λ m e, insert_option m (pool_entry_key e) (pl_daily_requests e.2.2)) (lm_pool_requests m)
      (map (λ pc, (t, pc)) l).
Proof using.
  revert m. induction l as [|a l IH]; intros m; cbn; [done|].
  by destruct (IH (load_pool_limit t m a)) as [-> ->].
Qed.

Lemma load_targets_pools m :
  lm_pool_tokens (foldl load_target_limit m (btree_list (lc_targets limits))) =
    foldl (λ m e, insert_option m (pool_entry_key e) (pl_daily_tokens e.2.2)) (lm_pool_tokens m)
      pool_entries ∧
  lm_pool_requests (foldl load_target_limit m (btree_list (lc_targets limits))) =
    foldl (λ m e, insert_option m (pool_entry_key e) (pl_daily_requests e.2.2)) (lm_pool_requests m)
      pool_entries.
Proof using.
  unfold pool_entries. generalize (btree_list (lc_targets limits)) as l. intros l. revert m.
  induction l as [|a l IH]; intros m; cbn; [done|].
  destruct (IH (load_target_limit m a)) as [-> ->]. rewrite !foldl_app. unfold load_target_limit.
  set (m' := mkLimitMaps _ _ _ _). destruct (load_pool_limits_pools a.1 m' (btree_list (tl_pools a.2)))
    as [-> ->]. done.
Qed.

(** A target limit map after loading. *)
Lemma target_limits_lookup (axis : TargetLimit → option N) t :
  norm_str t →
  foldl (λ m tl, insert_option m (usage_normalize_target tl.1) (axis tl.2)) ∅
    (btree_list (lc_targets limits)) !! t = (LimitsConfig_target limits t ≫= axis).
Proof using Hnorm.
  intros Ht. rewrite normal_target by done.
  apply (foldl_insert_option_lookup (λ tl, usage_normalize_target tl.1) (λ tl, axis tl.2));
    [|apply lookup_empty|].
  - intros [t' tl] Hin%btree_list_elem. unfold usage_normalize_target. cbn [fst snd].
    pose proof (Hnorm _ _ Hin) as [[_ ->] _]. intros ->. by rewrite Hin.
  - destruct (lc_targets limits !! t) as [tl|] eqn:E; [left|by right].
    exists (t, tl). split; [by apply btree_list_elem|]. apply Ht.
Qed.

Lemma pool_entries_elem t p pl :
  (t, (p, pl)) ∈ pool_entries ↔ ∃ tl, lc_targets limits !! t = Some tl ∧ tl_pools tl !! p = Some pl.
Proof using.
  unfold pool_entries. rewrite list_elem_of_In, in_concat. split.
  - intros (l & (a & <- & Ha%list_elem_of_In)%in_map_iff & (pc & [= <- ->] & Hpc%list_elem_of_In)%in_map_iff).
    destruct a as [t' tl]. apply btree_list_elem in Ha, Hpc. by exists tl.
  - intros (tl & Ht & Hp). eexists. split.
    + apply in_map_iff. exists (t, tl). split; [done|]. by apply list_elem_of_In, btree_list_elem.
    + apply in_map_iff. exists (p, pl). split; [done|]. by apply list_elem_of_In, btree_list_elem.
Qed.

Lemma pool_limits_lookup (axis : PoolLimit → option N) key :
  wf_key key → sep_free key →
  foldl (λ m e, insert_option m (pool_entry_key e) (axis e.2.2)) ∅ pool_entries
    !! PoolKey.canonical key = configured_pool_cap key limits axis.
Proof using Hnorm.
  intros Hwf Hsep. destruct Hwf as [Ht Hp] eqn:Ew. clear Ew.
  assert (Hkey : ∀ t p pl, (t, (p, pl)) ∈ pool_entries →
    PoolKey.new t (Some p) = mkPoolKey t (Some p) ∧ (POOL_SEPARATOR ∉ t)).
  { intros t p pl (tl & Htl & Hpl)%pool_entries_elem. apply Hnorm in Htl as (Hnt & Hst & Hpp).
    apply Hpp in Hpl as [Hpn Hpne]. split; [|done]. unfold PoolKey.new. cbn.
    by rewrite normalize_target_fixed, normalize_pool_fixed. }
  assert (Hmatch : ∀ e, e ∈ pool_entries → pool_entry_key e = PoolKey.canonical key →
    key = mkPoolKey e.1 (Some e.2.1)).
  { intros [t [p pl]] Hin Heq. cbn. destruct (Hkey t p pl Hin) as [Hn Hs]. rewrite <-Hn.
    symmetry. apply canonical_inj; [apply wf_new| |done|done|done].
    unfold sep_free. by rewrite Hn. }
  apply foldl_insert_option_lookup; [|apply lookup_empty|].
  - intros [t [p pl]] Hin Heq. rewrite (Hmatch _ Hin Heq). unfold configured_pool_cap. cbn.
    apply pool_entries_elem in Hin as (tl & Htl & Hpl). pose proof (Hnorm _ _ Htl) as (Hnt & _ & Hpp).
    rewrite normal_target, Htl by done. cbn.
    rewrite (normal_pool t tl p Htl), Hpl by (by apply (Hpp _ _ Hpl)). done.
  - unfold configured_pool_cap. destruct (pk_pool key) as [p|] eqn:Ep; [cbn|by right].
    rewrite normal_target by done.
    destruct (lc_targets limits !! pk_target key) as [tl|] eqn:Etl; [cbn|by right].
    rewrite (normal_pool _ tl p Etl) by (by apply Hp).
    destruct (tl_pools tl !! p) as [pl|] eqn:Epl; [left|by right].
    exists (pk_target key, (p, pl)). assert (Hin : (pk_target key, (p, pl)) ∈ pool_entries).
    { apply pool_entries_elem. eauto. }
    split; [done|]. unfold pool_entry_key. cbn. destruct (Hkey _ _ _ Hin) as [-> _].
    destruct key; cbn in *. by subst.
Qed.
End Limits.

(** The pool lookups of a snapshot built from some limits and the ledger. *)
Definition routed (path : str) (limits : LimitsConfig) (pooled : gmap str TargetWindows)
    (s : UsageSnapshot) : UsageSnapshot :=
  with_ledger_window pooled (load_limits (Some path) (inl limits) s).

Lemma load_limits_maps path limits s :
  lc_targets limits ≠ ∅ →
  limits_by_target s = ∅ → request_limits_by_target s = ∅ →
  limits_by_pool s = ∅ → request_limits_by_pool s = ∅ →
  let m := foldl load_target_limit (mkLimitMaps ∅ ∅ ∅ ∅) (btree_list (lc_targets limits)) in
  let s' := load_limits (Some path) (inl limits) s in
  limits_by_target s' = lm_tokens m ∧ request_limits_by_target s' = lm_requests m ∧
  limits_by_pool s' = lm_pool_tokens m ∧ request_limits_by_pool s' = lm_pool_requests m ∧
  usage_by_target s' = usage_by_target s ∧ requests_by_target s' = requests_by_target s ∧
  usage_by_pool s' = usage_by_pool s ∧ requests_by_pool s' = requests_by_pool s.
Proof.
  intros Hne E1 E2 E3 E4. unfold load_limits, LimitsConfig_is_empty.
  rewrite bool_decide_eq_false_2 by done. rewrite E1, E2, E3, E4.
  set (m := foldl _ _ _). cbn -[count_N show_N]. by case_match.
Qed.

Lemma with_ledger_window_maps pooled s :
  let s' := with_ledger_window pooled s in
  limits_by_target s' = limits_by_target s ∧
  request_limits_by_target s' = request_limits_by_target s ∧
  limits_by_pool s' = limits_by_pool s ∧ request_limits_by_pool s' = request_limits_by_pool s ∧
  usage_by_target s' = overlay tokens (usage_by_target s) (fold_pools_to_targets pooled) ∧
  requests_by_target s' = overlay requests (requests_by_target s) (fold_pools_to_targets pooled) ∧
  usage_by_pool s' = overlay tokens (usage_by_pool s) pooled ∧
  requests_by_pool s' = overlay requests (requests_by_pool s) pooled.
Proof. cbv zeta. unfold with_ledger_window. cbv zeta. by case_match. Qed.

Lemma lookup0_overlay (f : WindowUsage → N) m w k :
  f WindowUsage_default = 0 → (m !! k = None ∨ is_Some (w !! k)) →
  lookup0 (overlay f m w) k = f (lookup_24h w k).
Proof.
  intros Hf Hk. unfold lookup0, lookup_24h. rewrite overlay_lookup.
  destruct (w !! k); cbn; [done|]. destruct Hk as [->|[? ?]]; cbn; done.
Qed.

(** ** Properties *)

(** The snapshot routing uses and the ledger's own headroom agree: on a
    configuration with normalised names and no provider report, a pool's quota in
    the snapshot is exactly the ledger's headroom on both axes, and it is absent
    exactly when the ledger knows no ceiling. *)
Theorem snapshot_agrees_with_ledger path limits pooled s key now :
  limits_normal limits → lc_targets limits ≠ ∅ → wf_key key → sep_free key →
  limits_by_target s = ∅ → request_limits_by_target s = ∅ →
  limits_by_pool s = ∅ → request_limits_by_pool s = ∅ →
  usage_by_pool s = ∅ → requests_by_pool s = ∅ →
  is_Some (fold_pools_to_targets pooled !! pk_target key) →
  let h := headroom_for_pool key pooled limits ∅ now in
  pool_headroom (routed path limits pooled s) key =
  if limits_unknown h then None
  else Some (mkPoolQuota (ph_key h) (ph_used_tokens h) (ph_used_requests h)
               (ph_tokens h) (ph_requests h)).
Proof.
  intros Hnorm Hne Hwf Hsep E1 E2 E3 E4 E5 E6 Htgt h.
  unfold pool_headroom, routed.
  destruct (load_limits_maps path limits s Hne E1 E2 E3 E4) as (L1&L2&L3&L4&L5&L6&L7&L8).
  destruct (with_ledger_window_maps pooled (load_limits (Some path) (inl limits) s))
    as (-> & -> & -> & -> & -> & -> & -> & ->).
  rewrite L1, L2, L3, L4, L5, L6, L7, L8, E5, E6. unfold PoolKey.target_key.
  rewrite (proj1 (load_targets_tokens _ _)), (proj2 (load_targets_tokens _ _)).
  rewrite (proj1 (load_targets_pools limits _)), (proj2 (load_targets_pools limits _)).
  cbn [lm_tokens lm_requests lm_pool_tokens lm_pool_requests].
  rewrite !(target_limits_lookup limits Hnorm) by apply Hwf.
  rewrite !(pool_limits_lookup limits Hnorm) by done.
  rewrite !lookup0_overlay by first [reflexivity | by right | left; apply lookup_empty].
  subst h. unfold headroom_for_pool, headroom_for_pool_in, limits_unknown, PoolKey.pool, PoolKey.target_key.
  cbn [ph_tokens ph_requests ph_key ph_used_tokens ph_used_requests].
  rewrite lookup_empty. cbn [mbind option_bind default].
  unfold axis_cap_with_reported. cbn [sig_tokens sig_requests Signal_default ax_remaining Axis_default].
  rewrite !pool_limit_is_set by set_solver.
  destruct (configured_pool_cap key limits pl_daily_tokens),
    (configured_pool_cap key limits pl_daily_requests),
    (LimitsConfig_target limits (pk_target key) ≫= tl_daily_tokens),
    (LimitsConfig_target limits (pk_target key) ≫= tl_daily_requests); done.
Qed.

(** A target's headroom is only reported against a configured limit, and what
    remains is the limit less the recorded use; with no token limit the remaining
    room is the whole range, never a made-up ceiling. *)
Theorem headroom_spec s target :
  let t := to_ascii_lowercase target in
  match headroom s target with
  | None => limits_by_target s !! t = None ∧ request_limits_by_target s !! t = None
  | Some q =>
      (is_Some (limits_by_target s !! t) ∨ is_Some (request_limits_by_target s !! t)) ∧
      (q_token_limit_configured q = true ↔ limits_by_target s !! t = Some (q_limit q)) ∧
      q_remaining q = (if q_token_limit_configured q then q_limit q - q_used q else u64_max) ∧
      q_request_limit q = request_limits_by_target s !! t ∧
      (∀ l, q_request_limit q = Some l → ∃ u, q_request_used q = Some u ∧
         q_request_remaining q = Some (l - u)) ∧
      headroom s t = headroom s target
  end.
Proof.
  cbv zeta. unfold headroom, usage_normalize_target. rewrite to_ascii_lowercase_idem.
  set (t := to_ascii_lowercase target).
  destruct (limits_by_target s !! t) as [l|], (request_limits_by_target s !! t) as [r|]; cbn;
    split_and!; eauto; try done; naive_solver.
Qed.

(** Merging usage is additive on totals: with the release profile's wrapping
    arithmetic the total of a merge is the wrapped sum of the totals, and the exact
    sum whenever it fits in 64 bits. *)
Theorem usage_merge_total a b :
  Usage_total (Usage_merge a b) = wrap_add u64_max (Usage_total a) (Usage_total b) ∧
  (u_input_tokens a + u_output_tokens a + u_input_tokens b + u_output_tokens b ≤ u64_max →
   Usage_total (Usage_merge a b) =
     u_input_tokens a + u_output_tokens a + u_input_tokens b + u_output_tokens b).
Proof.
  unfold Usage_total, Usage_merge, wrap_add. cbn [u_input_tokens u_output_tokens].
  assert (Hm : u64_max + 1 ≠ 0) by done.
  assert (E : ∀ x y z w, ((x + y) mod (u64_max + 1) + (z + w) mod (u64_max + 1)) mod (u64_max + 1) =
                         (x + z + y + w) mod (u64_max + 1)).
  { intros. rewrite <-N.Div0.add_mod. f_equal. lia. }
  rewrite !E. split; [f_equal; lia|].
  intros Hle. rewrite N.mod_small; lia.
Qed.

(** ** Witnesses *)

Definition demo_limits : LimitsConfig :=
  mkLimitsConfig {[ $"claude" := mkTargetLimit (Some 1000) None {[ $"pro" := mkPoolLimit (Some 100) None ]} ]}.
Definition demo_pooled : gmap str TargetWindows :=
  pool_windows_from_rows [mkRow 1 $"claude" $"pro/opus" 30 5 false true; demo_row 2] 9.

Lemma demo_limits_normal : limits_normal demo_limits.
Proof.
  intros t tl. unfold demo_limits. cbn. rewrite lookup_singleton_Some. intros [<- <-].
  split_and!; [by apply (bool_decide_eq_true_1 _)..|].
  cbn. intros p pl. rewrite lookup_singleton_Some. intros [<- <-].
  split; [by apply (bool_decide_eq_true_1 _)|done].
Qed.

Lemma snapshot_agrees_with_ledger_witness :
  pool_headroom (routed $"config.toml" demo_limits demo_pooled Snapshot_default)
    (mkPoolKey $"claude" (Some $"pro")) =
  Some (mkPoolQuota $"claude#pro" 35 1 (mkCap PoolCapped (Some 100) 35 (Some 65))
          (mkCap Unknown None 1 None)).
Proof.
  rewrite (snapshot_agrees_with_ledger $"config.toml" demo_limits demo_pooled Snapshot_default
    (mkPoolKey $"claude" (Some $"pro")) 9).
  - vm_compute. reflexivity.
  - exact demo_limits_normal.
  - intros E. apply (f_equal (lookup $"claude")) in E. vm_compute in E. discriminate.
  - split; [by apply (bool_decide_eq_true_1 _)|]. intros p [= <-].
    split; [by apply (bool_decide_eq_true_1 _)|done].
  - by apply (bool_decide_eq_true_1 _).
  - reflexivity.
  - reflexivity.
  - reflexivity.
  - reflexivity.
  - reflexivity.
  - reflexivity.
  - vm_compute. eexists. reflexivity.
Defined.
