(* ===== verification/Router.v ===== *)
(** * Routing: [crates/rtrt-providers/src/router.rs]

    Choosing a target for a request among the detected tools: candidates, one per
    quota bucket, ranked by exhaustion, cost, room and fit. *)
From S2P Require Import Prelude Str F64 Error Pool Config Detect TsvLog Ledger RateLimit Headroom Usage.

Inductive Prefer := Cheapest | Quality | PreferLocal.

Record RouteRequest := mkRouteRequest {
  rr_capability : option Capability;
  rr_prefer : Prefer;
  rr_target : option str;
  rr_model : option str;
  rr_mode : option Mode;
  rr_failover : bool;
}.

Definition RouteRequest_default : RouteRequest :=
  mkRouteRequest None Cheapest None None None false.

Record RouteAlternative := mkAlternative {
  ra_target : str;
  ra_mode : Mode;
  ra_model : option str;
  ra_cost_class : CostClass;
  ra_capabilities : list Capability;
  ra_headroom : str;
  ra_reason : str;
}.

Record RouteDecision := mkDecision {
  rd_target : str;
  rd_mode : Mode;
  rd_model : option str;
  rd_cost_class : CostClass;
  rd_reason : str;
  rd_alternatives : list RouteAlternative;
}.

Record RankedTarget := mkRanked {
  rt_target : str;
  rt_mode : Mode;
  rt_model : option str;
  rt_cost_class : CostClass;
}.

Definition ranked_targets (d : RouteDecision) : list RankedTarget :=
  mkRanked (rd_target d) (rd_mode d) (rd_model d) (rd_cost_class d) ::
  map (λ a, mkRanked (ra_target a) (ra_mode a) (ra_model a) (ra_cost_class a)) (rd_alternatives d).

(** ** Headroom as a score *)

Definition NEAR_LIMIT_FRACTION : f64 := f64_decimal false 15 (-2).
Definition SHARED_CAP_NOTE : str := $" (cap shared with sibling pools)".

Inductive HeadroomHealth := Healthy | Near | Exhausted.
#[export] Instance HeadroomHealth_eq_dec : EqDecision HeadroomHealth.
Proof. solve_decision. Defined.

Definition exhausted_rank (h : HeadroomHealth) : N := match h with Exhausted => 1 | _ => 0 end.
Definition near_rank (h : HeadroomHealth) : N := match h with Near => 1 | _ => 0 end.

Record HeadroomDimension := mkDimension { hd_remaining : N; hd_limit : N }.

Inductive HeadroomScore :=
| Known (tokens requests : option HeadroomDimension) (shared : bool)
| Observed (tokens requests : N)
| ScoreUnknown.

Definition remaining_percent (d : HeadroomDimension) : f64 :=
  if hd_limit d =? 0 then f64_zero
  else f64_mul (f64_div (f64_of_N (hd_remaining d)) (f64_of_N (hd_limit d))) (f64_of_N 100).

(** The products are taken in 128 bits: they cannot overflow. *)
Definition remaining_fraction_cmp (d other : HeadroomDimension) : Ordering :=
  match hd_limit d =? 0, hd_limit other =? 0 with
  | true, true => Eq
  | true, false => Lt
  | false, true => Gt
  | false, false => hd_remaining d * hd_limit other ?= hd_remaining other * hd_limit d
  end.

Definition dimension_from_cap (cap : PoolCap) : option HeadroomDimension :=
  limit ← cap_limit cap; Some (mkDimension (default 0 (cap_remaining cap)) limit).

Definition score_from_usage (target : str) (usage : UsageSnapshot) : HeadroomScore :=
  match headroom usage target with
  | Some quota =>
      let tokens := if q_token_limit_configured quota
                    then Some (mkDimension (q_remaining quota) (q_limit quota)) else None in
      let requests := match q_request_limit quota, q_request_remaining quota with
                      | Some limit, Some remaining => Some (mkDimension remaining limit)
                      | _, _ => None
                      end in
      Known tokens requests false
  | None => ScoreUnknown
  end.

Definition score_from_pool_usage (key : PoolKey) (usage : UsageSnapshot) : HeadroomScore :=
  if negb (PoolKey.is_pooled key) then score_from_usage (PoolKey.target_key key) usage
  else match pool_headroom usage key with
       | Some quota =>
           Known (dimension_from_cap (pq_tokens quota)) (dimension_from_cap (pq_requests quota))
             (is_shared (cap_scope (pq_tokens quota)) || is_shared (cap_scope (pq_requests quota)))
       | None =>
           let canonical := PoolKey.canonical key in
           Observed (lookup0 (usage_by_pool usage) canonical)
                    (lookup0 (requests_by_pool usage) canonical)
       end.

Definition score_room_basis (s : HeadroomScore) : option RoomBasis :=
  match s with
  | Known _ _ _ => Some Quota
  | Observed _ _ => Some ObservedUsage
  | ScoreUnknown => None
  end.

Definition dimension_label (d : HeadroomDimension) (unit_ : str) : str :=
  show_N (hd_remaining d) ++ $"/" ++ show_N (hd_limit d) ++ $" " ++ unit_ ++ $" remaining (" ++
  show_f64_fixed 1 (remaining_percent d) ++ $"%)".

Definition score_label (s : HeadroomScore) : str :=
  match s with
  | Observed tokens requests =>
      $"no configured cap; " ++ show_N tokens ++ $" tokens / " ++ show_N requests ++
      $" requests observed in the last 24h"
  | Known tokens requests shared =>
      let parts :=
        match tokens with Some d => [dimension_label d $"tokens"] | None => [] end ++
        match requests with Some d => [dimension_label d $"requests"] | None => [] end in
      match parts with
      | [] => $"unknown"
      | _ => join $", " parts ++ (if shared then SHARED_CAP_NOTE else [])
      end
  | ScoreUnknown => $"unknown"
  end.

Definition dimension_health (near_fraction : f64) (dim : HeadroomDimension) : HeadroomHealth :=
  if hd_remaining dim =? 0 then Exhausted
  else if f64_lt (remaining_percent dim) (f64_mul near_fraction (f64_of_N 100)) then Near
  else Healthy.

Definition worse_health (worst dim_health : HeadroomHealth) : HeadroomHealth :=
  match worst, dim_health with
  | Exhausted, _ | _, Exhausted => Exhausted
  | Near, _ | _, Near => Near
  | _, _ => Healthy
  end.

Definition option_list {A} (o : option A) : list A := match o with Some a => [a] | None => [] end.

Definition health_of (s : HeadroomScore) (near_fraction : f64) : HeadroomHealth :=
  match s with
  | Known tokens requests _ =>
      foldl (λ worst dim, worse_health worst (dimension_health near_fraction dim)) Healthy
        (option_list tokens ++ option_list requests)
  | _ => Healthy
  end.

Definition limiting_dimension (s : HeadroomScore) : option HeadroomDimension :=
  match s with
  | Known (Some tokens) (Some requests) _ =>
      Some (match remaining_fraction_cmp tokens requests with Lt => tokens | _ => requests end)
  | Known (Some tokens) None _ => Some tokens
  | Known None (Some requests) _ => Some requests
  | Known None None _ => None
  | Observed _ _ | ScoreUnknown => None
  end.

(** ** Candidates *)

Record Candidate := mkCandidate {
  cd_tool : DetectedTool;
  cd_mode : Mode;
  cd_model : option str;
  cd_pool : PoolKey;
  cd_capability_fit : N;
  cd_headroom : HeadroomScore;
  cd_health : HeadroomHealth;
}.

Definition cost_rank (c : CostClass) : N :=
  match c with LocalFree => 0 | SubscriptionFlat => 1 | ApiMetered => 2 | UnknownCost => 3 end.

Definition capability_fit (requested : option Capability) (tool : DetectedTool) : N :=
  (match requested with Some c => if has_capability tool c then 1 else 0 | None => 0 end)
  + N.of_nat (length (tool_capabilities tool)).

Definition compare_observed_room (left right : HeadroomScore) : Ordering :=
  match left, right with
  | Observed lt lr, Observed rt rr => (lt ?= rt) .then (lr ?= rr)
  | _, _ => Eq
  end.

Definition compare_headroom_desc (left right : HeadroomScore) : Ordering :=
  match limiting_dimension left, limiting_dimension right with
  | Some l, Some r => remaining_fraction_cmp r l .then (hd_remaining r ?= hd_remaining l)
  | Some d, None => if hd_remaining d =? 0 then Gt else Lt
  | None, Some d => if hd_remaining d =? 0 then Lt else Gt
  | None, None => Eq
  end.

Definition compare_cost_first (left right : Candidate) : Ordering :=
  (exhausted_rank (cd_health left) ?= exhausted_rank (cd_health right))
  .then (cost_rank (tool_cost_class (cd_tool left)) ?= cost_rank (tool_cost_class (cd_tool right)))
  .then (near_rank (cd_health left) ?= near_rank (cd_health right))
  .then (cd_capability_fit right ?= cd_capability_fit left)
  .then compare_headroom_desc (cd_headroom left) (cd_headroom right)
  .then compare_observed_room (cd_headroom left) (cd_headroom right)
  .then str_cmp (tool_name (cd_tool left)) (tool_name (cd_tool right))
  .then PoolKey.cmp (cd_pool left) (cd_pool right).

Definition compare_quality_first (left right : Candidate) : Ordering :=
  (exhausted_rank (cd_health left) ?= exhausted_rank (cd_health right))
  .then (cd_capability_fit right ?= cd_capability_fit left)
  .then (near_rank (cd_health left) ?= near_rank (cd_health right))
  .then compare_headroom_desc (cd_headroom left) (cd_headroom right)
  .then compare_observed_room (cd_headroom left) (cd_headroom right)
  .then (cost_rank (tool_cost_class (cd_tool left)) ?= cost_rank (tool_cost_class (cd_tool right)))
  .then str_cmp (tool_name (cd_tool left)) (tool_name (cd_tool right))
  .then PoolKey.cmp (cd_pool left) (cd_pool right).

Definition compare_candidates (prefer : Prefer) (left right : Candidate) : Ordering :=
  match prefer with
  | Cheapest | PreferLocal => compare_cost_first left right
  | Quality => compare_quality_first left right
  end.

(** ** Modes and models *)

Definition validate_cli_mode (tool : DetectedTool) : Result Mode :=
  if has_mode tool IMCli && is_some (tool_cli_invocation tool) then Ok Cli
  else Err (Provider ($"route: target '" ++ tool_name tool ++ $"' does not support CLI mode")).

Definition validate_api_mode (tool : DetectedTool) : Result Mode :=
  if has_mode tool IMApi then Ok Api
  else Err (Provider ($"route: target '" ++ tool_name tool ++ $"' does not support API mode")).

Definition auto_mode_for_route (tool : DetectedTool) : option Mode :=
  match tool_cost_class tool with
  | LocalFree | SubscriptionFlat =>
      if is_ok (validate_cli_mode tool) then Some Cli
      else if is_ok (validate_api_mode tool) then Some Api
      else None
  | _ =>
      if is_ok (validate_cli_mode tool) then Some Cli
      else if is_ok (validate_api_mode tool) then Some Api
      else None
  end.

Definition resolve_mode (req : RouteRequest) (tool : DetectedTool) : Result Mode :=
  match default Auto (rr_mode req) with
  | Auto => ok_or (auto_mode_for_route tool)
              (Provider ($"route: target '" ++ tool_name tool ++
                         $"' has no usable CLI or API invocation"))
  | Cli => validate_cli_mode tool
  | Api => validate_api_mode tool
  end.

Definition choose_model (req : RouteRequest) (tool : DetectedTool) (mode : Mode) :
    Result (option str) :=
  match rr_model req with
  | Some model => Ok (Some model)
  | None =>
      let model := head (tool_models tool) in
      let cli_requires_model :=
        bool_decide (mode = Cli) &&
        match tool_cli_invocation tool with
        | Some template => contains template $"{model}"
        | None => false
        end in
      if cli_requires_model && is_none model && bool_decide (tool_kind tool = LocalRuntime)
      then Err (Provider ($"route: target '" ++ tool_name tool ++
                          $"' needs --model because no installed model was detected"))
      else Ok model
  end.

(** ** Lanes *)

Definition lane_step (acc : list (option str) * list str) (model : str) :
    list (option str) * list str :=
  let '(seen, lanes) := acc in
  let pool := pool_from_model model in
  if existsb (λ p, bool_decide (p = pool)) seen then acc
  else (seen ++ [pool], lanes ++ [model]).

Definition pool_lanes (req : RouteRequest) (tool : DetectedTool) : list str :=
  if is_some (rr_model req) then []
  else
    let '(seen, lanes) := foldl lane_step ([], []) (tool_models tool) in
    if Nat.ltb (length (List.filter is_some seen)) 2 then [] else lanes.

Definition build_candidate (req : RouteRequest) (usage : UsageSnapshot) (tool : DetectedTool)
    (mode : Mode) (model : option str) : Candidate :=
  let pool := PoolKey.from_target_model (tool_name tool) model in
  let headroom := score_from_pool_usage pool usage in
  mkCandidate tool mode model pool (capability_fit (rr_capability req) tool) headroom
    (health_of headroom NEAR_LIMIT_FRACTION).

Definition candidate_for (req : RouteRequest) (usage : UsageSnapshot) (tool : DetectedTool) :
    Result Candidate :=
  mode ← resolve_mode req tool;
  model ← choose_model req tool mode;
  Ok (build_candidate req usage tool mode model).

Definition candidates_for (req : RouteRequest) (usage : UsageSnapshot) (tool : DetectedTool) :
    list Candidate :=
  match pool_lanes req tool with
  | [] => match candidate_for req usage tool with Ok c => [c] | Err _ => [] end
  | lanes =>
      match resolve_mode req tool with
      | Err _ => []
      | Ok mode => map (λ model, build_candidate req usage tool mode (Some model)) lanes
      end
  end.

Definition viable (req : RouteRequest) (tool : DetectedTool) : bool :=
  tool_installed tool && tool_enabled tool &&
  match rr_capability req with Some c => has_capability tool c | None => true end.

Definition viable_candidates (req : RouteRequest) (tools : list DetectedTool)
    (usage : UsageSnapshot) : list Candidate :=
  concat (map (candidates_for req usage) (List.filter (viable req) tools)).

Definition best_lane_for (req : RouteRequest) (usage : UsageSnapshot) (tool : DetectedTool) :
    Result Candidate :=
  let lanes := candidates_for req usage tool in
  if Nat.ltb (length lanes) 2 then candidate_for req usage tool
  else match sort_by (compare_candidates (rr_prefer req)) lanes with
       | best :: _ => Ok best
       | [] => candidate_for req usage tool
       end.

Definition failover_alternatives (req : RouteRequest) (tools : list DetectedTool)
    (usage : UsageSnapshot) (chosen : Candidate) : list Candidate :=
  let open := mkRouteRequest (rr_capability req) (rr_prefer req) None None (rr_mode req)
                (rr_failover req) in
  let others := List.filter (λ c, negb (bool_decide (cd_pool c = cd_pool chosen)))
                  (viable_candidates open tools usage) in
  let sibling c := str_eqb (PoolKey.target_key (cd_pool c)) (PoolKey.target_key (cd_pool chosen)) in
  sort_by (compare_candidates (rr_prefer req)) (List.filter sibling others) ++
  sort_by (compare_candidates (rr_prefer req)) (List.filter (λ c, negb (sibling c)) others).

(** ** Reasons *)

Definition mode_label (m : Mode) : str :=
  match m with Cli => $"cli" | Api => $"api" | Auto => $"auto" end.

Definition cost_class_label (c : CostClass) : str :=
  match c with
  | LocalFree => $"local-free"
  | SubscriptionFlat => $"subscription-flat"
  | ApiMetered => $"api-metered"
  | UnknownCost => $"unknown-cost"
  end.

Definition capability_label (c : option Capability) : str :=
  match c with
  | Some Reasoning => $"reasoning"
  | Some Code => $"code"
  | Some Vision => $"vision"
  | Some Embed => $"embed"
  | Some Agentic => $"agentic"
  | Some CheapBulk => $"cheap-bulk"
  | None => $"general"
  end.

Definition capability_suffix (c : option Capability) : str :=
  match c with
  | Some c => $" with " ++ capability_debug c ++ $" capability"
  | None => []
  end.

Definition health_suffix (h : HeadroomHealth) : str :=
  match h with
  | Healthy => []
  | Near => $" [near-limit: penalized]"
  | Exhausted => $" [exhausted: demoted to last resort]"
  end.

Definition basis_suffix (s : HeadroomScore) : str :=
  match score_room_basis s with
  | Some ObservedUsage => $" [pool order: " ++ RoomBasis_label ObservedUsage ++ $"]"
  | Some Quota | None => []
  end.

Definition failover_suffix (alternatives : list Candidate) : str :=
  match alternatives with
  | [] => []
  | _ => $"; failover requested, " ++ show_N (N.of_nat (length alternatives)) ++
         $" ranked fallback(s) behind it"
  end.

Definition route_reason (req : RouteRequest) (c : Candidate) : str :=
  let preference := match rr_prefer req with
                    | Cheapest => $"cheapest" | Quality => $"quality" | PreferLocal => $"local" end in
  let cost_note := match tool_cost_class (cd_tool c) with
                   | LocalFree | SubscriptionFlat => $"no API cost"
                   | _ => $"metered cost"
                   end in
  $"chose " ++ tool_name (cd_tool c) ++ $" (" ++ cost_class_label (tool_cost_class (cd_tool c)) ++
  $", " ++ capability_label (rr_capability req) ++ $") for " ++ preference ++ $" routing; mode=" ++
  mode_label (cd_mode c) ++ $" headroom=" ++ score_label (cd_headroom c) ++
  health_suffix (cd_health c) ++ basis_suffix (cd_headroom c) ++ $" - " ++ cost_note.

Definition alternative_reason (c : Candidate) : str :=
  cost_class_label (tool_cost_class (cd_tool c)) ++ $" candidate; fit=" ++
  show_N (cd_capability_fit c) ++ $" mode=" ++ mode_label (cd_mode c) ++ $" headroom=" ++
  score_label (cd_headroom c) ++ health_suffix (cd_health c) ++ basis_suffix (cd_headroom c).

Definition route_alternative_from (c : Candidate) : RouteAlternative :=
  mkAlternative (tool_name (cd_tool c)) (cd_mode c) (cd_model c) (tool_cost_class (cd_tool c))
    (tool_capabilities (cd_tool c)) (score_label (cd_headroom c)) (alternative_reason c).

(** ** The decision *)

Definition decision_from_candidate (req : RouteRequest) (chosen : Candidate)
    (alternatives : list Candidate) : RouteDecision :=
  mkDecision (tool_name (cd_tool chosen)) (cd_mode chosen) (cd_model chosen)
    (tool_cost_class (cd_tool chosen)) (route_reason req chosen)
    (map route_alternative_from alternatives).

Definition explicit_tool (req : RouteRequest) (tools : list DetectedTool) (target : str) :
    Result DetectedTool :=
  let normalized := to_ascii_lowercase target in
  tool ← ok_or (List.find (λ t, str_eqb (tool_name t) target || str_eqb (tool_name t) normalized) tools)
           (Provider ($"route: target '" ++ target ++ $"' was not detected"));
  if negb (tool_installed tool)
  then Err (Provider ($"route: target '" ++ tool_name tool ++ $"' is not installed"))
  else if negb (tool_enabled tool)
  then Err (Provider ($"route: target '" ++ tool_name tool ++ $"' is disabled"))
  else match rr_capability req with
       | Some c => if has_capability tool c then Ok tool
                   else Err (Provider ($"route: target '" ++ tool_name tool ++
                                       $"' does not provide " ++ capability_debug c))
       | None => Ok tool
       end.

Definition explicit_route (req : RouteRequest) (tools : list DetectedTool) (usage : UsageSnapshot)
    (target : str) : Result RouteDecision :=
  tool ← explicit_tool req tools target;
  candidate ← best_lane_for req usage tool;
  let alternatives := if rr_failover req then failover_alternatives req tools usage candidate else [] in
  let reason :=
    $"explicit target '" ++ tool_name (cd_tool candidate) ++ $"' selected; mode=" ++
    mode_label (cd_mode candidate) ++ $" cost=" ++
    cost_class_label (tool_cost_class (cd_tool candidate)) ++ $" headroom=" ++
    score_label (cd_headroom candidate) ++ basis_suffix (cd_headroom candidate) ++
    failover_suffix alternatives in
  Ok (mkDecision (tool_name (cd_tool candidate)) (cd_mode candidate) (cd_model candidate)
        (tool_cost_class (cd_tool candidate)) reason (map route_alternative_from alternatives)).

Definition select_route (req : RouteRequest) (tools : list DetectedTool) (usage : UsageSnapshot) :
    Result RouteDecision :=
  match rr_target req with
  | Some target => explicit_route req tools usage target
  | None =>
      match sort_by (compare_candidates (rr_prefer req)) (viable_candidates req tools usage) with
      | [] => Err (Provider ($"route: no installed and enabled target" ++
                             capability_suffix (rr_capability req)))
      | chosen :: rest => Ok (decision_from_candidate req chosen rest)
      end
  end.

(** ** Specifications *)

(** The keys the ranking decides before it looks at the amount of room. *)
Definition preference_cmp (prefer : Prefer) (left right : Candidate) : Ordering :=
  match prefer with
  | Cheapest | PreferLocal =>
      (exhausted_rank (cd_health left) ?= exhausted_rank (cd_health right))
      .then (cost_rank (tool_cost_class (cd_tool left)) ?= cost_rank (tool_cost_class (cd_tool right)))
      .then (near_rank (cd_health left) ?= near_rank (cd_health right))
      .then (cd_capability_fit right ?= cd_capability_fit left)
  | Quality =>
      (exhausted_rank (cd_health left) ?= exhausted_rank (cd_health right))
      .then (cd_capability_fit right ?= cd_capability_fit left)
      .then (near_rank (cd_health left) ?= near_rank (cd_health right))
  end.

(** The keys that follow. *)
Definition room_cmp (prefer : Prefer) (left right : Candidate) : Ordering :=
  match prefer with
  | Cheapest | PreferLocal =>
      compare_headroom_desc (cd_headroom left) (cd_headroom right)
      .then compare_observed_room (cd_headroom left) (cd_headroom right)
      .then str_cmp (tool_name (cd_tool left)) (tool_name (cd_tool right))
      .then PoolKey.cmp (cd_pool left) (cd_pool right)
  | Quality =>
      compare_headroom_desc (cd_headroom left) (cd_headroom right)
      .then compare_observed_room (cd_headroom left) (cd_headroom right)
      .then (cost_rank (tool_cost_class (cd_tool left)) ?= cost_rank (tool_cost_class (cd_tool right)))
      .then str_cmp (tool_name (cd_tool left)) (tool_name (cd_tool right))
      .then PoolKey.cmp (cd_pool left) (cd_pool right)
  end.

(** The mode a tool can be invoked in. *)
Definition supports (tool : DetectedTool) (mode : Mode) : Prop :=
  match mode with
  | Cli => IMCli ∈ tool_invocation_modes tool ∧ is_Some (tool_cli_invocation tool)
  | Api => IMApi ∈ tool_invocation_modes tool
  | Auto => False
  end.

(** A lane a request may be sent to. *)
Definition usable (req : RouteRequest) (tools : list DetectedTool) (rt : RankedTarget) : Prop :=
  ∃ tool, tool ∈ tools ∧ tool_name tool = rt_target rt ∧ tool_cost_class tool = rt_cost_class rt ∧
    tool_installed tool = true ∧ tool_enabled tool = true ∧
    (∀ c, rr_capability req = Some c → c ∈ tool_capabilities tool) ∧
    supports tool (rt_mode rt) ∧
    (∀ m, rr_mode req = Some m → m = Auto ∨ m = rt_mode rt).

(** Candidates whose scores can be compared: remaining room within the limit, and
    no mix of usage-ordered pools with candidates nothing is known about. *)
Definition has_room_order (s : HeadroomScore) : bool :=
  match s with Observed _ _ => true | _ => false end.
Definition dimension_ok (d : HeadroomDimension) : Prop := hd_remaining d ≤ hd_limit d.
Definition comparable_scores (cs : list Candidate) : Prop :=
  (∀ c d, c ∈ cs → limiting_dimension (cd_headroom c) = Some d → dimension_ok d) ∧
  (∀ a b, a ∈ cs → b ∈ cs → limiting_dimension (cd_headroom a) = None →
     limiting_dimension (cd_headroom b) = None →
     has_room_order (cd_headroom a) = has_room_order (cd_headroom b)).

(** ** Lemmas *)

#[export] Instance preference_cmp_total prefer : TotalCmp (preference_cmp prefer).
Proof.
  assert (Hex : TotalCmp (λ l r, exhausted_rank (cd_health l) ?= exhausted_rank (cd_health r))).
  { apply (proj_total (λ c, exhausted_rank (cd_health c)) N.compare). }
  assert (Hco : TotalCmp (λ l r, cost_rank (tool_cost_class (cd_tool l)) ?=
                                 cost_rank (tool_cost_class (cd_tool r)))).
  { apply (proj_total (λ c, cost_rank (tool_cost_class (cd_tool c))) N.compare). }
  assert (Hne : TotalCmp (λ l r, near_rank (cd_health l) ?= near_rank (cd_health r))).
  { apply (proj_total (λ c, near_rank (cd_health c)) N.compare). }
  assert (Hfit : TotalCmp (λ l r, cd_capability_fit r ?= cd_capability_fit l)).
  { apply (flip_total (λ l r, cd_capability_fit l ?= cd_capability_fit r)),
      (proj_total cd_capability_fit N.compare). }
  destruct prefer; unfold preference_cmp; repeat (apply then_total; [|done]); done.
Qed.

(** The comparator refines the preference keys. *)
Lemma compare_candidates_preference prefer l r :
  compare_candidates prefer l r = preference_cmp prefer l r .then room_cmp prefer l r.
Proof.
  destruct prefer; unfold compare_candidates, preference_cmp, room_cmp, compare_cost_first,
    compare_quality_first; rewrite !then_with_assoc; reflexivity.
Qed.

Lemma ranking_preference_sorted prefer cs :
  StronglySorted (λ a b, preference_cmp prefer a b ≠ Gt) (sort_by (compare_candidates prefer) cs).
Proof.
  pose proof (compare_candidates_preference prefer) as E.
  apply sort_by_sorted.
  - intros x y z. apply cmp_not_Gt_trans.
  - intros x y. rewrite E, then_with_Lt. intros [->|[-> _]]; done.
  - intros x y. rewrite E. intros H. apply cmp_not_Lt. intros E'. apply H. by rewrite E'.
Qed.

Lemma ranking_head_best prefer cs best rest :
  sort_by (compare_candidates prefer) cs = best :: rest →
  best ∈ cs ∧ ∀ c, c ∈ cs → preference_cmp prefer best c ≠ Gt.
Proof.
  intros E. pose proof (ranking_preference_sorted prefer cs) as Hs. rewrite E in Hs.
  assert (Hp : ∀ c, c ∈ cs ↔ c ∈ best :: rest) by (intros c; by rewrite <-E, sort_by_perm).
  split; [apply Hp; set_solver|]. intros c [->|Hc]%Hp%elem_of_cons; [by rewrite cmp_refl|].
  inv Hs. rewrite Forall_forall in *. auto.
Qed.

Lemma has_mode_elem t m : has_mode t m = true ↔ m ∈ tool_invocation_modes t.
Proof.
  unfold has_mode. rewrite existsb_exists. setoid_rewrite bool_decide_eq_true.
  setoid_rewrite <-list_elem_of_In. naive_solver.
Qed.

Lemma has_capability_elem t c : has_capability t c = true ↔ c ∈ tool_capabilities t.
Proof.
  unfold has_capability. rewrite existsb_exists. setoid_rewrite bool_decide_eq_true.
  setoid_rewrite <-list_elem_of_In. naive_solver.
Qed.

Lemma validate_cli_ok tool m : validate_cli_mode tool = Ok m → m = Cli ∧ supports tool Cli.
Proof.
  unfold validate_cli_mode. case_match eqn:E; [|done]. intros [= <-]. split; [done|].
  apply andb_true_iff in E as [E1%has_mode_elem E2]. split; [done|].
  by destruct (tool_cli_invocation tool).
Qed.

Lemma validate_api_ok tool m : validate_api_mode tool = Ok m → m = Api ∧ supports tool Api.
Proof.
  unfold validate_api_mode. case_match eqn:E; [|done]. intros [= <-]. split; [done|].
  by apply has_mode_elem.
Qed.

Lemma is_ok_Ok {A} (r : Result A) : is_ok r = true → ∃ a, r = Ok a.
Proof. destruct r; [by eexists|done]. Qed.

Lemma resolve_mode_ok req tool m :
  resolve_mode req tool = Ok m →
  supports tool m ∧ (∀ m', rr_mode req = Some m' → m' = Auto ∨ m' = m).
Proof.
  unfold resolve_mode.
  assert (Hauto : ∀ m, auto_mode_for_route tool = Some m → supports tool m).
  { intros m'. unfold auto_mode_for_route.
    assert (H : ∀ o, (if is_ok (validate_cli_mode tool) then Some Cli
      else if is_ok (validate_api_mode tool) then Some Api else None) = Some o → supports tool o).
    { intros o. destruct (is_ok (validate_cli_mode tool)) eqn:E1.
      - apply is_ok_Ok in E1 as [a E1]. intros [= <-]. by apply validate_cli_ok in E1 as [_ ?].
      - destruct (is_ok (validate_api_mode tool)) eqn:E2; [|done].
        apply is_ok_Ok in E2 as [a E2]. intros [= <-]. by apply validate_api_ok in E2 as [_ ?]. }
    destruct (tool_cost_class tool); apply H. }
  destruct (rr_mode req) as [[]|]; cbn.
  - intros [-> ?]%validate_cli_ok. split; [done|]. naive_solver.
  - intros [-> ?]%validate_api_ok. split; [done|]. naive_solver.
  - destruct (auto_mode_for_route tool) eqn:E; cbn; [|done]. intros [= <-].
    split; [by apply Hauto|]. naive_solver.
  - destruct (auto_mode_for_route tool) eqn:E; cbn; [|done]. intros [= <-].
    split; [by apply Hauto|]. naive_solver.
Qed.

(** *** What a candidate is *)

Record candidate_ok (req : RouteRequest) (tool : DetectedTool) (c : Candidate) : Prop := {
  co_tool : cd_tool c = tool;
  co_mode : supports tool (cd_mode c);
  co_requested : ∀ m, rr_mode req = Some m → m = Auto ∨ m = cd_mode c;
  co_pool : cd_pool c = PoolKey.from_target_model (tool_name tool) (cd_model c);
}.

Lemma candidate_for_ok req usage tool c :
  candidate_for req usage tool = Ok c → candidate_ok req tool c.
Proof.
  unfold candidate_for. rewrite bind_Ok. intros (m & Hm & Hc).
  apply bind_Ok in Hc as (mo & _ & [= <-]). apply resolve_mode_ok in Hm as [? ?]. by split.
Qed.

Lemma candidates_for_ok req usage tool c :
  c ∈ candidates_for req usage tool → candidate_ok req tool c.
Proof.
  unfold candidates_for. destruct (pool_lanes req tool) as [|l ls].
  - destruct (candidate_for req usage tool) eqn:E; [|by intros ?%elem_of_nil].
    intros ->%list_elem_of_singleton. by eapply candidate_for_ok.
  - destruct (resolve_mode req tool) as [m|] eqn:E; [|by intros ?%elem_of_nil].
    intros (model & -> & _)%list_elem_of_fmap. apply resolve_mode_ok in E as [? ?]. by split.
Qed.

Lemma viable_candidates_elem req tools usage c :
  c ∈ viable_candidates req tools usage ↔
  ∃ tool, tool ∈ tools ∧ viable req tool = true ∧ c ∈ candidates_for req usage tool.
Proof.
  unfold viable_candidates. rewrite list_elem_of_In, in_concat. split.
  - intros (l & (tool & <- & Ht)%in_map_iff & Hc). exists tool.
    apply filter_In in Ht as [Ht Hv]. by rewrite !list_elem_of_In.
  - intros (tool & Ht & Hv & Hc). exists (candidates_for req usage tool).
    split; [|by apply list_elem_of_In]. apply in_map, filter_In. by rewrite <-list_elem_of_In.
Qed.

Definition candidate_target (c : Candidate) : RankedTarget :=
  mkRanked (tool_name (cd_tool c)) (cd_mode c) (cd_model c) (tool_cost_class (cd_tool c)).

Lemma candidate_usable req tools tool c :
  tool ∈ tools → viable req tool = true → candidate_ok req tool c →
  usable req tools (candidate_target c).
Proof.
  intros Ht Hv [<- Hm Hr _]. unfold viable in Hv.
  apply andb_true_iff in Hv as [[Hi He]%andb_true_iff Hc].
  exists (cd_tool c). split_and!; try done.
  intros cap Hcap. rewrite Hcap in Hc. by apply has_capability_elem.
Qed.

Lemma viable_candidates_usable req tools usage c :
  c ∈ viable_candidates req tools usage → usable req tools (candidate_target c).
Proof.
  intros (tool & Ht & Hv & Hc)%viable_candidates_elem.
  eapply candidate_usable; [done..|]. by eapply candidates_for_ok.
Qed.

Lemma ranked_targets_decision req c l :
  ranked_targets (decision_from_candidate req c l) = map candidate_target (c :: l).
Proof. unfold ranked_targets. cbn. f_equal. by rewrite map_map. Qed.

Lemma explicit_tool_ok req tools target tool :
  explicit_tool req tools target = Ok tool →
  tool ∈ tools ∧ viable req tool = true ∧
  (tool_name tool = target ∨ tool_name tool = to_ascii_lowercase target).
Proof.
  unfold explicit_tool. rewrite bind_Ok. intros (t & Ht & Hc).
  destruct (List.find _ tools) as [t'|] eqn:Ef; [|done]. injection Ht as ->.
  apply find_some in Ef as [Hin%list_elem_of_In Hname].
  assert (Hn : tool_name t = target ∨ tool_name t = to_ascii_lowercase target).
  { unfold str_eqb in Hname. apply orb_true_iff in Hname as [H|H]; apply bool_decide_eq_true in H; auto. }
  unfold viable. destruct (tool_installed t) eqn:Ei; [|done]. destruct (tool_enabled t) eqn:Ee; [|done].
  cbn in Hc. destruct (rr_capability req) as [cap|] eqn:Ec.
  - destruct (has_capability t cap) eqn:Eh; [|done]. injection Hc as <-. rewrite Ei, Ee. auto.
  - injection Hc as <-. rewrite Ei, Ee. auto.
Qed.

Lemma best_lane_ok req usage tool c : best_lane_for req usage tool = Ok c → candidate_ok req tool c.
Proof.
  unfold best_lane_for. case_match; [apply candidate_for_ok|].
  destruct (sort_by _ _) as [|b l] eqn:E; [apply candidate_for_ok|]. intros [= <-].
  apply ranking_head_best in E as [Hin _]. by eapply candidates_for_ok.
Qed.

Definition open_request (req : RouteRequest) : RouteRequest :=
  mkRouteRequest (rr_capability req) (rr_prefer req) None None (rr_mode req) (rr_failover req).

Lemma open_request_usable req tools rt : usable (open_request req) tools rt ↔ usable req tools rt.
Proof. done. Qed.

Lemma failover_alternatives_elem req tools usage chosen c :
  c ∈ failover_alternatives req tools usage chosen ↔
  c ∈ viable_candidates (open_request req) tools usage ∧ cd_pool c ≠ cd_pool chosen.
Proof.
  unfold failover_alternatives. fold (open_request req).
  rewrite elem_of_app, !elem_of_sort_by, !elem_of_filter_bool.
  rewrite negb_true_iff, bool_decide_eq_false. destruct (str_eqb _ _); cbn; naive_solver.
Qed.

(** *** The comparator is a total order on comparable candidates *)

#[export] Instance remaining_fraction_cmp_total : TotalCmp remaining_fraction_cmp.
Proof.
  unfold remaining_fraction_cmp. split.
  - intros [r1 l1] [r2 l2]; cbn. destruct (N.eqb_spec l1 0), (N.eqb_spec l2 0); try done.
    apply N.compare_antisym.
  - intros [r1 l1] [r2 l2] [r3 l3]; cbn.
    destruct (N.eqb_spec l1 0), (N.eqb_spec l2 0), (N.eqb_spec l3 0); try done.
    rewrite !N.compare_lt_iff. intros H1 H2.
    apply (N.mul_lt_mono_pos_r l3) in H1; [|lia]. apply (N.mul_lt_mono_pos_r l1) in H2; [|lia].
    apply (N.mul_lt_mono_pos_r l2); lia.
  - intros [r1 l1] [r2 l2] [r3 l3]; cbn.
    destruct (N.eqb_spec l1 0), (N.eqb_spec l2 0), (N.eqb_spec l3 0); try done.
    rewrite N.compare_eq_iff. intros H.
    destruct (N.compare_spec (r1 * l3) (r3 * l1)) as [E|E|E], (N.compare_spec (r2 * l3) (r3 * l2)) as [F|F|F];
      try done; exfalso; nia.
Qed.

(** The room keys as one total comparator. *)
Definition room_class (s : HeadroomScore) : N :=
  match limiting_dimension s with
  | Some d => if hd_remaining d =? 0 then 2 else 0
  | None => 1
  end.
Definition room_dim (s : HeadroomScore) : HeadroomDimension :=
  default (mkDimension 0 0) (limiting_dimension s).
Definition observed_key (s : HeadroomScore) : N * N :=
  match s with Observed t r => (t, r) | _ => (0, 0) end.

Definition score_cmp (l r : HeadroomScore) : Ordering :=
  (room_class l ?= room_class r)
  .then remaining_fraction_cmp (room_dim r) (room_dim l)
  .then (hd_remaining (room_dim r) ?= hd_remaining (room_dim l))
  .then ((observed_key l).1 ?= (observed_key r).1)
  .then ((observed_key l).2 ?= (observed_key r).2).

#[export] Instance score_cmp_total : TotalCmp score_cmp.
Proof.
  unfold score_cmp. repeat apply then_total.
  - apply (proj_total room_class N.compare).
  - apply (flip_total (λ l r, remaining_fraction_cmp (room_dim l) (room_dim r))), (proj_total room_dim), _.
  - apply (flip_total (λ l r, hd_remaining (room_dim l) ?= hd_remaining (room_dim r))),
      (proj_total (λ s, hd_remaining (room_dim s)) N.compare).
  - apply (proj_total (λ s, (observed_key s).1) N.compare).
  - apply (proj_total (λ s, (observed_key s).2) N.compare).
Qed.

Lemma observed_no_dim s : has_room_order s = true → limiting_dimension s = None.
Proof. by destruct s. Qed.

Lemma score_cmp_agrees l r :
  (∀ d, limiting_dimension l = Some d → dimension_ok d) →
  (∀ d, limiting_dimension r = Some d → dimension_ok d) →
  (limiting_dimension l = None → limiting_dimension r = None → has_room_order l = has_room_order r) →
  compare_headroom_desc l r .then compare_observed_room l r = score_cmp l r.
Proof.
  intros Hl Hr Hmix. unfold score_cmp, compare_headroom_desc, room_class, room_dim.
  assert (Hobs : ∀ s, is_Some (limiting_dimension s) → observed_key s = (0, 0)).
  { intros [] [d Hd]; done. }
  assert (Hno : ∀ a b, is_Some (limiting_dimension a) ∨ is_Some (limiting_dimension b) →
    compare_observed_room a b = Eq).
  { intros [] [] [[d Hd]|[d Hd]]; done. }
  destruct (limiting_dimension l) as [dl|] eqn:El, (limiting_dimension r) as [dr|] eqn:Er; cbn.
  - specialize (Hl dl eq_refl). specialize (Hr dr eq_refl). unfold dimension_ok in *.
    rewrite (Hobs l), (Hobs r), (Hno l r) by eauto. cbn.
    unfold remaining_fraction_cmp.
    destruct dl as [rl ll], dr as [rr lr]; cbn in *.
    destruct (N.eqb_spec rl 0), (N.eqb_spec rr 0), (N.eqb_spec ll 0), (N.eqb_spec lr 0); subst; try lia;
      cbn; rewrite ?then_with_assoc; cbn; try reflexivity; try (by rewrite ?N.compare_refl);
      try (by destruct (N.compare_spec (rr * ll) 0); [nia|nia|]).
    all: rewrite ?N.mul_0_l; try done.
    all: try (by destruct (N.compare_spec 0 (rl * lr)); [nia| |nia]).
    all: try (by destruct (N.compare_spec (rr * ll) 0); [nia|nia|]).
    all: destruct (_ ?= _), (_ ?= _); reflexivity.
  - rewrite (Hno l r) by eauto. destruct (N.eqb_spec (hd_remaining dl) 0); done.
  - rewrite (Hno l r) by eauto. destruct (N.eqb_spec (hd_remaining dr) 0); done.
  - specialize (Hmix eq_refl eq_refl). destruct l, r; try done.
Qed.

(** ** Properties *)

(** C15: routing is sound: the chosen target and every alternative in the failover
    order is a detected tool that is installed, enabled, provides the requested
    capability, and supports the mode chosen for it, which is the requested mode
    unless that is automatic. *)
Theorem select_route_sound req tools usage d :
  select_route req tools usage = Ok d →
  ∀ rt, rt ∈ ranked_targets d → usable req tools rt.
Proof.
  unfold select_route. destruct (rr_target req) as [target|].
  - unfold explicit_route. rewrite bind_Ok. intros (tool & Htool & Hd).
    apply bind_Ok in Hd as (c & Hc & [= <-]). apply explicit_tool_ok in Htool as (Ht & Hv & _).
    intros rt. unfold ranked_targets. cbn.
    intros [->|Hrt]%elem_of_cons.
    { apply (candidate_usable req tools tool c Ht Hv). by eapply best_lane_ok. }
    rewrite map_map in Hrt. apply list_elem_of_fmap in Hrt as (a & -> & Ha).
    destruct (rr_failover req); [|by apply elem_of_nil in Ha].
    apply failover_alternatives_elem in Ha as [Ha _].
    apply (open_request_usable req), (viable_candidates_usable _ _ _ _ Ha).
  - destruct (sort_by _ _) as [|c l] eqn:E; [done|]. intros [= <-] rt.
    rewrite ranked_targets_decision. intros (a & -> & Ha)%list_elem_of_fmap.
    apply (viable_candidates_usable req tools usage). rewrite <-E, sort_by_perm in Ha. done.
Qed.

(** C19: without a pinned target, routing picks a best candidate and loses none: it
    fails only when nothing is viable; the failover order is a permutation of the
    viable candidates, sorted by preference (exhaustion first, then cost, then
    nearness to a limit, then fit, or fit before nearness for quality), so an
    exhausted bucket is only chosen when every bucket is exhausted. *)
Theorem select_route_best req tools usage :
  rr_target req = None →
  let cs := viable_candidates req tools usage in
  match select_route req tools usage with
  | Err _ => cs = []
  | Ok d => ∃ ranked, ranked ≡ₚ cs ∧ ranked_targets d = map candidate_target ranked ∧
      StronglySorted (λ a b, preference_cmp (rr_prefer req) a b ≠ Gt) ranked ∧
      ∃ chosen, head ranked = Some chosen ∧
        (cd_health chosen = Exhausted → ∀ c, c ∈ cs → cd_health c = Exhausted)
  end.
Proof.
  intros Ht cs. unfold select_route. rewrite Ht. fold cs.
  destruct (sort_by (compare_candidates (rr_prefer req)) cs) as [|c l] eqn:E.
  { pose proof (sort_by_perm (compare_candidates (rr_prefer req)) cs) as Hp.
    rewrite E in Hp. by apply Permutation_nil_l in Hp. }
  exists (c :: l). split_and!.
  - rewrite <-E. apply sort_by_perm.
  - apply ranked_targets_decision.
  - rewrite <-E. apply ranking_preference_sorted.
  - exists c. split; [done|]. intros Hex x Hx.
    destruct (ranking_head_best _ _ _ _ E) as [_ Hbest]. specialize (Hbest x Hx).
    assert (Hrank : (exhausted_rank (cd_health c) ?= exhausted_rank (cd_health x)) ≠ Gt).
    { intros Hgt. apply Hbest. unfold preference_cmp. by destruct (rr_prefer req); rewrite Hgt. }
    rewrite Hex in Hrank. by destruct (cd_health x).
Qed.

(** A pinned target stays first and its failover tail never returns to the
    bucket just tried: with failover requested the tail holds exactly the other
    viable buckets, sibling pools of the same target before every other target,
    each group sorted by preference; without it the tail is empty. *)
Theorem explicit_route_failover req tools usage target d :
  rr_target req = Some target →
  select_route req tools usage = Ok d →
  ∃ tool chosen,
    tool ∈ tools ∧ (tool_name tool = target ∨ tool_name tool = to_ascii_lowercase target) ∧
    best_lane_for req usage tool = Ok chosen ∧ rd_target d = tool_name tool ∧
    (rr_failover req = false → rd_alternatives d = []) ∧
    (rr_failover req = true → ∃ siblings others,
       rd_alternatives d = map route_alternative_from (siblings ++ others) ∧
       (∀ c, c ∈ siblings ++ others ↔
          c ∈ viable_candidates (open_request req) tools usage ∧ cd_pool c ≠ cd_pool chosen) ∧
       (∀ c, c ∈ siblings → pk_target (cd_pool c) = pk_target (cd_pool chosen)) ∧
       (∀ c, c ∈ others → pk_target (cd_pool c) ≠ pk_target (cd_pool chosen)) ∧
       StronglySorted (λ a b, preference_cmp (rr_prefer req) a b ≠ Gt) siblings ∧
       StronglySorted (λ a b, preference_cmp (rr_prefer req) a b ≠ Gt) others).
Proof.
  unfold select_route. intros ->. unfold explicit_route. rewrite bind_Ok. intros (tool & Htool & Hd).
  apply bind_Ok in Hd as (c & Hc & [= <-]). apply explicit_tool_ok in Htool as (Ht & _ & Hn).
  exists tool, c. cbn [rd_target rd_alternatives].
  split_and!; try done; [by destruct (best_lane_ok _ _ _ _ Hc) as [<- _ _ _]|by intros ->|].
  intros ->. pose proof (failover_alternatives_elem req tools usage c) as Hel.
  unfold failover_alternatives in *. cbv zeta in *. eexists _, _. split; [reflexivity|].
  split_and!; [exact Hel|..]; try apply ranking_preference_sorted.
  - intros x. rewrite elem_of_sort_by, elem_of_filter_bool. unfold str_eqb.
    rewrite bool_decide_eq_true. by intros [? _].
  - intros x. rewrite elem_of_sort_by, elem_of_filter_bool. unfold str_eqb.
    rewrite negb_true_iff, bool_decide_eq_false. by intros [? _].
Qed.
Definition total_cmp (prefer : Prefer) (left right : Candidate) : Ordering :=
  let tail := match prefer with
              | Cheapest | PreferLocal => Eq
              | Quality => cost_rank (tool_cost_class (cd_tool left)) ?=
                           cost_rank (tool_cost_class (cd_tool right))
              end in
  preference_cmp prefer left right .then score_cmp (cd_headroom left) (cd_headroom right)
  .then tail
  .then str_cmp (tool_name (cd_tool left)) (tool_name (cd_tool right))
  .then PoolKey.cmp (cd_pool left) (cd_pool right).

#[export] Instance total_cmp_total prefer : TotalCmp (total_cmp prefer).
Proof.
  unfold total_cmp. apply then_total; [apply then_total; [apply then_total; [apply then_total|]|]|].
  - apply _.
  - apply (proj_total cd_headroom score_cmp).
  - assert (He : TotalCmp (λ _ _ : Candidate, Eq)) by (by split; intros).
    destruct prefer; [exact He| |exact He].
    apply (proj_total (λ c, cost_rank (tool_cost_class (cd_tool c))) N.compare).
  - apply (proj_total (λ c, tool_name (cd_tool c)) str_cmp).
  - apply (proj_total cd_pool PoolKey.cmp).
Qed.

Lemma total_cmp_agrees prefer cs a b :
  comparable_scores cs → a ∈ cs → b ∈ cs →
  compare_candidates prefer a b = total_cmp prefer a b.
Proof.
  intros [Hok Hmix] Ha Hb. rewrite compare_candidates_preference. unfold total_cmp.
  rewrite <-score_cmp_agrees by eauto.
  destruct prefer; unfold room_cmp; rewrite !then_with_assoc; reflexivity.
Qed.

Lemma ranking_total prefer cs :
  comparable_scores cs →
  sort_by (compare_candidates prefer) cs = sort_by (total_cmp prefer) cs.
Proof. intros H. apply sort_by_ext. intros a b. by apply total_cmp_agrees. Qed.

(** On candidates whose room can be compared the ranking is the order the
    comparator states, every candidate against every later one, and it does not
    depend on the order the tools were detected in unless two candidates tie. *)
Theorem ranking_order prefer cs :
  comparable_scores cs →
  let ranked := sort_by (compare_candidates prefer) cs in
  StronglySorted (λ a b, total_cmp prefer a b ≠ Gt) ranked ∧
  (∀ a b, a ∈ cs → b ∈ cs → compare_candidates prefer a b = total_cmp prefer a b) ∧
  ((∀ a b, a ∈ cs → b ∈ cs → compare_candidates prefer a b = Eq → a = b) →
   ∀ cs', cs' ≡ₚ cs → sort_by (compare_candidates prefer) cs' = ranked).
Proof.
  intros Hc ranked. unfold ranked. rewrite (ranking_total prefer cs Hc).
  split_and!; [apply sort_by_sorted_total|by intros; eapply total_cmp_agrees|].
  intros Htie cs' Hp.
  assert (Hc' : comparable_scores cs').
  { destruct Hc as [H1 H2]. split; [intros c d; rewrite Hp; apply H1|].
    intros a b. rewrite Hp. apply H2. }
  rewrite (ranking_total prefer cs' Hc').
  apply (StronglySorted_unique_strong (λ a b, total_cmp prefer a b ≠ Gt));
    [|apply sort_by_sorted_total..|by rewrite !sort_by_perm].
  intros a b. rewrite !elem_of_sort_by, Hp. intros Ha Hb H1 H2.
  apply Htie; [done..|]. rewrite (total_cmp_agrees prefer cs) by done.
  rewrite (cmp_opp a b) in H2. by destruct (total_cmp prefer a b).
Qed.

(** A target with no configured limit, as a candidate. *)
Definition plain_tool (name : str) : DetectedTool :=
  mkTool name CodingAgent true None None [IMCli] (Some $"run {prompt}") SubscriptionFlat [Code]
    None [] None true.
Definition scored (name : str) (s : HeadroomScore) : Candidate :=
  mkCandidate (plain_tool name) Cli None (PoolKey.unpooled name) 1 s Healthy.

(** The comparator is not transitive: a pool with observed usage, a target nothing
    is known about and a less used pool each rank below the next, in a circle, so
    the contract of [sort_by] is broken and the order depends on detection order. *)
Lemma compare_candidates_cycle :
  let a := scored $"a" (Observed 9 1) in
  let b := scored $"b" ScoreUnknown in
  let c := scored $"c" (Observed 3 1) in
  compare_candidates Cheapest a b = Lt ∧ compare_candidates Cheapest b c = Lt ∧
  compare_candidates Cheapest c a = Lt ∧
  sort_by (compare_candidates Cheapest) [a; b; c] ≠ sort_by (compare_candidates Cheapest) [c; a; b].
Proof. cbv zeta. split_and!; [reflexivity..|]. vm_compute. congruence. Qed.

(** A capped candidate is exhausted exactly when a configured dimension has
    nothing left, and a candidate with no configured cap is always healthy: no
    exhaustion is made up from raw usage. *)
Theorem health_exhausted s f :
  (health_of s f = Exhausted ↔
   ∃ tokens requests shared d, s = Known tokens requests shared ∧
     d ∈ option_list tokens ++ option_list requests ∧ hd_remaining d = 0) ∧
  (limiting_dimension s = None → health_of s f = Healthy).
Proof.
  assert (Hw : ∀ l w, foldl (λ worst dim, worse_health worst (dimension_health f dim)) w l = Exhausted ↔
    w = Exhausted ∨ ∃ d, d ∈ l ∧ hd_remaining d = 0).
  { induction l as [|d l IH]; intros w; cbn; [set_solver|]. rewrite IH.
    assert (Hd : dimension_health f d = Exhausted ↔ hd_remaining d = 0).
    { unfold dimension_health. destruct (N.eqb_spec (hd_remaining d) 0); [done|].
      split; [|done]. by case_match. }
    assert (Hm : worse_health w (dimension_health f d) = Exhausted ↔
      w = Exhausted ∨ hd_remaining d = 0).
    { rewrite <-Hd. destruct w, (dimension_health f d); naive_solver. }
    rewrite Hm. set_solver. }
  split.
  - destruct s as [t r sh| |]; cbn [health_of]; [|naive_solver..]. rewrite Hw. split.
    + intros [?|(d & ? & ?)]; [done|]. naive_solver.
    + intros (t' & r' & sh' & d & [= -> -> ->] & ? & ?). eauto.
  - destruct s as [[] [] ?| |]; cbn; done.
Qed.

(** ** Witnesses *)

Definition demo_tools : list DetectedTool :=
  [plain_tool $"codex";
   mkTool $"claude" CodingAgent true None None [IMCli; IMApi] (Some $"claude -p {prompt}")
     SubscriptionFlat [Code; Agentic] None [$"pro/opus"; $"team/opus"] None true].

Lemma select_route_sound_witness :
  usable RouteRequest_default demo_tools (mkRanked $"codex" Cli None SubscriptionFlat).
Proof.
  apply (select_route_sound RouteRequest_default demo_tools Snapshot_default
    (default (mkDecision [] Cli None LocalFree [] [])
       (match select_route RouteRequest_default demo_tools Snapshot_default with
        | Ok d => Some d | Err _ => None end))).
  - vm_compute. reflexivity.
  - vm_compute. right. right. left.
Defined.

Lemma select_route_best_witness :
  rr_target RouteRequest_default = None ∧
  length (viable_candidates RouteRequest_default demo_tools Snapshot_default) = 3%nat ∧
  match select_route RouteRequest_default demo_tools Snapshot_default with
  | Err _ => False
  | Ok d => length (ranked_targets d) = 3%nat
  end.
Proof.
  split; [reflexivity|]. split; [vm_compute; reflexivity|].
  pose proof (select_route_best RouteRequest_default demo_tools Snapshot_default eq_refl) as H.
  cbv zeta in H. revert H. destruct (select_route _ _ _) as [d|e] eqn:E.
  - intros (ranked & Hp & -> & _). rewrite length_map, Hp. vm_compute. reflexivity.
  - intros H. vm_compute in H. discriminate.
Defined.

Definition pinned : RouteRequest :=
  mkRouteRequest None Cheapest (Some $"claude") None None true.

Lemma explicit_route_failover_witness :
  match select_route pinned demo_tools Snapshot_default with
  | Ok d => rd_target d = $"claude"
  | Err _ => False
  end.
Proof.
  destruct (select_route pinned demo_tools Snapshot_default) as [d|e] eqn:E.
  - destruct (explicit_route_failover pinned demo_tools Snapshot_default $"claude" d eq_refl E)
      as (tool & chosen & _ & [Hn|Hn] & _ & -> & _); exact Hn.
  - vm_compute in E. discriminate.
Defined.

Lemma ranking_order_witness :
  let cs := [scored $"b" ScoreUnknown; scored $"a" (Known (Some (mkDimension 5 10)) None false)] in
  StronglySorted (λ a b, total_cmp Cheapest a b ≠ Gt) (sort_by (compare_candidates Cheapest) cs).
Proof.
  apply ranking_order. split.
  - intros c d. rewrite !elem_of_cons, elem_of_nil. intros [->|[->|[]]]; [done|].
    intros [= <-]. vm_compute. discriminate.
  - intros a b. rewrite !elem_of_cons, !elem_of_nil. by intros [->|[->|[]]] [->|[->|[]]].
Defined.
