(* ===== verification/Invoke.v ===== *)
(** * Invocation and failover: [crates/rtrt-providers/src/invoke.rs]

    Running one target (a CLI process or the gateway), classifying failures, and
    the walk over ranked targets with retries and failover.

    The process, the HTTP gateway and the JSON parser are answers or parameters;
    every ledger row the code records is part of the result. *)
From S2P Require Import Prelude Str Utf8 F64 Error Pool Config Detect TsvLog Ledger Usage Router.
From Stdlib Require Import ZArith.

Definition DEFAULT_TIMEOUT_SECS : N := 120.
Definition MAX_CLI_PIPE_BYTES : nat := N.to_nat (8 * 1024 * 1024).
Definition CLI_TRUNCATION_MARKER : list byte :=
  as_bytes (ch_nl :: $"...[rtrt CLI output truncated at 8388608 bytes]").
Definition CHILD_WAIT_POLL_INTERVAL : N := 25 * 1000000.     (* nanoseconds *)
Definition PROMPT_PLACEHOLDER : str := $"{prompt}".
Definition MODEL_PLACEHOLDER : str := $"{model}".
Definition MODEL_ARGS_PLACEHOLDER : str := $"{model_args}".
Definition ASCII_SPINNER_CHARS : list char := $"|/-\".
Definition BRAILLE_SPINNER_CHARS : list char := $"⠋⠙⠹⠸⠼⠴⠦⠧⠇⠏".
Definition EMPTY_COMPLETION_ERROR : str := $"provider returned blank successful output".
Definition CLAUDE_PERMISSION_PROMPT_TOOL : str := $"mcp__rtrt__permission_prompt".

Record InvocationContext := mkContext {
  ic_invocation_id : str;
  ic_parent_project : option str;
  ic_parent_session_id : option str;
  ic_parent_call_id : option str;
  ic_caller_agent : option str;
  ic_parent_cwd : option str;
  ic_parent_worktree : option str;
}.

Record InvokeOptions := mkOptions {
  io_mode : option Mode;
  io_model : option str;
  io_timeout : N;                 (* nanoseconds *)
  io_provenance : option InvocationContext;
}.

Definition mode_parse_label (value : str) : Result Mode :=
  if str_eqb value $"cli" then Ok Cli
  else if str_eqb value $"api" then Ok Api
  else if str_eqb value $"auto" then Ok Auto
  else Err (Provider ($"invoke: unknown mode '" ++ value ++ $"' (expected cli, api, or auto)")).

Record InvokeOutcome := mkOutcome {
  oc_target : str;
  oc_mode_used : Mode;
  oc_model : option str;
  oc_output : str;
  oc_cost_usd : option f64;
  oc_exit_code : option Z;
  oc_ms : N;
}.

(** ** Failure classes *)

Inductive FailureClass := Transient | QuotaClass | Fatal.
#[export] Instance FailureClass_eq_dec : EqDecision FailureClass.
Proof. solve_decision. Defined.

Definition class_label (c : FailureClass) : str :=
  match c with Transient => $"transient" | QuotaClass => $"quota" | Fatal => $"fatal" end.
Definition is_recoverable (c : FailureClass) : bool := match c with Fatal => false | _ => true end.

Definition FATAL_MARKERS : list str :=
  [$"401"; $"403"; $"unauthorized"; $"forbidden"; $"invalid api key"; $"authentication"; $"api key";
   $"not detected"; $"model not found"; $"model-not-found"; $"disabled"; $"does not support";
   $"requires --model"; $"needs --model"; $"no cli invocation"; $"is empty"].

Definition QUOTA_MARKERS : list str :=
  [$"429"; $"rate limit"; $"rate-limit"; $"ratelimit"; $"quota"; $"weekly"; $"usage"; $"hit your";
   $"limit reached"; $"credits exhausted"; $"budget exceeded"; $"too many requests"].

Definition TRANSIENT_MARKERS : list str :=
  [$"overloaded"; $"capacity"; $"timed out"; $"timeout"; $"spawn"; $"not installed"].

Definition SERVER_CONTEXT : list str :=
  [$"http"; $"server"; $"service unavailable"; $"status"; $"upstream"; $"overload"].

Definition DEFAULT_TRANSIENT_RETRIES : N := 1.
Definition DEFAULT_BACKOFF_DIVISOR : N := 60.

Record FailurePolicy := mkPolicy {
  fp_fatal : list str;
  fp_quota : list str;
  fp_transient : list str;
  fp_transient_retries : option N;
  fp_backoff_divisor : option N;
  fp_backoff : option N;          (* nanoseconds *)
}.

Definition builtin : FailurePolicy := mkPolicy [] [] [] None None None.

Definition lowercased_markers (markers : list str) : list str :=
  List.filter (λ m, negb (is_empty m)) (map (λ m, to_ascii_lowercase (trim m)) markers).

Definition from_config (c : FailoverConfig) : FailurePolicy :=
  mkPolicy (lowercased_markers (fc_fatal c)) (lowercased_markers (fc_quota c))
    (lowercased_markers (fc_transient c)) (fc_transient_retries c) (fc_backoff_divisor c)
    ((λ ms, ms * 1000000) <$> fc_backoff_ms c).

(** A three digit 5xx code that no digit touches.  The source scans bytes: the
    bytes of a wider character are never ASCII digits, so scanning characters
    finds the same codes. *)
Definition is_5xx (a b c : char) : bool := (a =? 53) && is_ascii_digit b && is_ascii_digit c.

Fixpoint scan_5xx (before : option char) (s : str) : bool :=
  match s with
  | [] => false
  | a :: s' =>
      match s' with
      | b :: c :: rest =>
          is_5xx a b c &&
          match before with Some p => negb (is_ascii_digit p) | None => true end &&
          match rest with n :: _ => negb (is_ascii_digit n) | [] => true end
      | _ => false
      end || scan_5xx (Some a) s'
  end.

Definition contains_server_status (message : str) : bool :=
  existsb (contains message) SERVER_CONTEXT && scan_5xx None message.

Definition matches_any (markers : list str) (text : str) : bool := existsb (contains text) markers.

Definition classify (p : FailurePolicy) (err : Error) : FailureClass :=
  match err with
  | Provider message =>
      let lower := to_ascii_lowercase message in
      if matches_any (fp_fatal p) lower then Fatal
      else if matches_any (fp_quota p) lower then QuotaClass
      else if matches_any (fp_transient p) lower then Transient
      else if str_eqb lower EMPTY_COMPLETION_ERROR then Transient
      else if matches_any FATAL_MARKERS lower then Fatal
      else if matches_any QUOTA_MARKERS lower then QuotaClass
      else if matches_any TRANSIENT_MARKERS lower || contains_server_status lower then Transient
      else Fatal
  | _ => Transient
  end.

Definition is_retryable_error (p : FailurePolicy) (err : Error) : bool :=
  is_recoverable (classify p err).

Definition transient_retries (p : FailurePolicy) : N :=
  default DEFAULT_TRANSIENT_RETRIES (fp_transient_retries p).

(** Durations in nanoseconds; [Duration / u32] rounds down. *)
Definition backoff (p : FailurePolicy) (timeout : N) : N :=
  match fp_backoff p with
  | Some fixed => fixed
  | None =>
      let divisor := N.max (default DEFAULT_BACKOFF_DIVISOR (fp_backoff_divisor p)) 1 in
      let ceiling := N.max (DEFAULT_TIMEOUT_SECS * 1000000000 / divisor) CHILD_WAIT_POLL_INTERVAL in
      N.min (N.max (timeout / divisor) CHILD_WAIT_POLL_INTERVAL) ceiling
  end.

Definition reject_blank_outcome (o : InvokeOutcome) : Result InvokeOutcome :=
  if is_empty (trim (oc_output o)) then Err (Provider EMPTY_COMPLETION_ERROR) else Ok o.

(** ** Records of a walk *)

Definition target_label (target : str) (model : option str) : str :=
  match model with Some m => target ++ $"[" ++ m ++ $"]" | None => target end.
Definition classify_label (retryable : bool) : str :=
  if retryable then $"retryable" else $"terminal".

Record FailoverAttempt := mkFailoverAttempt {
  fa_target : str;
  fa_model : option str;
  fa_retryable : bool;
  fa_error : str;
}.

Record FailoverOutcome := mkFailoverOutcome {
  fo_outcome : InvokeOutcome;
  fo_failed_over : list FailoverAttempt;
}.

Definition fo_fell_over (f : FailoverOutcome) : nat := length (fo_failed_over f).

Definition fo_summary (f : FailoverOutcome) : str :=
  let served_by := target_label (oc_target (fo_outcome f)) (oc_model (fo_outcome f)) in
  match fo_failed_over f with
  | [] => $"served by " ++ served_by ++ $" (no failover)"
  | l =>
      let trail := join $", " (map (λ a, target_label (fa_target a) (fa_model a) ++ $": " ++
                                         classify_label (fa_retryable a)) l) in
      $"served by " ++ served_by ++ $" after " ++ show_N (N.of_nat (length l)) ++
      $" fell over (" ++ trail ++ $")"
  end.

Record PolicyAttempt := mkAttempt {
  pa_target : str;
  pa_model : option str;
  pa_class : FailureClass;
  pa_retried : bool;
  pa_error : str;
}.

Definition pa_label (a : PolicyAttempt) : str := target_label (pa_target a) (pa_model a).
Definition trail_entry (a : PolicyAttempt) : str :=
  pa_label a ++ $": " ++ class_label (pa_class a) ++ (if pa_retried a then $", retried" else []).

Definition attempt_from (a : PolicyAttempt) : FailoverAttempt :=
  mkFailoverAttempt (pa_target a) (pa_model a) (is_recoverable (pa_class a)) (pa_error a).

Record PolicyOutcome := mkPolicyOutcome {
  po_served : option InvokeOutcome;
  po_attempts : list PolicyAttempt;
  po_halted : option PolicyAttempt;
}.

(** [usize] subtraction: the walk always records the halted attempt. *)
Definition po_fell_over (o : PolicyOutcome) : N :=
  N.of_nat (length (po_attempts o)) - (if is_some (po_halted o) then 1 else 0).

Definition po_summary (o : PolicyOutcome) : str :=
  let trail := join $", " (map trail_entry (po_attempts o)) in
  let count := show_N (N.of_nat (length (po_attempts o))) in
  match po_halted o with
  | Some halted =>
      $"halted at " ++ pa_label halted ++ $" after " ++ show_N (po_fell_over o) ++
      $" fell over: fatal, no failover (" ++ pa_error halted ++ $")"
  | None =>
      match po_served o with
      | Some outcome =>
          let served_by := target_label (oc_target outcome) (oc_model outcome) in
          match po_attempts o with
          | [] => $"served by " ++ served_by ++ $" (no failover)"
          | _ => $"served by " ++ served_by ++ $" after " ++ count ++ $" fell over (" ++ trail ++ $")"
          end
      | None => $"all " ++ count ++ $" candidate(s) failed (" ++ trail ++ $")"
      end
  end.

Definition aggregated_error (attempts : list FailoverAttempt) : Error :=
  let trail := join $"; " (map (λ a, target_label (fa_target a) (fa_model a) ++ $" (" ++
                                     classify_label (fa_retryable a) ++ $"): " ++ fa_error a) attempts) in
  Provider ($"invoke: all " ++ show_N (N.of_nat (length attempts)) ++ $" candidate(s) failed: " ++ trail).

Definition into_failover (o : PolicyOutcome) : Result FailoverOutcome :=
  let failed_over := map attempt_from (po_attempts o) in
  match po_served o with
  | Some outcome => Ok (mkFailoverOutcome outcome failed_over)
  | None => Err (aggregated_error failed_over)
  end.

(** ** The walk

    The invoker acts on a world [W]; the events are what the walk itself does. *)

Inductive WalkEvent :=
| EvInvoke (target : RankedTarget)
| EvSleep (nanos : N).

Section Walk.
Context {W : Type} (invoke : W → RankedTarget → str → N → Result InvokeOutcome * W).
Context (policy : FailurePolicy) (prompt : str) (timeout : N).

Inductive LaneEnd :=
| Served (o : InvokeOutcome)
| Failed (a : PolicyAttempt).

(** The loop on one candidate: [left] tries remain after this one. *)
Fixpoint try_lane (left : nat) (tries : N) (c : RankedTarget) (w : W) :
    LaneEnd * list WalkEvent * W :=
  let '(r, w') := invoke w c prompt timeout in
  match r ≫= reject_blank_outcome with
  | Ok outcome => (Served outcome, [EvInvoke c], w')
  | Err err =>
      let class := classify policy err in
      let attempt := mkAttempt (rt_target c) (rt_model c) class (1 <? tries) (error_to_string err) in
      match left, class with
      | S left', Transient =>
          let '(res, evs, w'') := try_lane left' (tries + 1) c w' in
          (res, EvInvoke c :: EvSleep (backoff policy timeout) :: evs, w'')
      | _, _ => (Failed attempt, [EvInvoke c], w')
      end
  end.

Definition max_tries : N := sat_add u32_max (transient_retries policy) 1.

Fixpoint walk_lanes (targets : list RankedTarget) (attempts : list PolicyAttempt) (w : W) :
    PolicyOutcome * list WalkEvent * W :=
  match targets with
  | [] => (mkPolicyOutcome None attempts None, [], w)
  | c :: rest =>
      let '(res, evs, w') := try_lane (N.to_nat (max_tries - 1)) 1 c w in
      match res with
      | Served outcome => (mkPolicyOutcome (Some outcome) attempts None, evs, w')
      | Failed a =>
          match pa_class a with
          | Fatal => (mkPolicyOutcome None (attempts ++ [a]) (Some a), evs, w')
          | _ =>
              let '(o, evs', w'') := walk_lanes rest (attempts ++ [a]) w' in
              (o, evs ++ evs', w'')
          end
      end
  end.

Definition walk_with_policy (targets : list RankedTarget) (w : W) :
    Result PolicyOutcome * list WalkEvent * W :=
  match targets with
  | [] => (Err (Provider $"invoke: failover received no ranked targets"), [], w)
  | _ => let '(o, evs, w') := walk_lanes targets [] w in (Ok o, evs, w')
  end.

Definition invoke_with_failover (targets : list RankedTarget) (w : W) :
    Result FailoverOutcome * list WalkEvent * W :=
  let '(r, evs, w') := walk_with_policy targets w in (r ≫= into_failover, evs, w').
End Walk.

(** ** Resolving a target *)

Definition available_targets (tools : list DetectedTool) : str :=
  let names := map tool_name (List.filter (λ t, tool_installed t && tool_enabled t) tools) in
  match dedup str_cmp (sort_by str_cmp names) with
  | [] => $"(none)"
  | names => join $", " names
  end.

Definition target_unavailable_error (target : str) (tools : list DetectedTool) (reason : str) : Error :=
  Provider ($"invoke: target '" ++ target ++ $"' is " ++ reason ++ $"; available targets: " ++
            available_targets tools).

Definition resolve_target (target : str) (tools : list DetectedTool) : Result DetectedTool :=
  let normalized := to_ascii_lowercase target in
  match List.find (λ t, str_eqb (tool_name t) target || str_eqb (tool_name t) normalized) tools with
  | None => Err (target_unavailable_error target tools $"not detected")
  | Some tool =>
      if negb (tool_installed tool) then Err (target_unavailable_error target tools $"not installed")
      else if negb (tool_enabled tool) then Err (target_unavailable_error target tools $"disabled")
      else Ok tool
  end.

Definition auto_mode_for (tool : DetectedTool) : Mode :=
  let cheap_cli := match tool_cost_class tool with LocalFree | SubscriptionFlat => true | _ => false end in
  if cheap_cli && has_mode tool IMCli && is_some (tool_cli_invocation tool) then Cli else Api.

Definition select_mode (tool : DetectedTool) (requested : Mode) : Result Mode :=
  match requested with
  | Cli => if has_mode tool IMCli && is_some (tool_cli_invocation tool) then Ok Cli
           else Err (Provider ($"invoke: target '" ++ tool_name tool ++ $"' does not support CLI mode"))
  | Api => if has_mode tool IMApi then Ok Api
           else Err (Provider ($"invoke: target '" ++ tool_name tool ++ $"' does not support API mode"))
  | Auto => Ok (auto_mode_for tool)
  end.

(** ** Command lines *)

Fixpoint expand_template (parts : list str) (prompt : str) (model : option str) : Result (list str) :=
  match parts with
  | [] => Ok []
  | part :: rest =>
      if str_eqb part PROMPT_PLACEHOLDER then argv ← expand_template rest prompt model; Ok (prompt :: argv)
      else if str_eqb part MODEL_PLACEHOLDER then
        model' ← ok_or model (Provider $"invoke: CLI template requires --model");
        argv ← expand_template rest prompt model; Ok (model' :: argv)
      else if str_eqb part MODEL_ARGS_PLACEHOLDER then
        argv ← expand_template rest prompt model;
        Ok (match model with Some m => $"--model" :: m :: argv | None => argv end)
      else argv ← expand_template rest prompt model; Ok (part :: argv)
  end.

Definition template_to_argv (template prompt : str) (model : option str) : Result (list str) :=
  argv ← expand_template (split_whitespace template) prompt model;
  match argv with
  | [] => Err (Provider $"invoke: CLI invocation template is empty")
  | _ => Ok argv
  end.

Definition strict_claude_argv (model prompt : str) : list str :=
  [$"claude"; $"-p"; $"--model"; model; $"--output-format"; $"json"; $"--permission-mode";
   $"acceptEdits"; $"--permission-prompt-tool"; CLAUDE_PERMISSION_PROMPT_TOOL; prompt].

(** The value of an output format flag, when the command line has one. *)
Fixpoint output_format_flag (argv : list str) : option (option str) :=
  match argv with
  | [] => None
  | arg :: rest =>
      if str_eqb arg $"--output-format" then Some (head rest)
      else match strip_prefix $"--output-format=" arg with
           | Some format => Some (Some format)
           | None => output_format_flag rest
           end
  end.

Definition prepare_claude_json_output (target : str) (argv : list str) : bool * list str :=
  if negb (str_eqb target $"claude") then (false, argv)
  else match output_format_flag argv with
       | Some format => (match format with Some f => str_eqb f $"json" | None => false end, argv)
       | None => (true, take 1 argv ++ [$"--output-format"; $"json"] ++ drop 1 argv)
       end.

(** ** Cleaning the output *)

Inductive AnsiState := AnsiText | AnsiEscape | AnsiCsi | AnsiOsc (saw_escape : bool).

(** One character after ESC: it opens a sequence, is swallowed, or is text. *)
Fixpoint strip_ansi (st : AnsiState) (s : str) : str :=
  match s with
  | [] => []
  | c :: s' =>
      match st with
      | AnsiText => if c =? 27 then strip_ansi AnsiEscape s' else c :: strip_ansi AnsiText s'
      | AnsiEscape =>
          if c =? 91 then strip_ansi AnsiCsi s'
          else if c =? 93 then strip_ansi (AnsiOsc false) s'
          else if (64 <=? c) && (c <=? 95) then strip_ansi AnsiText s'
          else if c =? 27 then strip_ansi AnsiEscape s'
          else c :: strip_ansi AnsiText s'
      | AnsiCsi => if (64 <=? c) && (c <=? 126) then strip_ansi AnsiText s' else strip_ansi AnsiCsi s'
      | AnsiOsc saw =>
          if c =? 7 then strip_ansi AnsiText s'
          else if saw && (c =? 92) then strip_ansi AnsiText s'
          else strip_ansi (AnsiOsc (c =? 27)) s'
      end
  end.

Definition strip_ansi_escape_sequences (s : str) : str := strip_ansi AnsiText s.

Definition is_spinner_char (c : char) : bool :=
  is_whitespace c || existsb (N.eqb c) ASCII_SPINNER_CHARS || existsb (N.eqb c) BRAILLE_SPINNER_CHARS.

Definition is_spinner_only_frame (frame : str) : bool :=
  let trimmed := trim frame in
  negb (is_empty trimmed) && forallb is_spinner_char trimmed.

Definition push_non_spinner_frame (output frame : str) (add_line_break : bool) : str :=
  if is_spinner_only_frame frame then output
  else output ++ frame ++ (if add_line_break then [ch_nl] else []).

Fixpoint sanitize_loop (s output frame : str) (previous_was_cr : bool) : str :=
  match s with
  | [] => push_non_spinner_frame output frame false
  | c :: s' =>
      if c =? ch_cr then sanitize_loop s' (push_non_spinner_frame output frame true) [] true
      else if c =? ch_nl then
        if previous_was_cr then sanitize_loop s' output frame false
        else sanitize_loop s' (push_non_spinner_frame output frame false ++ [ch_nl]) [] false
      else sanitize_loop s' output (frame ++ [c]) false
  end.

Definition sanitize_cli_output (input : str) : str :=
  trim (sanitize_loop (strip_ansi_escape_sequences input) [] [] false).

(** ** Running the process *)

Fixpoint read_pipe_loop (cap : nat) (retained : list byte) (truncated : bool)
    (chunks : list (list byte)) : list byte * bool :=
  match chunks with
  | [] => (retained, truncated)
  | chunk :: rest =>
      let keep := Nat.min (cap - length retained) (length chunk) in
      read_pipe_loop cap (retained ++ take keep chunk)
        (truncated || Nat.ltb keep (length chunk)) rest
  end.

(** The chunks the pipe delivers before end of file. *)
Definition read_pipe (chunks : list (list byte)) : list byte :=
  let '(retained, truncated) := read_pipe_loop MAX_CLI_PIPE_BYTES [] false chunks in
  if truncated then retained ++ CLI_TRUNCATION_MARKER else retained.

Inductive PipeAnswer :=
| PipeData (chunks : list (list byte))
| PipeError (e : Error).

Definition join_reader (p : PipeAnswer) : Result (list byte) :=
  match p with PipeData chunks => Ok (read_pipe chunks) | PipeError e => Err e end.

(** What the operating system answers for one child process. *)
Inductive CliAnswer :=
| CliRefused (e : Error)               (* preparing the strict command failed *)
| CliSpawnFailed (err : str)
| CliTimedOut
| CliWaitFailed (err : str)
| CliExited (stdout stderr : PipeAnswer) (code : option Z).

Definition run_cli_argv (argv : list str) (timeout : N) (answer : CliAnswer) :
    Result (str * option Z) :=
  match argv with
  | [] => Err (Provider $"invoke: cannot spawn an empty CLI invocation")
  | program :: _ =>
      match answer with
      | CliRefused e => Err e
      | CliSpawnFailed err => Err (Provider ($"invoke: spawn '" ++ program ++ $"': " ++ err))
      | CliTimedOut =>
          Err (Provider ($"invoke: command '" ++ program ++ $"' timed out after " ++
                         show_N (timeout / 1000000000) ++ $"s"))
      | CliWaitFailed err => Err (Provider ($"invoke: wait failed: " ++ err))
      | CliExited stdout stderr code =>
          stdout ← join_reader stdout;
          stderr ← join_reader stderr;
          Ok (sanitize_cli_output (from_utf8_lossy stdout ++ from_utf8_lossy stderr), code)
      end
  end.

(** The environment a child is given beside the inherited one. *)
Definition child_environment (provenance : option InvocationContext) (tool_name : str)
    (model : option str) : list (str * str) :=
  match provenance with
  | None => []
  | Some p =>
      let opt k (v : option str) := match v with Some v => [(k, v)] | None => [] end in
      ($"RTRT_INVOCATION_ID", ic_invocation_id p) ::
      opt $"RTRT_PARENT_PROJECT" (ic_parent_project p) ++
      opt $"RTRT_PARENT_SESSION_ID" (ic_parent_session_id p) ++
      opt $"RTRT_PARENT_CALL_ID" (ic_parent_call_id p) ++
      opt $"RTRT_PARENT_AGENT" (ic_caller_agent p) ++
      opt $"RTRT_PARENT_CWD" (ic_parent_cwd p) ++
      opt $"RTRT_PARENT_WORKTREE" (ic_parent_worktree p) ++
      ($"RTRT_CHILD_TARGET", tool_name) ::
      opt $"RTRT_CHILD_MODEL" model
  end.

Definition show_Z (z : Z) : str := if (z <? 0)%Z then 45 :: show_N (Z.abs_N z) else show_N (Z.abs_N z).

Definition cli_exit_error (program : str) (exit_code : option Z) (output : str) : Error :=
  let status := match exit_code with
                | Some code => $"exited with status " ++ show_Z code
                | None => $"terminated by signal"
                end in
  let output := sanitize_cli_output output in
  let detail := if is_empty output then [] else $": " ++ output in
  Provider ($"invoke: command '" ++ program ++ $"' " ++ status ++ detail).

(** ** One invocation *)

(** A row handed to the ledger. *)
Record LedgerCall := mkCall {
  lc_target : str;
  lc_model : str;
  lc_input : N;
  lc_output : N;
  lc_estimated : bool;
  lc_ok : bool;
}.

Definition record_cli (target model prompt output : str) (ok : bool) : LedgerCall :=
  mkCall target model (estimate_tokens prompt) (estimate_tokens output) true ok.

Section Agent.
Context {Json : Type} (json_parse : str → option Json).
Context (json_result : Json → option str) (json_cost : Json → option f64).

Definition parse_claude_output (output : str) (parse_json : bool) : str * option f64 :=
  if negb parse_json then (output, None)
  else match json_parse output with
       | None => (output, None)
       | Some value =>
           match json_result value with
           | None => (output, None)
           | Some result =>
               (result, cost ← json_cost value;
                        if f64_is_finite cost && f64_le f64_zero cost then Some cost else None)
           end
       end.

(** What the invocation meets outside: the detected tools, the child process for
    a command line, the gateway, and the configuration. *)
Record AgentEnv := mkAgentEnv {
  ae_tools : list DetectedTool;
  ae_cli : list str → CliAnswer;
  ae_chat : ChatRequest → Result ChatResponse;
  ae_api_max_tokens : N;
  ae_elapsed_ms : N;
}.

Definition invoke_cli (env : AgentEnv) (tool : DetectedTool) (prompt : str) (model : option str)
    (timeout : N) : Result (str * option Z * option f64) * list LedgerCall :=
  let ledger_model := default [] model in
  let failed := record_cli (tool_name tool) ledger_model prompt [] false in
  match tool_cli_invocation tool with
  | None => (Err (Provider ($"invoke: target '" ++ tool_name tool ++ $"' has no CLI invocation")), [failed])
  | Some template =>
      match template_to_argv template prompt model with
      | Err err => (Err err, [failed])
      | Ok argv =>
          let strict :=
            if str_eqb (tool_name tool) $"claude" then
              model ← ok_or model (Provider $"invoke: strict Claude CLI requires --model opus|sonnet");
              Ok (strict_claude_argv model prompt)
            else Ok argv in
          match strict with
          | Err err => (Err err, [])
          | Ok argv =>
              let '(parse_json, argv) := prepare_claude_json_output (tool_name tool) argv in
              match run_cli_argv argv timeout (ae_cli env argv) with
              | Ok (output, Some 0%Z) =>
                  let '(output, cost_usd) := parse_claude_output output parse_json in
                  (Ok (output, Some 0%Z, cost_usd),
                   [record_cli (tool_name tool) ledger_model prompt output true])
              | Ok (output, exit_code) =>
                  (Err (cli_exit_error (default [] (head argv)) exit_code output),
                   [record_cli (tool_name tool) ledger_model prompt output false])
              | Err err => (Err err, [failed])
              end
          end
      end
  end.

Definition invoke_api (env : AgentEnv) (tool : DetectedTool) (prompt : str) (model : option str) :
    Result (str * option Z * option f64) * list LedgerCall :=
  match model with
  | None =>
      (Err (Provider ($"invoke: target '" ++ tool_name tool ++ $"' API mode requires --model")),
       [record_cli (tool_name tool) [] prompt [] false])
  | Some model =>
      let req := mkRequest model [mkMessage User prompt] (Some (ae_api_max_tokens env)) None in
      match ae_chat env req with
      | Ok resp =>
          (Ok (resp_content resp, None, None),
           [mkCall (tool_name tool) model (u_input_tokens (resp_usage resp))
              (u_output_tokens (resp_usage resp)) false true])
      | Err err => (Err err, [record_cli (tool_name tool) model prompt [] false])
      end
  end.

Definition invoke_agent (env : AgentEnv) (target prompt : str) (opts : InvokeOptions) :
    Result InvokeOutcome * list LedgerCall :=
  match resolve_target target (ae_tools env) with
  | Err e => (Err e, [])
  | Ok tool =>
      match select_mode tool (default Auto (io_mode opts)) with
      | Err e => (Err e, [])
      | Ok mode_used =>
          let model := match io_model opts with Some m => Some m | None => head (tool_models tool) end in
          let '(r, calls) :=
            match mode_used with
            | Cli => invoke_cli env tool prompt model (io_timeout opts)
            | Api => invoke_api env tool prompt model
            | Auto => (Err (Provider $"invoke: internal error: auto mode was not resolved"), [])
            end in
          (match r with
           | Ok (output, exit_code, cost_usd) =>
               Ok (mkOutcome (tool_name tool) mode_used model output cost_usd exit_code (ae_elapsed_ms env))
           | Err e => Err e
           end, calls)
      end
  end.
End Agent.

(** ** Specifications *)

Definition lane_of (c : RankedTarget) : str * option str := (rt_target c, rt_model c).
Definition attempt_lane (a : PolicyAttempt) : str * option str := (pa_target a, pa_model a).

Definition invokes (evs : list WalkEvent) : list RankedTarget :=
  omap (λ e, match e with EvInvoke c => Some c | EvSleep _ => None end) evs.
Definition sleeps (evs : list WalkEvent) : list N :=
  omap (λ e, match e with EvSleep d => Some d | EvInvoke _ => None end) evs.

(** How a walk over some lanes may end. *)
Inductive walk_end (targets : list RankedTarget) (o : PolicyOutcome) : Prop :=
| WalkServed c before after outcome :
    targets = before ++ c :: after → po_served o = Some outcome → po_halted o = None →
    is_empty (trim (oc_output outcome)) = false →
    map attempt_lane (po_attempts o) = map lane_of before →
    Forall (λ a, is_recoverable (pa_class a) = true) (po_attempts o) → walk_end targets o
| WalkHalted c before after a earlier :
    targets = before ++ c :: after → po_served o = None → po_halted o = Some a →
    pa_class a = Fatal → po_attempts o = earlier ++ [a] →
    map attempt_lane (po_attempts o) = map lane_of (before ++ [c]) →
    Forall (λ a, is_recoverable (pa_class a) = true) earlier → walk_end targets o
| WalkExhausted :
    po_served o = None → po_halted o = None →
    map attempt_lane (po_attempts o) = map lane_of targets →
    Forall (λ a, is_recoverable (pa_class a) = true) (po_attempts o) → walk_end targets o.

(** ** Lemmas *)

Lemma invokes_app e1 e2 : invokes (e1 ++ e2) = invokes e1 ++ invokes e2.
Proof. apply omap_app. Qed.
Lemma sleeps_app e1 e2 : sleeps (e1 ++ e2) = sleeps e1 ++ sleeps e2.
Proof. apply omap_app. Qed.

Section WalkLemmas.
Context {W : Type} (invoke : W → RankedTarget → str → N → Result InvokeOutcome * W).
Context (policy : FailurePolicy) (prompt : str) (timeout : N).

Lemma reject_blank_Ok r o :
  (r ≫= reject_blank_outcome) = Ok o → is_empty (trim (oc_output o)) = false.
Proof using.
  rewrite bind_Ok. intros (o' & _ & H). unfold reject_blank_outcome in H.
  case_match; [done|]. by injection H as <-.
Qed.

Lemma try_lane_spec left tries c w res evs w' :
  try_lane invoke policy prompt timeout left tries c w = (res, evs, w') →
  match res with
  | Served o => is_empty (trim (oc_output o)) = false
  | Failed a => attempt_lane a = lane_of c ∧ (pa_class a = Transient → length (sleeps evs) = left)
  end ∧
  (∃ n, invokes evs = replicate (S n) c ∧ sleeps evs = replicate n (backoff policy timeout) ∧ (n ≤ left)%nat).
Proof using.
  revert tries w res evs w'. induction left as [|left IH]; intros tries w res evs w'; cbn;
    destruct (invoke w c prompt timeout) as [r w1];
    destruct (r ≫= reject_blank_outcome) as [o|err] eqn:Er.
  - intros [= <- <- <-]. split; [by eapply reject_blank_Ok|]. by exists O.
  - intros [= <- <- <-]. split; [done|]. by exists O.
  - intros [= <- <- <-]. split; [by eapply reject_blank_Ok|]. exists O. split_and!; [done|done|lia].
  - destruct (classify policy err) eqn:Ec.
    + destruct (try_lane _ _ _ _ left (tries + 1) c w1) as [[res' evs'] w''] eqn:E.
      intros [= <- <- <-]. destruct (IH _ _ _ _ _ E) as (Hres & n & Hi & Hs & Hn). split.
      * destruct res' as [o|a]; [done|]. destruct Hres as [? Ht]. split; [done|].
        intros Hc. specialize (Ht Hc). unfold sleeps in *. cbn. by rewrite Ht.
      * exists (S n). unfold invokes, sleeps in *. cbn. rewrite Hi, Hs. split_and!; [done|done|lia].
    + intros [= <- <- <-]. split; [done|]. exists O. split_and!; [done|done|lia].
    + intros [= <- <- <-]. split; [done|]. exists O. split_and!; [done|done|lia].
Qed.

Lemma walk_lanes_spec targets attempts w o evs w' :
  walk_lanes invoke policy prompt timeout targets attempts w = (o, evs, w') →
  ∃ new, po_attempts o = attempts ++ new ∧
    walk_end targets (mkPolicyOutcome (po_served o) new (po_halted o)) ∧
    (length (invokes evs) ≤ length targets * S (N.to_nat (max_tries policy - 1)))%nat ∧
    (length (sleeps evs) ≤ length targets * N.to_nat (max_tries policy - 1))%nat ∧
    Forall (λ d, d = backoff policy timeout) (sleeps evs) ∧
    (∃ k, invokes evs = concat k ∧ length k ≤ length targets ∧
       Forall2 (λ l c, ∃ n, l = replicate (S n) c ∧ (n ≤ N.to_nat (max_tries policy - 1)))
         k (take (length k) targets))%nat.
Proof using.
  revert attempts w o evs w'. induction targets as [|c targets IH]; intros attempts w o evs w'; cbn -[N.to_nat].
  { intros [= <- <- <-]. exists []. rewrite app_nil_r. split_and!; try done; [by apply WalkExhausted|].
    exists []. by cbn. }
  destruct (try_lane _ _ _ _ _ 1 c w) as [[res evs1] w1] eqn:E1.
  destruct (try_lane_spec _ _ _ _ _ _ _ E1) as (Hres & n & Hi & Hs & Hn).
  assert (HF : Forall (λ d, d = backoff policy timeout) (sleeps evs1)).
  { rewrite Hs. by apply Forall_replicate. }
  assert (Hk : ∃ k, invokes evs1 = concat k ∧ (length k ≤ S (length targets))%nat ∧
       Forall2 (λ l c, ∃ n, l = replicate (S n) c ∧ (n ≤ N.to_nat (max_tries policy - 1))%nat)
         k (take (length k) (c :: targets))).
  { exists [replicate (S n) c]. rewrite Hi. cbn [concat]. rewrite app_nil_r. split_and!; [done|cbn; lia|].
    cbn. repeat constructor. by exists n. }
  assert (Hli : length (invokes evs1) = S n) by by rewrite Hi, length_replicate.
  assert (Hls : length (sleeps evs1) = n) by by rewrite Hs, length_replicate.
  destruct res as [outcome|a].
  { intros [= <- <- <-]. exists []. rewrite app_nil_r. split_and!; try done; [|nia|nia].
    by apply (WalkServed _ _ c [] targets outcome). }
  destruct Hres as [Hlane _].
  assert (Hmore : ∀ o evs2 w2, is_recoverable (pa_class a) = true →
    walk_lanes invoke policy prompt timeout targets (attempts ++ [a]) w1 = (o, evs2, w2) →
    ∃ new, po_attempts o = attempts ++ new ∧
    walk_end (c :: targets) (mkPolicyOutcome (po_served o) new (po_halted o)) ∧
    (length (invokes (evs1 ++ evs2)) ≤ S (length targets) * S (N.to_nat (max_tries policy - 1)))%nat ∧
    (length (sleeps (evs1 ++ evs2)) ≤ S (length targets) * N.to_nat (max_tries policy - 1))%nat ∧
    Forall (λ d, d = backoff policy timeout) (sleeps (evs1 ++ evs2)) ∧
    (∃ k, invokes (evs1 ++ evs2) = concat k ∧ length k ≤ S (length targets) ∧
       Forall2 (λ l c, ∃ n, l = replicate (S n) c ∧ (n ≤ N.to_nat (max_tries policy - 1)))
         k (take (length k) (c :: targets)))%nat).
  { intros o2 evs2 w2 Hrec E2. destruct (IH _ _ _ _ _ E2) as (new & Ha & Hend & H1 & H2 & H3 & k & Hk1 & Hk2 & Hk3).
    exists (a :: new). rewrite Ha, <-app_assoc. split; [done|]. split.
    - inversion Hend as [c' bef aft oc Et Es Eh Eb Em Ef|c' bef aft a' ear Et Es Eh Ec Ea Em Ef|Es Eh Em Ef];
        cbn in *.
      + apply (WalkServed _ _ c' (c :: bef) aft oc); cbn; try done; [by rewrite Et|by rewrite Hlane, Em|].
        by constructor.
      + apply (WalkHalted _ _ c' (c :: bef) aft a' (a :: ear)); cbn; try done;
          [by rewrite Et|by rewrite Ea|by rewrite Hlane, Em|by constructor].
      + apply WalkExhausted; cbn; try done; [by rewrite Hlane, Em|by constructor].
    - rewrite invokes_app, sleeps_app, !length_app, Hli, Hls. split_and!; [nia|nia|by apply Forall_app|].
      exists (replicate (S n) c :: k). cbn [concat length take]. rewrite Hi, Hk1.
      split_and!; [done|lia|]. constructor; [by exists n|done]. }
  destruct (pa_class a) eqn:Ec.
  - destruct (walk_lanes _ _ _ _ targets _ w1) as [[o2 evs2] w2] eqn:E2. intros [= <- <- <-].
    by eapply Hmore.
  - destruct (walk_lanes _ _ _ _ targets _ w1) as [[o2 evs2] w2] eqn:E2. intros [= <- <- <-].
    by eapply Hmore.
  - intros [= <- <- <-]. exists [a]. cbn [po_served po_halted po_attempts].
    split_and!; try done; [|nia|nia].
    apply (WalkHalted _ _ c [] targets a []); cbn; try done. by rewrite Hlane.
Qed.
End WalkLemmas.

(** *** Retries of one lane *)

Lemma try_lane_retried {W} (invoke : W → RankedTarget → str → N → Result InvokeOutcome * W)
    policy prompt timeout left tries c w a evs w' :
  try_lane invoke policy prompt timeout left tries c w = (Failed a, evs, w') →
  pa_retried a = (1 <? tries + N.of_nat (length (sleeps evs))).
Proof.
  revert tries w a evs w'. induction left as [|left IH]; intros tries w a evs w'; cbn;
    destruct (invoke w c prompt timeout) as [r w1];
    destruct (r ≫= reject_blank_outcome) as [o|err]; try done.
  - intros [= <- <- <-]. cbn. by rewrite N.add_0_r.
  - destruct (classify policy err); [|intros [= <- <- <-]; cbn; by rewrite N.add_0_r..].
    destruct (try_lane _ _ _ _ left (tries + 1) c w1) as [[res' evs'] w''] eqn:E.
    intros [= -> <- <-]. rewrite (IH _ _ _ _ _ E). unfold sleeps. cbn. f_equal. lia.
Qed.

(** *** Markers *)

Lemma existsb_elem {A} (p : A → bool) l : existsb p l = true ↔ ∃ x, x ∈ l ∧ p x = true.
Proof. rewrite existsb_exists. setoid_rewrite list_elem_of_In. done. Qed.

Lemma matches_any_spec markers text :
  matches_any markers text = true ↔ ∃ m, m ∈ markers ∧ contains text m = true.
Proof. apply existsb_elem. Qed.

(** *** Pipes *)

Lemma read_pipe_loop_spec cap retained truncated chunks :
  (length retained ≤ cap)%nat →
  read_pipe_loop cap retained truncated chunks =
  (take cap (retained ++ concat chunks),
   truncated || Nat.ltb cap (length (retained ++ concat chunks))).
Proof.
  revert retained truncated. induction chunks as [|chunk chunks IH]; intros retained truncated Hle;
    cbn -[Nat.ltb Nat.min].
  - rewrite app_nil_r, take_ge by done. f_equal.
    rewrite (proj2 (Nat.ltb_ge _ _)) by done. by rewrite orb_false_r.
  - set (keep := Nat.min (cap - length retained) (length chunk)).
    assert (Hlen : length (retained ++ take keep chunk) = (length retained + keep)%nat).
    { rewrite length_app, length_take. unfold keep. lia. }
    rewrite IH by (rewrite Hlen; unfold keep; lia).
    destruct (Nat.leb_spec (length chunk) (cap - length retained)) as [Hfit|Hbig].
    + unfold keep. rewrite Nat.min_r, (take_ge chunk) by lia. rewrite <-!app_assoc. f_equal.
      rewrite (proj2 (Nat.ltb_ge (length chunk) _)) by lia. by rewrite orb_false_r.
    + assert (Hk : keep = (cap - length retained)%nat) by (unfold keep; lia).
      rewrite (take_app_le (retained ++ take keep chunk)) by (rewrite Hlen; lia).
      rewrite (take_ge (retained ++ take keep chunk)) by (rewrite Hlen; lia).
      rewrite take_app, (take_ge retained) by done.
      rewrite (take_app_le chunk) by lia. rewrite Hk. f_equal.
      rewrite (proj2 (Nat.ltb_lt (cap - length retained) (length chunk))) by lia.
      rewrite orb_true_r. symmetry. apply orb_true_iff. right. apply Nat.ltb_lt.
      rewrite !length_app. lia.
Qed.

(** *** Cleaned output *)

(** Text with no escape and no carriage return. *)
Definition plain (s : str) : Prop := (27 ∉ s) ∧ (ch_cr ∉ s).

Lemma strip_ansi_no_escape st s : 27 ∉ strip_ansi st s.
Proof.
  revert st. induction s as [|c s IH]; intros st; cbn; [set_solver|].
  destruct st; repeat case_match; try apply IH;
    (rewrite not_elem_of_cons; split; [|apply IH]); by apply not_eq_sym, N.eqb_neq.
Qed.

Lemma strip_ansi_elem st s c : c ∈ strip_ansi st s → c ∈ s.
Proof.
  revert st. induction s as [|a s IH]; intros st; cbn; [done|].
  destruct st; repeat case_match; rewrite ?elem_of_cons; intros Hin; try (right; by eapply IH);
    destruct Hin as [->|Hin]; auto; right; by eapply IH.
Qed.

Lemma strip_ansi_fixed s : 27 ∉ s → strip_ansi_escape_sequences s = s.
Proof.
  unfold strip_ansi_escape_sequences. induction s as [|c s IH]; [done|]. cbn.
  rewrite not_elem_of_cons. intros [Hc Hs]. destruct (N.eqb_spec c 27); [congruence|].
  by rewrite IH.
Qed.

Lemma push_frame_elem out frame b c : c ∈ push_non_spinner_frame out frame b →
  c ∈ out ∨ c ∈ frame ∨ c = ch_nl.
Proof. unfold push_non_spinner_frame. repeat case_match; set_solver. Qed.

Lemma sanitize_loop_elem s out frame cr c :
  c ∈ sanitize_loop s out frame cr → c ∈ out ∨ c ∈ frame ∨ c = ch_nl ∨ (c ∈ s ∧ c ≠ ch_cr).
Proof.
  revert out frame cr. induction s as [|a s IH]; intros out frame cr; cbn.
  { intros H%push_frame_elem. naive_solver. }
  destruct (N.eqb_spec a ch_cr) as [->|Ha].
  { intros [H|[H|[H|H]]]%IH; [apply push_frame_elem in H| | |]; set_solver. }
  destruct (N.eqb_spec a ch_nl) as [->|Ha'].
  - destruct cr.
    + intros [H|[H|[H|H]]]%IH; set_solver.
    + intros [H|[H|[H|H]]]%IH; [|set_solver..].
      apply elem_of_app in H as [H%push_frame_elem|H]; set_solver.
  - intros [H|[H|[H|H]]]%IH; set_solver.
Qed.

Lemma sanitize_loop_plain s out frame cr :
  plain out → plain frame → (27 ∉ s) → plain (sanitize_loop s out frame cr).
Proof.
  intros [H1 H2] [H3 H4] H5. split; intros H%sanitize_loop_elem; unfold ch_nl, ch_cr in *; naive_solver.
Qed.

Lemma trim_elem c s : c ∈ trim s → c ∈ s.
Proof.
  unfold trim, trim_end, trim_end_matches, trim_start, trim_start_matches.
  intros H. rewrite list_elem_of_In, <-in_rev, <-list_elem_of_In in H.
  destruct (drop_while_suffix is_whitespace (rev (drop_while is_whitespace s))) as (l & E & _).
  assert (Hc : c ∈ rev (drop_while is_whitespace s)) by (rewrite E; set_solver).
  rewrite list_elem_of_In, <-in_rev, <-list_elem_of_In in Hc.
  destruct (drop_while_suffix is_whitespace s) as (l' & E' & _). rewrite E'. set_solver.
Qed.

(** No line of the text is a spinner frame. *)
Definition spinner_free (s : str) : Prop :=
  Forall (λ l, is_spinner_only_frame l = false) (split_char ch_nl s).

Lemma spinner_trim l1 l2 :
  trim l1 = trim l2 → is_spinner_only_frame l1 = is_spinner_only_frame l2.
Proof. unfold is_spinner_only_frame. by intros ->. Qed.

Lemma trim_cons_ws c s : is_whitespace c = true → trim (c :: s) = trim s.
Proof. intros Hc. unfold trim, trim_start, trim_start_matches. cbn [drop_while]. by rewrite Hc. Qed.

Lemma drop_while_snoc p s c :
  drop_while p (s ++ [c]) =
  if forallb p s then (if p c then [] else [c]) else drop_while p s ++ [c].
Proof. induction s as [|a s IH]; cbn; [done|]. destruct (p a); cbn; [apply IH|done]. Qed.

Lemma drop_while_forallb p s : forallb p s = true → drop_while p s = [].
Proof. induction s as [|a s IH]; cbn; [done|]. by destruct (p a). Qed.

Lemma trim_snoc_ws c s : is_whitespace c = true → trim (s ++ [c]) = trim s.
Proof.
  intros Hc. unfold trim, trim_start, trim_start_matches. rewrite drop_while_snoc, Hc.
  destruct (forallb is_whitespace s) eqn:E; [by rewrite drop_while_forallb|].
  unfold trim_end, trim_end_matches. rewrite rev_app_distr. cbn [rev app drop_while]. by rewrite Hc.
Qed.

Lemma spinner_free_cons_ws c s : is_whitespace c = true → spinner_free (c :: s) → spinner_free s.
Proof.
  unfold spinner_free. intros Hc. cbn. destruct (c =? ch_nl); [by inversion 1|].
  destruct (split_char ch_nl s) as [|w ws] eqn:E; [by destruct (split_char_nonempty ch_nl s)|].
  inversion 1 as [|?? Hw Hws]; subst. constructor; [|done].
  by rewrite <-Hw; apply spinner_trim; rewrite trim_cons_ws.
Qed.

Lemma split_char_snoc c s :
  split_char ch_nl (s ++ [c]) =
  if c =? ch_nl then split_char ch_nl s ++ [[]]
  else match rev (split_char ch_nl s) with
       | w :: ws => rev ws ++ [w ++ [c]]
       | [] => [[c]]
       end.
Proof.
  induction s as [|a s IH]; cbn; [by destruct (c =? ch_nl)|]. rewrite IH.
  pose proof (split_char_nonempty ch_nl s) as Hne.
  destruct (split_char ch_nl s) as [|w ws _] eqn:E using rev_ind; [done|]. clear IH Hne.
  rewrite rev_app_distr. cbn [rev app]. rewrite rev_involutive.
  destruct (a =? ch_nl), (c =? ch_nl); try done.
  - cbn. by rewrite rev_app_distr; cbn; rewrite rev_app_distr; cbn; rewrite rev_involutive.
  - by destruct ws.
  - destruct ws as [|v ws]; [done|]. cbn. rewrite !rev_app_distr. cbn.
    by rewrite rev_app_distr, rev_involutive.
Qed.

Lemma spinner_free_snoc_ws c s : is_whitespace c = true → spinner_free (s ++ [c]) → spinner_free s.
Proof.
  unfold spinner_free. intros Hc. rewrite split_char_snoc. destruct (c =? ch_nl).
  { by intros [H _]%Forall_app. }
  pose proof (split_char_nonempty ch_nl s) as Hne.
  destruct (split_char ch_nl s) as [|w ws _] using rev_ind; [done|]. rewrite rev_app_distr. cbn.
  rewrite rev_involutive, !Forall_app, !Forall_singleton. intros [Hws Hw]. split; [done|].
  by rewrite <-Hw; apply spinner_trim; rewrite trim_snoc_ws.
Qed.

Lemma spinner_free_trim s : spinner_free s → spinner_free (trim s).
Proof.
  intros Hs. unfold trim, trim_end, trim_end_matches.
  assert (H1 : spinner_free (trim_start s)).
  { unfold trim_start, trim_start_matches. induction s as [|c s IH]; cbn; [done|].
    destruct (is_whitespace c) eqn:Ec; [|done]. apply IH. by eapply spinner_free_cons_ws. }
  generalize dependent (trim_start s). intros t Ht.
  induction t as [|c t IH] using rev_ind; [done|]. rewrite rev_app_distr. cbn.
  destruct (is_whitespace c) eqn:Ec; [|by cbn; rewrite rev_involutive].
  apply IH. by eapply spinner_free_snoc_ws.
Qed.

(** What the loop has pushed so far: whole lines that are no spinner frames. *)
Lemma split_unlines ls w :
  Forall (λ l, ch_nl ∉ l) ls → ch_nl ∉ w → split_char ch_nl (unlines ls ++ w) = ls ++ [w].
Proof.
  intros Hls Hw. induction Hls as [|l ls Hl _ IH]; [by apply split_char_free|].
  rewrite unlines_cons, <-app_assoc. cbn. by rewrite split_char_app, IH.
Qed.

Lemma sanitize_loop_spinner_free s ls frame cr :
  Forall (λ l, (ch_nl ∉ l) ∧ is_spinner_only_frame l = false) ls → ch_nl ∉ frame →
  spinner_free (sanitize_loop s (unlines ls) frame cr).
Proof.
  revert ls frame cr. induction s as [|c s IH]; intros ls frame cr Hls Hf; cbn.
  - assert (Hnl : Forall (λ l, ch_nl ∉ l) ls) by (apply (Forall_impl _ _ _ Hls); by intros l [? _]).
    assert (Hsp : Forall (λ l, is_spinner_only_frame l = false) ls)
      by (apply (Forall_impl _ _ _ Hls); by intros l [_ ?]).
    unfold push_non_spinner_frame, spinner_free. destruct (is_spinner_only_frame frame) eqn:E.
    + rewrite <-(app_nil_r (unlines ls)), split_unlines by (done || set_solver).
      apply Forall_app. split; [done|]. by repeat constructor.
    + rewrite app_nil_r, split_unlines by done. apply Forall_app. split; [done|]. by repeat constructor.
  - assert (Hpush : ∀ b, ∃ ls', push_non_spinner_frame (unlines ls) frame true = unlines ls' ∧
      (if b : bool then True else push_non_spinner_frame (unlines ls) frame false ++ [ch_nl] =
        unlines (ls ++ [if is_spinner_only_frame frame then [] else frame])) ∧
      Forall (λ l, (ch_nl ∉ l) ∧ is_spinner_only_frame l = false) ls').
    { intros b. unfold push_non_spinner_frame. destruct (is_spinner_only_frame frame) eqn:E.
      - exists ls. split_and!; [done| |done]. destruct b; [done|]. by rewrite unlines_app.
      - assert (E' : unlines (ls ++ [frame]) = unlines ls ++ frame ++ [ch_nl]).
        { rewrite unlines_app. unfold unlines at 2. cbn. by rewrite app_nil_r. }
        exists (ls ++ [frame]). split_and!; [by rewrite E'| |].
        + destruct b; [done|]. by rewrite E', app_nil_r, <-app_assoc.
        + apply Forall_app. split; [done|]. by repeat constructor. }
    destruct (c =? ch_cr) eqn:Ecr.
    { destruct (Hpush true) as (ls' & -> & _ & H'). apply IH; [done|set_solver]. }
    destruct (N.eqb_spec c ch_nl) as [->|Hc].
    + destruct cr; [by apply IH|]. destruct (Hpush false) as (_ & _ & -> & _).
      apply IH; [|set_solver]. apply Forall_app. split; [done|]. repeat constructor.
      * destruct (is_spinner_only_frame frame); [set_solver|done].
      * by destruct (is_spinner_only_frame frame) eqn:E.
    + apply IH; [done|]. set_solver.
Qed.

Lemma sanitize_loop_fixed s out frame :
  (ch_cr ∉ s) → (ch_nl ∉ frame) → spinner_free (frame ++ s) →
  sanitize_loop s out frame false = out ++ frame ++ s.
Proof.
  revert out frame. induction s as [|c s IH]; intros out frame Hcr Hf Hsp; cbn.
  - rewrite app_nil_r in *. unfold spinner_free in Hsp. rewrite split_char_free in Hsp by done.
    rewrite Forall_singleton in Hsp. unfold push_non_spinner_frame. rewrite Hsp. by rewrite app_nil_r.
  - destruct (N.eqb_spec c ch_cr) as [->|_]; [set_solver|].
    destruct (N.eqb_spec c ch_nl) as [->|Hc].
    + unfold spinner_free in Hsp. rewrite split_char_app in Hsp by done. inversion Hsp; subst.
      rewrite IH; [|set_solver..|done]. unfold push_non_spinner_frame.
      destruct (is_spinner_only_frame frame); [done|]. by rewrite app_nil_r, <-!app_assoc.
    + rewrite IH; [by rewrite <-!app_assoc|set_solver..|by rewrite <-app_assoc].
Qed.

(** ** Properties *)

(** C31: the failover walk ends in exactly one of three ways.  Either a lane serves
    the request with output that is not blank, every lane before it having failed
    recoverably; or a fatal failure halts the walk at its lane, which is reported
    and is the last attempt; or every lane was tried and failed recoverably.  The
    attempts name the lanes in order, none skipped, none repeated. *)
Theorem walk_with_policy_ends {W} (invoke : W → RankedTarget → str → N → Result InvokeOutcome * W)
    policy prompt timeout targets w :
  targets ≠ [] →
  ∃ o evs w', walk_with_policy invoke policy prompt timeout targets w = (Ok o, evs, w') ∧
    walk_end targets o.
Proof.
  intros Hne. unfold walk_with_policy. destruct targets as [|c targets]; [done|].
  destruct (walk_lanes _ _ _ _ (c :: targets) [] w) as [[o evs] w'] eqn:E.
  destruct (walk_lanes_spec _ _ _ _ _ _ _ _ _ _ E) as (new & Ha & Hend & _).
  exists o, evs, w'. split; [done|]. cbn in Ha. subst new. by destruct o.
Qed.

(** The walk is bounded and never revisits a lane: its invocations are, lane by
    lane in order, at most the configured retries plus one of the same lane, and
    every pause is the policy's backoff. *)
Theorem walk_with_policy_bounded {W} (invoke : W → RankedTarget → str → N → Result InvokeOutcome * W)
    policy prompt timeout targets w r evs w' :
  walk_with_policy invoke policy prompt timeout targets w = (r, evs, w') →
  let retries := N.to_nat (max_tries policy - 1) in
  (length (invokes evs) ≤ length targets * S retries)%nat ∧
  (length (sleeps evs) ≤ length targets * retries)%nat ∧
  Forall (λ d, d = backoff policy timeout) (sleeps evs) ∧
  ∃ lanes, invokes evs = concat lanes ∧ (length lanes ≤ length targets)%nat ∧
    Forall2 (λ l c, ∃ n, l = replicate (S n) c ∧ (n ≤ retries)%nat)
      lanes (take (length lanes) targets).
Proof.
  unfold walk_with_policy. destruct targets as [|c targets].
  { intros [= <- <- <-]. cbn. split_and!; [lia|lia|done|]. by exists []. }
  destruct (walk_lanes _ _ _ _ (c :: targets) [] w) as [[o evs'] w''] eqn:E. intros [= <- <- <-].
  destruct (walk_lanes_spec _ _ _ _ _ _ _ _ _ _ E) as (new & _ & _ & H1 & H2 & H3 & H4). done.
Qed.

(** Retries are spent on transient failures only: a lane whose first failure is
    a quota or fatal one is left after a single invocation and no pause; a lane
    given up on a transient failure has used every retry; and the audit record
    says whether it was retried. *)
Theorem lane_retry_policy {W} (invoke : W → RankedTarget → str → N → Result InvokeOutcome * W)
    policy prompt timeout c w a evs w' :
  let left := N.to_nat (max_tries policy - 1) in
  try_lane invoke policy prompt timeout left 1 c w = (Failed a, evs, w') →
  attempt_lane a = lane_of c ∧
  (∀ err, (invoke w c prompt timeout).1 = Err err → classify policy err ≠ Transient →
     evs = [EvInvoke c] ∧ pa_class a = classify policy err) ∧
  (pa_class a = Transient → length (sleeps evs) = left) ∧
  (pa_retried a = true ↔ sleeps evs ≠ []).
Proof.
  cbv zeta. intros E. destruct (try_lane_spec _ _ _ _ _ _ _ _ _ _ _ E) as ([Hl Ht] & _).
  pose proof (try_lane_retried _ _ _ _ _ _ _ _ _ _ _ E) as Hr.
  split_and!; [done| |done|].
  - intros err Herr Hc. destruct (N.to_nat (max_tries policy - 1)) as [|left]; cbn in E;
      destruct (invoke w c prompt timeout) as [r w1]; cbn in Herr; subst r; cbn in E;
      [by injection E as <- <- <-|].
    destruct (classify policy err) eqn:Ec; [done|..]; by injection E as <- <- <-.
  - rewrite Hr, N.ltb_lt. destruct (sleeps evs); cbn; split; try done; lia.
Qed.

(** Classification precedence: a user's fatal, quota and transient markers win
    in that order and so reclassify built-in ones; without a user match the
    built-in tables decide, fatal first; an unknown provider message is fatal; a
    local error is transient; letter case never matters. *)
Theorem classify_precedence p m :
  let text := to_ascii_lowercase m in
  let user ms := ∃ k, k ∈ ms ∧ contains text k = true in
  (user (fp_fatal p) → classify p (Provider m) = Fatal) ∧
  (¬ user (fp_fatal p) → user (fp_quota p) → classify p (Provider m) = QuotaClass) ∧
  (¬ user (fp_fatal p) → ¬ user (fp_quota p) → user (fp_transient p) →
     classify p (Provider m) = Transient) ∧
  (¬ user (fp_fatal p) → ¬ user (fp_quota p) → ¬ user (fp_transient p) →
     classify p (Provider m) = classify builtin (Provider m)) ∧
  (user FATAL_MARKERS → text ≠ EMPTY_COMPLETION_ERROR → classify builtin (Provider m) = Fatal) ∧
  (¬ user FATAL_MARKERS → user QUOTA_MARKERS → text ≠ EMPTY_COMPLETION_ERROR →
     classify builtin (Provider m) = QuotaClass) ∧
  (¬ user FATAL_MARKERS → ¬ user QUOTA_MARKERS → ¬ user TRANSIENT_MARKERS →
     contains_server_status text = false → text ≠ EMPTY_COMPLETION_ERROR →
     classify builtin (Provider m) = Fatal) ∧
  classify p (Provider text) = classify p (Provider m) ∧
  (∀ e, match e with Provider _ => True | _ => classify p e = Transient end).
Proof.
  cbv zeta. set (text := to_ascii_lowercase m).
  assert (Hu : ∀ ms, (∃ k, k ∈ ms ∧ contains text k = true) ↔ matches_any ms text = true).
  { intros ms. symmetry. apply matches_any_spec. }
  rewrite !Hu. unfold classify. cbn [fp_fatal fp_quota fp_transient builtin]. fold text.
  assert (Ht : to_ascii_lowercase text = text) by apply to_ascii_lowercase_idem. rewrite Ht.
  assert (He : text ≠ EMPTY_COMPLETION_ERROR → str_eqb text EMPTY_COMPLETION_ERROR = false).
  { intros H. by apply bool_decide_eq_false. }
  rewrite !not_true_iff_false. cbn [matches_any existsb]. split_and!.
  - by intros ->.
  - by intros -> ->.
  - by intros -> -> ->.
  - by intros -> -> ->.
  - intros Hf ->%He. by rewrite Hf.
  - intros Hf Hq ->%He. by rewrite Hf, Hq.
  - intros Hf Hq Htr Hs ->%He. by rewrite Hf, Hq, Htr, Hs.
  - done.
  - by intros [].
Qed.

(** The pause before a retry is the configured one when there is one, and
    otherwise at least one 25 ms poll tick, at most the default budget's share (or
    that tick when the share is smaller), and grows with the caller's timeout. *)
Theorem backoff_bounds p timeout timeout' :
  match fp_backoff p with
  | Some fixed => backoff p timeout = fixed
  | None =>
      25000000 ≤ backoff p timeout ≤
        N.max (120000000000 / N.max (default 60 (fp_backoff_divisor p)) 1) 25000000 ∧
      (timeout ≤ timeout' → backoff p timeout ≤ backoff p timeout')
  end.
Proof.
  unfold backoff. destruct (fp_backoff p); [done|].
  unfold DEFAULT_BACKOFF_DIVISOR, DEFAULT_TIMEOUT_SECS, CHILD_WAIT_POLL_INTERVAL.
  set (d := N.max (default 60 (fp_backoff_divisor p)) 1).
  change (120 * 1000000000) with 120000000000. change (25 * 1000000) with 25000000.
  split.
  - divmod_atoms. lia.
  - intros Hle. pose proof (N.Div0.div_le_mono timeout timeout' d Hle). divmod_atoms. lia.
Qed.

(** A prompt is one argument and is never re-split: the command line is made of
    the template's words, with the prompt verbatim exactly where the template says
    [{prompt}], whatever characters it holds. *)
Theorem prompt_is_one_argument template prompt model argv :
  template_to_argv template prompt model = Ok argv →
  argv ≠ [] ∧
  argv = concat (map (λ part,
    if str_eqb part PROMPT_PLACEHOLDER then [prompt]
    else if str_eqb part MODEL_PLACEHOLDER then option_list model
    else if str_eqb part MODEL_ARGS_PLACEHOLDER
         then match model with Some m => [$"--model"; m] | None => [] end
    else [part]) (split_whitespace template)).
Proof.
  unfold template_to_argv. rewrite bind_Ok. intros (argv' & E & H).
  assert (argv' ≠ [] ∧ argv' = argv) as [Hne ->] by (destruct argv'; naive_solver).
  split; [done|]. clear H Hne. revert argv E.
  induction (split_whitespace template) as [|part parts IH]; intros argv E; cbn in *; [by injection E as <-|].
  destruct (str_eqb part PROMPT_PLACEHOLDER).
  { apply bind_Ok in E as (a & Ha & [= <-]). cbn. f_equal. by apply IH. }
  destruct (str_eqb part MODEL_PLACEHOLDER).
  { destruct model as [m|]; [|done]. cbn in E.
    apply bind_Ok in E as (a & Ha & [= <-]). cbn. f_equal. by apply IH. }
  destruct (str_eqb part MODEL_ARGS_PLACEHOLDER);
    apply bind_Ok in E as (a & Ha & [= <-]); rewrite (IH a Ha); by destruct model.
Qed.

(** A pipe is drained in bounded memory and the result does not depend on how
    the bytes arrived: up to 8 MiB the output is kept whole, beyond that its first
    8 MiB are kept and the truncation is marked. *)
Theorem read_pipe_bounded chunks :
  let bytes := concat chunks in
  read_pipe chunks =
    (if Nat.ltb MAX_CLI_PIPE_BYTES (length bytes)
     then take MAX_CLI_PIPE_BYTES bytes ++ CLI_TRUNCATION_MARKER else bytes) ∧
  (length (read_pipe chunks) ≤ MAX_CLI_PIPE_BYTES + length CLI_TRUNCATION_MARKER)%nat.
Proof.
  cbv zeta. unfold read_pipe. generalize MAX_CLI_PIPE_BYTES as cap. intros cap.
  rewrite read_pipe_loop_spec by (cbn; lia). cbn [app orb].
  destruct (Nat.ltb_spec cap (length (concat chunks))) as [Hlt|Hge].
  - split; [done|]. rewrite length_app, length_take. lia.
  - rewrite take_ge by done. split; [done|]. lia.
Qed.

(** Cleaned output is clean and stays so: it holds no escape and no carriage
    return, has no surrounding white space and no line that is only a spinner
    frame, invents no character, and cleaning it again changes nothing. *)
Theorem sanitize_cli_output_clean s :
  let out := sanitize_cli_output s in
  plain out ∧ trim out = out ∧ spinner_free out ∧
  (∀ c, c ∈ out → c ∈ s ∨ c = ch_nl) ∧ sanitize_cli_output out = out.
Proof.
  cbv zeta. set (out := sanitize_cli_output s).
  assert (Hp : plain out).
  { assert (H : plain (sanitize_loop (strip_ansi_escape_sequences s) [] [] false)).
    { apply sanitize_loop_plain; [by split; apply not_elem_of_nil..|apply strip_ansi_no_escape]. }
    destruct H as [H1 H2]. split; intros H%trim_elem; done. }
  assert (Hs : spinner_free out).
  { apply spinner_free_trim, (sanitize_loop_spinner_free _ [] [] false); [constructor|].
    apply not_elem_of_nil. }
  assert (Ht : trim out = out) by apply trim_idem.
  split_and!; [done..| |].
  - intros c H%trim_elem. apply sanitize_loop_elem in H as [H|[H|[H|[H _]]]]; [set_solver..|auto|].
    left. by eapply strip_ansi_elem.
  - unfold sanitize_cli_output. destruct Hp as [He Hc].
    rewrite strip_ansi_fixed, sanitize_loop_fixed by (done || apply not_elem_of_nil). done.
Qed.

(** The ledger sees every dispatched invocation once: whatever the outcome, one
    row is recorded, flagged ok exactly when the caller gets an answer and charged
    to the resolved tool; the only unrecorded failure past target and mode
    resolution is the strict Claude command line without a model. *)
Theorem invoke_agent_recorded {Json} parse result cost env target prompt opts r calls :
  invoke_agent (Json:=Json) parse result cost env target prompt opts = (r, calls) →
  match resolve_target target (ae_tools env) with
  | Err e => r = Err e ∧ calls = []
  | Ok tool =>
      match select_mode tool (default Auto (io_mode opts)) with
      | Err e => r = Err e ∧ calls = []
      | Ok mode =>
          (calls = [] ∧ is_ok r = false ∧ mode = Cli ∧ tool_name tool = $"claude" ∧
             io_model opts = None ∧ tool_models tool = []) ∨
          (∃ call, calls = [call] ∧ lc_target call = tool_name tool ∧ lc_ok call = is_ok r)
      end
  end.
Proof.
  unfold invoke_agent. destruct (resolve_target target (ae_tools env)) as [tool|e]; [|by intros [= <- <-]].
  destruct (select_mode tool (default Auto (io_mode opts))) as [mode|e] eqn:Em; [|by intros [= <- <-]].
  set (model := match io_model opts with Some m => Some m | None => head (tool_models tool) end).
  assert (Hauto : mode ≠ Auto).
  { intros ->. destruct (default Auto (io_mode opts)); cbn in Em.
    - by case_match. - by case_match. - injection Em as Em. unfold auto_mode_for in Em. by case_match. }
  destruct mode; [| |done]; clear Hauto.
  - unfold invoke_cli. destruct (tool_cli_invocation tool) as [template|];
      [|intros [= <- <-]; right; by eexists].
    destruct (template_to_argv template prompt model) as [argv|err];
      [|intros [= <- <-]; right; by eexists].
    destruct (str_eqb (tool_name tool) $"claude") eqn:Ec.
    + apply bool_decide_eq_true in Ec. destruct model as [m|] eqn:Emod; cbn [ok_or mbind Result_bind].
      * destruct (prepare_claude_json_output _ _) as [pj argv'].
        destruct (run_cli_argv argv' _ _) as [[out [[| |]|]]|err];
          [destruct (parse_claude_output _ _ _ _ _)|..]; intros [= <- <-]; right; by eexists.
      * intros [= <- <-]. left. subst model. split_and!; try done.
        -- by destruct (io_model opts).
        -- by destruct (io_model opts), (tool_models tool).
    + destruct (prepare_claude_json_output _ _) as [pj argv'].
      destruct (run_cli_argv argv' _ _) as [[out [[| |]|]]|err];
        [destruct (parse_claude_output _ _ _ _ _)|..]; intros [= <- <-]; right; by eexists.
  - unfold invoke_api. destruct model as [m|]; [|intros [= <- <-]; right; by eexists].
    destruct (ae_chat env _) as [resp|err]; intros [= <- <-]; right; by eexists.
Qed.

(** A Claude target that lists no model and is given none fails without a ledger
    row, although every failure past dispatch is meant to be recorded. *)
Definition claude_tool : DetectedTool :=
  mkTool $"claude" CodingAgent true None None [IMCli] (Some $"claude -p {prompt}") SubscriptionFlat
    [Code] None [] None true.
Definition claude_env : AgentEnv :=
  mkAgentEnv [claude_tool] (λ _, CliTimedOut) (λ _, Err (Provider [])) 4096 0.

Lemma strict_claude_unrecorded :
  invoke_agent (Json:=unit) (λ _, None) (λ _, None) (λ _, None) claude_env $"claude" $"hi"
    (mkOptions None None 1000000000 None) =
  (Err (Provider $"invoke: strict Claude CLI requires --model opus|sonnet"), []).
Proof. vm_compute. reflexivity. Qed.

(** ** Witnesses *)

(** An invoker whose world is the list of answers still to give. *)
Definition scripted (w : list (Result InvokeOutcome)) (c : RankedTarget) (prompt : str) (timeout : N) :
    Result InvokeOutcome * list (Result InvokeOutcome) :=
  match w with
  | r :: w' => (r, w')
  | [] => (Err (Provider $"401 unauthorized"), [])
  end.

Definition lane (name : str) : RankedTarget := mkRanked name Cli None SubscriptionFlat.
Definition ok_outcome : InvokeOutcome := mkOutcome $"codex" Cli None $"done" None (Some 0%Z) 5.
Definition script : list (Result InvokeOutcome) :=
  [Err (Provider $"timed out"); Err (Provider $"timed out"); Ok ok_outcome].
Definition lanes2 : list RankedTarget := [lane $"claude"; lane $"codex"].

Lemma walk_with_policy_ends_witness :
  ∃ o evs w', walk_with_policy scripted builtin $"p" 60 lanes2 script = (Ok o, evs, w') ∧
    walk_end lanes2 o.
Proof. apply (walk_with_policy_ends scripted builtin $"p" 60 lanes2 script). discriminate. Defined.

Lemma walk_with_policy_bounded_witness :
  (length (invokes (walk_with_policy scripted builtin $"p" 60 lanes2 script).1.2) ≤ 4)%nat.
Proof.
  destruct (walk_with_policy scripted builtin $"p" 60 lanes2 script) as [[r evs] w'] eqn:E.
  destruct (walk_with_policy_bounded scripted builtin $"p" 60 lanes2 script r evs w' E) as [H _].
  exact H.
Defined.

Lemma lane_retry_policy_witness :
  match try_lane scripted builtin $"p" 60 (N.to_nat (max_tries builtin - 1)) 1 (lane $"claude") script with
  | (Failed a, evs, _) => length (sleeps evs) = 1%nat
  | _ => False
  end.
Proof.
  destruct (try_lane scripted builtin $"p" 60 (N.to_nat (max_tries builtin - 1)) 1 (lane $"claude") script)
    as [[[o|a] evs] w'] eqn:E; [vm_compute in E; discriminate|].
  destruct (lane_retry_policy scripted builtin $"p" 60 (lane $"claude") script a evs w' E) as (_ & _ & H & _).
  apply H. vm_compute in E. injection E as <- _ _. reflexivity.
Defined.

Lemma prompt_is_one_argument_witness :
  template_to_argv $"claude -p {prompt} {model_args}" $"fix it; rm -rf" (Some $"opus") =
  Ok [$"claude"; $"-p"; $"fix it; rm -rf"; $"--model"; $"opus"] ∧
  [$"claude"; $"-p"; $"fix it; rm -rf"; $"--model"; $"opus"] ≠ [].
Proof.
  split; [vm_compute; reflexivity|].
  apply (prompt_is_one_argument $"claude -p {prompt} {model_args}" $"fix it; rm -rf" (Some $"opus")).
  vm_compute. reflexivity.
Defined.

Lemma invoke_agent_recorded_witness :
  ∃ r calls, invoke_agent (Json:=unit) (λ _, None) (λ _, None) (λ _, None) claude_env $"claude" $"hi"
    (mkOptions None (Some $"opus") 1000000000 None) = (r, calls) ∧ length calls = 1%nat.
Proof.
  destruct (invoke_agent (Json:=unit) (λ _, None) (λ _, None) (λ _, None) claude_env $"claude" $"hi"
    (mkOptions None (Some $"opus") 1000000000 None)) as [r calls] eqn:E.
  exists r, calls. split; [reflexivity|].
  pose proof (invoke_agent_recorded (Json:=unit) (λ _, None) (λ _, None) (λ _, None) claude_env $"claude"
    $"hi" (mkOptions None (Some $"opus") 1000000000 None) r calls E) as H.
  cbn in H. destruct H as [(_ & _ & _ & _ & H & _)|(call & -> & _)]; [discriminate|reflexivity].
Defined.
