(* ===== verification/Gateway.v ===== *)
(** * The gateway: [crates/rtrt-providers/src/gateway.rs]

    Dispatching chat requests to registered providers, with a response cache, a
    spending limit, retries with one fallback, per-request metrics and the ledger.

    Providers act on a world [W], which also carries the clock.  Everything the
    gateway does is logged in order. *)
From S2P Require Import Prelude Str F64 Error Pool Config Detect TsvLog Ledger Usage Router Invoke.

(** ** Metrics *)

Record RequestMetric := mkMetric {
  m_id : N;
  m_parent_id : option N;
  m_provider : str;
  m_model : str;
  m_started_at : N;
  m_latency_ms : N;
  m_usage : Usage;
  m_cost_usd : f64;
  m_ok : bool;
  m_error : option str;
}.

Record GatewaySummary := mkSummary {
  s_calls : N;
  s_successes : N;
  s_failures : N;
  s_total_input_tokens : N;
  s_total_output_tokens : N;
  s_total_latency_ms : N;
  s_total_cost_usd : f64;
}.

Definition Summary_default : GatewaySummary := mkSummary 0 0 0 0 0 0 f64_zero.

(** Plain [+=] on [u64]: wraps around in the release profile. *)
Definition Summary_record (s : GatewaySummary) (m : RequestMetric) : GatewaySummary :=
  mkSummary
    (wrap_add u64_max (s_calls s) 1)
    (if m_ok m then wrap_add u64_max (s_successes s) 1 else s_successes s)
    (if m_ok m then s_failures s else wrap_add u64_max (s_failures s) 1)
    (wrap_add u64_max (s_total_input_tokens s) (u_input_tokens (m_usage m)))
    (wrap_add u64_max (s_total_output_tokens s) (u_output_tokens (m_usage m)))
    (wrap_add u64_max (s_total_latency_ms s) (m_latency_ms m))
    (f64_add (s_total_cost_usd s) (m_cost_usd m)).

Definition avg_latency_ms (s : GatewaySummary) : f64 :=
  if s_calls s =? 0 then f64_zero
  else f64_div (f64_of_N (s_total_latency_ms s)) (f64_of_N (s_calls s)).

Record MetricsBuffer := mkBuffer {
  mb_inner : list RequestMetric;
  mb_summary : GatewaySummary;
  mb_by_provider : gmap str GatewaySummary;
}.

Definition Buffer_empty : MetricsBuffer := mkBuffer [] Summary_default ∅.

(** [while len > window { pop_front }] *)
Fixpoint pop_to_window (window : N) (inner : list RequestMetric) : list RequestMetric :=
  match inner with
  | [] => []
  | _ :: rest => if window <? N.of_nat (length inner) then pop_to_window window rest else inner
  end.

Definition push_metric (window : N) (buf : MetricsBuffer) (m : RequestMetric) : MetricsBuffer :=
  mkBuffer (pop_to_window window (mb_inner buf ++ [m]))
    (Summary_record (mb_summary buf) m)
    (<[m_provider m := Summary_record (default Summary_default (mb_by_provider buf !! m_provider m)) m]>
       (mb_by_provider buf)).

Definition recent (buf : MetricsBuffer) (limit : N) : list RequestMetric :=
  take (N.to_nat limit) (rev (mb_inner buf)).

(** ** Budget *)

Record ModelPricing := mkPricing { input_usd_per_mtok : f64; output_usd_per_mtok : f64 }.

Definition default_pricing : gmap str ModelPricing :=
  list_to_map
    [($"claude-opus-4-7", mkPricing (f64_of_N 15) (f64_of_N 75));
     ($"claude-sonnet-4-6", mkPricing (f64_of_N 3) (f64_of_N 15));
     ($"claude-haiku-4-5", mkPricing (f64_of_N 1) (f64_of_N 5));
     ($"gpt-5.4", mkPricing (f64_of_N 5) (f64_of_N 15));
     ($"gpt-5.4-mini", mkPricing (f64_decimal false 6 (-1)) (f64_decimal false 24 (-1)));
     ($"gpt-5.3-codex-spark", mkPricing (f64_decimal false 5 (-1)) (f64_of_N 2))].

Record Budget := mkBudget { cap_usd : f64; pricing : gmap str ModelPricing }.

Definition Budget_new (cap : f64) : Budget := mkBudget cap default_pricing.
Definition upsert_model (b : Budget) (model : str) (p : ModelPricing) : Budget :=
  mkBudget (cap_usd b) (<[model := p]> (pricing b)).

Definition cost_for (b : Budget) (model : str) (usage : Usage) : f64 :=
  let upstream := match split_once_char ch_slash model with Some (_, u) => u | None => model end in
  match (match pricing b !! model with Some p => Some p | None => pricing b !! upstream end) with
  | Some p =>
      let million := f64_of_N 1000000 in
      let inp := f64_mul (f64_div (f64_of_N (u_input_tokens usage)) million) (input_usd_per_mtok p) in
      let out := f64_mul (f64_div (f64_of_N (u_output_tokens usage)) million) (output_usd_per_mtok p) in
      f64_add inp out
  | None => f64_zero
  end.

(** ** Retries *)

(** [backoff_factor] is an [f32]; every [f32] is an [f64]. *)
Record RetryPolicy := mkRetry {
  max_attempts : N;
  backoff_ms : N;
  backoff_factor : f64;
  fallback_to_default : bool;
}.

Definition f64_one : f64 := f64_of_N 1.
Definition Retry_default : RetryPolicy := mkRetry 1 0 f64_one false.

Definition f64_max (a b : f64) : f64 :=
  if f64_is_nan a then b else if f64_is_nan b then a else if f64_lt a b then b else a.

Definition exponential (max_attempts backoff_ms : N) (factor : f64) : RetryPolicy :=
  mkRetry max_attempts backoff_ms (f64_max factor f64_one) false.

(** ** The response cache *)

Record ResponseCache := mkCache {
  rc_cap : N;
  rc_order : list N;
  rc_entries : gmap N ChatResponse;
}.

Definition Cache_new (cap : N) : ResponseCache := mkCache cap [] ∅.
Definition Cache_get (c : ResponseCache) (key : N) : option ChatResponse := rc_entries c !! key.
Definition Cache_len (c : ResponseCache) : N := N.of_nat (size (rc_entries c)).

Fixpoint evict (cap : N) (order : list N) (entries : gmap N ChatResponse) :
    list N * gmap N ChatResponse :=
  match order with
  | [] => ([], entries)
  | victim :: rest =>
      if cap <=? N.of_nat (size entries) then evict cap rest (delete victim entries)
      else (order, entries)
  end.

Definition Cache_insert (c : ResponseCache) (key : N) (resp : ChatResponse) : ResponseCache :=
  match rc_entries c !! key with
  | Some _ => c
  | None =>
      let '(order, entries) := evict (rc_cap c) (rc_order c) (rc_entries c) in
      mkCache (rc_cap c) (order ++ [key]) (<[key := resp]> entries)
  end.

(** What [cache_key] feeds the hasher, in order. *)
Record HashInput := mkHashInput {
  hi_model : str;
  hi_messages : list (N * str);
  hi_max_tokens : option N;
  hi_temperature : option N;
}.

Definition hash_input (req : ChatRequest) : HashInput :=
  mkHashInput (rq_model req)
    (map (λ m, (match msg_role m with System => 0 | User => 1 | Assistant => 2 end, msg_content m))
       (rq_messages req))
    (rq_max_tokens req) (rq_temperature req).

(** ** The gateway *)

Section Gateway.
Context {W : Type}.
(** The world's clock: seconds since the epoch, and milliseconds between two
    worlds. *)
Context (now : W → N) (elapsed_ms : W → W → N).
(** [tokio::time::sleep]. *)
Context (sleep : N → W → W).
(** [DefaultHasher], whose algorithm is unspecified, and [f32::powi], whose
    precision is. *)
Context (hash : HashInput → N) (powi : f64 → N → f64).

Definition cache_key (req : ChatRequest) : N := hash (hash_input req).

(** A registered provider: its [chat] and [model_ids]. *)
Record Registration := mkRegistration {
  reg_name : str;
  reg_transport : str;
  reg_prefixes : list str;
  reg_models : list str;
  reg_chat : W → ChatRequest → Result ChatResponse * W;
}.

Definition register_provider (name transport : str) (prefixes models : list str)
    (chat : W → ChatRequest → Result ChatResponse * W) : Registration :=
  mkRegistration (normalize_provider_id name) transport prefixes models chat.

Record Gateway := mkGateway {
  gw_providers : list Registration;
  gw_default : option nat;
  gw_metric_window : N;
  gw_budget : option Budget;
  gw_retry : RetryPolicy;
  gw_record_usage : bool;
}.

Definition Gateway_new : Gateway := mkGateway [] None 1024 None Retry_default false.

Definition register (gw : Gateway) (r : Registration) : Gateway :=
  mkGateway (gw_providers gw ++ [r]) (gw_default gw) (gw_metric_window gw) (gw_budget gw)
    (gw_retry gw) (gw_record_usage gw).

Definition with_usage_recording (gw : Gateway) (enabled : bool) : Gateway :=
  mkGateway (gw_providers gw) (gw_default gw) (gw_metric_window gw) (gw_budget gw) (gw_retry gw) enabled.

Definition with_budget (gw : Gateway) (budget : Budget) : Gateway :=
  mkGateway (gw_providers gw) (gw_default gw) (gw_metric_window gw) (Some budget) (gw_retry gw)
    (gw_record_usage gw).

Definition with_retry (gw : Gateway) (retry : RetryPolicy) : Gateway :=
  mkGateway (gw_providers gw) (gw_default gw) (gw_metric_window gw) (gw_budget gw) retry
    (gw_record_usage gw).

(** [metric_window] is a public field. *)
Definition set_metric_window (gw : Gateway) (window : N) : Gateway :=
  mkGateway (gw_providers gw) (gw_default gw) window (gw_budget gw) (gw_retry gw) (gw_record_usage gw).

Definition with_default_last (gw : Gateway) : Gateway :=
  mkGateway (gw_providers gw)
    (match length (gw_providers gw) with O => None | S n => Some n end)
    (gw_metric_window gw) (gw_budget gw) (gw_retry gw) (gw_record_usage gw).

(** What the gateway did, in order. *)
Inductive GwEvent :=
| GwSleep (ms : N)
| GwDispatch (idx : nat) (req : ChatRequest)
| GwLedger (call : LedgerCall)
| GwMetric (m : RequestMetric).

(** The state behind the locks, the world, and the log. *)
Record GwState := mkState {
  gs_world : W;
  gs_metrics : MetricsBuffer;
  gs_next_id : N;
  gs_cache : option ResponseCache;
  gs_log : list GwEvent;
}.

Definition with_cache (cap : N) : option ResponseCache :=
  if cap =? 0 then None else Some (Cache_new cap).

Definition initial_state (w : W) (cap : N) : GwState := mkState w Buffer_empty 1 (with_cache cap) [].

Definition sleep_step (ms : N) (s : GwState) : GwState :=
  mkState (sleep ms (gs_world s)) (gs_metrics s) (gs_next_id s) (gs_cache s) (gs_log s ++ [GwSleep ms]).

Definition cache_len (s : GwState) : option N := Cache_len <$> gs_cache s.

(** [sum] of floats starts at minus zero. *)
Definition budget_spent_usd (gw : Gateway) (s : GwState) : f64 :=
  match gw_budget gw with
  | None => f64_zero
  | Some b => foldl (λ acc m, f64_add acc (cost_for b (m_model m) (m_usage m))) (S754_zero true)
                (mb_inner (gs_metrics s))
  end.

(** ** Routing by model *)

Fixpoint find_index {A} (p : A → bool) (l : list A) (i : nat) : option nat :=
  match l with
  | [] => None
  | x :: l' => if p x then Some i else find_index p l' (S i)
  end.

Definition lookup_index (gw : Gateway) (model : str) : option nat :=
  match find_index (λ r, existsb (starts_with model) (reg_prefixes r)) (gw_providers gw) 0 with
  | Some i => Some i
  | None => gw_default gw
  end.

Definition resolve_model (gw : Gateway) (model : str) : Result (nat * str * bool) :=
  match split_once_char ch_slash model with
  | Some (provider_hint, upstream) =>
      if is_empty provider_hint || is_empty upstream
      then Err (Provider ($"gateway: invalid canonical model id '" ++ model ++ $"'"))
      else
        let normalized_hint := normalize_provider_id provider_hint in
        match find_index (λ r, str_eqb (reg_name r) normalized_hint) (gw_providers gw) 0 with
        | None => Err (Provider ($"gateway: no provider registered for canonical model '" ++ model ++ $"'"))
        | Some idx =>
            let prefixes := match gw_providers gw !! idx with Some r => reg_prefixes r | None => [] end in
            match prefixes with
            | [] => Ok (idx, upstream, true)
            | _ => if existsb (starts_with upstream) prefixes then Ok (idx, upstream, true)
                   else Err (Provider ($"gateway: model '" ++ upstream ++
                                       $"' does not match provider '" ++ provider_hint ++ $"'"))
            end
        end
  | None =>
      match lookup_index gw model with
      | Some idx => Ok (idx, model, false)
      | None => Err (Provider ($"gateway: no provider registered for model '" ++ model ++ $"'"))
      end
  end.

Definition canonical_id (r : Registration) (upstream : str) : str :=
  match split_once_char ch_slash upstream with
  | Some (prefix, rest) =>
      if str_eqb (normalize_provider_id prefix) (reg_name r)
      then reg_name r ++ ch_slash :: rest else reg_name r ++ ch_slash :: upstream
  | None => reg_name r ++ ch_slash :: upstream
  end.

Definition canonical_step (r : Registration) (models : list (str * str * str)) (upstream : str) :
    list (str * str * str) :=
  let id := canonical_id r upstream in
  if existsb (λ m, str_eqb m.1.1 id) models then models
  else models ++ [(id, reg_name r, reg_transport r)].

Definition canonical_models (gw : Gateway) : list (str * str * str) :=
  foldl (λ models r, foldl (canonical_step r) models (reg_models r)) [] (gw_providers gw).

(** ** Dispatching *)

Definition record_dispatch_to_ledger (target model prompt : str) (result : Result ChatResponse) :
    LedgerCall :=
  match result with
  | Ok resp =>
      if 0 <? Usage_total (resp_usage resp)
      then mkCall target model (u_input_tokens (resp_usage resp)) (u_output_tokens (resp_usage resp))
             false true
      else mkCall target model (estimate_tokens prompt) (estimate_tokens (resp_content resp)) true true
  | Err _ => mkCall target model (estimate_tokens prompt) 0 true false
  end.

Definition truncate (s : str) (max : nat) : str :=
  if Nat.leb (length s) max then s else take max s ++ [8230].

Definition dispatch_once (gw : Gateway) (idx : nat) (r : Registration) (req : ChatRequest)
    (requested_model : str) (parent_id : option N) (s : GwState) : Result ChatResponse * GwState :=
  let started_at := now (gs_world s) in
  let prompt := if gw_record_usage gw then concat (map msg_content (rq_messages req)) else [] in
  let '(result, w') := reg_chat r (gs_world s) req in
  let latency := elapsed_ms (gs_world s) w' in
  let ledger := if gw_record_usage gw
                then [GwLedger (record_dispatch_to_ledger (reg_name r) requested_model prompt result)]
                else [] in
  let id := gs_next_id s in
  let '(usage, ok, err) :=
    match result with
    | Ok resp => (resp_usage resp, true, None)
    | Err e => (Usage_default, false, Some (truncate (error_to_string e) 256))
    end in
  let cost := match gw_budget gw with Some b => cost_for b requested_model usage | None => f64_zero end in
  let metric := mkMetric id parent_id (reg_name r) requested_model started_at latency usage cost ok err in
  (result,
   mkState w' (push_metric (gw_metric_window gw) (gs_metrics s) metric) (sat_add u64_max id 1)
     (gs_cache s) (gs_log s ++ [GwDispatch idx req] ++ ledger ++ [GwMetric metric])).

(** The wait before a retry. *)
Definition f32_epsilon : f64 := f64_div f64_one (f64_of_N 8388608).
Definition f64_abs (a : f64) : f64 := SFabs a.
Definition f32_sub (a b : f64) : f64 := SFsub 24 128 a b.

Definition retry_wait (r : RetryPolicy) (attempt : N) : N :=
  let factor := f64_max (backoff_factor r) f64_one in
  if f64_lt (f64_abs (f32_sub factor f64_one)) f32_epsilon then backoff_ms r
  else f64_to_u64 (f64_mul (f64_of_N (backoff_ms r)) (powi factor (attempt - 1))).

Definition cache_store (key : N) (resp : ChatResponse) (s : GwState) : GwState :=
  mkState (gs_world s) (gs_metrics s) (gs_next_id s)
    ((λ c, Cache_insert c key resp) <$> gs_cache s) (gs_log s).

(** The loop over attempts: [left] more after this one. *)
Fixpoint attempt_loop (gw : Gateway) (idx : nat) (r : Registration) (req : ChatRequest)
    (requested_model : str) (parent_id : option N) (left : nat) (attempt : N) (s : GwState) :
    Result ChatResponse * GwState :=
  let s := if (0 <? attempt) && (0 <? backoff_ms (gw_retry gw))
           then sleep_step (retry_wait (gw_retry gw) attempt) s else s in
  let '(result, s) := dispatch_once gw idx r req requested_model parent_id s in
  match result, left with
  | Err _, S left' => attempt_loop gw idx r req requested_model parent_id left' (attempt + 1) s
  | _, _ => (result, s)
  end.

Definition cache_hit (req : ChatRequest) (s : GwState) : option ChatResponse :=
  c ← gs_cache s; Cache_get c (cache_key req).

Definition budget_gate (gw : Gateway) (s : GwState) : option Error :=
  b ← gw_budget gw;
  let spent := s_total_cost_usd (mb_summary (gs_metrics s)) in
  if f64_le (cap_usd b) spent
  then Some (Provider ($"gateway: budget exceeded (" ++ show_f64_fixed 4 spent ++ $" ≥ cap " ++
                       show_f64_fixed 4 (cap_usd b) ++ $" USD)"))
  else None.

Definition chat_inner (gw : Gateway) (req : ChatRequest) (parent_id : option N) (s : GwState) :
    Result ChatResponse * GwState :=
  match cache_hit req s with
  | Some hit => (Ok hit, s)
  | None =>
  match budget_gate gw s with
  | Some e => (Err e, s)
  | None =>
  match resolve_model gw (rq_model req) with
  | Err e => (Err e, s)
  | Ok (primary_idx, upstream_model, explicitly_routed) =>
  match gw_providers gw !! primary_idx with
  | None => (Err (Provider $"gateway: no attempts ran"), s)
  | Some primary =>
      let upstream_req := mkRequest upstream_model (rq_messages req) (rq_max_tokens req) (rq_temperature req) in
      let attempts := N.max (max_attempts (gw_retry gw)) 1 in
      let key := cache_key req in
      let '(result, s) :=
        attempt_loop gw primary_idx primary upstream_req (rq_model req) parent_id
          (N.to_nat (attempts - 1)) 0 s in
      match result with
      | Ok resp => (Ok resp, cache_store key resp s)
      | Err e =>
          match gw_default gw with
          | Some default_idx =>
              if negb explicitly_routed && fallback_to_default (gw_retry gw) &&
                 negb (Nat.eqb default_idx primary_idx)
              then match gw_providers gw !! default_idx with
                   | None => (Err e, s)
                   | Some d =>
                       let '(result, s) := dispatch_once gw default_idx d upstream_req (rq_model req) parent_id s in
                       match result with
                       | Ok resp => (Ok resp, cache_store key resp s)
                       | Err e => (Err e, s)
                       end
                   end
              else (Err e, s)
          | None => (Err e, s)
          end
      end
  end end end end.

Definition chat (gw : Gateway) (req : ChatRequest) (s : GwState) : Result ChatResponse * GwState :=
  chat_inner gw req None s.
End Gateway.

(** ** Specifications *)

Section Specs.
Context {W : Type}.
Context (now : W → N) (elapsed_ms : W → W → N) (sleep : N → W → W).
Context (hash : HashInput → N) (powi : f64 → N → f64).

Definition metrics_of (log : list GwEvent) : list RequestMetric :=
  omap (λ e, match e with GwMetric m => Some m | _ => None end) log.
Definition dispatches_of (log : list GwEvent) : list nat :=
  omap (λ e, match e with GwDispatch i _ => Some i | _ => None end) log.
Definition ledger_of (log : list GwEvent) : list LedgerCall :=
  omap (λ e, match e with GwLedger c => Some c | _ => None end) log.

(** The cache holds at most its capacity, and its queue names its entries once. *)
Record cache_ok (c : ResponseCache) : Prop := {
  ck_nodup : NoDup (rc_order c);
  ck_entries : ∀ k, k ∈ rc_order c ↔ is_Some (rc_entries c !! k);
  ck_cap : (length (rc_order c) ≤ N.to_nat (rc_cap c))%nat;
  ck_pos : 0 < rc_cap c;
}.

(** What the counters say about the log: the abstract state is the list of all
    metrics ever recorded. *)
Record metrics_ok (window : N) (s : GwState (W:=W)) : Prop := {
  mo_inner : mb_inner (gs_metrics s) = last_n (N.to_nat window) (metrics_of (gs_log s));
  mo_summary : mb_summary (gs_metrics s) =
    foldl Summary_record Summary_default (metrics_of (gs_log s));
  mo_provider : ∀ p, default Summary_default (mb_by_provider (gs_metrics s) !! p) =
    foldl Summary_record Summary_default
      (List.filter (λ m, str_eqb (m_provider m) p) (metrics_of (gs_log s)));
  mo_next : gs_next_id s = N.min (1 + N.of_nat (length (metrics_of (gs_log s)))) u64_max;
  mo_ids : map m_id (metrics_of (gs_log s)) =
    map (λ i, N.min (1 + N.of_nat i) u64_max) (seq 0 (length (metrics_of (gs_log s))));
  mo_dispatched : length (dispatches_of (gs_log s)) = length (metrics_of (gs_log s));
}.

Definition state_ok (window : N) (s : GwState (W:=W)) : Prop :=
  metrics_ok window s ∧ ∀ c, gs_cache s = Some c → cache_ok c.

(** Where a model name goes, by rules rather than by search: a canonical
    [provider/model] names its provider, which must own the model; any other name
    goes to the first provider that owns it, or to the default. *)
Definition owns (r : Registration (W:=W)) (model : str) : Prop :=
  ∃ p, p ∈ reg_prefixes r ∧ p `prefix_of` model.

Inductive routes_to (gw : Gateway (W:=W)) (model : str) : nat → str → bool → Prop :=
| RouteCanonical hint upstream idx r :
    model = hint ++ ch_slash :: upstream → (ch_slash ∉ hint) → hint ≠ [] → upstream ≠ [] →
    gw_providers gw !! idx = Some r → reg_name r = normalize_provider_id hint →
    (∀ j r', (j < idx)%nat → gw_providers gw !! j = Some r' → reg_name r' ≠ reg_name r) →
    (reg_prefixes r = [] ∨ owns r upstream) →
    routes_to gw model idx upstream true
| RouteOwner idx r :
    (ch_slash ∉ model) → gw_providers gw !! idx = Some r → owns r model →
    (∀ j r', (j < idx)%nat → gw_providers gw !! j = Some r' → ¬ owns r' model) →
    routes_to gw model idx model false
| RouteDefault idx :
    (ch_slash ∉ model) → (∀ r, r ∈ gw_providers gw → ¬ owns r model) →
    gw_default gw = Some idx → routes_to gw model idx model false.

(** The gateways a caller can build. *)
Inductive built : Gateway (W:=W) → Prop :=
| built_new : built Gateway_new
| built_register gw name transport prefixes models chat :
    built gw → built (register gw (register_provider name transport prefixes models chat))
| built_default_last gw : built gw → built (with_default_last gw)
| built_usage_recording gw b : built gw → built (with_usage_recording gw b)
| built_budget gw b : built gw → built (with_budget gw b)
| built_retry gw r : built gw → built (with_retry gw r)
| built_window gw n : built gw → built (set_metric_window gw n).

Definition gateway_ok (gw : Gateway (W:=W)) : Prop :=
  ∀ d, gw_default gw = Some d → (d < length (gw_providers gw))%nat.
(** What one request adds to the log, the counters kept in step. *)
Definition extends (window : N) (s s' : GwState (W:=W)) (ds : list nat) : Prop :=
  (metrics_ok window s → metrics_ok window s') ∧
  dispatches_of (gs_log s') = dispatches_of (gs_log s) ++ ds ∧
  gs_log s `prefix_of` gs_log s'.

(** What a request did to the gateway, case by case. *)
Inductive chat_spec (gw : Gateway (W:=W)) (req : ChatRequest) (s : GwState (W:=W)) :
    Result ChatResponse → GwState → Prop :=
| ChatHit hit :
    cache_hit hash req s = Some hit → chat_spec gw req s (Ok hit) s
| ChatOverBudget b e :
    cache_hit hash req s = None → gw_budget gw = Some b →
    f64_le (cap_usd b) (s_total_cost_usd (mb_summary (gs_metrics s))) = true →
    budget_gate gw s = Some e →
    chat_spec gw req s (Err e) s
| ChatUnroutable e :
    cache_hit hash req s = None → budget_gate gw s = None → resolve_model gw (rq_model req) = Err e →
    chat_spec gw req s (Err e) s
| ChatDispatched idx up explicit n fallback res s' :
    cache_hit hash req s = None → budget_gate gw s = None →
    resolve_model gw (rq_model req) = Ok (idx, up, explicit) →
    (n < N.to_nat (N.max (max_attempts (gw_retry gw)) 1))%nat →
    extends (gw_metric_window gw) s s' (replicate (S n) idx ++ fallback) →
    (fallback = [] ∨ ∃ d, fallback = [d] ∧ gw_default gw = Some d ∧ d ≠ idx ∧ explicit = false ∧
       fallback_to_default (gw_retry gw) = true) →
    (is_ok res = false ∨ fallback ≠ [] → S n = N.to_nat (N.max (max_attempts (gw_retry gw)) 1)) →
    m_ok <$> last (metrics_of (gs_log s')) = Some (is_ok res) →
    gs_cache s' = match res with
                  | Ok resp => (λ c, Cache_insert c (cache_key hash req) resp) <$> gs_cache s
                  | Err _ => gs_cache s
                  end →
    chat_spec gw req s res s'.

(** States the gateway can reach: any number of requests after the start. *)
Inductive reachable (gw : Gateway (W:=W)) (w : W) (cap : N) : GwState → Prop :=
| reach_init : reachable gw w cap (initial_state w cap)
| reach_chat s req parent res s' :
    reachable gw w cap s → chat_inner now elapsed_ms sleep hash powi gw req parent s = (res, s') → reachable gw w cap s'.
End Specs.

(** ** Lemmas *)

Lemma find_index_Some {A} (p : A → bool) l i k :
  find_index p l i = Some k →
  ∃ x, l !! (k - i)%nat = Some x ∧ p x = true ∧ (i ≤ k < i + length l)%nat ∧
       ∀ j y, (j < k - i)%nat → l !! j = Some y → p y = false.
Proof.
  revert i. induction l as [|a l IH]; intros i; cbn; [done|]. destruct (p a) eqn:E.
  - intros [= ->]. exists a. rewrite Nat.sub_diag. split_and!; try done; [lia|]. intros; lia.
  - intros (x & Hx & Hp & Hk & Hj)%IH. exists x.
    replace (k - i)%nat with (S (k - S i)) by lia. split_and!; [done|done|lia|cbn; lia|].
    intros [|j] y Hj' Hy; cbn in Hy; [by injection Hy as <-|]. apply (Hj j); [lia|done].
Qed.

Lemma find_index_None {A} (p : A → bool) l i :
  find_index p l i = None ↔ ∀ x, x ∈ l → p x = false.
Proof.
  revert i. induction l as [|a l IH]; intros i; cbn; [set_solver|]. destruct (p a) eqn:E.
  - split; [done|]. intros H. rewrite H in E by set_solver. done.
  - rewrite IH. set_solver.
Qed.

Lemma pop_to_window_last window l : pop_to_window window l = last_n (N.to_nat window) l.
Proof.
  unfold last_n. induction l as [|a l IH]; [done|]. cbn -[N.of_nat length].
  destruct (N.ltb_spec window (N.of_nat (length (a :: l)))) as [Hlt|Hge]; cbn [length] in *.
  - rewrite IH. replace (S (length l) - N.to_nat window)%nat with (S (length l - N.to_nat window)) by lia.
    done.
  - by replace (S (length l) - N.to_nat window)%nat with 0%nat by lia.
Qed.

Lemma last_n_snoc_pop {A} n (l : list A) x : last_n n (last_n n l ++ [x]) = last_n n (l ++ [x]).
Proof.
  unfold last_n. rewrite !length_app, length_drop. cbn [length].
  destruct (Nat.le_gt_cases (length l) n) as [Hle|Hgt].
  - replace (length l - n)%nat with 0%nat by lia. rewrite drop_0. f_equal. lia.
  - destruct n as [|n].
    + rewrite !drop_ge; [done|rewrite length_app; cbn; lia|].
      rewrite length_app, length_drop. cbn. lia.
    + rewrite (drop_app_le l) by lia. rewrite drop_app_le by (rewrite length_drop; lia).
      rewrite drop_drop. do 2 f_equal. lia.
Qed.

Lemma evict_spec cap order entries order' entries' :
  NoDup order → (∀ k, k ∈ order ↔ is_Some (entries !! k)) →
  evict cap order entries = (order', entries') → 0 < cap →
  NoDup order' ∧ (∀ k, k ∈ order' ↔ is_Some (entries' !! k)) ∧ order' `suffix_of` order ∧
  N.of_nat (length order') < cap ∧ (∀ k v, entries' !! k = Some v → entries !! k = Some v).
Proof.
  intros Hnd Hent E Hcap. revert entries Hnd Hent E.
  induction order as [|v order IH]; intros entries Hnd Hent; cbn.
  { intros [= <- <-]. split_and!; try done. }
  assert (Hsize : size entries = S (length order)).
  { assert (Hd : dom entries =@{gset N} list_to_set (v :: order)).
    { apply set_eq. intros k. by rewrite elem_of_dom, elem_of_list_to_set, Hent. }
    rewrite <-size_dom, Hd, size_list_to_set by done. done. }
  rewrite Hsize. destruct (N.leb_spec cap (N.of_nat (S (length order)))) as [Hle|Hgt].
  - intros E. apply NoDup_cons in Hnd as [Hv Hnd].
    destruct (IH (delete v entries) Hnd) as (H1 & H2 & H3 & H4 & H5); [|done|].
    { intros k. destruct (decide (k = v)) as [->|Hne].
      - rewrite lookup_delete_eq. split; [done|]. by intros [].
      - rewrite lookup_delete_ne by done. rewrite <-Hent. set_solver. }
    split_and!; [done|done|by apply suffix_cons_r|done|].
    intros k x Hk%H5. by apply lookup_delete_Some in Hk as [_ ?].
  - intros [= <- <-]. split_and!; done || (cbn; lia).
Qed.

Lemma Cache_insert_ok c key resp :
  cache_ok c → cache_ok (Cache_insert c key resp) ∧
  is_Some (rc_entries (Cache_insert c key resp) !! key) ∧
  (rc_entries c !! key = None → rc_entries (Cache_insert c key resp) !! key = Some resp).
Proof.
  intros [Hnd Hent Hcap Hpos]. unfold Cache_insert. destruct (rc_entries c !! key) as [v|] eqn:E.
  { split_and!; [by split|by eexists|done]. }
  destruct (evict _ _ _) as [order entries] eqn:Ev.
  destruct (evict_spec _ _ _ _ _ Hnd Hent Ev Hpos) as (H1 & H2 & H3 & H4 & H5). cbn.
  rewrite lookup_insert_eq. split_and!; [|by eexists|done].
  assert (Hkey : key ∉ order).
  { rewrite H2. intros [x Hx%H5]. by rewrite E in Hx. }
  split; cbn; [|..|done].
  - apply NoDup_app. split_and!; [done| |apply NoDup_singleton]. set_solver.
  - intros k. rewrite elem_of_app, list_elem_of_singleton, H2.
    destruct (decide (k = key)) as [->|Hne]; [rewrite lookup_insert_eq; naive_solver|].
    rewrite lookup_insert_ne by done. naive_solver.
  - rewrite length_app. cbn. lia.
Qed.

Section Proofs.
Context {W : Type}.
Context (now : W → N) (elapsed_ms : W → W → N) (sleep : N → W → W).
Context (hash : HashInput → N) (powi : f64 → N → f64).

Implicit Types (gw : Gateway (W:=W)) (s : GwState (W:=W)).

Abbreviation dispatch_once := (dispatch_once now elapsed_ms).
Abbreviation attempt_loop := (attempt_loop now elapsed_ms sleep powi).
Abbreviation chat_inner := (chat_inner now elapsed_ms sleep hash powi).
Abbreviation chat_spec := (chat_spec hash).
Abbreviation reachable := (reachable now elapsed_ms sleep hash powi).

Lemma metrics_of_app l1 l2 : metrics_of (l1 ++ l2) = metrics_of l1 ++ metrics_of l2.
Proof using. apply omap_app. Qed.
Lemma dispatches_of_app l1 l2 : dispatches_of (l1 ++ l2) = dispatches_of l1 ++ dispatches_of l2.
Proof using. apply omap_app. Qed.
Lemma ledger_of_app l1 l2 : ledger_of (l1 ++ l2) = ledger_of l1 ++ ledger_of l2.
Proof using. apply omap_app. Qed.

(** Recording one metric keeps the counters in step with the log. *)
Lemma push_metric_ok window (s s' : GwState (W:=W)) m new :
  metrics_ok window s →
  gs_log s' = gs_log s ++ new → metrics_of new = [m] → length (dispatches_of new) = 1%nat →
  m_id m = gs_next_id s → gs_next_id s' = sat_add u64_max (gs_next_id s) 1 →
  gs_metrics s' = push_metric window (gs_metrics s) m →
  metrics_ok window s'.
Proof using.
  intros [Hin Hsum Hprov Hnext Hids Hd] Hlog Hm Hdn Hid Hnx Hbuf.
  assert (Hms : metrics_of (gs_log s') = metrics_of (gs_log s) ++ [m]).
  { by rewrite Hlog, metrics_of_app, Hm. }
  split; rewrite ?Hbuf, ?Hms; cbn [push_metric mb_inner mb_summary mb_by_provider].
  - by rewrite pop_to_window_last, Hin, last_n_snoc_pop.
  - by rewrite foldl_app, Hsum.
  - intros p. rewrite List.filter_app, foldl_app. cbn [List.filter]. unfold str_eqb at 2.
    destruct (decide (m_provider m = p)) as [<-|Hne].
    + rewrite lookup_insert_eq, bool_decide_eq_true_2 by done. cbn. by rewrite Hprov.
    + rewrite lookup_insert_ne, bool_decide_eq_false_2 by done. apply Hprov.
  - rewrite Hnx, Hnext, length_app. unfold sat_add, u64_max. cbn. lia.
  - rewrite map_app, Hids, length_app, seq_app, map_app. cbn. do 2 f_equal. rewrite Hid, Hnext. done.
  - rewrite Hlog, dispatches_of_app, !length_app, Hd, Hdn. done.
Qed.

Lemma dispatch_once_spec gw idx r req requested parent s res s' :
  dispatch_once gw idx r req requested parent s = (res, s') →
  ∃ new m, gs_log s' = gs_log s ++ new ∧ metrics_of new = [m] ∧ dispatches_of new = [idx] ∧
    ledger_of new = (if gw_record_usage gw
                     then [record_dispatch_to_ledger (reg_name r) requested
                             (concat (map msg_content (rq_messages req))) res] else []) ∧
    m_id m = gs_next_id s ∧ gs_next_id s' = sat_add u64_max (gs_next_id s) 1 ∧
    gs_metrics s' = push_metric (gw_metric_window gw) (gs_metrics s) m ∧
    gs_cache s' = gs_cache s ∧ m_ok m = is_ok res ∧ m_provider m = reg_name r ∧ m_model m = requested ∧
    (gs_world s', res) = (let '(x, w) := reg_chat r (gs_world s) req in (w, x)).
Proof using.
  unfold Gateway.dispatch_once. destruct (reg_chat r (gs_world s) req) as [x w'].
  destruct x as [resp|e]; intros [= <- <-]; destruct (gw_record_usage gw);
    eexists _, _; cbn; split_and!; reflexivity.
Qed.

Lemma dispatch_once_ok gw idx r req requested parent s res s' :
  dispatch_once gw idx r req requested parent s = (res, s') →
  metrics_ok (gw_metric_window gw) s → metrics_ok (gw_metric_window gw) s'.
Proof using.
  intros E Hs. destruct (dispatch_once_spec _ _ _ _ _ _ _ _ _ E)
    as (new & m & Hl & Hm & Hd & _ & Hid & Hn & Hb & _).
  eapply push_metric_ok; try done. by rewrite Hd.
Qed.

Lemma sleep_step_ok window (s : GwState (W:=W)) ms :
  metrics_ok window s → metrics_ok window (sleep_step sleep ms s).
Proof using.
  intros [Hin Hsum Hprov Hnext Hids Hd].
  assert (E : metrics_of (gs_log (sleep_step sleep ms s)) = metrics_of (gs_log s)).
  { cbn. rewrite metrics_of_app. cbn. by rewrite app_nil_r. }
  split; rewrite ?E; try done. cbn. rewrite dispatches_of_app. cbn. by rewrite app_nil_r.
Qed.

Lemma extends_trans window s1 s2 s3 ds1 ds2 :
  extends window s1 s2 ds1 → extends window s2 s3 ds2 → extends window s1 s3 (ds1 ++ ds2).
Proof using.
  intros (H1 & H2 & H3) (H4 & H5 & H6). split_and!; [auto|by rewrite H5, H2, app_assoc|by etrans].
Qed.

Lemma dispatch_once_extends gw idx r req requested parent s res s' :
  dispatch_once gw idx r req requested parent s = (res, s') →
  extends (gw_metric_window gw) s s' [idx] ∧ gs_cache s' = gs_cache s ∧
  m_ok <$> last (metrics_of (gs_log s')) = Some (is_ok res).
Proof using.
  intros E. pose proof (dispatch_once_ok _ _ _ _ _ _ _ _ _ E) as Hok.
  destruct (dispatch_once_spec _ _ _ _ _ _ _ _ _ E)
    as (new & m & Hl & Hm & Hd & _ & _ & _ & _ & Hc & Hok' & _).
  split_and!; [split_and!|done|].
  - done.
  - by rewrite Hl, dispatches_of_app, Hd.
  - by exists new.
  - by rewrite Hl, metrics_of_app, Hm, last_snoc, <-Hok'.
Qed.

Lemma attempt_loop_spec gw idx r req requested parent left attempt s res s' :
  attempt_loop gw idx r req requested parent left attempt s = (res, s') →
  ∃ n, (n ≤ left)%nat ∧ (is_ok res = false → n = left) ∧
    extends (gw_metric_window gw) s s' (replicate (S n) idx) ∧ gs_cache s' = gs_cache s ∧
    m_ok <$> last (metrics_of (gs_log s')) = Some (is_ok res).
Proof using.
  revert attempt s res s'. induction left as [|left IH]; intros attempt s res s'; cbn [Gateway.attempt_loop];
    set (s0 := if _ && _ then _ else s);
    destruct (dispatch_once gw idx r req requested parent s0) as [x s1] eqn:E;
    destruct (dispatch_once_extends _ _ _ _ _ _ _ _ _ E) as (Hx & Hc & Hlast).
  all: assert (H0 : extends (gw_metric_window gw) s s0 [] ∧ gs_cache s0 = gs_cache s) by
    (unfold s0; case_match; split; [split_and!|done|split_and!|done];
     [apply sleep_step_ok|by cbn; rewrite dispatches_of_app|by eexists|done|by rewrite app_nil_r|done]).
  all: destruct H0 as [H0 Hc0].
  - assert (Hend : (x, s1) = (res, s') → ∃ n, (n ≤ 0)%nat ∧ (is_ok res = false → n = 0%nat) ∧
      extends (gw_metric_window gw) s s' (replicate (S n) idx) ∧ gs_cache s' = gs_cache s ∧
      m_ok <$> last (metrics_of (gs_log s')) = Some (is_ok res)).
    { intros [= <- <-]. exists O. split_and!; [done..| |by rewrite Hc|done].
      apply (extends_trans _ _ _ _ [] [idx] H0 Hx). }
    destruct x; apply Hend.
  - destruct x as [resp|e].
    + intros [= <- <-]. exists O. split_and!; [lia|done| |by rewrite Hc|done].
      apply (extends_trans _ _ _ _ [] [idx] H0 Hx).
    + intros E2. destruct (IH _ _ _ _ E2) as (n & Hn & He & Hext & Hc2 & Hl2).
      exists (S n). split_and!; [lia|intros ?; f_equal; auto| |by rewrite Hc2, Hc|done].
      apply (extends_trans _ _ _ _ [] _ H0), (extends_trans _ _ _ _ [idx] _ Hx Hext).
Qed.

Lemma built_ok gw : built gw → gateway_ok gw.
Proof using.
  induction 1 as [| ? ? ? ? ? ? _ IH | gw _ IH | | | |]; unfold gateway_ok in *; cbn; try done.
  - intros d Hd%IH. rewrite length_app. lia.
  - destruct (length (gw_providers gw)) eqn:E; [done|]. intros d [= <-]. lia.
Qed.

Lemma resolve_model_range (gw : Gateway (W:=W)) model idx up ex :
  gateway_ok gw → resolve_model gw model = Ok (idx, up, ex) → is_Some (gw_providers gw !! idx).
Proof using.
  intros Hgw. unfold resolve_model. destruct (split_once_char ch_slash model) as [[hint upstream]|].
  - destruct (is_empty hint || is_empty upstream); [done|].
    destruct (find_index _ _ 0) as [k|] eqn:E; [|done].
    apply find_index_Some in E as (r & _ & _ & Hk & _). rewrite lookup_lt_is_Some.
    destruct (match gw_providers gw !! k with Some r => reg_prefixes r | None => [] end);
      [|destruct (existsb _ _); [|done]]; intros [= <- _ _]; lia.
  - destruct (lookup_index gw model) as [k|] eqn:E; [|done]. intros [= <- _ _].
    rewrite lookup_lt_is_Some. unfold lookup_index in E.
    destruct (find_index _ _ 0) as [k'|] eqn:E'.
    + apply find_index_Some in E' as (r & _ & _ & Hk & _). injection E as <-. lia.
    + by apply Hgw.
Qed.

Lemma cache_store_extends window s s' ds key resp :
  extends window s s' ds → extends window s (cache_store key resp s') ds.
Proof using.
  intros (H1 & H2 & H3). split_and!; [|done|done]. intros H. destruct (H1 H). by split.
Qed.

Lemma chat_inner_spec gw req parent s res s' :
  gateway_ok gw → chat_inner gw req parent s = (res, s') → chat_spec gw req s res s'.
Proof using.
  intros Hgw. unfold Gateway.chat_inner.
  destruct (cache_hit hash req s) as [hit|] eqn:Eh; [intros [= <- <-]; by apply ChatHit|].
  destruct (budget_gate gw s) as [e|] eqn:Eb.
  { unfold budget_gate in Eb. destruct (gw_budget gw) as [b|] eqn:Egb; [cbn in Eb|done].
    case_match eqn:El; [|done]. intros [= <- <-]. eapply ChatOverBudget; try done.
    unfold budget_gate. by rewrite Egb; cbn; rewrite El. }
  destruct (resolve_model gw (rq_model req)) as [[[idx up] ex]|e] eqn:Er;
    [|intros [= <- <-]; by apply ChatUnroutable].
  destruct (resolve_model_range _ _ _ _ _ Hgw Er) as [r Hr]. rewrite Hr.
  set (upreq := mkRequest up _ _ _).
  set (attempts := N.max (max_attempts (gw_retry gw)) 1).
  destruct (attempt_loop gw idx r upreq (rq_model req) parent _ 0 s) as [x s1] eqn:Ea.
  destruct (attempt_loop_spec _ _ _ _ _ _ _ _ _ _ _ Ea) as (n & Hn & He & Hext & Hc & Hlast).
  assert (Hat : (S n ≤ N.to_nat attempts)%nat) by (unfold attempts in *; lia).
  assert (Hfull : is_ok x = false → S n = N.to_nat attempts).
  { intros Hx. specialize (He Hx). unfold attempts in *. lia. }
  destruct x as [resp|e].
  { intros [= <- <-]. eapply (ChatDispatched _ _ _ _ idx up ex n []); try done.
    - rewrite app_nil_r. by apply cache_store_extends.
    - by left.
    - intros [?|?]; done.
    - cbn. by rewrite Hc. }
  specialize (Hfull eq_refl).
  assert (Hplain : chat_spec gw req s (Err e) s1).
  { eapply (ChatDispatched _ _ _ _ idx up ex n []); try done; [by rewrite app_nil_r|by left]. }
  destruct (gw_default gw) as [d|] eqn:Ed; [|by intros [= <- <-]].
  destruct (negb ex && _ && _) eqn:Ef; [|by intros [= <- <-]].
  apply andb_true_iff in Ef as [[Hex%negb_true_iff Hfb]%andb_true_iff Hne%negb_true_iff%Nat.eqb_neq].
  destruct (gw_providers gw !! d) as [rd|]; [|by intros [= <- <-]].
  destruct (dispatch_once gw d rd upreq (rq_model req) parent s1) as [y s2] eqn:E2.
  destruct (dispatch_once_extends _ _ _ _ _ _ _ _ _ E2) as (Hx2 & Hc2 & Hlast2).
  pose proof (extends_trans _ _ _ _ _ _ Hext Hx2) as H12.
  assert (Hd : [d] = [] ∨ ∃ d', [d] = [d'] ∧ gw_default gw = Some d' ∧ d' ≠ idx ∧ ex = false ∧
     fallback_to_default (gw_retry gw) = true) by (right; by exists d).
  destruct y as [resp|e2]; intros [= <- <-];
    eapply (ChatDispatched _ _ _ _ idx up ex n [d]); try done.
  - by apply cache_store_extends.
  - cbn. by rewrite Hc2, Hc.
  - by rewrite Hc2, Hc.
Qed.

Lemma initial_state_ok window (w : W) cap : state_ok window (initial_state w cap).
Proof using.
  split; [split; cbn; try done|].
  - intros c. cbn. unfold with_cache. destruct (N.eqb_spec cap 0); [done|]. intros [= <-].
    split; cbn; [constructor| |lia|lia].
    intros k. rewrite lookup_empty. split; [by intros ?%elem_of_nil|by intros []].
Qed.

Lemma chat_inner_state_ok (gw : Gateway (W:=W)) req parent s res s' :
  gateway_ok gw → state_ok (gw_metric_window gw) s →
  chat_inner gw req parent s = (res, s') → state_ok (gw_metric_window gw) s'.
Proof using.
  intros Hgw [Hm Hc] E. apply chat_inner_spec in E; [|done].
  destruct E as [| | |idx up ex n fb res s' _ _ _ _ Hext _ _ _ Hcache]; [by split..|].
  split; [by apply Hext|]. rewrite Hcache. intros c. destruct res as [resp|e]; [|apply Hc].
  intros (c0 & Hc0 & ->)%fmap_Some. by apply Cache_insert_ok, Hc.
Qed.
End Proofs.

(** ** Model routing *)

Section Routing.
Context {W : Type}.
Implicit Types (gw : Gateway (W:=W)) (r : Registration (W:=W)).

Lemma owns_spec r model :
  existsb (starts_with model) (reg_prefixes r) = true ↔ owns r model.
Proof using.
  rewrite existsb_exists. unfold owns. setoid_rewrite starts_with_spec.
  split; intros (p & Hp & k & Hk); exists p; (split; [by apply list_elem_of_In|by exists k]).
Qed.

Lemma not_owns_spec r model :
  existsb (starts_with model) (reg_prefixes r) = false ↔ ¬ owns r model.
Proof using. rewrite <-owns_spec. by destruct (existsb _ _). Qed.

(** The search for a registration finds the first match. *)
Lemma find_index_lookup {A} (p : A → bool) l k :
  find_index p l 0 = Some k ↔
  ∃ x, l !! k = Some x ∧ p x = true ∧ ∀ j y, (j < k)%nat → l !! j = Some y → p y = false.
Proof using.
  split.
  - intros (x & Hx & Hp & _ & Hj)%find_index_Some. rewrite Nat.sub_0_r in *. by exists x.
  - intros (x & Hx & Hp & Hj). destruct (find_index p l 0) as [k'|] eqn:E.
    + apply find_index_Some in E as (x' & Hx' & Hp' & _ & Hj'). rewrite Nat.sub_0_r in *.
      destruct (Nat.lt_trichotomy k k') as [H|[->|H]]; [|done|].
      * by rewrite (Hj' _ _ H Hx) in Hp.
      * by rewrite (Hj _ _ H Hx') in Hp'.
    + apply list_elem_of_lookup_2 in Hx. by rewrite (proj1 (find_index_None _ _ _) E x Hx) in Hp.
Qed.

Lemma routes_to_resolve gw model idx up ex :
  routes_to gw model idx up ex → resolve_model gw model = Ok (idx, up, ex).
Proof using.
  unfold resolve_model. intros [hint upstream i r -> Hs Hh Hu Hr Hn Hfst Hown|i r Hs Hr Hown Hfst|i Hs Hno Hd].
  - rewrite split_once_char_app by done. destruct hint as [|h hint]; [done|].
    destruct upstream as [|u upstream]; [done|]. cbn [is_empty orb].
    rewrite (proj2 (find_index_lookup _ _ i)).
    2:{ exists r. split_and!; [done|by apply str_eqb_eq|]. intros j r' Hj Hr'.
        apply not_true_iff_false. rewrite str_eqb_eq, <-Hn. by apply (Hfst j). }
    rewrite Hr. destruct Hown as [->|Hown]; [done|].
    apply owns_spec in Hown. rewrite Hown. by destruct (reg_prefixes r).
  - rewrite (proj2 (split_once_char_None _ _)) by done. unfold lookup_index.
    rewrite (proj2 (find_index_lookup _ _ i)); [done|]. exists r. split_and!; [done|by apply owns_spec|].
    intros j r' Hj Hr'. apply not_owns_spec. by apply (Hfst j).
  - rewrite (proj2 (split_once_char_None _ _)) by done. unfold lookup_index.
    rewrite (proj2 (find_index_None _ _ _)); [by rewrite Hd|]. intros r Hr. by apply not_owns_spec, Hno.
Qed.

Lemma resolve_routes_to gw model idx up ex :
  resolve_model gw model = Ok (idx, up, ex) → routes_to gw model idx up ex.
Proof using.
  unfold resolve_model. destruct (split_once_char ch_slash model) as [[hint upstream]|] eqn:Es.
  - apply split_once_char_Some in Es as [-> Hs].
    destruct (is_empty hint || is_empty upstream) eqn:Ee; [done|].
    destruct hint as [|h hint]; [done|]. destruct upstream as [|u upstream]; [done|].
    destruct (find_index _ _ 0) as [k|] eqn:E; [|done].
    apply find_index_lookup in E as (r & Hr & Hn%str_eqb_eq & Hj). rewrite Hr.
    assert (Hfst : ∀ j r', (j < k)%nat → gw_providers gw !! j = Some r' → reg_name r' ≠ reg_name r).
    { intros j r' Hjk Hr' Heq. specialize (Hj j r' Hjk Hr').
      rewrite Heq, Hn in Hj. by rewrite (proj2 (str_eqb_eq _ _) eq_refl) in Hj. }
    destruct (reg_prefixes r) as [|p ps] eqn:Ep.
    + intros [= <- <- <-]. eapply (RouteCanonical _ _ _ _ _ r); try done. by left.
    + rewrite <-Ep. destruct (existsb _ _) eqn:Ex; [|done]. intros [= <- <- <-].
      eapply (RouteCanonical _ _ _ _ _ r); try done. right. by apply owns_spec.
  - apply split_once_char_None in Es. unfold lookup_index.
    destruct (find_index _ _ 0) as [k|] eqn:E.
    + apply find_index_lookup in E as (r & Hr & Ho%owns_spec & Hj). intros [= <- <- <-].
      eapply (RouteOwner _ _ _ r); try done. intros j r' H1 H2. apply not_owns_spec. by eapply Hj.
    + destruct (gw_default gw) as [d|] eqn:Ed; [|done]. intros [= <- <- <-].
      apply RouteDefault; [done| |done]. intros r Hr. apply not_owns_spec.
      by apply (proj1 (find_index_None _ _ _) E).
Qed.

(** The canonical listing, one registration at a time. *)
Definition listed gw (e : str * str * str) : Prop :=
  ∃ r upstream, r ∈ gw_providers gw ∧ upstream ∈ reg_models r ∧
    e = (canonical_id r upstream, reg_name r, reg_transport r).

Lemma canonical_step_inv r upstream models e :
  e ∈ canonical_step r models upstream →
  e ∈ models ∨ e = (canonical_id r upstream, reg_name r, reg_transport r).
Proof using. unfold canonical_step. case_match; [by left|set_solver]. Qed.

Lemma canonical_step_NoDup r upstream models :
  NoDup models.*1.*1 → NoDup (canonical_step r models upstream).*1.*1.
Proof using.
  unfold canonical_step. case_match eqn:E; [done|]. intros Hnd. rewrite !fmap_app. cbn.
  apply NoDup_app. split_and!; [done| |apply NoDup_singleton].
  intros x Hx ->%list_elem_of_singleton. apply not_true_iff_false in E. apply E, existsb_exists.
  apply list_elem_of_fmap in Hx as (y & Hy & (m & -> & Hm)%list_elem_of_fmap).
  exists m. split; [by apply list_elem_of_In|]. by rewrite <-Hy, (proj2 (str_eqb_eq _ _)).
Qed.

Lemma canonical_models_inv gw :
  (∀ e, e ∈ canonical_models gw → listed gw e) ∧ NoDup (canonical_models gw).*1.*1.
Proof using.
  unfold canonical_models.
  assert (H : ∀ rs acc, rs ⊆ gw_providers gw → (∀ e, e ∈ acc → listed gw e) → NoDup acc.*1.*1 →
    let out := foldl (λ models r, foldl (canonical_step r) models (reg_models r)) acc rs in
    (∀ e, e ∈ out → listed gw e) ∧ NoDup out.*1.*1); [|by apply H; [done|set_solver|constructor]].
  induction rs as [|r rs IH]; intros acc Hrs Hacc Hnd; [done|]. cbn.
  assert (H : ∀ us acc, us ⊆ reg_models r → (∀ e, e ∈ acc → listed gw e) → NoDup acc.*1.*1 →
    (∀ e, e ∈ foldl (canonical_step r) acc us → listed gw e) ∧
    NoDup (foldl (canonical_step r) acc us).*1.*1).
  { induction us as [|u us IHu]; intros acc' Hus Hacc' Hnd'; [done|]. cbn.
    apply IHu; [set_solver| |by apply canonical_step_NoDup].
    intros e [?| ->]%canonical_step_inv; [by apply Hacc'|]. exists r, u. set_solver. }
  destruct (H (reg_models r) acc) as [H1 H2]; [set_solver|done|done|].
  apply IH; [set_solver|done|done].
Qed.

(** The upstream part of a canonical id. *)
Definition upstream_of r (upstream : str) : str :=
  match split_once_char ch_slash upstream with
  | Some (prefix, rest) => if str_eqb (normalize_provider_id prefix) (reg_name r) then rest else upstream
  | None => upstream
  end.

Lemma canonical_id_eq r upstream :
  canonical_id r upstream = reg_name r ++ ch_slash :: upstream_of r upstream.
Proof using. unfold canonical_id, upstream_of. repeat case_match; done. Qed.

Lemma built_names gw : built gw → ∀ r, r ∈ gw_providers gw → normalize_provider_id (reg_name r) = reg_name r.
Proof using.
  induction 1; cbn; try done; [set_solver|].
  intros r [Hr| ->%list_elem_of_singleton]%elem_of_app; [auto|]. apply normalize_provider_id_idem.
Qed.

(** A model name resolves to a registration, an upstream model and an
    explicit flag exactly when the routing rules send it there: a canonical
    [provider/model] to the first registration with that normalised name, which
    must own the model or own everything; any other name to the first owner by
    prefix, else to the default. *)
Theorem resolve_model_routes gw model idx up ex :
  resolve_model gw model = Ok (idx, up, ex) ↔ routes_to gw model idx up ex.
Proof using. split; [apply resolve_routes_to|apply routes_to_resolve]. Qed.

(** The listing of canonical models has no duplicates, and every id it lists
    routes back, explicitly, to the registration that listed it, provided the
    registered names are distinct, non-empty and without a slash, and each
    registration owns the non-empty models it lists. *)
Theorem canonical_models_route_back gw e :
  built gw → NoDup (reg_name <$> gw_providers gw) →
  (∀ r, r ∈ gw_providers gw → reg_name r ≠ [] ∧ (ch_slash ∉ reg_name r) ∧
     ∀ u, u ∈ reg_models r → upstream_of r u ≠ [] ∧ (reg_prefixes r = [] ∨ owns r (upstream_of r u))) →
  e ∈ canonical_models gw →
  NoDup (canonical_models gw).*1.*1 ∧
  ∃ idx r up, gw_providers gw !! idx = Some r ∧ reg_name r = e.1.2 ∧ reg_transport r = e.2 ∧
    resolve_model gw e.1.1 = Ok (idx, up, true).
Proof using.
  intros Hb Hnd Hreg He. destruct (canonical_models_inv gw) as [Hl Hnd']. split; [done|].
  destruct (Hl _ He) as (r & u & Hr & Hu & ->). destruct (Hreg r Hr) as (Hne & Hs & Hms).
  destruct (Hms u Hu) as [Hue Hown]. apply list_elem_of_lookup in Hr as [idx Hidx].
  exists idx, r, (upstream_of r u). cbn. split_and!; [done..|]. apply routes_to_resolve.
  eapply (RouteCanonical _ _ (reg_name r) _ _ r); try done.
  - apply canonical_id_eq.
  - symmetry. eapply built_names; [done|by eapply list_elem_of_lookup_2].
  - intros j r' Hj Hr' Heq. assert (j = idx); [|lia].
    eapply (NoDup_lookup _ _ _ (reg_name r)); [exact Hnd| |]; rewrite list_lookup_fmap.
    + by rewrite Hr', <-Heq.
    + by rewrite Hidx.
Qed.
End Routing.

(** ** Requests *)

Section Requests.
Context {W : Type}.
Context (now : W → N) (elapsed_ms : W → W → N) (sleep : N → W → W).
Context (hash : HashInput → N) (powi : f64 → N → f64).
Implicit Types (gw : Gateway (W:=W)) (s : GwState (W:=W)).

Abbreviation chat_inner := (chat_inner now elapsed_ms sleep hash powi).
Abbreviation reachable := (reachable now elapsed_ms sleep hash powi).

Lemma reachable_ok gw w cap s :
  gateway_ok gw → reachable gw w cap s → state_ok (gw_metric_window gw) s.
Proof using.
  intros Hgw. induction 1 as [|s req parent res s' _ IH E]; [apply initial_state_ok|].
  by eapply chat_inner_state_ok.
Qed.

(** C36: a request ends in exactly one of four ways: a cache hit, a budget
    refusal and an unroutable model leave the gateway untouched and contact no
    provider; otherwise the routed provider is tried at least once and at most
    [max_attempts] times, the default provider once more only after all of them
    failed, only if allowed, and never for a canonical name; the outcome is the
    one of the last metric recorded, and only a success is cached. *)
Theorem chat_inner_ends gw req parent s :
  built gw →
  chat_spec hash gw req s (chat_inner gw req parent s).1 (chat_inner gw req parent s).2.
Proof using.
  intros Hb. apply (chat_inner_spec now elapsed_ms sleep hash powi gw req parent); [by apply built_ok|].
  by destruct (chat_inner gw req parent s).
Qed.

(** In every reachable state the metrics refine the log of everything ever
    dispatched: the window holds the most recent metrics, the summary and the
    per-provider summaries fold all of them, ids count up from one, one metric
    per dispatch; and the cache holds at most its capacity, first in first out,
    with its queue naming exactly its entries. *)
Theorem reachable_refines_log gw w cap s :
  built gw → reachable gw w cap s → state_ok (gw_metric_window gw) s.
Proof using. intros Hb. by apply reachable_ok, built_ok. Qed.

(** With a cache, a request that succeeded is answered from the cache when
    it is repeated at once: same response, no state change, nothing dispatched. *)
Theorem repeat_served_from_cache gw w cap s req parent parent' resp s' :
  built gw → reachable gw w cap s → 0 < cap →
  chat_inner gw req parent s = (Ok resp, s') →
  chat_inner gw req parent' s' = (Ok resp, s').
Proof using.
  intros Hb Hreach Hcap E. pose proof (built_ok _ Hb) as Hgw.
  destruct (reachable_ok _ _ _ _ Hgw Hreach) as [_ Hcok].
  assert (Hsome : is_Some (gs_cache s)).
  { clear -Hreach Hcap Hgw. induction Hreach as [|s req parent res s' _ IH E].
    - cbn. unfold with_cache. destruct (N.eqb_spec cap 0); [lia|by eexists].
    - apply chat_inner_spec in E; [|done]. destruct E as [| | |? ? ? ? ? res s' _ _ _ _ _ _ _ _ Hc]; try done.
      rewrite Hc. destruct res; [by apply fmap_is_Some|done]. }
  assert (Hhit : cache_hit hash req s' = Some resp).
  { apply chat_inner_spec in E; [|done]. remember (Ok resp) as res eqn:Er.
    destruct E as [hit Hh| | |? ? ? ? ? res s' Hmiss _ _ _ _ _ _ _ Hc]; [by injection Er as ->|done|done|].
    subst res. destruct Hsome as [c Hsc]. rewrite Hsc in Hc. unfold cache_hit in *.
    rewrite Hsc in Hmiss. rewrite Hc. cbn in *. unfold Cache_get in *.
    by destruct (Cache_insert_ok c (cache_key hash req) resp (Hcok c Hsc)) as (_ & _ & ->). }
  unfold Gateway.chat_inner. by rewrite Hhit.
Qed.
End Requests.

(** ** Concrete runs *)

Module Demo.
Definition now (w : N) : N := w.
Definition elapsed (w w' : N) : N := w' - w.
Definition sleep (ms w : N) : N := w + ms.
Definition hash (h : HashInput) : N := N.of_nat (length (hi_model h)).
Definition powi (_ : f64) (_ : N) : f64 := f64_one.

(** Answers with the model it was asked for, one token in and one out. *)
Definition echo (name : str) (w : N) (req : ChatRequest) : Result ChatResponse * N :=
  (Ok (mkResponse name (rq_model req) $"hi" (mkUsage 1 1 0 0)), w + 5).
Definition down (_ : str) (w : N) (_ : ChatRequest) : Result ChatResponse * N :=
  (Err (Provider $"down"), w + 7).

(** Two providers; the last is the default, prices are per call. *)
Definition gw : Gateway (W:=N) :=
  with_retry
    (with_budget
       (with_default_last
          (register
             (register Gateway_new
                (register_provider $"Anthropic" $"api" [$"claude-"] [$"claude-x"; $"claude-y"]
                   (down $"anthropic")))
             (register_provider $"Ollama" $"api" [] [$"OLLAMA/gemma"; $"plain"] (echo $"ollama"))))
       (upsert_model (Budget_new (f64_of_N 3)) $"claude-x"
          (mkPricing (f64_of_N 1000000) (f64_of_N 1000000))))
    (mkRetry 2 10 (f64_of_N 2) true).

Definition req (model : str) : ChatRequest := mkRequest model [mkMessage User $"hi"] None None.
Definition chat_at (g : Gateway) (model : str) (s : GwState) :=
  chat_inner now elapsed sleep hash powi g (req model) None s.
Definition s0 : GwState (W:=N) := initial_state 100 1.
Definition s1 := (chat_at gw $"claude-x" s0).2.
Definition s2 := (chat_at gw $"plain" s1).2.

Lemma gw_built : built gw.
Proof. repeat constructor. Qed.

Lemma s1_reachable : reachable now elapsed sleep hash powi gw 100 1 s1.
Proof. eapply reach_chat; [apply reach_init|]. apply surjective_pairing. Qed.
End Demo.

(** The refused provider is tried twice with a pause, then the default answers. *)
Example demo_fallback :
  dispatches_of (gs_log Demo.s1) = [0; 0; 1]%nat ∧
  map m_ok (metrics_of (gs_log Demo.s1)) = [false; false; true] ∧ gs_world Demo.s1 = 129.
Proof. vm_compute. done. Qed.

(** [budget_spent_usd] promises the cumulative cost of every request, but adds
    up the metrics still in the window: the gate's own total is larger. *)
Lemma budget_spent_under_reports :
  let gw := set_metric_window Demo.gw 1 in
  let s := (Demo.chat_at gw $"claude-x" Demo.s0).2 in
  let s' := (Demo.chat_at gw $"plain" s).2 in
  budget_spent_usd gw s' = f64_zero ∧
  s_total_cost_usd (mb_summary (gs_metrics s')) = f64_of_N 2.
Proof. vm_compute. done. Qed.

(** A model without a price costs nothing, yet is refused once the cap is
    reached: the gate looks only at the total. *)
Lemma budget_refuses_free_models :
  let gw := with_budget Demo.gw (upsert_model (Budget_new (f64_of_N 2)) $"claude-x"
              (mkPricing (f64_of_N 1000000) (f64_of_N 1000000))) in
  let s := (Demo.chat_at gw $"claude-x" Demo.s0).2 in
  cost_for (Budget_new (f64_of_N 2)) $"ollama/gemma" (mkUsage 1 1 0 0) = f64_zero ∧
  Demo.chat_at gw $"ollama/gemma" s =
    (Err (Provider $"gateway: budget exceeded (2.0000 ≥ cap 2.0000 USD)"), s).
Proof. vm_compute. done. Qed.

(** ** Witnesses *)

Lemma canonical_models_route_back_witness :
  ($"ollama/gemma", $"ollama", $"api") ∈ canonical_models Demo.gw ∧
  NoDup (canonical_models Demo.gw).*1.*1 ∧
  ∃ idx r up, gw_providers Demo.gw !! idx = Some r ∧ reg_name r = $"ollama" ∧ reg_transport r = $"api" ∧
    resolve_model Demo.gw $"ollama/gemma" = Ok (idx, up, true).
Proof.
  assert (He : ($"ollama/gemma", $"ollama", $"api") ∈ canonical_models Demo.gw).
  { apply (bool_decide_eq_true_1 _). vm_compute. done. }
  split; [exact He|].
  apply (canonical_models_route_back Demo.gw ($"ollama/gemma", $"ollama", $"api")).
  - apply Demo.gw_built.
  - apply (bool_decide_eq_true_1 _). vm_compute. done.
  - intros r Hr. apply elem_of_cons in Hr as [->|[->|[]%elem_of_nil]%elem_of_cons].
    + split_and!; [done|apply (bool_decide_eq_true_1 _); vm_compute; done|].
      intros u Hu. apply elem_of_cons in Hu as [->|[->|[]%elem_of_nil]%elem_of_cons].
      all: split; [done|]; right; exists $"claude-"; split; [by left|by eexists].
    + split_and!; [done|apply (bool_decide_eq_true_1 _); vm_compute; done|].
      intros u Hu. apply elem_of_cons in Hu as [->|[->|[]%elem_of_nil]%elem_of_cons].
      all: split; [done|by left].
  - exact He.
Defined.

Lemma chat_inner_ends_witness :
  built Demo.gw ∧
  chat_spec Demo.hash Demo.gw (Demo.req $"claude-x") Demo.s0
    (Demo.chat_at Demo.gw $"claude-x" Demo.s0).1 (Demo.chat_at Demo.gw $"claude-x" Demo.s0).2.
Proof.
  split; [apply Demo.gw_built|].
  apply (chat_inner_ends Demo.now Demo.elapsed Demo.sleep Demo.hash Demo.powi), Demo.gw_built.
Defined.

Lemma reachable_refines_log_witness :
  state_ok (gw_metric_window Demo.gw) Demo.s1 ∧ length (metrics_of (gs_log Demo.s1)) = 3%nat.
Proof.
  split; [|vm_compute; reflexivity].
  apply (reachable_refines_log Demo.now Demo.elapsed Demo.sleep Demo.hash Demo.powi Demo.gw 100 1);
    [apply Demo.gw_built|apply Demo.s1_reachable].
Defined.

Lemma repeat_served_from_cache_witness :
  ∃ resp, Demo.chat_at Demo.gw $"claude-x" Demo.s0 = (Ok resp, Demo.s1) ∧
    Demo.chat_at Demo.gw $"claude-x" Demo.s1 = (Ok resp, Demo.s1).
Proof.
  eexists. split; [vm_compute; reflexivity|].
  eapply (repeat_served_from_cache Demo.now Demo.elapsed Demo.sleep Demo.hash Demo.powi Demo.gw 100 1
            Demo.s0 (Demo.req $"claude-x") None None).
  - apply Demo.gw_built.
  - apply reach_init.
  - done.
  - vm_compute. reflexivity.
Defined.
