(* ===== verification/Sse.v ===== *)
(** * Streaming responses: [crates/rtrt-providers/src/stream.rs]

    Bodies read under a byte limit, and the server-sent event decoder.  A response
    is what the connection will deliver: a declared length, and the chunks still
    to come, the last of which may fail. *)
From S2P Require Import Prelude Str Utf8 Error Usage.

Definition MAX_SUCCESS_BODY_BYTES : N := 16 * 1024 * 1024.
Definition MAX_ERROR_BODY_BYTES : N := 256 * 1024.
Definition MAX_SSE_EVENT_BYTES : N := 1024 * 1024.
Definition MAX_SSE_TOTAL_BYTES : N := 64 * 1024 * 1024.

Record Response := mkHttpResponse {
  content_length : option N;
  (** [Some bytes] is a chunk, [None] a failing read. *)
  chunks : list (option (list byte));
}.

Definition over_limit (length : option N) (limit : N) : bool :=
  match length with Some l => limit <? l | None => false end.

Definition blen (bs : list byte) : N := N.of_nat (length bs).

(** ** Bounded bodies *)

Definition body_limit_error (provider kind : str) (limit : N) : Error :=
  Provider (provider ++ $" " ++ kind ++ $" body exceeds " ++ show_N limit ++ $" byte limit").

Fixpoint read_chunks (provider kind : str) (limit : N) (cs : list (option (list byte)))
    (body : list byte) : Result (list byte) :=
  match cs with
  | [] => Ok body
  | None :: _ => Err (Provider (provider ++ $" " ++ kind ++ $" body read failed"))
  | Some chunk :: cs' =>
      if limit <? sat_add u64_max (blen body) (blen chunk)
      then Err (body_limit_error provider kind limit)
      else read_chunks provider kind limit cs' (body ++ chunk)
  end.

Definition read_body_bounded (r : Response) (provider kind : str) (limit : N) : Result (list byte) :=
  if over_limit (content_length r) limit then Err (body_limit_error provider kind limit)
  else read_chunks provider kind limit (chunks r) [].

(** ** Frames *)

(** The loop of [event_boundary]: the line read so far, reversed, and the index. *)
Fixpoint event_boundary_from (line : list byte) (index : N) (bytes : list byte) : option N :=
  match bytes with
  | [] => None
  | b :: bytes' =>
      if b =? ch_nl
      then match line with
           | [] => Some (index + 1)
           | [c] => if c =? ch_cr then Some (index + 1) else event_boundary_from [] (index + 1) bytes'
           | _ => event_boundary_from [] (index + 1) bytes'
           end
      else event_boundary_from (b :: line) (index + 1) bytes'
  end.

Definition event_boundary (bytes : list byte) : option N := event_boundary_from [] 0 bytes.

Definition strip_space (value : str) : str := default value (strip_prefix $" " value).

Definition event_step (acc : str * list str) (line : str) : str * list str :=
  let line := trim_end_matches (N.eqb ch_cr) line in
  match strip_prefix $"event:" line with
  | Some value => (strip_space value, acc.2)
  | None =>
      match strip_prefix $"data:" line with
      | Some value => (acc.1, acc.2 ++ [strip_space value])
      | None => acc
      end
  end.

Definition parse_event (frame : list byte) : option (str * str) :=
  let '(event, data) := foldl event_step ($"message", []) (lines (from_utf8_lossy frame)) in
  match data with [] => None | _ => Some (event, join [ch_nl] data) end.

(** ** The decoder *)

Section Decoder.
Context {H : Type}.
(** The provider's handler: a closure with state of its own. *)
Context (handler : str → str → H → Result (option ChatStreamEvent) * H).

Definition sse_limit_error (provider scope : str) (limit : N) : Error :=
  Provider (provider ++ $" SSE " ++ scope ++ $" exceeds " ++ show_N limit ++ $" byte limit").
Definition sse_read_error (provider : str) : Error := Provider (provider ++ $" SSE read failed").

Record SseState := mkSse {
  sse_response : list (option (list byte));
  sse_buffer : list byte;
  sse_total : N;
  sse_provider : str;
  sse_terminal_error : option Error;
  sse_finished : bool;
  sse_handler : H;
}.

(** What one turn of the loop does: end the stream, yield an item, or go on. *)
Inductive Turn :=
| TurnEnd
| TurnYield (item : Result ChatStreamEvent) (s : SseState)
| TurnContinue (s : SseState).

Definition decode_state (r : Response) (provider : str) (h : H) : SseState :=
  mkSse (chunks r) [] 0 provider
    (if over_limit (content_length r) MAX_SSE_TOTAL_BYTES
     then Some (sse_limit_error provider $"total" MAX_SSE_TOTAL_BYTES) else None)
    false h.

(** Stop with an error; [cleared] when the buffer is emptied. *)
Definition stop (s : SseState) (cs : list (option (list byte))) (buffer : list byte) (e : Error) : Turn :=
  TurnYield (Err e) (mkSse cs buffer (sse_total s) (sse_provider s) None true (sse_handler s)).

Definition event_limit (s : SseState) : Error :=
  sse_limit_error (sse_provider s) $"event" MAX_SSE_EVENT_BYTES.

(** Hand a frame to the handler; [rest] is what becomes of the stream when the
    frame yields nothing. *)
Definition deliver (frame : list byte) (s : SseState) (rest : SseState → Turn) : Turn :=
  match parse_event frame with
  | None => rest s
  | Some (event, data) =>
      let '(r, h') := handler event data (sse_handler s) in
      let s' := mkSse (sse_response s) (sse_buffer s) (sse_total s) (sse_provider s) None false h' in
      match r with
      | Ok (Some value) => TurnYield (Ok value) s'
      | Ok None => rest s'
      | Err e => TurnYield (Err e) s'
      end
  end.

Definition turn (s : SseState) : Turn :=
  if sse_finished s then TurnEnd else
  match sse_terminal_error s with
  | Some e => stop s (sse_response s) (sse_buffer s) e
  | None =>
  match event_boundary (sse_buffer s) with
  | Some fin =>
      if MAX_SSE_EVENT_BYTES <? fin then stop s (sse_response s) [] (event_limit s)
      else
        let s' := mkSse (sse_response s) (drop (N.to_nat fin) (sse_buffer s)) (sse_total s)
                    (sse_provider s) None false (sse_handler s) in
        deliver (take (N.to_nat fin) (sse_buffer s)) s' TurnContinue
  | None =>
      if MAX_SSE_EVENT_BYTES <? blen (sse_buffer s) then stop s (sse_response s) [] (event_limit s)
      else
        match sse_response s with
        | Some chunk :: cs =>
            let next_total := sat_add u64_max (sse_total s) (blen chunk) in
            if MAX_SSE_TOTAL_BYTES <? next_total
            then stop s cs (sse_buffer s)
                   (sse_limit_error (sse_provider s) $"total" MAX_SSE_TOTAL_BYTES)
            else TurnContinue (mkSse cs (sse_buffer s ++ chunk) next_total (sse_provider s) None false
                                 (sse_handler s))
        | None :: cs => stop s cs (sse_buffer s) (sse_read_error (sse_provider s))
        | [] =>
            match sse_buffer s with
            | [] => TurnEnd
            | _ =>
                if MAX_SSE_EVENT_BYTES <? blen (sse_buffer s) then stop s [] (sse_buffer s) (event_limit s)
                else
                let s' := mkSse [] [] (sse_total s) (sse_provider s) None false (sse_handler s) in
                deliver (sse_buffer s) s' (λ _, TurnEnd)
            end
        end
  end
  end.

(** Consuming the stream: the items, and whether it ended within the fuel. *)
Fixpoint drain (fuel : nat) (s : SseState) : list (Result ChatStreamEvent) * bool :=
  match fuel with
  | O => ([], false)
  | S fuel' =>
      match turn s with
      | TurnEnd => ([], true)
      | TurnYield item s' => let '(items, e) := drain fuel' s' in (item :: items, e)
      | TurnContinue s' => drain fuel' s'
      end
  end.

(** Bytes, chunks and a stop left: every turn uses up one of them. *)
Definition measure (s : SseState) : nat :=
  if sse_finished s then 1
  else (3 + length (sse_buffer s) +
        foldr (λ c n, 1 + length (default [] c) + n)%nat 0%nat (sse_response s))%nat.

Definition decode (r : Response) (provider : str) (h : H) : list (Result ChatStreamEvent) :=
  let s := decode_state r provider h in (drain (measure s) s).1.
End Decoder.

(** ** Specifications *)

Section Specs.
Context {H : Type}.
Context (handler : str → str → H → Result (option ChatStreamEvent) * H).

(** What the handler yields for a frame, and its next state. *)
Definition frame_items (frame : list byte) (h : H) : list (Result ChatStreamEvent) * H :=
  match parse_event frame with
  | None => ([], h)
  | Some (event, data) =>
      let '(r, h') := handler event data h in
      (match r with Ok (Some v) => [Ok v] | Ok None => [] | Err e => [Err e] end, h')
  end.

(** Decoding a whole body at once: frame after frame, then the unterminated rest. *)
Fixpoint decode_body (fuel : nat) (provider : str) (body : list byte) (h : H) :
    list (Result ChatStreamEvent) :=
  match fuel with
  | O => []
  | S fuel' =>
      let over := [Err (sse_limit_error provider $"event" MAX_SSE_EVENT_BYTES)] in
      match event_boundary body with
      | Some fin =>
          if MAX_SSE_EVENT_BYTES <? fin then over
          else let '(items, h') := frame_items (take (N.to_nat fin) body) h in
               items ++ decode_body fuel' provider (drop (N.to_nat fin) body) h'
      | None =>
          if MAX_SSE_EVENT_BYTES <? blen body then over
          else match body with [] => [] | _ => (frame_items body h).1 end
      end
  end.

Definition concat_chunks (cs : list (option (list byte))) : list byte := concat (omap id cs).
Definition no_read_error (cs : list (option (list byte))) : Prop := Forall is_Some cs.

(** The states one decoder goes through. *)
Inductive sse_reachable (r : Response) (provider : str) (h : H) : SseState (H:=H) → Prop :=
| sse_start : sse_reachable r provider h (decode_state r provider h)
| sse_continue s s' :
    sse_reachable r provider h s → turn handler s = TurnContinue s' → sse_reachable r provider h s'
| sse_yield s item s' :
    sse_reachable r provider h s → turn handler s = TurnYield item s' → sse_reachable r provider h s'.

(** What a state holds in memory, against the chunks of at most [c] bytes the
    connection delivers. *)
Record sse_bounded (r : Response) (c : N) (s : SseState (H:=H)) : Prop := {
  sb_buffer : blen (sse_buffer s) ≤ MAX_SSE_EVENT_BYTES + c;
  sb_total : sse_total s ≤ MAX_SSE_TOTAL_BYTES;
  sb_consumed : ∃ consumed, chunks r = consumed ++ sse_response s ∧
    (sse_finished s = false → no_read_error consumed ∧ sse_total s = blen (concat_chunks consumed));
}.

(** The stream a server writes: a name, then data lines, then a blank line. *)
Definition wire_lines (e : str * list str) : list str :=
  ($"event: " ++ e.1) :: map (λ d, $"data: " ++ d) e.2.
Definition wire_event (e : str * list str) : str := unlines (wire_lines e) ++ [ch_nl].
Definition wire (evs : list (str * list str)) : list byte := concat (map (λ e, as_bytes (wire_event e)) evs).

Definition field_ok (s : str) : Prop := Forall (λ c, scalar c ∧ c ≠ ch_nl ∧ c ≠ ch_cr) s.
Definition event_ok (e : str * list str) : Prop :=
  field_ok e.1 ∧ Forall field_ok e.2 ∧ e.2 ≠ [] ∧ blen (as_bytes (wire_event e)) ≤ MAX_SSE_EVENT_BYTES.

(** The handler run on each event in turn. *)
Fixpoint handle_all (evs : list (str * list str)) (h : H) : list (Result ChatStreamEvent) :=
  match evs with
  | [] => []
  | e :: evs' =>
      let '(r, h') := handler e.1 (join [ch_nl] e.2) h in
      match r with
      | Ok (Some v) => Ok v :: handle_all evs' h'
      | Ok None => handle_all evs' h'
      | Err err => Err err :: handle_all evs' h'
      end
  end.
End Specs.

(** ** Lemmas *)

Lemma over_limit_false l limit : over_limit l limit = false ↔ ∀ n, l = Some n → n ≤ limit.
Proof.
  destruct l as [n|]; cbn; [|by split].
  rewrite N.ltb_ge. split; [by intros ? ? [= <-]|auto].
Qed.

Lemma concat_chunks_cons c cs : concat_chunks (Some c :: cs) = c ++ concat_chunks cs.
Proof. done. Qed.

Lemma concat_chunks_snoc cs c : concat_chunks (cs ++ [Some c]) = concat_chunks cs ++ c.
Proof. unfold concat_chunks. rewrite omap_app, concat_app. cbn. by rewrite app_nil_r. Qed.

Lemma sat_add_exact max a b : sat_add max a b < max → sat_add max a b = a + b.
Proof. unfold sat_add. lia. Qed.

Lemma blen_app a b : blen (a ++ b) = blen a + blen b.
Proof. unfold blen. rewrite length_app. lia. Qed.

(** The boundary is the first one, and depends only on the bytes up to it. *)
Lemma event_boundary_from_app line index a b :
  match event_boundary_from line index a with
  | Some n => event_boundary_from line index (a ++ b) = Some n ∧ index < n ≤ index + blen a
  | None => ∀ n, event_boundary_from line index (a ++ b) = Some n → index + blen a < n
  end.
Proof.
  revert line index. induction a as [|x a IH]; intros line index; cbn [event_boundary_from app].
  - unfold blen. cbn [length]. revert line index.
    induction b as [|y b IHb]; intros line index n; cbn; [done|].
    repeat case_match; try (intros [= <-]; lia); intros E; apply IHb in E; lia.
  - assert (Hl : blen (x :: a) = 1 + blen a) by (unfold blen; cbn; lia). rewrite Hl.
    assert (Hgo : ∀ l', match event_boundary_from l' (index + 1) a with
      | Some n => event_boundary_from l' (index + 1) (a ++ b) = Some n ∧ index < n ≤ index + (1 + blen a)
      | None => ∀ n, event_boundary_from l' (index + 1) (a ++ b) = Some n → index + (1 + blen a) < n end).
    { intros l'. specialize (IH l' (index + 1)).
      destruct (event_boundary_from l' (index + 1) a) as [n|]; [destruct IH; split; [done|lia]|].
      intros n Hn%IH. lia. }
    destruct (x =? ch_nl); [|apply Hgo].
    destruct line as [|c [|]]; [split; [done|lia]| |apply Hgo].
    destruct (c =? ch_cr); [split; [done|lia]|apply Hgo].
Qed.

Lemma event_boundary_app_Some a b n :
  event_boundary a = Some n → event_boundary (a ++ b) = Some n ∧ 0 < n ≤ blen a.
Proof.
  intros E. pose proof (event_boundary_from_app [] 0 a b) as H. unfold event_boundary in E.
  rewrite E in H. destruct H. split; [done|lia].
Qed.

Lemma event_boundary_app_None a b n :
  event_boundary a = None → event_boundary (a ++ b) = Some n → blen a < n.
Proof.
  intros E. pose proof (event_boundary_from_app [] 0 a b) as H. unfold event_boundary in E.
  rewrite E in H. intros Hn%H. lia.
Qed.

Section Proofs.
Context {H : Type}.
Context (handler : str → str → H → Result (option ChatStreamEvent) * H).
Implicit Types s : SseState (H:=H).

Abbreviation turn := (turn handler).
Abbreviation drain := (drain handler).
Abbreviation frame_items := (frame_items handler).
Abbreviation decode_body := (decode_body handler).

(** The state after a frame was taken off the buffer and handled. *)
Definition delivered s (frame : list byte) s' : Prop :=
  sse_response s' = sse_response s ∧ sse_buffer s' = sse_buffer s ∧ sse_total s' = sse_total s ∧
  sse_provider s' = sse_provider s ∧ sse_terminal_error s' = None ∧ sse_finished s' = false ∧
  sse_handler s' = (frame_items frame (sse_handler s)).2.

Lemma deliver_cases frame s rest :
  sse_terminal_error s = None → sse_finished s = false →
  ∃ s', delivered s frame s' ∧
    match (frame_items frame (sse_handler s)).1 with
    | [] => deliver handler frame s rest = rest s'
    | item :: more => more = [] ∧ deliver handler frame s rest = TurnYield item s'
    end.
Proof using.
  intros Ht Hf. unfold delivered, deliver, Sse.frame_items. destruct s as [cs b n p te f h]; cbn in *.
  subst. destruct (parse_event frame) as [[event data]|]; [|by exists (mkSse cs b n p None false h)].
  destruct (handler event data h) as [[[v|]|e] h'];
    by exists (mkSse cs b n p None false h').
Qed.

(** Every turn that goes on uses up a byte, a chunk or the right to stop. *)
Lemma turn_measure s :
  match turn s with
  | TurnEnd => True
  | TurnYield _ s' | TurnContinue s' => (measure s' < measure s)%nat
  end.
Proof using.
  destruct s as [cs b n p te f h]. unfold Sse.turn; cbn [sse_finished].
  destruct f; [done|]. cbn [sse_terminal_error].
  destruct te as [e|]; [unfold measure; cbn; lia|]. cbn [sse_buffer].
  destruct (event_boundary b) as [fin|] eqn:Eb.
  - destruct (MAX_SSE_EVENT_BYTES <? fin); [unfold measure; cbn; lia|].
    destruct (event_boundary_app_Some b [] fin Eb) as [_ Hfin].
    match goal with |- context [deliver handler ?f ?s ?r] =>
      destruct (deliver_cases f s r eq_refl eq_refl) as (s' & (Hr & Hb & _ & _ & _ & Hf & _) & Hd) end.
    assert (Hm : (measure s' < measure (mkSse cs b n p None false h))%nat).
    { unfold measure. rewrite Hr, Hb, Hf. cbn [sse_buffer sse_response sse_finished].
      rewrite length_drop. unfold blen in Hfin. lia. }
    destruct (frame_items _ _) as [[|item more] h']; cbn [fst] in Hd; [by rewrite Hd|].
    destruct Hd as [_ Hd]. by rewrite Hd.
  - destruct (MAX_SSE_EVENT_BYTES <? blen b); [unfold measure; cbn; lia|]. cbn [sse_response].
    destruct cs as [|[chunk|] cs].
    + destruct b as [|x b]; [done|].
      match goal with |- context [deliver handler ?f ?s ?r] =>
        destruct (deliver_cases f s r eq_refl eq_refl) as (s' & (Hr & Hb & _ & _ & _ & Hf & _) & Hd) end.
      destruct (frame_items _ _) as [[|item more] h']; cbn [fst] in Hd; [by rewrite Hd|].
      destruct Hd as [_ Hd]. rewrite Hd. unfold measure. rewrite Hr, Hb, Hf. cbn. lia.
    + cbn [sse_total sse_buffer sse_provider sse_handler].
      destruct (MAX_SSE_TOTAL_BYTES <? sat_add u64_max n (blen chunk)); unfold measure; cbn; rewrite ?length_app; lia.
    + unfold measure. cbn. lia.
Qed.

Lemma drain_enough fuel s : (measure s ≤ fuel)%nat → (drain fuel s).2 = true.
Proof using.
  revert s. induction fuel as [|fuel IH]; intros s Hm.
  - exfalso. unfold measure in Hm. destruct (sse_finished s); lia.
  - cbn [Sse.drain]. pose proof (turn_measure s) as Ht.
    destruct (turn s) as [|item s'|s']; [done| |apply IH; lia].
    specialize (IH s' ltac:(lia)). by destruct (drain fuel s').
Qed.

Lemma drain_finished fuel s : sse_finished s = true → (drain fuel s).1 = [].
Proof using. intros Hf. destruct fuel; [done|]. cbn. unfold Sse.turn. by rewrite Hf. Qed.

Lemma decode_body_frame n p body h fin :
  event_boundary body = Some fin → fin ≤ MAX_SSE_EVENT_BYTES →
  decode_body (S n) p body h =
  (frame_items (take (N.to_nat fin) body) h).1 ++
  decode_body n p (drop (N.to_nat fin) body) (frame_items (take (N.to_nat fin) body) h).2.
Proof using.
  intros E Hle. cbn [Sse.decode_body]. rewrite E. rewrite (proj2 (N.ltb_ge _ _)) by done.
  by destruct (frame_items _ _).
Qed.

Lemma decode_body_over n p a b h :
  match event_boundary a with Some fin => MAX_SSE_EVENT_BYTES < fin | None => MAX_SSE_EVENT_BYTES < blen a end →
  decode_body (S n) p (a ++ b) h = [Err (sse_limit_error p $"event" MAX_SSE_EVENT_BYTES)].
Proof using.
  cbn [Sse.decode_body]. destruct (event_boundary a) as [fin|] eqn:E; intros Hlt.
  - destruct (event_boundary_app_Some a b fin E) as [-> _]. by rewrite (proj2 (N.ltb_lt _ _)).
  - destruct (event_boundary (a ++ b)) as [fin|] eqn:E'.
    + pose proof (event_boundary_app_None a b fin E E'). rewrite (proj2 (N.ltb_lt _ _)); [done|lia].
    + rewrite (proj2 (N.ltb_lt _ _)); [done|]. rewrite blen_app. lia.
Qed.

(** One delivered frame: what it yields now, and what the rest yields. *)
Lemma drain_deliver fuel s frame s1 rest items :
  sse_terminal_error s1 = None → sse_finished s1 = false →
  turn s = deliver handler frame s1 rest →
  (∀ s', delivered s1 frame s' → (drain fuel s').1 = items) →
  (∀ s', delivered s1 frame s' → match rest s' with TurnEnd => items = [] | TurnContinue s'' => s'' = s' | TurnYield _ _ => False end) →
  (drain (S fuel) s).1 = (frame_items frame (sse_handler s1)).1 ++ items.
Proof using.
  intros Ht Hf E Hrec Hrest. cbn [Sse.drain]. rewrite E.
  destruct (deliver_cases frame s1 rest Ht Hf) as (s' & Hs' & Hd).
  specialize (Hrec s' Hs'). specialize (Hrest s' Hs').
  destruct (frame_items frame (sse_handler s1)) as [[|item more] h']; cbn [fst] in *.
  - rewrite Hd. destruct (rest s') as [| |s'']; [by subst|done|by subst].
  - destruct Hd as [-> ->]. destruct (drain fuel s') as [items' e]. cbn in *. by subst.
Qed.

Lemma drain_stop fuel s cs buffer e : turn s = stop s cs buffer e → (drain (S fuel) s).1 = [Err e].
Proof using.
  cbn [Sse.drain]. intros ->. unfold stop.
  match goal with |- context [Sse.drain handler fuel ?s'] =>
    pose proof (drain_finished fuel s' eq_refl) as Hd; destruct (drain fuel s') end.
  cbn in *. by rewrite Hd.
Qed.

(** A state that is neither stopped nor about to stop. *)
Definition running s : Prop :=
  sse_finished s = false ∧ sse_terminal_error s = None ∧ no_read_error (sse_response s) ∧
  sse_total s + blen (concat_chunks (sse_response s)) ≤ MAX_SSE_TOTAL_BYTES.

Definition pending s : list byte := sse_buffer s ++ concat_chunks (sse_response s).

(** The turns of a running state. *)
Lemma turn_over s :
  running s →
  match event_boundary (sse_buffer s) with
  | Some fin => MAX_SSE_EVENT_BYTES < fin
  | None => MAX_SSE_EVENT_BYTES < blen (sse_buffer s)
  end → turn s = stop s (sse_response s) [] (event_limit s).
Proof using.
  intros (Hf & Ht & _) Hlt. unfold Sse.turn. rewrite Hf, Ht.
  by destruct (event_boundary _); rewrite (proj2 (N.ltb_lt _ _)).
Qed.

Lemma turn_frame s fin :
  running s → event_boundary (sse_buffer s) = Some fin → fin ≤ MAX_SSE_EVENT_BYTES →
  turn s = deliver handler (take (N.to_nat fin) (sse_buffer s))
             (mkSse (sse_response s) (drop (N.to_nat fin) (sse_buffer s)) (sse_total s)
                (sse_provider s) None false (sse_handler s)) TurnContinue.
Proof using.
  intros (Hf & Ht & _) E Hle. unfold Sse.turn. by rewrite Hf, Ht, E, (proj2 (N.ltb_ge _ _)).
Qed.

Lemma turn_chunk s chunk cs :
  running s → event_boundary (sse_buffer s) = None → blen (sse_buffer s) ≤ MAX_SSE_EVENT_BYTES →
  sse_response s = Some chunk :: cs →
  let s' := mkSse cs (sse_buffer s ++ chunk) (sse_total s + blen chunk) (sse_provider s) None false
              (sse_handler s) in
  turn s = TurnContinue s' ∧ running s'.
Proof using.
  intros (Hf & Ht & Hok & Htot) E Hle Hr. rewrite Hr in Hok, Htot.
  rewrite concat_chunks_cons, blen_app in Htot. apply Forall_cons in Hok as [_ Hok].
  assert (Hsat : sat_add u64_max (sse_total s) (blen chunk) = sse_total s + blen chunk).
  { unfold sat_add, MAX_SSE_TOTAL_BYTES, u64_max in *. lia. }
  split; [|split_and!; cbn -[concat_chunks]; done || lia].
  unfold Sse.turn. rewrite Hf, Ht, E, (proj2 (N.ltb_ge _ _)) by done.
  by rewrite Hr, Hsat, (proj2 (N.ltb_ge _ _)) by lia.
Qed.

Lemma turn_rest s :
  running s → event_boundary (sse_buffer s) = None → blen (sse_buffer s) ≤ MAX_SSE_EVENT_BYTES →
  sse_response s = [] → sse_buffer s ≠ [] →
  turn s = deliver handler (sse_buffer s)
             (mkSse [] [] (sse_total s) (sse_provider s) None false (sse_handler s)) (λ _, TurnEnd).
Proof using.
  intros (Hf & Ht & _) E Hle Hr Hb. unfold Sse.turn.
  rewrite Hf, Ht, E, (proj2 (N.ltb_ge _ _)), Hr by done. by destruct (sse_buffer s).
Qed.

Lemma running_measure s : running s → (3 + length (sse_buffer s) ≤ measure s)%nat.
Proof using. intros [Hf _]. unfold measure. rewrite Hf. lia. Qed.

Lemma drain_decode_body fuel n s :
  running s → (measure s ≤ fuel)%nat → (length (pending s) < n)%nat →
  (drain fuel s).1 = decode_body n (sse_provider s) (pending s) (sse_handler s).
Proof using.
  revert n s. induction fuel as [|fuel IH]; intros [|n] s Hrun Hm Hn; try lia;
    [by pose proof (running_measure s Hrun); lia|].
  pose proof (turn_measure s) as Hturn. pose proof Hrun as (Hf & Ht & Hok & Htot).
  destruct (event_boundary (sse_buffer s)) as [fin|] eqn:Eb.
  - destruct (N.ltb_spec MAX_SSE_EVENT_BYTES fin) as [Hlt|Hle].
    { unfold pending. rewrite decode_body_over by (by rewrite Eb).
      eapply drain_stop, turn_over; [done|by rewrite Eb]. }
    destruct (event_boundary_app_Some _ (concat_chunks (sse_response s)) fin Eb) as [Eb' Hfin].
    assert (Hlen : (0 < N.to_nat fin ≤ length (sse_buffer s))%nat) by (unfold blen in Hfin; lia).
    unfold pending. rewrite (decode_body_frame _ _ _ _ fin), take_app_le, drop_app_le by (done || lia).
    eapply (drain_deliver _ _ _ (mkSse _ _ _ _ _ _ _)); [| |by apply turn_frame| |done]; [done..|].
    intros s' (Hr & Hb & Htt & Hpr & Hte & Hff & Hh). cbn [sse_response sse_buffer sse_total sse_provider sse_handler] in *.
    assert (Hp : pending s' = drop (N.to_nat fin) (sse_buffer s) ++ concat_chunks (sse_response s)).
    { unfold pending. by rewrite Hr, Hb. }
    rewrite (IH n s'), Hp, Hpr, Hh; [done|split_and!; by rewrite ?Hr, ?Htt| |].
    + unfold measure in *. rewrite Hff, Hr, Hb, length_drop. rewrite Hf in Hm. lia.
    + rewrite Hp, length_app, length_drop. unfold pending in Hn. rewrite length_app in Hn. lia.
  - destruct (N.ltb_spec MAX_SSE_EVENT_BYTES (blen (sse_buffer s))) as [Hlt|Hle].
    { unfold pending. rewrite decode_body_over by (by rewrite Eb).
      eapply drain_stop, turn_over; [done|by rewrite Eb]. }
    destruct (sse_response s) as [|[chunk|] cs] eqn:Er; [| |by apply Forall_cons in Hok as [[] _]].
    + unfold pending. rewrite Er. unfold concat_chunks. cbn [omap list_omap concat]. rewrite app_nil_r.
      cbn [Sse.decode_body]. rewrite Eb, (proj2 (N.ltb_ge _ _)) by done.
      destruct (decide (sse_buffer s = [])) as [Hb|Hb].
      { rewrite Hb. cbn [Sse.drain]. unfold Sse.turn. by rewrite Hf, Ht, Eb, Er, Hb. }
      transitivity ((frame_items (sse_buffer s) (sse_handler s)).1 ++ []);
        [|rewrite app_nil_r; by destruct (sse_buffer s)].
      eapply (drain_deliver _ _ _ (mkSse _ _ _ _ _ _ _)); [| |by apply turn_rest| |done]; [done..|].
      intros s' (Hr & Hb' & _ & _ & Hte & Hff & _). destruct fuel; [done|].
      cbn [Sse.drain]. unfold Sse.turn. by rewrite Hff, Hte, Hb', Hr.
    + destruct (turn_chunk s chunk cs) as [Et Hrun']; [done..|]. cbn [Sse.drain]. rewrite Et in Hturn |- *.
      set (s' := mkSse _ _ _ _ _ _ _) in *.
      assert (Hp : pending s' = pending s).
      { unfold pending, s'. rewrite Er, concat_chunks_cons. cbn. by rewrite app_assoc. }
      rewrite <-Hp in Hn |- *. apply (IH (S n) s'); [done|lia|done].
Qed.

Lemma decode_state_running r provider h :
  over_limit (content_length r) MAX_SSE_TOTAL_BYTES = false → no_read_error (chunks r) →
  blen (concat_chunks (chunks r)) ≤ MAX_SSE_TOTAL_BYTES → running (decode_state r provider h).
Proof using. intros Ho Hr Hl. split_and!; cbn -[concat_chunks]; [done|by rewrite Ho|done|lia]. Qed.

(** What stays bounded at a turn. *)
Lemma deliver_bounded r c frame s rest :
  sse_bounded r c s → sse_terminal_error s = None → sse_finished s = false →
  (∀ s', rest s' = TurnContinue s' ∨ rest s' = TurnEnd) →
  match deliver handler frame s rest with
  | TurnEnd => True
  | TurnYield _ s' | TurnContinue s' => sse_bounded r c s'
  end.
Proof using.
  intros [Hb Ht (pre & Hpre & Htot)] Hte Hf Hrest.
  destruct (deliver_cases frame s rest Hte Hf) as (s' & (Hr & Hb' & Ht' & _ & _ & Hf' & _) & Hd).
  assert (Hs' : sse_bounded r c s').
  { split; rewrite ?Hb', ?Ht', ?Hr, ?Hf'; try done. exists pre. auto. }
  destruct (frame_items _ _).1 as [|item more]; [|by destruct Hd as [_ ->]].
  rewrite Hd. by destruct (Hrest s') as [-> | ->].
Qed.

Lemma stop_bounded r c s cs buffer e pre :
  sse_bounded r c s → blen buffer ≤ MAX_SSE_EVENT_BYTES + c → chunks r = pre ++ cs →
  match stop s cs buffer e with
  | TurnEnd => True
  | TurnYield _ s' | TurnContinue s' => sse_bounded r c s'
  end.
Proof using. intros [Hb Ht Hc] Hbuf Hpre. split; [exact Hbuf|exact Ht|by exists pre]. Qed.

Lemma turn_bounded r c s :
  Forall (λ chunk, blen (default [] chunk) ≤ c) (chunks r) → sse_bounded r c s →
  match turn s with
  | TurnEnd => True
  | TurnYield _ s' | TurnContinue s' => sse_bounded r c s'
  end.
Proof using.
  intros Hchunks Hs. pose proof Hs as [Hb Ht (pre & Hpre & Htot)]. unfold Sse.turn.
  destruct (sse_finished s) eqn:Ef; [done|]. destruct (Htot eq_refl) as [Hok Htot'].
  destruct (sse_terminal_error s); [by eapply stop_bounded|].
  destruct (event_boundary (sse_buffer s)) as [fin|].
  - destruct (MAX_SSE_EVENT_BYTES <? fin); [eapply stop_bounded; [done|apply N.le_0_l|done]|].
    apply deliver_bounded; [|done..|by left]. split; cbn [sse_buffer sse_total sse_response sse_finished].
    + unfold blen in *. rewrite length_drop. lia.
    + done.
    + by exists pre.
  - destruct (N.ltb_spec MAX_SSE_EVENT_BYTES (blen (sse_buffer s))) as [|Hle];
      [eapply stop_bounded; [done|apply N.le_0_l|done]|].
    destruct (sse_response s) as [|[chunk|] cs] eqn:Er.
    + destruct (sse_buffer s) as [|x b] eqn:Eb; [done|].
      apply deliver_bounded; [|done..|by right].
      split; [apply N.le_0_l|exact Ht|by exists pre].
    + assert (Hpre' : chunks r = (pre ++ [Some chunk]) ++ cs) by by rewrite <-app_assoc.
      destruct (N.ltb_spec MAX_SSE_TOTAL_BYTES (sat_add u64_max (sse_total s) (blen chunk))) as [|Hle'];
        [by eapply stop_bounded|].
      assert (Hc : blen chunk ≤ c).
      { rewrite Hpre in Hchunks. apply Forall_app in Hchunks as [_ Hch]. by apply Forall_cons in Hch as [? _]. }
      split; cbn [sse_buffer sse_total sse_response sse_finished]; [rewrite blen_app; lia|done|].
      exists (pre ++ [Some chunk]). split; [done|]. intros _. split.
      * apply Forall_app. split; [done|]. by repeat constructor.
      * rewrite concat_chunks_snoc, blen_app, <-Htot'. apply sat_add_exact.
        eapply N.le_lt_trans; [exact Hle'|reflexivity].
    + eapply (stop_bounded _ _ _ _ _ _ (pre ++ [None])); [done|done|by rewrite <-app_assoc].
Qed.

Lemma decode_state_bounded r c provider (h : H) : sse_bounded r c (decode_state r provider h).
Proof using. split; [apply N.le_0_l|apply N.le_0_l|]. exists []. split_and!; [done|]. by split; [constructor|]. Qed.

Lemma sse_reachable_bounded r c provider h s :
  Forall (λ chunk, blen (default [] chunk) ≤ c) (chunks r) →
  sse_reachable handler r provider h s → sse_bounded r c s.
Proof using.
  intros Hc. induction 1 as [|s s' _ IH E|s item s' _ IH E]; [apply decode_state_bounded| |];
    pose proof (turn_bounded r c s Hc IH) as Ht; by rewrite E in Ht.
Qed.

Lemma decode_decode_body r provider h :
  over_limit (content_length r) MAX_SSE_TOTAL_BYTES = false → no_read_error (chunks r) →
  blen (concat_chunks (chunks r)) ≤ MAX_SSE_TOTAL_BYTES →
  decode handler r provider h =
  decode_body (S (length (concat_chunks (chunks r)))) provider (concat_chunks (chunks r)) h.
Proof using.
  intros Ho Hr Hl. unfold decode.
  rewrite (drain_decode_body _ (S (length (concat_chunks (chunks r)))));
    [done|by apply decode_state_running|done|]. apply Nat.lt_succ_diag_r.
Qed.
End Proofs.

(** *** The wire format *)

Lemma encode_char_free c b : b < 128 → b ∈ encode_char c → c = b.
Proof.
  intros Hb. unfold encode_char. repeat case_match; rewrite ?elem_of_cons, ?elem_of_nil;
    intros H'; destruct_or?; subst; try done; exfalso; nlia.
Qed.

Lemma as_bytes_free b s : b < 128 → (b ∉ s) → b ∉ as_bytes s.
Proof.
  intros Hb. unfold as_bytes. induction s as [|c s IH]; cbn; [set_solver|].
  rewrite not_elem_of_cons, not_elem_of_app. intros [Hc Hs]. split; [|auto].
  intros H%encode_char_free; done.
Qed.

Lemma as_bytes_ascii c s : c < 128 → as_bytes (c :: s) = c :: as_bytes s.
Proof. intros Hc. unfold as_bytes. cbn. unfold encode_char. by rewrite (proj2 (N.ltb_lt _ _)). Qed.

(** A line that is neither empty nor a lone carriage return is not a boundary. *)
Lemma event_boundary_line acc index l rest :
  (ch_nl ∉ l) → (2 ≤ length acc + length l)%nat →
  event_boundary_from acc index (l ++ ch_nl :: rest) =
  event_boundary_from [] (index + blen l + 1) rest.
Proof.
  revert acc index. induction l as [|c l IH]; intros acc index; cbn [app].
  - intros _ Hlen. cbn [event_boundary_from]. rewrite N.eqb_refl.
    destruct acc as [|x [|y acc]]; cbn in Hlen; [lia|lia|]. do 2 f_equal. unfold blen. cbn. lia.
  - rewrite not_elem_of_cons. intros [Hc Hl] Hlen. cbn [event_boundary_from].
    rewrite (proj2 (N.eqb_neq _ _)) by done. rewrite IH; [|done|cbn in *; lia].
    f_equal. unfold blen. cbn. lia.
Qed.

Lemma event_boundary_lines index ls rest :
  Forall (λ l, (ch_nl ∉ l) ∧ (2 ≤ length l)%nat) ls →
  event_boundary_from [] index (as_bytes (unlines ls ++ [ch_nl]) ++ rest) =
  Some (index + blen (as_bytes (unlines ls ++ [ch_nl]))).
Proof.
  intros Hls. revert index. induction Hls as [|l ls [Hl H2] _ IH]; intros index.
  - cbn. f_equal. 
  - rewrite unlines_cons, <-app_assoc, as_bytes_app. cbn [app].
    rewrite as_bytes_ascii by done. rewrite <-app_assoc. cbn [app].
    rewrite event_boundary_line; [|by apply as_bytes_free|].
    + rewrite IH. f_equal. unfold blen. rewrite length_app. cbn [length]. lia.
    + assert (Hlen : ∀ s, (length s ≤ length (as_bytes s))%nat); [|specialize (Hlen l); cbn; lia].
      clear. induction s as [|c s IH]; [done|]. unfold as_bytes in *. cbn. rewrite length_app.
      assert (1 ≤ length (encode_char c))%nat; [|lia]. unfold encode_char. repeat case_match; cbn; lia.
Qed.

#[local] Instance scalar_dec c : Decision (scalar c).
Proof. unfold scalar. apply _. Defined.

Lemma field_ok_free s : field_ok s → (ch_nl ∉ s) ∧ (ch_cr ∉ s) ∧ Forall scalar s.
Proof.
  unfold field_ok. rewrite !Forall_forall. intros H. split_and!; intros; naive_solver.
Qed.

Lemma trim_cr_free s : (ch_cr ∉ s) → trim_end_matches (N.eqb ch_cr) s = s.
Proof.
  intros H. unfold trim_end_matches. rewrite drop_while_fixed; [apply rev_involutive|].
  destruct (rev s) as [|c l] eqn:E; [done|]. apply N.eqb_neq. intros <-. apply H.
  rewrite <-(rev_involutive s), E. cbn. set_solver.
Qed.

Lemma line_free_ok l : (ch_nl ∉ l) → (ch_cr ∉ l) → line_ok l.
Proof.
  intros Hn Hc. split; [done|]. destruct (rev l) as [|c l'] eqn:E; [done|]. intros ->. apply Hc.
  rewrite <-(rev_involutive l), E. cbn. set_solver.
Qed.

Section Wire.
Context {H : Type}.
Context (handler : str → str → H → Result (option ChatStreamEvent) * H).

(** The lines of an event: printable, long enough, scalar. *)
Lemma wire_lines_ok e : event_ok e →
  Forall (λ l, (ch_nl ∉ l) ∧ (ch_cr ∉ l) ∧ Forall scalar l ∧ (2 ≤ length l)%nat) (wire_lines e).
Proof using.
  intros (Hn & Hd & _). unfold wire_lines. apply Forall_cons. split.
  - apply field_ok_free in Hn as (H1 & H2 & H3). rewrite !not_elem_of_app. split_and!; try done.
    + apply (bool_decide_eq_true_1 _). by vm_compute.
    + apply (bool_decide_eq_true_1 _). by vm_compute.
    + apply Forall_app. split; [|done]. apply (bool_decide_eq_true_1 _). by vm_compute.
    + rewrite length_app. change (length $"event: ") with 7%nat. lia.
  - apply Forall_forall. intros l (d & -> & Hin)%list_elem_of_fmap.
    rewrite Forall_forall in Hd. apply Hd, field_ok_free in Hin as (H1 & H2 & H3).
    rewrite !not_elem_of_app. split_and!; try done.
    + apply (bool_decide_eq_true_1 _). by vm_compute.
    + apply (bool_decide_eq_true_1 _). by vm_compute.
    + apply Forall_app. split; [|done]. apply (bool_decide_eq_true_1 _). by vm_compute.
    + rewrite length_app. change (length $"data: ") with 6%nat. lia.
Qed.

(** The two kinds of line. *)
Lemma event_step_event acc n : (ch_cr ∉ n) → event_step acc ($"event: " ++ n) = (n, acc.2).
Proof using.
  intros Hn. unfold event_step. rewrite trim_cr_free; [reflexivity|].
  rewrite not_elem_of_app. split; [|done]. apply (bool_decide_eq_true_1 _). by vm_compute.
Qed.

Lemma event_step_line acc d : (ch_cr ∉ d) → event_step acc ($"data: " ++ d) = (acc.1, acc.2 ++ [d]).
Proof using.
  intros Hn. unfold event_step. rewrite trim_cr_free; [reflexivity|].
  rewrite not_elem_of_app. split; [|done]. apply (bool_decide_eq_true_1 _). by vm_compute.
Qed.

Lemma event_step_data acc data :
  Forall field_ok data →
  foldl event_step acc (map (λ d, $"data: " ++ d) data) = (acc.1, acc.2 ++ data).
Proof using.
  revert acc. induction data as [|d data IH]; intros acc Hd; cbn [map foldl].
  - rewrite app_nil_r. by destruct acc.
  - apply Forall_cons in Hd as [Hd Hrest]. rewrite IH by done.
    rewrite event_step_line by apply (field_ok_free _ Hd). cbn. by rewrite <-app_assoc.
Qed.

Lemma parse_event_wire e : event_ok e →
  parse_event (as_bytes (wire_event e)) = Some (e.1, join [ch_nl] e.2).
Proof using.
  intros He. pose proof (wire_lines_ok e He) as Hl. destruct He as (Hn & Hd & Hne & _).
  assert (E : wire_event e = unlines (wire_lines e ++ [[]])) by (unfold wire_event; by rewrite unlines_app).
  unfold parse_event. rewrite E, from_utf8_lossy_as_bytes.
  2:{ unfold unlines. apply Forall_concat, Forall_map, Forall_app. split; [|by repeat constructor].
      eapply Forall_impl; [exact Hl|]. intros l (_ & _ & Hs & _). unfold with_nl.
      apply Forall_app. split; [done|]. repeat constructor. }
  rewrite lines_unlines.
  2:{ apply Forall_app. split; [|by repeat constructor; set_solver].
      eapply Forall_impl; [exact Hl|]. intros l (H1 & H2 & _). by apply line_free_ok. }
  rewrite foldl_app. unfold wire_lines. cbn [foldl]. rewrite event_step_data by done.
  rewrite event_step_event by apply (field_ok_free _ Hn). cbn. by destruct e.2.
Qed.

Lemma decode_body_wire n p evs h :
  Forall event_ok evs → (length (wire evs) < n)%nat →
  decode_body handler n p (wire evs) h = handle_all handler evs h.
Proof using.
  intros Hev. revert n h. induction Hev as [|e evs He _ IH]; intros [|n] h Hn; try (cbn in Hn; lia); [done|].
  unfold wire in *. cbn [map concat] in *. set (w := as_bytes (wire_event e)) in *.
  assert (Hb : event_boundary (w ++ concat (map (λ e, as_bytes (wire_event e)) evs)) = Some (blen w)).
  { unfold event_boundary, w, wire_event. rewrite event_boundary_lines; [done|].
    eapply Forall_impl; [by apply wire_lines_ok|]. intros l (? & _ & _ & ?). done. }
  assert (Hpos : (0 < length w)%nat).
  { unfold w, wire_event. rewrite as_bytes_app, length_app. cbn. lia. }
  rewrite (decode_body_frame _ _ _ _ _ (blen w)) by (done || apply He).
  unfold blen. rewrite Nat2N.id, take_app_length, drop_app_length.
  rewrite length_app in Hn. unfold Sse.frame_items, w. rewrite parse_event_wire by done.
  cbn [Sse.handle_all]. destruct (handler e.1 _ h) as [[[v|]|err] h'] eqn:Eh; cbn [fst snd];
    rewrite ?Eh; cbn [app]; rewrite IH by lia; done.
Qed.
End Wire.

(** ** Properties *)

(** Decoding does not depend on how the network cut the body into chunks: with
    no read error and a body within the total limit, the stream yields exactly what
    decoding the whole body frame by frame yields, the first oversized frame ending
    it with one error. *)
Theorem decode_chunking {H} (handler : str → str → H → Result (option ChatStreamEvent) * H)
    r provider h :
  over_limit (content_length r) MAX_SSE_TOTAL_BYTES = false → no_read_error (chunks r) →
  blen (concat_chunks (chunks r)) ≤ MAX_SSE_TOTAL_BYTES →
  decode handler r provider h =
  decode_body handler (S (length (concat_chunks (chunks r)))) provider (concat_chunks (chunks r)) h.
Proof. apply decode_decode_body. Qed.

(** C39: what a server writes is what the handler sees: a body of well-formed
    events (name, data lines, blank line), however chunked, is decoded to the
    handler's answers for each event in order, data lines joined by newlines. *)
Theorem sse_roundtrip {H} (handler : str → str → H → Result (option ChatStreamEvent) * H)
    r provider h evs :
  over_limit (content_length r) MAX_SSE_TOTAL_BYTES = false → no_read_error (chunks r) →
  concat_chunks (chunks r) = wire evs → blen (wire evs) ≤ MAX_SSE_TOTAL_BYTES →
  Forall event_ok evs →
  decode handler r provider h = handle_all handler evs h.
Proof.
  intros Ho Hr Hc Hl He. rewrite decode_decode_body, Hc by (done || by rewrite Hc).
  apply decode_body_wire; [done|lia].
Qed.

(** Memory is bounded against any server: at every point of a stream the
    buffer holds at most one event limit and one chunk, at most the total limit has
    been accepted, and until the stream stops the total is exactly the bytes read. *)
Theorem sse_memory_bounded {H} (handler : str → str → H → Result (option ChatStreamEvent) * H)
    r c provider h s :
  Forall (λ chunk, blen (default [] chunk) ≤ c) (chunks r) →
  sse_reachable handler r provider h s → sse_bounded r c s.
Proof. apply sse_reachable_bounded. Qed.

(** Every stream ends: whatever the connection delivers and the handler
    answers, draining stops within one turn per byte, chunk and stop. *)
Theorem decode_terminates {H} (handler : str → str → H → Result (option ChatStreamEvent) * H)
    r provider h :
  (drain handler (measure (decode_state r provider h)) (decode_state r provider h)).2 = true.
Proof. by apply drain_enough. Qed.

(** A bounded read returns a body exactly when nothing exceeds the limit and
    no read fails, and then returns every byte delivered. *)
Theorem read_body_bounded_spec r provider kind limit body :
  limit < u64_max →
  read_body_bounded r provider kind limit = Ok body ↔
  over_limit (content_length r) limit = false ∧ no_read_error (chunks r) ∧
  body = concat_chunks (chunks r) ∧ blen body ≤ limit.
Proof.
  intros Hlim. unfold read_body_bounded. destruct (over_limit (content_length r) limit); [naive_solver|].
  assert (Hgo : ∀ cs acc, blen acc ≤ limit →
    read_chunks provider kind limit cs acc = Ok body ↔
    no_read_error cs ∧ body = acc ++ concat_chunks cs ∧ blen body ≤ limit).
  { induction cs as [|[c|] cs IH]; intros acc Hacc; cbn [read_chunks].
    - unfold concat_chunks. cbn. rewrite app_nil_r. split; [|naive_solver].
      intros [= ->]. split_and!; [constructor|done|done].
    - rewrite concat_chunks_cons. unfold no_read_error. rewrite Forall_cons, app_assoc.
      assert (Hs : sat_add u64_max (blen acc) (blen c) ≤ limit ↔ blen (acc ++ c) ≤ limit).
      { rewrite blen_app. unfold sat_add. lia. }
      destruct (N.ltb_spec limit (sat_add u64_max (blen acc) (blen c))) as [Hlt|Hle].
      + split; [done|]. intros (_ & -> & Hb). rewrite blen_app in Hb. lia.
      + rewrite IH by tauto. naive_solver.
    - unfold no_read_error. rewrite Forall_cons. split; [done|]. by intros [[[]] _]. }
  rewrite Hgo; [cbn; tauto|apply N.le_0_l].
Qed.

(** ** Witnesses *)

Module SseDemo.
(** Collects the data, and fails on an [error] event. *)
Definition handler (event data : str) (n : N) : Result (option ChatStreamEvent) * N :=
  if str_eqb event $"error" then (Err (Provider data), n)
  else if str_eqb event $"ping" then (Ok None, n)
  else (Ok (Some (Delta data)), n + 1).
Definition events : list (str * list str) :=
  [($"delta", [$"hé"; $"llo"]); ($"ping", [$"-"]); ($"error", [$"boom"]); ($"delta", [$"bye"])].
Definition cut (n : nat) : Response :=
  mkHttpResponse None [Some (take n (wire events)); Some []; Some (drop n (wire events))].
End SseDemo.

Lemma demo_within n :
  blen (concat_chunks (chunks (SseDemo.cut n))) ≤ MAX_SSE_TOTAL_BYTES ∧
  concat_chunks (chunks (SseDemo.cut n)) = wire SseDemo.events.
Proof.
  assert (E : concat_chunks (chunks (SseDemo.cut n)) = wire SseDemo.events).
  { unfold concat_chunks. cbn [SseDemo.cut chunks omap list_omap concat id app]. by rewrite app_nil_r, take_drop. }
  rewrite E. split; [|done]. by vm_compute.
Qed.

Lemma decode_chunking_witness :
  decode SseDemo.handler (SseDemo.cut 7) $"openai" 0 =
  [Ok (Delta ($"hé" ++ ch_nl :: $"llo")); Err (Provider $"boom"); Ok (Delta $"bye")].
Proof.
  rewrite (decode_chunking SseDemo.handler (SseDemo.cut 7) $"openai" 0).
  - vm_compute. reflexivity.
  - reflexivity.
  - repeat constructor; eexists; reflexivity.
  - apply demo_within.
Defined.

Lemma sse_roundtrip_witness :
  decode SseDemo.handler (SseDemo.cut 20) $"openai" 0 =
  [Ok (Delta ($"hé" ++ ch_nl :: $"llo")); Err (Provider $"boom"); Ok (Delta $"bye")].
Proof.
  rewrite (sse_roundtrip SseDemo.handler (SseDemo.cut 20) $"openai" 0 SseDemo.events).
  - vm_compute. reflexivity.
  - reflexivity.
  - repeat constructor; eexists; reflexivity.
  - apply demo_within.
  - by vm_compute.
  - unfold event_ok, field_ok, scalar. apply (bool_decide_eq_true_1 _). by vm_compute.
Defined.

Lemma sse_memory_bounded_witness :
  ∃ s, sse_reachable SseDemo.handler (SseDemo.cut 7) $"openai" 0 s ∧
    sse_bounded (SseDemo.cut 7) 200 s ∧ blen (sse_buffer s) = 7.
Proof.
  set (s0 := decode_state (SseDemo.cut 7) $"openai" 0).
  assert (Hr : ∃ s, turn SseDemo.handler s0 = TurnContinue s ∧ blen (sse_buffer s) = 7).
  { eexists. vm_compute. split; reflexivity. }
  destruct Hr as (s & Hs & Hb). exists s.
  assert (Hreach : sse_reachable SseDemo.handler (SseDemo.cut 7) $"openai" 0 s).
  { eapply sse_continue; [apply sse_start|exact Hs]. }
  split; [exact Hreach|]. split; [|exact Hb].
  apply (sse_memory_bounded SseDemo.handler (SseDemo.cut 7) 200 $"openai" 0 s); [|exact Hreach].
  apply (bool_decide_eq_true_1 _). by vm_compute.
Defined.

Lemma read_body_bounded_spec_witness :
  read_body_bounded (SseDemo.cut 7) $"openai" $"success" MAX_SUCCESS_BODY_BYTES = Ok (wire SseDemo.events) ∧
  read_body_bounded (SseDemo.cut 7) $"openai" $"success" 8 = Err (body_limit_error $"openai" $"success" 8).
Proof.
  split; [|vm_compute; reflexivity].
  apply (read_body_bounded_spec (SseDemo.cut 7) $"openai" $"success" MAX_SUCCESS_BODY_BYTES).
  - reflexivity.
  - split; [reflexivity|]. split; [repeat constructor; eexists; reflexivity|].
    split; [symmetry; apply demo_within|by vm_compute].
Defined.
