(* ===== verification/ProxyLines.v ===== *)
(** * Command output, line by line: [crates/rtrt-proxy/src/lib.rs], [generic.rs]

    The passes the command filters share: collapsing blank and repeated lines,
    keeping only errors with context.  Regular expressions belong to a library, so
    matching is a parameter that takes the pattern's text. *)
From S2P Require Import Prelude Str.

Definition ERROR_PATTERN : str :=
  $"(?i)\b(error(\[E\d+\])?:|warning:|panic|fatal|failed|fail\b|traceback|stacktrace|stack overflow|unhandled|undefined reference|cannot find|not found:|expected .* found|test result: FAILED|---- .* FAILED)".

Definition ANSI_ESC : str := $"\x1b\[[0-9;?]*[ -/]*[@-~]".

Definition blank (line : str) : bool := is_empty (trim line).

(** ** Blank lines *)

Fixpoint collapse_blanks_from (last_blank : bool) (ls : list str) : list str :=
  match ls with
  | [] => []
  | line :: ls' =>
      let is_blank := blank line in
      if is_blank && last_blank then collapse_blanks_from last_blank ls'
      else line :: collapse_blanks_from is_blank ls'
  end.

Definition collapse_blanks (input : str) : str := unlines (collapse_blanks_from false (lines input)).

(** ** Repeated lines *)

Definition repeated_line (line : str) (run : N) : str :=
  line ++ (if 1 <? run then $" (×" ++ show_N run ++ $")" else []).

(** The loop of both passes; [max] is the largest value of the counter's type,
    past which [+=] wraps around in the release profile. *)
Fixpoint repeat_loop (max : N) (prev : option (str * N)) (ls : list str) : list str :=
  match ls with
  | [] => match prev with Some (p, run) => [repeated_line p run] | None => [] end
  | line :: ls' =>
      match prev with
      | Some (p, run) =>
          if str_eqb p line then repeat_loop max (Some (p, wrap_add max run 1)) ls'
          else repeated_line p run :: repeat_loop max (Some (line, 1)) ls'
      | None => repeat_loop max (Some (line, 1)) ls'
      end
  end.

Definition collapse_repeated_adjacent (input : str) : str :=
  unlines (repeat_loop u64_max None (lines input)).

Section Patterns.
Context (is_match : str → str → bool) (replace_all : str → str → str → str).

Definition is_error_or_warning (line : str) : bool := is_match ERROR_PATTERN line.

Definition ultra_compact (input : str) : str :=
  let stripped := replace_all ANSI_ESC input [] in
  unlines (repeat_loop u32_max None (lines stripped)).

(** ** Errors with context *)

(** [keep.iter_mut().take(hi).skip(lo)] set to [true]. *)
Definition set_range (lo hi : N) (keep : list bool) : list bool :=
  imap (λ j b, b || ((lo <=? N.of_nat j) && (N.of_nat j <? hi))) keep.

Fixpoint mark_context (context_lines total i : N) (ls : list str) (keep : list bool) : list bool :=
  match ls with
  | [] => keep
  | line :: ls' =>
      mark_context context_lines total (i + 1) ls'
        (if is_error_or_warning line
         then set_range (i - context_lines)
                (N.min (wrap_add u64_max (wrap_add u64_max i context_lines) 1) total) keep
         else keep)
  end.

Fixpoint emit_kept (i : N) (prev_kept : bool) (ls : list str) (keep : list bool) : list str :=
  match ls, keep with
  | line :: ls', k :: keep' =>
      if k : bool
      then (if negb prev_kept && (0 <? i) then [$"..."] else []) ++ line :: emit_kept (i + 1) true ls' keep'
      else emit_kept (i + 1) false ls' keep'
  | _, _ => []
  end.

Definition errors_only (input : str) (context_lines : N) : str :=
  let ls := lines input in
  let keep := mark_context context_lines (N.of_nat (length ls)) 0 ls (replicate (length ls) false) in
  unlines (emit_kept 0 false ls keep).
End Patterns.

(** ** Specifications *)

(** Run-length encoding of a list of lines, and its expansion. *)
Fixpoint encode_from (line : str) (run : N) (ls : list str) : list (str * N) :=
  match ls with
  | [] => [(line, run)]
  | l :: ls' => if str_eqb line l then encode_from line (run + 1) ls' else (line, run) :: encode_from l 1 ls'
  end.

Definition run_lengths (ls : list str) : list (str * N) :=
  match ls with [] => [] | l :: ls' => encode_from l 1 ls' end.

Definition expand (runs : list (str * N)) : list str :=
  concat (map (λ r, replicate (N.to_nat r.2) r.1) runs).

(** Adjacent runs differ and every run counts at least one line. *)
Fixpoint runs_maximal (runs : list (str * N)) : Prop :=
  match runs with
  | r :: ((r' :: _) as rest) => r.1 ≠ r'.1 ∧ 0 < r.2 ∧ runs_maximal rest
  | [r] => 0 < r.2
  | [] => True
  end.

(** No two adjacent blank lines. *)
Fixpoint no_double_blank (ls : list str) : Prop :=
  match ls with
  | a :: ((b :: _) as rest) => ¬ (blank a = true ∧ blank b = true) ∧ no_double_blank rest
  | _ => True
  end.

(** Line [j] is within [context] lines of an error. *)
Definition near_error (is_error : str → bool) (ls : list str) (context j : nat) : Prop :=
  ∃ i line, ls !! i = Some line ∧ is_error line = true ∧ (j ≤ i + context)%nat ∧ (i ≤ j + context)%nat.

(** The lines kept, with a gap mark before each kept stretch that is not the first line. *)
Definition kept_with_gaps (keep : nat → bool) (ls : list str) : list str :=
  concat (imap (λ j line,
    if keep j
    then (match j with O => [] | S j' => if keep j' then [] else [$"..."] end) ++ [line]
    else []) ls).

(** ** Lemmas *)

Lemma elem_of_lines_ok s : Forall (λ l, ch_nl ∉ l) (lines s).
Proof. apply Forall_forall. apply lines_no_nl. Qed.

Lemma collapse_blanks_from_sublist lb ls : collapse_blanks_from lb ls `sublist_of` ls.
Proof.
  revert lb. induction ls as [|l ls IH]; intros lb; cbn; [done|].
  destruct (blank l && lb); [by apply sublist_cons|by apply sublist_skip].
Qed.

Lemma collapse_blanks_from_filter (p : str → bool) lb ls :
  (∀ l, p l = true → blank l = false) →
  List.filter p (collapse_blanks_from lb ls) = List.filter p ls.
Proof.
  intros Hp. revert lb. induction ls as [|l ls IH]; intros lb; cbn; [done|].
  destruct (blank l && lb) eqn:E; cbn; rewrite IH; [|done].
  apply andb_true_iff in E as [E _]. destruct (p l) eqn:Ep; [|done]. by rewrite (Hp _ Ep) in E.
Qed.

Lemma collapse_blanks_from_spec lb ls :
  no_double_blank (collapse_blanks_from lb ls) ∧
  (lb = true → match collapse_blanks_from lb ls with l :: _ => blank l = false | [] => True end).
Proof.
  revert lb. induction ls as [|l ls IH]; intros lb; cbn; [done|].
  destruct (blank l && lb) eqn:E; [apply IH|]. destruct (IH (blank l)) as [H1 H2]. split.
  - destruct (collapse_blanks_from (blank l) ls) as [|l' ls'] eqn:Ec; [done|].
    split; [|done]. intros [Hl Hl']. specialize (H2 Hl). congruence.
  - intros ->. rewrite andb_true_r in E. done.
Qed.

Lemma collapse_blanks_from_idem ls : no_double_blank ls → ∀ lb,
  (lb = true → match ls with l :: _ => blank l = false | [] => True end) →
  collapse_blanks_from lb ls = ls.
Proof.
  induction ls as [|l ls IH]; intros Hnd lb Hlb; [done|]. cbn.
  destruct (blank l && lb) eqn:E.
  - apply andb_true_iff in E as [E ->]. by rewrite (Hlb eq_refl) in E.
  - f_equal. apply IH; [by destruct ls as [|? ?]; [|destruct Hnd]|].
    intros Hb. destruct ls as [|l' ls]; [done|]. destruct Hnd as [Hnd _].
    destruct (blank l') eqn:El'; [|done]. exfalso. by apply Hnd.
Qed.

Lemma expand_cons r rs : expand (r :: rs) = replicate (N.to_nat r.2) r.1 ++ expand rs.
Proof. done. Qed.

Lemma encode_from_expand l run ls : expand (encode_from l run ls) = replicate (N.to_nat run) l ++ ls.
Proof.
  revert l run. induction ls as [|x ls IH]; intros l run; cbn [encode_from].
  - unfold expand. cbn. by rewrite !app_nil_r.
  - destruct (str_eqb l x) eqn:E.
    + apply str_eqb_eq in E as <-. rewrite IH.
      replace (N.to_nat (run + 1)) with (S (N.to_nat run)) by lia. cbn [replicate].
      by rewrite replicate_cons_app, <-app_assoc.
    + by rewrite expand_cons, IH.
Qed.

Lemma encode_from_hd l run ls : ∃ run' rest, encode_from l run ls = (l, run') :: rest ∧ run ≤ run'.
Proof.
  revert run. induction ls as [|x ls IH]; intros run; cbn; [by eexists _, _|].
  destruct (str_eqb l x); [|by eexists _, _].
  destruct (IH (run + 1)) as (r & rest & -> & Hr). eexists _, _. split; [done|lia].
Qed.

Lemma encode_from_maximal l run ls : 0 < run → runs_maximal (encode_from l run ls).
Proof.
  revert l run. induction ls as [|x ls IH]; intros l run Hr; cbn [encode_from]; [done|].
  destruct (str_eqb l x) eqn:E; [apply IH; lia|].
  destruct (encode_from_hd x 1 ls) as (r & rest & Ex & _).
  pose proof (IH x 1 ltac:(lia)) as Hm. rewrite Ex in *. split_and!; [|done|done].
  cbn. intros ->. by rewrite (proj2 (str_eqb_eq x x)) in E.
Qed.

Lemma wrap_add_exact max a b : a + b ≤ max → wrap_add max a b = a + b.
Proof. intros H. unfold wrap_add. apply N.mod_small. lia. Qed.

Lemma repeat_loop_encode max l run ls :
  run + N.of_nat (length ls) ≤ max →
  repeat_loop max (Some (l, run)) ls = map (λ r, repeated_line r.1 r.2) (encode_from l run ls).
Proof.
  revert l run. induction ls as [|x ls IH]; intros l run Hmax; cbn [repeat_loop encode_from]; [done|].
  cbn [length] in Hmax. destruct (str_eqb l x).
  - rewrite wrap_add_exact by lia. apply IH. lia.
  - cbn [map]. rewrite IH; [done|]. lia.
Qed.

Lemma repeat_loop_spec max ls :
  N.of_nat (length ls) ≤ max →
  repeat_loop max None ls = map (λ r, repeated_line r.1 r.2) (run_lengths ls).
Proof.
  intros Hmax. destruct ls as [|l ls]; [done|]. cbn [repeat_loop run_lengths].
  apply repeat_loop_encode. cbn [length] in Hmax. lia.
Qed.

Lemma run_lengths_spec ls : expand (run_lengths ls) = ls ∧ runs_maximal (run_lengths ls).
Proof.
  destruct ls as [|l ls]; [done|]. cbn [run_lengths]. rewrite encode_from_expand.
  split; [done|]. by apply encode_from_maximal.
Qed.

Lemma set_range_lookup lo hi keep j :
  set_range lo hi keep !! j = (λ b, b || ((lo <=? N.of_nat j) && (N.of_nat j <? hi))) <$> keep !! j.
Proof. unfold set_range. by rewrite list_lookup_imap. Qed.

Section Errors.
Context (is_match : str → str → bool).
Abbreviation is_error := (is_error_or_warning is_match).
Abbreviation mark_context := (mark_context is_match).

Lemma mark_context_length context total i ls keep :
  length (mark_context context total i ls keep) = length keep.
Proof using.
  revert i keep. induction ls as [|l ls IH]; intros i keep; cbn [ProxyLines.mark_context]; [done|].
  rewrite IH. case_match; [|done]. unfold set_range. by rewrite length_imap.
Qed.

(** A line is marked when it was, or when it is near one of the errors scanned. *)
Lemma mark_context_lookup context total i ls keep j :
  N.of_nat i + N.of_nat (length ls) + N.of_nat context + 1 ≤ u64_max →
  (j < length keep)%nat → N.of_nat (length keep) = total →
  mark_context (N.of_nat context) total (N.of_nat i) ls keep !! j = Some true ↔
  keep !! j = Some true ∨
  ∃ k line, ls !! k = Some line ∧ is_error line = true ∧
    (j ≤ i + k + context)%nat ∧ (i + k ≤ j + context)%nat.
Proof using.
  revert i keep. induction ls as [|l ls IH]; intros i keep Hmax Hj Hlen; cbn [ProxyLines.mark_context].
  - split; [by left|]. intros [?|(k & line & [=] & _)]. done.
  - cbn [length] in Hmax. replace (N.of_nat i + 1) with (N.of_nat (S i)) by lia.
    rewrite IH; [|lia|by case_match; [unfold set_range; rewrite length_imap|]..].
    assert (Hset : (if is_error l then set_range (N.of_nat i - N.of_nat context)
        (N.min (wrap_add u64_max (wrap_add u64_max (N.of_nat i) (N.of_nat context)) 1) total) keep else keep)
        !! j = Some true ↔ keep !! j = Some true ∨
        is_error l = true ∧ (j ≤ i + context)%nat ∧ (i ≤ j + context)%nat).
    { destruct (is_error l); [|naive_solver]. rewrite set_range_lookup.
      rewrite !wrap_add_exact by (rewrite ?wrap_add_exact; lia).
      destruct (lookup_lt_is_Some_2 keep j Hj) as [b Hb]. rewrite Hb. cbn.
      destruct b; [naive_solver|]. cbn [orb].
      destruct (N.leb_spec (N.of_nat i - N.of_nat context) (N.of_nat j));
        destruct (N.ltb_spec (N.of_nat j) (N.min (N.of_nat i + N.of_nat context + 1) total)); cbn [andb].
      all: split; [try (intros [=])|intros [[=]|(_ & ? & ?)]; try done; exfalso; lia].
      all: try (right; split; [done|lia]). }
    rewrite Hset. clear Hset. split.
    + intros [[H|(H1 & H2 & H3)]|(k & line & H1 & H2 & H3 & H4)]; [by left| |].
      * right. exists O, l. split_and!; [done|done|lia|lia].
      * right. exists (S k), line. split_and!; [done|done|lia|lia].
    + intros [H|([|k] & line & H1 & H2 & H3 & H4)]; [by left; left| |].
      * injection H1 as <-. left. right. split_and!; [done|lia|lia].
      * right. exists k, line. split_and!; [done|done|lia|lia].
Qed.

(** [imap] with an explicit offset. *)
Lemma emit_kept_gaps (keepf : nat → bool) i prev ls keep :
  length keep = length ls → (∀ j, (j < length ls)%nat → keep !! j = Some (keepf (i + j)%nat)) →
  prev = (match i with O => false | S i' => keepf i' end) →
  emit_kept (N.of_nat i) prev ls keep =
  concat (imap (λ j line,
    if keepf (i + j)%nat
    then (match (i + j)%nat with O => [] | S j' => if keepf j' then [] else [$"..."] end) ++ [line]
    else []) ls).
Proof using.
  revert i prev keep. induction ls as [|l ls IH]; intros i prev [|k keep] Hlen Hk Hprev; try done.
  cbn [emit_kept imap concat]. rewrite Nat.add_0_r.
  pose proof (Hk O ltac:(cbn; lia)) as Hk0. rewrite Nat.add_0_r in Hk0. injection Hk0 as Hk0.
  assert (IH' : emit_kept (N.of_nat i + 1) k ls keep =
    concat (imap ((λ j line,
      if keepf (i + j)%nat
      then (match (i + j)%nat with O => [] | S j' => if keepf j' then [] else [$"..."] end) ++ [line]
      else []) ∘ S) ls)).
  { replace (N.of_nat i + 1) with (N.of_nat (S i)) by lia.
    rewrite (IH (S i)); [|by injection Hlen|..].
    - f_equal. apply imap_ext. intros j x _. cbn. by rewrite Nat.add_succ_r.
    - intros j Hj. specialize (Hk (S j) ltac:(cbn; lia)).
      change ((k :: keep) !! S j) with (keep !! j) in Hk. by rewrite Hk, Nat.add_succ_r.
    - done. }
  rewrite <-Hk0. destruct k; [|by rewrite IH'].
  rewrite IH'. rewrite <-app_assoc. cbn [app]. f_equal. subst prev.
  destruct i as [|i]; [done|]. rewrite (proj2 (N.ltb_lt _ _)) by lia. rewrite andb_true_r.
  by destruct (keepf i).
Qed.
End Errors.

(** ** Properties *)

(** Collapsing blanks drops only blank lines, and leaves no two of them adjacent. *)
Lemma collapse_blanks_spec input :
  ∃ out, collapse_blanks input = unlines out ∧ out `sublist_of` lines input ∧
    List.filter (λ l, negb (blank l)) out = List.filter (λ l, negb (blank l)) (lines input) ∧
    no_double_blank out ∧ collapse_blanks_from false out = out.
Proof.
  destruct (collapse_blanks_from_spec false (lines input)) as [H _].
  exists (collapse_blanks_from false (lines input)). split_and!; [done| | |done|].
  - apply collapse_blanks_from_sublist.
  - apply collapse_blanks_from_filter. intros l. by destruct (blank l).
  - by apply collapse_blanks_from_idem.
Qed.

(** Collapsing repeated lines prints the run-length encoding of the input's
    lines: adjacent runs differ, every line is counted, nothing is reordered, and
    the counted lines can be expanded back. *)
Theorem collapse_repeated_run_lengths input :
  N.of_nat (length (lines input)) ≤ u64_max →
  let runs := run_lengths (lines input) in
  collapse_repeated_adjacent input = unlines (map (λ r, repeated_line r.1 r.2) runs) ∧
  expand runs = lines input ∧ runs_maximal runs.
Proof.
  intros Hmax runs. split; [|apply run_lengths_spec].
  unfold collapse_repeated_adjacent. by rewrite repeat_loop_spec.
Qed.

(** The errors-only view keeps exactly the lines within the requested distance
    of an error, in order and verbatim, and marks every gap before a kept stretch,
    as long as the distance does not overflow the index. *)
Theorem errors_only_keeps_context is_match input context :
  N.of_nat (length (lines input)) + N.of_nat context + 1 ≤ u64_max →
  ∃ keep, errors_only is_match input (N.of_nat context) = unlines (kept_with_gaps keep (lines input)) ∧
    ∀ j, (j < length (lines input))%nat →
      keep j = true ↔ near_error (is_error_or_warning is_match) (lines input) context j.
Proof.
  intros Hmax. unfold errors_only. set (ls := lines input) in *.
  set (marks := mark_context is_match (N.of_nat context) (N.of_nat (length ls)) 0 ls (replicate (length ls) false)).
  assert (Hlen : length marks = length ls).
  { unfold marks. by rewrite mark_context_length, length_replicate. }
  exists (λ j, default false (marks !! j)). split.
  - f_equal. apply (emit_kept_gaps (λ j, default false (marks !! j)) 0 false ls marks); [done| |done].
    intros j Hj. cbn [Nat.add]. destruct (lookup_lt_is_Some_2 marks j) as [b ->]; [lia|done].
  - intros j Hj. destruct (lookup_lt_is_Some_2 marks j) as [b Hb]; [lia|]. rewrite Hb. change (default false (Some b)) with b.
    pose proof (mark_context_lookup is_match context (N.of_nat (length ls)) 0 ls
      (replicate (length ls) false) j) as Hm. rewrite length_replicate in Hm.
    specialize (Hm ltac:(lia) Hj eq_refl). change (N.of_nat 0) with 0 in Hm. fold marks in Hm.
    rewrite Hb in Hm. unfold near_error.
    transitivity (Some b = Some true); [split; congruence|]. rewrite Hm. split.
    + intros [H|H]; [|done]. by apply lookup_replicate in H as [? _].
    + intros (k & line & H). right. by exists k, line.
Qed.

(** A distance of [usize::MAX] overflows: the window of an error ends before it,
    and the error itself is dropped. *)
Lemma errors_only_overflow :
  errors_only (λ _ l, starts_with l $"error:") (unlines [$"a"; $"error: b"]) u64_max =
  unlines [$"a"].
Proof. vm_compute. done. Qed.

(** ** Witnesses *)

Lemma collapse_repeated_run_lengths_witness :
  collapse_repeated_adjacent (unlines [$"a"; $"a"; $"b"; $"a"]) = unlines [$"a (×2)"; $"b"; $"a"].
Proof.
  destruct (collapse_repeated_run_lengths (unlines [$"a"; $"a"; $"b"; $"a"])) as [-> _];
    [by vm_compute|]. vm_compute. reflexivity.
Defined.

Lemma errors_only_keeps_context_witness :
  ∃ keep, errors_only (λ _ l, starts_with l $"error:")
      (unlines [$"a"; $"b"; $"error: c"; $"d"; $"e"]) 1 =
    unlines (kept_with_gaps keep [$"a"; $"b"; $"error: c"; $"d"; $"e"]) ∧ keep 1%nat = true.
Proof.
  destruct (errors_only_keeps_context (λ _ l, starts_with l $"error:")
    (unlines [$"a"; $"b"; $"error: c"; $"d"; $"e"]) 1) as (keep & Hk & Hj); [by vm_compute|].
  exists keep. split; [exact Hk|]. apply (Hj 1%nat); [vm_compute; lia|].
  exists 2%nat, ($"error: c"). vm_compute. split; [done|]. split; [done|]. lia.
Defined.
