(* ===== verification/GitDiff.v ===== *)
(** * Condensing diffs: [crates/rtrt-proxy/src/git.rs], [git_diff]

    One streaming pass over a unified diff, counting each hunk's lines off its
    header, buffering unchanged lines and writing a marker for the ones it hides.
    The body is kept as the list of lines pushed to it. *)
From S2P Require Import Prelude Str.

(** Remaining line budget of a hunk. *)
Record HunkBudget := mkHunk { hb_old : N; hb_new : N; seen_change : bool }.

Inductive ContextPosition := Leading | Interior | Trailing.

Definition exhausted (b : HunkBudget) : bool := (hb_old b =? 0) && (hb_new b =? 0).

Definition checked_sub (a b : N) : option N := if b <=? a then Some (a - b) else None.

Definition parse_range_count (range : str) : option N :=
  match split_once $"," range with
  | Some (start, count) => match parse_usize start with Some _ => parse_usize count | None => None end
  | None => match parse_usize range with Some _ => Some 1 | None => None end
  end.

Definition parse_hunk_budget (header : str) : option HunkBudget :=
  rest ← strip_prefix $"@@ -" header;
  '(old_range, rest) ← split_once $" +" rest;
  '(new_range, _) ← split_once $" @@" rest;
  old ← parse_range_count old_range;
  new ← parse_range_count new_range;
  Some (mkHunk old new false).

Definition unchanged_marker (hidden : nat) : str := $"… " ++ show_N (N.of_nat hidden) ++ $" lines unchanged".

(** The lines a buffered run of context is written as. *)
Definition flush_context_run (run : list str) (position : ContextPosition) : list str :=
  let kept_edges := match position with Interior => 2%nat | Leading | Trailing => 1%nat end in
  let hidden := (length run - kept_edges)%nat in
  if Nat.leb 2 hidden
  then match position, run, last run with
       | Leading, _, Some l => [unchanged_marker hidden; l]
       | Interior, f :: _, Some l => [f; unchanged_marker hidden; l]
       | Trailing, f :: _, _ => [f; unchanged_marker hidden]
       | _, _, _ => []
       end
  else run.

Record DiffState := mkDiff {
  body : list str;
  git_headers : N;
  plus_headers : N;
  added : N;
  removed : N;
  hunk : option HunkBudget;
  context : list str;
}.

Definition diff_start : DiffState := mkDiff [] 0 0 0 0 None [].

Definition is_change_line (line : str) : bool :=
  starts_with line $"+" || starts_with line $"-" || starts_with line $"\".

Definition is_context_line (line : str) : bool :=
  starts_with line $" " || is_empty line || str_eqb line [ch_cr].

Definition is_metadata (line : str) : bool :=
  starts_with line $"index " || starts_with line $"similarity index " ||
  starts_with line $"dissimilarity index ".

(** A line inside a hunk that still has budget. *)
Definition hunk_line (s : DiffState) (b : HunkBudget) (line : str) : option DiffState :=
  if is_change_line line then
    '(old, new, a, r) ←
      (if starts_with line $"+" then
         new ← checked_sub (hb_new b) 1; Some (hb_old b, new, added s + 1, removed s)
       else if starts_with line $"-" then
         old ← checked_sub (hb_old b) 1; Some (old, hb_new b, added s, removed s + 1)
       else Some (hb_old b, hb_new b, added s, removed s));
    let position := if seen_change b then Interior else Leading in
    Some (mkDiff (body s ++ flush_context_run (context s) position ++ [line]) (git_headers s)
            (plus_headers s) a r (Some (mkHunk old new true)) [])
  else if is_context_line line then
    old ← checked_sub (hb_old b) 1;
    new ← checked_sub (hb_new b) 1;
    Some (mkDiff (body s) (git_headers s) (plus_headers s) (added s) (removed s)
            (Some (mkHunk old new (seen_change b))) (context s ++ [line]))
  else None.

(** A line outside any hunk. *)
Definition file_line (s : DiffState) (line : str) : option DiffState :=
  let flushed := body s ++ flush_context_run (context s) Trailing in
  if starts_with line $"@@" then
    b ← parse_hunk_budget line;
    Some (mkDiff (flushed ++ [line]) (git_headers s) (plus_headers s) (added s) (removed s) (Some b) [])
  else if starts_with line $"diff --git " then
    Some (mkDiff (flushed ++ [line]) (git_headers s + 1) (plus_headers s) (added s) (removed s) None [])
  else if is_metadata line then
    Some (mkDiff flushed (git_headers s) (plus_headers s) (added s) (removed s) None [])
  else
    let plus := if starts_with line $"+++ " then plus_headers s + 1 else plus_headers s in
    Some (mkDiff (flushed ++ [line]) (git_headers s) plus (added s) (removed s) None []).

Definition diff_line (s : DiffState) (line : str) : option DiffState :=
  match hunk s with
  | Some b =>
      if exhausted b then (if seen_change b then file_line s line else None)
      else hunk_line s b line
  | None => file_line s line
  end.

Fixpoint diff_loop (s : DiffState) (ls : list str) : option DiffState :=
  match ls with
  | [] => Some s
  | line :: ls' => s ← diff_line s line; diff_loop s ls'
  end.

Definition diff_summary (files a r : N) : str :=
  show_N files ++ $" file" ++ (if files =? 1 then [] else $"s") ++ $", +" ++ show_N a ++ $" -" ++ show_N r.

(** [split_inclusive('\n')] with the newline stripped; a carriage return stays. *)
Definition diff_lines (input : str) : list str :=
  map (λ raw, default raw (strip_suffix [ch_nl] raw)) (split_inclusive_nl input).

Definition condense_unified_diff (input : str) : option str :=
  s ← diff_loop diff_start (diff_lines input);
  match hunk s with
  | Some (mkHunk _ _ false) => None
  | _ =>
      let out := body s ++ flush_context_run (context s) Trailing in
      let files := if 0 <? git_headers s then git_headers s else plus_headers s in
      Some (unlines (diff_summary files (added s) (removed s) :: out))
  end.

Definition git_diff (input : str) : str :=
  if existsb (λ line, starts_with line $"@@") (lines input)
  then default input (condense_unified_diff input)
  else input.

(** ** Specifications *)

(** What a line of a diff is. *)
Inductive LineKind := KHunk | KAdd | KRemove | KNoNewline | KContext | KGitHeader | KPlusHeader | KMeta | KOther.

Definition file_kind (line : str) : LineKind :=
  if starts_with line $"@@" then KHunk
  else if starts_with line $"diff --git " then KGitHeader
  else if is_metadata line then KMeta
  else if starts_with line $"+++ " then KPlusHeader else KOther.

Definition change_kind (line : str) : LineKind :=
  if starts_with line $"+" then KAdd else if starts_with line $"-" then KRemove else KNoNewline.

Definition is_change (k : LineKind) : bool :=
  match k with KAdd | KRemove | KNoNewline => true | _ => false end.

Definition kind_eqb (k k' : LineKind) : bool :=
  match k, k' with
  | KHunk, KHunk | KAdd, KAdd | KRemove, KRemove | KNoNewline, KNoNewline | KContext, KContext
  | KGitHeader, KGitHeader | KPlusHeader, KPlusHeader | KMeta, KMeta | KOther, KOther => true
  | _, _ => false
  end.

(** First pass: label every line, counting each hunk's lines off its header; [None]
    when the text is not a unified diff, or a hunk changes nothing. *)
Definition label_outside (line : str) : option (LineKind * option HunkBudget) :=
  match file_kind line with
  | KHunk => b ← parse_hunk_budget line; Some (KHunk, Some b)
  | k => Some (k, None)
  end.

Definition label_inside (b : HunkBudget) (line : str) : option (LineKind * option HunkBudget) :=
  if is_change_line line then
    match change_kind line with
    | KAdd => new ← checked_sub (hb_new b) 1; Some (KAdd, Some (mkHunk (hb_old b) new true))
    | KRemove => old ← checked_sub (hb_old b) 1; Some (KRemove, Some (mkHunk old (hb_new b) true))
    | k => Some (k, Some (mkHunk (hb_old b) (hb_new b) true))
    end
  else if is_context_line line then
    old ← checked_sub (hb_old b) 1;
    new ← checked_sub (hb_new b) 1;
    Some (KContext, Some (mkHunk old new (seen_change b)))
  else None.

Definition label (h : option HunkBudget) (line : str) : option (LineKind * option HunkBudget) :=
  match h with
  | None => label_outside line
  | Some b =>
      if exhausted b then (if seen_change b then label_outside line else None)
      else label_inside b line
  end.

Fixpoint classify (h : option HunkBudget) (ls : list str) : option (list (LineKind * str)) :=
  match ls with
  | [] => match h with Some (mkHunk _ _ false) => None | _ => Some [] end
  | line :: ls' => '(k, h') ← label h line; ks ← classify h' ls'; Some ((k, line) :: ks)
  end.

(** Second pass: print the labelled lines; [after_change] tells whether the last
    line that is not context was a change. *)
Fixpoint render (after_change : bool) (run : list str) (ks : list (LineKind * str)) : list str :=
  match ks with
  | [] => flush_context_run run Trailing
  | (KContext, line) :: ks' => render after_change (run ++ [line]) ks'
  | (k, line) :: ks' =>
      flush_context_run run (if is_change k then (if after_change then Interior else Leading) else Trailing) ++
      match k with KMeta => [] | _ => [line] end ++
      render (is_change k) [] ks'
  end.

Definition count (k : LineKind) (ks : list (LineKind * str)) : N :=
  N.of_nat (length (List.filter (λ x, kind_eqb k x.1) ks)).

Definition summary_of (ks : list (LineKind * str)) : str :=
  let files := if 0 <? count KGitHeader ks then count KGitHeader ks else count KPlusHeader ks in
  diff_summary files (count KAdd ks) (count KRemove ks).

(** The reader's guarantee: every line is there in order, except metadata, and
    runs of at least two unchanged lines replaced by their exact number. *)
Inductive condensed : list str → list str → Prop :=
| condensed_nil : condensed [] []
| condensed_keep line ls out : condensed ls out → condensed (line :: ls) (line :: out)
| condensed_meta line ls out : is_metadata line = true → condensed ls out → condensed (line :: ls) out
| condensed_hide hidden ls out :
    Forall (λ l, is_context_line l = true) hidden → (2 ≤ length hidden)%nat →
    condensed ls out → condensed (hidden ++ ls) (unchanged_marker (length hidden) :: out).

(** Diffs as a tool writes them: header lines, and hunks whose header counts them. *)
Inductive Op := Add | Del | Ctx.

Record Hunk := mkWritten { wh_old : N; wh_new : N; wh_body : list (Op * str); wh_note : str }.

Inductive Item := HeaderLine (line : str) | HunkItem (h : Hunk).

Definition op_line (x : Op * str) : str :=
  match x.1 with Add => $"+" | Del => $"-" | Ctx => $" " end ++ x.2.
Definition op_kind (x : Op * str) : LineKind := match x.1 with Add => KAdd | Del => KRemove | Ctx => KContext end.

Definition old_count (l : list (Op * str)) : N :=
  N.of_nat (length (List.filter (λ x, match x.1 with Add => false | _ => true end) l)).
Definition new_count (l : list (Op * str)) : N :=
  N.of_nat (length (List.filter (λ x, match x.1 with Del => false | _ => true end) l)).
Definition has_change (l : list (Op * str)) : bool :=
  existsb (λ x, match x.1 with Ctx => false | _ => true end) l.

Definition range_text (start n : N) : str := show_N start ++ $"," ++ show_N n.
Definition hunk_header (h : Hunk) : str :=
  $"@@ -" ++ range_text (wh_old h) (old_count (wh_body h)) ++ $" +" ++
  range_text (wh_new h) (new_count (wh_body h)) ++ $" @@" ++ wh_note h.

Definition item_lines (i : Item) : list str :=
  match i with HeaderLine l => [l] | HunkItem h => hunk_header h :: map op_line (wh_body h) end.
Definition item_kinds (i : Item) : list (LineKind * str) :=
  match i with
  | HeaderLine l => [(file_kind l, l)]
  | HunkItem h => (KHunk, hunk_header h) :: map (λ x, (op_kind x, op_line x)) (wh_body h)
  end.

(** The counts of a written diff. *)
Definition ops_of (i : Item) : list (Op * str) := match i with HeaderLine _ => [] | HunkItem h => wh_body h end.
Definition headers_of (prefix : str) (items : list Item) : N :=
  N.of_nat (length (List.filter (λ i, match i with HeaderLine l => starts_with l prefix | _ => false end) items)).
Definition op_count (o : Op) (items : list Item) : N :=
  N.of_nat (length (List.filter (λ x : Op * str, match x.1, o with Add, Add | Del, Del | Ctx, Ctx => true | _, _ => false end)
                      (concat (map ops_of items)))).

Definition item_ok (i : Item) : Prop :=
  match i with
  | HeaderLine l => (ch_nl ∉ l) ∧ starts_with l $"@@" = false
  | HunkItem h =>
      wh_old h ≤ u64_max ∧ wh_new h ≤ u64_max ∧ old_count (wh_body h) ≤ u64_max ∧
      new_count (wh_body h) ≤ u64_max ∧ has_change (wh_body h) = true ∧ line_ok (hunk_header h) ∧
      Forall (λ x : Op * str, ch_nl ∉ x.2) (wh_body h)
  end.

(** ** Lemmas *)

Lemma condensed_app a b c d : condensed a b → condensed c d → condensed (a ++ c) (b ++ d).
Proof.
  induction 1 as [|l ls out _ IH|l ls out Hm _ IH|hid ls out Hf Hl _ IH]; intros Hc; cbn; [done| | |].
  - by apply condensed_keep, IH.
  - by apply condensed_meta, IH.
  - rewrite <-app_assoc. by apply condensed_hide, IH.
Qed.

Lemma condensed_refl ls : condensed ls ls.
Proof. induction ls; [apply condensed_nil|by apply condensed_keep]. Qed.

(** Flushing a run keeps it whole or hides its middle, never less than two lines. *)
Lemma flush_condensed run pos :
  Forall (λ l, is_context_line l = true) run → condensed run (flush_context_run run pos).
Proof.
  intros Hrun. unfold flush_context_run. destruct (Nat.leb_spec 2 (length run - match pos with Interior => 2%nat | _ => 1%nat end)) as [Hle|_];
    [|apply condensed_refl].
  destruct run as [|f run] using rev_ind; [cbn in Hle; lia|]. clear IHrun.
  rewrite last_snoc. rewrite length_app in Hle |- *. cbn [length] in *.
  apply Forall_app in Hrun as [Hrun Hf].
  destruct pos.
  - replace (length run + 1 - 1)%nat with (length run) in * by lia.
    apply (condensed_hide run [f] [f]); [done|lia|]. apply condensed_refl.
  - destruct run as [|g run]; [cbn in Hle; lia|]. cbn [length app] in *.
    replace (S (length run) + 1 - 2)%nat with (length run) in * by lia.
    apply Forall_cons in Hrun as [_ Hrun]. rewrite (app_comm_cons run [f] g), last_snoc. cbn [app].
    apply condensed_keep, (condensed_hide run [f] [f]); [done|lia|]. apply condensed_refl.
  - destruct run as [|g run]; [cbn in Hle; lia|]. cbn [length app] in *.
    replace (S (length run) + 1 - 1)%nat with (length (run ++ [f])) in * by (rewrite length_app; cbn; lia).
    apply Forall_cons in Hrun as [_ Hrun].
    apply condensed_keep. rewrite <-(app_nil_r (run ++ [f])).
    rewrite app_nil_r at 2. apply condensed_hide; [by apply Forall_app|done|apply condensed_nil].
Qed.

(** Labelling keeps the lines, and labels context and metadata correctly. *)
Definition labelled (x : LineKind * str) : Prop :=
  (x.1 = KContext → is_context_line x.2 = true) ∧ (x.1 = KMeta → is_metadata x.2 = true).

Lemma file_kind_cases line :
  labelled (file_kind line, line) ∧ file_kind line ≠ KContext ∧ is_change (file_kind line) = false.
Proof. unfold file_kind, labelled. repeat case_match; cbn; split_and!; intros; done || congruence. Qed.

Lemma change_kind_cases line :
  labelled (change_kind line, line) ∧ change_kind line ≠ KContext ∧ is_change (change_kind line) = true.
Proof. unfold change_kind, labelled. repeat case_match; cbn; split_and!; intros; done || congruence. Qed.

Lemma label_labelled h line k h' : label h line = Some (k, h') → labelled (k, line).
Proof.
  assert (Hout : label_outside line = Some (k, h') → labelled (k, line)).
  { unfold label_outside. pose proof (file_kind_cases line) as [Hl _].
    destruct (file_kind line); [destruct (parse_hunk_budget line); [|done]|..]; by intros [= <- _]. }
  destruct h as [b|]; [|done]. cbn [label]. destruct (exhausted b); [by destruct (seen_change b)|].
  unfold label_inside. destruct (is_change_line line).
  - pose proof (change_kind_cases line) as [Hl _].
    destruct (change_kind line); try destruct (checked_sub _ _); try done; by intros [= <- _].
  - destruct (is_context_line line) eqn:Ec; [|done].
    destruct (checked_sub (hb_old b) 1); [|done]. destruct (checked_sub (hb_new b) 1); [|done].
    intros [= <- _]. by split.
Qed.

Lemma classify_lines h ls ks : classify h ls = Some ks → map snd ks = ls ∧ Forall labelled ks.
Proof.
  revert h ks. induction ls as [|line ls IH]; intros h ks; cbn [classify].
  - destruct h as [[? ? []]|]; intros [= <-]; by split.
  - destruct (label h line) as [[k h']|] eqn:El; [|done]. cbn.
    destruct (classify h' ls) as [ks'|] eqn:Ec; [|done]. intros [= <-].
    destruct (IH _ _ Ec) as [<- Hf]. split; [done|]. constructor; [by eapply label_labelled|done].
Qed.

#[local] Instance LineKind_eq_dec : EqDecision LineKind.
Proof. solve_decision. Defined.

Lemma render_condensed ac run ks :
  Forall (λ l, is_context_line l = true) run → Forall labelled ks →
  condensed (run ++ map snd ks) (render ac run ks).
Proof.
  intros Hrun Hks. revert ac run Hrun. induction Hks as [|[k line] ks [Hctx Hmeta] _ IH]; intros ac run Hrun.
  - cbn. rewrite app_nil_r. by apply flush_condensed.
  - cbn [map snd fst] in *. destruct (decide (k = KContext)) as [->|Hk].
    { cbn [render]. replace (run ++ line :: map snd ks) with ((run ++ [line]) ++ map snd ks) by by rewrite <-app_assoc.
      apply IH. apply Forall_app. split; [done|]. constructor; [by apply Hctx|done]. }
    assert (Hrest : condensed (map snd ks) (render (is_change k) [] ks)) by by apply (IH _ []).
    destruct k; try done; cbn [render is_change]; apply condensed_app;
      try (by apply flush_condensed); try (apply condensed_keep; exact Hrest).
    apply condensed_meta; [by apply Hmeta|exact Hrest].
Qed.

(** What one labelled line does to the state of the streaming pass. *)
Definition advance (s : DiffState) (k : LineKind) (line : str) (h : option HunkBudget) : DiffState :=
  let one (k' : LineKind) := if kind_eqb k' k then 1 else 0 in
  let position := if is_change k
                  then match hunk s with Some b => if seen_change b then Interior else Leading | None => Leading end
                  else Trailing in
  mkDiff
    (match k with
     | KContext => body s
     | KMeta => body s ++ flush_context_run (context s) position
     | _ => body s ++ flush_context_run (context s) position ++ [line]
     end)
    (git_headers s + one KGitHeader) (plus_headers s + one KPlusHeader)
    (added s + one KAdd) (removed s + one KRemove) h
    (match k with KContext => context s ++ [line] | _ => [] end).

Lemma file_line_advance s line :
  file_line s line = ('(k, h) ← label_outside line; Some (advance s k line h)).
Proof.
  unfold file_line, label_outside, file_kind, advance. rewrite <-!app_assoc.
  destruct (starts_with line $"@@"); cbn.
  { destruct (parse_hunk_budget line); cbn; [|done]. by rewrite !N.add_0_r. }
  destruct (starts_with line $"diff --git "); cbn; [by rewrite !N.add_0_r|].
  destruct (is_metadata line); cbn; [by rewrite !N.add_0_r|].
  destruct (starts_with line $"+++ "); cbn; by rewrite !N.add_0_r.
Qed.

Lemma hunk_line_advance s b line :
  hunk s = Some b →
  hunk_line s b line = ('(k, h) ← label_inside b line; Some (advance s k line h)).
Proof.
  intros Hh. unfold hunk_line, label_inside, change_kind, advance. rewrite Hh.
  destruct (is_change_line line).
  - destruct (starts_with line $"+"); [destruct (checked_sub (hb_new b) 1); cbn; [|done]; by rewrite !N.add_0_r|].
    destruct (starts_with line $"-"); [destruct (checked_sub (hb_old b) 1); cbn; [|done]; by rewrite !N.add_0_r|].
    cbn. by rewrite !N.add_0_r.
  - destruct (is_context_line line); [|done].
    destruct (checked_sub (hb_old b) 1); cbn; [|done].
    destruct (checked_sub (hb_new b) 1); cbn; [|done]. by rewrite !N.add_0_r.
Qed.

Lemma diff_line_advance s line :
  diff_line s line = ('(k, h) ← label (hunk s) line; Some (advance s k line h)).
Proof.
  unfold diff_line, label. destruct (hunk s) as [b|] eqn:Hh; [|apply file_line_advance].
  destruct (exhausted b); [destruct (seen_change b); [apply file_line_advance|done]|by apply hunk_line_advance].
Qed.

(** The result of the streaming pass from a state: the body and the four counts. *)
Definition finish (s : DiffState) : option (list str * (N * N * N * N)) :=
  match hunk s with
  | Some (mkHunk _ _ false) => None
  | _ => Some (body s ++ flush_context_run (context s) Trailing,
               (git_headers s, plus_headers s, added s, removed s))
  end.

Definition tally (s : DiffState) (ks : list (LineKind * str)) : N * N * N * N :=
  (git_headers s + count KGitHeader ks, plus_headers s + count KPlusHeader ks,
   added s + count KAdd ks, removed s + count KRemove ks).

Lemma count_cons k x ks : count k (x :: ks) = (if kind_eqb k x.1 then 1 else 0) + count k ks.
Proof. unfold count. cbn [List.filter]. destruct (kind_eqb k x.1); cbn; lia. Qed.

Lemma tally_advance s k line h ks : tally (advance s k line h) ks = tally s ((k, line) :: ks).
Proof. unfold tally. rewrite !count_cons. cbn. by rewrite !N.add_assoc. Qed.

(** Whether the last labelled line was a change, as the state records it. *)
Definition after_change (h : option HunkBudget) : bool :=
  match h with Some b => seen_change b | None => false end.

Lemma parse_hunk_budget_fresh line b : parse_hunk_budget line = Some b → seen_change b = false.
Proof.
  unfold parse_hunk_budget. destruct (strip_prefix _ _) as [r|]; [|done]. cbn.
  destruct (split_once _ r) as [[o r2]|]; [|done]. cbn.
  destruct (split_once _ r2) as [[n r3]|]; [|done]. cbn.
  destruct (parse_range_count o); [|done]. destruct (parse_range_count n); [|done]. by intros [= <-].
Qed.

Lemma label_after h line k h' :
  label h line = Some (k, h') →
  if decide (k = KContext) then after_change h' = after_change h else after_change h' = is_change k.
Proof.
  assert (Hout : label_outside line = Some (k, h') →
    if decide (k = KContext) then after_change h' = after_change h else after_change h' = is_change k).
  { unfold label_outside. pose proof (file_kind_cases line) as (_ & Hc & Hch).
    destruct (file_kind line); try done;
      [destruct (parse_hunk_budget line) as [b|] eqn:Eb; [|done]|..]; intros [= <- <-]; cbn in *; try done.
    by eapply parse_hunk_budget_fresh. }
  destruct h as [b|]; [|done]. cbn [label]. destruct (exhausted b); [by destruct (seen_change b)|].
  unfold label_inside. destruct (is_change_line line).
  - pose proof (change_kind_cases line) as (_ & Hc & Hch).
    destruct (change_kind line); try done; try (destruct (checked_sub _ _); [|done]); by intros [= <- <-].
  - destruct (is_context_line line); [|done].
    destruct (checked_sub (hb_old b) 1); [|done]. destruct (checked_sub (hb_new b) 1); [|done].
    by intros [= <- <-].
Qed.

Lemma render_advance s line k h ks :
  label (hunk s) line = Some (k, h) →
  body s ++ render (after_change (hunk s)) (context s) ((k, line) :: ks) =
  body (advance s k line h) ++ render (after_change h) (context (advance s k line h)) ks.
Proof.
  intros Hl%label_after. destruct (decide (k = KContext)) as [->|Hk]; [by rewrite Hl|].
  rewrite Hl. unfold advance.
  destruct k; try done; cbn [is_change render body context]; rewrite <-?app_assoc; try done.
  all: by destruct (hunk s) as [[? ? []]|].
Qed.

Lemma diff_loop_classify ls s :
  (s' ← diff_loop s ls; finish s') =
  (ks ← classify (hunk s) ls; Some (body s ++ render (after_change (hunk s)) (context s) ks, tally s ks)).
Proof.
  revert s. induction ls as [|line ls IH]; intros s; cbn [diff_loop classify].
  - cbn. unfold finish, tally. destruct (hunk s) as [[? ? []]|]; cbn; by rewrite ?N.add_0_r.
  - rewrite diff_line_advance. destruct (label (hunk s) line) as [[k h]|] eqn:El; [|done]. cbn [mbind option_bind].
    etransitivity; [apply IH|]. change (hunk (advance s k line h)) with h.
    destruct (classify h ls) as [ks|]; [|done]. cbn [mbind option_bind].
    by rewrite tally_advance, <-(render_advance s line k h ks).
Qed.

(** The streaming pass is the two passes. *)
Lemma condense_two_pass input :
  condense_unified_diff input =
  (ks ← classify None (diff_lines input); Some (unlines (summary_of ks :: render false [] ks))).
Proof.
  pose proof (diff_loop_classify (diff_lines input) diff_start) as E. unfold condense_unified_diff.
  cbn [hunk diff_start body context after_change app] in E.
  assert (Hfin : ∀ s, match hunk s with
    | Some (mkHunk _ _ false) => None
    | _ => Some (unlines (diff_summary (if 0 <? git_headers s then git_headers s else plus_headers s) (added s) (removed s)
             :: body s ++ flush_context_run (context s) Trailing))
    end = ('(out, (g, p, a, r)) ← finish s; Some (unlines (diff_summary (if 0 <? g then g else p) a r :: out)))).
  { intros s. unfold finish. by destruct (hunk s) as [[? ? []]|]. }
  destruct (diff_loop diff_start (diff_lines input)) as [s|]; cbn [mbind option_bind] in *.
  - etransitivity; [apply Hfin|]. rewrite E. by destruct (classify None (diff_lines input)).
  - by destruct (classify None (diff_lines input)).
Qed.

(** *** Written diffs are recognised *)

Lemma split_once_app c p a b : (c ∉ a) → split_once (c :: p) (a ++ (c :: p) ++ b) = Some (a, b).
Proof.
  intros Hc. induction a as [|x a IH].
  - pose proof (strip_prefix_app (c :: p) b) as E. cbn [app] in *. cbn [split_once]. by rewrite E.
  - cbn [app split_once]. destruct (strip_prefix (c :: p) (x :: a ++ c :: p ++ b)) as [r|] eqn:E.
    { apply strip_prefix_Some in E. injection E as -> _. set_solver. }
    specialize (IH ltac:(set_solver)). cbn [app] in IH. by rewrite IH.
Qed.

Lemma parse_range_text start n :
  start ≤ u64_max → n ≤ u64_max → parse_range_count (range_text start n) = Some n.
Proof.
  intros Hs Hn. unfold parse_range_count, range_text.
  rewrite (split_once_app 44 []) by (apply digit_str_no; [done|apply show_N_digits]).
  unfold parse_usize. by rewrite !parse_show.
Qed.

Lemma range_text_free c start n :
  is_ascii_digit c = false → c ≠ 44 → c ∉ range_text start n.
Proof.
  intros Hd Hc. unfold range_text. rewrite !not_elem_of_app.
  split_and!; [by apply (digit_str_no _ _ Hd), show_N_digits| |by apply (digit_str_no _ _ Hd), show_N_digits].
  intros [->|[]%elem_of_nil]%elem_of_cons. done.
Qed.

Lemma parse_hunk_header h : item_ok (HunkItem h) →
  parse_hunk_budget (hunk_header h) = Some (mkHunk (old_count (wh_body h)) (new_count (wh_body h)) false).
Proof.
  intros (Ho & Hn & Hoc & Hnc & _). unfold parse_hunk_budget, hunk_header.
  rewrite strip_prefix_app. cbn [mbind option_bind].
  rewrite (split_once_app 32 $"+") by by apply range_text_free. cbn [mbind option_bind].
  rewrite (split_once_app 32 $"@@") by by apply range_text_free. cbn [mbind option_bind].
  by rewrite !parse_range_text.
Qed.

Lemma label_op b x :
  exhausted b = false → match x.1 with Add => True | _ => 1 ≤ hb_old b end →
  match x.1 with Del => True | _ => 1 ≤ hb_new b end →
  label (Some b) (op_line x) = Some (op_kind x,
    Some (mkHunk (match x.1 with Add => hb_old b | _ => hb_old b - 1 end)
                 (match x.1 with Del => hb_new b | _ => hb_new b - 1 end)
                 (match x.1 with Ctx => seen_change b | _ => true end))).
Proof.
  intros He Ho Hn. cbn [label]. rewrite He. unfold label_inside, checked_sub. destruct x as [[] t]; cbn in Ho, Hn |- *;
    try rewrite (proj2 (N.leb_le 1 (hb_old b))) by done;
    try rewrite (proj2 (N.leb_le 1 (hb_new b))) by done; done.
Qed.

Lemma old_count_cons x l :
  old_count (x :: l) = match x.1 with Add => old_count l | _ => 1 + old_count l end.
Proof. unfold old_count. destruct x as [[] t]; cbn [List.filter fst length]; lia. Qed.

Lemma new_count_cons x l :
  new_count (x :: l) = match x.1 with Del => new_count l | _ => 1 + new_count l end.
Proof. unfold new_count. destruct x as [[] t]; cbn [List.filter fst length]; lia. Qed.

Lemma classify_body l more seen :
  classify (Some (mkHunk (old_count l) (new_count l) seen)) (map op_line l ++ more) =
  (ks ← classify (Some (mkHunk 0 0 (seen || has_change l))) more;
   Some (map (λ x, (op_kind x, op_line x)) l ++ ks)).
Proof.
  revert seen. induction l as [|x l IH]; intros seen; cbn [map app].
  { cbn [has_change existsb]. rewrite orb_false_r. by destruct (classify _ more). }
  cbn [classify]. rewrite old_count_cons, new_count_cons.
  assert (Hdec : ∀ n : N, 1 + n - 1 = n) by (intros; lia).
  destruct x as [[] t]; cbn [fst]; rewrite label_op; cbn [fst hb_old hb_new seen_change];
    try done; try lia; try (unfold exhausted; cbn [hb_old hb_new]; apply andb_false_iff; rewrite !N.eqb_neq; lia);
    cbn [mbind option_bind]; rewrite ?Hdec, IH; cbn [has_change existsb fst orb];
    rewrite ?orb_true_r; by destruct (classify _ more).
Qed.

Lemma label_header h line :
  (h = None ∨ h = Some (mkHunk 0 0 true)) → starts_with line $"@@" = false →
  label h line = Some (file_kind line, None).
Proof.
  intros Hh Hl. assert (E : label h line = label_outside line) by by destruct Hh as [->| ->].
  rewrite E. unfold label_outside, file_kind. rewrite Hl. repeat case_match; done || congruence.
Qed.

Lemma label_hunk_header h0 h :
  (h0 = None ∨ h0 = Some (mkHunk 0 0 true)) → item_ok (HunkItem h) →
  label h0 (hunk_header h) =
  Some (KHunk, Some (mkHunk (old_count (wh_body h)) (new_count (wh_body h)) false)).
Proof.
  intros Hh Hok. assert (E : label h0 (hunk_header h) = label_outside (hunk_header h)) by by destruct Hh as [->| ->].
  rewrite E. unfold label_outside. assert (Hk : file_kind (hunk_header h) = KHunk) by done.
  by rewrite Hk, parse_hunk_header.
Qed.

Lemma classify_items h items :
  (h = None ∨ h = Some (mkHunk 0 0 true)) → Forall item_ok items →
  classify h (concat (map item_lines items)) = Some (concat (map item_kinds items)).
Proof.
  intros Hh Hok. revert h Hh. induction Hok as [|i items Hi _ IH]; intros h Hh.
  { by destruct Hh as [->| ->]. }
  cbn [map concat]. destruct i as [line|w]; cbn [item_lines item_kinds app].
  - cbn [classify]. rewrite label_header by (done || apply Hi). cbn [mbind option_bind].
    by rewrite IH by by left.
  - cbn [classify]. rewrite label_hunk_header by done. cbn [mbind option_bind].
    rewrite classify_body. pose proof Hi as (_ & _ & _ & _ & Hc & _). rewrite Hc. cbn [orb].
    by rewrite IH by by right.
Qed.

Lemma diff_lines_unlines ls : Forall (λ l, ch_nl ∉ l) ls → diff_lines (unlines ls) = ls.
Proof.
  induction 1 as [|l ls Hl _ IH]; [done|]. rewrite unlines_cons. unfold diff_lines in *.
  replace (l ++ ch_nl :: unlines ls) with (with_nl l ++ unlines ls)
    by (unfold with_nl; by rewrite <-app_assoc).
  rewrite split_inclusive_nl_line by done. cbn [map]. rewrite IH. f_equal.
  unfold with_nl. by rewrite (proj2 (strip_suffix_Some [ch_nl] (l ++ [ch_nl]) l)).
Qed.

Lemma item_lines_free i : item_ok i → Forall (λ l, ch_nl ∉ l) (item_lines i).
Proof.
  destruct i as [line|h]; cbn.
  - intros [Hl _]. by constructor.
  - intros (_ & _ & _ & _ & _ & [Hh _] & Hb). constructor; [done|].
    apply Forall_map. eapply Forall_impl; [exact Hb|]. intros [[] text] Ht; unfold op_line; cbn [fst snd];
      rewrite not_elem_of_app; (split; [|done]); apply (bool_decide_eq_true_1 _); done.
Qed.

Lemma has_hunk_line items :
  Forall item_ok items → (∃ h, HunkItem h ∈ items) →
  existsb (λ line, starts_with line $"@@") (lines (unlines (concat (map item_lines items)))) = true.
Proof.
  intros Hok [h Hh]. apply existsb_exists. exists (hunk_header h).
  split; [|by apply starts_with_spec; eexists]. apply list_elem_of_In.
  apply list_elem_of_split in Hh as (l1 & l2 & ->).
  rewrite map_app, concat_app. cbn [map concat item_lines]. rewrite unlines_app.
  apply Forall_app in Hok as [_ Hok]. apply Forall_cons in Hok as [(_ & _ & _ & _ & _ & Hl & _) _].
  rewrite lines_app.
  2:{ unfold unlines. generalize (concat (map item_lines l1)) as ls. clear.
      induction ls as [|l ls IH] using rev_ind; [by left|].
      rewrite map_app, concat_app. cbn. rewrite app_nil_r. apply nl_terminated_with_nl. }
  apply elem_of_app. right. cbn [app]. rewrite unlines_cons.
  rewrite lines_cons_nl by apply Hl. rewrite strip_eol_with_nl by done. by left.
Qed.

Lemma count_app k a b : count k (a ++ b) = count k a + count k b.
Proof. unfold count. rewrite List.filter_app, length_app. lia. Qed.

Lemma count_ops k o items :
  (k = KAdd ∧ o = Add ∨ k = KRemove ∧ o = Del) →
  count k (concat (map item_kinds items)) = op_count o items.
Proof.
  intros Hk. induction items as [|i items IH]; [by destruct Hk as [[-> ->]|[-> ->]]|].
  unfold op_count in *. cbn [map concat]. rewrite count_app, List.filter_app, length_app, Nat2N.inj_add, IH.
  f_equal. destruct i as [line|h]; cbn [item_kinds ops_of].
  - rewrite count_cons. unfold file_kind. cbn. destruct Hk as [[-> ->]|[-> ->]]; repeat case_match; done.
  - rewrite count_cons. assert (E0 : (if kind_eqb k (KHunk, hunk_header h).1 then 1 else 0) = 0)
      by by destruct Hk as [[-> ->]|[-> ->]].
    rewrite E0, N.add_0_l. induction (wh_body h) as [|x l IHl]; [done|].
    cbn [map]. rewrite count_cons, IHl. cbn [List.filter].
    destruct Hk as [[-> ->]|[-> ->]]; destruct x as [[] t]; cbn [fst op_kind kind_eqb length]; lia.
Qed.

Lemma file_kind_git line : file_kind line = KGitHeader ↔ starts_with line $"diff --git " = true.
Proof.
  split; [unfold file_kind; repeat case_match; done|].
  by intros [r ->]%starts_with_spec.
Qed.

Lemma file_kind_plus line : file_kind line = KPlusHeader ↔ starts_with line $"+++ " = true.
Proof.
  split; [unfold file_kind; repeat case_match; done|].
  by intros [r ->]%starts_with_spec.
Qed.

Lemma count_headers k prefix items :
  (∀ line, file_kind line = k ↔ starts_with line prefix = true) → k = KGitHeader ∨ k = KPlusHeader →
  count k (concat (map item_kinds items)) = headers_of prefix items.
Proof.
  intros Hp Hk. unfold headers_of. induction items as [|i items IH]; [done|].
  cbn [map concat]. rewrite count_app, IH. destruct i as [line|h]; cbn [item_kinds List.filter].
  - rewrite count_cons. unfold count. cbn [List.filter length fst]. rewrite N.add_0_r.
    destruct (starts_with line prefix) eqn:E.
    + apply Hp in E as ->. destruct Hk as [-> | ->]; cbn; lia.
    + assert (Hne : file_kind line ≠ k) by (intros Hc%Hp; congruence).
      replace (kind_eqb k (file_kind line)) with false; [done|].
      destruct (file_kind line), k; try done; by destruct Hk.
  - rewrite count_cons. assert (E0 : (if kind_eqb k (KHunk, hunk_header h).1 then 1 else 0) = 0)
      by by destruct Hk as [-> | ->].
    rewrite E0, N.add_0_l.
    assert (E1 : count k (map (λ x, (op_kind x, op_line x)) (wh_body h)) = 0); [|lia].
    induction (wh_body h) as [|[[] t] l IHl]; [done|..]; cbn [map]; rewrite count_cons, IHl;
      by destruct Hk as [-> | ->].
Qed.

(** ** Properties *)

(** The streaming condenser equals the two-pass reference: label every line,
    counting hunks off their headers, then print the labelled lines with the
    summary counting files, added and removed lines. *)
Theorem condense_is_classify_render input :
  condense_unified_diff input =
  (ks ← classify None (diff_lines input); Some (unlines (summary_of ks :: render false [] ks))).
Proof. apply condense_two_pass. Qed.

(** C34: condensing never hides a change: the output is either the input itself, or
    a summary followed by every line of the input in order, byte for byte, except
    metadata lines and runs of at least two unchanged lines, each replaced by a
    marker with its exact length. *)
Theorem git_diff_lossless input :
  git_diff input = input ∨
  ∃ ks out, classify None (diff_lines input) = Some ks ∧ git_diff input = unlines (summary_of ks :: out) ∧
    condensed (diff_lines input) out.
Proof.
  unfold git_diff. destruct (existsb _ _); [|by left]. rewrite condense_two_pass.
  destruct (classify None (diff_lines input)) as [ks|] eqn:E; [|by left]. right.
  destruct (classify_lines _ _ _ E) as [Hls Hl]. exists ks, (render false [] ks).
  split_and!; [done|done|]. rewrite <-Hls. by apply (render_condensed false []).
Qed.

(** A diff as tools write it is never left uncondensed: header lines and hunks
    whose headers count their lines, each hunk changing something, print as the
    labelled lines, and the summary counts the files, the added and the removed
    lines. *)
Theorem git_diff_condenses_written items :
  Forall item_ok items → (∃ h, HunkItem h ∈ items) →
  git_diff (unlines (concat (map item_lines items))) =
  unlines
    (diff_summary
       (if 0 <? headers_of $"diff --git " items then headers_of $"diff --git " items
        else headers_of $"+++ " items)
       (op_count Add items) (op_count Del items)
     :: render false [] (concat (map item_kinds items))).
Proof.
  intros Hok Hh. unfold git_diff. rewrite has_hunk_line by done. rewrite condense_two_pass.
  rewrite diff_lines_unlines.
  2:{ apply Forall_concat, Forall_map. eapply Forall_impl; [exact Hok|apply item_lines_free]. }
  rewrite classify_items by (by left || done). cbn [mbind option_bind default]. unfold summary_of.
  rewrite (count_headers KGitHeader $"diff --git "), (count_headers KPlusHeader $"+++ "),
    (count_ops KAdd Add), (count_ops KRemove Del); auto using file_kind_git, file_kind_plus.
Qed.

(** ** Witnesses *)

Module DiffDemo.
Definition items : list Item :=
  [HeaderLine $"diff --git a/x b/x"; HeaderLine $"index 1..2"; HeaderLine $"--- a/x"; HeaderLine $"+++ b/x";
   HunkItem (mkWritten 1 1 [(Ctx, $"a"); (Ctx, $"b"); (Ctx, $"c"); (Ctx, $"d"); (Del, $"- e"); (Add, $"f");
                            (Ctx, $"g")] $" fn main")].
End DiffDemo.

Lemma git_diff_condenses_written_witness :
  git_diff (unlines (concat (map item_lines DiffDemo.items))) =
  unlines [$"1 file, +1 -1"; $"diff --git a/x b/x"; $"--- a/x"; $"+++ b/x"; $"@@ -1,6 +1,6 @@ fn main";
           $"… 3 lines unchanged"; $" d"; $"-- e"; $"+f"; $" g"].
Proof.
  rewrite (git_diff_condenses_written DiffDemo.items).
  - vm_compute. reflexivity.
  - unfold item_ok, line_ok. repeat constructor; try done; apply (bool_decide_eq_true_1 _); by vm_compute.
  - eexists. unfold DiffDemo.items. do 4 right. left.
Defined.
