(* ===== verification/ProxyFilters.v ===== *)
(** * Build, test and tool output: [crates/rtrt-proxy/src/cargo.rs], [node.rs],
    [containers.rs], [kubernetes.rs] and the line filters of [generic.rs].

    Most of them drop noise lines that do not look like errors and collapse the
    blanks; [cargo_test] is a small state machine around captured output. *)
From S2P Require Import Prelude Str ProxyLines.

Definition CARGO_NOISE : str :=
  $"(?m)^\s*(Compiling|Checking|Finished|Downloading|Downloaded|Fresh|Blocking|Waiting for file lock|Updating|Adding) .*$".
Definition CARGO_PROGRESS : str := $"(?m)^\s*(Running|Doc-tests|Building|Packaging|Verifying) .*$".
Definition TEST_OK_LINE : str := $"^test .+ \.\.\. ok(?: <[^>]+>)?$".
Definition RUNNING_N_TESTS : str := $"^running \d+ tests?$".
Definition FAILURE_DUMP_HEADER : str := $"^---- .+ (stdout|stderr) ----$".
Definition NODE_PROGRESS : str :=
  $"^\s*(added|removed|changed|audited|found 0 vulnerabilities|up to date|Progress:|Packages:|Done in|Lockfile is up to date)".
Definition DOCKER_PROGRESS : str :=
  $"(?i)^\s*([a-f0-9]{12}: )?(Pulling fs layer|Waiting|Downloading|Verifying Checksum|Download complete|Extracting|Pull complete|Already exists|Pushed|Preparing|Layer already exists)$".
Definition CURL_PROGRESS : str :=
  $"^\s*(% Total|[0-9]{1,3}\s+[0-9A-Za-z.-]+\s+[0-9A-Za-z.-]+|-=O=-)".
Definition PYTEST_NOISE : str := $"^=+ (test session starts|warnings summary|slowest durations) =+$".

(** The lines a filter's loop pushes: those that are not skipped. *)
Definition kept_lines (skip : str → bool) (input : str) : list str :=
  List.filter (λ l, negb (skip l)) (lines input).

(** What most filters answer when nothing but blanks is left of a non-blank input. *)
Definition or_ok (input out : str) : str :=
  if blank out && negb (blank input) then with_nl $"ok" else out.

Section Filters.
Context (is_match : str → str → bool).
Abbreviation is_error := (is_error_or_warning is_match).

(** ** cargo *)

Definition cargo_noise_skip (line : str) : bool :=
  (is_match CARGO_NOISE line || is_match CARGO_PROGRESS line) && negb (is_error line).

Definition cargo_noise (input : str) : str :=
  or_ok input (collapse_blanks (unlines (kept_lines cargo_noise_skip input))).

Definition cargo_nextest_skip (line : str) : bool :=
  let trimmed := trim_start line in
  (starts_with trimmed $"Starting " || starts_with trimmed $"PASS " || starts_with trimmed $"SKIP " ||
   starts_with trimmed $"SLOW " || starts_with trimmed $"RETRY " ||
   starts_with trimmed $"Cancelling due to test failure") && negb (is_error line).

Definition cargo_nextest (input : str) : str :=
  or_ok input (collapse_blanks (unlines (kept_lines cargo_nextest_skip input))).

(** The summary that replaces a run of passing lines. *)
Definition passed_line (run : N) : str := $"✓ " ++ show_N run ++ $" passed".
Definition flush_ok_run (run : N) : list str := if 0 <? run then [passed_line run] else [].

Record TestState := mkTest { ok_run : N; in_failure_dump : bool; last_blank : bool }.

Definition dump_ends (line : str) : bool :=
  str_eqb line $"failures:" || starts_with line $"test result:".

Definition test_noise (line : str) : bool :=
  (is_match CARGO_NOISE line || is_match CARGO_PROGRESS line || is_match RUNNING_N_TESTS (trim line)) &&
  negb (is_error line).

(** One line of [cargo_test]: the lines pushed, and the next state. *)
Definition test_line (s : TestState) (line : str) : list str * TestState :=
  if in_failure_dump s && negb (dump_ends line) then ([line], mkTest (ok_run s) true false)
  else if is_match FAILURE_DUMP_HEADER line then (flush_ok_run (ok_run s) ++ [line], mkTest 0 true false)
  else if is_match TEST_OK_LINE line then ([], mkTest (ok_run s + 1) false (last_blank s))
  else if test_noise line then ([], mkTest (ok_run s) false (last_blank s))
  else
    let is_blank := blank line in
    if is_blank && last_blank s then ([], mkTest (ok_run s) false (last_blank s))
    else (flush_ok_run (ok_run s) ++ [line], mkTest 0 false is_blank).

Fixpoint test_loop (s : TestState) (ls : list str) : list str :=
  match ls with
  | [] => flush_ok_run (ok_run s)
  | line :: ls' => let '(out, s') := test_line s line in out ++ test_loop s' ls'
  end.

Definition cargo_test (input : str) : str :=
  or_ok input (unlines (test_loop (mkTest 0 false false) (lines input))).

(** ** Other tools *)

Definition node_filter_skip (line : str) : bool :=
  let trimmed := trim line in
  (is_match NODE_PROGRESS trimmed || starts_with trimmed $"npm notice" || starts_with trimmed $"pnpm: " ||
   contains trimmed $"WARN deprecated") && negb (is_error trimmed).
Definition node_filter (input : str) : str :=
  or_ok input (collapse_blanks (unlines (kept_lines node_filter_skip input))).

Definition node_diagnostics_skip (line : str) : bool :=
  let trimmed := trim line in
  (str_eqb trimmed $"Done" || str_eqb trimmed $"All matched files use Prettier code style!" ||
   starts_with trimmed $"Checked " || starts_with trimmed $"Found 0 errors") && negb (is_error trimmed).
Definition node_diagnostics (input : str) : str :=
  or_ok input (collapse_blanks (unlines (kept_lines node_diagnostics_skip input))).

Definition docker_skip (line : str) : bool :=
  let trimmed := trim line in
  (is_match DOCKER_PROGRESS trimmed ||
   starts_with trimmed $"#" &&
     (contains trimmed $"CACHED" || contains trimmed $"transferring context" || contains trimmed $"DONE")) &&
  negb (is_error trimmed).
Definition docker_filter (input : str) : str :=
  or_ok input (collapse_blanks (unlines (kept_lines docker_skip input))).

Definition kubectl_skip (line : str) : bool :=
  let trimmed := trim line in
  (starts_with trimmed $"Defaulted container " || starts_with trimmed $"Waiting for deployment " ||
   str_eqb trimmed $"deployment successfully rolled out") && negb (is_error trimmed).
Definition kubectl_filter (input : str) : str :=
  or_ok input (collapse_blanks (unlines (kept_lines kubectl_skip input))).

Definition http_skip (line : str) : bool := is_match CURL_PROGRESS line && negb (is_error line).
Definition http_client_filter (input : str) : str :=
  let out := unlines (kept_lines http_skip input) in
  if blank out then input else collapse_blanks out.

(** [✓] marks a passing check. *)
Definition gh_passed (line : str) : bool := starts_with (trim line) $"✓".
Definition gh_filter (input : str) : str :=
  let passed := N.of_nat (length (List.filter gh_passed (lines input))) in
  collapse_blanks (unlines (kept_lines gh_passed input ++ if 0 <? passed then [passed_line passed] else [])).

Definition pytest_skip (line : str) : bool :=
  let trimmed := trim line in
  (is_match PYTEST_NOISE trimmed || starts_with trimmed $"collecting " || starts_with trimmed $"collected ") &&
  negb (is_error trimmed).
Definition pytest_filter (input : str) : str := collapse_blanks (unlines (kept_lines pytest_skip input)).

Definition go_test_skip (line : str) : bool :=
  let trimmed := trim line in
  (str_eqb trimmed $"PASS" || starts_with trimmed ($"ok  " ++ [ch_tab]) ||
   starts_with trimmed ($"?   " ++ [ch_tab])) && negb (is_error trimmed).
Definition go_test_filter (input : str) : str :=
  or_ok input (collapse_blanks (unlines (kept_lines go_test_skip input))).

Definition pip_skip (line : str) : bool :=
  let trimmed := trim line in
  (starts_with trimmed $"Collecting " || starts_with trimmed $"Downloading " ||
   starts_with trimmed $"Installing collected packages" || starts_with trimmed $"Successfully installed" ||
   starts_with trimmed $"Requirement already satisfied") && negb (is_error trimmed).
Definition pip_filter (input : str) : str :=
  or_ok input (collapse_blanks (unlines (kept_lines pip_skip input))).
End Filters.

Definition passthrough (input : str) : str := input.
Definition ls_passthrough (input : str) : str := collapse_blanks input.
Definition find_filter (input : str) : str := collapse_blanks input.

(** ** [ls -l] *)

Record LsEntry := mkLs { is_dir : bool; rendered : str }.

Definition parse_ls_long_line (line : str) : option LsEntry :=
  let parts := split_whitespace line in
  if Nat.ltb (length parts) 9 then None else
  let perms := default [] (parts !! 0%nat) in
  if str_len perms <? 10 then None else
  let size := default [] (parts !! 4%nat) in
  let name := join $" " (drop 8 parts) in
  match perms with
  | [] => None
  | c :: _ =>
      let prefix := if c =? 100 then $"dir " else if c =? 108 then $"link " else [] in
      Some (mkLs (starts_with perms $"d") (prefix ++ size ++ $" " ++ name))
  end.

(** The loop: directories, files, and whether anything was parsed. *)
Definition ls_step (acc : list str * list str * bool) (line : str) : list str * list str * bool :=
  let '(dirs, files, parsed_any) := acc in
  if blank line || starts_with line $"total " then acc
  else match parse_ls_long_line line with
       | Some entry => if is_dir entry then (dirs ++ [rendered entry], files, true)
                       else (dirs, files ++ [rendered entry], true)
       | None => (dirs, files ++ [line], parsed_any)
       end.

Definition ls_long (input : str) : str :=
  let '(dirs, files, parsed_any) := foldl ls_step ([], [], false) (lines input) in
  if negb parsed_any then input else unlines (dirs ++ files).

(** ** Specifications *)

Section Specs.
Context (is_match : str → str → bool).
Abbreviation is_error := (is_error_or_warning is_match).

(** A filter keeps the lines in [p]: all of them, verbatim and in order. *)
Definition keeps (p : str → bool) (f : str → str) (input : str) : Prop :=
  f input = input ∨ ∃ out, f input = unlines out ∧ List.filter p (lines input) `sublist_of` out.

(** No line keeps a carriage return once its line ending is stripped. *)
Definition clean (input : str) : Prop := Forall line_ok (lines input).

(** What the tools' users must not lose: errors on lines that are not blank, as each
    filter tests them; for [gh] the checks that did not pass. *)
Definition error_line (line : str) : bool := is_error line && negb (blank line).
Definition trimmed_error_line (line : str) : bool := is_error (trim line) && negb (blank line).
Definition test_error_line (line : str) : bool := error_line line && negb (is_match TEST_OK_LINE line).
Definition failing_check (line : str) : bool := negb (gh_passed line) && negb (blank line).

Definition error_filters : list ((str → bool) * (str → str)) :=
  [(error_line, cargo_noise is_match); (error_line, cargo_nextest is_match);
   (test_error_line, cargo_test is_match); (error_line, http_client_filter is_match);
   (trimmed_error_line, node_filter is_match); (trimmed_error_line, node_diagnostics is_match);
   (trimmed_error_line, docker_filter is_match); (trimmed_error_line, kubectl_filter is_match);
   (trimmed_error_line, pytest_filter is_match); (trimmed_error_line, go_test_filter is_match);
   (trimmed_error_line, pip_filter is_match); (failing_check, gh_filter)].
End Specs.

(** ** Lemmas *)

Lemma blank_unlines ls : blank (unlines ls) = true ↔ Forall (λ l, blank l = true) ls.
Proof.
  assert (Hb : ∀ s, blank s = true ↔ Forall (λ c, is_whitespace c = true) s).
  { intros s. unfold blank. split.
    - intros Ht. destruct (trim s) eqn:E; [|done]. apply Forall_forall. intros c Hc.
      destruct (is_whitespace c) eqn:Ew; [done|]. exfalso. by eapply trim_nonempty.
    - intros Hf. unfold trim, trim_start, trim_start_matches.
      by rewrite (drop_while_all _ _ Hf). }
  rewrite Hb. unfold unlines. rewrite Forall_concat, Forall_map. apply Forall_iff. intros l.
  rewrite Hb. unfold with_nl. rewrite Forall_app. split; [by intros [? _]|]. intros Hl. by repeat constructor.
Qed.

Lemma filter_nil_Forall {A} (p : A → bool) l : List.filter p l = [] ↔ Forall (λ x, p x = false) l.
Proof.
  induction l as [|x l IH]; cbn; [by split|]. rewrite Forall_cons, <-IH. destruct (p x); naive_solver.
Qed.

Lemma filter_filter_keep {A} (p q : A → bool) l :
  (∀ x, p x = true → q x = true) → List.filter p (List.filter q l) = List.filter p l.
Proof.
  intros Hpq. induction l as [|x l IH]; cbn; [done|].
  destruct (q x) eqn:Eq; cbn; rewrite IH; [done|]. destruct (p x) eqn:Ep; [|done].
  by rewrite (Hpq _ Ep) in Eq.
Qed.

(** The common shape: what is skipped is not in [p], and neither is a blank line. *)
Section Shape.
Context (p skip : str → bool) (input : str).
Context (Hskip : ∀ l, p l = true → skip l = false) (Hblank : ∀ l, p l = true → blank l = false).
Context (Hclean : clean input).

Lemma keeps_collapsed_extra extra : Forall line_ok extra →
  ∃ out, collapse_blanks (unlines (kept_lines skip input ++ extra)) = unlines out ∧
    List.filter p (lines input) `sublist_of` out.
Proof using Hskip Hblank Hclean.
  intros Hextra. unfold collapse_blanks, kept_lines. rewrite lines_unlines.
  2:{ apply Forall_app. split; [|done]. rewrite Forall_forall. intros l [_ Hl]%elem_of_filter_bool.
      unfold clean in Hclean. rewrite Forall_forall in Hclean. by apply Hclean. }
  eexists. split; [done|].
  rewrite <-(filter_filter_keep p (λ l, negb (skip l))) by (intros l Hl; by rewrite (Hskip l Hl)).
  etransitivity; [|apply (filter_sublist p)]. rewrite collapse_blanks_from_filter by done.
  rewrite List.filter_app. by apply sublist_inserts_r.
Qed.

Lemma keeps_collapsed : ∃ out, collapse_blanks (unlines (kept_lines skip input)) = unlines out ∧
  List.filter p (lines input) `sublist_of` out.
Proof using Hskip Hblank Hclean.
  destruct (keeps_collapsed_extra [] ltac:(by constructor)) as (out & Ho & Hs).
  rewrite app_nil_r in Ho. by exists out.
Qed.

Lemma or_ok_keeps out :
  List.filter p (lines input) `sublist_of` out →
  ∃ out', or_ok input (unlines out) = unlines out' ∧ List.filter p (lines input) `sublist_of` out'.
Proof using Hblank.
  intros Hsub. unfold or_ok. destruct (blank (unlines out) && _) eqn:E; [|by exists out].
  apply andb_true_iff in E as [E _]. apply blank_unlines in E. exists [$"ok"]. split; [done|].
  replace (List.filter p (lines input)) with (@nil str); [apply sublist_nil_l|].
  symmetry. apply filter_nil_Forall, Forall_forall. intros l Hl. destruct (p l) eqn:Ep; [|done].
  exfalso. assert (Hin : l ∈ out).
  { eapply elem_of_sublist; [|exact Hsub]. by apply elem_of_filter_bool. }
  rewrite Forall_forall in E. specialize (E _ Hin). rewrite (Hblank _ Ep) in E. done.
Qed.

Lemma keeps_or_ok : keeps p (λ i, or_ok i (collapse_blanks (unlines (kept_lines skip i)))) input.
Proof using Hskip Hblank Hclean.
  right. destruct keeps_collapsed as (out & -> & Hsub). by apply or_ok_keeps.
Qed.
End Shape.

Section Tests.
Context (is_match : str → str → bool).
Abbreviation test_line := (test_line is_match).
Abbreviation test_loop := (test_loop is_match).
Abbreviation test_error_line := (test_error_line is_match).

Lemma test_line_keeps s l : test_error_line l = true → ∃ out, (test_line s l).1 = out ++ [l].
Proof using.
  unfold ProxyFilters.test_error_line, error_line. intros [[He Hb]%andb_true_iff Ht]%andb_true_iff.
  apply negb_true_iff in Hb, Ht. unfold ProxyFilters.test_line, test_noise.
  destruct (in_failure_dump s && negb (dump_ends l)); [by exists []|].
  destruct (is_match FAILURE_DUMP_HEADER l); [by eexists|]. rewrite Ht, He, andb_false_r, Hb.
  by eexists.
Qed.

Lemma test_loop_keeps s ls : List.filter test_error_line ls `sublist_of` test_loop s ls.
Proof using.
  revert s. induction ls as [|l ls IH]; intros s; [apply sublist_nil_l|].
  cbn [List.filter ProxyFilters.test_loop]. pose proof (test_line_keeps s l) as Hk.
  destruct (test_line s l) as [out s']. destruct (test_error_line l).
  - destruct (Hk eq_refl) as [out' Ho]. cbn in Ho. subst out. rewrite <-app_assoc.
    apply sublist_inserts_l. by apply sublist_skip.
  - by apply sublist_inserts_l.
Qed.

(** The loop, resumed in the middle of the lines. *)
Lemma test_loop_app s ls1 ls2 :
  ∃ out s', test_loop s (ls1 ++ ls2) = out ++ test_loop s' ls2.
Proof using.
  revert s. induction ls1 as [|l ls1 IH]; intros s; [by exists [], s|].
  cbn [app ProxyFilters.test_loop]. destruct (test_line s l) as [out s1].
  destruct (IH s1) as (out' & s' & ->). exists (out ++ out'), s'. by rewrite app_assoc.
Qed.

Lemma test_loop_dump n b dump post :
  Forall (λ l, dump_ends l = false) dump →
  ∃ b', test_loop (mkTest n true b) (dump ++ post) = dump ++ test_loop (mkTest n true b') post.
Proof using.
  revert b. induction dump as [|l dump IH]; intros b Hd; [by exists b|].
  apply Forall_cons in Hd as [Hl Hd]. cbn [app ProxyFilters.test_loop].
  unfold ProxyFilters.test_line at 1. cbn [in_failure_dump]. rewrite Hl. cbn.
  destruct (IH false Hd) as [b' ->]. by exists b'.
Qed.

Lemma test_line_header s header :
  is_match FAILURE_DUMP_HEADER header = true →
  ∃ out n, test_line s header = (out ++ [header], mkTest n true false).
Proof using.
  intros Hh. unfold ProxyFilters.test_line. rewrite Hh.
  destruct (_ && _); [by exists [], (ok_run s)|by eexists _, _].
Qed.
End Tests.

Lemma passed_line_ok n : line_ok (passed_line n).
Proof.
  unfold passed_line, line_ok. rewrite !rev_app_distr. split; [|done].
  rewrite !not_elem_of_app. split_and!.
  - apply (bool_decide_eq_true_1 _). by vm_compute.
  - by apply digit_str_no, show_N_digits.
  - apply (bool_decide_eq_true_1 _). by vm_compute.
Qed.

(** ** Properties *)

(** No filter hides an error: on inputs without stray carriage returns, every
    line a filter recognises as an error (for [cargo test] unless it is a passing
    test, for [gh] every check that did not pass) and that is not blank survives
    byte for byte and in order. *)
Theorem filters_keep_errors is_match input :
  clean input → Forall (λ pf, keeps pf.1 pf.2 input) (error_filters is_match).
Proof.
  intros Hclean. unfold error_filters.
  assert (He : ∀ line, error_line is_match line = true → is_error_or_warning is_match line = true ∧ blank line = false).
  { unfold error_line. intros l. rewrite andb_true_iff, negb_true_iff. done. }
  assert (Ht : ∀ line, trimmed_error_line is_match line = true →
      is_error_or_warning is_match (trim line) = true ∧ blank line = false).
  { unfold trimmed_error_line. intros l. rewrite andb_true_iff, negb_true_iff. done. }
  repeat apply Forall_cons_2; cbn [fst snd]; [..|by apply Forall_nil].
  - apply keeps_or_ok; [|apply He|done]. intros l [Hl _]%He. unfold cargo_noise_skip. by rewrite Hl, andb_false_r.
  - apply keeps_or_ok; [|apply He|done]. intros l [Hl _]%He. unfold cargo_nextest_skip. by rewrite Hl, andb_false_r.
  - right. apply or_ok_keeps; [|apply test_loop_keeps].
    unfold test_error_line. intros l [[_ Hb]%He _]%andb_true_iff. done.
  - unfold keeps, http_client_filter. destruct (blank _); [by left|]. right.
    apply keeps_collapsed; [|apply He|done]. intros l [Hl _]%He. unfold http_skip. by rewrite Hl, andb_false_r.
  - apply keeps_or_ok; [|apply Ht|done]. intros l [Hl _]%Ht. unfold node_filter_skip. by rewrite Hl, andb_false_r.
  - apply keeps_or_ok; [|apply Ht|done]. intros l [Hl _]%Ht. unfold node_diagnostics_skip. by rewrite Hl, andb_false_r.
  - apply keeps_or_ok; [|apply Ht|done]. intros l [Hl _]%Ht. unfold docker_skip. by rewrite Hl, andb_false_r.
  - apply keeps_or_ok; [|apply Ht|done]. intros l [Hl _]%Ht. unfold kubectl_skip. by rewrite Hl, andb_false_r.
  - right. apply keeps_collapsed; [|apply Ht|done]. intros l [Hl _]%Ht. unfold pytest_skip. by rewrite Hl, andb_false_r.
  - apply keeps_or_ok; [|apply Ht|done]. intros l [Hl _]%Ht. unfold go_test_skip. by rewrite Hl, andb_false_r.
  - apply keeps_or_ok; [|apply Ht|done]. intros l [Hl _]%Ht. unfold pip_skip. by rewrite Hl, andb_false_r.
  - right. apply keeps_collapsed_extra; [..|by case_match; repeat constructor; apply passed_line_ok]; [| |done].
    + unfold failing_check. intros l. rewrite andb_true_iff, !negb_true_iff. by intros [? _].
    + unfold failing_check. intros l. rewrite andb_true_iff, !negb_true_iff. by intros [_ ?].
Qed.

(** The captured output of a failing test passes through [cargo test]'s filter
    untouched: after a dump header, every line up to the closing list or summary
    appears in one block, byte for byte, whatever it looks like. *)
Theorem cargo_test_dump_verbatim is_match input pre header dump post :
  lines input = pre ++ header :: dump ++ post →
  is_match FAILURE_DUMP_HEADER header = true → blank header = false →
  Forall (λ l, dump_ends l = false) dump →
  ∃ before after, cargo_test is_match input = unlines (before ++ header :: dump ++ after).
Proof.
  intros Hl Hh Hb Hd. unfold cargo_test. rewrite Hl.
  destruct (test_loop_app is_match (mkTest 0 false false) pre (header :: dump ++ post)) as (out & s & ->).
  cbn [test_loop]. destruct (test_line_header is_match s header Hh) as (out' & n & ->).
  destruct (test_loop_dump is_match n false dump post Hd) as [b ->].
  exists (out ++ out'), (test_loop is_match (mkTest n true b) post).
  assert (E : out ++ (out' ++ [header]) ++ dump ++ test_loop is_match (mkTest n true b) post =
    (out ++ out') ++ header :: dump ++ test_loop is_match (mkTest n true b) post) by by rewrite <-!app_assoc.
  rewrite E. unfold or_ok. destruct (blank (unlines _)) eqn:Eb; [|done].
  exfalso. apply blank_unlines in Eb. rewrite Forall_app, Forall_cons, Hb in Eb. by destruct Eb as (_ & ? & _).
Qed.

(** ** Witnesses *)

Module FilterDemo.
(** The patterns' behaviour on the lines below. *)
Definition matches (pattern line : str) : bool :=
  if str_eqb pattern ERROR_PATTERN then starts_with line $"error"
  else if str_eqb pattern CARGO_NOISE then starts_with (trim line) $"Compiling "
  else if str_eqb pattern FAILURE_DUMP_HEADER then starts_with line $"---- "
  else if str_eqb pattern TEST_OK_LINE then ends_with line $"... ok"
  else false.
Definition build : str := unlines [$"   Compiling a"; $"error: b"; []; []; $"   Compiling error"].
Definition tests : str :=
  unlines [$"test a ... ok"; $"---- b stdout ----"; $"   Compiling c"; $"test d ... ok"; []; []; $"failures:"].
End FilterDemo.

Lemma filters_keep_errors_witness :
  keeps (error_line FilterDemo.matches) (cargo_noise FilterDemo.matches) FilterDemo.build ∧
  cargo_noise FilterDemo.matches FilterDemo.build = unlines [$"error: b"; []].
Proof.
  split; [|vm_compute; reflexivity].
  assert (Hc : clean FilterDemo.build).
  { unfold clean. apply (bool_decide_eq_true_1 _). by vm_compute. }
  pose proof (filters_keep_errors FilterDemo.matches FilterDemo.build Hc) as H.
  unfold error_filters in H. apply Forall_cons in H as [H _]. exact H.
Defined.

Lemma cargo_test_dump_verbatim_witness :
  cargo_test FilterDemo.matches FilterDemo.tests =
    unlines [$"✓ 1 passed"; $"---- b stdout ----"; $"   Compiling c"; $"test d ... ok"; []; []; $"failures:"] ∧
  ∃ before after, cargo_test FilterDemo.matches FilterDemo.tests =
    unlines (before ++ $"---- b stdout ----" :: [$"   Compiling c"; $"test d ... ok"; []; []] ++ after).
Proof.
  split; [vm_compute; reflexivity|].
  apply (cargo_test_dump_verbatim FilterDemo.matches FilterDemo.tests [$"test a ... ok"] _ _ [$"failures:"]).
  - vm_compute. reflexivity.
  - vm_compute. reflexivity.
  - vm_compute. reflexivity.
  - repeat constructor.
Defined.
