(* ===== verification/Grep.v ===== *)
(** * Search output: [grep_filter] of [crates/rtrt-proxy/src/generic.rs]

    Matches are grouped per file and long groups cut to a cap derived from the
    number of matches; anything not understood is left alone. *)
From S2P Require Import Prelude Str F64 ProxyLines.

Definition MATCH_PREFIX : str := $"^([^:\n]+):\d+:".
Definition HEADING_MATCH : str := $"^\d+:".

Record MatchGroup := mkGroup { g_file : str; g_heading : option str; g_matches : list str }.

Definition derived_per_file_cap (total_matches : N) : N :=
  N.max 3 (f64_to_u64 (f64_sqrt (f64_of_N total_matches))).

Section Grep.
Context (is_match : str → str → bool) (captures : str → str → option (list (option str))).

(** [captures(line)?.get(1)?] *)
Definition match_file (line : str) : option str :=
  gs ← captures MATCH_PREFIX line;
  g ← gs !! 1%nat;
  g.

Definition binary_notice (line : str) : bool :=
  starts_with line $"Binary file " && ends_with line $" matches".

(** Push a match on the last group when it is the same file's, else open a group. *)
Definition add_match (groups : list MatchGroup) (file line : str) : list MatchGroup :=
  match last groups with
  | Some g =>
      if str_eqb (g_file g) file && match g_heading g with None => true | Some _ => false end
      then take (length groups - 1) groups ++ [mkGroup (g_file g) (g_heading g) (g_matches g ++ [line])]
      else groups ++ [mkGroup file None [line]]
  | None => groups ++ [mkGroup file None [line]]
  end.

Fixpoint no_heading_loop (groups : list MatchGroup) (ls : list str) : option (list MatchGroup) :=
  match ls with
  | [] => Some groups
  | line :: ls' =>
      if blank line then no_heading_loop groups ls'
      else if binary_notice line then no_heading_loop (groups ++ [mkGroup line None [line]]) ls'
      else file ← match_file line; no_heading_loop (add_match groups file line) ls'
  end.

Definition parse_no_heading_groups (input : str) : option (list MatchGroup) :=
  match no_heading_loop [] (lines input) with Some (g :: gs) => Some (g :: gs) | _ => None end.

(** [groups.last_mut()?.matches.push(line)] *)
Definition push_last (groups : list MatchGroup) (line : str) : option (list MatchGroup) :=
  match last groups with
  | Some g => Some (take (length groups - 1) groups ++ [mkGroup (g_file g) (g_heading g) (g_matches g ++ [line])])
  | None => None
  end.

Fixpoint heading_loop (groups : list MatchGroup) (expecting_heading : bool) (ls : list str) :
    option (list MatchGroup) :=
  match ls with
  | [] => Some groups
  | line :: ls' =>
      if blank line then heading_loop groups true ls'
      else if is_match HEADING_MATCH line then groups ← push_last groups line; heading_loop groups expecting_heading ls'
      else if negb expecting_heading then None
      else heading_loop (groups ++ [mkGroup line (Some line) []]) false ls'
  end.

Definition has_matches (g : MatchGroup) : bool := match g_matches g with [] => false | _ => true end.

Definition parse_heading_groups (input : str) : option (list MatchGroup) :=
  groups ← heading_loop [] true (lines input);
  if match groups with [] => false | _ => true end && forallb has_matches groups then Some groups else None.

Definition hidden_marker (hidden : nat) (file : str) : str :=
  $"… +" ++ show_N (N.of_nat hidden) ++ $" more in " ++ file.

Definition render_group (cap : N) (g : MatchGroup) : list str :=
  let shown := Nat.min (length (g_matches g)) (N.to_nat cap) in
  match g_heading g with Some h => [h] | None => [] end ++
  take shown (g_matches g) ++
  (if Nat.ltb shown (length (g_matches g)) then [hidden_marker (length (g_matches g) - shown) (g_file g)] else []) ++
  match g_heading g with Some _ => [[]] | None => [] end.

Definition total_matches (groups : list MatchGroup) : N :=
  foldr (λ g n, N.of_nat (length (g_matches g)) + n) 0 groups.

Definition collapse_match_groups (input : str) : option str :=
  if existsb (λ line, str_eqb line $"--") (lines input) then None
  else
    groups ← match parse_no_heading_groups input with
             | Some groups => Some groups
             | None => parse_heading_groups input
             end;
    let cap := derived_per_file_cap (total_matches groups) in
    if forallb (λ g, N.of_nat (length (g_matches g)) <=? cap) groups then Some input
    else Some (unlines (concat (map (render_group cap) groups))).

Definition derived_huge_output_threshold (input : str) : N :=
  let byte_width := N.max (str_len input) 1 in
  let line_width := N.max (foldr N.max 0 (map str_len (lines input))) 1 in
  byte_width / line_width.

Definition grep_filter (input : str) : str :=
  match collapse_match_groups input with
  | Some out => out
  | None =>
      if derived_huge_output_threshold input <? N.of_nat (length (lines input))
      then collapse_repeated_adjacent input else input
  end.

(** ** Specifications *)

(** The lines of the input a group stands for. *)
Definition group_lines (g : MatchGroup) : list str :=
  match g_heading g with Some h => [h] | None => [] end ++ g_matches g.

(** A group names its file: by its heading, or by every match in it. *)
Definition group_ok (g : MatchGroup) : Prop :=
  g_heading g = Some (g_file g) ∨
  g_heading g = None ∧ Forall (λ l, match_file l = Some (g_file g) ∨ l = g_file g) (g_matches g).

Definition text_lines (input : str) : list str := List.filter (λ l, negb (blank l)) (lines input).
End Grep.

(** ** Lemmas *)

Lemma last_split {A} (l : list A) x : last l = Some x → l = take (length l - 1) l ++ [x].
Proof.
  intros H. destruct l as [|y l _] using rev_ind; [done|]. rewrite last_snoc in H. injection H as ->.
  rewrite length_app. cbn [length]. replace (length l + 1 - 1)%nat with (length l) by lia.
  by rewrite take_app_length.
Qed.

Section Proofs.
Context (is_match : str → str → bool) (captures : str → str → option (list (option str))).
Abbreviation group_ok := (group_ok captures).
Abbreviation match_file := (match_file captures).

Lemma concat_snoc_group groups g : concat (map group_lines (groups ++ [g])) =
  concat (map group_lines groups) ++ group_lines g.
Proof using. rewrite map_app, concat_app. cbn. by rewrite app_nil_r. Qed.

(** Adding a line to the last group adds it at the end. *)
Lemma extend_last groups g line :
  last groups = Some g →
  concat (map group_lines (take (length groups - 1) groups ++ [mkGroup (g_file g) (g_heading g) (g_matches g ++ [line])])) =
  concat (map group_lines groups) ++ [line].
Proof using.
  intros Hl. rewrite (last_split _ _ Hl) at 3. rewrite !concat_snoc_group, <-app_assoc. f_equal.
  unfold group_lines. cbn. by rewrite app_assoc.
Qed.

Lemma Forall_extend_last (P : MatchGroup → Prop) groups g g' :
  last groups = Some g → Forall P groups → P g' → Forall P (take (length groups - 1) groups ++ [g']).
Proof using.
  intros Hl HP Hg. rewrite (last_split _ _ Hl) in HP. apply Forall_app in HP as [HP _].
  apply Forall_app. split; [done|]. by constructor.
Qed.

Lemma Forall_last (P : MatchGroup → Prop) groups g : last groups = Some g → Forall P groups → P g.
Proof using.
  intros Hl HP. rewrite (last_split _ _ Hl) in HP. apply Forall_app in HP as [_ HP]. by apply Forall_cons in HP as [? _].
Qed.

Lemma add_match_spec groups file line :
  match_file line = Some file → Forall group_ok groups →
  concat (map group_lines (add_match groups file line)) = concat (map group_lines groups) ++ [line] ∧
  Forall group_ok (add_match groups file line).
Proof using.
  intros Hf Hok.
  assert (Hnew : concat (map group_lines (groups ++ [mkGroup file None [line]])) =
      concat (map group_lines groups) ++ [line] ∧ Forall group_ok (groups ++ [mkGroup file None [line]])).
  { rewrite concat_snoc_group. split; [done|]. apply Forall_app. split; [done|]. constructor; [|done].
    right. split; [done|]. apply Forall_singleton. by left. }
  unfold add_match. destruct (last groups) as [g|] eqn:El; [|done].
  destruct (str_eqb (g_file g) file && _) eqn:E; [|done].
  apply andb_true_iff in E as [<-%str_eqb_eq Hh]. split; [by apply extend_last|].
  eapply Forall_extend_last; [done|done|]. pose proof (Forall_last _ _ _ El Hok) as [Hg|[Hg Hm]]; [by rewrite Hg in Hh|].
  right. cbn. split; [done|]. apply Forall_app. split; [done|]. apply Forall_singleton. by left.
Qed.

Lemma no_heading_loop_spec groups ls out :
  no_heading_loop captures groups ls = Some out → Forall group_ok groups →
  concat (map group_lines out) = concat (map group_lines groups) ++ List.filter (λ l, negb (blank l)) ls ∧
  Forall group_ok out.
Proof using.
  revert groups. induction ls as [|line ls IH]; intros groups; cbn [no_heading_loop List.filter].
  { intros [= <-] Hok. by rewrite app_nil_r. }
  destruct (blank line); cbn [negb]; [apply IH|].
  destruct (binary_notice line).
  - intros E Hok. destruct (IH _ E) as [H1 H2].
    + apply Forall_app. split; [done|]. constructor; [|done]. right. split; [done|]. apply Forall_singleton. by right.
    + rewrite concat_snoc_group, <-app_assoc in H1. done.
  - destruct (match_file line) as [file|] eqn:Ef; [|done]. cbn [mbind option_bind].
    intros E Hok. destruct (add_match_spec groups file line Ef Hok) as [Ha Hok'].
    destruct (IH _ E Hok') as [H1 H2]. rewrite Ha, <-app_assoc in H1. done.
Qed.

Lemma heading_loop_spec groups e ls out :
  heading_loop is_match groups e ls = Some out → Forall group_ok groups →
  Forall (λ g, g_heading g = Some (g_file g)) groups →
  concat (map group_lines out) = concat (map group_lines groups) ++ List.filter (λ l, negb (blank l)) ls ∧
  Forall group_ok out.
Proof using.
  revert groups e. induction ls as [|line ls IH]; intros groups e; cbn [heading_loop List.filter].
  { intros [= <-] Hok _. by rewrite app_nil_r. }
  destruct (blank line); cbn [negb]; [apply IH|].
  destruct (is_match HEADING_MATCH line).
  - unfold push_last. destruct (last groups) as [g|] eqn:El; [|done]. cbn [mbind option_bind].
    intros E Hok Hh. pose proof (Forall_last _ _ _ El Hh) as Hg.
    destruct (IH _ _ E) as [H1 H2].
    + eapply Forall_extend_last; [done..|by left].
    + by eapply Forall_extend_last.
    + rewrite extend_last, <-app_assoc in H1 by done. done.
  - destruct e; [|done]. cbn [negb]. intros E Hok Hh. destruct (IH _ _ E) as [H1 H2].
    + apply Forall_app. split; [done|]. apply Forall_singleton. by left.
    + apply Forall_app. split; [done|]. by apply Forall_singleton.
    + rewrite concat_snoc_group, <-app_assoc in H1. done.
Qed.
End Proofs.

(** ** Properties *)

(** Search output is cut without losing account of a match: the output is the
    input, the input with repeated lines counted, or the input's non-blank lines
    in their groups, each group showing its first matches verbatim, at least
    three, and naming the file and the exact number of those it hides. *)
Theorem grep_filter_accounts is_match captures input :
  grep_filter is_match captures input = input ∨
  grep_filter is_match captures input = collapse_repeated_adjacent input ∨
  ∃ groups cap, 3 ≤ cap ∧ concat (map group_lines groups) = text_lines input ∧
    Forall (group_ok captures) groups ∧
    grep_filter is_match captures input = unlines (concat (map (render_group cap) groups)).
Proof.
  unfold grep_filter, collapse_match_groups. destruct (existsb _ _); [destruct (_ <? _); auto|].
  destruct (match parse_no_heading_groups captures input with Some g => Some g | None => _ end) as [groups|] eqn:E;
    cbn [mbind option_bind]; [|destruct (_ <? _); auto].
  destruct (forallb _ groups); [by left|]. right. right.
  exists groups, (derived_per_file_cap (total_matches groups)).
  assert (H : concat (map group_lines groups) = text_lines input ∧ Forall (group_ok captures) groups).
  { destruct (parse_no_heading_groups captures input) as [gs|] eqn:E1.
    - injection E as <-. unfold parse_no_heading_groups in E1.
      destruct (no_heading_loop captures [] (lines input)) as [[|g gs']|] eqn:E2; [done| |done].
      injection E1 as <-. by destruct (no_heading_loop_spec _ _ _ _ E2) as [H1 H2].
    - unfold parse_heading_groups in E.
      destruct (heading_loop is_match [] true (lines input)) as [gs|] eqn:E2; [|done]. cbn in E.
      destruct (_ && _); [|done]. injection E as <-. by destruct (heading_loop_spec _ captures _ _ _ _ E2) as [H1 H2]. }
  destruct H as [H1 H2]. split_and!; [apply N.le_max_l|done|done|done].
Qed.

(** A run: eleven matches of one file show the first three. *)
Example grep_demo :
  let line (n : N) := $"a.rs:" ++ show_N n ++ $":x" in
  let captures (p l : str) := match split_once $":" l with Some (f, _) => Some [Some l; Some f] | None => None end in
  grep_filter (λ _ _, false) captures (unlines (map (λ n, line (N.of_nat n)) (seq 1 11))) =
  unlines [line 1; line 2; line 3; $"… +8 more in a.rs"].
Proof. vm_compute. reflexivity. Qed.
