(* ===== verification/GitText.v ===== *)
(** * Git's other outputs: [crates/rtrt-proxy/src/git.rs]

    [git status], [git log], [git branch] and the pass-through commands.  [None] is
    a panic: slicing a string inside a character. *)
From S2P Require Import Prelude Str F64 ProxyLines.

Definition GIT_STATUS_NOISE : str :=
  $"(?m)^(\s*\(use .*\)|nothing to commit.*|no changes added to commit.*|Untracked files:|Changes to be committed:|Changes not staged for commit:)$".
Definition GIT_LOG_FMT : str := $"(?m)^(Author: .*|Date: .*" ++ $")\n".

(** ** [git status] *)

Definition parse_tracking (line : str) : option str := split_char 39 line !! 1%nat.

Definition short_codes : list str :=
  [$" M"; $"M "; $"MM"; $" A"; $"A "; $" D"; $"D "; $"R "; $" R"; $"C "; $" C"; $"??"; $"!!"; $"UU"; $"UD";
   $"DU"; $"AA"; $"DD"].

(** [&trimmed[..2]] panics inside a character. *)
Definition short_status_line (line : str) : option bool :=
  let trimmed := trim_end line in
  if is_empty trimmed || starts_with trimmed $"##" then Some true
  else if 3 <? str_len trimmed then
    '(code, rest) ← split_at_byte 2 trimmed;
    Some (existsb (str_eqb code) short_codes && match rest with c :: _ => is_ascii_whitespace c | [] => false end)
  else Some false.

(** [all] stops at the first line that is not one. *)
Fixpoint all_short (ls : list str) : option bool :=
  match ls with
  | [] => Some true
  | line :: ls' => b ← short_status_line line; if b : bool then all_short ls' else Some false
  end.

Definition looks_like_short_status (input : str) : option bool := all_short (lines input).

Definition dirty_line (n : N) : str := $"dirty: " ++ show_N n ++ $" files".

Definition short_status (input : str) : str :=
  let branches := omap (strip_prefix $"## ") (lines input) in
  let out := map (λ branch, $"* " ++ branch) branches in
  let changes := List.filter (λ l, match strip_prefix $"## " l with Some _ => false | None => negb (blank l) end)
                   (lines input) in
  match changes with
  | [] => unlines (out ++ [match out with [] => $"ok" | _ => $"clean" end])
  | _ => unlines (out ++ dirty_line (N.of_nat (length changes)) :: changes)
  end.

Definition looks_like_untracked_file (line : str) : bool :=
  negb (contains_char line 58) && negb (starts_with line $"On branch ") &&
  negb (starts_with line $"Your branch ") && negb (starts_with line $"Changes ") &&
  negb (starts_with line $"Untracked ") && negb (starts_with line $"no changes ").

Definition is_status_change (line : str) : bool :=
  existsb (starts_with line)
    [$"modified:"; $"new file:"; $"deleted:"; $"renamed:"; $"copied:"; $"both modified:"; $"both added:";
     $"both deleted:"; $"added by us:"; $"deleted by them:"; $"deleted by us:"; $"added by them:";
     $"typechange:"] || looks_like_untracked_file line.

Section Status.
Context (is_match : str → str → bool) (replace_all : str → str → str → str).

Definition status_step (acc : option str * option str * list str) (line : str) :
    option str * option str * list str :=
  let '(branch, tracking, changes) := acc in
  let trimmed := trim line in
  match strip_prefix $"On branch " trimmed with
  | Some name => (Some name, tracking, changes)
  | None =>
      if starts_with trimmed $"Your branch is" then (branch, parse_tracking trimmed, changes)
      else if is_match GIT_STATUS_NOISE trimmed || is_empty trimmed || starts_with trimmed $"use " ||
              starts_with trimmed $"(use " then acc
      else if is_status_change trimmed then (branch, tracking, changes ++ [trimmed])
      else acc
  end.

Definition long_status (input : str) : str :=
  let '(branch, tracking, changes) := foldl status_step (None, None, []) (lines input) in
  unlines
    (match branch with
     | Some b => [$"* " ++ b ++ match tracking with Some t => $"..." ++ t | None => [] end]
     | None => []
     end ++
     match changes with
     | [] => [$"clean"]
     | _ => dirty_line (N.of_nat (length changes)) :: changes
     end).

Definition git_status (input : str) : option str :=
  if is_empty (trim input) then Some (with_nl $"ok")
  else
    short ← (if existsb (λ line, starts_with line $"##") (lines input) then Some true
             else looks_like_short_status input);
    Some (if short : bool then short_status input else long_status input).

(** ** [git log], [git show], [git stash] *)

Definition git_show (input : str) : str := collapse_blanks input.
Definition git_stash (input : str) : str := collapse_blanks input.

Definition git_log (input : str) : str :=
  if negb (existsb (λ line, starts_with line $"Author: " || starts_with line $"Date: " || blank line) (lines input))
  then input
  else collapse_blanks (replace_all GIT_LOG_FMT input []).
End Status.

(** ** [git branch] *)

(** [BTreeSet<String>]: the sorted list of its elements. *)
Fixpoint bset_insert (x : str) (l : list str) : list str :=
  match l with
  | [] => [x]
  | y :: l' => match str_cmp x y with Lt => x :: l | Eq => l | Gt => y :: bset_insert x l' end
  end.
Definition bset_remove (x : str) (l : list str) : list str := List.filter (λ y, negb (str_eqb y x)) l.
Definition bset_contains (x : str) (l : list str) : bool := existsb (str_eqb x) l.

Definition normalize_remote_branch (name : str) : option str :=
  match strip_prefix $"remotes/origin/" name with
  | Some r => Some r
  | None => strip_prefix $"origin/" name
  end.

Definition derived_display_cap (total : N) : N := N.max 3 (f64_to_u64 (f64_sqrt (f64_of_N total)) * 2).

(** What one line of [git branch] names. *)
Inductive BranchLine := SkipLine | RemoteBranch (name : str) | CurrentBranch (name : str) | LocalBranch (name : str).

Definition branch_line (line : str) : BranchLine :=
  let trimmed := trim line in
  if is_empty trimmed || contains trimmed $"HEAD ->" then SkipLine
  else
    let name := trim (trim_start_matches (N.eqb 42) trimmed) in
    match normalize_remote_branch name with
    | Some remote => RemoteBranch remote
    | None => if starts_with trimmed $"*" then CurrentBranch name else LocalBranch name
    end.

Definition branch_step (acc : option str * list str * list str) (line : str) : option str * list str * list str :=
  let '(current, locals, remotes) := acc in
  match branch_line line with
  | SkipLine => acc
  | RemoteBranch r => (current, locals, bset_insert r remotes)
  | CurrentBranch n => (Some n, locals, remotes)
  | LocalBranch n => (current, bset_insert n locals, remotes)
  end.

Definition remote_lines (remote_only : list str) (show_count : nat) : list str :=
  match remote_only with
  | [] => []
  | _ =>
      $"remote-only:" :: map (app $"  ") (take show_count remote_only) ++
      (if Nat.ltb show_count (length remote_only)
       then [$"... +" ++ show_N (N.of_nat (length remote_only - show_count)) ++ $" more"] else [])
  end.

Definition git_branch (input : str) : str :=
  let '(current, locals, remotes) := foldl branch_step (None, [], []) (lines input) in
  let locals := match current with Some c => bset_remove c locals | None => locals end in
  let local_names := match current with Some c => bset_insert c locals | None => locals end in
  let remote_only := List.filter (λ r, negb (bset_contains r local_names)) remotes in
  let total := N.of_nat (length local_names) + N.of_nat (length remote_only) in
  let cap := derived_display_cap total in
  let show_count :=
    if total <=? cap then length remote_only
    else Nat.min (N.to_nat cap - length local_names) (length remote_only) in
  let out := match current with Some c => [$"* " ++ c] | None => [] end ++ map (app $"  ") locals ++
             remote_lines remote_only show_count in
  match out with [] => input | _ => unlines out end.

(** ** Lemmas *)

Definition str_sorted (l : list str) : Prop := StronglySorted (λ a b, str_cmp a b = Lt) l.

Lemma elem_of_bset_insert x y l : y ∈ bset_insert x l ↔ y = x ∨ y ∈ l.
Proof.
  induction l as [|z l IH]; cbn; [set_solver|].
  destruct (str_cmp x z) eqn:E; [|set_solver|rewrite !elem_of_cons, IH; naive_solver].
  apply str_cmp_eq in E as ->. set_solver.
Qed.

Lemma bset_insert_sorted x l : str_sorted l → str_sorted (bset_insert x l).
Proof.
  unfold str_sorted. induction 1 as [|y l Hs IH Hf]; cbn; [by repeat constructor|].
  destruct (str_cmp x y) eqn:E; [by constructor| |].
  - constructor; [by constructor|]. constructor; [done|].
    eapply Forall_impl; [exact Hf|]. intros z Hz. by eapply (cmp_trans_lt (cmp:=str_cmp)).
  - constructor; [done|]. apply Forall_forall. intros z [->|Hz]%elem_of_bset_insert.
    + by rewrite (cmp_opp (cmp:=str_cmp) x y), E.
    + rewrite Forall_forall in Hf. by apply Hf.
Qed.

Lemma filter_sorted (p : str → bool) l : str_sorted l → str_sorted (List.filter p l).
Proof.
  unfold str_sorted. induction 1 as [|x l Hs IH Hf]; cbn; [by constructor|].
  destruct (p x); [|done]. constructor; [done|]. rewrite Forall_forall in Hf |- *.
  intros y [_ Hy]%elem_of_filter_bool. by apply Hf.
Qed.

Lemma str_sorted_NoDup l : str_sorted l → NoDup l.
Proof.
  unfold str_sorted. induction 1 as [|x l Hs IH Hf]; constructor; [|done].
  intros Hx. rewrite Forall_forall in Hf. specialize (Hf x Hx).
  by rewrite (cmp_refl (cmp:=str_cmp)) in Hf.
Qed.

(** What the loop collects. *)
Record branches_ok (ls : list str) (acc : option str * list str * list str) : Prop := {
  bo_current : acc.1.1 = last (omap (λ l, match branch_line l with CurrentBranch n => Some n | _ => None end) ls);
  bo_locals : ∀ n, n ∈ acc.1.2 ↔ ∃ l, l ∈ ls ∧ branch_line l = LocalBranch n;
  bo_remotes : ∀ n, n ∈ acc.2 ↔ ∃ l, l ∈ ls ∧ branch_line l = RemoteBranch n;
  bo_sorted : str_sorted acc.1.2 ∧ str_sorted acc.2;
}.

Lemma branch_loop_ok ls : branches_ok ls (foldl branch_step (None, [], []) ls).
Proof.
  induction ls as [|l ls IH] using rev_ind.
  { split; cbn; [done|set_solver|set_solver|]. split; constructor. }
  rewrite foldl_app. destruct IH as [Hc Hl Hr [Hs1 Hs2]].
  destruct (foldl branch_step (None, [], []) ls) as [[cur loc] rem]. cbn [foldl branch_step fst snd] in *.
  assert (Hcons : ∀ (P : str → Prop), (∃ x, x ∈ ls ++ [l] ∧ P x) ↔ (∃ x, x ∈ ls ∧ P x) ∨ P l) by set_solver.
  split; cbn [fst snd].
  - rewrite omap_app. destruct (branch_line l) eqn:E; cbn; rewrite E, ?app_nil_r, ?last_snoc; done.
  - intros n. rewrite Hcons, <-Hl. destruct (branch_line l) eqn:E; cbn; rewrite ?elem_of_bset_insert; naive_solver.
  - intros n. rewrite Hcons, <-Hr. destruct (branch_line l) eqn:E; cbn; rewrite ?elem_of_bset_insert; naive_solver.
  - destruct (branch_line l); cbn; auto using bset_insert_sorted.
Qed.

(** ** Properties *)

(** Every branch named by the input is accounted for: the current branch first, the
    other local branches once each in order, then the remote branches with no local
    counterpart, in order, cut with the exact number left out. *)
Theorem git_branch_accounts input :
  git_branch input = input ∨
  ∃ current locals remote_only shown,
    current = last (omap (λ l, match branch_line l with CurrentBranch n => Some n | _ => None end) (lines input)) ∧
    (∀ n, n ∈ locals ↔ Some n ≠ current ∧ ∃ l, l ∈ lines input ∧ branch_line l = LocalBranch n) ∧
    (∀ n, n ∈ remote_only ↔ (n ∉ locals) ∧ Some n ≠ current ∧
       ∃ l, l ∈ lines input ∧ branch_line l = RemoteBranch n) ∧
    str_sorted locals ∧ str_sorted remote_only ∧ (shown ≤ length remote_only)%nat ∧
    git_branch input = unlines (match current with Some c => [$"* " ++ c] | None => [] end ++
      map (app $"  ") locals ++ remote_lines remote_only shown).
Proof.
  unfold git_branch. pose proof (branch_loop_ok (lines input)) as [Hc Hl Hr [Hs1 Hs2]].
  destruct (foldl branch_step (None, [], []) (lines input)) as [[cur loc] rem]. cbn [fst snd] in *.
  set (locals := match cur with Some c => bset_remove c loc | None => loc end).
  set (names := match cur with Some c => bset_insert c locals | None => locals end).
  set (remote_only := List.filter (λ r, negb (bset_contains r names)) rem).
  set (shown := if _ <=? _ then _ else _).
  assert (Hshown : (shown ≤ length remote_only)%nat) by (unfold shown; case_match; lia).
  clearbody shown. case_match eqn:Eo; [by left|]. right. rewrite <-Eo. clear Eo.
  assert (Hlocals : ∀ n, n ∈ locals ↔ Some n ≠ cur ∧ n ∈ loc).
  { intros n. unfold locals. destruct cur as [c|]; [|naive_solver]. unfold bset_remove.
    rewrite elem_of_filter_bool, negb_true_iff. unfold str_eqb. rewrite bool_decide_eq_false. naive_solver. }
  assert (Hnames : ∀ n, n ∈ names ↔ Some n = cur ∨ n ∈ locals).
  { intros n. unfold names. destruct cur as [c|]; [rewrite elem_of_bset_insert|]; naive_solver. }
  exists cur, locals, remote_only, shown. split_and!; try done.
  - intros n. by rewrite Hlocals, Hl.
  - intros n. unfold remote_only. rewrite elem_of_filter_bool, negb_true_iff, Hr.
    assert (Hb : bset_contains n names = false ↔ (n ∉ names)).
    { unfold bset_contains. rewrite <-not_true_iff_false, existsb_exists. setoid_rewrite <-list_elem_of_In.
      setoid_rewrite str_eqb_eq. naive_solver. }
    rewrite Hb, Hnames. naive_solver.
  - unfold locals. destruct cur; [by apply filter_sorted|done].
  - by apply filter_sorted.
Qed.

(** A first line such as [a→bc] makes [git status]'s filter panic: the code of a
    short status is sliced at byte two, inside the arrow. *)
Lemma git_status_panics is_match : git_status is_match (unlines [$"a→bc"]) = None.
Proof. vm_compute. reflexivity. Qed.
