(* ===== verification/Proxy.v ===== *)
(** * Choosing a filter: the table of [crates/rtrt-proxy/src/lib.rs] *)
From S2P Require Import Prelude Str ProxyLines GitDiff ProxyFilters Grep GitText.

Section Proxy.
Context (is_match : str → str → bool) (captures : str → str → option (list (option str))).
Context (replace_all : str → str → str → str).

(** A filter answers a text, or panics. *)
Record CommandFilter := mkFilter { command : str; apply : str → option str }.

Definition pure (c : str) (f : str → str) : CommandFilter := mkFilter c (λ raw, Some (f raw)).

Definition FILTERS : list CommandFilter :=
  [mkFilter $"git status" (git_status is_match);
   pure $"git diff" git_diff;
   pure $"git show" git_show;
   pure $"git branch" git_branch;
   pure $"git stash" git_stash;
   pure $"git log" (git_log replace_all);
   pure $"cargo nextest" (cargo_nextest is_match);
   pure $"cargo check" (cargo_noise is_match);
   pure $"cargo clippy" (cargo_noise is_match);
   pure $"cargo build" (cargo_noise is_match);
   pure $"cargo test" (cargo_test is_match);
   pure $"ls -la" ls_long;
   pure $"ls -al" ls_long;
   pure $"ls" ls_passthrough;
   pure $"grep -rn" (grep_filter is_match captures);
   pure $"grep" (grep_filter is_match captures);
   pure $"rg" (grep_filter is_match captures);
   pure $"find" find_filter;
   pure $"cat" passthrough;
   pure $"read" passthrough;
   pure $"curl" (http_client_filter is_match);
   pure $"wget" (http_client_filter is_match);
   pure $"gh" gh_filter;
   pure $"docker" (docker_filter is_match);
   pure $"kubectl" (kubectl_filter is_match);
   pure $"pytest" (pytest_filter is_match);
   pure $"go test" (go_test_filter is_match);
   pure $"npm" (node_filter is_match);
   pure $"npx" (node_filter is_match);
   pure $"pnpm" (node_filter is_match);
   pure $"pip" (pip_filter is_match);
   pure $"tsc" (node_diagnostics is_match);
   pure $"eslint" (node_diagnostics is_match);
   pure $"prettier" (node_diagnostics is_match)].

Definition command_matches (cmd prefix : str) : bool :=
  str_eqb cmd prefix ||
  match strip_prefix prefix cmd with
  | Some (c :: _) => is_whitespace c || (c =? 45)
  | _ => false
  end.

Definition filter_for (cmd : str) : option CommandFilter :=
  List.find (λ f, command_matches cmd (command f)) FILTERS.

(** ** Lemmas *)

Lemma command_matches_prefix cmd prefix : command_matches cmd prefix = true → prefix `prefix_of` cmd.
Proof using.
  unfold command_matches. intros [->%str_eqb_eq|H]%orb_true_iff; [done|].
  destruct (strip_prefix prefix cmd) as [r|] eqn:E; [|done]. apply strip_prefix_Some in E as ->. by exists r.
Qed.

(** The names of the table, in order: a name never comes before a longer name it
    is a prefix of. *)
Fixpoint no_shadow (names : list str) : bool :=
  match names with
  | [] => true
  | n :: names' => forallb (λ m, negb (starts_with m n)) names' && no_shadow names'
  end.

Lemma find_no_shadow (p : CommandFilter → bool) fs f g :
  no_shadow (map command fs) = true → List.find p fs = Some f → g ∈ fs → p g = true →
  g = f ∨ starts_with (command g) (command f) = false.
Proof using.
  induction fs as [|x fs IH]; cbn; [done|]. intros [Hx Hns]%andb_true_iff.
  destruct (p x) eqn:Ep.
  - intros [= ->] [->|Hg]%elem_of_cons _; [by left|]. right.
    rewrite forallb_forall in Hx. apply negb_true_iff, Hx, list_elem_of_In, list_elem_of_fmap. by exists g.
  - intros Hf [->|Hg]%elem_of_cons Hpg; [congruence|]. by apply IH.
Qed.

(** The filter chosen for a command line is in the table, matches it at a word
    boundary, and no other entry that matches is longer; a command no entry matches
    has no filter. *)
Theorem filter_for_longest cmd :
  match filter_for cmd with
  | Some f => f ∈ FILTERS ∧ command_matches cmd (command f) = true ∧
      ∀ g, g ∈ FILTERS → command_matches cmd (command g) = true →
        (length (command g) ≤ length (command f))%nat
  | None => ∀ g, g ∈ FILTERS → command_matches cmd (command g) = false
  end.
Proof using.
  unfold filter_for. destruct (List.find _ FILTERS) as [f|] eqn:E.
  - pose proof (find_some _ _ E) as [Hin Hm]. apply list_elem_of_In in Hin.
    split_and!; [done|done|]. intros g Hg Hmg.
    assert (Hns : no_shadow (map command FILTERS) = true) by by vm_compute.
    destruct (find_no_shadow _ _ _ g Hns E Hg Hmg) as [->|Hsw]; [done|].
    apply command_matches_prefix in Hm, Hmg.
    destruct (prefix_weak_total _ _ _ Hm Hmg) as [Hp|Hp]; [|by apply prefix_length].
    exfalso. apply not_true_iff_false in Hsw. apply Hsw, starts_with_spec. by destruct Hp as [k ->]; exists k.
  - intros g Hg. apply (find_none _ _ E), list_elem_of_In. done.
Qed.
End Proxy.

(** [ls -la] goes to its own filter, [lsblk] to none. *)
Example filter_demo :
  let run cmd := command <$> filter_for (λ _ _, false) (λ _ _, None) (λ _ s _, s) cmd in
  run $"ls -la src" = Some $"ls -la" ∧ run $"ls -l" = Some $"ls" ∧ run $"lsblk" = None ∧
  run $"git diff --stat" = Some $"git diff".
Proof. vm_compute. done. Qed.
