(* ===== verification/F32.v ===== *)
(** * Binary32 floating point, and vectors of it as byte blobs

    The [f32] arithmetic of the memory store on [SpecFloat] (precision 24, maximal
    exponent 128), the casts to and from [f64], and the stored form of an embedding
    of [crates/rtrt-memory/src/embed.rs].  An element of a stored vector is its 32
    bits, so a NaN keeps its payload. *)
From S2P Require Import Prelude Str Error F64.
From Stdlib Require Import ZArith.

Abbreviation f32 := spec_float (only parsing).

Definition f32_prec : Z := 24.
Definition f32_emax : Z := 128.

Definition f32_add (a b : f32) : f32 := SFadd f32_prec f32_emax a b.
Definition f32_mul (a b : f32) : f32 := SFmul f32_prec f32_emax a b.
Definition f32_div (a b : f32) : f32 := SFdiv f32_prec f32_emax a b.
Definition f32_sqrt (a : f32) : f32 := SFsqrt f32_prec f32_emax a.

Definition f32_zero : f32 := S754_zero false.
Definition f32_infinity : f32 := S754_infinity false.

Definition f32_of_N (n : N) : f32 := binary_normalize f32_prec f32_emax (Z.of_N n) 0 false.

(** A decimal literal [m / 10^k], correctly rounded. *)
Definition f32_ratio (m q : positive) : f32 :=
  f32_div (S754_finite false m 0) (S754_finite false q 0).

(** [as f32] from a double, rounded to nearest even; [as f64] is exact. *)
Definition f64_as_f32 (a : f64) : f32 :=
  match a with
  | S754_finite s m e =>
      binary_normalize f32_prec f32_emax (if s then Zneg m else Zpos m) e s
  | _ => a
  end.
Definition f32_as_f64 (a : f32) : f64 :=
  match a with
  | S754_finite s m e =>
      binary_normalize f64_prec f64_emax (if s then Zneg m else Zpos m) e s
  | _ => a
  end.

(** [PartialOrd]: no comparison with a NaN holds. *)
Definition float_partial_cmp (a b : spec_float) : option Ordering := SFcompare a b.

(** [b.partial_cmp(&a).unwrap_or(Equal)], the descending comparator of the sorts. *)
Definition desc_cmp (a b : spec_float) : Ordering :=
  match float_partial_cmp b a with Some c => c | None => Eq end.

Definition f32_ge (a b : f32) : bool := SFleb b a.
Definition f32_gt (a b : f32) : bool := SFltb b a.
Definition f32_eq (a b : f32) : bool := SFeqb a b.

(** ** Bits *)

(** [f32::from_bits]. *)
Definition f32_of_bits (b : N) : f32 :=
  let s := N.testbit b 31 in
  let e := N.land (N.shiftr b 23) 255 in
  let m := N.land b 8388607 in
  if e =? 255 then (if m =? 0 then S754_infinity s else S754_nan)
  else if e =? 0 then match m with N0 => S754_zero s | Npos p => S754_finite s p (-149) end
  else match m + 8388608 with
       | N0 => S754_zero s
       | Npos p => S754_finite s p (Z.of_N e - 150)
       end.

(** [to_le_bytes] and [from_le_bytes] on the bits. *)
Definition to_le_bytes (b : N) : list N :=
  [b mod 256; b / 256 mod 256; b / 65536 mod 256; b / 16777216 mod 256].

Definition from_le_bytes (b0 b1 b2 b3 : N) : N :=
  b0 + 256 * b1 + 65536 * b2 + 16777216 * b3.

Definition vector_to_blob (v : list N) : list N := concat (map to_le_bytes v).

Fixpoint blob_chunks (blob : list N) : list N :=
  match blob with
  | b0 :: b1 :: b2 :: b3 :: rest => from_le_bytes b0 b1 b2 b3 :: blob_chunks rest
  | _ => []
  end.

Definition vector_from_blob (blob : list N) : Result (list N) :=
  if N.of_nat (length blob) mod 4 =? 0 then Ok (blob_chunks blob)
  else Err (Memory ($"vector blob length " ++ show_N (N.of_nat (length blob))
                    ++ $" is not 4-aligned")).

(** ** Similarity *)

Fixpoint cosine_loop (dot na nb : f32) (xys : list (N * N)) : f32 * f32 * f32 :=
  match xys with
  | [] => (dot, na, nb)
  | (x, y) :: rest =>
      let x := f32_of_bits x in
      let y := f32_of_bits y in
      cosine_loop (f32_add dot (f32_mul x y)) (f32_add na (f32_mul x x))
        (f32_add nb (f32_mul y y)) rest
  end.

Definition cosine (a b : list N) : f32 :=
  if negb (Nat.eqb (length a) (length b)) then f32_zero
  else
    let '(dot, na, nb) := cosine_loop f32_zero f32_zero f32_zero (zip a b) in
    if f32_eq na f32_zero || f32_eq nb f32_zero then f32_zero
    else f32_div dot (f32_mul (f32_sqrt na) (f32_sqrt nb)).

(** ** Lemmas *)

Definition bits32 (b : N) : Prop := b < 4294967296.

Lemma le_bytes_roundtrip b : bits32 b →
  from_le_bytes (b mod 256) (b / 256 mod 256) (b / 65536 mod 256) (b / 16777216 mod 256) = b.
Proof.
  unfold bits32, from_le_bytes. intros H.
  replace (b / 65536) with (b / 256 / 256) by (rewrite N.Div0.div_div; f_equal).
  replace (b / 16777216) with (b / 256 / 256 / 256) by (rewrite !N.Div0.div_div; f_equal).
  pose proof (N.div_mod b 256 ltac:(done)).
  pose proof (N.div_mod (b / 256) 256 ltac:(done)).
  pose proof (N.div_mod (b / 256 / 256) 256 ltac:(done)).
  rewrite (N.mod_small (b / 256 / 256 / 256) 256); [nlia|].
  rewrite !N.Div0.div_div. apply N.Div0.div_lt_upper_bound. lia.
Qed.

Lemma vector_to_blob_length v : length (vector_to_blob v) = (4 * length v)%nat.
Proof.
  induction v as [|b v IH]; [done|].
  change (vector_to_blob (b :: v)) with (to_le_bytes b ++ vector_to_blob v).
  rewrite length_app, IH. cbn [to_le_bytes length]. lia.
Qed.

Lemma blob_chunks_to_blob v : Forall bits32 v → blob_chunks (vector_to_blob v) = v.
Proof.
  induction 1 as [|b v Hb Hv IH]; [done|].
  change (vector_to_blob (b :: v)) with (to_le_bytes b ++ vector_to_blob v).
  unfold to_le_bytes. cbn [app blob_chunks]. by rewrite le_bytes_roundtrip, IH.
Qed.

Lemma vector_from_blob_aligned blob d :
  length blob = (4 * d)%nat → vector_from_blob blob = Ok (blob_chunks blob).
Proof.
  intros H. unfold vector_from_blob. rewrite H.
  assert (E : N.of_nat (4 * d) mod 4 = 0) by (by rewrite Nat2N.inj_mul, N.mul_comm, N.Div0.mod_mul).
  by rewrite E.
Qed.

Lemma vector_blob_roundtrip v : Forall bits32 v → vector_from_blob (vector_to_blob v) = Ok v.
Proof.
  intros H. rewrite (vector_from_blob_aligned _ (length v)) by apply vector_to_blob_length.
  by rewrite blob_chunks_to_blob.
Qed.

Example cosine_parallel : cosine [1065353216; 0] [1073741824; 0] = f32_of_bits 1065353216.
Proof. vm_compute. reflexivity. Qed.
