(* ===== verification/MemDb.v ===== *)
(** * The memory store's database: [crates/rtrt-memory/src/lib.rs], schema and statements

    The SQLite database behind [MemoryStore] as a value: one field per table of
    [MemoryStore::migrate], with the constraints of the schema enforced by the
    statements below (auto-incremented row ids, primary keys, foreign keys with
    [ON DELETE CASCADE]).  A statement either fails and leaves the tables alone or
    takes effect as a whole; which statements fail from outside (disk, locks) is an
    oracle in the state, so that a theorem can quantify over every pattern of
    failures.  The text index [memories_fts] has external content: the database
    does not maintain it, the program does. *)
From stdpp Require Import gmap sets.
From S2P Require Import Prelude Str Error F32.

(** [as i64] from an unsigned 64-bit integer. *)
Definition i64_max : Z := 9223372036854775807.
Definition i64_of_u64 (n : N) : Z :=
  if (Z.of_N n <=? i64_max)%Z then Z.of_N n else (Z.of_N n - 18446744073709551616)%Z.

(** ** Data *)

Inductive MemoryScope := User | Agent | Session | Project.

Definition MemoryScope_as_str (s : MemoryScope) : str :=
  match s with
  | User => $"user"
  | Agent => $"agent"
  | Session => $"session"
  | Project => $"project"
  end.

Definition MemoryScope_parse (s : str) : MemoryScope :=
  if str_eqb s $"user" then User
  else if str_eqb s $"agent" then Agent
  else if str_eqb s $"session" then Session
  else Project.

(** A row of [memories]. *)
Record Row := mkRow {
  r_project : str;
  r_kind : str;
  r_body : str;
  r_created_at : Z;
  r_scope : str;
  r_metadata : str;
  r_session_id : option str;
  r_body_sha : option str;
  r_body_full : option str;
}.

Record MemoryRecord := mkMemoryRecord {
  m_id : Z;
  m_project : str;
  m_kind : str;
  m_body : str;
  m_created_at : Z;
  m_scope : MemoryScope;
}.

Definition record_of (ir : Z * Row) : MemoryRecord :=
  mkMemoryRecord ir.1 (r_project ir.2) (r_kind ir.2) (r_body ir.2) (r_created_at ir.2)
    (MemoryScope_parse (r_scope ir.2)).

Record InvocationProvenance := mkProvenance {
  child_session_id : str;
  invocation_id : str;
  parent_project : str;
  parent_session_id : option str;
  parent_call_id : option str;
  caller_agent : option str;
  parent_cwd : option str;
  parent_worktree : option str;
  ip_target : option str;
  ip_model : option str;
  ip_created_at : Z;
}.

(** The full-text index: the texts indexed per row id.  Deleting an entry that was
    not indexed leaves an external-content index unreliable, which [damaged]
    records. *)
Record FtsIndex := mkFts {
  postings : list (Z * str);
  damaged : bool;
}.

(** Key of a delivery receipt: event id, source guest, source project. *)
Abbreviation ReceiptKey := (str * str * str)%type (only parsing).
Abbreviation Edge := (Z * Z * str)%type (only parsing).

Record Db := mkDb {
  memories : gmap Z Row;
  (** The largest row id ever given out ([sqlite_sequence]). *)
  sequence : Z;
  fts : FtsIndex;
  (** [memory_id -> (model, vector)]. *)
  embeddings : gmap Z (str * list N);
  embedding_models : gmap str Z;
  edges : gset Edge;
  (** [id -> (project, name)]. *)
  entities : gmap Z (str * str);
  memory_entities : gset (Z * Z);
  invocation_provenances : gmap str InvocationProvenance;
  (** [key -> (memory_id, received_at)]. *)
  forwarded_event_receipts : gmap ReceiptKey (Z * Z);
}.

(** The tables [MemoryStore::migrate] creates in a fresh file. *)
Definition fresh_db : Db := mkDb ∅ 0 (mkFts [] false) ∅ ∅ ∅ ∅ ∅ ∅ ∅.

Definition with_memories (f : gmap Z Row → gmap Z Row) (d : Db) : Db :=
  mkDb (f (memories d)) (sequence d) (fts d) (embeddings d) (embedding_models d) (edges d)
    (entities d) (memory_entities d) (invocation_provenances d) (forwarded_event_receipts d).
Definition with_fts (f : FtsIndex → FtsIndex) (d : Db) : Db :=
  mkDb (memories d) (sequence d) (f (fts d)) (embeddings d) (embedding_models d) (edges d)
    (entities d) (memory_entities d) (invocation_provenances d) (forwarded_event_receipts d).
Definition with_embeddings (f : gmap Z (str * list N) → gmap Z (str * list N)) (d : Db) : Db :=
  mkDb (memories d) (sequence d) (fts d) (f (embeddings d)) (embedding_models d) (edges d)
    (entities d) (memory_entities d) (invocation_provenances d) (forwarded_event_receipts d).
Definition with_models (f : gmap str Z → gmap str Z) (d : Db) : Db :=
  mkDb (memories d) (sequence d) (fts d) (embeddings d) (f (embedding_models d)) (edges d)
    (entities d) (memory_entities d) (invocation_provenances d) (forwarded_event_receipts d).
Definition with_edges (f : gset Edge → gset Edge) (d : Db) : Db :=
  mkDb (memories d) (sequence d) (fts d) (embeddings d) (embedding_models d) (f (edges d))
    (entities d) (memory_entities d) (invocation_provenances d) (forwarded_event_receipts d).
Definition with_entities (f : gmap Z (str * str) → gmap Z (str * str)) (d : Db) : Db :=
  mkDb (memories d) (sequence d) (fts d) (embeddings d) (embedding_models d) (edges d)
    (f (entities d)) (memory_entities d) (invocation_provenances d) (forwarded_event_receipts d).
Definition with_memory_entities (f : gset (Z * Z) → gset (Z * Z)) (d : Db) : Db :=
  mkDb (memories d) (sequence d) (fts d) (embeddings d) (embedding_models d) (edges d)
    (entities d) (f (memory_entities d)) (invocation_provenances d) (forwarded_event_receipts d).
Definition with_provenances (f : gmap str InvocationProvenance → gmap str InvocationProvenance)
    (d : Db) : Db :=
  mkDb (memories d) (sequence d) (fts d) (embeddings d) (embedding_models d) (edges d)
    (entities d) (memory_entities d) (f (invocation_provenances d)) (forwarded_event_receipts d).
Definition with_receipts (f : gmap ReceiptKey (Z * Z) → gmap ReceiptKey (Z * Z)) (d : Db) : Db :=
  mkDb (memories d) (sequence d) (fts d) (embeddings d) (embedding_models d) (edges d)
    (entities d) (memory_entities d) (invocation_provenances d)
    (f (forwarded_event_receipts d)).

(** ** Statements

    The world holds the database and the outcomes of the statements to come: the
    head of [faults] says whether the next statement fails, and with what message;
    when the list is empty nothing fails. *)
Record World := mkWorld {
  db : Db;
  faults : list (option str);
}.

Definition Sql (A : Type) : Type := World → Result A * World.

#[export] Instance Sql_ret : MRet Sql := λ A a w, (Ok a, w).
#[export] Instance Sql_bind : MBind Sql := λ A B k m w,
  match m w with
  | (Ok a, w') => k a w'
  | (Err e, w') => (Err e, w')
  end.
#[export] Instance Sql_fmap : FMap Sql := λ A B f m, a ← m; mret (f a).

Definition lift {A} (r : Result A) : Sql A := λ w, (r, w).
Definition fail {A} (e : Error) : Sql A := lift (Err e).

(** [match op { Ok .. Err .. }]: the caller looks at the result. *)
Definition attempt {A} (m : Sql A) : Sql (Result A) := λ w, let '(r, w') := m w in (Ok r, w').

(** One statement, committed on its own. *)
Definition stmt {A} (f : Db → Result A * Db) : Sql A := λ w,
  match faults w with
  | Some e :: fs => (Err (Memory e), mkWorld (db w) fs)
  | None :: fs => let '(r, d) := f (db w) in (r, mkWorld d fs)
  | [] => let '(r, d) := f (db w) in (r, mkWorld d [])
  end.

Definition query {A} (f : Db → A) : Sql A := stmt (λ d, (Ok (f d), d)).
Definition update (f : Db → Db) : Sql () := stmt (λ d, (Ok (), f d)).

(** A transaction: the body's statements, then [commit]; a failure of either rolls
    everything back. *)
Definition transaction {A} (m : Sql A) : Sql A := λ w,
  match (a ← m; stmt (λ d, (Ok a, d))) w with
  | (Ok a, w') => (Ok a, w')
  | (Err e, w') => (Err e, mkWorld (db w) (faults w'))
  end.

Fixpoint for_each {A} (f : A → Sql ()) (l : list A) : Sql () :=
  match l with
  | [] => mret ()
  | x :: l' => f x ≫= λ _, for_each f l'
  end.

Fixpoint fold_sql {A S} (f : S → A → Sql S) (s : S) (l : list A) : Sql S :=
  match l with
  | [] => mret s
  | x :: l' => s' ← f s x; fold_sql f s' l'
  end.

(** *** Rows *)

Definition constraint_error (what : str) : Error := Memory (what ++ $" constraint failed").

(** Rows in row-id order. *)
Definition table (d : Db) : list (Z * Row) :=
  sort_by (λ a b, (a.1 ?= b.1)%Z) (map_to_list (memories d)).

Definition rows_where (p : Z * Row → bool) (d : Db) : list (Z * Row) := List.filter p (table d).

(** [INSERT INTO memories]: the key is [AUTOINCREMENT], so it exceeds every key ever
    used; past the largest integer SQLite reports a full database. *)
Definition insert_memory (r : Row) : Sql Z :=
  stmt (λ d,
    if (i64_max <=? sequence d)%Z
    then (Err (Memory $"database or disk is full"), d)
    else
      let id := (sequence d + 1)%Z in
      (Ok id,
       mkDb (<[id := r]> (memories d)) id (fts d) (embeddings d) (embedding_models d) (edges d)
         (entities d) (memory_entities d) (invocation_provenances d)
         (forwarded_event_receipts d))).

(** [UPDATE memories SET .. WHERE id = ?]. *)
Definition update_memory (id : Z) (f : Row → Row) : Sql () :=
  update (with_memories (alter f id)).

(** [DELETE FROM memories WHERE ..], with the cascades of [embeddings], [edges] and
    [forwarded_event_receipts]; [memory_entities] declares no foreign key. *)
Definition delete_memories (p : Z → Row → bool) (d : Db) : Db :=
  let gone := filter (λ ir : Z * Row, p ir.1 ir.2 = true) (memories d) in
  mkDb (filter (λ ir : Z * Row, p ir.1 ir.2 = false) (memories d))
    (sequence d) (fts d)
    (filter (λ ie : Z * (str * list N), gone !! ie.1 = None) (embeddings d))
    (embedding_models d)
    (filter (λ e : Edge, gone !! e.1.1 = None ∧ gone !! e.1.2 = None) (edges d))
    (entities d) (memory_entities d) (invocation_provenances d)
    (filter (λ kr : ReceiptKey * (Z * Z), gone !! kr.2.1 = None) (forwarded_event_receipts d)).

(** *** The text index *)

Definition fts_add (id : Z) (body : str) (x : FtsIndex) : FtsIndex :=
  mkFts (postings x ++ [(id, body)]) (damaged x).

Fixpoint remove_posting (p : Z * str) (l : list (Z * str)) : option (list (Z * str)) :=
  match l with
  | [] => None
  | q :: l' => if bool_decide (p = q) then Some l' else cons q <$> remove_posting p l'
  end.

Definition fts_remove (id : Z) (body : str) (x : FtsIndex) : FtsIndex :=
  match remove_posting (id, body) (postings x) with
  | Some l => mkFts l (damaged x)
  | None => mkFts (postings x) true
  end.

Definition fts_insert (id : Z) (body : str) : Sql () := update (with_fts (fts_add id body)).
Definition fts_delete (id : Z) (body : str) : Sql () := update (with_fts (fts_remove id body)).

(** *** Tables that reference memories *)

Definition has_memory (id : Z) (d : Db) : bool := bool_decide (is_Some (memories d !! id)).

Definition insert_edge_or_ignore (src dst : Z) (relation : str) : Sql bool :=
  stmt (λ d,
    if bool_decide ((src, dst, relation) ∈ edges d) then (Ok false, d)
    else if has_memory src d && has_memory dst d
    then (Ok true, with_edges (λ s, {[(src, dst, relation)]} ∪ s) d)
    else (Err (constraint_error $"FOREIGN KEY"), d)).

Definition insert_embedding_or_ignore (id : Z) (model : str) (blob : list N) : Sql () :=
  stmt (λ d,
    if bool_decide (is_Some (embeddings d !! id)) then (Ok (), d)
    else if has_memory id d then (Ok (), with_embeddings (insert id (model, blob)) d)
    else (Err (constraint_error $"FOREIGN KEY"), d)).

Definition insert_embedding_or_replace (id : Z) (model : str) (blob : list N) : Sql () :=
  stmt (λ d,
    if has_memory id d then (Ok (), with_embeddings (insert id (model, blob)) d)
    else (Err (constraint_error $"FOREIGN KEY"), d)).

Definition insert_receipt (key : ReceiptKey) (id received_at : Z) : Sql () :=
  stmt (λ d,
    match forwarded_event_receipts d !! key with
    | Some _ => (Err (constraint_error $"UNIQUE"), d)
    | None =>
        if has_memory id d then (Ok (), with_receipts (insert key (id, received_at)) d)
        else (Err (constraint_error $"FOREIGN KEY"), d)
    end).

(** ** Integrity

    What the schema and the program's dimension registry promise of every state,
    whatever statements failed on the way. *)

Record store_ok (d : Db) : Prop := {
  ok_sequence : (0 ≤ sequence d ≤ i64_max)%Z;
  ok_ids : ∀ id, is_Some (memories d !! id) → (0 < id ≤ sequence d)%Z;
  ok_embeddings : ∀ id e, embeddings d !! id = Some e → is_Some (memories d !! id);
  ok_edges : ∀ src dst rel, (src, dst, rel) ∈ edges d →
    is_Some (memories d !! src) ∧ is_Some (memories d !! dst);
  ok_receipts : ∀ key id at_, forwarded_event_receipts d !! key = Some (id, at_) →
    is_Some (memories d !! id);
  ok_dimensions : ∀ id model blob, embeddings d !! id = Some (model, blob) →
    ∃ n, embedding_models d !! model = Some (Z.of_nat n) ∧ (0 < n)%nat ∧
         length blob = (4 * n)%nat;
  ok_entities : ∀ i j e, entities d !! i = Some e → entities d !! j = Some e → i = j;
}.

(** The text index holds exactly the bodies of the rows. *)
Definition mirrored (d : Db) : Prop :=
  damaged (fts d) = false ∧
  postings (fts d) ≡ₚ (λ ir : Z * Row, (ir.1, r_body ir.2)) <$> map_to_list (memories d).

(** [I] survives [m], success or failure. *)
Definition preserves {A} (I : Db → Prop) (m : Sql A) : Prop :=
  ∀ w, I (db w) → I (db (m w).2).

(** The same when no statement fails from outside. *)
Definition clean {A} (P : Db → Prop) (m : Sql A) (Q : A → Db → Prop) (E : Db → Prop) : Prop :=
  ∀ d, P d →
    match m (mkWorld d []) with
    | (Ok a, w') => faults w' = [] ∧ Q a (db w')
    | (Err _, w') => faults w' = [] ∧ E (db w')
    end.

(** From [P], success leads to [Q] of the result and failure to [E]. *)
Definition triple {A} (P : Db → Prop) (m : Sql A) (Q : A → Db → Prop) (E : Db → Prop) : Prop :=
  ∀ w, P (db w) →
    match m w with
    | (Ok a, w') => Q a (db w')
    | (Err _, w') => E (db w')
    end.

(** ** Lemmas *)

Lemma lookup_sub {K V} `{Countable K} (P : K * V → Prop) `{!∀ x, Decision (P x)} (m : gmap K V) k v :
  filter P m !! k = Some v ↔ m !! k = Some v ∧ P (k, v).
Proof. apply map_lookup_filter_Some. Qed.

#[export] Instance Z_compare_total : TotalCmp Z.compare.
Proof.
  split.
  - intros x y. apply Z.compare_antisym.
  - intros x y z. rewrite !Z.compare_lt_iff. lia.
  - intros x y z ->%Z.compare_eq_iff. done.
Qed.

Lemma for_each_map {A B} (g : B → A) (f : A → Sql ()) l :
  for_each (λ x, f (g x)) l = for_each f (map g l).
Proof. induction l as [|x l IH]; cbn; [done|]. by rewrite IH. Qed.

Lemma elem_of_rev {A} (x : A) l : x ∈ rev l ↔ x ∈ l.
Proof. by rewrite !list_elem_of_In, <-in_rev. Qed.

Lemma elem_of_take_in {A} (x : A) n l : x ∈ take n l → x ∈ l.
Proof. intros (i & Hi & _)%elem_of_take. by eapply list_elem_of_lookup_2. Qed.

Section Preserves.
Context (I : Db → Prop).

Lemma preserves_ret {A} (a : A) : preserves I (mret a).
Proof. intros w H. done. Qed.

Lemma preserves_lift {A} (r : Result A) : preserves I (lift r).
Proof. intros w H. done. Qed.

Lemma preserves_fail {A} (e : Error) : preserves I (fail (A:=A) e).
Proof. intros w H. done. Qed.

Lemma preserves_bind {A B} (m : Sql A) (k : A → Sql B) :
  preserves I m → (∀ a, preserves I (k a)) → preserves I (m ≫= k).
Proof.
  intros Hm Hk w H. unfold mbind, Sql_bind. specialize (Hm w H).
  destruct (m w) as [[a|e] w']; cbn in *; [by apply Hk|done].
Qed.

Lemma preserves_fmap {A B} (f : A → B) (m : Sql A) : preserves I m → preserves I (f <$> m).
Proof. intros Hm. apply preserves_bind; [done|]. intros. apply preserves_ret. Qed.

Lemma preserves_attempt {A} (m : Sql A) : preserves I m → preserves I (attempt m).
Proof. intros Hm w H. specialize (Hm w H). unfold attempt. by destruct (m w). Qed.

Lemma preserves_stmt {A} (f : Db → Result A * Db) :
  (∀ d, I d → I (f d).2) → preserves I (stmt f).
Proof.
  intros Hf w H. unfold stmt. specialize (Hf (db w) H).
  destruct (faults w) as [|[e|] fs]; [..|]; destruct (f (db w)); done.
Qed.

Lemma preserves_query {A} (f : Db → A) : preserves I (query f).
Proof. by apply preserves_stmt. Qed.

Lemma preserves_update (f : Db → Db) : (∀ d, I d → I (f d)) → preserves I (update f).
Proof. intros Hf. by apply preserves_stmt. Qed.

Lemma preserves_transaction {A} (m : Sql A) : preserves I m → preserves I (transaction m).
Proof.
  intros Hm w H. unfold transaction.
  assert (Hmc : preserves I (a ← m; stmt (λ d, (Ok a, d)))).
  { apply preserves_bind; [done|]. intros. by apply preserves_stmt. }
  specialize (Hmc w H). by destruct ((a ← m; stmt (λ d, (Ok a, d))) w) as [[a|e] w'].
Qed.

Lemma preserves_for_each {A} (f : A → Sql ()) l :
  (∀ x, preserves I (f x)) → preserves I (for_each f l).
Proof.
  intros Hf. induction l as [|x l IH]; cbn; [apply preserves_ret|].
  by apply preserves_bind.
Qed.

Lemma preserves_fold {A S} (f : S → A → Sql S) s l :
  (∀ s x, preserves I (f s x)) → preserves I (fold_sql f s l).
Proof.
  intros Hf. revert s. induction l as [|x l IH]; intros s; cbn; [apply preserves_ret|].
  by apply preserves_bind.
Qed.
End Preserves.

Lemma triple_preserves {A} I (m : Sql A) : triple I m (λ _, I) I → preserves I m.
Proof. intros T w H. specialize (T w H). by destruct (m w) as [[a|e] w']. Qed.

Lemma preserves_triple {A} I (m : Sql A) : preserves I m → triple I m (λ _, I) I.
Proof. intros T w H. specialize (T w H). by destruct (m w) as [[a|e] w']. Qed.

Lemma triple_ret {A} P (a : A) (Q : A → Db → Prop) E :
  (∀ d, P d → Q a d) → triple P (mret a) Q E.
Proof. intros HQ w H. by apply HQ. Qed.

Lemma triple_lift {A} P (r : Result A) (Q : A → Db → Prop) (E : Db → Prop) :
  (∀ d, P d → match r with Ok a => Q a d | Err _ => E d end) → triple P (lift r) Q E.
Proof. intros HQ w H. unfold lift. specialize (HQ _ H). by destruct r. Qed.

Lemma triple_bind {A B} P (m : Sql A) R (k : A → Sql B) Q E :
  triple P m R E → (∀ a, triple (R a) (k a) Q E) → triple P (m ≫= k) Q E.
Proof.
  intros Tm Tk w H. specialize (Tm w H). unfold mbind, Sql_bind.
  destruct (m w) as [[a|e] w']; [by apply Tk|done].
Qed.

Lemma triple_assume {A} (φ : Prop) (P : Db → Prop) (m : Sql A) Q E :
  (φ → triple P m Q E) → triple (λ d, φ ∧ P d) m Q E.
Proof. intros T w [Hφ H]. by apply T. Qed.

Lemma triple_stmt {A} P (f : Db → Result A * Db) Q (E : Db → Prop) :
  (∀ d, P d → E d) →
  (∀ d, P d → match f d with (Ok a, d') => Q a d' | (Err _, d') => E d' end) →
  triple P (stmt f) Q E.
Proof.
  intros HE HQ w H. unfold stmt. specialize (HQ _ H). specialize (HE _ H).
  destruct (faults w) as [|[e|] fs]; [..|]; destruct (f (db w)) as [[a|e'] d]; done.
Qed.

Lemma triple_query {A} P (f : Db → A) Q (E : Db → Prop) :
  (∀ d, P d → E d) → (∀ d, P d → Q (f d) d) → triple P (query f) Q E.
Proof. intros. by apply triple_stmt. Qed.

Lemma triple_update P f Q (E : Db → Prop) :
  (∀ d, P d → E d) → (∀ d, P d → Q () (f d)) → triple P (update f) Q E.
Proof. intros. by apply triple_stmt. Qed.

(** A failed transaction leaves no trace. *)
Lemma triple_transaction {A} d0 (m : Sql A) Q :
  triple (eq d0) m Q (λ _, True) → triple (eq d0) (transaction m) Q (eq d0).
Proof.
  intros T w H. unfold transaction.
  assert (Tc : triple (eq d0) (a ← m; stmt (λ d, (Ok a, d))) Q (λ _, True)).
  { eapply triple_bind; [done|]. intros a. by apply triple_stmt. }
  specialize (Tc w H). by destruct ((a ← m; stmt (λ d, (Ok a, d))) w) as [[a|e] w'].
Qed.

Lemma triple_attempt {A} P (m : Sql A) Q E :
  triple P m Q E →
  triple P (attempt m) (λ r d, match r with Ok a => Q a d | Err _ => E d end) (λ _, False).
Proof.
  intros T w H. specialize (T w H). unfold attempt. by destruct (m w) as [[a|e] w'].
Qed.

Lemma clean_ret {A} P (a : A) (Q : A → Db → Prop) E : (∀ d, P d → Q a d) → clean P (mret a) Q E.
Proof. intros HQ d H. split; [done|]. by apply HQ. Qed.

Lemma clean_lift {A} P (r : Result A) (Q : A → Db → Prop) (E : Db → Prop) :
  (∀ d, P d → match r with Ok a => Q a d | Err _ => E d end) → clean P (lift r) Q E.
Proof. intros HQ d H. specialize (HQ d H). unfold lift. by destruct r. Qed.

Lemma clean_bind {A B} P (m : Sql A) R (k : A → Sql B) Q E :
  clean P m R E → (∀ a, clean (R a) (k a) Q E) → clean P (m ≫= k) Q E.
Proof.
  intros Tm Tk d H. specialize (Tm d H). unfold mbind, Sql_bind.
  destruct (m (mkWorld d [])) as [[a|e] [d' fs]]; cbn in *; destruct Tm as [-> Hq]; [by apply Tk|done].
Qed.

Lemma clean_stmt {A} P (f : Db → Result A * Db) Q (E : Db → Prop) :
  (∀ d, P d → match f d with (Ok a, d') => Q a d' | (Err _, d') => E d' end) →
  clean P (stmt f) Q E.
Proof. intros HQ d H. specialize (HQ d H). unfold stmt. cbn. by destruct (f d) as [[a|e] d']. Qed.

Lemma clean_query {A} P (f : Db → A) Q (E : Db → Prop) :
  (∀ d, P d → Q (f d) d) → clean P (query f) Q E.
Proof. intros. by apply clean_stmt. Qed.

Lemma clean_update P f Q (E : Db → Prop) : (∀ d, P d → Q () (f d)) → clean P (update f) Q E.
Proof. intros. by apply clean_stmt. Qed.

Lemma clean_attempt {A} P (m : Sql A) Q E :
  clean P m Q E →
  clean P (attempt m) (λ r d, match r with Ok a => Q a d | Err _ => E d end) (λ _, False).
Proof.
  intros T d H. specialize (T d H). unfold attempt. by destruct (m (mkWorld d [])) as [[a|e] w'].
Qed.

Lemma clean_weaken {A} (P P' : Db → Prop) (m : Sql A) (Q Q' : A → Db → Prop) (E E' : Db → Prop) :
  clean P' m Q' E' → (∀ d, P d → P' d) → (∀ a d, Q' a d → Q a d) → (∀ d, E' d → E d) →
  clean P m Q E.
Proof.
  intros T HP HQ HE d H. specialize (T d (HP _ H)).
  destruct (m (mkWorld d [])) as [[a|e] w']; naive_solver.
Qed.

Lemma clean_for_each {A} I (f : A → Sql ()) l :
  (∀ x, clean I (f x) (λ _, I) I) → clean I (for_each f l) (λ _, I) I.
Proof.
  intros Hf. induction l as [|x l IH]; cbn; [by apply clean_ret|].
  eapply clean_bind; [apply Hf|]. intros u. apply IH.
Qed.

Lemma clean_fold {A S} I (f : S → A → Sql S) s l :
  (∀ s x, clean I (f s x) (λ _, I) I) → clean I (fold_sql f s l) (λ _, I) I.
Proof.
  intros Hf. revert s. induction l as [|x l IH]; intros s; cbn; [by apply clean_ret|].
  eapply clean_bind; [apply Hf|]. intros u. apply IH.
Qed.

Lemma triple_weaken {A} (P P' : Db → Prop) (m : Sql A) (Q Q' : A → Db → Prop) (E E' : Db → Prop) :
  triple P' m Q' E' → (∀ d, P d → P' d) → (∀ a d, Q' a d → Q a d) → (∀ d, E' d → E d) →
  triple P m Q E.
Proof.
  intros T HP HQ HE w H. specialize (T w (HP _ H)).
  destruct (m w) as [[a|e] w']; auto.
Qed.

Create HintDb sql discriminated.
#[export] Hint Resolve preserves_ret preserves_lift preserves_fail preserves_bind preserves_fmap
  preserves_attempt preserves_query preserves_transaction preserves_for_each preserves_fold : sql.

(** Works through the structure of an operation. *)
Ltac preserve :=
  repeat (intros; match goal with
  | |- preserves _ (match ?x with _ => _ end) => destruct x
  | |- preserves _ (let '(_, _) := ?x in _) => destruct x
  | |- preserves _ (if ?x then _ else _) => destruct x
  | |- preserves _ (mbind _ _) => apply preserves_bind
  | |- preserves _ _ => solve [auto with sql]
  | |- preserves _ (for_each _ _) => apply preserves_for_each
  | |- preserves _ (fold_sql _ _ _) => apply preserves_fold
  | |- preserves _ (attempt _) => apply preserves_attempt
  | |- preserves _ (transaction _) => apply preserves_transaction
  | |- preserves _ (fmap _ _) => apply preserves_fmap
  end).

(** *** The statements keep the store's integrity *)

Lemma fresh_db_ok : store_ok fresh_db.
Proof. split; cbn; try done; intros; try (unfold i64_max; lia); try set_solver.
  by destruct H. Qed.

Lemma fresh_db_mirrored : mirrored fresh_db.
Proof. done. Qed.

Lemma alter_is_Some {V} (f : V → V) (m : gmap Z V) i j :
  is_Some (alter f i m !! j) ↔ is_Some (m !! j).
Proof. apply lookup_alter_is_Some. Qed.

Lemma with_memories_alter_ok f id d : store_ok d → store_ok (with_memories (alter f id) d).
Proof.
  intros [S1 S2 S3 S4 S5 S6 S7]. split; cbn; try done; setoid_rewrite alter_is_Some; eauto.
Qed.

Lemma fmap_rows_ok (f : Row → Row) d : store_ok d → store_ok (with_memories (fmap f) d).
Proof.
  intros [S1 S2 S3 S4 S5 S6 S7]. split; cbn; try done; setoid_rewrite lookup_fmap;
    setoid_rewrite fmap_is_Some; eauto.
Qed.

Lemma with_fts_ok f d : store_ok d → store_ok (with_fts f d).
Proof. intros []. by split. Qed.

Lemma insert_memory_ok r : preserves store_ok (insert_memory r).
Proof.
  apply preserves_stmt. intros d [S1 S2 S3 S4 S5 S6 S7].
  destruct (Z.leb_spec i64_max (sequence d)); [by split|].
  assert (L : ∀ k, is_Some (memories d !! k) →
    is_Some (<[(sequence d + 1)%Z := r]> (memories d) !! k)).
  { intros k Hk. apply lookup_insert_is_Some'. by right. }
  split; cbn; try done; [lia|..].
  - intros id [<-|Hid]%lookup_insert_is_Some'; [lia|]. apply S2 in Hid. lia.
  - intros id e He. eapply L, S3, He.
  - intros src dst rel [? ?]%S4. auto.
  - intros key id at_ Hk. eapply L, S5, Hk.
Qed.

Lemma delete_memories_ok p d : store_ok d → store_ok (delete_memories p d).
Proof.
  intros [S1 S2 S3 S4 S5 S6 S7].
  assert (K : ∀ id, is_Some (memories d !! id) →
    filter (λ ir : Z * Row, p ir.1 ir.2 = true) (memories d) !! id = None →
    is_Some (filter (λ ir : Z * Row, p ir.1 ir.2 = false) (memories d) !! id)).
  { intros id [r Hr] Hn. exists r. apply lookup_sub. split; [done|].
    rewrite map_lookup_filter_None in Hn. destruct Hn as [?|Hn]; [congruence|].
    specialize (Hn r Hr). by apply not_true_is_false. }
  split; cbn; try done.
  - intros id [r [Hr _]%lookup_sub]. eauto.
  - intros id e [He Hn]%lookup_sub. eauto.
  - intros src dst rel [[Hs Hd] He]%elem_of_filter. apply S4 in He as []. eauto.
  - intros key id at_ [Hk Hn]%lookup_sub. eauto.
  - intros id model blob [He _]%lookup_sub. eauto.
Qed.

Lemma insert_edge_ok src dst rel : preserves store_ok (insert_edge_or_ignore src dst rel).
Proof.
  apply preserves_stmt. intros d H.
  destruct (bool_decide_reflect ((src, dst, rel) ∈ edges d)); [done|]. unfold has_memory.
  destruct (bool_decide_reflect (is_Some (memories d !! src))); [|done].
  destruct (bool_decide_reflect (is_Some (memories d !! dst))); [|done].
  destruct H as [S1 S2 S3 S4 S5 S6 S7]. split; cbn; try done.
  intros s t q. rewrite elem_of_union, elem_of_singleton. intros [[=-> -> ->]|Hq]; eauto.
Qed.

(** An embedding of the registered dimension. *)
Definition dimension_ok (model : str) (blob : list N) (d : Db) : Prop :=
  ∃ n, embedding_models d !! model = Some (Z.of_nat n) ∧ (0 < n)%nat ∧
       length blob = (4 * n)%nat.

Lemma insert_embedding_ok id model blob d : store_ok d → dimension_ok model blob d →
  is_Some (memories d !! id) → store_ok (with_embeddings (insert id (model, blob)) d).
Proof.
  intros [S1 S2 S3 S4 S5 S6 S7] Hdim Hid. split; cbn; try done.
  - intros id' e. rewrite lookup_insert_Some. intros [[<- _]|[_ ?]]; eauto.
  - intros id' m b. rewrite lookup_insert_Some. intros [[<- [=<- <-]]|[_ ?]]; eauto.
Qed.

Lemma insert_receipt_ok key id at_ : preserves store_ok (insert_receipt key id at_).
Proof.
  apply preserves_stmt. intros d H.
  destruct (forwarded_event_receipts d !! key) eqn:E; [done|]. unfold has_memory.
  destruct (bool_decide_reflect (is_Some (memories d !! id))); [|done].
  destruct H as [S1 S2 S3 S4 S5 S6 S7]. split; cbn; try done.
  intros k id1 a1. rewrite lookup_insert_Some. intros [[<- [=<- <-]]|[_ ?]]; eauto.
Qed.

Lemma fts_insert_ok id body : preserves store_ok (fts_insert id body).
Proof. apply preserves_update. intros. by apply with_fts_ok. Qed.
Lemma fts_delete_ok id body : preserves store_ok (fts_delete id body).
Proof. apply preserves_update. intros. by apply with_fts_ok. Qed.
Lemma update_memory_ok id f : preserves store_ok (update_memory id f).
Proof. apply preserves_update. intros. by apply with_memories_alter_ok. Qed.

#[export] Hint Resolve insert_memory_ok insert_edge_ok insert_receipt_ok fts_insert_ok
  fts_delete_ok update_memory_ok : sql.

(** *** The text index mirrors the rows *)

Lemma remove_posting_Some p l l' : remove_posting p l = Some l' → l ≡ₚ p :: l'.
Proof.
  revert l'. induction l as [|q l IH]; intros l'; cbn; [done|].
  destruct (bool_decide_reflect (p = q)) as [->|Hne]; [by intros [= ->]|].
  destruct (remove_posting p l) as [l0|] eqn:E; cbn; [|done].
  intros [= <-]. rewrite (IH l0) by done. apply Permutation_swap.
Qed.

Lemma remove_posting_perm p l l0 : l ≡ₚ p :: l0 → ∃ l', remove_posting p l = Some l' ∧ l' ≡ₚ l0.
Proof.
  intros H. assert (Hin : p ∈ l) by (rewrite H; set_solver).
  assert (E : is_Some (remove_posting p l)).
  { clear H. induction l as [|q l IH]; [set_solver|]. cbn.
    destruct (bool_decide_reflect (p = q)) as [->|Hne]; [done|].
    apply fmap_is_Some, IH. set_solver. }
  destruct E as [l' E]. exists l'. split; [done|].
  apply remove_posting_Some in E. rewrite E in H. by apply Permutation_cons_inv in H.
Qed.

Lemma mirrored_insert d d' id r : mirrored d → memories d !! id = None →
  memories d' = <[id := r]> (memories d) → fts d' = fts_add id (r_body r) (fts d) →
  mirrored d'.
Proof.
  intros [Hd Hp] Hn Em Ef. unfold mirrored. rewrite Ef, Em. cbn. split; [done|].
  rewrite map_to_list_insert by done. cbn. rewrite Hp. symmetry. apply Permutation_cons_append.
Qed.

Lemma mirrored_delete d d' id r : mirrored d → memories d !! id = Some r →
  memories d' = delete id (memories d) → fts d' = fts_remove id (r_body r) (fts d) →
  mirrored d'.
Proof.
  intros [Hd Hp] Hs Em Ef. unfold mirrored. rewrite Ef, Em.
  destruct (remove_posting_perm (id, r_body r) (postings (fts d))
    ((λ ir : Z * Row, (ir.1, r_body ir.2)) <$> map_to_list (delete id (memories d))))
    as (l' & E & Hl').
  { rewrite Hp. change ((id, r_body r) :: ?l) with
      ((λ ir : Z * Row, (ir.1, r_body ir.2)) (id, r) :: l).
    rewrite <-fmap_cons. apply fmap_Permutation. symmetry. by apply map_to_list_delete. }
  unfold fts_remove. by rewrite E.
Qed.

Lemma mirrored_fmap d f : mirrored d → (∀ r, r_body (f r) = r_body r) →
  mirrored (with_memories (fmap f) d).
Proof.
  intros [Hd Hp] Hf. split; [done|]. cbn. rewrite Hp, map_to_list_fmap, <-list_fmap_compose.
  erewrite list_fmap_ext; [done|]. intros i [j r] _. cbn. by rewrite Hf.
Qed.

Lemma alter_known {V} (f : V → V) (m : gmap Z V) id v :
  m !! id = Some v → alter f id m = <[id := f v]> m.
Proof.
  intros E. apply map_eq. intros j. destruct (decide (j = id)) as [->|Hne].
  - by rewrite lookup_alter_eq, lookup_insert_eq, E.
  - by rewrite lookup_alter_ne, lookup_insert_ne by done.
Qed.

(** A row update that keeps the bodies keeps the mirror. *)
Lemma mirrored_alter d d' f id : mirrored d → (∀ r, r_body (f r) = r_body r) →
  memories d' = alter f id (memories d) → fts d' = fts d → mirrored d'.
Proof.
  intros [Hd Hp] Hf Em Ef. unfold mirrored. rewrite Ef, Em. split; [done|]. rewrite Hp.
  destruct (memories d !! id) as [r|] eqn:E; [|by rewrite alter_id by congruence].
  assert (P1 := map_to_list_delete _ _ _ E).
  assert (P2 := map_to_list_insert (delete id (memories d)) id (f r) (lookup_delete_eq _ _)).
  rewrite insert_delete_eq in P2.
  rewrite (alter_known _ _ _ _ E), P2, <-P1. cbn. by rewrite Hf.
Qed.

(** ** Operations that keep an invariant when nothing fails *)

Definition cleanly {A} (I : Db → Prop) (m : Sql A) : Prop := clean I m (λ _, I) I.

Section Cleanly.
Context (I : Db → Prop).

Lemma cleanly_ret {A} (a : A) : cleanly I (mret a).
Proof. by apply clean_ret. Qed.
Lemma cleanly_lift {A} (r : Result A) : cleanly I (lift r).
Proof. apply clean_lift. by destruct r. Qed.
Lemma cleanly_fail {A} (e : Error) : cleanly I (fail (A:=A) e).
Proof. by apply clean_lift. Qed.
Lemma cleanly_query {A} (f : Db → A) : cleanly I (query f).
Proof. by apply clean_query. Qed.
Lemma cleanly_bind {A B} (m : Sql A) (k : A → Sql B) :
  cleanly I m → (∀ a, cleanly I (k a)) → cleanly I (m ≫= k).
Proof. intros. by eapply clean_bind. Qed.
Lemma cleanly_attempt {A} (m : Sql A) : cleanly I m → cleanly I (attempt m).
Proof.
  intros Hm. eapply clean_weaken; [apply clean_attempt, Hm|done| |done].
  by intros [a|e] d.
Qed.
Lemma cleanly_stmt {A} (f : Db → Result A * Db) : (∀ d, I d → I (f d).2) → cleanly I (stmt f).
Proof. intros Hf. apply clean_stmt. intros d HI. specialize (Hf d HI). by destruct (f d) as [[a|e] d']. Qed.
Lemma cleanly_update f : (∀ d, I d → I (f d)) → cleanly I (update f).
Proof. intros. by apply cleanly_stmt. Qed.
End Cleanly.

#[export] Hint Resolve cleanly_ret cleanly_lift cleanly_fail cleanly_query cleanly_bind
  cleanly_attempt : sql.

Ltac cleanly :=
  repeat (intros; match goal with
  | |- cleanly _ (match ?x with _ => _ end) => destruct x
  | |- cleanly _ (if ?x then _ else _) => destruct x
  | |- cleanly _ (mbind _ _) => solve [auto with sql] || apply cleanly_bind
  | |- cleanly _ (for_each _ _) => apply clean_for_each
  | |- cleanly _ (fold_sql _ _ _) => apply clean_fold
  | |- cleanly _ (attempt _) => apply cleanly_attempt
  | |- clean ?I _ (λ _, ?I) ?I => change (clean I ?m (λ _, I) I) with (cleanly I m)
  | |- cleanly _ _ => solve [auto with sql]
  end).
