(* ===== verification/MemStore.v ===== *)
(** * The memory store: [crates/rtrt-memory/src/lib.rs], the operations that write

    The methods of [MemoryStore] that change the database, each a sequence of
    statements of [MemDb] in the code's order.  JSON (serde_json and SQLite's JSON
    functions), SHA-256, the embedding model and the summarising model are foreign:
    [Json] and [Embedder] are interfaces, the others arguments.  [now] is what the
    system clock answers. *)
From stdpp Require Import gmap sets.
From S2P Require Import Prelude Str Error F64 F32 MemDb.

(** ** Interfaces *)

Abbreviation Metadata := (gmap str str) (only parsing).

Class Json := {
  (** [serde_json::to_string] and [from_str] of a [BTreeMap<String, String>]. *)
  json_encode : Metadata → str;
  json_decode : str → str + Metadata;
  (** SQLite's [json_extract(column, '$.key')] and [json_patch(column, patch)]. *)
  json_extract : str → str → option str;
  json_patch : str → str → str;
}.

(** The documented behaviour the store relies on: objects of strings survive
    encoding, are read by key, a patch overrides key by key, and no object is written
    as the empty text. *)
Class JsonLaws (J : Json) : Prop := {
  json_decode_encode m : json_decode (json_encode m) = inr m;
  json_nonempty m : json_decode [] ≠ inr m;
  json_decode_default : json_decode $"{}" = inr ∅;
  json_extract_encode m k : json_extract (json_encode m) k = m !! k;
  json_decode_patch raw m p : json_decode raw = inr m →
    json_decode (json_patch raw (json_encode p)) = inr (p ∪ m);
}.

Record Embedder := mkEmbedder {
  model_name : str;
  embed : list str → Result (list (list N));
}.

Definition embed_one (e : Embedder) (text : str) : Result (list N) :=
  out ← embed e [text];
  ok_or (last out) (Memory $"embedder returned no vector").

(** [MemoryStore] without its connection. *)
Record MemoryStore := mkStore {
  embedder : option Embedder;
  project_pin : option str;
}.

Record ForwardedEvent := mkEvent {
  event_id : str;
  source_guest : str;
  source_project : str;
  ev_kind : str;
  ev_body : str;
  ev_metadata : Metadata;
  ev_session_id : option str;
}.

Record IngestOutcome := mkOutcome {
  memory_id : Z;
  inserted : bool;
}.

Definition ARCHIVAL_KIND : str := $"archival".
Definition BLOCK_KIND_PREFIX : str := $"block:".
Definition block_kind (name : str) : str := BLOCK_KIND_PREFIX ++ name.

(** [QueryReturnedNoRows]. *)
Definition no_rows : Error := Memory $"Query returned no rows".

(** [LIMIT ?] bound to [limit as i64]: a negative limit is no limit. *)
Definition limit_rows {A} (limit : N) (l : list A) : list A :=
  if limit <=? Z.to_N i64_max then take (N.to_nat limit) l else l.

(** [ORDER BY created_at, id]. *)
Definition age_cmp (a b : Z * Row) : Ordering :=
  (r_created_at a.2 ?= r_created_at b.2)%Z .then (a.1 ?= b.1)%Z.

Definition in_project (project : str) (ir : Z * Row) : bool := str_eqb (r_project ir.2) project.

Definition list_by_project (project : str) (limit : N) : Sql (list MemoryRecord) :=
  query (λ d, map record_of (limit_rows limit (sort_by age_cmp (rows_where (in_project project) d)))).

(** [SELECT column FROM memories WHERE id = ?], an error when there is no such row. *)
Definition row_column {A} (column : Row → A) (id : Z) : Sql A :=
  stmt (λ d, (match memories d !! id with Some r => Ok (column r) | None => Err no_rows end, d)).

(** ** Embeddings *)

(** [SELECT DISTINCT length(vector) FROM embeddings WHERE model = ?]. *)
Definition model_lengths (model : str) (d : Db) : list N :=
  remove_dups (map (λ ie, N.of_nat (length ie.2.2))
    (List.filter (λ ie : Z * (str * list N), str_eqb ie.2.1 model) (map_to_list (embeddings d)))).

Fixpoint dimension_loop (model : str) (dimension : option N) (lengths : list N) :
    Result (option N) :=
  match lengths with
  | [] => Ok dimension
  | byte_length :: rest =>
      if negb (byte_length mod 4 =? 0)
      then Err (Memory ($"stored `" ++ model ++ $"` vector has invalid byte length "
                        ++ show_N byte_length))
      else
        let current := byte_length / 4 in
        match dimension with
        | Some expected =>
            if negb (current =? expected)
            then Err (Memory ($"stored `" ++ model ++ $"` vectors have mixed dimensions "
                              ++ show_N expected ++ $" and " ++ show_N current))
            else dimension_loop model (Some current) rest
        | None => dimension_loop model (Some current) rest
        end
  end.

Definition embedding_dimension_for_model (model : str) : Sql (option N) :=
  stmt (λ d, (dimension_loop model None (model_lengths model d), d)).

Definition dimension_mismatch (dimension : N) (model : str) (registered : Z) : Error :=
  Memory ($"embedding dimension " ++ show_N dimension ++ $" does not match `" ++ model
          ++ $"` dimension " ++ show_N (Z.to_N registered)).

(** Comparison of a registered dimension with the vector's. *)
Definition check_registered (model : str) (dimension : N) (registered : Z) : Result () :=
  if (registered <? 0)%Z then Err (Memory $"registered embedding dimension overflow")
  else if (registered =? Z.of_N dimension)%Z then Ok ()
  else Err (dimension_mismatch dimension model registered).

Definition ensure_embedding_model_dimension (model : str) (dimension : N) : Sql () :=
  if dimension =? 0 then fail (Memory $"embedding vector must not be empty")
  else
    registered ← query (λ d, embedding_models d !! model);
    match registered with
    | Some r => lift (check_registered model dimension r)
    | None =>
        existing ← embedding_dimension_for_model model;
        (if match existing with Some e => negb (e =? dimension) | None => false end
         then fail (Memory ($"embedding dimension " ++ show_N dimension
                ++ $" does not match stored `" ++ model ++ $"` dimension "
                ++ show_N (default 0 existing)))
         else mret ()) ≫= λ _,
        update (with_models (λ m, match m !! model with
                                  | Some _ => m
                                  | None => <[model := Z.min (Z.of_N dimension) i64_max]> m
                                  end)) ≫= λ _,
        r ← stmt (λ d, (ok_or (embedding_models d !! model) no_rows, d));
        lift (check_registered model dimension r)
    end.

Definition vector_len (v : list N) : N := N.of_nat (length v).

Definition store_embedding (id : Z) (model : str) (vector : list N) : Sql () :=
  ensure_embedding_model_dimension model (vector_len vector) ≫= λ _,
  insert_embedding_or_ignore id model (vector_to_blob vector).

Definition store_embedding_replace (id : Z) (model : str) (vector : list N) : Sql () :=
  ensure_embedding_model_dimension model (vector_len vector) ≫= λ _,
  insert_embedding_or_replace id model (vector_to_blob vector).

Definition store_embedding_replace_checked (id : Z) (model : str) (vector : list N)
    (expected_dimension : N) : Sql () :=
  if negb (vector_len vector =? expected_dimension)
  then fail (dimension_mismatch (vector_len vector) model (Z.of_N expected_dimension))
  else store_embedding_replace id model vector.

(** The registry of an existing store, filled on opening: models whose stored
    vectors all have one positive length divisible by four. *)
Definition backfill_dimensions (d : Db) : Db :=
  let models := remove_dups (map (λ ie, ie.2.1) (map_to_list (embeddings d))) in
  with_models (λ registry, foldl (λ registry model,
    match registry !! model, model_lengths model d with
    | None, [len] =>
        if (len mod 4 =? 0) && (0 <? len) then <[model := Z.of_N (len / 4)]> registry
        else registry
    | _, _ => registry
    end) registry models) d.

(** ** Rows *)

Section Operations.
Context `{Json}.
(** [MemoryStore::body_sha]: SHA-256 in hexadecimal. *)
Variable body_sha : str → str.

Implicit Types self : MemoryStore.
Implicit Types now : Result N.

Definition save_scoped self now (project kind body : str) (scope : MemoryScope) : Sql Z :=
  secs ← lift now;
  id ← insert_memory (mkRow project kind body (i64_of_u64 secs) (MemoryScope_as_str scope)
         $"{}" None None None);
  fts_insert id body ≫= λ _,
  match embedder self with
  | Some e =>
      vector ← lift (embed_one e body);
      store_embedding id (model_name e) vector ≫= λ _, mret id
  | None => mret id
  end.

Definition save self now (project kind body : str) : Sql Z :=
  save_scoped self now project kind body Project.

Definition set_metadata (id : Z) (metadata : Metadata) : Sql () :=
  update_memory id (λ r, mkRow (r_project r) (r_kind r) (r_body r) (r_created_at r) (r_scope r)
    (json_encode metadata) (r_session_id r) (r_body_sha r) (r_body_full r)).

Definition get_metadata (id : Z) : Sql Metadata :=
  raw ← row_column r_metadata id;
  if is_empty raw then mret ∅
  else lift (match json_decode raw with
             | inr m => Ok m
             | inl e => Err (Memory ($"metadata decode: " ++ e))
             end).

Definition save_with_metadata self now (project kind body : str) (metadata : Metadata) : Sql Z :=
  id ← save self now project kind body;
  set_metadata id metadata ≫= λ _, mret id.

Definition save_embedded self now (project kind body : str) (e : Embedder) : Sql Z :=
  id ← save self now project kind body;
  vector ← lift (embed_one e body);
  store_embedding id (model_name e) vector ≫= λ _, mret id.

(** [COALESCE(?, column)]. *)
Definition coalesce {A} (v column : option A) : option A :=
  match v with Some _ => v | None => column end.

Definition tag_row (id : Z) (session_id sha : option str) : Sql () :=
  update_memory id (λ r, mkRow (r_project r) (r_kind r) (r_body r) (r_created_at r) (r_scope r)
    (r_metadata r) (coalesce session_id (r_session_id r)) (coalesce sha (r_body_sha r))
    (r_body_full r)).

Definition provenance_patch (source_kind : str) (p : option InvocationProvenance) : Metadata :=
  let base : Metadata := {[ $"source_kind" := source_kind ]} in
  match p with
  | None => base
  | Some v =>
      let m := <[ $"invocation_id" := invocation_id v ]> base in
      let m := insert_option m $"parent_session_id" (parent_session_id v) in
      let m := insert_option m $"parent_call_id" (parent_call_id v) in
      let m := insert_option m $"caller_agent" (caller_agent v) in
      let m := insert_option m $"child_target" (ip_target v) in
      insert_option m $"child_model" (ip_model v)
  end.

Definition reattribute_with_provenance (id : Z) (source_kind : str) (project : option str)
    (p : option InvocationProvenance) : Sql () :=
  let patch := json_encode (provenance_patch source_kind p) in
  update_memory id (λ r, mkRow (default (r_project r) project) (r_kind r) (r_body r)
    (r_created_at r) (r_scope r)
    (json_patch (if is_empty (r_metadata r) then $"{}" else r_metadata r) patch)
    (r_session_id r) (r_body_sha r) (r_body_full r)).

Definition reattribute (id : Z) (source_kind : str) (project : option str) : Sql () :=
  reattribute_with_provenance id source_kind project None.

(** [UPDATE memories SET project = ?1 WHERE project = ?2]; the number of rows. *)
Definition reassign_project (from to : str) : Sql N :=
  stmt (λ d,
    (Ok (N.of_nat (length (rows_where (in_project from) d))),
     with_memories (fmap (λ r, if str_eqb (r_project r) from
       then mkRow to (r_kind r) (r_body r) (r_created_at r) (r_scope r) (r_metadata r)
              (r_session_id r) (r_body_sha r) (r_body_full r)
       else r)) d)).

Definition upsert_invocation_provenance (v : InvocationProvenance) : Sql () :=
  update (with_provenances (λ m,
    match m !! child_session_id v with
    | Some _ => m
    | None => <[child_session_id v := v]> m
    end)).

Definition invocation_provenance (child : str) : Sql (option InvocationProvenance) :=
  query (λ d, invocation_provenances d !! child).

(** [SELECT created_at .. ORDER BY created_at DESC LIMIT 1]. *)
Definition body_seen_at (project sha : str) : Sql (option Z) :=
  query (λ d, foldr (λ ir acc, Some (match acc with
                                     | Some t => Z.max (r_created_at ir.2) t
                                     | None => r_created_at ir.2
                                     end)) None
    (rows_where (λ ir, in_project project ir && bool_decide (r_body_sha ir.2 = Some sha)) d)).

(** ** Forwarded events *)

Definition receipt_key (e : ForwardedEvent) : ReceiptKey :=
  (event_id e, source_guest e, source_project e).

Definition forwarded_receipt_memory_id (e : ForwardedEvent) : Sql (option Z) :=
  query (λ d, fst <$> forwarded_event_receipts d !! receipt_key e).

Definition insert_forwarded_rows (e : ForwardedEvent) (project metadata_raw sha : str)
    (created_at : Z) : Sql Z :=
  id ← insert_memory (mkRow project (ev_kind e) (ev_body e) created_at
         (MemoryScope_as_str Project) metadata_raw (ev_session_id e) (Some sha) None);
  fts_insert id (ev_body e) ≫= λ _,
  insert_receipt (receipt_key e) id created_at ≫= λ _,
  mret id.

Definition forwarded_metadata (e : ForwardedEvent) : Metadata :=
  <[ $"source_project" := source_project e ]> (<[ $"source_guest" := source_guest e ]> (ev_metadata e)).

(** What other connections commit between the failure of our transaction and the
    second look at the receipts. *)
Definition rival_commits (rivals : Db → Db) : Sql () :=
  λ w, (Ok (), mkWorld (rivals (db w)) (faults w)).

Definition ingest_forwarded self now (rivals : Db → Db) (e : ForwardedEvent) : Sql IngestOutcome :=
  if is_empty (event_id e) || is_empty (source_guest e) || is_empty (source_project e)
  then fail (Memory ($"forwarded event requires a non-empty event_id, source_guest, and "
                     ++ $"source_project"))
  else
    let project := default (source_project e) (project_pin self) in
    update id ≫= λ _, (* BEGIN *)
    gate ← forwarded_receipt_memory_id e;
    match gate with
    | Some id => mret (mkOutcome id false)
    | None =>
        let metadata_raw := json_encode (forwarded_metadata e) in
        secs ← lift now;
        let sha := body_sha (ev_body e) in
        outcome ← attempt (transaction
          (insert_forwarded_rows e project metadata_raw sha (i64_of_u64 secs)));
        match outcome with
        | Ok id => mret (mkOutcome id true)
        | Err error =>
            rival_commits rivals ≫= λ _,
            winner ← forwarded_receipt_memory_id e;
            match winner with
            | Some id => mret (mkOutcome id false)
            | None => fail error
            end
        end
    end.

(** ** Rewriting bodies *)

Definition set_body (id : Z) (new_body : str) : Sql () :=
  old_body ← row_column r_body id;
  update_memory id (λ r, mkRow (r_project r) (r_kind r) new_body (r_created_at r) (r_scope r)
    (r_metadata r) (r_session_id r) (r_body_sha r) (r_body_full r)) ≫= λ _,
  fts_delete id old_body ≫= λ _,
  fts_insert id new_body.

Definition compress_in_place (id : Z) (compressed : str) : Sql () :=
  has_full ← row_column (λ r, bool_decide (is_Some (r_body_full r))) id;
  (if (has_full : bool) then mret ()
   else update_memory id (λ r, mkRow (r_project r) (r_kind r) (r_body r) (r_created_at r)
          (r_scope r) (r_metadata r) (r_session_id r) (r_body_sha r) (Some (r_body r)))) ≫= λ _,
  set_body id compressed.

Definition full_body (id : Z) : Sql (option str) := row_column r_body_full id.

(** ** Deleting *)

Definition is_row (id : Z) : Z → Row → bool := λ i _, (i =? id)%Z.

Definition delete (id : Z) : Sql () :=
  update (λ d, match memories d !! id with
               | Some r => with_fts (fts_remove id (r_body r)) d
               | None => d
               end) ≫= λ _,
  update (delete_memories (is_row id)).

Definition delete_row (id : Z) : Sql bool :=
  body ← query (λ d, r_body <$> memories d !! id);
  match body with
  | None => mret false
  | Some old_body =>
      fts_delete id old_body ≫= λ _,
      update (delete_memories (is_row id)) ≫= λ _, mret true
  end.

Definition one_of (ids : list Z) (i : Z) : bool := existsb (Z.eqb i) ids.

(** The error of binding [given] values to a statement with [expected] slots. *)
Definition parameter_count_error (given expected : nat) : Error :=
  Memory ($"Wrong number of parameters passed to query. Got " ++ show_N (N.of_nat given)
          ++ $", needed " ++ show_N (N.of_nat expected)).

Definition delete_rows (ids : list Z) : Sql N :=
  match ids with
  | [] => mret 0
  | _ =>
      found ← query (λ d, map (λ ir, (ir.1, r_body ir.2)) (rows_where (λ ir, one_of ids ir.1) d));
      match found with
      | [] => mret 0
      | _ =>
          for_each (λ ib : Z * str, fts_delete ib.1 ib.2) found ≫= λ _,
          (if negb (Nat.eqb (length found) (length ids))
           then fail (parameter_count_error (length found) (length ids))
           else update (delete_memories (λ i _, one_of (map fst found) i))) ≫= λ _,
          mret (N.of_nat (length found))
      end
  end.

(** ** Edges, entities and blocks *)

Definition add_edge (src dst : Z) (relation : str) : Sql bool :=
  insert_edge_or_ignore src dst relation.

Definition delete_edge (src dst : Z) (relation : str) : Sql () :=
  update (with_edges (λ s, s ∖ {[(src, dst, relation)]})).

Definition entity_id (project name : str) (d : Db) : option Z :=
  fst <$> List.find (λ ie : Z * (str * str), bool_decide (ie.2 = (project, name)))
            (map_to_list (entities d)).

(** A fresh [INTEGER PRIMARY KEY]: one more than the largest in use. *)
Definition next_entity_id (d : Db) : Z :=
  (foldr Z.max 0 (map fst (map_to_list (entities d))) + 1)%Z.

Definition upsert_entity (project name : str) : Sql Z :=
  update (λ d, match entity_id project name d with
               | Some _ => d
               | None => with_entities (<[next_entity_id d := (project, name)]>) d
               end) ≫= λ _,
  stmt (λ d, (ok_or (entity_id project name d) no_rows, d)).

Definition link_memory_entity (memory_id entity_id : Z) : Sql bool :=
  stmt (λ d, (Ok (negb (bool_decide ((memory_id, entity_id) ∈ memory_entities d))),
              with_memory_entities (λ s, {[(memory_id, entity_id)]} ∪ s) d)).

(** [str::replace] of every double quote by nothing. *)
Definition strip_quotes (s : str) : str := List.filter (λ c, negb (c =? 34)) s.

Definition link_extracted_bipartite (project : str) (extracted : list (Z * list str)) : Sql N :=
  fold_sql (λ n mn,
    fold_sql (λ n name,
      let cleaned := trim (strip_quotes (trim name)) in
      if is_empty cleaned then mret n
      else
        entity_id ← upsert_entity project cleaned;
        fresh ← link_memory_entity mn.1 entity_id;
        mret (if fresh : bool then n + 1 else n)) n mn.2) 0 extracted.

Definition set_block self now (project name body : str) : Sql Z :=
  let kind := block_kind name in
  update (delete_memories (λ _ r, str_eqb (r_project r) project && str_eqb (r_kind r) kind))
    ≫= λ _, save self now project kind body.

(** [ORDER BY created_at DESC]; rows of equal age in row-id order, as SQLite scans
    them. *)
Definition newest_first (a b : Z * Row) : Ordering :=
  (r_created_at b.2 ?= r_created_at a.2)%Z.

Definition get_block (project name : str) : Sql (option MemoryRecord) :=
  let kind := block_kind name in
  query (λ d, head (map record_of (sort_by newest_first
    (rows_where (λ ir, in_project project ir && str_eqb (r_kind ir.2) kind) d)))).

(** ** Consolidation *)

(** [ceil() as usize] of a non-negative double. *)
Definition f64_ceil_usize (a : f64) : N :=
  let t := f64_to_u64 a in
  if f64_lt (f64_of_N t) a then t + 1 else t.

Definition ARCHIVE_PREVIEW_FLOOR : N := 48.

Definition preview_budget (n : N) : N :=
  N.max (f64_ceil_usize (f64_div (f64_of_N 480) (f64_sqrt (f64_of_N n)))) ARCHIVE_PREVIEW_FLOOR.

Definition archive_preview (per_row : N) (m : MemoryRecord) : str :=
  $"- [" ++ m_kind m ++ $"] " ++ take (N.to_nat per_row) (default [] (head (lines (m_body m)))).

Definition archive_digest (to_remove : list MemoryRecord) : str :=
  let n := N.of_nat (length to_remove) in
  $"[archived " ++ [215] ++ $" " ++ show_N n ++ $"]" ++ [ch_nl]
    ++ join [ch_nl] (map (archive_preview (preview_budget n)) to_remove).

Definition archive_overflow_no_llm self now (project : str) (keep_recent : N) :
    Sql (N * option Z) :=
  all ← list_by_project project 100000;
  let candidates := List.filter (λ m, negb (str_eqb (m_kind m) ARCHIVAL_KIND)) all in
  if N.of_nat (length candidates) <=? keep_recent then mret (0, None)
  else
    let to_remove := take (length candidates - N.to_nat keep_recent) candidates in
    digest_id ← save_with_metadata self now project ARCHIVAL_KIND (archive_digest to_remove)
      {[ $"archive" := $"true" ]};
    for_each (λ m, delete (m_id m)) to_remove ≫= λ _,
    mret (N.of_nat (length to_remove), Some digest_id).

Definition compress_project self now (summarise : str → Result str) (project : str)
    (keep_recent : N) : Sql (option Z) :=
  all ← list_by_project project 10000;
  if N.of_nat (length all) <=? keep_recent then mret None
  else
    let to_summarise := take (length all - N.to_nat keep_recent) all in
    let joined := join [ch_nl]
      (map (λ m, $"- [" ++ m_kind m ++ $"] " ++ m_body m) to_summarise) in
    summary ← lift (summarise joined);
    archival_id ← save self now project ARCHIVAL_KIND
      ($"[compressed " ++ [215] ++ $" " ++ show_N (N.of_nat (length to_summarise)) ++ $"]"
       ++ [ch_nl] ++ summary);
    for_each (λ m, delete (m_id m)) to_summarise ≫= λ _,
    mret (Some archival_id).

(** ** Ingestion through a summariser *)

Definition extract_and_save self now (extract_atomic : str → Result (list str))
    (project kind body : str) : Sql (list Z) :=
  facts ← lift (extract_atomic body);
  fold_sql (λ ids fact, id ← save self now project kind fact; mret (ids ++ [id])) [] facts.

Record UniqueIngest := mkUnique {
  added_ids : list Z;
  skipped : N;
}.

Definition extract_and_save_unique self now (extract_atomic : str → Result (list str))
    (project kind body : str) : Sql UniqueIngest :=
  facts ← lift (extract_atomic body);
  existing ← list_by_project project 10000;
  res ← fold_sql (λ (su : gset str * UniqueIngest) fact,
      if bool_decide (fact ∈ su.1)
      then mret (su.1, mkUnique (added_ids su.2) (skipped su.2 + 1))
      else
        id ← save self now project kind fact;
        mret ({[fact]} ∪ su.1, mkUnique (added_ids su.2 ++ [id]) (skipped su.2)))
    (list_to_set (map m_body existing), mkUnique [] 0) facts;
  mret res.2.

(** ** Embedding sweeps *)

Definition unembedded (d : Db) : list (Z * Row) :=
  rows_where (λ ir, bool_decide (embeddings d !! ir.1 = None)) d.

Definition unembedded_count : Sql N := query (λ d, N.of_nat (length (unembedded d))).

(** [ORDER BY m.id DESC LIMIT ?]. *)
Definition unembedded_batch (limit : N) : Sql (list (Z * str * str)) :=
  query (λ d, limit_rows limit
    (map (λ ir, (ir.1, r_project ir.2, r_body ir.2)) (rev (unembedded d)))).

Definition opportunistic_embed_batch_size (backlog : N) : N :=
  if backlog =? 0 then 0
  else N.min (N.max 1 (f64_ceil_usize (f64_sqrt (f64_of_N backlog)))) backlog.

(** [clamp(1, backlog)] above is [max] then [min] since [1 <= backlog]. *)
Definition opportunistic_embed_sweep (e : Embedder) : Sql N :=
  backlog ← attempt unembedded_count;
  match backlog with
  | Err _ => mret 0
  | Ok backlog =>
      let batch := opportunistic_embed_batch_size backlog in
      if batch =? 0 then mret 0
      else
        rows ← attempt (unembedded_batch batch);
        match rows with
        | Err _ => mret 0
        | Ok rows =>
            fold_sql (λ done_ (row : Z * str * str),
              match embed_one e row.2 with
              | Err _ => mret done_
              | Ok vector =>
                  stored ← attempt (store_embedding row.1.1 (model_name e) vector);
                  mret (if is_ok stored then done_ + 1 else done_)
              end) 0 rows
        end
  end.

Definition backfill_embeddings (project : str) (e : Embedder) : Sql N :=
  all ← list_by_project project 100000;
  fold_sql (λ embedded rec,
    already ← attempt (query (λ d, bool_decide (is_Some (embeddings d !! m_id rec))));
    if match already with Ok b => b | Err _ => false end then mret embedded
    else match embed_one e (m_body rec) with
         | Err _ => mret embedded
         | Ok vec => store_embedding (m_id rec) (model_name e) vec ≫= λ _, mret (embedded + 1)
         end) 0 all.

(** Rows whose embedding is missing or of another model. *)
Definition stale_embedding (target_model : str) (project : option str) (d : Db) : list (Z * Row) :=
  rows_where (λ ir,
    match project with Some p => in_project p ir | None => true end &&
    match embeddings d !! ir.1 with
    | Some e => negb (str_eqb e.1 target_model)
    | None => true
    end) d.

Definition reembed_batch (target_model : str) (project : option str) (limit : N) :
    Sql (list (Z * str * str)) :=
  query (λ d, take (N.to_nat limit) (map (λ ir, (ir.1, r_project ir.2, r_body ir.2))
    (stale_embedding target_model project d))).

Definition reembed_pending_count (target_model : str) (project : option str) : Sql N :=
  query (λ d, N.of_nat (length (stale_embedding target_model project d))).
End Operations.

(** ** The store as a transition system

    One step is one operation, under any pattern of failing statements.  The other
    connections that may commit during a forwarded delivery are only assumed to
    keep the database's integrity. *)

Inductive StoreOp :=
| OpSave (self : MemoryStore) (now : Result N) (project kind body : str) (scope : MemoryScope)
| OpSaveEmbedded (self : MemoryStore) (now : Result N) (project kind body : str) (e : Embedder)
| OpSetMetadata (id : Z) (metadata : Metadata)
| OpTagRow (id : Z) (session_id sha : option str)
| OpReattribute (id : Z) (source_kind : str) (project : option str)
    (p : option InvocationProvenance)
| OpReassign (from to : str)
| OpProvenance (v : InvocationProvenance)
| OpIngest (self : MemoryStore) (now : Result N) (rivals : Db → Db) (e : ForwardedEvent)
| OpSetBody (id : Z) (body : str)
| OpCompress (id : Z) (compressed : str)
| OpDelete (id : Z)
| OpDeleteRow (id : Z)
| OpDeleteRows (ids : list Z)
| OpAddEdge (src dst : Z) (relation : str)
| OpDeleteEdge (src dst : Z) (relation : str)
| OpLinkBipartite (project : str) (extracted : list (Z * list str))
| OpSetBlock (self : MemoryStore) (now : Result N) (project name body : str)
| OpArchive (self : MemoryStore) (now : Result N) (project : str) (keep_recent : N)
| OpCompressProject (self : MemoryStore) (now : Result N) (summarise : str → Result str)
    (project : str) (keep_recent : N)
| OpExtract (self : MemoryStore) (now : Result N) (extract_atomic : str → Result (list str))
    (project kind body : str)
| OpExtractUnique (self : MemoryStore) (now : Result N)
    (extract_atomic : str → Result (list str)) (project kind body : str)
| OpStoreEmbedding (id : Z) (model : str) (vector : list N)
| OpReplaceEmbedding (id : Z) (model : str) (vector : list N) (expected : option N)
| OpSweep (e : Embedder)
| OpBackfill (project : str) (e : Embedder).

Section Transitions.
Context `{Json}.
Variable body_sha : str → str.

Definition discard {A} (m : Sql A) : Sql () := m ≫= λ _, mret ().

Definition run_op (op : StoreOp) : Sql () :=
  match op with
  | OpSave self now p k b s => discard (save_scoped self now p k b s)
  | OpSaveEmbedded self now p k b e => discard (save_embedded self now p k b e)
  | OpSetMetadata id m => set_metadata id m
  | OpTagRow id s h => tag_row id s h
  | OpReattribute id k p v => reattribute_with_provenance id k p v
  | OpReassign a b => discard (reassign_project a b)
  | OpProvenance v => upsert_invocation_provenance v
  | OpIngest self now rivals e => discard (ingest_forwarded body_sha self now rivals e)
  | OpSetBody id b => set_body id b
  | OpCompress id b => compress_in_place id b
  | OpDelete id => delete id
  | OpDeleteRow id => discard (delete_row id)
  | OpDeleteRows ids => discard (delete_rows ids)
  | OpAddEdge s t r => discard (add_edge s t r)
  | OpDeleteEdge s t r => delete_edge s t r
  | OpLinkBipartite p x => discard (link_extracted_bipartite p x)
  | OpSetBlock self now p n b => discard (set_block self now p n b)
  | OpArchive self now p k => discard (archive_overflow_no_llm self now p k)
  | OpCompressProject self now f p k => discard (compress_project self now f p k)
  | OpExtract self now f p k b => discard (extract_and_save self now f p k b)
  | OpExtractUnique self now f p k b => discard (extract_and_save_unique self now f p k b)
  | OpStoreEmbedding id m v => store_embedding id m v
  | OpReplaceEmbedding id m v None => store_embedding_replace id m v
  | OpReplaceEmbedding id m v (Some n) => store_embedding_replace_checked id m v n
  | OpSweep e => discard (opportunistic_embed_sweep e)
  | OpBackfill p e => discard (backfill_embeddings p e)
  end.

(** What is assumed of the environment in an operation. *)
Definition op_rivals (op : StoreOp) : Db → Db :=
  match op with OpIngest _ _ rivals _ => rivals | _ => id end.

Inductive reachable : Db → Prop :=
| reachable_fresh : reachable fresh_db
| reachable_step d op fs :
    reachable d → (∀ d, store_ok d → store_ok (op_rivals op d)) →
    reachable (db (run_op op (mkWorld d fs)).2).
End Transitions.

(** ** Every operation keeps the integrity of the store *)

(** An invariant kept by each kind of statement the operations execute is kept by
    the operations; the two uses below differ only in the invariant. *)
Class EmbeddingInvariant (I : Db → Prop) : Prop := {
  ei_ok d : I d → store_ok d;
  ei_embeddings i v d : I d → store_ok (with_embeddings (insert i v) d) →
    I (with_embeddings (insert i v) d);
  ei_models f d : I d → store_ok (with_models f d) → I (with_models f d);
}.

Class StatementInvariant (I : Db → Prop) : Prop := {
  si_embedding_invariant :: EmbeddingInvariant I;
  si_insert_memory r : preserves I (insert_memory r);
  si_alter f i d : I d → I (with_memories (alter f i) d);
  si_fmap f d : I d → I (with_memories (fmap f) d);
  si_fts f d : I d → I (with_fts f d);
  si_delete p d : I d → I (delete_memories p d);
  si_edge_insert s t r : preserves I (insert_edge_or_ignore s t r);
  si_edges f d : I d → store_ok (with_edges f d) → I (with_edges f d);
  si_entities f d : I d → store_ok (with_entities f d) → I (with_entities f d);
  si_links f d : I d → I (with_memory_entities f d);
  si_provenances f d : I d → I (with_provenances f d);
  si_receipt k i t : preserves I (insert_receipt k i t);
}.

(** Registering an unknown model is harmless: it has no vectors yet. *)
Lemma register_model_ok model n d : store_ok d → embedding_models d !! model = None →
  store_ok (with_models (<[model := n]>) d).
Proof.
  intros [S1 S2 S3 S4 S5 S6 S7] Hm. split; cbn; try done.
  intros id m blob He. destruct (S6 id m blob He) as (k & Hk & ?).
  exists k. rewrite lookup_insert_ne by congruence. done.
Qed.

Lemma entity_id_None p n d : entity_id p n d = None → ∀ i, entities d !! i ≠ Some (p, n).
Proof.
  unfold entity_id. destruct (List.find _ _) eqn:E; [done|]. intros _ i Hi.
  eapply List.find_none in E; [|by apply list_elem_of_In, elem_of_map_to_list, Hi].
  by rewrite bool_decide_eq_false in E.
Qed.

Lemma next_entity_id_fresh d : entities d !! next_entity_id d = None.
Proof.
  apply eq_None_not_Some. intros [v Hv%elem_of_map_to_list%list_elem_of_In].
  assert (Hle : ∀ l x, x ∈ l → (x ≤ foldr Z.max 0 l)%Z).
  { intros l x. induction l as [|y l IH]; [set_solver|]. cbn.
    intros [->|?%IH]%elem_of_cons; lia. }
  apply (in_map fst), list_elem_of_In, Hle in Hv. cbn [fst] in Hv.
  unfold next_entity_id in Hv. lia.
Qed.

Lemma insert_entity_ok p n d : store_ok d → entity_id p n d = None →
  store_ok (with_entities (<[next_entity_id d := (p, n)]>) d).
Proof.
  intros [S1 S2 S3 S4 S5 S6 S7] Hn. pose proof (entity_id_None _ _ _ Hn) as Hno.
  split; cbn; try done. intros i j e. rewrite !lookup_insert_Some.
  intros [[<- <-]|[Hi He]] [[<- ?]|[Hj He']]; [done|naive_solver..|by eapply S7].
Qed.

Lemma delete_edge_ok e d : store_ok d → store_ok (with_edges (λ s, s ∖ {[e]}) d).
Proof. intros [S1 S2 S3 S4 S5 S6 S7]. split; cbn; try done. set_solver. Qed.

Section EmbeddingIntegrity.
Context (I : Db → Prop) `{!EmbeddingInvariant I}.

(** After the dimension check succeeds the model is registered with the length of
    the vector, which is positive. *)
Lemma ensure_dimension_spec model n :
  triple I (ensure_embedding_model_dimension model n)
    (λ _ d, I d ∧ n ≠ 0 ∧ embedding_models d !! model = Some (Z.of_N n)) I.
Proof using All.
  assert (Hcheck : ∀ r, triple (λ d, I d ∧ embedding_models d !! model = Some r)
    (lift (check_registered model n r))
    (λ _ d, I d ∧ embedding_models d !! model = Some (Z.of_N n)) I).
  { intros r. apply triple_lift. intros d [HI Hr]. unfold check_registered.
    destruct (r <? 0)%Z; [done|]. destruct (Z.eqb_spec r (Z.of_N n)) as [->|]; done. }
  unfold ensure_embedding_model_dimension.
  destruct (N.eqb_spec n 0) as [|Hn]; [by apply triple_lift|].
  apply (triple_weaken I I _ _
    (λ _ d, I d ∧ embedding_models d !! model = Some (Z.of_N n)) I I);
    [|done|by intros a d []|done].
  eapply triple_bind with (R := λ r d, I d ∧ embedding_models d !! model = r);
    [by apply triple_query|].
  intros [r|]; [by apply Hcheck|].
  eapply triple_bind with (R := λ _ d, I d ∧ embedding_models d !! model = None).
  { apply triple_stmt; [by intros d []|]. intros d Hd.
    destruct (dimension_loop _ _ _); [done|apply Hd]. }
  intros existing.
  eapply triple_bind with (R := λ _ d, I d ∧ embedding_models d !! model = None).
  { destruct existing as [e|]; [destruct (negb (e =? n))|];
      [apply triple_lift; by intros d []|by apply triple_ret..]. }
  intros _. eapply triple_bind with (R := λ _, I).
  { apply triple_update; [by intros d []|]. intros d [HI Hm].
    apply ei_models; [done|]. unfold with_models. rewrite Hm.
    apply (register_model_ok model _ d); [by apply ei_ok|done]. }
  intros _. eapply triple_bind with (R := λ r d, I d ∧ embedding_models d !! model = Some r);
    [|by apply Hcheck].
  apply triple_stmt; [done|]. intros d HI. by destruct (embedding_models d !! model) eqn:E.
Qed.

(** Inserting a vector of the registered length, whichever way conflicts resolve. *)
Lemma put_embedding_spec id model vector (keep : Db → bool) :
  triple (λ d, I d ∧ vector_len vector ≠ 0 ∧
               embedding_models d !! model = Some (Z.of_N (vector_len vector)))
    (stmt (λ d,
      if keep d then (Ok (), d)
      else if has_memory id d
      then (Ok (), with_embeddings (insert id (model, vector_to_blob vector)) d)
      else (Err (constraint_error $"FOREIGN KEY"), d)))
    (λ _, I) I.
Proof using All.
  apply triple_stmt; [by intros d []|]. intros d (HI & Hn & Hm).
  destruct (keep d); [done|]. unfold has_memory.
  destruct (bool_decide_reflect (is_Some (memories d !! id))) as [Hid|]; [|done].
  apply ei_embeddings; [done|]. apply insert_embedding_ok; [by apply ei_ok| |done].
  exists (length vector). unfold vector_len in *. rewrite vector_to_blob_length.
  split_and!; [|lia|done]. by rewrite Hm, nat_N_Z.
Qed.

Lemma si_store_embedding id model v : preserves I (store_embedding id model v).
Proof using All.
  apply triple_preserves. eapply triple_bind; [apply ensure_dimension_spec|].
  intros u. apply (put_embedding_spec id model v (λ d, bool_decide (is_Some (embeddings d !! id)))).
Qed.

Lemma si_replace_embedding id model v : preserves I (store_embedding_replace id model v).
Proof using All.
  apply triple_preserves. eapply triple_bind; [apply ensure_dimension_spec|].
  intros u. apply (put_embedding_spec id model v (λ _, false)).
Qed.

End EmbeddingIntegrity.

Section Integrity.
Context `{Json} (I : Db → Prop) `{!StatementInvariant I}.

Lemma si_update_memory id f : preserves I (update_memory id f).
Proof using StatementInvariant0. apply preserves_update. intros. by apply si_alter. Qed.
Lemma si_fts_insert id b : preserves I (fts_insert id b).
Proof using StatementInvariant0. apply preserves_update. intros. by apply si_fts. Qed.
Lemma si_fts_delete id b : preserves I (fts_delete id b).
Proof using StatementInvariant0. apply preserves_update. intros. by apply si_fts. Qed.
Lemma si_delete_where p : preserves I (update (delete_memories p)).
Proof using StatementInvariant0. apply preserves_update. intros. by apply si_delete. Qed.
Lemma si_row_column {A} (c : Row → A) id : preserves I (row_column c id).
Proof using StatementInvariant0. by apply preserves_stmt. Qed.
Lemma si_list p l : preserves I (list_by_project p l).
Proof using StatementInvariant0. apply preserves_query. Qed.

#[local] Hint Resolve si_insert_memory si_edge_insert si_receipt si_update_memory si_fts_insert
  si_fts_delete si_delete_where si_row_column si_list : sql.

Lemma si_store id m v : preserves I (store_embedding id m v).
Proof using StatementInvariant0. by apply si_store_embedding, _. Qed.
Lemma si_replace id m v : preserves I (store_embedding_replace id m v).
Proof using StatementInvariant0. by apply si_replace_embedding, _. Qed.

#[local] Hint Resolve si_store si_replace : sql.

Lemma si_save_scoped self now p k b s : preserves I (save_scoped self now p k b s).
Proof using StatementInvariant0. unfold save_scoped. preserve. Qed.

Lemma si_save self now p k b : preserves I (save self now p k b).
Proof using StatementInvariant0. apply si_save_scoped. Qed.

Lemma si_set_metadata id m : preserves I (set_metadata id m).
Proof using StatementInvariant0. apply si_update_memory. Qed.

Lemma si_delete_op id : preserves I (delete id).
Proof using StatementInvariant0.
  apply preserves_bind; [|auto with sql]. apply preserves_update. intros d HI.
  destruct (memories d !! id); [by apply si_fts|done].
Qed.

Lemma si_set_body id b : preserves I (set_body id b).
Proof using StatementInvariant0. unfold set_body. preserve. Qed.

#[local] Hint Resolve si_save_scoped si_save si_set_metadata si_delete_op si_set_body : sql.

Lemma si_upsert_entity p n : preserves I (upsert_entity p n).
Proof using StatementInvariant0.
  apply preserves_bind; [|intros; by apply preserves_stmt]. apply preserves_update.
  intros d HI. destruct (entity_id p n d) eqn:E; [done|].
  apply si_entities; [done|]. apply insert_entity_ok; [by apply ei_ok|done].
Qed.

Lemma si_link m e : preserves I (link_memory_entity m e).
Proof using StatementInvariant0. apply preserves_stmt. intros. by apply si_links. Qed.

#[local] Hint Resolve si_upsert_entity si_link : sql.

Context (body_sha : str → str).

Lemma si_ingest self now rivals e : (∀ d, I d → I (rivals d)) →
  preserves I (ingest_forwarded body_sha self now rivals e).
Proof using StatementInvariant0.
  intros Hr. assert (Hr' : preserves I (rival_commits rivals)) by (intros w HI; by apply Hr).
  assert (Hb : preserves I (update id)) by by apply preserves_update.
  unfold ingest_forwarded, forwarded_receipt_memory_id, insert_forwarded_rows. preserve.
Qed.

(** Every operation keeps [I], whatever fails. *)
Lemma si_run_op op : (∀ d, I d → I (op_rivals op d)) → preserves I (run_op body_sha op).
Proof using StatementInvariant0.
  intros Hr. destruct op; cbn [run_op]; try (by auto with sql);
    try (apply preserves_bind; [|intros; apply preserves_ret]);
    try (by auto with sql); try (by apply si_ingest).
  - unfold save_embedded. preserve.
  - apply si_update_memory.
  - apply si_update_memory.
  - apply preserves_stmt. intros. by apply si_fmap.
  - apply preserves_update. intros. by apply si_provenances.
  - unfold compress_in_place. preserve.
  - unfold delete_row. preserve.
  - unfold delete_rows. preserve.
  - apply preserves_update. intros. apply si_edges; [done|]. by apply delete_edge_ok, ei_ok.
  - unfold link_extracted_bipartite. preserve.
  - unfold set_block. preserve.
  - unfold archive_overflow_no_llm, save_with_metadata. preserve.
  - unfold compress_project. preserve.
  - unfold extract_and_save. preserve.
  - unfold extract_and_save_unique. preserve.
  - destruct expected; [|auto with sql]. unfold store_embedding_replace_checked. preserve.
  - unfold opportunistic_embed_sweep, unembedded_count, unembedded_batch. preserve.
  - unfold backfill_embeddings. preserve.
Qed.
End Integrity.

#[export] Instance store_ok_statements : StatementInvariant store_ok.
Proof.
  split; [by split|try (by auto using insert_memory_ok, with_memories_alter_ok, fmap_rows_ok, with_fts_ok,
    delete_memories_ok, insert_edge_ok, insert_receipt_ok)..]; intros f d []; by split.
Qed.

(** ** A concrete codec

    An instance of [Json] with its laws, on which the theorems can be evaluated:
    strings and objects are written with their lengths in front. *)
Module TextJson.

Definition put (s : str) : str := N.of_nat (length s) :: s.

Definition get (raw : str) : option (str * str) :=
  match raw with
  | [] => None
  | n :: rest =>
      if Nat.leb (N.to_nat n) (length rest)
      then Some (take (N.to_nat n) rest, drop (N.to_nat n) rest) else None
  end.

Fixpoint get_pairs (fuel : nat) (raw : str) : option (list (str * str)) :=
  match fuel, raw with
  | _, [] => Some []
  | O, _ => None
  | S fuel, _ =>
      '(k, raw1) ← get raw;
      '(v, raw2) ← get raw1;
      rest ← get_pairs fuel raw2;
      Some ((k, v) :: rest)
  end.

Definition put_pairs (l : list (str * str)) : str :=
  concat (map (λ kv, put kv.1 ++ put kv.2) l).

Definition encode (m : Metadata) : str :=
  if decide (m = ∅) then $"{}" else 0 :: put_pairs (map_to_list m).

Definition decode (raw : str) : str + Metadata :=
  if str_eqb raw $"{}" then inr ∅
  else match raw with
       | 0 :: rest =>
           match get_pairs (length rest) rest with
           | Some l => inr (list_to_map l)
           | None => inl $"bad object"
           end
       | _ => inl $"bad object"
       end.

#[export] Instance json : Json := {
  json_encode := encode;
  json_decode := decode;
  json_extract raw k := match decode raw with inr m => m !! k | inl _ => None end;
  json_patch raw p :=
    match decode raw, decode p with
    | inr m, inr q => encode (q ∪ m)
    | _, _ => raw
    end;
}.

Lemma get_put s rest : get (put s ++ rest) = Some (s, rest).
Proof.
  unfold get, put. cbn [app]. rewrite Nat2N.id, length_app.
  destruct (Nat.leb_spec (length s) (length s + length rest)); [|lia].
  by rewrite take_app_length, drop_app_length.
Qed.

Lemma get_pairs_put l fuel : (length l ≤ fuel)%nat → get_pairs fuel (put_pairs l) = Some l.
Proof.
  revert fuel. induction l as [|[k v] l IH]; intros fuel Hf; [by destruct fuel|].
  destruct fuel as [|fuel]; [cbn in Hf; lia|].
  change (put_pairs ((k, v) :: l)) with ((put k ++ put v) ++ put_pairs l).
  rewrite <-app_assoc. cbn [get_pairs].
  destruct (put k ++ put v ++ put_pairs l) as [|c r] eqn:E; [done|].
  rewrite <-E, get_put. cbn -[get put]. rewrite get_put. cbn. rewrite IH by (cbn in Hf; lia). done.
Qed.

Lemma put_pairs_length l : (length l ≤ length (put_pairs l))%nat.
Proof.
  induction l as [|[k v] l IH]; [done|].
  change (put_pairs ((k, v) :: l)) with ((put k ++ put v) ++ put_pairs l).
  rewrite !length_app. cbn. lia.
Qed.

Lemma decode_encode m : decode (encode m) = inr m.
Proof.
  unfold encode. destruct (decide (m = ∅)) as [->|Hm]; [done|].
  unfold decode. destruct (str_eqb _ _) eqn:E; [by apply str_eqb_eq in E|].
  rewrite get_pairs_put by apply put_pairs_length. by rewrite list_to_map_to_list.
Qed.

#[export] Instance json_laws : JsonLaws json.
Proof.
  split; cbn.
  - apply decode_encode.
  - done.
  - done.
  - intros m k. by rewrite decode_encode.
  - intros raw m p Hr. by rewrite Hr, decode_encode, decode_encode.
Qed.
End TextJson.
