(* ===== verification/MemSafety.v ===== *)
(** * The memory store: integrity, exactly-once delivery, and the text index

    Properties of the operations of [MemStore].  The first group holds whatever
    statements fail; the second says what the operations do to the rows and to the
    text index when nothing fails from outside. *)
From stdpp Require Import gmap sets.
From S2P Require Import Prelude Str Error F64 F32 MemDb MemStore.

(** ** Integrity in every reachable state *)

Section Safety.
Context `{Json} (body_sha : str → str).

(** C25: In every state the store reaches from an empty file, through any operations
    and any pattern of failing statements, row ids were handed out by the sequence,
    every embedding, edge and delivery receipt refers to a row that exists, every
    stored vector has the length registered for its model, and no entity is stored
    twice. *)
Theorem reachable_store_ok d : reachable body_sha d → store_ok d.
Proof using.
  induction 1 as [|d op fs _ IH Hr]; [apply fresh_db_ok|].
  by apply (si_run_op store_ok body_sha).
Qed.

(** C40: A model's vectors never mix lengths: reading the dimension of a model from
    its stored vectors succeeds in every reachable state and agrees with the
    registry. *)
Theorem reachable_dimension d model : reachable body_sha d →
  dimension_loop model None (model_lengths model d) =
    Ok (if decide (model_lengths model d = []) then None
        else Z.to_N <$> embedding_models d !! model).
Proof using.
  intros Hd. assert (Hok : store_ok d).
  { induction Hd as [|d op fs _ IH Hr]; [apply fresh_db_ok|].
    by apply (si_run_op store_ok body_sha). }
  assert (Hlen : ∀ len, len ∈ model_lengths model d →
    ∃ n, embedding_models d !! model = Some (Z.of_nat n) ∧ len = 4 * N.of_nat n).
  { intros len. unfold model_lengths. rewrite elem_of_remove_dups.
    intros (ie & -> & [Hm Hin]%elem_of_filter_bool)%list_elem_of_fmap.
    destruct ie as [i [m blob]]. apply elem_of_map_to_list in Hin.
    apply str_eqb_eq in Hm. cbn in Hm. subst m.
    destruct (ok_dimensions d Hok i model blob Hin) as (n & Hn & _ & Hl).
    exists n. split; [done|]. cbn. rewrite Hl. lia. }
  assert (Hnd : NoDup (model_lengths model d)) by apply NoDup_remove_dups.
  destruct (model_lengths model d) as [|len [|len' rest]] eqn:E; [done|..].
  - destruct (Hlen len) as (n & Hn & ->); [set_solver|]. cbn [dimension_loop].
    rewrite (N.mul_comm 4), N.Div0.mod_mul, N.div_mul, Hn by done. cbn.
    do 2 f_equal. lia.
  - destruct (Hlen len) as (n & Hn & ->); [set_solver|].
    destruct (Hlen len') as (n' & Hn' & ->); [set_solver|].
    assert (n = n') as -> by (rewrite Hn in Hn'; injection Hn'; lia).
    apply NoDup_cons in Hnd as [Hnd _]. set_solver.
Qed.

(** ** Forwarded deliveries *)

(** What one delivery adds: the row, its index entry and its receipt. *)
Definition delivered (e : ForwardedEvent) (project : str) (at_ : Z) (d : Db) : Db :=
  let id := (sequence d + 1)%Z in
  let r := mkRow project (ev_kind e) (ev_body e) at_ $"project"
             (json_encode (forwarded_metadata e)) (ev_session_id e)
             (Some (body_sha (ev_body e))) None in
  mkDb (<[id := r]> (memories d)) id (fts_add id (ev_body e) (fts d)) (embeddings d)
    (embedding_models d) (edges d) (entities d) (memory_entities d)
    (invocation_provenances d) (<[receipt_key e := (id, at_)]> (forwarded_event_receipts d)).

(** The event can be stored: no receipt, and a row id left. *)
Definition fresh_for (e : ForwardedEvent) (d : Db) : Prop :=
  forwarded_event_receipts d !! receipt_key e = None ∧ (sequence d < i64_max)%Z.

Lemma delivered_ok e project at_ d : store_ok d → fresh_for e d →
  store_ok (delivered e project at_ d).
Proof using.
  intros Hok [Hk Hmax]. pose proof (ok_sequence d Hok).
  pose proof (insert_memory_ok (mkRow project (ev_kind e) (ev_body e) at_ $"project"
    (json_encode (forwarded_metadata e)) (ev_session_id e) (Some (body_sha (ev_body e))) None)
    (mkWorld d []) Hok) as Hd1.
  unfold insert_memory, stmt in Hd1. cbn in Hd1.
  destruct (Z.leb_spec i64_max (sequence d)); [lia|]. cbn in Hd1.
  eapply (with_fts_ok (fts_add (sequence d + 1)%Z (ev_body e))) in Hd1.
  pose proof (insert_receipt_ok (receipt_key e) (sequence d + 1)%Z at_ (mkWorld _ []) Hd1) as Hd2.
  unfold insert_receipt, stmt in Hd2. cbn in Hd2. rewrite Hk in Hd2. unfold has_memory in Hd2. cbn in Hd2.
  rewrite lookup_insert_eq, bool_decide_eq_true_2 in Hd2 by eauto. exact Hd2.
Qed.

Lemma insert_forwarded_spec e project at_ d0 :
  triple (eq d0)
    (transaction (insert_forwarded_rows e project (json_encode (forwarded_metadata e))
       (body_sha (ev_body e)) at_))
    (λ id d, id = (sequence d0 + 1)%Z ∧ fresh_for e d0 ∧ d = delivered e project at_ d0)
    (eq d0).
Proof using.
  apply triple_transaction. unfold insert_forwarded_rows, insert_memory, fts_insert, insert_receipt.
  set (r := mkRow _ _ _ _ _ _ _ _ _).
  set (id := (sequence d0 + 1)%Z).
  set (d1 := mkDb (<[id := r]> (memories d0)) id (fts d0) (embeddings d0)
    (embedding_models d0) (edges d0) (entities d0) (memory_entities d0)
    (invocation_provenances d0) (forwarded_event_receipts d0)).
  eapply triple_bind with (R := λ i d, i = id ∧ (sequence d0 < i64_max)%Z ∧ d = d1).
  { apply triple_stmt; [done|]. intros d <-. by destruct (Z.leb_spec i64_max (sequence d0)). }
  intros i. eapply triple_bind with
    (R := λ _ d, i = id ∧ (sequence d0 < i64_max)%Z ∧ d = with_fts (fts_add id (ev_body e)) d1).
  { apply triple_update; [done|]. by intros d (-> & ? & ->). }
  intros u. eapply triple_bind with (R := λ _ d, i = id ∧ fresh_for e d0 ∧
    d = delivered e project at_ d0).
  { apply triple_stmt; [done|]. intros d (-> & ? & ->). cbn. unfold fresh_for.
    destruct (forwarded_event_receipts d0 !! receipt_key e) eqn:E; [done|].
    destruct (has_memory _ _); done. }
  intros u'. by apply triple_ret.
Qed.

(** How a delivery ends; stated as a property below. *)
Lemma ingest_spec self now rivals e w :
  match ingest_forwarded body_sha self now rivals e w with
  | (Ok o, w') =>
      if inserted o then
        ∃ secs, now = Ok secs ∧ memory_id o = (sequence (db w) + 1)%Z ∧
          fresh_for e (db w) ∧
          db w' = delivered e (default (source_project e) (project_pin self))
                    (i64_of_u64 secs) (db w)
      else (db w' = db w ∨ db w' = rivals (db w)) ∧
        ∃ at_, forwarded_event_receipts (db w') !! receipt_key e = Some (memory_id o, at_)
  | (Err _, w') => db w' = db w ∨ db w' = rivals (db w)
  end.
Proof using.
  set (d0 := db w). set (project := default (source_project e) (project_pin self)).
  cut (triple (eq d0) (ingest_forwarded body_sha self now rivals e)
    (λ o d, if inserted o then
        ∃ secs, now = Ok secs ∧ memory_id o = (sequence d0 + 1)%Z ∧
          fresh_for e d0 ∧
          d = delivered e project (i64_of_u64 secs) d0
      else (d = d0 ∨ d = rivals d0) ∧
        ∃ at_, forwarded_event_receipts d !! receipt_key e = Some (memory_id o, at_))
    (λ d, d = d0 ∨ d = rivals d0)); [intros T; by apply (T w)|].
  assert (Hgate : ∀ P : Db → Prop, (∀ d, P d → d = d0 ∨ d = rivals d0) →
    triple P (forwarded_receipt_memory_id e)
      (λ g d, P d ∧ ∀ i, g = Some i → ∃ at_, forwarded_event_receipts d !! receipt_key e = Some (i, at_))
      (λ d, d = d0 ∨ d = rivals d0)).
  { intros P HP. apply triple_query; [done|]. intros d Hd. split; [done|].
    intros i ([i' at_] & Hk & ->)%fmap_Some. by exists at_. }
  unfold ingest_forwarded.
  destruct (is_empty (event_id e) || is_empty (source_guest e) || is_empty (source_project e));
    [apply triple_lift; by left|].
  eapply triple_bind with (R := λ _, eq d0); [apply triple_update; [by left|done]|].
  intros u. eapply triple_bind; [apply Hgate; by left|].
  intros [i|].
  { apply triple_ret. intros d [<- Hi]. cbn. eauto. }
  eapply triple_bind with (R := λ secs d, d0 = d ∧ now = Ok secs).
  { apply triple_lift. intros d [<- _]. destruct now; [done|by left]. }
  intros secs w' [Hw' Hnow]. revert w' Hw'.
  change (triple (eq d0) (outcome ← attempt (transaction (insert_forwarded_rows e project
      (json_encode (forwarded_metadata e)) (body_sha (ev_body e)) (i64_of_u64 secs)));
    match outcome with
    | Ok id => mret (mkOutcome id true)
    | Err error => rival_commits rivals ≫= λ _, winner ← forwarded_receipt_memory_id e;
        match winner with Some id => mret (mkOutcome id false) | None => fail error end
    end) (λ o d, if inserted o then
        ∃ secs, now = Ok secs ∧ memory_id o = (sequence d0 + 1)%Z ∧
          fresh_for e d0 ∧
          d = delivered e project (i64_of_u64 secs) d0
      else (d = d0 ∨ d = rivals d0) ∧
        ∃ at_, forwarded_event_receipts d !! receipt_key e = Some (memory_id o, at_))
    (λ d, d = d0 ∨ d = rivals d0)).
  eapply triple_bind.
  { eapply triple_weaken; [apply triple_attempt, insert_forwarded_spec|done|done|done]. }
  intros [id|error].
  { apply triple_ret. intros d (Hid & Hk & ->). cbn. eauto 6. }
  eapply triple_bind with (R := λ _ d, d = rivals d0).
  { intros w' Hw'. cbn in *. by rewrite <-Hw'. }
  intros u'. eapply triple_bind; [apply Hgate; by right|].
  intros [i|]; [apply triple_ret|apply triple_lift; intros d [-> _]; by right].
  intros d [-> Hi]. cbn. eauto.
Qed.

(** *** Redelivery *)

(** The delivery [key] is settled as [id]: its receipt stands, or the row it made is
    gone for good. *)
Definition settled (key : ReceiptKey) (id : Z) (d : Db) : Prop :=
  store_ok d ∧
  ((∃ at_, forwarded_event_receipts d !! key = Some (id, at_)) ∨
   (memories d !! id = None ∧ (0 < id ≤ sequence d)%Z)).

#[export] Instance settled_statements key id : StatementInvariant (settled key id).
Proof using.
  split.
  - split; [by intros d []|by intros i v d [_ Hs] Hok; split|by intros f d [_ Hs] Hok; split].
  - intros r. apply preserves_stmt. intros d [Hok Hs].
    pose proof (insert_memory_ok r (mkWorld d [])) as Hi. unfold insert_memory, stmt in Hi.
    cbn in Hi. destruct (Z.leb_spec i64_max (sequence d)); [by split|].
    split; [by apply Hi|]. cbn. destruct Hs as [?|[Hn Hid]]; [by left|]. right.
    rewrite lookup_insert_ne by lia. split; [done|lia].
  - intros f i d [Hok Hs]. split; [by apply with_memories_alter_ok|]. cbn.
    destruct Hs as [?|[Hn Hid]]; [by left|]. right. split; [|done].
    destruct (decide (i = id)) as [->|]; [by rewrite lookup_alter_eq, Hn|].
    by rewrite lookup_alter_ne.
  - intros f d [Hok Hs]. split; [by apply fmap_rows_ok|]. cbn.
    destruct Hs as [?|[Hn Hid]]; [by left|]. right. by rewrite lookup_fmap, Hn.
  - intros f d [Hok Hs]. split; [by apply with_fts_ok|done].
  - intros p d [Hok Hs]. split; [by apply delete_memories_ok|]. cbn.
    destruct Hs as [[at_ Hk]|[Hn Hid]].
    + destruct (filter (λ ir : Z * Row, p ir.1 ir.2 = true) (memories d) !! id) as [r|] eqn:E.
      * right. apply lookup_sub in E as [Hr Hp]. cbn in Hp.
        split; [|by eapply ok_ids; eauto]. apply map_lookup_filter_None. right.
        intros r' Hr'. cbn. congruence.
      * left. exists at_. by apply lookup_sub.
    + right. split; [|done]. apply map_lookup_filter_None. by left.
  - intros s t r. apply preserves_stmt. intros d [Hok Hs].
    pose proof (insert_edge_ok s t r (mkWorld d [])) as Hi.
    unfold insert_edge_or_ignore, stmt in Hi. cbn in Hi.
    destruct (bool_decide _); [by split|]. destruct (_ && _); [|by split].
    split; [by apply Hi|done].
  - intros f d [_ Hs] Hok. by split.
  - intros f d [_ Hs] Hok. by split.
  - intros f d [[] Hs]. split; [by split|done].
  - intros f d [[] Hs]. split; [by split|done].
  - intros k i t. apply preserves_stmt. intros d [Hok Hs].
    pose proof (insert_receipt_ok k i t (mkWorld d [])) as Hi.
    unfold insert_receipt, stmt in Hi. cbn in Hi.
    destruct (forwarded_event_receipts d !! k) eqn:E; [by split|].
    destruct (has_memory i d); [|by split]. split; [by apply Hi|].
    destruct Hs as [[at_ Hk]|?]; [left|by right]. exists at_. cbn.
    rewrite lookup_insert_ne; [done|]. intros ->. congruence.
Qed.

(** States an operation may lead to, and their closure. *)
Inductive later (d : Db) : Db → Prop :=
| later_refl : later d d
| later_step d1 op fs : later d d1 →
    (∀ key id d, settled key id d → settled key id (op_rivals op d)) →
    later d (db (run_op body_sha op (mkWorld d1 fs)).2).

Lemma later_settled d d' key id : later d d' → settled key id d → settled key id d'.
Proof using.
  intros HL Hs. induction HL as [|d1 op fs _ IH Hr]; [done|].
  apply (si_run_op (settled key id) body_sha); [apply Hr|apply IH].
Qed.

(** C33: Forwarded deliveries take effect exactly once.  Once a delivery has answered
    with a row id, then whatever operations and failures follow, as long as that
    row still exists every redelivery of the same event from the same source, with
    any body, answers the same id, is not inserted, and changes nothing. *)
Theorem ingest_exactly_once self now rivals e d fs o w1 d2 self' now' rivals' e' :
  store_ok d → (∀ d, store_ok d → store_ok (rivals d)) →
  ingest_forwarded body_sha self now rivals e (mkWorld d fs) = (Ok o, w1) →
  later (db w1) d2 → is_Some (memories d2 !! memory_id o) →
  receipt_key e' = receipt_key e →
  ingest_forwarded body_sha self' now' rivals' e' (mkWorld d2 []) =
    (Ok (mkOutcome (memory_id o) false), mkWorld d2 []).
Proof using.
  intros Hok Hr Hin HL Hmem Hkey.
  assert (Hok1 : store_ok (db w1)).
  { pose proof (si_ingest store_ok body_sha self now rivals e Hr (mkWorld d fs) Hok) as Hp.
    by rewrite Hin in Hp. }
  assert (Hrec : ∃ at_, forwarded_event_receipts (db w1) !! receipt_key e = Some (memory_id o, at_)).
  { pose proof (ingest_spec self now rivals e (mkWorld d fs)) as Ha. rewrite Hin in Ha.
    destruct (inserted o); [|by destruct Ha].
    destruct Ha as (secs & _ & Hid & _ & ->). cbn. rewrite Hid, lookup_insert_eq. eauto. }
  assert (Hne : is_empty (event_id e) || is_empty (source_guest e) || is_empty (source_project e)
    = false).
  { unfold ingest_forwarded in Hin.
    by destruct (is_empty (event_id e) || is_empty (source_guest e) || is_empty (source_project e)). }
  destruct (later_settled _ _ (receipt_key e) (memory_id o) HL) as [_ [[at_ Hk]|[Hn _]]];
    [by split; [|left]| |by rewrite Hn in Hmem; destruct Hmem].
  injection Hkey as K1 K2 K3. unfold ingest_forwarded. rewrite K1, K2, K3, Hne.
  unfold forwarded_receipt_memory_id, mbind, Sql_bind, update, query, stmt. cbn.
  unfold receipt_key in *. rewrite K1, K2, K3, Hk. done.
Qed.

(** C27: A forwarded delivery is atomic, whatever statements fail: it adds the row, its
    index entry and its receipt together, under a fresh id and only when the event
    had no receipt; or it adds nothing and reports the row of the receipt it found,
    or an error. *)
Theorem ingest_atomic self now rivals e w :
  match ingest_forwarded body_sha self now rivals e w with
  | (Ok o, w') =>
      if inserted o then
        ∃ secs, now = Ok secs ∧ memory_id o = (sequence (db w) + 1)%Z ∧
          fresh_for e (db w) ∧
          db w' = delivered e (default (source_project e) (project_pin self))
                    (i64_of_u64 secs) (db w)
      else (db w' = db w ∨ db w' = rivals (db w)) ∧
        ∃ at_, forwarded_event_receipts (db w') !! receipt_key e = Some (memory_id o, at_)
  | (Err _, w') => db w' = db w ∨ db w' = rivals (db w)
  end.
Proof using. apply ingest_spec. Qed.
End Safety.

(** ** Rows and the text index *)

Section Index.
Context `{Json} (body_sha : str → str).

(** The index mirrors the rows of a well-formed store. *)
Definition indexed (d : Db) : Prop := store_ok d ∧ mirrored d.

Lemma indexed_fresh : indexed fresh_db.
Proof using. split; [apply fresh_db_ok|apply fresh_db_mirrored]. Qed.

Lemma sequence_fresh d : store_ok d → memories d !! (sequence d + 1)%Z = None.
Proof using.
  intros Hok. apply eq_None_not_Some. intros Hs%(ok_ids d Hok). lia.
Qed.

(** Inserting a row and indexing its body. *)
Lemma insert_indexed {A} r (k : Z → Sql A) Q :
  (∀ id, clean indexed (k id) Q indexed) →
  clean indexed (id ← insert_memory r; fts_insert id (r_body r) ≫= λ _, k id) Q indexed.
Proof using.
  intros Hk.
  eapply clean_bind with (R := λ id d, store_ok d ∧ ∃ d0, mirrored d0 ∧ memories d0 !! id = None ∧
    memories d = <[id := r]> (memories d0) ∧ fts d = fts d0).
  - apply clean_stmt. intros d [Hok Hm].
    pose proof (insert_memory_ok r (mkWorld d [])) as Hi. unfold insert_memory, stmt in Hi.
    cbn in Hi. destruct (Z.leb_spec i64_max (sequence d)); [by split|].
    split; [by apply Hi|]. exists d. split_and!; [done| |done|done]. by apply sequence_fresh.
  - intros id. eapply clean_bind; [|intros u; apply Hk].
    apply clean_update. intros d (Hok & d0 & Hm & Hn & Em & Ef). split; [by apply with_fts_ok|].
    eapply mirrored_insert; [exact Hm|exact Hn|exact Em|]. cbn. by rewrite Ef.
Qed.

(** Statements that leave bodies, rows and index alone. *)
Lemma indexed_frame d d' : indexed d → store_ok d' → memories d' = memories d →
  fts d' = fts d → indexed d'.
Proof using. intros [_ [Hd Hp]] Hok Em Ef. split; [done|]. split; by rewrite Ef, ?Em. Qed.

Lemma indexed_alter f id : (∀ r, r_body (f r) = r_body r) → cleanly indexed (update_memory id f).
Proof using.
  intros Hf. apply cleanly_update. intros d [Hok Hm].
  split; [by apply with_memories_alter_ok|]. by eapply mirrored_alter.
Qed.

Lemma indexed_framed_stmt {A} (f : Db → Result A * Db) :
  preserves store_ok (stmt f) →
  (∀ d, memories (f d).2 = memories d ∧ fts (f d).2 = fts d) → cleanly indexed (stmt f).
Proof using.
  intros Hp Hf. apply cleanly_stmt. intros d HI. destruct (Hf d).
  eapply indexed_frame; [done| |done|done].
  specialize (Hp (mkWorld d []) (proj1 HI)). unfold stmt in Hp. cbn in Hp. by destruct (f d).
Qed.

(** The two ways an operation takes a row out. *)
Lemma delete_indexed_row d id r : indexed d → memories d !! id = Some r →
  indexed (delete_memories (is_row id) (with_fts (fts_remove id (r_body r)) d)).
Proof using.
  intros [Hok Hm] Hr. split; [by apply delete_memories_ok, with_fts_ok|].
  eapply mirrored_delete; [done|exact Hr| |done].
  unfold delete_memories. cbn [memories with_fts]. apply map_eq. intros i.
  destruct (decide (i = id)) as [->|Hne].
  - rewrite lookup_delete_eq. apply map_lookup_filter_None. right. intros r' _. cbn.
    unfold is_row. by rewrite Z.eqb_refl.
  - rewrite lookup_delete_ne by done.
    destruct (memories d !! i) as [r'|] eqn:E.
    + apply lookup_sub. split; [done|]. cbn. unfold is_row. by apply Z.eqb_neq.
    + apply map_lookup_filter_None. by left.
Qed.

Lemma delete_missing_row d id : memories d !! id = None →
  memories (delete_memories (is_row id) d) = memories d.
Proof using.
  intros Hn. unfold delete_memories. cbn. apply map_filter_id. intros i r Hi. cbn.
  unfold is_row. apply Z.eqb_neq. intros ->. congruence.
Qed.

Lemma cleanly_delete id : cleanly indexed (delete id).
Proof using.
  unfold delete.
  eapply clean_bind with (R := λ _ d, store_ok d ∧ indexed (delete_memories (is_row id) d)).
  - apply clean_update. intros d HI. destruct (memories d !! id) as [r|] eqn:E.
    + split; [apply with_fts_ok, HI|]. by apply delete_indexed_row.
    + split; [apply HI|]. eapply indexed_frame; [exact HI| |by apply delete_missing_row|done].
      apply delete_memories_ok, HI.
  - intros u. apply clean_update. by intros d [].
Qed.

Lemma cleanly_delete_row id : cleanly indexed (delete_row id).
Proof using.
  unfold delete_row.
  eapply clean_bind with (R := λ b d, indexed d ∧ b = r_body <$> memories d !! id);
    [by apply clean_query|].
  intros [body|]; [|by apply clean_ret; intros d []].
  eapply clean_bind with (R := λ _ d, indexed (delete_memories (is_row id) d)).
  - apply clean_update. intros d [HI (r & Hr & ->)%eq_sym%fmap_Some]. by apply delete_indexed_row.
  - intros u. eapply clean_bind with (R := λ _, indexed); [by apply clean_update|].
    intros u'. by apply clean_ret.
Qed.

(** Replacing a body takes the old text out of the index and puts the new one in. *)
Lemma cleanly_set_body id b : cleanly indexed (set_body id b).
Proof using.
  unfold set_body.
  set (f := λ r, mkRow (r_project r) (r_kind r) b (r_created_at r) (r_scope r) (r_metadata r)
    (r_session_id r) (r_body_sha r) (r_body_full r)).
  eapply clean_bind with (R := λ old d, indexed d ∧ r_body <$> memories d !! id = Some old).
  { apply clean_stmt. intros d HI. by destruct (memories d !! id) eqn:E. }
  intros old. eapply clean_bind with (R := λ _ d, store_ok d ∧ ∃ d0 r, mirrored d0 ∧
    memories d0 !! id = Some r ∧ r_body r = old ∧
    memories d = <[id := f r]> (memories d0) ∧ fts d = fts d0).
  { apply clean_update. intros d [[Hok Hm] (r & Hr & ->)%fmap_Some].
    split; [by apply with_memories_alter_ok|]. exists d, r. split_and!; try done.
    cbn. by rewrite (alter_known _ _ _ _ Hr). }
  intros u. eapply clean_bind with (R := λ _ d, store_ok d ∧ ∃ d1 r, mirrored d1 ∧
    memories d1 !! id = None ∧ memories d = <[id := f r]> (memories d1) ∧ fts d = fts d1).
  { apply clean_update. intros d (Hok & d0 & r & Hm & Hr & <- & Em & Ef).
    split; [by apply with_fts_ok|].
    exists (with_memories (base.delete id) (with_fts (fts_remove id (r_body r)) d0)), r.
    split_and!.
    - eapply mirrored_delete; [exact Hm|exact Hr|done|done].
    - apply lookup_delete_eq.
    - cbn. by rewrite insert_delete_eq, Em.
    - cbn. by rewrite Ef. }
  intros u'. apply clean_update. intros d (Hok & d1 & r & Hm & Hn & Em & Ef).
  split; [by apply with_fts_ok|]. eapply mirrored_insert; [exact Hm|exact Hn|exact Em|].
  cbn. by rewrite Ef.
Qed.

#[export] Instance indexed_embeddings : EmbeddingInvariant indexed.
Proof using.
  split; [by intros d []|..].
  - intros i v d HI Hok. by eapply indexed_frame.
  - intros f d HI Hok. by eapply indexed_frame.
Qed.

(** No operation leaves answers of the environment behind. *)
Lemma quiet_stmt {A} (f : Db → Result A * Db) : cleanly (λ _, True) (stmt f).
Proof using. by apply cleanly_stmt. Qed.

Lemma cleanly_preserves {A} I (m : Sql A) : preserves I m → cleanly (λ _, True) m → cleanly I m.
Proof using.
  intros Hp Hq d HI. specialize (Hp (mkWorld d []) HI). specialize (Hq d Logic.I).
  destruct (m (mkWorld d [])) as [[a|e] w']; cbn in *; by destruct Hq.
Qed.

Lemma quiet_transaction {A} (m : Sql A) :
  cleanly (λ _, True) m → cleanly (λ _, True) (transaction m).
Proof using.
  intros Hm d _. unfold transaction.
  assert (Hc : cleanly (λ _, True) (a ← m; stmt (λ d, (Ok a, d)))).
  { apply cleanly_bind; [done|]. intros. apply quiet_stmt. }
  specialize (Hc d Logic.I).
  by destruct ((a ← m; stmt (λ d, (Ok a, d))) (mkWorld d [])) as [[a|e] w'].
Qed.

Lemma cleanly_store_embedding id m v : cleanly indexed (store_embedding id m v).
Proof using.
  apply cleanly_preserves; [by apply si_store_embedding, _|].
  unfold store_embedding, ensure_embedding_model_dimension, embedding_dimension_for_model,
    insert_embedding_or_ignore.
  repeat (intros; first [apply quiet_stmt | progress cleanly]).
Qed.

Lemma cleanly_replace_embedding id m v : cleanly indexed (store_embedding_replace id m v).
Proof using.
  apply cleanly_preserves; [by apply si_replace_embedding, _|].
  unfold store_embedding_replace, ensure_embedding_model_dimension, embedding_dimension_for_model,
    insert_embedding_or_replace.
  repeat (intros; first [apply quiet_stmt | progress cleanly]).
Qed.

#[local] Hint Resolve cleanly_store_embedding cleanly_replace_embedding cleanly_delete
  cleanly_delete_row cleanly_set_body : sql.

Lemma cleanly_save_scoped self now p k b s : cleanly indexed (save_scoped self now p k b s).
Proof using.
  unfold save_scoped. apply cleanly_bind; [auto with sql|]. intros secs.
  apply (insert_indexed (mkRow p k b (i64_of_u64 secs) (MemoryScope_as_str s) $"{}" None None None)).
  intros id. change (cleanly indexed (match embedder self with
    | Some e => vector ← lift (embed_one e b); store_embedding id (model_name e) vector ≫= λ _, mret id
    | None => mret id end)). cleanly.
Qed.

Lemma cleanly_save self now p k b : cleanly indexed (save self now p k b).
Proof using. apply cleanly_save_scoped. Qed.

Lemma cleanly_set_metadata id m : cleanly indexed (set_metadata id m).
Proof using. by apply indexed_alter. Qed.

Lemma cleanly_upsert_entity p n : cleanly indexed (upsert_entity p n).
Proof using.
  apply cleanly_bind; [|intros; by apply cleanly_stmt]. apply cleanly_update.
  intros d HI. destruct (entity_id p n d) eqn:E; [done|].
  eapply indexed_frame; [done| |done..]. apply insert_entity_ok; [apply HI|done].
Qed.

Lemma cleanly_link m e : cleanly indexed (link_memory_entity m e).
Proof using.
  apply indexed_framed_stmt; [|done]. apply preserves_stmt. intros d []. by split.
Qed.

#[local] Hint Resolve cleanly_save_scoped cleanly_save cleanly_set_metadata cleanly_upsert_entity
  cleanly_link : sql.

Lemma delivered_indexed e p t d : indexed d → fresh_for e d →
  indexed (delivered body_sha e p t d).
Proof using.
  intros [Hok Hm] Hf. split; [by apply delivered_ok|].
  eapply mirrored_insert; [exact Hm|by apply sequence_fresh| |]; done.
Qed.

(** The operations that maintain the text index themselves. *)
Definition keeps_index (op : StoreOp) : Prop :=
  match op with
  | OpSetBlock _ _ _ _ _ | OpDeleteRows _ => False
  | OpIngest _ _ rivals _ => ∀ d, indexed d → indexed (rivals d)
  | _ => True
  end.

(** A delivery keeps the index whatever fails. *)
Lemma ingest_indexed self now rivals e : (∀ d, indexed d → indexed (rivals d)) →
  preserves indexed (ingest_forwarded body_sha self now rivals e).
Proof using.
  intros Hr w HI. pose proof (ingest_spec body_sha self now rivals e w) as Ha.
  destruct (ingest_forwarded body_sha self now rivals e w) as [[o|err] w']; cbn.
  - destruct (inserted o).
    + destruct Ha as (secs & _ & _ & Hf & ->). by apply delivered_indexed.
    + destruct Ha as [[->| ->] _]; auto.
  - destruct Ha as [->| ->]; auto.
Qed.

Lemma cleanly_run_op op : keeps_index op → cleanly indexed (run_op body_sha op).
Proof using.
  intros Hk. destruct op; cbn [run_op keeps_index] in *; try done; unfold discard;
    try (by auto with sql);
    try (apply cleanly_bind; [|intros; apply cleanly_ret]); try (by auto with sql);
    try (by apply indexed_alter).
  - unfold save_embedded. cleanly.
  - apply cleanly_update. intros d [Hok Hm]. split; [by apply fmap_rows_ok|].
    eapply mirrored_fmap; [exact Hm|]. intros r. by destruct (str_eqb _ _).
  - apply indexed_framed_stmt; [|done]. apply preserves_update. intros d []. by split.
  - apply cleanly_preserves; [by apply ingest_indexed|].
    unfold ingest_forwarded, forwarded_receipt_memory_id, insert_forwarded_rows, insert_memory,
      fts_insert, insert_receipt.
    repeat (intros; first [apply quiet_stmt | progress cleanly | apply quiet_transaction
      | by intros d _]).
  - unfold compress_in_place. apply cleanly_bind; [by apply cleanly_stmt|].
    intros b. apply cleanly_bind; [|auto with sql]. destruct b; [apply cleanly_ret|by apply indexed_alter].
  - apply indexed_framed_stmt; [apply insert_edge_ok|]. intros d.
    by destruct (bool_decide _); [|destruct (_ && _)].
  - apply indexed_framed_stmt; [|done]. apply preserves_update. intros d. apply delete_edge_ok.
  - unfold link_extracted_bipartite. cleanly.
  - unfold archive_overflow_no_llm, save_with_metadata, list_by_project. cleanly.
  - unfold compress_project, list_by_project. cleanly.
  - unfold extract_and_save. cleanly.
  - unfold extract_and_save_unique, list_by_project. cleanly.
  - destruct expected; [|auto with sql]. unfold store_embedding_replace_checked. cleanly.
  - unfold opportunistic_embed_sweep, unembedded_count, unembedded_batch. cleanly.
  - unfold backfill_embeddings, list_by_project. cleanly.
Qed.

(** When nothing fails from outside, every operation but [set_block] and
    [delete_rows] leaves the text index holding exactly the bodies of the rows, one
    entry per row and nothing stale; a forwarded delivery does so even when
    statements fail at any point, since its writes share a transaction. *)
Theorem operations_keep_index op d fs : indexed d → keeps_index op →
  fs = [] ∨ (∃ self now rivals e, op = OpIngest self now rivals e) →
  indexed (db (run_op body_sha op (mkWorld d fs)).2).
Proof using.
  intros HI Hk [->|(self & now & rivals & e & ->)].
  - pose proof (cleanly_run_op op Hk d HI) as Hc.
    destruct (run_op body_sha op (mkWorld d [])) as [[a|err] w']; apply Hc.
  - cbn [run_op]. apply (preserves_bind indexed); [by apply ingest_indexed| |done].
    intros. apply preserves_ret.
Qed.
End Index.

(** ** Witnesses *)

#[local] Existing Instances TextJson.json TextJson.json_laws.

Module SafetyDemo.
Definition store : MemoryStore := mkStore None None.
Definition sha (s : str) : str := s.

Definition event (body : str) : ForwardedEvent :=
  mkEvent $"e1" $"laptop" $"app" $"note" body {[ $"k" := $"v" ]} (Some $"s1").

(** A save whose index statement fails, then a delivery, then an embedding. *)
Definition op1 : StoreOp := OpSave store (Ok 100) $"app" $"note" $"first" Project.
Definition op2 : StoreOp := OpIngest store (Ok 200) id (event $"hello").
Definition op3 : StoreOp := OpStoreEmbedding 1 $"mini" [1065353216; 0].
Definition d1 : Db := db (run_op sha op1 (mkWorld fresh_db [None; Some $"disk I/O error"])).2.
Definition d2 : Db := db (run_op sha op2 (mkWorld d1 [])).2.
Definition d3 : Db := db (run_op sha op3 (mkWorld d2 [])).2.

Lemma d3_reachable : reachable sha d3.
Proof.
  apply reachable_step; [|done]. apply reachable_step; [|done].
  apply reachable_step; [constructor|done].
Defined.
End SafetyDemo.

Lemma reachable_store_ok_witness :
  size (memories SafetyDemo.d3) = 2%nat ∧ store_ok SafetyDemo.d3.
Proof.
  split; [vm_compute; reflexivity|].
  apply (reachable_store_ok SafetyDemo.sha), SafetyDemo.d3_reachable.
Defined.

Lemma reachable_dimension_witness :
  model_lengths $"mini" SafetyDemo.d3 = [8] ∧
  dimension_loop $"mini" None (model_lengths $"mini" SafetyDemo.d3) = Ok (Some 2).
Proof.
  split; [vm_compute; reflexivity|].
  rewrite (reachable_dimension SafetyDemo.sha SafetyDemo.d3 $"mini" SafetyDemo.d3_reachable).
  vm_compute. reflexivity.
Defined.

Lemma ingest_exactly_once_witness :
  ingest_forwarded SafetyDemo.sha SafetyDemo.store (Ok 900) id
    (SafetyDemo.event $"mutated") (mkWorld SafetyDemo.d3 []) =
  (Ok (mkOutcome 2 false), mkWorld SafetyDemo.d3 []).
Proof.
  refine (ingest_exactly_once SafetyDemo.sha SafetyDemo.store (Ok 200) id
    (SafetyDemo.event $"hello") SafetyDemo.d1 [] (mkOutcome 2 true)
    (mkWorld SafetyDemo.d2 []) SafetyDemo.d3 SafetyDemo.store (Ok 900) id
    (SafetyDemo.event $"mutated") _ _ _ _ _ _).
  - refine (si_run_op store_ok SafetyDemo.sha SafetyDemo.op1 _ (mkWorld fresh_db _) fresh_db_ok).
    by intros d Hd.
  - done.
  - vm_compute. reflexivity.
  - cbn [db]. apply later_step; [|done]. constructor.
  - vm_compute. eexists. reflexivity.
  - reflexivity.
Defined.

Lemma operations_keep_index_witness :
  indexed (db (run_op SafetyDemo.sha SafetyDemo.op2
    (mkWorld fresh_db [None; None; None; Some $"disk full"])).2).
Proof.
  apply operations_keep_index; [apply indexed_fresh|by intros d Hd|]. right. by repeat eexists.
Defined.
