(* ===== verification/MemRows.v ===== *)
(** * The memory store: what the operations do to the rows

    Functional properties of the operations of [MemStore]: compression keeps the
    original, blocks are singletons, deletion, and consolidation into a digest. *)
From stdpp Require Import gmap sets.
From S2P Require Import Prelude Str Error F64 F32 MemDb MemStore.

(** ** Frames *)

(** [m] may change the tables but not the rows. *)
Definition frames {A} (m : Sql A) : Prop := ∀ M, preserves (λ d, memories d = M) m.

Lemma frames_stmt {A} (f : Db → Result A * Db) :
  (∀ d, memories (f d).2 = memories d) → frames (stmt f).
Proof. intros Hf M. apply preserves_stmt. intros d <-. apply Hf. Qed.

Lemma frames_update f : (∀ d, memories (f d) = memories d) → frames (update f).
Proof. intros Hf. by apply frames_stmt. Qed.

Lemma frames_fts_insert id b : frames (fts_insert id b).
Proof. by apply frames_update. Qed.
Lemma frames_fts_delete id b : frames (fts_delete id b).
Proof. by apply frames_update. Qed.

Lemma frames_store_embedding id m v : frames (store_embedding id m v).
Proof.
  intros M. unfold store_embedding, ensure_embedding_model_dimension,
    embedding_dimension_for_model, insert_embedding_or_ignore.
  repeat (intros; first [apply frames_stmt; intros d; by repeat case_match
    | apply frames_update; done | progress preserve]).
Qed.

Lemma triple_frames {A} (m : Sql A) M : frames m →
  triple (λ d, memories d = M) m (λ _ d, memories d = M) (λ d, memories d = M).
Proof. intros Hm. by apply preserves_triple, Hm. Qed.

(** A frame in front of the rest. *)
Lemma frame_then {A B} (m : Sql A) (k : A → Sql B) M Q E :
  frames m → (∀ d, memories d = M → E d) →
  (∀ a, triple (λ d, memories d = M) (k a) Q E) → triple (λ d, memories d = M) (m ≫= k) Q E.
Proof.
  intros Hm HE Hk. apply (triple_bind _ _ (λ _ d, memories d = M)); [|exact Hk].
  apply (triple_weaken _ (λ d, memories d = M) _ _ (λ _ d, memories d = M) _ (λ d, memories d = M));
    [by apply triple_frames|done|done|exact HE].
Qed.

Section Rows.
Context `{Json}.

(** The row a save writes. *)
Definition saved_row (now : N) (project kind body : str) (scope : MemoryScope) : Row :=
  mkRow project kind body (i64_of_u64 now) (MemoryScope_as_str scope) $"{}" None None None.

(** Saving adds one row under an id no row has, whatever fails afterwards. *)
Lemma save_scoped_rows self now p k b s M :
  triple (λ d, store_ok d ∧ memories d = M) (save_scoped self now p k b s)
    (λ id d, ∃ secs, now = Ok secs ∧ M !! id = None ∧
       memories d = <[id := saved_row secs p k b s]> M)
    (λ d, memories d = M ∨ ∃ secs id, now = Ok secs ∧ M !! id = None ∧
       memories d = <[id := saved_row secs p k b s]> M).
Proof using.
  unfold save_scoped.
  eapply triple_bind with (R := λ secs d, now = Ok secs ∧ store_ok d ∧ memories d = M).
  { apply triple_lift. intros d [Hok Hm]. destruct now; [done|by left]. }
  intros secs. set (r := mkRow _ _ _ _ _ _ _ _ _).
  eapply triple_bind with (R := λ id d, (now = Ok secs ∧ M !! id = None) ∧ memories d = <[id := r]> M).
  { apply triple_stmt; [by intros d (_ & _ & ->); left|].
    intros d (Hnow & Hok & <-). destruct (Z.leb_spec i64_max (sequence d)); [by left|].
    split_and!; [done| |done]. apply eq_None_not_Some. intros Hs%(ok_ids d Hok). lia. }
  intros id. apply triple_assume. intros [Hnow Hid].
  assert (HE : ∀ d, memories d = <[id := r]> M → memories d = M ∨
    ∃ secs id, now = Ok secs ∧ M !! id = None ∧ memories d = <[id := saved_row secs p k b s]> M).
  { intros d Hd. right. by exists secs, id. }
  assert (HQ : triple (λ d, memories d = <[id := r]> M) (mret id)
    (λ id d, ∃ secs, now = Ok secs ∧ M !! id = None ∧
       memories d = <[id := saved_row secs p k b s]> M)
    (λ d, memories d = M ∨ ∃ secs id, now = Ok secs ∧ M !! id = None ∧
       memories d = <[id := saved_row secs p k b s]> M)).
  { apply triple_ret. intros d Hd. by exists secs. }
  apply frame_then; [apply frames_fts_insert|done|]. intros u.
  destruct (embedder self) as [e|]; [|exact HQ].
  apply frame_then; [intros M'; apply preserves_lift|done|]. intros v.
  apply frame_then; [apply frames_store_embedding|done|]. intros u'. exact HQ.
Qed.

(** ** Compression keeps the original *)

(** The text a row was first stored with. *)
Definition original (r : Row) : str := default (r_body r) (r_body_full r).

Definition same_elsewhere (id : Z) (M : gmap Z Row) (d : Db) : Prop :=
  ∀ j, j ≠ id → memories d !! j = M !! j.

(** The row [id] still has its original, and nothing else changed. *)
Definition keeps_original (id : Z) (o : str) (M : gmap Z Row) (d : Db) : Prop :=
  same_elsewhere id M d ∧ ∃ r, memories d !! id = Some r ∧ original r = o.

Lemma compress_in_place_rows id c o M :
  triple (keeps_original id o M) (compress_in_place id c)
    (λ _ d, same_elsewhere id M d ∧
       ∃ r, memories d !! id = Some r ∧ r_body r = c ∧ r_body_full r = Some o)
    (keeps_original id o M).
Proof using.
  set (full d := same_elsewhere id M d ∧
       ∃ r, memories d !! id = Some r ∧ r_body_full r = Some o).
  assert (Hweak : ∀ d, full d → keeps_original id o M d).
  { intros d (He & r & Hr & Hf). split; [done|]. exists r. unfold original. by rewrite Hf. }
  assert (Hupd : ∀ d f, same_elsewhere id M d →
    same_elsewhere id M (with_memories (alter f id) d)).
  { intros d f He j Hj. cbn. rewrite lookup_alter_ne by done. by apply He. }
  unfold compress_in_place.
  eapply triple_bind with (R := λ b d, keeps_original id o M d ∧
    ∃ r, memories d !! id = Some r ∧ b = bool_decide (is_Some (r_body_full r))).
  { apply triple_stmt; [done|]. intros d Hd. pose proof Hd as (_ & r & Hr & _).
    rewrite Hr. split; [done|]. by exists r. }
  intros b. eapply triple_bind with (R := λ _, full).
  { destruct b; [apply triple_ret|apply triple_update; [by intros d []|]];
      intros d [[He (r & Hr & Ho)] (r' & Hr' & Hb)]; rewrite Hr in Hr'; injection Hr' as <-.
    - split; [done|]. exists r. split; [done|]. unfold original in Ho.
      symmetry in Hb. apply bool_decide_eq_true in Hb as [f Hf]. rewrite Hf in *. by rewrite <-Ho.
    - split; [by apply Hupd|]. eexists. cbn. rewrite lookup_alter_eq, Hr. split; [done|]. cbn.
      symmetry in Hb. apply bool_decide_eq_false, eq_None_not_Some in Hb.
      unfold original in Ho. rewrite Hb in Ho. cbn in Ho. by rewrite Ho. }
  intros u. unfold set_body.
  eapply triple_bind with (R := λ _, full).
  { apply triple_stmt; [done|]. intros d Hd. pose proof Hd as (_ & r & Hr & _). by rewrite Hr. }
  intros old.
  set (post d := same_elsewhere id M d ∧
       ∃ r, memories d !! id = Some r ∧ r_body r = c ∧ r_body_full r = Some o).
  assert (Hpost : ∀ d, post d → keeps_original id o M d).
  { intros d (He & r & Hr & _ & Hf). apply Hweak. split; [done|]. by exists r. }
  eapply triple_bind with (R := λ _, post).
  { apply triple_update; [done|]. intros d (He & r & Hr & Hf). split; [by apply Hupd|].
    eexists. cbn. rewrite lookup_alter_eq, Hr. by split_and!. }
  intros u'. eapply triple_bind with (R := λ _, post); [by apply triple_update|].
  intros u''. by apply triple_update.
Qed.

(** Compressing a row never loses what was first stored: after any number of
    compressions, wherever one of them was cut short, the row's original is still
    recoverable and no other row changed; and when they all succeed the body is the
    last compressed text and [full_body] answers the original. *)
Theorem compress_keeps_original id r cs w :
  memories (db w) !! id = Some r →
  let '(res, w') := for_each (compress_in_place id) cs w in
  (∃ r', memories (db w') !! id = Some r' ∧ original r' = original r ∧
     (res = Ok () → ∀ c, last cs = Some c →
        r_body r' = c ∧ r_body_full r' = Some (original r))) ∧
  (∀ j, j ≠ id → memories (db w') !! j = memories (db w) !! j).
Proof using.
  intros Hr. set (o := original r). set (M := memories (db w)).
  cut (∀ pre, triple (λ d, keeps_original id o M d ∧ ∀ c, last pre = Some c →
      ∃ r, memories d !! id = Some r ∧ r_body r = c ∧ r_body_full r = Some o)
    (for_each (compress_in_place id) cs)
    (λ _ d, keeps_original id o M d ∧ ∀ c, last (pre ++ cs) = Some c →
      ∃ r, memories d !! id = Some r ∧ r_body r = c ∧ r_body_full r = Some o)
    (keeps_original id o M)).
  { intros Hc. specialize (Hc [] w). cbn [app] in Hc.
    assert (Hpre : keeps_original id o M (db w) ∧ ∀ c : str, last [] = Some c →
      ∃ r, memories (db w) !! id = Some r ∧ r_body r = c ∧ r_body_full r = Some o).
    { split; [|done]. split; [done|]. by exists r. }
    specialize (Hc Hpre). destruct (for_each (compress_in_place id) cs w) as [[[]|e] w'].
    - destruct Hc as [[He (r' & Hr' & Ho)] Hl]. split; [|done]. exists r'. split_and!; try done.
      intros _ c (r'' & Hr'' & Hb & Hf)%Hl. rewrite Hr' in Hr''. by injection Hr'' as <-.
    - destruct Hc as [He (r' & Hr' & Ho)]. split; [|done]. by exists r'. }
  induction cs as [|c cs IH]; intros pre; cbn [for_each].
  { apply triple_ret. by rewrite app_nil_r. }
  eapply triple_bind with (R := λ _ d, keeps_original id o M d ∧ ∀ c', last (pre ++ [c]) = Some c' →
    ∃ r, memories d !! id = Some r ∧ r_body r = c' ∧ r_body_full r = Some o).
  - eapply triple_weaken; [apply (compress_in_place_rows id c o M)|by intros d []| |done].
    intros u d (He & r' & Hr' & Hb & Hf). split.
    + split; [done|]. exists r'. unfold original. by rewrite Hf.
    + intros c'. rewrite last_snoc. intros [= <-]. by exists r'.
  - intros u. specialize (IH (pre ++ [c])). by rewrite <-app_assoc in IH.
Qed.

(** ** Consolidation *)

Definition archive_all (project : str) (M : gmap Z Row) : list MemoryRecord :=
  map record_of (limit_rows 100000 (sort_by age_cmp
    (List.filter (in_project project) (sort_by (λ a b, (a.1 ?= b.1)%Z) (map_to_list M))))).

Definition archive_candidates (project : str) (M : gmap Z Row) : list MemoryRecord :=
  List.filter (λ m, negb (str_eqb (m_kind m) ARCHIVAL_KIND)) (archive_all project M).

(** The rows a consolidation removes: all candidates, oldest first, but the last
    [keep] of them. *)
Definition archive_victims (project : str) (keep : N) (M : gmap Z Row) : list MemoryRecord :=
  let c := archive_candidates project M in take (length c - N.to_nat keep) c.

Definition digest_row (now : N) (project : str) (victims : list MemoryRecord) : Row :=
  mkRow project ARCHIVAL_KIND (archive_digest victims) (i64_of_u64 now) $"project"
    (json_encode {[ $"archive" := $"true" ]}) None None None.

(** Removing rows one at a time, ahead of [rest]. *)
Definition without (ids : list Z) (M : gmap Z Row) : gmap Z Row :=
  filter (λ ir : Z * Row, ir.1 ∉ ids) M.

Lemma without_lookup ids M i : without ids M !! i = if decide (i ∈ ids) then None else M !! i.
Proof using.
  unfold without. destruct (decide (i ∈ ids)) as [Hi|Hi].
  - apply map_lookup_filter_None. right. intros r _. cbn. auto.
  - destruct (M !! i) as [r|] eqn:E.
    + by apply lookup_sub.
    + apply map_lookup_filter_None. by left.
Qed.

Lemma delete_memories_lookup p d i :
  memories (delete_memories p d) !! i =
    match memories d !! i with Some r => if p i r then None else Some r | None => None end.
Proof using.
  unfold delete_memories. cbn [memories].
  destruct (memories d !! i) as [r|] eqn:E.
  - destruct (p i r) eqn:Ep.
    + apply map_lookup_filter_None. right. intros r' Hr'. cbn. congruence.
    + by apply lookup_sub.
  - apply map_lookup_filter_None. by left.
Qed.

Lemma delete_rows_spec id M :
  triple (λ d, memories d = M) (delete id)
    (λ _ d, memories d = without [id] M) (λ d, memories d = M).
Proof using.
  unfold delete. eapply triple_bind with (R := λ _ d, memories d = M).
  { apply triple_update; [done|]. intros d Hd. by destruct (memories d !! id). }
  intros u. apply triple_update; [done|]. intros d <-. apply map_eq. intros i.
  rewrite delete_memories_lookup, without_lookup. unfold is_row.
  destruct (decide (i ∈ [id])) as [->%list_elem_of_singleton|Hn].
  - rewrite Z.eqb_refl. by destruct (memories d !! id).
  - destruct (Z.eqb_spec i id) as [->|]; [set_solver|]. by destruct (memories d !! i).
Qed.

Lemma without_without a b M : without a (without b M) = without (b ++ a) M.
Proof using.
  apply map_eq. intros i. rewrite !without_lookup.
  destruct (decide (i ∈ a)), (decide (i ∈ b)), (decide (i ∈ b ++ a)); set_solver.
Qed.

Lemma delete_each_spec ids M0 done_ :
  triple (λ d, memories d = without done_ M0) (for_each delete ids)
    (λ _ d, memories d = without (done_ ++ ids) M0)
    (λ d, ∃ gone, gone `prefix_of` ids ∧ memories d = without (done_ ++ gone) M0).
Proof using.
  revert done_. induction ids as [|id ids IH]; intros done_; cbn [for_each].
  { apply triple_ret. by rewrite app_nil_r. }
  eapply triple_bind with (R := λ _ d, memories d = without (done_ ++ [id]) M0).
  - eapply triple_weaken; [apply (delete_rows_spec id (without done_ M0))|done| |].
    + intros u d ->. by rewrite without_without.
    + intros d ->. exists []. split; [apply prefix_nil|]. by rewrite app_nil_r.
  - intros u. eapply triple_weaken; [apply (IH (done_ ++ [id]))|done| |].
    + intros u' d ->. by rewrite <-app_assoc.
    + intros d (gone & Hg & ->). exists (id :: gone). split; [by apply prefix_cons|].
      by rewrite <-app_assoc.
Qed.

Lemma save_with_metadata_rows self now p k b meta M :
  triple (λ d, store_ok d ∧ memories d = M) (save_with_metadata self now p k b meta)
    (λ id d, ∃ secs, now = Ok secs ∧ M !! id = None ∧
       memories d = <[id := mkRow p k b (i64_of_u64 secs) $"project" (json_encode meta)
                              None None None]> M)
    (λ d, memories d = M ∨ ∃ secs id, now = Ok secs ∧ M !! id = None ∧
       memories d = <[id := saved_row secs p k b Project]> M).
Proof using.
  unfold save_with_metadata, save. eapply triple_bind; [apply save_scoped_rows|].
  intros id. cbn beta.
  eapply triple_bind with (R := λ _ d, ∃ secs, now = Ok secs ∧ M !! id = None ∧
       memories d = <[id := mkRow p k b (i64_of_u64 secs) $"project" (json_encode meta)
                              None None None]> M); [|by intros u; apply triple_ret].
  apply triple_update.
  - intros d (secs & ? & ? & ?). right. by exists secs, id.
  - intros d (secs & ? & ? & Em). exists secs. split_and!; [done..|]. cbn. rewrite Em.
    rewrite (alter_known _ _ _ _ (lookup_insert_eq _ _ _)). by rewrite insert_insert_eq.
Qed.

Lemma archive_all_rows project M m : m ∈ archive_all project M →
  is_Some (M !! m_id m) ∧ m_project m = project.
Proof using.
  unfold archive_all, limit_rows. intros (ir & -> & Hin)%list_elem_of_fmap.
  assert (Hs : ir ∈ sort_by age_cmp (List.filter (in_project project)
    (sort_by (λ a b : Z * Row, (a.1 ?= b.1)%Z) (map_to_list M)))).
  { destruct (100000 <=? Z.to_N i64_max); [|done]. by eapply elem_of_take_in. }
  apply elem_of_sort_by, elem_of_filter_bool in Hs as [Hp Hs].
  apply elem_of_sort_by in Hs. destruct ir as [i r]. apply elem_of_map_to_list in Hs.
  split; [by eexists|]. by apply str_eqb_eq.
Qed.

Lemma archive_victims_rows project keep M m : m ∈ archive_victims project keep M →
  is_Some (M !! m_id m) ∧ m_project m = project ∧ m_kind m ≠ ARCHIVAL_KIND.
Proof using.
  intros [Hk Hin]%elem_of_take_in%elem_of_filter_bool.
  apply archive_all_rows in Hin as [? ?]. split_and!; [done..|].
  intros E. by rewrite E in Hk.
Qed.

(** The rows removed are the oldest of the candidates. *)
Lemma age_cmp_total : TotalCmp age_cmp.
Proof using. apply then_total; refine (proj_total _ Z.compare). Qed.

Lemma sorted_sublist {A} (R : A → A → Prop) l l' :
  l `sublist_of` l' → StronglySorted R l' → StronglySorted R l.
Proof using.
  induction 1 as [|x l l' Hs IH|x l l' Hs IH]; inversion 1; subst; [constructor| |by apply IH].
  constructor; [by apply IH|]. rewrite Forall_forall in *. eauto using elem_of_sublist.
Qed.

Lemma List_filter_sublist {A} (p : A → bool) l : List.filter p l `sublist_of` l.
Proof using. induction l as [|x l IH]; cbn; [done|]. destruct (p x); by constructor. Qed.

Lemma archive_candidates_sorted project M :
  StronglySorted (λ a b, (m_created_at a ≤ m_created_at b)%Z) (archive_candidates project M).
Proof using.
  eapply sorted_sublist; [apply List_filter_sublist|]. unfold archive_all.
  set (l := sort_by age_cmp _).
  assert (Hl : StronglySorted (λ a b : Z * Row, (r_created_at a.2 ≤ r_created_at b.2)%Z)
    (limit_rows 100000 l)).
  { eapply sorted_sublist with (l' := l).
    - unfold limit_rows. destruct (_ <=? _); [apply sublist_take|done].
    - pose proof age_cmp_total.
      pose proof (sort_by_sorted_total (cmp := age_cmp)
        (List.filter (in_project project)
          (sort_by (λ a b : Z * Row, (a.1 ?= b.1)%Z) (map_to_list M)))) as Hs.
      fold l in Hs. clearbody l. induction Hs as [|x l Hl IH Hx]; constructor; [done|].
      eapply Forall_impl; [exact Hx|]. intros y Hy. unfold age_cmp in Hy.
      destruct (Z.compare_spec (r_created_at x.2) (r_created_at y.2)); [lia..|]. done. }
  induction Hl as [|x l' Hl IH Hx]; cbn; constructor; [done|].
  clear -Hx. induction Hx; cbn; constructor; done.
Qed.

Lemma archive_victims_oldest project keep M :
  let victims := archive_victims project keep M in
  ∀ a b, a ∈ victims → b ∈ drop (length victims) (archive_candidates project M) →
  (m_created_at a ≤ m_created_at b)%Z.
Proof using.
  intros victims a b Ha Hb. pose proof (archive_candidates_sorted project M) as Hs.
  set (c := archive_candidates project M) in *.
  assert (Ec : c = victims ++ drop (length victims) c).
  { unfold victims, archive_victims. fold c. rewrite length_take.
    rewrite (Nat.min_l _ (length c)) by lia. by rewrite take_drop. }
  rewrite Ec in Hs. exact (StronglySorted_app_1_elem_of _ _ _ a b Hs Ha Hb).
Qed.

Lemma without_insert id r gone M : id ∉ gone →
  without gone (<[id := r]> M) = <[id := r]> (without gone M).
Proof using.
  intros Hid. apply map_eq. intros i. rewrite without_lookup.
  destruct (decide (i = id)) as [->|Hne].
  - by rewrite !lookup_insert_eq, decide_False.
  - by rewrite !lookup_insert_ne, without_lookup.
Qed.

Lemma without_nil M : without [] M = M.
Proof using. apply map_eq. intros i. by rewrite without_lookup, decide_False by set_solver. Qed.

(** What archiving answers, and what a failure can leave. *)
Definition archived (now : Result N) (project : str) (victims : list MemoryRecord) (M : gmap Z Row)
    (res : N * option Z) (d : Db) : Prop :=
  match res with
  | (n, None) => n = 0 ∧ victims = [] ∧ memories d = M
  | (n, Some id) => n = N.of_nat (length victims) ∧ 0 < n ∧ M !! id = None ∧
      ∃ secs, now = Ok secs ∧
        memories d = <[id := digest_row secs project victims]> (without (map m_id victims) M)
  end.

Definition archive_cut_short (now : Result N) (project : str) (victims : list MemoryRecord)
    (M : gmap Z Row) (d : Db) : Prop :=
  memories d = M ∨
  (∃ secs id, now = Ok secs ∧ M !! id = None ∧
     memories d = <[id := saved_row secs project ARCHIVAL_KIND
                            (archive_digest victims) Project]> M) ∨
  (∃ secs id gone, now = Ok secs ∧ M !! id = None ∧ gone `prefix_of` map m_id victims ∧
     memories d = <[id := digest_row secs project victims]> (without gone M)).

(** With the digest in place the victims are deleted one by one. *)
Lemma delete_victims now secs project victims id M :
  now = Ok secs → M !! id = None → victims ≠ [] →
  (∀ m, m ∈ victims → is_Some (M !! m_id m)) →
  triple (λ d, memories d = <[id := digest_row secs project victims]> M)
    (for_each (λ m, delete (m_id m)) victims ≫= λ _,
       mret (N.of_nat (length victims), Some id))
    (archived now project victims M) (archive_cut_short now project victims M).
Proof using.
  intros Hnow Hid Hne Hrows. rewrite for_each_map.
  assert (Hout : ∀ gone, gone `prefix_of` map m_id victims → id ∉ gone).
  { intros gone [rest Eg] Hin. assert (Hin' : id ∈ map m_id victims) by (rewrite Eg; set_solver).
    apply list_elem_of_fmap in Hin' as (m & -> & Hm').
    apply Hrows in Hm'. rewrite Hid in Hm'. by destruct Hm'. }
  eapply triple_bind with (R := λ _ d, memories d =
    <[id := digest_row secs project victims]> (without (map m_id victims) M)).
  - eapply triple_weaken;
      [apply (delete_each_spec (map m_id victims) (<[id := digest_row secs project victims]> M) [])| | |].
    + intros d Hd. cbn beta. by rewrite Hd, without_nil.
    + intros u d Hd. cbn [app] in Hd. cbn beta. by rewrite Hd, without_insert by by apply Hout.
    + intros d (gone & Hg & Hd). right. right. exists secs, id, gone. split_and!; [done..|].
      cbn [app] in Hd. by rewrite Hd, without_insert by by apply Hout.
  - intros u. apply triple_ret. intros d Hd. split_and!; [done| |done|by exists secs].
    destruct victims; [done|cbn; lia].
Qed.

Lemma archive_spec self now project keep M :
  triple (λ d, store_ok d ∧ memories d = M) (archive_overflow_no_llm self now project keep)
    (archived now project (archive_victims project keep M) M)
    (archive_cut_short now project (archive_victims project keep M) M).
Proof using.
  set (victims := archive_victims project keep M). unfold archive_overflow_no_llm.
  eapply triple_bind with (R := λ all d, all = archive_all project M ∧ store_ok d ∧ memories d = M).
  { apply triple_query; [by intros d [_ ?]; left|].
    intros d [Hd Hm]. split; [|done]. unfold archive_all. by rewrite <-Hm. }
  intros all. apply triple_assume. intros ->. fold (archive_candidates project M).
  set (c := archive_candidates project M).
  destruct (N.leb_spec (N.of_nat (length c)) keep) as [Hle|Hgt].
  { apply triple_ret. intros d [_ Hm]. split_and!; [done| |done]. unfold victims, archive_victims.
    fold c. by replace (length c - N.to_nat keep)%nat with 0%nat by lia. }
  change (take _ c) with victims.
  assert (Hv : victims ≠ []).
  { assert (Hl : (0 < length victims)%nat); [|intros E; rewrite E in Hl; by apply Nat.lt_irrefl in Hl].
    unfold victims, archive_victims. fold c. rewrite length_take. lia. }
  eapply triple_bind with (R := λ id d, ∃ secs, now = Ok secs ∧ M !! id = None ∧
    memories d = <[id := digest_row secs project victims]> M).
  { eapply triple_weaken; [apply (save_with_metadata_rows _ _ _ _ _ _ M)|done|done|].
    intros d [?|?]; [by left|by right; left]. }
  intros id w' (secs & Hnow & Hid & Hm). revert w' Hm.
  apply (delete_victims now secs project victims id M Hnow Hid Hv).
  intros m Hm. by apply archive_victims_rows in Hm as [? _].
Qed.

(** Consolidation without a model never loses a row silently.  It either changes
    nothing, because at most [keep_recent] rows are candidates, or writes one digest
    of the oldest candidates and removes exactly those; and wherever a failure cuts
    it short, rows are missing only after the complete digest row was written, every
    other row being untouched.  The removed rows are no newer than any candidate
    that stays. *)
Theorem archive_conserves self now project keep w :
  store_ok (db w) →
  let M := memories (db w) in
  let victims := archive_victims project keep M in
  match archive_overflow_no_llm self now project keep w with
  | (Ok (n, None), w') => n = 0 ∧ victims = [] ∧ memories (db w') = M
  | (Ok (n, Some id), w') =>
      n = N.of_nat (length victims) ∧ 0 < n ∧ M !! id = None ∧
      (∃ secs, now = Ok secs ∧
         memories (db w') = <[id := digest_row secs project victims]>
                              (without (map m_id victims) M)) ∧
      (∀ a b, a ∈ victims → b ∈ drop (length victims) (archive_candidates project M) →
         (m_created_at a ≤ m_created_at b)%Z)
  | (Err _, w') =>
      memories (db w') = M ∨
      (∃ secs id, now = Ok secs ∧ M !! id = None ∧
         memories (db w') = <[id := saved_row secs project ARCHIVAL_KIND
                                      (archive_digest victims) Project]> M) ∨
      (∃ secs id gone, now = Ok secs ∧ M !! id = None ∧ gone `prefix_of` map m_id victims ∧
         memories (db w') = <[id := digest_row secs project victims]> (without gone M))
  end.
Proof using.
  intros Hok M victims.
  pose proof (archive_spec self now project keep M w (conj Hok eq_refl)) as T.
  destruct (archive_overflow_no_llm self now project keep w) as [[[n [id|]]|e] w']; [|exact T..].
  destruct T as (? & ? & ? & ?). split_and!; try done. by apply archive_victims_oldest.
Qed.


(** ** Blocks *)

Lemma elem_of_rows_where p d ir : ir ∈ rows_where p d ↔ memories d !! ir.1 = Some ir.2 ∧ p ir = true.
Proof using.
  unfold rows_where, table. rewrite elem_of_filter_bool, elem_of_sort_by.
  destruct ir as [i r]. rewrite elem_of_map_to_list. tauto.
Qed.

Lemma rows_where_NoDup p d : NoDup (rows_where p d).*1.
Proof using.
  assert (Hs : (rows_where p d).*1 `sublist_of` (table d).*1).
  { unfold rows_where. induction (table d) as [|x l IH]; cbn; [done|].
    destruct (p x); cbn; by constructor. }
  eapply sublist_NoDup; [|exact Hs]. unfold table. rewrite sort_by_perm. apply NoDup_fst_map_to_list.
Qed.

Lemma rows_where_one p d id r :
  (∀ i r', memories d !! i = Some r' ∧ p (i, r') = true ↔ i = id ∧ r' = r) →
  rows_where p d = [(id, r)].
Proof using.
  intros Hiff. apply Permutation_singleton_r, NoDup_Permutation.
  - eapply NoDup_fmap_1, rows_where_NoDup.
  - apply NoDup_singleton.
  - intros [i r']. rewrite elem_of_rows_where, list_elem_of_singleton. cbn.
    rewrite Hiff. naive_solver.
Qed.

Definition is_block (project name : str) (r : Row) : Prop :=
  r_project r = project ∧ r_kind r = block_kind name.

(** A block is a singleton.  When [set_block] succeeds, the row it returns is the
    only row of that block, [get_block] answers it with the text just set, and no row
    that is not the block changed. *)
Theorem set_block_get self now project name body w id w' :
  store_ok (db w) → set_block self now project name body w = (Ok id, w') →
  (∃ rec, get_block project name (mkWorld (db w') []) = (Ok (Some rec), mkWorld (db w') []) ∧
     m_id rec = id ∧ m_body rec = body) ∧
  (∀ i r, memories (db w') !! i = Some r → is_block project name r → i = id) ∧
  (∀ i r, memories (db w) !! i = Some r → ¬ is_block project name r →
     memories (db w') !! i = Some r).
Proof using.
  intros Hok Hset.
  set (p := λ (_ : Z) r, str_eqb (r_project r) project && str_eqb (r_kind r) (block_kind name)).
  assert (Hp : ∀ i r, p i r = true ↔ is_block project name r).
  { intros i r. unfold p, is_block. by rewrite andb_true_iff, !str_eqb_eq. }
  set (M1 := memories (delete_memories p (db w))).
  assert (T : triple (eq (db w)) (set_block self now project name body)
    (λ id d, ∃ secs, M1 !! id = None ∧
       memories d = <[id := saved_row secs project (block_kind name) body Project]> M1)
    (λ _, True)).
  { unfold set_block.
    eapply triple_bind with (R := λ _ d, store_ok d ∧ memories d = M1).
    { apply triple_update; [done|]. intros d <-. split; [by apply delete_memories_ok|done]. }
    intros u. eapply triple_weaken; [apply (save_scoped_rows _ _ _ _ _ _ M1)|done| |done].
    intros i d (secs & _ & ? & ?). by exists secs. }
  specialize (T w eq_refl). rewrite Hset in T. destruct T as (secs & Hid & Hm).
  assert (H1 : ∀ i r, M1 !! i = Some r → memories (db w) !! i = Some r ∧ ¬ is_block project name r).
  { intros i r. unfold M1. rewrite delete_memories_lookup.
    destruct (memories (db w) !! i) as [r'|]; [|done]. destruct (p i r') eqn:E; [done|].
    intros [= ->]. split; [done|]. rewrite <-(Hp i r), E. done. }
  assert (Hone : ∀ i r, memories (db w') !! i = Some r → is_block project name r → i = id).
  { intros i r. rewrite Hm, lookup_insert_Some. intros [[<- _]|[_ Hi]] Hb; [done|].
    by apply H1 in Hi as []. }
  split_and!; [|exact Hone|].
  - set (r0 := saved_row secs project (block_kind name) body Project) in *.
    exists (record_of (id, r0)). split_and!; [|done|done].
    unfold get_block, query, stmt. cbn. rewrite (rows_where_one _ _ id r0); [done|].
    intros i r'. unfold in_project. rewrite andb_true_iff, !str_eqb_eq. cbn. split.
    + intros [Hi Hb]. pose proof (Hone i r' Hi Hb) as ->. split; [done|].
      rewrite Hm, lookup_insert_eq in Hi. by injection Hi.
    + intros [-> ->]. by rewrite Hm, lookup_insert_eq.
  - intros i r Hi Hb. rewrite Hm, lookup_insert_ne.
    + unfold M1. rewrite delete_memories_lookup, Hi. destruct (p i r) eqn:E; [|done].
      by apply Hp in E.
    + intros <-. unfold M1 in Hid. rewrite delete_memories_lookup, Hi in Hid.
      destruct (p id r) eqn:E; [|done]. by apply Hp in E.
Qed.

(** ** Batch deletion *)

(** The index holds exactly the bodies of [M]. *)
Definition covers (x : FtsIndex) (M : gmap Z Row) : Prop :=
  damaged x = false ∧ postings x ≡ₚ (λ ir : Z * Row, (ir.1, r_body ir.2)) <$> map_to_list M.

Lemma covers_remove x M id r : covers x M → M !! id = Some r →
  covers (fts_remove id (r_body r) x) (base.delete id M).
Proof using.
  intros Hx Hr.
  set (d0 := with_memories (λ _, M) (with_fts (λ _, x) fresh_db)).
  set (d1 := with_memories (λ _, base.delete id M)
    (with_fts (λ _, fts_remove id (r_body r) x) fresh_db)).
  pose proof (mirrored_delete d0 d1 id r Hx Hr eq_refl eq_refl) as Hm. exact Hm.
Qed.

Lemma unindex_each found d M :
  NoDup found.*1 → (∀ ib, ib ∈ found → ∃ r, M !! ib.1 = Some r ∧ r_body r = ib.2) →
  covers (fts d) M →
  ∃ x, for_each (λ ib : Z * str, fts_delete ib.1 ib.2) found (mkWorld d []) =
         (Ok (), mkWorld (with_fts (λ _, x) d) []) ∧
       covers x (without found.*1 M).
Proof using.
  revert d M. induction found as [|[id b] found IH]; intros d M Hnd Hin Hc.
  { exists (fts d). split; [by destruct d|]. cbn. by rewrite without_nil. }
  cbn in Hnd. apply NoDup_cons in Hnd as [Hid Hnd].
  destruct (Hin (id, b)) as (r & Hr & Hb); [set_solver|]. cbn in Hr, Hb. subst b.
  destruct (IH (with_fts (fts_remove id (r_body r)) d) (base.delete id M)) as (x & Hx & Hcx).
  - done.
  - intros ib Hib. destruct (Hin ib) as (r' & Hr' & Hb'); [set_solver|]. exists r'. split; [|done].
    rewrite lookup_delete_ne; [done|]. intros ->. apply Hid. by apply list_elem_of_fmap_2.
  - cbn. by apply covers_remove.
  - exists x. split; [exact Hx|].
    replace (without ((id, r_body r) :: found).*1 M)
      with (without found.*1 (base.delete id M)); [done|].
    apply map_eq. intros i. rewrite !without_lookup. cbn.
    destruct (decide (i = id)) as [->|Hne].
    + rewrite lookup_delete_eq, (decide_True (P := id ∈ id :: found.*1)) by set_solver.
      by destruct (decide _).
    + rewrite lookup_delete_ne by done.
      destruct (decide (i ∈ found.*1)), (decide (i ∈ id :: found.*1)); set_solver.
Qed.

(** The rows a batch finds, with their bodies. *)
Definition batch (ids : list Z) (d : Db) : list (Z * str) :=
  map (λ ir, (ir.1, r_body ir.2)) (rows_where (λ ir, one_of ids ir.1) d).

Lemma one_of_spec ids i : one_of ids i = true ↔ i ∈ ids.
Proof using.
  unfold one_of. rewrite existsb_exists. setoid_rewrite Z.eqb_eq.
  split; [intros (x & Hx & ->); by apply list_elem_of_In|intros Hi; exists i].
  split; [by apply list_elem_of_In|done].
Qed.

Lemma elem_of_batch ids d i : i ∈ (batch ids d).*1 ↔ is_Some (memories d !! i) ∧ i ∈ ids.
Proof using.
  unfold batch. rewrite list_elem_of_fmap. setoid_rewrite list_elem_of_fmap. split.
  - intros (ib & -> & ir & -> & [Hr Ho]%elem_of_rows_where). cbn in *.
    split; [by eexists|by apply one_of_spec].
  - intros [[r Hr] Hi]. exists (i, r_body r). split; [done|]. exists (i, r). split; [done|].
    apply elem_of_rows_where. split; [done|]. by apply one_of_spec.
Qed.

Lemma batch_NoDup ids d : NoDup (batch ids d).*1.
Proof using.
  unfold batch. change (map ?f ?l) with (f <$> l). rewrite <-list_fmap_compose.
  apply rows_where_NoDup.
Qed.

Definition all_present (ids : list Z) (d : Db) : bool := forallb (λ i, has_memory i d) ids.

Lemma all_present_spec ids d : all_present ids d = true ↔ ∀ i, i ∈ ids → is_Some (memories d !! i).
Proof using.
  unfold all_present, has_memory. rewrite forallb_forall. setoid_rewrite bool_decide_eq_true.
  by setoid_rewrite list_elem_of_In.
Qed.

Lemma batch_complete ids d : NoDup ids →
  length (batch ids d) = length ids ↔ all_present ids d = true.
Proof using.
  intros Hnd. rewrite <-(length_fmap fst (batch ids d)), all_present_spec.
  assert (Hsub : (batch ids d).*1 ⊆+ ids).
  { apply NoDup_submseteq; [apply batch_NoDup|]. by intros i [_ ?]%elem_of_batch. }
  split.
  - intros Hlen i Hin. apply (elem_of_batch ids d i).
    by rewrite (submseteq_length_Permutation _ _ Hsub) by lia.
  - intros Hall. apply Permutation_length, NoDup_Permutation; [apply batch_NoDup|done|].
    intros i. rewrite elem_of_batch. naive_solver.
Qed.

Lemma batch_unindexed ids d : mirrored d →
  ∃ x, for_each (λ ib : Z * str, fts_delete ib.1 ib.2) (batch ids d) (mkWorld d []) =
         (Ok (), mkWorld (with_fts (λ _, x) d) []) ∧ covers x (without ids (memories d)).
Proof using.
  intros Hm. destruct (unindex_each (batch ids d) d (memories d)) as (x & Hx & Hc).
  - apply batch_NoDup.
  - unfold batch. intros ib (ir & -> & [Hr _]%elem_of_rows_where)%list_elem_of_fmap. by exists ir.2.
  - exact Hm.
  - exists x. split; [done|]. replace (without ids (memories d))
      with (without (batch ids d).*1 (memories d)); [done|].
    apply map_eq. intros i. rewrite !without_lookup.
    destruct (memories d !! i) as [r|] eqn:E; [|by repeat case_decide].
    pose proof (elem_of_batch ids d i) as Hb. rewrite E in Hb.
    destruct (decide (i ∈ ids)), (decide (i ∈ (batch ids d).*1)); try done; naive_solver.
Qed.

Lemma delete_rows_unfold ids d : ids ≠ [] → batch ids d ≠ [] →
  delete_rows ids (mkWorld d []) =
    (for_each (λ ib : Z * str, fts_delete ib.1 ib.2) (batch ids d) ≫= λ _,
       (if negb (Nat.eqb (length (batch ids d)) (length ids))
        then fail (parameter_count_error (length (batch ids d)) (length ids))
        else update (delete_memories (λ i _, one_of (map fst (batch ids d)) i))) ≫= λ _,
       mret (N.of_nat (length (batch ids d)))) (mkWorld d []).
Proof using.
  intros Hi Hb. unfold delete_rows, batch in *. destruct ids; [done|].
  unfold mbind at 1, Sql_bind at 1, query, stmt. cbn [faults db].
  destruct (map _ _) eqn:E; [done|]. reflexivity.
Qed.

(** [delete_rows] on distinct ids that all exist removes exactly those rows and
    their index entries and counts them.  As soon as one of the ids is missing while
    another exists, it fails after taking the index entries of the existing ones out:
    no row is deleted, but they can no longer be found by text. *)
Theorem delete_rows_batch ids d : mirrored d → NoDup ids →
  ids ≠ [] → batch ids d ≠ [] →
  ∃ d', memories d' = (if all_present ids d
                       then without ids (memories d) else memories d) ∧
    covers (fts d') (without ids (memories d)) ∧
    delete_rows ids (mkWorld d []) =
      (if all_present ids d
       then Ok (N.of_nat (length ids))
       else Err (parameter_count_error (length (batch ids d)) (length ids)), mkWorld d' []).
Proof using.
  intros Hm Hnd Hi Hb. rewrite delete_rows_unfold by done.
  destruct (batch_unindexed ids d Hm) as (x & Hx & Hc).
  unfold mbind at 1, Sql_bind at 1. rewrite Hx.
  destruct (all_present ids d) eqn:Hall.
  - pose proof (proj2 (batch_complete ids d Hnd) Hall) as Hl. rewrite Hl, Nat.eqb_refl. cbn [negb].
    exists (delete_memories (λ i _, one_of (map fst (batch ids d)) i) (with_fts (λ _, x) d)).
    split_and!; [|exact Hc|reflexivity].
    apply map_eq. intros i. rewrite delete_memories_lookup, without_lookup. cbn.
    destruct (memories d !! i) as [r|] eqn:E; [|by case_decide].
    pose proof (one_of_spec (map fst (batch ids d)) i) as Ho.
    pose proof (elem_of_batch ids d i) as Hb'. rewrite E in Hb'.
    change (map fst (batch ids d)) with (batch ids d).*1 in *.
    destruct (one_of _ _), (decide (i ∈ ids)); try done; naive_solver.
  - destruct (Nat.eqb_spec (length (batch ids d)) (length ids)) as [Hl|Hl];
      [apply (batch_complete ids d Hnd) in Hl; congruence|]. cbn [negb].
    exists (with_fts (λ _, x) d). split_and!; [done|exact Hc|reflexivity].
Qed.

(** ** Ingestion without duplicates *)

(** [ids] are new rows holding [texts], next to the rows of [M]. *)
Definition added (project kind : str) (M : gmap Z Row) (ids : list Z) (texts : list str)
    (d : Db) : Prop :=
  M ⊆ memories d ∧
  Forall2 (λ id text, M !! id = None ∧ ∃ r, memories d !! id = Some r ∧
    r_project r = project ∧ r_kind r = kind ∧ r_body r = text) ids texts.

Lemma added_save project kind M ids texts d0 d id r text :
  added project kind M ids texts d0 → memories d0 !! id = None →
  memories d = <[id := r]> (memories d0) →
  r_project r = project → r_kind r = kind → r_body r = text →
  added project kind M (ids ++ [id]) (texts ++ [text]) d.
Proof using.
  intros [Hsub Hf] Hn Em Hp Hk Hb.
  assert (Hsub' : memories d0 ⊆ memories d) by (rewrite Em; by apply insert_subseteq).
  split; [by etrans|]. apply Forall2_app.
  - eapply Forall2_impl; [exact Hf|]. intros i t (Hi & r' & Hr' & ?). split; [done|].
    exists r'. split; [|done]. by eapply lookup_weaken.
  - constructor; [|constructor]. split.
    + eapply lookup_weaken_None; [exact Hn|done].
    + exists r. by rewrite Em, lookup_insert_eq.
Qed.

(** One fact. *)
Definition unique_step (self : MemoryStore) (now : Result N) (project kind : str)
    (su : gset str * UniqueIngest) (fact : str) : Sql (gset str * UniqueIngest) :=
  if bool_decide (fact ∈ su.1)
  then mret (su.1, mkUnique (added_ids su.2) (skipped su.2 + 1))
  else
    id ← save self now project kind fact;
    mret ({[fact]} ∪ su.1, mkUnique (added_ids su.2 ++ [id]) (skipped su.2)).

(** After the facts [done_]. *)
Definition unique_inv (project kind : str) (M : gmap Z Row) (known done_ : list str)
    (su : gset str * UniqueIngest) (d : Db) : Prop :=
  store_ok d ∧
  ∃ texts, NoDup texts ∧ (∀ t, t ∈ texts ↔ t ∈ done_ ∧ t ∉ known) ∧
    (∀ t, t ∈ su.1 ↔ t ∈ known ∨ t ∈ done_) ∧
    N.of_nat (length done_) = N.of_nat (length (added_ids su.2)) + skipped su.2 ∧
    added project kind M (added_ids su.2) texts d.

Lemma unique_step_spec self now project kind M known done_ su fact :
  triple (unique_inv project kind M known done_ su) (unique_step self now project kind su fact)
    (unique_inv project kind M known (done_ ++ [fact])) (λ _, True).
Proof using.
  clear H. unfold unique_step. destruct (bool_decide_reflect (fact ∈ su.1)) as [Hin|Hout].
  - apply triple_ret. intros d (Hd & texts & Hnd & Ht & Hs & Hl & Ha). split; [done|].
    exists texts. cbn [fst snd added_ids skipped]. apply Hs in Hin. split_and!; [done| | | |done].
    + intros t. rewrite Ht, elem_of_app, list_elem_of_singleton. naive_solver.
    + intros t. rewrite Hs, elem_of_app, list_elem_of_singleton. naive_solver.
    + rewrite length_app. cbn. lia.
  - intros w0 Hinv.
    pose proof (save_scoped_rows self now project kind fact Project (memories (db w0)) w0) as Hsv.
    pose proof (si_save store_ok self now project kind fact w0) as Hsok.
    unfold mbind, Sql_bind, save in *.
    destruct Hinv as (Hd & texts & Hnd & Ht & Hs & Hl & Ha).
    specialize (Hsv (conj Hd eq_refl)). specialize (Hsok Hd).
    destruct (save_scoped self now project kind fact Project w0) as [[id|e] w1]; [|done].
    destruct Hsv as (secs & _ & Hn & Em). split; [done|]. exists (texts ++ [fact]).
    cbn [fst snd added_ids skipped].
    assert (Hnew : (fact ∉ known) ∧ (fact ∉ done_)) by (split; intros Hx; apply Hout, Hs; tauto).
    split_and!.
    + apply NoDup_app. split_and!; [done| |apply NoDup_singleton].
      intros t Htt ->%list_elem_of_singleton. apply Ht in Htt. tauto.
    + intros t. rewrite !elem_of_app, list_elem_of_singleton, Ht. naive_solver.
    + intros t. rewrite elem_of_union, elem_of_singleton, Hs, elem_of_app, list_elem_of_singleton.
      tauto.
    + rewrite !length_app. cbn. lia.
    + by eapply added_save.
Qed.

Lemma unique_fold_spec self now project kind M known fs done_ su :
  triple (unique_inv project kind M known done_ su)
    (fold_sql (unique_step self now project kind) su fs)
    (unique_inv project kind M known (done_ ++ fs)) (λ _, True).
Proof using.
  revert done_ su. induction fs as [|f fs IH]; intros done_ su; cbn [fold_sql].
  - apply triple_ret. by rewrite app_nil_r.
  - eapply triple_bind; [apply unique_step_spec|]. intros su'. specialize (IH (done_ ++ [f]) su').
    by rewrite <-app_assoc in IH.
Qed.

(** Ingestion skips exactly the repeated facts: when [extract_and_save_unique]
    succeeds, it saved one new row per fact that is neither the body of one of the
    project's ten thousand oldest rows nor an earlier fact, counted the others, and
    touched no existing row. *)
Theorem extract_unique self now extract project kind body w u w' facts :
  store_ok (db w) → extract body = Ok facts →
  extract_and_save_unique self now extract project kind body w = (Ok u, w') →
  let M := memories (db w) in
  let known := map m_body (map record_of (limit_rows 10000
                 (sort_by age_cmp (rows_where (in_project project) (db w))))) in
  ∃ texts, NoDup texts ∧
    (∀ t, t ∈ texts ↔ t ∈ facts ∧ t ∉ known) ∧
    N.of_nat (length facts) = N.of_nat (length (added_ids u)) + skipped u ∧
    added project kind M (added_ids u) texts (db w').
Proof using.
  intros Hok Hex Hrun M known.
  assert (T : triple (eq (db w)) (extract_and_save_unique self now extract project kind body)
    (λ u d, ∃ su, su.2 = u ∧ unique_inv project kind M known facts su d) (λ _, True)).
  { unfold extract_and_save_unique.
    eapply triple_bind with (R := λ fs d, fs = facts ∧ db w = d).
    { apply triple_lift. intros d <-. by rewrite Hex. }
    intros fs. apply triple_assume. intros ->.
    eapply triple_bind with (R := λ ex d, map m_body ex = known ∧ db w = d).
    { apply triple_query; [done|]. by intros d <-. }
    intros ex. apply triple_assume. intros Hexi.
    eapply triple_bind; [|intros su; apply triple_ret; intros d Hd; by exists su].
    eapply triple_weaken; [apply (unique_fold_spec self now project kind M known facts []
      (list_to_set (map m_body ex), mkUnique [] 0))| |done|done].
    intros d <-. split; [done|]. exists []. split_and!; cbn.
    - constructor.
    - set_solver.
    - intros t. rewrite Hexi, elem_of_list_to_set, elem_of_nil. tauto.
    - done.
    - split; [done|constructor]. }
  specialize (T w eq_refl). rewrite Hrun in T. destruct T as (su & <- & _ & texts & ? & ? & ? & ? & ?).
  by exists texts.
Qed.


(** ** Metadata *)

(** Reattribution merges.  After a row's metadata was set and the row was then
    reattributed to a caller, reading the metadata answers the provenance keys on top
    of the ones set before, and the row sits in the project named, if any. *)
Theorem reattribute_merges `{!JsonLaws H} id meta kind project p r d :
  memories d !! id = Some r →
  ∃ d', (set_metadata id meta ≫= λ _, reattribute_with_provenance id kind project p)
          (mkWorld d []) = (Ok (), mkWorld d' []) ∧
    get_metadata id (mkWorld d' []) = (Ok (provenance_patch kind p ∪ meta), mkWorld d' []) ∧
    r_project <$> memories d' !! id = Some (default (r_project r) project).
Proof.
  intros Hr. eexists. split; [reflexivity|].
  assert (Hne : ∀ raw m, json_decode raw = inr m → is_empty raw = false).
  { intros [|c raw] m Hd; [by apply json_nonempty in Hd|done]. }
  set (raw := json_patch (json_encode meta) (json_encode (provenance_patch kind p))).
  assert (Hraw : json_decode raw = inr (provenance_patch kind p ∪ meta)).
  { apply json_decode_patch, json_decode_encode. }
  unfold get_metadata, row_column, mbind, Sql_bind, stmt.
  cbn [memories with_memories db faults]. rewrite !lookup_alter_eq, Hr. split; [|done].
  cbn. rewrite (Hne _ _ (json_decode_encode meta)). fold raw. by rewrite (Hne _ _ Hraw), Hraw.
Qed.
End Rows.

(** ** Blocks and the text index *)

(** [set_block] deletes the old row without its index entry, although its
    documentation says the entry rolls off with the row: setting a block twice leaves
    the first text indexed for a row that no longer exists. *)
Lemma set_block_stale :
  let store := mkStore None None in
  let set text := set_block store (Ok 7) $"p" $"persona" text in
  let '(_, w) := (set $"old" ≫= λ _, set $"new") (mkWorld fresh_db []) in
  postings (fts (db w)) = [(1%Z, $"old"); (2%Z, $"new")] ∧
  memories (db w) !! 1%Z = None ∧ ¬ mirrored (db w).
Proof.
  vm_compute. split_and!; [reflexivity..|]. intros [_ Hp]. by apply Permutation_length in Hp.
Qed.

(** ** Witnesses *)

#[local] Existing Instances TextJson.json TextJson.json_laws.

(** Evaluates the result of the run named by [E]. *)
Ltac result_of E := apply (f_equal fst) in E; cbn [fst] in E; rewrite <-E; vm_compute; reflexivity.

Module RowsDemo.
Definition store : MemoryStore := mkStore None None.
Definition put (t : N) (kind body : str) : Sql Z := save store (Ok t) $"p" kind body.

(** Three notes of increasing age. *)
Definition d : Db :=
  db ((put 30 $"note" $"new" ≫= λ _, put 20 $"note" $"mid" ≫= λ _, put 10 $"note" $"old")
        (mkWorld fresh_db [])).2.

Lemma d_ok : store_ok d.
Proof.
  assert (Hp : ∀ t k b, preserves store_ok (put t k b)) by (intros; by apply si_save, _).
  refine (preserves_bind store_ok _ _ (Hp _ _ _) _ (mkWorld fresh_db []) fresh_db_ok).
  intros. apply preserves_bind; [apply Hp|]. intros. apply Hp.
Defined.

Lemma d_mirrored : mirrored d.
Proof.
  split; [vm_compute; reflexivity|].
  apply (bool_decide_unpack _). vm_compute. exact Logic.I.
Defined.
End RowsDemo.

Lemma compress_keeps_original_witness :
  ∃ r', memories (for_each (compress_in_place 1) [$"n1"; $"n2"] (mkWorld RowsDemo.d [])).2.(db)
          !! 1%Z = Some r' ∧ r_body r' = $"n2" ∧ r_body_full r' = Some $"new".
Proof.
  pose proof (compress_keeps_original 1
    (mkRow $"p" $"note" $"new" 30 $"project" $"{}" None None None) [$"n1"; $"n2"]
    (mkWorld RowsDemo.d []) ltac:(vm_compute; reflexivity)) as Hc.
  destruct (for_each (compress_in_place 1) [$"n1"; $"n2"] (mkWorld RowsDemo.d [])) as [res w'] eqn:E.
  destruct Hc as [(r' & Hr' & _ & Hb) _].
  assert (Hres : res = Ok ()) by result_of E.
  destruct (Hb Hres $"n2" eq_refl) as [Hb1 Hb2]. exists r'. split_and!; [exact Hr'|exact Hb1|exact Hb2].
Defined.

Lemma archive_conserves_witness :
  store_ok RowsDemo.d ∧
  (archive_overflow_no_llm RowsDemo.store (Ok 99) $"p" 1 (mkWorld RowsDemo.d [])).1 =
    Ok (2, Some 4%Z) ∧
  map m_body (archive_victims $"p" 1 (memories RowsDemo.d)) = [$"old"; $"mid"] ∧
  memories (archive_overflow_no_llm RowsDemo.store (Ok 99) $"p" 1 (mkWorld RowsDemo.d [])).2.(db)
    !! 3%Z = None.
Proof.
  pose proof (archive_conserves RowsDemo.store (Ok 99) $"p" 1 (mkWorld RowsDemo.d [])
    RowsDemo.d_ok) as Ha.
  split_and!; [exact RowsDemo.d_ok|vm_compute; reflexivity|vm_compute; reflexivity|].
  destruct (archive_overflow_no_llm RowsDemo.store (Ok 99) $"p" 1 (mkWorld RowsDemo.d []))
    as [res w'] eqn:E.
  assert (Hres : res = Ok (2, Some 4%Z)) by result_of E.
  subst res. destruct Ha as (_ & _ & _ & (secs & _ & Hm) & _). cbn [snd]. rewrite Hm.
  vm_compute. reflexivity.
Defined.

Lemma set_block_get_witness :
  ∃ rec, (get_block $"p" $"persona"
    (mkWorld (set_block RowsDemo.store (Ok 50) $"p" $"persona" $"careful"
       (mkWorld RowsDemo.d [])).2.(db) [])).1 = Ok (Some rec) ∧ m_body rec = $"careful".
Proof.
  destruct (set_block RowsDemo.store (Ok 50) $"p" $"persona" $"careful" (mkWorld RowsDemo.d []))
    as [res w'] eqn:E.
  assert (Hres : res = Ok 4%Z) by result_of E.
  subst res.
  destruct (set_block_get RowsDemo.store (Ok 50) $"p" $"persona" $"careful" (mkWorld RowsDemo.d [])
    4%Z w' RowsDemo.d_ok E) as [(rec & Hg & _ & Hb) _].
  exists rec. cbn [snd]. rewrite Hg. split; [reflexivity|exact Hb].
Defined.

Lemma delete_rows_batch_witness :
  ∃ d', (delete_rows [1%Z; 9%Z] (mkWorld RowsDemo.d [])).2 = mkWorld d' [] ∧
    is_Some (memories d' !! 1%Z) ∧ map fst (postings (fts d')) = [2%Z; 3%Z].
Proof.
  destruct (delete_rows_batch [1%Z; 9%Z] RowsDemo.d RowsDemo.d_mirrored
    ltac:(apply (bool_decide_unpack _); vm_compute; exact Logic.I) ltac:(done)
    ltac:(vm_compute; done)) as (d' & Hm & _ & Hrun).
  exists d'. rewrite Hrun. split; [reflexivity|]. rewrite Hm. split.
  - vm_compute. eexists. reflexivity.
  - apply (f_equal (λ x, map fst (postings (fts (db x.2))))) in Hrun. cbn [snd db] in Hrun.
    rewrite <-Hrun. vm_compute. reflexivity.
Defined.

Lemma extract_unique_witness :
  let facts := [$"mid"; $"x"; $"x"] in
  let res := extract_and_save_unique RowsDemo.store (Ok 60) (λ _, Ok facts) $"p" $"fact" $"text"
    (mkWorld RowsDemo.d []) in
  ∃ texts u, res.1 = Ok u ∧ skipped u = 2 ∧
    added $"p" $"fact" (memories RowsDemo.d) (added_ids u) texts (db res.2).
Proof.
  intros facts res. destruct res as [r w'] eqn:E.
  assert (Hres : r = Ok (mkUnique [4%Z] 2)) by
    result_of E.
  subst r.
  destruct (extract_unique RowsDemo.store (Ok 60) (λ _, Ok facts) $"p" $"fact" $"text"
    (mkWorld RowsDemo.d []) (mkUnique [4%Z] 2) w' facts RowsDemo.d_ok eq_refl E)
    as (texts & _ & _ & _ & Ha).
  exists texts, (mkUnique [4%Z] 2). split_and!; [reflexivity|reflexivity|exact Ha].
Defined.

Lemma reattribute_merges_witness :
  ∃ d', get_metadata 1 (mkWorld d' []) =
    (Ok ({[ $"source_kind" := $"main" ]} ∪ {[ $"topic" := $"auth" ]}), mkWorld d' []) ∧
    r_project <$> memories d' !! 1%Z = Some $"q".
Proof.
  destruct (reattribute_merges 1 {[ $"topic" := $"auth" ]} $"main" (Some $"q") None
    (mkRow $"p" $"note" $"new" 30 $"project" $"{}" None None None) RowsDemo.d
    ltac:(vm_compute; reflexivity)) as (d' & _ & Hg & Hp).
  exists d'. split; [exact Hg|exact Hp].
Defined.
