(* ===== verification/MemRecall.v ===== *)
(** * Recall: [crates/rtrt-memory/src/lib.rs], the operations that search

    Query sanitising, full-text recall and its relevance floor, the neighbour walk
    over the edges, dense ranking and reciprocal rank fusion, entity linking.

    The full-text engine is an argument: given the index and a query it answers the
    matching row ids, best first, or a syntax error.  So are Unicode's tables (of the
    standard library, by interface), the natural logarithm, and the order in which
    the rows of an unordered [SELECT] arrive. *)
From stdpp Require Import gmap sets.
From S2P Require Import Prelude Str Error F64 F32 MemDb MemStore.

Class Unicode := {
  is_alphanumeric : char → bool;
  (** [str::to_lowercase]; not character by character (final sigma). *)
  to_lowercase : str → str;
}.

(** What the code relies on of the tables. *)
Definition ascii_word (c : char) : bool :=
  is_ascii_digit c || ((97 <=? c) && (c <=? 122)).

Class UnicodeLaws (U : Unicode) : Prop := {
  (** Lowercasing letters and digits gives no other ASCII character. *)
  lowercase_ascii s c : forallb is_alphanumeric s = true → c ∈ to_lowercase s →
    c < 128 → ascii_word c = true;
}.

(** ** Queries *)

Definition FTS_STOPWORDS : list str :=
  [$"the"; $"and"; $"for"; $"with"; $"this"; $"that"; $"how"; $"does"; $"what"; $"why"; $"you";
   $"are"; $"was"; $"were"; $"can"; $"should"; $"would"; $"could"; $"from"; $"into"; $"have";
   $"has"].

Definition FTS_MAX_TERMS : nat := 32.

Definition str_mem (w : str) (ws : list str) : bool := existsb (str_eqb w) ws.

Section Queries.
Context `{Unicode}.

Definition fts_terms (query : str) : list str :=
  take FTS_MAX_TERMS
    (List.filter (λ w, (3 <=? str_len w) && negb (str_mem w FTS_STOPWORDS))
      (map to_lowercase
        (split_whitespace (map (λ c, if is_alphanumeric c then c else ch_space) query)))).

Definition sanitize_fts_query (query : str) : option str :=
  let terms := fts_terms query in
  match terms with [] => None | _ => Some (join $" OR " terms) end.
End Queries.

(** The meaning-free twin of a text: the characters of each token reversed. *)
Definition null_probe_text (text : str) : str :=
  join [ch_space] (map (@rev char) (split_whitespace text)).

(** ** Background statistics of the similarity *)

Record SimilarityBackground := mkBackground {
  bg_mean : f32;
  bg_stddev : f32;
  population : N;
}.

Section Similarity.
(** [f32::ln]. *)
Variable f32_ln : f32 → f32.

Definition outlier_sigmas (b : SimilarityBackground) : f32 :=
  if population b <? 2 then f32_infinity
  else f32_sqrt (f32_mul (f32_of_N 2) (f32_ln (f32_of_N (population b)))).

Definition similarity_reference (b : SimilarityBackground) (null_similarity : option f32) : f32 :=
  match null_similarity with
  | Some null => if f32_gt null (bg_mean b) then null else bg_mean b
  | None => bg_mean b
  end.

Definition bar (b : SimilarityBackground) (null_similarity : option f32) : f32 :=
  f32_add (similarity_reference b null_similarity) (f32_mul (outlier_sigmas b) (bg_stddev b)).
End Similarity.

Record HybridHit := mkHit {
  h_record : MemoryRecord;
  h_score : f32;
  h_similarity : option f32;
}.

Record HybridRecall := mkRecall {
  hits : list HybridHit;
  background : option SimilarityBackground;
  null_similarity : option f32;
}.

Definition similarity_bar (ln : f32 → f32) (r : HybridRecall) : option f32 :=
  bg ← background r; Some (bar ln bg (null_similarity r)).

Definition dense_supported (ln : f32 → f32) (r : HybridRecall) : list HybridHit :=
  match similarity_bar ln r with
  | None => []
  | Some b => List.filter (λ h, match h_similarity h with
                                | Some s => f32_ge s b
                                | None => false
                                end) (hits r)
  end.

Record HybridQuery := mkQuery {
  q_bm25 : str;
  q_semantic : str;
  q_null_probe : option str;
  q_limit : N;
}.

Record ScoredRecord := mkScored {
  sc_record : MemoryRecord;
  sc_score : f32;
}.

(** ** Full-text recall *)

Section Recall.
Context `{Unicode}.
(** [memories_fts MATCH query]: row ids by rank, or FTS5's complaint. *)
Variable fts_match : FtsIndex → str → Result (list Z).
(** The order in which [UNION] delivers its rows. *)
Variable scan : gset Z → list Z.
(** [f64::ln]. *)
Variable f64_ln : f64 → f64.

(** [JOIN memories m ON m.id = f.rowid]. *)
Definition joined (d : Db) (ids : list Z) : list (Z * Row) :=
  omap (λ id, r ← memories d !! id; Some (id, r)) ids.

(** [.. WHERE memories_fts MATCH ?1 AND .. ORDER BY rank LIMIT ?]. *)
Definition matching (keep : Row → bool) (query : str) (limit : N) : Sql (list MemoryRecord) :=
  stmt (λ d,
    (match fts_match (fts d) query with
     | Ok ids => Ok (map record_of (limit_rows limit
                       (List.filter (λ ir, keep ir.2) (joined d ids))))
     | Err e => Err e
     end, d)).

Definition recall_bm25_exact (project query : str) (limit : N) : Sql (list MemoryRecord) :=
  matching (λ r, str_eqb (r_project r) project) query limit.

(** Verbatim first, sanitised when the engine rejects the text. *)
Definition with_fallback (run : str → Sql (list MemoryRecord)) (query : str) :
    Sql (list MemoryRecord) :=
  first ← attempt (run query);
  match first with
  | Ok hs => mret hs
  | Err _ =>
      match sanitize_fts_query query with
      | Some safe => run safe
      | None => mret []
      end
  end.

Definition recall_bm25 (project query : str) (limit : N) : Sql (list MemoryRecord) :=
  with_fallback (λ q, recall_bm25_exact project q limit) query.

Definition recall_bm25_scoped_exact (project query : str) (limit : N)
    (scopes : list MemoryScope) : Sql (list MemoryRecord) :=
  matching (λ r, str_eqb (r_project r) project
                 || str_mem (r_scope r) (map MemoryScope_as_str scopes)) query limit.

Definition recall_bm25_scoped (project query : str) (limit : N) (scopes : list MemoryScope) :
    Sql (list MemoryRecord) :=
  match scopes with
  | [] => recall_bm25 project query limit
  | _ => with_fallback (λ q, recall_bm25_scoped_exact project q limit scopes) query
  end.

(** *** The lexical relevance floor *)

(** The term without double quotes, between double quotes. *)
Definition fts_phrase (term : str) : str := 34 :: strip_quotes term ++ [34].

Definition term_doc_freq (project : option str) (term : str) : Sql N :=
  stmt (λ d,
    (match fts_match (fts d) (fts_phrase term) with
     | Ok ids =>
         Ok (N.of_nat (match project with
           | Some p => length (List.filter (in_project p) (joined d (remove_dups ids)))
           | None => length ids (* straight from the index, no join *)
           end))
     | Err e => Err e
     end, d)).

Definition count_by_project (project : str) : Sql N :=
  query (λ d, N.of_nat (length (rows_where (in_project project) d))).

Definition total_row_count : Sql N := query (λ d, N.of_nat (size (memories d))).

(** A bound on the logarithm of the Poisson upper tail. *)
Definition f64_one : f64 := f64_of_N 1.
Definition f64_neg (a : f64) : f64 := SFopp a.
Definition f64_sub (a b : f64) : f64 := SFsub f64_prec f64_emax a b.

Definition ln_poisson_upper_tail (k : N) (lambda : f64) : f64 :=
  let k := f64_of_N k in
  if f64_le k lambda || f64_lt k f64_one || f64_le lambda f64_zero then f64_zero
  else f64_add (f64_neg lambda)
         (f64_mul k (f64_sub (f64_add f64_one (f64_ln lambda)) (f64_ln k))).

Definition rarity_ceiling (project_total : N) : N :=
  f64_ceil_usize (f64_sqrt (f64_of_N project_total)) `max` 1.

(** The verdict on one term, given its frequencies. *)
Definition term_significant (project_total store_total local_df : N) (store_df : N) : bool :=
  if store_total <=? project_total then local_df <=? rarity_ceiling project_total
  else
    let share := f64_div (f64_of_N project_total) (f64_of_N store_total) in
    let ln_family := f64_ln (f64_of_N (store_total `max` 2)) in
    let lambda := f64_mul (f64_of_N store_df) share in
    f64_lt (f64_add (ln_poisson_upper_tail local_df lambda) ln_family) f64_zero.

Definition significant_terms (project query : str) : Sql (list str) :=
  match fts_terms query with
  | [] => mret []
  | terms =>
      project_total ← count_by_project project;
      if project_total =? 0 then mret []
      else
        store_total ← total_row_count;
        fold_sql (λ out term,
          local_df ← term_doc_freq (Some project) term;
          if local_df =? 0 then mret out
          else if store_total <=? project_total
          then mret (if term_significant project_total store_total local_df 0
                     then out ++ [term] else out)
          else
            store_df ← term_doc_freq None term;
            mret (if term_significant project_total store_total local_df store_df
                  then out ++ [term] else out)) [] terms
  end.

(** ** The neighbour walk *)

Definition GRAPH_VISIT_FLOOR : N := 64.

Definition in_scope (project : option str) (r : Row) : bool :=
  match project with None => true | Some p => str_eqb (r_project r) p end.

Definition scoped (project : option str) (d : Db) (id : Z) : bool :=
  match memories d !! id with Some r => in_scope project r | None => false end.

(** The rows in scope on the other end of an edge of [id], in either direction. *)
Definition neighbour_set (project : option str) (d : Db) (id : Z) : gset Z :=
  filter (λ j, scoped project d j = true)
    (list_to_set (omap (λ e : Edge,
       if (e.1.1 =? id)%Z then Some e.1.2 else None) (elements (edges d))) ∪
     list_to_set (omap (λ e : Edge,
       if (e.1.2 =? id)%Z then Some e.1.1 else None) (elements (edges d)))).

Definition visit_cap (rows_in_scope seeds : N) : N :=
  N.max (N.max (f64_ceil_usize (f64_sqrt (f64_of_N rows_in_scope))) GRAPH_VISIT_FLOOR) seeds.

Record Walk := mkWalk {
  visited : gset Z;
  queue : list (Z * N);
  order : list Z;
}.

Definition push_seed (project : option str) (cap : N) (d : Db) (w : Walk) (id : Z) : Walk :=
  if scoped project d id && negb (bool_decide (id ∈ visited w)) then
    if N.of_nat (length (order w)) <? cap
    then mkWalk ({[id]} ∪ visited w) (queue w ++ [(id, 0)]) (order w ++ [id])
    else mkWalk ({[id]} ∪ visited w) (queue w) (order w)
  else w.

(** The neighbours of one row; [true] when the cap broke the walk off. *)
Fixpoint push_neighbours (cap hop : N) (w : Walk) (nexts : list Z) : Walk * bool :=
  match nexts with
  | [] => (w, false)
  | next :: rest =>
      if cap <=? N.of_nat (length (order w)) then (w, true)
      else if bool_decide (next ∈ visited w) then push_neighbours cap hop w rest
      else push_neighbours cap hop
             (mkWalk ({[next]} ∪ visited w) (queue w ++ [(next, hop + 1)]) (order w ++ [next])) rest
  end.

Fixpoint walk_loop (fuel : nat) (project : option str) (cap depth : N) (d : Db) (w : Walk) :
    option (Walk * bool) :=
  match queue w with
  | [] => Some (w, false)
  | (id, hop) :: rest =>
      match fuel with
      | O => None
      | S fuel =>
          let w := mkWalk (visited w) rest (order w) in
          if depth <=? hop then walk_loop fuel project cap depth d w
          else
            let '(w, full) := push_neighbours cap hop w (scan (neighbour_set project d id)) in
            if full then Some (w, true) else walk_loop fuel project cap depth d w
      end
  end.

(** Every queued row was put in [order] once, and [order] never exceeds the cap. *)
Definition walk (project : option str) (seeds : list Z) (depth : N) (d : Db) :
    option (Walk * bool) :=
  let cap := visit_cap (N.of_nat (length (rows_where (λ ir, in_scope project ir.2) d)))
               (N.of_nat (length seeds)) in
  walk_loop (S (N.to_nat cap)) project cap depth d
    (foldl (push_seed project cap d) (mkWalk ∅ [] []) seeds).

(** The statements of the walk see one state of the database: no other connection
    is modelled between them.  [None] is out of fuel. *)
Definition recall_via_graph_scoped (seeds : list Z) (depth : N) (project : option str) :
    Sql (option (list MemoryRecord)) :=
  query (λ d,
    match walk project seeds depth d with
    | Some (w, _) => Some (map record_of (joined d (order w)))
    | None => None
    end).

Definition recall_via_graph (seeds : list Z) (depth : N) : Sql (option (list MemoryRecord)) :=
  recall_via_graph_scoped seeds depth None.

(** ** Dense ranking *)

(** The embedded rows of a project, with their vectors, in row-id order. *)
Definition embedded_rows (project : str) (model : option str) (d : Db) :
    list (Z * Row * list N) :=
  omap (λ ir : Z * Row,
    e ← embeddings d !! ir.1;
    if in_project project ir && match model with Some m => str_eqb e.1 m | None => true end
    then Some (ir, e.2) else None) (table d).

Fixpoint score_rows (query_vector : list N) (rows : list (Z * Row * list N)) (sum sum_sq : f64) :
    Result (list ScoredRecord * f64 * f64) :=
  match rows with
  | [] => Ok ([], sum, sum_sq)
  | (ir, blob) :: rest =>
      v ← vector_from_blob blob;
      let score := cosine query_vector v in
      let s := f32_as_f64 score in
      '(scored, sum', sum_sq') ←
        score_rows query_vector rest (f64_add sum s) (f64_add sum_sq (f64_mul s s));
      Ok (mkScored (record_of ir) score :: scored, sum', sum_sq')
  end.

Definition f64_max0 (a : f64) : f64 := if f64_lt a f64_zero || f64_is_nan a then f64_zero else a.

Definition background_of (n : N) (sum sum_sq : f64) : SimilarityBackground :=
  if n =? 0 then mkBackground f32_zero f32_zero 0
  else
    let n' := f64_of_N n in
    let mean := f64_div sum n' in
    mkBackground (f64_as_f32 mean)
      (f64_as_f32 (f64_sqrt (f64_max0 (f64_sub (f64_div sum_sq n') (f64_mul mean mean))))) n.

Definition by_score (a b : ScoredRecord) : Ordering := desc_cmp (sc_score a) (sc_score b).

Definition rank_by_vector (project : str) (query_vector : list N) (limit : N)
    (model : option str) : Sql (list ScoredRecord * SimilarityBackground) :=
  stmt (λ d,
    (match score_rows query_vector (embedded_rows project model d) f64_zero f64_zero with
     | Ok (scored, sum, sum_sq) =>
         Ok (take (N.to_nat limit) (sort_by by_score scored),
             background_of (N.of_nat (length scored)) sum sum_sq)
     | Err e => Err e
     end, d)).

Definition recall_vector_scored (project query : str) (limit : N) (e : Embedder) :
    Sql (list ScoredRecord * SimilarityBackground) :=
  q ← lift (embed_one e query);
  rank_by_vector project q limit (Some (model_name e)).

Definition recall_vector (project query : str) (limit : N) (e : Embedder) :
    Sql (list ScoredRecord) :=
  r ← recall_vector_scored project query limit e; mret r.1.

(** ** Fusion *)

(** [1.0 / (60.0 + (rank + 1) as f32)]. *)
Definition rrf (rank : nat) : f32 :=
  f32_div (f32_of_N 1) (f32_add (f32_of_N 60) (f32_of_N (N.of_nat rank + 1))).

Abbreviation Fused := (gmap Z HybridHit) (only parsing).

Fixpoint fuse_text (rank : nat) (bm25 : list MemoryRecord) (m : Fused) : Fused :=
  match bm25 with
  | [] => m
  | r :: rest =>
      let h := match m !! m_id r with
               | Some h => mkHit (h_record h) (f32_add (h_score h) (rrf rank)) (h_similarity h)
               | None => mkHit r (rrf rank) None
               end in
      fuse_text (S rank) rest (<[m_id r := h]> m)
  end.

Fixpoint fuse_dense (rank : nat) (dense : list ScoredRecord) (m : Fused) : Fused :=
  match dense with
  | [] => m
  | s :: rest =>
      let r := sc_record s in
      let h := match m !! m_id r with
               | Some h => mkHit (h_record h) (f32_add (h_score h) (rrf rank)) (Some (sc_score s))
               | None => mkHit r (rrf rank) (Some (sc_score s))
               end in
      fuse_dense (S rank) rest (<[m_id r := h]> m)
  end.

Definition by_fused (a b : HybridHit) : Ordering :=
  desc_cmp (h_score a) (h_score b) .then (m_id (h_record b) ?= m_id (h_record a))%Z.

Definition fuse (limit : N) (bm25 : list MemoryRecord) (dense : list ScoredRecord) :
    list HybridHit :=
  take (N.to_nat limit)
    (sort_by by_fused (map snd (map_to_list (fuse_dense 0 dense (fuse_text 0 bm25 ∅))))).

(** [usize::saturating_mul]. *)
Definition sat_mul (max a b : N) : N := N.min (a * b) max.

Definition fetch_size (limit : N) : N := N.max (sat_mul u64_max limit 2) limit.

Definition recall_hybrid_scored (project : str) (q : HybridQuery) (e : Embedder) :
    Sql HybridRecall :=
  let limit := q_limit q in
  let texts := q_semantic q :: match q_null_probe q with Some p => [p] | None => [] end in
  vectors ← lift (embed e texts);
  match vectors with
  | [] => fail (Memory $"embedder returned no vector")
  | query_vector :: others =>
      let null_similarity := match others with
                             | probe :: _ => Some (cosine query_vector probe)
                             | [] => None
                             end in
      bm25 ← recall_bm25 project (q_bm25 q) (fetch_size limit);
      vb ← rank_by_vector project query_vector (fetch_size limit) (Some (model_name e));
      mret (mkRecall (fuse limit bm25 vb.1)
              (if population vb.2 =? 0 then None else Some vb.2) null_similarity)
  end.

Definition recall_hybrid_with (project bm25_query semantic_text : str) (limit : N)
    (e : Embedder) : Sql (list ScoredRecord) :=
  r ← recall_hybrid_scored project (mkQuery bm25_query semantic_text None limit) e;
  mret (map (λ h, mkScored (h_record h) (h_score h)) (hits r)).

Definition recall_hybrid (project query : str) (limit : N) (e : Embedder) :
    Sql (list ScoredRecord) := recall_hybrid_with project query query limit e.

(** ** Full-text recall widened by one hop *)

Definition graph_score (i : nat) : f32 :=
  f32_div (f32_ratio 1 10) (f32_add (f32_of_N 1) (f32_of_N (N.of_nat i))).

Fixpoint seed_scores (rank : nat) (seeds : list MemoryRecord) (m : gmap Z ScoredRecord) :
    gmap Z ScoredRecord :=
  match seeds with
  | [] => m
  | r :: rest => seed_scores (S rank) rest (<[m_id r := mkScored r (rrf rank)]> m)
  end.

Fixpoint neighbour_scores (project : str) (i : nat) (nbs : list MemoryRecord)
    (m : gmap Z ScoredRecord) : gmap Z ScoredRecord :=
  match nbs with
  | [] => m
  | nb :: rest =>
      neighbour_scores project (S i) rest
        (match m !! m_id nb with
         | Some _ => m
         | None =>
             if str_eqb (m_project nb) project
             then <[m_id nb := mkScored nb (graph_score i)]> m else m
         end)
  end.

(** [values] is the order in which the hash map gives up its entries. *)
Definition recall_bm25_graph_blend (values : gmap Z ScoredRecord → list ScoredRecord)
    (project query : str) (limit : N) : Sql (option (list ScoredRecord)) :=
  let fetch := N.max (sat_mul u64_max limit 3) limit in
  seeds ← recall_bm25 project query fetch;
  match seeds with
  | [] => mret (Some [])
  | _ =>
      neighbours ← recall_via_graph (map m_id seeds) 1;
      mret (nbs ← neighbours;
            let scored := neighbour_scores project 0 nbs (seed_scores 0 seeds ∅) in
            Some (take (N.to_nat limit) (sort_by by_score (values scored))))
  end.

(** ** Linking *)

Definition link_extracted (project : str) (extracted : list (Z * list str)) (relation : str) :
    Sql N :=
  fold_sql (λ n (se : Z * list str),
    fold_sql (λ n entity,
      let cleaned := strip_quotes entity in
      if is_empty cleaned then mret n
      else
        found ← attempt (recall_bm25 project (34 :: cleaned ++ [34]) 16);
        match found with
        | Err _ => mret n
        | Ok hs =>
            fold_sql (λ n hit,
              if (m_id hit =? se.1)%Z then mret n
              else
                fresh ← add_edge se.1 (m_id hit) relation;
                mret (if fresh : bool then n + 1 else n)) n hs
        end) n se.2) 0 extracted.
End Recall.
