(* ===== verification/MemWalk.v ===== *)
(** * The memory store's neighbour walk: correctness

    [MemRecall.walk] is a breadth-first search with a visit cap.  It ends, visits
    each row once, never leaves the project, stays within the depth and the cap, and
    unless the cap stopped it reaches every row within the depth. *)
From stdpp Require Import gmap sets.
From S2P Require Import Prelude Str Error F64 MemDb MemStore MemRecall.

(** A path of [n] edges between rows in scope, from a seed. *)
Inductive path (project : option str) (seeds : list Z) (d : Db) : Z → nat → Prop :=
| path_seed id : id ∈ seeds → scoped project d id = true → path project seeds d id 0
| path_edge id next n : path project seeds d id n → next ∈ neighbour_set project d id →
    path project seeds d next (S n).

(** An edge joins two rows in scope, in either direction. *)
Lemma elem_of_neighbour_set project d id next :
  next ∈ neighbour_set project d id ↔
  scoped project d next = true ∧
  ∃ rel, (id, next, rel) ∈ edges d ∨ (next, id, rel) ∈ edges d.
Proof.
  unfold neighbour_set. rewrite elem_of_filter, elem_of_union, !elem_of_list_to_set.
  rewrite !list_elem_of_omap. apply and_iff_compat_l. split.
  - intros [(e & He & Heq)|(e & He & Heq)]; destruct e as [[s t] rel]; cbn in Heq;
      apply elem_of_elements in He; exists rel.
    + destruct (Z.eqb_spec s id) as [->|]; [|done]. injection Heq as ->. by left.
    + destruct (Z.eqb_spec t id) as [->|]; [|done]. injection Heq as ->. by right.
  - intros (rel & [He|He]); [left; exists (id, next, rel)|right; exists (next, id, rel)];
      rewrite elem_of_elements; split; [done|cbn; by rewrite Z.eqb_refl|done|cbn; by rewrite Z.eqb_refl].
Qed.

(** While the neighbours of [(id, hop)] are pushed, [pushed] are the new ones. *)
Lemma push_neighbours_spec cap hop nexts w w' full :
  push_neighbours cap hop w nexts = (w', full) →
  (∀ x, x ∈ visited w ↔ x ∈ order w) → NoDup (order w) → N.of_nat (length (order w)) ≤ cap →
  ∃ pushed, order w' = order w ++ pushed ∧
    queue w' = queue w ++ map (λ x, (x, hop + 1)) pushed ∧
    (∀ x, x ∈ visited w' ↔ x ∈ order w') ∧ NoDup (order w') ∧
    N.of_nat (length (order w')) ≤ cap ∧
    (∀ x, x ∈ pushed → x ∈ nexts) ∧
    (full = false → ∀ x, x ∈ nexts → x ∈ order w') ∧
    (full = true → N.of_nat (length (order w')) = cap).
Proof.
  revert w. induction nexts as [|next nexts IH]; intros w; cbn [push_neighbours].
  { intros [= <- <-] Hv Hn Hc. exists []. rewrite !app_nil_r. split_and!; try done. set_solver. }
  destruct (N.leb_spec cap (N.of_nat (length (order w)))) as [Hfull|Hroom].
  { intros [= <- <-] Hv Hn Hc. exists []. rewrite !app_nil_r. split_and!; try done; [set_solver|lia]. }
  destruct (bool_decide_reflect (next ∈ visited w)) as [Hin|Hout].
  - intros Hrun Hv Hn Hc. destruct (IH w Hrun Hv Hn Hc) as (p & H1 & H2 & H3 & H4 & H5 & H6 & H7 & H8).
    exists p. split_and!; try done; [set_solver|].
    intros Hf x [->|Hx]%elem_of_cons; [|by apply H7]. apply Hv in Hin. rewrite H1. set_solver.
  - set (w1 := mkWalk ({[next]} ∪ visited w) (queue w ++ [(next, hop + 1)]) (order w ++ [next])).
    intros Hrun Hv Hn Hc.
    destruct (IH w1 Hrun) as (p & H1 & H2 & H3 & H4 & H5 & H6 & H7 & H8); cbn.
    + intros x. rewrite elem_of_union, elem_of_singleton, elem_of_app, list_elem_of_singleton, Hv. tauto.
    + apply NoDup_app. split_and!; [done| |apply NoDup_singleton].
      intros x Hx ->%list_elem_of_singleton. by apply Hout, Hv.
    + rewrite length_app. cbn. lia.
    + exists (next :: p). cbn in H1, H2. rewrite <-app_assoc in H1, H2.
      split_and!; try done; [set_solver|].
      intros Hf x [->|Hx]%elem_of_cons; [|by apply H7]. rewrite H1. set_solver.
Qed.

Section Walk.
Context (scan : gset Z → list Z) (project : option str) (seeds : list Z).
Context (cap depth : N) (d : Db).
Hypothesis scan_perm : ∀ s, scan s ≡ₚ elements s.

(** The walk with the hop of every visited row: [past] was taken off the queue. *)
Record walk_inv (w : Walk) (past : list (Z * N)) : Prop := {
  wi_order : order w = (past ++ queue w).*1;
  wi_visited : ∀ x, x ∈ visited w ↔ x ∈ order w;
  wi_nodup : NoDup (order w);
  wi_cap : N.of_nat (length (order w)) ≤ cap;
  wi_sound : ∀ x k, (x, k) ∈ past ++ queue w → k ≤ depth ∧ path project seeds d x (N.to_nat k);
  wi_level : ∀ x h rest, queue w = (x, h) :: rest → ∀ y k, (y, k) ∈ rest → k ≤ h + 1;
  wi_sorted : StronglySorted (λ a b : Z * N, a.2 ≤ b.2) (past ++ queue w);
  wi_seeds : ∀ x, x ∈ seeds → scoped project d x = true → (x, 0) ∈ past ++ queue w;
}.

(** Every row taken off above the depth had its neighbours put in the list. *)
Definition closed (past all : list (Z * N)) : Prop :=
  ∀ x k, (x, k) ∈ past → k < depth →
    ∀ y, y ∈ neighbour_set project d x → ∃ j, (y, j) ∈ all ∧ j ≤ k + 1.

Lemma scan_elem s x : x ∈ scan s ↔ x ∈ s.
Proof using scan_perm. by rewrite scan_perm, elem_of_elements. Qed.

Lemma elem_of_order (l : list (Z * N)) x : x ∈ l.*1 ↔ ∃ j, (x, j) ∈ l.
Proof using.
  rewrite list_elem_of_fmap. split.
  - intros ([y j] & -> & Hin). by exists j.
  - intros (j & Hin). by exists (x, j).
Qed.

Lemma sorted_app_le (l : list (Z * N)) x h rest : StronglySorted (λ a b : Z * N, a.2 ≤ b.2) (l ++ (x, h) :: rest) →
  ∀ y k, (y, k) ∈ l → k ≤ h.
Proof using.
  intros Hs y k Hin. apply StronglySorted_app in Hs as (Hle & _ & _).
  exact (Hle (y, k) (x, h) Hin ltac:(apply list_elem_of_here)).
Qed.

Lemma sorted_const (l : list Z) (h : N) :
  StronglySorted (λ a b : Z * N, a.2 ≤ b.2) (map (λ x, (x, h)) l).
Proof using.
  induction l as [|x l IH]; [constructor|]. constructor; [done|].
  apply Forall_forall. intros y (z & -> & _)%list_elem_of_fmap. done.
Qed.

Lemma inv_pop w past id hop rest : walk_inv w past → queue w = (id, hop) :: rest →
  walk_inv (mkWalk (visited w) rest (order w)) (past ++ [(id, hop)]).
Proof using.
  intros [Ho Hv Hn Hc Hs Hl Hso Hse] Hq. rewrite Hq in *.
  split; cbn [order visited queue]; rewrite <-?app_assoc; cbn [app]; try done.
  intros x h tail Hr y k Hin. subst rest.
  assert (Hle : k ≤ hop + 1) by (apply (Hl id hop _ eq_refl y); by right).
  assert (hop ≤ h); [|lia].
  apply (sorted_app_le (past ++ [(id, hop)]) x h tail) with (y := id); [by rewrite <-app_assoc|].
  apply elem_of_app. right. by apply list_elem_of_singleton.
Qed.

Lemma inv_push w w' past row hop rest full : walk_inv w past → queue w = (row, hop) :: rest →
  hop < depth →
  push_neighbours cap hop (mkWalk (visited w) rest (order w)) (scan (neighbour_set project d row))
    = (w', full) →
  walk_inv w' (past ++ [(row, hop)]) ∧
  (∃ new, (past ++ [(row, hop)]) ++ queue w' = (past ++ queue w) ++ new) ∧
  (full = false → ∀ y, y ∈ neighbour_set project d row →
     ∃ j, (y, j) ∈ (past ++ [(row, hop)]) ++ queue w' ∧ j ≤ hop + 1) ∧
  (full = true → N.of_nat (length (order w')) = cap).
Proof using scan_perm.
  intros Hinv Hq Hd Hpush. pose proof (inv_pop _ _ _ _ _ Hinv Hq) as [Ho Hv Hn Hc Hs Hl Hso Hse].
  destruct (push_neighbours_spec _ _ _ _ _ _ Hpush Hv Hn Hc)
    as (new & Hord & Hque & Hv' & Hn' & Hc' & Hnew & Hall & Hfull).
  cbn [order queue] in *.
  assert (Hid : (row, hop) ∈ past ++ (row, hop) :: rest)
    by (apply elem_of_app; right; apply list_elem_of_here).
  assert (Hrest : ∀ y k, (y, k) ∈ rest → k ≤ hop + 1) by exact (wi_level _ _ Hinv _ _ _ Hq).
  assert (Hall_le : ∀ y k, (y, k) ∈ (past ++ [(row, hop)]) ++ queue w' → k ≤ hop + 1).
  { intros y k. rewrite Hque, !elem_of_app, list_elem_of_fmap.
    assert (Hpast : ∀ y k, (y, k) ∈ past → k ≤ hop).
    { apply (sorted_app_le past row hop rest). rewrite <-Hq. apply Hinv. }
    intros [[Hin|[= -> ->]%list_elem_of_singleton]|[Hin|(z & [= -> ->] & _)]]; [|lia| |lia].
    - specialize (Hpast _ _ Hin). lia.
    - by apply Hrest in Hin. }
  assert (Hw' : order w' = ((past ++ [(row, hop)]) ++ queue w').*1).
  { rewrite Hord, Hque, Ho, !fmap_app, <-list_fmap_compose, <-!app_assoc. do 3 f_equal.
    by rewrite (list_fmap_ext _ id), list_fmap_id by done. }
  split; [|split; [|split; [|done]]].
  - split; try done.
    + intros x k Hin. rewrite Hque, app_assoc, elem_of_app in Hin. destruct Hin as [Hin|Hin].
      { apply Hs. done. }
      apply list_elem_of_fmap in Hin as (z & [= -> ->] & Hz). split; [lia|].
      rewrite N.add_1_r, N2Nat.inj_succ. apply path_edge with row.
      * destruct (Hs row hop) as [_ Hp]; [rewrite <-app_assoc; apply Hid|done].
      * by apply scan_elem, Hnew.
    + intros x h tail Ht y k Hin.
      assert (k ≤ hop + 1).
      { apply (Hall_le y). apply elem_of_app. right. rewrite Ht. by right. }
      assert (hop ≤ h); [|lia].
      destruct rest as [|[x0 h0] rest].
      * destruct new as [|z new]; rewrite Hque in Ht; cbn in Ht; [done|]. injection Ht. lia.
      * rewrite Hque in Ht. injection Ht as -> -> _.
        apply (sorted_app_le _ _ _ _ Hso row). apply elem_of_app. right.
        by apply list_elem_of_singleton.
    + rewrite Hque, app_assoc. apply StronglySorted_app. split_and!; [|done|].
      * intros [y k] [z j] Hy Hz. apply list_elem_of_fmap in Hz as (z' & [= -> ->] & _).
        apply (Hall_le y). rewrite Hque, app_assoc, elem_of_app. by left.
      * apply sorted_const. 
    + intros x Hx Hsc. rewrite Hque, app_assoc, elem_of_app. left. by apply Hse.
  - exists (map (λ x, (x, hop + 1)) new). rewrite Hque, Hq. by rewrite <-!app_assoc.
  - intros Hf y Hy. apply scan_elem in Hy. apply (Hall Hf) in Hy. rewrite Hw', elem_of_order in Hy. destruct Hy as (j & Hj).
    exists j. split; [done|by apply (Hall_le y)].
Qed.

Lemma closed_pop w past row hop rest full new :
  closed past (past ++ queue w) → queue w = (row, hop) :: rest →
  (full = false → hop < depth → ∀ y, y ∈ neighbour_set project d row →
    ∃ j, (y, j) ∈ (past ++ queue w) ++ new ∧ j ≤ hop + 1) →
  full = false → closed (past ++ [(row, hop)]) ((past ++ queue w) ++ new).
Proof using.
  intros Hcl Hq Hnew Hf x k [Hin|[= -> ->]%list_elem_of_singleton]%elem_of_app Hk y Hy;
    [|by apply Hnew].
  destruct (Hcl x k Hin Hk y Hy) as (j & Hj & ?). exists j. split; [apply elem_of_app; by left|done].
Qed.

(** A row leaves the queue once, so [cap] turns are enough. *)
Lemma walk_loop_spec fuel w past : walk_inv w past → closed past (past ++ queue w) →
  (N.to_nat cap < fuel + length past)%nat →
  ∃ w' full past', walk_loop scan fuel project cap depth d w = Some (w', full) ∧
    walk_inv w' past' ∧
    (full = false → queue w' = [] ∧ closed past' past') ∧
    (full = true → N.of_nat (length (order w')) = cap).
Proof using scan_perm.
  revert w past. induction fuel as [|fuel IH]; intros w past Hinv Hcl Hfuel;
    cbn [walk_loop]; destruct (queue w) as [|[row hop] rest] eqn:Hq.
  1, 3: (exists w, false, past; split_and!; try done; intros _; split; [done|];
         by rewrite app_nil_r in Hcl).
  - pose proof (wi_order _ _ Hinv) as Ho. pose proof (wi_cap _ _ Hinv) as Hc.
    rewrite Ho, Hq, fmap_app, length_app, !length_fmap in Hc. cbn in Hc. lia.
  - assert (Hlen : (N.to_nat cap < fuel + length (past ++ [(row, hop)]))%nat)
      by (rewrite length_app; cbn; lia).
    rewrite <-Hq in Hcl. destruct (N.leb_spec depth hop) as [Hd|Hd].
    + apply (IH _ (past ++ [(row, hop)])); [by apply inv_pop| |done].
      cbn [queue]. rewrite <-app_assoc. cbn [app]. rewrite <-Hq, <-(app_nil_r (past ++ queue w)).
      apply closed_pop with (rest := rest) (full := false); [done..|lia|done].
    + destruct (push_neighbours _ _ _ _) as [w' full] eqn:Hpush.
      destruct (inv_push _ _ _ _ _ _ _ Hinv Hq Hd Hpush) as (Hinv' & (new & Hnew) & Hnb & Hfull).
      destruct full.
      * exists w', true, (past ++ [(row, hop)]). by split_and!.
      * apply (IH _ _ Hinv'); [|done]. rewrite Hnew.
        apply closed_pop with (rest := rest) (full := false); [done..| |done].
        intros _ _ y Hy. rewrite <-Hnew. by apply Hnb.
Qed.

(** The seeds in scope all fit. *)
Lemma push_seed_spec todo done_ w : N.of_nat (length seeds) ≤ cap → done_ ++ todo = seeds →
  queue w = map (λ x, (x, 0)) (order w) →
  (∀ x, x ∈ visited w ↔ x ∈ order w) → NoDup (order w) → (length (order w) ≤ length done_)%nat →
  (∀ x, x ∈ order w ↔ x ∈ done_ ∧ scoped project d x = true) →
  walk_inv (foldl (push_seed project cap d) w todo) [].
Proof using.
  intros Hcap. revert done_ w. induction todo as [|row todo IH]; intros done_ w Hsplit Hq Hv Hn Hlen Hin.
  - rewrite app_nil_r in Hsplit. subst done_. cbn [foldl].
    assert (Ho : order w = (queue w).*1).
    { rewrite Hq, <-list_fmap_compose. by rewrite (list_fmap_ext _ id), list_fmap_id by done. }
    split; cbn [app]; try done.
    + lia.
    + intros x k. rewrite Hq. intros (z & [= -> ->] & Hz)%list_elem_of_fmap. apply Hin in Hz as [??].
      split; [lia|by apply path_seed].
    + intros x h rest Hr y k Hy. assert (Hy' : (y, k) ∈ queue w) by (rewrite Hr; by right).
      rewrite Hq in Hy'. apply list_elem_of_fmap in Hy' as (z & [= -> ->] & _). lia.
    + rewrite Hq. apply sorted_const.
    + intros x Hx Hsc. rewrite Hq. apply list_elem_of_fmap. exists x. split; [done|by apply Hin].
  - assert (Hlen' : (length done_ < length seeds)%nat) by (rewrite <-Hsplit, length_app; cbn; lia).
    assert (Hsplit' : (done_ ++ [row]) ++ todo = seeds) by by rewrite <-app_assoc.
    cbn [foldl]. apply (IH (done_ ++ [row])); [done|..]; clear IH; unfold push_seed.
    all: destruct (scoped project d row) eqn:Hsc; cbn [andb];
      [destruct (bool_decide_reflect (row ∈ visited w)) as [Hvis|Hvis]; cbn [negb]|].
    all: try (destruct (N.ltb_spec (N.of_nat (length (order w))) cap) as [_|]; [|lia]).
    all: cbn [order queue visited]; rewrite ?length_app; cbn [length].
    all: try done; try lia.
    + by rewrite Hq, map_app.
    + intros x. rewrite elem_of_union, elem_of_singleton, elem_of_app, list_elem_of_singleton, Hv. tauto.
    + apply NoDup_app. split_and!; [done| |apply NoDup_singleton].
      intros x Hx ->%list_elem_of_singleton. by apply Hvis, Hv.
    + intros x. rewrite Hin, elem_of_app, list_elem_of_singleton. split; [tauto|].
      intros [[?| ->] ?]; [done|]. by apply Hin, Hv.
    + intros x. rewrite !elem_of_app, !list_elem_of_singleton, Hin. split; [|tauto].
      intros [[? ?]| ->]; tauto.
    + intros x. rewrite Hin, elem_of_app, list_elem_of_singleton. split; [tauto|].
      intros [[?| ->] ?]; [done|congruence].
Qed.

(** With nothing queued, a path of [n] edges leads to a row found at [n] or nearer. *)
Lemma closed_complete past : (∀ x, x ∈ seeds → scoped project d x = true → (x, 0) ∈ past) →
  closed past past → ∀ x n, path project seeds d x n → N.of_nat n ≤ depth →
  ∃ j, (x, j) ∈ past ∧ j ≤ N.of_nat n.
Proof using.
  intros Hse Hcl x n Hp. induction Hp as [x Hx Hsc|x y n Hp IH Hy]; intros Hn.
  { exists 0. split; [by apply Hse|lia]. }
  destruct IH as (j & Hj & ?); [lia|].
  destruct (Hcl x j Hj) with y as (i & Hi & ?); [lia|done|]. exists i. split; [done|lia].
Qed.

Lemma path_scoped x n : path project seeds d x n → scoped project d x = true.
Proof using. by intros [|???? [? _]%elem_of_neighbour_set]. Qed.
End Walk.

Definition scope_cap (project : option str) (seeds : list Z) (d : Db) : N :=
  visit_cap (N.of_nat (length (rows_where (λ ir, in_scope project ir.2) d))) (N.of_nat (length seeds)).

(** C35: the neighbour walk always ends.  What it returns it returns once, nearest
    first, never more rows than the cap; each is joined to a seed by that many edges
    inside the project, at most [depth]; and unless the cap broke the walk off, every
    row within [depth] edges is there, at its distance. *)
Theorem walk_correct scan project seeds depth d : (∀ s, scan s ≡ₚ elements s) →
  ∃ w full hops, walk scan project seeds depth d = Some (w, full) ∧ order w = hops.*1 ∧
    NoDup (order w) ∧ N.of_nat (length (order w)) ≤ scope_cap project seeds d ∧
    StronglySorted (λ a b : Z * N, a.2 ≤ b.2) hops ∧
    (∀ x k, (x, k) ∈ hops →
       scoped project d x = true ∧ k ≤ depth ∧ path project seeds d x (N.to_nat k)) ∧
    (full = true → N.of_nat (length (order w)) = scope_cap project seeds d) ∧
    (full = false → ∀ x n, path project seeds d x n → N.of_nat n ≤ depth →
       ∃ j, (x, j) ∈ hops ∧ j ≤ N.of_nat n).
Proof.
  intros Hscan. unfold walk. fold (scope_cap project seeds d).
  assert (Hcap : N.of_nat (length seeds) ≤ scope_cap project seeds d)
    by (unfold scope_cap, visit_cap; lia).
  pose proof (push_seed_spec project seeds _ depth d seeds [] (mkWalk ∅ [] []) Hcap eq_refl eq_refl)
    as Hinit.
  destruct (walk_loop_spec scan project seeds (scope_cap project seeds d) depth d Hscan (S (N.to_nat (scope_cap project seeds d)))
    (foldl (push_seed project (scope_cap project seeds d) d) (mkWalk ∅ [] []) seeds) [])
    as (w & full & past & Hrun & Hinv & Hdone & Hfull).
  - apply Hinit; cbn; [set_solver|apply NoDup_nil_2|lia|set_solver].
  - intros x k Hx. by apply elem_of_nil in Hx.
  - cbn. lia.
  - exists w, full, (past ++ queue w). destruct Hinv as [Ho Hv Hn Hc Hs Hl Hso Hse].
    split_and!; try done.
    + intros x k Hin. destruct (Hs x k Hin) as [Hk Hp]. split_and!; [|done..].
      by eapply path_scoped.
    + intros Hf. destruct (Hdone Hf) as [Hq Hcl]. rewrite Hq, app_nil_r in *.
      intros x n. by apply closed_complete.
Qed.

(** ** A chain of rows across two projects *)
Module WalkDemo.

Definition row (p : str) : Row := mkRow p $"note" $"b" 0 $"project" $"{}" None None None.

(** 1 - 2 - 3 in [p], 4 in [q]. *)
Definition d : Db :=
  with_edges (λ _, {[ (1, 2, $"r"); (3, 2, $"r"); (2, 4, $"r") ]}%Z)
    (with_memories (λ _, {[ 1%Z := row $"p"; 2%Z := row $"p"; 3%Z := row $"p"; 4%Z := row $"q" ]})
       fresh_db).

Example walk_p : (λ r, (order r.1, r.2)) <$> walk elements (Some $"p") [1; 9; 1]%Z 2 d =
  Some ([1; 2; 3]%Z, false).
Proof. vm_compute. reflexivity. Qed.
End WalkDemo.

Lemma walk_correct_witness : ∃ w full hops,
  walk elements (Some $"p") [1%Z] 1 WalkDemo.d = Some (w, full) ∧ order w = hops.*1 ∧
  (∀ x k, (x, k) ∈ hops → scoped (Some $"p") WalkDemo.d x = true ∧ k ≤ 1).
Proof.
  destruct (walk_correct elements (Some $"p") [1%Z] 1 WalkDemo.d (λ s, Permutation_refl (elements s)))
    as (w & full & hops & Hw & Ho & _ & _ & _ & Hs & _).
  exists w, full, hops. split; [exact Hw|]. split; [exact Ho|].
  intros x k Hin. destruct (Hs x k Hin) as (Hsc & Hk & _).
  split; [exact Hsc|exact Hk].
Defined.
