(* ===== verification/MemFuse.v ===== *)
(** * The memory store's rank fusion: correctness

    [MemRecall.fuse] adds up, per memory, the reciprocal ranks it got in the two
    rankings, and sorts.  The sort key is total on such sums, so the order in which
    the hash map gives up its entries does not matter. *)
From stdpp Require Import gmap sets.
From S2P Require Import Prelude Str Error F64 F32 MemDb MemStore MemRecall.

(** ** Rounding keeps the sign *)

(** Zero, a positive number or positive infinity. *)
Definition nonneg_float (a : f32) : Prop :=
  match a with
  | S754_zero false | S754_finite false _ _ | S754_infinity false => True
  | _ => False
  end.

Lemma shr_1_nonneg mrs : (0 ≤ shr_m mrs)%Z → (0 ≤ shr_m (shr_1 mrs))%Z.
Proof. destruct mrs as [[|p|p] r s]; cbn; [done| |done]. intros _. by destruct p. Qed.

Lemma iter_pos_ind {A} (P : A → Prop) (f : A → A) (n : positive) (x : A) :
  (∀ y, P y → P (f y)) → P x → P (SpecFloat.iter_pos f n x).
Proof.
  intros Hf. revert x. induction n as [n IH|n IH|]; intros x Hx; cbn; auto.
Qed.

Lemma shr_nonneg mrs e n : (0 ≤ shr_m mrs)%Z → (0 ≤ shr_m (shr mrs e n).1)%Z.
Proof.
  intros H. destruct n; cbn; [done| |done]. apply (iter_pos_ind (λ x, (0 ≤ shr_m x)%Z)); [|done].
  apply shr_1_nonneg.
Qed.

Lemma shr_fexp_nonneg prec emax m e l : (0 ≤ m)%Z → (0 ≤ shr_m (shr_fexp prec emax m e l).1)%Z.
Proof. intros H. apply shr_nonneg. by destruct m, l as [|[]]. Qed.

Lemma round_even_nonneg m l : (0 ≤ m)%Z → (0 ≤ round_nearest_even m l)%Z.
Proof. intros H. destruct l as [|[]]; cbn; try lia. destruct (Z.even m); lia. Qed.

Lemma round_aux_nonneg prec emax m e l : (0 ≤ m)%Z →
  nonneg_float (binary_round_aux prec emax false m e l).
Proof.
  intros H. unfold binary_round_aux.
  pose proof (shr_fexp_nonneg prec emax m e l H) as H1.
  destruct (shr_fexp prec emax m e l) as [mrs1 e1]. cbn [fst] in H1.
  pose proof (shr_fexp_nonneg prec emax _ e1 loc_Exact
    (round_even_nonneg _ (loc_of_shr_record mrs1) H1)) as H2.
  destruct (shr_fexp _ _ _ e1 loc_Exact) as [mrs2 e2]. cbn [fst] in H2.
  destruct (shr_m mrs2); [done| |lia]. by destruct (e2 <=? emax - prec)%Z.
Qed.

Lemma normalize_nonneg prec emax m e : (0 ≤ m)%Z →
  nonneg_float (binary_normalize prec emax m e false).
Proof.
  intros H. destruct m as [|p|p]; cbn; [done| |done]. unfold binary_round.
  destruct (shl_align _ _ _). by apply round_aux_nonneg.
Qed.

Lemma f32_of_N_nonneg n : nonneg_float (f32_of_N n).
Proof. apply normalize_nonneg. lia. Qed.

Lemma f32_add_nonneg a b : nonneg_float a → nonneg_float b → nonneg_float (f32_add a b).
Proof.
  destruct a as [[]|[]| |[] ma ea], b as [[]|[]| |[] mb eb]; try done. intros _ _.
  unfold f32_add. cbn -[binary_normalize]. apply normalize_nonneg. cbn. lia.
Qed.

Lemma f32_div_nonneg m e b : nonneg_float b → nonneg_float (f32_div (S754_finite false m e) b).
Proof.
  destruct b as [[]|[]| |[] mb eb]; try done. intros _. unfold f32_div, SFdiv. cbn [xorb].
  destruct (SFdiv_core_binary _ _ _ _ _ _) as [[q k] l] eqn:E. apply round_aux_nonneg.
  unfold SFdiv_core_binary in E.
  match type of E with context [Z.div_eucl ?x ?y] =>
    assert (Hx : (0 ≤ x)%Z); [|pose proof (Z.div_pos x y Hx ltac:(lia)) as Hq]
  end.
  - match goal with |- context [match ?s with _ => _ end] => destruct s; [lia| |lia] end.
    by apply Z.shiftl_nonneg.
  - unfold Z.div in Hq. destruct (Z.div_eucl _ _) as [q' r]. by injection E as <- _ _.
Qed.

Lemma rrf_nonneg rank : nonneg_float (rrf rank).
Proof.
  unfold rrf. change (f32_of_N 1) with (S754_finite false 8388608 (-23)).
  apply f32_div_nonneg, f32_add_nonneg; apply f32_of_N_nonneg.
Qed.

(** On such scores the descending comparator is the reverse of the total order. *)
Lemma desc_cmp_total a b : nonneg_float a → nonneg_float b → desc_cmp a b = f64_total_cmp b a.
Proof.
  destruct a as [[]|[]| |[] ma ea], b as [[]|[]| |[] mb eb]; try done.
Qed.

(** ** Sorting by fused score *)

Definition fused_key (a b : HybridHit) : Ordering :=
  f64_total_cmp (h_score b) (h_score a) .then (m_id (h_record b) ?= m_id (h_record a))%Z.

#[export] Instance fused_key_total : TotalCmp fused_key.
Proof.
  apply then_total.
  - apply (flip_total (λ a b, f64_total_cmp (h_score a) (h_score b))). apply _.
  - apply (flip_total (λ a b : HybridHit, (m_id (h_record a) ?= m_id (h_record b))%Z)). apply _.
Qed.

Definition fine (l : list HybridHit) : Prop := ∀ h, h ∈ l → nonneg_float (h_score h).

Lemma by_fused_key a b : nonneg_float (h_score a) → nonneg_float (h_score b) →
  by_fused a b = fused_key a b.
Proof. intros Ha Hb. unfold by_fused, fused_key. by rewrite desc_cmp_total. Qed.

Lemma sort_by_fused l : fine l → sort_by by_fused l = sort_by fused_key l.
Proof. intros Hl. apply sort_by_ext. intros x y Hx Hy. by apply by_fused_key; apply Hl. Qed.

(** Distinct rows compare strictly. *)
Lemma fused_key_eq a b : fused_key a b = Eq → m_id (h_record a) = m_id (h_record b).
Proof. unfold fused_key. intros [_ E%Z.compare_eq_iff]%then_with_Eq. done. Qed.

(** Two sorted arrangements of the same hits are the same list. *)
Lemma sorted_unique (l1 l2 : list HybridHit) :
  NoDup (map (m_id ∘ h_record) l1) → l1 ≡ₚ l2 →
  StronglySorted (λ a b, fused_key a b ≠ Gt) l1 → StronglySorted (λ a b, fused_key a b ≠ Gt) l2 →
  l1 = l2.
Proof.
  revert l2. induction l1 as [|x l1 IH]; intros l2 Hn Hp Hs1 Hs2.
  { by apply Permutation_nil_l in Hp. }
  destruct l2 as [|y l2]; [by apply Permutation_nil_r in Hp|].
  inv Hs1. inv Hs2. inv Hn.
  assert (x = y) as <-.
  { assert (Hy : y ∈ x :: l1) by (rewrite Hp; apply list_elem_of_here).
    assert (Hx : x ∈ y :: l2) by (rewrite <-Hp; apply list_elem_of_here).
    apply elem_of_cons in Hy as [?|Hy]; [done|]. apply elem_of_cons in Hx as [?|Hx]; [done|].
    rewrite Forall_forall in *.
    assert (fused_key x y = Eq) as E.
    { pose proof (cmp_opp x y) as E. destruct (fused_key x y) eqn:Exy; [done| |].
      - by destruct (H4 x ltac:(done)).
      - by destruct (H2 y ltac:(done)). }
    destruct H5. rewrite (fused_key_eq _ _ E). apply list_elem_of_fmap. by exists y. }
  f_equal. apply IH; try done. by apply Permutation_cons_inv in Hp.
Qed.

(** ** The sums *)

Definition text_rank (bm25 : list MemoryRecord) (id : Z) : option (nat * MemoryRecord) :=
  list_find (λ r, m_id r = id) bm25.

Definition dense_rank (dense : list ScoredRecord) (id : Z) : option (nat * ScoredRecord) :=
  list_find (λ s, m_id (sc_record s) = id) dense.

(** What a memory gets from its two ranks, without a hash map. *)
Definition reference_hit (bm25 : list MemoryRecord) (dense : list ScoredRecord) (id : Z) :
    option HybridHit :=
  match text_rank bm25 id, dense_rank dense id with
  | Some (i, r), Some (j, s) => Some (mkHit r (f32_add (rrf i) (rrf j)) (Some (sc_score s)))
  | Some (i, r), None => Some (mkHit r (rrf i) None)
  | None, Some (j, s) => Some (mkHit (sc_record s) (rrf j) (Some (sc_score s)))
  | None, None => None
  end.

Definition ranked_ids (bm25 : list MemoryRecord) (dense : list ScoredRecord) : list Z :=
  remove_dups (map m_id bm25 ++ map (λ s, m_id (sc_record s)) dense).

Lemma find_none {A} (f : A → Z) l id : list_find (λ x, f x = id) l = None ↔ id ∉ map f l.
Proof.
  rewrite list_find_None, Forall_forall, list_elem_of_fmap. split.
  - intros H (x & -> & Hx). by apply (H x Hx).
  - intros H x Hx <-. apply H. by exists x.
Qed.

Lemma fuse_text_lookup k bm25 (m : gmap Z HybridHit) id : NoDup (map m_id bm25) →
  fuse_text k bm25 m !! id =
  match text_rank bm25 id with
  | Some (i, r) => Some match m !! id with
      | Some h => mkHit (h_record h) (f32_add (h_score h) (rrf (k + i))) (h_similarity h)
      | None => mkHit r (rrf (k + i)) None
      end
  | None => m !! id
  end.
Proof.
  revert k m. induction bm25 as [|r l IH]; intros k m Hn; [done|].
  inv Hn. cbn [fuse_text]. rewrite IH by done. unfold text_rank. cbn [list_find].
  destruct (decide (m_id r = id)) as [<-|Hne].
  - assert (list_find (λ r', m_id r' = m_id r) l = None) as -> by by apply find_none.
    rewrite lookup_insert_eq, Nat.add_0_r. done.
  - rewrite lookup_insert_ne by done.
    destruct (list_find (λ r', m_id r' = id) l) as [[i r']|]; cbn; [|done].
    by rewrite Nat.add_succ_r.
Qed.

Lemma fuse_dense_lookup k dense (m : gmap Z HybridHit) id : NoDup (map (λ s, m_id (sc_record s)) dense) →
  fuse_dense k dense m !! id =
  match dense_rank dense id with
  | Some (j, s) => Some match m !! id with
      | Some h => mkHit (h_record h) (f32_add (h_score h) (rrf (k + j))) (Some (sc_score s))
      | None => mkHit (sc_record s) (rrf (k + j)) (Some (sc_score s))
      end
  | None => m !! id
  end.
Proof.
  revert k m. induction dense as [|r l IH]; intros k m Hn; [done|].
  inv Hn. cbn [fuse_dense]. rewrite IH by done. unfold dense_rank. cbn [list_find].
  destruct (decide (m_id (sc_record r) = id)) as [<-|Hne].
  - assert (list_find (λ s, m_id (sc_record s) = m_id (sc_record r)) l = None) as ->
      by by apply (find_none (λ s, m_id (sc_record s))).
    rewrite lookup_insert_eq, Nat.add_0_r. done.
  - rewrite lookup_insert_ne by done.
    destruct (list_find (λ s, m_id (sc_record s) = id) l) as [[i r']|]; cbn; [|done].
    by rewrite Nat.add_succ_r.
Qed.

Section Fusion.
Context (bm25 : list MemoryRecord) (dense : list ScoredRecord).
Hypothesis bm25_ids : NoDup (map m_id bm25).
Hypothesis dense_ids : NoDup (map (λ s, m_id (sc_record s)) dense).

Lemma fused_lookup id :
  fuse_dense 0 dense (fuse_text 0 bm25 ∅) !! id = reference_hit bm25 dense id.
Proof using bm25_ids dense_ids.
  rewrite fuse_dense_lookup, fuse_text_lookup by done. unfold reference_hit.
  rewrite lookup_empty. by destruct (text_rank bm25 id) as [[i r]|], (dense_rank dense id) as [[j s]|].
Qed.

Lemma reference_hit_id id h : reference_hit bm25 dense id = Some h → m_id (h_record h) = id.
Proof using.
  unfold reference_hit, text_rank, dense_rank.
  destruct (list_find _ bm25) as [[i r]|] eqn:E1, (list_find _ dense) as [[j s]|] eqn:E2; try done;
    intros [= <-]; cbn.
  1, 2: by apply list_find_Some in E1 as (_ & ? & _).
  by apply list_find_Some in E2 as (_ & ? & _).
Qed.

Lemma reference_hit_fine id h : reference_hit bm25 dense id = Some h → nonneg_float (h_score h).
Proof using.
  unfold reference_hit.
  destruct (text_rank bm25 id) as [[i r]|], (dense_rank dense id) as [[j s]|]; try done;
    intros [= <-]; cbn; auto using rrf_nonneg, f32_add_nonneg.
Qed.

Definition fused_hits : list HybridHit :=
  map snd (map_to_list (fuse_dense 0 dense (fuse_text 0 bm25 ∅))).

Lemma elem_of_fused_hits h : h ∈ fused_hits ↔ ∃ id, reference_hit bm25 dense id = Some h.
Proof using bm25_ids dense_ids.
  unfold fused_hits. rewrite list_elem_of_fmap. split.
  - intros ([id h'] & -> & Hin%elem_of_map_to_list). exists id. by rewrite <-fused_lookup.
  - intros (id & Hid). exists (id, h). split; [done|]. apply elem_of_map_to_list.
    by rewrite fused_lookup.
Qed.

Lemma fused_hits_ids : NoDup (map (m_id ∘ h_record) fused_hits).
Proof using bm25_ids dense_ids.
  unfold fused_hits. rewrite map_map.
  rewrite (map_ext_in _ fst); [apply NoDup_fst_map_to_list|].
  intros [id h] Hin. apply list_elem_of_In, elem_of_map_to_list in Hin.
  rewrite fused_lookup in Hin. by apply reference_hit_id.
Qed.

Lemma fused_hits_reference :
  fused_hits ≡ₚ omap (reference_hit bm25 dense) (ranked_ids bm25 dense).
Proof using bm25_ids dense_ids.
  apply NoDup_Permutation.
  - pose proof fused_hits_ids as Hn. by apply NoDup_fmap_1 in Hn.
  - assert (Hnd : NoDup (ranked_ids bm25 dense)) by apply NoDup_remove_dups.
    revert Hnd. generalize (ranked_ids bm25 dense). intros ids. induction 1 as [|id ids Hid _ IH].
    { apply NoDup_nil_2. }
    cbn. destruct (reference_hit bm25 dense id) as [h|] eqn:E; [|done]. constructor; [|done].
    intros (id' & Hin & E')%list_elem_of_omap. apply reference_hit_id in E, E'. congruence.
  - intros h. rewrite elem_of_fused_hits, list_elem_of_omap. split.
    + intros (id & Hid). exists id. split; [|done]. unfold ranked_ids.
      rewrite elem_of_remove_dups, elem_of_app.
      destruct (decide (id ∈ map m_id bm25)) as [?|H1]; [by left|].
      destruct (decide (id ∈ map (λ s, m_id (sc_record s)) dense)) as [?|H2]; [by right|].
      unfold reference_hit, text_rank, dense_rank in Hid.
      by rewrite (proj2 (find_none m_id bm25 id) H1),
        (proj2 (find_none (λ s, m_id (sc_record s)) dense id) H2) in Hid.
    + intros (id & _ & Hid). by exists id.
Qed.
End Fusion.

Lemma take_sorted {A} (R : A → A → Prop) n l : StronglySorted R l → StronglySorted R (take n l).
Proof. intros H. rewrite <-(take_drop n l) in H. by apply StronglySorted_app_1_l in H. Qed.

Lemma sorted_weaken {A} (R S : A → A → Prop) l :
  (∀ a b, a ∈ l → b ∈ l → R a b → S a b) → StronglySorted R l → StronglySorted S l.
Proof.
  intros H. induction 1 as [|x l Hs IH Hx]; constructor.
  - apply IH. intros a b ? ?. apply H; by right.
  - rewrite Forall_forall in *. intros y Hy. apply H; [left|by right|by apply Hx].
Qed.

(** Strictly: no two hits are the same memory. *)
Lemma sorted_strict l : NoDup (map (m_id ∘ h_record) l) →
  StronglySorted (λ a b, fused_key a b ≠ Gt) l → StronglySorted (λ a b, fused_key a b = Lt) l.
Proof.
  intros Hn Hs. induction Hs as [|x l Hs IH Hx]; [constructor|]. inv Hn.
  constructor; [by apply IH|]. rewrite Forall_forall in *. intros y Hy.
  destruct (fused_key x y) eqn:E; [|done|by destruct (Hx y Hy)].
  destruct H1. cbn. rewrite (fused_key_eq _ _ E). apply list_elem_of_fmap. by exists y.
Qed.

Lemma fuse_spec limit bm25 dense values :
  NoDup (map m_id bm25) → NoDup (map (λ s, m_id (sc_record s)) dense) →
  values ≡ₚ omap (reference_hit bm25 dense) (ranked_ids bm25 dense) →
  let hits := fuse limit bm25 dense in
  take (N.to_nat limit) (sort_by by_fused values) = hits ∧
  length hits = (N.to_nat limit `min` length values)%nat ∧
  NoDup (map (m_id ∘ h_record) hits) ∧
  StronglySorted (λ a b, by_fused a b = Lt) hits ∧
  ∀ kept lost, kept ∈ hits → lost ∈ values → lost ∉ hits → by_fused kept lost = Lt.
Proof.
  intros Hb Hd Hv hits. rewrite <-fused_hits_reference in Hv by done.
  assert (Hfine : ∀ l, l ≡ₚ fused_hits bm25 dense → fine l).
  { intros l Hl h Hh. rewrite Hl in Hh. apply elem_of_fused_hits in Hh as (id & Hid); [|done..].
    by eapply reference_hit_fine. }
  assert (Hids : NoDup (map (m_id ∘ h_record) (sort_by fused_key values))).
  { rewrite sort_by_perm, Hv. by apply fused_hits_ids. }
  assert (Hhits : hits = take (N.to_nat limit) (sort_by fused_key values)).
  { unfold hits, fuse. fold (fused_hits bm25 dense). rewrite sort_by_fused by by apply Hfine.
    f_equal. symmetry. apply sorted_unique; [done| |apply sort_by_sorted_total..].
    by rewrite !sort_by_perm. }
  pose proof (sorted_strict _ Hids (sort_by_sorted_total _)) as Hs.
  assert (Hlt : ∀ a b, a ∈ values → b ∈ values → fused_key a b = Lt → by_fused a b = Lt).
  { intros a b Ha Hb' E. rewrite by_fused_key; [done|by apply (Hfine values)..]. }
  assert (Hin : ∀ h, h ∈ take (N.to_nat limit) (sort_by fused_key values) → h ∈ values).
  { intros h Hh. apply elem_of_take_in in Hh. by rewrite elem_of_sort_by in Hh. }
  rewrite Hhits. split_and!.
  - by rewrite sort_by_fused by by apply Hfine.
  - by rewrite length_take, sort_by_length.
  - rewrite <-(take_drop (N.to_nat limit) (sort_by fused_key values)), map_app, NoDup_app in Hids.
    apply Hids.
  - apply (sorted_weaken (λ a b, fused_key a b = Lt)); [|by apply take_sorted].
    intros a b Ha Hb'. by apply Hlt; apply Hin.
  - intros kept lost Hk Hl Hnot. apply Hlt; [|done|].
    { by apply Hin. }
    rewrite <-(elem_of_sort_by fused_key) in Hl.
    rewrite <-(take_drop (N.to_nat limit) (sort_by fused_key values)) in Hs, Hl.
    apply elem_of_app in Hl as [?|Hl]; [done|]. exact (StronglySorted_app_1_elem_of _ _ _ _ _ Hs Hk Hl).
Qed.

(** Reciprocal rank fusion.  However the hash map orders its entries, the result is
    the [limit] best of the memories either ranking names, each once, each with the sum
    of its reciprocal ranks; the newer of two equal sums comes first, and nothing
    left out beats anything kept. *)
Theorem fuse_reference limit bm25 dense values :
  NoDup (map m_id bm25) → NoDup (map (λ s, m_id (sc_record s)) dense) →
  values ≡ₚ omap (reference_hit bm25 dense) (ranked_ids bm25 dense) →
  let hits := fuse limit bm25 dense in
  take (N.to_nat limit) (sort_by by_fused values) = hits ∧
  length hits = (N.to_nat limit `min` length values)%nat ∧
  NoDup (map (m_id ∘ h_record) hits) ∧
  StronglySorted (λ a b, by_fused a b = Lt) hits ∧
  ∀ kept lost, kept ∈ hits → lost ∈ values → lost ∉ hits → by_fused kept lost = Lt.
Proof. apply fuse_spec. Qed.

(** ** Two rankings of four memories *)
Module FuseDemo.

Definition rec (id : Z) : MemoryRecord :=
  mkMemoryRecord id $"p" $"note" $"b" 0 Project.

Definition bm25 : list MemoryRecord := [rec 1; rec 2; rec 3].
Definition dense : list ScoredRecord := [mkScored (rec 3) f32_zero; mkScored (rec 4) f32_zero].

Example fused : map (m_id ∘ h_record) (fuse 3 bm25 dense) = [3; 1; 4]%Z.
Proof. vm_compute. reflexivity. Qed.
End FuseDemo.

Lemma fuse_reference_witness :
  take 3 (sort_by by_fused
    (rev (omap (reference_hit FuseDemo.bm25 FuseDemo.dense)
            (ranked_ids FuseDemo.bm25 FuseDemo.dense)))) =
  fuse 3 FuseDemo.bm25 FuseDemo.dense.
Proof.
  apply (fuse_reference 3 FuseDemo.bm25 FuseDemo.dense).
  - apply (bool_decide_unpack _). vm_compute. exact Logic.I.
  - apply (bool_decide_unpack _). vm_compute. exact Logic.I.
  - symmetry. apply Permutation_rev.
Defined.
