(* ===== verification/MemSweep.v ===== *)
(** * The memory store's embedding sweeps: progress

    A sweep embeds a batch of the rows without a vector.  With an embedder that works
    and a database that does not fail, repeated sweeps embed every row. *)
From stdpp Require Import gmap sets.
From S2P Require Import Prelude Str Error F64 F32 MemDb MemStore MemRows.

(** [k] sweeps, one after the other. *)
Fixpoint sweeps (k : nat) (e : Embedder) : Sql () :=
  match k with
  | O => mret ()
  | S k => opportunistic_embed_sweep e ≫= λ _, sweeps k e
  end.

Definition backlog (d : Db) : nat := length (unembedded d).

Section Sweep.
Context (e : Embedder) (n : N).
(** Every text has a vector of [n] elements. *)
Hypothesis works : ∀ text, ∃ v, embed_one e text = Ok v ∧ vector_len v = n.
Hypothesis n_positive : n ≠ 0.
Hypothesis n_small : (Z.of_N n ≤ i64_max)%Z.

(** The registry does not contradict the embedder. *)
Definition ready (d : Db) : Prop :=
  store_ok d ∧ ∀ k, embedding_models d !! model_name e = Some k → k = Z.of_N n.

(** Vectors were only added, and those of the rows' bodies. *)
Definition grown (d d' : Db) : Prop :=
  memories d' = memories d ∧ embeddings d ⊆ embeddings d' ∧
  ∀ i x, embeddings d' !! i = Some x → embeddings d !! i = Some x ∨
    ∃ r v, memories d !! i = Some r ∧ embed_one e (r_body r) = Ok v ∧
           x = (model_name e, vector_to_blob v).

Lemma grown_refl d : grown d d.
Proof using. split_and!; [done|done|]. intros. by left. Qed.

Lemma grown_trans d1 d2 d3 : grown d1 d2 → grown d2 d3 → grown d1 d3.
Proof using.
  intros (M1 & S1 & E1) (M2 & S2 & E2). split_and!; [congruence|by etrans|].
  intros i x [Hx|(r & v & Hr & Hv & ->)]%E2; [by apply E1|]. right. exists r, v.
  rewrite <-M1. done.
Qed.

Definition stored (id : Z) (v : list N) (d : Db) : Db :=
  with_embeddings (<[id := (model_name e, vector_to_blob v)]>)
    (with_models (<[model_name e := Z.of_N n]>) d).

Lemma no_lengths d : store_ok d → embedding_models d !! model_name e = None →
  model_lengths (model_name e) d = [].
Proof using.
  intros Hok Hno. unfold model_lengths.
  destruct (List.filter _ _) as [|[i [m b]] l] eqn:Hf; [done|]. exfalso.
  assert (Hin : (i, (m, b)) ∈ List.filter (λ ie : Z * (str * list N), str_eqb ie.2.1 (model_name e))
                                 (map_to_list (embeddings d))) by (rewrite Hf; left).
  apply elem_of_filter_bool in Hin as [Hm%str_eqb_eq Hin]. cbn in Hm. subst m.
  apply elem_of_map_to_list in Hin. destruct (ok_dimensions d Hok _ _ _ Hin) as (k & Hk & _).
  congruence.
Qed.

Lemma store_embedding_stored id v d : ready d → vector_len v = n →
  is_Some (memories d !! id) → embeddings d !! id = None →
  store_embedding id (model_name e) v (mkWorld d []) = (Ok (), mkWorld (stored id v d) []) ∧
  ready (stored id v d).
Proof using n_positive n_small.
  intros [Hok Hreg] Hlen Hid Hno.
  assert (Hrun : store_embedding id (model_name e) v (mkWorld d []) =
                 (Ok (), mkWorld (stored id v d) [])).
  { unfold store_embedding, ensure_embedding_model_dimension, insert_embedding_or_ignore,
      embedding_dimension_for_model, query, update, stmt, lift, has_memory, check_registered,
      mbind, Sql_bind.
    rewrite Hlen. apply N.eqb_neq in n_positive as ->. cbn -[N.mul].
    assert (Hlt : (Z.of_N n <? 0)%Z = false) by (apply Z.ltb_ge; lia).
    assert (Hbd : bool_decide (is_Some (memories d !! id)) = true) by by apply bool_decide_eq_true.
    destruct (embedding_models d !! model_name e) as [k|] eqn:Hm.
    - rewrite (Hreg k eq_refl), Hlt, Z.eqb_refl. cbn. rewrite Hno. cbn. rewrite Hbd.
      do 2 f_equal. unfold stored. destruct d as [m s f em mods ed en me ip re]. cbn in *.
      unfold with_embeddings, with_models. cbn. f_equal. symmetry. apply insert_id.
      by rewrite Hm, (Hreg k eq_refl).
    - rewrite no_lengths by done. cbn. rewrite Hm. cbn. rewrite Z.min_l by done.
      rewrite lookup_insert_eq. cbn. rewrite Hlt, Z.eqb_refl. cbn. rewrite Hno. cbn. rewrite Hbd.
      unfold stored, with_models. by rewrite Hm. }
  split; [done|]. split.
  - pose proof (si_store_embedding store_ok id (model_name e) v (mkWorld d []) Hok) as Hs.
    by rewrite Hrun in Hs.
  - intros k. cbn. rewrite lookup_insert_eq. by intros [= <-].
Qed.

Lemma stored_grown id r v d : memories d !! id = Some r → embed_one e (r_body r) = Ok v →
  embeddings d !! id = None → grown d (stored id v d).
Proof using.
  intros Hr Hv Hno. split_and!; [done|by apply insert_subseteq|]. cbn. intros i x.
  rewrite lookup_insert_Some. intros [[<- <-]|[_ Hx]]; [|by left]. right. by exists r, v.
Qed.

(** One batch: rows without a vector, each once. *)
Definition pending (d : Db) (row : Z * str * str) : Prop :=
  embeddings d !! row.1.1 = None ∧
  ∃ r, memories d !! row.1.1 = Some r ∧ row = (row.1.1, r_project r, r_body r).

Lemma sweep_rows rows count d : ready d → NoDup (map (λ row, row.1.1) rows) →
  Forall (pending d) rows →
  ∃ d', fold_sql (λ done_ (row : Z * str * str),
      match embed_one e row.2 with
      | Err _ => mret done_
      | Ok vector =>
          stored ← attempt (store_embedding row.1.1 (model_name e) vector);
          mret (if is_ok stored then done_ + 1 else done_)
      end) count rows (mkWorld d []) =
    (Ok (count + N.of_nat (length rows)), mkWorld d' []) ∧
    ready d' ∧ grown d d' ∧
    ∀ i, embeddings d' !! i = None ↔ embeddings d !! i = None ∧ i ∉ map (λ row, row.1.1) rows.
Proof using works n_positive n_small.
  revert count d. induction rows as [|row rows IH]; intros count d Hready Hnd Hall.
  { exists d. split_and!; [by rewrite N.add_0_r|done|apply grown_refl|]. intros i. cbn. set_solver. }
  inv Hnd. inv Hall. destruct H3 as (Hno & r & Hr & Hrow).
  destruct (works (r_body r)) as (v & Hv & Hlen).
  destruct (store_embedding_stored row.1.1 v d Hready Hlen ltac:(by rewrite Hr) Hno) as [Hrun Hready'].
  pose proof (stored_grown _ _ _ _ Hr Hv Hno) as Hg.
  destruct (IH (count + 1) (stored row.1.1 v d) Hready' H2) as (d' & Hd' & Hrd & Hgd & Hi).
  { rewrite Forall_forall in *. intros x Hx. destruct (H4 x Hx) as (Hxno & rx & Hrx & Ex).
    split; [|by exists rx]. cbn. rewrite lookup_insert_ne; [done|]. intros E. apply H1.
    rewrite E. apply list_elem_of_fmap. by exists x. }
  exists d'. split_and!; [|done|by eapply grown_trans|].
  - assert (Hbody : row.2 = r_body r) by by rewrite Hrow.
    cbn [fold_sql]. rewrite Hbody, Hv.
    unfold mbind at 1, Sql_bind at 1. cbv beta. unfold mbind at 1, Sql_bind at 1, attempt at 1. cbv beta.
    rewrite Hrun. cbn [is_ok].
    etrans; [exact Hd'|]. do 2 f_equal. cbn [length]. lia.
  - intros i. rewrite Hi. cbn. rewrite elem_of_cons, lookup_insert_None.
    split; [intros [[? Hne] ?]; split; [done|]; intros [->|?]; done|].
    intros [? Hn]. split_and!; [done| |by intros ?; apply Hn; right].
    intros E. apply Hn. by left.
Qed.

(** The rows without a vector, as the query lists them. *)
Definition listing (d : Db) : list (Z * str * str) :=
  map (λ ir, (ir.1, r_project ir.2, r_body ir.2)) (rev (unembedded d)).

Lemma listing_ids d : map (λ row, row.1.1) (listing d) = rev (unembedded d).*1.
Proof using. unfold listing. by rewrite map_map, map_rev. Qed.

Lemma listing_NoDup d : NoDup (map (λ row, row.1.1) (listing d)).
Proof using. rewrite listing_ids, <-Permutation_rev. apply rows_where_NoDup. Qed.

Lemma elem_of_unembedded d ir :
  ir ∈ unembedded d ↔ memories d !! ir.1 = Some ir.2 ∧ embeddings d !! ir.1 = None.
Proof using. unfold unembedded. by rewrite elem_of_rows_where, bool_decide_eq_true. Qed.

Lemma listing_pending d : Forall (pending d) (listing d).
Proof using.
  apply Forall_map, Forall_forall. intros [i r]. rewrite elem_of_rev.
  intros [Hm He]%elem_of_unembedded. split; [done|by exists r].
Qed.

Lemma backlog_shrinks d d' k : memories d' = memories d →
  (∀ i, embeddings d' !! i = None ↔
        embeddings d !! i = None ∧ i ∉ map (λ row, row.1.1) (take k (listing d))) →
  backlog d' = (backlog d - k)%nat.
Proof using.
  intros Hm He. unfold backlog.
  assert (Hp : (unembedded d').*1 ≡ₚ drop k (map (λ row, row.1.1) (listing d))).
  { pose proof (listing_NoDup d) as Hnd. apply NoDup_Permutation; [apply rows_where_NoDup| |].
    - rewrite <-(take_drop k), NoDup_app in Hnd. apply Hnd.
    - intros i. rewrite <-(take_drop k (map _ _)), NoDup_app in Hnd. destruct Hnd as (_ & Hdis & _).
      rewrite firstn_map in Hdis. rewrite list_elem_of_fmap. split.
      + intros ([j r] & -> & [Hj Hno]%elem_of_unembedded). cbn [fst snd] in *. rewrite Hm in Hj.
        apply He in Hno as [Hno Hout].
        assert (Hin : j ∈ map (λ row, row.1.1) (listing d)).
        { rewrite listing_ids, elem_of_rev. apply list_elem_of_fmap. exists (j, r).
          split; [done|]. by apply elem_of_unembedded. }
        rewrite <-(take_drop k (map _ _)), elem_of_app, firstn_map in Hin. by destruct Hin.
      + intros Hi.
        assert (Hin : i ∈ map (λ row, row.1.1) (listing d)) by
          (rewrite <-(take_drop k (map _ _)), elem_of_app; by right).
        rewrite listing_ids, elem_of_rev, list_elem_of_fmap in Hin.
        destruct Hin as ([j r] & -> & [Hj Hno]%elem_of_unembedded). exists (j, r). split; [done|].
        apply elem_of_unembedded. cbn [fst snd] in *. rewrite Hm. split; [done|]. apply He.
        split; [done|]. intros Htake. by apply (Hdis j). }
  apply Permutation_length in Hp.
  by rewrite length_fmap, length_drop, listing_ids, length_rev, length_fmap in Hp.
Qed.

(** One sweep: at least one row when any is left. *)
Lemma sweep_progress d : ready d → ∃ d' k,
  opportunistic_embed_sweep e (mkWorld d []) = (Ok (N.of_nat k), mkWorld d' []) ∧
  ready d' ∧ grown d d' ∧ backlog d' = (backlog d - k)%nat ∧ (k = 0%nat → backlog d = 0%nat).
Proof using works n_positive n_small.
  intros Hready. unfold opportunistic_embed_sweep, unembedded_count, unembedded_batch.
  fold (backlog d). unfold attempt, query, stmt. unfold mbind at 1, Sql_bind at 1. cbv beta.
  cbn [faults db]. fold (backlog d).
  set (batch := opportunistic_embed_batch_size (N.of_nat (backlog d))).
  assert (Hbatch : (batch = 0 ↔ backlog d = 0%nat)).
  { unfold batch, opportunistic_embed_batch_size.
    destruct (N.eqb_spec (N.of_nat (backlog d)) 0); lia. }
  destruct (N.eqb_spec batch 0) as [Hz|Hz].
  { exists d, 0%nat. split_and!; [done|done|apply grown_refl|lia|lia]. }
  unfold mbind at 1, Sql_bind at 1. cbv beta. cbn [faults db].
  assert (Hrows : ∃ k, limit_rows batch (listing d) = take k (listing d) ∧
                       length (take k (listing d)) = k ∧ k ≠ 0%nat).
  { unfold limit_rows.
    assert (Hl : length (listing d) = backlog d) by (unfold listing; by rewrite length_map, length_rev).
    destruct (batch <=? _).
    - exists (N.to_nat batch `min` backlog d)%nat. rewrite length_take, Hl.
      split_and!; [|lia|lia]. destruct (Nat.le_ge_cases (N.to_nat batch) (backlog d)) as [Hle|Hge].
      + by rewrite Nat.min_l.
      + rewrite Nat.min_r by done. by rewrite !take_ge by lia.
    - exists (backlog d). rewrite length_take, Hl. rewrite take_ge by lia. split_and!; [done|lia|lia]. }
  destruct Hrows as (k & Hk & Hlen & Hk0). fold (listing d). rewrite Hk.
  destruct (sweep_rows (take k (listing d)) 0 d Hready) as (d' & Hrun & Hr' & Hg & Hi).
  { rewrite <-firstn_map. pose proof (listing_NoDup d) as Hnd.
    rewrite <-(take_drop k), NoDup_app in Hnd. apply Hnd. }
  { apply Forall_take, listing_pending. }
  exists d', k. split_and!; [|done|done| |lia].
  - etrans; [exact Hrun|]. by rewrite Hlen.
  - apply backlog_shrinks; [apply Hg|done].
Qed.

(** The backlog drains.  With an embedder that answers every text with a vector of
    one length, a registry that does not contradict it and a database that does not
    fail, [k] sweeps embed every row once [k] reaches the number of rows without a
    vector: each gets the vector of its body, and no row and no earlier vector
    changes. *)
Theorem sweeps_drain_backlog d k : ready d → (backlog d ≤ k)%nat →
  ∃ d', sweeps k e (mkWorld d []) = (Ok (), mkWorld d' []) ∧ store_ok d' ∧
    memories d' = memories d ∧ embeddings d ⊆ embeddings d' ∧
    ∀ id r, memories d !! id = Some r → embeddings d !! id = None → ∃ v,
      embed_one e (r_body r) = Ok v ∧
      embeddings d' !! id = Some (model_name e, vector_to_blob v).
Proof using works n_positive n_small.
  intros Hready Hk.
  assert (Hdrain : ∀ k d, ready d → (backlog d ≤ k)%nat → ∃ d',
    sweeps k e (mkWorld d []) = (Ok (), mkWorld d' []) ∧ ready d' ∧ grown d d' ∧ backlog d' = 0%nat).
  { clear d k Hready Hk. induction k as [|k IH]; intros d Hready Hk.
    { exists d. split_and!; [done|done|apply grown_refl|lia]. }
    destruct (sweep_progress d Hready) as (d1 & j & Hrun & Hr1 & Hg1 & Hb & Hj).
    destruct (IH d1 Hr1) as (d' & Hd' & Hr' & Hg' & Hb'); [lia|].
    exists d'. split_and!; [|done|by eapply grown_trans|done].
    cbn [sweeps]. unfold mbind, Sql_bind. by rewrite Hrun. }
  destruct (Hdrain k d Hready Hk) as (d' & Hrun & [Hok _] & (Hm & Hsub & Hadd) & Hb).
  exists d'. split_and!; [done..|]. intros id r Hr Hno.
  destruct (embeddings d' !! id) as [x|] eqn:Hx.
  - destruct (Hadd id x Hx) as [?|(r' & v & Hr' & Hv & ->)]; [congruence|]. exists v.
    rewrite Hr in Hr'. by injection Hr' as ->.
  - exfalso. assert (Hin : (id, r) ∈ unembedded d')
      by (apply elem_of_unembedded; cbn; by rewrite Hm).
    apply length_zero_iff_nil in Hb. rewrite Hb in Hin. by apply elem_of_nil in Hin.
Qed.
End Sweep.

(** ** Two rows, none embedded *)
Module SweepDemo.

Definition row (body : str) : Row := mkRow $"p" $"note" body 0 $"project" $"{}" None None None.

Definition d : Db :=
  mkDb {[ 1%Z := row $"a"; 2%Z := row $"b" ]} 2 (mkFts [] false) ∅ ∅ ∅ ∅ ∅ ∅ ∅.

Definition e : Embedder := mkEmbedder $"m" (λ texts, Ok (map (λ _, [1065353216]) texts)).

Lemma d_ready : ready e 1 d.
Proof.
  split; [split|]; cbn -[i64_max].
  - done.
  - intros id [r [[<- _]|[_ [<- _]%lookup_singleton_Some]]%lookup_insert_Some]; done.
  - intros id x Hin. by rewrite lookup_empty in Hin.
  - intros src dst rel Hin. by apply elem_of_empty in Hin.
  - intros key id at_ Hin. by rewrite lookup_empty in Hin.
  - intros id model blob Hin. by rewrite lookup_empty in Hin.
  - intros i j x Hin. by rewrite lookup_empty in Hin.
  - intros k. by rewrite lookup_empty.
Qed.

Lemma works text : ∃ v, embed_one e text = Ok v ∧ vector_len v = 1.
Proof. by exists [1065353216]. Qed.
End SweepDemo.

Lemma sweeps_drain_backlog_witness : ∃ d',
  sweeps 2 SweepDemo.e (mkWorld SweepDemo.d []) = (Ok (), mkWorld d' []) ∧ store_ok d'.
Proof.
  destruct (sweeps_drain_backlog SweepDemo.e 1 SweepDemo.works ltac:(lia)
    ltac:(apply Z.leb_le; reflexivity) SweepDemo.d 2 SweepDemo.d_ready
    ltac:(vm_compute; lia)) as (d' & Hrun & Hok & _).
  exists d'. split; [exact Hrun|exact Hok].
Defined.
