(* ===== verification/MemSearch.v ===== *)
(** * The memory store's searches: correctness

    Queries given to the full-text engine, what recall may return, the totality of
    hybrid recall in the states the store reaches, and linking. *)
From stdpp Require Import gmap sets.
From S2P Require Import Prelude Str Words Error F64 F32 MemDb MemStore MemRows MemRecall MemFuse.

(** The null probe of a text has its words, each spelled backwards, and the probe of
    the probe is the text again with its white space normalised; so a probe keeps the
    number and the lengths of the words and nothing of what they say. *)
Theorem null_probe_involution text :
  split_whitespace (null_probe_text text) = map (@rev char) (split_whitespace text) ∧
  null_probe_text (null_probe_text text) = join [ch_space] (split_whitespace text).
Proof.
  assert (E : split_whitespace (null_probe_text text) = map (@rev char) (split_whitespace text)).
  { apply split_join_words. apply Forall_map. eapply Forall_impl; [apply split_whitespace_tokens|].
    apply rev_token. }
  split; [done|]. unfold null_probe_text at 1. rewrite E, map_map. f_equal.
  rewrite <-map_id. apply map_ext. apply rev_involutive.
Qed.

(** ** Linking *)

(** An edge linking may add: from an extracted memory to another row of the project. *)
Definition link_edge (project : str) (sources : list Z) (relation : str) (M : gmap Z Row) (e : Edge) : Prop :=
  e.2 = relation ∧ e.1.1 ∈ sources ∧ e.1.1 ≠ e.1.2 ∧
  ∃ row, M !! e.1.2 = Some row ∧ r_project row = project.

(** [n] edges were added to those of [d0], all of that kind. *)
Definition linked (project : str) (sources : list Z) (relation : str) (d0 : Db) (n : N) (d : Db) : Prop :=
  memories d = memories d0 ∧ edges d0 ⊆ edges d ∧ N.of_nat (size (edges d ∖ edges d0)) = n ∧
  ∀ e, e ∈ edges d → e ∉ edges d0 → link_edge project sources relation (memories d0) e.

Lemma linked_add project sources relation d0 n d src dst :
  linked project sources relation d0 n d → (src, dst, relation) ∉ edges d →
  link_edge project sources relation (memories d0) (src, dst, relation) →
  linked project sources relation d0 (n + 1) (with_edges (λ s, {[(src, dst, relation)]} ∪ s) d).
Proof.
  intros (Hm & Hsub & Hn & Hall) Hnew Hlink. unfold linked. cbn [memories edges with_edges].
  split_and!; [done|set_solver| |].
  - assert (E : ({[(src, dst, relation)]} ∪ edges d) ∖ edges d0 =
                {[(src, dst, relation)]} ∪ (edges d ∖ edges d0)) by set_solver.
    rewrite E, size_union by set_solver. rewrite size_singleton. lia.
  - intros e [->%elem_of_singleton|Hin]%elem_of_union Hout; [done|by apply Hall].
Qed.

Lemma triple_fold_sql {A S} (I : S → Db → Prop) (E : Db → Prop) (f : S → A → Sql S) l :
  (∀ s x, x ∈ l → triple (I s) (f s x) I E) → ∀ s, triple (I s) (fold_sql f s l) I E.
Proof.
  induction l as [|x l IH]; intros Hf s; cbn [fold_sql]; [by apply triple_ret|].
  eapply triple_bind; [apply Hf; left|]. intros s'. apply IH. intros s'' y Hy. apply Hf. by right.
Qed.

(** ** Queries the engine accepts *)

(** A bareword of the FTS5 query syntax that is no operator. *)
Definition bareword (w : str) : Prop :=
  w ≠ [] ∧ Forall (λ c, ascii_word c = true ∨ 128 ≤ c) w.

Section Search.
Context {U : Unicode} {UL : UnicodeLaws U}.
Context (fts_match : FtsIndex → str → Result (list Z)).

(** A sound index answers barewords joined by [OR] with row ids, each once. *)
Hypothesis fts_accepts : ∀ x ws, damaged x = false → ws ≠ [] → Forall bareword ws →
  ∃ ids, fts_match x (join $" OR " ws) = Ok ids.
Hypothesis fts_once : ∀ x q ids, fts_match x q = Ok ids → NoDup ids.

Lemma fts_terms_barewords q : Forall bareword (fts_terms q).
Proof using UL.
  apply Forall_forall. intros w Hw. unfold fts_terms in Hw.
  apply elem_of_take_in, elem_of_filter_bool in Hw as [Hlen Hw].
  apply andb_true_iff in Hlen as [Hlen _]. apply list_elem_of_fmap in Hw as (t & -> & Ht).
  split; [by destruct (to_lowercase t)|]. apply Forall_forall. intros c Hc.
  destruct (N.lt_ge_cases c 128) as [Hlt|Hge]; [|by right]. left.
  apply (lowercase_ascii t); [|done|done]. apply forallb_forall. intros x Hx%list_elem_of_In.
  assert (Hws : is_whitespace x = false).
  { pose proof (split_whitespace_tokens (map (λ c, if is_alphanumeric c then c else ch_space) q)) as Htk.
    rewrite Forall_forall in Htk. destruct (Htk t Ht) as [_ Hnw]. rewrite Forall_forall in Hnw.
    by apply Hnw. }
  apply (split_whitespace_chars _ _ x) in Ht; [|done].
  apply list_elem_of_fmap in Ht as (y & -> & _). by destruct (is_alphanumeric y) eqn:Ey.
Qed.

Lemma fts_terms_length q : (length (fts_terms q) ≤ FTS_MAX_TERMS)%nat.
Proof using. unfold fts_terms. rewrite length_take. lia. Qed.

(** What full-text recall may answer from a state. *)
Definition answers (keep : Row → bool) (limit : N) (d : Db) (recs : list MemoryRecord) : Prop :=
  (limit ≤ Z.to_N i64_max → N.of_nat (length recs) ≤ limit) ∧
  NoDup (map m_id recs) ∧
  Forall (λ r, ∃ row, memories d !! m_id r = Some row ∧ keep row = true ∧
                      r = record_of (m_id r, row)) recs.

Lemma answers_nil keep limit d : answers keep limit d [].
Proof using. split_and!; [cbn; lia|apply NoDup_nil_2|constructor]. Qed.

Lemma joined_sublist d ids : (joined d ids).*1 `sublist_of` ids.
Proof using.
  unfold joined. induction ids as [|id ids IH]; [done|]. cbn.
  destruct (memories d !! id); cbn; by constructor.
Qed.

Lemma limit_rows_sublist {A} limit (l : list A) : limit_rows limit l `sublist_of` l.
Proof using. unfold limit_rows. destruct (limit <=? _); [apply sublist_take|done]. Qed.

Lemma matching_answers keep query limit d ids : fts_match (fts d) query = Ok ids →
  answers keep limit d (map record_of (limit_rows limit
    (List.filter (λ ir, keep ir.2) (joined d ids)))).
Proof using fts_once.
  intros Hm. set (rows := List.filter (λ ir, keep ir.2) (joined d ids)).
  assert (Hsub : limit_rows limit rows `sublist_of` joined d ids)
    by (etrans; [apply limit_rows_sublist|apply List_filter_sublist]).
  split_and!.
  - intros Hl. rewrite length_map. unfold limit_rows. apply N.leb_le in Hl as ->.
    rewrite length_take. lia.
  - rewrite map_map. eapply sublist_NoDup; [by eapply fts_once|]. etrans; [|apply joined_sublist].
    rewrite (map_ext _ fst) by done. by apply fmap_sublist.
  - apply Forall_map, Forall_forall. intros [id row] Hin.
    apply elem_of_sublist with (l2 := rows) in Hin; [|apply limit_rows_sublist].
    apply elem_of_filter_bool in Hin as [Hk Hin]. unfold joined in Hin.
    apply list_elem_of_omap in Hin as (id' & _ & Hb).
    destruct (memories d !! id') as [r|] eqn:Hr; [|done]. injection Hb as -> ->.
    exists row. by split_and!.
Qed.

Lemma with_fallback_answers keep query limit d : damaged (fts d) = false →
  ∃ recs, with_fallback (λ q, matching fts_match keep q limit) query (mkWorld d []) =
    (Ok recs, mkWorld d []) ∧ answers keep limit d recs.
Proof using UL fts_accepts fts_once.
  intros Hd. unfold with_fallback, matching, attempt, stmt, mbind, Sql_bind. cbn [faults db].
  destruct (fts_match (fts d) query) as [ids|e] eqn:Hm.
  { eexists. split; [done|]. by eapply matching_answers. }
  unfold sanitize_fts_query. pose proof (fts_terms_barewords query) as Hw.
  destruct (fts_terms query) as [|t ts] eqn:Ht.
  { exists []. split; [done|apply answers_nil]. }
  destruct (fts_accepts (fts d) (t :: ts) Hd ltac:(done) Hw) as [ids Hids].
  cbn [faults db]. rewrite Hids. eexists. split; [done|]. by eapply matching_answers.
Qed.

(** Full-text recall never fails on a query, however the user wrote it: what the
    engine rejects is retried as plain words joined by [OR], which it accepts.  Every
    answer is a stored row of the project, or of one of the scopes the caller named,
    each once, no more than the limit, and nothing is written. *)
Theorem recall_never_rejects project query limit scopes d : damaged (fts d) = false →
  ∃ recs, recall_bm25_scoped fts_match project query limit scopes (mkWorld d []) =
    (Ok recs, mkWorld d []) ∧
  answers (λ r, str_eqb (r_project r) project
                || str_mem (r_scope r) (map MemoryScope_as_str scopes)) limit d recs.
Proof using UL fts_accepts fts_once.
  intros Hd. destruct scopes as [|s scopes]; [|by apply with_fallback_answers].
  destruct (with_fallback_answers (λ r, str_eqb (r_project r) project) query limit d Hd)
    as (recs & Hrun & Hlen & Hnd & Hall).
  exists recs. split; [done|]. split_and!; [done..|].
  eapply Forall_impl; [apply Hall|]. intros r (row & Hr & Hk & E). exists row.
  split_and!; [done| |done]. cbn. by rewrite orb_false_r.
Qed.

(** *** Dense ranking *)

Definition scored_row (q : list N) (rb : Z * Row * list N) : ScoredRecord :=
  mkScored (record_of rb.1) (cosine q (blob_chunks rb.2)).

Lemma score_rows_ok q rows sum sum_sq :
  Forall (λ rb : Z * Row * list N, ∃ n, length rb.2 = (4 * n)%nat) rows →
  ∃ s1 s2, score_rows q rows sum sum_sq = Ok (map (scored_row q) rows, s1, s2).
Proof using.
  intros H. revert sum sum_sq. induction H as [|[ir blob] rows [n Hn] _ IH]; intros sum sum_sq.
  { by exists sum, sum_sq. }
  cbn [score_rows]. rewrite (vector_from_blob_aligned blob n Hn).
  unfold mbind, Result_bind. cbn -[cosine f64_add f64_mul f32_as_f64].
  match goal with |- context [score_rows q rows ?a ?b] => destruct (IH a b) as (s1 & s2 & ->) end.
  by exists s1, s2.
Qed.

Lemma elem_of_embedded_rows project model d ir blob : (ir, blob) ∈ embedded_rows project (Some model) d →
  memories d !! ir.1 = Some ir.2 ∧ r_project ir.2 = project ∧
  embeddings d !! ir.1 = Some (model, blob).
Proof using.
  unfold embedded_rows. intros (ir' & Hin & Hb)%list_elem_of_omap.
  unfold table in Hin. rewrite elem_of_sort_by in Hin. destruct ir' as [i row].
  apply elem_of_map_to_list in Hin. cbn [fst] in Hb.
  destruct (embeddings d !! i) as [[m b]|] eqn:He; [|done]. cbn in Hb.
  destruct (in_project project (i, row)) eqn:Hp; [|done]. cbn in Hb.
  destruct (str_eqb m model) eqn:Hm; [|done]. injection Hb as <- <-.
  apply str_eqb_eq in Hm as ->. split_and!; [done| |done]. by apply str_eqb_eq in Hp.
Qed.

Lemma embedded_rows_once project model d : NoDup (map (λ rb : Z * Row * list N, rb.1.1) (embedded_rows project model d)).
Proof using.
  assert (Hsub : map (λ rb : Z * Row * list N, rb.1.1) (embedded_rows project model d)
                 `sublist_of` (table d).*1).
  { unfold embedded_rows. induction (table d) as [|ir l IH]; [done|]. cbn.
    destruct (embeddings d !! ir.1) as [[m b]|]; cbn; [|by constructor].
    destruct (in_project project ir && _); cbn; by constructor. }
  eapply sublist_NoDup; [|exact Hsub]. unfold table. rewrite sort_by_perm.
  apply NoDup_fst_map_to_list.
Qed.

(** What dense ranking may answer from a state. *)
Definition dense_answers (project : str) (q : list N) (model : str) (d : Db) (s : ScoredRecord) : Prop :=
  ∃ row blob, memories d !! m_id (sc_record s) = Some row ∧ r_project row = project ∧
    sc_record s = record_of (m_id (sc_record s), row) ∧
    embeddings d !! m_id (sc_record s) = Some (model, blob) ∧
    sc_score s = cosine q (blob_chunks blob).

Lemma rank_by_vector_ok project q limit model d : store_ok d →
  ∃ scored bg, rank_by_vector project q limit (Some model) (mkWorld d []) =
    (Ok (scored, bg), mkWorld d []) ∧
    NoDup (map (λ s, m_id (sc_record s)) scored) ∧
    Forall (dense_answers project q model d) scored ∧
    population bg = N.of_nat (length (embedded_rows project (Some model) d)).
Proof using.
  intros Hok. set (rows := embedded_rows project (Some model) d).
  destruct (score_rows_ok q rows f64_zero f64_zero) as (s1 & s2 & Hs).
  { apply Forall_forall. intros [ir blob] (_ & _ & He)%elem_of_embedded_rows.
    destruct (ok_dimensions d Hok _ _ _ He) as (n & _ & _ & Hn). by exists n. }
  unfold rank_by_vector, stmt. cbn [faults db]. fold rows. rewrite Hs.
  eexists _, _. split; [done|].
  set (sorted := sort_by by_score (map (scored_row q) rows)).
  assert (Hperm : sorted ≡ₚ map (scored_row q) rows) by apply sort_by_perm.
  split_and!.
  - apply (sublist_NoDup _ (map (λ s, m_id (sc_record s)) sorted));
      [|apply fmap_sublist, sublist_take].
    rewrite Hperm, map_map. apply embedded_rows_once.
  - apply Forall_forall. intros s Hin%elem_of_take_in. rewrite Hperm in Hin.
    apply list_elem_of_fmap in Hin as ([[i row] blob] & -> & Hrb).
    apply elem_of_embedded_rows in Hrb as (Hm & Hp & He). exists row, blob. by split_and!.
  - unfold background_of. rewrite length_map. destruct (N.eqb_spec (N.of_nat (length rows)) 0); done.
Qed.

(** *** Both together *)

(** A hit of hybrid recall: a stored row of the project, and its similarity, when it has
    one, is that of its stored vector to the query's. *)
Definition hybrid_answer (project : str) (q : list N) (model : str) (d : Db) (h : HybridHit) : Prop :=
  ∃ row, memories d !! m_id (h_record h) = Some row ∧ r_project row = project ∧
    h_record h = record_of (m_id (h_record h), row) ∧
    ∀ s, h_similarity h = Some s → ∃ blob,
      embeddings d !! m_id (h_record h) = Some (model, blob) ∧ s = cosine q (blob_chunks blob).

Lemma reference_hit_answer project q model limit d bm25 dense id h :
  answers (λ r, str_eqb (r_project r) project) limit d bm25 →
  Forall (dense_answers project q model d) dense →
  reference_hit bm25 dense id = Some h → hybrid_answer project q model d h.
Proof using.
  intros (_ & _ & Hb) Hd Hh. rewrite Forall_forall in Hb. rewrite (Forall_forall (dense_answers project q model d)) in Hd.
  unfold reference_hit, text_rank, dense_rank in Hh.
  assert (Htext : ∀ i r, list_find (λ r, m_id r = id) bm25 = Some (i, r) → m_id r = id ∧
    ∃ row, memories d !! m_id r = Some row ∧ r_project row = project ∧ r = record_of (m_id r, row)).
  { intros i r (Hi & Hid & _)%list_find_Some. split; [done|].
    destruct (Hb r (list_elem_of_lookup_2 _ _ _ Hi)) as (row & Hm & Hp%str_eqb_eq & E). by exists row. }
  assert (Hdense : ∀ j s, list_find (λ s, m_id (sc_record s) = id) dense = Some (j, s) →
    m_id (sc_record s) = id ∧ dense_answers project q model d s).
  { intros j s (Hj & Hid & _)%list_find_Some. split; [done|].
    by apply Hd, (list_elem_of_lookup_2 _ j). }
  destruct (list_find _ bm25) as [[i r]|]; [destruct (Htext i r eq_refl) as (Hid & row & Hm & Hp & E)|];
    (destruct (list_find _ dense) as [[j s]|];
     [destruct (Hdense j s eq_refl) as (Hid' & row' & blob & Hm' & Hp' & E' & He & Hs)|]);
    try done; injection Hh as <-; unfold hybrid_answer; cbn [h_record h_similarity].
  - exists row. split_and!; try done. intros s' [= <-]. exists blob. by rewrite Hid, <-Hid'.
  - exists row. by split_and!.
  - exists row'. split_and!; try done. intros s' [= <-]. by exists blob.
Qed.

(** Hybrid recall succeeds in every state the store reaches, once the embedder has
    answered: no stored vector is malformed and no query is rejected.  It changes
    nothing and answers at most [limit] stored rows of the project, each once, best
    first, with the similarity of the vector stored under the embedder's model; there
    is background statistics exactly when some row of the project is embedded. *)
Theorem recall_hybrid_total project query e d vector others :
  store_ok d → damaged (fts d) = false →
  embed e (q_semantic query :: match q_null_probe query with Some p => [p] | None => [] end)
    = Ok (vector :: others) →
  ∃ r, recall_hybrid_scored fts_match project query e (mkWorld d []) = (Ok r, mkWorld d []) ∧
    (length (hits r) ≤ N.to_nat (q_limit query))%nat ∧
    NoDup (map (m_id ∘ h_record) (hits r)) ∧
    StronglySorted (λ a b, by_fused a b = Lt) (hits r) ∧
    Forall (hybrid_answer project vector (model_name e) d) (hits r) ∧
    (background r = None ↔ embedded_rows project (Some (model_name e)) d = []).
Proof using UL fts_accepts fts_once.
  intros Hok Hdam Hemb.
  destruct (with_fallback_answers (λ r, str_eqb (r_project r) project) (q_bm25 query)
    (fetch_size (q_limit query)) d Hdam) as (bm25 & Hbm & Hans).
  destruct (rank_by_vector_ok project vector (fetch_size (q_limit query)) (model_name e) d Hok)
    as (dense & bg & Hrank & Honce & Hdense & Hpop).
  unfold recall_hybrid_scored, lift. rewrite Hemb.
  change (recall_bm25 fts_match project (q_bm25 query) (fetch_size (q_limit query))) with
    (with_fallback (λ q, matching fts_match (λ r, str_eqb (r_project r) project) q
       (fetch_size (q_limit query))) (q_bm25 query)).
  unfold mbind, Sql_bind. rewrite Hbm, Hrank. eexists. split; [done|]. cbn [hits background fst snd].
  set (values := omap (reference_hit bm25 dense) (ranked_ids bm25 dense)).
  destruct (fuse_spec (q_limit query) bm25 dense values) as (Heq & Hlen & Hnd & Hsort & _);
    [apply Hans|done|done|].
  split_and!; [lia|done|done| |].
  - apply Forall_forall. intros h Hh. rewrite <-Heq in Hh. apply elem_of_take_in in Hh.
    rewrite elem_of_sort_by in Hh. apply list_elem_of_omap in Hh as (id & _ & Hid).
    by eapply reference_hit_answer.
  - rewrite Hpop. destruct (embedded_rows project (Some (model_name e)) d); [done|].
    by destruct (N.eqb_spec (N.of_nat (length (p :: l))) 0).
Qed.

(** *** Linking *)

(** A query leaves what it found. *)
Lemma triple_matching (P : Db → Prop) keep query limit :
  triple P (matching fts_match keep query limit) (λ recs d, answers keep limit d recs ∧ P d) P.
Proof using fts_once.
  apply triple_stmt; [done|]. intros d HP.
  destruct (fts_match (fts d) query) as [ids|e] eqn:Hm; [|done].
  split; [by eapply matching_answers|done].
Qed.

Lemma triple_recall_bm25 (P : Db → Prop) project query limit :
  triple P (recall_bm25 fts_match project query limit)
    (λ recs d, answers (λ r, str_eqb (r_project r) project) limit d recs ∧ P d) P.
Proof using fts_once.
  unfold recall_bm25, with_fallback. eapply triple_bind.
  - eapply (triple_weaken P P _ _ _ _ (λ _, False)); [apply triple_attempt, triple_matching|done..].
  - intros [recs|e]; [by apply triple_ret|].
    destruct (sanitize_fts_query query); [apply triple_matching|].
    apply triple_ret. intros d HP. split; [apply answers_nil|done].
Qed.

Lemma link_hit project sources relation d0 src hit :
  src ∈ sources → (∃ row, memories d0 !! m_id hit = Some row ∧ r_project row = project) → ∀ n,
  triple (linked project sources relation d0 n)
    (if (m_id hit =? src)%Z then mret n
     else fresh ← add_edge src (m_id hit) relation; mret (if fresh : bool then n + 1 else n))
    (linked project sources relation d0) (λ d, ∃ n, linked project sources relation d0 n d).
Proof using.
  intros Hsrc Hrow n. destruct (Z.eqb_spec (m_id hit) src) as [|Hne]; [by apply triple_ret|].
  eapply (triple_bind _ _ (λ fresh d, linked project sources relation d0
    (if fresh : bool then n + 1 else n) d)); [|intros fresh; by apply triple_ret].
  apply triple_stmt; [by eauto|]. intros d HL.
  destruct (bool_decide_reflect ((src, m_id hit, relation) ∈ edges d)) as [|Hnew]; [done|].
  destruct (has_memory src d && has_memory (m_id hit) d); [|by exists n].
  apply linked_add; [done..|]. split_and!; [done..|]. cbn. congruence.
Qed.

(** Linking adds exactly the edges it counts, even when statements fail along the
    way: from the memory an entity was extracted from to another row of the same
    project, under the given relation, never to itself; no row changes and no edge is
    lost. *)
Theorem link_extracted_counts project extracted relation w :
  match link_extracted fts_match project extracted relation w with
  | (Ok n, w') => linked project (map fst extracted) relation (db w) n (db w')
  | (Err _, w') => ∃ n, linked project (map fst extracted) relation (db w) n (db w')
  end.
Proof using fts_once.
  set (I := linked project (map fst extracted) relation (db w)).
  cut (triple (I 0) (link_extracted fts_match project extracted relation) I (λ d, ∃ n, I n d)).
  { intros T. apply T. split_and!; [done|done| |done].
    by rewrite difference_diag_L, size_empty. }
  apply triple_fold_sql. intros n [src entities] Hsrc.
  assert (Hin : src ∈ map fst extracted) by (apply list_elem_of_fmap; by exists (src, entities)).
  apply triple_fold_sql. intros m entity _. cbn [fst].
  destruct (is_empty (strip_quotes entity)); [by apply triple_ret|].
  eapply triple_bind.
  { eapply (triple_weaken (I m) (I m) _ _ _ _ (λ _, False));
      [apply triple_attempt, (triple_recall_bm25 (I m))|done..]. }
  intros [hs|e]; [|by apply triple_ret].
  intros w1 [(_ & _ & Hans) HI]. assert (Hm : memories (db w1) = memories (db w)) by apply HI.
  rewrite Hm in Hans. apply (triple_fold_sql I (λ d, ∃ n, I n d)); [|done].
  intros k hit Hhit. apply link_hit; [done|]. rewrite Forall_forall in Hans.
  destruct (Hans hit Hhit) as (row & Hr & Hp%str_eqb_eq & _). by exists row.
Qed.
End Search.

(** ** Witnesses *)

(** ASCII text, and an engine that takes words and [OR]. *)
Module SearchDemo.

#[local] Instance ascii : Unicode := {
  is_alphanumeric c := ascii_word (ascii_lower c);
  to_lowercase := to_ascii_lowercase;
}.

#[local] Instance ascii_laws : UnicodeLaws ascii.
Proof.
  split. intros s c Hs Hc _. apply list_elem_of_fmap in Hc as (x & -> & Hx).
  rewrite forallb_forall in Hs. by apply Hs, list_elem_of_In.
Qed.

Definition plain (c : char) : bool :=
  ascii_word c || (128 <=? c) || (c =? ch_space) || (c =? 79) || (c =? 82).

Definition engine (x : FtsIndex) (q : str) : Result (list Z) :=
  if forallb plain q then
    Ok (remove_dups (map fst (List.filter (λ p : Z * str,
      existsb (λ w, str_mem w (split_whitespace p.2)) (split_whitespace q)) (postings x))))
  else Err (Memory $"fts5: syntax error").

Lemma plain_word w : bareword w → forallb plain w = true.
Proof.
  intros [_ Hw]. apply forallb_forall. intros c Hc%list_elem_of_In. rewrite Forall_forall in Hw.
  unfold plain. destruct (Hw c Hc) as [->|Hge]; [done|]. apply N.leb_le in Hge as ->.
  by rewrite orb_true_r.
Qed.

Lemma engine_accepts x ws : damaged x = false → ws ≠ [] → Forall bareword ws →
  ∃ ids, engine x (join $" OR " ws) = Ok ids.
Proof.
  intros _ _ Hws. unfold engine.
  assert (forallb plain (join $" OR " ws) = true) as ->; [|by eexists].
  induction Hws as [|w ws Hw Hws IH]; [done|]. destruct ws as [|w' ws]; [by apply plain_word|].
  change (join $" OR " (w :: w' :: ws)) with (w ++ $" OR " ++ join $" OR " (w' :: ws)).
  rewrite !forallb_app, IH, plain_word by done. done.
Qed.

Lemma engine_once x q ids : engine x q = Ok ids → NoDup ids.
Proof. unfold engine. destruct (forallb plain q); [|done]. intros [= <-]. apply NoDup_remove_dups. Qed.

Definition row (body : str) : Row := mkRow $"p" $"note" body 0 $"project" $"{}" None None None.

(** Two notes, the first with a vector. *)
Definition d : Db :=
  mkDb {[ 1%Z := row $"rust and axum"; 2%Z := row $"axum handler" ]} 2
    (mkFts [(1%Z, $"rust and axum"); (2%Z, $"axum handler")] false)
    {[ 1%Z := ($"m", vector_to_blob [1065353216]) ]} {[ $"m" := 1%Z ]} ∅ ∅ ∅ ∅ ∅.

Lemma demo_store_ok : store_ok d.
Proof.
  split; cbn -[i64_max].
  - done.
  - intros id [r [[<- _]|[_ [<- _]%lookup_singleton_Some]]%lookup_insert_Some]; done.
  - intros id e Hin%lookup_singleton_Some. destruct Hin as [<- _]. done.
  - intros src dst rel Hin. by apply elem_of_empty in Hin.
  - intros key id at_ Hin. by rewrite lookup_empty in Hin.
  - intros id model blob [<- [= <- <-]]%lookup_singleton_Some. exists 1%nat. split_and!; [done|lia|done].
  - intros i j e Hin. by rewrite lookup_empty in Hin.
Qed.

Definition embedder : Embedder := mkEmbedder $"m" (λ texts, Ok (map (λ _, [1065353216]) texts)).

Example recall_operators :
  (map m_id <$> (recall_bm25_scoped engine $"p" $"axum-core; (handler" 5 [] (mkWorld d [])).1)
  = Ok [1; 2]%Z.
Proof. vm_compute. reflexivity. Qed.
End SearchDemo.

Import SearchDemo.
#[local] Existing Instances SearchDemo.ascii SearchDemo.ascii_laws.

Lemma recall_never_rejects_witness :
  ∃ recs, recall_bm25_scoped engine $"p" $"axum-core; (handler" 5 [User] (mkWorld d []) =
    (Ok recs, mkWorld d []).
Proof.
  destruct (recall_never_rejects engine engine_accepts engine_once $"p" $"axum-core; (handler" 5
    [User] d eq_refl) as (recs & Hrun & _).
  exists recs. exact Hrun.
Defined.

Lemma recall_hybrid_total_witness :
  ∃ r, recall_hybrid_scored engine $"p" (mkQuery $"handler" $"rust" None 5) embedder (mkWorld d [])
    = (Ok r, mkWorld d []) ∧ (length (hits r) ≤ 5)%nat.
Proof.
  destruct (recall_hybrid_total engine engine_accepts engine_once $"p"
    (mkQuery $"handler" $"rust" None 5) embedder d [1065353216] [] demo_store_ok eq_refl eq_refl)
    as (r & Hrun & Hlen & _).
  exists r. split; [exact Hrun|exact Hlen].
Defined.

Lemma link_extracted_counts_witness :
  linked $"p" [2%Z] $"mentions" d 1
    (db (link_extracted engine $"p" [(2%Z, [$"axum"])] $"mentions" (mkWorld d [])).2).
Proof.
  pose proof (link_extracted_counts engine engine_once $"p" [(2%Z, [$"axum"])] $"mentions"
    (mkWorld d [])) as Hl.
  destruct (link_extracted engine $"p" [(2%Z, [$"axum"])] $"mentions" (mkWorld d [])) as [r w'] eqn:E.
  assert (Hr : r = Ok 1) by (apply (f_equal fst) in E; cbn [fst] in E; rewrite <-E; vm_compute; reflexivity).
  subst r. exact Hl.
Defined.
