(* ===== verification/Fs.v ===== *)
(** * A POSIX file system

    The calls of [std::fs] the program uses to keep its private state: looking at a
    path without following its last component, resolving a path, creating
    directories and files, changing modes, renaming and removing.  The tree maps
    real paths to nodes; symbolic links are followed the way the kernel does, at most
    forty per path.  Every call may fail from outside: the world holds the outcomes
    of the calls to come. *)
From stdpp Require Import gmap sets.
From S2P Require Import Prelude Str.

(** An absolute path: its components below the root.  Components are names, or [..]. *)
Abbreviation Path := (list str) (only parsing).

Definition dotdot : str := $"..".

Inductive Kind :=
| Dir
| File (contents : list N)
| Symlink (absolute : bool) (target : Path).

Record Node := mkNode {
  node_kind : Kind;
  node_uid : N;
  node_mode : N; (* the permission bits, [mode & 0o7777] *)
}.

(** The instances are named so that no binder is mistaken for one. *)
Abbreviation Fs := (@gmap Path (@list_eq_dec (list N) (@list_eq_dec N N.eq_dec))
  (@list_countable (list N) (@list_eq_dec N N.eq_dec)
    (@list_countable N N.eq_dec N_countable)) Node) (only parsing).

Inductive IoKind := NotFound | AlreadyExists | PermissionDenied | NotADirectory | OtherIo.

Record IoError := mkIo {
  io_kind : IoKind;
  io_message : str;
}.

#[export] Instance IoKind_eq_dec : EqDecision IoKind.
Proof. solve_decision. Defined.

Definition not_found : IoError := mkIo NotFound $"No such file or directory".
Definition not_a_directory : IoError := mkIo NotADirectory $"Not a directory".
Definition already_exists : IoError := mkIo AlreadyExists $"File exists".
Definition link_loop : IoError := mkIo OtherIo $"Too many levels of symbolic links".

(** [Path::display]. *)
Definition display (p : Path) : str :=
  match p with [] => $"/" | _ => concat (map (λ c, ch_slash :: c) p) end.

(** ** Nodes *)

Definition is_dir (n : Node) : bool := match node_kind n with Dir => true | _ => false end.
Definition is_file (n : Node) : bool := match node_kind n with File _ => true | _ => false end.
Definition is_symlink (n : Node) : bool :=
  match node_kind n with Symlink _ _ => true | _ => false end.

(** ** Path resolution *)

Definition MAX_LINKS : nat := 40.

(** The real path of [base/rest], where [base] is real. *)
Fixpoint resolve_from (links : nat) (f : Fs) : Path → Path → IoError + Path :=
  fix go base rest :=
    match rest with
    | [] => inr base
    | c :: rest' =>
        if str_eqb c dotdot then go (removelast base) rest'
        else
          match f !! (base ++ [c]) with
          | None => inl not_found
          | Some n =>
              match node_kind n with
              | Dir => go (base ++ [c]) rest'
              | File _ => match rest' with
                          | [] => inr (base ++ [c])
                          | _ => inl not_a_directory
                          end
              | Symlink absolute target =>
                  match links with
                  | O => inl link_loop
                  | S links' => resolve_from links' f (if absolute then [] else base) (target ++ rest')
                  end
              end
          end
    end.

Definition resolve (f : Fs) (p : Path) : IoError + Path := resolve_from MAX_LINKS f [] p.

(** Where the last component of [p] lives: the real directory and the name. *)
Definition locate (f : Fs) (p : Path) : IoError + Path :=
  match last p with
  | None => inr []
  | Some name =>
      if str_eqb name dotdot then resolve f p
      else
        match resolve f (removelast p) with
        | inl e => inl e
        | inr dir =>
            match f !! dir with
            | Some n => if is_dir n then inr (dir ++ [name]) else inl not_a_directory
            | None => inl not_found
            end
        end
  end.

(** ** Calls *)

Record FsWorld := mkFsWorld {
  tree : Fs;
  io_faults : list (option IoError);
}.

(** What a call does when it does not fail from outside. *)
Definition Act (E A : Type) : Type := FsWorld → (E + A) * FsWorld.

#[export] Instance Act_ret {E} : MRet (Act E) := λ A a w, (inr a, w).
#[export] Instance Act_bind {E} : MBind (Act E) := λ A B k m w,
  match m w with
  | (inr a, w') => k a w'
  | (inl e, w') => (inl e, w')
  end.

Definition throw {E A} (e : E) : Act E A := λ w, (inl e, w).
Definition of_sum {E A} (r : E + A) : Act E A := λ w, (r, w).

(** [Result::map_err], and matching on the result. *)
Definition map_err {E F A} (g : E → F) (m : Act E A) : Act F A := λ w,
  match m w with
  | (inr a, w') => (inr a, w')
  | (inl e, w') => (inl (g e), w')
  end.
Definition try_ {E F A} (m : Act E A) : Act F (E + A) := λ w, let '(r, w') := m w in (inr r, w').

Definition call {A} (g : Fs → (IoError + A) * Fs) : Act IoError A := λ w,
  match io_faults w with
  | Some e :: fs => (inl e, mkFsWorld (tree w) fs)
  | None :: fs => let '(r, f) := g (tree w) in (r, mkFsWorld f fs)
  | [] => let '(r, f) := g (tree w) in (r, mkFsWorld f [])
  end.

Definition look {A} (g : Fs → IoError + A) : Act IoError A := call (λ f, (g f, f)).

(** [fs::symlink_metadata]. *)
Definition lstat (f : Fs) (p : Path) : IoError + Node :=
  match locate f p with
  | inl e => inl e
  | inr q => match f !! q with Some n => inr n | None => inl not_found end
  end.
Definition symlink_metadata (p : Path) : Act IoError Node := look (λ f, lstat f p).

(** [fs::canonicalize]. *)
Definition canonicalize (p : Path) : Act IoError Path := look (λ f, resolve f p).

Section Process.
Context (euid umask : N).

(** The bits a creation mode keeps. *)
Definition masked (mode : N) : N := N.ldiff mode umask.

(** [DirBuilder::mode(mode).create(path)]. *)
Definition create_dir (p : Path) (mode : N) : Act IoError () :=
  call (λ f,
    match locate f p with
    | inl e => (inl e, f)
    | inr q => match f !! q with
               | Some _ => (inl already_exists, f)
               | None => (inr (), <[q := mkNode Dir euid (masked mode)]> f)
               end
    end).

(** [OpenOptions::write(true).create_new(true).mode(mode).open(path)]: the real path
    of the new file stands for the descriptor. *)
Definition create_new (p : Path) (mode : N) : Act IoError Path :=
  call (λ f,
    match locate f p with
    | inl e => (inl e, f)
    | inr q => match f !! q with
               | Some _ => (inl already_exists, f)
               | None => (inr q, <[q := mkNode (File []) euid (masked mode)]> f)
               end
    end).
End Process.

Definition chmod (mode : N) (n : Node) : Node := mkNode (node_kind n) (node_uid n) mode.

(** [fs::set_permissions]: follows a link. *)
Definition set_permissions (p : Path) (mode : N) : Act IoError () :=
  call (λ f, match resolve f p with
             | inl e => (inl e, f)
             | inr q => (inr (), alter (chmod mode) q f)
             end).

(** The same through a descriptor, and its metadata. *)
Definition fset_permissions (q : Path) (mode : N) : Act IoError () :=
  call (λ f, (inr (), alter (chmod mode) q f)).
Definition fstat (q : Path) : Act IoError Node :=
  look (λ f, match f !! q with Some n => inr n | None => inl not_found end).

(** [File::write_all] into a file that was empty: how many bytes went out before the
    call failed is [wrote]. *)
Definition write_all (wrote : nat) (q : Path) (contents : list N) : Act IoError () := λ w,
  let put bytes := alter (λ n, mkNode (File bytes) (node_uid n) (node_mode n)) q (tree w) in
  match io_faults w with
  | Some e :: fs => (inl e, mkFsWorld (put (take wrote contents)) fs)
  | None :: fs => (inr (), mkFsWorld (put contents) fs)
  | [] => (inr (), mkFsWorld (put contents) [])
  end.

Definition sync_data : Act IoError () := call (λ f, (inr (), f)).

(** [fs::rename] of a file: replaces whatever is at the target, except a directory. *)
Definition rename (from to : Path) : Act IoError () :=
  call (λ f,
    match locate f from, locate f to with
    | inr a, inr b =>
        match f !! a with
        | None => (inl not_found, f)
        | Some n =>
            match f !! b with
            | Some t => if is_dir t then (inl (mkIo OtherIo $"Is a directory"), f)
                        else (inr (), <[b := n]> (delete a f))
            | None => (inr (), <[b := n]> (delete a f))
            end
        end
    | inl e, _ | _, inl e => (inl e, f)
    end).

(** [fs::remove_file]. *)
Definition remove_file (p : Path) : Act IoError () :=
  call (λ f,
    match locate f p with
    | inl e => (inl e, f)
    | inr q => match f !! q with
               | None => (inl not_found, f)
               | Some n => if is_dir n then (inl (mkIo OtherIo $"Is a directory"), f)
                           else (inr (), delete q f)
               end
    end).

(** ** Real paths *)

(** A path of directories, without links and without [..]. *)
Inductive real_dir (f : Fs) : Path → Prop :=
| real_root : real_dir f []
| real_child d c n :
    real_dir f d → c ≠ dotdot → f !! (d ++ [c]) = Some n → is_dir n = true →
    real_dir f (d ++ [c]).

(** A directory, or a file in one. *)
Definition real (f : Fs) (q : Path) : Prop :=
  real_dir f q ∨
  ∃ d c n, q = d ++ [c] ∧ real_dir f d ∧ c ≠ dotdot ∧ f !! q = Some n ∧ is_file n = true.

Lemma str_eqb_neq a b : str_eqb a b = false ↔ a ≠ b.
Proof. rewrite <-not_true_iff_false. by rewrite str_eqb_eq. Qed.

Lemma real_dir_snoc f d c : real_dir f (d ++ [c]) →
  real_dir f d ∧ c ≠ dotdot ∧ ∃ n, f !! (d ++ [c]) = Some n ∧ is_dir n = true.
Proof.
  inversion 1 as [He|d' c' n Hd Hc Hn Hk He]; [by destruct d|].
  apply app_inj_tail in He as [-> ->]. eauto.
Qed.

Lemma real_dir_app f a b : real_dir f (a ++ b) → real_dir f a.
Proof.
  induction b as [|c b IH] using rev_ind; [by rewrite app_nil_r|].
  rewrite app_assoc. by intros [? _]%real_dir_snoc; auto.
Qed.

Lemma real_dir_removelast f q : real_dir f q → real_dir f (removelast q).
Proof.
  destruct q as [|c q _] using rev_ind; [done|]. rewrite removelast_last.
  by intros [? _]%real_dir_snoc.
Qed.

Lemma resolve_from_real links : ∀ f rest base q,
  real_dir f base → resolve_from links f base rest = inr q → real f q.
Proof.
  induction links as [|links IHl]; intros f;
    (induction rest as [|c rest IH]; intros base q Hb Hq;
     [injection Hq as <-; by left|]); cbn in Hq;
    (destruct (str_eqb c dotdot) eqn:Ec;
     [by eapply IH; [apply real_dir_removelast|]|]);
    (assert (Hc : c ≠ dotdot) by (by apply str_eqb_neq));
    (destruct (f !! (base ++ [c])) as [n|] eqn:En; [|done]);
    destruct (node_kind n) as [|contents|absolute target] eqn:Ek; try done.
  all: try (eapply IH; [|exact Hq]; econstructor; eauto; unfold is_dir; by rewrite Ek).
  all: try (destruct rest; [|done]; injection Hq as <-; right; exists base, c, n;
            repeat split; try done; unfold is_file; by rewrite Ek).
  eapply IHl; [|exact Hq]. destruct absolute; [constructor|done].
Qed.

Lemma resolve_real f p q : resolve f p = inr q → real f q.
Proof. apply resolve_from_real. constructor. Qed.

Lemma resolve_from_dir links f : ∀ rest base,
  real_dir f (base ++ rest) → resolve_from links f base rest = inr (base ++ rest).
Proof.
  induction rest as [|c rest IH]; intros base Hr.
  { rewrite app_nil_r. by destruct links. }
  assert (Hbc : real_dir f (base ++ [c])).
  { apply (real_dir_app f _ rest). by rewrite <-app_assoc. }
  apply real_dir_snoc in Hbc as (_ & Hc & n & Hn & Hk).
  assert (str_eqb c dotdot = false) as Ec by (by apply str_eqb_neq).
  unfold is_dir in Hk. destruct links; cbn; rewrite Ec, Hn; destruct (node_kind n); try done;
    (change (base ++ c :: rest) with (base ++ [c] ++ rest); rewrite app_assoc;
     apply IH; by rewrite <-app_assoc).
Qed.

(** A real directory is its own real path, and its children are where they are
    looked for. *)
Lemma resolve_dir f q : real_dir f q → resolve f q = inr q.
Proof. apply (resolve_from_dir MAX_LINKS f q []). Qed.

Lemma resolve_from_regular links (f : Fs) : ∀ d base c n, real_dir f (base ++ d) → c ≠ dotdot →
  f !! ((base ++ d) ++ [c]) = Some n → is_symlink n = false →
  resolve_from links f base (d ++ [c]) = inr ((base ++ d) ++ [c]).
Proof.
  induction d as [|x d IH]; intros base c n Hr Hc Hn Hk.
  { rewrite app_nil_r in *. assert (str_eqb c dotdot = false) as Ec by (by apply str_eqb_neq).
    unfold is_symlink in Hk. destruct links; cbn; rewrite Ec, Hn; by destruct (node_kind n). }
  change (base ++ x :: d) with (base ++ [x] ++ d) in *. rewrite app_assoc in *.
  assert (Hbx : real_dir f (base ++ [x])) by (by eapply real_dir_app).
  apply real_dir_snoc in Hbx as (_ & Hx & m & Hxm & Hxk).
  assert (str_eqb x dotdot = false) as Ex by (by apply str_eqb_neq).
  unfold is_dir in Hxk. destruct links; cbn; rewrite Ex, Hxm; destruct (node_kind m); try done;
    by eapply IH.
Qed.

Lemma resolve_child f d c n : real_dir f d → c ≠ dotdot → f !! (d ++ [c]) = Some n →
  is_symlink n = false → resolve f (d ++ [c]) = inr (d ++ [c]).
Proof. apply (resolve_from_regular MAX_LINKS f d []). Qed.

Lemma file_not_symlink n : is_file n = true → is_symlink n = false.
Proof. unfold is_file, is_symlink. by destruct (node_kind n). Qed.

Lemma resolve_idem f q : real f q → resolve f q = inr q.
Proof.
  intros [?|(d & c & n & -> & Hd & Hc & Hn & Hf)]; [by apply resolve_dir|].
  by eapply resolve_child; [..|apply file_not_symlink].
Qed.

Lemma locate_child f d c n : real_dir f d → f !! d = Some n → is_dir n = true → c ≠ dotdot →
  locate f (d ++ [c]) = inr (d ++ [c]).
Proof.
  intros Hd Hn Hk Hc. unfold locate. rewrite last_snoc, removelast_last.
  assert (str_eqb c dotdot = false) as -> by (by apply str_eqb_neq).
  by rewrite resolve_dir, Hn, Hk.
Qed.

(** Where a path is located: below a real directory, or the path is a real one. *)
Lemma locate_real f p q : locate f p = inr q →
  real f q ∨ ∃ d c n, q = d ++ [c] ∧ c ≠ dotdot ∧ real_dir f d ∧ f !! d = Some n ∧ is_dir n = true.
Proof.
  unfold locate. destruct (last p) as [name|] eqn:Hl; [|intros [= <-]; left; left; constructor].
  destruct (str_eqb name dotdot) eqn:Hd; [intros H; left; by eapply resolve_real|].
  destruct (resolve f (removelast p)) as [|dir] eqn:Hr; [done|].
  destruct (f !! dir) as [n|] eqn:Hn; [|done]. destruct (is_dir n) eqn:Hk; [|done].
  intros [= <-]. right. exists dir, name, n. split; [done|]. split; [by apply str_eqb_neq|].
  split; [|done]. apply resolve_real in Hr as [?|(d & c & n' & _ & _ & _ & Hn' & Hf)]; [done|].
  exfalso. assert (n' = n) as -> by congruence. unfold is_file, is_dir in *.
  by destruct (node_kind n).
Qed.

(** ** Reasoning about calls *)

(** From [P], success leads to [Q] of the result and failure to [R], whatever calls
    fail from outside. *)
Definition outcome {E A : Type} (P : Fs → Prop) (m : Act E A) (Q : A → Fs → Prop) (R : E → Fs → Prop) :
    Prop :=
  ∀ w, P (tree w) →
    match m w with
    | (inr a, w') => Q a (tree w')
    | (inl e, w') => R e (tree w')
    end.

Section Outcomes.
Context {E : Type}.

Lemma outcome_ret {A : Type} (a : A) (P : Fs → Prop) (Q : A → Fs → Prop) (R : E → Fs → Prop) : (∀ f, P f → Q a f) → outcome (E := E) P (mret a) Q R.
Proof. intros HQ w. apply HQ. Qed.

Lemma outcome_throw {A : Type} (e : E) (P : Fs → Prop) (Q : A → Fs → Prop) (R : E → Fs → Prop) : (∀ f, P f → R e f) →
  outcome P (throw e) Q R.
Proof. intros HR w. apply HR. Qed.

Lemma outcome_sum {A : Type} (r : E + A) (P : Fs → Prop) (Q : A → Fs → Prop) (R : E → Fs → Prop) :
  (∀ f, P f → match r with inr a => Q a f | inl e => R e f end) → outcome P (of_sum r) Q R.
Proof. intros HQ w Hw. specialize (HQ (tree w) Hw). by destruct r. Qed.

Lemma outcome_bind {A B : Type} (m : Act E A) (k : A → Act E B) (P : Fs → Prop) (Q : B → Fs → Prop)
    (R : E → Fs → Prop) (S : A → Fs → Prop) :
  outcome P m S R → (∀ a, outcome (S a) (k a) Q R) → outcome P (m ≫= k) Q R.
Proof.
  intros Hm Hk w Hw. specialize (Hm w Hw). unfold mbind, Act_bind.
  destruct (m w) as [[e|a] w']; [done|]. by apply Hk.
Qed.

Lemma outcome_weaken {A : Type} (m : Act E A) (P P' : Fs → Prop) (Q Q' : A → Fs → Prop)
    (R R' : E → Fs → Prop) :
  outcome P' m Q' R' → (∀ f, P f → P' f) → (∀ a f, Q' a f → Q a f) → (∀ e f, R' e f → R e f) →
  outcome P m Q R.
Proof.
  intros Hm HP HQ HR w Hw. specialize (Hm w (HP _ Hw)).
  destruct (m w) as [[e|a] w']; auto.
Qed.

Lemma outcome_map_err {F A : Type} (g : F → E) (m : Act F A) (P : Fs → Prop) (Q : A → Fs → Prop) (R : E → Fs → Prop) :
  outcome P m Q (λ e, R (g e)) → outcome P (map_err g m) Q R.
Proof.
  intros Hm w Hw. specialize (Hm w Hw). unfold map_err. by destruct (m w) as [[e|a] w'].
Qed.

Lemma outcome_try {F A : Type} (m : Act F A) (P : Fs → Prop) (Q : F + A → Fs → Prop)
    (R : E → Fs → Prop) :
  outcome P m (λ a, Q (inr a)) (λ e, Q (inl e)) → outcome P (try_ m) Q R.
Proof.
  intros Hm w Hw. specialize (Hm w Hw). unfold try_. by destruct (m w) as [[e|a] w'].
Qed.

Lemma outcome_pure {A : Type} (φ : Prop) (m : Act E A) (P : Fs → Prop) (Q : A → Fs → Prop)
    (R : E → Fs → Prop) : (φ → outcome P m Q R) → outcome (λ f, φ ∧ P f) m Q R.
Proof. intros Hm w [Hφ Hw]. by apply (Hm Hφ). Qed.
End Outcomes.

Lemma outcome_call {A : Type} (g : Fs → (IoError + A) * Fs) (P : Fs → Prop) (Q : A → Fs → Prop)
    (R : IoError → Fs → Prop) :
  (∀ e f, P f → R e f) →
  (∀ f, P f → match g f with (inr a, f') => Q a f' | (inl e, f') => R e f' end) →
  outcome P (call g) Q R.
Proof.
  intros HR Hg w Hw. unfold call. specialize (Hg (tree w) Hw).
  destruct (io_faults w) as [|[e|] fs]; [|by apply HR|]; destruct (g (tree w)) as [[e'|a] f']; done.
Qed.

Lemma outcome_look {A : Type} (g : Fs → IoError + A) (P : Fs → Prop) (Q : A → Fs → Prop)
    (R : IoError → Fs → Prop) :
  (∀ e f, P f → R e f) →
  (∀ f a, P f → g f = inr a → Q a f) →
  outcome P (look g) Q R.
Proof.
  intros HR HQ. apply outcome_call; [done|]. intros f Hf.
  destruct (g f) as [e|a] eqn:E; eauto.
Qed.

Lemma resolve_from_snoc links : ∀ f rest base c q, c ≠ dotdot →
  resolve_from links f base (rest ++ [c]) = inr q →
  ∃ dir links', resolve_from links f base rest = inr dir ∧ resolve_from links' f dir [c] = inr q.
Proof.
  induction links as [|links IHl]; intros f;
    (induction rest as [|x rest IH]; intros base c q Hc Hq;
     [eexists base, _; split; [done|exact Hq]|]);
    cbn in Hq |- *; destruct (str_eqb x dotdot); try (by eapply IH);
    (destruct (f !! (base ++ [x])) as [n|]; [|done]);
    destruct (node_kind n) as [|contents|absolute target]; try done; try (by eapply IH).
  all: try (by destruct rest).
  rewrite app_assoc in Hq. by eapply IHl.
Qed.

(** What is seen at a path without following it is what is at its real path, unless it
    is a link. *)
Lemma lstat_resolve f p n q : lstat f p = inr n → is_symlink n = false →
  resolve f p = inr q → f !! q = Some n.
Proof.
  unfold lstat, locate. intros Hl Hk Hr. destruct p as [|name p _] using rev_ind.
  { injection Hr as <-. cbn in Hl. destruct (f !! []); [by injection Hl as ->|done]. }
  rewrite last_snoc, removelast_last in Hl. destruct (str_eqb name dotdot) eqn:Hd.
  { rewrite Hr in Hl. destruct (f !! q); [by injection Hl as ->|done]. }
  apply str_eqb_neq in Hd as Hne. apply resolve_from_snoc in Hr as (dir & links & Hdir & Hq); [|done].
  unfold resolve in Hl. rewrite Hdir in Hl. destruct (f !! dir) as [m|]; [|done].
  destruct (is_dir m); [|done]. destruct (f !! (dir ++ [name])) as [n'|] eqn:Hn; [|done].
  injection Hl as ->. unfold is_symlink in Hk.
  destruct links; cbn in Hq; rewrite Hd, Hn in Hq; destruct (node_kind n); try done;
    by injection Hq as <-.
Qed.

Lemma real_dir_insert f k n d : f !! k = None → real_dir f d → real_dir (<[k := n]> f) d.
Proof.
  intros Hk. induction 1 as [|d c m Hd IH Hc Hm Hdir]; [constructor|].
  econstructor; [done|done| |exact Hdir]. rewrite lookup_insert_ne; [done|congruence].
Qed.

Lemma real_dir_real f q n : real f q → f !! q = Some n → is_dir n = true → real_dir f q.
Proof.
  intros [?|(d & c & m & _ & _ & _ & Hm & Hf)] Hn Hd; [done|].
  assert (m = n) as -> by congruence. unfold is_file, is_dir in *. by destruct (node_kind n).
Qed.

(** ** Programs that only look *)

Definition read_only {E A : Type} (m : Act E A) : Prop := ∀ w, tree (m w).2 = tree w.

Create HintDb fs.

Lemma read_only_outcome {E A : Type} (m : Act E A) (P : Fs → Prop) : read_only m →
  outcome P m (λ _, P) (λ _, P).
Proof. intros Hm w Hw. specialize (Hm w). destruct (m w) as [[e|a] w']; cbn in Hm; by rewrite Hm. Qed.

Lemma read_only_ret {E A : Type} (a : A) : read_only (E := E) (mret a).
Proof. done. Qed.
Lemma read_only_throw {E A : Type} (e : E) : read_only (A := A) (throw e).
Proof. done. Qed.
Lemma read_only_sum {E A : Type} (r : E + A) : read_only (of_sum r).
Proof. done. Qed.
Lemma read_only_bind {E A B : Type} (m : Act E A) (k : A → Act E B) :
  read_only m → (∀ a, read_only (k a)) → read_only (m ≫= k).
Proof.
  intros Hm Hk w. unfold mbind, Act_bind. specialize (Hm w).
  destruct (m w) as [[e|a] w']; cbn in *; [done|]. by rewrite (Hk a w').
Qed.
Lemma read_only_look {A : Type} (g : Fs → IoError + A) : read_only (look g).
Proof. intros w. unfold look, call. by destruct (io_faults w) as [|[]]. Qed.
Lemma read_only_map_err {E F A : Type} (g : E → F) (m : Act E A) :
  read_only m → read_only (map_err g m).
Proof. intros Hm w. specialize (Hm w). unfold map_err. by destruct (m w) as [[e|a] w']. Qed.
Lemma read_only_try {E F A : Type} (m : Act E A) : read_only m → read_only (E := F) (try_ (F := F) m).
Proof. intros Hm w. specialize (Hm w). unfold try_. by destruct (m w) as [[e|a] w']. Qed.
Lemma read_only_lstat p : read_only (symlink_metadata p).
Proof. apply read_only_look. Qed.
Lemma read_only_canonicalize p : read_only (canonicalize p).
Proof. apply read_only_look. Qed.
#[export] Hint Resolve read_only_ret read_only_throw read_only_sum read_only_look read_only_map_err
  read_only_try read_only_lstat read_only_canonicalize : fs.

(** Decomposes a program that only looks into its calls. *)
Ltac read_only :=
  repeat first
    [ solve [eauto with fs]
    | apply read_only_bind; [|intros ?]
    | apply read_only_map_err
    | apply read_only_try
    | match goal with
      | |- read_only (match ?x with _ => _ end) => destruct x
      end ].

(** ** Reading backwards from an answer *)

Lemma bind_answer {E A B : Type} (m : Act E A) (k : A → Act E B) w b w2 :
  read_only m → (m ≫= k) w = (inr b, w2) →
  ∃ a w1, m w = (inr a, w1) ∧ tree w1 = tree w ∧ k a w1 = (inr b, w2).
Proof.
  intros Hm. specialize (Hm w). unfold mbind, Act_bind.
  destruct (m w) as [[e|a] w1]; [done|]. intros Hk. by exists a, w1.
Qed.

Lemma look_answer {A : Type} (g : Fs → IoError + A) w a w' :
  look g w = (inr a, w') → g (tree w) = inr a.
Proof.
  unfold look, call. destruct (io_faults w) as [|[e|] fs]; [|done|]; by intros [= ->].
Qed.

Lemma map_err_answer {E F A : Type} (g : E → F) (m : Act E A) w a w' :
  map_err g m w = (inr a, w') → m w = (inr a, w').
Proof. unfold map_err. by destruct (m w) as [[e|b] w1]; intros [= -> ->]. Qed.

(** Everything read along a run that only looks is about the first tree. *)
Ltac same_tree :=
  repeat match goal with
    | Hb : tree ?x = tree _, Hc : context [tree ?x] |- _ => rewrite Hb in Hc
    end.
