(* ===== verification/Wire.v ===== *)
(** * Forwarded events on the wire: [crates/rtrt-cli/src/forward.rs]

    The event a guest forwards to the collector, the validation both sides apply,
    the retry delay and the collector's address.  [anyhow::Result] is a sum whose
    left side is the message an error displays; serde_json and the URL parser are
    foreign, behind [WireJson] and an argument. *)
From stdpp Require Import gmap sets.
From S2P Require Import Prelude Str.

(** ** [anyhow::Result] *)

Abbreviation Fallible := (sum str) (only parsing).

#[export] Instance Fallible_ret : MRet Fallible := λ A a, inr a.
#[export] Instance Fallible_bind : MBind Fallible :=
  λ A B f r, match r with inl e => inl e | inr a => f a end.
#[export] Instance Fallible_fmap : FMap Fallible :=
  λ A B f r, match r with inl e => inl e | inr a => inr (f a) end.

Definition bail {A} (message : str) : str + A := inl message.

(** [Result::context] and [Option::context]. *)
Definition context {A} (message : str) (r : str + A) : str + A :=
  match r with inl _ => inl message | inr a => inr a end.
Definition context_option {A} (message : str) (o : option A) : str + A :=
  match o with None => inl message | Some a => inr a end.

Definition succeeds {A} (r : str + A) : bool := match r with inl _ => false | inr _ => true end.

(** ** The event *)

Definition MAX_BODY_BYTES : N := 1024 * 1024.

Record WireEvent := mkWire {
  we_event_id : str;
  we_guest_id : str;
  we_project : str;
  we_kind : str;
  we_body : str;
  we_session_id : option str;
  we_metadata : option (gmap str str);
}.

Record GuestProject := mkPair {
  guest_id : str;
  project : str;
}.

(** The collector's acknowledgement, [CollectorAck] to the guest and
    [IngestResponse] to the collector. *)
Record CollectorAck := mkAck {
  ack_memory_id : Z;
  ack_inserted : bool;
}.

#[export] Instance WireEvent_eq_dec : EqDecision WireEvent.
Proof. solve_decision. Defined.
#[export] Instance GuestProject_eq_dec : EqDecision GuestProject.
Proof. solve_decision. Defined.
#[export] Instance GuestProject_countable : Countable GuestProject.
Proof.
  by refine (inj_countable' (λ p, (guest_id p, project p)) (λ x, mkPair x.1 x.2) _);
    intros [].
Defined.

Definition pair_of (e : WireEvent) : GuestProject := mkPair (we_guest_id e) (we_project e).

Class WireJson := {
  (** [serde_json::to_string] and [to_vec] of an event, and [from_str]. *)
  to_text : WireEvent → str;
  event_of_text : str → option WireEvent;
  (** [serde_json::Value], with [to_value] and [from_str]. *)
  Value : Type;
  Value_eq_dec :: EqDecision Value;
  to_value : WireEvent → Value;
  value_of_text : str → option Value;
  (** [from_str] of a [BTreeMap<String, String>]. *)
  metadata_of_text : str → str + gmap str str;
  (** The acknowledgement, strictly parsed. *)
  ack_to_text : CollectorAck → str;
  ack_of_text : str → option CollectorAck;
}.

(** What the program relies on: events and acknowledgements survive encoding, an
    event's text read as a value is the event's value, and equal values are equal
    events. *)
Class WireJsonLaws (W : WireJson) : Prop := {
  event_of_to_text e : event_of_text (to_text e) = Some e;
  value_of_to_text e : value_of_text (to_text e) = Some (to_value e);
  to_value_inj e e' : to_value e = to_value e' → e = e';
  ack_of_to_text a : ack_of_text (ack_to_text a) = Some a;
}.

(** ** Validation *)

(** [char::is_control]: the general category Cc. *)
Definition is_control (c : char) : bool := (c <? 32) || ((127 <=? c) && (c <? 160)).

Definition valid_identifier (value : str) : bool :=
  negb (is_empty (trim value)) && negb (existsb is_control value).

Definition validate `{WireJson} (self : WireEvent) : str + () :=
  if negb (valid_identifier (we_event_id self))
     || negb (valid_identifier (we_guest_id self))
     || negb (valid_identifier (we_project self))
     || negb (valid_identifier (we_kind self))
     || match we_session_id self with
        | Some value => negb (valid_identifier value)
        | None => false
        end
  then bail $"event identifiers must be non-empty and contain no controls"
  else if is_empty (we_body self) || (MAX_BODY_BYTES <? str_len (to_text self))
  then bail $"serialized event must be non-empty and at most 1 MiB"
  else inr ().

Definition validate_token (token : str) : str + () :=
  if negb (valid_identifier token) || negb (str_eqb (trim token) token)
  then bail $"collector token must be non-empty and contain no control characters"
  else inr ().

(** ** Delays and addresses *)

(** In seconds; a [u64] shifted by less than nine. *)
Definition retry_delay (attempts : N) : N :=
  if 9 <=? attempts then 300 else N.shiftl 1 attempts.

(** The parts of [reqwest::Url] the program looks at. *)
Record Url := mkUrl {
  scheme : str;
  host_str : option str;
  username : str;
  password : option str;
  url_query : option str;
  fragment : option str;
}.

Definition EVENTS_PATH : str := $"/v1/events".

Definition collector_url (parse : str → option Url) (endpoint : str) : str + str :=
  url ← context_option $"invalid collector endpoint" (parse endpoint);
  if negb (str_eqb (scheme url) $"http" || str_eqb (scheme url) $"https")
     || bool_decide (host_str url = None)
     || negb (is_empty (username url))
     || bool_decide (is_Some (password url))
     || bool_decide (is_Some (url_query url))
     || bool_decide (is_Some (fragment url))
  then bail $"collector endpoint must be HTTP(S) without credentials, query or fragment"
  else
    let base := trim_end_matches (N.eqb ch_slash) endpoint in
    inr (if ends_with base EVENTS_PATH then base else base ++ EVENTS_PATH).

(** ** Lemmas *)

Lemma inr_bind {A B} (a : A) (f : A → str + B) : (inr a ≫= f) = f a.
Proof. done. Qed.

Lemma bind_inr {A B} (r : str + A) (f : A → str + B) b :
  (r ≫= f) = inr b ↔ ∃ a, r = inr a ∧ f a = inr b.
Proof. destruct r; cbn; naive_solver. Qed.

Lemma context_option_inr {A} m (o : option A) a : context_option m o = inr a ↔ o = Some a.
Proof. destruct o; cbn; naive_solver. Qed.

Lemma valid_identifier_nonempty v : valid_identifier v = true → is_empty v = false.
Proof. by destruct v. Qed.

(** What validation guarantees. *)
Record valid_event `{WireJson} (e : WireEvent) : Prop := {
  valid_event_id : valid_identifier (we_event_id e) = true;
  valid_guest_id : valid_identifier (we_guest_id e) = true;
  valid_project : valid_identifier (we_project e) = true;
  valid_kind : valid_identifier (we_kind e) = true;
  valid_session : ∀ s, we_session_id e = Some s → valid_identifier s = true;
  valid_body : we_body e ≠ [];
  valid_size : str_len (to_text e) ≤ MAX_BODY_BYTES;
}.

Lemma validate_spec `{WireJson} e : validate e = inr () ↔ valid_event e.
Proof.
  unfold validate. split.
  - destruct (valid_identifier (we_event_id e)) eqn:E1; [|done].
    destruct (valid_identifier (we_guest_id e)) eqn:E2; [|done].
    destruct (valid_identifier (we_project e)) eqn:E3; [|done].
    destruct (valid_identifier (we_kind e)) eqn:E4; [|done]. cbn.
    destruct (match we_session_id e with Some _ => _ | None => _ end) eqn:E5; [done|].
    destruct (we_body e) eqn:E6; [done|]. cbn.
    destruct (N.ltb_spec MAX_BODY_BYTES (str_len (to_text e))); [done|]. intros _.
    split; try done; [|congruence]. intros s Hs. rewrite Hs in E5. by apply negb_false_iff in E5.
  - intros [-> -> -> -> Hs Hb Hn]. cbn.
    assert (match we_session_id e with
            | Some value => negb (valid_identifier value) | None => false end = false) as ->.
    { destruct (we_session_id e) as [s|]; [|done]. by rewrite Hs. }
    destruct (we_body e); [done|]. cbn. by rewrite (proj2 (N.ltb_ge _ _) Hn).
Qed.

Lemma retry_delay_bounds n : 1 ≤ retry_delay n ≤ 300.
Proof.
  unfold retry_delay. destruct (N.leb_spec 9 n); [lia|]. rewrite N.shiftl_1_l.
  pose proof (N.pow_le_mono_r 2 n 8 ltac:(lia) ltac:(lia)).
  pose proof (N.pow_nonzero 2 n ltac:(lia)). change (2 ^ 8) with 256 in *. lia.
Qed.

Lemma retry_delay_mono m n : m ≤ n → retry_delay m ≤ retry_delay n.
Proof.
  intros Hle. unfold retry_delay. destruct (N.leb_spec 9 n); destruct (N.leb_spec 9 m); try lia.
  - rewrite N.shiftl_1_l. pose proof (N.pow_le_mono_r 2 m 8 ltac:(lia) ltac:(lia)).
    change (2 ^ 8) with 256 in *. lia.
  - rewrite !N.shiftl_1_l. apply N.pow_le_mono_r; lia.
Qed.

(** ** A concrete codec *)

(** Events and acknowledgements written as one number each. *)
Module TextWire.
#[export] Instance WireEvent_countable : Countable WireEvent.
Proof.
  by refine (inj_countable'
    (λ e, (we_event_id e, we_guest_id e, we_project e, we_kind e, we_body e, we_session_id e,
           we_metadata e))
    (λ x, let '(a, b, c, d, e, f, g) := x in mkWire a b c d e f g) _); intros [].
Defined.
#[export] Instance CollectorAck_eq_dec : EqDecision CollectorAck.
Proof. solve_decision. Defined.
#[export] Instance CollectorAck_countable : Countable CollectorAck.
Proof.
  by refine (inj_countable' (λ a, (ack_memory_id a, ack_inserted a)) (λ x, mkAck x.1 x.2) _);
    intros [].
Defined.

Definition write {A} `{Countable A} (a : A) : str := [Npos (encode a)].
Definition read {A} `{Countable A} (s : str) : option A :=
  match s with [Npos p] => decode p | _ => None end.

#[export] Instance wire : WireJson := {
  to_text := write; event_of_text := read; Value := WireEvent; to_value := id;
  value_of_text := read; metadata_of_text := λ _, inl $"expected an object";
  ack_to_text := write; ack_of_text := read;
}.

#[export] Instance wire_laws : WireJsonLaws wire.
Proof.
  split; [intros e|intros e|done|intros a]; cbn; apply decode_encode.
Qed.
End TextWire.
