(* ===== verification/Spool.v ===== *)
(** * The guest's spool: [crates/rtrt-cli/src/forward/spool.rs]

    Opening the spool file without following links, and the table of queued events:
    enqueueing, selecting a batch, removing a delivered event, rescheduling a failed
    one.  The table is its rows in [rowid] order. *)
From stdpp Require Import gmap sets.
From S2P Require Import Prelude Str Fs Wire.

(** ** Opening the file *)

Definition PRIVATE_DIR : N := 448. (* 0o700 *)
Definition PRIVATE_FILE : N := 384. (* 0o600 *)

Definition owned_with_mode (metadata : Node) (uid mode : N) : bool :=
  (node_mode metadata =? mode) && (node_uid metadata =? uid).

Fixpoint find_map {A B} (g : A → option B) (l : list A) : option B :=
  match l with
  | [] => None
  | x :: l' => match g x with Some b => Some b | None => find_map g l' end
  end.

Definition parse_effective_uid (status : str) : str + N :=
  context_option $"cannot parse effective uid from /proc/self/status"
    (ids ← find_map (strip_prefix $"Uid:") (lines status);
     uid ← split_whitespace ids !! 1%nat;
     parse_u32 uid).

Section Open.
Context (euid umask : N).
(** What [/proc/self/status] reads as. *)
Variable status : str + str.

Definition effective_uid : str + N :=
  context $"read /proc/self/status" status ≫= parse_effective_uid.

(** The paths [current] takes while the components of [p] are pushed on it. *)
Definition prefixes (p : Path) : list Path := map (λ n, take n p) (seq 0 (S (length p))).

Definition private_component (current : Path) : Act str () :=
  found ← try_ (symlink_metadata current);
  match found with
  | inr metadata =>
      if is_symlink metadata then throw $"spool path contains symlink"
      else if negb (is_dir metadata) then throw $"spool path parent is not a directory"
      else mret ()
  | inl error =>
      if bool_decide (io_kind error = NotFound)
      then map_err (λ _, $"create " ++ display current) (create_dir euid umask current PRIVATE_DIR)
      else throw $"inspect spool directory"
  end.

Fixpoint private_components (paths : list Path) : Act str () :=
  match paths with
  | [] => mret ()
  | current :: rest => private_component current ≫= λ _, private_components rest
  end.

Definition require_owned (metadata : Node) (mode : N) (message : str) : Act str () :=
  uid ← of_sum effective_uid;
  if negb (owned_with_mode metadata uid mode) then throw message else mret ().

Definition private_parent (path : Path) : Act str () :=
  parent ← of_sum (context_option $"spool path needs parent directory"
                     (match path with [] => None | _ => Some (removelast path) end));
  private_components (prefixes parent) ≫= λ _,
  metadata ← map_err io_message (symlink_metadata parent);
  require_owned metadata PRIVATE_DIR $"spool directory must be operator-owned with mode 0700".

(** Opening the SQLite connection is the last call. *)
Definition open_spool (path : Path) : Act str () :=
  private_parent path ≫= λ _,
  found ← try_ (symlink_metadata path);
  (match found with
   | inr metadata =>
       if is_symlink metadata || negb (is_file metadata)
       then throw $"spool must be a regular file, not a symlink"
       else require_owned metadata PRIVATE_FILE
              $"spool file must be operator-owned with mode 0600"
   | inl error =>
       if bool_decide (io_kind error = NotFound)
       then
         file ← map_err (λ _, $"create private spool") (create_new euid umask path PRIVATE_FILE);
         metadata ← map_err (λ _, $"inspect new spool") (fstat file);
         require_owned metadata PRIVATE_FILE $"spool file must be operator-owned with mode 0600"
       else throw $"inspect spool"
   end) ≫= λ _,
  map_err io_message (look (λ _, inr ())).
End Open.

(** *** What opening the file leaves behind *)

Section OpenLemmas.
Context (euid umask : N) (status : str + str).

(** Nothing that was there changed, and what is new belongs to the process. *)
Definition grown (f0 f : Fs) : Prop :=
  f0 ⊆ f ∧ ∀ q n, f !! q = Some n → f0 !! q = None → node_uid n = euid.

Definition good (d : Path) (f : Fs) : Prop :=
  real_dir f d ∧ ∃ n, f !! d = Some n ∧ is_dir n = true.

Lemma tree_grown_refl f : grown f f.
Proof using. split; [done|]. intros q n H1 H2. congruence. Qed.

Lemma grown_insert f0 f q n : grown f0 f → f !! q = None → node_uid n = euid →
  grown f0 (<[q := n]> f).
Proof using.
  intros [Hs Hn] Hq Hu. split; [by etrans; [|apply insert_subseteq]|].
  intros q' n'. destruct (decide (q' = q)) as [->|Hne].
  - rewrite lookup_insert_eq. by intros [= <-].
  - rewrite lookup_insert_ne by done. apply Hn.
Qed.

Lemma good_insert d f q n : good d f → f !! q = None → good d (<[q := n]> f).
Proof using.
  intros (Hr & m & Hm & Hd) Hq. split; [by apply real_dir_insert|]. exists m.
  split; [|done]. rewrite lookup_insert_ne; [done|congruence].
Qed.

Lemma locate_good d f c : good d f → c ≠ dotdot → locate f (d ++ [c]) = inr (d ++ [c]).
Proof using. intros (Hr & n & Hn & Hd) Hc. by eapply locate_child. Qed.

Lemma lstat_good d f c n : good d f → c ≠ dotdot → lstat f (d ++ [c]) = inr n →
  f !! (d ++ [c]) = Some n.
Proof using.
  intros Hg Hc. unfold lstat. rewrite (locate_good d) by done.
  destruct (f !! (d ++ [c])); [|done]. by intros [= ->].
Qed.

Lemma component_outcome f0 d c : c ≠ dotdot →
  outcome (λ f, grown f0 f ∧ good d f) (private_component euid umask (d ++ [c]))
    (λ _ f, grown f0 f ∧ good (d ++ [c]) f) (λ _, grown f0).
Proof using.
  intros Hc. eapply outcome_bind with (S := λ found f, (grown f0 f ∧ good d f) ∧
    ∀ n, found = inr n → lstat f (d ++ [c]) = inr n).
  { apply outcome_try, outcome_look; [by intros e f ?; split|].
    intros f n Hf Hn. split; [done|]. congruence. }
  intros [error|n]; cbn.
  - case_bool_decide; [|by apply outcome_throw; intros f [[? _] _]].
    apply outcome_map_err, outcome_call; [by intros e f [[? _] _]|].
    intros f [[Hf Hg] _]. rewrite (locate_good d) by done.
    destruct (f !! (d ++ [c])) eqn:Hq; [done|]. split; [by apply grown_insert|].
    split; [|eexists; by rewrite lookup_insert_eq].
    eapply real_child; [by apply real_dir_insert; [|destruct Hg]|done|by rewrite lookup_insert_eq|done].
  - destruct (is_symlink n) eqn:Hs; [by apply outcome_throw; intros f [[? _] _]|].
    destruct (is_dir n) eqn:Hd; cbn; [|by apply outcome_throw; intros f [[? _] _]].
    apply outcome_ret. intros f [[Hf Hg] Hn]. split; [done|].
    specialize (Hn n eq_refl). apply (lstat_good d) in Hn; [|done|done].
    destruct Hg as [Hr _]. split; [by econstructor|by exists n].
Qed.

Lemma root_outcome f0 :
  outcome (grown f0) (private_component euid umask [])
    (λ _ f, grown f0 f ∧ good [] f) (λ _, grown f0).
Proof using.
  eapply outcome_bind with (S := λ found f, grown f0 f ∧
    ∀ n, found = inr n → lstat f [] = inr n).
  { apply outcome_try, outcome_look; [by intros e f ?; split|].
    intros f n Hf Hn. split; [done|]. congruence. }
  intros [error|n]; cbn.
  - case_bool_decide; [|by apply outcome_throw; intros f [? _]].
    apply outcome_map_err, outcome_call; [by intros e f [? _]|]. intros f [Hf _]. cbn.
    destruct (f !! []) eqn:Hq; [done|]. split; [by apply grown_insert|].
    split; [constructor|eexists; by rewrite lookup_insert_eq].
  - destruct (is_symlink n) eqn:Hs; [by apply outcome_throw; intros f [? _]|].
    destruct (is_dir n) eqn:Hd; cbn; [|by apply outcome_throw; intros f [? _]].
    apply outcome_ret. intros f [Hf Hn]. split; [done|]. specialize (Hn n eq_refl).
    unfold lstat in Hn. cbn in Hn. destruct (f !! []) eqn:Hq; [|done]. injection Hn as ->.
    split; [constructor|by exists n].
Qed.

Lemma components_outcome f0 p : Forall (λ c, c ≠ dotdot) p →
  outcome (grown f0) (private_components euid umask (prefixes p))
    (λ _ f, grown f0 f ∧ good p f) (λ _, grown f0).
Proof using.
  intros Hp. unfold prefixes. cbn [seq map private_components take].
  eapply outcome_bind; [apply root_outcome|]. intros u. cbn.
  assert (Hgen : ∀ m k, (k + m = length p)%nat →
    outcome (λ f, grown f0 f ∧ good (take k p) f)
      (private_components euid umask (map (λ n, take n p) (seq (S k) m)))
      (λ _ f, grown f0 f ∧ good p f) (λ _, grown f0)); [|by apply (Hgen (length p) 0%nat)].
  induction m as [|m IH]; intros k Hk; cbn [seq map private_components].
  { apply outcome_ret. intros f Hf. by rewrite firstn_all2 in Hf by lia. }
  destruct (lookup_lt_is_Some_2 p k ltac:(lia)) as [c Hc].
  rewrite (take_S_r _ _ c) by done. eapply outcome_bind.
  - apply component_outcome. by eapply Forall_lookup_1 in Hp.
  - intros u'. cbn. rewrite <-(take_S_r _ _ c) by done. apply IH. lia.
Qed.

Definition owned_node (uid mode : N) (n : Node) : Prop := node_uid n = uid ∧ node_mode n = mode.

Lemma owned_with_mode_spec n uid mode : owned_with_mode n uid mode = true ↔ owned_node uid mode n.
Proof using.
  unfold owned_with_mode, owned_node. rewrite andb_true_iff, !N.eqb_eq.
  split; intros [H1 H2]; split; assumption.
Qed.

Lemma require_owned_outcome n mode m (P : Fs → Prop) (R : str → Fs → Prop) :
  (∀ e f, P f → R e f) →
  outcome P (require_owned status n mode m)
    (λ _ f, P f ∧ ∃ uid, effective_uid status = inr uid ∧ owned_node uid mode n) R.
Proof using.
  intros HR. eapply outcome_bind with (S := λ uid f, P f ∧ effective_uid status = inr uid).
  { apply outcome_sum. intros f Hf. destruct (effective_uid status); [by apply HR|done]. }
  intros uid. destruct (owned_with_mode n uid mode) eqn:Ho; cbn.
  - apply outcome_ret. intros f [Hf Hu]. split; [done|]. exists uid.
    split; [done|]. by apply owned_with_mode_spec.
  - apply outcome_throw. intros f [Hf _]. by apply HR.
Qed.

(** The directory [dir] and the file below it, as [open_spool] wants them. *)
Definition spool_private (dir : Path) (name : str) (f : Fs) : Prop :=
  good dir f ∧ ∃ uid d n,
    effective_uid status = inr uid ∧
    f !! dir = Some d ∧ owned_node uid PRIVATE_DIR d ∧
    f !! (dir ++ [name]) = Some n ∧ is_file n = true ∧ owned_node uid PRIVATE_FILE n.

Definition dir_private (dir : Path) (f : Fs) : Prop :=
  good dir f ∧ ∃ uid d, effective_uid status = inr uid ∧ f !! dir = Some d ∧
    owned_node uid PRIVATE_DIR d.

Lemma parent_outcome f0 dir name : Forall (λ c, c ≠ dotdot) dir →
  outcome (grown f0) (private_parent euid umask status (dir ++ [name]))
    (λ _ f, grown f0 f ∧ dir_private dir f) (λ _, grown f0).
Proof using.
  intros Hd. unfold private_parent. rewrite removelast_last.
  destruct (dir ++ [name]) as [|x l] eqn:Hx; [by destruct dir|]. clear x l Hx.
  eapply outcome_bind with (S := λ p f, p = dir ∧ grown f0 f); [by apply outcome_sum|].
  intros p. apply outcome_pure. intros ->.
  eapply outcome_bind; [by apply components_outcome|]. intros u. cbn.
  eapply outcome_bind with (S := λ n f, (grown f0 f ∧ good dir f) ∧ lstat f dir = inr n).
  { apply outcome_map_err, outcome_look; [by intros e f []|done]. }
  intros n. eapply outcome_weaken with (P' := λ f, (grown f0 f ∧ good dir f) ∧ lstat f dir = inr n)
    (R' := λ _, grown f0); [by apply require_owned_outcome; intros e f [[? _] _]|done| |done].
  intros u' f [[[Hf Hg] Hl] (uid & Hu & Ho)]. split; [done|]. split; [done|].
  exists uid, n. split; [done|]. split; [|done].
  destruct Hg as (Hr & m & Hm & Hdir). destruct dir as [|c dir _] using rev_ind.
  - unfold lstat in Hl. cbn in Hl. rewrite Hm in Hl. by injection Hl as <-.
  - apply Forall_app in Hd as [_ Hc]. apply Forall_cons in Hc as [Hc _].
    apply real_dir_snoc in Hr as (Hr & _ & _).
    unfold lstat, locate in Hl. rewrite last_snoc, removelast_last in Hl.
    rewrite (proj2 (str_eqb_neq c dotdot) Hc), (resolve_dir f dir Hr) in Hl.
    destruct (f !! dir) as [k|]; [|done]. destruct (is_dir k); [|done].
    rewrite Hm in Hl. injection Hl as <-. done.
Qed.

Lemma dir_private_insert dir f q n : dir_private dir f → f !! q = None →
  dir_private dir (<[q := n]> f).
Proof using.
  intros (Hg & uid & d & Hu & Hd & Ho) Hq. split; [by apply good_insert|].
  exists uid, d. split; [done|]. split; [|done]. rewrite lookup_insert_ne; [done|congruence].
Qed.

Lemma file_outcome f0 dir name n : name ≠ dotdot →
  outcome (λ f, (grown f0 f ∧ dir_private dir f) ∧ f !! (dir ++ [name]) = Some n ∧
             is_file n = true)
    (require_owned status n PRIVATE_FILE $"spool file must be operator-owned with mode 0600")
    (λ _ f, grown f0 f ∧ spool_private dir name f) (λ _, grown f0).
Proof using.
  intros Hname. set (P := λ f : Fs, _ ∧ _).
  eapply outcome_weaken; [apply (require_owned_outcome n _ _ P (λ _, grown f0))|done| |done];
    [by intros e f [[? _] _]|].
  intros u f [[[Hf (Hg & uid' & d & Hu' & Hd & Hod)] [Hn Hk]] (uid & Hu & Ho)].
  split; [done|]. split; [done|]. assert (uid' = uid) as -> by congruence.
  exists uid, d, n. by split_and!.
Qed.

Lemma new_file_outcome f0 dir name : name ≠ dotdot →
  outcome (λ f, grown f0 f ∧ dir_private dir f)
    (file ← map_err (λ _, $"create private spool")
              (create_new euid umask (dir ++ [name]) PRIVATE_FILE);
     metadata ← map_err (λ _, $"inspect new spool") (fstat file);
     require_owned status metadata PRIVATE_FILE
       $"spool file must be operator-owned with mode 0600")
    (λ _ f, grown f0 f ∧ spool_private dir name f) (λ _, grown f0).
Proof using.
  intros Hname. set (file := mkNode (File []) euid (masked umask PRIVATE_FILE)).
  eapply outcome_bind with (S := λ q f, q = dir ++ [name] ∧
    (grown f0 f ∧ dir_private dir f) ∧ f !! (dir ++ [name]) = Some file).
  { apply outcome_map_err, outcome_call; [by intros e f [? _]|]. intros f [Hf Hp].
    rewrite (locate_good dir) by (done || by destruct Hp).
    destruct (f !! (dir ++ [name])) eqn:Hq; [done|]. split; [done|].
    rewrite lookup_insert_eq. split; [|done].
    split; [by apply grown_insert|by apply dir_private_insert]. }
  intros q. apply outcome_pure. intros ->.
  eapply outcome_bind with (S := λ n f, n = file ∧ (grown f0 f ∧ dir_private dir f) ∧
    f !! (dir ++ [name]) = Some file ∧ is_file file = true).
  { apply outcome_map_err, outcome_look; [by intros e f [[? _] _]|].
    intros f n [Hf Hq] Hn. rewrite Hq in Hn. by injection Hn as <-. }
  intros n. apply outcome_pure. intros ->. by apply file_outcome.
Qed.

(** The spool is opened only where it is private.  Whatever calls fail, opening it
    changes nothing that existed, and what it creates belongs to the process; when it
    succeeds, every directory of the path is a real one (none is a link), the
    directory is the operator's with mode 0700, and the file is a regular one of the
    operator with mode 0600. *)
Theorem open_spool_private dir name w : Forall (λ c, c ≠ dotdot) (dir ++ [name]) →
  match open_spool euid umask status (dir ++ [name]) w with
  | (inr _, w') => grown (tree w) (tree w') ∧ spool_private dir name (tree w')
  | (inl _, w') => grown (tree w) (tree w')
  end.
Proof using.
  intros Hd. pose proof (proj1 (Forall_app _ _ _) Hd) as [Hdir Hname%Forall_cons_1].
  destruct Hname as [Hname _].
  assert (Hgoal : outcome (grown (tree w)) (open_spool euid umask status (dir ++ [name]))
    (λ _ f, grown (tree w) f ∧ spool_private dir name f) (λ _, grown (tree w)));
    [|apply (Hgoal w), tree_grown_refl].
  unfold open_spool. eapply outcome_bind; [by apply parent_outcome|]. intros u. cbn.
  eapply outcome_bind with (S := λ found f, (grown (tree w) f ∧ dir_private dir f) ∧
    ∀ n, found = inr n → f !! (dir ++ [name]) = Some n).
  { apply outcome_try, outcome_look; [by intros e f ?; split|].
    intros f n [Hf Hp] Hn. split; [done|]. intros n' [= <-].
    by apply (lstat_good dir); [destruct Hp| |]. }
  intros found. eapply outcome_bind with (S := λ _ f, grown (tree w) f ∧ spool_private dir name f).
  - destruct found as [error|n]; cbn.
    + case_bool_decide; [|by apply outcome_throw; intros f [[? _] _]].
      eapply outcome_weaken; [by apply (new_file_outcome (tree w) dir name)|by intros f []|done|done].
    + destruct (is_symlink n) eqn:Hs; [by apply outcome_throw; intros f [[? _] _]|].
      destruct (is_file n) eqn:Hk; cbn; [|by apply outcome_throw; intros f [[? _] _]].
      eapply outcome_weaken; [by apply (file_outcome (tree w) dir name n)| |done|done].
      intros f [Hf Hn]. split; [done|]. by split; [apply Hn|].
  - intros u'. apply outcome_map_err, outcome_look; [by intros e f []|done].
Qed.
End OpenLemmas.

(** ** The table *)

Record SpoolRow := mkSpoolRow {
  row_event_id : str;
  row_payload : str;
  row_attempts : N;
  row_next_attempt_ms : Z;
}.

Record Pending := mkPending {
  event : WireEvent;
  attempts : N;
}.

Inductive Selection :=
| Due (pair_filter : option GuestProject) (limit : N) (force : bool)
| EventId (event_id : str).

Definition I64_MAX : Z := 9223372036854775807.

(** [now_millis], from the milliseconds since the epoch or a clock before it. *)
Definition now_millis (since_epoch : str + N) : str + Z :=
  ms ← since_epoch;
  if (Z.of_N ms <=? I64_MAX)%Z then inr (Z.of_N ms)
  else bail $"out of range integral type conversion attempted".

(** [SELECT .. WHERE event_id = ?]: the key is unique. *)
Definition find_row (key : str) (spool : list SpoolRow) : option SpoolRow :=
  List.find (λ r, str_eqb (row_event_id r) key) spool.

Section Table.
Context `{WireJson}.

Definition invalid_stored {A} : str + A := bail $"invalid stored forward event".

Definition enqueue (spool : list SpoolRow) (e : WireEvent) : str + list SpoolRow :=
  match find_row (we_event_id e) spool with
  | Some row =>
      match value_of_text (row_payload row) with
      | None => invalid_stored
      | Some stored =>
          if bool_decide (stored = to_value e) then inr spool
          else bail ($"event id " ++ we_event_id e
                     ++ $" is already queued with a different payload")
      end
  | None => inr (spool ++ [mkSpoolRow (we_event_id e) (to_text e) 0 0])
  end.

(** Reading one row: the payload parses, is valid, and is filed under its own id. *)
Definition read_row (row : SpoolRow) : str + WireEvent :=
  e ← context_option $"invalid stored forward event" (event_of_text (row_payload row));
  validate e ≫= λ _,
  if negb (str_eqb (we_event_id e) (row_event_id row))
  then bail $"stored event id differs from spool key"
  else inr e.

Fixpoint select_due (pair_filter : option GuestProject) (limit : N) (force : bool) (now : Z)
    (batch : list Pending) (first_pair : option GuestProject) (rows : list SpoolRow) :
    str + list Pending :=
  match rows with
  | [] => inr batch
  | row :: rest =>
      e ← read_row row;
      let event_pair := pair_of e in
      first_pair' ← (match pair_filter with
                     | None => match first_pair with
                               | Some first =>
                                   if negb (bool_decide (first = event_pair))
                                   then bail $"mixed spool requires --guest-id and --project"
                                   else inr first_pair
                               | None => inr (Some event_pair)
                               end
                     | Some _ => inr first_pair
                     end);
      select_due pair_filter limit force now
        (if (force || (row_next_attempt_ms row <=? now)%Z)
            && (match pair_filter with
                | None => true
                | Some selected => bool_decide (selected = event_pair)
                end)
            && (N.of_nat (length batch) <? limit)
         then batch ++ [mkPending e (row_attempts row)] else batch)
        first_pair' rest
  end.

Definition select (spool : list SpoolRow) (since_epoch : str + N) (selection : Selection) :
    str + list Pending :=
  match selection with
  | EventId key =>
      match find_row key spool with
      | Some row => e ← read_row row; inr [mkPending e (row_attempts row)]
      | None => inr []
      end
  | Due pair_filter limit force =>
      now ← now_millis since_epoch;
      select_due pair_filter limit force now [] None spool
  end.

Definition delivered (spool : list SpoolRow) (key : str) : list SpoolRow :=
  List.filter (λ r, negb (str_eqb (row_event_id r) key)) spool.

Definition saturating_add_i64 (a b : Z) : Z := Z.min (a + b) I64_MAX.

(** The row [retry] writes back. *)
Definition rescheduled (count : N) (next : Z) (r : SpoolRow) : SpoolRow :=
  mkSpoolRow (row_event_id r) (row_payload r) count next.

Definition retry (spool : list SpoolRow) (key : str) (count : N) (since_epoch : str + N) :
    str + list SpoolRow :=
  now ← now_millis since_epoch;
  let next := saturating_add_i64 now (Z.of_N (1000 * retry_delay count)) in
  inr (map (λ r, if str_eqb (row_event_id r) key then rescheduled count next r else r) spool).
End Table.

(** ** The queue the table stands for *)

Record Entry := mkEntry {
  en_event : WireEvent;
  en_attempts : N;
  en_next : Z;
}.

Definition en_id (en : Entry) : str := we_event_id (en_event en).

Section Queue.
Context `{WireJson} `{!WireJsonLaws _}.

Definition row_of (en : Entry) : SpoolRow :=
  mkSpoolRow (en_id en) (to_text (en_event en)) (en_attempts en) (en_next en).

Definition pending_of (en : Entry) : Pending := mkPending (en_event en) (en_attempts en).

Record queue_ok (q : list Entry) : Prop := {
  queue_valid : ∀ en, en ∈ q → valid_event (en_event en);
  queue_ids : NoDup (map en_id q);
}.

(** The table holds the queue [q]. *)
Definition holds (s : list SpoolRow) (q : list Entry) : Prop := s = map row_of q ∧ queue_ok q.

Definition queued (e : WireEvent) (q : list Entry) : Prop := ∃ en, en ∈ q ∧ en_event en = e.

(** The operations on queues. *)
Definition q_enqueue (q : list Entry) (e : WireEvent) : option (list Entry) :=
  match List.find (λ en, str_eqb (en_id en) (we_event_id e)) q with
  | Some en => if bool_decide (en_event en = e) then Some q else None
  | None => Some (q ++ [mkEntry e 0 0])
  end.

Definition q_due (pair_filter : option GuestProject) (force : bool) (now : Z) (en : Entry) : bool :=
  (force || (en_next en <=? now)%Z) &&
  match pair_filter with
  | None => true
  | Some p => bool_decide (p = pair_of (en_event en))
  end.

(** All the events have the same origin. *)
Definition uniform (q : list Entry) : bool :=
  match q with
  | [] => true
  | en :: q' => forallb (λ en', bool_decide (pair_of (en_event en) = pair_of (en_event en'))) q'
  end.

Definition q_delivered (q : list Entry) (key : str) : list Entry :=
  List.filter (λ en, negb (str_eqb (en_id en) key)) q.

Definition q_retry (q : list Entry) (key : str) (count : N) (now : Z) : list Entry :=
  let next := saturating_add_i64 now (Z.of_N (1000 * retry_delay count)) in
  map (λ en, if str_eqb (en_id en) key then mkEntry (en_event en) count next else en) q.

(** *** The table implements the queue *)

Lemma find_row_rows key q :
  find_row key (map row_of q) = row_of <$> List.find (λ en, str_eqb (en_id en) key) q.
Proof using.
  unfold find_row. induction q as [|en q IH]; [done|]. cbn.
  destruct (str_eqb (en_id en) key); [done|]. exact IH.
Qed.

Lemma find_id_Some key q en :
  List.find (λ en, str_eqb (en_id en) key) q = Some en → en ∈ q ∧ en_id en = key.
Proof using.
  intros [Hin Heq]%find_some. apply str_eqb_eq in Heq.
  split; [by apply list_elem_of_In|done].
Qed.

Lemma find_id_None key q :
  List.find (λ en, str_eqb (en_id en) key) q = None → key ∉ map en_id q.
Proof using.
  intros Hn (en & -> & Hin)%list_elem_of_fmap. apply list_elem_of_In in Hin.
  pose proof (find_none _ _ Hn en Hin) as Hf. cbn in Hf.
  by rewrite (proj2 (str_eqb_eq _ _) eq_refl) in Hf.
Qed.

Lemma enqueue_rows q e :
  match q_enqueue q e with
  | Some q' => enqueue (map row_of q) e = inr (map row_of q')
  | None => ∃ m, enqueue (map row_of q) e = inl m
  end.
Proof using WireJsonLaws0.
  unfold enqueue, q_enqueue. rewrite find_row_rows.
  destruct (List.find _ q) as [en|] eqn:E; cbn.
  - rewrite value_of_to_text. apply find_id_Some in E as [_ Hid].
    destruct (decide (en_event en = e)) as [He|Hne].
    + rewrite He, (bool_decide_eq_true_2 _ eq_refl). by rewrite bool_decide_eq_true_2.
    + rewrite (bool_decide_eq_false_2 _ Hne), bool_decide_eq_false_2; [by eexists|].
      contradict Hne. by apply to_value_inj.
  - by rewrite map_app.
Qed.

Lemma q_enqueue_ok q e q' : valid_event e → queue_ok q → q_enqueue q e = Some q' →
  queue_ok q' ∧ queued e q' ∧ (∀ e', queued e' q → queued e' q') ∧
  (∀ e', queued e' q' → queued e' q ∨ e' = e).
Proof using.
  intros He [Hv Hi] Hq. unfold q_enqueue in Hq.
  destruct (List.find _ q) as [en|] eqn:E.
  - case_bool_decide; [|done]. injection Hq as <-. apply find_id_Some in E as [Hin _].
    split; [by split|]. split; [by exists en|]. split; [done|]. by left.
  - injection Hq as <-. apply find_id_None in E. split; [split|].
    + intros en [?| ->%list_elem_of_singleton]%elem_of_app; [by apply Hv|done].
    + rewrite map_app. apply NoDup_app. split; [done|]. split; [|apply NoDup_singleton].
      intros k Hk ->%list_elem_of_singleton. done.
    + unfold queued. split; [|split].
      * exists (mkEntry e 0 0). split; [|done]. apply elem_of_app. right. by left.
      * intros e' (en & Hin & ?). exists en. split; [|done]. apply elem_of_app. by left.
      * intros e' (en & [Hin| ->%list_elem_of_singleton]%elem_of_app & <-);
          [left; by exists en|by right].
Qed.

Lemma read_row_of en : valid_event (en_event en) → read_row (row_of en) = inr (en_event en).
Proof using WireJsonLaws0.
  intros Hv. unfold read_row, row_of. cbn. rewrite event_of_to_text. cbn.
  rewrite (proj2 (validate_spec _) Hv). cbn. unfold en_id.
  by rewrite (proj2 (str_eqb_eq _ _) eq_refl).
Qed.

Definition select_step (pair_filter : option GuestProject) (limit : N) (force : bool) (now : Z)
    (batch : list Pending) (en : Entry) : list Pending :=
  if q_due pair_filter force now en && (N.of_nat (length batch) <? limit)
  then batch ++ [pending_of en] else batch.

(** The pairs seen agree with the first one. *)
Definition agrees (pair_filter first_pair : option GuestProject) (q : list Entry) : bool :=
  match pair_filter, first_pair with
  | None, Some p => forallb (λ en, bool_decide (p = pair_of (en_event en))) q
  | None, None => uniform q
  | Some _, _ => true
  end.

Lemma select_due_rows pair_filter limit force now q : (∀ en, en ∈ q → valid_event (en_event en)) →
  ∀ batch first_pair,
  select_due pair_filter limit force now batch first_pair (map row_of q) =
    if agrees pair_filter first_pair q
    then inr (foldl (select_step pair_filter limit force now) batch q)
    else bail $"mixed spool requires --guest-id and --project".
Proof using WireJsonLaws0.
  intros Hv. induction q as [|en q IH]; intros batch first_pair.
  { destruct pair_filter, first_pair; done. }
  cbn [map select_due foldl]. rewrite read_row_of by (apply Hv; left). rewrite inr_bind.
  assert (IHq := IH (λ en' Hin, Hv en' (list_elem_of_further _ _ _ Hin))).
  destruct pair_filter as [p|]; [|destruct first_pair as [p|]]; cbn [agrees uniform forallb].
  - rewrite inr_bind, IHq. cbn [agrees]. unfold select_step, q_due, row_of. cbn. done.
  - destruct (decide (p = pair_of (en_event en))) as [->|Hne].
    + rewrite !bool_decide_eq_true_2 by done. cbn [negb andb]. rewrite inr_bind, IHq.
      unfold select_step, q_due, row_of. cbn. done.
    + rewrite !bool_decide_eq_false_2 by done. done.
  - rewrite inr_bind, IHq. unfold select_step, q_due, row_of. cbn. done.
Qed.

Lemma select_fold pair_filter limit force now q batch :
  N.of_nat (length batch) ≤ limit →
  foldl (select_step pair_filter limit force now) batch q =
    batch ++ take (N.to_nat limit - length batch)
               (map pending_of (List.filter (q_due pair_filter force now) q)).
Proof using.
  revert batch. induction q as [|en q IH]; intros batch Hb; cbn [foldl List.filter].
  { cbn. by rewrite take_nil, app_nil_r. }
  unfold select_step at 2. destruct (q_due pair_filter force now en); cbn [andb]; [|by apply IH].
  destruct (N.ltb_spec (N.of_nat (length batch)) limit) as [Hlt|Hge].
  - rewrite IH by (rewrite length_app; cbn; lia). rewrite length_app, <-app_assoc. cbn [length map].
    f_equal. replace (N.to_nat limit - length batch)%nat
      with (S (N.to_nat limit - (length batch + 1)))%nat by lia. done.
  - rewrite IH by done. by replace (N.to_nat limit - length batch)%nat with 0%nat by lia.
Qed.

(** What [select] answers on a queue. *)
Definition q_select (q : list Entry) (since_epoch : str + N) (selection : Selection) :
    str + list Pending :=
  match selection with
  | EventId key => inr (map pending_of (List.filter (λ en, str_eqb (en_id en) key) q))
  | Due pair_filter limit force =>
      now ← now_millis since_epoch;
      if agrees pair_filter None q
      then inr (take (N.to_nat limit) (map pending_of (List.filter (q_due pair_filter force now) q)))
      else bail $"mixed spool requires --guest-id and --project"
  end.

Lemma filter_id key q : NoDup (map en_id q) →
  List.filter (λ en, str_eqb (en_id en) key) q =
    match List.find (λ en, str_eqb (en_id en) key) q with Some en => [en] | None => [] end.
Proof using.
  induction q as [|en q IH]; [done|]. cbn. intros [Hn Hnd]%NoDup_cons. rewrite IH by done.
  destruct (str_eqb (en_id en) key) eqn:E; [|done]. apply str_eqb_eq in E. subst key.
  destruct (List.find _ q) as [en'|] eqn:F; [|done].
  apply find_id_Some in F as [Hin Heq]. destruct Hn. rewrite <-Heq. by apply list_elem_of_fmap_2.
Qed.

Lemma select_rows q since_epoch selection : queue_ok q →
  select (map row_of q) since_epoch selection = q_select q since_epoch selection.
Proof using WireJsonLaws0.
  intros [Hv Hi]. destruct selection as [pair_filter limit force|key]; cbn.
  - destruct (now_millis since_epoch) as [|now]; [done|]. cbn.
    rewrite select_due_rows by done. destruct (agrees _ _ _); [|done].
    rewrite select_fold by (cbn; lia). cbn. by rewrite Nat.sub_0_r.
  - rewrite find_row_rows, filter_id by done.
    destruct (List.find _ q) as [en|] eqn:F; [|done]. cbn.
    apply find_id_Some in F as [Hin _]. by rewrite read_row_of by auto.
Qed.

Lemma delivered_rows q key : delivered (map row_of q) key = map row_of (q_delivered q key).
Proof using.
  unfold delivered, q_delivered. induction q as [|en q IH]; [done|]. cbn.
  destruct (str_eqb (en_id en) key); cbn; by rewrite IH.
Qed.

Lemma retry_rows q key count since_epoch :
  retry (map row_of q) key count since_epoch =
    (now ← now_millis since_epoch; inr (map row_of (q_retry q key count now))).
Proof using.
  unfold retry. destruct (now_millis since_epoch) as [|now]; [done|]. cbn. f_equal.
  unfold q_retry. rewrite !map_map. apply map_ext. intros en. cbn.
  by destruct (str_eqb (en_id en) key).
Qed.

Lemma q_delivered_ok q key : queue_ok q → queue_ok (q_delivered q key).
Proof using.
  intros [Hv Hi]. split.
  - intros en [_ Hin]%elem_of_filter_bool. by apply Hv.
  - unfold q_delivered. clear Hv. induction q as [|en q IH]; [constructor|]. cbn.
    apply NoDup_cons in Hi as [Hn Hi]. destruct (negb _); [|by apply IH].
    cbn. apply NoDup_cons. split; [|by apply IH]. contradict Hn.
    apply list_elem_of_fmap in Hn as (en' & -> & [_ Hin]%elem_of_filter_bool).
    by apply list_elem_of_fmap_2.
Qed.

Lemma q_retry_ids q key count now : map en_id (q_retry q key count now) = map en_id q.
Proof using.
  unfold q_retry. rewrite map_map. apply map_ext. intros en. by destruct (str_eqb _ _).
Qed.

Lemma q_retry_queued q key count now e : queued e (q_retry q key count now) ↔ queued e q.
Proof using.
  unfold queued, q_retry. split.
  - intros (en & (en' & -> & Hin)%list_elem_of_fmap & <-). exists en'. split; [done|].
    by destruct (str_eqb _ _).
  - intros (en & Hin & <-). eexists. split; [by apply list_elem_of_fmap_2|].
    cbn. by destruct (str_eqb _ _).
Qed.

Lemma q_retry_ok q key count now : queue_ok q → queue_ok (q_retry q key count now).
Proof using.
  intros [Hv Hi]. split; [|by rewrite q_retry_ids].
  intros en (en' & -> & Hin)%list_elem_of_fmap. specialize (Hv en' Hin). by destruct (str_eqb _ _).
Qed.

Lemma q_delivered_queued q key e :
  queued e (q_delivered q key) ↔ queued e q ∧ we_event_id e ≠ key.
Proof using.
  unfold queued, q_delivered. split.
  - intros (en & [Hk Hin]%elem_of_filter_bool & <-). split; [by exists en|].
    intros Heq. apply negb_true_iff in Hk. unfold en_id in Hk.
    by rewrite (proj2 (str_eqb_eq _ _) Heq) in Hk.
  - intros [(en & Hin & <-) Hne]. exists en. split; [|done]. apply elem_of_filter_bool.
    split; [|done]. apply negb_true_iff. apply not_true_iff_false. by rewrite str_eqb_eq.
Qed.
End Queue.

(** ** A fresh home *)

Module SpoolDemo.
Definition home : gmap Path Node := list_to_map [
  ([], mkNode Dir 0 493); ([ $"home"], mkNode Dir 0 493); ([ $"home"; $"op"], mkNode Dir 1000 493)].
Definition status : str + str := inr ($"Uid:" ++ [ch_tab] ++ $"1000" ++ [ch_tab] ++ $"1000").
End SpoolDemo.

Lemma open_spool_private_witness :
  let result := open_spool 1000 18 SpoolDemo.status [ $"home"; $"op"; $".rtrt"; $"spool"]
                  (mkFsWorld SpoolDemo.home []) in
  result.1 = inr () ∧ grown 1000 SpoolDemo.home (tree result.2).
Proof.
  split; [vm_compute; reflexivity|].
  pose proof (open_spool_private 1000 18 SpoolDemo.status [ $"home"; $"op"; $".rtrt"] $"spool"
    (mkFsWorld SpoolDemo.home [])) as Hs.
  change ([ $"home"; $"op"; $".rtrt"] ++ [ $"spool"]) with [ $"home"; $"op"; $".rtrt"; $"spool"] in Hs.
  destruct (open_spool 1000 18 SpoolDemo.status [ $"home"; $"op"; $".rtrt"; $"spool"]
    (mkFsWorld SpoolDemo.home [])) as [[e|u] w'].
  - apply Hs. apply (bool_decide_unpack _). vm_compute. exact I.
  - apply Hs. apply (bool_decide_unpack _). vm_compute. exact I.
Defined.
