(* ===== verification/Forward.v ===== *)
(** * The guest's forwarder: [crates/rtrt-cli/src/forward.rs]

    Queue first, then try to deliver: an event leaves the spool only when the
    collector acknowledged it, and is rescheduled otherwise.  Every access to the spool
    is a task of its own, which may fail to open the file or read the clock; the
    network is a state of its own that answers each post. *)
From stdpp Require Import gmap sets.
From S2P Require Import Prelude Str Fs Wire Spool.

(** What a blocking task meets: whether it fails (on opening the spool, on a
    statement, or by being lost), and what the clock reads. *)
Record TaskEnv := mkTask {
  task_fault : option str;
  since_epoch : str + N;
}.

(** What comes back from a post: a transport error, or a status and, if it can be
    read, the body. *)
Definition Response : Type := str + (N * option str).

Record EnqueueArgs := mkEnqueueArgs {
  arg_endpoint : str;
  arg_token : str;
  arg_guest_id : str;
  arg_project : str;
  arg_kind : str;
  arg_body : str;
  arg_event_id : option str;
  arg_session_id : option str;
  arg_metadata : option str;
}.

Definition is_success (status : N) : bool := (200 <=? status) && (status <? 300).

Section Forward.
Context `{WireJson} {Net : Type}.
(** The collector seen through the network, the URL parser, the names of the
    statuses, and the tasks' environments in the order the tasks run. *)
Context (post : Net → str → str → str → Response * Net).
Context (parse_url : str → option Url) (show_status : N → str).
Context (env : nat → TaskEnv).

Record Guest := mkGuest {
  spool : list SpoolRow;
  tick : nat;
  net : Net;
}.

Definition Run (A : Type) : Type := Guest → (str + A) * Guest.

#[export] Instance Run_ret : MRet Run := λ A a g, (inr a, g).
#[export] Instance Run_bind : MBind Run := λ A B k m g,
  match m g with
  | (inr a, g') => k a g'
  | (inl e, g') => (inl e, g')
  end.

Definition run_sum {A} (r : str + A) : Run A := λ g, (r, g).

(** One task on the spool; what fails changes nothing. *)
Definition task {A} (f : TaskEnv → list SpoolRow → str + (A * list SpoolRow)) : Run A := λ g,
  let g' s := mkGuest s (S (tick g)) (net g) in
  match task_fault (env (tick g)) with
  | Some e => (inl e, g' (spool g))
  | None => match f (env (tick g)) (spool g) with
            | inl e => (inl e, g' (spool g))
            | inr (a, s) => (inr a, g' s)
            end
  end.

Definition run_enqueue (e : WireEvent) : Run () :=
  task (λ _ s, s' ← enqueue s e; inr (tt, s')).
Definition run_select (selection : Selection) : Run (list Pending) :=
  task (λ t s, batch ← select s (since_epoch t) selection; inr (batch, s)).
Definition run_delivered (key : str) : Run () := task (λ _ s, inr (tt, delivered s key)).
Definition run_retry (key : str) (count : N) : Run () :=
  task (λ t s, s' ← retry s key count (since_epoch t); inr (tt, s')).

(** [send_one], after the answer to the post. *)
Definition read_ack (e : WireEvent) (response : Response) : str + CollectorAck :=
  answer ← context ($"post event " ++ we_event_id e ++ $" to collector") response;
  let '(status, body) := answer in
  if negb (is_success status)
  then bail ($"collector rejected event " ++ we_event_id e ++ $" with HTTP " ++ show_status status)
  else
    ack ← context_option ($"event " ++ we_event_id e ++ $" acknowledged with invalid JSON")
            (body ≫= ack_of_text);
    if (ack_memory_id ack <=? 0)%Z
    then bail ($"event " ++ we_event_id e ++ $" acknowledged without a positive memory_id")
    else inr ack.

Definition send_one (url token : str) (e : WireEvent) : Run (str + CollectorAck) := λ g,
  let '(response, net') := post (net g) url token (to_text e) in
  (inr (read_ack e response), mkGuest (spool g) (tick g) net').

Definition saturating_add_u32 (a b : N) : N := N.min (a + b) u32_max.

Fixpoint deliver_batch (url token : str) (sent failures : N) (last_error : option str)
    (batch : list Pending) : Run (N * N * option str) :=
  match batch with
  | [] => mret (sent, failures, last_error)
  | item :: rest =>
      outcome ← send_one url token (event item);
      match outcome with
      | inr _ =>
          run_delivered (we_event_id (event item)) ≫= λ _,
          deliver_batch url token (sent + 1) failures last_error rest
      | inl error =>
          run_retry (we_event_id (event item)) (saturating_add_u32 (attempts item) 1) ≫= λ _,
          deliver_batch url token sent (failures + 1) (Some error) rest
      end
  end.

Definition flush_to_url (url token : str) (selection : Selection) : Run N :=
  batch ← run_select selection;
  outcome ← deliver_batch url token 0 0 None batch;
  let '(sent, failures, last_error) := outcome in
  if 0 <? failures then
    run_sum (bail (show_N failures ++ $" event(s) remain queued after failed delivery; "
      ++ show_N sent ++ $" delivered"
      ++ match last_error with Some reason => $"; last error: " ++ reason | None => [] end))
  else mret sent.

Definition flush (endpoint token : str) (force : bool) : Run N :=
  run_sum (validate_token token) ≫= λ _,
  url ← run_sum (collector_url parse_url endpoint);
  flush_to_url url token (Due None (if force then 1 else 100) force).

Definition flush_pair (endpoint token : str) (pair_filter : GuestProject) : Run N :=
  run_sum (validate_token token) ≫= λ _,
  (if negb (valid_identifier (guest_id pair_filter))
      || negb (valid_identifier (project pair_filter))
   then run_sum (bail $"forward filter requires valid guest and project identifiers")
   else mret ()) ≫= λ _,
  url ← run_sum (collector_url parse_url endpoint);
  flush_to_url url token (Due (Some pair_filter) 100 false).

(** The event the arguments describe, under the given id or a new one. *)
Definition event_of_args (uuid : str) (args : EnqueueArgs) : str + WireEvent :=
  metadata ← match arg_metadata args with
             | Some raw => m ← metadata_of_text raw; inr (Some m)
             | None => inr None
             end;
  let e := mkWire (default uuid (arg_event_id args)) (arg_guest_id args) (arg_project args)
             (arg_kind args) (arg_body args) (arg_session_id args) metadata in
  validate e ≫= λ _, inr e.

Definition enqueue_and_deliver (uuid : str) (client : str + ()) (args : EnqueueArgs) : Run str :=
  run_sum (validate_token (arg_token args)) ≫= λ _,
  url ← run_sum (collector_url parse_url (arg_endpoint args));
  e ← run_sum (event_of_args uuid args);
  let key := we_event_id e in
  let deferred : Run str := λ g,
    (inr key, (flush_to_url url (arg_token args) (EventId key) g).2) in
  run_enqueue e ≫= λ _,
  run_sum client ≫= λ _,
  deferred.
End Forward.
Arguments Guest : clear implicits.
Arguments Run : clear implicits.

(** ** What a flush does to the queue *)

Section Flushing.
Context `{WireJson} `{!WireJsonLaws _} {Net : Type}.
Context (post : Net → str → str → str → Response * Net).
Context (parse_url : str → option Url) (show_status : N → str).
Context (env : nat → TaskEnv).

#[local] Abbreviation G := (Guest Net).
#[local] Abbreviation deliver_batch := (deliver_batch post show_status env).
#[local] Abbreviation flush_to_url := (flush_to_url post show_status env).

(** The posts of a batch, one after the other, and how each was answered. *)
Fixpoint send_batch (url token : str) (n : Net) (batch : list Pending) :
    list (WireEvent * (str + CollectorAck)) :=
  match batch with
  | [] => []
  | item :: rest =>
      let '(response, n') := post n url token (to_text (event item)) in
      (event item, read_ack show_status (event item) response) :: send_batch url token n' rest
  end.

Definition acknowledged (e : WireEvent) (outs : list (WireEvent * (str + CollectorAck))) : Prop :=
  ∃ ack, (e, inr ack) ∈ outs.

Definition all_acknowledged (outs : list (WireEvent * (str + CollectorAck))) : bool :=
  forallb (λ o, succeeds o.2) outs.

(** From [q] to [q'] only events acknowledged in [outs] left, and nothing came. *)
Definition drained (q q' : list Entry) (outs : list (WireEvent * (str + CollectorAck))) : Prop :=
  (∀ e, queued e q' → queued e q) ∧
  (∀ e, queued e q → queued e q' ∨ acknowledged e outs).

Lemma drained_refl q outs : drained q q outs.
Proof using. split; [done|]. by left. Qed.

Lemma drained_trans q1 q2 q3 o outs : drained q1 q2 [o] → drained q2 q3 outs →
  drained q1 q3 (o :: outs).
Proof using.
  intros [A1 B1] [A2 B2]. split; [by eauto|]. intros e He.
  destruct (B1 e He) as [H2|[ack Ha]].
  - destruct (B2 e H2) as [?|[ack ?]]; [by left|]. right. exists ack. by right.
  - right. exists ack. apply list_elem_of_singleton in Ha. rewrite Ha. by left.
Qed.

Lemma queue_same_id q e e' : queue_ok q → queued e q → queued e' q →
  we_event_id e = we_event_id e' → e = e'.
Proof using.
  intros [_ Hi] (en & Hin & <-) (en' & Hin' & <-) Heq. f_equal.
  apply list_elem_of_lookup in Hin as [i Hi1]. apply list_elem_of_lookup in Hin' as [j Hj1].
  assert (i = j) as ->; [|congruence].
  eapply (NoDup_lookup _ _ _ (en_id en) Hi); rewrite list_lookup_fmap.
  - by rewrite Hi1.
  - rewrite Hj1. cbn. f_equal. symmetry. exact Heq.
Qed.

Lemma drained_delivered q e ack : queue_ok q → queued e q →
  drained q (q_delivered q (we_event_id e)) [(e, inr ack)].
Proof using.
  intros Hok He. split.
  - intros e' [? _]%q_delivered_queued. done.
  - intros e' He'. destruct (decide (we_event_id e' = we_event_id e)) as [Heq|Hne].
    + right. exists ack. assert (e' = e) as -> by (by eapply queue_same_id).
      by apply list_elem_of_singleton.
    + left. by apply q_delivered_queued.
Qed.

(** A batch that can be delivered from [q]: queued, no event twice. *)
Definition deliverable (batch : list Pending) (q : list Entry) : Prop :=
  NoDup (map (we_event_id ∘ event) batch) ∧ ∀ item, item ∈ batch → queued (event item) q.

Definition without (q : list Entry) (batch : list Pending) : list Entry :=
  List.filter (λ en, bool_decide (en_id en ∉ map (we_event_id ∘ event) batch)) q.

Lemma without_cons q item batch :
  without (q_delivered q (we_event_id (event item))) batch = without q (item :: batch).
Proof using.
  unfold without, q_delivered. induction q as [|en q IH]; [done|]. cbn.
  destruct (str_eqb (en_id en) (we_event_id (event item))) eqn:E; cbn.
  - apply str_eqb_eq in E. rewrite IH, bool_decide_eq_false_2; [done|].
    rewrite E. intros Hn. apply Hn. by left.
  - rewrite IH. f_equal.
    assert (en_id en ≠ we_event_id (event item)) as Hne
      by (intros Heq%str_eqb_eq; congruence).
    assert (bool_decide (en_id en ∉ map (we_event_id ∘ event) batch) =
      bool_decide (en_id en ∉ we_event_id (event item) :: map (we_event_id ∘ event) batch)) as ->; [|done].
    apply bool_decide_ext. rewrite not_elem_of_cons. naive_solver.
Qed.

Lemma run_delivered_queue e ack (g : G) q : holds (spool g) q → queued e q →
  ∃ q', holds (spool (run_delivered env (we_event_id e) g).2) q' ∧
    drained q q' [(e, inr ack)] ∧
    ((run_delivered env (we_event_id e) g).1 = inr () → q' = q_delivered q (we_event_id e)).
Proof using.
  intros [Hs Hq] He. unfold run_delivered, task. rewrite Hs.
  destruct (task_fault (env (tick g))); cbn.
  - exists q. by split; [|split; [apply drained_refl|]].
  - exists (q_delivered q (we_event_id e)). rewrite delivered_rows.
    split; [by split; [|apply q_delivered_ok]|]. split; [by apply drained_delivered|done].
Qed.

Lemma run_retry_queue key count (g : G) q outs : holds (spool g) q →
  ∃ q', holds (spool (run_retry env key count g).2) q' ∧ drained q q' outs ∧
    (∀ e, queued e q' ↔ queued e q).
Proof using.
  intros [Hs Hq]. unfold run_retry, task. rewrite Hs.
  assert (Hsame : holds (map row_of q) q ∧ drained q q outs ∧ ∀ e, queued e q ↔ queued e q)
    by (split; [done|split; [apply drained_refl|done]]).
  destruct (task_fault (env (tick g))); cbn; [by exists q|]. rewrite retry_rows.
  destruct (now_millis _) as [|now]; cbn; [by exists q|].
  exists (q_retry q key count now). split; [by split; [|apply q_retry_ok]|].
  split; [|intros e; apply q_retry_queued]. split; intros e; rewrite q_retry_queued; by auto.
Qed.

Lemma task_net {A} f (g : G) : net (task env (A := A) f g).2 = net g.
Proof using.
  unfold task. destruct (task_fault _); [done|]. by destruct (f _ _) as [|[]].
Qed.

Definition failed (outs : list (WireEvent * (str + CollectorAck))) : N :=
  N.of_nat (length (List.filter (λ o, negb (succeeds o.2)) outs)).

Lemma deliver_batch_spec url token batch : ∀ (g : G) q sent failures last_error,
  holds (spool g) q → deliverable batch q →
  let '(r, g') := deliver_batch url token sent failures last_error batch g in
  let outs := send_batch url token (net g) batch in
  ∃ q', holds (spool g') q' ∧ drained q q' outs ∧
    match r with
    | inl _ => True
    | inr (s, f, _) => f = failures + failed outs ∧
        s + failed outs = sent + N.of_nat (length batch) ∧
        (all_acknowledged outs = true → q' = without q batch)
    end.
Proof using WireJsonLaws0.
  induction batch as [|item batch IH]; intros g q sent failures last_error Hg [Hnd Hq].
  { cbn. exists q. split; [done|]. split; [apply drained_refl|]. unfold failed, without. cbn.
    split; [lia|]. split; [lia|]. intros _. clear. induction q as [|en q IH]; [done|].
    cbn. by f_equal. }
  cbn [deliver_batch Forward.deliver_batch send_batch].
  unfold mbind at 1, Run_bind at 1, send_one at 1.
  destruct (post (net g) url token (to_text (event item))) as [response n'] eqn:Hp.
  apply NoDup_cons in Hnd as [Hn Hnd].
  set (g1 := mkGuest (spool g) (tick g) n').
  destruct (read_ack show_status (event item) response) as [error|ack]; unfold mbind, Run_bind.
  - set (key := we_event_id (event item)). set (count := saturating_add_u32 _ _).
    destruct (run_retry_queue key count g1 q [(event item, inl error)] Hg)
      as (q1 & Hg1 & Hd1 & Hsame).
    pose proof (task_net (λ t s, s' ← retry s key count (since_epoch t); inr (tt, s')) g1) as Hnet.
    unfold run_retry in *. destruct (task env _ g1) as [[e|u] g2]; cbn in *.
    + exists q1. split; [done|]. split; [|done]. eapply drained_trans; [done|apply drained_refl].
    + specialize (IH g2 q1 sent (failures + 1) (Some error) Hg1). rewrite Hnet in IH.
      destruct (deliver_batch _ _ _ _ _ _ g2) as [r g3].
      destruct IH as (q' & Hg3 & Hd3 & Hr).
      { split; [done|]. intros it Hit. apply Hsame, Hq. by right. }
      exists q'. split; [done|]. split; [by eapply drained_trans|].
      destruct r as [|[[s f] le]]; [done|]. destruct Hr as (-> & Hs & _). unfold failed in *. cbn.
      split; [lia|]. split; [lia|done].
  - destruct (run_delivered_queue (event item) ack g1 q Hg) as (q1 & Hg1 & Hd1 & Hdel);
      [by apply Hq; left|].
    pose proof (task_net (λ _ s, inr (tt, delivered s (we_event_id (event item)))) g1) as Hnet.
    unfold run_delivered in *. destruct (task env _ g1) as [[e|u] g2]; cbn in *.
    + exists q1. split; [done|]. split; [|done]. eapply drained_trans; [done|apply drained_refl].
    + destruct u. specialize (Hdel eq_refl). subst q1.
      specialize (IH g2 _ (sent + 1) failures last_error Hg1). rewrite Hnet in IH.
      destruct (deliver_batch _ _ _ _ _ _ g2) as [r g3].
      destruct IH as (q' & Hg3 & Hd3 & Hr).
      { split; [done|]. intros it Hit. apply q_delivered_queued. split; [by apply Hq; right|].
        intros Heq. apply Hn. cbn. rewrite <-Heq.
        change (we_event_id (event it)) with ((we_event_id ∘ event) it).
        by apply list_elem_of_fmap_2. }
      exists q'. split; [done|]. split; [by eapply drained_trans|].
      destruct r as [|[[s f] le]]; [done|]. destruct Hr as (-> & Hs & Hall).
      unfold failed in *. cbn. split; [lia|]. split; [lia|]. intros Hacked.
      rewrite (Hall Hacked). apply without_cons.
Qed.

Lemma event_of_args_valid uuid args e : event_of_args uuid args = inr e → valid_event e.
Proof using.
  unfold event_of_args. destruct (match arg_metadata args with Some _ => _ | None => _ end);
    [done|]. cbn. destruct (validate _) as [|[]] eqn:Hval; [done|].
  cbn. intros [= <-]. by apply validate_spec.
Qed.

Lemma elem_of_take_l {A} (x : A) n l : x ∈ take n l → x ∈ l.
Proof using. intros (i & Hi & _)%elem_of_take. by eapply list_elem_of_lookup_2. Qed.

(** *** What an acknowledgement is *)

(** The answer accepts the event: a success status, and a body that reads as an
    acknowledgement naming a positive row. *)
Definition confirms (response : Response) : Prop :=
  ∃ status body ack, response = inr (status, Some body) ∧ is_success status = true ∧
    ack_of_text body = Some ack ∧ (0 < ack_memory_id ack)%Z.

(** The posts of a batch with their answers. *)
Fixpoint post_batch (url token : str) (n : Net) (batch : list Pending) :
    list (WireEvent * Response) :=
  match batch with
  | [] => []
  | item :: rest =>
      let '(response, n') := post n url token (to_text (event item)) in
      (event item, response) :: post_batch url token n' rest
  end.

Definition confirmed (e : WireEvent) (posts : list (WireEvent * Response)) : Prop :=
  ∃ response, (e, response) ∈ posts ∧ confirms response.

Lemma read_ack_confirms e response ack :
  read_ack show_status e response = inr ack → confirms response.
Proof using.
  unfold read_ack, confirms. destruct response as [|[status body]]; [done|]. cbn.
  destruct (is_success status) eqn:Hs; [|done]. cbn.
  destruct body as [body|]; [|done]. cbn. destruct (ack_of_text body) as [a|] eqn:Ha; [|done]. cbn.
  destruct (Z.leb_spec (ack_memory_id a) 0); [done|]. intros [= <-]. by exists status, body, a.
Qed.

Lemma send_batch_posts url token batch : ∀ n,
  send_batch url token n batch =
    map (λ er, (er.1, read_ack show_status er.1 er.2)) (post_batch url token n batch).
Proof using.
  induction batch as [|item batch IH]; intros n; [done|]. cbn.
  destruct (post n url token _) as [response n']. cbn. by rewrite IH.
Qed.

Lemma acknowledged_confirmed url token n batch e :
  acknowledged e (send_batch url token n batch) → confirmed e (post_batch url token n batch).
Proof using.
  intros [ack Hin]. rewrite send_batch_posts in Hin.
  apply list_elem_of_fmap in Hin as ([e' response] & [= -> Hr] & Hin). exists response.
  split; [done|]. by eapply read_ack_confirms.
Qed.

Lemma all_confirmed url token n batch : all_acknowledged (send_batch url token n batch) = true →
  ∀ e response, (e, response) ∈ post_batch url token n batch → confirms response.
Proof using.
  rewrite send_batch_posts. unfold all_acknowledged. rewrite forallb_forall.
  intros Hall e response Hin.
  specialize (Hall (e, read_ack show_status e response)). cbn in Hall.
  destruct (read_ack show_status e response) as [m|ack] eqn:Hr; [|by eapply read_ack_confirms].
  exfalso. enough (false = true) by done. apply Hall. apply in_map_iff.
  exists (e, response). cbn. rewrite Hr. split; [done|]. by apply list_elem_of_In.
Qed.

Lemma deliverable_sub q (P : Entry → bool) n : queue_ok q →
  deliverable (take n (map pending_of (List.filter P q))) q.
Proof using.
  intros [_ Hi]. split.
  - rewrite <-firstn_map, map_map. change (λ x, (we_event_id ∘ event) (pending_of x)) with en_id.
    eapply sublist_NoDup; [|apply sublist_take]. eapply sublist_NoDup; [exact Hi|].
    clear. induction q as [|en q IH]; cbn; [constructor|].
    destruct (P en); cbn; by constructor.
  - intros item Hin. apply elem_of_take_l in Hin.
    apply list_elem_of_fmap in Hin as (en & -> & [_ Hin]%elem_of_filter_bool). by exists en.
Qed.

Lemma q_select_deliverable q since_epoch selection batch : queue_ok q →
  q_select q since_epoch selection = inr batch → deliverable batch q.
Proof using.
  intros Hok. destruct selection as [pair_filter limit force|key]; cbn.
  - destruct (now_millis since_epoch) as [|now]; [done|]. cbn.
    destruct (agrees _ _ _); [|done]. intros [= <-]. by apply deliverable_sub.
  - intros [= <-].
    pose proof (deliverable_sub q (λ en, str_eqb (en_id en) key)
      (length (map pending_of (List.filter (λ en, str_eqb (en_id en) key) q))) Hok) as Hd.
    by rewrite firstn_all in Hd.
Qed.

Lemma run_select_rows (g : G) q selection : holds (spool g) q →
  run_select env selection g =
    (match task_fault (env (tick g)) with
     | Some e => inl e
     | None => q_select q (since_epoch (env (tick g))) selection
     end, mkGuest (spool g) (S (tick g)) (net g)).
Proof using WireJsonLaws0.
  intros [Hs Hq]. unfold run_select, task. rewrite Hs.
  destruct (task_fault _); [done|]. rewrite select_rows by done. by destruct (q_select _ _ _).
Qed.

(** What a flush selects, when it can. *)
Definition flush_batch (g : G) (q : list Entry) (selection : Selection) : list Pending :=
  match q_select q (since_epoch (env (tick g))) selection with inr b => b | inl _ => [] end.

Lemma failed_none outs : failed outs = 0 → all_acknowledged outs = true.
Proof using.
  unfold failed. induction outs as [|[e o] outs IH]; [done|]. cbn.
  destruct (succeeds o); cbn; [done|lia].
Qed.

Lemma flush_to_url_spec url token selection (g : G) q : holds (spool g) q →
  let '(r, g') := flush_to_url url token selection g in
  let outs := send_batch url token (net g) (flush_batch g q selection) in
  ∃ q', holds (spool g') q' ∧ drained q q' outs ∧
    match r with
    | inl _ => True
    | inr n => all_acknowledged outs = true ∧ n = N.of_nat (length (flush_batch g q selection)) ∧
        q' = without q (flush_batch g q selection)
    end.
Proof using WireJsonLaws0.
  intros Hg. unfold flush_to_url, Forward.flush_to_url, flush_batch, mbind, Run_bind.
  rewrite (run_select_rows g q) by done. set (g1 := mkGuest _ _ _).
  assert (Hnone : ∀ outs, ∃ q', holds (spool g1) q' ∧ drained q q' outs ∧ True)
    by (intros outs; exists q; split; [done|split; [apply drained_refl|done]]).
  destruct (task_fault _); [apply Hnone|].
  destruct (q_select q _ selection) as [|batch] eqn:Hsel; [apply Hnone|].
  pose proof (deliver_batch_spec url token batch g1 q 0 0 None Hg) as Hb.
  destruct (deliver_batch _ _ _ _ _ batch g1) as [[e|[[sent failures] le]] g2].
  - destruct Hb as (q' & ? & ? & _); [destruct Hg; by eapply q_select_deliverable|]. by exists q'.
  - destruct Hb as (q' & ? & ? & Hf & Hs & Hall); [destruct Hg; by eapply q_select_deliverable|].
    destruct (N.ltb_spec 0 failures); cbn; exists q'; [done|].
    split; [done|]. split; [done|]. cbn in *.
    assert (failed (send_batch url token (net g) batch) = 0) as Hz by lia.
    apply failed_none in Hz as Ha. split; [done|]. split; [lia|auto].
Qed.

(** C26: No event leaves the spool without its acknowledgement.  Whatever tasks fail and
    whatever the network answers, a flush keeps the spool well formed, adds nothing
    to it, and every event that is gone afterwards was posted by this flush and
    answered with a success status and an acknowledgement naming a positive row.
    When the flush reports success, everything it selected was acknowledged, exactly
    that many events are reported, and exactly those left. *)
Theorem flush_keeps_unacknowledged url token selection (g : G) q : holds (spool g) q →
  let '(r, g') := flush_to_url url token selection g in
  let batch := flush_batch g q selection in
  let posts := post_batch url token (net g) batch in
  ∃ q', holds (spool g') q' ∧
    (∀ e, queued e q' → queued e q) ∧
    (∀ e, queued e q → queued e q' ∨ confirmed e posts) ∧
    match r with
    | inl _ => True
    | inr n => (∀ e response, (e, response) ∈ posts → confirms response) ∧
        n = N.of_nat (length batch) ∧ q' = without q batch
    end.
Proof using WireJsonLaws0.
  intros Hg. pose proof (flush_to_url_spec url token selection g q Hg) as Hs.
  destruct (flush_to_url _ _ _ g) as [r g']. destruct Hs as (q' & Hh & [Hin Hout] & Hr).
  exists q'. split; [done|]. split; [done|]. split.
  - intros e He. destruct (Hout e He); [by left|right; by apply acknowledged_confirmed].
  - destruct r as [|n]; [done|]. destruct Hr as (Hall & Hn & Hq'). split; [|done].
    by apply all_confirmed.
Qed.

(** ** Queueing first *)

Lemma run_enqueue_queue e (g : G) q : holds (spool g) q → valid_event e →
  ∃ q', holds (spool (run_enqueue env e g).2) q' ∧
    (∀ e', queued e' q → queued e' q') ∧ (∀ e', queued e' q' → queued e' q ∨ e' = e) ∧
    ((run_enqueue env e g).1 = inr () → queued e q').
Proof using WireJsonLaws0.
  intros [Hs Hq] He. unfold run_enqueue, task. rewrite Hs.
  assert (Hsame : ∃ q', holds (map row_of q) q' ∧
    (∀ e', queued e' q → queued e' q') ∧ (∀ e', queued e' q' → queued e' q ∨ e' = e))
    by (exists q; split; [done|split; [done|by left]]).
  destruct Hsame as (q0 & ? & ? & ?).
  destruct (task_fault _) as [m|]; cbn; [by exists q0|].
  pose proof (enqueue_rows q e) as Hr. destruct (q_enqueue q e) as [q'|] eqn:Hqe.
  - rewrite Hr. cbn. destruct (q_enqueue_ok q e q' He Hq Hqe) as (Hok & Hin & Hkeep & Hnew).
    exists q'. by split; [|split; [|split]].
  - destruct Hr as [m ->]. cbn. by exists q0.
Qed.

#[local] Abbreviation enqueue_and_deliver := (enqueue_and_deliver post parse_url show_status env).

(** An accepted event is safe before any network is involved.  When queueing answers
    an id, that is the id of the event the arguments describe, and the event is in
    the spool afterwards or was acknowledged in the one delivery attempt; a failed
    attempt is not reported as an error.  When queueing reports an error, nothing
    was posted.  In both cases every event queued before is still queued, or was
    acknowledged too. *)
Theorem enqueue_is_durable uuid client args (g : G) q : holds (spool g) q →
  match enqueue_and_deliver uuid client args g with
  | (inr key, g') => ∃ url e q' batch,
      collector_url parse_url (arg_endpoint args) = inr url ∧
      event_of_args uuid args = inr e ∧ key = we_event_id e ∧ holds (spool g') q' ∧
      ∀ e', queued e' q ∨ e' = e →
        queued e' q' ∨ confirmed e' (post_batch url (arg_token args) (net g) batch)
  | (inl _, g') => net g' = net g ∧
      ∃ q', holds (spool g') q' ∧ ∀ e', queued e' q → queued e' q'
  end.
Proof using WireJsonLaws0.
  intros Hg. unfold enqueue_and_deliver, Forward.enqueue_and_deliver, mbind, Run_bind, run_sum.
  assert (Hsame : net g = net g ∧ ∃ q', holds (spool g) q' ∧ ∀ e', queued e' q → queued e' q')
    by (split; [done|by exists q]).
  destruct (validate_token _); [done|].
  destruct (collector_url parse_url (arg_endpoint args)) as [|url]; [done|].
  destruct (event_of_args uuid args) as [|e] eqn:He; [done|].
  assert (Hv : valid_event e) by (by eapply event_of_args_valid).
  destruct (run_enqueue_queue e g q Hg Hv) as (q1 & Hh1 & Hkeep & _ & Hin).
  pose proof (task_net (λ _ s, s' ← enqueue s e; inr (tt, s')) g) as Hnet.
  unfold run_enqueue in *. destruct (task env _ g) as [[m|[]] g1]; cbn in *.
  { split; [done|]. by exists q1. }
  destruct client; cbn; [split; [done|by exists q1]|].
  pose proof (flush_to_url_spec url (arg_token args) (EventId (we_event_id e)) g1 q1 Hh1) as Hs.
  destruct (flush_to_url _ _ _ g1) as [r g']. destruct Hs as (q' & Hh & [_ Hout] & _).
  rewrite Hnet in Hout. eexists url, e, q', _. split; [done|]. split; [done|]. split; [done|].
  split; [done|]. intros e' He'.
  destruct (Hout e'); [destruct He' as [?| ->]; auto|by left|].
  right. by eapply acknowledged_confirmed.
Qed.

(** ** A collector that answers *)

(** No task fails, and while the network stays in [I], every event of [V] that is posted
    is acknowledged. *)
Record working (I : Net → Prop) (V : WireEvent → Prop) (url token : str) : Prop := {
  working_tasks : ∀ t, task_fault (env t) = None;
  working_post : ∀ n e, I n → V e →
    I (post n url token (to_text e)).2 ∧
    succeeds (read_ack show_status e (post n url token (to_text e)).1) = true;
}.

Lemma deliver_batch_returns I V url token batch : working I V url token →
  ∀ (g : G) sent failures last_error, I (net g) →
  (∀ item, item ∈ batch → V (event item)) →
  let '(r, g') := deliver_batch url token sent failures last_error batch g in
  r = inr (sent + N.of_nat (length batch), failures, last_error) ∧ I (net g').
Proof using.
  intros Hw. induction batch as [|item batch IH]; intros g sent failures le Hg Hv; cbn.
  { by rewrite N.add_0_r. }
  unfold mbind, Run_bind, send_one.
  pose proof (working_post _ _ _ _ Hw (net g) (event item) Hg (Hv item ltac:(left))) as [Hn Ha].
  destruct (post _ url token _) as [response n']. cbn in *.
  destruct (read_ack show_status (event item) response) as [|ack]; [done|].
  unfold run_delivered, task. rewrite (working_tasks _ _ _ _ Hw). cbn.
  match goal with |- let '(_, _) := deliver_batch _ _ _ _ _ _ ?g1 in _ =>
    specialize (IH g1 (sent + 1) failures le Hn) end.
  destruct (deliver_batch _ _ _ _ _ batch _) as [r g'].
  destruct IH as [-> Hg']; [intros it Hit; apply Hv; by right|]. split; [|done].
  do 3 f_equal. lia.
Qed.

Lemma flush_working I V url token selection batch (g : G) q : working I V url token →
  holds (spool g) q → I (net g) → (∀ e, queued e q → V e) →
  q_select q (since_epoch (env (tick g))) selection = inr batch →
  let '(r, g') := flush_to_url url token selection g in
  r = inr (N.of_nat (length batch)) ∧ holds (spool g') (without q batch) ∧ I (net g').
Proof using WireJsonLaws0.
  intros Hw Hg HI HV Hsel. pose proof (flush_to_url_spec url token selection g q Hg) as Hs.
  destruct Hg as [Hg Hq]. pose proof (q_select_deliverable _ _ _ _ Hq Hsel) as [_ Hb].
  unfold flush_batch in Hs. rewrite Hsel in Hs.
  assert (Hr : (flush_to_url url token selection g).1 = inr (N.of_nat (length batch)) ∧
    I (net (flush_to_url url token selection g).2)).
  { unfold flush_to_url, Forward.flush_to_url, mbind, Run_bind.
    rewrite (run_select_rows g q), (working_tasks _ _ _ _ Hw), Hsel by done.
    pose proof (deliver_batch_returns I V url token batch Hw
      (mkGuest (spool g) (S (tick g)) (net g)) 0 0 None HI) as Hd.
    destruct (deliver_batch _ _ _ _ _ batch _) as [r g2].
    destruct Hd as [-> HI2]; [intros item Hin; by apply HV, Hb|]. done. }
  destruct (flush_to_url url token selection g) as [r g']. cbn in Hr. destruct Hr as [-> HI'].
  destruct Hs as (q' & Hh & _ & _ & _ & ->). done.
Qed.

Lemma q_delivered_absent q key : key ∉ map en_id q → q_delivered q key = q.
Proof using.
  unfold q_delivered. induction q as [|en q IH]; [done|].
  cbn. intros [Hne Hn]%not_elem_of_cons. rewrite IH by done.
  destruct (str_eqb (en_id en) key) eqn:E; [|done]. apply str_eqb_eq in E. by destruct Hne.
Qed.

Lemma without_take n q : NoDup (map en_id q) → without q (take n (map pending_of q)) = drop n q.
Proof using.
  revert n. induction q as [|en q IH]; intros [|n] Hnd; [done|done| |].
  - unfold without. cbn. clear. f_equal. induction q as [|en' q IH]; [done|]. cbn. by f_equal.
  - apply NoDup_cons in Hnd as [Hn Hnd]. cbn [map take drop]. rewrite <-IH by done.
    rewrite <-(without_cons (en :: q) (pending_of en)). unfold q_delivered. cbn.
    rewrite (proj2 (str_eqb_eq _ _) eq_refl). cbn.
    change (List.filter _ q) with (q_delivered q (en_id en)). by rewrite q_delivered_absent.
Qed.

#[local] Abbreviation flush := (flush post parse_url show_status env).

(** [k] flushes in a row. *)
Fixpoint flushes (endpoint token : str) (k : nat) (g : G) : G :=
  match k with
  | O => g
  | S k' => flushes endpoint token k' (flush endpoint token false g).2
  end.

Definition due_from (t : nat) (q : list Entry) : Prop :=
  ∀ t', (t ≤ t')%nat → ∃ now, now_millis (since_epoch (env t')) = inr now ∧
    ∀ en, en ∈ q → (en_next en ≤ now)%Z.

Lemma filter_true {A} (P : A → bool) l : (∀ x, x ∈ l → P x = true) → List.filter P l = l.
Proof using.
  induction l as [|x l IH]; intros HP; [done|]. cbn. rewrite HP by left.
  f_equal. apply IH. intros y Hy. apply HP. by right.
Qed.

Lemma uniform_drop n q : uniform q = true → uniform (drop n q) = true.
Proof using.
  intros Hu. destruct q as [|en q]; [by rewrite drop_nil|]. destruct n as [|n]; [done|].
  cbn in *. rewrite forallb_forall in Hu.
  destruct (drop n q) as [|en1 q1] eqn:E; [done|]. cbn. apply forallb_forall.
  assert (Hin : ∀ x, In x (en1 :: q1) → pair_of (en_event en) = pair_of (en_event x)).
  { intros x Hx. rewrite <-E in Hx. apply list_elem_of_In, list_elem_of_lookup in Hx as [i Hi].
    rewrite lookup_drop in Hi.
    apply list_elem_of_lookup_2, list_elem_of_In, Hu in Hi. by case_bool_decide. }
  intros x Hx. apply bool_decide_eq_true_2. rewrite <-(Hin en1), <-(Hin x); [done|by right|by left].
Qed.

(** One flush of a due queue of a single origin takes its first hundred events. *)
Lemma flush_hundred I V endpoint token url (g : G) q : working I V url token →
  validate_token token = inr () → collector_url parse_url endpoint = inr url →
  holds (spool g) q → I (net g) → (∀ e, queued e q → V e) →
  uniform q = true → due_from (tick g) q →
  holds (spool (flush endpoint token false g).2) (drop 100 q) ∧
  I (net (flush endpoint token false g).2).
Proof using WireJsonLaws0.
  intros Hw Ht Hu Hg HI HV Huni Hdue. destruct (Hdue (tick g) ltac:(lia)) as (now & Hnow & Hle).
  assert (Hsel : q_select q (since_epoch (env (tick g))) (Due None 100 false) =
    inr (take 100 (map pending_of q))).
  { cbn. rewrite Hnow. cbn. rewrite Huni. do 3 f_equal. apply filter_true.
    intros en Hin. unfold q_due. cbn. rewrite andb_true_r. by apply Z.leb_le, Hle. }
  pose proof (flush_working I V url token _ _ g q Hw Hg HI HV Hsel) as Hf.
  unfold flush, Forward.flush, mbind, Run_bind, run_sum. rewrite Ht, Hu.
  destruct (flush_to_url url token _ g) as [r g']. destruct Hf as (_ & Hf & HI').
  split; [|done]. rewrite without_take in Hf; [done|]. by destruct Hg as [_ []].
Qed.

(** *** Time only moves forward *)

Definition later_tick {A} (m : Run Net A) : Prop := ∀ g, (tick g ≤ tick (m g).2)%nat.

Lemma later_bind {A B} (m : Run Net A) (k : A → Run Net B) :
  later_tick m → (∀ a, later_tick (k a)) → later_tick (m ≫= k).
Proof using.
  intros Hm Hk g. unfold mbind, Run_bind. specialize (Hm g).
  destruct (m g) as [[e|a] g']; cbn in *; [done|]. specialize (Hk a g'). lia.
Qed.

Lemma later_ret {A} (r : str + A) : later_tick (run_sum r).
Proof using. intros g. unfold run_sum. cbn. lia. Qed.

Lemma later_task {A} f : later_tick (task env (A := A) f).
Proof using.
  intros g. unfold task. destruct (task_fault _); cbn; [lia|].
  destruct (f _ _) as [|[]]; cbn; lia.
Qed.

Lemma later_deliver url token batch : ∀ sent failures last_error,
  later_tick (deliver_batch url token sent failures last_error batch).
Proof using.
  induction batch as [|item batch IH]; intros sent failures le; [apply (later_ret (inr _))|].
  cbn. apply later_bind.
  - intros g. unfold send_one. destruct (post _ _ _ _). cbn. lia.
  - intros []; (apply later_bind; [apply later_task|done]).
Qed.

Lemma later_flush endpoint token force : later_tick (flush endpoint token force).
Proof using.
  apply later_bind; [apply later_ret|]. intros u. apply later_bind; [apply later_ret|].
  intros url. apply later_bind; [apply later_task|]. intros batch.
  apply later_bind; [apply later_deliver|]. intros [[s f] le]. cbn.
  destruct (0 <? f); apply later_ret || apply (later_ret (inr _)).
Qed.

Lemma queued_drop n q e : queued e (drop n q) → queued e q.
Proof using.
  intros (en & Hen & <-). exists en. split; [|done]. apply list_elem_of_lookup in Hen as [i Hi].
  rewrite lookup_drop in Hi. by eapply list_elem_of_lookup_2.
Qed.

Lemma flushes_spec I V endpoint token url k : working I V url token →
  validate_token token = inr () → collector_url parse_url endpoint = inr url →
  ∀ (g : G) q, holds (spool g) q → I (net g) → (∀ e, queued e q → V e) →
  uniform q = true → due_from (tick g) q → (length q ≤ 100 * k)%nat →
  spool (flushes endpoint token k g) = [] ∧ I (net (flushes endpoint token k g)).
Proof using WireJsonLaws0.
  intros Hw Ht Hu. induction k as [|k IH]; intros g q Hg HI HV Huni Hdue Hlen; cbn.
  - destruct q; [by destruct Hg|cbn in Hlen; lia].
  - destruct (flush_hundred I V endpoint token url g q) as [Hg' HI']; [done..|].
    apply (IH _ (drop 100 q)); [done|done| |by apply uniform_drop| |].
    + intros e He. by eapply HV, queued_drop.
    + intros t' Hle. pose proof (later_flush endpoint token false g).
      destruct (Hdue t') as (now & Hnow & Hin); [lia|]. exists now. split; [done|].
      intros en Hen. apply Hin. apply list_elem_of_lookup in Hen as [i Hi].
      rewrite lookup_drop in Hi. by eapply list_elem_of_lookup_2.
    + rewrite length_drop. lia.
Qed.

(** With the collector answering, the spool empties.  If every task succeeds and the
    queued events are acknowledged when posted, a queue of one origin whose events are
    due is empty after one flush per hundred events, whatever its length. *)
Theorem flushes_empty_spool I endpoint token url k (g : G) q :
  working I (λ e, queued e q) url token →
  validate_token token = inr () → collector_url parse_url endpoint = inr url →
  holds (spool g) q → I (net g) → uniform q = true → due_from (tick g) q →
  (length q ≤ 100 * k)%nat →
  spool (flushes endpoint token k g) = [].
Proof using WireJsonLaws0.
  intros Hw Ht Hu Hg HI Huni Hdue Hlen.
  by destruct (flushes_spec _ _ _ _ _ k Hw Ht Hu g q Hg HI (λ e He, He) Huni Hdue Hlen).
Qed.
End Flushing.

(** ** A guest *)

Module GuestDemo.
Import TextWire.

Definition note (id body : str) : WireEvent :=
  mkWire id $"laptop" $"app" $"note" body None None.

(** A collector that numbers what it receives and is down for every third post. *)
Definition post (n : N) (url token text : str) : Response * N :=
  (if n mod 3 =? 2 then inl $"connection refused"
   else inr (200, Some (ack_to_text (mkAck (Z.of_N n + 1) true))), n + 1).
Definition post_up (n : N) (url token text : str) : Response * N :=
  (inr (200, Some (ack_to_text (mkAck (Z.of_N n + 1) true))), n + 1).

Definition parse (s : str) : option Url := Some (mkUrl $"http" (Some s) [] None None None).
Definition show (n : N) : str := show_N n.
Definition env (t : nat) : TaskEnv := mkTask None (inr 5000).

Definition queue : list Entry :=
  [mkEntry (note $"e1" $"one") 0 0; mkEntry (note $"e2" $"two") 3 4000;
   mkEntry (note $"e3" $"three") 0 0].

Lemma queue_is_ok : queue_ok queue.
Proof.
  split.
  - intros en Hin. apply validate_spec.
    repeat (apply elem_of_cons in Hin as [->|Hin]; [vm_compute; reflexivity|]).
    by apply not_elem_of_nil in Hin.
  - apply (bool_decide_unpack _). vm_compute. exact I.
Defined.

Definition guest : Guest N := mkGuest (map row_of queue) 0 0.
Lemma guest_holds : holds (spool guest) queue.
Proof. split; [reflexivity|apply queue_is_ok]. Defined.
End GuestDemo.

Section Witnesses.
Import TextWire GuestDemo.

Lemma flush_keeps_unacknowledged_witness :
  map row_event_id (spool (flush_to_url post show env $"u" $"t" (Due None 100 false) guest).2) =
    [ $"e3"] ∧
  ∃ q', holds (spool (flush_to_url post show env $"u" $"t" (Due None 100 false) guest).2) q'.
Proof.
  split; [vm_compute; reflexivity|].
  pose proof (flush_keeps_unacknowledged post show env $"u" $"t" (Due None 100 false) guest queue
    guest_holds) as Hs.
  destruct (flush_to_url _ _ _ _ _ _ guest) as [r g']. destruct Hs as (q' & Hh & _). by exists q'.
Defined.

Definition args : EnqueueArgs :=
  mkEnqueueArgs $"http://c" $"t" $"laptop" $"app" $"note" $"four" (Some $"e4") None None.

Lemma enqueue_is_durable_witness :
  (enqueue_and_deliver post parse show env $"uuid" (inr ()) args guest).1 = inr $"e4" ∧
  ∃ e q' batch, event_of_args $"uuid" args = inr e ∧
    holds (spool (enqueue_and_deliver post parse show env $"uuid" (inr ()) args guest).2) q' ∧
    (queued e q' ∨ confirmed e (post_batch post $"http://c/v1/events" $"t" 0 batch)).
Proof.
  assert (Hr : (enqueue_and_deliver post parse show env $"uuid" (inr ()) args guest).1 = inr $"e4")
    by (vm_compute; reflexivity).
  split; [exact Hr|].
  pose proof (enqueue_is_durable post parse show env $"uuid" (inr ()) args guest queue
    guest_holds) as Hs.
  destruct (enqueue_and_deliver _ _ _ _ _ _ _ guest) as [r g']. cbn in Hr. subst r.
  destruct Hs as (url & e & q' & batch & Hu & He & _ & Hh & Hq).
  exists e, q', batch. split; [exact He|]. split; [exact Hh|].
  vm_compute in Hu. injection Hu as <-. apply Hq. by right.
Defined.

Lemma flushes_empty_spool_witness :
  spool (flushes post_up parse show env $"http://c" $"t" 1 guest) = [].
Proof.
  apply (flushes_empty_spool post_up parse show env (λ _, True) $"http://c" $"t"
    $"http://c/v1/events" 1 guest queue).
  - split; [reflexivity|]. intros n e _ _. split; [exact I|].
    unfold post_up, read_ack. cbn [fst context].
    rewrite inr_bind. change (is_success 200) with true. cbn [negb].
    change (Some (ack_to_text (mkAck (Z.of_N n + 1) true)) ≫= ack_of_text)
      with (ack_of_text (ack_to_text (mkAck (Z.of_N n + 1) true))).
    rewrite ack_of_to_text. cbn [context_option]. rewrite inr_bind. cbn [ack_memory_id].
    destruct (Z.leb_spec (Z.of_N n + 1) 0); [lia|reflexivity].
  - vm_compute. reflexivity.
  - vm_compute. reflexivity.
  - exact guest_holds.
  - exact I.
  - vm_compute. reflexivity.
  - intros t' _. exists 5000%Z. split.
    + vm_compute. reflexivity.
    + intros en Hin. repeat (apply elem_of_cons in Hin as [->|Hin]; [cbn; lia|]).
      by apply not_elem_of_nil in Hin.
  - cbn. lia.
Defined.
End Witnesses.
