(* ===== verification/Project.v ===== *)
(** * Projects and private state: [crates/rtrt-core/src/project.rs]

    Which project a directory belongs to, the identity its store is kept under, and
    the private directories and files of the program.  SHA-256 is a parameter; the
    environment (working directory, variables, process id) is arguments. *)
From stdpp Require Import gmap sets.
From S2P Require Import Prelude Str Utf8 Error Fs.

Definition STATE_DIR_NAME : str := $".rtrt".
Definition TMP_DIR_NAME : str := $"tmp".
Definition PRIVATE_DIR_MODE : N := 448. (* 0o700 *)
Definition PRIVATE_FILE_MODE : N := 384. (* 0o600 *)
Definition PROJECT_ID_DOMAIN : list N := as_bytes $"rtrt.project-identity.v1" ++ [0].
Definition PROJECT_SLUG_MAX_LEN : N := 96.
Definition CLAUDE_TMP_FINGERPRINT_LEN : N := 16.
Definition CLAUDE_AF_UNIX_PATH_MAX_BYTES : N := 104.
Definition CLAUDE_BRIDGE_SOCKET_SUFFIX_BUDGET : N := 58.

Record ProjectIdentity := mkIdentity {
  checkout_root : Path;
  memory_root : Path;
  label : str;
  fingerprint : str;
  slug : str;
}.

(** ** Paths *)

Definition path_bytes (p : Path) : list N := as_bytes (display p).

(** [Path::new] of a text: its components, and whether it is absolute. *)
Definition path_components (raw : str) : Path :=
  List.filter (λ c, negb (is_empty c) && negb (str_eqb c $".")) (split_char ch_slash raw).
Definition is_absolute (raw : str) : bool := starts_with raw [ch_slash].

Definition parent (p : Path) : option Path :=
  match p with [] => None | _ => Some (removelast p) end.
Definition file_name (p : Path) : option str :=
  match last p with
  | Some c => if str_eqb c dotdot then None else Some c
  | None => None
  end.

(** [Path::ancestors]: the path first, the root last. *)
Definition ancestors (p : Path) : list Path :=
  map (λ n, take n p) (rev (seq 0 (S (length p)))).

Definition basename (p : Path) : option str := file_name p.
Definition basename_or_empty (p : Path) : str := default [] (basename p).

Definition hex_digit (d : N) : char := if d <? 10 then 48 + d else 87 + d.
Definition hex_byte (b : N) : str := [hex_digit (b / 16); hex_digit (b mod 16)].
Fixpoint hex_digits (fuel : nat) (n : N) (acc : str) : str :=
  match fuel with
  | O => acc
  | S fuel' => let acc' := hex_digit (n mod 16) :: acc in
      if n / 16 =? 0 then acc' else hex_digits fuel' (n / 16) acc'
  end.
(** [{:x}] of a [u32]. *)
Definition show_hex_u32 (n : N) : str := hex_digits 8 n [].

(** [u64::to_be_bytes]. *)
Definition to_be_bytes (n : N) : list N :=
  map (λ i, (n / 2 ^ (8 * i)) mod 256) [7; 6; 5; 4; 3; 2; 1; 0].

(** ** Fingerprint and slug *)

Definition is_ascii_alphanumeric (c : char) : bool := is_ascii_alphabetic c || is_ascii_digit c.

Definition hash_path (p : Path) : list N :=
  to_be_bytes (N.of_nat (length (path_bytes p))) ++ path_bytes p.

Definition project_fingerprint (sha256 : list N → list N) (root : Path) : str :=
  concat (map hex_byte (take 16 (sha256 (PROJECT_ID_DOMAIN ++ hash_path root)))).

(** The text so far is ASCII, so its byte length is its length. *)
Fixpoint sanitize_label (label_limit : N) (sanitized : str) (separator : bool) (label : str) : str :=
  match label with
  | [] => sanitized
  | c :: rest =>
      let c := ascii_lower c in
      let '(sanitized, separator) :=
        if is_ascii_alphanumeric c then
          let sanitized :=
            if separator && negb (is_empty sanitized) && (str_len sanitized <? label_limit)
            then sanitized ++ $"-" else sanitized in
          (if str_len sanitized <? label_limit then sanitized ++ [c] else sanitized, false)
        else (sanitized, true) in
      if label_limit <=? str_len sanitized then sanitized
      else sanitize_label label_limit sanitized separator rest
  end.

Definition dash : char := 45.

Definition project_slug (label fingerprint : str) : str :=
  let label_limit := PROJECT_SLUG_MAX_LEN - 2 - str_len fingerprint in
  let sanitized := trim_end_matches (N.eqb dash) (sanitize_label label_limit [] false label) in
  (if is_empty sanitized then $"project" else sanitized) ++ $"--" ++ fingerprint.

Definition project_storage_dir_in (home : Path) (identity : ProjectIdentity) : Path :=
  home ++ [STATE_DIR_NAME; $"projects"; slug identity].

Definition project_memory_db_path_in (home : Path) (identity : ProjectIdentity) : Path :=
  project_storage_dir_in home identity ++ [ $"memory.sqlite"].

(** ** The repository a directory belongs to *)

(** [.ok()?]: any failure is no answer. *)
Definition ok {E A} (m : Act E A) : Act () A := map_err (λ _, tt) m.
Definition none {A} : Act () A := throw tt.
Definition some {A} (o : option A) : Act () A :=
  match o with Some a => mret a | None => none end.
Definition guard (b : bool) : Act () () := if b then mret () else none.

(** [String::from_utf8]: the bytes of some text. *)
Definition from_utf8 (bytes : list N) : option str :=
  let s := from_utf8_lossy bytes in if bool_decide (as_bytes s = bytes) then Some s else None.

(** [fs::read_to_string]: follows links. *)
Definition read_to_string (p : Path) : Act IoError str :=
  look (λ f,
    match resolve f p with
    | inl e => inl e
    | inr q => match f !! q with
               | Some (mkNode (File contents) _ _) =>
                   match from_utf8 contents with
                   | Some s => inr s
                   | None => inl (mkIo OtherIo $"stream did not contain valid UTF-8")
                   end
               | Some _ => inl (mkIo OtherIo $"Is a directory")
               | None => inl not_found
               end
    end).

Definition control_path (control_file : Path) (prefix : str) : Act () Path :=
  content ← ok (read_to_string control_file);
  match lines content with
  | [] => none
  | first :: rest =>
      raw ← some (trim <$> strip_prefix prefix first);
      if is_empty raw || existsb (λ line, negb (is_empty (trim line))) rest then none
      else if is_absolute raw then mret (path_components raw)
      else base ← some (parent control_file); mret (base ++ path_components raw)
  end.

Definition main_repo_root_from_gitfile (git_file : Path) : Act () Path :=
  git_file_meta ← ok (symlink_metadata git_file);
  guard (negb (is_symlink git_file_meta) && is_file git_file_meta) ≫= λ _,
  gitdir0 ← control_path git_file $"gitdir: ";
  gitdir_meta ← ok (symlink_metadata gitdir0);
  guard (negb (is_symlink gitdir_meta) && is_dir gitdir_meta) ≫= λ _,
  gitdir ← ok (canonicalize gitdir0);
  worktrees_dir ← some (parent gitdir);
  name ← some (file_name worktrees_dir);
  guard (str_eqb name $"worktrees") ≫= λ _,
  main_git_dir0 ← some (parent worktrees_dir);
  git_name ← some (file_name main_git_dir0);
  guard (str_eqb git_name $".git") ≫= λ _,
  main_git_dir ← ok (canonicalize main_git_dir0);
  common_dir0 ← control_path (gitdir ++ [ $"commondir"]) [];
  common_dir ← ok (canonicalize common_dir0);
  guard (bool_decide (common_dir = main_git_dir)) ≫= λ _,
  backlink0 ← control_path (gitdir ++ [ $"gitdir"]) [];
  backlink_meta ← ok (symlink_metadata backlink0);
  guard (negb (is_symlink backlink_meta) && is_file backlink_meta) ≫= λ _,
  backlink ← ok (canonicalize backlink0);
  git_file_real ← ok (canonicalize git_file);
  guard (bool_decide (backlink = git_file_real)) ≫= λ _,
  main_root ← some (parent main_git_dir);
  let main_dot_git := main_root ++ [ $".git"] in
  main_dot_git_meta ← ok (symlink_metadata main_dot_git);
  guard (negb (is_symlink main_dot_git_meta) && is_dir main_dot_git_meta) ≫= λ _,
  main_dot_git_real ← ok (canonicalize main_dot_git);
  guard (bool_decide (main_dot_git_real = main_git_dir)) ≫= λ _,
  mret main_root.

(** The walk up to the first [.git]: the checkout and the repository it belongs to. *)
Fixpoint roots (cwd : Path) (l : list Path) : Act () (Path * Path) :=
  match l with
  | [] => mret (cwd, cwd)
  | ancestor :: rest =>
      let git := ancestor ++ [ $".git"] in
      metadata ← try_ (symlink_metadata git);
      match metadata with
      | inl _ => roots cwd rest
      | inr m =>
          if is_symlink m then roots cwd rest
          else if is_dir m then mret (ancestor, ancestor)
          else if is_file m then
            root ← try_ (r ← main_repo_root_from_gitfile git; ok (canonicalize r));
            mret (ancestor, match root with inr r => r | inl _ => ancestor end)
          else roots cwd rest
      end
  end.

Definition identity_of (sha256 : list N → list N) (checkout memory : Path) : ProjectIdentity :=
  let label := default $"project" (basename memory) in
  let fingerprint := project_fingerprint sha256 memory in
  mkIdentity checkout memory label fingerprint (project_slug label fingerprint).

Definition derive (sha256 : list N → list N) (cwd : Path) : Act IoError ProjectIdentity :=
  real ← canonicalize cwd;
  found ← try_ (roots real (ancestors real));
  mret match found with
       | inr (checkout, memory) => identity_of sha256 checkout memory
       | inl _ => identity_of sha256 real real
       end.

(** The project a directory's sessions are attributed to. *)
Fixpoint project_for_ancestors (start : Path) (l : list Path) : Act () str :=
  match l with
  | [] => mret (basename_or_empty start)
  | ancestor :: rest =>
      let dot_git := ancestor ++ [ $".git"] in
      meta ← try_ (symlink_metadata dot_git);
      match meta with
      | inl _ => project_for_ancestors start rest
      | inr m =>
          let here := default (basename_or_empty start) (basename ancestor) in
          if is_dir m then mret here
          else if is_file m then
            main_root ← try_ (main_repo_root_from_gitfile dot_git);
            mret match main_root with
                 | inr root => default here (basename root)
                 | inl _ => here
                 end
          else project_for_ancestors start rest
      end
  end.

Definition project_for_cwd (cwd : Path) : Act () str :=
  real ← try_ (canonicalize cwd);
  let start := match real with inr r => r | inl _ => cwd end in
  project_for_ancestors start (ancestors start).

Fixpoint main_root_among (l : list Path) : Act () (option Path) :=
  match l with
  | [] => mret None
  | ancestor :: rest =>
      let dot_git := ancestor ++ [ $".git"] in
      meta ← try_ (symlink_metadata dot_git);
      match meta with
      | inl _ => main_root_among rest
      | inr m =>
          if is_dir m then mret (Some ancestor)
          else if is_file m then
            root ← try_ (main_repo_root_from_gitfile dot_git);
            mret (Some match root with inr r => r | inl _ => ancestor end)
          else main_root_among rest
      end
  end.

Definition main_project_root_for_cwd (cwd : Path) : Act () (option Path) :=
  real ← try_ (canonicalize cwd);
  main_root_among (ancestors match real with inr r => r | inl _ => cwd end).

(** ** Private directories *)

Definition unsafe_path_error (message : str) (p : Path) : IoError :=
  mkIo PermissionDenied (message ++ $": " ++ display p).
Definition path_error (operation : str) (p : Path) (error : IoError) : IoError :=
  mkIo (io_kind error) (operation ++ $" " ++ display p ++ $": " ++ io_message error).

(** Every component of [Path::new(name)] is [Component::Normal]. *)
Definition all_normal (name : str) : bool :=
  negb (is_absolute name) && negb (existsb (str_eqb dotdot) (path_components name)) &&
  negb (match split_char ch_slash name with c :: _ => str_eqb c $"." | [] => false end).

Section Private.
Context (euid umask pid : N).

Definition is_private_dir (n : Node) (owner : N) : bool :=
  negb (is_symlink n) && is_dir n && (node_uid n =? owner) && (node_mode n =? PRIVATE_DIR_MODE).

Definition ensure_private_directory (p : Path) (expected_owner : option N) (repair_mode : bool) :
    Act IoError Path :=
  found ← try_ (symlink_metadata p);
  created ← (match found with
             | inr _ => mret false
             | inl error =>
                 if bool_decide (io_kind error = NotFound) then
                   made ← try_ (create_dir euid umask p PRIVATE_DIR_MODE);
                   match made with
                   | inr _ => mret true
                   | inl error =>
                       if bool_decide (io_kind error = AlreadyExists) then mret false
                       else throw (path_error $"create private runtime scratch directory" p error)
                   end
                 else throw (path_error $"inspect private runtime scratch directory" p error)
             end);
  metadata ← symlink_metadata p;
  if is_symlink metadata || negb (is_dir metadata)
  then throw (unsafe_path_error $"runtime scratch path is not a real directory" p)
  else
    owner ← match expected_owner with
            | Some owner => mret owner
            | None => throw (unsafe_path_error $"cannot determine runtime scratch directory owner" p)
            end;
    if negb (node_uid metadata =? owner)
    then throw (unsafe_path_error $"runtime scratch directory has the wrong owner" p)
    else
      (if (created || repair_mode) && negb (node_mode metadata =? PRIVATE_DIR_MODE)
       then map_err (path_error $"secure runtime scratch directory permissions" p)
              (set_permissions p PRIVATE_DIR_MODE)
       else mret ()) ≫= λ _,
      verified ← symlink_metadata p;
      if negb (is_private_dir verified owner)
      then throw (unsafe_path_error
                    $"runtime scratch directory failed owner or mode validation" p)
      else map_err (path_error $"canonicalize runtime scratch directory" p) (canonicalize p).

Definition ensure_confined_private_child (canonical_parent : Path) (name : str)
    (expected_owner : option N) (repair_mode : bool) : Act IoError Path :=
  if negb (all_normal name)
  then throw (unsafe_path_error $"runtime scratch child is not a single path component"
                (canonical_parent ++ path_components name))
  else
    canonical ← ensure_private_directory (canonical_parent ++ path_components name)
                  expected_owner repair_mode;
    if bool_decide (parent canonical = Some canonical_parent) then mret canonical
    else throw (unsafe_path_error $"runtime scratch path escaped its canonical parent" canonical).

Fixpoint starts_with_path (p root : Path) : bool :=
  match root, p with
  | [], _ => true
  | r :: root', c :: p' => str_eqb r c && starts_with_path p' root'
  | _ :: _, [] => false
  end.

Definition prepare_project_tmp_dir (root0 : Path) (expected_owner : option N) : Act IoError Path :=
  root ← map_err (path_error $"canonicalize project root" root0) (canonicalize root0);
  metadata ← symlink_metadata root;
  if negb (is_dir metadata)
  then throw (unsafe_path_error $"project root is not a directory" root)
  else
    state ← ensure_confined_private_child root STATE_DIR_NAME expected_owner true;
    tmp ← ensure_confined_private_child state TMP_DIR_NAME expected_owner true;
    if starts_with_path tmp root then mret tmp
    else throw (unsafe_path_error $"runtime scratch directory escapes project root" tmp).

Definition fallback_tmp_dir_name_for (user_id : option N) : str :=
  match user_id with
  | Some user_id => $"rtrt-" ++ show_N user_id
  | None => $"rtrt-process-" ++ show_N pid
  end.

Definition prepare_fallback_tmp_dir (os_tmp_dir0 : Path) (expected_owner : option N) :
    Act IoError Path :=
  os_tmp_dir ← map_err (path_error $"canonicalize OS temporary directory" os_tmp_dir0)
                 (canonicalize os_tmp_dir0);
  metadata ← symlink_metadata os_tmp_dir;
  if negb (is_dir metadata)
  then throw (unsafe_path_error $"OS temporary path is not a directory" os_tmp_dir)
  else ensure_confined_private_child os_tmp_dir (fallback_tmp_dir_name_for expected_owner)
         expected_owner true.

(** From the longest existing part of the path up, the names missing below it. *)
Fixpoint find_anchor (absolute : Path) (reversed : list str) (missing : list str) :
    Act IoError (Path * list str) :=
  let cursor := rev reversed in
  found ← try_ (symlink_metadata cursor);
  match found with
  | inr metadata =>
      if is_symlink metadata || negb (is_dir metadata)
      then throw (unsafe_path_error $"runtime scratch path component is not a real directory" cursor)
      else
        anchor ← map_err (path_error $"canonicalize runtime scratch path" cursor)
                   (canonicalize cursor);
        mret (anchor, missing)
  | inl error =>
      if bool_decide (io_kind error = NotFound) then
        match reversed with
        | [] => throw (path_error $"locate existing runtime scratch parent" absolute error)
        | name :: reversed' =>
            if str_eqb name dotdot
            then throw (path_error $"locate existing runtime scratch parent" absolute error)
            else find_anchor absolute reversed' (missing ++ [name])
        end
      else throw (path_error $"inspect runtime scratch path" cursor error)
  end.

Fixpoint create_missing (absolute : Path) (expected_owner : option N) (base : Path)
    (names : list str) : Act IoError Path :=
  match names with
  | [] => mret base
  | name :: rest =>
      if negb (all_normal name)
      then throw (unsafe_path_error $"runtime scratch path contains traversal" absolute)
      else base' ← ensure_confined_private_child base name expected_owner true;
           create_missing absolute expected_owner base' rest
  end.

Definition prepare_override_tmp_dir (current_dir : IoError + Path) (requested : str)
    (expected_owner : option N) : Act IoError Path :=
  absolute ← (if is_absolute requested then mret (path_components requested)
              else cwd ← of_sum current_dir; mret (cwd ++ path_components requested));
  anchored ← find_anchor absolute (rev absolute) [];
  let '(canonical_anchor, missing) := anchored in
  match missing with
  | [] => ensure_private_directory canonical_anchor expected_owner false
  | _ => create_missing absolute expected_owner canonical_anchor (rev missing)
  end.

Definition main_root_of (cwd : Path) : Act IoError (option Path) :=
  map_err (λ _, not_found) (main_project_root_for_cwd cwd).

Definition prepare_runtime_tmp_dir_for_cwd (cwd os_tmp_dir : Path) (expected_owner : option N) :
    Act IoError Path :=
  root ← main_root_of cwd;
  match root with
  | Some root => prepare_project_tmp_dir root expected_owner
  | None => prepare_fallback_tmp_dir os_tmp_dir expected_owner
  end.

(** The variable, the working directory and the owner are what the process finds. *)
Definition runtime_tmp_dir (tmp_override : option str) (current_dir : IoError + Path)
    (os_tmp_dir : Path) (current_user_id : IoError + option N) : Act IoError Path :=
  expected_owner ← of_sum current_user_id;
  match tmp_override with
  | Some (_ :: _ as requested) => prepare_override_tmp_dir current_dir requested expected_owner
  | _ =>
      match current_dir with
      | inr cwd => prepare_runtime_tmp_dir_for_cwd cwd os_tmp_dir expected_owner
      | inl _ => prepare_fallback_tmp_dir os_tmp_dir expected_owner
      end
  end.

(** *** The directory of Claude's bridge sockets *)

Definition prefixes (p : Path) : list Path := rev (ancestors p).

Fixpoint real_directories (paths : list Path) : Act IoError () :=
  match paths with
  | [] => mret ()
  | component :: rest =>
      metadata ← symlink_metadata component;
      if is_symlink metadata || negb (is_dir metadata)
      then throw (unsafe_path_error
                    $"Claude runtime base contains a non-directory or symlink component" component)
      else real_directories rest
  end.

(** Of an absolute path. *)
Definition validate_real_directory_components (p : Path) : Act IoError () :=
  real_directories (prefixes p).

Definition path_byte_len (p : Path) : N := N.of_nat (length (path_bytes p)).

Definition enforce_claude_socket_path_budget (p : Path) : IoError + () :=
  let required := sat_add u64_max (sat_add u64_max (sat_add u64_max (path_byte_len p) 1)
                    CLAUDE_BRIDGE_SOCKET_SUFFIX_BUDGET) 1 in
  if CLAUDE_AF_UNIX_PATH_MAX_BYTES <? required
  then inl (unsafe_path_error
              $"Claude runtime path leaves insufficient AF_UNIX bridge-socket budget" p)
  else inr ().

Definition is_ascii_hexdigit (c : char) : bool :=
  is_ascii_digit c || ((97 <=? c) && (c <=? 102)) || ((65 <=? c) && (c <=? 70)).

Definition claude_runtime_tmp_candidate (canonical_tmp : Path) (project_fingerprint : str)
    (expected_owner : option N) : IoError + Path :=
  match split_at_byte CLAUDE_TMP_FINGERPRINT_LEN project_fingerprint with
  | Some (fingerprint, _) =>
      if negb (forallb is_ascii_hexdigit fingerprint)
      then inl (unsafe_path_error $"invalid Claude project fingerprint" canonical_tmp)
      else
        match expected_owner with
        | None => inl (unsafe_path_error
                         $"cannot determine Claude runtime directory owner" canonical_tmp)
        | Some owner =>
            let candidate :=
              canonical_tmp ++ [ $"rc-" ++ show_hex_u32 owner ++ $"-" ++ fingerprint] in
            match enforce_claude_socket_path_budget candidate with
            | inl e => inl e
            | inr _ => inr candidate
            end
        end
  | None => inl (unsafe_path_error $"invalid Claude project fingerprint" canonical_tmp)
  end.

Definition prepare_claude_runtime_tmp_dir_in (os_tmp : Path) (project_fingerprint : str)
    (expected_owner : option N) : Act IoError Path :=
  canonical_tmp ← map_err (path_error $"canonicalize Claude OS temporary directory" os_tmp)
                    (canonicalize os_tmp);
  validate_real_directory_components canonical_tmp ≫= λ _,
  candidate ← of_sum (claude_runtime_tmp_candidate canonical_tmp project_fingerprint expected_owner);
  match file_name candidate with
  | None => throw (unsafe_path_error $"Claude runtime candidate has no leaf" candidate)
  | Some leaf => ensure_confined_private_child canonical_tmp leaf expected_owner false
  end.

(** [XDG_RUNTIME_DIR], when it is absolute, real and private. *)
Definition validated_xdg_runtime_dir (xdg_runtime : str) (expected_owner : option N) :
    Act IoError Path :=
  let dir := path_components xdg_runtime in
  if negb (is_absolute xdg_runtime)
  then throw (unsafe_path_error $"Claude runtime base is not absolute" dir)
  else
    validate_real_directory_components dir ≫= λ _,
    canonical ← map_err (path_error $"canonicalize XDG runtime directory for Claude" dir)
                  (canonicalize dir);
    validate_real_directory_components canonical ≫= λ _,
    owner ← match expected_owner with
            | Some owner => mret owner
            | None => throw (unsafe_path_error
                        $"cannot determine XDG runtime directory owner" canonical)
            end;
    metadata ← symlink_metadata canonical;
    if negb (node_uid metadata =? owner) || negb (node_mode metadata =? PRIVATE_DIR_MODE)
    then throw (unsafe_path_error
                  $"XDG runtime directory is not private or has the wrong owner" canonical)
    else mret canonical.

Definition claude_runtime_tmp_dir (sha256 : list N → list N) (project_root : Path)
    (xdg_runtime : option str) (current_user_id : IoError + option N) : Act IoError Path :=
  identity ← derive sha256 project_root;
  expected_owner ← of_sum current_user_id;
  base ← match xdg_runtime with
         | Some xdg_runtime => try_ (validated_xdg_runtime_dir xdg_runtime expected_owner)
         | None => mret (inl not_found)
         end;
  prepare_claude_runtime_tmp_dir_in match base with inr xdg => xdg | inl _ => [ $"tmp"] end
    (fingerprint identity) expected_owner.

(** The same choice without touching the disk. *)
Definition resolve_runtime_tmp_dir (tmp_override : option str) (project_root : option Path)
    (os_tmp_dir : Path) (fallback_tmp_dir_name : str) : Path :=
  match tmp_override with
  | Some (_ :: _ as tmp_override) => path_components tmp_override
  | _ => match project_root with
         | Some root => root ++ [STATE_DIR_NAME; TMP_DIR_NAME]
         | None => os_tmp_dir ++ [fallback_tmp_dir_name]
         end
  end.

(** ** Private files *)

Definition temporary_name (name : str) (sequence : N) : str :=
  $"." ++ name ++ $"." ++ show_N pid ++ $"." ++ show_N sequence ++ $".tmp".

(** The steps on the open file; [file] is its real path, [wrote] how much of a failing
    write reached the disk. *)
Definition fill_and_replace (wrote : nat) (file temporary target : Path)
    (contents : list N) (expected_owner : option N) : Act IoError () :=
  fset_permissions file PRIVATE_FILE_MODE ≫= λ _,
  metadata ← fstat file;
  match expected_owner with
  | None => throw (unsafe_path_error $"cannot determine atomic private file owner" temporary)
  | Some owner =>
      if negb (node_uid metadata =? owner) || negb (node_mode metadata =? PRIVATE_FILE_MODE)
      then throw (unsafe_path_error $"atomic private file failed owner or mode validation" temporary)
      else
        write_all wrote file contents ≫= λ _,
        sync_data ≫= λ _,
        map_err (path_error $"atomically replace private file" target) (rename temporary target)
  end.

Definition write_private_file_atomic (wrote : nat) (sequence : N) (p : Path) (contents : list N)
    (current_user_id : IoError + option N) : Act IoError () :=
  match file_name p, parent p with
  | None, _ => throw (unsafe_path_error $"private file path has no file name" p)
  | Some _, None => throw (unsafe_path_error $"private file path has no parent" p)
  | Some name, Some dir0 =>
      expected_owner ← of_sum current_user_id;
      dir ← ensure_private_directory dir0 expected_owner false;
      let target := dir ++ [name] in
      let temporary := dir ++ [temporary_name name sequence] in
      file ← map_err (path_error $"create atomic private file" temporary)
               (create_new euid umask temporary PRIVATE_FILE_MODE);
      result ← try_ (fill_and_replace wrote file temporary target contents expected_owner);
      match result with
      | inr _ => mret ()
      | inl e => removed ← try_ (remove_file temporary (* its failure is ignored *));
                 throw e
      end
  end.
End Private.

(** ** Lemmas *)

Section PrivateLemmas.
Context (euid umask pid : N).

(** What securing directories may change: a directory's mode, and new directories. *)
Definition secured (f0 f : Fs) : Prop := ∀ q,
  match f0 !! q, f !! q with
  | Some n, Some n' => n' = n ∨ (is_dir n = true ∧ n' = chmod PRIVATE_DIR_MODE n)
  | None, Some n' => is_dir n' = true ∧ node_uid n' = euid
  | Some _, None => False
  | None, None => True
  end.

Lemma secured_refl f : secured f f.
Proof using. intros q. destruct (f !! q); [by left|done]. Qed.

Lemma secured_trans f0 f1 f2 : secured f0 f1 → secured f1 f2 → secured f0 f2.
Proof using.
  intros H1 H2 q. specialize (H1 q). specialize (H2 q).
  destruct (f0 !! q) as [n0|], (f1 !! q) as [n1|], (f2 !! q) as [n2|]; try done.
  - destruct H1 as [->|[Hd ->]], H2 as [->|[Hd' ->]]; auto.
  - destruct H1 as [Hd Hu], H2 as [->|[Hd' ->]]; auto.
Qed.

Lemma secured_create f q : f !! q = None →
  secured f (<[q := mkNode Dir euid (masked umask PRIVATE_DIR_MODE)]> f).
Proof using.
  intros Hq q'. destruct (decide (q' = q)) as [->|Hne].
  - by rewrite Hq, lookup_insert_eq.
  - rewrite lookup_insert_ne by done. apply secured_refl.
Qed.

Lemma secured_chmod f q n : f !! q = Some n → is_dir n = true →
  secured f (alter (chmod PRIVATE_DIR_MODE) q f).
Proof using.
  intros Hq Hd q'. destruct (decide (q' = q)) as [->|Hne].
  - rewrite lookup_alter_eq, Hq. cbn. by right.
  - rewrite lookup_alter_ne by done. apply secured_refl.
Qed.

Lemma secured_file f0 f q n : secured f0 f → f0 !! q = Some n → is_dir n = false → f !! q = Some n.
Proof using.
  intros Hs Hq Hd. specialize (Hs q). rewrite Hq in Hs. destruct (f !! q); [|done].
  destruct Hs as [->|[? _]]; [done|congruence].
Qed.

Lemma lstat_outcome (P : Fs → Prop) p (R : IoError → Fs → Prop) : (∀ e f, P f → R e f) →
  outcome P (symlink_metadata p) (λ n f, P f ∧ lstat f p = inr n) R.
Proof using. intros HR. by apply outcome_look. Qed.

Lemma secure_mode_outcome f0 p (n : Node) (b : bool) : is_symlink n = false → is_dir n = true →
  outcome (λ f, secured f0 f ∧ lstat f p = inr n)
    (if b then map_err (path_error $"secure runtime scratch directory permissions" p)
                 (set_permissions p PRIVATE_DIR_MODE) else mret ())
    (λ _, secured f0) (λ _, secured f0).
Proof using.
  intros Hs Hd. destruct b; [|by apply outcome_ret; intros f []].
  apply outcome_map_err, outcome_call; [by intros e f []|].
  intros f [Hf Hl]. destruct (resolve f p) as [|q] eqn:Hr; [done|].
  eapply secured_trans; [done|]. eapply secured_chmod; [|exact Hd].
  by eapply lstat_resolve.
Qed.

Lemma create_dir_outcome f0 p :
  outcome (secured f0) (create_dir euid umask p PRIVATE_DIR_MODE)
    (λ _, secured f0) (λ _, secured f0).
Proof using.
  apply outcome_call; [done|]. intros f Hf. destruct (locate f p) as [|q]; [done|].
  destruct (f !! q) eqn:Hq; [done|]. eapply secured_trans; [done|]. by apply secured_create.
Qed.

(** Securing a directory answers a real private directory and changes nothing else;
    stated as a property below. *)
Lemma ensure_private_spec f0 p owner repair :
  outcome (secured f0) (ensure_private_directory euid umask p (Some owner) repair)
    (λ q f, secured f0 f ∧ real_dir f q ∧ ∃ n, f !! q = Some n ∧ is_private_dir n owner = true)
    (λ _, secured f0).
Proof using.
  unfold ensure_private_directory. eapply outcome_bind with (S := λ _, secured f0).
  { apply outcome_try. apply outcome_look; [done|]. by intros f n ? _. }
  intros found. eapply outcome_bind with (S := λ _, secured f0).
  { destruct found as [error|]; [|by apply outcome_ret].
    case_bool_decide; [|by apply outcome_throw].
    eapply outcome_bind with (S := λ _, secured f0); [apply outcome_try, create_dir_outcome|].
    intros [error'|]; [|by apply outcome_ret].
    case_bool_decide; [by apply outcome_ret|by apply outcome_throw]. }
  intros created. eapply outcome_bind; [by apply (lstat_outcome (secured f0))|].
  intros n. cbn. destruct (is_symlink n) eqn:Hs; [by apply outcome_throw; intros f []|].
  destruct (is_dir n) eqn:Hd; cbn; [|by apply outcome_throw; intros f []].
  eapply outcome_bind with (S := λ o f, o = owner ∧ secured f0 f ∧ lstat f p = inr n);
    [by apply outcome_ret; intros f []|].
  intros o. destruct (negb (node_uid n =? o)); [by apply outcome_throw; intros f (_ & ? & _)|].
  eapply outcome_bind with (S := λ _ f, o = owner ∧ secured f0 f).
  { intros w (-> & Hw). pose proof (secure_mode_outcome f0 p n
      ((created || repair) && negb (node_mode n =? PRIVATE_DIR_MODE)) Hs Hd w Hw) as Hm.
    match type of Hm with match ?t with _ => _ end => destruct t as [[e|a] w'] end; by auto. }
  intros u. eapply outcome_bind.
  { apply (lstat_outcome (λ f, o = owner ∧ secured f0 f)). by intros e f []. }
  intros v. cbn. destruct (is_private_dir v o) eqn:Hp; cbn;
    [|by apply outcome_throw; intros f [[_ ?] _]].
  apply outcome_map_err, outcome_look; [by intros e f [[_ ?] _]|].
  intros f q [[-> Hf] Hl] Hr. split; [done|].
  assert (Hv : f !! q = Some v).
  { eapply lstat_resolve; [done| |done]. unfold is_private_dir in Hp.
    by destruct (is_symlink v). }
  split; [|by exists v]. eapply real_dir_real; [by eapply resolve_real|done|].
  unfold is_private_dir in Hp. by destruct (is_symlink v), (is_dir v).
Qed.

(** A private directory of [owner], reached without links. *)
Definition private_at (owner : N) (q : Path) (f : Fs) : Prop :=
  real_dir f q ∧ ∃ n, f !! q = Some n ∧ is_private_dir n owner = true.

Lemma child_spec f0 base name owner repair :
  outcome (secured f0) (ensure_confined_private_child euid umask base name (Some owner) repair)
    (λ q f, secured f0 f ∧ private_at owner q f ∧ parent q = Some base)
    (λ _, secured f0).
Proof using.
  unfold ensure_confined_private_child. destruct (negb _); [by apply outcome_throw|].
  eapply outcome_bind; [apply ensure_private_spec|]. intros q. cbn.
  case_bool_decide; [by apply outcome_ret; intros f (? & ? & ?)|].
  by apply outcome_throw; intros f (? & _).
Qed.

Lemma child_private f0 base name owner repair :
  outcome (secured f0) (ensure_confined_private_child euid umask base name (Some owner) repair)
    (λ q f, secured f0 f ∧ private_at owner q f) (λ _, secured f0).
Proof using.
  eapply outcome_weaken; [apply child_spec|done| |done]. by intros q f (? & ? & _).
Qed.

Lemma read_only_repo git_file : read_only (main_repo_root_from_gitfile git_file).
Proof using.
  unfold main_repo_root_from_gitfile, control_path, guard, some, none, ok, read_to_string.
  read_only.
Qed.

Lemma read_only_main_root cwd : read_only (main_project_root_for_cwd cwd).
Proof using.
  apply read_only_bind; [read_only|]. intros real.
  induction (ancestors _) as [|a l IH]; cbn; [done|].
  apply read_only_bind; [read_only|]. intros [|m]; [done|]. destruct (is_dir m); [done|].
  destruct (is_file m); [|done]. apply read_only_bind; [apply read_only_try, read_only_repo|done].
Qed.

Lemma project_tmp_private f0 root owner :
  outcome (secured f0) (prepare_project_tmp_dir euid umask root (Some owner))
    (λ q f, secured f0 f ∧ private_at owner q f) (λ _, secured f0).
Proof using.
  unfold prepare_project_tmp_dir.
  eapply outcome_bind; [apply read_only_outcome; read_only|]. intros real. cbn.
  eapply outcome_bind; [apply read_only_outcome; read_only|]. intros m. cbn.
  destruct (negb (is_dir m)); [by apply outcome_throw|].
  eapply outcome_bind with (S := λ _, secured f0).
  { eapply outcome_weaken; [apply child_private|done| |done]. by intros q f []. }
  intros state. eapply outcome_bind; [apply child_private|]. intros tmp. cbn.
  destruct (starts_with_path tmp real); [by apply outcome_ret|].
  by apply outcome_throw; intros f [].
Qed.

Lemma fallback_tmp_private f0 os_tmp owner :
  outcome (secured f0) (prepare_fallback_tmp_dir euid umask pid os_tmp (Some owner))
    (λ q f, secured f0 f ∧ private_at owner q f) (λ _, secured f0).
Proof using.
  unfold prepare_fallback_tmp_dir.
  eapply outcome_bind; [apply read_only_outcome; read_only|]. intros real. cbn.
  eapply outcome_bind; [apply read_only_outcome; read_only|]. intros m. cbn.
  destruct (negb (is_dir m)); [by apply outcome_throw|]. apply child_private.
Qed.

Lemma read_only_anchor absolute rc missing : read_only (find_anchor absolute rc missing).
Proof using.
  revert missing. induction rc as [|name rc IH]; intros missing; cbn [find_anchor];
    (apply read_only_bind; [read_only|]); intros [e|m]; read_only.
Qed.

Lemma create_missing_private f0 absolute owner names : ∀ base,
  outcome (λ f, secured f0 f ∧ (names = [] → private_at owner base f))
    (create_missing euid umask absolute (Some owner) base names)
    (λ q f, secured f0 f ∧ private_at owner q f) (λ _, secured f0).
Proof using.
  induction names as [|name names IH]; intros base; cbn.
  { apply outcome_ret. by intros f [? Hp]; auto. }
  destruct (negb (all_normal name)); [by apply outcome_throw; intros f []|].
  eapply outcome_bind with (S := λ q f, secured f0 f ∧ private_at owner q f).
  { eapply outcome_weaken; [apply (child_private f0)| |done|done]. by intros f []. }
  intros base'. eapply outcome_weaken; [apply IH| |done|done]. intros f [? ?]. by split.
Qed.

Lemma override_private f0 current_dir requested owner :
  outcome (secured f0) (prepare_override_tmp_dir euid umask current_dir requested (Some owner))
    (λ q f, secured f0 f ∧ private_at owner q f) (λ _, secured f0).
Proof using.
  unfold prepare_override_tmp_dir. eapply outcome_bind; [apply read_only_outcome|].
  { read_only. }
  intros absolute. cbn. eapply outcome_bind; [apply read_only_outcome, read_only_anchor|].
  intros [anchor missing]. cbn. destruct missing as [|x missing]; [apply ensure_private_spec|].
  eapply outcome_weaken; [apply (create_missing_private f0)| |done|done].
  intros f Hf. split; [done|]. intros He. by apply app_eq_nil in He as [_ ?].
Qed.

(** The scratch directory is private or refused.  Whichever rule chooses it
    (override, project, fallback), and whatever calls fail, an answer is a real path,
    free of links, to a directory of the expected owner with mode 0700; files,
    links, owners and everything else in the tree are untouched but for the modes of
    directories, and all that is new is directories of the process. *)
Theorem runtime_tmp_dir_private tmp_override current_dir os_tmp owner w :
  match runtime_tmp_dir euid umask pid tmp_override current_dir os_tmp (inr (Some owner)) w with
  | (inr q, w') => secured (tree w) (tree w') ∧ private_at owner q (tree w')
  | (inl _, w') => secured (tree w) (tree w')
  end.
Proof using.
  assert (Hr : outcome (secured (tree w))
    (runtime_tmp_dir euid umask pid tmp_override current_dir os_tmp (inr (Some owner)))
    (λ q f, secured (tree w) f ∧ private_at owner q f) (λ _, secured (tree w))).
  2: { apply (Hr w). apply secured_refl. }
  unfold runtime_tmp_dir. eapply outcome_bind with (S := λ o f, o = Some owner ∧ secured (tree w) f);
    [by apply outcome_sum|].
  intros o w0 [-> Hw0]. revert w0 Hw0.
  assert (Hauto : outcome (secured (tree w))
    (match current_dir with
     | inr cwd => prepare_runtime_tmp_dir_for_cwd euid umask pid cwd os_tmp (Some owner)
     | inl _ => prepare_fallback_tmp_dir euid umask pid os_tmp (Some owner)
     end) (λ q f, secured (tree w) f ∧ private_at owner q f) (λ _, secured (tree w))).
  { destruct current_dir as [|cwd]; [apply fallback_tmp_private|].
    eapply outcome_bind.
    { apply read_only_outcome, read_only_map_err, read_only_main_root. }
    intros [root|]; [apply project_tmp_private|apply fallback_tmp_private]. }
  destruct tmp_override as [[|c s]|]; [exact Hauto|apply override_private|exact Hauto].
Qed.

Lemma saturating_budget n : sat_add u64_max (sat_add u64_max (sat_add u64_max n 1) 58) 1 ≤ 104 →
  n + 58 + 2 ≤ 104.
Proof using. unfold sat_add, u64_max. lia. Qed.

Lemma budget_fits p u : enforce_claude_socket_path_budget p = inr u →
  path_byte_len p + CLAUDE_BRIDGE_SOCKET_SUFFIX_BUDGET + 2 ≤ CLAUDE_AF_UNIX_PATH_MAX_BYTES.
Proof using.
  unfold enforce_claude_socket_path_budget. generalize (path_byte_len p). intros n.
  destruct (_ <? _) eqn:Hb; [done|]. intros _. apply saturating_budget. by apply N.ltb_ge in Hb.
Qed.

Lemma candidate_fits base fp owner candidate :
  claude_runtime_tmp_candidate base fp owner = inr candidate →
  path_byte_len candidate + CLAUDE_BRIDGE_SOCKET_SUFFIX_BUDGET + 2 ≤ CLAUDE_AF_UNIX_PATH_MAX_BYTES.
Proof using.
  unfold claude_runtime_tmp_candidate. destruct (split_at_byte _ fp) as [[hex rest]|]; [|done].
  destruct (negb _); [done|]. destruct owner as [o|]; [|done].
  destruct (enforce_claude_socket_path_budget _) as [|u] eqn:Hb; [done|]. intros [= <-].
  by eapply budget_fits.
Qed.

Lemma read_only_directories paths : read_only (real_directories paths).
Proof using. induction paths as [|p paths IH]; cbn; [done|]. read_only. Qed.

Lemma read_only_roots cwd l : read_only (roots cwd l).
Proof using.
  induction l as [|a l IH]; cbn; [done|].
  apply read_only_bind; [read_only|]. intros [|m]; [done|].
  destruct (is_symlink m); [done|]. destruct (is_dir m); [done|]. destruct (is_file m); [|done].
  apply read_only_bind; [|done]. apply read_only_try, read_only_bind; [apply read_only_repo|].
  intros r. unfold ok. read_only.
Qed.

Lemma read_only_derive sha256 cwd : read_only (derive sha256 cwd).
Proof using.
  apply read_only_bind; [read_only|]. intros real.
  apply read_only_bind; [apply read_only_try, read_only_roots|done].
Qed.

Lemma read_only_xdg xdg owner : read_only (validated_xdg_runtime_dir xdg owner).
Proof using.
  unfold validated_xdg_runtime_dir, validate_real_directory_components.
  destruct (negb _); [done|]. apply read_only_bind; [apply read_only_directories|]. intros u.
  apply read_only_bind; [read_only|]. intros c.
  apply read_only_bind; [apply read_only_directories|]. intros u'. read_only.
Qed.

(** The directory for Claude's sockets is private or refused as well, and its candidate
    leaves room for a socket's name within the 104 bytes of an address. *)
Theorem claude_runtime_tmp_dir_private sha256 project_root xdg owner w :
  match claude_runtime_tmp_dir euid umask sha256 project_root xdg (inr (Some owner)) w with
  | (inr q, w') => secured (tree w) (tree w') ∧ private_at owner q (tree w') ∧
      ∃ base fingerprint candidate, parent q = Some base ∧
        claude_runtime_tmp_candidate base fingerprint (Some owner) = inr candidate ∧
        path_byte_len candidate + CLAUDE_BRIDGE_SOCKET_SUFFIX_BUDGET + 2
          ≤ CLAUDE_AF_UNIX_PATH_MAX_BYTES
  | (inl _, w') => secured (tree w) (tree w')
  end.
Proof using.
  assert (Hr : outcome (secured (tree w))
    (claude_runtime_tmp_dir euid umask sha256 project_root xdg (inr (Some owner)))
    (λ q f, secured (tree w) f ∧ private_at owner q f ∧
      ∃ base fingerprint candidate, parent q = Some base ∧
        claude_runtime_tmp_candidate base fingerprint (Some owner) = inr candidate ∧
        path_byte_len candidate + CLAUDE_BRIDGE_SOCKET_SUFFIX_BUDGET + 2
          ≤ CLAUDE_AF_UNIX_PATH_MAX_BYTES)
    (λ _, secured (tree w))); [|apply (Hr w), secured_refl].
  unfold claude_runtime_tmp_dir.
  eapply outcome_bind; [apply read_only_outcome, read_only_derive|]. intros identity. cbn.
  eapply outcome_bind with (S := λ o f, o = Some owner ∧ secured (tree w) f);
    [by apply outcome_sum|].
  intros o. apply outcome_pure. intros ->.
  eapply outcome_bind; [apply read_only_outcome; destruct xdg;
    [apply read_only_try, read_only_xdg|done]|].
  intros base. cbn. unfold prepare_claude_runtime_tmp_dir_in.
  eapply outcome_bind; [apply read_only_outcome; read_only|]. intros tmp. cbn.
  eapply outcome_bind; [apply read_only_outcome, read_only_directories|]. intros u. cbn.
  destruct (claude_runtime_tmp_candidate tmp (fingerprint identity) (Some owner)) as [e|candidate] eqn:Hc;
    [by intros w0|].
  eapply outcome_bind with (S := λ c f, c = candidate ∧ secured (tree w) f); [by apply outcome_sum|].
  intros c. apply outcome_pure. intros ->. destruct (file_name candidate) as [leaf|];
    [|by apply outcome_throw].
  eapply outcome_weaken; [apply (child_spec (tree w))|done| |done].
  intros q f (? & ? & ?). split; [done|]. split; [done|]. exists tmp, (fingerprint identity), candidate.
  split; [done|]. split; [done|]. by eapply candidate_fits.
Qed.

(** *** Replacing a private file *)

Lemma locate_temporary f0 dir c k n d : real_dir f0 dir → f0 !! dir = Some d → is_dir d = true →
  c ≠ dotdot → f0 !! k = None → locate (<[k := n]> f0) (dir ++ [c]) = inr (dir ++ [c]).
Proof using.
  intros Hr Hd Hk Hc Hn. eapply locate_child; [by apply real_dir_insert| |exact Hk|done].
  rewrite lookup_insert_ne; [done|congruence].
Qed.

Definition with_temporary (f1 : Fs) (temporary : Path) (f : Fs) : Prop :=
  ∃ n, f = <[temporary := n]> f1 ∧ is_dir n = false.

Definition private_file (contents : list N) : Node := mkNode (File contents) euid PRIVATE_FILE_MODE.

Section Replacing.
Context (f1 : Fs) (dir : Path) (d : Node) (name leaf : str).
Hypothesis dir_real : real_dir f1 dir.
Hypothesis dir_node : f1 !! dir = Some d.
Hypothesis dir_is_dir : is_dir d = true.
Hypothesis name_ok : name ≠ dotdot.
Hypothesis leaf_ok : leaf ≠ dotdot.
Let target := dir ++ [name].
Let temporary := dir ++ [leaf].
Hypothesis fresh : f1 !! temporary = None.

Lemma rename_outcome contents :
  outcome (λ f, f = <[temporary := private_file contents]> f1) (rename temporary target)
    (λ _ f, f = <[target := private_file contents]> f1)
    (λ _, with_temporary f1 temporary).
Proof using dir_real dir_node dir_is_dir name_ok leaf_ok fresh.
  assert (Hk : with_temporary f1 temporary (<[temporary := private_file contents]> f1))
    by (by eexists).
  apply outcome_call; [by intros e f ->|]. intros f ->. unfold target, temporary in *.
  rewrite !(locate_temporary f1 dir _ _ _ d) by done.
  rewrite lookup_insert_eq, delete_insert_id by done.
  destruct (<[_:=_]> f1 !! (dir ++ [name])) as [t|]; [|done]. by destruct (is_dir t).
Qed.

Lemma fill_outcome wrote contents owner m :
  outcome (λ f, f = <[temporary := mkNode (File []) euid m]> f1)
    (fill_and_replace wrote temporary temporary target contents (Some owner))
    (λ _ f, f = <[target := private_file contents]> f1)
    (λ _, with_temporary f1 temporary).
Proof using dir_real dir_node dir_is_dir name_ok leaf_ok fresh.
  unfold fill_and_replace.
  eapply outcome_bind with (S := λ _ f, f = <[temporary := private_file []]> f1).
  { apply outcome_call; [intros e f ->; by eexists|]. intros f ->.
    unfold private_file. by rewrite alter_insert_eq. }
  intros u. eapply outcome_bind with (S := λ _ f, f = <[temporary := private_file []]> f1).
  { apply outcome_look; [intros e f ->; by eexists|done]. }
  intros meta. destruct (negb _ || negb _); [apply outcome_throw; intros f ->; by eexists|].
  eapply outcome_bind with (S := λ _ f, f = <[temporary := private_file contents]> f1).
  { intros w Hw. unfold write_all, private_file. rewrite Hw.
    destruct (io_faults w) as [|[e|] fs]; cbn; rewrite ?alter_insert_eq; [done|by eexists|done]. }
  intros u'. eapply outcome_bind with (S := λ _ f, f = <[temporary := private_file contents]> f1).
  { apply outcome_call; [intros e f ->; by eexists|done]. }
  intros u''. apply outcome_map_err, rename_outcome.
Qed.

Lemma remove_outcome :
  outcome (E := IoError) (with_temporary f1 temporary) (try_ (remove_file temporary))
    (λ _ f, f = f1 ∨ with_temporary f1 temporary f) (λ _ _, False).
Proof using dir_real dir_node dir_is_dir name_ok leaf_ok fresh.
  apply outcome_try, outcome_call; [by right|]. intros f (n & -> & Hn). unfold temporary in *.
  rewrite (locate_temporary f1 dir leaf _ n d) by done. rewrite lookup_insert_eq, Hn.
  left. by rewrite delete_insert_id.
Qed.
End Replacing.

Lemma replace_outcome f1 dir d name leaf wrote contents owner :
  real_dir f1 dir → f1 !! dir = Some d → is_dir d = true → name ≠ dotdot → leaf ≠ dotdot →
  outcome (λ f, f = f1)
    (file ← map_err (path_error $"create atomic private file" (dir ++ [leaf]))
              (create_new euid umask (dir ++ [leaf]) PRIVATE_FILE_MODE);
     result ← try_ (fill_and_replace wrote file (dir ++ [leaf]) (dir ++ [name]) contents (Some owner));
     match result with
     | inr _ => mret ()
     | inl e => removed ← try_ (remove_file (dir ++ [leaf])); throw e
     end)
    (λ _ f, f = <[dir ++ [name] := private_file contents]> f1)
    (λ _ f, f = f1 ∨ (f1 !! (dir ++ [leaf]) = None ∧ with_temporary f1 (dir ++ [leaf]) f)).
Proof using.
  intros Hr Hd Hdir Hname Hleaf.
  set (made := <[dir ++ [leaf] := mkNode (File []) euid (masked umask PRIVATE_FILE_MODE)]> f1).
  eapply outcome_bind with (S := λ q f, q = dir ++ [leaf] ∧ f1 !! (dir ++ [leaf]) = None ∧ f = made).
  { apply outcome_map_err, outcome_call; [by left|]. intros f ->.
    rewrite (locate_child f1 dir leaf d) by done.
    by destruct (f1 !! (dir ++ [leaf])) eqn:Hn; [left|]. }
  intros file w (-> & Hn & Hw). revert w Hw.
  assert (Hrest : outcome (λ f, f = made)
    (result ← try_ (fill_and_replace wrote (dir ++ [leaf]) (dir ++ [leaf]) (dir ++ [name])
                      contents (Some owner));
     match result with
     | inr _ => mret ()
     | inl e => removed ← try_ (remove_file (dir ++ [leaf])); throw e
     end)
    (λ _ f, f = <[dir ++ [name] := private_file contents]> f1)
    (λ _ f, f = f1 ∨ (f1 !! (dir ++ [leaf]) = None ∧ with_temporary f1 (dir ++ [leaf]) f)));
    [|exact Hrest].
  eapply outcome_bind with (S := λ r f, match r with
    | inr _ => f = <[dir ++ [name] := private_file contents]> f1
    | inl _ => with_temporary f1 (dir ++ [leaf]) f end).
  { apply outcome_try. by eapply fill_outcome. }
  intros [e|u]; [|by apply outcome_ret]. eapply outcome_bind.
  { eapply outcome_weaken; [by eapply (remove_outcome f1 dir d name)|done| |]; [|by intros].
    intros a f Hf. exact Hf. }
  intros r. apply outcome_throw. intros f [?|?]; [by left|right; by split].
Qed.

Lemma temporary_name_ok name sequence : temporary_name pid name sequence ≠ dotdot.
Proof using.
  unfold temporary_name. intros Heq. apply (f_equal length) in Heq.
  rewrite !length_app in Heq.
  change (length dotdot) with 2%nat in Heq. change (length $".tmp") with 4%nat in Heq. lia.
Qed.

End PrivateLemmas.


(** ** Worktrees *)

(** What an answered check says. *)
Lemma ok_lstat p w n w' : ok (symlink_metadata p) w = (inr n, w') → lstat (tree w) p = inr n.
Proof. intros H%map_err_answer. by apply (look_answer (λ f, lstat f p)) in H. Qed.

Lemma ok_canonicalize p w q w' : ok (canonicalize p) w = (inr q, w') → resolve (tree w) p = inr q.
Proof. intros H%map_err_answer. by apply (look_answer (λ f, resolve f p)) in H. Qed.

Lemma guard_answer b w u w' : guard b w = (inr u, w') → b = true.
Proof. by destruct b. Qed.

Lemma some_answer {A : Type} (o : option A) w a w' : some o w = (inr a, w') → o = Some a.
Proof. destruct o; [|done]. by intros [= ->]. Qed.

Lemma read_only_control p prefix : read_only (control_path p prefix).
Proof. unfold control_path, some, none, ok, read_to_string. read_only. Qed.

Lemma parent_named d name q : parent q = Some d → file_name q = Some name → q = d ++ [name].
Proof.
  unfold parent, file_name. destruct q as [|c q _] using rev_ind; [done|].
  rewrite last_snoc, removelast_last. destruct (q ++ [c]) eqn:Hq; [by destruct q|].
  intros [= <-]. rewrite <-Hq. destruct (str_eqb c dotdot); [done|]. by intros [= <-].
Qed.

Lemma parent_snoc q d : parent q = Some d → ∃ c, q = d ++ [c].
Proof.
  unfold parent. destruct q as [|c q _] using rev_ind; [done|].
  destruct (q ++ [c]) eqn:Hq; [by destruct q|]. rewrite <-Hq, removelast_last.
  intros [= <-]. by exists c.
Qed.

(** The next step of a computation that answered: [H] moves past it, and what it
    answered, [Ha], is about the same tree. *)
Ltac step H Ha a :=
  let w := fresh "w" in let Ht := fresh "Ht" in
  apply bind_answer in H as (a & w & Ha & Ht & H);
  [|first [apply read_only_control | unfold guard, some, none, ok; read_only]];
  first [apply ok_lstat in Ha | apply ok_canonicalize in Ha | apply guard_answer in Ha
        | apply some_answer in Ha | idtac];
  repeat match goal with
    | Hb : tree ?x = tree _, Hc : context [tree ?x] |- _ => rewrite Hb in Hc
    end.

(** Reading a control file of a tree. *)
Definition control_says (f : Fs) (control : Path) (prefix : str) (p : Path) : Prop :=
  ∃ w w', tree w = f ∧ control_path control prefix w = (inr p, w').

(** A [.git] file leads to another repository only if that repository points back.
    When the resolver answers a main repository, the pointer leads to a real
    directory [.git/worktrees/<name>] of it, whose [commondir] is that [.git] and
    whose [gitdir] names the very file the search began with, and nothing in the tree
    changed.  A planted pointer to a repository without that backlink gets no answer. *)
Theorem worktree_links_back git_file w root w' :
  main_repo_root_from_gitfile git_file w = (inr root, w') →
  tree w' = tree w ∧
  ∃ name common back q,
    real_dir (tree w) (root ++ [ $".git"; $"worktrees"; name]) ∧
    control_says (tree w) (root ++ [ $".git"; $"worktrees"; name; $"commondir"]) [] common ∧
    resolve (tree w) common = inr (root ++ [ $".git"]) ∧
    control_says (tree w) (root ++ [ $".git"; $"worktrees"; name; $"gitdir"]) [] back ∧
    resolve (tree w) back = inr q ∧ resolve (tree w) git_file = inr q.
Proof.
  intros H. split.
  { pose proof (read_only_repo git_file w) as Hr. by rewrite H in Hr. }
  unfold main_repo_root_from_gitfile in H.
  step H H1 meta. step H H2 u2. step H H3 gitdir0. step H H4 gmeta. step H H5 u5.
  step H H6 gitdir. step H H7 worktrees_dir. step H H8 wname. step H H9 u9.
  step H H10 main0. step H H11 gname. step H H12 u12. step H H13 main_git_dir.
  step H H14 common. step H H15 common_dir. step H H16 u16. step H H17 back.
  step H H18 bmeta. step H H19 u19. step H H20 backlink. step H H21 git_real. step H H22 u22.
  step H H23 root'. step H H24 dmeta. step H H25 u25. step H H26 dot_real. step H H27 u27.
  injection H as -> _.
  apply andb_true_iff in H5 as [Hlink Hdir]. apply negb_true_iff in Hlink.
  pose proof (lstat_resolve _ _ _ _ H4 Hlink H6) as Hnode.
  assert (Hreal : real_dir (tree w) gitdir)
    by (eapply real_dir_real; [by eapply resolve_real|done|done]).
  apply parent_snoc in H7 as [name ->].
  apply str_eqb_eq in H9 as ->. rewrite (parent_named _ _ _ H10 H8) in *. clear H8 H10.
  apply str_eqb_eq in H12 as ->.
  rewrite <-app_assoc in Hreal. cbn [app] in Hreal. pose proof (real_dir_app _ _ _ Hreal) as Hmain.
  rewrite (resolve_dir _ _ Hmain) in H13. injection H13 as <-.
  rewrite (parent_named _ _ _ H23 H11) in *. clear H11 H23.
  apply bool_decide_eq_true in H16, H22. subst common_dir git_real.
  rewrite <-!app_assoc in *. cbn [app] in *.
  exists name, common, back, backlink. split; [done|].
  split; [eexists _, _; split; [|exact H14]; done|]. split; [done|].
  split; [eexists _, _; split; [|exact H17]; done|]. done.
Qed.

(** ** Slugs *)

Definition slug_char (c : char) : bool :=
  ((97 <=? c) && (c <=? 122)) || is_ascii_digit c || (c =? dash).

Lemma slug_char_width c : slug_char c = true → utf8_width c = 1.
Proof.
  unfold slug_char, is_ascii_digit, dash, utf8_width. intros Hc.
  destruct (N.ltb_spec c 128); [done|]. exfalso.
  repeat (apply orb_true_iff in Hc as [Hc|Hc]).
  - apply andb_true_iff in Hc as [_ Hc%N.leb_le]. lia.
  - apply andb_true_iff in Hc as [_ Hc%N.leb_le]. lia.
  - apply N.eqb_eq in Hc. lia.
Qed.

Lemma slug_str_len s : Forall (λ c, slug_char c = true) s → str_len s = N.of_nat (length s).
Proof.
  induction 1 as [|c s Hc _ IH]; [done|]. unfold str_len in *. cbn [foldr length].
  rewrite IH, slug_char_width by done. lia.
Qed.

Lemma lower_alphanumeric c : is_ascii_alphanumeric (ascii_lower c) = true →
  slug_char (ascii_lower c) = true.
Proof.
  unfold is_ascii_alphanumeric, slug_char, is_ascii_alphabetic, ascii_lower.
  destruct (N.leb_spec 65 c), (N.leb_spec c 90); cbn [andb];
    unfold is_ascii_digit; intros Hx; repeat rewrite ?orb_true_iff, ?andb_true_iff, ?N.leb_le in *;
    try lia.
Qed.

Definition slug_text (limit : N) (s : str) : Prop :=
  Forall (λ c, slug_char c = true) s ∧ str_len s ≤ limit.

Lemma slug_text_snoc limit s c : slug_text limit s → slug_char c = true →
  (str_len s <? limit) = true → slug_text limit (s ++ [c]).
Proof.
  intros [Hs Hl] Hc Hlt%N.ltb_lt. rewrite slug_str_len in Hlt by done.
  assert (Hf : Forall (λ c, slug_char c = true) (s ++ [c])) by (apply Forall_app; auto).
  split; [done|]. rewrite slug_str_len by done. rewrite length_app. cbn. lia.
Qed.

Lemma slug_text_push limit s c (b : bool) : slug_text limit s → slug_char c = true →
  slug_text limit (if b && (str_len s <? limit) then s ++ [c] else s).
Proof.
  intros Hs Hc. destruct b; [|done]. cbn [andb].
  destruct (str_len s <? limit) eqn:Hl; [|done]. by apply slug_text_snoc.
Qed.

Lemma sanitize_slug limit l : ∀ s separator, slug_text limit s →
  slug_text limit (sanitize_label limit s separator l).
Proof.
  induction l as [|c l IH]; intros s separator Hs; [done|]. cbn [sanitize_label].
  destruct (is_ascii_alphanumeric (ascii_lower c)) eqn:Hc.
  - apply lower_alphanumeric in Hc.
    pose proof (slug_text_push limit s dash (separator && negb (is_empty s)) Hs eq_refl) as Hs1.
    change [dash] with $"-" in Hs1. revert Hs1. cbv zeta. generalize (if separator &&
      negb (is_empty s) && (str_len s <? limit) then s ++ $"-" else s). intros s1 Hs1.
    pose proof (slug_text_push limit s1 _ true Hs1 Hc) as Hs2. cbn [andb] in Hs2.
    destruct (limit <=? _); [done|]. by apply IH.
  - destruct (limit <=? str_len s); [done|]. by apply IH.
Qed.

Lemma trim_end_prefix p s : ∃ r, s = trim_end_matches p s ++ r.
Proof.
  destruct (drop_while_suffix p (rev s)) as (l & Hl & _). exists (rev l).
  unfold trim_end_matches. rewrite <-rev_app_distr, <-Hl. by rewrite rev_involutive.
Qed.

Lemma trim_end_slug p limit s : slug_text limit s → slug_text limit (trim_end_matches p s).
Proof.
  intros [Hs Hl]. destruct (trim_end_prefix p s) as [r Hr].
  rewrite slug_str_len in Hl by done. rewrite Hr in Hs, Hl. rewrite length_app in Hl.
  apply Forall_app in Hs as [Hs _]. split; [done|]. rewrite slug_str_len by done. lia.
Qed.

Lemma hex_digit_slug d : d < 16 → slug_char (hex_digit d) = true.
Proof.
  intros Hd. unfold hex_digit, slug_char, is_ascii_digit, dash.
  destruct (N.ltb_spec d 10).
  - rewrite (proj2 (N.leb_le 48 _)), (proj2 (N.leb_le _ 57)) by lia. cbn. by rewrite orb_true_r.
  - rewrite (proj2 (N.leb_le 97 _)), (proj2 (N.leb_le _ 122)) by lia. done.
Qed.

Lemma hex_digit_inj d e : d < 16 → e < 16 → hex_digit d = hex_digit e → d = e.
Proof. unfold hex_digit. destruct (N.ltb_spec d 10), (N.ltb_spec e 10); lia. Qed.

Lemma hex_byte_inj a b : a < 256 → b < 256 → hex_byte a = hex_byte b → a = b.
Proof.
  intros Ha Hb [= H1 H2].
  pose proof (N.Div0.div_lt_upper_bound a 16 16 ltac:(lia)).
  pose proof (N.Div0.div_lt_upper_bound b 16 16 ltac:(lia)).
  pose proof (N.mod_lt a 16 ltac:(lia)). pose proof (N.mod_lt b 16 ltac:(lia)).
  apply hex_digit_inj in H1, H2; try done.
  rewrite (N.div_mod a 16), (N.div_mod b 16) by lia. congruence.
Qed.

Lemma hex_bytes_inj a : ∀ b, Forall (λ x, x < 256) a → Forall (λ x, x < 256) b →
  length a = length b → concat (map hex_byte a) = concat (map hex_byte b) → a = b.
Proof.
  induction a as [|x a IH]; intros [|y b] Ha Hb Hl; try done. cbn [map concat].
  apply Forall_cons in Ha as [Hx Ha]. apply Forall_cons in Hb as [Hy Hb].
  intros [= E1 E2 E]. f_equal; [by apply hex_byte_inj; [| |unfold hex_byte; congruence]|].
  apply IH; auto.
Qed.

Section Slugs.
Variable sha256 : list N → list N.
(** SHA-256 answers thirty-two bytes. *)
Hypothesis sha256_bytes : ∀ m, length (sha256 m) = 32%nat ∧ Forall (λ b, b < 256) (sha256 m).

Lemma fingerprint_text root :
  Forall (λ c, slug_char c = true) (project_fingerprint sha256 root) ∧
  length (project_fingerprint sha256 root) = 32%nat.
Proof using sha256_bytes.
  unfold project_fingerprint. set (m := PROJECT_ID_DOMAIN ++ hash_path root).
  destruct (sha256_bytes m) as [Hl Hb].
  assert (Hl16 : length (take 16 (sha256 m)) = 16%nat) by (rewrite length_take; lia).
  apply (Forall_take _ 16%nat) in Hb. clear Hl. split.
  - clear Hl16. induction Hb as [|b l Hb _ IH]; [done|]. cbn [map concat].
    pose proof (N.mod_lt b 16 ltac:(lia)).
    pose proof (N.Div0.div_lt_upper_bound b 16 16 ltac:(lia)).
    repeat constructor; [by apply hex_digit_slug..|done].
  - clear Hb. revert Hl16. generalize (take 16 (sha256 m)). intros l.
    assert (∀ l : list N, length (concat (map hex_byte l)) = (2 * length l)%nat) as ->; [|lia].
    clear. intros l. induction l as [|b l IH]; [done|]. cbn [map concat]. rewrite length_app, IH. cbn. lia.
Qed.

(** C38: A project's store directory is one safe name.  Whatever the project is called, the
    slug consists of lower-case letters, digits and dashes, is not empty and at most 96
    bytes long; and two projects share a database path only if the leading sixteen bytes
    of their digests agree, whatever their labels. *)
Theorem project_slug_safe home root root' checkout checkout' :
  let identity := identity_of sha256 checkout root in
  let identity' := identity_of sha256 checkout' root' in
  Forall (λ c, slug_char c = true) (slug identity) ∧ slug identity ≠ [] ∧
  str_len (slug identity) ≤ PROJECT_SLUG_MAX_LEN ∧
  (project_memory_db_path_in home identity = project_memory_db_path_in home identity' →
   take 16 (sha256 (PROJECT_ID_DOMAIN ++ hash_path root)) =
   take 16 (sha256 (PROJECT_ID_DOMAIN ++ hash_path root'))).
Proof using sha256_bytes.
  intros identity identity'. destruct (fingerprint_text root) as [Hf Hlen].
  assert (Hslug : slug_text PROJECT_SLUG_MAX_LEN (slug identity) ∧ slug identity ≠ []).
  { cbn. unfold project_slug. rewrite slug_str_len, Hlen by done. cbn [N.of_nat].
    set (limit := PROJECT_SLUG_MAX_LEN - 2 - _).
    assert (Hs : slug_text limit (trim_end_matches (N.eqb dash)
      (sanitize_label limit [] false (default $"project" (basename root))))).
    { apply trim_end_slug, sanitize_slug. by split. }
    set (s := trim_end_matches _ _) in *.
    assert (Ht : slug_text limit (if is_empty s then $"project" else s)).
    { destruct (is_empty s); [|done]. split; [|vm_compute; done]. repeat constructor. }
    set (t := if is_empty s then _ else s) in *. destruct Ht as [Ht Hl].
    rewrite slug_str_len in Hl by done.
    split; [|by intros [_ [Hx _]%app_eq_nil]%app_eq_nil; discriminate Hx].
    assert (Hall : Forall (λ c, slug_char c = true)
      (t ++ $"--" ++ project_fingerprint sha256 root)).
    { apply Forall_app. split; [done|]. apply Forall_app. split; [repeat constructor|done]. }
    split; [done|]. rewrite slug_str_len by done. rewrite !length_app, Hlen.
    change (length $"--") with 2%nat.
    change limit with 62 in Hl. unfold PROJECT_SLUG_MAX_LEN. lia. }
  destruct Hslug as [[Hc Hl] Hne]. split; [done|]. split; [done|]. split; [done|].
  unfold project_memory_db_path_in, project_storage_dir_in. rewrite <-!app_assoc.
  intros Heq. apply app_inv_head in Heq. injection Heq as Heq. cbn in Heq.
  destruct (fingerprint_text root') as [_ Hlen'].
  unfold project_slug in Heq. rewrite !app_assoc in Heq.
  apply app_inj_2 in Heq as [_ Heq]; [|congruence].
  destruct (sha256_bytes (PROJECT_ID_DOMAIN ++ hash_path root)) as [L1 B1].
  destruct (sha256_bytes (PROJECT_ID_DOMAIN ++ hash_path root')) as [L2 B2].
  apply hex_bytes_inj in Heq; [done|by apply Forall_take..|]. rewrite !length_take. lia.
Qed.
End Slugs.

(** ** A linked worktree *)

Module ProjectDemo.
Definition dir : Node := mkNode Dir 1000 448.
Definition text (s : str) : Node := mkNode (File (as_bytes s)) 1000 384.
Definition admin : Path := [ $"w"; $"main"; $".git"; $"worktrees"; $"feat"].

Definition tree0 : gmap Path Node := list_to_map [
  ([], dir); ([ $"w"], dir); ([ $"w"; $"main"], dir); ([ $"w"; $"main"; $".git"], dir);
  ([ $"w"; $"main"; $".git"; $"worktrees"], dir); (admin, dir);
  (admin ++ [ $"commondir"], text ($"../.." ++ [ch_nl]));
  (admin ++ [ $"gitdir"], text ($"/w/feat/.git" ++ [ch_nl]));
  ([ $"w"; $"feat"], dir);
  ([ $"w"; $"feat"; $".git"], text ($"gitdir: /w/main/.git/worktrees/feat" ++ [ch_nl]))].

Definition sha (m : list N) : list N := map (λ b, b mod 256) (take 32 (m ++ repeat 0 32)).

Lemma sha_bytes m : length (sha m) = 32%nat ∧ Forall (λ b, b < 256) (sha m).
Proof.
  unfold sha. split.
  - rewrite length_map, length_take, length_app, repeat_length. lia.
  - apply Forall_fmap, Forall_forall. intros b _. by apply N.mod_lt.
Defined.
End ProjectDemo.

Lemma worktree_links_back_witness :
  (main_repo_root_from_gitfile [ $"w"; $"feat"; $".git"] (mkFsWorld ProjectDemo.tree0 [])).1 =
    inr [ $"w"; $"main"] ∧
  ∃ name, real_dir ProjectDemo.tree0 ([ $"w"; $"main"] ++ [ $".git"; $"worktrees"; name]).
Proof.
  assert (Hr : (main_repo_root_from_gitfile [ $"w"; $"feat"; $".git"]
    (mkFsWorld ProjectDemo.tree0 [])).1 = inr [ $"w"; $"main"]) by (vm_compute; reflexivity).
  split; [exact Hr|].
  destruct (main_repo_root_from_gitfile [ $"w"; $"feat"; $".git"] (mkFsWorld ProjectDemo.tree0 []))
    as [r w'] eqn:Hm.
  cbn in Hr. subst r.
  destruct (worktree_links_back _ _ _ _ Hm) as (_ & name & _ & _ & _ & Hd & _). exists name. exact Hd.
Defined.


Lemma project_slug_safe_witness :
  slug (identity_of ProjectDemo.sha [] [ $"home"; $"My App"]) =
    $"my-app--727472742e70726f6a6563742d696465" ∧
  Forall (λ c, slug_char c = true) (slug (identity_of ProjectDemo.sha [] [ $"home"; $"My App"])).
Proof.
  split; [vm_compute; reflexivity|].
  apply (project_slug_safe ProjectDemo.sha ProjectDemo.sha_bytes [] [ $"home"; $"My App"] [] [] []).
Defined.
