(* ===== verification/Collector.v ===== *)
(** * The collector: [crates/rtrt-cli/src/collector.rs]

    The host's side of forwarding: which tokens may write for which guest projects,
    the gate in front of the handler, and the handler, which stores an event in the
    store of the mapped project.  The header decoder, the JSON extractor, the
    derivation of a mapped directory's identity and the credentials file are foreign
    or input, and arguments. *)
From stdpp Require Import gmap sets.
From S2P Require Import Prelude Str Utf8 Error Fs Wire Project MemDb MemStore MemSafety.

Record Binding := mkBinding {
  b_pair : GuestProject;
  b_identity : ProjectIdentity;
  b_token : str;
}.

Record AuthorizedBinding := mkAuthorized {
  a_pair : GuestProject;
  a_identity : ProjectIdentity;
}.

Record CredentialRecord := mkCredential {
  c_guest_id : str;
  c_project : str;
  c_token : str;
}.

(** ** Startup *)

Definition mapping_syntax : str := $"mapping must have syntax guest:remote_project=HOST_PROJECT_PATH".

Section Router.
(** [Path::is_dir] and [ProjectIdentity::derive] of a text. *)
Context (host_is_dir : str → bool) (host_identity : str → option ProjectIdentity).

Definition parse_mapping (value : str) : str + (GuestProject * ProjectIdentity) :=
  '(guest, rest) ← context_option mapping_syntax (split_once_char 58 value);
  '(remote, path) ← context_option mapping_syntax (split_once_char 61 rest);
  if negb (valid_identifier guest) || negb (valid_identifier remote) || is_empty path
  then bail ($"mapping requires non-empty, control-free guest and remote project and a " ++
             $"host path")
  else if negb (host_is_dir path)
  then bail $"mapped host project must be an existing directory"
  else
    identity ← context_option $"derive mapped host project identity" (host_identity path);
    inr (mkPair guest remote, identity).

Fixpoint collect_mappings (projects : gmap GuestProject ProjectIdentity) (mappings : list str) :
    str + gmap GuestProject ProjectIdentity :=
  match mappings with
  | [] => inr projects
  | mapping :: rest =>
      '(key, identity) ← parse_mapping mapping;
      if bool_decide (is_Some (projects !! key))
      then bail $"duplicate guest and remote project mapping"
      else collect_mappings (<[key := identity]> projects) rest
  end.

(** Both loops over bytes; the lengths and bytes are machine words, on which exclusive
    and inclusive or do not overflow. *)
Fixpoint or_differences (left : list N) (difference : N) (index : nat) (right : list N) : N :=
  match right with
  | [] => difference
  | byte :: rest =>
      or_differences left (N.lor difference (N.lxor (default 0 (left !! index)) byte)) (S index) rest
  end.

Definition constant_time_equal (left right : list N) : bool :=
  or_differences left (N.lxor (N.of_nat (length left)) (N.of_nat (length right))) 0 right =? 0.

Fixpoint bind_credentials (projects : gmap GuestProject ProjectIdentity) (bindings : list Binding)
    (records : list CredentialRecord) : str + list Binding :=
  match records with
  | [] => inr bindings
  | record :: rest =>
      validate_token (c_token record) ≫= λ _,
      let pair := mkPair (c_guest_id record) (c_project record) in
      identity ← context_option $"credentials must match mappings one-to-one" (projects !! pair);
      if existsb (λ binding, constant_time_equal (as_bytes (b_token binding))
                               (as_bytes (c_token record))) bindings
      then bail $"duplicate credentials token"
      else bind_credentials (base.delete pair projects)
             (bindings ++ [mkBinding pair identity (c_token record)]) rest
  end.

(** [credentials] is what reading the credentials file answered, when one was given. *)
Definition router_with_credentials (token : option str)
    (credentials : option (str + list CredentialRecord)) (mappings : list str) :
    str + list Binding :=
  projects ← collect_mappings ∅ mappings;
  if bool_decide (projects = ∅) then bail $"collector requires at least one explicit --map mapping"
  else if bool_decide (is_Some token) && bool_decide (is_Some credentials)
  then bail $"--token and --credentials cannot be combined"
  else
    match credentials with
    | Some file =>
        records ← file;
        if negb (length records =? size projects)%nat
        then bail $"credentials must match mappings one-to-one"
        else bind_credentials projects [] records
    | None =>
        token ← context_option $"collector requires --token or --credentials" token;
        validate_token token ≫= λ _,
        if negb (size projects =? 1)%nat
        then bail $"multiple mappings require --credentials with unique per-pair tokens"
        else inr (map (λ pi, mkBinding pi.1 pi.2 token) (map_to_list projects))
    end.
End Router.

(** ** Requests *)

Definition UNAUTHORIZED : N := 401.
Definition FORBIDDEN : N := 403.
Definition BAD_REQUEST : N := 400.
Definition INTERNAL_SERVER_ERROR : N := 500.
Definition GATEWAY_TIMEOUT : N := 504.

Record Request := mkRequest {
  has_origin : bool;
  authorization : option (list N);
  body : str;
}.

(** What the blocking part of one request meets: whether the store opens and the task
    is not lost, the clock, the statements that fail, what other connections commit, and
    whether the answer comes after the ten seconds. *)
Record IngestEnv := mkIngestEnv {
  store_opens : bool;
  ingest_now : Result N;
  ingest_faults : list (option str);
  ingest_rivals : Db → Db;
  timed_out : bool;
}.

(** What the extractor does with a body: reads the event it spells, or answers an error. *)
Class ExtractLaws `{WireJson} (extract : str → N + WireEvent) : Prop := {
  extract_event text e : extract text = inr e → event_of_text text = Some e;
  extract_rejects text status : extract text = inl status → (status <? 200) || (300 <=? status) = true;
  extract_accepts e : str_len (to_text e) ≤ MAX_BODY_BYTES → extract (to_text e) = inr e;
}.

(** [to_str] reads the headers of visible ASCII characters, and no others. *)
Definition visible_ascii (byte : N) : bool := ((32 <=? byte) && (byte <? 127)) || (byte =? 9).
Class HeaderLaws (to_str : list N → option str) : Prop :=
  to_str_visible header : to_str header = if forallb visible_ascii header then Some header else None.

(** The stores of the host, by the slug their database is kept under. *)
Abbreviation Stores := (gmap str Db) (only parsing).

Section Requests.
Context `{WireJson} `{Json}.
Context (body_sha : str → str).
(** [HeaderValue::to_str], and the extractor: the status of its rejection or the event. *)
Context (to_str : list N → option str) (extract : str → N + WireEvent).

Definition authorize (bindings : list Binding) (request : Request) : N + AuthorizedBinding :=
  if has_origin request then inl FORBIDDEN
  else
    let bearer := header ← authorization request; text ← to_str header;
                  strip_prefix $"Bearer " text in
    let matched := foldl (λ matched binding,
      if constant_time_equal (as_bytes (default [] bearer)) (as_bytes (b_token binding))
      then Some (mkAuthorized (b_pair binding) (b_identity binding)) else matched)
      None bindings in
    match matched with
    | Some binding => inr binding
    | None => inl UNAUTHORIZED
    end.

Definition forwarded_event (e : WireEvent) : ForwardedEvent :=
  mkEvent (we_event_id e) (we_guest_id e) (we_project e) (we_kind e) (we_body e)
    (default ∅ (we_metadata e)) (we_session_id e).

(** [MemoryStore::open_project]: the store of the identity, pinned to its slug. *)
Definition open_project (identity : ProjectIdentity) : MemoryStore :=
  mkStore None (Some (slug identity)).

Definition store_of (stores : Stores) (key : str) : Db := default fresh_db (stores !! key).

(** The blocking task: it runs to its end even when the answer is too late. *)
Definition ingest_task (binding : AuthorizedBinding) (e : WireEvent) (env : IngestEnv)
    (stores : Stores) : option (Result IngestOutcome) * Stores :=
  if store_opens env then
    let key := slug (a_identity binding) in
    let '(r, w) := ingest_forwarded body_sha (open_project (a_identity binding)) (ingest_now env)
                     (ingest_rivals env) (forwarded_event e)
                     (mkWorld (store_of stores key) (ingest_faults env)) in
    (Some r, <[key := db w]> stores)
  else (None, stores).

Definition ingest (binding : AuthorizedBinding) (event : N + WireEvent) (env : IngestEnv)
    (stores : Stores) : (N + CollectorAck) * Stores :=
  match event with
  | inl status => (inl status, stores)
  | inr e =>
      match validate e with
      | inl _ => (inl BAD_REQUEST, stores)
      | inr _ =>
          if negb (str_eqb (we_guest_id e) (guest_id (a_pair binding)))
             || negb (str_eqb (we_project e) (project (a_pair binding)))
          then (inl FORBIDDEN, stores)
          else
            let '(answer, stores') := ingest_task binding e env stores in
            (if timed_out env then inl GATEWAY_TIMEOUT
             else match answer with
                  | Some (Ok outcome) => inr (mkAck (memory_id outcome) (inserted outcome))
                  | _ => inl INTERNAL_SERVER_ERROR
                  end, stores')
      end
  end.

(** A post to [/v1/events]. *)
Definition handle (bindings : list Binding) (request : Request) (env : IngestEnv)
    (stores : Stores) : (N + CollectorAck) * Stores :=
  match authorize bindings request with
  | inl status => (inl status, stores)
  | inr binding => ingest binding (extract (body request)) env stores
  end.
End Requests.

(** ** Comparing tokens *)

Lemma or_differences_zero left right : ∀ d i,
  or_differences left d i right = 0 ↔
    d = 0 ∧ ∀ j b, right !! j = Some b → default 0 (left !! (i + j)%nat) = b.
Proof.
  induction right as [|b right IH]; intros d i; cbn.
  { split; [|by intros []]. intros ->. by split; [|intros j b]. }
  rewrite IH, N.lor_eq_0_iff, N.lxor_eq_0_iff. split.
  - intros [[-> Hb] Hr]. split; [done|]. intros [|j] b'; cbn.
    + intros [= <-]. by rewrite Nat.add_0_r.
    + intros Hj. rewrite <-(Hr j b' Hj). do 2 f_equal. lia.
  - intros [-> Hr]. split; [split; [done|]|].
    + rewrite <-(Hr 0%nat b eq_refl). by rewrite Nat.add_0_r.
    + intros j b' Hj. rewrite <-(Hr (S j) b' Hj). do 2 f_equal. lia.
Qed.

Lemma constant_time_equal_iff left right : constant_time_equal left right = true ↔ left = right.
Proof.
  unfold constant_time_equal. rewrite N.eqb_eq, or_differences_zero, N.lxor_eq_0_iff. split.
  - intros [Hl Hr]. apply Nat2N.inj in Hl. apply list_eq_same_length with (length right); [done..|].
    intros j x y Hj Hx Hy. specialize (Hr j y Hy). cbn in Hr. by rewrite Hx in Hr.
  - intros ->. split; [done|]. intros j b Hj. cbn. by rewrite Hj.
Qed.

(** The collector compares tokens in full.  The accumulated difference of lengths and
    bytes, which looks at every byte of the expected token whatever the presented one is,
    vanishes exactly when the two are the same bytes. *)
Theorem constant_time_equal_correct left right :
  constant_time_equal left right = bool_decide (left = right).
Proof.
  destruct (constant_time_equal left right) eqn:E.
  - symmetry. apply bool_decide_eq_true_2. by apply constant_time_equal_iff.
  - symmetry. apply bool_decide_eq_false_2. intros Heq%constant_time_equal_iff. congruence.
Qed.

(** ** What a started collector holds *)

Definition token_bytes (b : Binding) : list N := as_bytes (b_token b).

Section RouterLemmas.
Context (host_is_dir : str → bool) (host_identity : str → option ProjectIdentity).
#[local] Abbreviation parse_mapping := (parse_mapping host_is_dir host_identity).
#[local] Abbreviation collect_mappings := (collect_mappings host_is_dir host_identity).

Definition maps_to (mappings : list str) (p : GuestProject) (i : ProjectIdentity) : Prop :=
  ∃ m, m ∈ mappings ∧ parse_mapping m = inr (p, i).

Lemma collect_mappings_spec mappings : ∀ projects out,
  collect_mappings projects mappings = inr out →
  ∀ p i, out !! p = Some i ↔ projects !! p = Some i ∨ maps_to mappings p i.
Proof using.
  induction mappings as [|m mappings IH]; intros projects out; cbn.
  { intros [= ->] p i. split; [by left|]. intros [?|(m & Hm & _)]; [done|].
    by apply not_elem_of_nil in Hm. }
  destruct (parse_mapping m) as [|[key identity]] eqn:Hm; cbn; [done|].
  case_bool_decide as Hk; [done|]. intros Hout p i. rewrite (IH _ _ Hout), lookup_insert_Some.
  unfold maps_to. split.
  - intros [[[-> ->]|[Hne Hp]]|(m' & Hin & Hm')].
    + right. exists m. split; [by left|done].
    + by left.
    + right. exists m'. split; [by right|done].
  - intros [Hp|(m' & Hin & Hm')].
    + left. right. split; [|done]. intros ->. by destruct Hk.
    + apply elem_of_cons in Hin as [->|Hin].
      * left. left. rewrite Hm in Hm'. by injection Hm' as -> ->.
      * right. by exists m'.
Qed.

Lemma bind_credentials_spec records : ∀ projects bindings out,
  bind_credentials projects bindings records = inr out →
  ∃ new, out = bindings ++ new ∧
    Forall2 (λ b r, b_pair b = mkPair (c_guest_id r) (c_project r) ∧ b_token b = c_token r) new records ∧
    NoDup (map b_pair new) ∧
    (∀ b, b ∈ new → projects !! b_pair b = Some (b_identity b) ∧
      validate_token (b_token b) = inr ()) ∧
    (NoDup (map token_bytes bindings) → NoDup (map token_bytes (bindings ++ new))).
Proof using.
  induction records as [|r records IH]; intros projects bindings out; cbn.
  { intros [= <-]. exists []. rewrite app_nil_r. split; [done|]. split; [constructor|].
    split; [constructor|]. split; [|done]. by intros b Hb%not_elem_of_nil. }
  destruct (validate_token (c_token r)) as [|[]] eqn:Hv; [done|]. cbn.
  set (p := mkPair (c_guest_id r) (c_project r)).
  destruct (projects !! p) as [i|] eqn:Hp; [|done]. cbn.
  destruct (existsb _ bindings) eqn:Hdup; [done|].
  set (b := mkBinding p i (c_token r)).
  intros (new & -> & Hrec & Hnd & Hnew & Htok)%IH. exists (b :: new).
  rewrite <-app_assoc. split; [done|]. split; [by constructor|]. split; [|split].
  - cbn. apply NoDup_cons. split; [|done]. intros (b' & Hb' & Hin)%list_elem_of_fmap.
    destruct (Hnew b' Hin) as [Hl _]. rewrite <-Hb' in Hl. by rewrite lookup_delete_eq in Hl.
  - intros b' [->|Hin]%elem_of_cons; [done|]. destruct (Hnew b' Hin) as [Hl ?]. split; [|done].
    by apply lookup_delete_Some in Hl as [_ ?].
  - intros Hb. cbn in Htok. rewrite <-app_assoc in Htok. cbn in Htok. apply Htok.
    rewrite map_app. apply NoDup_app. split; [done|]. split; [|apply NoDup_singleton].
    intros t Ht ->%list_elem_of_singleton. apply list_elem_of_fmap in Ht as (b' & Hb' & Hin).
    rewrite <-not_true_iff_false, existsb_exists in Hdup. apply Hdup. exists b'.
    split; [by apply list_elem_of_In|]. by apply constant_time_equal_iff.
Qed.

Lemma binding_cover (projects : gmap GuestProject ProjectIdentity) new :
  NoDup (map b_pair new) → (∀ b, b ∈ new → projects !! b_pair b = Some (b_identity b)) →
  length new = size projects →
  ∀ p i, projects !! p = Some i → ∃ b, b ∈ new ∧ b_pair b = p ∧ b_identity b = i.
Proof using.
  intros Hnd Hnew Hlen p i Hp.
  assert (Hdom : (list_to_set (map b_pair new) : gset GuestProject) = dom projects).
  { apply set_subseteq_size_eq.
    - intros q. rewrite elem_of_list_to_set. intros (b & -> & Hb)%list_elem_of_fmap.
      apply elem_of_dom. rewrite (Hnew b Hb). by eexists.
    - rewrite size_list_to_set by done. by rewrite length_map, size_dom, Hlen. }
  assert (Hin : p ∈ dom projects) by (apply elem_of_dom; by eexists).
  rewrite <-Hdom, elem_of_list_to_set in Hin. apply list_elem_of_fmap in Hin as (b & -> & Hb).
  exists b. split; [done|]. split; [done|]. specialize (Hnew b Hb). congruence.
Qed.

(** A started collector separates its guests.  When startup succeeds there is at least
    one binding; every token is valid and no two bindings share one; every guest project
    has one binding; and the bindings' projects are exactly the mapped ones, each with the
    identity its mapping derives. *)
Theorem router_one_to_one token credentials mappings bindings :
  router_with_credentials host_is_dir host_identity token credentials mappings = inr bindings →
  bindings ≠ [] ∧
  NoDup (map token_bytes bindings) ∧ NoDup (map b_pair bindings) ∧
  (∀ b, b ∈ bindings → validate_token (b_token b) = inr ()) ∧
  (∀ p i, (∃ t, mkBinding p i t ∈ bindings) ↔ maps_to mappings p i).
Proof using.
  unfold router_with_credentials. destruct (collect_mappings ∅ mappings) as [|projects] eqn:Hc; [done|].
  assert (Hmap : ∀ p i, projects !! p = Some i ↔ maps_to mappings p i).
  { intros p i. rewrite (collect_mappings_spec _ _ _ Hc p i), lookup_empty. naive_solver. }
  cbn [mbind Fallible_bind]. case_bool_decide as Hne; [done|].
  destruct (bool_decide (is_Some token) && _); [done|].
  destruct credentials as [[|records]|]; [done| |].
  - cbn [mbind Fallible_bind].
    destruct (Nat.eqb_spec (length records) (size projects)) as [Hlen|]; cbn; [|done].
    intros (new & -> & Hrec & Hnd & Hnew & Htok)%bind_credentials_spec. cbn.
    apply Forall2_length in Hrec. rewrite Hlen in Hrec.
    assert (Hcover : ∀ p i, projects !! p = Some i →
      ∃ b, b ∈ new ∧ b_pair b = p ∧ b_identity b = i).
    { apply binding_cover; [done| |done]. intros b Hb. by apply Hnew. }
    split; [|split; [by apply Htok; constructor|split; [done|split; [by intros b Hb; apply Hnew|]]]].
    + intros ->. by apply Hne, map_size_empty_inv.
    + intros p i. rewrite <-Hmap. split.
      * intros [t Ht]. by apply Hnew in Ht as [? _].
      * intros (b & Hin & <- & <-)%Hcover. exists (b_token b). by destruct b.
  - destruct token as [token|]; [|done]. cbn [context_option mbind Fallible_bind].
    destruct (validate_token token) as [|[]] eqn:Hv; [done|].
    destruct (Nat.eqb_spec (size projects) 1) as [Hsize|]; cbn; [|done]. intros [= <-].
    assert (Hin : ∀ p i, (p, i) ∈ map_to_list projects ↔ maps_to mappings p i).
    { intros p i. rewrite elem_of_map_to_list. apply Hmap. }
    pose proof (NoDup_fst_map_to_list projects) as Hfst.
    rewrite <-length_map_to_list in Hsize.
    destruct (map_to_list projects) as [|[p1 i1] [|]]; [done| |done]. cbn in *.
    split; [done|]. split; [apply NoDup_singleton|]. split; [apply NoDup_singleton|].
    split; [by intros b ->%list_elem_of_singleton|]. intros p i. rewrite <-Hin. split.
    + intros [t [= -> -> _]%list_elem_of_singleton]. by apply list_elem_of_singleton.
    + intros [= -> ->]%list_elem_of_singleton. exists token. by apply list_elem_of_singleton.
Qed.
End RouterLemmas.

(** ** Who may write where *)

Section RequestLemmas.
Context `{WireJson} `{Json}.
Context (body_sha : str → str) (to_str : list N → option str) (extract : str → N + WireEvent).
#[local] Abbreviation authorize := (authorize to_str).
#[local] Abbreviation handle := (handle body_sha to_str extract).

(** The bindings a started collector has. *)
Definition separated (bindings : list Binding) : Prop :=
  NoDup (map token_bytes bindings) ∧ ∀ b, b ∈ bindings → validate_token (b_token b) = inr ().

(** The request carries the token in its header. *)
Definition presents (request : Request) (token : list N) : Prop :=
  ∃ header text bearer, authorization request = Some header ∧ to_str header = Some text ∧
    strip_prefix $"Bearer " text = Some bearer ∧ as_bytes bearer = token.

Definition authorized_as (b : Binding) : AuthorizedBinding :=
  mkAuthorized (b_pair b) (b_identity b).

Definition last_match (bearer : list N) (bindings : list Binding) : option AuthorizedBinding :=
  foldl (λ matched b, if constant_time_equal bearer (token_bytes b)
                      then Some (authorized_as b) else matched) None bindings.

Lemma last_match_Some bearer bindings a : last_match bearer bindings = Some a →
  ∃ b, b ∈ bindings ∧ bearer = token_bytes b ∧ a = authorized_as b.
Proof using.
  unfold last_match. induction bindings as [|b l IH] using rev_ind; [done|].
  rewrite foldl_snoc. destruct (constant_time_equal bearer (token_bytes b)) eqn:E.
  - intros [= <-]. exists b. apply constant_time_equal_iff in E.
    split; [|done]. apply elem_of_app. right. by left.
  - intros (b' & Hin & ?)%IH. exists b'. split; [|done]. apply elem_of_app. by left.
Qed.

Lemma authorize_bound bindings request a : authorize bindings request = inr a →
  ∃ b, b ∈ bindings ∧ a = authorized_as b.
Proof using.
  unfold authorize, Collector.authorize. destruct (has_origin request); [done|].
  set (bearer := authorization request ≫= λ header, to_str header ≫= λ text, strip_prefix _ text).
  change (foldl _ None bindings) with (last_match (as_bytes (default [] bearer)) bindings).
  destruct (last_match _ bindings) as [a'|] eqn:Hm; [|done]. intros [= ->].
  apply last_match_Some in Hm as (b & Hin & _ & ->). by exists b.
Qed.

Lemma last_match_unique bearer bindings b : NoDup (map token_bytes bindings) → b ∈ bindings →
  bearer = token_bytes b → last_match bearer bindings = Some (authorized_as b).
Proof using.
  unfold last_match. induction bindings as [|b' l IH] using rev_ind; [by intros _ ?%not_elem_of_nil|].
  rewrite map_app, foldl_snoc. intros (Hl & Hd & _)%NoDup_app Hin Hb.
  apply elem_of_app in Hin as [Hin| ->%list_elem_of_singleton].
  - destruct (constant_time_equal bearer (token_bytes b')) eqn:E; [|by apply IH].
    apply constant_time_equal_iff in E. exfalso. apply (Hd (token_bytes b)).
    + by apply list_elem_of_fmap_2.
    + rewrite <-Hb, E. by left.
  - by rewrite (proj2 (constant_time_equal_iff _ _) Hb).
Qed.

Lemma token_nonempty b : validate_token (b_token b) = inr () → token_bytes b ≠ [].
Proof using.
  unfold validate_token, token_bytes. destruct (b_token b) as [|c s]; [done|]. intros _.
  unfold as_bytes, encode_char. cbn. by destruct (c <? 128), (c <? 2048), (c <? 65536).
Qed.

Lemma authorize_spec bindings request a : separated bindings →
  authorize bindings request = inr a ↔
    has_origin request = false ∧
    ∃ b, b ∈ bindings ∧ presents request (token_bytes b) ∧ a = authorized_as b.
Proof using.
  intros [Hnd Hv]. unfold authorize, Collector.authorize.
  destruct (has_origin request); [naive_solver|].
  set (bearer := authorization request ≫= λ header, to_str header ≫= λ text, strip_prefix _ text).
  change (foldl _ None bindings) with (last_match (as_bytes (default [] bearer)) bindings).
  split.
  - destruct (last_match _ bindings) as [a'|] eqn:Hm; [|done]. intros [= ->]. split; [done|].
    apply last_match_Some in Hm as (b & Hin & Hb & ->). exists b. split; [done|]. split; [|done].
    destruct bearer as [t|] eqn:Hbearer.
    + unfold bearer in Hbearer. destruct (authorization request) as [h|] eqn:Ha; [|done].
      cbn in Hbearer. destruct (to_str h) as [text|] eqn:Ht; [|done]. cbn in Hbearer.
      exists h, text, t. by rewrite <-Hb.
    + exfalso. by apply (token_nonempty b (Hv b Hin)).
  - intros (_ & b & Hin & (h & text & t & Ha & Ht & Hs & Hb) & ->).
    unfold bearer. rewrite Ha. cbn. rewrite Ht. cbn. rewrite Hs. cbn.
    by rewrite (last_match_unique _ _ b).
Qed.

(** The gate admits exactly the bearers of a token.  A request passes, as the guest
    project a binding names, if and only if it has no [Origin] header and carries that
    binding's token, byte for byte; no request passes as two projects. *)
Theorem authorize_exact bindings request b : separated bindings → b ∈ bindings →
  NoDup (map b_pair bindings) →
  (authorize bindings request = inr (authorized_as b) ↔
   has_origin request = false ∧ presents request (token_bytes b)).
Proof using.
  intros Hs Hin Hp. rewrite authorize_spec by done. split.
  - intros (Ho & b' & Hin' & Hpr & Heq). split; [done|].
    assert (b' = b) as ->; [|done]. injection Heq as Hpair _.
    apply list_elem_of_lookup in Hin as [i Hi]. apply list_elem_of_lookup in Hin' as [j Hj].
    assert (i = j) as ->; [|congruence].
    eapply (NoDup_lookup _ _ _ (b_pair b) Hp); rewrite list_lookup_fmap; [by rewrite Hi|].
    rewrite Hj. cbn. by rewrite Hpair.
  - intros [Ho Hpr]. split; [done|]. by exists b.
Qed.

(** What one request does to the store it is let into. *)
Definition stored (env : IngestEnv) (identity : ProjectIdentity) (e : WireEvent) (d d' : Db) : Prop :=
  d' = d ∨ d' = ingest_rivals env d ∨
  ∃ secs, ingest_now env = Ok secs ∧ fresh_for (forwarded_event e) d ∧
    d' = delivered body_sha (forwarded_event e) (slug identity) (i64_of_u64 secs) d.

Lemma ingest_task_spec a e env stores :
  let '(_, stores') := ingest_task body_sha a e env stores in
  (∀ key, key ≠ slug (a_identity a) → stores' !! key = stores !! key) ∧
  stored env (a_identity a) e (store_of stores (slug (a_identity a)))
    (store_of stores' (slug (a_identity a))).
Proof using.
  unfold ingest_task. destruct (store_opens env); [|split; [done|by left]].
  pose proof (ingest_spec body_sha (open_project (a_identity a)) (ingest_now env)
    (ingest_rivals env) (forwarded_event e)
    (mkWorld (store_of stores (slug (a_identity a))) (ingest_faults env))) as Hs.
  destruct (ingest_forwarded _ _ _ _ _ _) as [r w]. split.
  { intros key Hne. by rewrite lookup_insert_ne. }
  unfold store_of at 2. rewrite lookup_insert_eq. cbn [default].
  unfold stored. destruct r as [o|err].
  - destruct (inserted o).
    + destruct Hs as (secs & Hn & _ & Hf & Hd). right. right. by exists secs.
    + destruct Hs as [[?|?] _]; auto.
  - destruct Hs; auto.
Qed.

(** C21: A token opens one store only.  A request changes no store but the one mapped to the
    project of the token it carries; there it changes nothing unless its event is valid
    and names exactly that guest and project, and then it at most adds that event once
    (apart from what other connections commit meanwhile).  A request is acknowledged only
    in that case too. *)
Theorem handle_isolated bindings request env stores : separated bindings →
  let '(r, stores') := handle bindings request env stores in
  (stores' = stores ∧ ∃ status, r = inl status) ∨
  ∃ b e, b ∈ bindings ∧ has_origin request = false ∧ presents request (token_bytes b) ∧
    extract (body request) = inr e ∧ valid_event e ∧ pair_of e = b_pair b ∧
    (∀ key, key ≠ slug (b_identity b) → stores' !! key = stores !! key) ∧
    stored env (b_identity b) e (store_of stores (slug (b_identity b)))
      (store_of stores' (slug (b_identity b))).
Proof using.
  intros Hs. unfold handle, Collector.handle.
  destruct (Collector.authorize to_str bindings request) as [status|a] eqn:Ha;
    [left; split; [done|by eexists]|].
  apply authorize_spec in Ha as (Ho & b & Hin & Hp & ->); [|done]. unfold ingest.
  destruct (extract (body request)) as [status|e] eqn:He; [left; split; [done|by eexists]|].
  destruct (validate e) as [|[]] eqn:Hv; [left; split; [done|by eexists]|]. cbn [a_pair authorized_as].
  destruct (str_eqb (we_guest_id e) _) eqn:Hg; cbn; [|left; split; [done|by eexists]].
  destruct (str_eqb (we_project e) _) eqn:Hpr; cbn; [|left; split; [done|by eexists]].
  pose proof (ingest_task_spec (authorized_as b) e env stores) as Ht.
  destruct (ingest_task _ _ _ _ stores) as [answer stores'] eqn:Htask. right.
  exists b, e. split; [done|]. split; [done|]. split; [done|]. split; [done|].
  split; [by apply validate_spec|]. split; [|exact Ht].
  apply str_eqb_eq in Hg, Hpr. unfold pair_of. rewrite Hg, Hpr. by destruct (b_pair b).
Qed.

Lemma encode_char_wide c x : x ∈ encode_char c → x < 128 → c < 128.
Proof using.
  unfold encode_char. destruct (N.ltb_spec c 128); [done|].
  intros Hx Hlt. exfalso.
  destruct (c <? 2048), (c <? 65536);
    repeat (apply elem_of_cons in Hx as [->|Hx]; [nlia|]); by apply not_elem_of_nil in Hx.
Qed.

Lemma encode_char_nonempty c : ∃ x, x ∈ encode_char c.
Proof using.
  unfold encode_char. destruct (c <? 128), (c <? 2048), (c <? 65536); eexists; left.
Qed.

Lemma ascii_bytes s : (∀ x, x ∈ as_bytes s → x < 128) → ∀ c, c ∈ s → c < 128.
Proof using.
  intros Hs c Hc. destruct (encode_char_nonempty c) as [x Hx].
  eapply encode_char_wide; [exact Hx|]. apply Hs. unfold as_bytes.
  apply list_elem_of_In, in_concat. exists (encode_char c).
  split; apply list_elem_of_In; [by apply list_elem_of_fmap_2|done].
Qed.

Lemma visible_lt c : visible_ascii c = true → c < 128.
Proof using.
  unfold visible_ascii. intros [Hc|Hc]%orb_true_iff.
  - apply andb_true_iff in Hc as [_ Hc%N.ltb_lt]. lia.
  - apply N.eqb_eq in Hc. lia.
Qed.

(** A token with a character outside ASCII locks its guest out.  Startup accepts such a
    token, as does the guest, but no request can be let in with it: the header decoder
    refuses what is not visible ASCII, so every request is answered 401. *)
Theorem nonascii_token_locked_out bindings request b c : HeaderLaws to_str →
  separated bindings → b ∈ bindings → c ∈ b_token b → 128 ≤ c →
  ¬ presents request (token_bytes b) ∧
  (bindings = [b] → has_origin request = false → authorize bindings request = inl UNAUTHORIZED).
Proof using.
  intros Hto Hs Hb Hc Hwide.
  assert (Hn : ¬ presents request (token_bytes b)).
  { intros (h & text & t & Ha & Ht & Hp & Hbytes). rewrite Hto in Ht.
    destruct (forallb visible_ascii h) eqn:Hvis; [|done]. injection Ht as <-.
    apply strip_prefix_Some in Hp as ->. rewrite forallb_app in Hvis.
    apply andb_true_iff in Hvis as [_ Hvis]. rewrite forallb_forall in Hvis.
    assert (c < 128); [|lia]. apply (ascii_bytes (b_token b)); [|done]. intros x Hx.
    unfold token_bytes in Hbytes. rewrite <-Hbytes in Hx. unfold as_bytes in Hx.
    apply list_elem_of_In, in_concat in Hx as (l & Hl & Hx).
    apply in_map_iff in Hl as (y & <- & Hy). apply Hvis, visible_lt in Hy.
    unfold encode_char in Hx. rewrite (proj2 (N.ltb_lt _ _) Hy) in Hx.
    by destruct Hx as [<-|[]]. }
  split; [done|]. intros -> Ho. unfold authorize, Collector.authorize. rewrite Ho.
  match goal with |- match ?m with _ => _ end = _ => destruct m as [a|] eqn:Hm; [|done] end.
  exfalso. apply Hn.
  assert (Ha : authorize [b] request = inr a).
  { unfold authorize, Collector.authorize. by rewrite Ho, Hm. }
  apply authorize_spec in Ha as (_ & b' & Hb' & Hp & _); [|done].
  by apply list_elem_of_singleton in Hb' as ->.
Qed.
End RequestLemmas.

(** ** A collector for two guests *)

Module CollectorDemo.
Export TextWire TextJson.

Definition identity (name : str) : ProjectIdentity := mkIdentity [] [] name $"f" (name ++ $"--f").
Definition host_identity (path : str) : option ProjectIdentity := Some (identity path).
Definition mappings : list str := [ $"laptop:app=one"; $"phone:app=two"].
Definition records : list CredentialRecord :=
  [mkCredential $"phone" $"app" $"pass-2"; mkCredential $"laptop" $"app" $"pass-1"].
Definition bindings : list Binding :=
  [mkBinding (mkPair $"phone" $"app") (identity $"two") $"pass-2";
   mkBinding (mkPair $"laptop" $"app") (identity $"one") $"pass-1"].
Definition laptop : Binding := mkBinding (mkPair $"laptop" $"app") (identity $"one") $"pass-1".

Definition to_str (header : list N) : option str :=
  if forallb visible_ascii header then Some header else None.
Definition extract (text : str) : N + WireEvent :=
  match event_of_text text with Some e => inr e | None => inl BAD_REQUEST end.

#[export] Instance extract_laws : ExtractLaws extract.
Proof.
  split; unfold extract.
  - intros text e. destruct (event_of_text text); [|done]. by intros [= ->].
  - intros text status. destruct (event_of_text text); [done|]. by intros [= <-].
  - intros e _. by rewrite event_of_to_text.
Qed.

#[export] Instance header_laws : HeaderLaws to_str.
Proof. done. Qed.

Lemma started : router_with_credentials (λ _, true) host_identity None (Some (inr records)) mappings
  = inr bindings.
Proof. vm_compute. reflexivity. Qed.

Lemma bindings_separated : separated bindings.
Proof.
  split; [apply (bool_decide_unpack _); vm_compute; exact I|].
  intros b Hb. repeat (apply elem_of_cons in Hb as [->|Hb]; [vm_compute; reflexivity|]).
  by apply not_elem_of_nil in Hb.
Qed.

Definition env : IngestEnv := mkIngestEnv true (Ok 100) [] id false.
Definition note : WireEvent := mkWire $"e1" $"laptop" $"app" $"note" $"hello" None None.
Definition request : Request :=
  mkRequest false (Some (as_bytes $"Bearer pass-1")) (to_text note).
End CollectorDemo.

Section CollectorWitnesses.
Import CollectorDemo.

Lemma router_one_to_one_witness :
  NoDup (map token_bytes bindings) ∧
  (∀ p i, (∃ t, mkBinding p i t ∈ bindings) ↔ maps_to (λ _, true) host_identity mappings p i).
Proof.
  destruct (router_one_to_one (λ _, true) host_identity None (Some (inr records)) mappings bindings
    started) as (_ & Hn & _ & _ & Hm). split; [exact Hn|exact Hm].
Defined.

Lemma authorize_exact_witness :
  authorize to_str bindings request = inr (authorized_as laptop) ∧
  presents to_str request (token_bytes laptop).
Proof.
  assert (Ha : authorize to_str bindings request = inr (authorized_as laptop))
    by (vm_compute; reflexivity).
  split; [exact Ha|].
  apply (authorize_exact to_str bindings request laptop bindings_separated); [right; left| |exact Ha].
  apply (bool_decide_unpack _). vm_compute. exact I.
Defined.

Lemma handle_isolated_witness :
  (handle id to_str extract bindings request env ∅).1 = inr (mkAck 1 true) ∧
  ∃ b e, b ∈ bindings ∧ presents to_str request (token_bytes b) ∧
    extract (body request) = inr e ∧ pair_of e = b_pair b.
Proof.
  assert (Hr : (handle id to_str extract bindings request env ∅).1 = inr (mkAck 1 true))
    by (vm_compute; reflexivity).
  split; [exact Hr|].
  pose proof (handle_isolated id to_str extract bindings request env ∅ bindings_separated) as Hs.
  destruct (handle id to_str extract bindings request env ∅) as [r st]. cbn in Hr. subst r.
  destruct Hs as [[_ [status Hx]]|(b & e & Hb & _ & Hp & He & _ & Hpair & _)]; [discriminate|].
  exists b, e. split; [exact Hb|]. split; [exact Hp|]. split; [exact He|exact Hpair].
Defined.

Definition umlaut : Binding := mkBinding (mkPair $"laptop" $"app") (identity $"one") [112; 252].

Lemma nonascii_token_locked_out_witness :
  validate_token (b_token umlaut) = inr () ∧
  authorize to_str [umlaut] (mkRequest false (Some (as_bytes ($"Bearer " ++ [112; 252]))) []) =
    inl UNAUTHORIZED.
Proof.
  split; [vm_compute; reflexivity|].
  refine (proj2 (nonascii_token_locked_out to_str [umlaut] _ umlaut 252 header_laws _ _ _ _) _ _).
  - split; [apply NoDup_singleton|]. intros b Hb. apply list_elem_of_singleton in Hb as ->.
    vm_compute. reflexivity.
  - left.
  - right. left.
  - vm_compute. discriminate.
  - reflexivity.
  - reflexivity.
Defined.
End CollectorWitnesses.
