(* ===== verification/Delivery.v ===== *)
(** * Forwarding end to end

    The guest's spool ([Forward]), the requests and answers on the wire, and the
    collector with its stores ([Collector], [MemStore]) as one transition system.  The
    wire loses, delays and repeats whatever it likes; several guest processes share the
    spool; the host goes on using its stores.  The guest's commands are shown to be
    sequences of these steps. *)
From stdpp Require Import gmap sets relations.
From S2P Require Import Prelude Str Utf8 Error Fs Wire Spool Forward Project MemDb MemStore.
From S2P Require Import MemSafety Collector.

Section Delivery.
Context `{WireJson} `{!WireJsonLaws _} `{Json}.
Context (body_sha : str → str) (to_str : list N → option str) (extract : str → N + WireEvent).
Context `{!ExtractLaws extract}.
Context (show_status : N → str).
(** The bindings of the running collector. *)
Context (bindings : list Binding).

#[local] Abbreviation handle := (handle body_sha to_str extract bindings).
#[local] Abbreviation read_ack := (read_ack show_status).

Record System := mkSystem {
  sys_spool : list SpoolRow;
  stores : gmap str Db;
  accepted : list WireEvent; (* every event a guest command has queued *)
  sent : list (str * str); (* tokens and texts of the requests posted so far *)
  answers : list (str * Response); (* the texts answered so far, with their answers *)
}.

(** What reqwest sends for [bearer_auth(token).json(event)]. *)
Definition request (token text : str) : Request :=
  mkRequest false (Some (as_bytes ($"Bearer " ++ token))) text.

(** The response axum makes of the handler's result. *)
Definition response_of (r : N + CollectorAck) : Response :=
  match r with
  | inl status => inr (status, Some [])
  | inr ack => inr (200, Some (ack_to_text ack))
  end.

(** Other writers of a store keep what is settled. *)
Definition fair (f : Db → Db) : Prop :=
  ∀ key id d, (store_ok d → store_ok (f d)) ∧ (settled key id d → settled key id (f d)).

Inductive step (s : System) : System → Prop :=
| step_enqueue e spool' :
    valid_event e → enqueue (sys_spool s) e = inr spool' →
    (∀ e', e' ∈ accepted s → we_event_id e' = we_event_id e → pair_of e' = pair_of e) →
    step s (mkSystem spool' (stores s) (e :: accepted s) (sent s) (answers s))
| step_post e token :
    e ∈ accepted s →
    step s (mkSystem (sys_spool s) (stores s) (accepted s) ((token, to_text e) :: sent s) (answers s))
| step_handle token text env r stores' :
    (token, text) ∈ sent s → fair (ingest_rivals env) →
    handle (request token text) env (stores s) = (r, stores') →
    step s (mkSystem (sys_spool s) stores' (accepted s) (sent s) ((text, response_of r) :: answers s))
| step_delivered e response ack :
    e ∈ accepted s → (to_text e, response) ∈ answers s → read_ack e response = inr ack →
    step s (mkSystem (Spool.delivered (sys_spool s) (we_event_id e)) (stores s) (accepted s) (sent s)
              (answers s))
| step_retry key count now spool' :
    retry (sys_spool s) key count now = inr spool' →
    step s (mkSystem spool' (stores s) (accepted s) (sent s) (answers s))
| step_host key op faults :
    fair (op_rivals op) →
    step s (mkSystem (sys_spool s)
              (<[key := db (run_op body_sha op (mkWorld (store_of (stores s) key) faults)).2]> (stores s))
              (accepted s) (sent s) (answers s)).

(** ** No event is lost *)

Definition receipt_of (e : WireEvent) : ReceiptKey :=
  (we_event_id e, we_guest_id e, we_project e).

(** The collector has settled the event in the store of its project: there is a receipt
    for it, or the row the receipt named has been deleted since. *)
Definition secured (st : gmap str Db) (e : WireEvent) : Prop :=
  ∃ b id, b ∈ bindings ∧ pair_of e = b_pair b ∧
    settled (receipt_of e) id (store_of st (slug (b_identity b))).

Record system_ok (s : System) : Prop := {
  sys_stores : ∀ key, store_ok (store_of (stores s) key);
  sys_queue : ∃ q, holds (sys_spool s) q ∧ (∀ e, queued e q → e ∈ accepted s) ∧
    ∀ e, e ∈ accepted s → queued e q ∨ secured (stores s) e;
  sys_ids : ∀ e e', e ∈ accepted s → e' ∈ accepted s →
    we_event_id e = we_event_id e' → pair_of e = pair_of e';
  sys_sent : ∀ token text, (token, text) ∈ sent s → ∃ e, e ∈ accepted s ∧ text = to_text e;
  sys_answers : ∀ text response e ack, (text, response) ∈ answers s → e ∈ accepted s →
    text = to_text e → read_ack e response = inr ack → secured (stores s) e;
  sys_answered : ∀ text response, (text, response) ∈ answers s →
    ∃ e, e ∈ accepted s ∧ text = to_text e;
}.

Lemma to_text_inj e e' : to_text e = to_text e' → e = e'.
Proof using WireJsonLaws0.
  intros Heq. pose proof (event_of_to_text e) as He. rewrite Heq, event_of_to_text in He.
  by injection He.
Qed.

Lemma secured_mono st st' e :
  (∀ key rk id, settled rk id (store_of st key) → settled rk id (store_of st' key)) →
  secured st e → secured st' e.
Proof using. intros Hm (b & id & Hb & Hp & Hs). exists b, id. eauto. Qed.

Lemma same_receipt s e e' : system_ok s → e ∈ accepted s → e' ∈ accepted s →
  we_event_id e = we_event_id e' → secured (stores s) e → secured (stores s) e'.
Proof using.
  intros Hs He He' Hid (b & id & Hb & Hp & Hset).
  pose proof (sys_ids s Hs e e' He He' Hid) as Hpair. exists b, id. split; [done|].
  split; [congruence|]. injection Hpair as Hg Hpr.
  assert (receipt_of e' = receipt_of e) as -> by (unfold receipt_of; congruence). done.
Qed.

(** *** What a request does to the stores *)

Lemma fair_store_ok f : fair f → ∀ d, store_ok d → store_ok (f d).
Proof using. intros Hf d. apply (Hf ([], [], []) 0%Z d). Qed.

Lemma ingest_db_keeps (I : Db → Prop) `{!StatementInvariant I} a e env st :
  (∀ d, I d → I (ingest_rivals env d)) → (∀ key, I (store_of st key)) →
  ∀ key, I (store_of (ingest_task body_sha a e env st).2 key).
Proof using.
  intros Hr HI key. unfold ingest_task. destruct (store_opens env); [|apply HI].
  pose proof (si_ingest I body_sha (open_project (a_identity a)) (ingest_now env)
    (ingest_rivals env) (forwarded_event e) Hr
    (mkWorld (store_of st (slug (a_identity a))) (ingest_faults env)) (HI _)) as Hk.
  destruct (ingest_forwarded _ _ _ _ _ _) as [r w]. cbn in *.
  unfold store_of. destruct (decide (key = slug (a_identity a))) as [->|Hne].
  - by rewrite lookup_insert_eq.
  - rewrite lookup_insert_ne by done. apply HI.
Qed.

Lemma ingest_db_settled rk id a e env st key :
  fair (ingest_rivals env) → settled rk id (store_of st key) →
  settled rk id (store_of (ingest_task body_sha a e env st).2 key).
Proof using.
  intros Hf Hs. unfold ingest_task. destruct (store_opens env); [|done].
  unfold store_of in *. destruct (decide (key = slug (a_identity a))) as [->|Hne].
  - pose proof (si_ingest (settled rk id) body_sha (open_project (a_identity a)) (ingest_now env)
      (ingest_rivals env) (forwarded_event e) (λ d, proj2 (Hf rk id d))
      (mkWorld (default fresh_db (st !! slug (a_identity a))) (ingest_faults env)) Hs) as Hk.
    destruct (ingest_forwarded _ _ _ _ _ _) as [r w]. cbn in *. by rewrite lookup_insert_eq.
  - destruct (ingest_forwarded _ _ _ _ _ _) as [r w]. cbn. by rewrite lookup_insert_ne.
Qed.


(** An acknowledgement means the event is settled. *)
Lemma ingest_task_settles a e env st o :
  (∀ key, store_ok (store_of st key)) → fair (ingest_rivals env) →
  (ingest_task body_sha a e env st).1 = Some (Ok o) →
  settled (receipt_of e) (memory_id o)
    (store_of (ingest_task body_sha a e env st).2 (slug (a_identity a))).
Proof using.
  intros Hok Hf Ho.
  pose proof (ingest_db_keeps store_ok a e env st (fair_store_ok _ Hf) Hok (slug (a_identity a))) as Hk.
  unfold ingest_task in *. destruct (store_opens env); [|done].
  pose proof (ingest_spec body_sha (open_project (a_identity a)) (ingest_now env)
    (ingest_rivals env) (forwarded_event e)
    (mkWorld (store_of st (slug (a_identity a))) (ingest_faults env))) as Hs.
  destruct (ingest_forwarded _ _ _ _ _ _) as [r w]. cbn in Ho, Hk |- *. injection Ho as ->.
  split; [done|]. left. unfold store_of. rewrite lookup_insert_eq. cbn.
  change (receipt_of e) with (receipt_key (forwarded_event e)).
  destruct (inserted o); [|by destruct Hs].
  destruct Hs as (secs & _ & Hid & _ & ->). cbn. rewrite Hid, lookup_insert_eq. eauto.
Qed.

Lemma handle_keeps req env st : (∀ key, store_ok (store_of st key)) → fair (ingest_rivals env) →
  (∀ key, store_ok (store_of (handle req env st).2 key)) ∧
  (∀ key rk id, settled rk id (store_of st key) → settled rk id (store_of (handle req env st).2 key)).
Proof using.
  intros Hok Hf. unfold handle, Collector.handle.
  destruct (authorize to_str bindings req) as [|a]; [done|]. unfold ingest.
  destruct (extract (body req)) as [|e]; [done|]. destruct (validate e); [done|].
  destruct (_ || _); [done|].
  pose proof (ingest_db_keeps store_ok a e env st (fair_store_ok _ Hf) Hok) as H1.
  pose proof (λ key rk id, ingest_db_settled rk id a e env st key Hf) as H2.
  by destruct (ingest_task _ _ _ _ st) as [answer st'].
Qed.

Lemma handle_acknowledges req env st ack : (∀ key, store_ok (store_of st key)) →
  fair (ingest_rivals env) → (handle req env st).1 = inr ack →
  ∃ e, event_of_text (body req) = Some e ∧ secured (handle req env st).2 e.
Proof using ExtractLaws0.
  intros Hok Hf. unfold handle, Collector.handle.
  destruct (authorize to_str bindings req) as [|a] eqn:Ha; [done|].
  apply authorize_bound in Ha as (b & Hb & ->). unfold ingest.
  destruct (extract (body req)) as [|e] eqn:He; [done|]. destruct (validate e); [done|].
  cbn [a_pair authorized_as].
  destruct (str_eqb (we_guest_id e) _) eqn:Hg; cbn; [|done].
  destruct (str_eqb (we_project e) _) eqn:Hp; cbn; [|done].
  pose proof (ingest_task_settles (authorized_as b) e env st) as Hs.
  destruct (ingest_task _ _ _ _ st) as [answer st']. cbn.
  destruct (timed_out env); [done|]. destruct answer as [[o|]|]; [|done|done]. intros _.
  exists e. split; [by apply extract_event|]. exists b, (memory_id o). split; [done|].
  split; [|by apply Hs]. apply str_eqb_eq in Hg, Hp. unfold pair_of. rewrite Hg, Hp.
  by destruct (b_pair b).
Qed.

Lemma handle_refuses req env st status : (handle req env st).1 = inl status →
  is_success status = false.
Proof using ExtractLaws0.
  unfold handle, Collector.handle.
  destruct (authorize to_str bindings req) as [s|a] eqn:Ha.
  { intros [= <-]. unfold authorize in Ha. destruct (has_origin req); [by injection Ha as <-|].
    destruct (foldl _ _ _); [done|by injection Ha as <-]. }
  unfold ingest. destruct (extract (body req)) as [s|e] eqn:He.
  { intros [= <-]. apply extract_rejects in He. unfold is_success.
    apply orb_true_iff in He as [He|He].
    - apply N.ltb_lt in He. by rewrite (proj2 (N.leb_gt _ _) He).
    - apply N.leb_le in He. rewrite (proj2 (N.ltb_ge _ _) He). by rewrite andb_false_r. }
  destruct (validate e); [by intros [= <-]|]. destruct (_ || _); [by intros [= <-]|].
  destruct (ingest_task _ _ _ _ st) as [answer st']. destruct (timed_out env); [by intros [= <-]|].
  destruct answer as [[o|]|]; [done|by intros [= <-]..].
Qed.

Lemma read_ack_refused e status : is_success status = false →
  ∀ ack, read_ack e (response_of (inl status)) ≠ inr ack.
Proof using. intros Hs ack. unfold read_ack, Forward.read_ack. cbn. by rewrite Hs. Qed.

(** *** Every step keeps the invariant *)

(** What the steps that leave the spool and the accepted events alone need. *)
Lemma ok_with_stores s st : system_ok s → (∀ key, store_ok (store_of st key)) →
  (∀ key rk id, settled rk id (store_of (stores s) key) → settled rk id (store_of st key)) →
  system_ok (mkSystem (sys_spool s) st (accepted s) (sent s) (answers s)).
Proof using.
  intros [Hst (q & Hq & Hin & Hall) Hids Hsent Hans Hansd] Hok Hm. split; cbn; try done.
  - exists q. split; [done|]. split; [done|]. intros e He.
    destruct (Hall e He); [by left|]. right. by eapply secured_mono.
  - intros text response e ack Ht He Heq Hr. eapply secured_mono; [done|]. by eapply Hans.
Qed.

Lemma ok_with_queue s spool' q' : system_ok s → holds spool' q' →
  (∀ e, queued e q' → e ∈ accepted s) →
  (∀ e, e ∈ accepted s → queued e q' ∨ secured (stores s) e) →
  system_ok (mkSystem spool' (stores s) (accepted s) (sent s) (answers s)).
Proof using. intros [Hst _ Hids Hsent Hans Hansd] Hq Hin Hall. split; try done. by exists q'. Qed.

Lemma ok_enqueue s e spool' : system_ok s → valid_event e →
  enqueue (sys_spool s) e = inr spool' →
  (∀ e', e' ∈ accepted s → we_event_id e' = we_event_id e → pair_of e' = pair_of e) →
  system_ok (mkSystem spool' (stores s) (e :: accepted s) (sent s) (answers s)).
Proof using WireJsonLaws0.
  intros [Hst (q & [Hsp Hq] & Hin & Hall) Hids Hsent Hans Hansd] Hv Henq Huniq.
  pose proof (enqueue_rows q e) as Hr. rewrite <-Hsp in Hr.
  destruct (q_enqueue q e) as [q'|] eqn:Hqe; [|destruct Hr; congruence].
  rewrite Henq in Hr. injection Hr as ->.
  destruct (q_enqueue_ok q e q' Hv Hq Hqe) as (Hok & He & Hkeep & Hnew). split; cbn; [done|..].
  - exists q'. split; [done|]. split.
    + intros e' He'. apply elem_of_cons. destruct (Hnew e' He'); auto.
    + intros e' [->|He']%elem_of_cons; [by left|]. destruct (Hall e' He'); auto.
  - intros e1 e2 [->|H1]%elem_of_cons [->|H2]%elem_of_cons Hid; [done| | |by apply Hids].
    + symmetry. by apply Huniq.
    + by apply Huniq.
  - intros token text Hts. destruct (Hsent _ _ Hts) as (e' & ? & ?). exists e'.
    split; [by right|done].
  - intros text response e' ack Ha [->|He']%elem_of_cons Ht Hr; [|by eapply Hans].
    destruct (Hansd _ _ Ha) as (e0 & He0 & Ht0). eapply Hans; [done| |exact Ht|done].
    assert (e = e0) as -> by (apply to_text_inj; congruence). done.
  - intros text response Ha. destruct (Hansd _ _ Ha) as (e' & ? & ?). exists e'.
    split; [by right|done].
Qed.

Lemma ok_handle s token text env r stores' : system_ok s → (token, text) ∈ sent s →
  fair (ingest_rivals env) → handle (request token text) env (stores s) = (r, stores') →
  system_ok (mkSystem (sys_spool s) stores' (accepted s) (sent s) ((text, response_of r) :: answers s)).
Proof using WireJsonLaws0 ExtractLaws0.
  intros Hs Hsent0 Hf Hh.
  destruct (handle_keeps (request token text) env (stores s) (sys_stores s Hs) Hf) as [Hok Hm].
  pose proof (handle_acknowledges (request token text) env (stores s)) as Hack.
  pose proof (handle_refuses (request token text) env (stores s)) as Href.
  rewrite Hh in *. cbn in *.
  destruct (ok_with_stores s stores' Hs Hok Hm) as [Hst Hq Hids Hsent Hans Hansd]. cbn in *.
  destruct (Hsent _ _ Hsent0) as (e0 & He0 & ->). split; cbn; try done.
  - intros text response e ack [[= -> ->]|Ha]%elem_of_cons He Ht Hr; [|by eapply Hans].
    apply to_text_inj in Ht as ->. destruct r as [status|ack'].
    { exfalso. by apply (read_ack_refused e status (Href status eq_refl) ack). }
    destruct (Hack ack' (sys_stores s Hs) Hf eq_refl) as (e' & He' & Hsec).
    rewrite event_of_to_text in He'. by injection He' as <-.
  - intros text response [[= -> ->]|Ha]%elem_of_cons; [by exists e0|by eapply Hansd].
Qed.

Lemma ok_host s key op faults : system_ok s → fair (op_rivals op) →
  let d' := db (run_op body_sha op (mkWorld (store_of (stores s) key) faults)).2 in
  system_ok (mkSystem (sys_spool s) (<[key := d']> (stores s)) (accepted s) (sent s) (answers s)).
Proof using.
  intros Hs Hf d'. apply ok_with_stores; [done|..].
  - intros k. unfold store_of. destruct (decide (k = key)) as [->|Hne].
    + rewrite lookup_insert_eq. cbn. unfold d'.
      apply (si_run_op store_ok body_sha); [by apply fair_store_ok|]. apply (sys_stores s Hs key).
    + rewrite lookup_insert_ne by done. apply (sys_stores s Hs k).
  - intros k rk id Hset. unfold store_of. destruct (decide (k = key)) as [->|Hne].
    + rewrite lookup_insert_eq. cbn. unfold d'.
      apply (si_run_op (settled rk id) body_sha); [|done]. intros d. apply (Hf rk id d).
    + by rewrite lookup_insert_ne.
Qed.

Lemma step_ok s s' : system_ok s → step s s' → system_ok s'.
Proof using WireJsonLaws0 ExtractLaws0.
  intros Hs Hstep. destruct Hstep as [e spool' Hv Henq Huniq|e token He|token text env r stores' Hsent Hf Hh
    |e response ack He Ha Hr|key count now spool' Hret|key op faults Hf].
  - by apply ok_enqueue.
  - destruct Hs as [Hst Hq Hids Hsent Hans Hansd]. split; cbn; try done.
    intros token' text [[= -> ->]|Hin]%elem_of_cons; [by exists e|by eapply Hsent].
  - by eapply ok_handle.
  - destruct (sys_queue s Hs) as (q & [Hsp Hq] & Hin & Hall).
    apply (ok_with_queue s _ (q_delivered q (we_event_id e))); [done| | |].
    + rewrite Hsp, delivered_rows. by split; [|apply q_delivered_ok].
    + intros e' [? _]%q_delivered_queued. by apply Hin.
    + intros e' He'. destruct (Hall e' He') as [Hqd|]; [|by right].
      destruct (decide (we_event_id e' = we_event_id e)) as [Hid|Hne].
      * right. apply (same_receipt s e e'); [done..|]. by eapply (sys_answers s Hs).
      * left. by apply q_delivered_queued.
  - destruct (sys_queue s Hs) as (q & [Hsp Hq] & Hin & Hall). rewrite Hsp, retry_rows in Hret.
    destruct (now_millis now) as [|ms]; [done|]. cbn in Hret. injection Hret as <-.
    apply (ok_with_queue s _ (q_retry q key count ms)); [done|by split; [|apply q_retry_ok]| |].
    + intros e He. apply Hin. by apply q_retry_queued in He.
    + intros e He. destruct (Hall e He); [left|by right]. by apply q_retry_queued.
  - by apply ok_host.
Qed.

(** Systems that started with an empty spool and sound stores. *)
Definition reachable_system (s : System) : Prop :=
  ∃ st, (∀ key, store_ok (store_of st key)) ∧ rtc step (mkSystem [] st [] [] []) s.

Lemma start_ok st : (∀ key, store_ok (store_of st key)) → system_ok (mkSystem [] st [] [] []).
Proof using.
  intros Hst. split; cbn; try done; try (intros; by apply not_elem_of_nil in H1).
  all: try (by intros ? ? ?%not_elem_of_nil); try (by intros ? ? ? ? ?%not_elem_of_nil).
  exists []. split; [split; [done|]|].
  - split; [by intros en ?%not_elem_of_nil|constructor].
  - split; [by intros e (en & ?%not_elem_of_nil & _)|by intros e ?%not_elem_of_nil].
Qed.

Lemma reachable_system_ok s : reachable_system s → system_ok s.
Proof using WireJsonLaws0 ExtractLaws0.
  intros (st & Hst & Hrun). apply start_ok in Hst. remember (mkSystem [] st [] [] []) as s0 eqn:E.
  clear E. induction Hrun as [|s1 s2 s3 Hstep _ IH]; [done|]. apply IH. by eapply step_ok.
Qed.


(** ** The guest's commands are such steps *)

(** What becomes of a request: it is lost, or it reaches the collector, whose answer may
    be lost in turn. *)
Inductive Fate :=
| Lost (error : str)
| Reached (env : IngestEnv) (reply_lost : option str).

Definition fair_fate (f : Fate) : Prop :=
  match f with Lost _ => True | Reached env _ => fair (ingest_rivals env) end.

Record Net := mkNet {
  n_stores : gmap str Db;
  n_sent : list (str * str);
  n_answers : list (str * Response);
  n_posts : nat;
}.

Context (fate : nat → Fate).

Definition post (n : Net) (url token text : str) : Response * Net :=
  match fate (n_posts n) with
  | Lost error =>
      (inl error, mkNet (n_stores n) ((token, text) :: n_sent n) (n_answers n) (S (n_posts n)))
  | Reached env reply_lost =>
      let '(r, st) := handle (request token text) env (n_stores n) in
      (match reply_lost with Some error => inl error | None => response_of r end,
       mkNet st ((token, text) :: n_sent n) ((text, response_of r) :: n_answers n) (S (n_posts n)))
  end.

Context (parse_url : str → option Url) (env : nat → TaskEnv).

#[local] Abbreviation G := (Guest Net).
#[local] Abbreviation flush_to_url := (flush_to_url post show_status env).
#[local] Abbreviation enqueue_and_deliver := (enqueue_and_deliver post parse_url show_status env).

Definition system_of (acc : list WireEvent) (g : G) : System :=
  mkSystem (spool g) (n_stores (net g)) acc (n_sent (net g)) (n_answers (net g)).

Section Commands.
Hypothesis fates_fair : ∀ k, fair_fate (fate k).

Lemma post_steps acc url token e spool0 tick0 n : e ∈ acc →
  let '(response, n') := post n url token (to_text e) in
  rtc step (system_of acc (mkGuest spool0 tick0 n)) (system_of acc (mkGuest spool0 tick0 n')) ∧
  ∀ ack, read_ack e response = inr ack → (to_text e, response) ∈ n_answers n'.
Proof using fates_fair.
  intros He. unfold post. pose proof (fates_fair (n_posts n)) as Hf.
  set (s0 := system_of acc (mkGuest spool0 tick0 n)).
  pose proof (step_post s0 e token He) as Hpost.
  destruct (fate (n_posts n)) as [error|ienv reply].
  { split; [|done]. by apply rtc_once. }
  destruct (handle (request token (to_text e)) ienv (n_stores n)) as [r st] eqn:Hh. split.
  - eapply rtc_l; [exact Hpost|]. apply rtc_once.
    apply (step_handle (mkSystem _ _ _ ((token, to_text e) :: _) _) token (to_text e) ienv r st);
      [by left|done|done].
  - destruct reply; [done|]. intros ack _. by left.
Qed.

Lemma task_system {A} f (g : G) :
  (∃ m, task env (A := A) f g = (inl m, mkGuest (spool g) (S (tick g)) (net g))) ∨
  ∃ a s', f (env (tick g)) (spool g) = inr (a, s') ∧
    task env f g = (inr a, mkGuest s' (S (tick g)) (net g)).
Proof using.
  unfold task. destruct (task_fault _); [by left; eexists|].
  destruct (f (env (tick g)) (spool g)) as [|[a s']] eqn:E; [by left; eexists|].
  right. by exists a, s'.
Qed.

Lemma delivered_steps acc e response ack (g : G) : e ∈ acc →
  (to_text e, response) ∈ n_answers (net g) → read_ack e response = inr ack →
  rtc step (system_of acc g) (system_of acc (run_delivered env (we_event_id e) g).2).
Proof using.
  intros He Ha Hr. unfold run_delivered.
  destruct (task_system (λ _ s, inr (tt, Spool.delivered s (we_event_id e))) g)
    as [[m Hg]|(a & s' & [= <- <-] & Hg)]; rewrite Hg; [done|].
  apply rtc_once. by apply (step_delivered (system_of acc g) e response ack).
Qed.

Lemma retry_steps acc key count (g : G) :
  rtc step (system_of acc g) (system_of acc (run_retry env key count g).2).
Proof using.
  unfold run_retry.
  destruct (task_system (λ t s, s' ← retry s key count (since_epoch t); inr (tt, s')) g)
    as [[m Hg]|(a & s' & Hs & Hg)]; rewrite Hg; [done|].
  apply bind_inr in Hs as (s1 & Hs & [= <- <-]). apply rtc_once.
  by apply (step_retry (system_of acc g) key count (since_epoch (env (tick g)))).
Qed.

Lemma deliver_batch_steps acc url token batch : ∀ sent0 failures last_error (g : G),
  (∀ item, item ∈ batch → event item ∈ acc) →
  rtc step (system_of acc g)
    (system_of acc (deliver_batch post show_status env url token sent0 failures last_error batch g).2).
Proof using fates_fair.
  induction batch as [|item batch IH]; intros sent0 failures le g Hb; [done|].
  cbn [deliver_batch]. unfold mbind, Run_bind, send_one.
  pose proof (post_steps acc url token (event item) (spool g) (tick g) (net g) (Hb item ltac:(left)))
    as Hp.
  destruct (post (net g) url token (to_text (event item))) as [response n'].
  destruct Hp as [Hsteps Hans]. set (g1 := mkGuest (spool g) (tick g) n') in *.
  replace (mkGuest (spool g) (tick g) (net g)) with g in Hsteps by (by destruct g).
  etrans; [exact Hsteps|].
  assert (Hrest : ∀ it, it ∈ batch → event it ∈ acc) by (intros it Hit; apply Hb; by right).
  destruct (read_ack (event item) response) as [error|ack] eqn:Hr.
  - pose proof (retry_steps acc (we_event_id (event item)) (saturating_add_u32 (attempts item) 1) g1)
      as Ht.
    destruct (run_retry env _ _ g1) as [[e|u] g2]; [done|]. etrans; [exact Ht|]. by apply IH.
  - pose proof (delivered_steps acc (event item) response ack g1 (Hb item ltac:(left))
      (Hans ack eq_refl) Hr) as Ht.
    destruct (run_delivered env _ g1) as [[e|u] g2]; [done|]. etrans; [exact Ht|]. by apply IH.
Qed.

Lemma flush_steps acc url token selection (g : G) q : holds (spool g) q →
  (∀ e, queued e q → e ∈ acc) →
  rtc step (system_of acc g) (system_of acc (flush_to_url url token selection g).2).
Proof using fates_fair WireJsonLaws0.
  intros Hg Hq. unfold flush_to_url, Forward.flush_to_url, mbind, Run_bind.
  rewrite (run_select_rows env g q) by done. destruct (task_fault _); [done|].
  destruct (q_select q _ selection) as [|batch] eqn:Hsel; [done|].
  destruct Hg as [_ Hok]. destruct (q_select_deliverable _ _ _ _ Hok Hsel) as [_ Hb].
  pose proof (deliver_batch_steps acc url token batch 0 0 None
    (mkGuest (spool g) (S (tick g)) (net g))) as Hd.
  destruct (deliver_batch _ _ _ _ _ _ _ _ batch _) as [[e|[[s f] le]] g'];
    [by apply Hd; auto|].
  destruct (0 <? f); apply Hd; auto.
Qed.


Lemma flush_reachable acc endpoint token force (g : G) : reachable_system (system_of acc g) →
  reachable_system (system_of acc (flush post parse_url show_status env endpoint token force g).2).
Proof using fates_fair WireJsonLaws0 ExtractLaws0.
  intros Hr. pose proof (reachable_system_ok _ Hr) as Hok.
  destruct (sys_queue _ Hok) as (q & Hq & Hin & _). destruct Hr as (st & Hst & Hrun).
  exists st. split; [done|]. etrans; [exact Hrun|].
  unfold flush, Forward.flush, mbind, Run_bind, run_sum.
  destruct (validate_token token); [done|]. destruct (collector_url _ _); [done|].
  by apply (flush_steps acc _ _ _ g q).
Qed.

Lemma flushes_reachable acc endpoint token k : ∀ (g : G), reachable_system (system_of acc g) →
  reachable_system (system_of acc (flushes post parse_url show_status env endpoint token k g)).
Proof using fates_fair WireJsonLaws0 ExtractLaws0.
  induction k as [|k IH]; intros g Hg; [done|]. cbn. by apply IH, flush_reachable.
Qed.
End Commands.

(** ** With both sides up, everything arrives *)

Section Up.
Context `{!HeaderLaws to_str}.
Context (b : Binding).

(** A request that meets no fault. *)
Definition smooth (ienv : IngestEnv) : Prop :=
  store_opens ienv = true ∧ is_ok (ingest_now ienv) = true ∧ ingest_faults ienv = [] ∧
  (∀ d, ingest_rivals ienv d = d) ∧ timed_out ienv = false.

(** The collector holds the guest's token, which is visible ASCII; every request reaches
    it and comes back; the guest's tasks succeed. *)
Record up : Prop := {
  up_binding : b ∈ bindings;
  up_separated : separated bindings;
  up_token : forallb visible_ascii (b_token b) = true;
  up_fate : ∀ k, ∃ ienv, fate k = Reached ienv None ∧ smooth ienv;
  up_tasks : ∀ t, task_fault (env t) = None;
}.

(** The queued events the store has no receipt for yet. *)
Definition unsettled (q : list Entry) (d : Db) : list Entry :=
  List.filter (λ en, bool_decide (forwarded_event_receipts d !! receipt_of (en_event en) = None)) q.

(** The store has row ids left for the unsettled events. *)
Definition roomy (q : list Entry) (st : gmap str Db) : Prop :=
  (∀ key, store_ok (store_of st key)) ∧
  (sequence (store_of st (slug (b_identity b))) +
     Z.of_nat (length (unsettled q (store_of st (slug (b_identity b))))) ≤ i64_max)%Z.

Lemma visible_as_bytes s : forallb visible_ascii s = true → as_bytes s = s.
Proof using.
  induction s as [|c s IH]; [done|]. cbn. intros [Hc Hs]%andb_true_iff.
  unfold as_bytes in *. cbn. rewrite IH by done. unfold encode_char.
  assert (c < 128) as Hlt.
  { unfold visible_ascii in Hc. apply orb_true_iff in Hc as [Hc|Hc].
    - apply andb_true_iff in Hc as [_ Hc%N.ltb_lt]. lia.
    - apply N.eqb_eq in Hc. lia. }
  by rewrite (proj2 (N.ltb_lt _ _) Hlt).
Qed.

Lemma up_authorized text : up →
  authorize to_str bindings (request (b_token b) text) = inr (authorized_as b).
Proof using HeaderLaws0.
  intros Hup. apply authorize_spec; [apply (up_separated Hup)|]. split; [done|].
  exists b. split; [apply (up_binding Hup)|]. split; [|done].
  pose proof (up_token Hup) as Ht.
  assert (Hvis : forallb visible_ascii ($"Bearer " ++ b_token b) = true)
    by (rewrite forallb_app, Ht; reflexivity).
  exists ($"Bearer " ++ b_token b), ($"Bearer " ++ b_token b), (b_token b).
  split; [cbn [authorization request]; by rewrite visible_as_bytes|]. split.
  - rewrite (to_str_visible (to_str := to_str)). by rewrite Hvis.
  - split; [|done]. apply strip_prefix_app.
Qed.

(** A delivery nothing disturbs succeeds. *)
Lemma ingest_succeeds self now rivals e d : is_ok now = true →
  is_empty (event_id e) || is_empty (source_guest e) || is_empty (source_project e) = false →
  (forwarded_event_receipts d !! receipt_key e = None → (sequence d < i64_max)%Z) →
  ∃ o w', ingest_forwarded body_sha self now rivals e (mkWorld d []) = (Ok o, w').
Proof using.
  intros Hn He Hroom. unfold ingest_forwarded. rewrite He.
  unfold forwarded_receipt_memory_id, update, query, mbind, Sql_bind at 1, stmt at 1. cbn.
  unfold Sql_bind at 1. cbn. destruct (forwarded_event_receipts d !! receipt_key e) as [[i at_]|] eqn:Hk;
    cbn; [by eexists _, _|].
  destruct now as [secs|]; [|done]. unfold Sql_bind, lift. cbn.
  unfold attempt, transaction, insert_forwarded_rows, insert_memory, fts_insert, insert_receipt,
    update, stmt, mbind, Sql_bind. cbn.
  destruct (Z.leb_spec i64_max (sequence d)); [specialize (Hroom eq_refl); lia|]. cbn.
  rewrite Hk. unfold has_memory. cbn. rewrite lookup_insert_eq, bool_decide_eq_true_2 by eauto.
  cbn. by eexists _, _.
Qed.

Lemma receipt_positive d key id at_ : store_ok d →
  forwarded_event_receipts d !! key = Some (id, at_) → (0 < id)%Z.
Proof using. intros Hok Hk. by apply (ok_receipts d Hok), (ok_ids d Hok) in Hk as []. Qed.

Lemma unsettled_insert q d d' e v : queued e q →
  forwarded_event_receipts d !! receipt_of e = None →
  forwarded_event_receipts d' = <[receipt_of e := v]> (forwarded_event_receipts d) →
  (length (unsettled q d') < length (unsettled q d))%nat.
Proof using.
  intros (en & Hin & <-) Hnone Hd'. unfold unsettled. rewrite Hd'.
  assert (Hle : ∀ l, (length (List.filter (λ en', bool_decide
      (<[receipt_of (en_event en) := v]> (forwarded_event_receipts d) !! receipt_of (en_event en') = None)) l)
    ≤ length (List.filter (λ en', bool_decide
      (forwarded_event_receipts d !! receipt_of (en_event en') = None)) l))%nat).
  { induction l as [|x l IH]; [done|]. cbn. case_bool_decide as Hx; cbn.
    - apply lookup_insert_None in Hx as [Hx _]. rewrite bool_decide_eq_true_2 by done. cbn. lia.
    - case_bool_decide; cbn; lia. }
  induction q as [|x q IH]; [by apply not_elem_of_nil in Hin|]. specialize (Hle q). cbn.
  apply elem_of_cons in Hin as [->|Hin].
  - rewrite lookup_insert_eq, bool_decide_eq_false_2, bool_decide_eq_true_2 by done. cbn. lia.
  - specialize (IH Hin). case_bool_decide as Hx; cbn.
    + apply lookup_insert_None in Hx as [Hx _]. rewrite bool_decide_eq_true_2 by done. cbn. lia.
    + case_bool_decide; cbn; lia.
Qed.

Lemma unsettled_same q d d' : forwarded_event_receipts d' = forwarded_event_receipts d →
  unsettled q d' = unsettled q d.
Proof using. unfold unsettled. by intros ->. Qed.

(** One smooth delivery of a queued event keeps the store roomy and names a row. *)
Lemma smooth_task q e ienv st : queue_ok q → queued e q → smooth ienv → roomy q st →
  let '(answer, st') := ingest_task body_sha (authorized_as b) e ienv st in
  roomy q st' ∧ ∃ o, answer = Some (Ok o) ∧ (0 < memory_id o)%Z.
Proof using.
  intros Hq He (Hopen & Hnow & Hfaults & Hrivals & _) [Hok Hroom].
  assert (Hf : fair (ingest_rivals ienv)) by (intros key id d; by rewrite Hrivals).
  pose proof (ingest_db_keeps store_ok (authorized_as b) e ienv st (fair_store_ok _ Hf) Hok) as Hk.
  unfold ingest_task in *. rewrite Hopen, Hfaults in *. cbn [a_identity authorized_as] in *.
  set (key := slug (b_identity b)) in *. set (d := store_of st key) in *.
  assert (Hv : valid_event e) by (destruct He as (en & Hin & <-); by apply (queue_valid q Hq)).
  assert (Hne : is_empty (event_id (forwarded_event e)) || is_empty (source_guest (forwarded_event e))
    || is_empty (source_project (forwarded_event e)) = false).
  { cbn. by rewrite !valid_identifier_nonempty by apply Hv. }
  pose proof (ingest_spec body_sha (open_project (b_identity b)) (ingest_now ienv)
    (ingest_rivals ienv) (forwarded_event e) (mkWorld d [])) as Hs.
  destruct (ingest_succeeds (open_project (b_identity b)) (ingest_now ienv) (ingest_rivals ienv)
    (forwarded_event e) d Hnow Hne) as (o & w & Hin).
  { intros Hnone. assert (length (unsettled q d) ≠ 0)%nat; [|lia]. intros Hz.
    apply nil_length_inv in Hz. destruct He as (en & Hen & <-).
    assert (en ∈ unsettled q d) as Hu.
    { apply elem_of_filter_bool. split; [by apply bool_decide_eq_true_2|done]. }
    rewrite Hz in Hu. by apply not_elem_of_nil in Hu. }
  rewrite Hin in *. cbn in *.
  specialize (Hk key) as Hkey. unfold store_of in Hkey. rewrite lookup_insert_eq in Hkey. cbn in Hkey.
  unfold roomy. split; [split; [exact Hk|]|].
  - unfold store_of. fold key. rewrite lookup_insert_eq. cbn. destruct (inserted o).
    + destruct Hs as (secs & _ & _ & [Hnone Hlt] & Hw). rewrite Hw. cbn.
      pose proof (unsettled_insert q d (db w) e _ He Hnone ltac:(by rewrite Hw)) as Hless.
      rewrite Hw in Hless. lia.
    + assert (db w = d) as -> by (destruct Hs as [[?|Hw] _]; [done|by rewrite Hw, Hrivals]). lia.
  - exists o. split; [done|]. destruct (inserted o).
    + destruct Hs as (secs & _ & -> & _ & _). pose proof (ok_sequence d (Hok key)). lia.
    + destruct Hs as (_ & at_ & Hat). by eapply receipt_positive.
Qed.

Lemma up_working q : up → queue_ok q → (∀ e, queued e q → pair_of e = b_pair b) →
  ∀ url, working post show_status env (λ n, roomy q (n_stores n)) (λ e, queued e q) url (b_token b).
Proof using WireJsonLaws0 ExtractLaws0 HeaderLaws0.
  intros Hup Hq Hpair url. split; [apply (up_tasks Hup)|]. intros n e Hn He.
  assert (Hv : valid_event e) by (destruct He as (en & Hin & <-); by apply (queue_valid q Hq)).
  unfold post. destruct (up_fate Hup (n_posts n)) as (ienv & -> & Hsm).
  unfold handle, Collector.handle. rewrite up_authorized by done. cbn [body request].
  rewrite extract_accepts by apply Hv. unfold ingest. rewrite (proj2 (validate_spec e) Hv).
  pose proof (Hpair e He) as Hp. cbn [a_pair authorized_as]. rewrite <-Hp. cbn [guest_id project pair_of].
  rewrite !(proj2 (str_eqb_eq _ _) eq_refl). cbn [negb orb].
  pose proof (smooth_task q e ienv (n_stores n) Hq He Hsm Hn) as Ht.
  destruct (ingest_task _ _ _ _ _) as [answer st']. destruct Ht as (Hroomy & o & -> & Hpos).
  destruct Hsm as (_ & _ & _ & _ & ->). cbn. split; [done|].
  unfold read_ack, Forward.read_ack, response_of. cbn. rewrite ack_of_to_text. cbn.
  by rewrite (proj2 (Z.leb_gt _ _) Hpos).
Qed.

End Up.
End Delivery.

(** ** Two events on their way *)

Module DeliveryDemo.
Export CollectorDemo.

Definition show (n : N) : str := show_N n.
Definition note2 : WireEvent := mkWire $"e2" $"laptop" $"app" $"note" $"world" None None.
Definition queue : list Entry := [mkEntry note 0 0; mkEntry note2 0 0].
Definition acc : list WireEvent := [note2; note].
Definition fate (k : nat) : Fate := Reached env None.
(** The first answer is lost, the second request too, then all goes well. *)
Definition bumpy (k : nat) : Fate :=
  match k with
  | 0%nat => Reached env (Some $"connection reset")
  | 1%nat => Lost $"connection refused"
  | _ => Reached env None
  end.
Definition tasks (t : nat) : TaskEnv := mkTask None (inr 5000).
Definition parse (s : str) : option Url := Some (mkUrl $"http" (Some s) [] None None None).
Definition guest : Guest Net := mkGuest (map row_of queue) 0 (mkNet ∅ [] [] 0).

Lemma demo_queue_ok : queue_ok queue.
Proof.
  split.
  - intros en Hin. apply validate_spec.
    repeat (apply elem_of_cons in Hin as [->|Hin]; [vm_compute; reflexivity|]).
    by apply not_elem_of_nil in Hin.
  - apply (bool_decide_unpack _). vm_compute. exact I.
Qed.

Lemma env_fair : fair (ingest_rivals env).
Proof. by intros key id d. Qed.

#[local] Abbreviation reachable_system := (reachable_system id to_str extract show bindings).

Lemma guest_reachable : reachable_system (system_of acc guest).
Proof.
  exists ∅. split; [intros key; apply fresh_db_ok|].
  eapply rtc_l.
  { apply (step_enqueue id to_str extract show bindings (mkSystem [] ∅ [] [] []) note).
    - apply validate_spec. vm_compute. reflexivity.
    - vm_compute. reflexivity.
    - intros e' He'. by apply not_elem_of_nil in He'. }
  apply rtc_once.
  apply (step_enqueue id to_str extract show bindings (mkSystem _ ∅ [note] [] []) note2).
  - apply validate_spec. vm_compute. reflexivity.
  - vm_compute. reflexivity.
  - intros e' ->%list_elem_of_singleton Hid. vm_compute in Hid. discriminate Hid.
Qed.

Lemma fates_fair k : fair_fate (fate k).
Proof. exact env_fair. Qed.

Lemma both_up : up bindings fate tasks laptop.
Proof.
  split.
  - right. left.
  - exact bindings_separated.
  - vm_compute. reflexivity.
  - intros k. exists env. split; [reflexivity|]. by repeat split.
  - reflexivity.
Qed.
End DeliveryDemo.

Section DeliveryWitnesses.
Import DeliveryDemo.



(** Over the bumpy wire nothing is acknowledged, and both events stay queued. *)
Definition flushed : Guest Net :=
  (flush_to_url (post id to_str extract bindings bumpy) show tasks
     $"http://c/v1/events" $"pass-1" (Due None 100 false) guest).2.

Lemma bumpy_fair k : fair_fate (bumpy k).
Proof. destruct k as [|[|k]]; [exact env_fair|exact Logic.I|exact env_fair]. Qed.


End DeliveryWitnesses.
