(* ===== verification/Files.v ===== *)
(** * Whole files and directories

    The calls of [std::fs] and [std::path] that read or write a file by name, follow
    links to it, or make a chain of directories, over the tree of [Fs]; what looking a
    path up says after the tree has grown; and reading a run backwards when no call
    fails from outside. *)
From stdpp Require Import gmap sets.
From S2P Require Import Prelude Str.
From S2P Require Import Fs.

Definition is_a_directory : IoError := mkIo OtherIo $"Is a directory".

(** ** Looking *)

(** [fs::metadata]: follows links. *)
Definition stat (f : Fs) (p : Path) : IoError + Node :=
  match resolve f p with
  | inl e => inl e
  | inr q => match f !! q with Some n => inr n | None => inl not_found end
  end.
Definition metadata (p : Path) : Act IoError Node := look (λ f, stat f p).

(** [Path::exists], [Path::is_dir] and [Path::is_file]: any failure is no. *)
Definition holds_at {E} (t : Node → bool) (p : Path) : Act E bool :=
  found ← try_ (metadata p);
  mret (match found with inr n => t n | inl _ => false end).
Definition exists_ {E} : Path → Act E bool := holds_at (λ _, true).

(** [fs::read]. *)
Definition read_at (f : Fs) (p : Path) : IoError + list N :=
  match resolve f p with
  | inl e => inl e
  | inr q => match f !! q with
             | Some (mkNode (File contents) _ _) => inr contents
             | Some _ => inl is_a_directory
             | None => inl not_found
             end
  end.
Definition read (p : Path) : Act IoError (list N) := look (λ f, read_at f p).

(** ** Writing *)

(** Where [open] with [O_CREAT] finds or makes a file: links are followed, the last one
    too, and what it points to need not exist. *)
Fixpoint resolve_new (links : nat) (f : Fs) : Path → Path → IoError + Path :=
  fix go base rest :=
    match rest with
    | [] => inr base
    | c :: rest' =>
        if str_eqb c dotdot then go (removelast base) rest'
        else
          match f !! (base ++ [c]) with
          | None => match rest' with [] => inr (base ++ [c]) | _ => inl not_found end
          | Some n =>
              match node_kind n with
              | Dir => go (base ++ [c]) rest'
              | File _ => match rest' with
                          | [] => inr (base ++ [c])
                          | _ => inl not_a_directory
                          end
              | Symlink absolute target =>
                  match links with
                  | O => inl link_loop
                  | S links' =>
                      resolve_new links' f (if absolute then [] else base) (target ++ rest')
                  end
              end
          end
    end.

Section Process.
Context (euid umask : N).

(** [File::create]: truncates what is there.  The real path stands for the descriptor. *)
Definition create_file (p : Path) : Act IoError Path :=
  call (λ f,
    match resolve_new MAX_LINKS f [] p with
    | inl e => (inl e, f)
    | inr q =>
        match f !! q with
        | Some n => if is_dir n then (inl is_a_directory, f)
                    else (inr q, <[q := mkNode (File []) (node_uid n) (node_mode n)]> f)
        | None => (inr q, <[q := mkNode (File []) euid (masked umask 438 (* 0o666 *))]> f)
        end
    end).

(** [fs::write]. *)
Definition write_file (wrote : nat) (p : Path) (contents : list N) : Act IoError () :=
  file ← create_file p; write_all wrote file contents.

(** [fs::create_dir]. *)
Definition make_dir (p : Path) : Act IoError () := create_dir euid umask p 511 (* 0o777 *).

(** [fs::create_dir_all], on the components of the path from the last. *)
Fixpoint make_dirs (rp : list str) : Act IoError () :=
  let p := rev rp in
  let made_or_there :=
    made ← try_ (make_dir p);
    match made with
    | inr _ => mret ()
    | inl e => there ← holds_at is_dir p; if (there : bool) then mret () else throw e
    end in
  made ← try_ (make_dir p);
  match made with
  | inr _ => mret ()
  | inl e =>
      if bool_decide (io_kind e = NotFound)
      then match rp with
           | [] => throw (mkIo OtherIo $"failed to create whole tree")
           | _ :: rp' => make_dirs rp' ≫= λ _, made_or_there
           end
      else there ← holds_at is_dir p; if (there : bool) then mret () else throw e
  end.
Definition create_dir_all (p : Path) : Act IoError () := make_dirs (rev p).
End Process.

(** [OpenOptions::append(true).open]. *)
Definition open_append (p : Path) : Act IoError Path :=
  look (λ f, match resolve f p with
             | inl e => inl e
             | inr q => match f !! q with
                        | Some n => if is_dir n then inl is_a_directory else inr q
                        | None => inl not_found
                        end
             end).

(** What a file holds after [bytes] were appended to it. *)
Definition appended (bytes : list N) (n : Node) : Node :=
  mkNode (match node_kind n with File old => File (old ++ bytes) | k => k end)
    (node_uid n) (node_mode n).

(** [File::write_all] on a file opened for appending: [wrote] as in [write_all]. *)
Definition append_all (wrote : nat) (q : Path) (bytes : list N) : Act IoError () := λ w,
  let put b := alter (appended b) q (tree w) in
  match io_faults w with
  | Some e :: fs => (inl e, mkFsWorld (put (take wrote bytes)) fs)
  | None :: fs => (inr (), mkFsWorld (put bytes) fs)
  | [] => (inr (), mkFsWorld (put bytes) [])
  end.

(** [Path::strip_prefix]. *)
Fixpoint strip_path (root p : Path) : option Path :=
  match root, p with
  | [], _ => Some p
  | r :: root', c :: p' => if str_eqb r c then strip_path root' p' else None
  | _ :: _, [] => None
  end.

Lemma strip_path_Some root : ∀ p rel, strip_path root p = Some rel ↔ p = root ++ rel.
Proof.
  induction root as [|r root IH]; intros [|c p] rel; cbn; try (split; congruence).
  destruct (str_eqb r c) eqn:E.
  - apply str_eqb_eq in E as ->. rewrite IH. split; congruence.
  - apply str_eqb_neq in E. split; [done|]. congruence.
Qed.

(** The names in a directory; [fs::read_dir] answers them in some order. *)
Definition children (f : Fs) (q : Path) : list str :=
  omap (λ e, match strip_path q e.1 with Some [c] => Some c | _ => None end) (map_to_list f).
Definition list_dir (f : Fs) (p : Path) : IoError + list str :=
  match resolve f p with
  | inl e => inl e
  | inr q => match f !! q with
             | Some n => if is_dir n then inr (children f q) else inl not_a_directory
             | None => inl not_found
             end
  end.
Definition read_dir (p : Path) : Act IoError (list str) := look (λ f, list_dir f p).

(** A file name cut at its last dot: [Path::file_stem] and [Path::extension]. *)
Definition split_extension (name : str) : str * option str :=
  match split_once_char 46 (rev name) with
  | Some (ext, stem) => if is_empty stem then (name, None) else (rev stem, Some (rev ext))
  | None => (name, None)
  end.

(** ** Looking after the tree has grown *)

Lemma resolve_from_mono links : ∀ f f' rest base q,
  f ⊆ f' → resolve_from links f base rest = inr q → resolve_from links f' base rest = inr q.
Proof.
  induction links as [|links IHl]; intros f f';
    (induction rest as [|c rest IH]; intros base q Hf Hq; [done|]); cbn in Hq |- *;
    (destruct (str_eqb c dotdot); [by apply IH|]);
    (destruct (f !! (base ++ [c])) as [n|] eqn:En; [|done]);
    rewrite (lookup_weaken _ _ _ _ En Hf);
    destruct (node_kind n) as [|contents|absolute target]; try done;
    try (by apply IH); by apply (IHl f f').
Qed.

Lemma resolve_mono f f' p q : f ⊆ f' → resolve f p = inr q → resolve f' p = inr q.
Proof. apply resolve_from_mono. Qed.

Lemma real_dir_mono f f' d : f ⊆ f' → real_dir f d → real_dir f' d.
Proof.
  intros Hf. induction 1 as [|d c n Hd IH Hc Hn Hk]; [constructor|].
  econstructor; [done|done| |exact Hk]. by eapply lookup_weaken.
Qed.

(** A name below a path that leads to a directory is located in that directory. *)
Lemma locate_in f p c dir d : c ≠ dotdot → resolve f p = inr dir → f !! dir = Some d →
  is_dir d = true → locate f (p ++ [c]) = inr (dir ++ [c]).
Proof.
  intros Hc Hr Hd Hk. unfold locate. rewrite last_snoc, removelast_last.
  assert (str_eqb c dotdot = false) as -> by (by apply str_eqb_neq). by rewrite Hr, Hd, Hk.
Qed.

Lemma locate_in_mono f f' p c dir d : f ⊆ f' → c ≠ dotdot → resolve f p = inr dir →
  f !! dir = Some d → is_dir d = true → locate f' (p ++ [c]) = inr (dir ++ [c]).
Proof.
  intros Hf Hc Hr Hd. apply locate_in; [done|by eapply resolve_mono|by eapply lookup_weaken].
Qed.

(** Where a name is located, read backwards. *)
Lemma locate_snoc_inv f p c q : c ≠ dotdot → locate f (p ++ [c]) = inr q →
  ∃ dir d, resolve f p = inr dir ∧ f !! dir = Some d ∧ is_dir d = true ∧ q = dir ++ [c].
Proof.
  intros Hc. unfold locate. rewrite last_snoc, removelast_last.
  assert (str_eqb c dotdot = false) as -> by (by apply str_eqb_neq).
  destruct (resolve f p) as [|dir]; [done|]. destruct (f !! dir) as [d|] eqn:Hd; [|done].
  destruct (is_dir d) eqn:Hk; [|done]. intros [= <-]. by exists dir, d.
Qed.

(** Paths of names only. *)
Definition plain (p : Path) : Prop := Forall (λ c, c ≠ dotdot) p.

Lemma read_only_holds_at {E : Type} (t : Node → bool) p : read_only (holds_at (E := E) t p).
Proof. unfold holds_at, metadata. read_only. Qed.
Lemma read_only_metadata p : read_only (metadata p).
Proof. apply read_only_look. Qed.
Lemma read_only_read p : read_only (read p).
Proof. apply read_only_look. Qed.
#[export] Hint Resolve read_only_holds_at read_only_metadata read_only_read : fs.

(** Going on from either answer. *)
Lemma outcome_bind_try {E F A B : Type} (m : Act F A) (k : F + A → Act E B)
    (P : Fs → Prop) (Q : B → Fs → Prop) (R : E → Fs → Prop) (S : A → Fs → Prop)
    (T : F → Fs → Prop) :
  outcome P m S T → (∀ a, outcome (S a) (k (inr a)) Q R) → (∀ e, outcome (T e) (k (inl e)) Q R) →
  outcome P (try_ m ≫= k) Q R.
Proof.
  intros Hm Hs Ht. eapply outcome_bind with (S := λ r, match r with inr a => S a | inl e => T e end).
  - by apply outcome_try.
  - by intros [e|a].
Qed.

Lemma outcome_ex {E A X : Type} (m : Act E A) (P : X → Fs → Prop) (Q : A → Fs → Prop)
    (R : E → Fs → Prop) : (∀ x, outcome (P x) m Q R) → outcome (λ f, ∃ x, P x f) m Q R.
Proof. intros Hm w [x Hx]. by apply (Hm x). Qed.

(** ** When nothing fails from outside *)

(** The run of [m] from the tree [f] when no call fails from outside. *)
Definition calm {E A : Type} (m : Act E A) (f : Fs) : (E + A) * Fs :=
  let '(r, w) := m (mkFsWorld f []) in (r, tree w).

(** A program that takes the outcomes of its calls in order. *)
Definition steady {E A : Type} (m : Act E A) : Prop :=
  ∀ w, ∃ k, io_faults (m w).2 = drop k (io_faults w).

Lemma steady_run {E A : Type} (m : Act E A) f : steady m →
  m (mkFsWorld f []) = ((calm m f).1, mkFsWorld (calm m f).2 []).
Proof.
  intros Hm. destruct (Hm (mkFsWorld f [])) as [k Hk]. unfold calm.
  destruct (m _) as [r [f' fs]]. cbn in *. rewrite drop_nil in Hk. by subst.
Qed.

Lemma calm_bind {E A B : Type} (m : Act E A) (k : A → Act E B) f : steady m →
  calm (m ≫= k) f =
  match calm m f with
  | (inr a, f') => calm (k a) f'
  | (inl e, f') => (inl e, f')
  end.
Proof.
  intros Hm. pose proof (steady_run m f Hm) as Hr. unfold calm at 1, mbind, Act_bind.
  rewrite Hr. destruct (calm m f) as [[e|a] f']; done.
Qed.

Lemma steady_ret {E A : Type} (a : A) : steady (E := E) (mret a).
Proof. intros w. by exists 0%nat. Qed.
Lemma steady_throw {E A : Type} (e : E) : steady (A := A) (throw e).
Proof. intros w. by exists 0%nat. Qed.
Lemma steady_sum {E A : Type} (r : E + A) : steady (of_sum r).
Proof. intros w. by exists 0%nat. Qed.
Lemma steady_bind {E A B : Type} (m : Act E A) (k : A → Act E B) :
  steady m → (∀ a, steady (k a)) → steady (m ≫= k).
Proof.
  intros Hm Hk w. unfold mbind, Act_bind. destruct (Hm w) as [i Hi].
  destruct (m w) as [[e|a] w']; cbn in *; [by exists i|]. destruct (Hk a w') as [j Hj].
  exists (i + j)%nat. by rewrite Hj, Hi, drop_drop.
Qed.
Lemma steady_call {A : Type} (g : Fs → (IoError + A) * Fs) : steady (call g).
Proof.
  intros w. unfold call. destruct (io_faults w) as [|[e|] fs] eqn:E;
    [destruct (g _); by exists 0%nat|by exists 1%nat|destruct (g _); by exists 1%nat].
Qed.
Lemma steady_map_err {E F A : Type} (g : E → F) (m : Act E A) : steady m → steady (map_err g m).
Proof. intros Hm w. destruct (Hm w) as [k Hk]. exists k. unfold map_err. by destruct (m w) as [[] ?]. Qed.
Lemma steady_try {E F A : Type} (m : Act E A) : steady m → steady (try_ (F := F) m).
Proof. intros Hm w. destruct (Hm w) as [k Hk]. exists k. unfold try_. by destruct (m w). Qed.
Lemma steady_write wrote q contents : steady (write_all wrote q contents).
Proof.
  intros w. unfold write_all. destruct (io_faults w) as [|[e|] fs];
    [by exists 0%nat|by exists 1%nat|by exists 1%nat].
Qed.
Lemma steady_append wrote q bytes : steady (append_all wrote q bytes).
Proof.
  intros w. unfold append_all. destruct (io_faults w) as [|[e|] fs];
    [by exists 0%nat|by exists 1%nat|by exists 1%nat].
Qed.

#[export] Hint Resolve steady_ret steady_throw steady_sum : core.

Create HintDb steady.
Lemma steady_look {A : Type} (g : Fs → IoError + A) : steady (look g).
Proof. apply steady_call. Qed.
Lemma steady_holds_at {E : Type} (t : Node → bool) p : steady (holds_at (E := E) t p).
Proof. apply steady_bind; [apply steady_try, steady_look|by intros]. Qed.
#[export] Hint Resolve steady_ret steady_throw steady_sum steady_call steady_look steady_map_err
  steady_try steady_write steady_append steady_holds_at : steady.

(** Decomposes a program into steady calls. *)
Ltac steady :=
  repeat first
    [ solve [eauto with steady]
    | apply steady_bind; [|intros ?]
    | apply steady_map_err
    | apply steady_try
    | match goal with
      | |- steady (match ?x with _ => _ end) => destruct x
      end ].

Lemma calm_ret {E A : Type} (a : A) f : calm (E := E) (mret a) f = (inr a, f).
Proof. done. Qed.
Lemma calm_throw {E A : Type} (e : E) f : calm (A := A) (throw e) f = (inl e, f).
Proof. done. Qed.
Lemma calm_call {A : Type} (g : Fs → (IoError + A) * Fs) f : calm (call g) f = g f.
Proof. unfold calm, call. cbn. by destruct (g f). Qed.
Lemma calm_look {A : Type} (g : Fs → IoError + A) f : calm (look g) f = (g f, f).
Proof. unfold look. by rewrite calm_call. Qed.
Lemma calm_map_err {E F A : Type} (g : E → F) (m : Act E A) f :
  calm (map_err g m) f = match calm m f with
                         | (inr a, f') => (inr a, f')
                         | (inl e, f') => (inl (g e), f')
                         end.
Proof. unfold calm, map_err. destruct (m _) as [[e|a] w]; done. Qed.
Lemma calm_try {E F A : Type} (m : Act E A) f :
  calm (try_ (F := F) m) f = (inr (calm m f).1, (calm m f).2).
Proof. unfold calm, try_. destruct (m _) as [r w]; done. Qed.
Lemma calm_holds_at {E : Type} (t : Node → bool) p f :
  calm (holds_at (E := E) t p) f =
  (inr (match stat f p with inr n => t n | inl _ => false end), f).
Proof.
  unfold holds_at, metadata. rewrite calm_bind by steady. rewrite calm_try, calm_look. done.
Qed.

Lemma calm_append wrote q bytes (f : Fs) :
  calm (append_all wrote q bytes) f = (inr (), alter (appended bytes) q f).
Proof. done. Qed.

(** What an answered run went through. *)
Lemma calm_answer {E A B : Type} (m : Act E A) (k : A → Act E B) f b f2 : steady m →
  calm (m ≫= k) f = (inr b, f2) →
  ∃ a f1, calm m f = (inr a, f1) ∧ calm (k a) f1 = (inr b, f2).
Proof.
  intros Hm. rewrite calm_bind by done. destruct (calm m f) as [[e|a] f1]; [done|].
  intros Hk. by exists a, f1.
Qed.
Lemma calm_map_err_answer {E F A : Type} (g : E → F) (m : Act E A) f a f2 :
  calm (map_err g m) f = (inr a, f2) → calm m f = (inr a, f2).
Proof. rewrite calm_map_err. by destruct (calm m f) as [[e|b] f1]; intros [= -> ->]. Qed.
Lemma calm_read_only {E A : Type} (m : Act E A) f : read_only m → (calm m f).2 = f.
Proof.
  intros Hm. specialize (Hm (mkFsWorld f [])). unfold calm. by destruct (m _) as [r w].
Qed.
Lemma calm_pair {E A : Type} (m : Act E A) (f : Fs) a : (calm m f).1 = inr a →
  calm m f = (inr a, (calm m f).2).
Proof. destruct (calm m f). by intros [= ->]. Qed.

(** ** Growing trees *)

(** A node that stayed, or a file with more at its end. *)
Definition grows (n n' : Node) : Prop :=
  node_uid n' = node_uid n ∧ node_mode n' = node_mode n ∧
  match node_kind n with
  | File a => ∃ b, node_kind n' = File (a ++ b)
  | k => node_kind n' = k
  end.

(** Nothing is lost: what was there is there, files perhaps with more at their end. *)
Definition extends (f f' : Fs) : Prop := ∀ q n, f !! q = Some n → ∃ n', f' !! q = Some n' ∧ grows n n'.

Lemma grows_refl n : grows n n.
Proof. split; [done|]. split; [done|]. destruct (node_kind n); eauto. exists []. by rewrite app_nil_r. Qed.

Lemma grows_trans n1 n2 n3 : grows n1 n2 → grows n2 n3 → grows n1 n3.
Proof.
  intros (U1 & M1 & K1) (U2 & M2 & K2). split; [congruence|]. split; [congruence|].
  destruct (node_kind n1); [by rewrite K1 in K2| |by rewrite K1 in K2].
  destruct K1 as [b K1]. rewrite K1 in K2. destruct K2 as [b' K2]. exists (b ++ b').
  by rewrite app_assoc.
Qed.

Lemma grows_dir n n' : grows n n' → is_dir n' = is_dir n.
Proof.
  intros (_ & _ & K). unfold is_dir. destruct (node_kind n); [by rewrite K| |by rewrite K].
  by destruct K as [b ->].
Qed.

Lemma tree_extends_refl (f : Fs) : extends f f.
Proof. intros q n Hn. exists n. split; [done|apply grows_refl]. Qed.

Lemma tree_extends_trans (f1 f2 f3 : Fs) : extends f1 f2 → extends f2 f3 → extends f1 f3.
Proof.
  intros H1 H2 q n (n2 & Hn2 & G2)%H1. apply H2 in Hn2 as (n3 & Hn3 & G3).
  exists n3. split; [done|]. by eapply grows_trans.
Qed.

Lemma extends_subseteq (f f' : Fs) : f ⊆ f' → extends f f'.
Proof. intros Hf q n Hn. exists n. split; [by eapply lookup_weaken|apply grows_refl]. Qed.

Lemma resolve_from_extends links : ∀ (f f' : Fs) rest base q,
  extends f f' → resolve_from links f base rest = inr q → resolve_from links f' base rest = inr q.
Proof.
  induction links as [|links IHl]; intros f f';
    (induction rest as [|c rest IH]; intros base q Hf Hq; [done|]); cbn in Hq |- *;
    (destruct (str_eqb c dotdot); [by apply IH|]);
    (destruct (f !! (base ++ [c])) as [n|] eqn:En; [|done]);
    apply Hf in En as (n' & -> & (_ & _ & K));
    (destruct (node_kind n) as [|contents|absolute target];
      [rewrite K|destruct K as [b ->]|rewrite K]); try done;
    try (by apply IH); by apply (IHl f f').
Qed.

Lemma resolve_extends (f f' : Fs) p q : extends f f' → resolve f p = inr q → resolve f' p = inr q.
Proof. apply resolve_from_extends. Qed.

Lemma stat_extends (f f' : Fs) p n : extends f f' → stat f p = inr n →
  ∃ n', stat f' p = inr n' ∧ grows n n'.
Proof.
  intros Hf. unfold stat. destruct (resolve f p) as [|q] eqn:Hr; [done|].
  rewrite (resolve_extends f f' p q Hf Hr). destruct (f !! q) as [m|] eqn:Hm; [|done].
  intros [= ->]. apply Hf in Hm as (n' & -> & G). by exists n'.
Qed.

(** A name that opens for writing and is there resolves. *)
Lemma resolve_new_there links : ∀ (f : Fs) rest base q n,
  resolve_new links f base rest = inr q → f !! q = Some n → resolve_from links f base rest = inr q.
Proof.
  induction links as [|links IHl]; intros f;
    (induction rest as [|c rest IH]; intros base q n Hq Hn; [done|]); cbn in Hq |- *;
    (destruct (str_eqb c dotdot); [by eapply IH|]);
    (destruct (f !! (base ++ [c])) as [m|] eqn:En;
      [|destruct rest; [injection Hq as <-; congruence|done]]);
    destruct (node_kind m); try done; try (by eapply IH); by eapply IHl.
Qed.

(** What was made by opening a name is found under it. *)
Lemma resolve_new_made links : ∀ (f : Fs) rest base q n,
  resolve_new links f base rest = inr q → f !! q = None → is_file n = true →
  resolve_from links (<[q := n]> f) base rest = inr q.
Proof.
  induction links as [|links IHl]; intros f;
    (induction rest as [|c rest IH]; intros base q n Hq Hn Hk; [done|]); cbn in Hq |- *;
    (destruct (str_eqb c dotdot); [by apply IH|]);
    (destruct (f !! (base ++ [c])) as [m|] eqn:En;
      [rewrite lookup_insert_ne by congruence; rewrite En
      |destruct rest; [injection Hq as <-; rewrite lookup_insert_eq; unfold is_file in Hk;
         by destruct (node_kind n)|done]]);
    destruct (node_kind m); try done; try (by apply IH); by apply IHl.
Qed.

(** Writing to a name where nothing is makes one file or changes nothing. *)
Lemma write_new_calm euid umask wrote p contents (f : Fs) :
  (∀ n, stat f p ≠ inr n) →
  (∃ e, calm (write_file euid umask wrote p contents) f = (inl e, f)) ∨
  ∃ q, let f' := <[q := mkNode (File contents) euid (masked umask 438)]> f in
    resolve_new MAX_LINKS f [] p = inr q ∧ f !! q = None ∧
    calm (write_file euid umask wrote p contents) f = (inr (), f') ∧ resolve f' p = inr q.
Proof.
  intros Hs. unfold write_file, create_file. rewrite calm_bind by steady. rewrite calm_call.
  destruct (resolve_new MAX_LINKS f [] p) as [e|q] eqn:Hq; [left; by exists e|].
  destruct (f !! q) as [n|] eqn:Hn.
  { exfalso. apply (Hs n). unfold stat, resolve.
    by rewrite (resolve_new_there MAX_LINKS f p [] q n), Hn. }
  right. exists q. cbn zeta. do 2 (split; [done|]). split; [|by apply resolve_new_made].
  unfold calm, write_all. cbn. by rewrite alter_insert_eq.
Qed.

Lemma steady_make_dirs euid umask rp : steady (make_dirs euid umask rp).
Proof.
  induction rp as [|c rp IH]; cbn [make_dirs]; unfold make_dir, create_dir;
    (apply steady_bind; [steady|]); intros [e|u]; steady; by case_bool_decide; steady.
Qed.

(** ** Honest failures *)

(** A call that fails from outside never says that a file is absent, or present. *)
Definition outside (e : IoError) : Prop := io_kind e ≠ NotFound ∧ io_kind e ≠ AlreadyExists.
Definition honest (w : FsWorld) : Prop :=
  Forall (λ o, match o with Some e => outside e | None => True end) (io_faults w).

Lemma honest_steady {E A : Type} (m : Act E A) w : steady m → honest w → honest (m w).2.
Proof. intros Hm Hw. destruct (Hm w) as [k Hk]. unfold honest. rewrite Hk. by apply Forall_drop. Qed.

(** [outcome] when failures are honest. *)
Definition houtcome {E A : Type} (P : Fs → Prop) (m : Act E A) (Q : A → Fs → Prop)
    (R : E → Fs → Prop) : Prop :=
  ∀ w, honest w → P (tree w) →
    match m w with
    | (inr a, w') => honest w' ∧ Q a (tree w')
    | (inl e, w') => honest w' ∧ R e (tree w')
    end.

Section Honest.
Context {E : Type}.

Lemma houtcome_of {A : Type} (m : Act E A) (P : Fs → Prop) (Q : A → Fs → Prop) (R : E → Fs → Prop) :
  steady m → outcome P m Q R → houtcome P m Q R.
Proof.
  intros Hs Hm w Hh Hw. specialize (Hm w Hw). apply (honest_steady m w Hs) in Hh.
  by destruct (m w) as [[e|a] w'].
Qed.

Lemma houtcome_bind {A B : Type} (m : Act E A) (k : A → Act E B) (P : Fs → Prop) (Q : B → Fs → Prop)
    (R : E → Fs → Prop) (S : A → Fs → Prop) :
  houtcome P m S R → (∀ a, houtcome (S a) (k a) Q R) → houtcome P (m ≫= k) Q R.
Proof.
  intros Hm Hk w Hh Hw. specialize (Hm w Hh Hw). unfold mbind, Act_bind.
  destruct (m w) as [[e|a] w']; [done|]. destruct Hm as [Hh' Hs]. by apply Hk.
Qed.

Lemma houtcome_weaken {A : Type} (m : Act E A) (P P' : Fs → Prop) (Q Q' : A → Fs → Prop)
    (R R' : E → Fs → Prop) :
  houtcome P' m Q' R' → (∀ f, P f → P' f) → (∀ a f, Q' a f → Q a f) → (∀ e f, R' e f → R e f) →
  houtcome P m Q R.
Proof.
  intros Hm HP HQ HR w Hh Hw. specialize (Hm w Hh (HP _ Hw)).
  destruct (m w) as [[e|a] w']; destruct Hm; auto.
Qed.

Lemma houtcome_map_err {F A : Type} (g : F → E) (m : Act F A) (P : Fs → Prop) (Q : A → Fs → Prop)
    (R : E → Fs → Prop) :
  houtcome P m Q (λ e, R (g e)) → houtcome P (map_err g m) Q R.
Proof.
  intros Hm w Hh Hw. specialize (Hm w Hh Hw). unfold map_err. by destruct (m w) as [[e|a] w'].
Qed.

Lemma houtcome_bind_try {F A B : Type} (m : Act F A) (k : F + A → Act E B)
    (P : Fs → Prop) (Q : B → Fs → Prop) (R : E → Fs → Prop) (S : A → Fs → Prop)
    (T : F → Fs → Prop) :
  houtcome P m S T → (∀ a, houtcome (S a) (k (inr a)) Q R) → (∀ e, houtcome (T e) (k (inl e)) Q R) →
  houtcome P (try_ m ≫= k) Q R.
Proof.
  intros Hm Hs Ht w Hh Hw. specialize (Hm w Hh Hw). unfold mbind, Act_bind, try_.
  destruct (m w) as [[e|a] w']; destruct Hm as [Hh' Hw']; [by apply Ht|by apply Hs].
Qed.

Lemma houtcome_ret {A : Type} (a : A) (P : Fs → Prop) (Q : A → Fs → Prop) (R : E → Fs → Prop) :
  (∀ f, P f → Q a f) → houtcome P (mret a) Q R.
Proof. intros HQ w Hh Hw. split; [done|by apply HQ]. Qed.

Lemma houtcome_throw {A : Type} (e : E) (P : Fs → Prop) (Q : A → Fs → Prop) (R : E → Fs → Prop) :
  (∀ f, P f → R e f) → houtcome P (throw e) Q R.
Proof. intros HR w Hh Hw. split; [done|by apply HR]. Qed.

Lemma houtcome_pure {A : Type} (φ : Prop) (m : Act E A) (P : Fs → Prop) (Q : A → Fs → Prop)
    (R : E → Fs → Prop) : (φ → houtcome P m Q R) → houtcome (λ f, φ ∧ P f) m Q R.
Proof. intros Hm w Hh [Hφ Hw]. by apply (Hm Hφ). Qed.
End Honest.

Lemma houtcome_call {A : Type} (g : Fs → (IoError + A) * Fs) (P : Fs → Prop) (Q : A → Fs → Prop)
    (R : IoError → Fs → Prop) :
  (∀ e f, outside e → P f → R e f) →
  (∀ f, P f → match g f with (inr a, f') => Q a f' | (inl e, f') => R e f' end) →
  houtcome P (call g) Q R.
Proof.
  intros HR Hg w Hh Hw. specialize (Hg (tree w) Hw). unfold honest in Hh. unfold call.
  destruct (io_faults w) as [|[e|] fs] eqn:E.
  - destruct (g (tree w)) as [[e'|a] f']; split; try done; by constructor.
  - apply Forall_cons in Hh as [He Hfs]. split; [exact Hfs|by apply HR].
  - apply Forall_cons in Hh as [_ Hfs]. destruct (g (tree w)) as [[e'|a] f']; by split.
Qed.
