(* ===== verification/Scaffold.v ===== *)
(** * Project scaffolding: [rtrt-templates], lib.rs and render.rs

    Templates with their variables, the plan of a scaffold, and writing it: the target
    and every directory on the way are refused when a link is seen on them, files are
    created exclusively or replaced by renaming a sibling.  Handlebars is an argument.
    [ScaffoldSafety] shows what a run leaves on the disk. *)
From stdpp Require Import gmap sets.
From S2P Require Import Prelude Str Utf8 Error.
From S2P Require Import Fs Files Project.

(** ** Templates *)

Inductive TemplateSource := BuiltIn | Custom.

Inductive TemplateCategory := Development | Design | Planning.

Definition development_names : list str :=
  [ $"development"; $"rust-cli"; $"rust-lib"; $"rust-axum"; $"node-typescript"; $"python-uv";
    $"go-cli"; $"custom"].

(** [Deserialize]. *)
Definition category_deserialize (raw : str) : str + TemplateCategory :=
  let s := to_ascii_lowercase (trim raw) in
  if existsb (str_eqb s) development_names then inr Development
  else if str_eqb s $"design" then inr Design
  else if str_eqb s $"planning" then inr Planning
  else inl ($"unknown template category: " ++ raw).

Definition category_as_str (c : TemplateCategory) : str :=
  match c with
  | Development => $"development"
  | Design => $"design"
  | Planning => $"planning"
  end.

Record TemplateVariable := mkVariable {
  v_name : str;
  v_description : option str;
  v_default : option str;
  v_required : bool;
}.

Record TemplateFile := mkTemplateFile {
  tf_path : str;
  tf_content : str;
  tf_executable : bool;
}.

Record Template := mkTemplate {
  t_name : str;
  t_description : str;
  t_source : TemplateSource;
  t_category : TemplateCategory;
  t_variables : list TemplateVariable;
  t_files : list TemplateFile;
  t_post_hooks : list str;
}.

Abbreviation Vars := (gmap str str) (only parsing).

(** [list_all]: the built-in templates, then the custom ones when they could be read. *)
Definition list_all (builtins : list Template) (custom : Error + list Template) : list Template :=
  builtins ++ match custom with inr c => c | inl _ => [] end.

Definition find_template (builtins : list Template) (custom : Error + list Template) (name : str) :
    option Template :=
  List.find (λ t, str_eqb (t_name t) name) (list_all builtins custom).

Fixpoint check_vars (variables : list TemplateVariable) (vars : Vars) : Error + () :=
  match variables with
  | [] => inr ()
  | v :: rest =>
      if v_required v && bool_decide (vars !! v_name v = None) && bool_decide (v_default v = None)
      then inl (Config ($"missing required variable: " ++ v_name v))
      else check_vars rest vars
  end.
Definition validate_vars (t : Template) (vars : Vars) : Error + () := check_vars (t_variables t) vars.

(** One turn of the loop over the declared variables. *)
Definition bind_variable (user_vars out : Vars) (v : TemplateVariable) : Vars :=
  match user_vars !! v_name v with
  | Some val => <[v_name v := val]> out
  | None => match v_default v with
            | Some def => <[v_name v := def]> out
            | None => out
            end
  end.

(** [entry(k).or_insert(v)] for every given variable is the union that keeps the left. *)
Definition resolve_vars (t : Template) (user_vars : Vars) : Vars :=
  foldl (bind_variable user_vars) ∅ (t_variables t) ∪ user_vars.

(** ** Paths given by the caller *)

(** What the code asks of a [Path]: its text, whether it is absolute, its components. *)
Record PathArg := mkArg {
  arg_text : str;
  arg_absolute : bool;
  arg_components : Path;
}.
Definition arg_of (raw : str) : PathArg := mkArg raw (is_absolute raw) (path_components raw).
Definition absolute_arg (p : Path) : PathArg := mkArg (display p) true p.

Definition nul : char := 0.
Definition backslash : char := 92.

Definition drive_prefixed (path : str) : bool :=
  match path with
  | letter :: colon :: _ => is_ascii_alphabetic letter && (colon =? 58)
  | _ => false
  end.

Definition validate_rendered_path (path : str) : Error + () :=
  if is_empty path || contains_char path nul || contains_char path backslash
     || drive_prefixed path || negb (all_normal path)
  then inl (Config ($"rendered template path must be relative and stay inside the scaffold target: "
                    ++ path))
  else inr ().

(** A raw path that ends in a slash or in a dot component names a directory. *)
Definition names_directory (raw : str) : bool :=
  match last (split_char ch_slash raw) with
  | Some c => is_empty c || str_eqb c $"."
  | None => false
  end.

Definition io {A} (m : Act IoError A) : Act Error A := map_err (λ e, Io (io_message e)) m.

(** ** Secure directories *)

Fixpoint reject_symlinks (paths : list Path) : Act Error () :=
  match paths with
  | [] => mret ()
  | current :: rest =>
      found ← try_ (symlink_metadata current);
      if match found with inr n => is_symlink n | inl _ => false end
      then throw (Config ($"symlink component is not allowed in scaffold path: " ++ display current))
      else reject_symlinks rest
  end.
Definition reject_symlink_components (p : Path) : Act Error () := reject_symlinks (prefixes p).

Definition invalid_target (target : PathArg) : Error :=
  Config ($"invalid scaffold target: " ++ arg_text target).

(** The [while] loop of [secure_target_path], on the components from the last: the
    nearest ancestor that exists, and the names pushed on the way. *)
Fixpoint nearest_existing (target : PathArg) (rp : list str) (suffix : list str) :
    Act Error (Path * list str) :=
  there ← exists_ (rev rp);
  if (there : bool) then mret (rev rp, suffix)
  else
    match rp with
    | [] => throw (invalid_target target)
    | c :: rp' =>
        if str_eqb c dotdot then throw (invalid_target target)
        else nearest_existing target rp' (suffix ++ [c])
    end.

Definition secure_target_path (current_dir : IoError + Path) (target : PathArg) : Act Error Path :=
  let comps := arg_components target in
  if is_empty (arg_text target) || existsb (str_eqb dotdot) comps
  then throw (invalid_target target)
  else
    absolute ← (if arg_absolute target then mret comps
                else cwd ← io (of_sum current_dir); mret (cwd ++ comps));
    reject_symlink_components absolute ≫= λ _,
    found ← nearest_existing target (rev absolute) [];
    let '(existing, suffix) := found in
    reject_symlink_components existing ≫= λ _,
    resolved ← io (canonicalize existing);
    let resolved := resolved ++ rev suffix in
    match parent resolved with
    | None => throw (Config $"filesystem root is not a scaffold target")
    | Some _ => mret resolved
    end.

(** ** Plans *)

Record RenderedFile := mkRendered {
  rf_path : Path;
  rf_directory : bool; (* the path is written like a directory's *)
  rf_content : str;
  rf_executable : bool;
}.

Record RenderPlan := mkPlan {
  p_root : Path;
  p_files : list RenderedFile;
  p_post_hooks : list str;
}.

Section Render.
(** [Handlebars::render_template] without escaping: the text, or why it failed. *)
Variable render_template : str → Vars → str + str.

Definition substitute (input : str) (vars : Vars) : Error + str :=
  match render_template input vars with
  | inr s => inr s
  | inl e => inl (Config ($"handlebars: " ++ e))
  end.

Definition render_file (root : Path) (merged : Vars) (f : TemplateFile) : Error + RenderedFile :=
  match substitute (tf_path f) merged with
  | inl e => inl e
  | inr rendered_path =>
      match validate_rendered_path rendered_path with
      | inl e => inl e
      | inr _ =>
          match substitute (tf_content f) merged with
          | inl e => inl e
          | inr content =>
              inr (mkRendered (root ++ path_components rendered_path)
                     (names_directory rendered_path) content (tf_executable f))
          end
      end
  end.

(** [collect::<Result<Vec<_>>>()]. *)
Fixpoint collect {A B} (g : A → Error + B) (l : list A) : Error + list B :=
  match l with
  | [] => inr []
  | a :: l' =>
      match g a with
      | inl e => inl e
      | inr b => match collect g l' with inl e => inl e | inr bs => inr (b :: bs) end
      end
  end.

Definition plan (current_dir : IoError + Path) (t : Template) (target_dir : PathArg) (vars : Vars) :
    Act Error RenderPlan :=
  of_sum (validate_vars t vars) ≫= λ _,
  let merged := resolve_vars t vars in
  root ← secure_target_path current_dir target_dir;
  files ← of_sum (collect (render_file root merged) (t_files t));
  post_hooks ← of_sum (collect (λ h, substitute h merged) (t_post_hooks t));
  mret (mkPlan root files post_hooks).
End Render.

(** ** Writing a plan *)

Section Write.
Context (euid umask pid : N).
Variable current_dir : IoError + Path.
(** How much of a write that fails reaches the disk. *)
Variable wrote : nat.

Fixpoint missing_ancestors (path : Path) (rp : list str) (missing : list Path) :
    Act Error (Path * list Path) :=
  there ← exists_ (rev rp);
  if (there : bool) then mret (rev rp, missing)
  else
    match rp with
    | [] => throw (Config ($"invalid scaffold directory: " ++ display path))
    | _ :: rp' => missing_ancestors path rp' (missing ++ [rev rp])
    end.

Fixpoint make_directories (l : list Path) : Act Error () :=
  match l with
  | [] => mret ()
  | directory :: rest =>
      io (make_dir euid umask directory) ≫= λ _,
      metadata ← io (symlink_metadata directory);
      if is_symlink metadata || negb (is_dir metadata)
      then throw (Config ($"scaffold path component is not a directory: " ++ display directory))
      else make_directories rest
  end.

Definition create_secure_dir (path : Path) : Act Error () :=
  expected ← secure_target_path current_dir (absolute_arg path);
  found ← missing_ancestors path (rev expected) [];
  let '(existing, missing) := found in
  reject_symlink_components existing ≫= λ _,
  make_directories (rev missing) ≫= λ _,
  canonical ← io (canonicalize path);
  if negb (bool_decide (canonical = expected))
  then throw (Config ($"scaffold directory escaped while being created: " ++ display path))
  else mret ().

(** [file]: the real path of the open file. *)
Definition write_open_file (file : Path) (content : list N) (executable : bool) : Act Error () :=
  io (write_all wrote file content) ≫= λ _,
  if executable
  then metadata ← io (fstat file);
       io (fset_permissions file (N.lor (node_mode metadata) 73 (* 0o111 *)))
  else mret ().

(** [OpenOptions::write(true).create_new(true).open(path)]. *)
Definition open_new (p : Path) (directory : bool) : Act IoError Path :=
  if directory then call (λ f, (inl is_a_directory, f)) else create_new euid umask p 438 (* 0o666 *).

(** Runs [m] and removes [p] when it fails: [RemoveOnDrop] until [keep]. *)
Definition removing_on_failure (p : Path) (m : Act Error ()) : Act Error () :=
  result ← try_ m;
  match result with
  | inr _ => mret ()
  | inl e => removed ← try_ (remove_file p (* its failure is ignored *)); throw e
  end.

Definition write_exclusive (path : Path) (directory : bool) (content : list N) (executable : bool) :
    Act Error () :=
  opened ← try_ (open_new path directory);
  match opened with
  | inl e =>
      if bool_decide (io_kind e = AlreadyExists)
      then throw (Config ($"refusing to overwrite existing file: " ++ display path))
      else throw (Io (io_message e))
  | inr file => removing_on_failure path (write_open_file file content executable)
  end.

Definition temp_name (file_name : str) (sequence : N) : str :=
  $"." ++ file_name ++ $".rtrt-tmp-" ++ show_N pid ++ $"-" ++ show_N sequence.

(** [TEMP_SEQUENCE.fetch_add(1)]. *)
Definition fetch_add (sequence : N) : N := (sequence + 1) mod 2 ^ 64.

Fixpoint create_temp (tries : nat) (path dir : Path) (name : str) (sequence : N) :
    Act Error (Path * Path * N) :=
  match tries with
  | O => throw (Config ($"could not create private temporary file beside " ++ display path))
  | S tries' =>
      let candidate := dir ++ [temp_name name sequence] in
      opened ← try_ (open_new candidate false);
      match opened with
      | inr file => mret (candidate, file, fetch_add sequence)
      | inl e =>
          if bool_decide (io_kind e = AlreadyExists)
          then create_temp tries' path dir name (fetch_add sequence)
          else throw (Io (io_message e))
      end
  end.

(** The candidate, the open file, and the counter. *)
Definition create_sibling_temp (path : Path) (sequence : N) : Act Error (Path * Path * N) :=
  match parent path, file_name path with
  | None, _ => throw (Config ($"rendered file has no parent: " ++ display path))
  | Some _, None => throw (Config ($"rendered file has no name: " ++ display path))
  | Some dir, Some name => create_temp 128 path dir name sequence
  end.

(** [symlink_metadata] and [rename] of a path that may be written like a directory's. *)
Definition symlink_metadata_of (p : Path) (directory : bool) : Act IoError Node :=
  if directory
  then look (λ f, match stat f p with
                  | inl e => inl e
                  | inr n => if is_dir n then inr n else inl not_a_directory
                  end)
  else symlink_metadata p.
Definition rename_to (from to : Path) (directory : bool) : Act IoError () :=
  if directory then call (λ f, (inl not_a_directory, f)) else rename from to.

Definition fill_and_swap (temp_path file path : Path) (directory : bool) (content : list N)
    (executable : bool) : Act Error () :=
  found ← try_ (symlink_metadata_of path directory);
  match found with
  | inr n => if is_file n then io (fset_permissions file (node_mode n)) else mret ()
  | inl _ => mret ()
  end ≫= λ _,
  write_open_file file content executable ≫= λ _,
  io (rename_to temp_path path directory).

Definition write_replacing (path : Path) (directory : bool) (content : list N) (executable : bool)
    (sequence : N) : Act Error N :=
  created ← create_sibling_temp path sequence;
  let '(temp_path, file, sequence') := created in
  removing_on_failure temp_path (fill_and_swap temp_path file path directory content executable)
    ≫= λ _, mret sequence'.

Definition replace_contents_no_follow (path : Path) (content : list N) (sequence : N) : Act Error N :=
  write_replacing path false content false sequence.

Definition outside_target (p : Path) : Error :=
  Config ($"rendered file must stay inside scaffold target: " ++ display p).

(** The body of the loop. *)
Definition write_one (root canonical_root : Path) (overwrite : bool) (f : RenderedFile) (sequence : N) :
    Act Error N :=
  relative ← of_sum (match strip_path root (rf_path f) with
                     | Some r => inr r
                     | None => inl (outside_target (rf_path f))
                     end);
  of_sum (validate_rendered_path (join [ch_slash] relative)) ≫= λ _,
  match parent (rf_path f) with
  | None => mret ()
  | Some dir =>
      create_secure_dir dir ≫= λ _,
      canonical_parent ← io (canonicalize dir);
      if negb (starts_with_path canonical_parent canonical_root)
      then throw (Config ($"rendered file escapes scaffold target: " ++ display (rf_path f)))
      else mret ()
  end ≫= λ _,
  let content := as_bytes (rf_content f) in
  if overwrite
  then write_replacing (rf_path f) (rf_directory f) content (rf_executable f) sequence
  else write_exclusive (rf_path f) (rf_directory f) content (rf_executable f) ≫= λ _, mret sequence.

Fixpoint write_files (root canonical_root : Path) (overwrite : bool) (files : list RenderedFile)
    (sequence : N) : Act Error () :=
  match files with
  | [] => mret ()
  | f :: rest =>
      sequence' ← write_one root canonical_root overwrite f sequence;
      write_files root canonical_root overwrite rest sequence'
  end.

Definition write (p : RenderPlan) (overwrite : bool) (sequence : N) : Act Error () :=
  let root := p_root p in
  planned_root ← secure_target_path current_dir (absolute_arg root);
  if negb (bool_decide (planned_root = root))
  then throw (Config $"scaffold target changed after planning")
  else
    create_secure_dir root ≫= λ _,
    canonical_root ← io (canonicalize root);
    if negb (bool_decide (canonical_root = root))
    then throw (Config $"scaffold target resolved outside its planned path")
    else write_files root canonical_root overwrite (p_files p) sequence.
End Write.
