(* ===== verification/ScaffoldSafety.v ===== *)
(** * What writing a scaffold leaves on the disk

    Properties of [Scaffold]: whatever calls fail, a run stays inside its target
    ([confined]); a run that succeeds is complete and exact ([complete]); what a plan
    names and what its variables are bound to. *)
From stdpp Require Import gmap sets.
From S2P Require Import Prelude Str Utf8 Error.
From S2P Require Import Fs Files Project Scaffold.

(** ** What a run leaves on the disk *)

(** Strictly below [root]. *)
Definition below (root q : Path) : Prop := ∃ rel, rel ≠ [] ∧ q = root ++ rel.

(** What writing a plan may do: make directories where [dirs] allows, files below the
    root, and, when overwriting, put files in the place of what is below the root and is
    not a directory.  All else stays. *)
Definition confined (dirs : Path → Prop) (root : Path) (overwrite : bool) (f0 f : Fs) : Prop := ∀ q,
  match f0 !! q, f !! q with
  | Some n, Some n' =>
      n' = n ∨ (overwrite = true ∧ is_dir n = false ∧ is_file n' = true ∧ below root q)
  | Some _, None => False
  | None, Some n' => (is_dir n' = true ∧ dirs q) ∨ (is_file n' = true ∧ below root q)
  | None, None => True
  end.

(** The file at [q] is new since [f1]. *)
Definition fresh_file (f1 : Fs) (q : Path) (f : Fs) : Prop :=
  f1 !! q = None ∧ ∃ n, f = <[q := n]> f1 ∧ is_file n = true.

(** A node with the contents of a planned file. *)
Definition holds_file (content : list N) (executable : bool) (n : Node) : Prop :=
  node_kind n = File content ∧ (executable = true → N.land (node_mode n) 73 = 73).

Lemma holds_is_file content executable n : holds_file content executable n → is_file n = true.
Proof. intros [Hk _]. unfold is_file. by rewrite Hk. Qed.

Lemma file_not_dir n : is_file n = true → is_dir n = false.
Proof. unfold is_file, is_dir. by destruct (node_kind n). Qed.

Section Confined.
Context (dirs : Path → Prop) (root : Path) (overwrite : bool).
Abbreviation ok_tree := (confined dirs root overwrite).

Lemma confined_refl f : ok_tree f f.
Proof using. intros q. destruct (f !! q); [by left|done]. Qed.

Lemma confined_trans f0 f1 f2 : ok_tree f0 f1 → ok_tree f1 f2 → ok_tree f0 f2.
Proof using.
  intros H1 H2 q. specialize (H1 q). specialize (H2 q).
  destruct (f0 !! q) as [n0|], (f1 !! q) as [n1|], (f2 !! q) as [n2|]; try done.
  - destruct H1 as [->|(Ho & Hd & Hf & Hb)], H2 as [->|(Ho' & Hd' & Hf' & Hb')]; tauto.
  - destruct H1 as [[Hd Hq]|[Hf Hb]], H2 as [->|(_ & Hd' & Hf' & Hb')]; try tauto; congruence.
Qed.

Lemma confined_insert f q n : f !! q = None →
  (is_dir n = true ∧ dirs q) ∨ (is_file n = true ∧ below root q) → ok_tree f (<[q := n]> f).
Proof using.
  intros Hq Hn q'. destruct (decide (q' = q)) as [->|Hne].
  - by rewrite Hq, lookup_insert_eq.
  - rewrite lookup_insert_ne by done. apply confined_refl.
Qed.

Lemma confined_fresh f1 q f : below root q → fresh_file f1 q f → ok_tree f1 f.
Proof using. intros Hb (Hq & n & -> & Hn). apply confined_insert; auto. Qed.

Lemma confined_replace f q t n : overwrite = true → below root q → f !! q = Some t →
  is_dir t = false → is_file n = true → ok_tree f (<[q := n]> f).
Proof using.
  intros Ho Hb Ht Hd Hn q'. destruct (decide (q' = q)) as [->|Hne].
  - rewrite Ht, lookup_insert_eq. auto 6.
  - rewrite lookup_insert_ne by done. apply confined_refl.
Qed.
End Confined.

Lemma fresh_subseteq f1 q f : fresh_file f1 q f → f1 ⊆ f.
Proof. intros (Hq & n & -> & _). by apply insert_subseteq. Qed.

Lemma fresh_alter f1 q f (g : Node → Node) : (∀ n, is_file n = true → is_file (g n) = true) →
  fresh_file f1 q f → fresh_file f1 q (alter g q f).
Proof.
  intros Hg (Hq & n & -> & Hn). split; [done|]. exists (g n). rewrite alter_insert_eq. auto.
Qed.

(** *** One file *)

Section OneFile.
Context (euid umask pid : N) (wrote : nat).
Context (f1 : Fs) (dir0 dir : Path).
(** The parent of the path leads to [dir]. *)
Hypothesis leads : resolve f1 dir0 = inr dir.

Definition here : Prop := ∃ d, f1 !! dir = Some d ∧ is_dir d = true.

Lemma locate_here f c : here → f1 ⊆ f → c ≠ dotdot → locate f (dir0 ++ [c]) = inr (dir ++ [c]).
Proof using leads. intros (d & Hd & Hk) Hf Hc. by eapply locate_in_mono. Qed.

Lemma open_new_outcome c directory : c ≠ dotdot →
  outcome (λ f, f = f1) (open_new euid umask (dir0 ++ [c]) directory)
    (λ q f, q = dir ++ [c] ∧ here ∧ directory = false ∧ fresh_file f1 q f) (λ _ f, f = f1).
Proof using leads.
  intros Hc. unfold open_new. destruct directory; apply outcome_call; try done.
  intros f ->. destruct (locate f1 (dir0 ++ [c])) as [|q] eqn:Hl; [done|].
  apply locate_snoc_inv in Hl as (dir' & d & Hr & Hd & Hk & ->); [|done].
  assert (dir' = dir) as -> by congruence.
  destruct (f1 !! (dir ++ [c])) eqn:Hq; [done|]. repeat split; try done; by eexists.
Qed.

Lemma write_open_outcome q content executable :
  outcome (fresh_file f1 q) (write_open_file wrote q content executable)
    (λ _ f, fresh_file f1 q f ∧ ∃ n, f !! q = Some n ∧ holds_file content executable n)
    (λ _, fresh_file f1 q).
Proof using.
  unfold write_open_file, io.
  eapply outcome_bind with (S := λ _ f, fresh_file f1 q f ∧
    ∃ n, f !! q = Some n ∧ node_kind n = File content).
  { apply outcome_map_err. intros w (Hq & n & Hw & Hn). unfold write_all. rewrite Hw.
    destruct (io_faults w) as [|[e|] fs]; cbn; rewrite alter_insert_eq;
      repeat split; try done; try (by eexists); eexists; by rewrite lookup_insert_eq. }
  intros u. destruct executable.
  2: { apply outcome_ret. intros f (Hf & n & Hn & Hk). split; [done|]. by exists n. }
  eapply outcome_bind with (S := λ _ f, fresh_file f1 q f ∧
    ∃ n, f !! q = Some n ∧ node_kind n = File content).
  { apply outcome_map_err, outcome_look; [by intros e f []|by intros f n ? _]. }
  intros meta. apply outcome_map_err, outcome_call; [by intros e f []|].
  intros f (Hf & n & Hn & Hk). split; [by apply fresh_alter|].
  rewrite lookup_alter_eq, Hn. eexists. split; [done|]. split; [done|]. intros _. cbn.
  apply N.bits_inj. intros i. rewrite N.land_spec, N.lor_spec.
  destruct (N.testbit 73 i); [by rewrite orb_true_r|by rewrite andb_false_r].
Qed.

Lemma remove_fresh_outcome c : here → c ≠ dotdot →
  outcome (E := Error) (fresh_file f1 (dir ++ [c])) (try_ (remove_file (dir0 ++ [c])))
    (λ _ f, f = f1 ∨ fresh_file f1 (dir ++ [c]) f) (λ _ _, False).
Proof using leads.
  intros Hh Hc. apply outcome_try, outcome_call; [by right|]. intros f Hf.
  rewrite (locate_here f c) by (done || by eapply fresh_subseteq).
  destruct Hf as (Hq & n & -> & Hn). rewrite lookup_insert_eq, (file_not_dir n Hn).
  left. by rewrite delete_insert_id.
Qed.

(** Running [m] on the new file, with its removal on failure. *)
Lemma removing_outcome c (m : Act Error ()) (Q : Fs → Prop) : here → c ≠ dotdot →
  outcome (fresh_file f1 (dir ++ [c])) m (λ _, Q) (λ _, fresh_file f1 (dir ++ [c])) →
  outcome (fresh_file f1 (dir ++ [c])) (removing_on_failure (dir0 ++ [c]) m)
    (λ _, Q) (λ _ f, f = f1 ∨ fresh_file f1 (dir ++ [c]) f).
Proof using leads.
  intros Hh Hc Hm. unfold removing_on_failure.
  eapply outcome_bind_try; [exact Hm|by intros; apply outcome_ret|]. intros e.
  eapply outcome_bind.
  { eapply outcome_weaken; [by apply remove_fresh_outcome|done| |by intros].
    intros r f Hf. exact Hf. }
  intros r. by apply outcome_throw.
Qed.

Lemma exclusive_outcome c directory content executable : c ≠ dotdot →
  outcome (λ f, f = f1)
    (write_exclusive euid umask wrote (dir0 ++ [c]) directory content executable)
    (λ _ f, fresh_file f1 (dir ++ [c]) f ∧
            ∃ n, f !! (dir ++ [c]) = Some n ∧ holds_file content executable n)
    (λ _ f, f = f1 ∨ fresh_file f1 (dir ++ [c]) f).
Proof using leads.
  intros Hc. unfold write_exclusive.
  eapply outcome_bind_try; [by apply open_new_outcome| |].
  2: { intros e. cbn. case_bool_decide; apply outcome_throw; auto. }
  intros q. do 3 (apply outcome_pure; intros ?). subst q.
  apply (removing_outcome c _ (λ f, fresh_file f1 (dir ++ [c]) f ∧
    ∃ n, f !! (dir ++ [c]) = Some n ∧ holds_file content executable n)); [done|done|].
  apply write_open_outcome.
Qed.

Lemma temp_name_ok name sequence : temp_name pid name sequence ≠ dotdot.
Proof using.
  unfold temp_name. intros Heq. apply (f_equal length) in Heq.
  rewrite !length_app in Heq. change (length dotdot) with 2%nat in Heq.
  change (length $".rtrt-tmp-") with 10%nat in Heq. lia.
Qed.

Lemma create_temp_outcome tries path name : ∀ sequence,
  outcome (λ f, f = f1) (create_temp euid umask pid tries path dir0 name sequence)
    (λ r f, ∃ c, (c ≠ dotdot ∧ here ∧ r.1 = (dir0 ++ [c], dir ++ [c])) ∧ fresh_file f1 (dir ++ [c]) f)
    (λ _ f, f = f1).
Proof using leads.
  induction tries as [|tries IH]; intros sequence; cbn [create_temp]; [by apply outcome_throw|].
  eapply outcome_bind_try; [apply open_new_outcome, temp_name_ok| |].
  2: { intros e. cbn. case_bool_decide; [apply IH|by apply outcome_throw]. }
  intros q. apply outcome_ret. intros f (-> & Hh & _ & Hf). eexists.
  split; [|done]. split; [by apply temp_name_ok|]. by split.
Qed.

(** The swapped file replaces what was at the target, unless that is a directory. *)
Definition swapped (c : str) (content : list N) (executable : bool) (f : Fs) : Prop :=
  ∃ n, f = <[dir ++ [c] := n]> f1 ∧ holds_file content executable n ∧
    match f1 !! (dir ++ [c]) with Some t => is_dir t = false | None => True end.

Lemma swap_outcome c leaf directory content executable : here → c ≠ dotdot → leaf ≠ dotdot →
  outcome (fresh_file f1 (dir ++ [leaf]))
    (fill_and_swap wrote (dir0 ++ [leaf]) (dir ++ [leaf]) (dir0 ++ [c]) directory content executable)
    (λ _, swapped c content executable) (λ _, fresh_file f1 (dir ++ [leaf])).
Proof using leads.
  intros Hh Hc Hleaf. unfold fill_and_swap.
  eapply outcome_bind with (S := λ _, fresh_file f1 (dir ++ [leaf])).
  { apply outcome_try. unfold symlink_metadata_of.
    destruct directory; (apply outcome_look; [done|by intros f n ? _]). }
  intros found. eapply outcome_bind with (S := λ _, fresh_file f1 (dir ++ [leaf])).
  { destruct found as [|n]; [by apply outcome_ret|]. destruct (is_file n); [|by apply outcome_ret].
    apply outcome_map_err, outcome_call; [done|]. intros f Hf. by apply fresh_alter. }
  intros u. eapply outcome_bind; [apply write_open_outcome|].
  intros u'. apply outcome_map_err. unfold rename_to.
  destruct directory; (apply outcome_call; [by intros e f []|]); intros f (Hf & n & Hn & Hc');
    [done|].
  rewrite !(locate_here f) by (done || by eapply fresh_subseteq).
  pose proof Hf as (Hq & m & -> & Hm). rewrite lookup_insert_eq in Hn |- *. injection Hn as ->.
  rewrite delete_insert_id by done.
  unfold swapped. destruct (decide (dir ++ [c] = dir ++ [leaf])) as [->|Hne].
  { rewrite lookup_insert_eq, (file_not_dir n Hm). exists n. by rewrite Hq. }
  rewrite lookup_insert_ne by done.
  destruct (f1 !! (dir ++ [c])) as [t|] eqn:Ht; [|by exists n].
  destruct (is_dir t) eqn:Hd; [done|]. by exists n.
Qed.

Lemma replacing_outcome c directory content executable sequence : c ≠ dotdot →
  outcome (λ f, f = f1)
    (write_replacing euid umask pid wrote (dir0 ++ [c]) directory content executable sequence)
    (λ _, swapped c content executable)
    (λ _ f, f = f1 ∨ ∃ leaf, fresh_file f1 (dir ++ [leaf]) f).
Proof using leads.
  intros Hc. unfold write_replacing, create_sibling_temp.
  assert (parent (dir0 ++ [c]) = Some dir0) as ->.
  { destruct (dir0 ++ [c]) eqn:E; [by destruct dir0|]. rewrite <-E. cbn.
    unfold parent. rewrite E, <-E. by rewrite removelast_last. }
  assert (file_name (dir0 ++ [c]) = Some c) as ->.
  { unfold file_name. rewrite last_snoc.
    by assert (str_eqb c dotdot = false) as -> by (by apply str_eqb_neq). }
  eapply outcome_bind.
  { eapply outcome_weaken; [apply create_temp_outcome|done| |by left]. intros r f Hf. exact Hf. }
  intros [[temp file] sequence']. cbn. apply outcome_ex. intros leaf.
  apply outcome_pure. intros (? & ? & ?). simplify_eq.
  eapply outcome_bind with (S := λ _, swapped c content executable); [|by intros; apply outcome_ret].
  eapply outcome_weaken.
  - apply (removing_outcome leaf _ (swapped c content executable)); [done|done|].
    by apply swap_outcome.
  - done.
  - done.
  - intros e f [->|Hf]; [by left|]. right. by exists leaf.
Qed.
End OneFile.

(** *** Directories *)

Lemma read_only_reject_symlinks paths : read_only (reject_symlinks paths).
Proof.
  induction paths as [|p paths IH]; cbn; [done|].
  apply read_only_bind; [read_only|]. by intros [e|n]; [|destruct (is_symlink n)].
Qed.

Lemma read_only_nearest target rp : ∀ suffix, read_only (nearest_existing target rp suffix).
Proof.
  induction rp as [|c rp IH]; intros suffix; cbn;
    (apply read_only_bind; [apply read_only_holds_at|]); intros []; try done.
  by destruct (str_eqb c dotdot).
Qed.

Lemma read_only_secure current_dir target : read_only (secure_target_path current_dir target).
Proof.
  unfold secure_target_path, io. destruct (_ || _); [done|].
  apply read_only_bind; [destruct (arg_absolute target); read_only|]. intros absolute.
  apply read_only_bind; [apply read_only_reject_symlinks|]. intros u.
  apply read_only_bind; [apply read_only_nearest|]. intros [existing suffix].
  apply read_only_bind; [apply read_only_reject_symlinks|]. intros u'. read_only.
Qed.

Lemma read_only_missing path rp : ∀ missing, read_only (missing_ancestors path rp missing).
Proof.
  induction rp as [|c rp IH]; intros missing; cbn;
    (apply read_only_bind; [apply read_only_holds_at|]); by intros [].
Qed.

(** *** Paths that were checked *)

Lemma split_char_mid d a b : split_char d (a ++ d :: b) = split_char d a ++ split_char d b.
Proof.
  induction a as [|c a IH]; cbn; [by rewrite N.eqb_refl|].
  destruct (c =? d) eqn:E; cbn; [by rewrite IH|].
  rewrite IH. destruct (split_char d a) eqn:Hs; [by destruct (split_char_nonempty d a)|done].
Qed.

Lemma split_char_join d c rel : d ∉ c → c ∈ rel → c ∈ split_char d (join [d] rel).
Proof.
  intros Hd. induction rel as [|x rel IH]; [by intros ?%not_elem_of_nil|].
  destruct rel as [|y rel].
  - intros ->%list_elem_of_singleton. cbn. rewrite split_char_free by done. by left.
  - change (join [d] (x :: y :: rel)) with (x ++ d :: join [d] (y :: rel)).
    rewrite split_char_mid. intros [->|Hin]%elem_of_cons.
    + rewrite split_char_free by done. by left.
    + apply elem_of_app. right. by apply IH.
Qed.

Lemma valid_names rel : validate_rendered_path (join [ch_slash] rel) = inr () →
  rel ≠ [] ∧ plain rel.
Proof.
  unfold validate_rendered_path. destruct (is_empty _) eqn:He; [done|].
  destruct (all_normal _) eqn:Ha; [|by rewrite !orb_true_r]. intros _.
  split; [by intros ->|]. apply Forall_forall. intros c Hc ->.
  assert (Hin : dotdot ∈ split_char ch_slash (join [ch_slash] rel)).
  { apply split_char_join; [|done]. apply (bool_decide_unpack _). by vm_compute. }
  unfold all_normal in Ha. apply andb_true_iff in Ha as [[_ Ha]%andb_true_iff _].
  apply negb_true_iff in Ha. revert Ha. apply not_false_iff_true, existsb_exists.
  exists dotdot. split; [|by apply str_eqb_eq]. apply filter_In. split; [by apply list_elem_of_In|done].
Qed.

Lemma starts_with_path_app p : ∀ root, starts_with_path p root = true → ∃ x, p = root ++ x.
Proof.
  induction p as [|c p IH]; intros [|r root]; cbn; try done; try (by eexists).
  intros [->%str_eqb_eq [x ->]%IH]%andb_true_iff. by exists x.
Qed.

Section Faults.
Context (euid umask pid : N) (current_dir : IoError + Path) (wrote : nat).
Context (root : Path) (overwrite : bool).
Abbreviation ok_tree := (confined (λ _, True) root overwrite).
Abbreviation stays f0 m := (outcome (ok_tree f0) m (λ _, ok_tree f0) (λ _, ok_tree f0)).

Lemma make_directories_stays f0 l : stays f0 (make_directories euid umask l).
Proof using.
  induction l as [|p l IH]; cbn; [by apply outcome_ret|]. unfold io.
  eapply outcome_bind with (S := λ _, ok_tree f0).
  { apply outcome_map_err, outcome_call; [by intros|]. intros f Hf.
    destruct (locate f p) as [|q]; [done|]. destruct (f !! q) eqn:Hq; [done|].
    eapply confined_trans; [done|]. apply confined_insert; auto. }
  intros u. eapply outcome_bind; [apply read_only_outcome; read_only|].
  intros meta. cbn. destruct (_ || _); [by apply outcome_throw|done].
Qed.

Lemma secure_dir_stays f0 p : stays f0 (create_secure_dir euid umask current_dir p).
Proof using.
  unfold create_secure_dir.
  eapply outcome_bind; [apply read_only_outcome, read_only_secure|]. intros expected. cbn.
  eapply outcome_bind; [apply read_only_outcome, read_only_missing|]. intros [existing missing].
  eapply outcome_bind; [apply read_only_outcome, read_only_reject_symlinks|]. intros u. cbn.
  eapply outcome_bind; [apply make_directories_stays|]. intros u'.
  apply read_only_outcome. unfold io. read_only.
Qed.

Lemma below_child dir c : starts_with_path dir root = true → below root (dir ++ [c]).
Proof using.
  intros [x ->]%starts_with_path_app. exists (x ++ [c]). rewrite app_assoc. by destruct x.
Qed.

Lemma swapped_confined f1 dir c content executable f : overwrite = true →
  starts_with_path dir root = true → swapped f1 dir c content executable f → ok_tree f1 f.
Proof using.
  intros Ho Hb (n & -> & Hn & Ht). apply holds_is_file in Hn.
  pose proof (below_child dir c Hb) as Hbelow.
  destruct (f1 !! (dir ++ [c])) as [t|] eqn:Hq; [by eapply confined_replace|].
  apply confined_insert; auto.
Qed.

Lemma write_body_stays f0 f1 dir0 dir c directory content executable sequence :
  ok_tree f0 f1 → resolve f1 dir0 = inr dir → starts_with_path dir root = true → c ≠ dotdot →
  outcome (λ f, f = f1)
    (if overwrite
     then write_replacing euid umask pid wrote (dir0 ++ [c]) directory content executable sequence
     else write_exclusive euid umask wrote (dir0 ++ [c]) directory content executable
          ≫= λ _, mret sequence)
    (λ _, ok_tree f0) (λ _, ok_tree f0).
Proof using.
  intros Hf Hr Hb Hc. destruct overwrite eqn:Ho.
  - eapply outcome_weaken; [by apply (replacing_outcome euid umask pid wrote f1 dir0 dir)|done| |];
      cbn; rewrite <-Ho in Hf |- *.
    + intros a f Hs. eapply confined_trans; [done|]. by eapply swapped_confined.
    + intros e f [->|[leaf Hs]]; [done|]. eapply confined_trans; [done|].
      eapply confined_fresh; [|done]. by apply below_child.
  - rewrite <-Ho in Hf |- *.
    assert (Hfresh : ∀ f, fresh_file f1 (dir ++ [c]) f → ok_tree f0 f).
    { intros f Hs. eapply confined_trans; [done|]. eapply confined_fresh; [|done].
      by apply below_child. }
    eapply outcome_bind with (S := λ _, ok_tree f0); [|by intros; apply outcome_ret].
    eapply outcome_weaken; [by apply (exclusive_outcome euid umask wrote f1 dir0 dir)|done| |].
    + intros a f [Hs _]. by apply Hfresh.
    + intros e f [->|Hs]; [done|by apply Hfresh].
Qed.

Lemma write_one_stays f0 f sequence :
  stays f0 (write_one euid umask pid current_dir wrote root root overwrite f sequence).
Proof using.
  unfold write_one. destruct (strip_path root (rf_path f)) as [rel|] eqn:Hs;
    [|by intros w Hw].
  apply strip_path_Some in Hs.
  eapply outcome_bind with (S := λ r f', r = rel ∧ ok_tree f0 f'); [by apply outcome_sum|].
  intros r. apply outcome_pure. intros ->.
  eapply outcome_bind with (S := λ _ f', validate_rendered_path (join [ch_slash] rel) = inr () ∧
    ok_tree f0 f').
  { apply outcome_sum. intros f' Hf'. by destruct (validate_rendered_path _) as [|[]]. }
  intros u. apply outcome_pure. intros [Hne Hplain]%valid_names.
  destruct rel as [|c rel _] using rev_ind; [done|]. rewrite app_assoc in Hs. rewrite Hs.
  assert (parent ((root ++ rel) ++ [c]) = Some (root ++ rel)) as ->.
  { destruct ((root ++ rel) ++ [c]) eqn:E; [by destruct (root ++ rel)|].
    unfold parent. rewrite <-E. by rewrite removelast_last. }
  apply Forall_app in Hplain as [_ [Hc _]%Forall_cons].
  eapply outcome_bind with (S := λ _ f', ∃ dir, starts_with_path dir root = true ∧
    resolve f' (root ++ rel) = inr dir ∧ ok_tree f0 f').
  { eapply outcome_bind; [apply secure_dir_stays|]. intros u'.
    eapply outcome_bind with (S := λ cp f', resolve f' (root ++ rel) = inr cp ∧ ok_tree f0 f').
    { apply outcome_map_err, outcome_look; [done|by split]. }
    intros cp. destruct (starts_with_path cp root) eqn:Hb; cbn;
      [apply outcome_ret; eauto|by apply outcome_throw; intros f' []]. }
  intros u'. apply outcome_ex. intros dir. apply outcome_pure. intros Hb.
  intros w [Hr Hw]. by eapply (write_body_stays f0 (tree w)).
Qed.

Lemma write_files_stays f0 files : ∀ sequence,
  stays f0 (write_files euid umask pid current_dir wrote root root overwrite files sequence).
Proof using.
  induction files as [|f files IH]; intros sequence; cbn; [by apply outcome_ret|].
  eapply outcome_bind; [apply write_one_stays|]. intros s. apply IH.
Qed.
End Faults.


(** *** When no call fails from outside *)

Lemma steady_reject paths : steady (reject_symlinks paths).
Proof.
  induction paths as [|p paths IH]; cbn; [done|].
  apply steady_bind; [unfold symlink_metadata; steady|]. by intros [e|n]; [|destruct (is_symlink n)].
Qed.

Lemma steady_nearest target rp : ∀ suffix, steady (nearest_existing target rp suffix).
Proof.
  induction rp as [|c rp IH]; intros suffix; cbn;
    (apply steady_bind; [apply steady_holds_at|]); intros []; try done.
  by destruct (str_eqb c dotdot).
Qed.

Lemma steady_secure current_dir target : steady (secure_target_path current_dir target).
Proof.
  unfold secure_target_path, io, canonicalize. destruct (_ || _); [done|].
  apply steady_bind; [destruct (arg_absolute target); steady|]. intros absolute.
  apply steady_bind; [apply steady_reject|]. intros u.
  apply steady_bind; [apply steady_nearest|]. intros [existing suffix].
  apply steady_bind; [apply steady_reject|]. intros u'. steady.
Qed.

Lemma steady_missing path rp : ∀ missing, steady (missing_ancestors path rp missing).
Proof.
  induction rp as [|c rp IH]; intros missing; cbn;
    (apply steady_bind; [apply steady_holds_at|]); by intros [].
Qed.

Lemma steady_make_directories euid umask l : steady (make_directories euid umask l).
Proof.
  induction l as [|p l IH]; cbn; [done|]. unfold io, make_dir, create_dir, symlink_metadata.
  apply steady_bind; [steady|]. intros u. apply steady_bind; [steady|]. intros n.
  by destruct (_ || _).
Qed.

Lemma steady_secure_dir euid umask current_dir p : steady (create_secure_dir euid umask current_dir p).
Proof.
  unfold create_secure_dir, io, canonicalize.
  apply steady_bind; [apply steady_secure|]. intros expected.
  apply steady_bind; [apply steady_missing|]. intros [existing missing].
  apply steady_bind; [apply steady_reject|]. intros u.
  apply steady_bind; [apply steady_make_directories|]. intros u'. steady.
Qed.

(** No link is seen on the way to [p]. *)
Definition no_links (f : Fs) (p : Path) : Prop := ∀ q n,
  q `prefix_of` p → lstat f q = inr n → is_symlink n = false.

(** The root of the tree is a directory. *)
Definition rooted (f : Fs) : Prop := ∃ n, f !! [] = Some n ∧ is_dir n = true.

Lemma reject_calm (paths : list Path) (f : Fs) u (f' : Fs) : calm (reject_symlinks paths) f = (inr u, f') →
  ∀ q n, q ∈ paths → lstat f q = inr n → is_symlink n = false.
Proof.
  induction paths as [|p paths IH]; cbn; [by intros ? q n ?%not_elem_of_nil|].
  rewrite calm_bind by (unfold symlink_metadata; steady). unfold symlink_metadata.
  rewrite calm_try, calm_look. cbn.
  intros Hr q n Hq Hl. apply elem_of_cons in Hq as [Hq|Hq]; [subst q|].
  - rewrite Hl in Hr. by destruct (is_symlink n).
  - destruct (lstat f p) as [e|m]; [by eapply IH|]. destruct (is_symlink m); [done|by eapply IH].
Qed.

Lemma prefix_in_prefixes (q p : Path) : q `prefix_of` p → q ∈ prefixes p.
Proof.
  intros [x ->]. unfold prefixes, ancestors. rewrite list_elem_of_In, <-in_rev.
  apply in_map_iff. exists (length q). split; [by rewrite take_app_length|].
  rewrite <-in_rev. apply in_seq. rewrite length_app. lia.
Qed.

Lemma resolve_from_unlinked links f : rooted f → ∀ rest base q,
  real_dir f base → plain rest → no_links f (base ++ rest) →
  resolve_from links f base rest = inr q → q = base ++ rest.
Proof.
  intros (r & Hr & Hrd). induction rest as [|c rest IH]; intros base q Hb Hp Hl Hq.
  { rewrite app_nil_r. destruct links; by injection Hq as <-. }
  apply Forall_cons in Hp as [Hc Hp].
  assert (str_eqb c dotdot = false) as Ec by (by apply str_eqb_neq).
  assert (Hbase : ∃ n, f !! base = Some n ∧ is_dir n = true).
  { destruct Hb as [|d x n]; eauto. }
  destruct Hbase as (b & Hbn & Hbd).
  assert (Hstep : ∀ n, f !! (base ++ [c]) = Some n → is_symlink n = false).
  { intros n Hn. apply (Hl (base ++ [c])); [exists rest; by rewrite <-app_assoc|].
    unfold lstat. by rewrite (locate_child f base c b), Hn. }
  change (base ++ c :: rest) with (base ++ [c] ++ rest) in *. rewrite app_assoc in *.
  assert (Hgo : ∀ n, f !! (base ++ [c]) = Some n → is_dir n = true →
    resolve_from links f (base ++ [c]) rest = inr q → q = (base ++ [c]) ++ rest).
  { intros n Hn Hk. apply IH; [by econstructor|done|done]. }
  destruct links; cbn in Hq; rewrite Ec in Hq;
    (destruct (f !! (base ++ [c])) as [n|] eqn:Hn; [|done]);
    specialize (Hstep n eq_refl); specialize (Hgo n eq_refl); unfold is_dir, is_symlink in *;
    destruct (node_kind n); try done; try (by apply Hgo);
    destruct rest; try done; injection Hq as <-; by rewrite app_nil_r.
Qed.

Lemma resolve_unlinked f p q : rooted f → plain p → no_links f p → resolve f p = inr q → q = p.
Proof. intros Hf. apply (resolve_from_unlinked MAX_LINKS f Hf p []). constructor. Qed.

Lemma no_links_prefix f p q : q `prefix_of` p → no_links f p → no_links f q.
Proof. intros Hq Hl x n Hx. apply Hl. by etrans. Qed.

Lemma plain_existsb p : existsb (str_eqb dotdot) p = false → plain p.
Proof.
  intros He. apply Forall_forall. intros c Hc ->. revert He.
  apply not_false_iff_true, existsb_exists. exists dotdot.
  split; [by apply list_elem_of_In|by apply str_eqb_eq].
Qed.

(** The nearest ancestor exists, and the names pushed are the rest of the path. *)
Lemma nearest_calm target (rp : list str) : ∀ (suffix : list str) (f : Fs) (e : Path) (s : list str) (f' : Fs),
  calm (nearest_existing target rp suffix) f = (inr (e, s), f') →
  rev rp ++ rev suffix = e ++ rev s ∧ ∃ n, stat f e = inr n.
Proof.
  induction rp as [|c rp IH]; intros suffix f e s f'; cbn [nearest_existing];
    rewrite calm_bind by apply steady_holds_at; unfold exists_; rewrite calm_holds_at;
    (destruct (stat f _) as [|n] eqn:Hs; [|intros [= <- <- <-]; by eauto]); [done|].
  destruct (str_eqb c dotdot); [done|]. intros [Heq Hn]%IH. split; [|done].
  rewrite <-Heq, rev_app_distr. cbn. by rewrite <-app_assoc.
Qed.

Lemma stat_resolve f p n : stat f p = inr n → ∃ q, resolve f p = inr q ∧ f !! q = Some n.
Proof.
  unfold stat. destruct (resolve f p) as [|q]; [done|]. destruct (f !! q) eqn:Hq; [|done].
  intros [= ->]. by exists q.
Qed.

(** A secure path is the path itself, and it has no links. *)
Lemma secure_calm current_dir (p : Path) (f : Fs) (r : Path) (f' : Fs) : rooted f →
  calm (secure_target_path current_dir (absolute_arg p)) f = (inr r, f') →
  f' = f ∧ r = p ∧ p ≠ [] ∧ plain p ∧ no_links f p.
Proof.
  intros Hroot Hrun. pose proof (calm_read_only _ f (read_only_secure current_dir (absolute_arg p))) as Hf.
  rewrite Hrun in Hf. cbn in Hf. subst f'. split; [done|]. revert Hrun.
  unfold secure_target_path. cbn [arg_text arg_components arg_absolute absolute_arg].
  destruct (is_empty _ || _) eqn:Hd; [done|]. apply orb_false_iff in Hd as [_ Hd%plain_existsb].
  intros (a & f1 & [= <- <-] & Hrun)%calm_answer; [|done].
  apply calm_answer in Hrun as (u & f1 & Hrej & Hrun); [|apply steady_reject].
  assert (Hl : no_links f p).
  { intros q n Hq. eapply reject_calm; [exact Hrej|by apply prefix_in_prefixes]. }
  pose proof (calm_read_only _ f (read_only_reject_symlinks (prefixes p))) as H1.
  unfold reject_symlink_components in Hrej. rewrite Hrej in H1. cbn in H1. subst f1.
  apply calm_answer in Hrun as ([e s] & f1 & Hnear & Hrun); [|apply steady_nearest].
  pose proof (calm_read_only _ f (read_only_nearest (absolute_arg p) (rev p) [])) as H1.
  rewrite Hnear in H1. cbn in H1. subst f1.
  apply nearest_calm in Hnear as [Heq (n & Hn)]. rewrite rev_involutive, app_nil_r in Heq.
  apply calm_answer in Hrun as (u' & f1 & Hrej' & Hrun); [|apply steady_reject].
  pose proof (calm_read_only _ f (read_only_reject_symlinks (prefixes e))) as H1.
  unfold reject_symlink_components in Hrej'. rewrite Hrej' in H1. cbn in H1. subst f1.
  unfold io, canonicalize in Hrun.
  apply calm_answer in Hrun as (c & f1 & Hcan & Hrun); [|steady].
  apply calm_map_err_answer in Hcan. rewrite calm_look in Hcan. injection Hcan as Hcan <-.
  assert (c = e) as ->.
  { eapply resolve_unlinked; [done| | |done].
    - rewrite Heq in Hd. by apply Forall_app in Hd as [? _].
    - eapply no_links_prefix; [|done]. by eexists. }
  rewrite <-Heq in Hrun. destruct p; [done|]. by injection Hrun as <-.
Qed.

(** The paths from below [base] down to [base ++ names]. *)
Fixpoint chain (base : Path) (names : list str) : list Path :=
  match names with
  | [] => []
  | c :: names' => (base ++ [c]) :: chain (base ++ [c]) names'
  end.

Lemma missing_calm path (rp : list str) : ∀ (suffix : list str) (f : Fs) (e : Path) (m : list Path) (f' : Fs),
  calm (missing_ancestors path rp (rev (chain (rev rp) suffix))) f = (inr (e, m), f') →
  (∃ n, stat f e = inr n) ∧ ∃ names, rev rp ++ suffix = e ++ names ∧ m = rev (chain e names).
Proof.
  induction rp as [|c rp IH]; intros suffix f e m f'; cbn [missing_ancestors];
    rewrite calm_bind by apply steady_holds_at; unfold exists_; rewrite calm_holds_at;
    (destruct (stat f _) as [|n] eqn:Hs; [|intros [= <- <- <-]; by eauto]); [done|].
  replace (rev (chain (rev (c :: rp)) suffix) ++ [rev (c :: rp)])
    with (rev (chain (rev rp) (c :: suffix))) by done.
  intros [Hn (names & Heq & ->)]%IH. split; [done|]. exists names. split; [|done].
  rewrite <-Heq. cbn. by rewrite <-app_assoc.
Qed.

Definition only_dirs (dirs : Path → Prop) (f0 f : Fs) : Prop := ∀ q,
  f !! q = f0 !! q ∨ (f0 !! q = None ∧ dirs q ∧ ∃ n, f !! q = Some n ∧ is_dir n = true).

Lemma only_dirs_refl dirs f : only_dirs dirs f f.
Proof. intros q. by left. Qed.

Lemma only_dirs_trans dirs f0 f1 f2 : only_dirs dirs f0 f1 → only_dirs dirs f1 f2 → only_dirs dirs f0 f2.
Proof.
  intros H1 H2 q. destruct (H1 q) as [E1|(E1 & D1 & n & N1 & K1)];
    destruct (H2 q) as [E2|(E2 & D2 & m & N2 & K2)]; rewrite ?E2; eauto 8.
  right. rewrite <-E1. eauto 6.
Qed.

Lemma only_dirs_weaken (d1 d2 : Path → Prop) f0 f : (∀ q, d1 q → d2 q) →
  only_dirs d1 f0 f → only_dirs d2 f0 f.
Proof. intros Hd Hf q. destruct (Hf q) as [?|(? & ? & ?)]; [by left|right; auto]. Qed.

Lemma only_dirs_dir dirs f0 f q n : only_dirs dirs f0 f → f0 !! q = Some n → f !! q = Some n.
Proof. intros Hf Hq. destruct (Hf q) as [->|(? & _)]; [done|congruence]. Qed.

Lemma make_calm euid umask (names : list str) : ∀ (base : Path) (f : Fs) u (f' : Fs),
  resolve f base = inr base → plain names →
  calm (make_directories euid umask (chain base names)) f = (inr u, f') →
  only_dirs (λ q, q `prefix_of` base ++ names) f f'.
Proof.
  induction names as [|c names IH]; intros base f u f' Hb Hp; cbn [chain make_directories].
  { intros [= _ <-]. apply only_dirs_refl. }
  apply Forall_cons in Hp as [Hc Hp]. unfold io, make_dir, create_dir, symlink_metadata.
  intros (u1 & f1 & Hmade & Hrun)%calm_answer; [|steady].
  apply calm_map_err_answer in Hmade. rewrite calm_call in Hmade.
  destruct (locate f (base ++ [c])) as [|q] eqn:Hl; [done|].
  apply locate_snoc_inv in Hl as (dir & d & Hr & Hd & Hk & ->); [|done].
  assert (dir = base) as -> by congruence.
  destruct (f !! (base ++ [c])) eqn:Hq; [done|]. injection Hmade as _ <-.
  apply calm_answer in Hrun as (n & f2 & Hmeta & Hrun); [|steady].
  apply calm_map_err_answer in Hmeta. rewrite calm_look in Hmeta. injection Hmeta as _ <-.
  destruct (_ || _); [done|].
  apply IH in Hrun; [| |done].
  2: { apply resolve_dir. econstructor; [|done|apply lookup_insert_eq|done].
       apply real_dir_insert; [done|]. eapply real_dir_real; [by eapply resolve_real|done|done]. }
  rewrite <-app_assoc in Hrun. eapply only_dirs_trans; [|exact Hrun].
  intros q. destruct (decide (q = base ++ [c])) as [->|Hne].
  - right. split; [done|]. split; [exists names; by rewrite <-app_assoc|].
    eexists. split; [apply lookup_insert_eq|done].
  - left. by rewrite lookup_insert_ne.
Qed.

Lemma only_dirs_rooted dirs f0 f : only_dirs dirs f0 f → rooted f0 → rooted f.
Proof. intros Hf (n & Hn & Hk). exists n. split; [by eapply only_dirs_dir|done]. Qed.

(** A secure directory is where it says, and only directories on the way to it are new. *)
Lemma secure_dir_calm euid umask current_dir (p : Path) (f : Fs) u (f' : Fs) : rooted f →
  calm (create_secure_dir euid umask current_dir p) f = (inr u, f') →
  plain p ∧ only_dirs (λ q, q `prefix_of` p) f f' ∧ resolve f' p = inr p.
Proof.
  intros Hroot. unfold create_secure_dir, io, canonicalize.
  intros (expected & f1 & Hsec & Hrun)%calm_answer; [|apply steady_secure].
  apply secure_calm in Hsec as (-> & -> & Hne & Hp & Hl); [|done].
  apply calm_answer in Hrun as ([e m] & f1 & Hmiss & Hrun); [|apply steady_missing].
  pose proof (calm_read_only _ f (read_only_missing p (rev p) [])) as H1.
  rewrite Hmiss in H1. cbn in H1. subst f1.
  apply (missing_calm p (rev p) []) in Hmiss as ((n & Hn) & names & Heq & ->).
  rewrite rev_involutive, app_nil_r in Heq. rewrite rev_involutive in Hrun.
  apply calm_answer in Hrun as (u' & f1 & Hrej & Hrun); [|apply steady_reject].
  pose proof (calm_read_only _ f (read_only_reject_symlinks (prefixes e))) as H1.
  unfold reject_symlink_components in Hrej. rewrite Hrej in H1. cbn in H1. subst f1.
  assert (Hpe : plain e ∧ plain names) by (rewrite Heq in Hp; by apply Forall_app in Hp).
  destruct Hpe as [Hpe Hpn]. apply stat_resolve in Hn as (q & Hq & _).
  assert (q = e) as ->.
  { eapply resolve_unlinked; [done|done| |done]. eapply no_links_prefix; [|done].
    by exists names. }
  apply calm_answer in Hrun as (u'' & f1 & Hmake & Hrun); [|apply steady_make_directories].
  apply make_calm in Hmake; [|done|done]. rewrite <-Heq in Hmake.
  apply calm_answer in Hrun as (c & f2 & Hcan & Hrun); [|steady].
  apply calm_map_err_answer in Hcan. rewrite calm_look in Hcan. injection Hcan as Hcan <-.
  case_bool_decide as Hc; cbn in Hrun; [|done]. injection Hrun as _ <-. subst c. by split.
Qed.

Lemma outcome_calm {E A : Type} (m : Act E A) (P : Fs → Prop) (Q : A → Fs → Prop)
    (R : E → Fs → Prop) (f : Fs) a (f' : Fs) :
  outcome P m Q R → P f → calm m f = (inr a, f') → Q a f'.
Proof.
  intros Hm Hf. specialize (Hm (mkFsWorld f []) Hf). unfold calm.
  destruct (m _) as [[e|b] w]; [done|]. by intros [= -> <-].
Qed.

Lemma steady_write_open wrote q content executable : steady (write_open_file wrote q content executable).
Proof. unfold write_open_file, io, fstat, fset_permissions. steady. Qed.

Lemma steady_removing p (m : Act Error ()) : steady m → steady (removing_on_failure p m).
Proof. intros Hm. unfold removing_on_failure, remove_file. steady. Qed.

Lemma steady_open_new euid umask p directory : steady (open_new euid umask p directory).
Proof. unfold open_new, create_new. steady. Qed.

Lemma steady_exclusive euid umask wrote p directory content executable :
  steady (write_exclusive euid umask wrote p directory content executable).
Proof.
  unfold write_exclusive. apply steady_bind; [apply steady_try, steady_open_new|].
  intros [e|q]; [steady|]. apply steady_removing, steady_write_open.
Qed.

Lemma steady_create_temp euid umask pid tries path dir name : ∀ sequence,
  steady (create_temp euid umask pid tries path dir name sequence).
Proof.
  induction tries as [|tries IH]; intros sequence; cbn [create_temp]; [done|].
  apply steady_bind; [apply steady_try, steady_open_new|].
  intros [e|q]; [|done]. by case_bool_decide.
Qed.

Lemma steady_replacing euid umask pid wrote p directory content executable sequence :
  steady (write_replacing euid umask pid wrote p directory content executable sequence).
Proof.
  unfold write_replacing, create_sibling_temp. apply steady_bind.
  { destruct (parent p); [|done]. destruct (file_name p); [|done]. apply steady_create_temp. }
  intros [[temp file] s]. apply steady_bind; [|done]. apply steady_removing.
  unfold fill_and_swap, symlink_metadata_of, symlink_metadata, rename_to, rename, io, fset_permissions.
  apply steady_bind; [steady|]. intros found. apply steady_bind; [steady|]. intros u.
  apply steady_bind; [apply steady_write_open|]. intros u'. steady.
Qed.

Lemma steady_write_one euid umask pid current_dir wrote root overwrite f sequence :
  steady (write_one euid umask pid current_dir wrote root root overwrite f sequence).
Proof.
  unfold write_one. apply steady_bind; [done|]. intros rel. apply steady_bind; [done|]. intros u.
  apply steady_bind.
  { destruct (parent _); [|done]. apply steady_bind; [apply steady_secure_dir|]. intros u'.
    unfold io, canonicalize. steady. }
  intros u'. destruct overwrite; [apply steady_replacing|].
  apply steady_bind; [apply steady_exclusive|done].
Qed.

(** *** A run that succeeds *)

Section Calm.
Context (euid umask pid : N) (current_dir : IoError + Path) (wrote : nat).
Context (root : Path) (overwrite : bool).

(** On the way to the root, or below it. *)
Definition on_the_way (q : Path) : Prop := q `prefix_of` root ∨ below root q.

Lemma prefix_on_the_way rel (q : Path) : q `prefix_of` root ++ rel → on_the_way q.
Proof using.
  intros [x Hx]. destruct (prefix_weak_total q root (root ++ rel)) as [Hp|Hp];
    [by exists x|by exists rel|by left|].
  destruct Hp as [y ->]. destruct y as [|c y]; [left; by rewrite app_nil_r|right].
  by exists (c :: y).
Qed.

(** What one file's turn does when it succeeds. *)
Definition written (f : RenderedFile) (f0 f2 : Fs) : Prop :=
  below root (rf_path f) ∧ ∃ f1 n, only_dirs on_the_way f0 f1 ∧ f2 = <[rf_path f := n]> f1 ∧
    holds_file (as_bytes (rf_content f)) (rf_executable f) n ∧
    (overwrite = false → f1 !! rf_path f = None) ∧
    match f1 !! rf_path f with Some t => is_dir t = false | None => True end.

Lemma write_body_calm dir0 c directory content executable sequence (f : Fs) s (f2 : Fs) :
  resolve f dir0 = inr dir0 → c ≠ dotdot →
  calm (if overwrite
     then write_replacing euid umask pid wrote (dir0 ++ [c]) directory content executable sequence
     else write_exclusive euid umask wrote (dir0 ++ [c]) directory content executable
          ≫= λ _, mret sequence) f = (inr s, f2) →
  ∃ n, f2 = <[dir0 ++ [c] := n]> f ∧ holds_file content executable n ∧
    (overwrite = false → f !! (dir0 ++ [c]) = None) ∧
    match f !! (dir0 ++ [c]) with Some t => is_dir t = false | None => True end.
Proof using.
  intros Hr Hc. destruct overwrite.
  - intros Hrun. destruct (outcome_calm _ _ _ _ _ _ _
      (replacing_outcome euid umask pid wrote f dir0 dir0 Hr c directory content executable
        sequence Hc) eq_refl Hrun) as (n & -> & Hn & Ht). by exists n.
  - intros (u & f1 & Hrun & Hret)%calm_answer; [|apply steady_exclusive].
    injection Hret as _ <-.
    destruct (outcome_calm _ _ _ _ _ _ _ (exclusive_outcome euid umask wrote f dir0 dir0 Hr c
      directory content executable Hc) eq_refl Hrun) as ((Hq & n & -> & Hn) & m & Hm & Hh).
    rewrite lookup_insert_eq in Hm. injection Hm as ->. exists m. by rewrite Hq.
Qed.

Lemma write_one_calm file sequence (f : Fs) s (f2 : Fs) : rooted f →
  calm (write_one euid umask pid current_dir wrote root root overwrite file sequence) f = (inr s, f2) →
  written file f f2.
Proof using.
  intros Hroot. unfold write_one.
  destruct (strip_path root (rf_path file)) as [rel|] eqn:Hs; [|done].
  apply strip_path_Some in Hs.
  intros (r & f1 & [= <- <-] & Hrun)%calm_answer; [|done].
  apply calm_answer in Hrun as (u & f1 & Hv & Hrun); [|done].
  destruct (validate_rendered_path _) as [|[]] eqn:Hval; [done|]. injection Hv as _ <-.
  apply valid_names in Hval as [Hne Hplain].
  destruct rel as [|c rel _] using rev_ind; [done|]. rewrite app_assoc in Hs.
  assert (Hbelow : below root (rf_path file)).
  { exists (rel ++ [c]). split; [done|]. by rewrite Hs, app_assoc. }
  rewrite Hs in Hrun.
  assert (Hpar : parent ((root ++ rel) ++ [c]) = Some (root ++ rel)).
  { destruct ((root ++ rel) ++ [c]) eqn:E; [by destruct (root ++ rel)|].
    unfold parent. rewrite <-E. by rewrite removelast_last. }
  rewrite Hpar in Hrun. apply Forall_app in Hplain as [_ [Hc _]%Forall_cons].
  apply calm_answer in Hrun as (u' & f1 & Hdir & Hrun).
  2: { apply steady_bind; [apply steady_secure_dir|]. intros ?. unfold io, canonicalize. steady. }
  apply calm_answer in Hdir as (u'' & f3 & Hdir & Hcan); [|apply steady_secure_dir].
  apply secure_dir_calm in Hdir as (_ & Honly & Hres); [|done].
  assert (Hf : f1 = f3).
  { unfold io, canonicalize in Hcan. apply calm_answer in Hcan as (cp & f4 & Hcp & Hcan); [|steady].
    apply calm_map_err_answer in Hcp. rewrite calm_look in Hcp. injection Hcp as _ <-.
    destruct (negb _); [done|]. by injection Hcan as _ <-. }
  subst f3. apply write_body_calm in Hrun as (n & -> & Hn & Ho & Ht); [|done|done].
  split; [done|]. exists f1, n. rewrite Hs. split; [|done].
  eapply only_dirs_weaken; [|done]. intros q. apply prefix_on_the_way.
Qed.

(** What a run of the loop does: files at the planned paths, directories on the way. *)
Record complete (files : list RenderedFile) (f0 f : Fs) : Prop := {
  complete_frame : ∀ q, q ∉ map rf_path files →
    f !! q = f0 !! q ∨ (f0 !! q = None ∧ on_the_way q ∧ ∃ n, f !! q = Some n ∧ is_dir n = true);
  complete_files : ∀ before file after, files = before ++ file :: after →
    rf_path file ∉ map rf_path after →
    below root (rf_path file) ∧
    ∃ n, f !! rf_path file = Some n ∧
         holds_file (as_bytes (rf_content file)) (rf_executable file) n;
  complete_new : overwrite = false →
    NoDup (map rf_path files) ∧ ∀ q, q ∈ map rf_path files → f0 !! q = None;
}.

Lemma written_frame file f0 f2 q : written file f0 f2 → q ≠ rf_path file →
  f2 !! q = f0 !! q ∨ (f0 !! q = None ∧ on_the_way q ∧ ∃ n, f2 !! q = Some n ∧ is_dir n = true).
Proof using.
  intros (_ & f1 & n & Honly & -> & _) Hq. rewrite lookup_insert_ne by done. apply Honly.
Qed.

Lemma written_rooted file f0 f2 : rooted f0 → written file f0 f2 → rooted f2.
Proof using.
  intros (r & Hr & Hd) Hw.
  assert (Hq : [] ≠ rf_path file).
  { destruct Hw as [(rel & Hrel & ->) _]. by destruct root; [destruct rel|]. }
  exists r. destruct (written_frame file f0 f2 [] Hw Hq) as [->|(Hn & _)]; [done|congruence].
Qed.

Lemma complete_cons file files f0 f1 f2 :
  written file f0 f1 → complete files f1 f2 → complete (file :: files) f0 f2.
Proof using.
  intros Hw [Hframe Hfiles Hnew]. pose proof Hw as (Hbelow & g & n & Honly & Hf1 & Hn & Ho & Ht).
  split.
  - intros q [Hq Hrest]%not_elem_of_cons.
    destruct (Hframe q Hrest) as [->|(E & D & m & M & K)]; [by apply (written_frame file)|].
    right. split; [|eauto]. destruct (written_frame file f0 f1 q Hw Hq) as [<-|(? & _)]; done.
  - intros before file' after Heq Hafter. destruct before as [|b before]; injection Heq as -> ->.
    + split; [done|]. exists n. split; [|done].
      destruct (Hframe (rf_path file') Hafter) as [->|(E & _)];
        rewrite Hf1, lookup_insert_eq in *; done.
    + by eapply Hfiles.
  - intros Hover. specialize (Hnew Hover) as [Hnd Hfresh]. specialize (Ho Hover). cbn.
    assert (Hfile : f0 !! rf_path file = None).
    { destruct (Honly (rf_path file)) as [<-|(? & _)]; done. }
    split.
    + constructor; [|done]. intros Hin. specialize (Hfresh _ Hin). by rewrite Hf1, lookup_insert_eq in Hfresh.
    + intros q [->|Hin]%elem_of_cons; [done|]. specialize (Hfresh _ Hin).
      destruct (decide (q = rf_path file)) as [->|Hne]; [done|].
      destruct (written_frame file f0 f1 q Hw Hne) as [<-|(? & _)]; done.
Qed.

Lemma write_files_calm files : ∀ sequence (f : Fs) u (f2 : Fs), rooted f →
  calm (write_files euid umask pid current_dir wrote root root overwrite files sequence) f = (inr u, f2) →
  complete files f f2.
Proof using.
  induction files as [|file files IH]; intros sequence f u f2 Hroot; cbn [write_files].
  { intros [= _ <-]. split; [by left| |].
    - intros before file after Heq. by destruct before.
    - intros _. split; [constructor|]. by intros q ?%not_elem_of_nil. }
  intros (s & f1 & Hone & Hrun)%calm_answer; [|apply steady_write_one].
  apply write_one_calm in Hone; [|done].
  eapply complete_cons; [exact Hone|]. eapply IH; [|exact Hrun]. by eapply written_rooted.
Qed.
End Calm.

Lemma complete_over_dirs root overwrite files (f0 f1 f2 : Fs) : only_dirs (on_the_way root) f0 f1 →
  complete root overwrite files f1 f2 → complete root overwrite files f0 f2.
Proof.
  intros Hd [Hframe Hfiles Hnew]. split; [|done|].
  - intros q Hq. destruct (Hframe q Hq) as [->|(E & D & n & N & K)]; [apply Hd|].
    right. split; [|eauto]. destruct (Hd q) as [<-|(? & _)]; done.
  - intros Hover. destruct (Hnew Hover) as [Hnd Hfresh]. split; [done|].
    intros q Hq. specialize (Hfresh q Hq). destruct (Hd q) as [<-|(? & _)]; done.
Qed.

(** A scaffold that succeeds is complete and exact.  When no call fails from outside and
    the run succeeds, each planned file (the last of those planned at one path) is there
    with its contents, executable when planned so; without overwriting the paths are
    distinct and nothing was there before; at every other path the tree is as it was,
    but for new directories below the target or on the way to it. *)
Theorem write_complete euid umask pid current_dir wrote p overwrite sequence (f : Fs) u (f' : Fs) :
  rooted f →
  calm (write euid umask pid current_dir wrote p overwrite sequence) f = (inr u, f') →
  complete (p_root p) overwrite (p_files p) f f'.
Proof.
  intros Hroot. unfold write.
  intros (planned & f1 & Hsec & Hrun)%calm_answer; [|apply steady_secure].
  apply secure_calm in Hsec as (-> & -> & _ & _ & _); [|done].
  case_bool_decide; cbn [negb] in Hrun; [|done].
  apply calm_answer in Hrun as (u' & f1 & Hdir & Hrun); [|apply steady_secure_dir].
  apply secure_dir_calm in Hdir as (_ & Honly & Hres); [|done].
  apply calm_answer in Hrun as (c & f2 & Hcan & Hrun); [|unfold io, canonicalize; steady].
  apply calm_map_err_answer in Hcan. unfold canonicalize in Hcan. rewrite calm_look in Hcan.
  injection Hcan as Hcan <-. case_bool_decide; cbn [negb] in Hrun; [|done]. subst c.
  eapply complete_over_dirs.
  - eapply only_dirs_weaken; [|exact Honly]. intros q Hq. by left.
  - eapply write_files_calm; [|exact Hrun]. by eapply only_dirs_rooted.
Qed.

(** *** Planning *)

Definition default_of (t : Template) (k : str) : option str :=
  last (omap (λ v, if str_eqb (v_name v) k then v_default v else None) (t_variables t)).

Lemma bind_variables_lookup (user : Vars) (k : str) (vs : list TemplateVariable) : ∀ out : Vars,
  foldl (bind_variable user) out vs !! k =
  match user !! k with
  | Some v => if existsb (λ x, str_eqb (v_name x) k) vs then Some v else out !! k
  | None => match last (omap (λ v, if str_eqb (v_name v) k then v_default v else None) vs) with
            | Some d => Some d
            | None => out !! k
            end
  end.
Proof.
  induction vs as [|v vs IH]; intros out; [by destruct (user !! k)|].
  cbn [foldl existsb omap list_omap]. rewrite IH. clear IH.
  change (list_omap _ _) with (omap (λ v, if str_eqb (v_name v) k then v_default v else None)).
  unfold bind_variable. destruct (str_eqb (v_name v) k) eqn:E.
  - apply str_eqb_eq in E as <-. destruct (user !! v_name v) as [val|]; cbn.
    + rewrite lookup_insert_eq. by destruct (existsb _ vs).
    + destruct (v_default v) as [d|]; [|done].
      rewrite last_cons, lookup_insert_eq. by destruct (last _).
  - apply str_eqb_neq in E. cbn.
    assert (Hout : (match user !! v_name v with
      | Some val => <[v_name v:=val]> out
      | None => match v_default v with Some def => <[v_name v:=def]> out | None => out end
      end) !! k = out !! k).
    { destruct (user !! v_name v); [by rewrite lookup_insert_ne|].
      destruct (v_default v); [by rewrite lookup_insert_ne|done]. }
    by rewrite Hout.
Qed.

(** What a template's variables are bound to.  A value given by the user always stands,
    declared or not; otherwise the last default declared for the name; otherwise nothing.
    When the variables were validated, every required one is bound. *)
Theorem resolve_vars_spec (t : Template) (user : Vars) :
  (∀ k, resolve_vars t user !! k = match user !! k with Some v => Some v | None => default_of t k end) ∧
  (validate_vars t user = inr () → ∀ v, v ∈ t_variables t → v_required v = true →
     is_Some (resolve_vars t user !! v_name v)).
Proof.
  assert (Hk : ∀ k, resolve_vars t user !! k =
    match user !! k with Some v => Some v | None => default_of t k end).
  { intros k. unfold resolve_vars. rewrite lookup_union, bind_variables_lookup, lookup_empty.
    unfold default_of. destruct (user !! k) as [v|].
    - by destruct (existsb _ _).
    - by destruct (last _). }
  split; [exact Hk|]. intros Hval v Hv Hr. rewrite Hk.
  destruct (user !! v_name v) as [val|] eqn:Hu; [done|].
  assert (Hd : v_default v ≠ None).
  { unfold validate_vars in Hval. clear Hk. induction (t_variables t) as [|x vs IH];
      [by apply not_elem_of_nil in Hv|]. cbn in Hval.
    destruct (v_required x && _ && _) eqn:Hx; [done|].
    apply elem_of_cons in Hv as [->|Hv]; [|by apply IH]. intros Hd.
    by rewrite Hr, Hu, Hd in Hx. }
  unfold default_of. clear Hval Hk. apply list_elem_of_split in Hv as (l1 & l2 & ->).
  destruct (v_default v) as [d|] eqn:E; [|done].
  rewrite omap_app. cbn.
  assert (str_eqb (v_name v) (v_name v) = true) as -> by (by apply str_eqb_eq). rewrite E.
  rewrite last_app, last_cons. by destruct (last _).
Qed.

(** The names a rendered path may be made of. *)
Definition safe_name (c : str) : Prop :=
  (c ≠ []) ∧ (c ≠ $".") ∧ (c ≠ dotdot) ∧ (ch_slash ∉ c) ∧ (backslash ∉ c) ∧ (nul ∉ c).

Lemma split_char_subset d s c : c ∈ split_char d s → (d ∉ c) ∧ ∀ x, x ∈ c → x ∈ s.
Proof.
  revert c. induction s as [|x s IH]; intros c; cbn.
  { intros ->%list_elem_of_singleton. split; [by intros ?%not_elem_of_nil|by intros x' ?%not_elem_of_nil]. }
  destruct (x =? d) eqn:E.
  - intros [->|[? ?]%IH]%elem_of_cons.
    + split; [by intros ?%not_elem_of_nil|by intros x' ?%not_elem_of_nil].
    + split; [done|]. intros y Hy. right. auto.
  - destruct (split_char d s) as [|w ws] eqn:Hs; [by destruct (split_char_nonempty d s)|].
    apply N.eqb_neq in E. intros [->|Hin]%elem_of_cons.
    + destruct (IH w) as [Hd Hw]; [by left|]. split.
      * intros [?|?]%elem_of_cons; [by subst|done].
      * intros y [->|Hy]%elem_of_cons; [by left|right; auto].
    + destruct (IH c) as [Hd Hw]; [by right|]. split; [done|]. intros y Hy. right. auto.
Qed.

Lemma not_contains_char s d : contains_char s d = false → d ∉ s.
Proof.
  unfold contains_char. intros Hc Hin. revert Hc. apply not_false_iff_true, existsb_exists.
  exists d. split; [by apply list_elem_of_In|apply N.eqb_refl].
Qed.

Lemma valid_path_names r : validate_rendered_path r = inr () →
  path_components r ≠ [] ∧ Forall safe_name (path_components r).
Proof.
  unfold validate_rendered_path.
  destruct (is_empty r) eqn:He, (contains_char r nul) eqn:Hnul, (contains_char r backslash) eqn:Hb,
    (drive_prefixed r), (all_normal r) eqn:Ha; try done. intros _.
  apply not_contains_char in Hnul, Hb. unfold all_normal in Ha.
  apply andb_true_iff in Ha as [[Habs Hdd]%andb_true_iff Hfirst].
  apply negb_true_iff in Habs, Hdd, Hfirst. split.
  - destruct r as [|x r]; [done|]. unfold is_absolute in Habs. unfold path_components. cbn in *.
    destruct (x =? ch_slash) eqn:E.
    { apply N.eqb_eq in E as ->. by vm_compute in Habs. }
    destruct (split_char ch_slash r) as [|w ws];
      cbn [List.filter is_empty negb andb]; by rewrite Hfirst.
  - apply Forall_forall. intros c Hin%list_elem_of_In.
    unfold path_components in Hin. pose proof Hin as [Hs Hc]%filter_In.
    apply andb_true_iff in Hc as [Hc1%negb_true_iff Hc2%negb_true_iff%str_eqb_neq].
    apply list_elem_of_In, split_char_subset in Hs as [Hsl Hsub].
    repeat split; [by intros ->|done| |done|auto|auto].
    intros ->. revert Hdd. apply not_false_iff_true, existsb_exists.
    exists dotdot. split; [exact Hin|by apply str_eqb_eq].
Qed.

Lemma collect_answer {A B : Type} (g : A → Error + B) l : ∀ bs, collect g l = inr bs →
  Forall2 (λ a b, g a = inr b) l bs.
Proof.
  induction l as [|a l IH]; intros bs; cbn; [by intros [= <-]|].
  destruct (g a) as [|b] eqn:Hg; [done|]. destruct (collect g l) as [|bs'] eqn:Hl; [done|].
  intros [= <-]. constructor; auto.
Qed.

(** A plan only names paths inside its target.  Planning changes nothing on the disk; the
    plan has one file per file of the template, whose contents are the rendered ones;
    its path is the target followed by at least one name, and no name is empty, a dot,
    two dots, or has a slash, a backslash or a NUL in it, whatever the values of the
    variables. *)
Theorem plan_inside (render : str → Vars → str + str) (current_dir : IoError + Path)
    (t : Template) (target : PathArg) (vars : Vars) (w : FsWorld) (p : RenderPlan) (w' : FsWorld) :
  plan render current_dir t target vars w = (inr p, w') →
  tree w' = tree w ∧ p_root p ≠ [] ∧
  Forall2 (λ tf rf, rf_executable rf = tf_executable tf ∧
      substitute render (tf_content tf) (resolve_vars t vars) = inr (rf_content rf) ∧
      ∃ rel, rf_path rf = p_root p ++ rel ∧ rel ≠ [] ∧ Forall safe_name rel)
    (t_files t) (p_files p).
Proof.
  intros Hrun. assert (Hro : read_only (plan render current_dir t target vars)).
  { unfold plan. apply read_only_bind; [done|]. intros u.
    apply read_only_bind; [apply read_only_secure|]. intros root.
    apply read_only_bind; [done|]. intros files. by apply read_only_bind. }
  specialize (Hro w). rewrite Hrun in Hro. split; [exact Hro|]. clear Hro. unfold plan in Hrun.
  apply bind_answer in Hrun as (u & w1 & _ & _ & Hrun); [|done].
  apply bind_answer in Hrun as (root & w2 & Hsec & _ & Hrun); [|apply read_only_secure].
  apply bind_answer in Hrun as (files & w3 & Hfiles & _ & Hrun); [|done].
  apply bind_answer in Hrun as (hooks & w4 & _ & _ & [= <- _]); [|done]. cbn.
  split.
  - unfold secure_target_path in Hsec. destruct (_ || _); [done|].
    apply bind_answer in Hsec as (a & w5 & _ & _ & Hsec);
      [|unfold io; destruct (arg_absolute target); read_only].
    apply bind_answer in Hsec as (? & w6 & _ & _ & Hsec); [|apply read_only_reject_symlinks].
    apply bind_answer in Hsec as ([e s] & w7 & _ & _ & Hsec); [|apply read_only_nearest].
    apply bind_answer in Hsec as (? & w8 & _ & _ & Hsec); [|apply read_only_reject_symlinks].
    apply bind_answer in Hsec as (r & w9 & _ & _ & Hsec); [|unfold io; read_only].
    destruct (parent (r ++ rev s)) eqn:Hp; [|done]. injection Hsec as <- _. by intros Hr; rewrite Hr in Hp.
  - injection Hfiles as Hfiles _. apply collect_answer in Hfiles.
    eapply Forall2_impl; [exact Hfiles|]. intros tf rf. unfold render_file. cbn beta.
    destruct (substitute _ (tf_path tf) _) as [|r]; [done|].
    destruct (validate_rendered_path r) as [|[]] eqn:Hv; [done|].
    destruct (substitute _ (tf_content tf) _) as [|content]; [done|]. intros [= <-]. cbn.
    split; [done|]. split; [done|]. exists (path_components r).
    split; [done|]. by apply valid_path_names.
Qed.

(** ** Examples *)

Module Examples.
Definition dir : Node := mkNode Dir 1000 493.
Definition tree0 : gmap Path Node := list_to_map [
  ([], dir); ([ $"w"], dir); ([ $"w"; $"old"], mkNode (File (as_bytes $"kept")) 1000 420);
  ([ $"w"; $"link"], mkNode (Symlink true [ $"w"; $"old"]) 1000 511)].

(** A renderer that puts the variable [name] in the place of a lone [@]. *)
Definition render (input : str) (vars : gmap str str) : str + str :=
  inr (concat (map (λ c, if c =? 64 then default [] (vars !! $"name") else [c]) input)).

Definition template : Template :=
  mkTemplate $"t" [] BuiltIn Development
    [mkVariable $"name" None (Some $"demo") true]
    [mkTemplateFile $"@/run.sh" $"echo @" true] [].

Definition planned : RenderPlan :=
  mkPlan [ $"w"; $"out"]
    [mkRendered [ $"w"; $"out"; $"demo"; $"run.sh"] false $"echo demo" true] [].

(** Planning in [/w], from the relative target [out]. *)
Lemma plan_inside_witness :
  plan render (inr [ $"w"]) template (arg_of $"out") ∅ (mkFsWorld tree0 []) =
    (inr planned, mkFsWorld tree0 []) ∧ p_root planned ≠ [].
Proof.
  assert (Hrun : plan render (inr [ $"w"]) template (arg_of $"out") ∅ (mkFsWorld tree0 []) =
    (inr planned, mkFsWorld tree0 [])) by (vm_compute; reflexivity).
  split; [exact Hrun|].
  exact (proj1 (proj2 (plan_inside render (inr [ $"w"]) template (arg_of $"out") ∅ _ _ _ Hrun))).
Defined.

Definition run (overwrite : bool) : (Error + ()) * gmap Path Node :=
  calm (write 1000 18 7 (inr [ $"w"]) 0 planned overwrite 0) tree0.

Lemma write_complete_witness :
  complete (p_root planned) false (p_files planned) tree0 (run false).2 ∧
  (run false).2 !! [ $"w"; $"out"; $"demo"; $"run.sh"] =
    Some (mkNode (File (as_bytes $"echo demo")) 1000 493).
Proof.
  split; [|vm_compute; reflexivity].
  apply (write_complete 1000 18 7 (inr [ $"w"]) 0 planned false 0 tree0 tt).
  - exists dir. split; [vm_compute|]; reflexivity.
  - apply calm_pair. vm_compute. reflexivity.
Defined.

(** A link at a planned path is replaced, and what it points to stays. *)
Example link_replaced :
  let '(r, f) := calm (write 1000 18 7 (inr [ $"w"]) 0
    (mkPlan [ $"w"] [mkRendered [ $"w"; $"link"] false $"new" false] []) true 0) tree0 in
  r = inr tt ∧ f !! [ $"w"; $"link"] = Some (mkNode (File (as_bytes $"new")) 1000 420) ∧
  f !! [ $"w"; $"old"] = tree0 !! [ $"w"; $"old"].
Proof. vm_compute. auto. Qed.

Lemma resolve_vars_spec_witness :
  validate_vars template ∅ = inr () ∧ is_Some (resolve_vars template ∅ !! $"name").
Proof.
  assert (Hv : validate_vars template ∅ = inr ()) by (vm_compute; reflexivity).
  split; [exact Hv|].
  apply (proj2 (resolve_vars_spec template ∅) Hv (mkVariable $"name" None (Some $"demo") true));
    [by left|reflexivity].
Defined.
End Examples.
