(* ===== verification/Standard.v ===== *)
(** * Project standardisation: [rtrt-templates], project.rs

    The numbered sections of a project contract, what a repository lacks of the standard
    ones, and the repair that appends the missing sections and installs the missing
    agents.  [Repair] shows what the repair leaves on the disk.  The templates and
    Handlebars are arguments. *)
From stdpp Require Import gmap sets.
From S2P Require Import Prelude Str Utf8 Error.
From S2P Require Import Fs Files Project Scaffold.

Definition FIRST_MANAGED_SECTION : N := 1.
Definition LAST_MANAGED_SECTION : N := 7.
Definition CONTRACT_PATH : Path := [ $"CLAUDE.md"].
Definition AGENTS_DIR : Path := [ $".claude"; $"agents"].

(** ** Sections *)

Record ParsedSection := mkSection {
  sec_number : N;
  sec_title : str;
  sec_content : str;
}.

(** Both branches of the managed range answer the same. *)
Definition parse_section_heading (line : str) : option (N * str) :=
  match strip_prefix $"## " (trim_end line) with
  | None => None
  | Some rest =>
      match split_once_char 46 rest with
      | None => None
      | Some (number, title) =>
          match parse_uint 255 (trim number) with
          | None => None
          | Some number => Some (number, trim title)
          end
      end
  end.

Definition section_of (open : option (N * str * str)) : list ParsedSection :=
  match open with
  | Some (number, title, text) => [mkSection number title (trim_end text)]
  | None => []
  end.

(** A section runs from its heading to the next one; [open] is the section the lines
    before belong to. *)
Fixpoint sections_from (open : option (N * str * str)) (ls : list str) : list ParsedSection :=
  match ls with
  | [] => section_of open
  | line :: ls' =>
      match parse_section_heading line with
      | Some (number, title) => section_of open ++ sections_from (Some (number, title, line)) ls'
      | None =>
          sections_from match open with
                        | Some (number, title, text) => Some (number, title, text ++ line)
                        | None => None
                        end ls'
      end
  end.
Definition parse_sections (input : str) : list ParsedSection :=
  sections_from None (split_inclusive_nl input).

(** ** Inspection *)

Record SectionStatus := mkSectionStatus {
  ss_number : N;
  ss_title : str;
  ss_present : bool;
  ss_stale : bool;
}.
Record AgentStatus := mkAgentStatus {
  ag_name : str;
  ag_path : Path;
  ag_present : bool;
}.
Record ProjectInspection := mkInspection {
  in_root : Path;
  in_contract_present : bool;
  in_sections : list SectionStatus;
  in_managed_agents : list AgentStatus;
  in_present_agents : list str;
  in_extra_sections : list N;
  in_duplicate_sections : list N;
}.

Inductive RepairAction :=
| CreateContract (path : Path)
| AppendSection (number : N) (title : str)
| InstallAgent (path : Path).

Record ProjectRepairPlan := mkRepairPlan {
  rp_root : Path;
  rp_actions : list RepairAction;
  rp_contract_content : str;
  rp_missing_sections : list ParsedSection;
  rp_missing_agents : list (Path * str);
}.

Record RenderedStandardization := mkStandardization {
  contract_content : str;
  agent_files : list (Path * str);
}.

Definition validate_project_path (current_dir : IoError + Path) (path : PathArg) : Act Error Path :=
  if is_empty (arg_text path) then throw (Config $"project path is empty")
  else if existsb (str_eqb dotdot) (arg_components path)
  then throw (Config ($"project path must not contain '..': " ++ arg_text path))
  else
    absolute ← (if arg_absolute path then mret (arg_components path)
                else cwd ← io (of_sum current_dir); mret (cwd ++ arg_components path));
    canonical ← io (canonicalize absolute);
    directory ← holds_at is_dir canonical;
    if negb directory
    then throw (Config ($"project path is not a directory: " ++ display canonical))
    else mret canonical.

Definition is_safe_relative_path (p : Path) : bool := negb (existsb (str_eqb dotdot) p).

Definition nonblank (name : str) : option str :=
  if is_empty (trim name) then None else Some name.

(** [default_vars]. *)
Definition default_vars (root : Path) : gmap str str :=
  let project_name := default $"project" (file_name root ≫= nonblank) in
  list_to_map [
    ($"project_name", project_name); ($"license", $"MIT"); ($"language", $"Rust");
    ($"framework", []); ($"target_platform", $"Linux / macOS / Windows");
    ($"deployment", $"GitHub Actions")].

(** One turn of the loop of [rendered_contract]. *)
Definition sort_file (planned_root : Path) (acc : option str * list (Path * str)) (f : RenderedFile) :
    Error + (option str * list (Path * str)) :=
  match strip_path planned_root (rf_path f) with
  | None => inl (Config ($"template path escaped root: " ++ display (rf_path f)))
  | Some relative =>
      if negb (is_safe_relative_path relative)
      then inl (Config ($"template path is not a safe relative path: " ++ display relative))
      else if bool_decide (relative = CONTRACT_PATH) then inr (Some (rf_content f), acc.2)
      else if starts_with_path relative AGENTS_DIR then inr (acc.1, acc.2 ++ [(relative, rf_content f)])
      else inr acc
  end.

Fixpoint sort_files (planned_root : Path) (acc : option str * list (Path * str)) (l : list RenderedFile) :
    Error + (option str * list (Path * str)) :=
  match l with
  | [] => inr acc
  | f :: l' => match sort_file planned_root acc f with
               | inl e => inl e
               | inr acc' => sort_files planned_root acc' l'
               end
  end.

Definition agent_name (p : Path) : str :=
  match file_name p with
  | Some name => (split_extension name).1
  | None => $"unknown"
  end.

Definition has_md_extension (name : str) : bool :=
  match (split_extension name).2 with Some ext => str_eqb ext $"md" | None => false end.

Definition agent_file_path (f : TemplateFile) : option str :=
  let comps := path_components (tf_path f) in
  if negb (is_absolute (tf_path f)) && starts_with_path comps AGENTS_DIR &&
     match file_name comps with Some name => has_md_extension name | None => false end
  then Some (tf_path f) else None.

(** [BTreeSet<u8>::insert]. *)
Fixpoint set_insert (x : N) (l : list N) : list N :=
  match l with
  | [] => [x]
  | y :: l' => if x <? y then x :: l else if x =? y then l else y :: set_insert x l'
  end.

(** One turn of the loop over the found sections: what was seen, duplicates, extras. *)
Definition classify (managed : list N) (acc : list N * list N * list N) (s : ParsedSection) :
    list N * list N * list N :=
  let '(seen, duplicates, extra) := acc in
  let n := sec_number s in
  if existsb (N.eqb n) managed
  then (set_insert n seen, (if existsb (N.eqb n) seen then set_insert n duplicates else duplicates),
        extra)
  else (seen, duplicates, set_insert n extra).

Definition found_sections (found : list ParsedSection) (number : N) : list ParsedSection :=
  List.filter (λ s, sec_number s =? number) found.

Definition section_status (found : list ParsedSection) (s : ParsedSection) : SectionStatus :=
  let items := found_sections found (sec_number s) in
  mkSectionStatus (sec_number s) (sec_title s)
    (match items with [] => false | _ => true end)
    (match items with i :: _ => negb (str_eqb (sec_title i) (sec_title s)) | [] => false end).

Section Inspect.
Variable render_template : str → Vars → str + str.
Variable builtins : list Template.
Variable custom : Error + list Template.
Variable current_dir : IoError + Path.

Definition standardization_template : Error + Template :=
  match List.find (λ t, str_eqb (t_name t) $"standardization") builtins with
  | Some t => inr t
  | None => inl (Config $"built-in standardization template is unavailable")
  end.

Definition contract_template (name : str) : Error + Template :=
  match find_template builtins custom name with
  | Some t => inr t
  | None => inl (Config ($"unknown template: " ++ name))
  end.

Definition rendered_contract (t : Template) (root : PathArg) (vars : Vars) :
    Act Error RenderedStandardization :=
  p ← plan render_template current_dir t root vars;
  sorted ← of_sum (sort_files (p_root p) (None, []) (p_files p));
  match sorted.1 with
  | Some content => mret (mkStandardization content sorted.2)
  | None => throw (Config $"standardization template lacks CLAUDE.md")
  end.

Definition rendered_standardization (root : PathArg) : Act Error RenderedStandardization :=
  template ← of_sum standardization_template;
  rendered_contract template root (default_vars (arg_components root)).

Definition rendered_contract_template (root : Path) (template_name : str) (vars : Vars) :
    Act Error RenderedStandardization :=
  template ← of_sum (contract_template template_name);
  rendered_contract template (absolute_arg root) (vars ∪ default_vars root).

Definition expected_sections (root : PathArg) : Act Error (list (N * str)) :=
  rendered ← rendered_standardization root;
  mret (map (λ s, (sec_number s, sec_title s)) (parse_sections (contract_content rendered))).

Definition expected_agents : Error + list str :=
  match standardization_template with
  | inl e => inl e
  | inr t => inr (omap agent_file_path (t_files t))
  end.

(** Each entry of a directory is one more call. *)
Fixpoint read_entries (names : list str) : Act Error () :=
  match names with
  | [] => mret ()
  | _ :: names' => io (look (λ _, inr ())) ≫= λ _, read_entries names'
  end.

Definition present_agent_names (root : Path) : Act Error (list str) :=
  there ← exists_ (root ++ AGENTS_DIR);
  if negb there then mret []
  else
    names ← io (read_dir (root ++ AGENTS_DIR));
    read_entries names ≫= λ _,
    mret (sort_by str_cmp (map (λ name, (split_extension name).1) (List.filter has_md_extension names))).

Fixpoint agent_statuses (root : Path) (agents : list (Path * str)) : Act Error (list AgentStatus) :=
  match agents with
  | [] => mret []
  | (path, _) :: rest =>
      present ← exists_ (root ++ path);
      statuses ← agent_statuses root rest;
      mret (mkAgentStatus (agent_name path) path present :: statuses)
  end.

Definition inspect_project_with_vars (root : PathArg) (template_name : str) (vars : Vars) :
    Act Error ProjectInspection :=
  root ← validate_project_path current_dir root;
  rendered ← rendered_contract_template root template_name vars;
  let expected := parse_sections (contract_content rendered) in
  contract_present ← exists_ (root ++ CONTRACT_PATH);
  found ← (if (contract_present : bool)
           then raw ← io (read_to_string (root ++ CONTRACT_PATH)); mret (parse_sections raw)
           else mret []);
  managed_agents ← agent_statuses root (agent_files rendered);
  present_agents ← present_agent_names root;
  let managed := map sec_number expected in
  let '(_, duplicates, extra) := foldl (classify managed) ([], [], []) found in
  mret (mkInspection root contract_present (map (section_status found) expected)
          managed_agents present_agents extra duplicates).

Definition inspect_project (root : PathArg) : Act Error ProjectInspection :=
  inspect_project_with_vars root $"standardization" ∅.

(** ** Repair *)

Definition missing_section (expected : list ParsedSection) (status : SectionStatus) :
    option ParsedSection :=
  if ss_present status then None
  else List.find (λ s, sec_number s =? ss_number status) expected.

Definition missing_agent (files : list (Path * str)) (status : AgentStatus) : option (Path * str) :=
  if ag_present status then None
  else List.find (λ f, bool_decide (f.1 = ag_path status)) files.

Definition plan_repair_with_vars (root : PathArg) (template_name : str) (vars : Vars) :
    Act Error ProjectRepairPlan :=
  root ← validate_project_path current_dir root;
  rendered ← rendered_contract_template root template_name vars;
  inspection ← inspect_project_with_vars (absolute_arg root) template_name vars;
  let missing_sections :=
    if negb (in_contract_present inspection) then []
    else omap (missing_section (parse_sections (contract_content rendered))) (in_sections inspection) in
  let missing_agents := omap (missing_agent (agent_files rendered)) (in_managed_agents inspection) in
  let actions :=
    (if negb (in_contract_present inspection) then [CreateContract CONTRACT_PATH]
     else map (λ s, AppendSection (sec_number s) (sec_title s)) missing_sections) ++
    map (λ f, InstallAgent f.1) missing_agents in
  mret (mkRepairPlan root actions (contract_content rendered) missing_sections missing_agents).

Definition plan_repair (root : PathArg) : Act Error ProjectRepairPlan :=
  plan_repair_with_vars root $"standardization" ∅.
End Inspect.

Section Apply.
Context (euid umask : N) (wrote : nat).

(** The text appended to the contract, and the loop that builds it. *)
Definition append_section (append : str) (s : ParsedSection) : str :=
  (if is_empty append then append else append ++ [ch_nl]) ++ trim_end (sec_content s) ++ [ch_nl].
Definition appended_sections (sections : list ParsedSection) : str :=
  foldl append_section [] sections.

Definition materialize_link (contract_path : Path) : Act Error () :=
  found ← try_ (symlink_metadata contract_path);
  if match found with inr n => is_symlink n | inl _ => false end
  then
    resolved ← try_ (read_to_string contract_path);
    let resolved := match resolved with inr s => s | inl _ => [] end in
    io (remove_file contract_path) ≫= λ _,
    io (write_file euid umask wrote contract_path (as_bytes resolved))
  else mret ().

(** The body of the loop over the missing agents. *)
Definition install_one (full_path : Path) (content : str) : Act Error () :=
  there ← exists_ full_path;
  if (there : bool) then mret ()
  else
    match parent full_path with
    | Some dir => io (create_dir_all euid umask dir)
    | None => mret ()
    end ≫= λ _,
    io (write_file euid umask wrote full_path (as_bytes content)).

Fixpoint install_agents (root : Path) (agents : list (Path * str)) : Act Error () :=
  match agents with
  | [] => mret ()
  | (path, content) :: rest =>
      install_one (root ++ path) content ≫= λ _, install_agents root rest
  end.

Definition repair_contract (p : ProjectRepairPlan) : Act Error () :=
  let contract_path := rp_root p ++ CONTRACT_PATH in
  there ← exists_ contract_path;
  if negb there then io (write_file euid umask wrote contract_path (as_bytes (rp_contract_content p)))
  else
    match rp_missing_sections p with
    | [] => mret ()
    | sections =>
        existing ← io (open_append contract_path);
        io (append_all wrote existing [ch_nl]) ≫= λ _,
        io (append_all wrote existing (as_bytes (appended_sections sections)))
    end.

Definition apply_repair (p : ProjectRepairPlan) : Act Error () :=
  materialize_link (rp_root p ++ CONTRACT_PATH) ≫= λ _,
  repair_contract p ≫= λ _,
  install_agents (rp_root p) (rp_missing_agents p).
End Apply.

(** ** The numbers of a text *)

Definition heading_number (line : str) : option N := fst <$> parse_section_heading line.
Definition numbers (s : str) : list N := omap heading_number (split_inclusive_nl s).

Lemma heading_trim a b : trim_end a = trim_end b → heading_number a = heading_number b.
Proof. unfold heading_number, parse_section_heading. by intros ->. Qed.

Lemma trim_end_snoc s c : is_whitespace c = true → trim_end (s ++ [c]) = trim_end s.
Proof.
  intros Hc. unfold trim_end, trim_end_matches. rewrite rev_app_distr. cbn. by rewrite Hc.
Qed.

(** One more character makes one more piece or lengthens the last. *)
Lemma split_snoc s c :
  split_inclusive_nl (s ++ [c]) = split_inclusive_nl s ++ [[c]] ∨
  ∃ i l, split_inclusive_nl s = i ++ [l] ∧ split_inclusive_nl (s ++ [c]) = i ++ [l ++ [c]].
Proof.
  induction s as [|x s IH].
  { left. cbn. by destruct (c =? ch_nl). }
  cbn. destruct (x =? ch_nl).
  { destruct IH as [->|(i & l & -> & ->)]; [by left|]. right. by exists ([x] :: i), l. }
  destruct IH as [->|(i & l & -> & ->)].
  - destruct (split_inclusive_nl s) as [|w ws]; [|by left]. right. by exists [], [x].
  - right. destruct i as [|w i]; [by exists [], (x :: l)|by exists ((x :: w) :: i), l].
Qed.

Lemma numbers_space s c : is_whitespace c = true → numbers (s ++ [c]) = numbers s.
Proof.
  intros Hc. unfold numbers. destruct (split_snoc s c) as [->|(i & l & -> & ->)]; rewrite !omap_app.
  - cbn. rewrite (heading_trim [c] []) by apply (trim_end_snoc [] c Hc). cbn. by rewrite app_nil_r.
  - cbn. by rewrite (heading_trim (l ++ [c]) l) by by apply trim_end_snoc.
Qed.

Lemma numbers_spaces s w : Forall (λ c, is_whitespace c = true) w → numbers (s ++ w) = numbers s.
Proof.
  induction w as [|c w IH] using rev_ind; [by rewrite app_nil_r|].
  intros [Hw [Hc _]%Forall_cons]%Forall_app. rewrite app_assoc, numbers_space by done. auto.
Qed.

Lemma numbers_trim_end s : numbers (trim_end s) = numbers s.
Proof.
  unfold trim_end, trim_end_matches.
  destruct (drop_while_suffix is_whitespace (rev s)) as (l & E & Hl).
  assert (Hs : s = rev (drop_while is_whitespace (rev s)) ++ rev l)
    by (by rewrite <-rev_app_distr, <-E, rev_involutive).
  rewrite Hs at 2. rewrite numbers_spaces; [done|]. by apply Forall_rev.
Qed.

Lemma numbers_app_nl a b : numbers (a ++ ch_nl :: b) = numbers a ++ numbers b.
Proof.
  rewrite <-(numbers_space a ch_nl) by done. unfold numbers.
  by rewrite split_inclusive_nl_app, omap_app.
Qed.

Lemma numbers_app a b : nl_terminated a → numbers (a ++ b) = numbers a ++ numbers b.
Proof.
  intros [->|[a' ->]]; [done|]. rewrite <-app_assoc. cbn [app].
  by rewrite numbers_app_nl, numbers_space.
Qed.

(** Lines as [split_inclusive] yields them. *)
Fixpoint pieces (ls : list str) : Prop :=
  match ls with
  | [] => True
  | l :: ls' => split_inclusive_nl l = [l] ∧ (nl_terminated l ∨ ls' = []) ∧ pieces ls'
  end.

Lemma pieces_split s : pieces (split_inclusive_nl s).
Proof.
  induction s as [|c s IH]; [done|]. cbn. destruct (c =? ch_nl) eqn:E.
  - apply N.eqb_eq in E as ->. split; [done|]. split; [|done]. left. right. by exists [].
  - destruct (split_inclusive_nl s) as [|w ws]; cbn.
    + rewrite E. auto.
    + destruct IH as (Hw & Ht & Hp). rewrite E, Hw. split; [done|]. split; [|done].
      destruct Ht as [[->|[w' ->]]|Ht]; [done| |by right]. left. right. by exists (c :: w').
Qed.

Lemma sections_numbers ls : ∀ open,
  map sec_number (sections_from open ls) =
  match open with Some (n, _, _) => [n] | None => [] end ++ omap heading_number ls.
Proof.
  induction ls as [|l ls IH]; intros open.
  { by destruct open as [[[n t] x]|]. }
  cbn [sections_from omap list_omap]. unfold heading_number at 1.
  change (list_omap _ _ heading_number ls) with (omap heading_number ls).
  destruct (parse_section_heading l) as [[n t]|]; cbn.
  - rewrite map_app, IH. by destruct open as [[[n' t'] x]|].
  - rewrite IH. by destruct open as [[[n' t'] x]|].
Qed.

(** The section numbers of a text are the numbers of its headings. *)
Lemma parse_numbers s : map sec_number (parse_sections s) = numbers s.
Proof. unfold parse_sections. by rewrite sections_numbers. Qed.

(** The open section's own heading is in its text. *)
Definition open_ok (open : option (N * str * str)) (ls : list str) : Prop :=
  match open with
  | Some (n, _, text) => n ∈ numbers text ∧ (nl_terminated text ∨ ls = [])
  | None => True
  end.

Lemma section_of_ok open ls s : open_ok open ls → s ∈ section_of open →
  sec_number s ∈ numbers (sec_content s).
Proof.
  destruct open as [[[n t] x]|]; cbn; [|by intros _ ?%not_elem_of_nil].
  intros [Hn _] ->%list_elem_of_singleton. cbn [sec_number sec_content]. by rewrite numbers_trim_end.
Qed.

Lemma sections_ok ls : ∀ open s, pieces ls → open_ok open ls → s ∈ sections_from open ls →
  sec_number s ∈ numbers (sec_content s).
Proof.
  induction ls as [|l ls IH]; intros open s Hp Ho; cbn [sections_from]; [by eapply section_of_ok|].
  destruct Hp as (Hl & Ht & Hp).
  destruct (parse_section_heading l) as [[n t]|] eqn:Hh.
  - intros [Hs|Hs]%elem_of_app; [by eapply section_of_ok|].
    eapply IH; [done| |exact Hs]. split; [|done]. unfold numbers. rewrite Hl. cbn.
    unfold heading_number. rewrite Hh. by left.
  - intros Hs. eapply IH; [done| |exact Hs]. destruct open as [[[n t] x]|]; [|done]. cbn in Ho |- *.
    destruct Ho as [Hn [Hx|?]]; [|done]. rewrite numbers_app by done. split; [by apply elem_of_app; left|].
    destruct Ht as [Ht| ->]; [|by right]. left. destruct Ht as [->|[l' ->]]; [by rewrite app_nil_r|].
    right. exists (x ++ l'). by rewrite app_assoc.
Qed.

Lemma section_holds_number s text : s ∈ parse_sections text → sec_number s ∈ numbers (sec_content s).
Proof. apply sections_ok; [apply pieces_split|done]. Qed.

Lemma appended_numbers sections :
  numbers (appended_sections sections) = concat (map (λ s, numbers (sec_content s)) sections).
Proof.
  unfold appended_sections.
  assert (Hgo : ∀ acc, nl_terminated acc →
    numbers (foldl append_section acc sections) = numbers acc ++ concat (map (λ s, numbers (sec_content s)) sections)).
  2: { by apply (Hgo []); left. }
  induction sections as [|s sections IH]; intros acc Hacc; cbn [foldl map concat].
  { by rewrite app_nil_r. }
  rewrite IH; unfold append_section.
  2: { rewrite app_assoc. right. by eexists. }
  rewrite (app_assoc (numbers acc)). f_equal. destruct acc as [|c acc]; cbn [is_empty].
  - cbn [app]. by rewrite numbers_space, numbers_trim_end.
  - rewrite <-app_assoc. change ([ch_nl] ++ trim_end (sec_content s) ++ [ch_nl])
      with (ch_nl :: (trim_end (sec_content s) ++ [ch_nl])).
    by rewrite numbers_app_nl, numbers_space, numbers_trim_end.
Qed.
