(* ===== verification/Repair.v ===== *)
(** * What a project repair leaves on the disk

    Properties of the repair of [Standard]: it loses nothing, one repair is enough, and
    what happens to a contract that is a dangling link.  A run is taken when no call
    fails from outside ([calm]) from a tree whose every node lies in a directory
    ([closed]). *)
From stdpp Require Import gmap sets.
From S2P Require Import Prelude Str Utf8 Error.
From S2P Require Import Fs Files Project Scaffold ScaffoldSafety Standard.

(** ** What a repair leaves on the disk *)

(** Every node lies in a directory. *)
Definition closed (f : Fs) : Prop :=
  rooted f ∧ ∀ q c n, f !! (q ++ [c]) = Some n → ∃ d, f !! q = Some d ∧ is_dir d = true.

(** New directories only, and the tree stays closed. *)
Definition grown_dirs (f0 f : Fs) : Prop := only_dirs (λ _, True) f0 f ∧ closed f.

Lemma closed_insert (f : Fs) q n : closed f → f !! q = None →
  (∃ dir c d, q = dir ++ [c] ∧ f !! dir = Some d ∧ is_dir d = true) → closed (<[q := n]> f).
Proof.
  intros [(r & Hr & Hrd) Hf] Hq (dir & c & d & -> & Hd & Hk). split.
  - exists r. split; [|done]. rewrite lookup_insert_ne; [done|]. by destruct dir.
  - intros q' c' n' Hn'.
    assert (Hold : ∃ d', f !! q' = Some d' ∧ is_dir d' = true).
    { destruct (decide (q' ++ [c'] = dir ++ [c])) as [E|E].
      - apply app_inj_tail in E as [-> _]. by exists d.
      - rewrite lookup_insert_ne in Hn' by done. by eapply Hf. }
    destruct Hold as (d' & Hd' & Hk'). exists d'. split; [|done].
    rewrite lookup_insert_ne; [done|]. congruence.
Qed.

(** Where something can be made. *)
Lemma locate_free (f : Fs) p q : closed f → locate f p = inr q → f !! q = None →
  ∃ dir c d, q = dir ++ [c] ∧ f !! dir = Some d ∧ is_dir d = true.
Proof.
  intros [(r & Hr & Hrd) _] Hl Hq.
  apply locate_real in Hl as [Hreal|(d & c & n & -> & _ & _ & Hn & Hk)]; [|by exists d, c, n].
  exfalso. destruct Hreal as [Hd|(d & c & n & _ & _ & _ & Hn & _)]; [|congruence].
  destruct Hd; congruence.
Qed.

Lemma make_dir_grows euid umask (f0 : Fs) p :
  outcome (grown_dirs f0) (make_dir euid umask p) (λ _, grown_dirs f0) (λ _, grown_dirs f0).
Proof.
  apply outcome_call; [done|]. intros f [Hf Hc]. destruct (locate f p) as [|q] eqn:Hl; [done|].
  destruct (f !! q) eqn:Hq; [done|]. split.
  - eapply only_dirs_trans; [exact Hf|].
    intros q'. destruct (decide (q' = q)) as [->|Hne]; [|left; by rewrite lookup_insert_ne].
    right. split; [done|]. split; [done|]. eexists. split; [apply lookup_insert_eq|done].
  - apply closed_insert; [done|done|]. by eapply locate_free.
Qed.

Lemma there_grows (f0 : Fs) p (e : IoError) :
  outcome (grown_dirs f0) (there ← holds_at is_dir p; if (there : bool) then mret () else throw e)
    (λ _, grown_dirs f0) (λ _, grown_dirs f0).
Proof.
  apply read_only_outcome, read_only_bind; [apply read_only_holds_at|]. by intros [].
Qed.

Lemma make_dirs_grows euid umask (f0 : Fs) rp :
  outcome (grown_dirs f0) (make_dirs euid umask rp) (λ _, grown_dirs f0) (λ _, grown_dirs f0).
Proof.
  induction rp as [|c rp IH]; cbn [make_dirs];
    (eapply outcome_bind_try; [apply make_dir_grows|by intros; apply outcome_ret|]); intros e;
    case_bool_decide; try apply there_grows; [by apply outcome_throw|].
  eapply outcome_bind; [exact IH|]. intros u.
  eapply outcome_bind_try; [apply make_dir_grows|by intros; apply outcome_ret|]. intros e'.
  apply there_grows.
Qed.

Lemma outcome_calm_any {E A : Type} (m : Act E A) (P S : Fs → Prop) (f : Fs) :
  outcome P m (λ _, S) (λ _, S) → P f → S (calm m f).2.
Proof.
  intros Hm Hf. specialize (Hm (mkFsWorld f []) Hf). unfold calm.
  by destruct (m _) as [[e|b] w].
Qed.

Lemma only_dirs_subseteq dirs (f0 f : Fs) : only_dirs dirs f0 f → f0 ⊆ f.
Proof. intros Hf. apply map_subseteq_spec. intros q n. by eapply only_dirs_dir. Qed.

(** One more name on a path that leads to a directory. *)
Lemma resolve_from_step links : ∀ (f : Fs) rest base d c n,
  resolve_from links f base rest = inr d → f !! (d ++ [c]) = Some n → is_dir n = true →
  (∃ m, f !! d = Some m ∧ is_dir m = true) → c ≠ dotdot →
  resolve_from links f base (rest ++ [c]) = inr (d ++ [c]).
Proof.
  induction links as [|links IHl]; intros f;
    (induction rest as [|x rest IH]; intros base d c n Hd Hn Hk Hm Hc;
     [injection Hd as <-; cbn;
      assert (str_eqb c dotdot = false) as -> by (by apply str_eqb_neq); rewrite Hn;
      unfold is_dir in Hk; by destruct (node_kind n)|]); cbn in Hd |- *;
    (destruct (str_eqb x dotdot); [by eapply IH|]);
    (destruct (f !! (base ++ [x])) as [m|] eqn:En; [|done]);
    destruct (node_kind m) eqn:Ek; try done; try (by eapply IH).
  all: try (destruct rest; [|done]; injection Hd as <-; destruct Hm as (m' & Hm & Hmk);
    assert (m' = m) as -> by congruence; unfold is_dir in Hmk; by rewrite Ek in Hmk).
  rewrite app_assoc. by eapply IHl.
Qed.

Lemma resolve_step (f : Fs) rest d c n : resolve f rest = inr d → f !! (d ++ [c]) = Some n →
  is_dir n = true → (∃ m, f !! d = Some m ∧ is_dir m = true) → c ≠ dotdot →
  resolve f (rest ++ [c]) = inr (d ++ [c]).
Proof. exact (resolve_from_step MAX_LINKS f rest [] d c n). Qed.

(** Nothing is in a directory that was just made. *)
Lemma stat_in_made (f : Fs) dir0 c q n m : closed f → locate f dir0 = inr q → f !! q = None →
  is_dir n = true → plain dir0 → c ≠ dotdot → stat (<[q := n]> f) (dir0 ++ [c]) ≠ inr m.
Proof.
  intros Hc Hl Hq Hn Hp Hne Hs. apply stat_resolve in Hs as (x & Hx & _).
  pose proof (locate_free f dir0 q Hc Hl Hq) as (dir & a & d & -> & Hd & Hk).
  destruct dir0 as [|b dir0 _] using rev_ind.
  { injection Hl as Hl. by destruct dir. }
  apply Forall_app in Hp as [_ [Hb _]%Forall_cons].
  apply locate_snoc_inv in Hl as (dir' & d' & Hr & Hd' & _ & E); [|done].
  apply app_inj_tail in E as [<- <-].
  assert (Hsub : f ⊆ <[dir ++ [a] := n]> f) by (by apply insert_subseteq).
  assert (Hmade : resolve (<[dir ++ [a] := n]> f) (dir0 ++ [a]) = inr (dir ++ [a])).
  { apply (resolve_step _ dir0 dir a n);
      [by apply (resolve_mono f)|apply lookup_insert_eq|done| |done].
    exists d. split; [by eapply lookup_weaken|done]. }
  apply resolve_from_snoc in Hx as (y & links & Hy & Hx); [|done].
  pose proof (eq_trans (eq_sym Hmade) Hy) as Hyq. injection Hyq as <-. clear Hy.
  assert (Hnone : <[dir ++ [a] := n]> f !! ((dir ++ [a]) ++ [c]) = None).
  { rewrite lookup_insert_ne by (intros E; apply (f_equal length) in E;
      rewrite !length_app in E; cbn in E; lia).
    destruct (f !! ((dir ++ [a]) ++ [c])) eqn:E; [|done]. apply Hc in E as (? & ? & _). congruence. }
  assert (str_eqb c dotdot = false) as Ec by (by apply str_eqb_neq).
  destruct links; cbn in Hx; by rewrite Ec, Hnone in Hx.
Qed.

(** Where no place was found, nothing is. *)
Lemma locate_fails_stat (f : Fs) p e n : closed f → plain p → locate f p = inl e → stat f p ≠ inr n.
Proof.
  intros Hc Hp Hl Hs. apply stat_resolve in Hs as (x & Hx & Hn).
  destruct p as [|c p _] using rev_ind; [done|].
  apply Forall_app in Hp as [_ [Hne _]%Forall_cons].
  apply resolve_from_snoc in Hx as (d & links & Hd & Hx); [|done].
  assert (str_eqb c dotdot = false) as Ec by (by apply str_eqb_neq).
  destruct (f !! (d ++ [c])) as [m|] eqn:Hm; [|destruct links; cbn in Hx; by rewrite Ec, Hm in Hx].
  apply Hc in Hm as (dn & Hdn & Hdk).
  by rewrite (locate_in f p c d dn Hne Hd Hdn Hdk) in Hl.
Qed.

Lemma make_dir_failed euid umask (f f2 : Fs) p e : calm (make_dir euid umask p) f = (inl e, f2) →
  f2 = f ∧ (locate f p = inl e ∨ e = already_exists).
Proof.
  unfold make_dir, create_dir. rewrite calm_call. destruct (locate f p) as [e'|q].
  - intros [= -> ->]. auto.
  - destruct (f !! q); [|done]. intros [= <- <-]. auto.
Qed.

(** Making the directories of a path does not make the path. *)
Lemma make_dirs_absent euid umask rp : ∀ (f f1 : Fs) c n, closed f → plain (rev rp) → c ≠ dotdot →
  (∀ m, stat f (rev rp ++ [c]) ≠ inr m) →
  calm (make_dirs euid umask rp) f = (inr (), f1) → stat f1 (rev rp ++ [c]) ≠ inr n.
Proof.
  assert (Hmk : ∀ p (f f1 : Fs) c n, closed f → plain p → c ≠ dotdot →
    calm (make_dir euid umask p) f = (inr (), f1) → stat f1 (p ++ [c]) ≠ inr n).
  { intros p f f1 c n Hc Hp Hne. unfold make_dir, create_dir. rewrite calm_call.
    destruct (locate f p) as [|q] eqn:Hl; [done|]. destruct (f !! q) eqn:Hq; [done|].
    intros [= <-]. by apply stat_in_made. }
  assert (Hsteady : ∀ p, steady (make_dir euid umask p)) by (intros; unfold make_dir, create_dir; steady).
  assert (Hthere : ∀ p (f f1 : Fs) (e : IoError),
    calm (there ← holds_at is_dir p; if (there : bool) then mret () else throw e) f = (inr (), f1) →
    f1 = f ∧ ∃ m, stat f p = inr m).
  { intros p f f1 e. rewrite calm_bind by apply steady_holds_at. rewrite calm_holds_at.
    destruct (stat f p) as [|m]; [done|]. destruct (is_dir m); [|done]. intros [= <-]. eauto. }
  induction rp as [|b rp IH]; intros f f1 c n Hc Hp Hne Hs; cbn [make_dirs];
    rewrite calm_bind by (apply steady_try, Hsteady); rewrite calm_try;
    (destruct (calm (make_dir euid umask _) f) as [[e|[]] f2] eqn:Hm; cbn [fst snd];
      [|intros [= <-]; by eapply Hmk]);
    apply make_dir_failed in Hm as [-> Hm];
    case_bool_decide as Hk; try done; try (by intros [-> _]%Hthere).
  cbn [rev] in Hp. apply Forall_app in Hp as [Hp [Hb _]%Forall_cons].
  assert (Hdir : ∀ m, stat f (rev rp ++ [b]) ≠ inr m).
  { intros m. destruct Hm as [Hl| ->]; [|done].
    eapply locate_fails_stat; [done| |exact Hl]. apply Forall_app. split; [done|by repeat constructor]. }
  rewrite calm_bind by apply steady_make_dirs.
  destruct (calm (make_dirs euid umask rp) f) as [[e'|[]] f3] eqn:Hrec; [done|].
  assert (Hc3 : closed f3).
  { pose proof (outcome_calm_any _ _ _ f (make_dirs_grows euid umask f rp)
      (conj (only_dirs_refl _ f) Hc)) as [_ Hg]. by rewrite Hrec in Hg. }
  rewrite calm_bind by (apply steady_try, Hsteady). rewrite calm_try. cbn [rev].
  destruct (calm (make_dir euid umask (rev rp ++ [b])) f3) as [[e2|[]] f4] eqn:Hm3; cbn [fst snd].
  - apply make_dir_failed in Hm3 as [-> _]. intros [-> [m Hst]]%Hthere. exfalso. by eapply (IH f f3 b).
  - intros [= <-]. eapply Hmk; [exact Hc3| |done|exact Hm3].
    apply Forall_app. split; [done|by repeat constructor].
Qed.

(** *** The run of a repair *)

#[local] Arguments resolve : simpl never.
#[local] Arguments stat : simpl never.

(** What repairing may do to a tree: new nodes, and [extra] at the end of the contract. *)
Definition repaired (contract : Path) (extra : list N) (f f' : Fs) : Prop := ∀ q n,
  f !! q = Some n →
  f' !! q = Some n ∨
  (resolve f contract = inr q ∧ is_file n = true ∧ f' !! q = Some (appended extra n)).

Lemma grows_appended extra n : grows n (appended extra n).
Proof. split; [done|]. split; [done|]. unfold appended. destruct (node_kind n); cbn; eauto. Qed.

Lemma repaired_extends contract extra (f f' : Fs) : repaired contract extra f f' → extends f f'.
Proof.
  intros Hr q n Hn. destruct (Hr q n Hn) as [H|(_ & _ & H)]; eexists; (split; [exact H|]).
  - apply grows_refl.
  - apply grows_appended.
Qed.

Lemma repaired_refl contract extra (f : Fs) : repaired contract extra f f.
Proof. by left. Qed.

Lemma repaired_after contract extra (f f1 f' : Fs) : repaired contract extra f f1 → f1 ⊆ f' →
  repaired contract extra f f'.
Proof.
  intros Hr Hs q n Hn. destruct (Hr q n Hn) as [H|(Hq & Hk & H)].
  - left. by eapply lookup_weaken.
  - right. split; [done|]. split; [done|]. by eapply lookup_weaken.
Qed.

Lemma appended_twice a b n : appended b (appended a n) = appended (a ++ b) n.
Proof. unfold appended. cbn. destruct (node_kind n); [done| |done]. by rewrite app_assoc. Qed.

Lemma closed_extends_alter (f : Fs) q bytes : closed f → closed (alter (appended bytes) q f).
Proof.
  assert (Hdir : ∀ p n, f !! p = Some n → is_dir n = true →
    ∃ n', alter (appended bytes) q f !! p = Some n' ∧ is_dir n' = true).
  { intros p n Hn Hk. destruct (decide (p = q)) as [->|Hne].
    - exists (appended bytes n). rewrite lookup_alter_eq, Hn. split; [done|].
      by rewrite (grows_dir n) by apply grows_appended.
    - exists n. by rewrite lookup_alter_ne. }
  intros [(r & Hr & Hk) Hf]. split; [by apply (Hdir [] r)|].
  intros p c n Hn.
  assert (Hold : ∃ n0, f !! (p ++ [c]) = Some n0).
  { destruct (decide (p ++ [c] = q)) as [E|Hne]; [|rewrite lookup_alter_ne in Hn by done; eauto].
    rewrite E, lookup_alter_eq in *. destruct (f !! q); [eauto|done]. }
  destruct Hold as (n0 & Hn0). apply Hf in Hn0 as (d & Hd & Hdk). by eapply Hdir.
Qed.

Lemma resolve_new_free links : ∀ (f : Fs) rest base q, closed f →
  (∃ b, f !! base = Some b ∧ is_dir b = true) →
  resolve_new links f base rest = inr q → f !! q = None →
  ∃ dir c d, q = dir ++ [c] ∧ f !! dir = Some d ∧ is_dir d = true.
Proof.
  induction links as [|links IHl]; intros f;
    (induction rest as [|c rest IH]; intros base q Hc Hb Hq Hn;
     [injection Hq as <-; destruct Hb as (b & Hb & _); congruence|]); cbn in Hq;
    (assert (Hup : ∃ b, f !! removelast base = Some b ∧ is_dir b = true) by
      (destruct base as [|x base _] using rev_ind; [exact Hb|];
       rewrite removelast_last; destruct Hb as (b & Hb & _); by eapply (proj2 Hc)));
    (destruct (str_eqb c dotdot); [by eapply IH|]);
    (destruct (f !! (base ++ [c])) as [m|] eqn:En;
      [|destruct rest; [injection Hq as <-; destruct Hb as (b & Hb & Hk); by exists base, c, b|done]]);
    destruct (node_kind m) eqn:Ek; try done.
  all: try (eapply IH; [done| |exact Hq|done]; exists m; split; [done|];
    unfold is_dir; by rewrite Ek).
  all: try (destruct rest; [|done]; injection Hq as <-; congruence).
  eapply IHl; [done| |exact Hq|done]. destruct absolute; [apply Hc|exact Hb].
Qed.

Section ApplyLemmas.
Context (euid umask : N) (wrote : nat).

Lemma steady_write_file p contents : steady (write_file euid umask wrote p contents).
Proof using. unfold write_file, create_file. steady. Qed.

(** A file that is missed: made, or nothing happened. *)
Lemma write_missing_calm p contents (f : Fs) : closed f → (∀ n, stat f p ≠ inr n) →
  let m := write_file euid umask wrote p contents in
  f ⊆ (calm m f).2 ∧ closed (calm m f).2 ∧
  ((calm m f).1 = inr () →
   ∃ q n, resolve (calm m f).2 p = inr q ∧ (calm m f).2 !! q = Some n ∧ node_kind n = File contents).
Proof using.
  intros Hc Hs. cbn zeta.
  destruct (write_new_calm euid umask wrote p contents f Hs) as [[e ->]|(q & Hnew & Hq & -> & Hr)];
    [done|]. cbn. split; [by apply insert_subseteq|]. split.
  - apply closed_insert; [done|done|]. eapply (resolve_new_free MAX_LINKS f p []); [done|apply Hc|done|done].
  - intros _. exists q. eexists. split; [exact Hr|]. by rewrite lookup_insert_eq.
Qed.

(** One agent's turn: it was there, or it was made, or nothing came of it. *)
Lemma install_one_calm path content (f : Fs) : closed f → plain path →
  let r := calm (install_one euid umask wrote path content) f in
  f ⊆ r.2 ∧ closed r.2 ∧ (r.1 = inr () → ∃ n, stat r.2 path = inr n).
Proof using.
  intros Hc Hp. cbn zeta. unfold install_one, exists_. rewrite calm_bind by apply steady_holds_at.
  rewrite calm_holds_at. destruct (stat f path) as [e|n] eqn:Hs; [|rewrite calm_ret; eauto].
  destruct path as [|c dir _] using rev_ind.
  { exfalso. destruct Hc as [(r & Hr & _) _]. unfold stat in Hs.
    change (resolve f []) with (inr [] : IoError + Path) in Hs. cbv iota in Hs.
    by rewrite Hr in Hs. }
  assert (parent (dir ++ [c]) = Some dir) as ->.
  { destruct (dir ++ [c]) eqn:E; [by destruct dir|]. unfold parent. rewrite <-E. by rewrite removelast_last. }
  pose proof Hp as [Hpd [Hne _]%Forall_cons]%Forall_app.
  unfold io. rewrite calm_bind by apply steady_map_err, steady_make_dirs. rewrite calm_map_err.
  unfold create_dir_all.
  destruct (calm (make_dirs euid umask (rev dir)) f) as [r f1] eqn:Hmk.
  pose proof (outcome_calm_any _ _ _ f (make_dirs_grows euid umask f (rev dir))
    (conj (only_dirs_refl _ f) Hc)) as [Hod Hc1]. rewrite Hmk in Hod, Hc1. cbn in Hod, Hc1.
  apply only_dirs_subseteq in Hod. destruct r as [e'|[]]; cbn; [done|].
  rewrite calm_map_err.
  assert (Hs1 : ∀ n, stat f1 (dir ++ [c]) ≠ inr n).
  { intros n. rewrite <-(rev_involutive dir). eapply make_dirs_absent; [exact Hc| |done| |exact Hmk].
    - by rewrite rev_involutive.
    - intros m. rewrite rev_involutive. by rewrite Hs. }
  pose proof (write_missing_calm (dir ++ [c]) (as_bytes content) f1 Hc1 Hs1) as (Hsub & Hc2 & Hok).
  destruct (calm (write_file _ _ _ _ _) f1) as [[e2|[]] f2]; cbn in *;
    (split; [by etrans|]); (split; [done|]); [done|].
  intros _. destruct (Hok eq_refl) as (q & n & Hr & Hn & _). unfold stat. rewrite Hr, Hn. by eexists.
Qed.

Lemma steady_install_one path content : steady (install_one euid umask wrote path content).
Proof using.
  unfold install_one, io, create_dir_all. apply steady_bind; [apply steady_holds_at|]. intros [];
    [done|]. apply steady_bind; [destruct (parent path); [|done]; apply steady_map_err, steady_make_dirs|].
  intros u. apply steady_map_err, steady_write_file.
Qed.

Lemma install_agents_calm root agents : ∀ (f : Fs), closed f →
  Forall (λ a, plain (root ++ a.1)) agents →
  let r := calm (install_agents euid umask wrote root agents) f in
  f ⊆ r.2 ∧ closed r.2 ∧
  (r.1 = inr () → Forall (λ a, ∃ n, stat r.2 (root ++ a.1) = inr n) agents).
Proof using.
  induction agents as [|[path content] agents IH]; intros f Hc Hp; [done|].
  apply Forall_cons in Hp as [Hp Hps]. cbn [install_agents].
  rewrite calm_bind by apply steady_install_one.
  pose proof (install_one_calm (root ++ path) content f Hc Hp) as (Hsub & Hc1 & Hok).
  destruct (calm (install_one _ _ _ _ _) f) as [[e|[]] f1]; cbn in Hsub, Hc1, Hok |- *; [done|].
  pose proof (IH f1 Hc1 Hps) as (Hsub2 & Hc2 & Hok2).
  split; [by etrans|]. split; [done|]. intros Hr. constructor; [|by apply Hok2].
  destruct (Hok eq_refl) as [n Hn].
  eapply stat_extends in Hn as (n' & Hn' & _); [by exists n'|]. by apply extends_subseteq.
Qed.

(** What a repair adds at the end of a contract that was there. *)
Definition repair_bytes (p : ProjectRepairPlan) : list N :=
  match rp_missing_sections p with
  | [] => []
  | sections => as_bytes (ch_nl :: appended_sections sections)
  end.

Definition contract_of (p : ProjectRepairPlan) : Path := rp_root p ++ CONTRACT_PATH.

Lemma resolved_file (f : Fs) p q n : closed f → resolve f p = inr q → f !! q = Some n →
  is_dir n = false → is_file n = true.
Proof using.
  intros [(r & Hroot & Hrk) _] Hr Hn Hk.
  apply resolve_real in Hr as [Hd|(d & c & m & _ & _ & _ & Hm & Hf)]; [|by simplify_eq].
  exfalso. destruct Hd as [|d c m _ _ Hm Hd]; simplify_eq; by rewrite Hk in *.
Qed.

Lemma repair_contract_calm p (f : Fs) : closed f →
  let r := calm (repair_contract euid umask wrote p) f in
  repaired (contract_of p) (repair_bytes p) f r.2 ∧ closed r.2 ∧
  (r.1 = inr () →
   match stat f (contract_of p) with
   | inl _ => ∃ q n, resolve r.2 (contract_of p) = inr q ∧ r.2 !! q = Some n ∧
                node_kind n = File (as_bytes (rp_contract_content p))
   | inr _ => r.2 = f ∧ rp_missing_sections p = [] ∨
       ∃ q, resolve f (contract_of p) = inr q ∧ r.2 = alter (appended (repair_bytes p)) q f
   end).
Proof using.
  intros Hc. cbn zeta. unfold repair_contract, exists_. fold (contract_of p).
  rewrite calm_bind by apply steady_holds_at. rewrite calm_holds_at.
  destruct (stat f (contract_of p)) as [e|n] eqn:Hs; cbn [negb].
  { assert (Hno : ∀ n, stat f (contract_of p) ≠ inr n) by (intros n; by rewrite Hs).
    pose proof (write_missing_calm (contract_of p) (as_bytes (rp_contract_content p)) f Hc Hno)
      as (Hsub & Hc1 & Hok).
    unfold io. rewrite calm_map_err. destruct (calm (write_file _ _ _ _ _) f) as [[e1|[]] f1];
      cbn in *; (split; [by eapply repaired_after; [apply repaired_refl|]|]);
      (split; [done|]); [done|intros _; by apply Hok]. }
  unfold repair_bytes. destruct (rp_missing_sections p) as [|s ss].
  { rewrite calm_ret. split; [apply repaired_refl|]. split; [done|]. by left. }
  set (sections := s :: ss). unfold io.
  rewrite calm_bind by (unfold open_append; steady). rewrite calm_map_err.
  unfold open_append. rewrite calm_look.
  destruct (resolve f (contract_of p)) as [e|q] eqn:Hr; [by split; [apply repaired_refl|]|].
  destruct (f !! q) as [m|] eqn:Hm; [|by split; [apply repaired_refl|]].
  destruct (is_dir m) eqn:Hd; [by split; [apply repaired_refl|]|].
  assert (Hrun : calm (map_err (λ e, Io (io_message e)) (append_all wrote q [ch_nl]) ≫= λ _,
      map_err (λ e, Io (io_message e)) (append_all wrote q (as_bytes (appended_sections sections)))) f =
    (inr (), alter (appended (as_bytes (ch_nl :: appended_sections sections))) q f)).
  { rewrite calm_bind by steady. rewrite calm_map_err, calm_append, calm_map_err, calm_append.
    f_equal. rewrite alter_alter_eq. apply alter_ext. intros x _. cbn. by rewrite appended_twice. }
  rewrite Hrun. cbn [fst snd]. split; [|split; [by apply closed_extends_alter|right; by exists q]].
  intros q' n' Hn'. destruct (decide (q' = q)) as [->|Hne].
  - right. split; [done|]. simplify_eq. split; [by eapply resolved_file|].
    by rewrite lookup_alter_eq, Hm.
  - left. by rewrite lookup_alter_ne.
Qed.

Lemma materialize_no_link contract (f : Fs) : (∀ n, lstat f contract = inr n → is_symlink n = false) →
  calm (materialize_link euid umask wrote contract) f = (inr (), f).
Proof using.
  intros Hl. unfold materialize_link, symlink_metadata. rewrite calm_bind by steady.
  rewrite calm_try, calm_look. cbn. destruct (lstat f contract) as [|n]; [done|]. by rewrite Hl.
Qed.

Lemma steady_materialize contract : steady (materialize_link euid umask wrote contract).
Proof using.
  unfold materialize_link, symlink_metadata, io, read_to_string, remove_file.
  apply steady_bind; [steady|]. intros found. destruct (match found with _ => _ end); [|done].
  apply steady_bind; [steady|]. intros resolved. apply steady_bind; [steady|]. intros u.
  apply steady_map_err, steady_write_file.
Qed.

Lemma steady_repair_contract p : steady (repair_contract euid umask wrote p).
Proof using.
  unfold repair_contract, io, open_append. apply steady_bind; [apply steady_holds_at|].
  intros []; cbn; [|apply steady_map_err, steady_write_file].
  destruct (rp_missing_sections p); [done|]. steady.
Qed.

Definition plain_plan (p : ProjectRepairPlan) : Prop :=
  Forall (λ a, plain (rp_root p ++ a.1)) (rp_missing_agents p).

Definition contract_not_link (p : ProjectRepairPlan) (f : Fs) : Prop :=
  ∀ n, lstat f (contract_of p) = inr n → is_symlink n = false.

(** The tree between the two halves of a repair. *)
Lemma apply_repair_calm p (f : Fs) : closed f → plain_plan p → contract_not_link p f →
  let r := calm (apply_repair euid umask wrote p) f in
  let c := calm (repair_contract euid umask wrote p) f in
  repaired (contract_of p) (repair_bytes p) f r.2 ∧ closed r.2 ∧
  (r.1 = inr () → c.1 = inr () ∧ c.2 ⊆ r.2 ∧
     Forall (λ a, ∃ n, stat r.2 (rp_root p ++ a.1) = inr n) (rp_missing_agents p)).
Proof using.
  intros Hc Hp Hl. cbn zeta. unfold apply_repair. fold (contract_of p).
  rewrite calm_bind by apply steady_materialize. rewrite materialize_no_link by done.
  rewrite calm_bind by apply steady_repair_contract.
  pose proof (repair_contract_calm p f Hc) as (Hrep & Hc1 & _).
  destruct (calm (repair_contract euid umask wrote p) f) as [[e|[]] f1]; cbn in *; [done|].
  pose proof (install_agents_calm (rp_root p) (rp_missing_agents p) f1 Hc1 Hp) as (Hsub & Hc2 & Hok).
  split; [by eapply repaired_after|]. split; [done|]. intros Hr. auto.
Qed.
End ApplyLemmas.

(** A repair never loses anything.  When the contract is not a link and no call fails from
    outside, then whether or not the repair succeeds, everything that was in the tree is
    there afterwards, byte for byte, except that the contract may have gained, at its
    end, exactly a line break and the missing sections. *)
Theorem repair_loses_nothing euid umask wrote p (f : Fs) :
  closed f → plain_plan p → contract_not_link p f →
  repaired (contract_of p) (repair_bytes p) f (calm (apply_repair euid umask wrote p) f).2.
Proof. intros Hc Hp Hl. by apply apply_repair_calm. Qed.

(** ** A repair is enough *)

Definition there (f : Fs) (p : Path) : bool := match stat f p with inr _ => true | inl _ => false end.

(** What [read_to_string] reads. *)
Definition text_at (f : Fs) (p : Path) : IoError + str := (calm (read_to_string p) f).1.

Lemma calm_read_to_string p (f : Fs) : calm (read_to_string p) f = (text_at f p, f).
Proof. unfold text_at, read_to_string. by rewrite calm_look. Qed.

Lemma steady_read_to_string p : steady (read_to_string p).
Proof. unfold read_to_string. steady. Qed.
#[local] Hint Resolve steady_read_to_string : steady.

(** The text of a file, and the bytes it stands for. *)
Lemma text_at_inv (f : Fs) p s : text_at f p = inr s →
  ∃ q n, resolve f p = inr q ∧ f !! q = Some n ∧ node_kind n = File (as_bytes s) ∧ Forall scalar s.
Proof.
  unfold text_at, read_to_string. rewrite calm_look. cbn [fst].
  destruct (resolve f p) as [|q]; [done|]. destruct (f !! q) as [[[|bytes|] u m]|] eqn:Hq; try done.
  unfold from_utf8. case_bool_decide as Hb; [|done]. intros [= <-].
  exists q. eexists. do 2 (split; [done|]). cbn. split; [by rewrite Hb|apply from_utf8_lossy_scalar].
Qed.

Lemma text_at_file (f : Fs) p q n s : resolve f p = inr q → f !! q = Some n →
  node_kind n = File (as_bytes s) → Forall scalar s → text_at f p = inr s.
Proof.
  intros Hr Hq Hk Hs. unfold text_at, read_to_string. rewrite calm_look. cbn [fst]. rewrite Hr, Hq.
  destruct n as [k u m]. cbn in Hk. subst k. unfold from_utf8.
  by rewrite from_utf8_lossy_as_bytes, bool_decide_eq_true_2.
Qed.

Section Converges.
Variable render_template : str → Vars → str + str.
Variable builtins : list Template.
Variable custom : Error + list Template.
Variable current_dir : IoError + Path.

(** What [rendered_contract_template] answers, as a function. *)
Definition render_standard (root : Path) (template_name : str) (vars : Vars) :
    Error + RenderedStandardization :=
  match contract_template builtins custom template_name with
  | inl e => inl e
  | inr t =>
      let vars := vars ∪ default_vars root in
      let merged := resolve_vars t vars in
      match validate_vars t vars, collect (render_file render_template root merged) (t_files t),
            collect (λ h, substitute render_template h merged) (t_post_hooks t) with
      | inr _, inr files, inr _ =>
          match sort_files root (None, []) files with
          | inl e => inl e
          | inr (Some content, agents) => inr (mkStandardization content agents)
          | inr (None, _) => inl (Config $"standardization template lacks CLAUDE.md")
          end
      | inl e, _, _ | _, inl e, _ | _, _, inl e => inl e
      end
  end.

Abbreviation rendered := (rendered_contract_template render_template builtins custom current_dir).

Lemma steady_plan t target vars : steady (plan render_template current_dir t target vars).
Proof using.
  unfold plan. apply steady_bind; [done|]. intros u. apply steady_bind; [apply steady_secure|].
  intros root. apply steady_bind; [done|]. intros files. by apply steady_bind.
Qed.

Lemma steady_rendered root name vars : steady (rendered root name vars).
Proof using.
  unfold rendered_contract_template, rendered_contract. apply steady_bind; [done|]. intros t.
  apply steady_bind; [apply steady_plan|]. intros p. apply steady_bind; [done|]. intros s.
  by destruct s.1.
Qed.

Lemma rendered_calm root name vars (f : Fs) r (f1 : Fs) : rooted f →
  calm (rendered root name vars) f = (inr r, f1) → f1 = f ∧ render_standard root name vars = inr r.
Proof using.
  intros Hroot. unfold rendered_contract_template, render_standard.
  destruct (contract_template builtins custom name) as [|t]; [done|].
  intros (t' & f2 & [= <- <-] & Hrun)%calm_answer; [|done]. unfold rendered_contract in Hrun.
  apply calm_answer in Hrun as (p & f2 & Hplan & Hrun); [|apply steady_plan].
  unfold plan in Hplan. apply calm_answer in Hplan as (u & f3 & Hv & Hplan); [|done].
  destruct (validate_vars t _) as [|u']; [done|]. injection Hv as _ <-.
  apply calm_answer in Hplan as (root' & f3 & Hsec & Hplan); [|apply steady_secure].
  apply secure_calm in Hsec as (-> & -> & _); [|done].
  apply calm_answer in Hplan as (files & f3 & Hfiles & Hplan); [|done].
  destruct (collect (render_file _ _ _) _) as [|files']; [done|]. injection Hfiles as -> <-.
  apply calm_answer in Hplan as (hooks & f3 & Hhooks & Hplan); [|done].
  destruct (collect _ (t_post_hooks t)) as [|hooks']; [done|]. injection Hhooks as -> <-.
  injection Hplan as <- <-.
  apply calm_answer in Hrun as (s & f3 & Hsort & Hrun); [|done]. cbn in Hsort.
  destruct (sort_files root (None, []) files) as [|[[content|] agents]]; [done| |];
    injection Hsort as <- <-; [|done]. by injection Hrun as <- <-.
Qed.

(** A real path where a directory is found is one of directories. *)
Lemma stat_real_dir (f : Fs) p c n : resolve f p = inr c → stat f c = inr n → is_dir n = true →
  real_dir f c.
Proof.
  intros Hcan Hs Hd. apply resolve_real in Hcan as [?|(d & x & m & -> & Hr & Hx & Hm & Hk)];
    [done|]. exfalso.
  apply stat_resolve in Hs as (q & Hq & Hn).
  apply resolve_from_snoc in Hq as (y & links & Hy & Hq); [|done].
  pose proof (eq_trans (eq_sym (resolve_dir f d Hr)) Hy) as E. injection E as <-.
  assert (str_eqb x dotdot = false) as Ex by (by apply str_eqb_neq).
  unfold is_file in Hk. unfold is_dir in Hd.
  destruct links; cbn in Hq; rewrite Ex, Hm in Hq; destruct (node_kind m) eqn:Ekm; try done;
    injection Hq as <-; simplify_eq; by rewrite Ekm in Hd.
Qed.

(** A validated project is a directory, named by its real path. *)
Lemma validate_calm arg (f : Fs) root (f1 : Fs) : closed f →
  calm (validate_project_path current_dir arg) f = (inr root, f1) → f1 = f ∧ real_dir f root.
Proof using.
  intros Hc. unfold validate_project_path. destruct (is_empty _); [done|].
  destruct (existsb _ _); [done|]. unfold io, canonicalize.
  intros (a & f2 & Ha & Hrun)%calm_answer; [|destruct (arg_absolute arg); steady].
  assert (f2 = f) as ->.
  { destruct (arg_absolute arg); [by injection Ha as _ <-|].
    unfold io in Ha. destruct current_dir; [done|]. by injection Ha as _ <-. }
  clear Ha. apply calm_answer in Hrun as (c & f2 & Hcan & Hrun); [|steady].
  apply calm_map_err_answer in Hcan. rewrite calm_look in Hcan. injection Hcan as Hcan <-.
  rewrite calm_bind in Hrun by apply steady_holds_at. rewrite calm_holds_at in Hrun.
  destruct (stat f c) as [|n] eqn:Hs; [done|]. destruct (is_dir n) eqn:Hd; [|done].
  injection Hrun as <- <-. split; [done|]. by eapply stat_real_dir.
Qed.

Lemma validate_real (f : Fs) root : real_dir f root → ∀ r (f1 : Fs),
  calm (validate_project_path current_dir (absolute_arg root)) f = (inr r, f1) → r = root.
Proof using.
  intros Hr r f1. unfold validate_project_path. destruct (is_empty _); [done|].
  destruct (existsb _ _); [done|]. cbn [arg_absolute arg_components absolute_arg].
  unfold io, canonicalize. intros (a & f2 & [= <- <-] & Hrun)%calm_answer; [|done].
  apply calm_answer in Hrun as (c & f2 & Hcan & Hrun); [|steady].
  apply calm_map_err_answer in Hcan. rewrite calm_look in Hcan. injection Hcan as Hcan <-.
  rewrite (resolve_dir f root Hr) in Hcan. injection Hcan as <-.
  rewrite calm_bind in Hrun by apply steady_holds_at. rewrite calm_holds_at in Hrun.
  destruct (stat f root) as [|n]; [done|]. destruct (is_dir n); [|done]. by injection Hrun as <- _.
Qed.

Definition agent_status (f : Fs) (root : Path) (a : Path * str) : AgentStatus :=
  mkAgentStatus (agent_name a.1) a.1 (there f (root ++ a.1)).

Lemma steady_agent_statuses root agents : steady (agent_statuses root agents).
Proof using.
  induction agents as [|[path content] agents IH]; cbn; [done|].
  apply steady_bind; [apply steady_holds_at|]. intros b. by apply steady_bind.
Qed.

Lemma agent_statuses_calm root agents (f : Fs) :
  calm (agent_statuses root agents) f = (inr (map (agent_status f root) agents), f).
Proof using.
  induction agents as [|[path content] agents IH]; cbn [agent_statuses map]; [done|].
  unfold exists_. rewrite calm_bind by apply steady_holds_at. rewrite calm_holds_at.
  rewrite calm_bind by apply steady_agent_statuses. rewrite IH. done.
Qed.

(** The sections found: those of the contract's text, none without a contract. *)
Definition found_at (f : Fs) (contract : Path) (found : list ParsedSection) : Prop :=
  if there f contract then ∃ raw, text_at f contract = inr raw ∧ found = parse_sections raw
  else found = [].

Lemma steady_present_agents root : steady (present_agent_names root).
Proof using.
  unfold present_agent_names, io, read_dir. apply steady_bind; [apply steady_holds_at|].
  intros []; cbn; [|done]. apply steady_bind; [steady|]. intros names.
  apply steady_bind; [|done]. induction names as [|x names IH]; cbn; [done|].
  unfold io. apply steady_bind; [steady|done].
Qed.

Lemma read_only_present_agents root : read_only (present_agent_names root).
Proof using.
  unfold present_agent_names, io, read_dir. apply read_only_bind; [apply read_only_holds_at|].
  intros []; cbn; [|done]. apply read_only_bind; [read_only|]. intros names.
  apply read_only_bind; [|done]. induction names as [|x names IH]; cbn; [done|].
  unfold io. apply read_only_bind; [read_only|done].
Qed.

Lemma inspect_calm root name vars (f : Fs) i (f1 : Fs) : closed f → real_dir f root →
  calm (inspect_project_with_vars render_template builtins custom current_dir (absolute_arg root)
          name vars) f = (inr i, f1) →
  f1 = f ∧ ∃ r found, render_standard root name vars = inr r ∧ found_at f (root ++ CONTRACT_PATH) found ∧
    in_contract_present i = there f (root ++ CONTRACT_PATH) ∧
    in_sections i = map (section_status found) (parse_sections (contract_content r)) ∧
    in_managed_agents i = map (agent_status f root) (agent_files r).
Proof using.
  intros Hc Hreal. unfold inspect_project_with_vars.
  intros (root' & f2 & Hval & Hrun)%calm_answer.
  2: { unfold validate_project_path, io, canonicalize. cbn [arg_absolute absolute_arg].
       destruct (is_empty _); [done|]. destruct (existsb _ _); steady. }
  pose proof (validate_real f root Hreal _ _ Hval) as ->.
  apply validate_calm in Hval as [-> _]; [|done].
  apply calm_answer in Hrun as (r & f2 & Hr & Hrun); [|apply steady_rendered].
  apply rendered_calm in Hr as [-> Hr]; [|apply Hc].
  unfold exists_ in Hrun. rewrite calm_bind in Hrun by apply steady_holds_at.
  rewrite calm_holds_at in Hrun.
  apply calm_answer in Hrun as (found & f2 & Hfound & Hrun);
    [|destruct (stat f _); unfold io; steady].
  assert (Hfa : f2 = f ∧ found_at f (root ++ CONTRACT_PATH) found).
  { unfold found_at, there. destruct (stat f (root ++ CONTRACT_PATH)); [by injection Hfound as <- <-|].
    unfold io in Hfound. apply calm_answer in Hfound as (raw & f3 & Hraw & Hfound); [|steady].
    apply calm_map_err_answer in Hraw. rewrite calm_read_to_string in Hraw.
    injection Hraw as Hraw <-. injection Hfound as <- <-. eauto. }
  destruct Hfa as [-> Hfa]. clear Hfound.
  rewrite calm_bind in Hrun by apply steady_agent_statuses. rewrite agent_statuses_calm in Hrun.
  apply calm_answer in Hrun as (names & f2 & Hnames & Hrun); [|apply steady_present_agents].
  pose proof (calm_read_only _ f (read_only_present_agents root)) as E. rewrite Hnames in E.
  cbn in E. subst f2. destruct (foldl _ _ _) as [[seen dup] extra]. injection Hrun as <- <-.
  split; [done|]. exists r, found. repeat split; done.
Qed.

Abbreviation plan_of := (plan_repair_with_vars render_template builtins custom current_dir).

Definition missing_at (f : Fs) (root : Path) (r : RenderedStandardization)
    (found : list ParsedSection) : list ParsedSection :=
  if there f (root ++ CONTRACT_PATH)
  then let expected := parse_sections (contract_content r) in
       omap (missing_section expected) (map (section_status found) expected)
  else [].

Definition absent_agents (f : Fs) (root : Path) (r : RenderedStandardization) : list (Path * str) :=
  omap (missing_agent (agent_files r)) (map (agent_status f root) (agent_files r)).

Lemma steady_inspect arg name vars :
  steady (inspect_project_with_vars render_template builtins custom current_dir arg name vars).
Proof using.
  unfold inspect_project_with_vars. apply steady_bind.
  { unfold validate_project_path, io, canonicalize. destruct (is_empty _); [done|].
    destruct (existsb _ _); [done|]. apply steady_bind; [destruct (arg_absolute arg); steady|].
    intros a. steady. }
  intros root. apply steady_bind; [apply steady_rendered|]. intros r.
  apply steady_bind; [apply steady_holds_at|]. intros b.
  apply steady_bind; [destruct b; unfold io; steady|]. intros found.
  apply steady_bind; [apply steady_agent_statuses|]. intros statuses.
  apply steady_bind; [apply steady_present_agents|]. intros names.
  by destruct (foldl _ _ _) as [[seen dup] extra].
Qed.

Lemma steady_validate arg : steady (validate_project_path current_dir arg).
Proof using.
  unfold validate_project_path, io, canonicalize. destruct (is_empty _); [done|].
  destruct (existsb _ _); [done|]. apply steady_bind; [destruct (arg_absolute arg); steady|].
  intros a. steady.
Qed.

(** What a repair plan says of the tree it was made for. *)
Lemma plan_calm arg name vars (f : Fs) p (f1 : Fs) : closed f →
  calm (plan_of arg name vars) f = (inr p, f1) →
  f1 = f ∧ real_dir f (rp_root p) ∧
  ∃ r found, render_standard (rp_root p) name vars = inr r ∧ found_at f (contract_of p) found ∧
    rp_contract_content p = contract_content r ∧
    rp_missing_sections p = missing_at f (rp_root p) r found ∧
    rp_missing_agents p = absent_agents f (rp_root p) r ∧
    (there f (contract_of p) = true → rp_missing_sections p = [] → rp_missing_agents p = [] →
     rp_actions p = []) ∧
    (there f (contract_of p) = false → CreateContract CONTRACT_PATH ∈ rp_actions p).
Proof using.
  intros Hc. unfold plan_repair_with_vars.
  intros (root & f2 & Hval & Hrun)%calm_answer; [|apply steady_validate].
  apply validate_calm in Hval as [-> Hreal]; [|done].
  apply calm_answer in Hrun as (r & f2 & Hr & Hrun); [|apply steady_rendered].
  apply rendered_calm in Hr as [-> Hr]; [|apply Hc].
  apply calm_answer in Hrun as (i & f2 & Hi & Hrun); [|apply steady_inspect].
  apply inspect_calm in Hi as (-> & r' & found & Hr' & Hfound & Hp & Hs & Ha); [|done|done].
  rewrite Hr in Hr'. injection Hr' as <-. injection Hrun as <- <-. cbn [rp_root].
  split; [done|]. split; [done|]. exists r, found. unfold contract_of. cbn [rp_root].
  rewrite Hp, Hs, Ha. unfold missing_at, absent_agents.
  destruct (there f (root ++ CONTRACT_PATH)); cbn [negb rp_contract_content rp_missing_sections
    rp_missing_agents rp_actions]; repeat split; try done.
  - by intros _ -> ->.
  - intros _. by left.
Qed.

(** *** After the repair *)

Lemma real_dir_extends (f f' : Fs) d : extends f f' → real_dir f d → real_dir f' d.
Proof using.
  intros Hf. induction 1 as [|d c n Hd IH Hc Hn Hk]; [constructor|].
  apply Hf in Hn as (n' & Hn' & G). econstructor; [done|done|exact Hn'|].
  by rewrite (grows_dir n n' G).
Qed.

Lemma found_numbers found n : found_sections found n = [] ↔ n ∉ map sec_number found.
Proof using.
  unfold found_sections. induction found as [|s found IH]; cbn.
  { split; [|done]. intros _ ?%not_elem_of_nil. done. }
  rewrite not_elem_of_cons. destruct (N.eqb_spec (sec_number s) n) as [->|Hne].
  - split; [done|]. by intros [? _].
  - rewrite IH. split; [auto|by intros []].
Qed.

(** Nothing is missing once every expected number is found. *)
Lemma none_missing found expected :
  (∀ s, s ∈ expected → sec_number s ∈ map sec_number found) →
  omap (missing_section expected) (map (section_status found) expected) = [].
Proof using.
  intros Hall. generalize expected at 1 as all. intros all.
  induction expected as [|s expected IH]; [done|]. cbn.
  assert (Hs : found_sections found (sec_number s) ≠ []).
  { rewrite found_numbers. intros Hn. apply Hn, Hall. by left. }
  unfold missing_section at 1. cbn. destruct (found_sections found (sec_number s)); [done|].
  apply IH. intros s' Hs'. apply Hall. by right.
Qed.

(** An expected number is found, or its section is among the missing. *)
Lemma found_or_missing found expected s : s ∈ expected →
  sec_number s ∈ map sec_number found ∨
  ∃ m, m ∈ omap (missing_section expected) (map (section_status found) expected) ∧
       m ∈ expected ∧ sec_number m = sec_number s.
Proof using.
  intros Hs. destruct (decide (sec_number s ∈ map sec_number found)) as [|Hn]; [by left|right].
  apply found_numbers in Hn.
  destruct (List.find (λ x, sec_number x =? sec_number s) expected) as [m|] eqn:Hf.
  - exists m. apply find_some in Hf as Hm. destruct Hm as [Hm Heq%N.eqb_eq].
    split; [|split; [by apply list_elem_of_In|done]].
    apply list_elem_of_omap. exists (section_status found s). split.
    + by apply list_elem_of_fmap_2.
    + unfold missing_section. cbn. by rewrite Hn.
  - exfalso. apply list_elem_of_In in Hs. eapply find_none in Hf; [|exact Hs].
    by rewrite N.eqb_refl in Hf.
Qed.

Lemma no_absent_agents f root r :
  (∀ a, a ∈ agent_files r → there f (root ++ a.1) = true) → absent_agents f root r = [].
Proof using.
  intros Hall. unfold absent_agents. generalize (agent_files r) at 1 as all. intros all.
  induction (agent_files r) as [|a l IH]; [done|]. cbn.
  unfold missing_agent at 1. cbn. rewrite Hall by by left. apply IH. intros a' Ha'. apply Hall. by right.
Qed.

(** An agent is there, or its file is among those to install. *)
Lemma there_or_absent f root r a : a ∈ agent_files r →
  there f (root ++ a.1) = true ∨ ∃ c, (a.1, c) ∈ absent_agents f root r.
Proof using.
  intros Ha. destruct (there f (root ++ a.1)) eqn:Ht; [by left|right].
  destruct (List.find (λ x, bool_decide (x.1 = a.1)) (agent_files r)) as [[q c]|] eqn:Hf.
  - apply find_some in Hf as Hm. destruct Hm as [_ Heq%bool_decide_eq_true].
    cbn in Heq. subst q. exists c.
    apply list_elem_of_omap. exists (agent_status f root a). split.
    + by apply list_elem_of_fmap_2.
    + unfold missing_agent. cbn. by rewrite Ht.
  - exfalso. apply list_elem_of_In in Ha. eapply find_none in Hf; [|exact Ha].
    by rewrite bool_decide_eq_true_2 in Hf.
Qed.

Lemma there_extends (f f' : Fs) p : extends f f' → there f p = true → there f' p = true.
Proof using.
  intros Hf. unfold there. destruct (stat f p) as [|n] eqn:Hs; [done|]. intros _.
  by apply (stat_extends f f') in Hs as (n' & -> & _).
Qed.

Lemma sort_files_plain root files : ∀ acc out, sort_files root acc files = inr out →
  Forall (λ a, plain a.1) acc.2 → Forall (λ a, plain a.1) out.2.
Proof using.
  induction files as [|f files IH]; intros acc out; cbn [sort_files]; [by intros [= <-]|].
  destruct (sort_file root acc f) as [|acc'] eqn:Hf; [done|]. intros Hrun Hacc.
  eapply IH; [exact Hrun|]. unfold sort_file in Hf.
  destruct (strip_path root (rf_path f)) as [rel|]; [|done].
  unfold is_safe_relative_path in Hf.
  destruct (existsb (str_eqb dotdot) rel) eqn:Hd; cbn [negb] in Hf; [done|].
  case_bool_decide; [by injection Hf as <-|].
  destruct (starts_with_path rel AGENTS_DIR); injection Hf as <-; [|done].
  apply Forall_app. split; [done|]. repeat constructor. by apply plain_existsb.
Qed.

Lemma render_standard_plain root name vars r : render_standard root name vars = inr r →
  Forall (λ a, plain a.1) (agent_files r).
Proof using.
  unfold render_standard. destruct (contract_template _ _ _) as [|t]; [done|].
  destruct (validate_vars _ _); [done|]. destruct (collect _ (t_files t)) as [|files]; [done|].
  destruct (collect _ (t_post_hooks t)); [done|].
  destruct (sort_files root (None, []) files) as [|[[content|] agents]] eqn:Hs; try done.
  intros [= <-]. apply sort_files_plain in Hs; [done|constructor].
Qed.

Lemma real_dir_plain f d : real_dir f d → plain d.
Proof using.
  induction 1 as [|d c n _ IH Hc _ _]; [constructor|]. apply Forall_app. split; [done|by repeat constructor].
Qed.

Lemma absent_agents_sub f root r a : a ∈ absent_agents f root r → a ∈ agent_files r.
Proof using.
  unfold absent_agents. intros (s & _ & Hm)%list_elem_of_omap. unfold missing_agent in Hm.
  destruct (ag_present s); [done|]. apply find_some in Hm as [Hm _]. by apply list_elem_of_In.
Qed.

Lemma plan_plain arg name vars (f : Fs) p (f1 : Fs) : closed f →
  calm (plan_of arg name vars) f = (inr p, f1) → plain_plan p.
Proof using.
  intros Hc Hplan. apply plan_calm in Hplan as (_ & Hreal & r & found & Hr & _ & _ & _ & Ha & _ & _); [|done].
  apply render_standard_plain in Hr. unfold plain_plan. rewrite Ha. apply Forall_forall. intros a Hin.
  apply Forall_app. split; [by eapply real_dir_plain|].
  apply absent_agents_sub in Hin. by eapply (proj1 (Forall_forall _ _) Hr).
Qed.

Lemma Forall_trim_end (P : char → Prop) s : Forall P s → Forall P (trim_end s).
Proof using.
  unfold trim_end, trim_end_matches. intros Hs. apply Forall_rev.
  destruct (drop_while_suffix is_whitespace (rev s)) as (l & E & _).
  apply Forall_rev in Hs. rewrite E in Hs. by apply Forall_app in Hs as [_ ?].
Qed.

Lemma sections_chars (P : char → Prop) ls : ∀ open,
  Forall (Forall P) ls → match open with Some (_, _, text) => Forall P text | None => True end →
  Forall (λ s, Forall P (sec_content s)) (sections_from open ls).
Proof using.
  assert (Hopen : ∀ open, match open with Some (_, _, text) => Forall P text | None => True end →
    Forall (λ s, Forall P (sec_content s)) (section_of open)).
  { intros [[[n t] x]|] Hx; cbn; [|done]. repeat constructor. by apply Forall_trim_end. }
  induction ls as [|l ls IH]; intros open Hls Ho; cbn [sections_from]; [by apply Hopen|].
  apply Forall_cons in Hls as [Hl Hls]. destruct (parse_section_heading l) as [[n t]|].
  - apply Forall_app. split; [by apply Hopen|by apply IH].
  - apply IH; [done|]. destruct open as [[[n t] x]|]; [|done]. by apply Forall_app.
Qed.

Lemma split_inclusive_chars (P : char → Prop) s : Forall P s → Forall (Forall P) (split_inclusive_nl s).
Proof using.
  induction 1 as [|c s Hc _ IH]; cbn; [constructor|]. destruct (c =? ch_nl).
  - constructor; [by repeat constructor|done].
  - destruct (split_inclusive_nl s); [by repeat constructor|].
    apply Forall_cons in IH as [? ?]. by repeat constructor.
Qed.

Lemma appended_chars (P : char → Prop) sections : P ch_nl →
  Forall (λ s, Forall P (sec_content s)) sections → Forall P (appended_sections sections).
Proof using.
  intros Hnl. unfold appended_sections.
  cut (∀ acc, Forall P acc → Forall (λ s, Forall P (sec_content s)) sections →
    Forall P (foldl append_section acc sections)); [intros Hgo; by apply Hgo|].
  induction sections as [|s sections IH]; intros acc Hacc Hs; cbn [foldl]; [done|].
  apply Forall_cons in Hs as [Hs Hss]. apply IH; [|done]. apply Forall_app. split.
  - destruct (is_empty acc); [done|]. apply Forall_app. split; [done|by repeat constructor].
  - apply Forall_app. split; [by apply Forall_trim_end|by repeat constructor].
Qed.

(** The sections of the rendered contract are found after the repair. *)
Lemma found_after euid umask wrote p (f f' : Fs) r found found' : closed f →
  Forall scalar (contract_content r) → found_at f (contract_of p) found →
  rp_contract_content p = contract_content r →
  rp_missing_sections p = missing_at f (rp_root p) r found →
  (calm (repair_contract euid umask wrote p) f).1 = inr () →
  (calm (repair_contract euid umask wrote p) f).2 ⊆ f' → found_at f' (contract_of p) found' →
  there f' (contract_of p) = true ∧
  ∀ s, s ∈ parse_sections (contract_content r) → sec_number s ∈ map sec_number found'.
Proof using.
  intros Hc Hscalar Hfound Hcontent Hmissing Hok Hsub Hfound'.
  pose proof (repair_contract_calm euid umask wrote p f Hc) as (Hrep & Hc1 & Hdone).
  specialize (Hdone Hok). set (f1 := (calm (repair_contract euid umask wrote p) f).2) in *.
  unfold found_at in Hfound. unfold there in Hfound.
  destruct (stat f (contract_of p)) as [e|n] eqn:Hs.
  - destruct Hdone as (q & n & Hr & Hn & Hk). rewrite Hcontent in Hk.
    apply (resolve_mono f1 f') in Hr; [|done]. eapply lookup_weaken in Hn; [|exact Hsub].
    assert (Ht : there f' (contract_of p) = true) by (unfold there, stat; by rewrite Hr, Hn).
    split; [done|]. intros s Hin. unfold found_at in Hfound'. rewrite Ht in Hfound'.
    destruct Hfound' as (raw & Hraw & ->).
    rewrite (text_at_file f' _ q n _ Hr Hn Hk Hscalar) in Hraw. injection Hraw as <-.
    by apply list_elem_of_fmap_2.
  - assert (Hthere : there f (contract_of p) = true) by (unfold there; by rewrite Hs).
    destruct Hfound as (raw & Hraw & ->).
    assert (Ht : there f' (contract_of p) = true).
    { eapply (there_extends f); [|exact Hthere]. eapply tree_extends_trans; [by eapply repaired_extends|].
      by apply extends_subseteq. }
    split; [done|]. intros s Hin. unfold found_at in Hfound'. rewrite Ht in Hfound'.
    destruct Hfound' as (raw' & Hraw' & ->). rewrite parse_numbers.
    apply text_at_inv in Hraw as (q & m & Hr & Hm & Hk & Hsc).
    assert (Hmiss : rp_missing_sections p =
      omap (missing_section (parse_sections (contract_content r)))
        (map (section_status (parse_sections raw)) (parse_sections (contract_content r)))).
    { rewrite Hmissing. unfold missing_at. fold (contract_of p). by rewrite Hthere. }
    assert (Hsecs : Forall (λ s, Forall scalar (sec_content s)) (rp_missing_sections p)).
    { apply Forall_forall. intros x Hx. rewrite Hmiss in Hx.
      apply list_elem_of_omap in Hx as (st & _ & Hx). unfold missing_section in Hx.
      destruct (ss_present st); [done|]. apply find_some in Hx as [Hx%list_elem_of_In _].
      revert x Hx. apply Forall_forall, sections_chars; [by apply split_inclusive_chars|done]. }
    assert (Hnums : numbers raw' = numbers raw ++ numbers (appended_sections (rp_missing_sections p))).
    { destruct Hdone as [[Hf1 Hnone]|(q' & Hr' & Hf1)].
      - rewrite Hnone. cbn. rewrite app_nil_r.
        rewrite (text_at_file f' _ q m raw) in Hraw'; [by injection Hraw' as <-| | |done|done].
        + eapply resolve_mono; [exact Hsub|]. by rewrite Hf1.
        + eapply lookup_weaken; [|exact Hsub]. by rewrite Hf1.
      - assert (q' = q) as -> by congruence.
        destruct (rp_missing_sections p) as [|x xs] eqn:Hm0.
        + cbn. rewrite app_nil_r. unfold repair_bytes in Hf1. rewrite Hm0 in Hf1.
          rewrite (text_at_file f' _ q (appended [] m) raw) in Hraw'; [by injection Hraw' as <-| | | |done].
          * eapply resolve_mono; [exact Hsub|]. eapply resolve_extends; [by eapply repaired_extends|done].
          * eapply lookup_weaken; [|exact Hsub]. by rewrite Hf1, lookup_alter_eq, Hm.
          * unfold appended. cbn. by rewrite Hk, app_nil_r.
        + rewrite (text_at_file f' _ q (appended (repair_bytes p) m)
            (raw ++ ch_nl :: appended_sections (x :: xs))) in Hraw'.
          * injection Hraw' as <-. by rewrite numbers_app_nl.
          * eapply resolve_mono; [exact Hsub|]. eapply resolve_extends; [by eapply repaired_extends|done].
          * eapply lookup_weaken; [|exact Hsub]. by rewrite Hf1, lookup_alter_eq, Hm.
          * unfold appended, repair_bytes. rewrite Hm0. cbn [node_kind]. rewrite Hk.
            by rewrite as_bytes_app.
          * apply Forall_app. split; [done|]. constructor; [by left|]. apply appended_chars; [by left|done]. }
    rewrite Hnums, appended_numbers. apply elem_of_app.
    destruct (found_or_missing (parse_sections raw) _ s Hin) as [Hn|(x & Hx & Hxe & Hxn)].
    { left. by rewrite <-parse_numbers. }
    right. rewrite <-Hmiss in Hx. rewrite <-Hxn. apply list_elem_of_In, in_concat.
    exists (numbers (sec_content x)). split.
    + apply in_map_iff. exists x. split; [done|by apply list_elem_of_In].
    + apply list_elem_of_In. by eapply section_holds_number.
Qed.


(** *** A dangling contract *)

Lemma resolve_new_real links (f : Fs) : ∀ d base c, real_dir f (base ++ d) → c ≠ dotdot →
  f !! ((base ++ d) ++ [c]) = None → resolve_new links f base (d ++ [c]) = inr ((base ++ d) ++ [c]).
Proof using.
  induction d as [|x d IH]; intros base c Hr Hc Hn.
  { rewrite app_nil_r in *. assert (str_eqb c dotdot = false) as Ec by (by apply str_eqb_neq).
    destruct links; cbn; by rewrite Ec, Hn. }
  change (base ++ x :: d) with (base ++ [x] ++ d) in *. rewrite app_assoc in *.
  assert (Hbx : real_dir f (base ++ [x])) by (by eapply real_dir_app).
  apply real_dir_snoc in Hbx as (_ & Hx & n & Hxn & Hxk).
  assert (str_eqb x dotdot = false) as Ex by (by apply str_eqb_neq).
  unfold is_dir in Hxk. destruct links; cbn; rewrite Ex, Hxn; destruct (node_kind n); try done;
    by apply IH.
Qed.

Lemma real_dir_delete (f : Fs) q n d : f !! q = Some n → is_dir n = false → real_dir f d →
  real_dir (delete q f) d.
Proof using.
  intros Hq Hk. induction 1 as [|d c m Hd IH Hc Hm Hdir]; [constructor|].
  econstructor; [done|done| |exact Hdir]. rewrite lookup_delete_ne; [done|]. intros ->. simplify_eq.
  by rewrite Hk in Hdir.
Qed.

Lemma closed_delete (f : Fs) q n : closed f → f !! q = Some n → is_dir n = false → closed (delete q f).
Proof using.
  intros [(r & Hr & Hrk) Hf] Hq Hk.
  assert (Hdir : ∀ p d, f !! p = Some d → is_dir d = true → delete q f !! p = Some d).
  { intros p d Hp Hd. rewrite lookup_delete_ne; [done|]. intros ->. simplify_eq. by rewrite Hk in Hd. }
  split; [exists r; auto|]. intros p c m [_ Hm]%lookup_delete_Some.
  apply Hf in Hm as (d & Hd & Hdk). exists d. auto.
Qed.

(** What materialising a link whose text cannot be read leaves: an empty file. *)
Lemma materialize_unreadable euid umask wrote (f : Fs) d c n e : closed f → real_dir f d →
  c ≠ dotdot → f !! (d ++ [c]) = Some n → is_symlink n = true → text_at f (d ++ [c]) = inl e →
  let f1 := <[d ++ [c] := mkNode (File []) euid (masked umask 438)]> (delete (d ++ [c]) f) in
  calm (materialize_link euid umask wrote (d ++ [c])) f = (inr (), f1) ∧ closed f1 ∧
  resolve f1 (d ++ [c]) = inr (d ++ [c]).
Proof using.
  intros Hc Hr Hne Hn Hk Ht. cbn zeta.
  assert (Hnd : is_dir n = false) by (unfold is_dir, is_symlink in *; by destruct (node_kind n)).
  pose proof Hn as (b & Hb & Hbk)%Hc.
  assert (Hloc : locate f (d ++ [c]) = inr (d ++ [c])) by (by eapply locate_child).
  assert (Hr1 : real_dir (delete (d ++ [c]) f) d) by (by eapply real_dir_delete).
  assert (Hc1 : closed (delete (d ++ [c]) f)) by (by eapply closed_delete).
  assert (Hnone : delete (d ++ [c]) f !! (d ++ [c]) = None) by apply lookup_delete_eq.
  assert (Hnew : resolve_new MAX_LINKS (delete (d ++ [c]) f) [] (d ++ [c]) = inr (d ++ [c]))
    by (by apply (resolve_new_real MAX_LINKS _ d [])).
  split; [|split].
  - unfold materialize_link, symlink_metadata. rewrite calm_bind by steady. rewrite calm_try, calm_look.
    unfold lstat. rewrite Hloc, Hn. cbn [fst snd]. rewrite Hk.
    rewrite calm_bind by steady. rewrite calm_try, calm_read_to_string, Ht. cbn [fst snd].
    unfold io, remove_file. rewrite calm_bind by steady. rewrite calm_map_err, calm_call, Hloc, Hn, Hnd.
    rewrite calm_map_err. unfold write_file, create_file. rewrite calm_bind by steady.
    rewrite calm_call, Hnew, Hnone. unfold calm, write_all. cbn. by rewrite alter_insert_eq.
  - apply closed_insert; [done|done|]. exists d, c, b. split; [done|]. split; [|done].
    rewrite lookup_delete_ne; [done|]. intros E. apply (f_equal length) in E.
    rewrite length_app in E. cbn in E. lia.
  - by apply (resolve_new_made MAX_LINKS _ (d ++ [c]) []).
Qed.

(** A contract that is a dangling link is emptied, not created.  The plan announces that
    the contract will be created, but applying it replaces the link with an empty file
    before it asks whether the contract exists, so the rendered contract is never
    written. *)
Theorem dangling_contract_emptied euid umask wrote arg name vars p (f f1 : Fs) n e :
  closed f → calm (plan_of arg name vars) f = (inr p, f1) →
  f !! contract_of p = Some n → is_symlink n = true → stat f (contract_of p) = inl e →
  CreateContract CONTRACT_PATH ∈ rp_actions p ∧
  (calm (apply_repair euid umask wrote p) f).2 !! contract_of p =
    Some (mkNode (File []) euid (masked umask 438)).
Proof using.
  intros Hc Hplan Hn Hk Hs. pose proof (plan_plain _ _ _ _ _ _ Hc Hplan) as Hplain.
  apply plan_calm in Hplan as (_ & Hreal & r & found & _ & _ & _ & Hm & _ & _ & Hcreate); [|done].
  assert (Hth : there f (contract_of p) = false) by (unfold there; by rewrite Hs).
  split; [by apply Hcreate|]. unfold missing_at in Hm. fold (contract_of p) in Hm. rewrite Hth in Hm.
  assert (Ht : ∃ e', text_at f (contract_of p) = inl e').
  { destruct (text_at f (contract_of p)) as [e'|raw] eqn:Ht; [eauto|]. exfalso.
    apply text_at_inv in Ht as (q & m & Hr & Hq & _). unfold stat in Hs. by rewrite Hr, Hq in Hs. }
  destruct Ht as [e' Ht].
  assert (Hdd : $"CLAUDE.md" ≠ dotdot) by (by vm_compute).
  destruct (materialize_unreadable euid umask wrote f (rp_root p) $"CLAUDE.md" n e' Hc Hreal Hdd Hn Hk Ht)
    as (Hmat & Hc1 & Hres). fold CONTRACT_PATH in Hmat, Hc1, Hres. fold (contract_of p) in Hmat, Hc1, Hres.
  set (g := <[contract_of p := mkNode (File []) euid (masked umask 438)]> (delete (contract_of p) f)) in *.
  assert (Hg : g !! contract_of p = Some (mkNode (File []) euid (masked umask 438)))
    by apply lookup_insert_eq.
  unfold apply_repair. fold (contract_of p). rewrite calm_bind by apply steady_materialize.
  rewrite Hmat. rewrite calm_bind by apply steady_repair_contract.
  assert (Hrc : calm (repair_contract euid umask wrote p) g = (inr (), g)).
  { unfold repair_contract, exists_. fold (contract_of p). rewrite calm_bind by apply steady_holds_at.
    rewrite calm_holds_at. unfold stat. by rewrite Hres, Hg, Hm. }
  rewrite Hrc. destruct (install_agents_calm euid umask wrote (rp_root p) (rp_missing_agents p) g Hc1 Hplain)
    as (Hsub & _). by eapply lookup_weaken.
Qed.
End Converges.

(** ** Examples *)

(** A check for [closed]. *)
Definition closed_check (f : Fs) : bool :=
  match f !! [] with Some n => is_dir n | None => false end &&
  forallb (λ e, match parent e.1 with
                | None => true
                | Some d => match f !! d with Some n => is_dir n | None => false end
                end) (map_to_list f).

Lemma closed_check_ok (f : Fs) : closed_check f = true → closed f.
Proof.
  unfold closed_check. intros [Hroot Hall]%andb_true_iff. split.
  - unfold rooted. destruct (f !! []) as [n|]; [by exists n|done].
  - intros q c n Hn. apply elem_of_map_to_list, list_elem_of_In in Hn.
    eapply forallb_forall in Hall; [|exact Hn]. cbn [fst] in Hall.
    destruct (q ++ [c]) as [|x l] eqn:E; [by destruct q|]. unfold parent in Hall.
    rewrite <-E, removelast_last in Hall. destruct (f !! q) as [d|]; [by exists d|done].
Qed.

Module Examples.
Definition dir : Node := mkNode Dir 1000 493.
Definition text (s : str) : Node := mkNode (File (as_bytes s)) 1000 420.
Definition tree_with (contract : Node) : gmap Path Node := list_to_map [
  ([], dir); ([ $"p"], dir); ([ $"p"; $"CLAUDE.md"], contract)].

Definition nl (s : str) : str := s ++ [ch_nl].
Definition standard : Template :=
  mkTemplate $"standardization" [] BuiltIn Planning [] [
    mkTemplateFile $"CLAUDE.md" (nl $"# Demo" ++ nl $"## 1. Identity" ++ nl $"x" ++ nl $"## 2. Rules" ++ nl $"y") false;
    mkTemplateFile $".claude/agents/explorer.md" $"Explore." false] [].
Definition render (input : str) (vars : gmap str str) : str + str := inr input.

Abbreviation plan_at := (plan_repair_with_vars render [standard] (inr []) (inr [])).

Definition mine : Node := text (nl $"## 2. Mine").
Definition repair (f : gmap Path Node) : ProjectRepairPlan :=
  match (calm (plan_at (arg_of $"/p") $"standardization" ∅) f).1 with
  | inr p => p
  | inl _ => mkRepairPlan [] [] [] [] []
  end.
Definition p0 : ProjectRepairPlan := Eval vm_compute in repair (tree_with mine).
Definition after : gmap Path Node := (calm (apply_repair 1000 18 0 p0) (tree_with mine)).2.
Definition again : ProjectRepairPlan := Eval vm_compute in repair after.

(** Section 1 and the agent are missing; section 2 is there under another title. *)
Example repair_planned : rp_actions p0 =
  [AppendSection 1 $"Identity"; InstallAgent [ $".claude"; $"agents"; $"explorer.md"]].
Proof. reflexivity. Qed.

Lemma p0_not_link : contract_not_link p0 (tree_with mine).
Proof. intros n Hn. vm_compute in Hn. by injection Hn as <-. Qed.

Lemma p0_planned : calm (plan_at (arg_of $"/p") $"standardization" ∅) (tree_with mine) =
  (inr p0, (calm (plan_at (arg_of $"/p") $"standardization" ∅) (tree_with mine)).2).
Proof. apply calm_pair. vm_compute. reflexivity. Qed.

Lemma repair_loses_nothing_witness :
  rp_missing_sections p0 ≠ [] ∧
  repaired (contract_of p0) (repair_bytes p0) (tree_with mine) after.
Proof.
  split; [done|]. apply repair_loses_nothing.
  - apply closed_check_ok. vm_compute. reflexivity.
  - repeat constructor; by vm_compute.
  - exact p0_not_link.
Defined.


Definition link : Node := mkNode (Symlink true [ $"gone"]) 1000 511.
Definition p1 : ProjectRepairPlan := Eval vm_compute in repair (tree_with link).

Lemma dangling_contract_emptied_witness :
  CreateContract CONTRACT_PATH ∈ rp_actions p1 ∧
  (calm (apply_repair 1000 18 0 p1) (tree_with link)).2 !! contract_of p1 =
    Some (mkNode (File []) 1000 420) ∧ rp_contract_content p1 ≠ [].
Proof.
  destruct (dangling_contract_emptied render [standard] (inr []) (inr []) 1000 18 0
    (arg_of $"/p") $"standardization" ∅ p1 (tree_with link)
    (calm (plan_at (arg_of $"/p") $"standardization" ∅) (tree_with link)).2 link not_found)
    as [Hc He].
  - apply closed_check_ok. vm_compute. reflexivity.
  - apply calm_pair. vm_compute. reflexivity.
  - vm_compute. reflexivity.
  - reflexivity.
  - vm_compute. reflexivity.
  - split; [exact Hc|]. split; [exact He|done].
Defined.
End Examples.
