(* ===== verification/Retire.v ===== *)
(** * Retirement of old project assets: [rtrt-templates], project.rs

    Old orchestration assets are removed only when they are byte for byte what an older
    version wrote, after a backup of each; whatever fails, the original bytes are in the
    file or in its backup. *)
From stdpp Require Import gmap sets.
From S2P Require Import Prelude Str Utf8 Error.
From S2P Require Import Fs Files Project Scaffold ScaffoldSafety Standard Repair.

(** ** The assets (builtin.rs) *)

Definition LEGACY_STANDARDIZATION_AGENT_TEAMS : str := $"## 11. Agent Teams

| Agent | Owned Paths | Domain | Model |
|-------|-------------|--------|-------|
| tech-lead | All | orchestration, planning, integration | claude-opus-4-5 |
| explorer | All | read-only code discovery and symbol mapping | claude-opus-4-5 |
| code-reviewer | All | diff review, conventions, security, tests | claude-sonnet-4-5 |
| log-analyzer | logs, traces, CI output | failure diagnosis and root cause analysis | claude-sonnet-4-5 |
".

Definition LEGACY_STANDARDIZATION_TECH_LEAD : str := $"---
name: tech-lead
description: Orchestrates cross-cutting work, assigns sub-agents, integrates results, and enforces conventions.
tools: Read, Bash, Glob, Grep, Edit, Write
model: claude-opus-4-5
---

Break down cross-cutting tasks, assign focused sub-agent work, integrate results, and enforce this repository's conventions. Keep changes scoped, resolve conflicts deliberately, and make verification explicit before handoff.
".

(** ** Plans *)

Inductive RetirementAction :=
| RemoveContractSection (path backup : Path)
| RemoveAgent (path backup : Path).

Record RetirementFile := mkRetirementFile {
  rt_path : Path;
  rt_backup : Path;
  rt_original : list N;
  rt_replacement : option (list N);
}.

Record RetirementPlan := mkRetirementPlan {
  rt_actions : list RetirementAction;
  rt_root : Path;
  rt_files : list RetirementFile;
}.

(** [match_indices] of a text that is not empty: what is before and after each match. *)
Fixpoint matches_from (fuel : nat) (needle before s : str) : list (str * str) :=
  match fuel with
  | O => []
  | S fuel' =>
      match split_once needle s with
      | None => []
      | Some (a, b) => (before ++ a, b) :: matches_from fuel' needle (before ++ a ++ needle) b
      end
  end.
Definition match_indices (needle s : str) : list (str * str) :=
  matches_from (S (length s)) needle [] s.

(** The filter: the match is a whole section. *)
Definition whole_section (m : str * str) : bool :=
  (is_empty m.1 || match last m.1 with Some c => c =? ch_nl | None => false end) &&
  (is_empty m.2 || starts_with m.2 (ch_nl :: $"## ")).

Definition remove_exact_legacy_section (original : list N) : option (list N) :=
  match from_utf8 original with
  | None => None
  | Some text =>
      match List.filter whole_section (match_indices LEGACY_STANDARDIZATION_AGENT_TEAMS text) with
      | [(before, after)] => Some (as_bytes (before ++ after))
      | _ => None
      end
  end.

Fixpoint read_down (path current : Path) (rel : list str) : Act Error (option (list N)) :=
  match rel with
  | [] => mret None
  | name :: rest =>
      if str_eqb name dotdot then mret None
      else
        found ← try_ (symlink_metadata (current ++ [name]));
        match found with
        | inr n =>
            if is_symlink n then mret None
            else if bool_decide (current ++ [name] = path) && is_file n
            then bytes ← io (read path); mret (Some bytes)
            else if is_dir n then read_down path (current ++ [name]) rest
            else mret None
        | inl e => if bool_decide (io_kind e = NotFound) then mret None else throw (Io (io_message e))
        end
  end.

Definition read_regular_file_without_symlinks (root path : Path) : Act Error (option (list N)) :=
  match strip_path root path with
  | None => throw (Config ($"legacy asset escaped project root: " ++ display path))
  | Some relative => read_down path root relative
  end.

Definition backup_conflict (path : Path) : Error :=
  Config ($"legacy orchestration backup conflicts with retirement: " ++ display path).

Definition validate_backup (path : Path) (original : list N) : Act Error () :=
  found ← try_ (symlink_metadata path);
  match found with
  | inr n =>
      if is_file n
      then bytes ← io (read path);
           if bool_decide (bytes = original) then mret () else throw (backup_conflict path)
      else throw (backup_conflict path)
  | inl e => if bool_decide (io_kind e = NotFound) then mret () else throw (Io (io_message e))
  end.

(** [Path::with_extension]. *)
Definition with_extension (path : Path) (ext : str) : Path :=
  match file_name path with
  | None => path
  | Some name =>
      removelast path ++
        [(split_extension name).1 ++ (if is_empty ext then [] else $"." ++ ext)]
  end.

Definition backup_path (path : Path) : Path :=
  let extension := match file_name path with
                   | Some name => default [] (split_extension name).2
                   | None => []
                   end in
  with_extension path ((if is_empty extension then extension else extension ++ $".") ++ $"bak").

Definition TECH_LEAD_PATH : Path := AGENTS_DIR ++ [ $"tech-lead.md"].

(** One asset of the plan: the bytes it must have, or what replaces the rest. *)
Definition plan_asset (root path : Path) (decide_ : list N → option (option (list N)))
    (action : Path → Path → RetirementAction) : Act Error (list (RetirementAction * RetirementFile)) :=
  found ← read_regular_file_without_symlinks root path;
  match found with
  | None => mret []
  | Some original =>
      match decide_ original with
      | None => mret []
      | Some replacement =>
          validate_backup (backup_path path) original ≫= λ _,
          mret [(action path (backup_path path),
                 mkRetirementFile path (backup_path path) original replacement)]
      end
  end.

Definition retire_contract (original : list N) : option (option (list N)) :=
  match remove_exact_legacy_section original with Some r => Some (Some r) | None => None end.
Definition retire_agent (original : list N) : option (option (list N)) :=
  if bool_decide (original = as_bytes LEGACY_STANDARDIZATION_TECH_LEAD) then Some None else None.

Definition plan_legacy_orchestration_retirement (current_dir : IoError + Path) (root : PathArg) :
    Act Error RetirementPlan :=
  root ← validate_project_path current_dir root;
  contract ← plan_asset root (root ++ CONTRACT_PATH) retire_contract RemoveContractSection;
  agent ← plan_asset root (root ++ TECH_LEAD_PATH) retire_agent RemoveAgent;
  mret (mkRetirementPlan (map fst (contract ++ agent)) root (map snd (contract ++ agent))).

(** ** Applying a plan *)

Section Apply.
Context (euid umask pid : N) (wrote : nat).

Definition changed (stage : str) (path : Path) : Error :=
  Config ($"legacy orchestration asset changed " ++ stage ++ $": " ++ display path).

Definition verify_retirement_source (root : Path) (f : RetirementFile) (stage : str) : Act Error () :=
  current ← read_regular_file_without_symlinks root (rt_path f);
  if negb (bool_decide (current = Some (rt_original f))) then throw (changed stage (rt_path f))
  else validate_backup (rt_backup f) (rt_original f).

Fixpoint verify_all (root : Path) (stage : str) (files : list RetirementFile) : Act Error () :=
  match files with
  | [] => mret ()
  | f :: rest => verify_retirement_source root f stage ≫= λ _, verify_all root stage rest
  end.

Definition stage_backup (f : RetirementFile) : Act Error () :=
  opened ← try_ (create_new euid umask (rt_backup f) 438 (* 0o666 *));
  match opened with
  | inr file => io (write_all wrote file (rt_original f))
  | inl e =>
      if bool_decide (io_kind e = AlreadyExists) then validate_backup (rt_backup f) (rt_original f)
      else throw (Io (io_message e))
  end.

Fixpoint stage_backups (files : list RetirementFile) : Act Error () :=
  match files with
  | [] => mret ()
  | f :: rest => stage_backup f ≫= λ _, stage_backups rest
  end.

Definition retire_one (root : Path) (f : RetirementFile) (sequence : N) : Act Error N :=
  verify_retirement_source root f $"before retirement" ≫= λ _,
  match rt_replacement f with
  | Some replacement => replace_contents_no_follow euid umask pid wrote (rt_path f) replacement sequence
  | None => io (remove_file (rt_path f)) ≫= λ _, mret sequence
  end.

Fixpoint retire_all (root : Path) (files : list RetirementFile) (sequence : N) : Act Error () :=
  match files with
  | [] => mret ()
  | f :: rest => sequence' ← retire_one root f sequence; retire_all root rest sequence'
  end.

(** The hooks between the stages do nothing outside tests. *)
Definition apply_legacy_orchestration_retirement (p : RetirementPlan) (sequence : N) : Act Error () :=
  verify_all (rt_root p) $"after preflight" (rt_files p) ≫= λ _,
  stage_backups (rt_files p) ≫= λ _,
  verify_all (rt_root p) $"after backup staging" (rt_files p) ≫= λ _,
  retire_all (rt_root p) (rt_files p) sequence.
End Apply.

(** ** What is removed *)

Lemma split_once_Some p s : ∀ a b, split_once p s = Some (a, b) → s = a ++ p ++ b.
Proof.
  induction s as [|c s IH]; intros a b; cbn [split_once].
  - destruct (strip_prefix p []) as [r|] eqn:E; [|done]. intros [= <- <-]. by apply strip_prefix_Some in E.
  - destruct (strip_prefix p (c :: s)) as [r|] eqn:E.
    + intros [= <- <-]. by apply strip_prefix_Some in E.
    + destruct (split_once p s) as [[a' b']|]; [|done]. intros [= <- <-]. cbn. f_equal. by apply IH.
Qed.

Lemma matches_from_spec fuel needle : ∀ before s m, m ∈ matches_from fuel needle before s →
  before ++ s = m.1 ++ needle ++ m.2.
Proof.
  induction fuel as [|fuel IH]; intros before s m; cbn; [by intros ?%not_elem_of_nil|].
  destruct (split_once needle s) as [[a b]|] eqn:E; [|by intros ?%not_elem_of_nil].
  apply split_once_Some in E as ->. intros [->|Hm%IH]%elem_of_cons; cbn.
  - by rewrite <-!app_assoc.
  - rewrite <-Hm. by rewrite <-!app_assoc.
Qed.

(** Only the old section itself is removed.  When the contract is rewritten, its bytes were a
    text before, the old section exactly as written, and a text after, where the section
    starts a line and is followed by the next section or the end; the new bytes are the
    text before and the text after, and nothing else. *)
Theorem exact_section_removed original replacement :
  remove_exact_legacy_section original = Some replacement →
  ∃ before after,
    original = as_bytes (before ++ LEGACY_STANDARDIZATION_AGENT_TEAMS ++ after) ∧
    replacement = as_bytes (before ++ after) ∧
    nl_terminated before ∧ (after = [] ∨ ∃ rest, after = (ch_nl :: $"## ") ++ rest).
Proof.
  unfold remove_exact_legacy_section, from_utf8. case_bool_decide as Hb; [|done].
  set (text := from_utf8_lossy original) in *.
  destruct (List.filter _ _) as [|[before after] [|]] eqn:Hf; try done. intros [= <-].
  assert (Hin : (before, after) ∈ List.filter whole_section
    (match_indices LEGACY_STANDARDIZATION_AGENT_TEAMS text)) by (rewrite Hf; by left).
  apply list_elem_of_In, filter_In in Hin as [Hin%list_elem_of_In Hw].
  apply matches_from_spec in Hin. cbn in Hin. exists before, after.
  split; [by rewrite <-Hin|]. split; [done|].
  unfold whole_section in Hw. cbn [fst snd] in Hw. apply andb_true_iff in Hw as [H1 H2]. split.
  - destruct before as [|c before _] using rev_ind; [by left|right]. exists before.
    rewrite last_snoc in H1. apply orb_true_iff in H1 as [H1|H1%N.eqb_eq]; [by destruct before|].
    by rewrite H1.
  - apply orb_true_iff in H2 as [H2|H2]; [left; by destruct after|right].
    by apply starts_with_spec in H2.
Qed.

(** ** Regular files, read *)

(** A file with these bytes, reached without links. *)
Definition regular (f : Fs) (path : Path) (bytes : list N) : Prop :=
  ∃ d c n, path = d ++ [c] ∧ real_dir f d ∧ c ≠ dotdot ∧ f !! path = Some n ∧ node_kind n = File bytes.

Lemma dir_node_real (f : Fs) d : closed f → real_dir f d → ∃ n, f !! d = Some n ∧ is_dir n = true.
Proof. intros [Hr _]. destruct 1 as [|d c n]; eauto. Qed.

Lemma lstat_child (f : Fs) d c n : closed f → real_dir f d → c ≠ dotdot → lstat f (d ++ [c]) = inr n →
  f !! (d ++ [c]) = Some n.
Proof.
  intros Hc Hd Hne. destruct (dir_node_real f d Hc Hd) as (m & Hm & Hk).
  unfold lstat. rewrite (locate_child f d c m) by done.
  destruct (f !! (d ++ [c])); [by intros [= ->]|done].
Qed.

Lemma read_only_read_down path rel : ∀ current, read_only (read_down path current rel).
Proof.
  induction rel as [|name rel IH]; intros current; cbn; [done|]. unfold io.
  destruct (str_eqb name dotdot); [done|]. apply read_only_bind; [read_only|]. intros [e|n].
  - by case_bool_decide.
  - destruct (is_symlink n); [done|]. destruct (_ && _); [|by destruct (is_dir n)]. read_only.
Qed.

Lemma read_only_regular root path : read_only (read_regular_file_without_symlinks root path).
Proof.
  unfold read_regular_file_without_symlinks. destruct (strip_path root path); [|done].
  apply read_only_read_down.
Qed.

Lemma try_answer {E F A : Type} (m : Act E A) w r w' :
  try_ (F := F) m w = (inr r, w') → m w = (r, w').
Proof. unfold try_. destruct (m w). by intros [= -> ->]. Qed.

Lemma read_down_regular path rel : ∀ current w bytes w', closed (tree w) → real_dir (tree w) current →
  read_down path current rel w = (inr (Some bytes), w') → regular (tree w) path bytes.
Proof.
  induction rel as [|name rel IH]; intros current w bytes w' Hc Hd; cbn [read_down]; [done|].
  destruct (str_eqb name dotdot) eqn:Ed; [done|]. apply str_eqb_neq in Ed.
  intros (found & w1 & Hf & Ht & Hrun)%bind_answer; [|apply read_only_try, read_only_lstat].
  apply try_answer in Hf. destruct found as [e|n]; [by case_bool_decide|].
  apply look_answer in Hf. apply lstat_child in Hf; [|done..].
  destruct (is_symlink n) eqn:Hs; [done|].
  case_bool_decide as Hp; cbn [andb] in Hrun; [destruct (is_file n) eqn:Hk|].
  - apply bind_answer in Hrun as (b & w2 & Hr & _ & [= -> _]); [|unfold io; read_only].
    apply map_err_answer, look_answer in Hr. rewrite Ht in Hr. unfold read_at in Hr.
    assert (Hres : resolve (tree w) path = inr path).
    { rewrite <-Hp. by apply (resolve_from_regular MAX_LINKS (tree w) current [] name n). }
    rewrite Hres in Hr. rewrite <-Hp in Hr at 1. rewrite Hf in Hr. subst path.
    exists current, name, n. do 4 (split; [done|]).
    destruct n as [[| |] u m]; try done. by injection Hr as ->.
  - destruct (is_dir n) eqn:Hd'; [|done]. rewrite <-Ht in Hc, Hd, Hf |- *.
    eapply IH; [done| |exact Hrun]. by econstructor.
  - destruct (is_dir n) eqn:Hd'; [|done]. rewrite <-Ht in Hc, Hd, Hf |- *.
    eapply IH; [done| |exact Hrun]. by econstructor.
Qed.

Lemma read_regular root path w bytes w' : closed (tree w) → real_dir (tree w) root →
  read_regular_file_without_symlinks root path w = (inr (Some bytes), w') →
  regular (tree w) path bytes.
Proof.
  intros Hc Hd. unfold read_regular_file_without_symlinks.
  destruct (strip_path root path) as [rel|]; [|done]. by apply read_down_regular.
Qed.

Lemma read_only_backup path original : read_only (validate_backup path original).
Proof.
  unfold validate_backup, io. apply read_only_bind; [read_only|]. intros [e|n]; [by case_bool_decide|].
  destruct (is_file n); [|done]. apply read_only_bind; [read_only|]. intros b. by case_bool_decide.
Qed.

(** ** What a plan names *)

Lemma validate_answer current_dir arg w root w' :
  validate_project_path current_dir arg w = (inr root, w') → tree w' = tree w ∧ real_dir (tree w) root.
Proof.
  unfold validate_project_path. destruct (is_empty _); [done|]. destruct (existsb _ _); [done|].
  unfold io, canonicalize.
  intros (a & w1 & _ & Ht1 & Hrun)%bind_answer; [|destruct (arg_absolute arg); read_only].
  apply bind_answer in Hrun as (c & w2 & Hcan & Ht2 & Hrun); [|read_only].
  apply map_err_answer, look_answer in Hcan.
  apply bind_answer in Hrun as (b & w3 & Hb & Ht3 & Hrun); [|read_only].
  destruct b; [|done]. injection Hrun as <- <-. rewrite Ht1 in *. rewrite Ht2 in *.
  split; [done|]. unfold holds_at in Hb.
  apply bind_answer in Hb as (r & w4 & Hr & _ & Hb); [|unfold metadata; read_only].
  apply try_answer in Hr. destruct r as [|n]; [by injection Hb|].
  apply look_answer in Hr. rewrite Ht2 in Hr. injection Hb as Hn _. by eapply stat_real_dir.
Qed.

(** An asset of a plan: a file with its bytes, and the name of its backup beside it. *)
Record asset (f : Fs) (a : RetirementFile) : Prop := mkAsset {
  as_regular : regular f (rt_path a) (rt_original a);
  as_backup : ∃ b, rt_backup a = removelast (rt_path a) ++ [b] ∧ b ≠ dotdot;
}.

(** The assets of a plan, no two names the same. *)
Definition assets (f : Fs) (l : list RetirementFile) : Prop :=
  Forall (asset f) l ∧ NoDup (map rt_path l ++ map rt_backup l).

Lemma plan_asset_answer root path decide_ action w l w' : closed (tree w) → real_dir (tree w) root →
  plan_asset root path decide_ action w = (inr l, w') →
  tree w' = tree w ∧
  (l = [] ∨ ∃ original replacement,
     l = [(action path (backup_path path),
           mkRetirementFile path (backup_path path) original replacement)] ∧
     regular (tree w) path original ∧ decide_ original = Some replacement).
Proof.
  intros Hc Hr. unfold plan_asset.
  intros (found & w1 & Hf & Ht & Hrun)%bind_answer; [|apply read_only_regular].
  destruct found as [original|]; [|injection Hrun as <- <-; auto].
  destruct (decide_ original) as [replacement|] eqn:Hd; [|injection Hrun as <- <-; auto].
  apply bind_answer in Hrun as (u & w2 & _ & Ht2 & [= <- <-]); [|apply read_only_backup].
  split; [congruence|]. right. exists original, replacement. split; [done|]. split; [|done].
  by eapply read_regular.
Qed.

Lemma backup_contract root : backup_path (root ++ CONTRACT_PATH) = root ++ [ $"CLAUDE.md.bak"].
Proof.
  unfold backup_path, with_extension, file_name, CONTRACT_PATH. rewrite last_snoc.
  cbv -[removelast app]. by rewrite removelast_last.
Qed.

Lemma backup_agent root : backup_path (root ++ TECH_LEAD_PATH) =
  root ++ AGENTS_DIR ++ [ $"tech-lead.md.bak"].
Proof.
  unfold backup_path, with_extension, file_name, TECH_LEAD_PATH. rewrite !app_assoc, last_snoc.
  cbv -[removelast app AGENTS_DIR]. by rewrite removelast_last.
Qed.

Lemma contract_asset (f : Fs) root original replacement :
  regular f (root ++ CONTRACT_PATH) original →
  asset f (mkRetirementFile (root ++ CONTRACT_PATH) (backup_path (root ++ CONTRACT_PATH)) original replacement).
Proof.
  intros Hr. split; [done|]. exists $"CLAUDE.md.bak". cbn [rt_path rt_backup].
  rewrite backup_contract. unfold CONTRACT_PATH. by rewrite removelast_last.
Qed.

Lemma agent_asset (f : Fs) root original replacement :
  regular f (root ++ TECH_LEAD_PATH) original →
  asset f (mkRetirementFile (root ++ TECH_LEAD_PATH) (backup_path (root ++ TECH_LEAD_PATH)) original replacement).
Proof.
  intros Hr. split; [done|]. exists $"tech-lead.md.bak". cbn [rt_path rt_backup].
  rewrite backup_agent. unfold TECH_LEAD_PATH. by rewrite !app_assoc, removelast_last.
Qed.

(** Closes that names below one path differ. *)
Ltac distinct_names :=
  repeat (apply NoDup_cons; split); try (by constructor); try done;
  rewrite ?not_elem_of_cons; repeat split; try apply not_elem_of_nil;
  let H := fresh in intros H%app_inv_head; vm_compute in H; discriminate.

Lemma plan_answer current_dir arg w p w' : closed (tree w) →
  plan_legacy_orchestration_retirement current_dir arg w = (inr p, w') →
  tree w' = tree w ∧ assets (tree w) (rt_files p).
Proof.
  intros Hc. unfold plan_legacy_orchestration_retirement, mbind, Act_bind.
  destruct (validate_project_path current_dir arg w) as [[e|root] w1] eqn:Hv; [done|].
  apply validate_answer in Hv as [Ht Hr]. rewrite <-Ht in Hc, Hr |- *. clear Ht w.
  destruct (plan_asset _ _ retire_contract _ w1) as [[e|l1] w2] eqn:H1; [done|].
  apply plan_asset_answer in H1 as [Ht H1]; [|done..]. rewrite <-Ht in Hc, Hr, H1 |- *. clear Ht w1.
  destruct (plan_asset _ _ retire_agent _ w2) as [[e|l2] w3] eqn:H2; [done|].
  apply plan_asset_answer in H2 as [Ht H2]; [|done..].
  intros [= <- <-]. split; [done|]. cbn [rt_files].
  destruct H1 as [->|(o1 & r1 & -> & H1 & _)], H2 as [->|(o2 & r2 & -> & H2 & _)];
    cbn -[backup_path TECH_LEAD_PATH CONTRACT_PATH]; split;
    repeat first [by constructor|apply contract_asset; done|apply agent_asset; done|apply Forall_cons; split];
    cbn -[backup_path TECH_LEAD_PATH CONTRACT_PATH];
    rewrite ?backup_contract, ?backup_agent; unfold TECH_LEAD_PATH, CONTRACT_PATH; distinct_names.
Qed.

(** ** Staging the backups *)

Lemma houtcome_at {E A : Type} (m : Act E A) (P : Fs → Prop) (Q : A → Fs → Prop) (R : E → Fs → Prop) :
  (∀ f1, P f1 → houtcome (λ f, f = f1) m Q R) → houtcome P m Q R.
Proof. intros Hm w Hh Hw. by apply (Hm (tree w)). Qed.

(** The backup of an asset is a file with the asset's bytes. *)
Definition backed (f : Fs) (a : RetirementFile) : Prop :=
  ∃ n, f !! rt_backup a = Some n ∧ node_kind n = File (rt_original a).

Lemma backed_mono (f f' : Fs) a : f ⊆ f' → backed f a → backed f' a.
Proof. intros Hf (n & Hn & Hk). exists n. split; [by eapply lookup_weaken|done]. Qed.

Lemma asset_mono (f f' : Fs) a : f ⊆ f' → asset f a → asset f' a.
Proof.
  intros Hf [(d & c & n & Hp & Hd & Hc & Hn & Hk) Hb]. split; [|done]. exists d, c, n.
  split; [done|]. split; [by eapply real_dir_mono|]. split; [done|]. split; [by eapply lookup_weaken|done].
Qed.

Lemma steady_backup path original : steady (validate_backup path original).
Proof. unfold validate_backup, io. steady. Qed.

(** Validation accepts a backup that is there only when it has the bytes. *)
Lemma validate_outcome (f1 : Fs) d b n original : real_dir f1 d → b ≠ dotdot →
  closed f1 → f1 !! (d ++ [b]) = Some n →
  houtcome (λ f, f = f1) (validate_backup (d ++ [b]) original)
    (λ _ f, f = f1 ∧ node_kind n = File original) (λ _ f, f = f1).
Proof.
  intros Hd Hb Hc Hn. destruct (dir_node_real f1 d Hc Hd) as (m & Hm & Hk).
  unfold validate_backup. eapply houtcome_bind_try.
  - apply houtcome_call with (Q := λ a f, f = f1 ∧ a = n) (R := λ e f, f = f1 ∧ io_kind e ≠ NotFound).
    + by intros e f [He _].
    + intros f ->. unfold lstat. by rewrite (locate_child f1 d b m), Hn.
  - intros n'. apply houtcome_at. intros f [-> ->]. destruct (is_file n) eqn:Hf; [|by apply houtcome_throw].
    eapply houtcome_bind with (S := λ bytes f, f = f1 ∧ node_kind n = File bytes).
    + apply houtcome_map_err, houtcome_call; [done|]. intros f ->. unfold read_at.
      assert (Hr : resolve f1 (d ++ [b]) = inr (d ++ [b])).
      { apply (resolve_from_regular MAX_LINKS f1 d [] b n); try done.
        unfold is_file in Hf. unfold is_symlink. by destruct (node_kind n). }
      rewrite Hr, Hn. destruct n as [[| |] u md]; by try (split).
    + intros bytes. case_bool_decide as Hbo; [|by apply houtcome_throw; intros f []].
      apply houtcome_ret. intros f [-> Hk']. by rewrite <-Hbo.
  - intros e. apply houtcome_at. intros f [-> He]. case_bool_decide; [done|by apply houtcome_throw].
Qed.

(** The tree grew by files at the backups of these assets. *)
Definition staged (l : list RetirementFile) (f1 f : Fs) : Prop :=
  f1 ⊆ f ∧ ∀ q n, f !! q = Some n → f1 !! q = Some n ∨ (is_file n = true ∧ q ∈ map rt_backup l).

Lemma staged_refl l f : staged l f f.
Proof. split; [done|by left]. Qed.

Lemma staged_trans l f1 f2 f3 : staged l f1 f2 → staged l f2 f3 → staged l f1 f3.
Proof.
  intros [H1 G1] [H2 G2]. split; [by etrans|]. intros q n [Hq|Hq]%G2; [by apply G1|by right].
Qed.

Lemma staged_cons a l f1 f : staged l f1 f → staged (a :: l) f1 f.
Proof. intros [H G]. split; [done|]. intros q n [Hq|[Hk Hq]]%G; [by left|right]. by split; [|right]. Qed.

Lemma staged_fresh a l f1 f : fresh_file f1 (rt_backup a) f → staged (a :: l) f1 f.
Proof.
  intros Hf. split; [by eapply fresh_subseteq|]. destruct Hf as (Hq & n & -> & Hn). intros q m.
  destruct (decide (q = rt_backup a)) as [->|Hne].
  - rewrite lookup_insert_eq. intros [= <-]. right. split; [done|by left].
  - rewrite lookup_insert_ne by done. by left.
Qed.

Lemma closed_grown l (f1 f : Fs) : staged l f1 f → (∀ q, q ∈ map rt_backup l → ∃ d b, q = d ++ [b] ∧ real_dir f1 d) →
  closed f1 → closed f.
Proof.
  intros [Hs G] Hb Hc. pose proof Hc as [(r & Hr & Hrk) Hp]. split.
  { exists r. split; [by eapply lookup_weaken|done]. }
  intros q c n [Hq|[_ Hq]]%G.
  - apply Hp in Hq as (m & Hm & Hk). exists m. split; [by eapply lookup_weaken|done].
  - apply Hb in Hq as (d & b & [-> _]%app_inj_tail & Hd).
    destruct (dir_node_real f1 d Hc Hd) as (m & Hm & Hk). exists m. split; [by eapply lookup_weaken|done].
Qed.

Section Stage.
Context (euid umask pid : N) (wrote : nat).

Lemma create_backup_outcome (f1 : Fs) a : closed f1 → asset f1 a →
  houtcome (λ f, f = f1) (create_new euid umask (rt_backup a) 438)
    (λ q f, q = rt_backup a ∧ fresh_file f1 (rt_backup a) f)
    (λ e f, f = f1 ∧ (io_kind e = AlreadyExists → ∃ n, f1 !! rt_backup a = Some n)).
Proof using.
  intros Hc [(d & c & n & Hp & Hd & _) (b & Hb & Hbd)]. rewrite Hp, removelast_last in Hb.
  destruct (dir_node_real f1 d Hc Hd) as (m & Hm & Hk).
  apply houtcome_call; [by intros e f [_ He] ->|]. intros f ->.
  rewrite Hb, (locate_child f1 d b m) by done. destruct (f1 !! (d ++ [b])) as [n'|] eqn:Hn'.
  - split; [done|]. intros _. by exists n'.
  - split; [done|]. split; [done|]. by eexists.
Qed.

Lemma stage_backup_outcome (f1 : Fs) a l : closed f1 → asset f1 a →
  houtcome (λ f, f = f1) (stage_backup euid umask wrote a)
    (λ _ f, staged (a :: l) f1 f ∧ backed f a) (λ _, staged (a :: l) f1).
Proof using.
  intros Hc Ha. unfold stage_backup. eapply houtcome_bind_try; [by apply create_backup_outcome| |].
  - intros q. apply houtcome_at. intros f [-> Hf]. apply houtcome_map_err, houtcome_of; [steady|].
    intros w Hw. destruct Hf as (Hq & n & -> & Hn). unfold write_all. rewrite Hw.
    assert (Hg : ∀ bytes, staged (a :: l) f1
      (alter (λ n, mkNode (File bytes) (node_uid n) (node_mode n)) (rt_backup a) (<[rt_backup a := n]> f1))).
    { intros bytes. apply staged_fresh. rewrite alter_insert_eq. split; [done|]. by eexists. }
    assert (Hb : backed (alter (λ n, mkNode (File (rt_original a)) (node_uid n) (node_mode n))
      (rt_backup a) (<[rt_backup a := n]> f1)) a).
    { rewrite alter_insert_eq. eexists. by rewrite lookup_insert_eq. }
    destruct (io_faults w) as [|[e|] fs]; cbn; by auto.
  - intros e. apply houtcome_at. intros f [-> He]. case_bool_decide as Hk.
    2: { apply houtcome_throw. intros f ->. apply staged_refl. }
    destruct (He Hk) as [n Hn]. destruct Ha as [(d & c & m & Hp & Hd & _) (b & Hb & Hbd)].
    rewrite Hp, removelast_last in Hb. rewrite Hb in Hn |- *.
    eapply houtcome_weaken; [by apply (validate_outcome f1 d b n)|done| |].
    + intros u f [-> Hkn]. split; [apply staged_refl|]. exists n. by rewrite Hb.
    + intros e' f ->. apply staged_refl.
Qed.

Lemma backup_dirs (f : Fs) l q : Forall (asset f) l → q ∈ map rt_backup l →
  ∃ d b, q = d ++ [b] ∧ real_dir f d.
Proof using.
  intros Hl Hq. apply list_elem_of_fmap in Hq as (a & -> & Ha).
  rewrite Forall_forall in Hl. destruct (Hl a Ha) as [(d & c & n & Hp & Hd & _) (b & Hb & _)].
  exists d, b. by rewrite Hp, removelast_last in Hb.
Qed.

Lemma stage_backups_outcome l : ∀ f1 : Fs, closed f1 → Forall (asset f1) l →
  houtcome (λ f, f = f1) (stage_backups euid umask wrote l)
    (λ _ f, staged l f1 f ∧ Forall (backed f) l) (λ _, staged l f1).
Proof using.
  induction l as [|a l IH]; intros f1 Hc Hl; cbn [stage_backups].
  { apply houtcome_ret. intros f ->. split; [apply staged_refl|done]. }
  apply Forall_cons in Hl as [Ha Hl].
  eapply houtcome_bind; [by apply (stage_backup_outcome f1 a l)|]. intros u. apply houtcome_at.
  intros f2 [Hg Hb]. pose proof Hg as [Hs _].
  assert (Hl2 : Forall (asset f2) (a :: l)).
  { constructor; [by eapply asset_mono|]. eapply Forall_impl; [done|]. intros x. by apply asset_mono. }
  assert (Hc2 : closed f2).
  { eapply closed_grown; [done| |done]. intros q. by apply (backup_dirs f1 (a :: l)); constructor. }
  apply Forall_cons in Hl2 as [_ Hl2].
  eapply houtcome_weaken; [by apply (IH f2)|done| |]; cbn beta.
  - intros v f [Hg' Hb']. split; [by eapply staged_trans; [|apply staged_cons]|].
    constructor; [|done]. by eapply backed_mono; [apply Hg'|].
  - intros e f Hg'. by eapply staged_trans; [|apply staged_cons].
Qed.
End Stage.

(** ** Retiring *)

(** Nothing but what is at [q] differs. *)
Definition only_at (q : Path) (f1 f : Fs) : Prop := ∀ p, p ≠ q → f !! p = f1 !! p.

Lemma real_dir_only q (f1 f : Fs) n d : only_at q f1 f → f1 !! q = Some n → is_dir n = false →
  real_dir f1 d → real_dir f d.
Proof.
  intros Ho Hq Hk. induction 1 as [|d c m Hd IH Hc Hm Hmk]; [constructor|].
  econstructor; [done|done| |exact Hmk]. rewrite Ho; [done|]. intros E. rewrite E in Hm. simplify_eq.
  by rewrite Hk in Hmk.
Qed.

Lemma closed_only q (f1 f : Fs) n : only_at q f1 f → f1 !! q = Some n → is_dir n = false →
  closed f1 → closed f.
Proof.
  intros Ho Hq Hk [(r & Hr & Hrk) Hp].
  assert (Hdir : ∀ p d, f1 !! p = Some d → is_dir d = true → f !! p = Some d).
  { intros p d Hd Hdk. rewrite Ho; [done|]. intros E. rewrite E in Hd. simplify_eq. by rewrite Hk in Hdk. }
  split; [exists r; auto|]. intros p c m Hm.
  assert (∃ m', f1 !! (p ++ [c]) = Some m') as [m' Hm'].
  { destruct (decide (p ++ [c] = q)) as [->|Hne]; [by exists n|]. exists m. by rewrite <-Ho. }
  apply Hp in Hm' as (d & Hd & Hdk). exists d. auto.
Qed.

(** What is left of a retired asset. *)
Definition retired (f : Fs) (a : RetirementFile) : Prop :=
  match rt_replacement a with
  | Some replacement => ∃ n, f !! rt_path a = Some n ∧ node_kind n = File replacement
  | None => f !! rt_path a = None
  end.

Definition stands (f : Fs) (a : RetirementFile) : Prop := regular f (rt_path a) (rt_original a).

Lemma stands_only q (f1 f : Fs) n a : only_at q f1 f → f1 !! q = Some n → is_dir n = false →
  rt_path a ≠ q → stands f1 a → stands f a.
Proof.
  intros Ho Hq Hk Hne (d & c & m & Hp & Hd & Hc & Hm & Hmk). exists d, c, m.
  split; [done|]. split; [by eapply real_dir_only|]. split; [done|]. split; [by rewrite Ho|done].
Qed.

Lemma stands_file f a : stands f a → ∃ n, f !! rt_path a = Some n ∧ is_dir n = false.
Proof. intros (d & c & n & _ & _ & _ & Hn & Hk). exists n. unfold is_dir. by rewrite Hk. Qed.

(** No node was lost, except at these paths. *)
Definition kept (l : list RetirementFile) (f1 f : Fs) : Prop :=
  ∀ q n, q ∉ map rt_path l → f1 !! q = Some n → f !! q = Some n.
(** Nothing is different, except at these paths. *)
Definition same (l : list RetirementFile) (f1 f : Fs) : Prop :=
  ∀ q, q ∉ map rt_path l → f !! q = f1 !! q.

Section Retiring.
Context (euid umask pid : N) (wrote : nat).

Lemma read_only_verify root a stage : read_only (verify_retirement_source root a stage).
Proof using.
  unfold verify_retirement_source. apply read_only_bind; [apply read_only_regular|].
  intros current. destruct (negb _); [done|apply read_only_backup].
Qed.

Lemma retire_one_outcome (f1 : Fs) root a sequence : closed f1 → stands f1 a →
  outcome (λ f, f = f1) (retire_one euid umask pid wrote root a sequence)
    (λ _ f, only_at (rt_path a) f1 f ∧ retired f a) (λ _ f, f1 ⊆ f).
Proof using.
  intros Hc (d & c & n & Hp & Hd & Hcd & Hn & Hk). unfold retire_one.
  eapply outcome_bind with (S := λ _ f, f = f1).
  { eapply outcome_weaken; [apply (read_only_outcome _ (λ f, f = f1)), read_only_verify|done..|].
    by intros e f ->. }
  intros u. unfold retired. destruct (rt_replacement a) as [r|].
  - eapply outcome_weaken.
    + rewrite Hp. apply (replacing_outcome euid umask pid wrote f1 d d); [by apply resolve_dir|done].
    + done.
    + intros s f (m & -> & [Hm _] & _). rewrite Hp. split.
      * intros p Hne. by rewrite lookup_insert_ne.
      * exists m. by rewrite lookup_insert_eq.
    + intros e f [->|(leaf & Hf)]; [done|by eapply fresh_subseteq].
  - destruct (dir_node_real f1 d Hc Hd) as (m & Hm & Hmk). unfold io.
    eapply outcome_bind with (S := λ _ f, f = delete (rt_path a) f1).
    + apply outcome_map_err, outcome_call; [by intros e f ->|]. intros f ->.
      rewrite Hp, (locate_child f1 d c m), <-Hp, Hn by done. unfold is_dir. by rewrite Hk.
    + intros v. apply outcome_ret. intros f ->. split; [|by rewrite lookup_delete_eq].
      intros p Hne. by rewrite lookup_delete_ne.
Qed.

Lemma retire_all_outcome root l : ∀ (f1 : Fs) sequence, closed f1 → Forall (stands f1) l →
  NoDup (map rt_path l) →
  outcome (λ f, f = f1) (retire_all euid umask pid wrote root l sequence)
    (λ _ f, same l f1 f ∧ Forall (retired f) l) (λ _, kept l f1).
Proof using.
  induction l as [|a l IH]; intros f1 sequence Hc Hl Hnd; cbn [retire_all].
  { apply outcome_ret. by intros f ->. }
  apply Forall_cons in Hl as [Ha Hl]. apply NoDup_cons in Hnd as [Hfresh Hnd].
  eapply outcome_bind.
  { eapply outcome_weaken; [by apply (retire_one_outcome f1 root a sequence)|done| |].
    - intros s f Hf. exact Hf.
    - intros e f Hf q n _ Hq. by eapply lookup_weaken. }
  intros sequence'. intros w [Ho Hr]. destruct (stands_file f1 a Ha) as (n & Hn & Hk).
  assert (Hc' : closed (tree w)) by (by eapply closed_only).
  assert (Hl' : Forall (stands (tree w)) l).
  { apply Forall_forall. intros x Hx. rewrite Forall_forall in Hl.
    eapply stands_only; [done|done|done| |by apply Hl]. intros E. apply Hfresh. rewrite <-E.
    by apply list_elem_of_fmap_2. }
  specialize (IH (tree w) sequence' Hc' Hl' Hnd w eq_refl). cbn beta in IH.
  destruct (retire_all _ _ _ _ _ _ _ w) as [[e|v] w'].
  - intros q m Hq Hm. rewrite map_cons, not_elem_of_cons in Hq. destruct Hq as [Hne Hq].
    apply IH; [done|]. by rewrite Ho.
  - destruct IH as [Hs Hd]. split.
    + intros q Hq. rewrite map_cons, not_elem_of_cons in Hq. destruct Hq as [Hne Hq].
      by rewrite Hs, Ho.
    + constructor; [|done]. unfold retired in *. by rewrite Hs.
Qed.
End Retiring.

(** ** A whole run *)

Lemma steady_read_down path rel : ∀ current, steady (read_down path current rel).
Proof.
  induction rel as [|name rel IH]; intros current; cbn [read_down]; [done|]. unfold io, read. steady.
Qed.

Lemma steady_regular root path : steady (read_regular_file_without_symlinks root path).
Proof.
  unfold read_regular_file_without_symlinks. destruct (strip_path root path); [|done].
  apply steady_read_down.
Qed.

Lemma steady_verify root a stage : steady (verify_retirement_source root a stage).
Proof.
  unfold verify_retirement_source. apply steady_bind; [apply steady_regular|].
  intros current. destruct (negb _); [done|apply steady_backup].
Qed.

Lemma steady_plan_asset root path decide_ action : steady (plan_asset root path decide_ action).
Proof.
  unfold plan_asset. apply steady_bind; [apply steady_regular|]. intros [o|]; [|done].
  destruct (decide_ o); [|done]. apply steady_bind; [apply steady_backup|done].
Qed.

Lemma steady_plan_retirement current_dir arg :
  steady (plan_legacy_orchestration_retirement current_dir arg).
Proof.
  unfold plan_legacy_orchestration_retirement. apply steady_bind; [apply steady_validate|]. intros root.
  apply steady_bind; [apply steady_plan_asset|]. intros l1.
  by apply steady_bind; [apply steady_plan_asset|].
Qed.

Lemma verify_all_outcome root stage l (f1 : Fs) :
  houtcome (λ f, f = f1) (verify_all root stage l) (λ _ f, f = f1) (λ _ f, f = f1).
Proof.
  induction l as [|a l IH]; cbn [verify_all]; [by apply houtcome_ret; intros f ->|].
  eapply houtcome_bind with (S := λ _ f, f = f1); [|by intros]. apply houtcome_of; [apply steady_verify|].
  apply read_only_outcome, read_only_verify.
Qed.

Lemma steady_retire_one euid umask pid wrote root a sequence :
  steady (retire_one euid umask pid wrote root a sequence).
Proof.
  unfold retire_one. apply steady_bind; [apply steady_verify|]. intros u.
  destruct (rt_replacement a); [apply steady_replacing|]. unfold io, remove_file. steady.
Qed.

Lemma steady_retire_all euid umask pid wrote root l : ∀ sequence,
  steady (retire_all euid umask pid wrote root l sequence).
Proof.
  induction l as [|a l IH]; intros sequence; cbn [retire_all]; [done|].
  by apply steady_bind; [apply steady_retire_one|].
Qed.

(** After a run that answered: all backed up and retired, nothing else touched; after one
    that failed: nothing else lost, and what is not as it was is backed up. *)
Definition finished (l : list RetirementFile) (f0 f : Fs) : Prop :=
  Forall (λ a, backed f a ∧ retired f a) l ∧
  ∀ q, q ∉ map rt_path l → q ∉ map rt_backup l → f !! q = f0 !! q.
Definition recoverable (l : list RetirementFile) (f0 f : Fs) : Prop :=
  kept l f0 f ∧ Forall (λ a, f !! rt_path a = f0 !! rt_path a ∨ backed f a) l.

Lemma staged_recoverable l (f0 f : Fs) : Forall (asset f0) l → staged l f0 f → recoverable l f0 f.
Proof.
  intros Hl [Hs _]. split; [intros q n _ Hq; by eapply lookup_weaken|].
  eapply Forall_impl; [done|]. intros a [(d & c & n & _ & _ & _ & Hn & _) _]. left.
  rewrite Hn. by eapply lookup_weaken.
Qed.

Lemma backed_kept l (f1 f : Fs) a : NoDup (map rt_path l ++ map rt_backup l) → a ∈ l → kept l f1 f →
  backed f1 a → backed f a.
Proof.
  intros (_ & Hnd & _)%NoDup_app Ha Hk (n & Hn & Hc). exists n. split; [|done]. apply Hk; [|done].
  intros Hin. apply (Hnd _ Hin). by apply list_elem_of_fmap_2.
Qed.

Lemma staged_finished l (f0 f1 f : Fs) : NoDup (map rt_path l ++ map rt_backup l) → staged l f0 f1 →
  Forall (backed f1) l → same l f1 f → Forall (retired f) l → finished l f0 f.
Proof.
  intros Hnd [Hs Hg] Hb Hsame Hr. rewrite Forall_forall in Hb, Hr. split.
  - apply Forall_forall. intros a Ha. split; [|by apply Hr]. eapply backed_kept; [done|done| |by apply Hb].
    intros q n Hq Hn. by rewrite Hsame.
  - intros q Hp Hq. rewrite Hsame by done. destruct (f1 !! q) as [n|] eqn:Hn.
    + by destruct (Hg q n Hn) as [->|[_ ?]].
    + destruct (f0 !! q) as [m|] eqn:Hm; [|done]. apply (lookup_weaken _ f1) in Hm; [congruence|done].
Qed.

Lemma apply_outcome euid umask pid wrote p sequence (f0 : Fs) : closed f0 → assets f0 (rt_files p) →
  houtcome (λ f, f = f0) (apply_legacy_orchestration_retirement euid umask pid wrote p sequence)
    (λ _, finished (rt_files p) f0) (λ _, recoverable (rt_files p) f0).
Proof.
  intros Hc [Hl Hnd]. unfold apply_legacy_orchestration_retirement. set (l := rt_files p) in *.
  assert (Herr : ∀ f, staged l f0 f → recoverable l f0 f) by (intros f; by apply staged_recoverable).
  eapply houtcome_bind with (S := λ _ f, f = f0).
  { eapply houtcome_weaken; [apply (verify_all_outcome _ _ _ f0)|done|done|]. intros e f ->. apply Herr, staged_refl. }
  intros u1. eapply houtcome_bind.
  { eapply houtcome_weaken; [by apply (stage_backups_outcome euid umask wrote l f0)|done| |].
    - intros v f Hf. exact Hf.
    - intros e f Hf. by apply Herr. }
  intros u2. apply houtcome_at. intros f1 [Hg Hb].
  eapply houtcome_bind with (S := λ _ f, f = f1).
  { eapply houtcome_weaken; [apply (verify_all_outcome _ _ _ f1)|done|done|]. intros e f ->. by apply Herr. }
  intros u3. apply houtcome_of; [apply steady_retire_all|].
  assert (Hc1 : closed f1).
  { eapply closed_grown; [done| |done]. intros q. by apply (backup_dirs f0 l). }
  pose proof Hg as [Hs _].
  eapply outcome_weaken; [apply (retire_all_outcome euid umask pid wrote (rt_root p) l f1 sequence Hc1)|done| |].
  - eapply Forall_impl; [exact Hl|]. intros a Ha. by apply (asset_mono f0 f1), as_regular in Ha.
  - by apply NoDup_app in Hnd as (? & _).
  - intros v f [Hsame Hr]. by eapply staged_finished.
  - intros e f Hk. split.
    + intros q n Hq Hn. apply Hk; [done|]. by eapply lookup_weaken.
    + rewrite Forall_forall in Hb. apply Forall_forall. intros a Ha. right.
      eapply backed_kept; [done|done|exact Hk|by apply Hb].
Qed.

(** C28: Retirement never loses what it removes.  Planned and applied on any tree, with calls failing
    from outside at any point (but never pretending that a file is absent or already
    there), it ends in one of two ways.  It answers: every asset of the plan has a backup
    with its original bytes, the asset is gone or holds its replacement, and nothing else
    differs.  Or it fails: no other node was lost or changed, and each asset is as it was
    or has a backup with its original bytes. *)
Theorem retirement_recoverable euid umask pid wrote current_dir arg w p w1 sequence :
  closed (tree w) → honest w →
  plan_legacy_orchestration_retirement current_dir arg w = (inr p, w1) →
  match apply_legacy_orchestration_retirement euid umask pid wrote p sequence w1 with
  | (inr _, w2) => finished (rt_files p) (tree w) (tree w2)
  | (inl _, w2) => recoverable (rt_files p) (tree w) (tree w2)
  end.
Proof.
  intros Hc Hh Hp. pose proof (plan_answer current_dir arg w p w1 Hc Hp) as [Ht Ha].
  pose proof (honest_steady _ w (steady_plan_retirement current_dir arg) Hh) as Hh1.
  rewrite Hp in Hh1.
  pose proof (apply_outcome euid umask pid wrote p sequence (tree w) Hc Ha w1 Hh1 Ht) as Hrun.
  by destruct (apply_legacy_orchestration_retirement _ _ _ _ _ _ w1) as [[e|u] w2]; destruct Hrun.
Qed.

(** ** Examples *)

Module Examples.
Definition dir : Node := mkNode Dir 1000 493.
Definition text (s : str) : Node := mkNode (File (as_bytes s)) 1000 420.
Definition contract : str :=
  ($"# Demo" ++ [ch_nl]) ++ LEGACY_STANDARDIZATION_AGENT_TEAMS ++ (ch_nl :: $"## 12. More").
Definition AT (p : list str) : Path := $"p" :: p.
Definition old_tree : gmap Path Node := list_to_map [
  ([], dir); (AT [], dir); (AT [ $".claude"], dir); (AT [ $".claude"; $"agents"], dir);
  (AT [ $"CLAUDE.md"], text contract);
  (AT [ $".claude"; $"agents"; $"tech-lead.md"], text LEGACY_STANDARDIZATION_TECH_LEAD)].
(** The removal of the agent fails, after the contract was retired. *)
Definition failing : list (option IoError) :=
  replicate 46 None ++ [Some (mkIo OtherIo $"disk")].

Definition plan_old (fs : list (option IoError)) : (Error + RetirementPlan) * FsWorld :=
  plan_legacy_orchestration_retirement (inr []) (arg_of $"/p") (mkFsWorld old_tree fs).
Definition planned (fs : list (option IoError)) : RetirementPlan :=
  match (plan_old fs).1 with inr p => p | inl _ => mkRetirementPlan [] [] [] end.
Definition run (fs : list (option IoError)) : (Error + ()) * FsWorld :=
  apply_legacy_orchestration_retirement 1000 18 7 0 (planned fs) 0 (plan_old fs).2.

Example both_planned : rt_actions (planned []) = [
  RemoveContractSection (AT [ $"CLAUDE.md"]) (AT [ $"CLAUDE.md.bak"]);
  RemoveAgent (AT [ $".claude"; $"agents"; $"tech-lead.md"])
    (AT [ $".claude"; $"agents"; $"tech-lead.md.bak"])].
Proof. vm_compute. reflexivity. Qed.

Lemma exact_section_removed_witness : ∃ before after,
  as_bytes contract = as_bytes (before ++ LEGACY_STANDARDIZATION_AGENT_TEAMS ++ after) ∧
  as_bytes ($"# Demo" ++ [ch_nl] ++ (ch_nl :: $"## 12. More")) = as_bytes (before ++ after) ∧
  nl_terminated before ∧ (after = [] ∨ ∃ rest, after = (ch_nl :: $"## ") ++ rest).
Proof. apply exact_section_removed. vm_compute. reflexivity. Defined.

Lemma retirement_recoverable_witness :
  (∃ e, (run failing).1 = inl e) ∧
  recoverable (rt_files (planned failing)) old_tree (tree (run failing).2).
Proof.
  assert (He : (∃ e, (run failing).1 = inl e)) by (eexists; vm_compute; reflexivity).
  split; [exact He|].
  pose proof (retirement_recoverable 1000 18 7 0 (inr []) (arg_of $"/p") (mkFsWorld old_tree failing)
    (planned failing) (plan_old failing).2 0) as H.
  change (apply_legacy_orchestration_retirement 1000 18 7 0 (planned failing) 0 (plan_old failing).2)
    with (run failing) in H.
  destruct He as [e He]. destruct (run failing) as [r w2]. cbn [fst snd] in He |- *. rewrite He in H. apply H.
  - apply closed_check_ok. vm_compute. reflexivity.
  - unfold honest, failing. cbn [io_faults]. apply Forall_app. split; [by apply Forall_replicate|].
    by repeat constructor.
  - vm_compute. reflexivity.
Defined.
End Examples.
