(* ===== verification/OcRows.v ===== *)
(** * OpenCode databases: [crates/rtrt-cli/src/opencode_sessions.rs], rows

    The cells of a SQLite table and the values read from them, rows and tables as the
    migration sees them, the fields it looks up, and the key that tells rows of a
    table without a primary key apart ([row_key_inj]). *)
From stdpp Require Import gmap sets.
From S2P Require Import Prelude Str Utf8.
From S2P Require Import Wire.

(** ** Cells and values *)

(** A stored cell, as [rusqlite::types::ValueRef] shows it: a text is bytes. *)
Inductive ValueRef :=
| NullRef
| IntegerRef (v : Z)
| RealRef (bits : N)
| TextRef (bytes : list N)
| BlobRef (bytes : list N).

(** [rusqlite::types::Value]; a real is its bits. *)
Inductive Value :=
| Null
| Integer (v : Z)
| Real (bits : N)
| Text (s : str)
| Blob (bytes : list N).

#[export] Instance ValueRef_eq_dec : EqDecision ValueRef.
Proof. solve_decision. Defined.
#[export] Instance Value_eq_dec : EqDecision Value.
Proof. solve_decision. Defined.

Definition value_owned (c : ValueRef) : Value :=
  match c with
  | NullRef => Null
  | IntegerRef v => Integer v
  | RealRef v => Real v
  | TextRef v => Text (from_utf8_lossy v)
  | BlobRef v => Blob v
  end.

(** A value bound to a statement. *)
Definition bound (v : Value) : ValueRef :=
  match v with
  | Null => NullRef
  | Integer v => IntegerRef v
  | Real v => RealRef v
  | Text v => TextRef (as_bytes v)
  | Blob v => BlobRef v
  end.

(** [f64]: equality on the bits. *)
Definition f64_nan_bits (b : N) : bool :=
  (N.land (N.shiftr b 52) 2047 =? 2047) && negb (N.land b (N.ones 52) =? 0).
Definition f64_zero_bits (b : N) : bool := N.land b (N.ones 63) =? 0.
Definition f64_bits_eqb (a b : N) : bool :=
  negb (f64_nan_bits a) && negb (f64_nan_bits b) && ((a =? b) || f64_zero_bits a && f64_zero_bits b).

(** [Value: PartialEq]. *)
Definition value_eqb (a b : Value) : bool :=
  match a, b with
  | Null, Null => true
  | Integer x, Integer y => (x =? y)%Z
  | Real x, Real y => f64_bits_eqb x y
  | Text x, Text y => str_eqb x y
  | Blob x, Blob y => bool_decide (x = y)
  | _, _ => false
  end.

Fixpoint values_eqb (a b : list Value) : bool :=
  match a, b with
  | [], [] => true
  | x :: a', y :: b' => value_eqb x y && values_eqb a' b'
  | _, _ => false
  end.

Record Row := mkRow { values : list Value }.
#[export] Instance Row_eq_dec : EqDecision Row.
Proof. solve_decision. Defined.

Definition row_eqb (a b : Row) : bool := values_eqb (values a) (values b).

(** ** Tables *)

Record ColumnSpec := mkColumnSpec {
  cs_name : str;
  cs_ty : str;
  cs_not_null : bool;
  cs_default : option str;
  cs_primary_key_order : Z;
  cs_hidden : Z;
}.
#[export] Instance ColumnSpec_eq_dec : EqDecision ColumnSpec.
Proof. solve_decision. Defined.

Record ForeignKeySpec := mkForeignKeySpec {
  fk_id : Z;
  fk_sequence : Z;
  fk_table : str;
  fk_from : str;
  fk_to : option str;
  fk_on_update : str;
  fk_on_delete : str;
  fk_match_clause : str;
}.
#[export] Instance ForeignKeySpec_eq_dec : EqDecision ForeignKeySpec.
Proof. solve_decision. Defined.

Record Table := mkTable {
  t_name : str;
  t_sql : str;
  t_columns : list str;
  t_primary_key : list nat;
  t_column_specs : list ColumnSpec;
  t_foreign_keys : list ForeignKeySpec;
  t_without_rowid : bool;
  t_strict : bool;
  t_sql_signature : str;
  t_create_schema : bool;
  t_copy_rows : bool;
}.

Definition GRAPH_TABLES : list str :=
  [ $"project"; $"project_directory"; $"workspace"; $"session"; $"message"; $"part"; $"todo";
    $"session_share"; $"session_message"; $"session_input"; $"session_context_epoch";
    $"event_sequence"; $"event"; $"share"; $"session_projection"; $"projection";
    $"session_event"; $"session_diff"; $"snapshot"].
Definition SCHEMA_TABLES : list str :=
  [ $"__drizzle_migrations"; $"_prisma_migrations"; $"migration"; $"data_migration"].
Definition SENSITIVE_TABLES : list str :=
  [ $"account"; $"account_state"; $"credential"; $"permission"; $"approval"; $"auth";
    $"authentication"; $"authorization"; $"control_account"].

(** [slice::contains]. *)
Definition listed (names : list str) (name : str) : bool := existsb (str_eqb name) names.

Definition find_table (tables : list Table) (name : str) : option Table :=
  List.find (λ t, str_eqb (t_name t) name) tables.

(** The rows of each table; reading a database gives every table an entry. *)
Abbreviation RowsByTable := (gmap str (list Row)) (only parsing).
Definition rows_of (rows : RowsByTable) (name : str) : list Row := default [] (rows !! name).

(** [iter().position]. *)
Fixpoint position (p : str → bool) (l : list str) : option nat :=
  match l with
  | [] => None
  | x :: l' => if p x then Some 0%nat else S <$> position p l'
  end.
Definition column_index (t : Table) (name : str) : option nat :=
  position (λ column, str_eqb column name) (t_columns t).

(** A row has as many values as its table has columns, so indexing does not panic. *)
Definition value_at (t : Table) (row : Row) (name : str) : option Value :=
  column_index t name ≫= λ i, values row !! i.

Definition text_field (t : Table) (row : Row) (name : str) : option str :=
  match value_at t row name with Some (Text s) => Some s | _ => None end.

Definition field_index (t : Table) (name : str) : str + nat :=
  context_option ($"OpenCode table " ++ t_name t ++ $" lacks " ++ name) (column_index t name).

Definition malformed (name label : str) : str := $"malformed " ++ name ++ $" in " ++ label.

Definition required_text (t : Table) (row : Row) (name label : str) : str + str :=
  i ← field_index t name;
  match values row !! i with
  | Some (Text s) => inr s
  | _ => bail (malformed name label)
  end.

Definition required_integer (t : Table) (row : Row) (name label : str) : str + Z :=
  i ← field_index t name;
  match values row !! i with
  | Some (Integer v) => inr v
  | _ => bail (malformed name label)
  end.

(** ** Keys of rows *)

(** [to_le_bytes]. *)
Fixpoint le_bytes (n : nat) (x : N) : list N :=
  match n with
  | O => []
  | S n' => x mod 256 :: le_bytes n' (x / 256)
  end.
Definition i64_bits (v : Z) : N := Z.to_N (v mod 2 ^ 64)%Z.

Definition append_key_bytes (key : list N) (tag : N) (value : list N) : list N :=
  key ++ [tag] ++ le_bytes 8 (N.of_nat (length value) mod 2 ^ 64) ++ value.

Definition key_value (key : list N) (v : Value) : list N :=
  match v with
  | Null => key ++ [0]
  | Integer v => key ++ [1] ++ le_bytes 8 (i64_bits v)
  | Real bits => key ++ [2] ++ le_bytes 8 bits
  | Text s => append_key_bytes key 3 (as_bytes s)
  | Blob bytes => append_key_bytes key 4 bytes
  end.
Definition row_key (row : Row) : list N := foldl key_value [] (values row).

(** *** The key tells rows apart *)

(** Values as the database yields them: integers and lengths within 64 bits. *)
Definition value_ok (v : Value) : Prop :=
  match v with
  | Null => True
  | Integer v => (- 2 ^ 63 ≤ v < 2 ^ 63)%Z
  | Real bits => bits < 2 ^ 64
  | Text s => Forall scalar s ∧ N.of_nat (length (as_bytes s)) < 2 ^ 64
  | Blob bytes => N.of_nat (length bytes) < 2 ^ 64
  end.
Definition row_ok (row : Row) : Prop := Forall value_ok (values row).

Lemma length_le_bytes n : ∀ x, length (le_bytes n x) = n.
Proof. induction n as [|n IH]; intros x; cbn; [done|by rewrite IH]. Qed.

Lemma le_bytes_inj n : ∀ x y, x < 256 ^ N.of_nat n → y < 256 ^ N.of_nat n →
  le_bytes n x = le_bytes n y → x = y.
Proof.
  induction n as [|n IH]; intros x y Hx Hy; [rewrite N.pow_0_r in *; lia|].
  rewrite Nat2N.inj_succ, N.pow_succ_r' in Hx, Hy. cbn [le_bytes]. intros [= Hm Hd].
  apply IH in Hd; [|apply N.Div0.div_lt_upper_bound; lia..].
  rewrite (N.div_mod x 256), (N.div_mod y 256) by done. by rewrite Hm, Hd.
Qed.

Lemma u64_bytes_inj x y a b : x < 2 ^ 64 → y < 2 ^ 64 →
  le_bytes 8 x ++ a = le_bytes 8 y ++ b → x = y ∧ a = b.
Proof.
  intros Hx Hy E. apply app_inj_1 in E as [E ->]; [|by rewrite !length_le_bytes].
  split; [|done]. by apply (le_bytes_inj 8).
Qed.

Lemma i64_bits_inj x y : (- 2 ^ 63 ≤ x < 2 ^ 63)%Z → (- 2 ^ 63 ≤ y < 2 ^ 63)%Z →
  i64_bits x = i64_bits y → x = y.
Proof.
  unfold i64_bits. intros Hx Hy E. apply (f_equal Z.of_N) in E.
  rewrite !Z2N.id in E by (apply Z.mod_pos_bound; lia).
  pose proof (Z.div_mod x (2 ^ 64) ltac:(lia)). pose proof (Z.div_mod y (2 ^ 64) ltac:(lia)).
  pose proof (Z.mod_pos_bound x (2 ^ 64) ltac:(lia)). lia.
Qed.

Lemma i64_bits_lt x : i64_bits x < 2 ^ 64.
Proof. unfold i64_bits. pose proof (Z.mod_pos_bound x (2 ^ 64) ltac:(lia)). lia. Qed.

Lemma as_bytes_inj s t : Forall scalar s → Forall scalar t → as_bytes s = as_bytes t → s = t.
Proof.
  intros Hs Ht E. by rewrite <-(from_utf8_lossy_as_bytes s), <-(from_utf8_lossy_as_bytes t), E.
Qed.

Lemma key_value_app key v : key_value key v = key ++ key_value [] v.
Proof. by destruct v. Qed.

Lemma foldl_key_value l : ∀ key, foldl key_value key l = key ++ foldl key_value [] l.
Proof.
  induction l as [|v l IH]; intros key; cbn; [by rewrite app_nil_r|].
  rewrite IH, key_value_app, (IH (key_value [] v)). by rewrite app_assoc.
Qed.

Lemma counted_inj (x y a b : list N) : N.of_nat (length x) < 2 ^ 64 → N.of_nat (length y) < 2 ^ 64 →
  (le_bytes 8 (N.of_nat (length x) mod 2 ^ 64) ++ x) ++ a =
  (le_bytes 8 (N.of_nat (length y) mod 2 ^ 64) ++ y) ++ b → x = y ∧ a = b.
Proof.
  intros Hx Hy E. rewrite <-!app_assoc, !N.mod_small in E by done.
  apply u64_bytes_inj in E as [Hl E]; [|done..]. apply app_inj_1 in E; [done|lia].
Qed.

Lemma key_value_inj v w a b : value_ok v → value_ok w →
  key_value [] v ++ a = key_value [] w ++ b → v = w ∧ a = b.
Proof.
  intros Hv Hw E. destruct v, w; cbn -[le_bytes] in E; try discriminate;
    apply (f_equal (@tail _)) in E; cbn [tail] in E; [by subst| | | |].
  - apply u64_bytes_inj in E as [E ->]; [|apply i64_bits_lt..]. by apply i64_bits_inj in E as ->.
  - by apply u64_bytes_inj in E as [-> ->].
  - destruct Hv as [Hs Hl], Hw as [Ht Hl']. apply counted_inj in E as [E ->]; [|done..].
    by apply as_bytes_inj in E as ->.
  - by apply counted_inj in E as [-> ->].
Qed.

Lemma key_value_nonempty v : key_value [] v ≠ [].
Proof. by destruct v. Qed.

Lemma row_key_inj r1 r2 : row_ok r1 → row_ok r2 → row_key r1 = row_key r2 → r1 = r2.
Proof.
  destruct r1 as [l1], r2 as [l2]. unfold row_ok, row_key. cbn [values]. intros H1 H2 E. f_equal.
  revert l2 H2 E. induction H1 as [|v l1 Hv _ IH]; intros l2 H2 E.
  - destruct H2 as [|w l2 _ _]; [done|]. cbn in E. rewrite foldl_key_value in E.
    symmetry in E. apply app_eq_nil in E as [E _]. by apply key_value_nonempty in E.
  - destruct H2 as [|w l2 Hw H2]; cbn in E; rewrite foldl_key_value in E.
    + apply app_eq_nil in E as [E _]. by apply key_value_nonempty in E.
    + rewrite (foldl_key_value l2) in E. apply key_value_inj in E as [-> E]; [|done..].
      f_equal. by apply IH.
Qed.

(** *** What reading changes *)

(** Cells whose texts are UTF-8. *)
Definition cell_clean (c : ValueRef) : Prop := bound (value_owned c) = c.

Definition value_scalar (v : Value) : Prop := match v with Text s => Forall scalar s | _ => True end.

Lemma value_owned_scalar c : value_scalar (value_owned c).
Proof. destruct c; cbn; try done. apply from_utf8_lossy_scalar. Qed.

Lemma owned_bound v : value_scalar v → value_owned (bound v) = v.
Proof. destruct v; cbn; try done. intros H. by rewrite from_utf8_lossy_as_bytes. Qed.

(** ** Equality of values *)

(** Reals on which equality is equality of the bits. *)
Definition value_exact (v : Value) : Prop :=
  match v with Real b => f64_nan_bits b = false ∧ f64_zero_bits b = false ∨ b = 0 | _ => True end.

Lemma value_eqb_eq v w : value_exact v → value_exact w → value_eqb v w = true ↔ v = w.
Proof.
  intros Hv Hw. destruct v, w; cbn; try (split; congruence).
  - rewrite Z.eqb_eq. split; congruence.
  - unfold f64_bits_eqb. split.
    + intros [[H1 H2]%andb_true_iff H]%andb_true_iff. apply orb_true_iff in H as [->%N.eqb_eq|H]; [done|].
      apply andb_true_iff in H as [Z1 Z2]. destruct Hv as [[_ Hv]| ->], Hw as [[_ Hw]| ->]; congruence.
    + intros [= <-]. rewrite N.eqb_refl, orb_true_l. destruct Hv as [[-> _]| ->]; done.
  - rewrite str_eqb_eq. split; congruence.
  - rewrite bool_decide_eq_true. split; congruence.
Qed.

Lemma values_eqb_eq l : ∀ l', Forall value_exact l → Forall value_exact l' →
  values_eqb l l' = true ↔ l = l'.
Proof.
  induction l as [|v l IH]; intros [|w l'] Hl Hl'; cbn; try (split; done).
  apply Forall_cons in Hl as [Hv Hl]. apply Forall_cons in Hl' as [Hw Hl'].
  rewrite andb_true_iff, value_eqb_eq, IH by done. split; [by intros [-> ->]|by intros [= -> ->]].
Qed.
