(* ===== verification/OcRoute.v ===== *)
(** * Routing sessions to projects: [crates/rtrt-cli/src/opencode_sessions.rs]

    Which project every session of the global OpenCode database belongs to, and which
    rows of every table go with it.  A session goes where its own directory, workspace
    or project says, else where its nearest ancestor goes, else to the archive of what
    has no project.  [SessionRoutes] shows what this amounts to. *)
From stdpp Require Import gmap sets.
From S2P Require Import Prelude Str.
From S2P Require Import Fs Files Project.
From S2P Require Import Wire OcRows.

Definition legacy_global : str := $"legacy-global".

(** ** Identities *)

(** [identity_from_path], on a file system that answers; the slug of the identity. *)
Definition identity_from_path (sha256 : list N → list N) (f : Fs) (value : str) : option str :=
  let path := path_components value in
  if negb (is_absolute value) then None
  else match lstat f path with
       | inl _ => None
       | inr n => if is_symlink n then None
                  else match (calm (derive sha256 path) f).1 with
                       | inr found => Some (slug found)
                       | inl _ => None
                       end
       end.

Section Route.
(** [identity_from_path] on the file system of the run. *)
Context (identify : str → option str).

Fixpoint first_some {A B : Type} (g : A → option B) (l : list A) : option B :=
  match l with
  | [] => None
  | x :: l' => match g x with Some y => Some y | None => first_some g l' end
  end.

Definition identity_from_metadata (t : Table) (row : Row) : option str :=
  first_some (λ column, text_field t row column ≫= identify)
    [ $"worktree"; $"directory"; $"path"; $"root"].

(** ** Projects and workspaces *)

Abbreviation Routes := (gmap str str) (only parsing).

Definition insert_consistent_route (routes : Routes) (id destination : str) : Routes :=
  match routes !! id with
  | None => <[id := destination]> routes
  | Some existing =>
      if str_eqb existing destination || str_eqb existing legacy_global then routes
      else <[id := legacy_global]> routes
  end.

(** [entry(id).or_insert("legacy-global")]. *)
Definition or_legacy (routes : Routes) (id : str) : Routes :=
  match routes !! id with Some _ => routes | None => <[id := legacy_global]> routes end.

Definition project_metadata (t : Table) (projects : Routes) (row : Row) : Routes :=
  match text_field t row $"id", identity_from_metadata t row with
  | Some id, Some slug => <[id := slug]> projects
  | _, _ => projects
  end.

Definition directory_destination (t : Table) (row : Row) : option str :=
  text_field t row $"directory" ≫= identify.

Definition project_directory_route (t : Table) (projects : Routes) (row : Row) : Routes :=
  match text_field t row $"project_id", directory_destination t row with
  | Some project_id, Some destination => insert_consistent_route projects project_id destination
  | _, _ => projects
  end.

Definition default_route (t : Table) (routes : Routes) (row : Row) : Routes :=
  match text_field t row $"id" with Some id => or_legacy routes id | None => routes end.

(** [if let Some(table) = ..]: a loop over the rows of a table that may be missing. *)
Definition over {A : Type} (tables : list Table) (rows : RowsByTable) (name : str)
    (g : Table → A → Row → A) (a : A) : A :=
  match find_table tables name with
  | Some t => foldl (g t) a (rows_of rows name)
  | None => a
  end.

Definition project_routes (tables : list Table) (rows : RowsByTable) : Routes :=
  over tables rows $"project" default_route
    (over tables rows $"project_directory" project_directory_route
       (over tables rows $"project" project_metadata ∅)).

Definition workspace_route (projects : Routes) (t : Table) (workspaces : Routes) (row : Row) : Routes :=
  match text_field t row $"id" with
  | None => workspaces
  | Some id =>
      let by_project := text_field t row $"project_id" ≫= λ p, projects !! p in
      match (match by_project with Some d => Some d | None => identity_from_metadata t row end) with
      | Some destination => insert_consistent_route workspaces id destination
      | None => workspaces
      end
  end.

Definition workspace_routes (tables : list Table) (rows : RowsByTable) (projects : Routes) : Routes :=
  over tables rows $"workspace" default_route
    (over tables rows $"workspace" (workspace_route projects) ∅).

(** ** Sessions *)

Definition session_id_of (t : Table) (row : Row) : str + str :=
  context_option $"session row lacks text id" (text_field t row $"id").

(** Where the session's own row says it belongs. *)
Definition direct_destination (projects workspaces : Routes) (t : Table) (row : Row) : option str :=
  match directory_destination t row with
  | Some d => Some d
  | None =>
      match text_field t row $"workspace_id" ≫= λ id, workspaces !! id with
      | Some d => Some d
      | None => text_field t row $"project_id" ≫= λ id, projects !! id
      end
  end.

(** The first loop over the sessions: their own destinations, and their parents. *)
Fixpoint session_fields (projects workspaces : Routes) (t : Table) (l : list Row)
    (sessions parents : Routes) : str + (Routes * Routes) :=
  match l with
  | [] => inr (sessions, parents)
  | row :: rest =>
      id ← session_id_of t row;
      let sessions := match direct_destination projects workspaces t row with
                      | Some destination => <[id := destination]> sessions
                      | None => sessions
                      end in
      let parents := match text_field t row $"parent_id" with
                     | Some parent => <[id := parent]> parents
                     | None => parents
                     end in
      session_fields projects workspaces t rest sessions parents
  end.

Definition ses_prefixed (id : str) : bool := starts_with id $"ses_".

(** One pass: children of malformed sessions are malformed. *)
Definition close_row (t : Table) (m : gset str) (row : Row) : gset str :=
  match text_field t row $"id", text_field t row $"parent_id" with
  | Some id, Some parent => if decide (parent ∈ m) then {[id]} ∪ m else m
  | _, _ => m
  end.
Definition close_pass (t : Table) (l : list Row) (m : gset str) : gset str := foldl (close_row t) m l.

(** Passes until one adds nothing, at most [fuel]. *)
Fixpoint close (fuel : nat) (t : Table) (l : list Row) (m : gset str) : gset str :=
  match fuel with
  | O => m
  | S fuel' =>
      let m' := close_pass t l m in
      if decide (size m' = size m) then m' else close fuel' t l m'
  end.

Fixpoint foreign_parents (t : Table) (l : list Row) (m : gset str) : str + gset str :=
  match l with
  | [] => inr m
  | row :: rest =>
      id ← session_id_of t row;
      foreign_parents t rest
        (match text_field t row $"parent_id" with
         | Some parent => if ses_prefixed parent then m else {[id]} ∪ m
         | None => m
         end)
  end.

(** The block under [if quarantine_malformed]. *)
Definition quarantine (t : Table) (l : list Row) (sessions : Routes) : str + (Routes * gset str) :=
  let by_id := filter (λ id, ses_prefixed id = false) (dom sessions) in
  seeds ← foreign_parents t l by_id;
  let malformed_sessions := close (length l) t l seeds in
  inr (set_fold (λ id s, <[id := legacy_global]> s) sessions malformed_sessions, malformed_sessions).

(** One pass over the map of parents, in the order its iterator takes. *)
Definition inherit_one (acc : Routes * bool) (edge : str * str) : Routes * bool :=
  match acc.1 !! edge.1, acc.1 !! edge.2 with
  | None, Some destination => (<[edge.1 := destination]> acc.1, true)
  | _, _ => acc
  end.
Definition inherit_pass (edges : list (str * str)) (sessions : Routes) : Routes * bool :=
  foldl inherit_one (sessions, false) edges.

(** [order k] is the order of the iterator in pass [k]. *)
Fixpoint inherit (fuel k : nat) (order : nat → list (str * str)) (sessions : Routes) : Routes :=
  match fuel with
  | O => sessions
  | S fuel' =>
      let '(sessions', changed) := inherit_pass (order k) sessions in
      if changed then inherit fuel' (S k) order sessions' else sessions'
  end.

Fixpoint default_sessions (t : Table) (l : list Row) (sessions : Routes) : str + Routes :=
  match l with
  | [] => inr sessions
  | row :: rest =>
      id ← session_id_of t row;
      default_sessions t rest (or_legacy sessions id)
  end.

(** ** Messages, destinations and what each destination needs *)

Definition message_route (sessions : Routes) (t : Table) (messages : Routes) (row : Row) : Routes :=
  match text_field t row $"id", text_field t row $"session_id" with
  | Some id, Some session =>
      match sessions !! session with
      | Some destination => <[id := destination]> messages
      | None => messages
      end
  | _, _ => messages
  end.

Definition malformed_message (malformed_sessions : gset str) (t : Table) (row : Row) : option str :=
  match text_field t row $"id", text_field t row $"session_id" with
  | Some id, Some session => if decide (session ∈ malformed_sessions) then Some id else None
  | _, _ => None
  end.

Abbreviation Needs := (gmap str (gset str)) (only parsing).
(** [entry(destination).or_default().insert(id)]. *)
Definition need (m : Needs) (destination id : str) : Needs :=
  <[destination := {[id]} ∪ default ∅ (m !! destination)]> m.

Definition workspace_project (t : Table) (m : Routes) (row : Row) : Routes :=
  match text_field t row $"id", text_field t row $"project_id" with
  | Some id, Some project_id => <[id := project_id]> m
  | _, _ => m
  end.

(** The body of the loop that collects the projects and workspaces of a destination. *)
Definition session_needs (sessions : Routes) (malformed_sessions : gset str)
    (workspace_projects : Routes) (t : Table) (acc : Needs * Needs) (row : Row) : Needs * Needs :=
  match text_field t row $"id" with
  | None => acc
  | Some id =>
      if decide (id ∈ malformed_sessions) then acc
      else
        match sessions !! id with
        | None => acc
        | Some destination =>
            let projects := match text_field t row $"project_id" with
                            | Some project_id => need acc.1 destination project_id
                            | None => acc.1
                            end in
            match text_field t row $"workspace_id" with
            | None => (projects, acc.2)
            | Some workspace_id =>
                (match workspace_projects !! workspace_id with
                 | Some project_id => need projects destination project_id
                 | None => projects
                 end, need acc.2 destination workspace_id)
            end
        end
  end.

Definition directory_needs (destinations : gset str) (t : Table) (projects : Needs) (row : Row) : Needs :=
  match text_field t row $"project_id", directory_destination t row with
  | Some project_id, Some destination =>
      if decide (destination ∈ destinations) then need projects destination project_id else projects
  | _, _ => projects
  end.

Record Routing := mkRouting {
  rg_sessions : gmap str str;
  rg_messages : gmap str str;
  rg_projects : gmap str str;
  rg_workspaces : gmap str str;
  rg_destinations : gset str;
  rg_malformed_sessions : gset str;
  rg_malformed_messages : gset str;
  rg_destination_projects : gmap str (gset str);
  rg_destination_workspaces : gmap str (gset str);
}.

Definition is_event_table (name : str) : bool :=
  str_eqb name $"event" || str_eqb name $"event_sequence".

(** Where a row's own references send it. *)
Definition row_destination (t : Table) (row : Row) (r : Routing) : option str :=
  if str_eqb (t_name t) $"session" then text_field t row $"id" ≫= λ id, rg_sessions r !! id
  else match text_field t row $"session_id" with
  | Some id => rg_sessions r !! id
  | None =>
  match text_field t row $"message_id" with
  | Some id => rg_messages r !! id
  | None =>
  if str_eqb (t_name t) $"message" then text_field t row $"id" ≫= λ id, rg_messages r !! id
  else if is_event_table (t_name t)
  then text_field t row $"aggregate_id" ≫= λ id, rg_sessions r !! id
  else match text_field t row $"project_id" with
  | Some id => rg_projects r !! id
  | None =>
  if str_eqb (t_name t) $"project" then text_field t row $"id" ≫= λ id, rg_projects r !! id
  else if str_eqb (t_name t) $"workspace"
  then text_field t row $"id" ≫= λ id, rg_workspaces r !! id
  else None
  end end end.

Definition row_is_malformed_graph (t : Table) (row : Row) (r : Routing) : bool :=
  let in_sessions o := match o with
                       | Some id => bool_decide (id ∈ rg_malformed_sessions r)
                       | None => false
                       end in
  if str_eqb (t_name t) $"session" then in_sessions (text_field t row $"id")
  else match text_field t row $"session_id" with
  | Some id => in_sessions (Some id)
  | None =>
  match text_field t row $"message_id" with
  | Some message => bool_decide (message ∈ rg_malformed_messages r)
  | None => is_event_table (t_name t) && in_sessions (text_field t row $"aggregate_id")
  end end.

Definition has_unattributed_graph (tables : list Table) (rows : RowsByTable) (r : Routing) : bool :=
  existsb (λ t, listed GRAPH_TABLES (t_name t) &&
    existsb (λ row, match row_destination t row r with None => true | Some _ => false end)
      (rows_of rows (t_name t))) tables.

Definition with_legacy (r : Routing) : Routing :=
  mkRouting (rg_sessions r) (rg_messages r) (rg_projects r) (rg_workspaces r)
    ({[legacy_global]} ∪ rg_destinations r) (rg_malformed_sessions r) (rg_malformed_messages r)
    (rg_destination_projects r) (rg_destination_workspaces r).

(** [order] gives, for a map of parents, the order its iterator takes in each pass. *)
Definition route_sessions (order : gmap str str → nat → list (str * str)) (tables : list Table)
    (rows : RowsByTable) (quarantine_malformed : bool) : str + Routing :=
  let projects := project_routes tables rows in
  let workspaces := workspace_routes tables rows projects in
  t ← context_option $"session schema" (find_table tables $"session");
  let session_rows := rows_of rows $"session" in
  fields ← session_fields projects workspaces t session_rows ∅ ∅;
  let '(direct, parents) := fields in
  quarantined ← (if quarantine_malformed then quarantine t session_rows direct else inr (direct, ∅));
  let '(sessions, malformed_sessions) := quarantined in
  let inherited := inherit (length session_rows) 0 (order parents) sessions in
  sessions ← default_sessions t session_rows inherited;
  message_table ← context_option $"message schema" (find_table tables $"message");
  let message_rows := rows_of rows $"message" in
  let messages := foldl (message_route sessions message_table) ∅ message_rows in
  let destinations : gset str := map_img sessions in
  let malformed_messages : gset str :=
    list_to_set (omap (malformed_message malformed_sessions message_table) message_rows) in
  let workspace_projects := over tables rows $"workspace" workspace_project ∅ in
  let '(destination_projects, destination_workspaces) :=
    foldl (session_needs sessions malformed_sessions workspace_projects t) (∅, ∅) session_rows in
  let destination_projects :=
    over tables rows $"project_directory" (directory_needs destinations) destination_projects in
  let routing := mkRouting sessions messages projects workspaces destinations malformed_sessions
    malformed_messages destination_projects destination_workspaces in
  inr (if bool_decide (sessions = ∅) || has_unattributed_graph tables rows routing
       then with_legacy routing else routing).

(** ** The rows of one destination *)

Definition needed (m : Needs) (destination : str) (id : option str) : bool :=
  match id with
  | Some id => bool_decide (id ∈ (default ∅ (m !! destination) : gset str))
  | None => false
  end.

Definition selects (destination : str) (r : Routing) (t : Table) (row : Row) : bool :=
  if listed SCHEMA_TABLES (t_name t) then true
  else if str_eqb (t_name t) $"project"
  then needed (rg_destination_projects r) destination (text_field t row $"id")
  else if str_eqb (t_name t) $"workspace"
  then needed (rg_destination_workspaces r) destination (text_field t row $"id")
  else if str_eqb (t_name t) $"project_directory"
  then match directory_destination t row with
       | Some slug => str_eqb slug destination
       | None => false
       end && needed (rg_destination_projects r) destination (text_field t row $"project_id")
  else if str_eqb destination legacy_global && row_is_malformed_graph t row r then false
  else str_eqb (default legacy_global (row_destination t row r)) destination.

Definition select_table (destination : str) (rows : RowsByTable) (r : Routing) (t : Table) : list Row :=
  if t_copy_rows t then List.filter (selects destination r t) (rows_of rows (t_name t)) else [].

Definition select_rows (destination : str) (tables : list Table) (rows : RowsByTable) (r : Routing) :
    RowsByTable :=
  foldl (λ m t, <[t_name t := select_table destination rows r t]> m) ∅ tables.
End Route.
