(* ===== verification/SessionRoutes.v ===== *)
(** * Where sessions go, and what goes with them

    Properties of [OcRoute]: the destination of a session does not depend on the order
    in which maps are walked and is that of its nearest attributed ancestor; a session
    travels whole, to one destination only, with the rows it refers to. *)
From stdpp Require Import gmap sets.
From S2P Require Import Prelude Str.
From S2P Require Import Fs Files Project.
From S2P Require Import Wire OcRows OcRoute.

(** ** Inheriting a destination *)

(** The destination of the nearest ancestor that has one of its own. *)
Inductive attributed (direct parents : gmap str str) : str → str → Prop :=
| attributed_own s d : direct !! s = Some d → attributed direct parents s d
| attributed_parent s p d :
    direct !! s = None → parents !! s = Some p → attributed direct parents p d →
    attributed direct parents s d.

Lemma attributed_fun direct parents s d1 d2 :
  attributed direct parents s d1 → attributed direct parents s d2 → d1 = d2.
Proof.
  intros H1. revert d2. induction H1 as [s d1 H1|s p d1 H1 Hp _ IH]; intros d2 H2;
    destruct H2 as [s d2 H2|s p' d2 H2 Hp' H3]; try congruence.
  apply IH. by assert (p' = p) as -> by congruence.
Qed.

Section Inherit.
Context (direct parents : gmap str str).

(** Only destinations of the nearest ancestor were given. *)
Definition inherits (s : gmap str str) : Prop :=
  direct ⊆ s ∧ ∀ k d, s !! k = Some d → attributed direct parents k d.

(** No child is left whose parent has a destination. *)
Definition settled_under (s : gmap str str) : Prop :=
  ∀ child parent, parents !! child = Some parent → is_Some (s !! parent) → is_Some (s !! child).

Lemma inherits_complete s : inherits s → settled_under s →
  ∀ k d, s !! k = Some d ↔ attributed direct parents k d.
Proof using.
  intros [Hsub Hatt] Hset k d. split; [apply Hatt|]. induction 1 as [k d Hk|k p d Hk Hp Hd IH].
  - by eapply lookup_weaken.
  - destruct (Hset k p Hp) as [d' Hd']; [by eexists|]. rewrite Hd'. f_equal.
    eapply attributed_fun; [by apply Hatt|]. by eapply attributed_parent.
Qed.

Lemma inherit_one_inherits acc child parent : parents !! child = Some parent → inherits acc.1 →
  inherits (inherit_one acc (child, parent)).1.
Proof using.
  intros Hp [Hsub Hatt]. unfold inherit_one. cbn [fst snd].
  destruct (acc.1 !! child) as [|] eqn:Hc; [done|].
  destruct (acc.1 !! parent) as [d|] eqn:Hd; [|done]. cbn [fst]. split.
  - etrans; [exact Hsub|]. by apply insert_subseteq.
  - intros k e. destruct (decide (k = child)) as [->|Hne].
    + rewrite lookup_insert_eq. intros [= <-]. apply attributed_parent with parent; [|done|by apply Hatt].
      destruct (direct !! child) as [x|] eqn:Hx; [|done].
      apply (lookup_weaken _ acc.1) in Hx; [congruence|done].
    + rewrite lookup_insert_ne by done. apply Hatt.
Qed.

(** What a pass over the edges does: nothing when no edge could be used. *)
Lemma inherit_pass_spec edges s : (∀ e, e ∈ edges → parents !! e.1 = Some e.2) → inherits s →
  let '(s', changed) := inherit_pass edges s in
  inherits s' ∧ s ⊆ s' ∧
  (changed = false → s' = s ∧ ∀ e, e ∈ edges → is_Some (s !! e.2) → is_Some (s !! e.1)) ∧
  (changed = true → ∃ e, e ∈ edges ∧ s !! e.1 = None ∧ is_Some (s' !! e.1)).
Proof using.
  intros He Hs. unfold inherit_pass. induction edges as [|[child parent] edges IH] using rev_ind; cbn.
  { do 2 (split; [done|]). split; [|done]. intros _. split; [done|]. by intros e ?%not_elem_of_nil. }
  rewrite foldl_snoc. destruct (foldl inherit_one (s, false) edges) as [s1 ch].
  destruct IH as (Hi & Hsub & Hno & Hyes); [intros e Hin; apply He, elem_of_app; by left|].
  pose proof (He (child, parent) ltac:(apply elem_of_app; right; by left)) as Hp. cbn in Hp.
  pose proof (inherit_one_inherits (s1, ch) child parent Hp Hi) as Hi'.
  assert (Hweak : ∀ e, e ∈ edges ++ [(child, parent)] → e ∈ edges ∨ e = (child, parent)).
  { intros e [?|?%list_elem_of_singleton]%elem_of_app; auto. }
  unfold inherit_one in *. cbn [fst snd] in *.
  destruct (s1 !! child) as [d1|] eqn:Hc; [|destruct (s1 !! parent) as [d|] eqn:Hd]; cbn [fst] in *;
    (split; [done|]); (split; [first [done|etrans; [done|by apply insert_subseteq]]|]); split.
  - intros ->. destruct (Hno eq_refl) as [-> Hall]. split; [done|].
    intros e [Hin| ->]%Hweak; [by apply Hall|by eexists].
  - intros ->. destruct (Hyes eq_refl) as (e & Hin & H1 & H2). exists e. split; [|done].
    apply elem_of_app. by left.
  - done.
  - intros _. exists (child, parent). split; [apply elem_of_app; right; by left|]. cbn. split.
    + destruct (s !! child) as [x|] eqn:Hx; [|done]. apply (lookup_weaken _ s1) in Hx; [congruence|done].
    + rewrite lookup_insert_eq. by eexists.
  - intros ->. destruct (Hno eq_refl) as [-> Hall]. split; [done|].
    intros e [Hin| ->]%Hweak; [by apply Hall|]. cbn. rewrite Hd. by intros [? ?].
  - intros ->. destruct (Hyes eq_refl) as (e & Hin & H1 & H2). exists e. split; [|done].
    apply elem_of_app. by left.
Qed.

(** The children that have no destination yet. *)
Definition waiting (s : gmap str str) : gset str := dom parents ∖ dom s.

Lemma waiting_less s s' child : s ⊆ s' → is_Some (parents !! child) → s !! child = None →
  is_Some (s' !! child) → (size (waiting s') < size (waiting s))%nat.
Proof using.
  intros Hsub Hp Hn Hs. apply subset_size. unfold waiting.
  apply subseteq_dom in Hsub. rewrite <-elem_of_dom in Hp, Hs. apply not_elem_of_dom in Hn. set_solver.
Qed.

Lemma waiting_none s : size (waiting s) = 0%nat → settled_under s.
Proof using.
  intros H child parent Hp _. apply size_empty_inv in H. apply elem_of_dom.
  assert (child ∈ dom parents) by (apply elem_of_dom; by eexists). unfold waiting in H. set_solver.
Qed.

(** Enough passes leave nothing to inherit, in whatever order each walks the map. *)
Lemma inherit_spec (order : nat → list (str * str)) : (∀ k, order k ≡ₚ map_to_list parents) →
  ∀ fuel k s, inherits s → (size (waiting s) ≤ fuel)%nat →
  ∀ x d, inherit fuel k order s !! x = Some d ↔ attributed direct parents x d.
Proof using.
  intros Ho. assert (He : ∀ k e, e ∈ order k ↔ parents !! e.1 = Some e.2).
  { intros k [c p]. rewrite (Ho k). apply elem_of_map_to_list. }
  induction fuel as [|fuel IH]; intros k s Hs Hle x d; cbn [inherit].
  { apply inherits_complete; [done|]. apply waiting_none. lia. }
  pose proof (inherit_pass_spec (order k) s (λ e, proj1 (He k e)) Hs) as Hpass.
  destruct (inherit_pass (order k) s) as [s' [|]]; destruct Hpass as (Hi & Hsub & Hno & Hyes).
  - destruct (Hyes eq_refl) as ([c p] & Hin & Hn & Hsome). apply He in Hin. cbn in *.
    assert (size (waiting s') < size (waiting s))%nat by (eapply waiting_less; [done|by eexists|done..]).
    apply IH; [done|lia].
  - destruct (Hno eq_refl) as [-> Hall]. apply inherits_complete; [done|].
    intros c p Hp. apply (Hall (c, p)). by apply He.
Qed.
End Inherit.

(** ** The rows of the session table *)

Section Rows.
Context (identify : str → option str).
Context (projects workspaces : gmap str str) (t : Table).

Definition row_id (row : Row) : option str := text_field t row $"id".
Definition row_parent (row : Row) : option str := text_field t row $"parent_id".
Definition ids (l : list Row) : list str := omap row_id l.

Abbreviation direct_of := (direct_destination identify projects workspaces t).

Lemma session_id_inv row id : session_id_of t row = inr id → row_id row = Some id.
Proof using. unfold session_id_of, row_id, context_option. destruct (text_field _ _ _); [by intros [= ->]|done]. Qed.

(** With distinct ids, the first loop records each row's own destination and parent. *)
Lemma session_fields_spec l : ∀ s p s' p',
  session_fields identify projects workspaces t l s p = inr (s', p') →
  NoDup (ids l) → (∀ i, i ∈ ids l → s !! i = None ∧ p !! i = None) →
  (∀ i, i ∉ ids l → s' !! i = s !! i ∧ p' !! i = p !! i) ∧
  (∀ row i, row ∈ l → row_id row = Some i → s' !! i = direct_of row ∧ p' !! i = row_parent row) ∧
  Forall (λ row, is_Some (row_id row)) l ∧ (size p' ≤ size p + length l)%nat.
Proof using.
  induction l as [|row l IH]; intros s p s' p'; cbn [session_fields].
  { intros [= <- <-] _ _. split; [done|]. split; [by intros row i ?%not_elem_of_nil|]. split; [done|cbn; lia]. }
  destruct (session_id_of t row) as [|id] eqn:Hid; [done|]. cbn. apply session_id_inv in Hid.
  unfold ids. cbn. rewrite Hid. fold (ids l). intros Hrun [Hfresh Hnd]%NoDup_cons Hnone.
  destruct (Hnone id ltac:(by left)) as [Hsn Hpn].
  set (s1 := match direct_of row with Some d => <[id:=d]> s | None => s end) in *.
  set (p1 := match text_field t row _ with Some q => <[id:=q]> p | None => p end) in *.
  assert (H1 : ∀ i, i ≠ id → s1 !! i = s !! i ∧ p1 !! i = p !! i).
  { intros i Hne. subst s1 p1. split; destruct_with_eqn (text_field t row $"parent_id");
      destruct (direct_of row); by rewrite ?lookup_insert_ne by done. }
  assert (H2 : s1 !! id = direct_of row ∧ p1 !! id = row_parent row).
  { subst s1 p1. unfold row_parent. split; destruct (direct_of row), (text_field t row $"parent_id");
      by rewrite ?lookup_insert_eq. }
  assert (H3 : (size p1 ≤ S (size p))%nat).
  { subst p1. destruct (text_field t row $"parent_id"); [|lia]. rewrite map_size_insert, Hpn. cbn. lia. }
  apply IH in Hrun as (Hout & Hin & Hall & Hsz); [|done|].
  2: { intros i Hi. assert (i ≠ id) by (intros ->; done). destruct (H1 i) as [-> ->]; [done|].
       apply Hnone. by right. }
  split; [|split; [|split; [|cbn; lia]]].
  - intros i [Hne Hi]%not_elem_of_cons. destruct (Hout i Hi) as [-> ->]. by apply H1.
  - intros row' i [->|Hrow]%elem_of_cons Hi; [|by apply Hin].
    assert (i = id) as -> by congruence. destruct (Hout id Hfresh) as [-> ->]. exact H2.
  - constructor; [by eexists|done].
Qed.

(** Where a row leads: its own destination, or that of the row it names as parent. *)
Inductive goes_to (l : list Row) : str → str → Prop :=
| goes_direct row id d : row ∈ l → row_id row = Some id → direct_of row = Some d → goes_to l id d
| goes_parent row id p d : row ∈ l → row_id row = Some id → direct_of row = None →
    row_parent row = Some p → goes_to l p d → goes_to l id d.

Lemma elem_of_ids l i : i ∈ ids l ↔ ∃ row, row ∈ l ∧ row_id row = Some i.
Proof using. unfold ids. by rewrite list_elem_of_omap. Qed.

(** What the maps say is what the rows say. *)
Lemma attributed_goes l direct parents :
  (∀ i, i ∉ ids l → direct !! i = None ∧ parents !! i = None) →
  (∀ row i, row ∈ l → row_id row = Some i → direct !! i = direct_of row ∧ parents !! i = row_parent row) →
  ∀ k d, attributed direct parents k d ↔ goes_to l k d.
Proof using.
  intros Hout Hin k d. split.
  - induction 1 as [k d Hk|k p d Hk Hp _ IH].
    + destruct (decide (k ∈ ids l)) as [Hi|Hi]; [|by destruct (Hout k Hi); congruence].
      apply elem_of_ids in Hi as (row & Hrow & Hi). destruct (Hin row k Hrow Hi) as [E _].
      eapply goes_direct; [done|done|congruence].
    + destruct (decide (k ∈ ids l)) as [Hi|Hi]; [|by destruct (Hout k Hi); congruence].
      apply elem_of_ids in Hi as (row & Hrow & Hi). destruct (Hin row k Hrow Hi) as [E1 E2].
      eapply goes_parent; [done|done|congruence|rewrite <-E2; exact Hp|done].
  - induction 1 as [row id d Hrow Hi Hd|row id p d Hrow Hi Hd Hp _ IH]; destruct (Hin row id Hrow Hi) as [E1 E2].
    + apply attributed_own. congruence.
    + eapply attributed_parent; [congruence|by rewrite E2|done].
Qed.
End Rows.

(** ** The malformed sessions *)

Lemma size_list_to_set_le (l : list str) : (size (list_to_set l : gset str) ≤ length l)%nat.
Proof.
  induction l as [|x l IH]; cbn; [by rewrite size_empty|].
  rewrite size_union_alt, size_singleton.
  assert (size (list_to_set l ∖ {[x]} : gset str) ≤ size (list_to_set l : gset str))%nat by
    (apply subseteq_size; set_solver). lia.
Qed.

Section Malformed.
Context (t : Table) (l : list Row) (seeds : gset str).

(** Seeds, and sessions below them. *)
Inductive tainted : str → Prop :=
| tainted_seed id : id ∈ seeds → tainted id
| tainted_child row id p : row ∈ l → row_id t row = Some id → row_parent t row = Some p →
    tainted p → tainted id.

(** No child of a member is missing. *)
Definition closed_under (m : gset str) : Prop :=
  ∀ row id p, row ∈ l → row_id t row = Some id → row_parent t row = Some p → p ∈ m → id ∈ m.

Definition taints (m : gset str) : Prop := seeds ⊆ m ∧ ∀ id, id ∈ m → tainted id.

Lemma taints_complete m : taints m → closed_under m → ∀ id, id ∈ m ↔ tainted id.
Proof using.
  intros [Hs Ht] Hc id. split; [apply Ht|]. induction 1 as [id Hid|row id p Hrow Hid Hp _ IH]; [by apply Hs|].
  by eapply Hc.
Qed.

Lemma close_row_grows m row : m ⊆ close_row t m row.
Proof using.
  unfold close_row. destruct (text_field t row $"id"), (text_field t row $"parent_id"); try done.
  case_decide; set_solver.
Qed.

Lemma close_pass_grows l' : ∀ m, m ⊆ close_pass t l' m.
Proof using.
  unfold close_pass. induction l' as [|row l' IH]; intros m; cbn; [done|].
  etrans; [apply close_row_grows|apply IH].
Qed.

Lemma close_pass_taints l' m : (∀ row, row ∈ l' → row ∈ l) → taints m → taints (close_pass t l' m).
Proof using.
  unfold close_pass. revert m. induction l' as [|row l' IH]; intros m Hl Hm; cbn; [done|].
  apply IH; [intros r Hr; apply Hl; by right|]. specialize (Hl row ltac:(by left)). destruct Hm as [Hs Ht].
  split; [by etrans; [|apply close_row_grows]|]. intros id. unfold close_row.
  destruct (text_field t row $"id") as [i|] eqn:Hi, (text_field t row $"parent_id") as [p|] eqn:Hp;
    try apply Ht. case_decide as Hin; [|apply Ht].
  intros [->%elem_of_singleton|Hid]%elem_of_union; [|by apply Ht]. eapply tainted_child; [done|done|done|by apply Ht].
Qed.

(** A pass that adds nothing found nothing to add. *)
Lemma close_pass_stable l' m : close_pass t l' m = m → ∀ row id p, row ∈ l' →
  row_id t row = Some id → row_parent t row = Some p → p ∈ m → id ∈ m.
Proof using.
  unfold close_pass, row_id, row_parent. revert m.
  induction l' as [|row l' IH]; intros m; cbn; [by intros _ ? ? ? ?%not_elem_of_nil|].
  intros Heq. assert (Hrow : close_row t m row = m).
  { apply set_eq. intros x. split; [|apply close_row_grows].
    intros Hx. rewrite <-Heq. by apply (close_pass_grows l'). }
  intros row' id p [->|Hin]%elem_of_cons Hid Hp Hpm; [|rewrite Hrow in Heq; by eapply IH].
  unfold close_row in Hrow. rewrite Hid, Hp, decide_True in Hrow by done. set_solver.
Qed.

Definition untouched (m : gset str) : gset str := list_to_set (ids t l) ∖ m.

Lemma close_pass_ids l' m x : (∀ row, row ∈ l' → row ∈ l) → x ∈ close_pass t l' m → x ∈ m ∨ x ∈ ids t l.
Proof using.
  unfold close_pass. revert m. induction l' as [|row l' IH]; intros m Hl; cbn; [by left|].
  intros [Hx|]%IH; [|by right|intros r Hr; apply Hl; by right]. unfold close_row in Hx.
  destruct (text_field t row $"id") as [i|] eqn:Hi, (text_field t row $"parent_id"); try by left.
  case_decide; [|by left]. apply elem_of_union in Hx as [->%elem_of_singleton|]; [right|by left].
  apply elem_of_ids. exists row. split; [apply Hl; by left|done].
Qed.

Lemma close_spec fuel : ∀ m, taints m → (size (untouched m) ≤ fuel)%nat →
  ∀ id, id ∈ close fuel t l m ↔ tainted id.
Proof using.
  induction fuel as [|fuel IH]; intros m Hm Hle id; cbn [close].
  { apply taints_complete; [done|]. intros row i p Hrow Hi _ _.
    assert (Hin : i ∈ ids t l) by (apply elem_of_ids; by exists row).
    assert (Hz : size (untouched m) = 0%nat) by lia. apply size_empty_inv in Hz. unfold untouched in Hz.
    destruct (decide (i ∈ m)); [done|]. exfalso. assert (i ∈ (∅ : gset str)); [|set_solver].
    rewrite <-Hz. apply elem_of_difference. by rewrite elem_of_list_to_set. }
  pose proof (close_pass_grows l m) as Hg. pose proof (close_pass_taints l m (λ _ H, H) Hm) as Ht.
  case_decide as Hsz.
  - assert (Heq : close_pass t l m = m) by (symmetry; apply set_subseteq_size_eq; [done|lia]).
    rewrite Heq. apply taints_complete; [done|]. intros row i p. by apply close_pass_stable.
  - apply IH; [done|]. assert (Hlt : (size (untouched (close_pass t l m)) < size (untouched m))%nat); [|lia].
    apply subset_size. unfold untouched. split; [set_solver|]. intros Hsub. apply Hsz. f_equal.
    apply set_eq. intros x. split; [|apply Hg]. intros Hx.
    destruct (close_pass_ids l m x (λ _ H, H) Hx) as [|Hid]; [done|].
    destruct (decide (x ∈ m)); [done|]. specialize (Hsub x). rewrite !elem_of_difference in Hsub.
    destruct Hsub as [_ Hn]; [|done]. by rewrite elem_of_list_to_set.
Qed.

Lemma close_enough m : taints m → ∀ id, id ∈ close (length l) t l m ↔ tainted id.
Proof using.
  intros Hm. apply close_spec; [done|]. etrans; [apply (subseteq_size _ (list_to_set (ids t l))); set_solver|].
  etrans; [apply size_list_to_set_le|]. unfold ids. clear. induction l as [|row r IH]; cbn; [lia|].
  destruct (row_id t row); cbn; lia.
Qed.
End Malformed.

Section Quarantine.
Context (t : Table) (l : list Row).

Lemma foreign_parents_spec l' : ∀ m m', foreign_parents t l' m = inr m' →
  ∀ id, id ∈ m' ↔ id ∈ m ∨ ∃ row p, row ∈ l' ∧ row_id t row = Some id ∧ row_parent t row = Some p ∧
    ses_prefixed p = false.
Proof using.
  induction l' as [|row l' IH]; intros m m'; cbn [foreign_parents].
  { intros [= <-] id. split; [by left|]. intros [?|(row & p & Hin & _)]; [done|by apply not_elem_of_nil in Hin]. }
  destruct (session_id_of t row) as [|i] eqn:Hi; [done|]. cbn. apply session_id_inv in Hi.
  intros Hrun id. rewrite (IH _ _ Hrun). clear Hrun IH. split.
  - intros [Hm|(row' & p & Hin & Hrest)]; [|right; exists row', p; split; [by right|done]].
    destruct (text_field t row $"parent_id") as [p|] eqn:Hp; [|by left].
    destruct (ses_prefixed p) eqn:Hs; [by left|]. apply elem_of_union in Hm as [->%elem_of_singleton|]; [|by left].
    right. exists row, p. split; [by left|done].
  - intros [Hm|(row' & p & [->|Hin]%elem_of_cons & Hid & Hp & Hs)].
    + left. destruct (text_field t row $"parent_id") as [p|]; [|done].
      destruct (ses_prefixed p); [done|]. by apply elem_of_union_r.
    + left. unfold row_parent in Hp. rewrite Hp, Hs. assert (i = id) as -> by congruence.
      by apply elem_of_union_l, elem_of_singleton.
    + right. by exists row', p.
Qed.

(** What quarantine takes for malformed to begin with: a session with a destination of its
    own and a foreign id, and a session with a foreign parent. *)
Definition quarantine_seed (sessions : gmap str str) (id : str) : Prop :=
  is_Some (sessions !! id) ∧ ses_prefixed id = false ∨
  ∃ row p, row ∈ l ∧ row_id t row = Some id ∧ row_parent t row = Some p ∧ ses_prefixed p = false.

Inductive quarantined (sessions : gmap str str) : str → Prop :=
| quarantined_seed id : quarantine_seed sessions id → quarantined sessions id
| quarantined_child row id p : row ∈ l → row_id t row = Some id → row_parent t row = Some p →
    quarantined sessions p → quarantined sessions id.

Lemma set_fold_legacy (m : gset str) (s : gmap str str) i :
  set_fold (λ id s, <[id := legacy_global]> s) s m !! i =
  if decide (i ∈ m) then Some legacy_global else s !! i.
Proof using.
  pose (P := λ (out : gmap str str) (x : gset str),
    out !! i = if decide (i ∈ x) then Some legacy_global else s !! i).
  apply (set_fold_ind_L P); unfold P; clear P.
  - by rewrite decide_False by set_solver.
  - intros x X out Hx IH. destruct (decide (x = i)) as [->|Hne].
    + by rewrite lookup_insert_eq, decide_True by set_solver.
    + rewrite lookup_insert_ne, IH by done. repeat case_decide; try done; set_solver.
Qed.

Lemma quarantine_spec s s' m : quarantine t l s = inr (s', m) →
  (∀ id, id ∈ m ↔ quarantined s id) ∧
  (∀ id, s' !! id = if decide (id ∈ m) then Some legacy_global else s !! id).
Proof using.
  unfold quarantine. set (by_id := filter _ (dom s)).
  destruct (foreign_parents t l by_id) as [|seeds] eqn:Hf; [done|]. cbn. intros [= <- <-].
  split; [|intros id; apply set_fold_legacy]. intros id.
  assert (Hseeds : ∀ x, x ∈ seeds ↔ quarantine_seed s x).
  { intros x. rewrite (foreign_parents_spec l by_id seeds Hf x). unfold quarantine_seed, by_id.
    by rewrite elem_of_filter, elem_of_dom, (and_comm (ses_prefixed x = false)). }
  rewrite (close_enough t l seeds seeds); [|split; [done|intros x Hx; by apply tainted_seed]].
  split.
  - induction 1 as [x Hx|row x p Hrow Hid Hp _ IH]; [by apply quarantined_seed, Hseeds|].
    by eapply quarantined_child.
  - induction 1 as [x Hx|row x p Hrow Hid Hp _ IH]; [by apply tainted_seed, Hseeds|].
    by eapply tainted_child.
Qed.

Lemma default_sessions_spec l' : ∀ s s', default_sessions t l' s = inr s' →
  ∀ id, s' !! id = match s !! id with
                   | Some d => Some d
                   | None => if decide (id ∈ ids t l') then Some legacy_global else None
                   end.
Proof using.
  induction l' as [|row l' IH]; intros s s'; cbn [default_sessions].
  { intros [= <-] id. by destruct (s !! id). }
  destruct (session_id_of t row) as [|i] eqn:Hi; [done|]. cbn. apply session_id_inv in Hi.
  intros Hrun id. rewrite (IH _ _ Hrun). unfold ids. cbn. rewrite Hi. fold (ids t l').
  unfold or_legacy. destruct (s !! i) as [d|] eqn:Hs.
  - destruct (s !! id) eqn:Hid; [done|]. assert (id ≠ i) by congruence.
    repeat case_decide; try done; set_solver.
  - destruct (decide (id = i)) as [->|Hne].
    + by rewrite lookup_insert_eq, Hs, decide_True by by left.
    + rewrite lookup_insert_ne by done. destruct (s !! id); [done|].
      repeat case_decide; try done; set_solver.
Qed.
End Quarantine.

(** ** Routing *)

Section Routing.
Context (identify : str → option str) (order : gmap str str → nat → list (str * str)).
Definition own_destination (tables : list Table) (rows : gmap str (list Row)) (t : Table) (row : Row) :
    option str :=
  direct_destination identify (project_routes identify tables rows)
    (workspace_routes identify tables rows (project_routes identify tables rows)) t row.

(** The sessions [rows] lead to. *)
Definition leads (tables : list Table) (rows : gmap str (list Row)) (t : Table) : str → str → Prop :=
  goes_to identify (project_routes identify tables rows)
    (workspace_routes identify tables rows (project_routes identify tables rows)) t
    (rows_of rows $"session").

(** The sessions a quarantine takes out. *)
Inductive malformed_session (tables : list Table) (rows : gmap str (list Row)) (t : Table) : str → Prop :=
| malformed_own row id d : row ∈ rows_of rows $"session" → row_id t row = Some id →
    own_destination tables rows t row = Some d → ses_prefixed id = false →
    malformed_session tables rows t id
| malformed_parent row id p : row ∈ rows_of rows $"session" → row_id t row = Some id →
    row_parent t row = Some p → ses_prefixed p = false → malformed_session tables rows t id
| malformed_child row id p : row ∈ rows_of rows $"session" → row_id t row = Some id →
    row_parent t row = Some p → malformed_session tables rows t p → malformed_session tables rows t id.

(** The maps a run of [route_sessions] goes through. *)
Record run_of (tables : list Table) (rows : gmap str (list Row)) (q : bool) (t mt : Table) (r : Routing)
    (direct parents s0 : gmap str str) : Prop := mkRunOf {
  ro_session : find_table tables $"session" = Some t;
  ro_message : find_table tables $"message" = Some mt;
  ro_fields : session_fields identify (project_routes identify tables rows)
    (workspace_routes identify tables rows (project_routes identify tables rows)) t
    (rows_of rows $"session") ∅ ∅ = inr (direct, parents);
  ro_quarantine : (if q then quarantine t (rows_of rows $"session") direct else inr (direct, ∅)) =
    inr (s0, rg_malformed_sessions r);
  ro_sessions : default_sessions t (rows_of rows $"session")
    (inherit (length (rows_of rows $"session")) 0 (order parents) s0) = inr (rg_sessions r);
  ro_messages : rg_messages r = foldl (message_route (rg_sessions r) mt) ∅ (rows_of rows $"message");
  ro_malformed_messages : rg_malformed_messages r =
    list_to_set (omap (malformed_message (rg_malformed_sessions r) mt) (rows_of rows $"message"));
  ro_needs : (rg_destination_projects r, rg_destination_workspaces r) =
    let '(p, w) := foldl (session_needs (rg_sessions r) (rg_malformed_sessions r)
      (over tables rows $"workspace" workspace_project ∅) t) (∅, ∅) (rows_of rows $"session") in
    (over tables rows $"project_directory"
       (directory_needs identify (map_img (rg_sessions r))) p, w);
  ro_destinations : map_img (rg_sessions r) ⊆ rg_destinations r;
  ro_legacy : has_unattributed_graph tables rows r = true → legacy_global ∈ rg_destinations r;
}.

Lemma route_run tables rows q r : route_sessions identify order tables rows q = inr r →
  ∃ t mt direct parents s0, run_of tables rows q t mt r direct parents s0.
Proof using.
  unfold route_sessions. cbn zeta.
  destruct (find_table tables $"session") as [t|] eqn:Ht; [|done]. cbn [context_option].
  unfold mbind, Fallible_bind.
  set (ps := project_routes identify tables rows). set (ws := workspace_routes identify tables rows ps).
  destruct (session_fields identify ps ws t (rows_of rows $"session") ∅ ∅) as [|[direct parents]] eqn:Hf; [done|].
  destruct (if q then quarantine t (rows_of rows $"session") direct else inr (direct, ∅))
    as [|[s0 m]] eqn:Hq; [done|].
  destruct (default_sessions t (rows_of rows $"session")
    (inherit (length (rows_of rows $"session")) 0 (order parents) s0)) as [|s] eqn:Hs; [done|].
  destruct (find_table tables $"message") as [mt|] eqn:Hmt; [|done]. cbn [context_option].
  destruct (foldl (session_needs s m (over tables rows $"workspace" workspace_project ∅) t) (∅, ∅)
    (rows_of rows $"session")) as [p w] eqn:Hn.
  intros [= <-]. exists t, mt, direct, parents, s0.
  set (r0 := mkRouting _ _ _ _ _ _ _ _ _).
  destruct (bool_decide (s = ∅) || has_unattributed_graph tables rows r0) eqn:Hu; split; cbn;
    try rewrite Hn; try done; try set_solver.
  intros Hl. subst r0. by rewrite Hl, orb_true_r in Hu.
Qed.
Section Run.
Context (tables : list Table) (rows : gmap str (list Row)) (q : bool) (t mt : Table) (r : Routing)
  (direct parents s0 : gmap str str).
Hypothesis run : run_of tables rows q t mt r direct parents s0.
Hypothesis distinct : NoDup (ids t (rows_of rows $"session")).
Abbreviation l := (rows_of rows $"session").
Abbreviation own := (own_destination tables rows t).

Lemma run_rows :
  (∀ i, i ∉ ids t l → direct !! i = None ∧ parents !! i = None) ∧
  (∀ row i, row ∈ l → row_id t row = Some i → direct !! i = own row ∧ parents !! i = row_parent t row) ∧
  (size parents ≤ length l)%nat.
Proof using run distinct.
  destruct (session_fields_spec _ _ _ _ _ _ _ _ _ (ro_fields _ _ _ _ _ _ _ _ _ run) distinct)
    as (Hout & Hin & _ & Hsz); [by intros; rewrite !lookup_empty|].
  rewrite map_size_empty in Hsz. split; [|by split].
  intros i Hi. destruct (Hout i Hi) as [-> ->]. by rewrite !lookup_empty.
Qed.

Lemma run_direct_row id d : direct !! id = Some d → ∃ row, row ∈ l ∧ row_id t row = Some id ∧ own row = Some d.
Proof using run distinct.
  destruct run_rows as (Hout & Hin & _). intros Hd.
  destruct (decide (id ∈ ids t l)) as [Hi|Hi]; [|destruct (Hout id Hi); congruence].
  apply elem_of_ids in Hi as (row & Hrow & Hi). exists row. destruct (Hin row id Hrow Hi) as [E _].
  split; [done|]. split; [done|]. congruence.
Qed.

Lemma run_quarantined id : quarantined t l direct id ↔ malformed_session tables rows t id.
Proof using run distinct.
  destruct run_rows as (Hout & Hin & _). split.
  - induction 1 as [id [[[d Hd] Hs]|(row & p & Hrow & Hi & Hp & Hs)]|row id p Hrow Hi Hp _ IH].
    + apply run_direct_row in Hd as (row & Hrow & Hi & Hd). by eapply malformed_own.
    + by eapply malformed_parent.
    + by eapply malformed_child.
  - induction 1 as [row id d Hrow Hi Hd Hs|row id p Hrow Hi Hp Hs|row id p Hrow Hi Hp _ IH].
    + apply quarantined_seed. left. split; [|done]. destruct (Hin row id Hrow Hi) as [-> _]. by eexists.
    + apply quarantined_seed. right. by exists row, p.
    + by eapply quarantined_child.
Qed.

Lemma run_malformed id : id ∈ rg_malformed_sessions r ↔ q = true ∧ malformed_session tables rows t id.
Proof using run distinct.
  pose proof (ro_quarantine _ _ _ _ _ _ _ _ _ run) as Hq. assert (q = true ∨ q = false) as [E|E] by (destruct q; auto); rewrite E in Hq |- *.
  - apply quarantine_spec in Hq as [Hm _]. rewrite Hm, run_quarantined. tauto.
  - injection Hq as <- <-. split; [set_solver|by intros [? _]].
Qed.

Lemma run_start id : s0 !! id = if decide (id ∈ rg_malformed_sessions r) then Some legacy_global else direct !! id.
Proof using run distinct.
  pose proof (ro_quarantine _ _ _ _ _ _ _ _ _ run) as Hq. assert (q = true ∨ q = false) as [E|E] by (destruct q; auto); rewrite E in Hq.
  - apply quarantine_spec in Hq as [_ Hs]. apply Hs.
  - injection Hq as <- <-. by rewrite decide_False by set_solver.
Qed.

Lemma malformed_listed id : malformed_session tables rows t id → id ∈ ids t l.
Proof using. destruct 1; apply elem_of_ids; eauto. Qed.

(** A session that is not malformed has no malformed ancestor. *)
Lemma run_attributed id d : id ∉ rg_malformed_sessions r →
  attributed s0 parents id d ↔ leads tables rows t id d.
Proof using run distinct.
  destruct run_rows as (Hout & Hin & _). intros Hm. unfold leads.
  rewrite <-(attributed_goes _ _ _ _ _ direct parents) by done.
  assert (Hp : ∀ x p, x ∉ rg_malformed_sessions r → parents !! x = Some p → p ∉ rg_malformed_sessions r).
  { intros x p Hx Hxp. rewrite run_malformed in Hx |- *. intros [Hq Hmp]. apply Hx. split; [done|].
    destruct (decide (x ∈ ids t l)) as [Hi|Hi]; [|destruct (Hout x Hi); congruence].
    apply elem_of_ids in Hi as (row & Hrow & Hi). destruct (Hin row x Hrow Hi) as [_ E].
    eapply malformed_child; [done|done| |done]. by rewrite <-E. }
  assert (Hs : ∀ x, x ∉ rg_malformed_sessions r → s0 !! x = direct !! x).
  { intros x Hx. by rewrite run_start, decide_False. }
  split; intros H; revert Hm; induction H as [x e Hx|x p e Hx Hxp _ IH]; intros Hm.
  - apply attributed_own. by rewrite <-Hs.
  - eapply attributed_parent; [by rewrite <-Hs|done|]. apply IH. by eapply Hp.
  - apply attributed_own. by rewrite Hs.
  - eapply attributed_parent; [by rewrite Hs|done|]. apply IH. by eapply Hp.
Qed.

(** Each pass walks the whole map, in some order. *)
Hypothesis walks : ∀ m k, order m k ≡ₚ map_to_list m.

Lemma run_inherited id d :
  inherit (length l) 0 (order parents) s0 !! id = Some d ↔ attributed s0 parents id d.
Proof using run distinct walks.
  destruct run_rows as (_ & _ & Hsz). apply inherit_spec; [intros k; apply walks| |].
  - split; [done|]. intros k e Hk. by apply attributed_own.
  - etrans; [apply (subseteq_size _ (dom parents)); unfold waiting; set_solver|]. by rewrite size_dom.
Qed.
Lemma run_session id d : rg_sessions r !! id = Some d ↔
  id ∈ ids t l ∧
  if decide (id ∈ rg_malformed_sessions r) then d = legacy_global
  else leads tables rows t id d ∨ (∀ e, ¬ leads tables rows t id e) ∧ d = legacy_global.
Proof using run distinct walks.
  rewrite (default_sessions_spec _ _ _ _ (ro_sessions _ _ _ _ _ _ _ _ _ run)).
  pose proof (run_inherited id) as Hin. set (inh := inherit _ _ _ _ !! id) in *.
  destruct (decide (id ∈ rg_malformed_sessions r)) as [Hm|Hm].
  - assert (Hlegacy : inh = Some legacy_global).
    { apply Hin, attributed_own. rewrite run_start. by rewrite decide_True. }
    rewrite Hlegacy. split; [|by intros [_ ->]]. intros [= <-]. split; [|done].
    apply run_malformed in Hm as [_ Hm]. by apply malformed_listed.
  - assert (Hin' : ∀ e, inh = Some e ↔ leads tables rows t id e).
    { intros e. rewrite Hin. by apply run_attributed. }
    assert (Hids : ∀ e, leads tables rows t id e → id ∈ ids t l).
    { intros e. destruct 1; apply elem_of_ids; eauto. }
    destruct inh as [e|].
    + assert (He : leads tables rows t id e) by (by apply Hin').
      split.
      * intros [= <-]. split; [by eapply Hids|by left].
      * intros [_ [Hd|[Hno _]]]; [by apply Hin'|]. by destruct (Hno e).
    + destruct (decide (id ∈ ids t l)) as [Hi|Hi].
      * split; [|intros [_ [Hd%Hin'|[_ ->]]]; done]. intros [= <-]. split; [done|]. right.
        split; [|done]. by intros e He%Hin'.
      * split; [done|]. by intros [? _].
Qed.

Lemma malformed_archived id : id ∈ rg_malformed_sessions r → rg_sessions r !! id = Some legacy_global.
Proof using run distinct walks.
  intros Hm. apply run_session. rewrite decide_True by done. split; [|done].
  apply run_malformed in Hm as [_ Hm]. by apply malformed_listed.
Qed.

Lemma session_known id : id ∈ ids t l → is_Some (rg_sessions r !! id).
Proof using run.
  intros Hi. rewrite (default_sessions_spec _ _ _ _ (ro_sessions _ _ _ _ _ _ _ _ _ run)).
  destruct (inherit _ _ _ _ !! id); [by eexists|]. rewrite decide_True by done. by eexists.
Qed.
End Run.
End Routing.

(** The destination of a session is that of its nearest attributed ancestor.  In whatever
    order the maps are walked, the passes end with: a session goes where its own row leads,
    else where the nearest ancestor with a destination of its own goes, else to the
    archive; the sessions a quarantine takes out are exactly those with a foreign id and a
    destination of their own, those with a foreign parent, and those below them, and they
    go to the archive. *)
Theorem session_destination identify order tables rows q r t :
  (∀ m k, order m k ≡ₚ map_to_list m) → find_table tables $"session" = Some t →
  NoDup (ids t (rows_of rows $"session")) →
  route_sessions identify order tables rows q = inr r →
  (∀ id, id ∈ rg_malformed_sessions r ↔ q = true ∧ malformed_session identify tables rows t id) ∧
  ∀ id d, rg_sessions r !! id = Some d ↔
    id ∈ ids t (rows_of rows $"session") ∧
    if decide (id ∈ rg_malformed_sessions r) then d = legacy_global
    else leads identify tables rows t id d ∨
         (∀ e, ¬ leads identify tables rows t id e) ∧ d = legacy_global.
Proof.
  intros walks Ht Hnd (t' & mt & direct & parents & s0 & run)%route_run.
  assert (t' = t) as -> by (pose proof (ro_session _ _ _ _ _ _ _ _ _ _ _ run); congruence).
  assert (Hmal : ∀ id, id ∈ rg_malformed_sessions r ↔ q = true ∧ malformed_session identify tables rows t id).
  { intros id. by eapply run_malformed. }
  split; [exact Hmal|]. intros id d. by eapply run_session.
Qed.

(** ** What travels with a session *)

(** The session a row belongs to, by its own references. *)
Definition belongs (rows : gmap str (list Row)) (mt tb : Table) (row : Row) (id : str) : Prop :=
  if str_eqb (t_name tb) $"session" then text_field tb row $"id" = Some id
  else match text_field tb row $"session_id" with
  | Some s => s = id
  | None =>
  match text_field tb row $"message_id" with
  | Some m => ∃ mrow, mrow ∈ rows_of rows $"message" ∧ row_id mt mrow = Some m ∧
                text_field mt mrow $"session_id" = Some id
  | None => is_event_table (t_name tb) = true ∧ text_field tb row $"aggregate_id" = Some id
  end end.

(** A table whose rows follow their sessions. *)
Definition follows (tb : Table) : Prop :=
  t_copy_rows tb = true ∧ listed SCHEMA_TABLES (t_name tb) = false ∧
  Forall (λ name, str_eqb (t_name tb) name = false)
    [ $"project"; $"workspace"; $"project_directory"].

Section Messages.
Context (sessions : gmap str str) (malformed_sessions : gset str) (mt : Table).

Lemma messages_spec l : ∀ acc, NoDup (ids mt l) → ∀ m, 
  (m ∉ ids mt l → foldl (message_route sessions mt) acc l !! m = acc !! m) ∧
  ∀ row, row ∈ l → row_id mt row = Some m → acc !! m = None →
    foldl (message_route sessions mt) acc l !! m = text_field mt row $"session_id" ≫= λ s, sessions !! s.
Proof using.
  induction l as [|row l IH]; intros acc Hnd m; cbn.
  { split; [done|]. by intros row ?%not_elem_of_nil. }
  unfold ids in Hnd |- *. cbn in Hnd |- *. fold (ids mt l) in Hnd |- *.
  assert (Hkeep : ∀ k, row_id mt row ≠ Some k → message_route sessions mt acc row !! k = acc !! k).
  { intros k Hk. unfold message_route. fold (row_id mt row).
    destruct (row_id mt row) as [i|], (text_field mt row $"session_id"); try done.
    destruct (sessions !! _); [|done]. rewrite lookup_insert_ne; congruence. }
  destruct (row_id mt row) as [i|] eqn:Hi.
  - apply NoDup_cons in Hnd as [Hfresh Hnd]. destruct (IH (message_route sessions mt acc row) Hnd m) as [H1 H2].
    split.
    + intros [Hne Hm]%not_elem_of_cons. rewrite H1, Hkeep by congruence. done.
    + intros row' [->|Hin]%elem_of_cons Hid Hacc.
      * assert (i = m) as -> by congruence. rewrite H1 by done. unfold message_route.
        fold (row_id mt row). rewrite Hi. destruct (text_field mt row $"session_id") as [s|]; [cbn|done].
        destruct (sessions !! s); [by rewrite lookup_insert_eq|done].
      * apply H2; [done|done|]. rewrite Hkeep; [done|]. intros [= ->].
        apply Hfresh, elem_of_ids. by exists row'.
  - destruct (IH (message_route sessions mt acc row) Hnd m) as [H1 H2]. split.
    + intros Hm. by rewrite H1, Hkeep.
    + intros row' [->|Hin]%elem_of_cons Hid Hacc; [congruence|]. apply H2; [done|done|]. by rewrite Hkeep.
Qed.

Lemma malformed_messages_spec l m :
  m ∈ (list_to_set (omap (malformed_message malformed_sessions mt) l) : gset str) ↔
  ∃ row s, row ∈ l ∧ row_id mt row = Some m ∧ text_field mt row $"session_id" = Some s ∧ s ∈ malformed_sessions.
Proof using.
  rewrite elem_of_list_to_set, list_elem_of_omap. unfold malformed_message, row_id. split.
  - intros (row & Hin & Hm). destruct (text_field mt row $"id") as [i|] eqn:Hi; [|done].
    destruct (text_field mt row $"session_id") as [s|] eqn:Hs; [|done]. case_decide; [|done].
    injection Hm as ->. by exists row, s.
  - intros (row & s & Hin & Hi & Hs & Hm). exists row. split; [done|]. rewrite Hi, Hs. by rewrite decide_True.
Qed.
End Messages.

Lemma ids_fun t l row1 row2 i : NoDup (ids t l) → row1 ∈ l → row2 ∈ l →
  row_id t row1 = Some i → row_id t row2 = Some i → row1 = row2.
Proof.
  induction l as [|row l IH]; intros Hnd H1 H2 I1 I2; [by apply not_elem_of_nil in H1|].
  unfold ids in Hnd. cbn in Hnd. fold (ids t l) in Hnd.
  assert (Hne : ∀ x, row_id t row = Some i → x ∈ l → row_id t x = Some i → False).
  { intros x Hrow Hx Hxi. rewrite Hrow in Hnd. apply NoDup_cons in Hnd as [Hf _].
    apply Hf, elem_of_ids. by exists x. }
  apply elem_of_cons in H1 as [->|H1], H2 as [->|H2]; try done.
  - by destruct (Hne row2 I1 H2 I2).
  - by destruct (Hne row1 I2 H1 I1).
  - apply IH; try done. by destruct (row_id t row); [apply NoDup_cons in Hnd as [_ ?]|].
Qed.

Lemma names_fun tables a b : NoDup (map t_name tables) → a ∈ tables → b ∈ tables →
  t_name a = t_name b → a = b.
Proof.
  intros Hnd Ha Hb E. apply list_elem_of_lookup in Ha as [i Ha], Hb as [j Hb].
  assert (i = j) as ->; [|congruence]. eapply NoDup_lookup; [exact Hnd| |].
  - rewrite list_lookup_fmap, Ha. done.
  - rewrite list_lookup_fmap, Hb. cbn. by rewrite E.
Qed.

Lemma select_rows_lookup identify d tables rows r tb : NoDup (map t_name tables) → tb ∈ tables →
  rows_of (select_rows identify d tables rows r) (t_name tb) = select_table identify d rows r tb.
Proof.
  intros Hnd Hin. unfold rows_of, select_rows.
  rewrite (foldl_insert_unique t_name (λ t, select_table identify d rows r t) tables ∅ (t_name tb)
    (select_table identify d rows r tb)); [done| |by exists tb].
  intros a Ha E. f_equal. by eapply names_fun.
Qed.

Section Travels.
Context (identify : str → option str) (order : gmap str str → nat → list (str * str)).
Context (tables : list Table) (rows : gmap str (list Row)) (q : bool) (t mt : Table) (r : Routing)
  (direct parents s0 : gmap str str).
Hypothesis run : run_of identify order tables rows q t mt r direct parents s0.
Hypothesis distinct_messages : NoDup (ids mt (rows_of rows $"message")).

(** A row is routed like the session it belongs to. *)
Lemma belongs_routed tb row id : belongs rows mt tb row id →
  row_destination tb row r = rg_sessions r !! id ∧
  row_is_malformed_graph tb row r = bool_decide (id ∈ rg_malformed_sessions r).
Proof using run distinct_messages.
  unfold belongs, row_destination, row_is_malformed_graph.
  destruct (str_eqb (t_name tb) $"session"); [by intros ->|].
  destruct (text_field tb row $"session_id") as [s|]; [by intros ->|].
  destruct (text_field tb row $"message_id") as [m|].
  - intros (mrow & Hin & Hi & Hs). split.
    + rewrite (ro_messages _ _ _ _ _ _ _ _ _ _ _ run).
      destruct (messages_spec (rg_sessions r) mt (rows_of rows $"message") ∅ distinct_messages m) as [_ H].
      by rewrite (H mrow), Hs by done.
    + apply bool_decide_ext. rewrite (ro_malformed_messages _ _ _ _ _ _ _ _ _ _ _ run), malformed_messages_spec.
      split; [|by exists mrow, id]. intros (row' & s & Hin' & Hi' & Hs' & Hm).
      assert (row' = mrow) as -> by (by eapply ids_fun). by assert (s = id) as -> by congruence.
  - intros [He Ha]. rewrite He, Ha. split; [|done].
    assert (str_eqb (t_name tb) $"message" = false) as ->; [|done].
    apply not_true_iff_false. intros Heq%str_eqb_eq. rewrite Heq in He. by vm_compute in He.
Qed.
End Travels.

(** Where the rows that follow a session are selected. *)
Lemma session_selected identify order tables rows q r t mt tb row id d :
  (∀ m k, order m k ≡ₚ map_to_list m) →
  find_table tables $"session" = Some t → NoDup (ids t (rows_of rows $"session")) →
  find_table tables $"message" = Some mt → NoDup (ids mt (rows_of rows $"message")) →
  NoDup (map t_name tables) → tb ∈ tables → follows tb →
  route_sessions identify order tables rows q = inr r →
  row ∈ rows_of rows (t_name tb) → belongs rows mt tb row id → id ∈ ids t (rows_of rows $"session") →
  (row ∈ rows_of (select_rows identify d tables rows r) (t_name tb) ↔
     (id ∉ rg_malformed_sessions r) ∧ rg_sessions r !! id = Some d) ∧
  (rg_sessions r !! id = Some d → d ∈ rg_destinations r).
Proof.
  intros walks Ht Hnd Hmt Hndm Hnames Htb (Hcopy & Hschema & Hplain) Hroute Hrow Hbel Hid.
  apply route_run in Hroute as (t' & mt' & direct & parents & s0 & run).
  assert (t' = t) as -> by (pose proof (ro_session _ _ _ _ _ _ _ _ _ _ _ run); congruence).
  assert (mt' = mt) as -> by (pose proof (ro_message _ _ _ _ _ _ _ _ _ _ _ run); congruence).
  split.
  2: { intros Hd. apply (ro_destinations _ _ _ _ _ _ _ _ _ _ _ run). apply elem_of_map_img. by exists id. }
  rewrite select_rows_lookup by done. unfold select_table. rewrite Hcopy, elem_of_filter_bool.
  destruct (belongs_routed _ _ _ _ _ _ _ _ _ _ _ run Hndm tb row id Hbel) as [Hdest Hmal].
  apply Forall_cons in Hplain as [P1 Hplain]. apply Forall_cons in Hplain as [P2 Hplain].
  apply Forall_cons in Hplain as [P3 _]. unfold selects. rewrite Hschema, P1, P2, P3, Hdest, Hmal.
  destruct (session_known _ _ _ _ _ _ _ _ _ _ _ run id Hid) as [e He]. rewrite He.
  change (default legacy_global (Some e)) with e.
  destruct (decide (id ∈ rg_malformed_sessions r)) as [Hm|Hm].
  - rewrite bool_decide_true, andb_true_r by done.
    pose proof (malformed_archived _ _ _ _ _ _ _ _ _ _ _ run Hnd walks id Hm) as Hl.
    assert (e = legacy_global) as -> by congruence. split; [|by intros [? _]]. intros [Hs _].
    destruct (str_eqb d legacy_global) eqn:Ed; [done|]. apply str_eqb_eq in Hs as <-.
    by rewrite (proj2 (str_eqb_eq _ _) eq_refl) in Ed.
  - rewrite bool_decide_false, andb_false_r by done. rewrite str_eqb_eq. split.
    + intros [-> _]. done.
    + intros [_ [= ->]]. done.
Qed.

(** C22: A session travels whole and to one place.  Take a row of any table that follows sessions
    (its session row, its messages, their parts, its events, whatever names it): the row is
    among those selected for a destination exactly when that destination is the session's
    and the session was not taken out as malformed; and that destination is one of those
    that are merged. *)
Theorem session_travels_whole identify order tables rows q r t mt tb row id d :
  (∀ m k, order m k ≡ₚ map_to_list m) →
  find_table tables $"session" = Some t → NoDup (ids t (rows_of rows $"session")) →
  find_table tables $"message" = Some mt → NoDup (ids mt (rows_of rows $"message")) →
  NoDup (map t_name tables) → tb ∈ tables → follows tb →
  route_sessions identify order tables rows q = inr r →
  row ∈ rows_of rows (t_name tb) → belongs rows mt tb row id → id ∈ ids t (rows_of rows $"session") →
  (row ∈ rows_of (select_rows identify d tables rows r) (t_name tb) ↔
     (id ∉ rg_malformed_sessions r) ∧ rg_sessions r !! id = Some d) ∧
  (rg_sessions r !! id = Some d → d ∈ rg_destinations r).
Proof. apply session_selected. Qed.

(** ** What a session refers to *)

Definition wants (m : gmap str (gset str)) (d x : str) : Prop := x ∈ (default ∅ (m !! d) : gset str).

Lemma wants_need m d x d' x' : wants (need m d x) d' x' ↔ d' = d ∧ x' = x ∨ wants m d' x'.
Proof.
  unfold wants, need. destruct (decide (d' = d)) as [->|Hne].
  - rewrite lookup_insert_eq. cbn. set_solver.
  - rewrite lookup_insert_ne by done. naive_solver.
Qed.

Lemma needed_wants m d o : needed m d o = true ↔ ∃ x, o = Some x ∧ wants m d x.
Proof.
  unfold needed, wants. destruct o as [x|]; [|split; [done|by intros (? & ? & _)]].
  rewrite bool_decide_eq_true. split; [by exists x|]. by intros (? & [= ->] & ?).
Qed.

Section Needs.
Context (sessions : gmap str str) (malformed_sessions : gset str) (wp : gmap str str) (t : Table).

Abbreviation step := (session_needs sessions malformed_sessions wp t).

Lemma step_keeps acc row d x :
  (wants acc.1 d x → wants (step acc row).1 d x) ∧ (wants acc.2 d x → wants (step acc row).2 d x).
Proof using.
  unfold session_needs. destruct (text_field t row $"id") as [i|]; [|done]. case_decide; [done|].
  destruct (sessions !! i) as [e|]; [|done].
  destruct (text_field t row $"workspace_id") as [w|]; cbn [fst snd]; [destruct (wp !! w)|];
    destruct (text_field t row $"project_id"); rewrite ?wants_need; auto.
Qed.

Lemma steps_keep l : ∀ acc d x,
  (wants acc.1 d x → wants (foldl step acc l).1 d x) ∧ (wants acc.2 d x → wants (foldl step acc l).2 d x).
Proof using.
  induction l as [|row l IH]; intros acc d x; cbn; [done|].
  destruct (IH (step acc row) d x) as [H1 H2], (step_keeps acc row d x) as [K1 K2]. auto.
Qed.

(** A session that is not malformed asks for its project, its workspace, and the project
    of that. *)
Lemma session_wants l : ∀ acc row id d, row ∈ l → row_id t row = Some id → id ∉ malformed_sessions →
  sessions !! id = Some d →
  (∀ p, text_field t row $"project_id" = Some p → wants (foldl step acc l).1 d p) ∧
  ∀ w, text_field t row $"workspace_id" = Some w →
    wants (foldl step acc l).2 d w ∧ ∀ p, wp !! w = Some p → wants (foldl step acc l).1 d p.
Proof using.
  induction l as [|row' l IH]; intros acc row id d; [by intros ?%not_elem_of_nil|].
  cbn [foldl]. intros [->|Hin]%elem_of_cons Hid Hm Hd; [|by eapply IH]. clear IH.
  assert (Hstep : (∀ p, text_field t row' $"project_id" = Some p → wants (step acc row').1 d p) ∧
    ∀ w, text_field t row' $"workspace_id" = Some w →
      wants (step acc row').2 d w ∧ ∀ p, wp !! w = Some p → wants (step acc row').1 d p).
  { unfold session_needs. fold (row_id t row'). rewrite Hid, decide_False, Hd by done. split.
    - intros p ->. destruct (text_field t row' $"workspace_id") as [w|]; cbn [fst];
        [destruct (wp !! w)|]; rewrite ?wants_need; auto.
    - intros w ->. cbn [fst snd]. split; [rewrite wants_need; auto|]. intros p ->. rewrite wants_need. auto. }
  destruct Hstep as [H1 H2]. split.
  - intros p Hp. by apply steps_keep, H1.
  - intros w Hw. destruct (H2 w Hw) as [Hww Hwp]. split; [by apply steps_keep|].
    intros p Hp. by apply steps_keep, Hwp.
Qed.
End Needs.

Lemma directories_keep identify ds t l : ∀ m d x,
  wants m d x → wants (foldl (directory_needs identify ds t) m l) d x.
Proof.
  induction l as [|row l IH]; intros m d x Hm; cbn; [done|]. apply IH. unfold directory_needs.
  destruct (text_field t row $"project_id"), (directory_destination identify t row); try done.
  case_decide; [|done]. rewrite wants_need. auto.
Qed.

Lemma run_wants identify order tables rows q t mt r direct parents s0 row id d :
  run_of identify order tables rows q t mt r direct parents s0 →
  row ∈ rows_of rows $"session" → row_id t row = Some id → id ∉ rg_malformed_sessions r →
  rg_sessions r !! id = Some d →
  (∀ p, text_field t row $"project_id" = Some p → wants (rg_destination_projects r) d p) ∧
  ∀ w, text_field t row $"workspace_id" = Some w →
    wants (rg_destination_workspaces r) d w ∧
    ∀ p, over tables rows $"workspace" workspace_project ∅ !! w = Some p →
      wants (rg_destination_projects r) d p.
Proof.
  intros run Hrow Hid Hm Hd. pose proof (ro_needs _ _ _ _ _ _ _ _ _ _ _ run) as Hn.
  destruct (session_wants (rg_sessions r) (rg_malformed_sessions r)
    (over tables rows $"workspace" workspace_project ∅) t (rows_of rows $"session") (∅, ∅) row id d
    Hrow Hid Hm Hd) as [H1 H2].
  destruct (foldl _ _ _) as [p w]. injection Hn as -> ->.
  assert (Hk : ∀ x, wants p d x → wants (over tables rows $"project_directory"
    (directory_needs identify (map_img (rg_sessions r))) p) d x).
  { intros x Hx. unfold over. destruct (find_table _ _); [|done]. by apply directories_keep. }
  split; [intros x Hx; by apply Hk, H1|]. intros x Hx. destruct (H2 x Hx) as [Hw Hp]. split; [done|].
  intros y Hy. by apply Hk, Hp.
Qed.

(** What a session refers to is there.  Wherever a session that was not taken out goes, the
    row of its project, the row of its workspace, and the row of the project its workspace
    names go too: what is selected for a destination leaves none of these references
    dangling. *)
Theorem ancestors_travel_too identify order tables rows q r t tp tw row id d :
  route_sessions identify order tables rows q = inr r → NoDup (map t_name tables) →
  find_table tables $"session" = Some t →
  tp ∈ tables → t_name tp = $"project" → t_copy_rows tp = true →
  tw ∈ tables → t_name tw = $"workspace" → t_copy_rows tw = true →
  row ∈ rows_of rows $"session" → row_id t row = Some id → id ∉ rg_malformed_sessions r →
  rg_sessions r !! id = Some d →
  let chosen := select_rows identify d tables rows r in
  (∀ prow p, prow ∈ rows_of rows $"project" → text_field tp prow $"id" = Some p →
     text_field t row $"project_id" = Some p → prow ∈ rows_of chosen $"project") ∧
  ∀ wrow w, wrow ∈ rows_of rows $"workspace" → text_field tw wrow $"id" = Some w →
    text_field t row $"workspace_id" = Some w →
    wrow ∈ rows_of chosen $"workspace" ∧
    ∀ prow p, prow ∈ rows_of rows $"project" → text_field tp prow $"id" = Some p →
      over tables rows $"workspace" workspace_project ∅ !! w = Some p → prow ∈ rows_of chosen $"project".
Proof.
  intros Hroute Hnames Ht Htp Etp Ctp Htw Etw Ctw Hrow Hid Hm Hd. cbn zeta.
  apply route_run in Hroute as (t' & mt & direct & parents & s0 & run).
  assert (t' = t) as -> by (pose proof (ro_session _ _ _ _ _ _ _ _ _ _ _ run); congruence).
  destruct (run_wants _ _ _ _ _ _ _ _ _ _ _ row id d run Hrow Hid Hm Hd) as [H1 H2].
  assert (Hp : ∀ prow p, prow ∈ rows_of rows $"project" → text_field tp prow $"id" = Some p →
    wants (rg_destination_projects r) d p → prow ∈ rows_of (select_rows identify d tables rows r) $"project").
  { intros prow p Hin Hpid Hw. rewrite <-Etp, select_rows_lookup by done. unfold select_table.
    rewrite Ctp, elem_of_filter_bool, Etp. split; [|done]. unfold selects. rewrite Etp.
    change (listed SCHEMA_TABLES $"project") with false. change (str_eqb $"project" $"project") with true.
    cbn iota. apply needed_wants. eauto. }
  split; [intros prow p Hin Hpid Hpp; eapply Hp; eauto|].
  intros wrow w Hin Hwid Hww. destruct (H2 w Hww) as [Hw Hwp]. split.
  - rewrite <-Etw, select_rows_lookup by done. unfold select_table.
    rewrite Ctw, elem_of_filter_bool, Etw. split; [|done]. unfold selects. rewrite Etw.
    change (listed SCHEMA_TABLES $"workspace") with false. change (str_eqb $"workspace" $"project") with false.
    change (str_eqb $"workspace" $"workspace") with true. cbn iota. apply needed_wants. eauto.
  - intros prow p Hin' Hpid Hwpp. eapply Hp; eauto.
Qed.

(** ** Examples *)

Module Examples.
Local Ltac decided :=
  match goal with |- ?P => refine (bool_decide_unpack P _); vm_compute; exact I end.

(** A database: a session of a project, one below it, one of nowhere, one with a foreign
    id, and one below that. *)
Definition a_table (name : str) (columns : list str) : Table :=
  mkTable name [] columns [0%nat] [] [] false false [] true true.
Definition session_table := a_table $"session"
  [ $"id"; $"parent_id"; $"directory"; $"project_id"; $"workspace_id"].
Definition message_table := a_table $"message" [ $"id"; $"session_id"].
Definition part_table := a_table $"part" [ $"id"; $"message_id"].
Definition project_table := a_table $"project" [ $"id"; $"worktree"].
Definition workspace_table := a_table $"workspace" [ $"id"; $"project_id"].
Definition a_schema : list Table :=
  [session_table; message_table; part_table; project_table; workspace_table].
Definition a_row (l : list str) : Row :=
  mkRow (map (λ s, match s with [] => Null | _ => Text s end) l).
Definition one := a_row [ $"ses_1"; []; $"/w/a"; $"p1"; $"w1"].
Definition two := a_row [ $"ses_2"; $"ses_1"; []; []; []].
Definition three := a_row [ $"ses_3"; []; []; []; []].
Definition foreign := a_row [ $"old"; []; $"/w/a"; []; []].
Definition below := a_row [ $"ses_4"; $"old"; $"/w/a"; []; []].
Definition part_two := a_row [ $"prt_1"; $"msg_1"].
Definition a_project := a_row [ $"p1"; $"/w/a"].
Definition a_workspace := a_row [ $"w1"; $"p1"].
Definition a_database : gmap str (list Row) :=
  <[ $"session" := [one; two; three; foreign; below]]>
  (<[ $"message" := [a_row [ $"msg_1"; $"ses_2"]]]> (<[ $"part" := [part_two]]>
  (<[ $"project" := [a_project]]> (<[ $"workspace" := [a_workspace]]> ∅)))).
Definition an_identify (path : str) : option str :=
  if str_eqb path $"/w/a" then Some $"a-1" else None.
Definition an_order (m : gmap str str) (_ : nat) : list (str * str) := map_to_list m.
Definition a_routing : Routing :=
  match route_sessions an_identify an_order a_schema a_database true with
  | inr r => r
  | inl _ => mkRouting ∅ ∅ ∅ ∅ ∅ ∅ ∅ ∅ ∅
  end.

Lemma a_route : route_sessions an_identify an_order a_schema a_database true = inr a_routing.
Proof. vm_compute. reflexivity. Qed.
Lemma an_order_walks m k : an_order m k ≡ₚ map_to_list m.
Proof. done. Qed.
Lemma a_names : NoDup (map t_name a_schema).
Proof. decided. Qed.
Lemma session_ids : NoDup (ids session_table (rows_of a_database $"session")).
Proof. decided. Qed.
Lemma message_ids : NoDup (ids message_table (rows_of a_database $"message")).
Proof. decided. Qed.

Lemma session_destination_witness :
  rg_sessions a_routing !! $"ses_2" = Some $"a-1" ∧ rg_sessions a_routing !! $"ses_3" = Some legacy_global ∧
  leads an_identify a_schema a_database session_table $"ses_2" $"a-1" ∧
  malformed_session an_identify a_schema a_database session_table $"ses_4".
Proof.
  destruct (session_destination an_identify an_order a_schema a_database true a_routing session_table
    an_order_walks ltac:(vm_compute; reflexivity) session_ids a_route) as [Hm Hd].
  assert (H2 : rg_sessions a_routing !! $"ses_2" = Some $"a-1") by (vm_compute; reflexivity).
  split; [exact H2|]. split; [vm_compute; reflexivity|]. split.
  - apply Hd in H2 as [_ H2]. rewrite decide_False in H2.
    + destruct H2 as [H2|[_ H2]]; [exact H2|by vm_compute in H2].
    + decided.
  - apply Hm. decided.
Defined.

Lemma session_travels_whole_witness :
  part_two ∈ rows_of (select_rows an_identify $"a-1" a_schema a_database a_routing) $"part" ∧
  $"a-1" ∈ rg_destinations a_routing.
Proof.
  destruct (session_travels_whole an_identify an_order a_schema a_database true a_routing session_table
    message_table part_table part_two $"ses_2" $"a-1" an_order_walks ltac:(vm_compute; reflexivity)
    session_ids ltac:(vm_compute; reflexivity) message_ids a_names) as [Hin Hdest].
  - right. right. left.
  - split; [reflexivity|]. split; [reflexivity|]. repeat (apply Forall_cons; split; [reflexivity|]). constructor.
  - apply a_route.
  - by left.
  - unfold belongs. cbn. exists (a_row [ $"msg_1"; $"ses_2"]). split; [by left|]. by split.
  - decided.
  - split; [|apply Hdest; vm_compute; reflexivity]. apply Hin. split; [|vm_compute; reflexivity].
    decided.
Defined.

Lemma ancestors_travel_too_witness :
  a_workspace ∈ rows_of (select_rows an_identify $"a-1" a_schema a_database a_routing) $"workspace" ∧
  a_project ∈ rows_of (select_rows an_identify $"a-1" a_schema a_database a_routing) $"project".
Proof.
  destruct (ancestors_travel_too an_identify an_order a_schema a_database true a_routing session_table
    project_table workspace_table one $"ses_1" $"a-1" a_route a_names) as [_ H];
    [first [decided|vm_compute; reflexivity|do 3 right; left|do 4 right; left]..|].
  destruct (H a_workspace $"w1") as [Hw Hp]; [by left|reflexivity..|].
  split; [exact Hw|]. apply (Hp a_project $"p1"); [by left|reflexivity|vm_compute; reflexivity].
Defined.

(** A session with a foreign id and no destination of its own escapes quarantine: it goes to
    the archive as a well-formed one. *)
Definition stray := a_row [ $"old"; []; []; []; []].
Definition stray_database : gmap str (list Row) := <[ $"session" := [one; stray]]> a_database.

Lemma stray_escapes_quarantine :
  match route_sessions an_identify an_order a_schema stray_database true with
  | inr r => rg_malformed_sessions r = ∅ ∧
             stray ∈ rows_of (select_rows an_identify legacy_global a_schema stray_database r) $"session"
  | inl _ => False
  end.
Proof. vm_compute. split; [reflexivity|left]. Qed.
End Examples.
