(* ===== verification/OcEvents.v ===== *)
(** * Event histories: [crates/rtrt-cli/src/opencode_sessions.rs]

    OpenCode keeps the events of each aggregate numbered from zero, with the last number
    in a table of its own.  This file checks a database's histories
    ([validate_event_graph]) and groups its events ([event_histories]).  [EventSafety]
    shows what the check establishes: every history is complete and in order. *)
From stdpp Require Import gmap sets.
From S2P Require Import Prelude Str Utf8.
From S2P Require Import Wire OcRows.

(** ** Checking *)

Definition malformed_history (label : str) : str := $"malformed event history in " ++ label.

(** The first loop: the last number of each aggregate. *)
Fixpoint high_waters (t : Table) (label : str) (l : list Row) (acc : gmap str Z) : str + gmap str Z :=
  match l with
  | [] => inr acc
  | row :: rest =>
      aggregate ← required_text t row $"aggregate_id" label;
      seq ← required_integer t row $"seq" label;
      if (seq <? 0)%Z || bool_decide (is_Some (acc !! aggregate))
      then bail (malformed_history label)
      else high_waters t label rest (<[aggregate := seq]> acc)
  end.

(** The second loop: distinct ids, and distinct positions below the last number. *)
Fixpoint event_positions (t : Table) (label : str) (waters : gmap str Z) (l : list Row)
    (ids : gset str) (positions : gset (str * Z)) : str + gset (str * Z) :=
  match l with
  | [] => inr positions
  | row :: rest =>
      id ← required_text t row $"id" label;
      aggregate ← required_text t row $"aggregate_id" label;
      seq ← required_integer t row $"seq" label;
      required_text t row $"type" label ≫= λ _,
      required_text t row $"data" label ≫= λ _,
      if bool_decide (id ∈ ids) || bool_decide ((aggregate, seq) ∈ positions)
         || match waters !! aggregate with
            | None => true
            | Some high_water => (seq <? 0)%Z || (high_water <? seq)%Z
            end
      then bail (malformed_history label)
      else event_positions t label waters rest ({[id]} ∪ ids) ({[(aggregate, seq)]} ∪ positions)
  end.

(** The third loop: no number is missing. *)
Definition complete_to (positions : gset (str * Z)) (aggregate : str) (high_water : Z) : bool :=
  forallb (λ seq, bool_decide ((aggregate, seq) ∈ positions)) (seqZ 0 (high_water + 1)).

Definition validate_event_graph (tables : list Table) (rows : RowsByTable) (label : str) : str + () :=
  match find_table tables $"event_sequence" with
  | None => inr ()
  | Some sequence_table =>
      event_table ← context_option $"event table missing" (find_table tables $"event");
      waters ← high_waters sequence_table label (rows_of rows $"event_sequence") ∅;
      positions ← event_positions event_table label waters (rows_of rows $"event") ∅ ∅;
      if existsb (λ w, negb (complete_to positions w.1 w.2)) (map_to_list waters)
      then bail (malformed_history label)
      else inr ()
  end.

(** ** Histories *)

Record EventHistory := mkHistory {
  eh_sequence : Row;
  eh_events : list Row;
}.

Fixpoint sequence_histories (t : Table) (l : list Row) (acc : gmap str EventHistory) :
    str + gmap str EventHistory :=
  match l with
  | [] => inr acc
  | row :: rest =>
      aggregate ← required_text t row $"aggregate_id" $"OpenCode event sequence";
      sequence_histories t rest (<[aggregate := mkHistory row []]> acc)
  end.

Definition push_event (row : Row) (h : EventHistory) : EventHistory :=
  mkHistory (eh_sequence h) (eh_events h ++ [row]).

Fixpoint push_events (t : Table) (l : list Row) (acc : gmap str EventHistory) :
    str + gmap str EventHistory :=
  match l with
  | [] => inr acc
  | row :: rest =>
      aggregate ← required_text t row $"aggregate_id" $"OpenCode event";
      if bool_decide (is_Some (acc !! aggregate))
      then push_events t rest (alter (push_event row) aggregate acc)
      else bail $"event lacks sequence row"
  end.

Definition seq_key (i : nat) (row : Row) : Z :=
  match values row !! i with Some (Integer seq) => seq | _ => (- 2 ^ 63)%Z end.

Definition in_order (i : nat) (h : EventHistory) : EventHistory :=
  mkHistory (eh_sequence h) (sort_by (λ a b, (seq_key i a ?= seq_key i b)%Z) (eh_events h)).

Definition event_histories (sequence_table event_table : Table) (rows : RowsByTable) :
    str + gmap str EventHistory :=
  sequences ← sequence_histories sequence_table (rows_of rows $"event_sequence") ∅;
  pushed ← push_events event_table (rows_of rows $"event") sequences;
  seq_index ← field_index event_table $"seq";
  inr (in_order seq_index <$> (pushed : gmap str EventHistory)).

(** ** Forks *)

(** The key of a fork: FNV-1a over the keys of its rows. *)
Definition fnv_step (hash byte : N) : N := (N.lxor hash byte * 1099511628211) mod 2 ^ 64.
Definition fnv (bytes : list N) : N := foldl fnv_step 14695981039346656037 bytes.

(** [{:016x}]. *)
Definition hex_nibble (d : N) : char := if d <? 10 then 48 + d else 87 + d.
Fixpoint hex16 (n : nat) (x : N) (acc : str) : str :=
  match n with
  | O => acc
  | S n' => hex16 n' (x / 16) (hex_nibble (x mod 16) :: acc)
  end.

Definition history_key (h : EventHistory) : list N :=
  foldl (λ key event, key ++ row_key event) (row_key (eh_sequence h)) (eh_events h).
Definition fork_id (h : EventHistory) : str := $"v1-" ++ hex16 16 (fnv (history_key h)) [].
