(* ===== verification/OcSchema.v ===== *)
(** * OpenCode schemas: [crates/rtrt-cli/src/opencode_sessions.rs], schema

    What the migration knows of a database's schema: the signature of an SQL text, the
    tables and indexes [probe_schema] finds, and which of them are copied.
    [SchemaSafety] shows what signatures tell apart and that no secret table is
    copied. *)
From stdpp Require Import gmap sets.
From S2P Require Import Prelude Str.
From S2P Require Import Wire OcRows.

Definition MAX_TABLES : nat := 128.
Definition MAX_COLUMNS : nat := 128.
Definition MAX_SCHEMA_OBJECTS : nat := MAX_TABLES * 4.
Definition MAX_SCHEMA_SQL_BYTES : N := 64 * 1024.
Definition MAX_SCHEMA_TOTAL_BYTES : N := 4 * 1024 * 1024.

Definition over_limit : str := $"OpenCode schema object exceeds bounded SQL limit".

(** ** Signatures *)

Section Signature.
(** [char::is_alphanumeric]. *)
Context (alphanumeric : char → bool).

Definition append_schema_token (signature : str) (kind : char) (token : str) : str :=
  signature ++ [kind] ++ show_N (str_len token) ++ [58] ++ token.

(** What follows [--]. *)
Fixpoint line_comment (s : str) : str :=
  match s with
  | [] => []
  | c :: rest => if (c =? ch_nl) || (c =? ch_cr) then rest else line_comment rest
  end.

(** What follows the end of a [/*] comment. *)
Fixpoint block_comment (s : str) : option str :=
  match s with
  | [] => None
  | c :: rest =>
      match rest with
      | next :: rest' => if (c =? 42) && (next =? ch_slash) then Some rest' else block_comment rest
      | [] => None
      end
  end.

(** A quoted text up to [close]; doubled, the quote stands for itself, except in brackets. *)
Fixpoint quoted_text (doubling : bool) (close : char) (s quoted : str) : option (str * str) :=
  match s with
  | [] => None
  | value :: rest =>
      if value =? close then
        match rest with
        | next :: rest' =>
            if doubling && (next =? close) then quoted_text doubling close rest' (quoted ++ [close])
            else Some (quoted, rest)
        | [] => Some (quoted, rest)
        end
      else quoted_text doubling close rest (quoted ++ [value])
  end.

Definition word_char (c : char) : bool := alphanumeric c || (c =? 95) || (c =? 36).

Fixpoint word_rest (s token : str) : str * str :=
  match s with
  | c :: rest => if word_char c then word_rest rest (token ++ [ascii_lower c]) else (token, s)
  | [] => (token, [])
  end.

(** One turn of the loop, after its first character. *)
Inductive Lexed := Skipped (rest : str) | Token (kind : char) (token rest : str) | Malformed (what : str).

Definition quote_chars : list char := [39; 34; 96; 91].
Definition second (c : char) (rest : str) : bool :=
  match rest with next :: _ => next =? c | [] => false end.

Definition lex_one (character : char) (rest : str) : Lexed :=
  if is_whitespace character then Skipped rest
  else if (character =? 45) && second 45 rest then Skipped (line_comment (tail rest))
  else if (character =? 47) && second 42 rest then
    match block_comment (tail rest) with
    | Some rest' => Skipped rest'
    | None => Malformed $"malformed OpenCode schema SQL comment"
    end
  else if existsb (N.eqb character) quote_chars then
    let close := if character =? 91 then 93 else character in
    match quoted_text (negb (character =? 91)) close rest [] with
    | None => Malformed $"malformed OpenCode schema SQL quote"
    | Some (quoted, rest') =>
        if character =? 39 then Token 115 quoted rest'
        else Token 113 (to_ascii_lowercase quoted) rest'
    end
  else
    let token := [ascii_lower character] in
    if word_char character then let '(token, rest') := word_rest rest token in Token 116 token rest'
    else Token 116 token rest.

(** Every turn consumes a character. *)
Fixpoint signature_loop (fuel : nat) (characters signature : str) : str + str :=
  match fuel, characters with
  | _, [] => inr signature
  | O, _ => bail $"unreachable"
  | S fuel', character :: rest =>
      match lex_one character rest with
      | Skipped rest' => signature_loop fuel' rest' signature
      | Token kind token rest' => signature_loop fuel' rest' (append_schema_token signature kind token)
      | Malformed what => bail what
      end
  end.

Definition schema_sql_signature (sql : str) : str + str :=
  if MAX_SCHEMA_SQL_BYTES <? str_len sql then bail over_limit
  else signature_loop (length sql) sql [].

(** ** The catalog *)

Record SchemaObject := mkSchemaObject {
  so_type : str;
  so_name : str;
  so_tbl_name : str;
  so_sql : option str;
}.

(** A row of [PRAGMA table_xinfo]. *)
Record ColumnInfo := mkColumnInfo {
  ci_name : str;
  ci_type : str;
  ci_notnull : Z;
  ci_default : option str;
  ci_pk : Z;
  ci_hidden : Z;
}.

(** A row of [PRAGMA index_list] and one of [PRAGMA index_xinfo]. *)
Record IndexInfo := mkIndexInfo { ii_name : str; ii_unique : Z; ii_partial : Z }.
Record IndexColumnInfo := mkIndexColumnInfo {
  xc_cid : Z;
  xc_name : option str;
  xc_desc : Z;
  xc_collation : str;
  xc_key : Z;
}.

(** [sqlite_schema] and the pragmas of a database. *)
Record Catalog := mkCatalog {
  sqlite_schema : list SchemaObject;
  table_xinfo : str → list ColumnInfo;
  foreign_key_list : str → list ForeignKeySpec;
  table_list : str → option (Z * Z);
  index_list : str → list IndexInfo;
  index_xinfo : str → list IndexColumnInfo;
}.

(** [PRAGMA table_info] leaves out hidden columns. *)
Definition table_info (cat : Catalog) (table : str) : list ColumnInfo :=
  List.filter (λ c, (ci_hidden c =? 0)%Z) (table_xinfo cat table).

Record IndexColumnSpec := mkIndexColumnSpec {
  ix_cid : Z;
  ix_name : option str;
  ix_descending : bool;
  ix_collation : str;
  ix_key : bool;
}.
#[export] Instance IndexColumnSpec_eq_dec : EqDecision IndexColumnSpec.
Proof. solve_decision. Defined.

Record Index := mkIndex {
  i_name : str;
  i_table : str;
  i_sql : str;
  i_unique : bool;
  i_columns : list IndexColumnSpec;
  i_partial : bool;
  i_sql_signature : str;
}.

(** ** Reading the catalog *)

Definition table_columns (cat : Catalog) (table : str) : str + list str :=
  let columns := map ci_name (table_info cat table) in
  if (MAX_COLUMNS <? length columns)%nat || match columns with [] => true | _ => false end
  then bail ($"OpenCode table " ++ table ++ $" has invalid column count")
  else inr columns.

Definition table_primary_key (cat : Catalog) (table : str) (columns : list str) : str + list nat :=
  let keyed := List.filter (λ c, (0 <? ci_pk c)%Z) (table_info cat table) in
  mapM (λ c, context_option $"primary-key column missing" (position (λ column, str_eqb column (ci_name c)) columns))
    (sort_by (λ a b, (ci_pk a ?= ci_pk b)%Z) keyed).

Definition column_spec (c : ColumnInfo) : str + ColumnSpec :=
  ty ← schema_sql_signature (ci_type c);
  default ← match ci_default c with
            | Some d => signature ← schema_sql_signature d; inr (Some signature)
            | None => inr None
            end;
  inr (mkColumnSpec (to_ascii_lowercase (ci_name c)) ty (negb (ci_notnull c =? 0)%Z) default
         (ci_pk c) (ci_hidden c)).

Definition table_column_specs (cat : Catalog) (table : str) : str + list ColumnSpec :=
  mapM column_spec (table_xinfo cat table).

Definition table_options (cat : Catalog) (table : str) : str + (bool * bool) :=
  o ← context_option ($"OpenCode table " ++ table ++ $" lacks table metadata") (table_list cat table);
  inr (negb (o.1 =? 0)%Z, negb (o.2 =? 0)%Z).

Definition ascii_upper (c : char) : char := if (97 <=? c) && (c <=? 122) then c - 32 else c.
Definition to_ascii_uppercase (s : str) : str := map ascii_upper s.

Definition fold_case (k : ForeignKeySpec) : ForeignKeySpec :=
  mkForeignKeySpec (fk_id k) (fk_sequence k) (to_ascii_lowercase (fk_table k))
    (to_ascii_lowercase (fk_from k)) (to_ascii_lowercase <$> fk_to k)
    (to_ascii_uppercase (fk_on_update k)) (to_ascii_uppercase (fk_on_delete k))
    (to_ascii_uppercase (fk_match_clause k)).

(** The derived order of [ForeignKeySpec]. *)
Definition fk_cmp (a b : ForeignKeySpec) : Ordering :=
  (fk_id a ?= fk_id b)%Z .then (fk_sequence a ?= fk_sequence b)%Z .then
  str_cmp (fk_table a) (fk_table b) .then str_cmp (fk_from a) (fk_from b) .then
  option_cmp str_cmp (fk_to a) (fk_to b) .then str_cmp (fk_on_update a) (fk_on_update b) .then
  str_cmp (fk_on_delete a) (fk_on_delete b) .then str_cmp (fk_match_clause a) (fk_match_clause b).

Definition table_foreign_keys (cat : Catalog) (table : str) : list ForeignKeySpec :=
  sort_by fk_cmp (map fold_case (foreign_key_list cat table)).

Definition has_graph_foreign_key (cat : Catalog) (table : str) : bool :=
  existsb (λ k, listed [ $"project"; $"workspace"; $"session"; $"message"; $"part"; $"event_sequence"]
                  (fk_table k)) (foreign_key_list cat table).

Definition index_column (c : IndexColumnInfo) : IndexColumnSpec :=
  mkIndexColumnSpec (xc_cid c) (to_ascii_lowercase <$> xc_name c) (negb (xc_desc c =? 0)%Z)
    (to_ascii_lowercase (xc_collation c)) (negb (xc_key c =? 0)%Z).

Definition index_signature (cat : Catalog) (index table : str) :
    str + (bool * list IndexColumnSpec * bool) :=
  entry ← context_option ($"OpenCode index " ++ index ++ $" lacks metadata")
            (List.find (λ i, str_eqb (ii_name i) index) (index_list cat table));
  inr (negb (ii_unique entry =? 0)%Z, map index_column (index_xinfo cat index),
       negb (ii_partial entry =? 0)%Z).

(** [CASE WHEN length(CAST(sql AS BLOB)) <= ? THEN sql END]. *)
Definition bounded_sql (o : SchemaObject) : option str :=
  match so_sql o with
  | Some sql => if str_len sql <=? MAX_SCHEMA_SQL_BYTES then Some sql else None
  | None => None
  end.

Definition find_object (cat : Catalog) (kind name : str) : option SchemaObject :=
  List.find (λ o, str_eqb (so_type o) kind && str_eqb (so_name o) name) (sqlite_schema cat).

Definition no_rows : str := $"Query returned no rows".

Definition schema_object_sql (cat : Catalog) (kind name : str) : str + str :=
  o ← context_option no_rows (find_object cat kind name);
  context_option over_limit (bounded_sql o).

(** ** [probe_schema] *)

(** [name LIKE 'sqlite_%']. *)
Definition like_sqlite (name : str) : bool :=
  starts_with (to_ascii_lowercase name) $"sqlite" && (6 <? length name)%nat.

Definition by_name (l : list SchemaObject) : list SchemaObject :=
  sort_by (λ a b, str_cmp (so_name a) (so_name b)) l.

Definition with_sql (o : SchemaObject) : str + (SchemaObject * str) :=
  sql ← context_option over_limit (bounded_sql o); inr (o, sql).

(** [try_fold(checked_add)]. *)
Definition sum_lengths (total : N) (l : list (SchemaObject * str)) : str + N :=
  foldl (λ acc e, acc ≫= λ total,
    if u64_max <? total + str_len e.2 then bail $"OpenCode schema size overflow"
    else inr (total + str_len e.2)) (inr total) l.

Definition dependent_column (name : str) : bool :=
  listed [ $"project_id"; $"workspace_id"; $"session_id"; $"message_id"; $"parent_id"; $"aggregate_id"] name.

Definition probe_table (cat : Catalog) (entry : SchemaObject * str) : str + Table :=
  let name := so_name entry.1 in
  columns ← table_columns cat name;
  let dependent := existsb dependent_column columns || has_graph_foreign_key cat name in
  let known_sensitive := listed SENSITIVE_TABLES name in
  let known_graph := listed GRAPH_TABLES name in
  let known_schema := listed SCHEMA_TABLES name in
  if dependent && negb known_graph && negb known_sensitive
  then bail ($"unknown OpenCode graph-dependent table: " ++ name)
  else
    primary_key ← table_primary_key cat name columns;
    column_specs ← table_column_specs cat name;
    options ← table_options cat name;
    sql_signature ← schema_sql_signature entry.2;
    inr (mkTable name entry.2 columns primary_key column_specs (table_foreign_keys cat name)
           options.1 options.2 sql_signature true (known_graph || known_schema)).

Definition probe_index (cat : Catalog) (entry : SchemaObject * str) : str + Index :=
  s ← index_signature cat (so_name entry.1) (so_tbl_name entry.1);
  sql_signature ← schema_sql_signature entry.2;
  inr (mkIndex (so_name entry.1) (so_tbl_name entry.1) entry.2 s.1.1 s.1.2 s.2 sql_signature).

Definition table_entries (cat : Catalog) : list SchemaObject :=
  take (S MAX_TABLES) (by_name (List.filter
    (λ o, str_eqb (so_type o) $"table" && negb (like_sqlite (so_name o))) (sqlite_schema cat))).

Definition index_entries (cat : Catalog) : list SchemaObject :=
  take (S MAX_SCHEMA_OBJECTS) (by_name (List.filter
    (λ o, str_eqb (so_type o) $"index" && match so_sql o with Some _ => true | None => false end)
    (sqlite_schema cat))).

(** [type IN ('trigger','view') ORDER BY type, name LIMIT 1]. *)
Definition unsupported_object (cat : Catalog) : option SchemaObject :=
  head (sort_by (λ a b, str_cmp (so_type a) (so_type b) .then str_cmp (so_name a) (so_name b))
    (List.filter (λ o, listed [ $"trigger"; $"view"] (so_type o)) (sqlite_schema cat))).

Definition missing_runtime (tables : list Table) : option str :=
  List.find (λ required, negb (existsb (λ t, str_eqb (t_name t) required) tables))
    [ $"session"; $"message"; $"part"].

Definition probe_tables (cat : Catalog) : str + (list Table * N) :=
  entries ← mapM with_sql (table_entries cat);
  if (MAX_TABLES <? length entries)%nat then bail $"OpenCode schema exceeds bounded table limit"
  else
    schema_bytes ← sum_lengths 0 entries;
    if MAX_SCHEMA_TOTAL_BYTES <? schema_bytes then bail $"OpenCode schema exceeds bounded SQL limit"
    else tables ← mapM (probe_table cat) entries; inr (tables, schema_bytes).

Definition probe_indexes (cat : Catalog) (tables : list Table) (schema_bytes : N) : str + list Index :=
  entries ← mapM with_sql
    (List.filter (λ o, listed (map t_name tables) (so_tbl_name o)) (index_entries cat));
  if (MAX_SCHEMA_OBJECTS <? length entries)%nat then bail $"OpenCode schema exceeds bounded object limit"
  else
    schema_bytes ← sum_lengths schema_bytes entries;
    if MAX_SCHEMA_TOTAL_BYTES <? schema_bytes then bail $"OpenCode schema exceeds bounded SQL limit"
    else mapM (probe_index cat) entries.

Definition probe_schema (cat : Catalog) (require_runtime : bool) : str + (list Table * list Index) :=
  match unsupported_object cat with
  | Some o => bail ($"unsupported OpenCode schema object type: " ++ so_type o)
  | None =>
      probed ← probe_tables cat;
      match (if require_runtime then missing_runtime probed.1 else None) with
      | Some required => bail ($"unsupported OpenCode schema: missing " ++ required ++ $" table")
      | None =>
          indexes ← probe_indexes cat probed.1 probed.2;
          if (MAX_SCHEMA_OBJECTS <? length probed.1 + length indexes)%nat
          then bail $"OpenCode schema exceeds bounded object limit"
          else inr (probed.1, indexes)
      end
  end.

(** ** [validate_event_schema] *)

Definition unsupported_event (what : str) : str := $"unsupported OpenCode event " ++ what.

Definition event_foreign_key (k : ForeignKeySpec) : str + (str * str * str * str) :=
  to ← context_option $"Invalid column type" (fk_to k);
  inr (fk_table k, fk_from k, to, fk_on_delete k).

(** [PRAGMA index_info]: the key columns. *)
Definition index_info (cat : Catalog) (index : str) : str + list str :=
  mapM (λ c, context_option $"Invalid column type" (xc_name c))
    (List.filter (λ c, negb (xc_key c =? 0)%Z) (index_xinfo cat index)).

(** The two flags of the last loop. *)
Definition event_index (cat : Catalog) (found : str + (bool * bool)) (i : IndexInfo) : str + (bool * bool) :=
  flags ← found;
  columns ← index_info cat (ii_name i);
  inr (flags.1 || (ii_unique i =? 1)%Z && bool_decide (columns = [ $"aggregate_id"; $"seq"]),
       flags.2 || (ii_unique i =? 0)%Z && bool_decide (columns = [ $"aggregate_id"; $"type"; $"seq"])).

Definition event_columns_ok (cat : Catalog) : bool :=
  let sequence_specs := table_info cat $"event_sequence" in
  let event_specs := table_info cat $"event" in
  bool_decide (map ci_type sequence_specs = [ $"TEXT"; $"INTEGER"; $"TEXT"]) &&
  match nth_error sequence_specs 1 with Some c => (ci_notnull c =? 1)%Z | None => false end &&
  bool_decide (map ci_type event_specs = [ $"TEXT"; $"TEXT"; $"INTEGER"; $"TEXT"; $"TEXT"]) &&
  forallb (λ c, (ci_notnull c =? 1)%Z) (tail event_specs).

Definition validate_event_schema (cat : Catalog) (tables : list Table) (require_indexes : bool) : str + () :=
  match find_table tables $"event_sequence", find_table tables $"event" with
  | None, None => inr ()
  | Some sequence, Some event =>
      if negb (bool_decide (t_columns sequence = [ $"aggregate_id"; $"seq"; $"owner_id"]))
         || negb (bool_decide (t_primary_key sequence = [0%nat]))
         || negb (bool_decide (t_columns event = [ $"id"; $"aggregate_id"; $"seq"; $"type"; $"data"]))
         || negb (bool_decide (t_primary_key event = [0%nat]))
      then bail $"unsupported OpenCode event schema"
      else if negb (event_columns_ok cat) then bail (unsupported_event $"column definitions")
      else
        keys ← mapM event_foreign_key (foreign_key_list cat $"event");
        if negb (bool_decide (keys = [($"event_sequence", $"aggregate_id", $"aggregate_id", $"CASCADE")]))
        then bail (unsupported_event $"foreign key")
        else
          flags ← foldl (event_index cat) (inr (false, false)) (index_list cat $"event");
          if require_indexes && (negb flags.1 || negb flags.2)
          then bail (unsupported_event $"indexes")
          else inr ()
  | _, _ => bail $"unsupported OpenCode event schema: event tables must be paired"
  end.

(** ** A destination's schema against the source's *)

(** The source's table as a destination has it. *)
Definition same_table (existing source : Table) : bool :=
  bool_decide (t_column_specs existing = t_column_specs source) &&
  bool_decide (t_foreign_keys existing = t_foreign_keys source) &&
  Bool.eqb (t_without_rowid existing) (t_without_rowid source) &&
  Bool.eqb (t_strict existing) (t_strict source) &&
  str_eqb (t_sql_signature existing) (t_sql_signature source).

Definition table_conflict (name : str) : str := $"destination schema conflict for table " ++ name.
Definition index_conflict (name : str) : str := $"destination schema conflict for index " ++ name.

Definition find_index_table (cat : Catalog) (index : str) : option str :=
  so_tbl_name <$> find_object cat $"index" index.

(** An index of the destination is the source's. *)
Definition check_index (cat : Catalog) (index : Index) (table : str) : str + () :=
  s ← index_signature cat (i_name index) table;
  sql ← schema_object_sql cat $"index" (i_name index);
  if negb (str_eqb table (i_table index)) || negb (Bool.eqb s.1.1 (i_unique index))
     || negb (bool_decide (s.1.2 = i_columns index)) || negb (Bool.eqb s.2 (i_partial index))
  then bail (index_conflict (i_name index))
  else
    signature ← schema_sql_signature sql;
    if str_eqb signature (i_sql_signature index) then inr () else bail (index_conflict (i_name index)).

Definition each {A : Type} (f : A → str + ()) (l : list A) : str + () :=
  foldl (λ acc x, acc ≫= λ _, f x) (inr ()) l.

Definition complete_table (tables : list Table) (source : Table) : str + () :=
  destination ← context_option ($"destination schema lacks table " ++ t_name source)
                  (find_table tables (t_name source));
  if same_table destination source then inr () else bail (table_conflict (t_name source)).

Definition complete_index (cat : Catalog) (source : Index) : str + () :=
  table ← context_option ($"destination schema lacks index " ++ i_name source)
            (find_index_table cat (i_name source));
  check_index cat source table.

Definition validate_complete_destination (cat : Catalog) (source_tables : list Table)
    (source_indexes : list Index) : str + () :=
  destination ← probe_schema cat false;
  each (complete_table destination.1) source_tables ≫= λ _,
  each (complete_index cat) source_indexes.
End Signature.
