(* ===== verification/SchemaSafety.v ===== *)
(** * What the schema checks establish

    Properties of [OcSchema]: a signature is a faithful encoding of the tokens of an SQL
    text, and only known tables, never secret ones, are copied. *)
From stdpp Require Import gmap sets.
From S2P Require Import Prelude Str.
From S2P Require Import Wire OcRows OcRoute OcSchema.

(** ** The tokens of an SQL text *)

Section Tokens.
Context (alphanumeric : char → bool).
Abbreviation word := (word_char alphanumeric).

Definition eol (c : char) : bool := (c =? ch_nl) || (c =? ch_cr).
Definition doubled (q : char) (content : str) : str :=
  flat_map (λ c, if c =? q then [q; q] else [c]) content.

(** A character that starts neither space, comment nor quote. *)
Definition plain (c : char) (s : str) : Prop :=
  is_whitespace c = false ∧ (c =? 45) && second 45 s = false ∧ (c =? 47) && second 42 s = false ∧
  existsb (N.eqb c) quote_chars = false.

(** The tokens of a text: strings as they are, quoted names and words in lower case, other
    characters one by one; space and comments are left out. *)
Inductive Lexes : str → list (char * str) → Prop :=
| lexes_end : Lexes [] []
| lexes_space c s ts : is_whitespace c = true → Lexes s ts → Lexes (c :: s) ts
| lexes_line body e s ts : Forall (λ c, eol c = false) body → eol e = true → Lexes s ts →
    Lexes (45 :: 45 :: body ++ e :: s) ts
| lexes_last_line body : Forall (λ c, eol c = false) body → Lexes (45 :: 45 :: body) []
| lexes_block body s ts : (∀ a b, body ≠ a ++ 42 :: 47 :: b) → Lexes s ts →
    Lexes (47 :: 42 :: body ++ 42 :: 47 :: s) ts
| lexes_string content s ts : head s ≠ Some 39 → Lexes s ts →
    Lexes (39 :: doubled 39 content ++ 39 :: s) ((115, content) :: ts)
| lexes_name q content s ts : q = 34 ∨ q = 96 → head s ≠ Some q → Lexes s ts →
    Lexes (q :: doubled q content ++ q :: s) ((113, to_ascii_lowercase content) :: ts)
| lexes_bracket content s ts : 93 ∉ content → Lexes s ts →
    Lexes (91 :: content ++ 93 :: s) ((113, to_ascii_lowercase content) :: ts)
| lexes_word c w s ts : plain c (w ++ s) → word c = true → Forall (λ x, word x = true) w →
    match s with x :: _ => word x = false | [] => True end → Lexes s ts →
    Lexes (c :: w ++ s) ((116, to_ascii_lowercase (c :: w)) :: ts)
| lexes_symbol c s ts : plain c s → word c = false → Lexes s ts →
    Lexes (c :: s) ((116, [ascii_lower c]) :: ts).

(** *** The scanners *)

Lemma line_comment_cons c s : line_comment (c :: s) = if eol c then s else line_comment s.
Proof using. done. Qed.

Lemma line_comment_app body e s : Forall (λ c, eol c = false) body → eol e = true →
  line_comment (body ++ e :: s) = s.
Proof using.
  intros Hb He. induction Hb as [|c body Hc _ IH]; cbn [app]; rewrite line_comment_cons, ?He, ?Hc; done.
Qed.

Lemma line_comment_end body : Forall (λ c, eol c = false) body → line_comment body = [].
Proof using. induction 1 as [|c body Hc _ IH]; [done|by rewrite line_comment_cons, Hc]. Qed.

Lemma line_comment_split s :
  (Forall (λ c, eol c = false) s ∧ line_comment s = []) ∨
  ∃ body e, Forall (λ c, eol c = false) body ∧ eol e = true ∧ s = body ++ e :: line_comment s.
Proof using.
  induction s as [|c s IH]; [by left|]. rewrite line_comment_cons. destruct (eol c) eqn:Hc.
  - right. by exists [], c.
  - destruct IH as [[Hs E]|(body & e & Hb & He & E)].
    + left. split; [by constructor|done].
    + right. exists (c :: body), e. split; [by constructor|]. split; [done|]. cbn. by f_equal.
Qed.

Lemma block_comment_spec s r : block_comment s = Some r ↔
  ∃ body, (∀ a b, body ≠ a ++ 42 :: 47 :: b) ∧ s = body ++ 42 :: 47 :: r.
Proof using.
  revert r. induction s as [|c s IH]; intros r.
  { split; [done|]. intros ([|??] & _ & ?); done. }
  assert (Hfirst : (∃ n s', s = n :: s' ∧ c = 42 ∧ n = 47) ∨
    (match s with n :: _ => (c =? 42) && (n =? ch_slash) | [] => false end = false)).
  { destruct s as [|n s']; [by right|]. destruct ((c =? 42) && (n =? ch_slash)) eqn:E; [|by right].
    apply andb_true_iff in E as [->%N.eqb_eq ->%N.eqb_eq]. left. by exists ch_slash, s'. }
  destruct Hfirst as [(n & s' & -> & -> & ->)|Hno].
  - cbn. split.
    + intros [= <-]. exists []. split; [|done]. by intros [|??] ?.
    + intros ([|x body] & Hb & E); [by injection E as <-|].
      injection E as <- E. destruct body as [|y body].
      * by injection E.
      * injection E as <- _. by destruct (Hb [] body).
  - assert (E : block_comment (c :: s) = block_comment s).
    { cbn. destruct s as [|n s']; [done|]. by rewrite Hno. }
    rewrite E, IH. split.
    + intros (body & Hb & ->). exists (c :: body). split; [|done].
      intros [|x a] b Ec; injection Ec as -> Ec; [|by eapply Hb]. rewrite Ec in Hno. cbn in Hno. done.
    + intros ([|x body] & Hb & Ec); injection Ec as -> ->; [done|].
      exists body. split; [|done]. intros a b ->. by eapply (Hb (x :: a)).
Qed.

Lemma quoted_text_doubled q content : ∀ s acc, head s ≠ Some q →
  quoted_text true q (doubled q content ++ q :: s) acc = Some (acc ++ content, s).
Proof using.
  induction content as [|c content IH]; intros s acc Hs; cbn [doubled flat_map app].
  - cbn [quoted_text]. rewrite N.eqb_refl, app_nil_r. destruct s as [|n s']; [done|].
    cbn. destruct (N.eqb_spec n q) as [->|]; [done|done].
  - fold (doubled q content). destruct (N.eqb_spec c q) as [->|Hne]; cbn [app quoted_text].
    + rewrite N.eqb_refl. cbn. rewrite IH by done. by rewrite <-app_assoc.
    + apply N.eqb_neq in Hne. rewrite Hne, IH by done. by rewrite <-app_assoc.
Qed.

Lemma quoted_text_split q : ∀ n s acc x r, (length s ≤ n)%nat → quoted_text true q s acc = Some (x, r) →
  ∃ content, x = acc ++ content ∧ s = doubled q content ++ q :: r ∧ head r ≠ Some q.
Proof using.
  induction n as [|n IH]; intros [|c s] acc x r Hn; try done; [cbn in Hn; lia|].
  cbn [quoted_text]. destruct (N.eqb_spec c q) as [->|Hne].
  - destruct s as [|y s]; [|destruct (N.eqb_spec y q) as [->|Hne]]; cbn.
    + intros [= <- <-]. exists []. by rewrite app_nil_r.
    + intros (content & -> & -> & Hr)%IH; [|cbn in Hn; lia]. exists (q :: content).
      rewrite <-app_assoc. cbn. rewrite N.eqb_refl. done.
    + intros [= <- <-]. exists []. rewrite app_nil_r. split; [done|]. split; [done|]. cbn. congruence.
  - intros (content & -> & -> & Hr)%IH; [|cbn in Hn; lia]. exists (c :: content).
    rewrite <-app_assoc. cbn. apply N.eqb_neq in Hne. by rewrite Hne.
Qed.

Lemma bracket_text content : ∀ s acc, 93 ∉ content →
  quoted_text false 93 (content ++ 93 :: s) acc = Some (acc ++ content, s).
Proof using.
  induction content as [|c content IH]; intros s acc Hc; cbn.
  - rewrite app_nil_r. by destruct s.
  - apply not_elem_of_cons in Hc as [Hne Hc]. destruct (N.eqb_spec c 93) as [->|]; [done|].
    rewrite IH by done. by rewrite <-app_assoc.
Qed.

Lemma bracket_text_split : ∀ s acc x r, quoted_text false 93 s acc = Some (x, r) →
  ∃ content, x = acc ++ content ∧ s = content ++ 93 :: r ∧ 93 ∉ content.
Proof using.
  induction s as [|c s IH]; intros acc x r; [done|]. cbn. destruct (N.eqb_spec c 93) as [->|Hne].
  - intros H. assert (E : Some (acc, s) = Some (x, r)) by (by destruct s). injection E as -> ->.
    exists []. rewrite app_nil_r. split; [done|]. split; [done|apply not_elem_of_nil].
  - intros (content & -> & -> & Hc)%IH. exists (c :: content). rewrite <-app_assoc.
    split; [done|]. split; [done|]. apply not_elem_of_cons. done.
Qed.

Lemma word_rest_app w : ∀ s token, Forall (λ x, word x = true) w →
  match s with x :: _ => word x = false | [] => True end →
  word_rest alphanumeric (w ++ s) token = (token ++ to_ascii_lowercase w, s).
Proof using.
  induction w as [|c w IH]; intros s token Hw Hs; cbn.
  - rewrite app_nil_r. destruct s as [|x s]; cbn; [done|]. by rewrite Hs.
  - apply Forall_cons in Hw as [-> Hw]. rewrite IH by done. by rewrite <-app_assoc.
Qed.

Lemma word_rest_split s : ∀ token, ∃ w r, word_rest alphanumeric s token = (token ++ to_ascii_lowercase w, r) ∧
  s = w ++ r ∧ Forall (λ x, word x = true) w ∧ match r with x :: _ => word x = false | [] => True end.
Proof using.
  induction s as [|c s IH]; intros token; cbn.
  { exists [], []. by rewrite app_nil_r. }
  destruct (word c) eqn:Hc.
  - destruct (IH (token ++ [ascii_lower c])) as (w & r & -> & -> & Hw & Hr). exists (c :: w), r.
    rewrite <-app_assoc. split; [done|]. split; [done|]. split; [by constructor|done].
  - exists [], (c :: s). rewrite app_nil_r. done.
Qed.

(** *** One turn *)

Lemma lexes_nil ts : Lexes [] ts → ts = [].
Proof using. by inversion 1. Qed.

Definition consumed (c : char) (rest : str) (l : Lexed) : Prop :=
  match l with
  | Skipped r => (length r ≤ length rest)%nat ∧ ∀ ts, Lexes r ts → Lexes (c :: rest) ts
  | Token k t r => (length r ≤ length rest)%nat ∧ ∀ ts, Lexes r ts → Lexes (c :: rest) ((k, t) :: ts)
  | Malformed _ => True
  end.

Lemma length_line_comment s : (length (line_comment s) ≤ length s)%nat.
Proof using.
  induction s as [|c s IH]; [done|]. rewrite line_comment_cons. destruct (eol c); cbn; lia.
Qed.

Lemma line_comment_consumed rest : consumed 45 (45 :: rest) (Skipped (line_comment rest)).
Proof using.
  split; [pose proof (length_line_comment rest); cbn; lia|]. intros ts Hts.
  destruct (line_comment_split rest) as [[Hb E]|(body & e & Hb & He & E)].
  - rewrite E in Hts. apply lexes_nil in Hts as ->. by apply lexes_last_line.
  - rewrite E. by apply lexes_line.
Qed.

Lemma quote_consumed c rest x r : existsb (N.eqb c) quote_chars = true →
  quoted_text (negb (c =? 91)) (if c =? 91 then 93 else c) rest [] = Some (x, r) →
  consumed c rest (if c =? 39 then Token 115 x r else Token 113 (to_ascii_lowercase x) r).
Proof using.
  intros Hq. destruct (N.eqb_spec c 91) as [->|Hne]; cbn [negb].
  - intros (content & -> & -> & Hc)%bracket_text_split. split; [rewrite length_app; cbn; lia|].
    intros ts. by apply lexes_bracket.
  - intros H. pose proof (quoted_text_split c (length rest) rest [] x r ltac:(lia) H)
      as (content & -> & -> & Hr).
    assert (Hlen : (length r ≤ length (doubled c content ++ c :: r))%nat) by (rewrite length_app; cbn; lia).
    destruct (N.eqb_spec c 39) as [->|H39]; (split; [done|]); intros ts; [by apply lexes_string|].
    apply lexes_name; [|done]. cbn in Hq. rewrite !orb_true_iff, !N.eqb_eq in Hq.
    destruct Hq as [|[|[|[|]]]]; auto; done.
Qed.

Lemma lex_one_consumed c rest : consumed c rest (lex_one alphanumeric c rest).
Proof using.
  unfold lex_one. destruct (is_whitespace c) eqn:Hw.
  { split; [done|]. intros ts. by apply lexes_space. }
  destruct ((c =? 45) && second 45 rest) eqn:Hd.
  { apply andb_true_iff in Hd as [->%N.eqb_eq Hd]. destruct rest as [|n rest]; [done|].
    apply N.eqb_eq in Hd as ->. apply line_comment_consumed. }
  destruct ((c =? 47) && second 42 rest) eqn:Hb.
  { apply andb_true_iff in Hb as [->%N.eqb_eq Hb]. destruct rest as [|n rest]; [done|].
    apply N.eqb_eq in Hb as ->. cbn [tail]. destruct (block_comment rest) as [r|] eqn:E; [|done].
    apply block_comment_spec in E as (body & Hbody & ->). split; [cbn; rewrite length_app; cbn; lia|].
    intros ts. by apply lexes_block. }
  destruct (existsb (N.eqb c) quote_chars) eqn:Hq.
  { destruct (quoted_text _ _ rest []) as [[x r]|] eqn:E; [|done]. by apply quote_consumed. }
  destruct (word_char alphanumeric c) eqn:Hc.
  - destruct (word_rest_split rest [ascii_lower c]) as (w & r & -> & -> & Hall & Hr).
    split; [rewrite length_app; lia|]. intros ts. by apply lexes_word.
  - split; [done|]. intros ts. by apply lexes_symbol.
Qed.

(** The relation determines the turn. *)
Lemma plain_one c rest : plain c rest → lex_one alphanumeric c rest =
  if word_char alphanumeric c
  then let '(token, r) := word_rest alphanumeric rest [ascii_lower c] in Token 116 token r
  else Token 116 [ascii_lower c] rest.
Proof using. intros (H1 & H2 & H3 & H4). unfold lex_one. by rewrite H1, H2, H3, H4. Qed.

Lemma lexes_step c rest ts : Lexes (c :: rest) ts →
  (∃ r, lex_one alphanumeric c rest = Skipped r ∧ Lexes r ts) ∨
  ∃ k t r ts', lex_one alphanumeric c rest = Token k t r ∧ ts = (k, t) :: ts' ∧ Lexes r ts'.
Proof using.
  inversion 1 as [|? ? ? Hw Hs|body e s ? Hb He Hs|body Hb|body s ? Hb Hs|content s ts' Hh Hs
    |q content s ts' Hq Hh Hs|content s ts' Hc Hs|? w s ts' Hp Hc Hw Hh Hs|? ? ts' Hp Hc Hs]; subst.
  - left. exists rest. unfold lex_one. by rewrite Hw.
  - left. exists s. unfold lex_one. cbn -[line_comment]. by rewrite line_comment_app.
  - left. exists []. unfold lex_one. cbn -[line_comment]. rewrite line_comment_end by done.
    split; [done|apply lexes_end].
  - left. exists s. unfold lex_one. cbn -[block_comment].
    assert (E : block_comment (body ++ 42 :: 47 :: s) = Some s) by (apply block_comment_spec; eauto).
    by rewrite E.
  - right. exists 115, content, s, ts'. unfold lex_one. cbn -[quoted_text]. by rewrite quoted_text_doubled.
  - right. exists 113, (to_ascii_lowercase content), s, ts'.
    destruct Hq as [-> | ->]; unfold lex_one; cbn -[quoted_text]; by rewrite quoted_text_doubled.
  - right. exists 113, (to_ascii_lowercase content), s, ts'. unfold lex_one. cbn -[quoted_text].
    by rewrite bracket_text.
  - right. exists 116, (to_ascii_lowercase (c :: w)), s, ts'.
    by rewrite plain_one, Hc, word_rest_app.
  - right. exists 116, [ascii_lower c], rest, ts'. by rewrite plain_one, Hc.
Qed.

(** *** The loop *)

Definition encode (ts : list (char * str)) (signature : str) : str :=
  foldl (λ acc t, append_schema_token acc t.1 t.2) signature ts.

Lemma signature_loop_spec fuel : ∀ s signature out, (length s ≤ fuel)%nat →
  signature_loop alphanumeric fuel s signature = inr out ↔ ∃ ts, Lexes s ts ∧ out = encode ts signature.
Proof using.
  assert (Hnil : ∀ signature out, inr signature = inr out :> (str + str) ↔
    ∃ ts, Lexes [] ts ∧ out = encode ts signature).
  { intros signature out. split; [intros [= <-]; exists []; split; [apply lexes_end|done]|].
    by intros (ts & ->%lexes_nil & ->). }
  induction fuel as [|fuel IH]; intros [|c rest] signature out Hle; cbn [signature_loop];
    [apply Hnil|cbn in Hle; lia|apply Hnil|]. cbn in Hle.
  pose proof (lex_one_consumed c rest) as Hone. pose proof (lexes_step c rest) as Hstep.
  destruct (lex_one alphanumeric c rest) as [r|k t r|what]; cbn in Hone.
  - destruct Hone as [Hlen Hone]. rewrite IH by lia. split.
    + intros (ts & Hts & ->). exists ts. auto.
    + intros (ts & Hts & ->). exists ts. split; [|done].
      destruct (Hstep ts Hts) as [(r' & [= ->] & H)|(k & t & r' & ts' & [=] & _)]. done.
  - destruct Hone as [Hlen Hone]. rewrite IH by lia. split.
    + intros (ts & Hts & ->). exists ((k, t) :: ts). auto.
    + intros (ts & Hts & ->).
      destruct (Hstep ts Hts) as [(r' & [=] & H)|(k' & t' & r' & ts' & [= -> -> ->] & -> & H)].
      by exists ts'.
  - split; [done|]. intros (ts & Hts & _).
    destruct (Hstep ts Hts) as [(r' & [=] & _)|(k' & t' & r' & ts' & [=] & _)].
Qed.

Lemma schema_sql_signature_spec sql out : schema_sql_signature alphanumeric sql = inr out ↔
  str_len sql ≤ MAX_SCHEMA_SQL_BYTES ∧ ∃ ts, Lexes sql ts ∧ out = encode ts [].
Proof using.
  unfold schema_sql_signature. destruct (N.ltb_spec MAX_SCHEMA_SQL_BYTES (str_len sql)) as [H|H].
  - split; [done|]. intros [? _]. lia.
  - rewrite signature_loop_spec by done. split; [done|]. by intros [_ ?].
Qed.
End Tokens.

(** *** The encoding *)

Lemma encode_app ts signature : encode ts signature = signature ++ encode ts [].
Proof.
  revert signature. induction ts as [|t ts IH]; intros signature; [cbn; by rewrite app_nil_r|].
  change (encode ts (append_schema_token signature t.1 t.2) =
    signature ++ encode ts (append_schema_token [] t.1 t.2)).
  rewrite IH, (IH (append_schema_token [] _ _)). unfold append_schema_token. by rewrite <-!app_assoc.
Qed.

Lemma str_len_inj (a b r s : str) : str_len a = str_len b → a ++ r = b ++ s → a = b ∧ r = s.
Proof.
  assert (Hpos : ∀ c, 0 < utf8_width c) by (intros c; unfold utf8_width; repeat case_match; lia).
  revert b. induction a as [|c a IH]; intros [|d b] Hl E; cbn in *; [done|..].
  - pose proof (Hpos d). lia.
  - pose proof (Hpos c). lia.
  - injection E as -> E. apply IH in E as [-> ->]; [done|]. unfold str_len in *. cbn in Hl. lia.
Qed.

Lemma digits_inj (a b r s : str) : digit_str a → digit_str b → a ++ 58 :: r = b ++ 58 :: s → a = b ∧ r = s.
Proof.
  intros Ha. revert b. induction Ha as [|c a Hc Ha IH]; intros b Hb E.
  - destruct Hb as [|d b Hd _]; cbn in E; [by injection E as ->|by injection E as <- _].
  - destruct Hb as [|d b Hd Hb]; cbn in E; [by injection E as -> _|]. injection E as -> E.
    by apply IH in E as [-> ->].
Qed.

Lemma encode_inj ts : ∀ us, encode ts [] = encode us [] → ts = us.
Proof.
  assert (Hcons : ∀ t ts, encode (t :: ts) [] =
    t.1 :: show_N (str_len t.2) ++ 58 :: t.2 ++ encode ts []).
  { intros t l. change (encode (t :: l) []) with (encode l (append_schema_token [] t.1 t.2)).
    rewrite encode_app. unfold append_schema_token. cbn. by rewrite <-!app_assoc. }
  induction ts as [|[k t] ts IH]; intros [|[k' u] us]; rewrite ?Hcons; try done.
  cbn [fst snd]. intros [= -> E]. apply digits_inj in E as [Hl E]; [|apply show_N_digits..].
  apply (f_equal digits_value) in Hl. rewrite !show_N_value in Hl.
  apply str_len_inj in E as [-> E]; [|done]. f_equal. by apply IH.
Qed.

(** A schema signature stands for the tokens of the SQL text.  A text within the limit has
    a signature exactly when it can be read as strings, quoted names, words and single
    characters, and two signatures are equal exactly when the tokens are: comments, space
    and the case of words and names do not count, the bytes of a string literal do, and
    no two sequences of tokens collide. *)
Theorem signature_exact (alphanumeric : char → bool) (sql1 sql2 s1 s2 : str) :
  schema_sql_signature alphanumeric sql1 = inr s1 → schema_sql_signature alphanumeric sql2 = inr s2 →
  (∃ ts, Lexes alphanumeric sql1 ts) ∧
  (s1 = s2 ↔ ∃ ts, Lexes alphanumeric sql1 ts ∧ Lexes alphanumeric sql2 ts).
Proof.
  intros H1 H2. pose proof H1 as [Hlen1 (ts & Hts & ->)]%schema_sql_signature_spec.
  pose proof H2 as [Hlen2 (us & Hus & ->)]%schema_sql_signature_spec. split; [by exists ts|]. split.
  - intros ->%encode_inj. by exists us.
  - intros (vs & Hv1 & Hv2).
    assert (E1 : schema_sql_signature alphanumeric sql1 = inr (encode vs [])) by
      (apply schema_sql_signature_spec; eauto).
    assert (E2 : schema_sql_signature alphanumeric sql2 = inr (encode vs [])) by
      (apply schema_sql_signature_spec; eauto).
    congruence.
Qed.

(** ** What is copied *)

Lemma mapM_inr {A B : Type} (f : A → str + B) l k : mapM f l = inr k → Forall2 (λ x y, f x = inr y) l k.
Proof.
  revert k. induction l as [|x l IH]; intros k; cbn; [by intros [= <-]|].
  destruct (f x) as [|y] eqn:Hx; [done|]. cbn. destruct (mapM f l) as [|k'] eqn:Hl; [done|].
  cbn. intros [= <-]. constructor; [done|by apply IH].
Qed.

Lemma probe_table_shape alphanumeric cat entry t : probe_table alphanumeric cat entry = inr t →
  t_name t = so_name entry.1 ∧ t_sql t = entry.2 ∧
  t_copy_rows t = listed GRAPH_TABLES (t_name t) || listed SCHEMA_TABLES (t_name t) ∧
  t_create_schema t = true ∧
  (existsb dependent_column (t_columns t) = true ∨ has_graph_foreign_key cat (t_name t) = true →
   listed GRAPH_TABLES (t_name t) = true ∨ listed SENSITIVE_TABLES (t_name t) = true).
Proof.
  unfold probe_table, mbind, Fallible_bind. cbn zeta.
  destruct (table_columns _ _) as [|columns]; [done|].
  destruct (_ && _ && _) eqn:Hb; [done|].
  destruct (table_primary_key _ _ _); [done|]. destruct (table_column_specs _ _ _); [done|].
  destruct (table_options _ _); [done|]. destruct (schema_sql_signature _ _); [done|].
  intros [= <-]. cbn [t_name t_sql t_copy_rows t_create_schema t_columns]. do 4 (split; [done|]). intros Hdep.
  destruct (listed GRAPH_TABLES _); [by left|]. destruct (listed SENSITIVE_TABLES _); [by right|].
  rewrite !andb_true_r in Hb. apply orb_false_iff in Hb as [? ?]. destruct Hdep; congruence.
Qed.

Lemma probe_schema_tables alphanumeric cat q tables indexes :
  probe_schema alphanumeric cat q = inr (tables, indexes) →
  unsupported_object cat = None ∧
  ∃ entries, mapM with_sql (table_entries cat) = inr entries ∧
    mapM (probe_table alphanumeric cat) entries = inr tables ∧ (length tables ≤ MAX_TABLES)%nat.
Proof.
  unfold probe_schema. destruct (unsupported_object cat); [done|]. unfold probe_tables.
  unfold mbind, Fallible_bind. destruct (mapM with_sql (table_entries cat)) as [|entries]; [done|].
  destruct (Nat.ltb_spec MAX_TABLES (length entries)); [done|].
  destruct (sum_lengths 0 entries) as [|n]; [done|]. destruct (MAX_SCHEMA_TOTAL_BYTES <? n); [done|].
  destruct (mapM (probe_table alphanumeric cat) entries) as [|ts] eqn:Ht; [done|].
  destruct (if q then _ else _); [done|]. destruct (probe_indexes _ _ _ _); [done|].
  destruct (_ <? _)%nat; [done|]. intros [= -> <-]. split; [done|]. exists entries.
  split; [done|]. split; [done|]. apply mapM_inr, Forall2_length in Ht. lia.
Qed.

Lemma unsupported_none cat : unsupported_object cat = None → ∀ o, o ∈ sqlite_schema cat →
  listed [ $"trigger"; $"view"] (so_type o) = false.
Proof.
  unfold unsupported_object. intros H o Ho. destruct (listed _ (so_type o)) eqn:E; [|done]. exfalso.
  set (l := List.filter _ _) in H. set (cmp := λ a b, _) in H.
  assert (Hin : o ∈ sort_by cmp l).
  { rewrite sort_by_perm. subst l. apply list_elem_of_In, List.filter_In.
    split; [by apply list_elem_of_In|done]. }
  destruct (sort_by cmp l); [by apply not_elem_of_nil in Hin|done].
Qed.

Lemma listed_elem names name : listed names name = true ↔ name ∈ names.
Proof.
  unfold listed. rewrite existsb_exists. setoid_rewrite <-list_elem_of_In. setoid_rewrite str_eqb_eq.
  split; [by intros (x & ? & ->)|by exists name].
Qed.

Lemma secret_not_known name : name ∈ SENSITIVE_TABLES →
  listed GRAPH_TABLES name || listed SCHEMA_TABLES name = false.
Proof.
  intros H. unfold SENSITIVE_TABLES in H. repeat (apply elem_of_cons in H as [-> | H]; [done|]).
  by apply not_elem_of_nil in H.
Qed.

Lemma select_rows_unknown identify d tables rows r name : Forall (λ t, t_name t = name → t_copy_rows t = false) tables →
  rows_of (select_rows identify d tables rows r) name = [].
Proof.
  unfold select_rows, rows_of. assert (H0 : default [] ((∅ : gmap str (list Row)) !! name) = []) by done.
  revert H0. generalize (∅ : gmap str (list Row)) as m. intros m H0 H. revert m H0.
  induction H as [|t tables Ht _ IH]; intros m Hm; cbn; [done|]. apply IH.
  destruct (decide (t_name t = name)) as [<-|Hne].
  - rewrite lookup_insert_eq. cbn. unfold select_table. by rewrite Ht.
  - by rewrite lookup_insert_ne.
Qed.

Lemma mapM_with_sql l entries : mapM with_sql l = inr entries → map fst entries = l.
Proof.
  intros H%mapM_inr. induction H as [|o e l entries Ho _ IH]; [done|]. cbn. f_equal; [|done].
  unfold with_sql in Ho. destruct (bounded_sql o); [|done]. by injection Ho as <-.
Qed.

(** A probed schema is known in full, and only known tables are copied.  When the schema is
    accepted, it has no trigger and no view, every table of the database is among the
    tables found, a table that refers to projects or sessions is one the program knows;
    and for every destination no row is selected of a table outside the lists of graph and
    schema tables, so none of the tables that hold accounts, credentials and
    permissions. *)
Theorem probe_copies_known_only (alphanumeric : char → bool) (cat : Catalog) (q : bool) tables indexes :
  probe_schema alphanumeric cat q = inr (tables, indexes) →
  (∀ o, o ∈ sqlite_schema cat → so_type o ≠ $"trigger" ∧ so_type o ≠ $"view") ∧
  (∀ o, o ∈ sqlite_schema cat → so_type o = $"table" → like_sqlite (so_name o) = false →
     ∃ t, t ∈ tables ∧ t_name t = so_name o) ∧
  (∀ t, t ∈ tables →
     existsb dependent_column (t_columns t) = true ∨ has_graph_foreign_key cat (t_name t) = true →
     t_name t ∈ GRAPH_TABLES ∨ t_name t ∈ SENSITIVE_TABLES) ∧
  (∀ identify d rows r name, name ∉ GRAPH_TABLES → name ∉ SCHEMA_TABLES →
     rows_of (select_rows identify d tables rows r) name = []) ∧
  ∀ name, name ∈ SENSITIVE_TABLES → (name ∉ GRAPH_TABLES) ∧ (name ∉ SCHEMA_TABLES).
Proof.
  intros (Hun & entries & He & Ht & Hlen)%probe_schema_tables.
  apply mapM_inr in Ht. pose proof (mapM_with_sql _ _ He) as Hfst.
  assert (Hall : Forall (λ t, ∃ e, probe_table alphanumeric cat e = inr t) tables).
  { clear -Ht. induction Ht; constructor; [by eexists|done]. }
  split; [|split; [|split; [|split]]].
  - intros o Ho. pose proof (unsupported_none cat Hun o Ho) as Hl.
    split; intros E; rewrite E in Hl; by vm_compute in Hl.
  - intros o Ho Hty Hn. assert (Hin : o ∈ table_entries cat).
    { unfold table_entries in Hfst |- *. apply (f_equal length) in Hfst as Hl.
      rewrite length_map, length_take in Hl. apply Forall2_length in Ht.
      rewrite take_ge by lia. unfold by_name. rewrite sort_by_perm. apply list_elem_of_In, List.filter_In.
      split; [by apply list_elem_of_In|]. rewrite Hty, Hn. done. }
    rewrite <-Hfst in Hin. apply list_elem_of_In, in_map_iff in Hin as (e & <- & Hin).
    apply list_elem_of_In, list_elem_of_lookup in Hin as [i Hi].
    destruct (Forall2_lookup_l _ _ _ _ _ Ht Hi) as (t & Hti & Hp).
    exists t. split; [by eapply list_elem_of_lookup_2|]. by apply probe_table_shape in Hp as [? _].
  - intros t Hin Hdep. rewrite Forall_forall in Hall. destruct (Hall t Hin) as [e Hp].
    apply probe_table_shape in Hp as (_ & _ & _ & _ & Hp). rewrite <-!listed_elem. auto.
  - intros identify d rows r name Hg Hs. apply select_rows_unknown.
    eapply Forall_impl; [exact Hall|]. intros t [e Hp] <-.
    apply probe_table_shape in Hp as (_ & _ & -> & _).
    rewrite <-listed_elem, not_true_iff_false in Hg, Hs. by rewrite Hg, Hs.
  - intros name [Hg Hs]%secret_not_known%orb_false_iff.
    rewrite <-!listed_elem. split; congruence.
Qed.

Module Examples.
Definition letter (c : char) : bool := is_ascii_alphabetic c || is_ascii_digit c.
Definition quote : char := 34.

Lemma signature_exact_witness :
  schema_sql_signature letter $"CREATE TABLE [My T] (a TEXT DEFAULT 'It''s') -- note" =
  schema_sql_signature letter $"create table `my t`(A text /* note */ default 'It''s')" ∧
  ∃ ts, Lexes letter $"CREATE TABLE [My T] (a TEXT DEFAULT 'It''s') -- note" ts ∧
        Lexes letter $"create table `my t`(A text /* note */ default 'It''s')" ts.
Proof.
  split; [vm_compute; reflexivity|].
  apply (signature_exact letter _ _
    $"t6:createt5:tableq4:my tt1:(t1:at4:textt7:defaults4:It'st1:)"
    $"t6:createt5:tableq4:my tt1:(t1:at4:textt7:defaults4:It'st1:)"); vm_compute; reflexivity.
Defined.

(** A database with sessions and credentials. *)
Definition sql_of (name : str) : str := $"CREATE TABLE " ++ name ++ $"(id TEXT PRIMARY KEY, project_id TEXT)".
Definition an_object (name : str) : SchemaObject :=
  mkSchemaObject $"table" name name (Some (sql_of name)).
Definition a_catalog : Catalog :=
  mkCatalog [an_object $"session"; an_object $"credential"]
    (λ _, [mkColumnInfo $"id" $"TEXT" 0 None 1 0; mkColumnInfo $"project_id" $"TEXT" 0 None 0 0])
    (λ _, []) (λ _, Some (0, 0)%Z) (λ _, []) (λ _, []).

Definition probed : list Table * list Index :=
  match probe_schema letter a_catalog false with inr p => p | inl _ => ([], []) end.

Lemma probe_copies_known_only_witness :
  map t_name probed.1 = [ $"credential"; $"session"] ∧
  ∀ identify d rows r, rows_of (select_rows identify d probed.1 rows r) $"credential" = [].
Proof.
  destruct (probe_copies_known_only letter a_catalog false probed.1 probed.2) as (_ & _ & _ & H & Hs).
  - vm_compute. reflexivity.
  - split; [vm_compute; reflexivity|]. intros identify d rows r.
    destruct (Hs $"credential") as [Hg Hc]; [do 2 right; left|]. by apply H.
Defined.
End Examples.
