(* ===== verification/EventSafety.v ===== *)
(** * Complete histories

    What [OcEvents.validate_event_graph] accepts: for every aggregate the events are
    numbered from zero to the number the sequence table holds, in order, none missing and
    none twice ([valid]); and what happens to this when a history is added or extended,
    which is what [MergeSafety] needs. *)
From stdpp Require Import gmap sets.
From S2P Require Import Prelude Str Utf8.
From S2P Require Import Wire OcRows OcEvents.

(** ** Sorting by an integer *)

Section SortKey.
Context {A : Type} (f : A → Z).
Abbreviation by_key := (λ a b, (f a ?= f b)%Z).
Abbreviation le := (λ a b, (f a <= f b)%Z).

Lemma sort_key_sorted l : StronglySorted le (sort_by by_key l).
Proof using.
  apply sort_by_sorted.
  - intros x y z. lia.
  - intros x e. rewrite Z.compare_lt_iff. lia.
  - intros x e H. apply Z.nlt_ge. by rewrite <-Z.compare_lt_iff.
Qed.

Lemma sorted_key_unique l1 : ∀ l2, NoDup (map f l1) → l1 ≡ₚ l2 → StronglySorted le l1 → StronglySorted le l2 →
  l1 = l2.
Proof using.
  induction l1 as [|x l1 IH]; intros l2 Hnd Hp H1 H2; [by apply Permutation_nil_l in Hp|].
  destruct l2 as [|y l2]; [by apply Permutation_nil_r in Hp|].
  assert (Hx : x ∈ y :: l2) by (rewrite <-Hp; left). assert (Hy : y ∈ x :: l1) by (rewrite Hp; left).
  inv H1 as [|? ? H1' Hx1]. inv H2 as [|? ? H2' Hy2]. rewrite Forall_forall in Hx1, Hy2.
  cbn in Hnd. apply NoDup_cons in Hnd as [Hf Hnd].
  assert (x = y) as ->.
  { apply elem_of_cons in Hx as [|Hx]; [done|]. apply elem_of_cons in Hy as [->|Hy]; [done|].
    exfalso. apply Hf. apply Hx1 in Hy as Hle. apply Hy2 in Hx. assert (E : f x = f y) by lia.
    rewrite E. apply list_elem_of_In, in_map, list_elem_of_In, Hy. }
  f_equal. apply IH; [done|by eapply Permutation_cons_inv|done..].
Qed.

Lemma sort_key_unique l l' : NoDup (map f l) → l ≡ₚ l' → StronglySorted le l' → sort_by by_key l = l'.
Proof using.
  intros Hnd Hp Hs. apply sorted_key_unique; [|by rewrite sort_by_perm|apply sort_key_sorted|done].
  by rewrite (Permutation_map f (sort_by_perm by_key l)).
Qed.

Lemma sort_key_perm l l' : NoDup (map f l) → l ≡ₚ l' → sort_by by_key l = sort_by by_key l'.
Proof using.
  intros Hnd Hp. apply sort_key_unique; [done|by rewrite sort_by_perm|apply sort_key_sorted].
Qed.
End SortKey.

Lemma seqZ_sorted_from m n : (0 ≤ n)%Z → StronglySorted Z.le (seqZ m n).
Proof.
  intros Hn. revert m. pattern n. apply natlike_ind; [|clear n Hn; intros n Hn IH m|done]; cbn.
  - intros m. constructor.
  - rewrite seqZ_cons by lia. constructor.
    + replace (Z.pred (Z.succ n)) with n by lia. apply IH.
    + apply Forall_forall. intros x Hx%elem_of_seqZ. lia.
Qed.

(** Sorted keys that are exactly the numbers up to a bound. *)
Lemma keys_are_seqZ (l : list Z) n : NoDup l → (∀ k, k ∈ l ↔ (0 <= k < n)%Z) → StronglySorted Z.le l →
  l = seqZ 0 n.
Proof.
  intros Hnd Hk Hs. apply (StronglySorted_unique Z.le); [done| |].
  - destruct (decide (0 ≤ n)%Z); [by apply seqZ_sorted_from|]. rewrite seqZ_nil by lia. constructor.
  - apply NoDup_Permutation; [done|apply NoDup_seqZ|]. intros k. rewrite Hk, elem_of_seqZ. lia.
Qed.

(** ** Valid histories *)

Definition sequence_columns : list str := [ $"aggregate_id"; $"seq"; $"owner_id"].
Definition event_columns : list str := [ $"id"; $"aggregate_id"; $"seq"; $"type"; $"data"].

Definition sequence_row (aggregate : str) (seq : Z) (owner : Value) : Row :=
  mkRow [Text aggregate; Integer seq; owner].
Definition event_row (id aggregate : str) (seq : Z) (ty data : str) : Row :=
  mkRow [Text id; Text aggregate; Integer seq; Text ty; Text data].

Definition text_at (i : nat) (row : Row) : option str :=
  match values row !! i with Some (Text s) => Some s | _ => None end.
Definition ev_id (row : Row) : option str := text_at 0 row.
Definition ev_aggregate (row : Row) : option str := text_at 1 row.
Definition ev_seq (row : Row) : Z := seq_key 2 row.
Definition sq_aggregate (row : Row) : option str := text_at 0 row.
Definition sq_seq (row : Row) : Z := seq_key 1 row.

Definition good_sequence (row : Row) : Prop :=
  ∃ aggregate seq owner, row = sequence_row aggregate seq owner ∧ (0 ≤ seq)%Z.
Definition good_event (row : Row) : Prop :=
  ∃ id aggregate seq ty data, row = event_row id aggregate seq ty data.

Definition sequences_at (S : list Row) (a : str) : list Row := filter (λ r, sq_aggregate r = Some a) S.
Definition unsorted_at (E : list Row) (a : str) : list Row := filter (λ r, ev_aggregate r = Some a) E.
Definition events_at (E : list Row) (a : str) : list Row :=
  sort_by (λ x y, (ev_seq x ?= ev_seq y)%Z) (unsorted_at E a).

(** The numbers an aggregate must have. *)
Definition numbers (S : list Row) (a : str) : list Z :=
  match sequences_at S a with [] => [] | s :: _ => seqZ 0 (sq_seq s + 1) end.

Record valid (S E : list Row) : Prop := mkValid {
  va_sequences : Forall good_sequence S;
  va_aggregates : NoDup (omap sq_aggregate S);
  va_events : Forall good_event E;
  va_ids : NoDup (omap ev_id E);
  va_whole : ∀ a, map ev_seq (events_at E a) = numbers S a;
}.

Lemma required_text_at t row name label i a :
  position (λ column, str_eqb column name) (t_columns t) = Some i →
  required_text t row name label = inr a ↔ text_at i row = Some a.
Proof.
  intros Hi. unfold required_text, field_index, column_index. rewrite Hi. cbn -[lookup]. unfold text_at.
  destruct (values row !! i) as [[]|]; split; try done; congruence.
Qed.

Lemma required_integer_at t row name label i n :
  position (λ column, str_eqb column name) (t_columns t) = Some i →
  required_integer t row name label = inr n ↔ values row !! i = Some (Integer n).
Proof.
  intros Hi. unfold required_integer, field_index, column_index. rewrite Hi. cbn -[lookup].
  destruct (values row !! i) as [[]|]; split; try done; congruence.
Qed.

Section Sequences.
Context (st : Table).
Hypothesis st_columns : t_columns st = sequence_columns.

Lemma sequence_text row label a :
  required_text st row $"aggregate_id" label = inr a ↔ sq_aggregate row = Some a.
Proof using st_columns. apply required_text_at. by rewrite st_columns. Qed.

Lemma sequence_integer row label n :
  required_integer st row $"seq" label = inr n ↔ values row !! 1%nat = Some (Integer n).
Proof using st_columns. apply required_integer_at. by rewrite st_columns. Qed.

(** *** The first loop *)

Lemma good_sequence_intro row a n : length (values row) = 3%nat → sq_aggregate row = Some a →
  values row !! 1%nat = Some (Integer n) → ∃ owner, row = sequence_row a n owner.
Proof using.
  destruct row as [[|x [|y [|z [|??]]]]]; try done. intros _. unfold sq_aggregate, text_at. cbn.
  destruct x; try done. intros [= ->] [= ->]. by exists z.
Qed.

Lemma good_event_intro row id a n ty data : length (values row) = 5%nat → text_at 0 row = Some id →
  text_at 1 row = Some a → values row !! 2%nat = Some (Integer n) → text_at 3 row = Some ty →
  text_at 4 row = Some data → row = event_row id a n ty data.
Proof using.
  destruct row as [[|x [|y [|z [|u [|v [|??]]]]]]]; try done. intros _. unfold text_at. cbn.
  unfold event_row. destruct x, y, u, v; intros; congruence.
Qed.

Lemma sequences_at_cons a n o S b :
  sequences_at (sequence_row a n o :: S) b =
  if decide (b = a) then sequence_row a n o :: sequences_at S b else sequences_at S b.
Proof using.
  unfold sequences_at. rewrite filter_cons. unfold sq_aggregate at 1, text_at. cbn.
  repeat case_decide; congruence.
Qed.

Lemma sequences_at_none S a : a ∉ omap sq_aggregate S → sequences_at S a = [].
Proof using.
  intros Ha. destruct (sequences_at S a) as [|r l] eqn:E; [done|].
  assert (Hr : r ∈ sequences_at S a) by (rewrite E; left).
  apply list_elem_of_filter in Hr as [Hr Hin]. destruct Ha. apply list_elem_of_omap. by exists r.
Qed.

Lemma high_waters_inv label S : ∀ acc w, Forall (λ r, length (values r) = 3%nat) S →
  high_waters st label S acc = inr w →
  Forall good_sequence S ∧ NoDup (omap sq_aggregate S) ∧
  (∀ a, a ∈ omap sq_aggregate S → acc !! a = None) ∧
  ∀ a, w !! a = match sequences_at S a with [] => acc !! a | s :: _ => Some (sq_seq s) end.
Proof using st_columns.
  induction S as [|row S IH]; intros acc w Hw; cbn [high_waters].
  { intros [= <-]. split; [done|]. split; [constructor|]. split; [|done]. by intros a ?%not_elem_of_nil. }
  apply Forall_cons in Hw as [Hlen Hw]. unfold mbind, Fallible_bind.
  destruct (required_text _ _ _ _) as [|a] eqn:Ha; [done|]. apply (sequence_text row label) in Ha.
  destruct (required_integer _ _ _ _) as [|n] eqn:Hn; [done|]. apply (sequence_integer row label) in Hn.
  destruct (good_sequence_intro row a n Hlen Ha Hn) as [o ->].
  destruct (_ || _) eqn:Hc; [done|]. apply orb_false_iff in Hc as [Hneg Hfresh%bool_decide_eq_false].
  apply eq_None_not_Some in Hfresh.
  intros (Hg & Hnd & Hacc & Hl)%IH; [|done]. cbn [omap list_omap]. rewrite Ha.
  assert (Hna : a ∉ omap sq_aggregate S).
  { intros Hin. apply Hacc in Hin. by rewrite lookup_insert_eq in Hin. }
  split; [constructor; [|done]; exists a, n, o; split; [done|lia]|]. split; [by constructor|]. split.
  - intros b [->|Hb]%elem_of_cons; [done|]. assert (b ≠ a) by congruence.
    apply Hacc in Hb. by rewrite lookup_insert_ne in Hb.
  - intros b. rewrite Hl, sequences_at_cons. case_decide as E.
    + subst b. rewrite (sequences_at_none S a Hna), lookup_insert_eq. done.
    + destruct (sequences_at S b); [by rewrite lookup_insert_ne|done].
Qed.

Lemma high_waters_intro label S : ∀ acc, Forall good_sequence S → NoDup (omap sq_aggregate S) →
  (∀ a, a ∈ omap sq_aggregate S → acc !! a = None) → ∃ w, high_waters st label S acc = inr w.
Proof using st_columns.
  induction S as [|row S IH]; intros acc Hg Hnd Hacc; cbn [high_waters]; [by eexists|].
  apply Forall_cons in Hg as [(a & n & o & -> & Hn) Hg]. cbn [omap list_omap] in *.
  change (sq_aggregate (sequence_row a n o)) with (Some a) in *. apply NoDup_cons in Hnd as [Hna Hnd].
  rewrite (proj2 (sequence_text (sequence_row a n o) label a) eq_refl). cbn [mbind Fallible_bind].
  unfold mbind, Fallible_bind.
  rewrite (proj2 (sequence_integer (sequence_row a n o) label n) eq_refl).
  rewrite (proj2 (Z.ltb_ge n 0) Hn), bool_decide_eq_false_2; cbn [orb].
  - apply IH; [done..|]. intros b Hb. rewrite lookup_insert_ne by congruence. apply Hacc. by right.
  - rewrite Hacc by by left. by intros [? ?].
Qed.

End Sequences.

(** *** The second loop *)

Section Events.
Context (et : Table).
Hypothesis et_columns : t_columns et = event_columns.

Lemma event_text row label name i a : event_columns !! i = Some name →
  required_text et row name label = inr a ↔ text_at i row = Some a.
Proof using et_columns.
  intros Hi. apply required_text_at. rewrite et_columns.
  destruct i as [|[|[|[|[|]]]]]; [by injection Hi as <-..|done].
Qed.

Lemma event_integer row label n :
  required_integer et row $"seq" label = inr n ↔ values row !! 2%nat = Some (Integer n).
Proof using et_columns. apply required_integer_at. by rewrite et_columns. Qed.

Lemma event_seq_index : field_index et $"seq" = inr 2%nat.
Proof using et_columns. unfold field_index, column_index. by rewrite et_columns. Qed.

Definition ev_position (row : Row) : option (str * Z) := a ← ev_aggregate row; Some (a, ev_seq row).

(** The number of an event is below the last one of its aggregate. *)
Definition below (w : gmap str Z) (row : Row) : Prop :=
  ∃ a high, ev_aggregate row = Some a ∧ w !! a = Some high ∧ (0 <= ev_seq row <= high)%Z.

Lemma event_positions_inv label w E : ∀ ids ps ps', Forall (λ r, length (values r) = 5%nat) E →
  event_positions et label w E ids ps = inr ps' →
  Forall good_event E ∧ Forall (below w) E ∧ NoDup (omap ev_id E) ∧
  (∀ i, i ∈ omap ev_id E → i ∉ ids) ∧ NoDup (omap ev_position E) ∧
  (∀ p, p ∈ omap ev_position E → p ∉ ps) ∧ ∀ p, p ∈ ps' ↔ p ∈ omap ev_position E ∨ p ∈ ps.
Proof using et_columns.
  induction E as [|row E IH]; intros ids ps ps' Hw; cbn [event_positions].
  { intros [= <-]. do 2 (split; [done|]). split; [constructor|]. split; [by intros i ?%not_elem_of_nil|].
    split; [constructor|]. split; [by intros i ?%not_elem_of_nil|]. intros p. split; [by right|].
    by intros [?%not_elem_of_nil|]. }
  apply Forall_cons in Hw as [Hlen Hw]. unfold mbind, Fallible_bind.
  destruct (required_text _ _ $"id" _) as [|i] eqn:Hi; [done|].
  destruct (required_text _ _ $"aggregate_id" _) as [|a] eqn:Ha; [done|].
  destruct (required_integer _ _ _ _) as [|n] eqn:Hn; [done|].
  destruct (required_text _ _ $"type" _) as [|ty] eqn:Ht; [done|].
  destruct (required_text _ _ $"data" _) as [|data] eqn:Hd; [done|].
  apply (event_text row label _ 0) in Hi; [|done]. apply (event_text row label _ 1) in Ha; [|done].
  apply (event_integer row label) in Hn. apply (event_text row label _ 3) in Ht; [|done].
  apply (event_text row label _ 4) in Hd; [|done].
  rewrite (good_event_intro row i a n ty data) by done. clear Hlen Hi Ha Hn Ht Hd row.
  destruct (_ || _) eqn:Hc; [done|]. apply orb_false_iff in Hc as [[Hi Hp]%orb_false_iff Hb].
  apply bool_decide_eq_false in Hi, Hp.
  intros (Hg & Hbl & Hni & Hids & Hnp & Hps & Hiff)%IH; [|done].
  cbn [omap list_omap]. change (ev_id (event_row i a n ty data)) with (Some i).
  change (ev_position (event_row i a n ty data)) with (Some (a, n)).
  split; [constructor; [by do 5 eexists|done]|]. split.
  { constructor; [|done]. destruct (w !! a) as [high|] eqn:Hw'; [|done].
    apply orb_false_iff in Hb as [H1 H2]. exists a, high. cbn. split; [done|]. split; [done|].
    change (ev_seq (event_row i a n ty data)) with n. lia. }
  split; [constructor; [|done]; intros Hin; apply Hids in Hin; set_solver|].
  split; [intros j [->|Hj]%elem_of_cons; [done|apply Hids in Hj; set_solver]|].
  split; [constructor; [|done]; intros Hin; apply Hps in Hin; set_solver|].
  split; [intros j [->|Hj]%elem_of_cons; [done|apply Hps in Hj; set_solver]|].
  intros p. rewrite Hiff, elem_of_cons. set_solver.
Qed.

Lemma event_positions_intro label w E : ∀ ids ps, Forall good_event E → Forall (below w) E →
  NoDup (omap ev_id E) → (∀ i, i ∈ omap ev_id E → i ∉ ids) → NoDup (omap ev_position E) →
  (∀ p, p ∈ omap ev_position E → p ∉ ps) → ∃ ps', event_positions et label w E ids ps = inr ps'.
Proof using et_columns.
  induction E as [|row E IH]; intros ids ps Hg Hb Hni Hids Hnp Hps; cbn [event_positions]; [by eexists|].
  apply Forall_cons in Hg as [(i & a & n & ty & data & ->) Hg].
  apply Forall_cons in Hb as [(a' & high & [= <-] & Hw & Hn) Hb].
  cbn [omap list_omap] in *. change (ev_id (event_row i a n ty data)) with (Some i) in *.
  change (ev_position (event_row i a n ty data)) with (Some (a, n)) in *.
  change (ev_seq (event_row i a n ty data)) with n in Hn.
  apply NoDup_cons in Hni as [Hi Hni], Hnp as [Hp Hnp]. unfold mbind, Fallible_bind.
  rewrite (proj2 (event_text (event_row i a n ty data) label $"id" 0 i eq_refl) eq_refl).
  rewrite (proj2 (event_text (event_row i a n ty data) label $"aggregate_id" 1 a eq_refl) eq_refl).
  rewrite (proj2 (event_integer (event_row i a n ty data) label n) eq_refl).
  rewrite (proj2 (event_text (event_row i a n ty data) label $"type" 3 ty eq_refl) eq_refl).
  rewrite (proj2 (event_text (event_row i a n ty data) label $"data" 4 data eq_refl) eq_refl).
  rewrite Hw. rewrite !bool_decide_eq_false_2 by (first [apply Hids|apply Hps]; left).
  rewrite (proj2 (Z.ltb_ge n 0)), (proj2 (Z.ltb_ge high n)) by lia. cbn [orb].
  apply IH; try done; intros j Hj; [assert (j ≠ i) by congruence|assert (j ≠ (a, n)) by congruence].
  - specialize (Hids j ltac:(by right)). set_solver.
  - specialize (Hps j ltac:(by right)). set_solver.
Qed.
End Events.

(** *** Positions and numbers *)

Lemma unsorted_at_cons i a n ty data E b :
  unsorted_at (event_row i a n ty data :: E) b =
  if decide (b = a) then event_row i a n ty data :: unsorted_at E b else unsorted_at E b.
Proof.
  unfold unsorted_at. rewrite filter_cons. unfold ev_aggregate at 1, text_at. cbn.
  repeat case_decide; congruence.
Qed.

Lemma elem_of_numbers_at E a k : k ∈ map ev_seq (unsorted_at E a) ↔ (a, k) ∈ omap ev_position E.
Proof.
  rewrite list_elem_of_omap. split.
  - intros (e & -> & [Ha He]%list_elem_of_filter)%list_elem_of_fmap. exists e. split; [done|].
    unfold ev_position. by rewrite Ha.
  - intros (e & He & Hp). unfold ev_position in Hp. destruct (ev_aggregate e) as [b|] eqn:Hb; [|done].
    injection Hp as -> <-. apply list_elem_of_fmap. exists e. split; [done|]. by apply list_elem_of_filter.
Qed.

Lemma positions_numbers E : Forall good_event E →
  NoDup (omap ev_position E) ↔ ∀ a, NoDup (map ev_seq (unsorted_at E a)).
Proof.
  induction 1 as [|row E (i & a & n & ty & data & ->) Hg IH].
  { split; intros; constructor. }
  cbn [omap list_omap]. change (ev_position (event_row i a n ty data)) with (Some (a, n)). cbn iota.
  rewrite NoDup_cons, IH, <-elem_of_numbers_at. setoid_rewrite unsorted_at_cons. split.
  - intros [Hn Hnd] b. case_decide as Hb; [subst b|done]. cbn. apply NoDup_cons. by split.
  - intros H. split.
    + specialize (H a). rewrite decide_True in H by done. cbn in H. by apply NoDup_cons in H as [? _].
    + intros b. specialize (H b). case_decide; [|done]. cbn in H. by apply NoDup_cons in H as [_ ?].
Qed.

Lemma map_events_at_perm E a : map ev_seq (events_at E a) ≡ₚ map ev_seq (unsorted_at E a).
Proof. unfold events_at. by rewrite sort_by_perm. Qed.

Lemma map_key_sorted {A : Type} (f : A → Z) l : StronglySorted (λ a b, (f a <= f b)%Z) l →
  StronglySorted Z.le (map f l).
Proof.
  induction 1 as [|x l _ IH Hx]; cbn; constructor; [done|]. apply Forall_map. exact Hx.
Qed.

Lemma events_at_numbers E a n : NoDup (map ev_seq (unsorted_at E a)) →
  (∀ k, k ∈ map ev_seq (unsorted_at E a) ↔ (0 <= k < n)%Z) → map ev_seq (events_at E a) = seqZ 0 n.
Proof.
  intros Hnd Hk. apply keys_are_seqZ.
  - by rewrite map_events_at_perm.
  - intros k. by rewrite map_events_at_perm.
  - apply map_key_sorted. apply sort_key_sorted.
Qed.

Lemma elem_of_complete ps a high : complete_to ps a high = true ↔ ∀ k, (0 <= k <= high)%Z → (a, k) ∈ ps.
Proof.
  unfold complete_to. rewrite forallb_forall. setoid_rewrite <-list_elem_of_In.
  setoid_rewrite elem_of_seqZ. setoid_rewrite bool_decide_eq_true. split; intros H k Hk; apply H; lia.
Qed.

(** *** The check *)

Section Check.
Context (tables : list Table) (st et : Table) (rows : gmap str (list Row)).
Hypothesis find_st : find_table tables $"event_sequence" = Some st.
Hypothesis find_et : find_table tables $"event" = Some et.
Hypothesis st_columns : t_columns st = sequence_columns.
Hypothesis et_columns : t_columns et = event_columns.
Abbreviation S := (rows_of rows $"event_sequence").
Abbreviation E := (rows_of rows $"event").

Lemma validate_unfold label : validate_event_graph tables rows label =
  (waters ← high_waters st label S ∅;
   positions ← event_positions et label waters E ∅ ∅;
   if existsb (λ w, negb (complete_to positions w.1 w.2)) (map_to_list waters)
   then bail (malformed_history label) else inr ()).
Proof using find_st find_et. unfold validate_event_graph. by rewrite find_st, find_et. Qed.

Lemma incomplete_none (w : gmap str Z) ps :
  existsb (λ w, negb (complete_to ps w.1 w.2)) (map_to_list w) = false ↔
  ∀ a high, w !! a = Some high → ∀ k, (0 <= k <= high)%Z → (a, k) ∈ ps.
Proof using.
  rewrite <-not_true_iff_false, existsb_exists. split.
  - intros H a high Ha. apply elem_of_complete. destruct (complete_to ps a high) eqn:Ec; [done|].
    destruct H. exists (a, high). cbn. rewrite Ec. split; [|done]. by apply list_elem_of_In, elem_of_map_to_list.
  - intros H ([a high] & Hin%list_elem_of_In%elem_of_map_to_list & Hc). cbn in Hc.
    rewrite (proj2 (elem_of_complete ps a high)) in Hc; [done|by apply H].
Qed.

Lemma validate_inv label : Forall (λ r, length (values r) = 3%nat) S →
  Forall (λ r, length (values r) = 5%nat) E →
  validate_event_graph tables rows label = inr () → valid S E.
Proof using find_st find_et st_columns et_columns.
  intros HS HE. rewrite validate_unfold. unfold mbind, Fallible_bind.
  destruct (high_waters st label S ∅) as [|w] eqn:Hw; [done|].
  apply high_waters_inv in Hw as (Hgs & Hns & _ & Hl); [|done..].
  destruct (event_positions et label w E ∅ ∅) as [|ps] eqn:Hp; [done|].
  apply event_positions_inv in Hp as (Hge & Hb & Hni & _ & Hnp & _ & Hps); [|done..].
  destruct (existsb _ _) eqn:Hc; [done|]. intros _. rewrite incomplete_none in Hc.
  split; [done..|]. intros a. unfold numbers. specialize (Hl a).
  pose proof (proj1 (positions_numbers E Hge) Hnp a) as Hnd.
  assert (Hbelow : ∀ k, k ∈ map ev_seq (unsorted_at E a) → ∃ high, w !! a = Some high ∧ (0 <= k <= high)%Z).
  { intros k (e & -> & [Ha He]%list_elem_of_filter)%list_elem_of_fmap.
    rewrite Forall_forall in Hb. destruct (Hb e He) as (b & high & Hab & Hwb & Hk).
    exists high. by assert (b = a) as -> by congruence. }
  destruct (sequences_at S a) as [|s rest].
  - rewrite lookup_empty in Hl. destruct (unsorted_at E a) as [|e l] eqn:Hu.
    + unfold events_at. by rewrite Hu.
    + destruct (Hbelow (ev_seq e)) as (high & Hh & _); [left|congruence].
  - apply events_at_numbers; [done|]. intros k. split.
    + intros (high & Hh & Hk)%Hbelow. assert (high = sq_seq s) as -> by congruence. lia.
    + intros Hk. apply elem_of_numbers_at. specialize (Hc a _ Hl k ltac:(lia)).
      apply Hps in Hc as [Hc|Hc]; [done|set_solver].
Qed.

Lemma validate_intro label : valid S E → validate_event_graph tables rows label = inr ().
Proof using find_st find_et st_columns et_columns.
  intros [Hgs Hns Hge Hni Hwhole]. rewrite validate_unfold. unfold mbind, Fallible_bind.
  destruct (high_waters_intro st st_columns label S ∅) as [w Hw]; [done..|].
  rewrite Hw. assert (Hlen : Forall (λ r, length (values r) = 3%nat) S).
  { eapply Forall_impl; [exact Hgs|]. by intros r (a & n & o & -> & _). }
  destruct (high_waters_inv st st_columns label S ∅ w Hlen Hw) as (_ & _ & _ & Hl). clear Hlen.
  assert (Hk : ∀ a k, k ∈ map ev_seq (unsorted_at E a) ↔ ∃ high, w !! a = Some high ∧ (0 <= k <= high)%Z).
  { intros a k. rewrite <-map_events_at_perm, Hwhole. unfold numbers. specialize (Hl a).
    destruct (sequences_at S a) as [|s rest].
    - rewrite lookup_empty in Hl. split; [by intros ?%not_elem_of_nil|]. intros (? & ? & _). congruence.
    - rewrite elem_of_seqZ. split; [intros ?; exists (sq_seq s); split; [done|lia]|].
      intros (high & Hh & ?). assert (high = sq_seq s) as -> by congruence. lia. }
  assert (Hb : Forall (below w) E).
  { apply Forall_forall. intros e He. rewrite Forall_forall in Hge.
    pose proof (Hge e He) as (i & a & n & ty & data & ->).
    set (e := event_row i a n ty data) in *.
    destruct (proj1 (Hk a (ev_seq e))) as (high & Hh & Hn); [|by exists a, high].
    apply list_elem_of_fmap. exists e. split; [done|]. by apply list_elem_of_filter. }
  assert (Hnp : NoDup (omap ev_position E)).
  { apply positions_numbers; [done|]. intros a. rewrite <-map_events_at_perm, Hwhole. unfold numbers.
    destruct (sequences_at S a); [constructor|apply NoDup_seqZ]. }
  destruct (event_positions_intro et et_columns label w E ∅ ∅) as [ps Hp]; [done..|set_solver|done|set_solver|].
  rewrite Hp. assert (Hlen : Forall (λ r, length (values r) = 5%nat) E).
  { eapply Forall_impl; [exact Hge|]. by intros r (? & ? & ? & ? & ? & ->). }
  destruct (event_positions_inv et et_columns label w E ∅ ∅ ps Hlen Hp) as (_ & _ & _ & _ & _ & _ & Hps).
  rewrite (proj2 (incomplete_none w ps)); [done|]. intros a high Ha k Hkk. apply Hps. left.
  apply elem_of_numbers_at, Hk. eauto.
Qed.
End Check.

(** ** Histories *)

(** The history of an aggregate, in the order of its numbers. *)
Definition view (S E : list Row) (a : str) : option EventHistory :=
  match sequences_at S a with
  | [] => None
  | s :: _ => Some (mkHistory s (events_at E a))
  end.

Lemma sequences_at_unique S a : Forall good_sequence S → NoDup (omap sq_aggregate S) →
  sequences_at S a = [] ∨ ∃ s, sequences_at S a = [s].
Proof.
  induction 1 as [|r S (b & n & o & -> & _) _ IH]; [by left|]. cbn [omap list_omap].
  change (sq_aggregate (sequence_row b n o)) with (Some b). intros [Hb Hnd]%NoDup_cons.
  rewrite sequences_at_cons. case_decide as E; [|by apply IH]. subst b.
  right. exists (sequence_row a n o). by rewrite sequences_at_none.
Qed.

Lemma sequences_at_perm S S' a : Forall good_sequence S → NoDup (omap sq_aggregate S) → S ≡ₚ S' →
  sequences_at S' a = sequences_at S a.
Proof.
  intros Hg Hnd Hp. assert (Hf : sequences_at S a ≡ₚ sequences_at S' a) by (unfold sequences_at; by rewrite Hp).
  destruct (sequences_at_unique S a Hg Hnd) as [E|[s E]]; rewrite E in Hf |- *.
  - by apply Permutation_nil_l in Hf.
  - by apply Permutation_singleton_l in Hf.
Qed.

Lemma valid_seqs S E a : valid S E → NoDup (map ev_seq (unsorted_at E a)).
Proof.
  intros [_ _ _ _ Hw]. rewrite <-map_events_at_perm, Hw. unfold numbers.
  destruct (sequences_at S a); [constructor|apply NoDup_seqZ].
Qed.

Lemma events_at_perm S E E' a : valid S E → E ≡ₚ E' → events_at E' a = events_at E a.
Proof.
  intros Hv Hp. symmetry. apply (sort_key_perm ev_seq); [by eapply valid_seqs|].
  unfold unsorted_at. by rewrite Hp.
Qed.

Lemma omap_perm {A B : Type} (f : A → option B) l l' : l ≡ₚ l' → omap f l ≡ₚ omap f l'.
Proof. intros Hp. by rewrite Hp. Qed.

Lemma valid_perm S S' E E' : valid S E → S ≡ₚ S' → E ≡ₚ E' → valid S' E'.
Proof.
  intros Hv HS HE. pose proof Hv as [H1 H2 H3 H4 H5]. split.
  - by rewrite <-HS.
  - by rewrite <-(omap_perm _ _ _ HS).
  - by rewrite <-HE.
  - by rewrite <-(omap_perm _ _ _ HE).
  - intros a. unfold numbers. rewrite (events_at_perm S E) by done.
    rewrite (sequences_at_perm S) by done. apply H5.
Qed.

Lemma view_perm S S' E E' a : valid S E → S ≡ₚ S' → E ≡ₚ E' → view S' E' a = view S E a.
Proof.
  intros Hv HS HE. pose proof Hv as [H1 H2 _ _ _]. unfold view.
  by rewrite (sequences_at_perm S), (events_at_perm S E E').
Qed.

Section Grouping.
Context (st et : Table).
Hypothesis st_columns : t_columns st = sequence_columns.
Hypothesis et_columns : t_columns et = event_columns.

Lemma sequence_histories_spec S : ∀ acc : gmap str EventHistory,
  Forall good_sequence S → NoDup (omap sq_aggregate S) →
  ∃ m, sequence_histories st S acc = inr m ∧
    ∀ a, m !! a = match sequences_at S a with [] => acc !! a | s :: _ => Some (mkHistory s []) end.
Proof using st_columns.
  induction S as [|row S IH]; intros acc Hg Hnd; cbn [sequence_histories]; [by exists acc|].
  apply Forall_cons in Hg as [(a & n & o & -> & Hn) Hg]. cbn [omap list_omap] in Hnd.
  change (sq_aggregate (sequence_row a n o)) with (Some a) in Hnd. apply NoDup_cons in Hnd as [Hna Hnd].
  unfold mbind, Fallible_bind. rewrite (proj2 (sequence_text st st_columns (sequence_row a n o) _ a) eq_refl).
  destruct (IH (<[a := mkHistory (sequence_row a n o) []]> acc) Hg Hnd) as (m & Hm & Hl).
  exists m. split; [done|]. intros b. rewrite Hl, sequences_at_cons. case_decide as E.
  - subst b. by rewrite sequences_at_none, lookup_insert_eq.
  - destruct (sequences_at S b); [by rewrite lookup_insert_ne|done].
Qed.

Lemma push_events_spec E : ∀ acc : gmap str EventHistory, Forall good_event E →
  (∀ e a, e ∈ E → ev_aggregate e = Some a → is_Some (acc !! a)) →
  ∃ m, push_events et E acc = inr m ∧
    ∀ a, m !! a = (λ h, mkHistory (eh_sequence h) (eh_events h ++ unsorted_at E a)) <$> acc !! a.
Proof using et_columns.
  induction E as [|row E IH]; intros acc Hg Hacc; cbn [push_events].
  { exists acc. split; [done|]. intros a. destruct (acc !! a) as [[s l]|]; cbn; [by rewrite app_nil_r|done]. }
  apply Forall_cons in Hg as [(i & a & n & ty & data & ->) Hg]. set (row := event_row i a n ty data) in *.
  unfold mbind, Fallible_bind.
  rewrite (proj2 (event_text et et_columns row _ $"aggregate_id" 1 a eq_refl) eq_refl).
  pose proof (Hacc row a ltac:(left) eq_refl) as Ha. rewrite bool_decide_eq_true_2 by done.
  destruct (IH (alter (push_event row) a acc) Hg) as (m & Hm & Hl).
  { intros e b He Hb. pose proof (Hacc e b ltac:(by right) Hb) as [h Hh].
    destruct (decide (b = a)) as [->|Hne]; [rewrite lookup_alter_eq, Hh|rewrite lookup_alter_ne, Hh by done]; by eexists. }
  exists m. split; [done|]. intros b. rewrite Hl. unfold row. rewrite unsorted_at_cons. fold row.
  case_decide as Eb.
  - subst b. rewrite lookup_alter_eq. destruct (acc !! a) as [[s l]|]; [cbn|done]. by rewrite <-app_assoc.
  - by rewrite lookup_alter_ne.
Qed.

Lemma histories_view rows : valid (rows_of rows $"event_sequence") (rows_of rows $"event") →
  ∃ hs, event_histories st et rows = inr hs ∧
    ∀ a, hs !! a = view (rows_of rows $"event_sequence") (rows_of rows $"event") a.
Proof using st_columns et_columns.
  set (S := rows_of rows $"event_sequence"). set (E := rows_of rows $"event"). intros [H1 H2 H3 H4 H5].
  unfold event_histories, mbind, Fallible_bind. fold S E.
  destruct (sequence_histories_spec S ∅ H1 H2) as (m & Hm & Hml). rewrite Hm.
  destruct (push_events_spec E m H3) as (m' & Hm' & Hml').
  { intros e a He Ha. rewrite Hml. destruct (sequences_at S a) as [|s l] eqn:Es; [|by eexists].
    specialize (H5 a). unfold numbers in H5. rewrite Es in H5.
    assert (Hin : ev_seq e ∈ map ev_seq (events_at E a)).
    { rewrite map_events_at_perm. apply list_elem_of_fmap. exists e. split; [done|]. by apply list_elem_of_filter. }
    rewrite H5 in Hin. by apply not_elem_of_nil in Hin. }
  rewrite Hm', (event_seq_index et et_columns). eexists. split; [done|]. intros a.
  rewrite lookup_fmap, Hml', Hml. unfold view. by destruct (sequences_at S a).
Qed.
End Grouping.

(** ** Adding and extending a history *)

(** The history of [a], complete and in order. *)
Definition whole (a : str) (h : EventHistory) : Prop :=
  ∃ n owner, eh_sequence h = sequence_row a n owner ∧ (0 ≤ n)%Z ∧
    Forall (λ e, good_event e ∧ ev_aggregate e = Some a) (eh_events h) ∧
    map ev_seq (eh_events h) = seqZ 0 (n + 1).

Lemma sequences_at_good S a s l : Forall good_sequence S → sequences_at S a = s :: l →
  ∃ n owner, s = sequence_row a n owner ∧ (0 ≤ n)%Z.
Proof.
  intros Hg E. assert (Hin : s ∈ sequences_at S a) by (rewrite E; left).
  apply list_elem_of_filter in Hin as [Ha Hin]. rewrite Forall_forall in Hg.
  destruct (Hg s Hin) as (b & n & o & -> & Hn). injection Ha as ->. by exists n, o.
Qed.

Lemma view_whole S E a h : valid S E → view S E a = Some h → whole a h.
Proof.
  intros [H1 H2 H3 H4 H5]. unfold view. specialize (H5 a). unfold numbers in H5.
  destruct (sequences_at S a) as [|s l] eqn:Es; [done|]. intros [= <-].
  destruct (sequences_at_good S a s l H1 Es) as (n & o & -> & Hn). exists n, o. cbn.
  split; [done|]. split; [done|]. split; [|done]. apply Forall_forall. intros e He.
  unfold events_at in He. rewrite elem_of_sort_by in He. apply list_elem_of_filter in He as [Ha He].
  rewrite Forall_forall in H3. auto.
Qed.

Lemma keys_sorted {A : Type} (f : A → Z) l : StronglySorted Z.le (map f l) →
  StronglySorted (λ a b, (f a <= f b)%Z) l.
Proof.
  induction l as [|x l IH]; cbn; intros H; inv H as [|? ? Hs Hx]; constructor; [by apply IH|].
  apply Forall_forall. intros y Hy. rewrite Forall_forall in Hx. apply Hx, list_elem_of_fmap. by exists y.
Qed.

(** Events numbered from zero are in order. *)
Lemma sort_whole l n : (0 ≤ n)%Z → map ev_seq l = seqZ 0 n →
  sort_by (λ x y, (ev_seq x ?= ev_seq y)%Z) l = l.
Proof.
  intros Hn E. apply (sort_key_unique ev_seq); [rewrite E; apply NoDup_seqZ|done|].
  apply keys_sorted. rewrite E. by apply seqZ_sorted_from.
Qed.

Lemma unsorted_at_app E l b : unsorted_at (E ++ l) b = unsorted_at E b ++ unsorted_at l b.
Proof. apply filter_app. Qed.

Lemma unsorted_at_own l a : Forall (λ e, good_event e ∧ ev_aggregate e = Some a) l →
  ∀ b, unsorted_at l b = if decide (b = a) then l else [].
Proof.
  induction 1 as [|e l [_ Ha] _ IH]; intros b; [by case_decide|].
  unfold unsorted_at. rewrite filter_cons. fold (unsorted_at l b). rewrite IH.
  repeat case_decide; congruence.
Qed.

Lemma unsorted_at_empty S E a : valid S E → sequences_at S a = [] → unsorted_at E a = [].
Proof.
  intros [_ _ _ _ H5] Hs. specialize (H5 a). unfold numbers in H5. rewrite Hs in H5.
  apply map_eq_nil in H5. apply Permutation_nil_r. rewrite <-H5. symmetry. apply sort_by_perm.
Qed.

Lemma NoDup_omap_app {A B : Type} (f : A → option B) l k : NoDup (omap f l) → NoDup (omap f k) →
  (∀ x, x ∈ omap f k → x ∉ omap f l) → NoDup (omap f (l ++ k)).
Proof.
  intros Hl Hk Hd. rewrite omap_app. apply NoDup_app. split; [done|]. split; [|done].
  intros x Hx Hx'. by apply (Hd x).
Qed.

Lemma good_events l a : Forall (λ e, good_event e ∧ ev_aggregate e = Some a) l → Forall good_event l.
Proof. intros H. eapply Forall_impl; [exact H|]. by intros e [? _]. Qed.

Lemma add_history S E a h : valid S E → sequences_at S a = [] → whole a h →
  NoDup (omap ev_id (eh_events h)) → (∀ i, i ∈ omap ev_id (eh_events h) → i ∉ omap ev_id E) →
  valid (S ++ [eh_sequence h]) (E ++ eh_events h) ∧
  ∀ b, view (S ++ [eh_sequence h]) (E ++ eh_events h) b = if decide (b = a) then Some h else view S E b.
Proof.
  intros Hv Hs (n & o & Hseq & Hn & Hown & Hnum) Hnd Hfresh. destruct h as [s l]. cbn in *. subst s.
  assert (HS : ∀ b, sequences_at (S ++ [sequence_row a n o]) b =
    if decide (b = a) then [sequence_row a n o] else sequences_at S b).
  { intros b. unfold sequences_at. rewrite filter_app. fold (sequences_at S b).
    change (filter (λ r, sq_aggregate r = Some b) [sequence_row a n o]) with (sequences_at [sequence_row a n o] b).
    rewrite sequences_at_cons. case_decide as Eb; [subst b; by rewrite Hs|]. apply app_nil_r. }
  assert (HE : ∀ b, events_at (E ++ l) b = if decide (b = a) then l else events_at E b).
  { intros b. unfold events_at. rewrite unsorted_at_app, (unsorted_at_own l a Hown b).
    case_decide as Eb; [subst b|by rewrite app_nil_r]. rewrite (unsorted_at_empty S E a Hv Hs). cbn.
    apply (sort_whole _ (n + 1)); [lia|done]. }
  split.
  - destruct Hv as [H1 H2 H3 H4 H5]. split.
    + apply Forall_app. split; [done|]. apply Forall_singleton. by exists a, n, o.
    + apply NoDup_omap_app; [done|apply NoDup_singleton|]. intros x Hx%list_elem_of_singleton Hin. subst x.
      apply list_elem_of_omap in Hin as (r & Hr & Ha).
      assert (Hin : r ∈ sequences_at S a) by (by apply list_elem_of_filter).
      rewrite Hs in Hin. by apply not_elem_of_nil in Hin.
    + apply Forall_app. split; [done|]. by eapply good_events.
    + by apply NoDup_omap_app.
    + intros b. unfold numbers. rewrite HS, HE. case_decide; [done|]. apply H5.
  - intros b. unfold view. rewrite HS, HE. by case_decide.
Qed.

(** [UPDATE .. SET seq] on a row of the sequence table. *)
Definition renumber (a : str) (n : Z) (row : Row) : Row :=
  match values row with
  | Text b :: _ :: rest => if str_eqb b a then mkRow (Text b :: Integer n :: rest) else row
  | _ => row
  end.

Lemma renumber_row a n b m o : renumber a n (sequence_row b m o) =
  if decide (b = a) then sequence_row a n o else sequence_row b m o.
Proof.
  unfold renumber. cbn. case_decide as E; [subst b; by rewrite (proj2 (str_eqb_eq a a) eq_refl)|].
  destruct (str_eqb b a) eqn:Eb; [by apply str_eqb_eq in Eb|done].
Qed.

Lemma sequences_at_renumber S a n b : Forall good_sequence S →
  sequences_at (map (renumber a n) S) b = map (renumber a n) (sequences_at S b).
Proof.
  induction 1 as [|r S (c & m & o & -> & _) _ IH]; [done|]. cbn [map]. rewrite renumber_row.
  rewrite sequences_at_cons. case_decide as Ec; rewrite sequences_at_cons, IH; repeat case_decide;
    subst; try done; cbn [map]; rewrite renumber_row; by repeat case_decide.
Qed.

Lemma omap_renumber S a n : Forall good_sequence S →
  omap sq_aggregate (map (renumber a n) S) = omap sq_aggregate S.
Proof.
  induction 1 as [|r S (c & m & o & -> & _) _ IH]; [done|]. cbn [map omap list_omap]. rewrite renumber_row, IH.
  case_decide; by subst.
Qed.

Lemma extend_history S E a n owner n' l : valid S E →
  sequences_at S a = [sequence_row a n owner] → (0 ≤ n')%Z →
  Forall (λ e, good_event e ∧ ev_aggregate e = Some a) l →
  map ev_seq (events_at E a ++ l) = seqZ 0 (n' + 1) →
  NoDup (omap ev_id l) → (∀ i, i ∈ omap ev_id l → i ∉ omap ev_id E) →
  valid (map (renumber a n') S) (E ++ l) ∧
  ∀ b, view (map (renumber a n') S) (E ++ l) b =
    if decide (b = a) then Some (mkHistory (sequence_row a n' owner) (events_at E a ++ l)) else view S E b.
Proof.
  intros Hv Hs Hn' Hown Hnum Hnd Hfresh. pose proof Hv as [H1 H2 H3 H4 H5].
  assert (HS : ∀ b, sequences_at (map (renumber a n') S) b =
    if decide (b = a) then [sequence_row a n' owner] else sequences_at S b).
  { intros b. rewrite sequences_at_renumber by done. case_decide as Eb.
    - subst b. rewrite Hs. cbn [map]. rewrite renumber_row. by rewrite decide_True.
    - destruct (sequences_at S b) as [|s [|]] eqn:Es; [done| |].
      + destruct (sequences_at_good S b s _ H1 Es) as (m & o & -> & _). cbn [map]. rewrite renumber_row.
        by rewrite decide_False.
      + destruct (sequences_at_unique S b H1 H2) as [E'|[s' E']]; congruence. }
  assert (HE : ∀ b, events_at (E ++ l) b = if decide (b = a) then events_at E a ++ l else events_at E b).
  { intros b. unfold events_at. rewrite unsorted_at_app, (unsorted_at_own l a Hown b).
    case_decide as Eb; [subst b|by rewrite app_nil_r].
    apply (sort_key_unique ev_seq).
    - rewrite map_app, <-map_events_at_perm, <-map_app, Hnum. apply NoDup_seqZ.
    - by rewrite (sort_by_perm _ (unsorted_at E a)).
    - apply keys_sorted. change (sort_by _ (unsorted_at E a)) with (events_at E a).
      rewrite Hnum. apply seqZ_sorted_from. lia. }
  split.
  - split.
    + apply Forall_map. eapply Forall_impl; [exact H1|]. intros r (b & m & o & -> & Hm).
      change (good_sequence (renumber a n' (sequence_row b m o))).
      rewrite renumber_row. case_decide; do 3 eexists; done.
    + by rewrite omap_renumber.
    + apply Forall_app. split; [done|]. by eapply good_events.
    + by apply NoDup_omap_app.
    + intros b. unfold numbers. rewrite HS, HE. case_decide; [done|]. apply H5.
  - intros b. unfold view. rewrite HS, HE. by case_decide.
Qed.

(** ** What the check establishes *)

(** The ids of distinct histories are distinct. *)
Lemma omap_NoDup_inj {A B : Type} (f : A → option B) l x y b : NoDup (omap f l) → x ∈ l → y ∈ l →
  f x = Some b → f y = Some b → x = y.
Proof.
  induction l as [|z l IH]; intros Hnd Hx Hy Fx Fy; [by apply not_elem_of_nil in Hx|].
  cbn in Hnd. assert (Hin : ∀ u, u ∈ l → f u = Some b → b ∈ omap f l) by
    (intros u Hu Fu; apply list_elem_of_omap; by exists u).
  apply elem_of_cons in Hx as [->|Hx], Hy as [->|Hy]; [done| | |].
  - rewrite Fx in Hnd. apply NoDup_cons in Hnd as [Hb _]. destruct Hb. by apply (Hin y).
  - rewrite Fy in Hnd. apply NoDup_cons in Hnd as [Hb _]. destruct Hb. by apply (Hin x).
  - apply IH; try done. destruct (f z); [by apply NoDup_cons in Hnd as [_ ?]|done].
Qed.

Lemma view_events S E a h e : view S E a = Some h → e ∈ eh_events h → e ∈ E ∧ ev_aggregate e = Some a.
Proof.
  unfold view. destruct (sequences_at S a); [done|]. intros [= <-]. cbn. unfold events_at.
  rewrite elem_of_sort_by. by intros [? ?]%list_elem_of_filter.
Qed.

Lemma view_ids_disjoint S E a b h k i : valid S E → view S E a = Some h → view S E b = Some k →
  i ∈ omap ev_id (eh_events h) → i ∈ omap ev_id (eh_events k) → a = b.
Proof.
  intros Hv Ha Hb (x & Hx & Ix)%list_elem_of_omap (y & Hy & Iy)%list_elem_of_omap.
  destruct (view_events _ _ _ _ _ Ha Hx) as [Hx' Ax], (view_events _ _ _ _ _ Hb Hy) as [Hy' Ay].
  assert (x = y) as -> by (eapply (omap_NoDup_inj ev_id); [exact (va_ids _ _ Hv)|done..]). congruence.
Qed.

Lemma NoDup_omap_filter {A B : Type} (f : A → option B) (P : A → Prop) `{!∀ x, Decision (P x)} (l : list A) :
  NoDup (omap f l) → NoDup (omap f (filter P l)).
Proof.
  induction l as [|x l IH]; [done|]. rewrite filter_cons. cbn.
  assert (Hsub : ∀ b, b ∈ omap f (filter P l) → b ∈ omap f l).
  { intros b (y & [_ Hy]%list_elem_of_filter & Hf)%list_elem_of_omap. apply list_elem_of_omap. by exists y. }
  intros Hnd. case_decide; cbn; destruct (f x); try by apply IH.
  - apply NoDup_cons in Hnd as [Hb Hnd]. apply NoDup_cons. split; [|by apply IH]. intros Hin. by apply Hb, Hsub.
  - apply NoDup_cons in Hnd as [_ Hnd]. by apply IH.
Qed.

Lemma view_ids_NoDup S E a h : valid S E → view S E a = Some h → NoDup (omap ev_id (eh_events h)).
Proof.
  intros Hv. unfold view. destruct (sequences_at S a); [done|]. intros [= <-]. cbn. unfold events_at.
  rewrite (omap_perm _ _ _ (sort_by_perm _ (unsorted_at E a))). apply NoDup_omap_filter, (va_ids _ _ Hv).
Qed.

(** Every event is in the history of its aggregate. *)
Lemma event_in_view S E e : valid S E → e ∈ E →
  ∃ a h, ev_aggregate e = Some a ∧ view S E a = Some h ∧ e ∈ eh_events h.
Proof.
  intros Hv He. pose proof (va_events _ _ Hv) as Hg. rewrite Forall_forall in Hg.
  destruct (Hg e He) as (i & a & n & ty & data & ->). set (e := event_row i a n ty data) in *.
  assert (Hin : e ∈ events_at E a) by (unfold events_at; rewrite elem_of_sort_by; by apply list_elem_of_filter).
  assert (Hk : ev_seq e ∈ numbers S a) by (rewrite <-(va_whole _ _ Hv); by apply list_elem_of_fmap_2).
  exists a. unfold view, numbers in *. destruct (sequences_at S a) as [|s l]; [by apply not_elem_of_nil in Hk|].
  by exists (mkHistory s (events_at E a)).
Qed.

(** What the event check accepts is a set of complete histories.  When a database passes
    [validate_event_graph], grouping its events succeeds; the history of every aggregate
    is its sequence row with events numbered zero to the number the row holds, in that
    order, none missing and none twice; every event is in the history of its aggregate and
    in no other; and no id occurs in two histories. *)
Theorem histories_whole tables st et rows label :
  find_table tables $"event_sequence" = Some st → find_table tables $"event" = Some et →
  t_columns st = sequence_columns → t_columns et = event_columns →
  Forall (λ r, length (values r) = 3%nat) (rows_of rows $"event_sequence") →
  Forall (λ r, length (values r) = 5%nat) (rows_of rows $"event") →
  validate_event_graph tables rows label = inr () →
  ∃ hs, event_histories st et rows = inr hs ∧
    (∀ a h, hs !! a = Some h → whole a h ∧ eh_sequence h ∈ rows_of rows $"event_sequence") ∧
    (∀ e, e ∈ rows_of rows $"event" →
       ∃ a h, ev_aggregate e = Some a ∧ hs !! a = Some h ∧ e ∈ eh_events h) ∧
    ∀ a b h k i, hs !! a = Some h → hs !! b = Some k →
      i ∈ omap ev_id (eh_events h) → i ∈ omap ev_id (eh_events k) → a = b.
Proof.
  intros Hst Het Cst Cet HS HE Hok.
  pose proof (validate_inv tables st et rows Hst Het Cst Cet label HS HE Hok) as Hv.
  destruct (histories_view st et Cst Cet rows Hv) as (hs & Hhs & Hl). exists hs. split; [done|].
  split; [|split].
  - intros a h. rewrite Hl. intros Hh. split; [by eapply view_whole|]. unfold view in Hh.
    destruct (sequences_at _ a) as [|s l] eqn:Es; [done|]. injection Hh as <-. cbn.
    assert (Hin : s ∈ sequences_at (rows_of rows $"event_sequence") a) by (rewrite Es; left).
    by apply list_elem_of_filter in Hin as [_ ?].
  - intros e He. destruct (event_in_view _ _ e Hv He) as (a & h & Ha & Hh & Hin). exists a, h. by rewrite Hl.
  - intros a b h k i. rewrite !Hl. by apply view_ids_disjoint.
Qed.

Module Examples.
Definition a_table (name : str) (columns : list str) : Table :=
  mkTable name [] columns [0%nat] [] [] false false [] true true.
Definition st := a_table $"event_sequence" sequence_columns.
Definition et := a_table $"event" event_columns.
Definition event_of (id : str) (n : Z) : Row := event_row id $"ses_1" n $"t" $"{}".
Definition a_journal : gmap str (list Row) :=
  <[ $"event_sequence" := [sequence_row $"ses_1" 1 Null]]>
  (<[ $"event" := [event_of $"b" 1; event_of $"a" 0]]> ∅).

Lemma histories_whole_witness :
  ∃ hs, event_histories st et a_journal = inr hs ∧
    ∀ h, hs !! $"ses_1" = Some h → whole $"ses_1" h.
Proof.
  destruct (histories_whole [st; et] st et a_journal $"here") as (hs & Hhs & H & _);
    [reflexivity|reflexivity|reflexivity|reflexivity| | |vm_compute; reflexivity|].
  - repeat (apply Forall_cons; split; [reflexivity|]). constructor.
  - repeat (apply Forall_cons; split; [reflexivity|]). constructor.
  - exists hs. split; [exact Hhs|]. intros h Hh. by apply H.
Defined.
End Examples.
