(* ===== verification/OcMerge.v ===== *)
(** * Merging into a private database: [crates/rtrt-cli/src/opencode_sessions.rs], merge

    What a migration does to one destination: the schema is completed, event histories
    are extended or archived, rows are added where none is, all in one transaction.
    A database is its catalog and the cells of its tables; what SQLite decides (the order
    of a scan, affinity, constraints, collation, its own checks) is behind [Sqlite].
    Statements and file operations may fail, as the list of faults says.
    [MergeSafety] shows what is kept and what arrives. *)
From stdpp Require Import gmap sets.
From S2P Require Import Prelude Str.
From S2P Require Import Wire OcRows OcEvents OcSchema.

(** ** Databases *)

Abbreviation Cells := (list ValueRef) (only parsing).

Record Database := mkDatabase {
  db_catalog : Catalog;
  db_tables : gmap str (list (list ValueRef));
}.

Definition cells_of (d : Database) (table : str) : list Cells := default [] (db_tables d !! table).

(** A file without content. *)
Definition empty_database : Database :=
  mkDatabase (mkCatalog [] (λ _, []) (λ _, []) (λ _, None) (λ _, []) (λ _, [])) ∅.

Class Sqlite := {
  alphanumeric : char → bool;
  (** The order in which [SELECT] visits the rows of a table. *)
  scan : str → list (list ValueRef) → list (list ValueRef);
  (** The cells stored for bound values, after the affinity of the columns. *)
  stored : Catalog → str → list ValueRef → list ValueRef;
  (** The constraint an [INSERT] breaks. *)
  rejects : Database → str → list ValueRef → option str;
  (** [column IS ?] on a cell and a bound value. *)
  cell_is : Catalog → str → str → ValueRef → ValueRef → bool;
  (** [execute_batch] of the SQL of a table or an index. *)
  created : Catalog → str → str + Catalog;
  (** [PRAGMA integrity_check] and [pragma_foreign_key_check]. *)
  integrity : Database → str;
  foreign_key_violations : Database → Z;
}.

(** ** Effects *)

(** [w_db] is the connection's view inside the transaction; [w_forks] the archive of
    histories, committed on its own. *)
Record World := mkWorld {
  w_destination : option Database;
  w_staging : option Database;
  w_db : Database;
  w_forks : gmap str EventHistory;
  w_faults : list (option str);
}.

Definition Merge (A : Type) : Type := World → (str + A) * World.

#[export] Instance Merge_ret : MRet Merge := λ A a w, (inr a, w).
#[export] Instance Merge_bind : MBind Merge := λ A B k m w,
  match m w with
  | (inr a, w') => k a w'
  | (inl e, w') => (inl e, w')
  end.

Definition lift {A : Type} (r : str + A) : Merge A := λ w, (r, w).
Definition fails {A : Type} (e : str) : Merge A := lift (inl e).

Definition with_faults (fs : list (option str)) (w : World) : World :=
  mkWorld (w_destination w) (w_staging w) (w_db w) (w_forks w) fs.
Definition with_db (d : Database) (w : World) : World :=
  mkWorld (w_destination w) (w_staging w) d (w_forks w) (w_faults w).
Definition with_forks (f : gmap str EventHistory) (w : World) : World :=
  mkWorld (w_destination w) (w_staging w) (w_db w) f (w_faults w).
Definition with_files (destination staging : option Database) (w : World) : World :=
  mkWorld destination staging (w_db w) (w_forks w) (w_faults w).

(** A step that may fail. *)
Definition tick : Merge () := λ w,
  match w_faults w with
  | Some e :: fs => (inl e, with_faults fs w)
  | None :: fs => (inr (), with_faults fs w)
  | [] => (inr (), w)
  end.

Definition get_db : Merge Database := λ w, (inr (w_db w), w).
Definition put_db (d : Database) : Merge () := λ w, (inr (), with_db d w).
Definition get_destination : Merge (option Database) := λ w, (inr (w_destination w), w).
Definition get_staging : Merge (option Database) := λ w, (inr (w_staging w), w).
Definition put_files (destination staging : option Database) : Merge () :=
  λ w, (inr (), with_files destination staging w).
Definition get_forks : Merge (gmap str EventHistory) := λ w, (inr (w_forks w), w).
Definition put_forks (f : gmap str EventHistory) : Merge () := λ w, (inr (), with_forks f w).
Definition query {A : Type} (f : Database → str + A) : Merge A :=
  tick ≫= λ _, d ← get_db; lift (f d).

Fixpoint fold_m {A S : Type} (f : S → A → Merge S) (s : S) (l : list A) : Merge S :=
  match l with
  | [] => mret s
  | x :: l' => s' ← f s x; fold_m f s' l'
  end.

Record MergeOutcome := mkOutcome {
  o_changed : N;
  o_conflicts : N;
  o_private_preserved_conflicts : N;
  o_archived_event_forks : N;
}.
Definition no_outcome : MergeOutcome := mkOutcome 0 0 0 0.
Definition add_changed (n : N) (o : MergeOutcome) : MergeOutcome :=
  mkOutcome (o_changed o + n) (o_conflicts o) (o_private_preserved_conflicts o) (o_archived_event_forks o).
Definition add_conflict (o : MergeOutcome) : MergeOutcome :=
  mkOutcome (o_changed o) (o_conflicts o + 1) (o_private_preserved_conflicts o) (o_archived_event_forks o).
Definition add_preserved (o : MergeOutcome) : MergeOutcome :=
  mkOutcome (o_changed o) (o_conflicts o + 1) (o_private_preserved_conflicts o + 1)
    (o_archived_event_forks o).
Definition add_fork (inserted : bool) (o : MergeOutcome) : MergeOutcome :=
  mkOutcome (o_changed o) (o_conflicts o) (o_private_preserved_conflicts o)
    (o_archived_event_forks o + if inserted then 1 else 0).

Section Merging.
Context `{Sqlite}.

(** ** Rows *)

Definition read_row (cells : Cells) : Row := mkRow (map value_owned cells).

Definition read_table (d : Database) (t : Table) : list Row :=
  if t_copy_rows t then map read_row (scan (t_name t) (cells_of d (t_name t))) else [].

Definition read_rows (d : Database) (tables : list Table) : RowsByTable :=
  foldl (λ m t, <[t_name t := read_table d t]> m) ∅ tables.

Definition insert_cells (d : Database) (table : str) (cells : Cells) : Database :=
  mkDatabase (db_catalog d) (<[table := cells_of d table ++ [cells]]> (db_tables d)).

Definition insert_row (t : Table) (row : Row) : Merge () :=
  tick ≫= λ _,
  d ← get_db;
  let cells := stored (db_catalog d) (t_name t) (map bound (values row)) in
  match rejects d (t_name t) cells with
  | Some constraint => fails constraint
  | None => put_db (insert_cells d (t_name t) cells)
  end.

Inductive RowMerge := Inserted | Identical | Conflict.

(** The key columns of a row, with their names. *)
Definition key_of (t : Table) (row : Row) : list (nat * ValueRef) :=
  omap (λ i, v ← values row !! i; Some (i, bound v)) (t_primary_key t).

Definition matches_key (cat : Catalog) (t : Table) (key : list (nat * ValueRef)) (cells : Cells) : bool :=
  forallb (λ k, match t_columns t !! k.1, cells !! k.1 with
                | Some column, Some cell => cell_is cat (t_name t) column cell k.2
                | _, _ => false
                end) key.

Definition insert_or_compare (t : Table) (row : Row) : Merge RowMerge :=
  match t_primary_key t with
  | [] => insert_row t row ≫= λ _, mret Inserted
  | _ =>
      existing ← query (λ d, inr (List.find (matches_key (db_catalog d) t (key_of t row))
                                   (scan (t_name t) (cells_of d (t_name t)))));
      match existing with
      | Some cells =>
          mret (if values_eqb (map value_owned cells) (values row) then Identical else Conflict)
      | None => insert_row t row ≫= λ _, mret Inserted
      end
  end.

(** [typeof(column) = ? AND column IS ?]. *)
Definition typeof (c : ValueRef) : N :=
  match c with NullRef => 0 | IntegerRef _ => 1 | RealRef _ => 2 | TextRef _ => 3 | BlobRef _ => 4 end.
Definition sqlite_value_type (v : Value) : N :=
  match v with Null => 0 | Integer _ => 1 | Real _ => 2 | Text _ => 3 | Blob _ => 4 end.

Fixpoint same_cells (cat : Catalog) (table : str) (columns : list str) (cells : Cells) (l : list Value) : bool :=
  match columns, cells, l with
  | column :: columns', cell :: cells', v :: l' =>
      (typeof cell =? sqlite_value_type v) && cell_is cat table column cell (bound v) &&
      same_cells cat table columns' cells' l'
  | _, _, _ => true
  end.

(** The rows of the source, counted by key. *)
Definition count_row (m : gmap str (Row * N)) (row : Row) : gmap str (Row * N) :=
  <[row_key row := match m !! row_key row with
                   | Some (first, n) => (first, n + 1)
                   | None => (row, 1)
                   end]> m.

Fixpoint insert_times (n : nat) (t : Table) (row : Row) : Merge () :=
  match n with
  | O => mret ()
  | S n' => insert_row t row ≫= λ _, insert_times n' t row
  end.

Definition merge_keyless_row (t : Table) (changed : N) (counted : Row * N) : Merge N :=
  destination_count ← query (λ d, inr (length (List.filter
    (λ cells, same_cells (db_catalog d) (t_name t) (t_columns t) cells (values counted.1))
    (cells_of d (t_name t)))));
  let missing := (N.to_nat counted.2 - destination_count)%nat in
  insert_times missing t counted.1 ≫= λ _, mret (changed + N.of_nat missing).

Definition merge_keyless_rows (t : Table) (rows : list Row) : Merge N :=
  fold_m (merge_keyless_row t) 0 (map snd (btree_list (foldl count_row ∅ rows))).

(** ** The archive of histories *)

(** The stored events come back [ORDER BY seq]. *)
Definition stored_events (h : EventHistory) : list Row :=
  sort_by (λ a b, (seq_key 2 a ?= seq_key 2 b)%Z) (eh_events h).

Fixpoint rows_eqb (a b : list Row) : bool :=
  match a, b with
  | [], [] => true
  | x :: a', y :: b' => row_eqb x y && rows_eqb a' b'
  | _, _ => false
  end.

Definition same_history (archived history : EventHistory) : bool :=
  row_eqb (eh_sequence archived) (eh_sequence history) &&
  rows_eqb (stored_events archived) (eh_events history).

Definition distinct_seqs (l : list Row) : bool := bool_decide (NoDup (map (seq_key 2) l)).

(** The transaction on the archive, and the two [fsync]s after it. *)
Definition archive_event_fork (history : EventHistory) : Merge bool :=
  tick ≫= λ _,
  forks ← get_forks;
  inserted ← match forks !! fork_id history with
             | None =>
                 if distinct_seqs (eh_events history)
                 then tick ≫= λ _, put_forks (<[fork_id history := history]> forks) ≫= λ _, mret true
                 else fails $"UNIQUE constraint failed"
             | Some archived =>
                 if same_history archived history then tick ≫= λ _, mret false
                 else fails $"event fork archive hash collision or corruption"
             end;
  tick ≫= λ _, tick ≫= λ _, mret inserted.

(** ** Events *)

Definition global_label : str := $"global OpenCode database".
Definition private_label : str := $"private OpenCode database".

Definition event_ids (t : Table) (label : str) (l : list Row) : str + list str :=
  mapM (λ row, required_text t row $"id" label) l.

(** [try_fold(false, ..)]: ids are looked at only until one is reused. *)
Fixpoint reuses (t : Table) (destination_ids : gset str) (l : list Row) : str + bool :=
  match l with
  | [] => inr false
  | row :: rest =>
      id ← required_text t row $"id" global_label;
      if bool_decide (id ∈ destination_ids) then inr true else reuses t destination_ids rest
  end.

Definition insert_events (t : Table) (o : MergeOutcome) (l : list Row) : Merge MergeOutcome :=
  fold_m (λ o event, insert_row t event ≫= λ _, mret (add_changed 1 o)) o l.

Definition archive (history : EventHistory) (o : MergeOutcome) : Merge MergeOutcome :=
  inserted ← archive_event_fork history;
  mret (add_conflict (add_fork inserted o)).

(** [UPDATE event_sequence SET seq=?1 WHERE aggregate_id=?2]. *)
Definition set_seq (cat : Catalog) (aggregate : str) (seq : Z) (cells : Cells) : Cells :=
  match cells with
  | key :: _ :: rest =>
      if cell_is cat $"event_sequence" $"aggregate_id" key (TextRef (Utf8.as_bytes aggregate))
      then key :: IntegerRef seq :: rest else cells
  | _ => cells
  end.
Definition update_seq (aggregate : str) (seq : Z) : Merge () :=
  tick ≫= λ _,
  d ← get_db;
  put_db (mkDatabase (db_catalog d)
            (<[ $"event_sequence" :=
                map (set_seq (db_catalog d) aggregate seq) (cells_of d $"event_sequence")]> (db_tables d))).

(** The body of the loop over the source's histories. *)
Definition merge_history (sequence_table event_table : Table) (destination : gmap str EventHistory)
    (destination_ids : gset str) (o : MergeOutcome) (source : str * EventHistory) : Merge MergeOutcome :=
  let source_history := source.2 in
  match destination !! source.1 with
  | None =>
      reused ← lift (reuses event_table destination_ids (eh_events source_history));
      if reused : bool then archive source_history o
      else
        insert_row sequence_table (eh_sequence source_history) ≫= λ _,
        insert_events event_table (add_changed 1 o) (eh_events source_history)
  | Some private_history =>
      let common_len := Nat.min (length (eh_events source_history)) (length (eh_events private_history)) in
      let common_is_identical :=
        rows_eqb (take common_len (eh_events source_history)) (take common_len (eh_events private_history)) in
      reused ← lift (reuses event_table destination_ids (drop common_len (eh_events source_history)));
      if negb common_is_identical || reused then archive source_history o
      else if (length (eh_events source_history) <=? length (eh_events private_history))%nat then mret o
      else
        o ← insert_events event_table o (drop common_len (eh_events source_history));
        source_seq ← lift (required_integer sequence_table (eh_sequence source_history) $"seq" global_label);
        update_seq source.1 source_seq ≫= λ _, mret (add_changed 1 o)
  end.

Definition merge_event_graph (tables : list Table) (source_rows : RowsByTable) (o : MergeOutcome) :
    Merge MergeOutcome :=
  match find_table tables $"event_sequence" with
  | None => mret o
  | Some sequence_table =>
      event_table ← lift (context_option $"event table missing" (find_table tables $"event"));
      destination_rows ← query (λ d, inr (read_rows d [sequence_table; event_table]));
      lift (validate_event_graph [sequence_table; event_table] destination_rows private_label) ≫= λ _,
      source ← lift (event_histories sequence_table event_table source_rows);
      destination ← lift (event_histories sequence_table event_table destination_rows);
      ids ← lift (event_ids event_table private_label
                    (concat (map (λ h, eh_events h.2) (btree_list destination))));
      fold_m (merge_history sequence_table event_table destination (list_to_set ids)) o (btree_list source)
  end.

(** ** The destination *)

Definition execute_batch (sql : str) : Merge () :=
  tick ≫= λ _,
  d ← get_db;
  cat ← lift (created (db_catalog d) sql);
  put_db (mkDatabase cat (db_tables d)).

Definition ensure_table (t : Table) : Merge () :=
  exists_ ← query (λ d, inr (find_object (db_catalog d) $"table" (t_name t)));
  match exists_ with
  | None => execute_batch (t_sql t)
  | Some _ =>
      query (λ d,
        let cat := db_catalog d in
        columns ← table_column_specs alphanumeric cat (t_name t);
        options ← table_options cat (t_name t);
        sql ← schema_object_sql cat $"table" (t_name t);
        if negb (bool_decide (columns = t_column_specs t))
           || negb (bool_decide (table_foreign_keys cat (t_name t) = t_foreign_keys t))
           || negb (Bool.eqb options.1 (t_without_rowid t)) || negb (Bool.eqb options.2 (t_strict t))
        then bail (table_conflict (t_name t))
        else
          signature ← schema_sql_signature alphanumeric sql;
          if str_eqb signature (t_sql_signature t) then inr () else bail (table_conflict (t_name t)))
  end.

Definition ensure_index (i : Index) : Merge () :=
  existing ← query (λ d, inr (find_index_table (db_catalog d) (i_name i)));
  match existing with
  | Some table => query (λ d, check_index alphanumeric (db_catalog d) i table)
  | None => execute_batch (i_sql i)
  end.

Definition check_integrity : Merge () :=
  query (λ d, if str_eqb (integrity d) $"ok" then inr ()
              else bail $"destination OpenCode integrity check failed") ≫= λ _,
  query (λ d, if (foreign_key_violations d =? 0)%Z then inr ()
              else bail $"destination OpenCode foreign-key check failed").

Definition check_existing : Merge () :=
  check_integrity ≫= λ _,
  query (λ d,
    probed ← probe_schema alphanumeric (db_catalog d) false;
    validate_event_schema (db_catalog d) probed.1 false ≫= λ _,
    validate_event_graph probed.1 (read_rows d probed.1) private_label).

(** The tables whose rows are merged here. *)
Definition merges_rows (existed : bool) (t : Table) : bool :=
  t_copy_rows t && (negb (listed SCHEMA_TABLES (t_name t)) || negb existed) &&
  negb (listed [ $"event"; $"event_sequence"] (t_name t)).

Definition merge_row (t : Table) (o : MergeOutcome) (row : Row) : Merge MergeOutcome :=
  merged ← insert_or_compare t row;
  mret (match merged with
        | Inserted => add_changed 1 o
        | Identical => o
        | Conflict => add_preserved o
        end).

Definition merge_table (rows : RowsByTable) (o : MergeOutcome) (t : Table) : Merge MergeOutcome :=
  match t_primary_key t with
  | [] => changed ← merge_keyless_rows t (rows_of rows (t_name t)); mret (add_changed changed o)
  | _ => fold_m (merge_row t) o (rows_of rows (t_name t))
  end.

(** The closure run inside the transaction. *)
Definition merge_body (existed : bool) (tables : list Table) (indexes : list Index) (rows : RowsByTable) :
    Merge MergeOutcome :=
  (if existed then check_existing else mret ()) ≫= λ _,
  fold_m (λ _ t, ensure_table t) () (List.filter t_create_schema tables) ≫= λ _,
  fold_m (λ _ i, ensure_index i) () indexes ≫= λ _,
  o ← merge_event_graph tables rows no_outcome;
  o ← fold_m (merge_table rows) o (List.filter (merges_rows existed) tables);
  query (λ d, validate_complete_destination alphanumeric (db_catalog d) tables indexes) ≫= λ _,
  check_integrity ≫= λ _, mret o.

(** Making the directory and the file ready, and opening the database; a new one is built
    beside its place. *)
Definition open_destination : Merge bool :=
  tick ≫= λ _,
  destination ← get_destination;
  match destination with
  | Some d => tick ≫= λ _, put_db d ≫= λ _, mret true
  | None =>
      put_files None (Some empty_database) ≫= λ _,
      tick ≫= λ _, put_db empty_database ≫= λ _, mret false
  end.

Definition commit (existed : bool) : Merge () :=
  tick ≫= λ _,
  d ← get_db;
  staging ← get_staging;
  if existed : bool then put_files (Some d) staging
  else
    put_files None (Some d) ≫= λ _,
    tick ≫= λ _, put_files (Some d) None ≫= λ _, tick.

(** A failure drops the transaction; a staging file is removed if it can be. *)
Definition discard (existed : bool) : Merge () :=
  if existed then mret ()
  else destination ← get_destination; tick ≫= λ _, put_files destination None.

(** [match result]. *)
Definition conclude (existed : bool) (body : Merge MergeOutcome) : Merge MergeOutcome := λ w,
  match body w with
  | (inr o, w') => (commit existed ≫= λ _, mret o) w'
  | (inl e, w') => (inl e, (discard existed w').2)
  end.

Definition merge_destination (tables : list Table) (indexes : list Index) (rows : RowsByTable) :
    Merge MergeOutcome :=
  existed ← open_destination;
  conclude existed (merge_body existed tables indexes rows).
End Merging.
