(* ===== verification/MergeSafety.v ===== *)
(** * What a merge keeps and what arrives

    Properties of [OcMerge]: private event histories are only ever extended, the source's
    are in the result or in the archive; private rows stay as they are, the source's are
    there or give way to a private row of the same key; and a merge that fails leaves the
    destination alone. *)
From stdpp Require Import gmap sets.
From S2P Require Import Prelude Str Utf8.
From S2P Require Import Wire OcRows OcEvents OcSchema.
From S2P Require Import EventSafety OcMerge.

(** ** Reasoning about merges *)

(** When [m] succeeds from [w], then [Q]. *)
Definition ends {A : Type} (m : Merge A) (w : World) (Q : A → World → Prop) : Prop :=
  match m w with (inr a, w') => Q a w' | (inl _, _) => True end.

Lemma ends_ret {A : Type} (a : A) w (Q : A → World → Prop) : Q a w → ends (mret a) w Q.
Proof. done. Qed.

Lemma ends_bind {A B : Type} (m : Merge A) (k : A → Merge B) w Q :
  ends m w (λ a w', ends (k a) w' Q) → ends (m ≫= k) w Q.
Proof. unfold ends, mbind, Merge_bind. by destruct (m w) as [[e|a] w']. Qed.

Lemma ends_weaken {A : Type} (m : Merge A) w (Q R : A → World → Prop) :
  ends m w Q → (∀ a w', Q a w' → R a w') → ends m w R.
Proof. unfold ends. destruct (m w) as [[e|a] w']; auto. Qed.

Lemma ends_lift {A : Type} (r : str + A) w (Q : A → World → Prop) :
  (∀ a, r = inr a → Q a w) → ends (lift r) w Q.
Proof. unfold ends, lift. destruct r; auto. Qed.

Lemma ends_tick w (Q : () → World → Prop) : (∀ fs, Q () (with_faults fs w)) → ends tick w Q.
Proof.
  intros HQ. unfold ends, tick. destruct (w_faults w) as [|[e|] fs] eqn:E; [|done|apply HQ].
  specialize (HQ []). destruct w; cbn in *; by subst.
Qed.

Lemma ends_query {A : Type} (f : Database → str + A) w (Q : A → World → Prop) :
  (∀ fs a, f (w_db w) = inr a → Q a (with_faults fs w)) → ends (query f) w Q.
Proof.
  intros HQ. apply ends_bind, ends_tick. intros fs. apply ends_lift. intros a. apply HQ.
Qed.

Lemma ends_fold {A S : Type} (I : list A → S → World → Prop) (f : S → A → Merge S) (l : list A) s w :
  (∀ dn x rest s w, l = dn ++ x :: rest → I dn s w → ends (f s x) w (λ s' w', I (dn ++ [x]) s' w')) →
  I [] s w → ends (fold_m f s l) w (I l).
Proof.
  assert (Hgen : ∀ rest dn s w, l = dn ++ rest →
    (∀ dn x rest s w, l = dn ++ x :: rest → I dn s w → ends (f s x) w (λ s' w', I (dn ++ [x]) s' w')) →
    I dn s w → ends (fold_m f s rest) w (I l)).
  { induction rest as [|x rest IH]; intros dn s0 w0 E Hstep HI; cbn [fold_m].
    - rewrite app_nil_r in E. subst dn. by apply ends_ret.
    - apply ends_bind. eapply ends_weaken; [by eapply Hstep|]. intros s1 w1 HI1.
      apply (IH (dn ++ [x])); [by rewrite <-app_assoc|done..]. }
  intros Hstep HI. by apply (Hgen l []).
Qed.

(** *** What holds of every run, failed ones too *)

Definition respects (R : World → World → Prop) {A : Type} (m : Merge A) : Prop := ∀ w, R w (m w).2.

Section Respects.
Context (R : World → World → Prop) `{!PreOrder R}.

Lemma respects_ret {A : Type} (a : A) : respects R (mret a).
Proof using PreOrder0. intros w. cbn. reflexivity. Qed.
Lemma respects_lift {A : Type} (r : str + A) : respects R (lift r).
Proof using PreOrder0. intros w. cbn. reflexivity. Qed.
Lemma respects_fails {A : Type} e : respects R (fails (A:=A) e).
Proof using PreOrder0. intros w. cbn. reflexivity. Qed.
Lemma respects_get_db : respects R get_db.
Proof using PreOrder0. intros w. cbn. reflexivity. Qed.
Lemma respects_get_forks : respects R get_forks.
Proof using PreOrder0. intros w. cbn. reflexivity. Qed.

(** It is enough that each step respects [R] where it is run. *)
Lemma respects_from {A B : Type} (m : Merge A) (k : A → Merge B) w :
  R w (m w).2 → (∀ a w', m w = (inr a, w') → R w' (k a w').2) → R w ((m ≫= k) w).2.
Proof using PreOrder0.
  intros Hm Hk. unfold mbind, Merge_bind. destruct (m w) as [[e|a] w'] eqn:E; [done|].
  etrans; [exact Hm|by apply Hk].
Qed.

Lemma respects_bind {A B : Type} (m : Merge A) (k : A → Merge B) :
  respects R m → (∀ a, respects R (k a)) → respects R (m ≫= k).
Proof using PreOrder0. intros Hm Hk w. apply respects_from; [apply Hm|]. intros a w' _. apply Hk. Qed.

(** What a pure step answered is known to the rest. *)
Lemma respects_known {A B : Type} (r : str + A) (k : A → Merge B) :
  (∀ a, r = inr a → respects R (k a)) → respects R (lift r ≫= k).
Proof using PreOrder0.
  intros Hk w. unfold mbind, Merge_bind, lift. destruct r as [e|a]; [cbn; reflexivity|by apply Hk].
Qed.

Lemma respects_query {A : Type} (g : Database → str + A) : respects R tick → respects R (query g).
Proof using PreOrder0.
  intros Ht. apply respects_bind; [done|intros _]. apply respects_bind; [apply respects_get_db|].
  intros d. apply respects_lift.
Qed.

Lemma respects_fold {A S : Type} (f : S → A → Merge S) l :
  (∀ s x, x ∈ l → respects R (f s x)) → ∀ s, respects R (fold_m f s l).
Proof using PreOrder0.
  induction l as [|x l IH]; intros Hf s; cbn [fold_m]; [apply respects_ret|].
  apply respects_bind; [apply Hf; left|]. intros s'. apply IH. intros s'' y Hy. apply Hf. by right.
Qed.
End Respects.

Lemma tick_inv w u w' : tick w = (inr u, w') → ∃ fs, w' = with_faults fs w.
Proof.
  unfold tick. destruct (w_faults w) as [|[e|] fs] eqn:E; intros [=].
  - exists []. subst. destruct w'; cbn in *; by subst.
  - exists fs. by subst.
Qed.

(** ** Rows in and out of cells *)

Definition row_scalar (row : Row) : Prop := Forall value_scalar (values row).

Lemma read_bound row : row_scalar row → read_row (map bound (values row)) = row.
Proof.
  destruct row as [l]. unfold read_row, row_scalar. cbn. intros H. f_equal.
  induction H as [|v l Hv _ IH]; [done|]. cbn. by rewrite owned_bound, IH.
Qed.

Lemma clean_bound v : value_scalar v → cell_clean (bound v).
Proof. intros H. unfold cell_clean. by rewrite owned_bound. Qed.

Lemma read_row_scalar cells : row_scalar (read_row cells).
Proof. unfold row_scalar, read_row. cbn. apply Forall_map, Forall_true. apply value_owned_scalar. Qed.

(** The rows of the event tables of a database. *)
Definition sequences (d : Database) : list Row := map read_row (cells_of d $"event_sequence").
Definition events (d : Database) : list Row := map read_row (cells_of d $"event").

(** A text read back is the text that was stored, where it is a key. *)
Definition keys_clean (d : Database) : Prop :=
  Forall (λ cells, match cells with c :: _ => cell_clean c | [] => True end) (cells_of d $"event_sequence").

Lemma cells_of_insert d t cells t' : cells_of (insert_cells d t cells) t' =
  if decide (t' = t) then cells_of d t ++ [cells] else cells_of d t'.
Proof.
  unfold cells_of, insert_cells. cbn. case_decide as E; [subst; by rewrite lookup_insert_eq|].
  by rewrite lookup_insert_ne.
Qed.

(** ** Event histories *)

(** The cells the columns of the event tables are declared for. *)
Definition text_fit (c : ValueRef) : Prop :=
  match c with IntegerRef _ | RealRef _ => False | _ => True end.
Definition event_fit (cells : list ValueRef) : Prop :=
  ∃ id a n ty data, cells = [TextRef id; TextRef a; IntegerRef n; TextRef ty; TextRef data].
Definition sequence_fit (cells : list ValueRef) : Prop :=
  ∃ a n owner, cells = [TextRef a; IntegerRef n; owner] ∧ text_fit owner.

(** What the merge of histories relies on in SQLite: a scan visits every row once, a text in a
    text column and an integer in an integer column are stored as they are, and the
    aggregate's column compares texts byte by byte. *)
Class EventSqlite `{Sqlite} : Prop := {
  scan_perm table l : scan table l ≡ₚ l;
  stored_event cat cells : event_fit cells → stored cat $"event" cells = cells;
  stored_sequence cat cells : sequence_fit cells → stored cat $"event_sequence" cells = cells;
  key_binary cat c b :
    cell_is cat $"event_sequence" $"aggregate_id" c (TextRef b) = bool_decide (c = TextRef b);
}.

(** *** What becomes of one history *)

Definition reused (ids : gset str) (l : list Row) : bool :=
  existsb (λ e, match ev_id e with Some i => bool_decide (i ∈ ids) | None => false end) l.

Definition common_len (p s : EventHistory) : nat := Nat.min (length (eh_events s)) (length (eh_events p)).

(** The source's history is not one more or less of the private one. *)
Definition diverges (ids : gset str) (p s : EventHistory) : bool :=
  negb (bool_decide (take (common_len p s) (eh_events s) = take (common_len p s) (eh_events p)))
  || reused ids (drop (common_len p s) (eh_events s)).

(** Whether the source's history [s] goes to the archive, where the private one is [p]. *)
Definition set_aside (ids : gset str) (p : option EventHistory) (s : EventHistory) : bool :=
  match p with
  | None => reused ids (eh_events s)
  | Some p => diverges ids p s
  end.

(** The history afterwards. *)
Definition merged_history (ids : gset str) (a : str) (p : option EventHistory) (s : EventHistory) :
    option EventHistory :=
  if set_aside ids p s then p
  else match p with
       | None => Some s
       | Some q =>
           if (length (eh_events s) <=? length (eh_events q))%nat then Some q
           else Some (mkHistory (renumber a (sq_seq (eh_sequence s)) (eh_sequence q)) (eh_events s))
       end.

Lemma values_eqb_refl l : Forall (λ v, match v with Real _ => False | _ => True end) l → values_eqb l l = true.
Proof.
  induction 1 as [|v l Hv _ IH]; [done|]. cbn. rewrite IH, andb_true_r. destruct v; cbn; try done.
  - apply Z.eqb_refl.
  - by apply str_eqb_eq.
  - by apply bool_decide_eq_true.
Qed.

Lemma event_eqb x y : good_event x → good_event y → row_eqb x y = true ↔ x = y.
Proof.
  intros (i & a & n & ty & data & ->) (i' & a' & n' & ty' & data' & ->). unfold row_eqb.
  unfold event_row. cbn [values]. rewrite values_eqb_eq; [|by repeat constructor..].
  split; [by intros [= -> -> -> -> ->]|by intros [= -> -> -> -> ->]].
Qed.

Lemma rows_eqb_eq l : ∀ k, Forall good_event l → Forall good_event k → rows_eqb l k = true ↔ l = k.
Proof.
  induction l as [|x l IH]; intros [|y k] Hl Hk; cbn; try (split; done).
  apply Forall_cons in Hl as [Hx Hl], Hk as [Hy Hk]. rewrite andb_true_iff, event_eqb, IH by done.
  split; [by intros [-> ->]|by intros [= -> ->]].
Qed.

Lemma rows_eqb_decide l k : Forall good_event l → Forall good_event k → rows_eqb l k = bool_decide (l = k).
Proof.
  intros Hl Hk. pose proof (rows_eqb_eq l k Hl Hk) as Hiff. case_bool_decide as E.
  - by apply Hiff.
  - apply not_true_iff_false. by rewrite Hiff.
Qed.

Lemma good_take n l : Forall good_event l → Forall good_event (take n l).
Proof. intros H. by apply Forall_take. Qed.
Lemma good_drop n l : Forall good_event l → Forall good_event (drop n l).
Proof. intros H. by apply Forall_drop. Qed.

Lemma reuses_spec et ids l : t_columns et = event_columns → Forall good_event l →
  reuses et ids l = inr (reused ids l).
Proof.
  intros Het. induction 1 as [|e l (i & a & n & ty & data & ->) _ IH]; cbn [reuses]; [done|].
  unfold mbind, Fallible_bind.
  rewrite (proj2 (event_text et Het (event_row i a n ty data) global_label $"id" 0 i eq_refl) eq_refl).
  unfold reused. cbn [existsb]. change (ev_id (event_row i a n ty data)) with (Some i). cbn iota.
  case_bool_decide; [done|]. rewrite IH. done.
Qed.

Lemma reused_false ids l : reused ids l = false → ∀ i, i ∈ omap ev_id l → i ∉ ids.
Proof.
  intros Hr i (e & He & Hi)%list_elem_of_omap Hin. rewrite <-not_true_iff_false in Hr. apply Hr.
  unfold reused. apply existsb_exists. exists e. split; [by apply list_elem_of_In|].
  rewrite Hi. by apply bool_decide_eq_true.
Qed.

Section EventMerge.
Context `{EventSqlite} (st et : Table).
Hypothesis st_name : t_name st = $"event_sequence".
Hypothesis et_name : t_name et = $"event".
Hypothesis st_columns : t_columns st = sequence_columns.
Hypothesis et_columns : t_columns et = event_columns.

(** *** Statements *)

Lemma ends_insert t row w (Q : () → World → Prop) :
  (∀ fs, Q () (with_db (insert_cells (w_db w) (t_name t)
     (stored (db_catalog (w_db w)) (t_name t) (map bound (values row)))) (with_faults fs w))) →
  ends (insert_row t row) w Q.
Proof using.
  intros HQ. apply ends_bind, ends_tick. intros fs. specialize (HQ fs). unfold ends, mbind, Merge_bind.
  cbn. cbn in HQ. destruct (rejects _ _ _); cbn; [done|exact HQ].
Qed.

(** The database with events added as they are. *)
Definition add_event (d : Database) (e : Row) : Database := insert_cells d $"event" (map bound (values e)).
Definition add_events (d : Database) (l : list Row) : Database := foldl add_event d l.

Lemma event_stored cat e : good_event e → stored cat $"event" (map bound (values e)) = map bound (values e).
Proof using H0.
  intros (i & a & n & ty & data & ->). apply stored_event. by do 5 eexists.
Qed.

Lemma ends_insert_events l : Forall good_event l → ∀ o w,
  ends (insert_events et o l) w (λ _ w', ∃ fs, w' = with_db (add_events (w_db w) l) (with_faults fs w)).
Proof using H0 et_name.
  intros Hg. unfold insert_events. induction Hg as [|e l He _ IH]; intros o w; cbn [fold_m].
  { apply ends_ret. exists (w_faults w). by destruct w. }
  apply ends_bind, ends_bind, ends_insert. intros fs. apply ends_ret. rewrite et_name, event_stored by done.
  eapply ends_weaken; [apply IH|]. intros o' w' [fs' ->]. by exists fs'.
Qed.

Lemma cells_of_add_events l : ∀ d t, cells_of (add_events d l) t =
  if decide (t = $"event") then cells_of d t ++ map (λ e, map bound (values e)) l else cells_of d t.
Proof using.
  induction l as [|e l IH]; intros d t; cbn [add_events foldl].
  { case_decide; [by rewrite app_nil_r|done]. }
  fold (add_events (add_event d e) l). rewrite IH. unfold add_event. rewrite cells_of_insert.
  case_decide as E; [|done]. subst t. by rewrite <-app_assoc.
Qed.

Lemma add_events_catalog l : ∀ d, db_catalog (add_events d l) = db_catalog d.
Proof using. induction l as [|e l IH]; intros d; [done|]. cbn. by rewrite IH. Qed.

Lemma events_add l d : Forall row_scalar l → events (add_events d l) = events d ++ l.
Proof using.
  intros Hs. unfold events. rewrite cells_of_add_events, decide_True, map_app by done. f_equal.
  rewrite map_map. induction Hs as [|e l He _ IH]; [done|]. cbn. by rewrite read_bound, IH.
Qed.

Lemma sequences_add_events l d : sequences (add_events d l) = sequences d.
Proof using. unfold sequences. by rewrite cells_of_add_events, decide_False. Qed.

(** Adding a row of the sequence table. *)
Definition add_sequence (d : Database) (s : Row) : Database :=
  insert_cells d $"event_sequence" (map bound (values s)).

Lemma sequences_add d s : row_scalar s → sequences (add_sequence d s) = sequences d ++ [s].
Proof using.
  intros Hs. unfold sequences, add_sequence. rewrite cells_of_insert, decide_True, map_app by done.
  cbn. by rewrite read_bound.
Qed.

Lemma events_add_sequence d s : events (add_sequence d s) = events d.
Proof using. unfold events, add_sequence. by rewrite cells_of_insert, decide_False. Qed.

Lemma keys_clean_add d s : row_scalar s → keys_clean d → keys_clean (add_sequence d s).
Proof using.
  unfold keys_clean, add_sequence. rewrite cells_of_insert, decide_True by done. intros Hs Hd.
  apply Forall_app. split; [done|]. apply Forall_singleton. destruct s as [[|v l]]; cbn; [done|].
  unfold row_scalar in Hs. cbn in Hs. apply Forall_cons in Hs as [Hv _]. by apply clean_bound.
Qed.

(** Renumbering a row of the sequence table. *)
Definition renumbered (d : Database) (a : str) (n : Z) : Database :=
  mkDatabase (db_catalog d)
    (<[ $"event_sequence" := map (set_seq (db_catalog d) a n) (cells_of d $"event_sequence")]> (db_tables d)).

Lemma ends_update_seq a n w (Q : () → World → Prop) :
  (∀ fs, Q () (with_db (renumbered (w_db w) a n) (with_faults fs w))) → ends (update_seq a n) w Q.
Proof using. intros HQ. apply ends_bind, ends_tick. intros fs. apply HQ. Qed.

Lemma cells_of_renumbered d a n t : cells_of (renumbered d a n) t =
  if decide (t = $"event_sequence") then map (set_seq (db_catalog d) a n) (cells_of d t) else cells_of d t.
Proof using.
  unfold cells_of at 1, renumbered. cbn. case_decide as E; [subst; by rewrite lookup_insert_eq|].
  by rewrite lookup_insert_ne.
Qed.

Lemma set_seq_renumber cat a n cells : Forall scalar a → good_sequence (read_row cells) →
  match cells with c :: _ => cell_clean c | [] => True end →
  read_row (set_seq cat a n cells) = renumber a n (read_row cells) ∧
  match set_seq cat a n cells with c :: _ => cell_clean c | [] => True end.
Proof using H0.
  intros Ha (b & m & o & E & _) Hc. unfold read_row in E. destruct cells as [|c [|c2 rest]]; try done.
  cbn in E. injection E as Eb E. destruct c as [| | |bytes|]; try done. cbn in Eb. injection Eb as Eb.
  unfold set_seq. rewrite key_binary. unfold renumber, read_row. cbn [map values value_owned]. rewrite Eb.
  unfold cell_clean in Hc. cbn in Hc. injection Hc as Hc.
  case_bool_decide as E'; cbn [map value_owned].
  - injection E' as E'. rewrite Eb. assert (b = a) as ->.
    { rewrite <-Eb, E'. by apply from_utf8_lossy_as_bytes. }
    rewrite (proj2 (str_eqb_eq a a) eq_refl). split; [done|]. unfold cell_clean. cbn. by rewrite Hc.
  - rewrite Eb. destruct (str_eqb b a) eqn:Eba.
    + apply str_eqb_eq in Eba. subst b. destruct E'. f_equal. by rewrite <-Eba, Hc.
    + split; [done|]. unfold cell_clean. cbn. by rewrite Hc.
Qed.

Lemma sequences_renumbered d a n : Forall scalar a → keys_clean d → Forall good_sequence (sequences d) →
  sequences (renumbered d a n) = map (renumber a n) (sequences d) ∧ keys_clean (renumbered d a n).
Proof using H0.
  intros Ha Hc Hg. unfold sequences, keys_clean. rewrite cells_of_renumbered, decide_True by done.
  unfold sequences in Hg. unfold keys_clean in Hc.
  induction (cells_of d $"event_sequence") as [|cells l IH]; [done|]. cbn in *.
  apply Forall_cons in Hc as [Hc Hcs], Hg as [Hg Hgs].
  destruct (set_seq_renumber (db_catalog d) a n cells Ha Hg Hc) as [-> Hc']. destruct (IH Hcs Hgs) as [-> Hcs'].
  split; [done|]. by constructor.
Qed.

Lemma events_renumbered d a n : events (renumbered d a n) = events d.
Proof using. unfold events. by rewrite cells_of_renumbered, decide_False. Qed.

(** *** The archive *)

(** A history of the source as the migration hands it over. *)
Definition source_history (a : str) (s : EventHistory) : Prop :=
  whole a s ∧ row_scalar (eh_sequence s) ∧ Forall row_scalar (eh_events s) ∧
  sequence_fit (map bound (values (eh_sequence s))).

(** The archive holds the history [s]. *)
Definition archived (forks : gmap str EventHistory) (s : EventHistory) : Prop :=
  ∃ k, forks !! fork_id s = Some k ∧ same_history k s = true.

Lemma archived_mono f g s : f ⊆ g → archived f s → archived g s.
Proof using. intros Hs (k & Hk & E). exists k. split; [by eapply lookup_weaken|done]. Qed.

Lemma source_good a s : source_history a s → Forall good_event (eh_events s).
Proof using. intros ((n & o & _ & _ & Hown & _) & _). by eapply good_events. Qed.

Lemma rows_eqb_refl l : Forall good_event l → rows_eqb l l = true.
Proof using. intros Hl. by apply rows_eqb_eq. Qed.

Lemma same_history_refl a s : source_history a s → same_history s s = true.
Proof using.
  intros Hs. pose proof (source_good a s Hs) as Hg.
  destruct Hs as ((n & o & Hseq & Hn & Hown & Hnum) & _ & _ & Hfit).
  unfold same_history. apply andb_true_iff. split.
  - unfold row_eqb. apply values_eqb_refl. rewrite Hseq in Hfit |- *.
    destruct Hfit as (b & m & c & E & Hc). cbn in *. injection E as _ _ <-.
    repeat constructor; by destruct o.
  - unfold stored_events. change (λ a b, (seq_key 2 a ?= seq_key 2 b)%Z) with
      (λ a b, (ev_seq a ?= ev_seq b)%Z). rewrite (sort_whole _ (n + 1)) by (lia || done).
    by apply rows_eqb_refl.
Qed.

Lemma ends_archive a s o w : source_history a s →
  ends (archive s o) w (λ o' w', o_changed o' = o_changed o ∧
    w_db w' = w_db w ∧ w_forks w ⊆ w_forks w' ∧ archived (w_forks w') s).
Proof using.
  intros Hs. unfold archive, archive_event_fork. apply ends_bind, ends_bind, ends_tick. intros fs.
  apply ends_bind. unfold get_forks, ends at 1. apply ends_bind.
  assert (Hend : ∀ w1 b, w_db w1 = w_db w → w_forks w ⊆ w_forks w1 → archived (w_forks w1) s →
    ends (tick ≫= λ _, tick ≫= λ _, mret b) w1 (λ a w2, ends (mret (add_conflict (add_fork a o))) w2
      (λ o' w', o_changed o' = o_changed o ∧ w_db w' = w_db w ∧ w_forks w ⊆ w_forks w' ∧ archived (w_forks w') s))).
  { intros w1 b Hd Hf Ha. apply ends_bind, ends_tick. intros fs1. apply ends_bind, ends_tick. intros fs2.
    by apply ends_ret, ends_ret. }
  cbn [w_forks with_faults]. destruct (w_forks w !! fork_id s) as [k|] eqn:Hk.
  - destruct (same_history k s) eqn:E; [|done]. apply ends_bind, ends_tick. intros fs'. apply ends_ret.
    apply Hend; [done..|]. by exists k.
  - destruct (distinct_seqs (eh_events s)); [|done]. apply ends_bind, ends_tick. intros fs'.
    apply ends_bind. unfold put_forks, ends at 1. apply ends_ret. apply Hend; [done|..]; cbn.
    + by apply insert_subseteq.
    + exists s. split; [by rewrite lookup_insert_eq|by eapply same_history_refl].
Qed.

End EventMerge.

(** *** One history after the other *)

Section Progress.
(** The database before, and the ids of its events. *)
Context (d0 : Database) (forks0 : gmap str EventHistory) (ids : gset str).

Abbreviation view0 := (view (sequences d0) (events d0)).

(** After the histories [dn] of the source. *)
Record progress (dn : list (str * EventHistory)) (w : World) : Prop := mkProgress {
  pg_valid : valid (sequences (w_db w)) (events (w_db w));
  pg_done : ∀ a s, (a, s) ∈ dn →
    view (sequences (w_db w)) (events (w_db w)) a = merged_history ids a (view0 a) s;
  pg_rest : ∀ a, a ∉ dn.*1 → view (sequences (w_db w)) (events (w_db w)) a = view0 a;
  pg_ids : ∀ i, i ∈ omap ev_id (events (w_db w)) →
    i ∈ ids ∨ ∃ a s, (a, s) ∈ dn ∧ i ∈ omap ev_id (eh_events s);
  pg_clean : keys_clean (w_db w);
  pg_forks : forks0 ⊆ w_forks w;
  pg_archived : ∀ a s, (a, s) ∈ dn → set_aside ids (view0 a) s = true → archived (w_forks w) s;
  pg_catalog : db_catalog (w_db w) = db_catalog d0;
  pg_others : ∀ t, t ≠ $"event" → t ≠ $"event_sequence" → cells_of (w_db w) t = cells_of d0 t;
  pg_events : cells_of d0 $"event" `prefix_of` cells_of (w_db w) $"event";
  pg_from : ∀ cells, cells ∈ cells_of (w_db w) $"event" → cells ∈ cells_of d0 $"event" ∨
    ∃ a s e, (a, s) ∈ dn ∧ e ∈ eh_events s ∧ cells = map bound (values e);
}.

Lemma elem_of_snoc {A : Type} (x y : A) l : x ∈ l ++ [y] ↔ x ∈ l ∨ x = y.
Proof using. by rewrite elem_of_app, list_elem_of_singleton. Qed.

(** A step that leaves the database alone. *)
Lemma progress_kept dn w w' a s : progress dn w → a ∉ dn.*1 → w_db w' = w_db w → w_forks w ⊆ w_forks w' →
  merged_history ids a (view0 a) s = view0 a →
  (set_aside ids (view0 a) s = true → archived (w_forks w') s) → progress (dn ++ [(a, s)]) w'.
Proof using.
  intros [P1 P2 P3 P4 P5 P6 P7 P8 P9 P10 P11] Ha Hd Hf Hm Hs.
  split; rewrite ?Hd; try done.
  - intros b t [Hin|[= -> ->]]%elem_of_snoc; [by apply P2|]. rewrite Hm. by apply P3.
  - intros b Hb. apply P3. rewrite fmap_app in Hb. set_solver.
  - intros i [?|(b & t & Hin & Hi)]%P4; [by left|]. right. exists b, t. split; [|done]. by apply elem_of_snoc; left.
  - by etrans.
  - intros b t [Hin|[= -> ->]]%elem_of_snoc Hst; [eapply archived_mono; [exact Hf|by eapply P7]|by apply Hs].
  - intros cells [Hc|(b & t & e & Hin & He)]%P11; [by left|]. right. exists b, t, e. split; [|done].
    apply elem_of_snoc. by left.
Qed.

(** A step that changes the history of [a] only, by adding events. *)
Lemma progress_changed dn w d' a s l fs : progress dn w → a ∉ dn.*1 →
  set_aside ids (view0 a) s = false →
  valid (sequences d') (events d') →
  (∀ b, view (sequences d') (events d') b =
     if decide (b = a) then merged_history ids a (view0 a) s
     else view (sequences (w_db w)) (events (w_db w)) b) →
  events d' = events (w_db w) ++ l → (∀ i, i ∈ omap ev_id l → i ∈ omap ev_id (eh_events s)) →
  keys_clean d' → db_catalog d' = db_catalog (w_db w) →
  (∀ t, t ≠ $"event" → t ≠ $"event_sequence" → cells_of d' t = cells_of (w_db w) t) →
  cells_of d' $"event" = cells_of (w_db w) $"event" ++ map (λ e, map bound (values e)) l →
  (∀ e, e ∈ l → e ∈ eh_events s) →
  progress (dn ++ [(a, s)]) (with_db d' (with_faults fs w)).
Proof using.
  intros [P1 P2 P3 P4 P5 P6 P7 P8 P9 P10 P11] Ha Hs Hv Hview He Hl Hc Hcat Hoth Hcells Hsub. split; cbn; try done.
  - intros b t [Hin|[= -> ->]]%elem_of_snoc; rewrite Hview.
    + rewrite decide_False; [by apply P2|]. intros ->. apply Ha, list_elem_of_fmap. by exists (a, t).
    + by rewrite decide_True.
  - intros b Hb. rewrite fmap_app in Hb. rewrite Hview, decide_False by set_solver. apply P3. set_solver.
  - intros i. rewrite He, omap_app, elem_of_app. intros [[?|(b & t & Hin & Hi)]%P4|Hi].
    + by left.
    + right. exists b, t. split; [|done]. apply elem_of_snoc. by left.
    + right. exists a, s. split; [|by apply Hl]. apply elem_of_snoc. by right.
  - intros b t [Hin|[= -> ->]]%elem_of_snoc Hst; [by eapply P7|congruence].
  - by rewrite Hcat.
  - intros t H1 H2. rewrite Hoth by done. by apply P9.
  - rewrite Hcells. by apply prefix_app_r.
  - intros cells. rewrite Hcells, elem_of_app. intros [[Hin|(b & t & e & Hin & Hbt)]%P11|Hin].
    + by left.
    + right. exists b, t, e. split; [|done]. apply elem_of_snoc. by left.
    + apply list_elem_of_fmap in Hin as (e & -> & Hin). right. exists a, s, e.
      split; [apply elem_of_snoc; by right|]. split; [by apply Hsub|done].
Qed.
End Progress.

Section MergeHistories.
Context `{EventSqlite} (st et : Table).
Hypothesis st_name : t_name st = $"event_sequence".
Hypothesis et_name : t_name et = $"event".
Hypothesis st_columns : t_columns st = sequence_columns.
Hypothesis et_columns : t_columns et = event_columns.
Context (d0 : Database) (forks0 : gmap str EventHistory) (ids : gset str)
  (destination : gmap str EventHistory).
Hypothesis ids0 : ∀ i, i ∈ omap ev_id (events d0) ↔ i ∈ ids.
Hypothesis destination_view : ∀ a, destination !! a = view (sequences d0) (events d0) a.
Abbreviation view0 := (view (sequences d0) (events d0)).

(** The next history: its ids are its own. *)
Definition next (dn : list (str * EventHistory)) (a : str) (s : EventHistory) : Prop :=
  (a ∉ dn.*1) ∧ Forall scalar a ∧ source_history a s ∧ NoDup (omap ev_id (eh_events s)) ∧
  ∀ b t i, (b, t) ∈ dn → i ∈ omap ev_id (eh_events t) → i ∉ omap ev_id (eh_events s).

(** Ids not in use before, and not in the histories already merged. *)
Lemma fresh_ids dn w a s l : progress d0 forks0 ids dn w → next dn a s →
  (∀ i, i ∈ omap ev_id l → i ∈ omap ev_id (eh_events s)) → reused ids l = false →
  ∀ i, i ∈ omap ev_id l → i ∉ omap ev_id (events (w_db w)).
Proof using.
  intros P (_ & _ & _ & _ & Hdis) Hl Hr i Hi Hin.
  apply (pg_ids _ _ _ _ _ P) in Hin as [Hin|(b & t & Hin & Hbt)].
  - by eapply reused_false.
  - eapply Hdis; [exact Hin|exact Hbt|by apply Hl].
Qed.

Lemma whole_seq a s : whole a s → ∃ owner,
  eh_sequence s = sequence_row a (sq_seq (eh_sequence s)) owner ∧ (0 ≤ sq_seq (eh_sequence s))%Z ∧
  map ev_seq (eh_events s) = seqZ 0 (sq_seq (eh_sequence s) + 1).
Proof using.
  intros (n & o & E & Hn & _ & Hnum). exists o. rewrite E. done.
Qed.

Lemma merge_new dn w a s o : progress d0 forks0 ids dn w → next dn a s → view0 a = None →
  reused ids (eh_events s) = false →
  ends (insert_row st (eh_sequence s) ≫= λ _, insert_events et (add_changed 1 o) (eh_events s)) w
    (λ _ w', progress d0 forks0 ids (dn ++ [(a, s)]) w').
Proof using H0 st_name et_name.
  intros P Hnext Hp Hr. pose proof Hnext as (Ha & Hsa & Hs & Hnd & Hdis).
  pose proof (source_good a s Hs) as Hg. pose proof Hs as (Hw & Hrs & Hre & Hfit).
  apply ends_bind, ends_insert. intros fs. rewrite st_name, stored_sequence by done.
  eapply ends_weaken; [by apply ends_insert_events|]. intros o' w' [fs' ->]. cbn [w_db with_db with_faults].
  fold (add_sequence (w_db w) (eh_sequence s)). set (d1 := add_sequence (w_db w) (eh_sequence s)).
  change (progress d0 forks0 ids (dn ++ [(a, s)])
    (with_db (add_events d1 (eh_events s)) (with_faults fs' w))).
  assert (HS : sequences (add_events d1 (eh_events s)) = sequences (w_db w) ++ [eh_sequence s]) by
    (rewrite sequences_add_events; by apply sequences_add).
  assert (HE : events (add_events d1 (eh_events s)) = events (w_db w) ++ eh_events s) by
    (rewrite events_add by done; unfold d1; by rewrite events_add_sequence).
  assert (Hat : sequences_at (sequences (w_db w)) a = []).
  { pose proof (pg_rest _ _ _ _ _ P a Ha) as Hv. rewrite Hp in Hv. unfold view in Hv.
    by destruct (sequences_at _ a). }
  destruct (add_history _ _ a s (pg_valid _ _ _ _ _ P) Hat Hw Hnd) as [Hv Hview].
  { eapply fresh_ids; [exact P|exact Hnext|done|done]. }
  eapply (progress_changed _ _ _ dn w _ a s (eh_events s)); rewrite ?HS, ?HE; try done.
  - by rewrite Hp.
  - intros b. rewrite Hview, Hp. unfold merged_history, set_aside. by rewrite Hr.
  - unfold keys_clean. rewrite cells_of_add_events, decide_False by done.
    apply keys_clean_add; [done|by apply P].
  - by rewrite add_events_catalog.
  - intros t H1 H2. rewrite cells_of_add_events, decide_False by done. unfold d1, add_sequence.
    by rewrite cells_of_insert, decide_False.
  - rewrite cells_of_add_events, decide_True by done. unfold d1, add_sequence.
    by rewrite cells_of_insert, decide_False.
Qed.

Lemma same_start ids' p s : diverges ids' p s = false → (length (eh_events p) < length (eh_events s))%nat →
  eh_events s = eh_events p ++ drop (common_len p s) (eh_events s) ∧
  reused ids' (drop (common_len p s) (eh_events s)) = false.
Proof using.
  unfold diverges, common_len. intros [Hc Hr]%orb_false_iff Hlt. split; [|done].
  apply negb_false_iff, bool_decide_eq_true in Hc. rewrite Nat.min_r in * by lia.
  rewrite (take_ge (eh_events p)) in Hc by lia. rewrite <-Hc at 1. by rewrite take_drop.
Qed.

Lemma merge_longer dn w a s o p : progress d0 forks0 ids dn w → next dn a s → view0 a = Some p →
  diverges ids p s = false → (length (eh_events p) < length (eh_events s))%nat →
  ends (o ← insert_events et o (drop (common_len p s) (eh_events s));
        source_seq ← lift (required_integer st (eh_sequence s) $"seq" global_label);
        update_seq a source_seq ≫= λ _, mret (add_changed 1 o)) w
    (λ _ w', progress d0 forks0 ids (dn ++ [(a, s)]) w').
Proof using H0 et_name st_columns.
  intros P Hnext Hp Hdv Hlt. pose proof Hnext as (Ha & Hsa & Hs & Hnd & Hdis).
  destruct (same_start ids p s Hdv Hlt) as [Es Hr]. set (l := drop (common_len p s) (eh_events s)) in *.
  pose proof (source_good a s Hs) as Hg. pose proof Hs as (Hw & Hrs & Hre & Hfit).
  apply ends_bind. eapply ends_weaken; [apply ends_insert_events; [done|by apply good_drop]|].
  intros o' w' [fs ->]. apply ends_bind, ends_lift. intros m Hm.
  apply (sequence_integer st st_columns) in Hm. apply ends_bind, ends_update_seq. intros fs'. apply ends_ret.
  cbn [w_db with_db with_faults]. set (d1 := add_events (w_db w) l).
  change (progress d0 forks0 ids (dn ++ [(a, s)]) (with_db (renumbered d1 a m) (with_faults fs' w))).
  destruct (whole_seq a s Hw) as (owner' & Eseq & Hn & Hnum).
  assert (m = sq_seq (eh_sequence s)) as -> by (rewrite Eseq in Hm; by injection Hm).
  set (n := sq_seq (eh_sequence s)) in *.
  pose proof (pg_valid _ _ _ _ _ P) as Hv. pose proof (va_sequences _ _ Hv) as Hgs.
  pose proof (pg_rest _ _ _ _ _ P a Ha) as Hat. rewrite Hp in Hat. unfold view in Hat.
  destruct (sequences_at (sequences (w_db w)) a) as [|sq rest] eqn:Esq; [done|]. injection Hat as Hat.
  destruct (sequences_at_good _ a sq rest Hgs Esq) as (n0 & owner & -> & Hn0).
  assert (rest = []) as ->.
  { destruct (sequences_at_unique _ a Hgs (va_aggregates _ _ Hv)) as [E|[x E]]; congruence. }
  assert (Hpe : eh_events p = events_at (events (w_db w)) a) by (by rewrite <-Hat).
  assert (HS : sequences (renumbered d1 a n) = map (renumber a n) (sequences (w_db w)) ∧
    keys_clean (renumbered d1 a n)).
  { destruct (sequences_renumbered d1 a n) as [E Hc]; [done| | |split; [rewrite E; unfold d1; by rewrite sequences_add_events|done]].
    - unfold keys_clean, d1. rewrite cells_of_add_events, decide_False by done. apply P.
    - unfold d1. by rewrite sequences_add_events. }
  destruct HS as [HS Hclean].
  assert (HE : events (renumbered d1 a n) = events (w_db w) ++ l).
  { rewrite events_renumbered. apply events_add. by apply Forall_drop. }
  assert (Hown : Forall (λ e, good_event e ∧ ev_aggregate e = Some a) l).
  { destruct Hw as (? & ? & _ & _ & Hown & _). by apply Forall_drop. }
  assert (Hsub : ∀ i, i ∈ omap ev_id l → i ∈ omap ev_id (eh_events s)).
  { intros i Hi. rewrite Es, omap_app. apply elem_of_app. by right. }
  destruct (extend_history _ _ a n0 owner n l Hv Esq Hn Hown) as [Hv' Hview].
  { by rewrite <-Hpe, <-Es. }
  { rewrite Es, omap_app in Hnd. by apply NoDup_app in Hnd as (_ & _ & ?). }
  { eapply fresh_ids; [exact P|exact Hnext|exact Hsub|done]. }
  eapply (progress_changed _ _ _ dn w _ a s l); rewrite ?HS, ?HE; try done.
  - by rewrite Hp.
  - intros b. rewrite Hview, Hp. unfold merged_history, set_aside. rewrite Hdv.
    rewrite (proj2 (Nat.leb_gt _ _) Hlt), <-Hpe, <-Es. fold n. case_decide; [|done].
    rewrite <-Hat. cbn [eh_sequence]. rewrite renumber_row, decide_True by done. done.
  - exact (add_events_catalog l (w_db w)).
  - intros t H1 H2. rewrite cells_of_renumbered, decide_False by done. unfold d1.
    by rewrite cells_of_add_events, decide_False.
  - rewrite cells_of_renumbered, decide_False by done. unfold d1.
    by rewrite cells_of_add_events, decide_True.
  - intros e He. rewrite Es. apply elem_of_app. by right.
Qed.

Lemma merge_step dn w a s o : progress d0 forks0 ids dn w → next dn a s →
  ends (merge_history st et destination ids o (a, s)) w
    (λ _ w', progress d0 forks0 ids (dn ++ [(a, s)]) w').
Proof using H0 st_name et_name st_columns et_columns destination_view.
  intros P Hnext. pose proof Hnext as (Ha & Hsa & Hs & Hnd & Hdis).
  pose proof (source_good a s Hs) as Hg. unfold merge_history. cbn [fst snd]. rewrite destination_view.
  assert (Harch : ∀ o, set_aside ids (view0 a) s = true →
    ends (archive s o) w (λ _ w', progress d0 forks0 ids (dn ++ [(a, s)]) w')).
  { intros o' Hset. eapply ends_weaken; [by eapply ends_archive|]. intros o1 w' (_ & Hd & Hf & Harch).
    apply (progress_kept _ _ _ dn w); try done. unfold merged_history. by rewrite Hset. }
  destruct (view0 a) as [p|] eqn:Hp.
  - apply ends_bind, ends_lift. intros r Hr. rewrite reuses_spec in Hr by (done || by apply good_drop).
    injection Hr as <-. fold (common_len p s).
    assert (Hgp : Forall good_event (eh_events p)).
    { rewrite <-(pg_rest _ _ _ _ _ P a Ha) in Hp. apply view_whole in Hp; [|apply P].
      destruct Hp as (? & ? & _ & _ & Hown & _). by eapply good_events. }
    rewrite rows_eqb_decide by (by apply good_take). fold (diverges ids p s).
    destruct (diverges ids p s) eqn:Hdv; [by apply Harch|].
    destruct (Nat.leb_spec (length (eh_events s)) (length (eh_events p))) as [Hle|Hlt].
    + apply ends_ret. apply (progress_kept _ _ _ dn w); try done; rewrite ?Hp; cbn.
      * unfold merged_history. cbn. by rewrite Hdv, (proj2 (Nat.leb_le _ _) Hle).
      * by rewrite Hdv.
    + by eapply merge_longer.
  - apply ends_bind, ends_lift. intros r Hr. rewrite reuses_spec in Hr by done. injection Hr as <-.
    destruct (reused ids (eh_events s)) eqn:Hr; [by apply Harch|]. by apply merge_new.
Qed.
End MergeHistories.

(** *** The loop over the source's histories *)

Lemma elem_of_btree_list {V : Type} (m : gmap str V) k v : (k, v) ∈ btree_list m ↔ m !! k = Some v.
Proof. unfold btree_list. by rewrite sort_by_perm, elem_of_map_to_list. Qed.

Lemma btree_list_NoDup {V : Type} (m : gmap str V) : NoDup (btree_list m).*1.
Proof. unfold btree_list. rewrite sort_by_perm. apply NoDup_fst_map_to_list. Qed.

Lemma event_ids_spec et label l found : t_columns et = event_columns → Forall good_event l →
  event_ids et label l = inr found → found = omap ev_id l.
Proof.
  intros Het Hg. revert found. unfold event_ids.
  induction Hg as [|e l (i & a & n & ty & data & ->) _ IH]; intros found; cbn [mapM]; [by intros [= <-]|].
  unfold mbind, Fallible_bind, mret, Fallible_ret.
  rewrite (proj2 (event_text et Het (event_row i a n ty data) label $"id" 0 i eq_refl) eq_refl).
  destruct (mapM _ l) as [|k]; [done|]. intros [= <-]. cbn. f_equal. by apply IH.
Qed.

(** The events of a source, as the migration hands them over. *)
Record source_events (S E : list Row) : Prop := mkSourceEvents {
  se_valid : valid S E;
  se_sequences : Forall (λ r, row_scalar r ∧ sequence_fit (map bound (values r))) S;
  se_events : Forall row_scalar E;
}.

Lemma view_sequence S E a h : view S E a = Some h → eh_sequence h ∈ S.
Proof.
  unfold view. destruct (sequences_at S a) as [|s l] eqn:Es; [done|]. intros [= <-].
  assert (Hin : s ∈ sequences_at S a) by (rewrite Es; left). by apply list_elem_of_filter in Hin as [_ ?].
Qed.

Lemma source_view S E a s : source_events S E → view S E a = Some s →
  source_history a s ∧ Forall scalar a ∧ NoDup (omap ev_id (eh_events s)).
Proof.
  intros [Hv HS HE] Hs. pose proof (view_whole _ _ _ _ Hv Hs) as Hw.
  pose proof (view_sequence _ _ _ _ Hs) as Hin. rewrite Forall_forall in HS, HE.
  destruct (HS _ Hin) as [Hsc Hfit]. split; [split; [done|split; [done|split; [|done]]]|split].
  - apply Forall_forall. intros e He. apply HE. by destruct (view_events _ _ _ _ _ Hs He).
  - destruct Hw as (n & o & Hseq & _). rewrite Hseq in Hsc. unfold row_scalar in Hsc. cbn in Hsc.
    by apply Forall_cons in Hsc as [? _].
  - by eapply view_ids_NoDup.
Qed.

Section MergeEvents.
Context `{EventSqlite} (tables : list Table) (st et : Table).
Hypothesis find_st : find_table tables $"event_sequence" = Some st.
Hypothesis find_et : find_table tables $"event" = Some et.
Hypothesis st_columns : t_columns st = sequence_columns.
Hypothesis et_columns : t_columns et = event_columns.
Hypothesis copied : t_copy_rows st = true ∧ t_copy_rows et = true.

Lemma found_name l name t : find_table l name = Some t → t_name t = name.
Proof using. unfold find_table. intros [_ E]%find_some. by apply str_eqb_eq. Qed.

(** The private database's rows are as wide as its columns, and its keys are texts. *)
Record readable (d : Database) : Prop := mkReadable {
  rd_sequences : Forall (λ cells, length cells = 3%nat) (cells_of d $"event_sequence");
  rd_events : Forall (λ cells, length cells = 5%nat) (cells_of d $"event");
  rd_clean : keys_clean d;
}.

Lemma read_rows_events d :
  rows_of (read_rows d [st; et]) $"event_sequence" ≡ₚ sequences d ∧
  rows_of (read_rows d [st; et]) $"event" ≡ₚ events d.
Proof using H0 find_st find_et copied.
  unfold read_rows, rows_of, read_table. cbn [foldl]. destruct copied as [-> ->].
  rewrite (found_name _ _ _ find_st), (found_name _ _ _ find_et).
  rewrite lookup_insert_ne, !lookup_insert_eq by done. cbn [default].
  unfold sequences, events. change (default ?x (Some ?y)) with y. split; by rewrite scan_perm.
Qed.

Lemma find_pair : find_table [st; et] $"event_sequence" = Some st ∧ find_table [st; et] $"event" = Some et.
Proof using find_st find_et.
  unfold find_table. cbn. rewrite (found_name _ _ _ find_st), (found_name _ _ _ find_et). done.
Qed.

Lemma private_valid d : readable d →
  validate_event_graph [st; et] (read_rows d [st; et]) private_label = inr () →
  valid (sequences d) (events d).
Proof using H0 find_st find_et st_columns et_columns copied.
  intros [H1 H2 _] Hok. destruct (read_rows_events d) as [PS PE], find_pair as [F1 F2].
  apply (validate_inv [st; et] st et _ F1 F2 st_columns et_columns) in Hok.
  - by eapply valid_perm.
  - rewrite PS. unfold sequences. apply Forall_map. eapply Forall_impl; [exact H1|].
    intros cells Hc. cbn. by rewrite length_map.
  - rewrite PE. unfold events. apply Forall_map. eapply Forall_impl; [exact H2|].
    intros cells Hc. cbn. by rewrite length_map.
Qed.

(** The steps up to the loop: what the loop runs on. *)
Lemma merge_events_start source o w (Q : MergeOutcome → World → Prop) : let d := w_db w in
  source_events (rows_of source $"event_sequence") (rows_of source $"event") →
  (validate_event_graph [st; et] (read_rows d [st; et]) private_label = inr () →
   valid (sequences d) (events d)) →
  (∀ (dst : gmap str EventHistory) (ids : gset str) (l : list (str * EventHistory)) fs,
     valid (sequences d) (events d) →
     (∀ a, dst !! a = view (sequences d) (events d) a) → (∀ i, i ∈ omap ev_id (events d) ↔ i ∈ ids) →
     (∀ a s, (a, s) ∈ l ↔ view (rows_of source $"event_sequence") (rows_of source $"event") a = Some s) →
     NoDup l.*1 → ends (fold_m (merge_history st et dst ids) o l) (with_faults fs w) Q) →
  ends (merge_event_graph tables source o) w Q.
Proof using H0 find_st find_et st_columns et_columns copied.
  intros d Hsrc Hval HQ. unfold merge_event_graph. rewrite find_st.
  apply ends_bind, ends_lift. rewrite find_et. intros et' [= <-].
  apply ends_bind, ends_query. intros fs rows [= <-]. apply ends_bind, ends_lift. intros [] Hok.
  apply Hval in Hok as Hv. fold d.
  destruct (histories_view st et st_columns et_columns source (se_valid _ _ Hsrc)) as (src & Hs & Hsv).
  apply ends_bind, ends_lift. intros src' E. rewrite Hs in E. injection E as <-.
  destruct (read_rows_events d) as [PS PE].
  assert (Hv' : valid (rows_of (read_rows d [st; et]) $"event_sequence") (rows_of (read_rows d [st; et]) $"event"))
    by (eapply valid_perm; [exact Hv|by symmetry..]).
  destruct (histories_view st et st_columns et_columns _ Hv') as (dst & Hd & Hdv).
  apply ends_bind, ends_lift. intros dst' E. rewrite Hd in E. injection E as <-.
  assert (Hdst : ∀ a, dst !! a = view (sequences d) (events d) a).
  { intros a. rewrite Hdv. by apply view_perm. }
  apply ends_bind, ends_lift. intros found Hfound.
  assert (Hin : ∀ e, e ∈ concat (map (λ h : str * EventHistory, eh_events h.2) (btree_list dst)) ↔ e ∈ events d).
  { intros e. split.
    - intros (l & ([a h] & <- & Hl%list_elem_of_In%elem_of_btree_list)%in_map_iff
        & He%list_elem_of_In)%list_elem_of_In%in_concat.
      rewrite Hdst in Hl. by destruct (view_events _ _ _ _ _ Hl He).
    - intros He. destruct (event_in_view _ _ e Hv He) as (a & h & _ & Hh & Heh).
      apply list_elem_of_In, in_concat. exists (eh_events h).
      split; [|by apply list_elem_of_In]. apply in_map_iff. exists (a, h). split; [done|].
      apply list_elem_of_In, elem_of_btree_list. by rewrite Hdst. }
  apply event_ids_spec in Hfound; [|done|].
  2: { apply Forall_forall. intros e He%Hin. pose proof (va_events _ _ Hv) as Hg. rewrite Forall_forall in Hg. auto. }
  apply HQ; [done|done| | |apply btree_list_NoDup].
  - intros i. rewrite elem_of_list_to_set, Hfound, !list_elem_of_omap. by setoid_rewrite Hin.
  - intros a s. by rewrite elem_of_btree_list, Hsv.
Qed.

Lemma merge_events_progress source o w :
  source_events (rows_of source $"event_sequence") (rows_of source $"event") → readable (w_db w) →
  ends (merge_event_graph tables source o) w (λ _ w',
    ∃ ids dn, (∀ i, i ∈ omap ev_id (events (w_db w)) ↔ i ∈ ids) ∧
      (∀ a s, (a, s) ∈ dn ↔ view (rows_of source $"event_sequence") (rows_of source $"event") a = Some s) ∧
      progress (w_db w) (w_forks w) ids dn w').
Proof using H0 find_st find_et st_columns et_columns copied.
  intros Hsrc Hread. apply merge_events_start; [done|by apply private_valid|].
  intros dst ids l fs Hv Hdst Hids Hl Hnd. set (d := w_db w) in *.
  eapply ends_weaken; [apply (ends_fold (λ dn _ w', progress d (w_forks w) ids dn w'))|].
  - intros dn [a s] rest o1 w1 El P.
    apply (merge_step st et (found_name _ _ _ find_st) (found_name _ _ _ find_et) st_columns et_columns
      d (w_forks w) ids dst Hdst); [done|].
    assert (Hall : ∀ b t, (b, t) ∈ dn ++ (a, s) :: rest →
      view (rows_of source $"event_sequence") (rows_of source $"event") b = Some t).
    { intros b t Hbt. rewrite <-El in Hbt. by apply Hl. }
    assert (Ha : a ∉ dn.*1).
    { rewrite El, fmap_app in Hnd. cbn in Hnd.
      apply NoDup_app in Hnd as (_ & Hd' & _). intros Hin'. apply (Hd' a Hin'). left. }
    assert (Hs' := Hall a s ltac:(apply elem_of_app; right; left)).
    destruct (source_view _ _ a s Hsrc Hs') as (Hh & Hsc & Hnds).
    split; [done|]. split; [done|]. split; [done|]. split; [done|]. intros b t i Hbt Hi Hi'.
    assert (b = a) as ->.
    { eapply (view_ids_disjoint _ _ b a t s i (se_valid _ _ Hsrc)); try done. apply Hall, elem_of_app. by left. }
    apply Ha, list_elem_of_fmap. by exists (a, t).
  - split; cbn; try done.
    + by intros a s ?%not_elem_of_nil.
    + intros i Hi. left. by apply Hids.
    + apply Hread.
    + by intros a s ?%not_elem_of_nil.
    + intros cells Hc. by left.
  - intros o' w' P. by exists ids, l.
Qed.
End MergeEvents.

Lemma prefix_drop {A : Type} (l k : list A) : take (length l) k = l → l `prefix_of` k.
Proof. intros E. exists (drop (length l) k). rewrite <-E at 1. by rewrite take_drop. Qed.

(** Neither history is cut short by a merge. *)
Lemma merged_keeps ids a q s : ∃ p', merged_history ids a (Some q) s = Some p' ∧
  eh_events q `prefix_of` eh_events p' ∧
  (set_aside ids (Some q) s = false → eh_events s `prefix_of` eh_events p').
Proof.
  unfold merged_history. cbn [set_aside]. destruct (diverges ids q s) eqn:Hd; [by exists q|].
  pose proof Hd as Hd'. unfold diverges, common_len in Hd'. apply orb_false_iff in Hd' as [Hc _].
  apply negb_false_iff, bool_decide_eq_true in Hc.
  destruct (Nat.leb_spec (length (eh_events s)) (length (eh_events q))) as [Hle|Hlt].
  - exists q. split; [done|]. split; [done|]. intros _. rewrite Nat.min_l in Hc by done.
    apply prefix_drop. by rewrite <-Hc, take_ge.
  - eexists. split; [done|]. cbn. split; [|done]. rewrite Nat.min_r in Hc by lia.
    apply prefix_drop. by rewrite Hc, take_ge.
Qed.

(** What a successful merge of histories keeps, and where the source's end up. *)
Lemma merge_events_kept `{EventSqlite} tables st et source o w o' w' :
  find_table tables $"event_sequence" = Some st → find_table tables $"event" = Some et →
  t_columns st = sequence_columns → t_columns et = event_columns →
  t_copy_rows st = true ∧ t_copy_rows et = true →
  source_events (rows_of source $"event_sequence") (rows_of source $"event") → readable (w_db w) →
  merge_event_graph tables source o w = (inr o', w') →
  let before := view (sequences (w_db w)) (events (w_db w)) in
  let after := view (sequences (w_db w')) (events (w_db w')) in
  (∀ a p, before a = Some p → ∃ p', after a = Some p' ∧ eh_events p `prefix_of` eh_events p') ∧
  (∀ a s, view (rows_of source $"event_sequence") (rows_of source $"event") a = Some s →
     (∃ p', after a = Some p' ∧ eh_events s `prefix_of` eh_events p') ∨ archived (w_forks w') s) ∧
  w_forks w ⊆ w_forks w' ∧
  (∀ t, t ≠ $"event" → t ≠ $"event_sequence" → cells_of (w_db w') t = cells_of (w_db w) t) ∧
  validate_event_graph [st; et] (read_rows (w_db w') [st; et]) private_label = inr ().
Proof.
  intros Hst Het Cst Cet Hcopy Hsrc Hread Hrun. cbn zeta.
  pose proof (merge_events_progress tables st et Hst Het Cst Cet Hcopy source o w Hsrc Hread) as P.
  unfold ends in P. rewrite Hrun in P. destruct P as (ids & dn & Hids & Hdn & P).
  split; [|split; [|split; [by apply P|split; [by apply P|]]]].
  - intros a p Hp. destruct (decide (a ∈ dn.*1)) as [Ha|Ha].
    + apply list_elem_of_fmap in Ha as ([b s] & -> & Hin). cbn in *. rewrite (pg_done _ _ _ _ _ P b s Hin), Hp.
      destruct (merged_keeps ids b p s) as (p' & -> & Hpre & _). by exists p'.
    + rewrite (pg_rest _ _ _ _ _ P a Ha), Hp. by exists p.
  - intros a s Hs%Hdn. destruct (set_aside ids (view (sequences (w_db w)) (events (w_db w)) a) s) eqn:E.
    { right. by eapply (pg_archived _ _ _ _ _ P). }
    left. rewrite (pg_done _ _ _ _ _ P a s Hs). destruct (view _ _ a) as [q|].
    + destruct (merged_keeps ids a q s) as (p' & -> & _ & Hpre). exists p'. auto.
    + unfold merged_history. rewrite E. by exists s.
  - destruct (find_pair tables st et Hst Het) as [F1 F2].
    destruct (read_rows_events tables st et Hst Het Hcopy (w_db w')) as [PS PE].
    apply (validate_intro [st; et] st et _ F1 F2 Cst Cet).
    eapply valid_perm; [exact (pg_valid _ _ _ _ _ P)|by symmetry..].
Qed.

(** C13: Merging histories loses none.  Whatever the private database and the source hold, when
    [merge_event_graph] succeeds every private history is the start of one in the result,
    every history of the source is either the start of one in the result or in the archive
    under its own key, what the archive held is still there, nothing else in the database
    changed, and the result passes the check that the next merge begins with. *)
Theorem merge_events_lossless `{EventSqlite} tables st et source o w o' w' :
  find_table tables $"event_sequence" = Some st → find_table tables $"event" = Some et →
  t_columns st = sequence_columns → t_columns et = event_columns →
  t_copy_rows st = true ∧ t_copy_rows et = true →
  source_events (rows_of source $"event_sequence") (rows_of source $"event") → readable (w_db w) →
  merge_event_graph tables source o w = (inr o', w') →
  let before := view (sequences (w_db w)) (events (w_db w)) in
  let after := view (sequences (w_db w')) (events (w_db w')) in
  (∀ a p, before a = Some p → ∃ p', after a = Some p' ∧ eh_events p `prefix_of` eh_events p') ∧
  (∀ a s, view (rows_of source $"event_sequence") (rows_of source $"event") a = Some s →
     (∃ p', after a = Some p' ∧ eh_events s `prefix_of` eh_events p') ∨ archived (w_forks w') s) ∧
  w_forks w ⊆ w_forks w' ∧
  (∀ t, t ≠ $"event" → t ≠ $"event_sequence" → cells_of (w_db w') t = cells_of (w_db w) t) ∧
  validate_event_graph [st; et] (read_rows (w_db w') [st; et]) private_label = inr ().
Proof. apply merge_events_kept. Qed.

(** C23: Merging histories is merging them one by one.  The result's history of an aggregate
    depends on the private and the source's history of that aggregate only, and on the ids
    in use: the source's when there is no private one, the longer of the two when one
    continues the other, the private one when they diverge. *)
Theorem merge_events_refines `{EventSqlite} tables st et source o w o' w' :
  find_table tables $"event_sequence" = Some st → find_table tables $"event" = Some et →
  t_columns st = sequence_columns → t_columns et = event_columns →
  t_copy_rows st = true ∧ t_copy_rows et = true →
  source_events (rows_of source $"event_sequence") (rows_of source $"event") → readable (w_db w) →
  merge_event_graph tables source o w = (inr o', w') →
  ∀ a, view (sequences (w_db w')) (events (w_db w')) a =
    match view (rows_of source $"event_sequence") (rows_of source $"event") a with
    | Some s => merged_history (list_to_set (omap ev_id (events (w_db w)))) a
                  (view (sequences (w_db w)) (events (w_db w)) a) s
    | None => view (sequences (w_db w)) (events (w_db w)) a
    end.
Proof.
  intros Hst Het Cst Cet Hcopy Hsrc Hread Hrun a.
  pose proof (merge_events_progress tables st et Hst Het Cst Cet Hcopy source o w Hsrc Hread) as P.
  unfold ends in P. rewrite Hrun in P. destruct P as (ids & dn & Hids & Hdn & P).
  assert (E : ids = list_to_set (omap ev_id (events (w_db w)))).
  { apply set_eq. intros i. by rewrite <-Hids, elem_of_list_to_set. }
  rewrite <-E. destruct (view (rows_of source _) _ a) as [s|] eqn:Hs.
  - apply Hdn in Hs. by apply (pg_done _ _ _ _ _ P).
  - apply (pg_rest _ _ _ _ _ P). intros ([b s] & -> & Hin)%list_elem_of_fmap. cbn in *.
    apply Hdn in Hin. congruence.
Qed.

(** *** Again *)

(** There is nothing left to do for the history [s]. *)
Definition settled (ids : gset str) (p : option EventHistory) (s : EventHistory) : bool :=
  set_aside ids p s ||
  match p with Some q => (length (eh_events s) <=? length (eh_events q))%nat | None => false end.

Lemma reused_mono ids ids' l : ids ⊆ ids' → reused ids l = true → reused ids' l = true.
Proof.
  unfold reused. rewrite !existsb_exists. intros Hsub (e & He & Hi). exists e. split; [done|].
  destruct (ev_id e); [|done]. rewrite bool_decide_eq_true in Hi |- *. set_solver.
Qed.

(** After a merge nothing is left to do. *)
Lemma merged_settled ids ids' a p s : ids ⊆ ids' → settled ids' (merged_history ids a p s) s = true.
Proof.
  intros Hsub. unfold merged_history, settled. destruct (set_aside ids p s) eqn:E.
  - apply orb_true_iff. left. destruct p as [q|]; cbn in *; [|by eapply reused_mono].
    unfold diverges in *. apply orb_true_iff in E as [-> | E]; [done|].
    rewrite (reused_mono _ _ _ Hsub E). by rewrite orb_true_r.
  - apply orb_true_iff. right. destruct p as [q|]; cbn; [|by apply Nat.leb_le].
    destruct (_ <=? _)%nat eqn:Hle; [done|by apply Nat.leb_le].
Qed.

Lemma settled_step `{EventSqlite} (st et : Table) (destination : gmap str EventHistory) (ids : gset str)
    (a : str) (s : EventHistory) (o : MergeOutcome) (w : World) :
  t_columns et = event_columns → source_history a s →
  (∀ p, destination !! a = Some p → Forall good_event (eh_events p)) →
  settled ids (destination !! a) s = true →
  ends (merge_history st et destination ids o (a, s)) w (λ o' w',
    w_db w' = w_db w ∧ o_changed o' = o_changed o).
Proof.
  intros Cet Hs Hgp Hset. pose proof (source_good a s Hs) as Hg. unfold merge_history. cbn [fst snd].
  assert (Harch : ends (archive s o) w (λ o' w', w_db w' = w_db w ∧ o_changed o' = o_changed o)).
  { eapply ends_weaken; [by eapply ends_archive|]. intros o1 w' (? & ? & _). done. }
  unfold settled in Hset. destruct (destination !! a) as [p|] eqn:Hp; cbn [set_aside] in Hset.
  - apply ends_bind, ends_lift. intros r Hr. rewrite reuses_spec in Hr by (done || by apply good_drop).
    injection Hr as <-. fold (common_len p s).
    rewrite rows_eqb_decide by (apply good_take; auto). fold (diverges ids p s).
    destruct (diverges ids p s) eqn:Hdv; [done|]. cbn [orb] in Hset. rewrite Hset. by apply ends_ret.
  - apply ends_bind, ends_lift. intros r Hr. rewrite reuses_spec in Hr by done. injection Hr as <-.
    rewrite orb_false_r in Hset. by rewrite Hset.
Qed.

(** Merging histories again changes nothing.  When [merge_event_graph] succeeds on what an
    earlier merge of the same source left, the database is as the earlier merge left it,
    and no change is counted. *)
Theorem merge_events_settle `{EventSqlite} tables st et source o w o1 w1 :
  find_table tables $"event_sequence" = Some st → find_table tables $"event" = Some et →
  t_columns st = sequence_columns → t_columns et = event_columns →
  t_copy_rows st = true ∧ t_copy_rows et = true →
  source_events (rows_of source $"event_sequence") (rows_of source $"event") → readable (w_db w) →
  merge_event_graph tables source o w = (inr o1, w1) →
  ∀ o2 w2 o3 w3, w_db w2 = w_db w1 → merge_event_graph tables source o2 w2 = (inr o3, w3) →
    w_db w3 = w_db w1 ∧ o_changed o3 = o_changed o2.
Proof.
  intros Hst Het Cst Cet Hcopy Hsrc Hread Hrun o2 w2 o3 w3 E Hrun2.
  pose proof (merge_events_progress tables st et Hst Het Cst Cet Hcopy source o w Hsrc Hread) as P.
  unfold ends in P. rewrite Hrun in P. destruct P as (ids & dn & Hids & Hdn & P).
  assert (Hends : ends (merge_event_graph tables source o2) w2
    (λ o3 w3, w_db w3 = w_db w2 ∧ o_changed o3 = o_changed o2)).
  { apply (merge_events_start tables st et Hst Het Cst Cet Hcopy); [done|intros _; rewrite E; by apply P|].
    intros dst ids2 l fs Hv Hdst Hids2 Hl _.
    eapply ends_weaken; [apply (ends_fold (λ _ o' w', w_db w' = w_db w2 ∧ o_changed o' = o_changed o2)); [|done]|done].
    intros dn2 [a s] rest o' w' El [Hd Ho].
    assert (Hs : view (rows_of source $"event_sequence") (rows_of source $"event") a = Some s)
      by (apply Hl; rewrite El; apply elem_of_app; right; left).
    destruct (source_view _ _ a s Hsrc Hs) as (Hh & _ & _).
    eapply ends_weaken; [apply (settled_step st et dst ids2 a s o' w'); [done|done| |]|].
    - intros p Hp. rewrite Hdst in Hp. apply view_whole in Hp; [|done].
      destruct Hp as (? & ? & _ & _ & Hown & _). by eapply good_events.
    - rewrite Hdst, E. apply Hdn in Hs. rewrite (pg_done _ _ _ _ _ P a s Hs). apply merged_settled.
      intros i Hi. apply Hids2. rewrite E. apply Hids in Hi. unfold events in Hi |- *.
      destruct (pg_events _ _ _ _ _ P) as [k ->]. rewrite map_app, omap_app. apply elem_of_app. by left.
    - intros o4 w4 [-> ->]. done. }
  unfold ends in Hends. rewrite Hrun2 in Hends. destruct Hends as [-> ->]. by rewrite E.
Qed.

Module Examples.
Import EventSafety.Examples.

(** A SQLite without affinities, constraints or collations of its own. *)
Definition cell_eqb (a b : ValueRef) : bool := bool_decide (a = b).
Definition plain : Sqlite := {|
  alphanumeric c := is_ascii_alphabetic c || is_ascii_digit c;
  scan _ l := l;
  stored _ _ cells := cells;
  rejects _ _ _ := None;
  cell_is _ _ _ := cell_eqb;
  created cat _ := inr cat;
  integrity _ := $"ok";
  foreign_key_violations _ := 0%Z;
|}.
#[local] Existing Instance plain.
Definition plain_events : EventSqlite.
Proof. by split. Qed.
#[local] Existing Instance plain_events.

(** A private history of one event; the source has a longer one, and another session. *)
Definition event_at (id a : str) (n : Z) : Row := event_row id a n $"t" $"{}".
Definition cells_of_rows (l : list Row) : list (list ValueRef) := map (λ r, map bound (values r)) l.
Definition private : Database :=
  mkDatabase (db_catalog empty_database)
    (<[ $"event_sequence" := cells_of_rows [sequence_row $"ses_1" 0 (Text $"me")]]>
     (<[ $"event" := cells_of_rows [event_at $"a" $"ses_1" 0]]> ∅)).
Definition source : gmap str (list Row) :=
  <[ $"event_sequence" := [sequence_row $"ses_1" 1 Null; sequence_row $"ses_2" 0 Null]]>
  (<[ $"event" := [event_at $"b" $"ses_1" 1; event_at $"a" $"ses_1" 0; event_at $"c" $"ses_2" 0]]> ∅).
Definition before : World := mkWorld (Some private) None private ∅ [].
Definition run := merge_event_graph [st; et] source no_outcome before.
Definition outcome : MergeOutcome := match run.1 with inr o => o | inl _ => no_outcome end.
Definition run2 := merge_event_graph [st; et] source no_outcome run.2.
Definition outcome2 : MergeOutcome := match run2.1 with inr o => o | inl _ => no_outcome end.

Lemma a_run : run = (inr outcome, run.2).
Proof. vm_compute. reflexivity. Qed.
Lemma a_run2 : run2 = (inr outcome2, run2.2).
Proof. vm_compute. reflexivity. Qed.

Lemma source_ok : source_events (rows_of source $"event_sequence") (rows_of source $"event").
Proof.
  assert (Hscalar : ∀ l : str, forallb (λ c, c <? 55296) l = true → Forall scalar l).
  { intros l Hl. apply Forall_forall. intros c Hc. rewrite forallb_forall in Hl.
    left. apply N.ltb_lt, Hl, list_elem_of_In, Hc. }
  assert (Hrow : ∀ r, forallb (λ v, match v with Text s => forallb (λ c, c <? 55296) s | _ => true end) (values r)
    = true → row_scalar r).
  { intros r Hr. apply Forall_forall. intros v Hv. rewrite forallb_forall in Hr.
    specialize (Hr v (proj1 (list_elem_of_In _ _) Hv)). destruct v; try done. by apply Hscalar. }
  split.
  - apply (validate_inv [st; et] st et source eq_refl eq_refl eq_refl eq_refl $"here"); [| |vm_compute; reflexivity];
      repeat (apply Forall_cons; split; [reflexivity|]); constructor.
  - repeat (apply Forall_cons; split; [split; [apply Hrow; vm_compute; reflexivity|by do 3 eexists]|]). constructor.
  - repeat (apply Forall_cons; split; [apply Hrow; vm_compute; reflexivity|]). constructor.
Qed.

Lemma private_ok : readable private.
Proof.
  split; [| |unfold keys_clean]; repeat (apply Forall_cons; split; [vm_compute; reflexivity|]); constructor.
Qed.

Lemma merge_events_lossless_witness :
  validate_event_graph [st; et] (read_rows (w_db run.2) [st; et]) private_label = inr () ∧
  ∃ p', view (sequences (w_db run.2)) (events (w_db run.2)) $"ses_1" = Some p' ∧ length (eh_events p') = 2%nat.
Proof.
  destruct (merge_events_lossless [st; et] st et source no_outcome before outcome run.2) as (H & _ & _ & _ & Hv);
    [reflexivity|reflexivity|reflexivity|reflexivity|split; reflexivity|apply source_ok|apply private_ok|apply a_run|].
  split; [exact Hv|]. destruct (H $"ses_1" (mkHistory (sequence_row $"ses_1" 0 (Text $"me")) [event_at $"a" $"ses_1" 0]))
    as (p' & Hp & _); [vm_compute; reflexivity|].
  exists p'. split; [exact Hp|]. vm_compute in Hp. injection Hp as <-. reflexivity.
Defined.

Lemma merge_events_refines_witness :
  view (sequences (w_db run.2)) (events (w_db run.2)) $"ses_2" =
    Some (mkHistory (sequence_row $"ses_2" 0 Null) [event_at $"c" $"ses_2" 0]).
Proof.
  etransitivity; [apply (merge_events_refines [st; et] st et source no_outcome before outcome run.2);
    [reflexivity|reflexivity|reflexivity|reflexivity|split; reflexivity|apply source_ok|apply private_ok|apply a_run]|].
  vm_compute. reflexivity.
Defined.

Lemma merge_events_settle_witness : w_db run2.2 = w_db run.2 ∧ o_changed outcome2 = 0.
Proof.
  exact (merge_events_settle [st; et] st et source no_outcome before outcome run.2 eq_refl eq_refl eq_refl eq_refl
    (conj eq_refl eq_refl) source_ok private_ok a_run no_outcome run.2 outcome2 run2.2 eq_refl a_run2).
Defined.
End Examples.
