(* ===== verification/RowSafety.v ===== *)
(** * Rows arrive once, private rows stay, failures leave no trace

    More properties of [OcMerge]: what a merge does to the rows of a table, that doing it
    again changes nothing, and that a merge which fails, wherever it fails, leaves the
    destination as it was. *)
From stdpp Require Import gmap sets.
From S2P Require Import Prelude Str Utf8.
From S2P Require Import Wire OcRows OcEvents OcSchema.
From S2P Require Import EventSafety OcMerge MergeSafety.

(** ** Only ever more rows *)

(** From [w] to [w']: no row of a table but the sequence table is removed or changed, the
    archive keeps what it has, and the files are not touched. *)
Record grows (w w' : World) : Prop := mkGrows {
  gr_cells : ∀ t, t ≠ $"event_sequence" → cells_of (w_db w) t `prefix_of` cells_of (w_db w') t;
  gr_forks : w_forks w ⊆ w_forks w';
  gr_destination : w_destination w' = w_destination w;
  gr_staging : w_staging w' = w_staging w;
}.

#[export] Instance grows_preorder : PreOrder grows.
Proof.
  split; [done|]. intros w1 w2 w3 [A1 A2 A3 A4] [B1 B2 B3 B4]. split; [|by etrans|congruence..].
  intros t Ht. etrans; [by apply A1|by apply B1].
Qed.

(** Whether it succeeds or not. *)
Abbreviation growing := (respects grows) (only parsing).

Create HintDb merge discriminated.

#[export] Hint Resolve respects_ret respects_lift respects_fails respects_get_db respects_get_forks
  grows_preorder : merge.

Lemma growing_tick : growing tick.
Proof. intros w. unfold tick. by destruct (w_faults w) as [|[|] ?]. Qed.
#[export] Hint Resolve growing_tick : merge.

Lemma growing_query {A : Type} (f : Database → str + A) : growing (query f).
Proof. apply respects_query; auto with merge typeclass_instances. Qed.
#[export] Hint Resolve growing_query : merge.

(** Case analysis down to the primitive steps. *)
Ltac grow :=
  repeat first
    [ solve [auto with merge]
    | apply (respects_bind _); [|intros ?]
    | apply (respects_fold _); intros ? ? ?
    | match goal with |- respects _ (match ?x with _ => _ end) => destruct x end ].

Section Growing.
Context `{Sqlite}.

(** The SQL of tables and indexes creates; the rows are [db_tables]. *)
Lemma growing_insert t row : growing (insert_row t row).
Proof.
  unfold insert_row. apply (respects_bind _); [auto with merge|]. intros _ w. unfold mbind, Merge_bind, get_db.
  destruct (rejects _ _ _); [done|]. split; try done. intros u _. cbn. rewrite cells_of_insert.
  case_decide as E; [subst; by eexists|done].
Qed.
Hint Resolve growing_insert : merge.

Lemma growing_times n t row : growing (insert_times n t row).
Proof. induction n; cbn; grow. Qed.
Hint Resolve growing_times : merge.

Lemma growing_execute sql : growing (execute_batch sql).
Proof.
  unfold execute_batch. apply (respects_bind _); [auto with merge|]. intros _ w. unfold mbind, Merge_bind, get_db, lift.
  by destruct (created _ _).
Qed.
Hint Resolve growing_execute : merge.

Lemma growing_update_seq a n : growing (update_seq a n).
Proof.
  unfold update_seq. apply (respects_bind _); [auto with merge|]. intros _ w. unfold mbind, Merge_bind, get_db, put_db.
  split; try done. intros t Ht. cbn. unfold cells_of. cbn. by rewrite lookup_insert_ne.
Qed.
Hint Resolve growing_update_seq : merge.

Lemma growing_archive_fork h : growing (archive_event_fork h).
Proof.
  unfold archive_event_fork. apply (respects_bind _); [auto with merge|]. intros _ w.
  apply (respects_from _); [done|]. intros forks w1 [= <- <-]. apply (respects_from _); [|intros b w2 _; revert w2; grow].
  destruct (w_forks w !! fork_id h) as [k|] eqn:Hk.
  - destruct (same_history k h); [|done]. revert w Hk. intros w _. revert w. grow.
  - destruct (distinct_seqs _); [|done]. apply (respects_from _); [apply growing_tick|].
    intros u w1 [fs ->]%tick_inv. split; try done. cbn. by apply insert_subseteq.
Qed.
Hint Resolve growing_archive_fork : merge.

Lemma growing_merge_history st et destination ids o source : growing (merge_history st et destination ids o source).
Proof. unfold merge_history, archive, insert_events. grow. Qed.
Hint Resolve growing_merge_history : merge.

Lemma growing_event_graph tables rows o : growing (merge_event_graph tables rows o).
Proof. unfold merge_event_graph. grow. Qed.
Hint Resolve growing_event_graph : merge.

Lemma growing_merge_table rows o t : growing (merge_table rows o t).
Proof. unfold merge_table, merge_keyless_rows, merge_keyless_row, merge_row, insert_or_compare. grow. Qed.
Hint Resolve growing_merge_table : merge.

Lemma growing_ensure_table t : growing (ensure_table t).
Proof. unfold ensure_table. grow. Qed.
Lemma growing_ensure_index i : growing (ensure_index i).
Proof. unfold ensure_index. grow. Qed.
Hint Resolve growing_ensure_table growing_ensure_index : merge.

Lemma growing_body existed tables indexes rows : growing (merge_body existed tables indexes rows).
Proof. unfold merge_body, check_existing, check_integrity. grow. Qed.
End Growing.

(** ** All or nothing *)

Section Atomic.
Context `{Sqlite}.

(** What a database has passed when the transaction is committed. *)
Record checked (tables : list Table) (indexes : list Index) (d : Database) : Prop := mkChecked {
  ck_schema : validate_complete_destination alphanumeric (db_catalog d) tables indexes = inr ();
  ck_integrity : integrity d = $"ok";
  ck_foreign_keys : foreign_key_violations d = 0%Z;
}.

Lemma ends_check w (Q : () → World → Prop) :
  (∀ fs, integrity (w_db w) = $"ok" → foreign_key_violations (w_db w) = 0%Z → Q () (with_faults fs w)) →
  ends check_integrity w Q.
Proof.
  intros HQ. apply ends_bind, ends_query. intros fs [] Hi. destruct (str_eqb _ _) eqn:E; [|done].
  apply str_eqb_eq in E. apply ends_query. intros fs' [] Hf. cbn in Hf.
  destruct (Z.eqb_spec (foreign_key_violations (w_db w)) 0) as [E'|]; [|done]. by apply (HQ fs').
Qed.

Lemma body_checked existed tables indexes rows w :
  ends (merge_body existed tables indexes rows) w (λ _ w', checked tables indexes (w_db w')).
Proof.
  assert (Hany : ∀ (A : Type) (m : Merge A) w (Q : A → World → Prop), (∀ a w', Q a w') → ends m w Q).
  { intros A m w0 Q HQ. unfold ends. destruct (m w0) as [[]]; auto. }
  unfold merge_body. apply ends_bind, Hany. intros _ w1. apply ends_bind, Hany. intros _ w2.
  apply ends_bind, Hany. intros _ w3. apply ends_bind, Hany. intros o1 w4. apply ends_bind, Hany.
  intros o2 w5. apply ends_bind, ends_query. intros fs [] Hv. apply ends_bind, ends_check. intros fs' Hi Hf.
  by apply ends_ret.
Qed.

(** Opening: the transaction starts from the destination, or from nothing. *)
Lemma open_spec w : let '(r, w') := open_destination w in
  w_destination w' = w_destination w ∧ w_forks w' = w_forks w ∧
  match r with
  | inr existed => existed = match w_destination w with Some _ => true | None => false end ∧
      w_db w' = default empty_database (w_destination w)
  | inl _ => True
  end.
Proof.
  unfold open_destination, mbind at 1, Merge_bind at 1.
  destruct (tick w) as [[e|u] w1] eqn:Ht.
  { pose proof (growing_tick w) as G. rewrite Ht in G. destruct G as [_ _ G3 _]. cbn in *.
    split; [done|]. split; [|done]. unfold tick in Ht. destruct (w_faults w) as [|[|] ?]; by injection Ht as _ <-. }
  apply tick_inv in Ht as [fs ->]. unfold mbind at 1, Merge_bind at 1, get_destination.
  change (w_destination (with_faults fs w)) with (w_destination w).
  destruct (w_destination w) as [d|] eqn:Hd.
  - unfold mbind at 1, Merge_bind at 1, tick. cbn. by destruct fs as [|[e|] fs]; cbn; rewrite ?Hd.
  - cbn. unfold tick. cbn. by destruct fs as [|[e|] fs].
Qed.

Lemma discard_spec existed w : let w' := (discard existed w).2 in
  w_destination w' = w_destination w ∧ w_forks w' = w_forks w.
Proof.
  cbn. destruct existed; [done|]. unfold discard, mbind at 1, Merge_bind at 1, get_destination.
  unfold mbind, Merge_bind, tick. by destruct (w_faults w) as [|[e|] fs].
Qed.

Lemma commit_spec existed w : let '(r, w') := commit existed w in
  w_forks w' = w_forks w ∧
  match r with
  | inr _ => w_destination w' = Some (w_db w)
  | inl _ => w_destination w' = w_destination w ∨ w_destination w' = Some (w_db w) ∧ existed = false ∨
             w_destination w' = None ∧ existed = false
  end.
Proof.
  unfold commit. unfold mbind at 1, Merge_bind at 1. destruct (tick w) as [[e|u] w1] eqn:Ht.
  { pose proof (growing_tick w) as G. rewrite Ht in G. destruct G as [_ _ G3 _]. cbn in *.
    split; [|by left]. unfold tick in Ht. destruct (w_faults w) as [|[|] ?]; by injection Ht as _ <-. }
  apply tick_inv in Ht as [fs ->]. destruct existed.
  - done.
  - unfold mbind, Merge_bind, get_db, get_staging, put_files, tick. cbn.
    destruct fs as [|[e|] [|[e'|] fs]]; cbn; (split; [done|]); auto.
Qed.
(** What is left of a destination: either it could not be opened, or the body ran on what it
    held, and was committed or dropped. *)
Lemma merge_destination_outcome tables indexes rows w r w' :
  merge_destination tables indexes rows w = (r, w') →
  let existed := match w_destination w with Some _ => true | None => false end in
  (∃ e, r = inl e ∧ w_destination w' = w_destination w ∧ w_forks w' = w_forks w) ∨
  ∃ wo wb rb, merge_body existed tables indexes rows wo = (rb, wb) ∧
    w_db wo = default empty_database (w_destination w) ∧
    w_forks wo = w_forks w ∧ w_forks w' = w_forks wb ∧
    match rb with
    | inl e => r = inl e ∧ w_destination w' = w_destination w
    | inr o => (w_destination w' = w_destination w ∧ ∃ e, r = inl e) ∨
        w_destination w' = Some (w_db wb) ∧ (r = inr o ∨ existed = false ∧ ∃ e, r = inl e)
    end.
Proof.
  unfold merge_destination, mbind, Merge_bind. pose proof (open_spec w) as Hopen.
  destruct (open_destination w) as [[e|existed] w1].
  { intros [= <- <-]. destruct Hopen as (Hd & Hf & _). left. eauto. }
  destruct Hopen as (Hd & Hf & -> & Hdb). set (existed := match w_destination w with Some _ => _ | None => _ end) in *.
  unfold conclude. pose proof (growing_body existed tables indexes rows w1) as [_ _ G _].
  destruct (merge_body existed tables indexes rows w1) as [rb w2] eqn:Hbody; cbn [snd] in *.
  intros Hrun. right. exists w1, w2, rb. split; [done|]. split; [done|]. split; [done|]. destruct rb as [e|o].
  { injection Hrun as <- <-. pose proof (discard_spec existed w2) as [D1 D2]. cbn zeta in D1, D2.
    by rewrite D1, D2, G, Hd. }
  revert Hrun. unfold mbind, Merge_bind. pose proof (commit_spec existed w2) as Hc.
  destruct (commit existed w2) as [[e|u] w3]; intros [= <- <-]; destruct Hc as [Hcf Hc]; (split; [done|]).
  - destruct Hc as [Hc|[[Hc Hex]|[Hc Hex]]].
    + left. split; [congruence|eauto].
    + right. split; [done|]. right. eauto.
    + left. split; [|eauto]. rewrite Hc. subst existed. by destruct (w_destination w).
  - right. split; [done|]. by left.
Qed.
End Atomic.

(** A merge is all or nothing.  Whatever fails, statement, check, commit or rename, the
    destination is afterwards either as it was, with an error reported, or it is the
    finished merge: a database that holds every private row it held before, has every table
    and index of the source as the source has them, and passed SQLite's checks; an error
    is then only reported when a new file could not be flushed.  The archive keeps what it
    has in either case. *)
Theorem merge_destination_atomic `{Sqlite} tables indexes rows w r w' :
  merge_destination tables indexes rows w = (r, w') →
  let existed := match w_destination w with Some _ => true | None => false end in
  w_forks w ⊆ w_forks w' ∧
  ((w_destination w' = w_destination w ∧ ∃ e, r = inl e) ∨
   ∃ wo wb o, merge_body existed tables indexes rows wo = (inr o, wb) ∧
     w_db wo = default empty_database (w_destination w) ∧
     w_destination w' = Some (w_db wb) ∧ checked tables indexes (w_db wb) ∧
     (∀ t, t ≠ $"event_sequence" → cells_of (w_db wo) t `prefix_of` cells_of (w_db wb) t) ∧
     (r = inr o ∨ existed = false ∧ ∃ e, r = inl e)).
Proof.
  intros Hrun existed.
  destruct (merge_destination_outcome tables indexes rows w r w' Hrun)
    as [(e & -> & Hd & Hf)|(wo & wb & rb & Hbody & Hdb & Hfo & Hfb & Hrb)].
  { rewrite Hf. split; [done|]. left. eauto. }
  pose proof (growing_body existed tables indexes rows wo) as [Gc Gf _ _].
  pose proof (body_checked existed tables indexes rows wo) as Hck. unfold ends in Hck.
  fold existed in Hbody. rewrite Hbody in Gc, Gf, Hck. split; [by rewrite <-Hfo, Hfb|].
  destruct rb as [e|o]; [destruct Hrb as [-> Hd]; left; eauto|].
  destruct Hrb as [[Hd He]|[Hd Hr]]; [by left|]. right. exists wo, wb, o. auto 10.
Qed.

(** ** Rows *)

(** What the merge of a table's rows relies on: a value read from a table of the same schema
    is stored as it is, and [IS] holds of a cell and its own value. *)
Record fitting `{Sqlite} (cat : Catalog) (t : Table) (row : Row) : Prop := mkFitting {
  ft_stored : stored cat (t_name t) (map bound (values row)) = map bound (values row);
  ft_is : ∀ column v, v ∈ values row → cell_is cat (t_name t) column (bound v) (bound v) = true;
  ft_key : Forall (λ i, is_Some (t_columns t !! i) ∧ is_Some (values row !! i)) (t_primary_key t);
}.

Section Rows.
Context `{Sqlite} (scan_perm : ∀ table l, scan table l ≡ₚ l).

(** A row of the table has the row's key. *)
Definition keyed (d : Database) (t : Table) (row : Row) : Prop :=
  ∃ cells, cells ∈ cells_of d (t_name t) ∧ matches_key (db_catalog d) t (key_of t row) cells = true.

(** How many rows of the table equal the row. *)
Definition copies (d : Database) (t : Table) (row : Row) : nat :=
  length (List.filter (λ cells, same_cells (db_catalog d) (t_name t) (t_columns t) cells (values row))
    (cells_of d (t_name t))).

(** The catalog stays, and rows are only added, to the table [t] only. *)
Record adds (t : Table) (d d' : Database) : Prop := mkAdds {
  ad_catalog : db_catalog d' = db_catalog d;
  ad_others : ∀ u, u ≠ t_name t → cells_of d' u = cells_of d u;
  ad_prefix : cells_of d (t_name t) `prefix_of` cells_of d' (t_name t);
}.

#[local] Instance adds_preorder t : PreOrder (adds t).
Proof using.
  split; [done|]. intros d1 d2 d3 [A1 A2 A3] [B1 B2 B3]. split; [congruence| |by etrans].
  intros u Hu. rewrite B2 by done. by apply A2.
Qed.

Lemma keyed_adds t d d' row : adds t d d' → keyed d t row → keyed d' t row.
Proof using.
  intros [A1 _ [l A3]] (cells & Hin & Hm). exists cells. rewrite A1, A3. split; [apply elem_of_app; by left|done].
Qed.

Lemma copies_adds t d d' row : adds t d d' → (copies d t row ≤ copies d' t row)%nat.
Proof using.
  intros [A1 _ [l A3]]. unfold copies. rewrite A1, A3, List.filter_app, length_app. lia.
Qed.

(** The row as it is stored has its own key and equals itself. *)
Lemma fitting_key cat t row : fitting cat t row →
  matches_key cat t (key_of t row) (map bound (values row)) = true.
Proof using.
  intros [_ His Hkey]. unfold matches_key, key_of. apply forallb_forall. intros [i c] Hin%list_elem_of_In.
  apply list_elem_of_omap in Hin as (j & Hj & E). rewrite Forall_forall in Hkey.
  destruct (Hkey j Hj) as [[column Hc] [v Hv]]. rewrite Hv in E. cbn in E. injection E as <- <-. cbn [fst snd].
  rewrite Hc, list_lookup_fmap, Hv. cbn. apply His. by eapply list_elem_of_lookup_2.
Qed.

Lemma typeof_bound v : typeof (bound v) = sqlite_value_type v.
Proof using. by destruct v. Qed.

Lemma fitting_same cat t row : fitting cat t row →
  same_cells cat (t_name t) (t_columns t) (map bound (values row)) (values row) = true.
Proof using.
  intros [_ His _]. revert His. generalize (t_columns t). induction (values row) as [|v l IH]; intros columns His;
    destruct columns as [|column columns]; cbn; try done.
  rewrite typeof_bound, N.eqb_refl, His by left. apply IH. intros c u Hu. apply His. by right.
Qed.

Lemma ends_insert_row t row w : fitting (db_catalog (w_db w)) t row →
  ends (insert_row t row) w (λ _ w', adds t (w_db w) (w_db w') ∧
    cells_of (w_db w') (t_name t) = cells_of (w_db w) (t_name t) ++ [map bound (values row)]).
Proof using.
  intros [Hst _ _]. apply ends_insert. intros fs. rewrite Hst. cbn.
  rewrite cells_of_insert, decide_True by done. split; [|done]. split; [done| |].
  - intros u Hu. by rewrite cells_of_insert, decide_False.
  - rewrite cells_of_insert, decide_True by done. by eexists.
Qed.

(** *** Tables with a key *)

Lemma ends_merge_row t o row w : t_primary_key t ≠ [] → fitting (db_catalog (w_db w)) t row →
  ends (merge_row t o row) w (λ o' w', adds t (w_db w) (w_db w') ∧ keyed (w_db w') t row ∧
    (keyed (w_db w) t row → w_db w' = w_db w ∧ o_changed o' = o_changed o)).
Proof using scan_perm.
  intros Hpk Hfit. unfold merge_row, insert_or_compare. destruct (t_primary_key t) as [|i key] eqn:Ekey; [done|].
  apply ends_bind, ends_bind, ends_query. intros fs existing [= <-].
  destruct (List.find _ _) as [cells|] eqn:Hfind.
  - apply ends_ret. assert (Hk : keyed (w_db w) t row).
    { apply find_some in Hfind as [Hin Hm]. exists cells. split; [|done].
      apply list_elem_of_In in Hin. by rewrite scan_perm in Hin. }
    apply ends_ret. cbn. split; [done|]. split; [done|]. intros _. split; [done|].
    by destruct (values_eqb _ _).
  - apply ends_bind. eapply ends_weaken; [apply (ends_insert_row t row (with_faults fs w) Hfit)|].
    intros [] w' [Hadd Hcells]. apply ends_ret, ends_ret. split; [done|]. split.
    + exists (map bound (values row)). rewrite Hcells. split; [apply elem_of_app; right; left|].
      destruct Hadd as [-> _ _]. by apply fitting_key.
    + intros (cells & Hin & Hm). exfalso. rewrite <-scan_perm in Hin. apply list_elem_of_In in Hin.
      eapply find_none in Hfind; [|exact Hin]. cbn in Hfind, Hm. congruence.
Qed.

Lemma ends_merge_keyed t rows o w : t_primary_key t ≠ [] →
  Forall (fitting (db_catalog (w_db w)) t) rows →
  ends (fold_m (merge_row t) o rows) w (λ o' w', adds t (w_db w) (w_db w') ∧
    Forall (keyed (w_db w') t) rows ∧
    (Forall (keyed (w_db w) t) rows → w_db w' = w_db w ∧ o_changed o' = o_changed o)).
Proof using scan_perm.
  intros Hpk Hfit.
  eapply ends_weaken; [apply (ends_fold (λ dn o' w', adds t (w_db w) (w_db w') ∧ Forall (keyed (w_db w') t) dn ∧
    (Forall (keyed (w_db w) t) rows → w_db w' = w_db w ∧ o_changed o' = o_changed o)))|].
  - intros dn row rest o1 w1 E (Hadd & Hdn & Hsame).
    assert (Hrow : fitting (db_catalog (w_db w1)) t row).
    { rewrite (ad_catalog _ _ _ Hadd). rewrite Forall_forall in Hfit. apply Hfit. rewrite E. apply elem_of_app. right. left. }
    eapply ends_weaken; [by apply ends_merge_row|]. intros o2 w2 (Hadd' & Hk & Hkeep).
    split; [by etrans|]. split.
    + apply Forall_app. split; [|by apply Forall_singleton]. eapply Forall_impl; [exact Hdn|].
      intros r. by apply keyed_adds.
    + intros Hall. destruct (Hsame Hall) as [E1 E2]. destruct Hkeep as [E3 E4]; [|split; congruence].
      rewrite E1. rewrite Forall_forall in Hall. apply Hall. rewrite E. apply elem_of_app. right. left.
  - split; [done|]. split; [done|]. done.
  - intros o' w' (H1 & H2 & H3). done.
Qed.

(** *** Tables without one *)

Definition occurrences (key : str) (rows : list Row) : nat := length (filter (λ r, row_key r = key) rows).

Lemma count_rows_spec rows : ∀ key,
  match foldl count_row ∅ rows !! key with
  | None => occurrences key rows = 0%nat
  | Some (first, n) => row_key first = key ∧ first ∈ rows ∧ n = N.of_nat (occurrences key rows)
  end.
Proof using.
  induction rows as [|row rows IH] using rev_ind; intros key; [done|]. rewrite foldl_snoc.
  assert (Hocc : occurrences key (rows ++ [row]) =
    (occurrences key rows + if decide (row_key row = key) then 1 else 0)%nat).
  { unfold occurrences. rewrite filter_app, length_app, filter_cons, filter_nil. by case_decide. }
  rewrite Hocc. specialize (IH key). unfold count_row at 1. case_decide as E.
  - subst key. rewrite lookup_insert_eq.
    destruct (foldl count_row ∅ rows !! row_key row) as [[first n]|].
    + destruct IH as (H1 & H2 & ->). split; [done|]. split; [apply elem_of_app; by left|]. lia.
    + rewrite IH. split; [done|]. split; [apply elem_of_app; right; left|done].
  - rewrite lookup_insert_ne by done. destruct (foldl count_row ∅ rows !! key) as [[first n]|].
    + destruct IH as (H1 & H2 & ->). split; [done|]. split; [apply elem_of_app; by left|]. lia.
    + lia.
Qed.

Lemma counted_rows rows row n : (row, n) ∈ map snd (btree_list (foldl count_row ∅ rows)) ↔
  foldl count_row ∅ rows !! row_key row = Some (row, n).
Proof using.
  rewrite <-elem_of_btree_list. split.
  - intros ([key [r k]] & [= -> ->] & Hin)%list_elem_of_fmap.
    apply elem_of_btree_list in Hin as Hl. pose proof (count_rows_spec rows key) as Hc. rewrite Hl in Hc.
    by destruct Hc as [-> _].
  - intros Hin. apply list_elem_of_fmap. by exists (row_key row, (row, n)).
Qed.

Lemma ends_times t row : ∀ n w, fitting (db_catalog (w_db w)) t row →
  ends (insert_times n t row) w (λ _ w', adds t (w_db w) (w_db w') ∧
    copies (w_db w') t row = (copies (w_db w) t row + n)%nat ∧ (n = 0%nat → w_db w' = w_db w)).
Proof using.
  induction n as [|n IH]; intros w Hfit; cbn [insert_times].
  { apply ends_ret. split; [done|]. split; [lia|done]. }
  apply ends_bind. eapply ends_weaken; [by apply ends_insert_row|]. intros [] w1 [Hadd Hcells].
  assert (Hfit1 : fitting (db_catalog (w_db w1)) t row) by (by rewrite (ad_catalog _ _ _ Hadd)).
  eapply ends_weaken; [by apply IH|]. intros [] w2 (Hadd' & Hc & _). split; [by etrans|]. split; [|done].
  rewrite Hc. assert (copies (w_db w1) t row = S (copies (w_db w) t row)) as ->; [|lia].
  unfold copies. rewrite Hcells, (ad_catalog _ _ _ Hadd), List.filter_app, length_app.
  cbn [List.filter]. rewrite fitting_same by done. cbn. lia.
Qed.

Lemma ends_keyless_row t changed row n w : fitting (db_catalog (w_db w)) t row →
  ends (merge_keyless_row t changed (row, n)) w (λ changed' w', adds t (w_db w) (w_db w') ∧
    (N.to_nat n ≤ copies (w_db w') t row)%nat ∧
    ((N.to_nat n ≤ copies (w_db w) t row)%nat → w_db w' = w_db w ∧ changed' = changed)).
Proof using.
  intros Hfit. unfold merge_keyless_row. apply ends_bind, ends_query. intros fs k [= <-]. cbn [fst snd].
  fold (copies (w_db w) t row). apply ends_bind.
  eapply ends_weaken; [apply (ends_times t row _ (with_faults fs w) Hfit)|].
  intros [] w' (Hadd & Hc & Hz). apply ends_ret. cbn in Hadd, Hc, Hz. split; [done|]. split; [lia|].
  intros Hle. rewrite Hz by lia. split; [done|]. lia.
Qed.

(** The rows of the source are in the table. *)
Definition arrived (d : Database) (t : Table) (rows : list Row) : Prop :=
  match t_primary_key t with
  | [] => ∀ row, row ∈ rows → (length (filter (λ r, r = row) rows) ≤ copies d t row)%nat
  | _ => Forall (keyed d t) rows
  end.

(** With keys that tell rows apart, a counted row is counted as often as it occurs. *)
Lemma occurrences_eq rows row : Forall row_ok rows → row ∈ rows →
  occurrences (row_key row) rows = length (filter (λ r, r = row) rows).
Proof using.
  intros Hok Hin. rewrite Forall_forall in Hok. pose proof (Hok row Hin) as Hrow. unfold occurrences.
  clear Hin. induction rows as [|r rows IH]; [done|]. rewrite !filter_cons.
  assert (Hr : row_key r = row_key row ↔ r = row).
  { split; [|by intros ->]. apply row_key_inj; [apply Hok; left|done]. }
  assert (E : length (filter (λ r, row_key r = row_key row) rows) = length (filter (λ r, r = row) rows)).
  { apply IH. intros x Hx. apply Hok. by right. }
  repeat case_decide; cbn; rewrite ?E; tauto || lia.
Qed.

Lemma ends_merge_keyless t rows w : Forall (fitting (db_catalog (w_db w)) t) rows → Forall row_ok rows →
  ends (merge_keyless_rows t rows) w (λ changed w', adds t (w_db w) (w_db w') ∧
    (∀ row, row ∈ rows → (length (filter (λ r, r = row) rows) ≤ copies (w_db w') t row)%nat) ∧
    ((∀ row, row ∈ rows → (length (filter (λ r, r = row) rows) ≤ copies (w_db w) t row)%nat) →
       w_db w' = w_db w ∧ changed = 0)).
Proof using.
  intros Hfit Hok. unfold merge_keyless_rows. set (counted := map snd _).
  assert (Hcount : ∀ row n, (row, n) ∈ counted → row ∈ rows ∧ N.to_nat n = length (filter (λ r, r = row) rows)).
  { intros row n Hin%counted_rows. pose proof (count_rows_spec rows (row_key row)) as Hc. rewrite Hin in Hc.
    destruct Hc as (_ & Hr & ->). split; [done|]. rewrite Nat2N.id. by apply occurrences_eq. }
  eapply ends_weaken; [apply (ends_fold (λ dn changed w', adds t (w_db w) (w_db w') ∧
    (∀ row n, (row, n) ∈ dn → (N.to_nat n ≤ copies (w_db w') t row)%nat) ∧
    ((∀ row, row ∈ rows → (length (filter (λ r, r = row) rows) ≤ copies (w_db w) t row)%nat) →
       w_db w' = w_db w ∧ changed = 0)))|].
  - intros dn [row n] rest changed w1 E (Hadd & Hdn & Hsame).
    destruct (Hcount row n) as [Hrow Hn]; [rewrite E; apply elem_of_app; right; left|].
    assert (Hf : fitting (db_catalog (w_db w1)) t row).
    { rewrite (ad_catalog _ _ _ Hadd). rewrite Forall_forall in Hfit. by apply Hfit. }
    eapply ends_weaken; [by apply ends_keyless_row|]. intros changed' w2 (Hadd' & Hc & Hkeep).
    split; [by etrans|]. split.
    + intros r k [Hin|[= -> ->]]%elem_of_snoc; [|done]. etrans; [by apply Hdn|]. by apply copies_adds.
    + intros Hall. destruct (Hsame Hall) as [E1 ->]. destruct Hkeep as [E3 ->]; [|split; congruence].
      rewrite E1, Hn. by apply Hall.
  - split; [done|]. split; [by intros r k ?%not_elem_of_nil|]. done.
  - intros changed w' (Hadd & Hall & Hsame). split; [done|]. split; [|done]. intros row Hrow.
    pose proof (count_rows_spec rows (row_key row)) as Hc.
    destruct (foldl count_row ∅ rows !! row_key row) as [[first n]|] eqn:Hl.
    + destruct Hc as (Hk & Hfirst & _). assert (first = row) as ->.
      { rewrite Forall_forall in Hok. apply row_key_inj; auto. }
      assert (Hin : (row, n) ∈ counted) by (by apply counted_rows). destruct (Hcount row n Hin) as [_ <-].
      by apply Hall.
    + exfalso. unfold occurrences in Hc. apply nil_length_inv in Hc.
      assert (Hin : row ∈ filter (λ r, row_key r = row_key row) rows) by (by apply list_elem_of_filter).
      rewrite Hc in Hin. by apply not_elem_of_nil in Hin.
Qed.

Lemma ends_merge_table rows o t w : Forall (fitting (db_catalog (w_db w)) t) (rows_of rows (t_name t)) →
  Forall row_ok (rows_of rows (t_name t)) →
  ends (merge_table rows o t) w (λ o' w', adds t (w_db w) (w_db w') ∧
    arrived (w_db w') t (rows_of rows (t_name t)) ∧
    (arrived (w_db w) t (rows_of rows (t_name t)) → w_db w' = w_db w ∧ o_changed o' = o_changed o)).
Proof using scan_perm.
  intros Hfit Hok. unfold merge_table, arrived. destruct (t_primary_key t) as [|i key] eqn:Ek.
  - apply ends_bind. eapply ends_weaken; [by apply ends_merge_keyless|].
    intros changed w' (H1 & H2 & H3). apply ends_ret. split; [done|]. split; [done|]. intros Hall.
    destruct (H3 Hall) as [E ->]. split; [done|]. cbn. lia.
  - apply ends_merge_keyed; [by rewrite Ek|done].
Qed.
End Rows.

(** The source's rows arrive, once, and private rows stay.  When the rows of a table have
    been merged, no row was removed or changed, no other table was touched, and every row
    of the source is there: a row with its key when the table has a key, as many equal
    rows as the source has when it has none; and merging the same rows again, whatever
    happened elsewhere, changes nothing and counts no change. *)
Theorem merge_rows_settle `{Sqlite} (rows : gmap str (list Row)) t o w o1 w1 :
  (∀ table l, scan table l ≡ₚ l) →
  Forall (fitting (db_catalog (w_db w)) t) (rows_of rows (t_name t)) →
  Forall row_ok (rows_of rows (t_name t)) →
  merge_table rows o t w = (inr o1, w1) →
  (cells_of (w_db w) (t_name t) `prefix_of` cells_of (w_db w1) (t_name t) ∧
   ∀ u, u ≠ t_name t → cells_of (w_db w1) u = cells_of (w_db w) u) ∧
  arrived (w_db w1) t (rows_of rows (t_name t)) ∧
  ∀ o2 w2 o3 w3, w_db w2 = w_db w1 → merge_table rows o2 t w2 = (inr o3, w3) →
    w_db w3 = w_db w1 ∧ o_changed o3 = o_changed o2.
Proof.
  intros Hscan Hfit Hok Hrun.
  pose proof (ends_merge_table Hscan rows o t w Hfit Hok) as H1. unfold ends in H1. rewrite Hrun in H1.
  destruct H1 as (Hadd & Harr & _). split; [split; apply Hadd|]. split; [done|].
  intros o2 w2 o3 w3 E Hrun'. rewrite <-(ad_catalog _ _ _ Hadd), <-E in Hfit.
  pose proof (ends_merge_table Hscan rows o2 t w2 Hfit Hok) as H2. unfold ends in H2. rewrite Hrun' in H2.
  destruct H2 as (_ & _ & Hsame). rewrite E in Hsame. by apply Hsame.
Qed.

Module Examples.
Import MergeSafety.Examples.
#[local] Existing Instance plain.

(** A table with a key, one private row and two of the source, one under the same key. *)
Definition todo : Table := mkTable $"todo" [] [ $"id"; $"text"] [0%nat] [] [] false false [] true true.
Definition a_todo (id text : str) : Row := mkRow [Text id; Text text].
Definition todos : gmap str (list Row) := <[ $"todo" := [a_todo $"1" $"theirs"; a_todo $"2" $"new"]]> ∅.
Definition mine : Database :=
  mkDatabase (db_catalog empty_database) (<[ $"todo" := cells_of_rows [a_todo $"1" $"mine"]]> ∅).
Definition start : World := mkWorld (Some mine) None mine ∅ [].
Definition merged := merge_table todos no_outcome todo start.
Definition merged_outcome : MergeOutcome := match merged.1 with inr o => o | inl _ => no_outcome end.
Definition again := merge_table todos no_outcome todo merged.2.
Definition again_outcome : MergeOutcome := match again.1 with inr o => o | inl _ => no_outcome end.

Lemma merged_run : merged = (inr merged_outcome, merged.2).
Proof. vm_compute. reflexivity. Qed.
Lemma again_run : again = (inr again_outcome, again.2).
Proof. vm_compute. reflexivity. Qed.

Lemma todos_fit : Forall (fitting (db_catalog (w_db start)) todo) (rows_of todos (t_name todo)).
Proof.
  repeat (apply Forall_cons; split).
  - split; [reflexivity| |by repeat constructor; eexists]. intros column v _. by apply bool_decide_eq_true.
  - split; [reflexivity| |by repeat constructor; eexists]. intros column v _. by apply bool_decide_eq_true.
  - constructor.
Qed.

(** A short ASCII text. *)
Lemma ascii_ok (s : str) : forallb (λ c, c <? 128) s && (length s <? 100)%nat = true → value_ok (Text s).
Proof.
  intros [Ha Hl]%andb_true_iff. apply Nat.ltb_lt in Hl. rewrite forallb_forall in Ha.
  assert (Hsc : Forall (λ c, c < 128) s).
  { apply Forall_forall. intros c Hc. apply N.ltb_lt, Ha, list_elem_of_In, Hc. }
  assert (Hlen : as_bytes s = s).
  { clear -Hsc. induction Hsc as [|c s Hc _ IH]; [done|]. unfold as_bytes in *. cbn. rewrite IH.
    unfold encode_char. by rewrite (proj2 (N.ltb_lt c 128) Hc). }
  split; [|rewrite Hlen; lia]. eapply Forall_impl; [exact Hsc|]. intros c Hc. left. cbn in Hc. lia.
Qed.

Lemma todos_ok : Forall row_ok (rows_of todos (t_name todo)).
Proof.
  repeat (apply Forall_cons; split); try constructor; repeat constructor; apply ascii_ok; vm_compute; reflexivity.
Qed.

Lemma merge_rows_settle_witness :
  cells_of (w_db merged.2) $"todo" = cells_of_rows [a_todo $"1" $"mine"; a_todo $"2" $"new"] ∧
  arrived (w_db merged.2) todo (rows_of todos $"todo") ∧
  w_db again.2 = w_db merged.2 ∧ o_changed again_outcome = 0.
Proof.
  destruct (merge_rows_settle todos todo no_outcome start merged_outcome merged.2
    (λ _ _, reflexivity _) todos_fit todos_ok merged_run) as (_ & Harr & Hagain).
  split; [vm_compute; reflexivity|]. split; [exact Harr|].
  exact (Hagain no_outcome merged.2 again_outcome again.2 eq_refl again_run).
Defined.

(** A destination that cannot be committed stays as it is. *)
Definition locked : World := mkWorld (Some mine) None mine ∅ (repeat None 7 ++ [Some $"database is locked"]).
Definition failed := merge_destination [] [] todos locked.

Lemma merge_destination_atomic_witness :
  (∃ e, failed.1 = inl e) ∧ w_destination failed.2 = Some mine.
Proof.
  destruct (merge_destination_atomic [] [] todos locked failed.1 failed.2 (surjective_pairing _))
    as (_ & [[Hd He]|(wo & wb & o & _ & _ & _ & _ & _ & [Hr|[Hex _]])]).
  - split; [exact He|exact Hd].
  - vm_compute in Hr. discriminate Hr.
  - vm_compute in Hex. discriminate Hex.
Defined.
End Examples.
