(* ===== verification/Confine.v ===== *)
(** * Nothing else gets in

    What a merge can bring into a database and its archive, whether it succeeds or not:
    only rows it was given, under the table they were given for.  [MigrateSafety] draws
    from it that projects stay apart. *)
From stdpp Require Import gmap sets.
From S2P Require Import Prelude Str.
From S2P Require Import Wire OcRows OcEvents OcSchema.
From S2P Require Import EventSafety OcMerge MergeSafety RowSafety.

(** The row [c'] is [c], or it is [c] with another number in the sequence table. *)
Definition renumbers (t : str) (c c' : list ValueRef) : Prop :=
  c = c' ∨ t = $"event_sequence" ∧
    ∃ key n m rest, c = key :: n :: rest ∧ c' = key :: m :: rest.

Lemma renumbers_refl t c : renumbers t c c.
Proof. by left. Qed.

Lemma renumbers_trans t a b c : renumbers t a b → renumbers t b c → renumbers t a c.
Proof.
  intros [->|(Ht & key & n & m & rest & -> & ->)]; [done|].
  intros [<-|(_ & key' & n' & m' & rest' & E & ->)].
  - right. split; [done|]. by exists key, n, m, rest.
  - injection E as <- <- <-. right. split; [done|]. by exists key, n, m', rest.
Qed.

(** A history made of the given rows. *)
Definition history_from (rows : gmap str (list Row)) (h : EventHistory) : Prop :=
  eh_sequence h ∈ rows_of rows $"event_sequence" ∧ ∀ e, e ∈ eh_events h → e ∈ rows_of rows $"event".

Section Confined.
Context `{Sqlite} (rows : gmap str (list Row)).

(** The stored form of a given row. *)
Definition comes_from (t : str) (c : list ValueRef) : Prop :=
  ∃ cat row, row ∈ rows_of rows t ∧ renumbers t (stored cat t (map bound (values row))) c.

(** Every row of [d'] was in [d] or was given. *)
Definition cells_confined (d d' : Database) : Prop :=
  ∀ t c', c' ∈ cells_of d' t → (∃ c, c ∈ cells_of d t ∧ renumbers t c c') ∨ comes_from t c'.
Definition forks_confined (f f' : gmap str EventHistory) : Prop :=
  ∀ k h, f' !! k = Some h → f !! k = Some h ∨ history_from rows h.

Record confined (w w' : World) : Prop := mkConfined {
  cf_cells : cells_confined (w_db w) (w_db w');
  cf_forks : forks_confined (w_forks w) (w_forks w');
}.

Lemma cells_confined_refl d : cells_confined d d.
Proof using. intros t c Hc. left. exists c. split; [done|apply renumbers_refl]. Qed.

#[export] Instance confined_preorder : PreOrder confined.
Proof using.
  split.
  - intros w. split; [apply cells_confined_refl|by left].
  - intros w1 w2 w3 [A1 A2] [B1 B2]. split.
    + intros t c'' [(c' & [(c & Hc & R)|(cat & row & Hrow & R)]%A1 & R')|Hf]%B1; [left|right|by right].
      * exists c. split; [done|]. by eapply renumbers_trans.
      * exists cat, row. split; [done|]. by eapply renumbers_trans.
    + intros k h [[?|?]%A2|?]%B2; auto.
Qed.

Abbreviation confining := (respects confined) (only parsing).

Lemma confining_tick : confining tick.
Proof using.
  intros w. unfold tick. destruct (w_faults w) as [|[|] ?]; (split; [apply cells_confined_refl|by left]).
Qed.

Lemma confining_query {A : Type} (g : Database → str + A) : confining (query g).
Proof using. apply (respects_query _), confining_tick. Qed.

Lemma confining_insert (t : Table) (row : Row) : row ∈ rows_of rows (t_name t) → confining (insert_row t row).
Proof using.
  intros Hrow. unfold insert_row. apply (respects_bind _); [apply confining_tick|]. intros _ w.
  unfold mbind, Merge_bind, get_db. destruct (rejects _ _ _); [cbn; reflexivity|]. split; [|by left].
  intros u c Hc. cbn in Hc. rewrite cells_of_insert in Hc. case_decide as E.
  - subst u. apply elem_of_app in Hc as [Hc|Hc%list_elem_of_singleton].
    + left. exists c. split; [done|apply renumbers_refl].
    + right. exists (db_catalog (w_db w)), row. split; [done|]. by left.
  - left. exists c. split; [done|apply renumbers_refl].
Qed.

Lemma confining_times n (t : Table) (row : Row) : row ∈ rows_of rows (t_name t) → confining (insert_times n t row).
Proof using.
  intros Hrow. induction n as [|n IH]; cbn; [apply (respects_ret _)|].
  apply (respects_bind _); [by apply confining_insert|done].
Qed.

Lemma confining_execute sql : confining (execute_batch sql).
Proof using.
  unfold execute_batch. apply (respects_bind _); [apply confining_tick|]. intros _ w.
  unfold mbind, Merge_bind, get_db, lift. destruct (created _ _); [cbn; reflexivity|].
  split; [|by left]. intros t c' Hc. left. exists c'. split; [done|apply renumbers_refl].
Qed.

Lemma confining_update_seq a n : confining (update_seq a n).
Proof using.
  unfold update_seq. apply (respects_bind _); [apply confining_tick|]. intros _ w.
  unfold mbind, Merge_bind, get_db, put_db. split; [|by left]. intros t c' Hc. left. cbn in Hc.
  destruct (decide (t = $"event_sequence")) as [->|Ht].
  - unfold cells_of at 1 in Hc. cbn [db_tables] in Hc. rewrite lookup_insert_eq in Hc. cbn [default] in Hc.
    apply list_elem_of_In, in_map_iff in Hc as (c & <- & Hc%list_elem_of_In). exists c. split; [done|].
    unfold set_seq. destruct c as [|key [|old rest]]; [by left..|]. destruct (cell_is _ _ _ _ _); [|by left].
    right. split; [done|]. by exists key, old, (IntegerRef n), rest.
  - unfold cells_of in Hc |- *. cbn in Hc. rewrite lookup_insert_ne in Hc by done. exists c'.
    split; [done|apply renumbers_refl].
Qed.
End Confined.

Create HintDb confine discriminated.
#[export] Hint Resolve respects_ret respects_lift respects_fails respects_get_db respects_get_forks
  confined_preorder confining_tick confining_query confining_insert confining_times confining_execute
  confining_update_seq : confine.

(** Case analysis down to the primitive steps. *)
Ltac confine :=
  repeat first
    [ solve [auto with confine]
    | apply (respects_bind _); [|intros ?]
    | apply (respects_fold _); intros ? ? ?
    | match goal with |- respects _ (match ?x with _ => _ end) => destruct x end ].

Section Merges.
Context `{Sqlite} (rows : gmap str (list Row)).

(** *** Histories *)

Lemma sequence_histories_from (t : Table) l : ∀ acc m,
  (∀ r, r ∈ l → r ∈ rows_of rows $"event_sequence") →
  (∀ a h, acc !! a = Some h → history_from rows h) → sequence_histories t l acc = inr m →
  ∀ a h, m !! a = Some h → history_from rows h.
Proof using.
  induction l as [|row l IH]; intros acc m Hl Hacc; cbn [sequence_histories]; [by intros [= <-]|].
  unfold mbind, Fallible_bind. destruct (required_text t row _ _) as [|aggregate]; [done|].
  apply IH; [intros r Hr; apply Hl; by right|]. intros a h [[<- <-]|[_ Hh]]%lookup_insert_Some; [|by eapply Hacc].
  split; [apply Hl; left|]. by intros e ?%not_elem_of_nil.
Qed.

Lemma push_events_from (t : Table) l : ∀ acc m,
  (∀ r, r ∈ l → r ∈ rows_of rows $"event") →
  (∀ a h, acc !! a = Some h → history_from rows h) → push_events t l acc = inr m →
  ∀ a h, m !! a = Some h → history_from rows h.
Proof using.
  induction l as [|row l IH]; intros acc m Hl Hacc; cbn [push_events]; [by intros [= <-]|].
  unfold mbind, Fallible_bind. destruct (required_text t row _ _) as [|aggregate]; [done|].
  destruct (bool_decide _); [|done]. apply IH; [intros r Hr; apply Hl; by right|].
  intros a h Hh. apply lookup_alter_Some in Hh as [(<- & k & Hk & ->)|[_ Hh]]; [|by eapply Hacc].
  destruct (Hacc _ _ Hk) as [H1 H2]. split; [done|]. cbn. intros e [He|He%list_elem_of_singleton]%elem_of_app; [auto|].
  subst e. apply Hl. left.
Qed.

Lemma event_histories_from (st et : Table) m : event_histories st et rows = inr m →
  ∀ a h, m !! a = Some h → history_from rows h.
Proof using.
  unfold event_histories, mbind, Fallible_bind.
  destruct (sequence_histories st _ ∅) as [|s] eqn:Hs; [done|].
  destruct (push_events et _ s) as [|p] eqn:Hp; [done|]. destruct (field_index et _) as [|i]; [done|].
  intros [= <-] a h Hh. rewrite lookup_fmap in Hh. destruct (p !! a) as [k|] eqn:Hk; [|done].
  injection Hh as <-. assert (Hf : history_from rows k).
  { eapply push_events_from; [| |exact Hp|exact Hk]; [done|].
    eapply sequence_histories_from; [| |exact Hs]; [done|]. by intros ? ? ?%lookup_empty_Some. }
  destruct Hf as [H1 H2]. split; [done|]. cbn. intros e He%elem_of_sort_by. auto.
Qed.

Lemma confining_archive_fork h : history_from rows h → respects (confined rows) (archive_event_fork h).
Proof using.
  intros Hh. unfold archive_event_fork. apply (respects_bind _); [auto with confine|]. intros _ w.
  unfold mbind at 1, Merge_bind at 1, get_forks.
  assert (Hc : ∀ forks, w_forks w = forks → ∀ m : Merge bool, m =
    (match forks !! fork_id h with
     | None => if distinct_seqs (eh_events h)
               then tick ≫= λ _, put_forks (<[fork_id h := h]> forks) ≫= λ _, mret true
               else fails $"UNIQUE constraint failed"
     | Some archived => if same_history archived h then tick ≫= λ _, mret false
                        else fails $"event fork archive hash collision or corruption"
     end) → confined rows w (m w).2).
  { intros forks E m ->. destruct (forks !! fork_id h) as [k|].
    - assert (Hm : respects (confined rows) (if same_history k h then tick ≫= λ _, mret false
        else fails $"event fork archive hash collision or corruption")) by confine. apply Hm.
    - destruct (distinct_seqs _); [|apply (respects_fails _)]. unfold mbind, Merge_bind at 1.
      destruct (tick w) as [[e|u] w1] eqn:Ht; [pose proof (confining_tick rows w) as Hw; by rewrite Ht in Hw|].
      apply tick_inv in Ht as [fs ->]. cbn. split; [apply cells_confined_refl|]. cbn. rewrite <-E.
      intros key k [[_ <-]|[_ ?]]%lookup_insert_Some; [by right|by left]. }
  specialize (Hc _ eq_refl _ eq_refl). unfold mbind at 1, Merge_bind at 1.
  destruct (_ w) as [[e|b] w1]; [done|]. etransitivity; [exact Hc|].
  assert (Hm : respects (confined rows) (tick ≫= λ _, tick ≫= λ _, mret b)) by confine. apply Hm.
Qed.
Hint Resolve confining_archive_fork : confine.

Lemma confining_insert_events (et : Table) o l : t_name et = $"event" →
  (∀ e, e ∈ l → e ∈ rows_of rows $"event") → respects (confined rows) (insert_events et o l).
Proof using.
  intros Het Hl. unfold insert_events. apply (respects_fold _). intros s x Hx. apply (respects_bind _); [|confine].
  apply confining_insert. rewrite Het. auto.
Qed.

Lemma confining_merge_history (st et : Table) destination ids o source :
  t_name st = $"event_sequence" → t_name et = $"event" → history_from rows source.2 →
  respects (confined rows) (merge_history st et destination ids o source).
Proof using.
  intros Hst Het Hh. pose proof Hh as [H1 H2]. unfold merge_history, archive. destruct (destination !! source.1) as [p|].
  - apply (respects_bind _); [confine|]. intros b. destruct (_ || _); [confine|]. destruct (_ <=? _)%nat; [confine|].
    apply (respects_bind _); [apply confining_insert_events; [done|]|intros o'; confine].
    intros e He. apply H2. rewrite <-(take_drop (Nat.min (length (eh_events source.2)) (length (eh_events p)))
      (eh_events source.2)). apply elem_of_app. by right.
  - apply (respects_bind _); [confine|]. intros b. destruct b; [confine|].
    apply (respects_bind _); [apply confining_insert; by rewrite Hst|]. intros _. by apply confining_insert_events.
Qed.

Lemma confining_event_graph tables o : respects (confined rows) (merge_event_graph tables rows o).
Proof using.
  unfold merge_event_graph. destruct (find_table tables _) as [st|] eqn:Hst; [|confine].
  apply found_name in Hst. apply (respects_known _). intros et Het.
  destruct (find_table tables $"event") as [t|] eqn:Et; [|done]. injection Het as <-. apply found_name in Et.
  apply (respects_bind _); [confine|]. intros drows. apply (respects_bind _); [confine|]. intros _.
  apply (respects_known _). intros source Hsource. apply (respects_bind _); [confine|]. intros destination.
  apply (respects_bind _); [confine|]. intros ids. apply (respects_fold _). intros s [a h] Hx.
  apply elem_of_btree_list in Hx. apply confining_merge_history; [done..|]. by eapply event_histories_from.
Qed.

(** *** Rows *)

Lemma confining_merge_table o (t : Table) : respects (confined rows) (merge_table rows o t).
Proof using.
  unfold merge_table. destruct (t_primary_key t) as [|i key] eqn:Ek.
  - apply (respects_bind _); [|intros changed; confine]. unfold merge_keyless_rows. apply (respects_fold _).
    intros changed [row n] Hin%counted_rows. unfold merge_keyless_row. apply (respects_bind _); [confine|].
    intros k. apply (respects_bind _); [|intros _; confine]. apply confining_times. cbn [fst].
    pose proof (count_rows_spec (rows_of rows (t_name t)) (row_key row)) as Hc. rewrite Hin in Hc. by destruct Hc as (_ & ? & _).
  - apply (respects_fold _). intros s row Hrow. unfold merge_row, insert_or_compare. rewrite Ek.
    apply (respects_bind _); [|intros merged; confine]. apply (respects_bind _); [confine|]. intros [cells|]; [confine|].
    apply (respects_bind _); [by apply confining_insert|confine].
Qed.

Lemma confining_body existed tables indexes : respects (confined rows) (merge_body existed tables indexes rows).
Proof using.
  pose proof (confining_event_graph tables). pose proof confining_merge_table.
  unfold merge_body, check_existing, check_integrity, ensure_table, ensure_index. confine.
Qed.

(** *** A destination *)

(** Whatever fails, what a destination holds afterwards was there or was given. *)
Lemma merge_destination_confined tables indexes w r w' :
  merge_destination tables indexes rows w = (r, w') →
  forks_confined rows (w_forks w) (w_forks w') ∧
  match w_destination w' with
  | Some d' => cells_confined rows (default empty_database (w_destination w)) d'
  | None => w_destination w = None
  end.
Proof using.
  intros Hrun. destruct (merge_destination_outcome tables indexes rows w r w' Hrun)
    as [(e & -> & Hd & Hf)|(wo & wb & rb & Hbody & Hdb & Hfo & Hfb & Hrb)].
  { rewrite Hf, Hd. split; [by left|]. destruct (w_destination w) as [d|]; [apply cells_confined_refl|done]. }
  pose proof (confining_body (match w_destination w with Some _ => true | None => false end) tables indexes wo) as [C1 C2]. rewrite Hbody in C1, C2. cbn [snd] in C1, C2.
  rewrite Hfb, <-Hfo. split; [done|].
  assert (Hsame : w_destination w' = w_destination w →
    match w_destination w' with
    | Some d' => cells_confined rows (default empty_database (w_destination w)) d'
    | None => w_destination w = None
    end).
  { intros ->. destruct (w_destination w) as [d|]; [apply cells_confined_refl|done]. }
  destruct rb as [e|o]; [by apply Hsame, Hrb|]. destruct Hrb as [[Hd _]|[Hd _]]; [by apply Hsame|].
  rewrite Hd, <-Hdb. done.
Qed.
End Merges.
