(* ===== verification/Arrival.v ===== *)
(** * A finished merge has everything

    What the body of a merge leaves behind when it succeeds: every row it was given for a
    table it merges, and every history it was given, here or in the archive.  Also what
    becomes of the histories of the source when they are divided between destinations. *)
From stdpp Require Import gmap sets.
From S2P Require Import Prelude Str Utf8.
From S2P Require Import Fs Files Project.
From S2P Require Import Wire OcRows OcRoute OcEvents OcSchema.
From S2P Require Import EventSafety OcMerge MergeSafety RowSafety.

Lemma merge_bind_inv {A B : Type} (m : Merge A) (k : A → Merge B) w b w' :
  (m ≫= k) w = (inr b, w') → ∃ a w1, m w = (inr a, w1) ∧ k a w1 = (inr b, w').
Proof. unfold mbind, Merge_bind. destruct (m w) as [[e|a] w1]; [done|]. eauto. Qed.

Lemma query_inv {A : Type} (g : Database → str + A) w a w' : query g w = (inr a, w') →
  g (w_db w) = inr a ∧ w_db w' = w_db w ∧ w_forks w' = w_forks w.
Proof.
  unfold query. intros (u & w1 & [fs ->]%tick_inv & H)%merge_bind_inv. cbn in H.
  unfold mbind, Merge_bind, get_db, lift in H. by injection H as -> <-.
Qed.

(** ** Where a step can write *)

(** The catalog stays, and so do the rows of the tables outside [P]. *)
Record within (P : str → Prop) (w w' : World) : Prop := mkWithin {
  wi_catalog : db_catalog (w_db w') = db_catalog (w_db w);
  wi_cells : ∀ u, ¬ P u → cells_of (w_db w') u = cells_of (w_db w) u;
}.
#[export] Instance within_preorder P : PreOrder (within P).
Proof.
  split; [done|]. intros a b c [A1 A2] [B1 B2]. split; [congruence|]. intros u Hu. rewrite B2 by done. by apply A2.
Qed.

Lemma within_same P w w' : w_db w' = w_db w → within P w w'.
Proof. intros E. split; by rewrite E. Qed.

Create HintDb within discriminated.
#[export] Hint Resolve respects_ret respects_lift respects_fails respects_get_db respects_get_forks
  within_preorder : within.

Section Within.
Context `{Sqlite} (P : str → Prop).

Lemma within_tick : respects (within P) tick.
Proof using. intros w. unfold tick. by destruct (w_faults w) as [|[|] ?]; apply within_same. Qed.
Hint Resolve within_tick : within.

Lemma within_query {A : Type} (g : Database → str + A) : respects (within P) (query g).
Proof using. apply (respects_query _), within_tick. Qed.
Hint Resolve within_query : within.

Lemma within_put_forks fs : respects (within P) (put_forks fs).
Proof using. intros w. by apply within_same. Qed.
Hint Resolve within_put_forks : within.

Lemma within_insert (t : Table) row : P (t_name t) → respects (within P) (insert_row t row).
Proof using.
  intros HP. unfold insert_row. apply (respects_bind _); [auto with within|]. intros _ w.
  unfold mbind, Merge_bind, get_db. destruct (rejects _ _ _); [cbn; reflexivity|]. split; [done|].
  intros u Hu. cbn. rewrite cells_of_insert. case_decide as E; [by subst|done].
Qed.

Lemma within_times n (t : Table) row : P (t_name t) → respects (within P) (insert_times n t row).
Proof using.
  intros HP. induction n; cbn; [auto with within|]. apply (respects_bind _); [by apply within_insert|done].
Qed.

Lemma within_update_seq a n : P $"event_sequence" → respects (within P) (update_seq a n).
Proof using.
  intros HP. unfold update_seq. apply (respects_bind _); [auto with within|]. intros _ w.
  unfold mbind, Merge_bind, get_db, put_db. split; [done|]. intros u Hu. cbn. unfold cells_of. cbn.
  rewrite lookup_insert_ne; [done|]. by intros <-.
Qed.
End Within.
#[export] Hint Resolve within_tick within_query within_put_forks within_insert within_times within_update_seq : within.

Ltac within :=
  repeat first
    [ solve [auto with within]
    | apply (respects_bind _); [|intros ?]
    | apply (respects_fold _); intros ? ? ?
    | match goal with |- respects _ (match ?x with _ => _ end) => destruct x end ].

Section Arrival.
Context `{Sqlite} (rows : gmap str (list Row)).

Lemma within_table o (t : Table) : respects (within (eq (t_name t))) (merge_table rows o t).
Proof using. unfold merge_table, merge_keyless_rows, merge_keyless_row, merge_row, insert_or_compare. within. Qed.

Definition event_name (u : str) : Prop := u = $"event" ∨ u = $"event_sequence".

Lemma within_event_graph tables o : respects (within event_name) (merge_event_graph tables rows o).
Proof using.
  unfold merge_event_graph. destruct (find_table tables _) as [st|] eqn:Hst; [|within].
  apply found_name in Hst. apply (respects_known _). intros et Het.
  destruct (find_table tables $"event") as [t|] eqn:Et; [|done]. injection Het as <-. apply found_name in Et.
  assert (E1 : event_name (t_name st)) by (by right). assert (E2 : event_name (t_name t)) by (by left).
  assert (E3 : event_name $"event_sequence") by (by right).
  unfold merge_history, insert_events, archive, archive_event_fork. within.
Qed.

(** ** Rows *)

Lemma arrived_same d d' (t : Table) l : db_catalog d' = db_catalog d →
  cells_of d' (t_name t) = cells_of d (t_name t) → arrived d t l → arrived d' t l.
Proof using.
  intros E1 E2. unfold arrived, keyed, copies. rewrite E1, E2. done.
Qed.

(** What the merge of a table's rows relies on, in a database with this catalog. *)
Definition welcome (cat : Catalog) (t : Table) : Prop :=
  Forall (fitting cat t) (rows_of rows (t_name t)) ∧ Forall row_ok (rows_of rows (t_name t)).

Lemma within_tables tables : ∀ o,
  respects (within (λ u, u ∈ map t_name tables)) (fold_m (merge_table rows) o tables).
Proof using.
  intros o. apply (respects_fold _). intros s t Ht w. destruct (within_table s t w) as [W1 W2].
  split; [done|]. intros u Hu. apply W2. intros <-. apply Hu. apply list_elem_of_fmap. by exists t.
Qed.

Lemma rows_arrive (scan_perm : ∀ table l, scan table l ≡ₚ l) tables : NoDup (map t_name tables) →
  ∀ o w o' w', fold_m (merge_table rows) o tables w = (inr o', w') →
  (∀ t, t ∈ tables → welcome (db_catalog (w_db w')) t) →
  ∀ t, t ∈ tables → arrived (w_db w') t (rows_of rows (t_name t)).
Proof using.
  induction tables as [|t0 tables IH]; intros Hnd o w o' w' Hrun Hfit t Ht; [by apply not_elem_of_nil in Ht|].
  cbn in Hnd, Hrun. apply NoDup_cons in Hnd as [Hfresh Hnd].
  apply merge_bind_inv in Hrun as (o1 & w1 & H1 & H2).
  pose proof (within_table o t0 w) as [W1 _]. pose proof (within_tables tables o1 w1) as [V1 V2].
  rewrite H1 in W1. rewrite H2 in V1, V2. cbn [snd] in *.
  apply elem_of_cons in Ht as [->|Ht]; [|by eapply IH; [| |intros u Hu; apply Hfit; right|]].
  apply (arrived_same (w_db w1)); [done|by apply V2|].
  destruct (Hfit t0 ltac:(left)) as [F1 F2]. rewrite V1, W1 in F1.
  pose proof (ends_merge_table scan_perm rows o t0 w F1 F2) as E. unfold ends in E. rewrite H1 in E. by destruct E as (_ & ? & _).
Qed.
End Arrival.

(** ** The body *)

(** The rows and the archive stay; the catalog may change. *)
Record keeps_rows (w w' : World) : Prop := mkKeepsRows {
  kr_tables : db_tables (w_db w') = db_tables (w_db w);
  kr_forks : w_forks w' = w_forks w;
}.
#[export] Instance keeps_rows_preorder : PreOrder keeps_rows.
Proof. split; [done|]. intros a b c [] []. split; congruence. Qed.

Create HintDb keeps discriminated.
#[export] Hint Resolve respects_ret respects_lift respects_fails respects_get_db keeps_rows_preorder : keeps.

Lemma keeps_tick : respects keeps_rows tick.
Proof. intros w. unfold tick. by destruct (w_faults w) as [|[|] ?]. Qed.
#[export] Hint Resolve keeps_tick : keeps.
Lemma keeps_query {A : Type} (g : Database → str + A) : respects keeps_rows (query g).
Proof. apply (respects_query _), keeps_tick. Qed.
#[export] Hint Resolve keeps_query : keeps.

Lemma keeps_execute `{Sqlite} sql : respects keeps_rows (execute_batch sql).
Proof.
  unfold execute_batch. apply (respects_bind _); [auto with keeps|]. intros _ w.
  unfold mbind, Merge_bind, get_db, lift. by destruct (created _ _).
Qed.
#[export] Hint Resolve keeps_execute : keeps.

Ltac keep :=
  repeat first
    [ solve [auto with keeps]
    | apply (respects_bind _); [|intros ?]
    | apply (respects_fold _); intros ? ? ?
    | match goal with |- respects _ (match ?x with _ => _ end) => destruct x end ].

Section Body.
Context `{Sqlite}.

(** The phases before and after the histories and rows leave these alone. *)
Lemma body_phases existed tables indexes rows w o w' :
  merge_body existed tables indexes rows w = (inr o, w') →
  ∃ w1 o1 w2, keeps_rows w w1 ∧
    merge_event_graph tables rows no_outcome w1 = (inr o1, w2) ∧
    ∃ o2 w3, fold_m (merge_table rows) o1 (List.filter (merges_rows existed) tables) w2 = (inr o2, w3) ∧
      w_db w' = w_db w3 ∧ w_forks w' = w_forks w3.
Proof using.
  unfold merge_body. intros (u & a & Ha & H1)%merge_bind_inv.
  apply merge_bind_inv in H1 as (u1 & b & Hb & H1). apply merge_bind_inv in H1 as (u2 & w1 & Hc & H1).
  assert (K : keeps_rows w w1).
  { assert (Ka : respects keeps_rows (if existed then check_existing else mret ())).
    { unfold check_existing, check_integrity. keep. }
    assert (Kb : ∀ t, respects keeps_rows (ensure_table t)) by (intros t; unfold ensure_table; keep).
    assert (Kc : ∀ i, respects keeps_rows (ensure_index i)) by (intros i; unfold ensure_index; keep).
    pose proof (Ka w) as E. rewrite Ha in E. etrans; [exact E|].
    assert (Kb' : respects keeps_rows (fold_m (λ _ t, ensure_table t) () (List.filter t_create_schema tables))) by keep.
    pose proof (Kb' a) as E'. rewrite Hb in E'. etrans; [exact E'|].
    assert (Kc' : respects keeps_rows (fold_m (λ _ i, ensure_index i) () indexes)) by keep.
    pose proof (Kc' b) as E''. by rewrite Hc in E''. }
  apply merge_bind_inv in H1 as (o1 & w2 & Hd & H1). apply merge_bind_inv in H1 as (o2 & w3 & He & H1).
  exists w1, o1, w2. split; [done|]. split; [done|]. exists o2, w3. split; [done|].
  apply merge_bind_inv in H1 as (u3 & w4 & (_ & D4 & F4)%query_inv & H1).
  apply merge_bind_inv in H1 as (u4 & w5 & H5 & [= _ <-]). unfold check_integrity in H5.
  apply merge_bind_inv in H5 as (u5 & w6 & (_ & D6 & F6)%query_inv & (_ & D5 & F5)%query_inv).
  split; congruence.
Qed.

Lemma merges_rows_name existed t : merges_rows existed t = true → ¬ event_name (t_name t).
Proof using.
  unfold merges_rows. intros [_ He]%andb_true_iff [E|E]; rewrite E in He; by vm_compute in He.
Qed.

Lemma NoDup_filter_names p tables : NoDup (map t_name tables) → NoDup (map t_name (List.filter p tables)).
Proof using.
  induction tables as [|t tables IH]; [done|]. cbn. intros [Hf Hnd]%NoDup_cons. destruct (p t); [|by apply IH].
  cbn. apply NoDup_cons. split; [|by apply IH]. intros Hin. apply Hf.
  apply list_elem_of_In, in_map_iff in Hin as (u & <- & [Hu _]%filter_In). apply list_elem_of_In, in_map_iff. eauto.
Qed.

Lemma body_rows_arrive (scan_perm : ∀ table l, scan table l ≡ₚ l) existed tables indexes rows w o w' :
  merge_body existed tables indexes rows w = (inr o, w') → NoDup (map t_name tables) →
  (∀ t, t ∈ tables → merges_rows existed t = true → welcome rows (db_catalog (w_db w')) t) →
  ∀ t, t ∈ tables → merges_rows existed t = true → arrived (w_db w') t (rows_of rows (t_name t)).
Proof using.
  intros (w1 & o1 & w2 & K & He & o2 & w3 & Hr & -> & F)%body_phases Hnd Hfit t Ht Hm.
  eapply rows_arrive; [done| |exact Hr| |].
  - by apply NoDup_filter_names.
  - intros u [Hu Hmu]%list_elem_of_In%filter_In. apply Hfit; [by apply list_elem_of_In|done].
  - apply list_elem_of_In, filter_In. split; [by apply list_elem_of_In|done].
Qed.
End Body.

(** Histories that are merged are here or in the archive. *)
Lemma body_events_arrive `{EventSqlite} existed tables indexes rows w o w' st et :
  merge_body existed tables indexes rows w = (inr o, w') →
  find_table tables $"event_sequence" = Some st → find_table tables $"event" = Some et →
  t_columns st = sequence_columns → t_columns et = event_columns →
  t_copy_rows st = true ∧ t_copy_rows et = true →
  source_events (rows_of rows $"event_sequence") (rows_of rows $"event") → readable (w_db w) →
  (∀ a p, view (sequences (w_db w)) (events (w_db w)) a = Some p →
     ∃ p', view (sequences (w_db w')) (events (w_db w')) a = Some p' ∧ eh_events p `prefix_of` eh_events p') ∧
  ∀ a s, view (rows_of rows $"event_sequence") (rows_of rows $"event") a = Some s →
    (∃ p', view (sequences (w_db w')) (events (w_db w')) a = Some p' ∧ eh_events s `prefix_of` eh_events p') ∨
    archived (w_forks w') s.
Proof.
  intros (w1 & o1 & w2 & [K1 K2] & He & o2 & w3 & Hr & -> & ->)%body_phases Hst Het Cst Cet Hcopy Hsrc Hread.
  assert (Hcells : ∀ t, cells_of (w_db w1) t = cells_of (w_db w) t).
  { intros t. unfold cells_of. by rewrite K1. }
  assert (Hread1 : readable (w_db w1)).
  { destruct Hread as [R1 R2 R3]. split; unfold keys_clean in *; by rewrite Hcells. }
  destruct (merge_events_kept tables st et rows no_outcome w1 o1 w2 Hst Het Cst Cet Hcopy Hsrc Hread1 He)
    as (P1 & P2 & _).
  pose proof (within_tables rows (List.filter (merges_rows existed) tables) o1 w2) as [_ W].
  assert (G : grows w2 w3).
  { assert (Hg : respects grows (fold_m (merge_table rows) o1 (List.filter (merges_rows existed) tables))).
    { apply (respects_fold _). intros s t _. apply growing_merge_table. }
    pose proof (Hg w2) as E. by rewrite Hr in E. }
  rewrite Hr in W. cbn [snd] in W.
  assert (Hsame : ∀ u, event_name u → cells_of (w_db w3) u = cells_of (w_db w2) u).
  { intros u Hu. apply W. intros (t & <- & [_ Hm]%filter_In)%list_elem_of_In%in_map_iff.
    by eapply merges_rows_name. }
  unfold sequences, events in *. rewrite (Hsame $"event_sequence") by (by right). rewrite (Hsame $"event") by (by left).
  rewrite !Hcells in P1. split; [exact P1|]. intros a s Hs. destruct (P2 a s Hs) as [?|Ha]; [by left|right].
  eapply archived_mono; [apply G|done].
Qed.

(** ** Dividing histories *)

Section Division.
(** The aggregates that go to one destination. *)
Context (g : option str → bool).

Definition part_sequences (S : list Row) : list Row := List.filter (λ r, g (sq_aggregate r)) S.
Definition part_events (E : list Row) : list Row := List.filter (λ e, g (ev_aggregate e)) E.

Lemma filter_part {A : Type} (key : A → option str) (l : list A) a :
  filter (λ x, key x = Some a) (List.filter (λ x, g (key x)) l) =
  if g (Some a) then filter (λ x, key x = Some a) l else [].
Proof using.
  induction l as [|x l IH]; [by destruct (g (Some a))|]. cbn [List.filter]. rewrite filter_cons.
  destruct (g (key x)) eqn:Hx.
  - rewrite filter_cons, IH. case_decide as E; [|done]. rewrite E in Hx. by rewrite Hx.
  - rewrite IH. case_decide as E; [|done]. rewrite E in Hx. by rewrite Hx.
Qed.

Lemma part_at S E a :
  sequences_at (part_sequences S) a = (if g (Some a) then sequences_at S a else []) ∧
  events_at (part_events E) a = (if g (Some a) then events_at E a else []).
Proof using.
  unfold sequences_at, events_at, unsorted_at, part_sequences, part_events. rewrite !filter_part.
  by destruct (g _).
Qed.

Lemma NoDup_omap_part {A B : Type} (f : A → option B) (p : A → bool) l :
  NoDup (omap f l) → NoDup (omap f (List.filter p l)).
Proof using.
  induction l as [|x l IH]; [done|]. cbn. destruct (f x) as [b|] eqn:Hf.
  - intros [Hb Hnd]%NoDup_cons. destruct (p x); [|by apply IH]. cbn. rewrite Hf. apply NoDup_cons.
    split; [|by apply IH]. intros (y & Hy & Ey)%list_elem_of_omap. apply Hb, list_elem_of_omap.
    exists y. split; [|done]. apply list_elem_of_In in Hy. apply filter_In in Hy as [Hy _]. by apply list_elem_of_In.
  - intros Hnd. destruct (p x); [cbn; rewrite Hf|]; by apply IH.
Qed.

Lemma Forall_part {A : Type} (P : A → Prop) (p : A → bool) l : Forall P l → Forall P (List.filter p l).
Proof using. induction 1; cbn; [done|]. case_match; by try constructor. Qed.

Lemma part_valid S E : valid S E → valid (part_sequences S) (part_events E).
Proof using.
  intros [V1 V2 V3 V4 V5]. split; try by apply Forall_part. 1, 2: by apply NoDup_omap_part.
  intros a. unfold numbers. destruct (part_at S E a) as [-> ->]. destruct (g (Some a)); [apply V5|done].
Qed.

Lemma part_view S E a :
  view (part_sequences S) (part_events E) a = if g (Some a) then view S E a else None.
Proof using. unfold view. destruct (part_at S E a) as [-> ->]. by destruct (g (Some a)). Qed.
End Division.

(** Comparisons of names that are written out. *)
Ltac compare_names :=
  repeat match goal with |- context [str_eqb (lit ?a) (lit ?b)] =>
    let v := eval vm_compute in (str_eqb (lit a) (lit b)) in
    change (str_eqb (lit a) (lit b)) with v; cbn iota end.

Section Selected.
Context (identify : str → option str).

(** Whether the events of an aggregate are selected. *)
Definition events_go (d : str) (r : Routing) (aggregate : option str) : bool :=
  if str_eqb d legacy_global &&
     match aggregate with Some id => bool_decide (id ∈ rg_malformed_sessions r) | None => false end
  then false
  else str_eqb (default legacy_global (aggregate ≫= λ id, rg_sessions r !! id)) d.

Lemma text_field_at (t : Table) (row : Row) name :
  text_field t row name = column_index t name ≫= λ i, text_at i row.
Proof using. unfold text_field, value_at, text_at. by destruct (column_index t name). Qed.

Lemma selects_sequence d r (st : Table) (row : Row) : t_name st = $"event_sequence" →
  t_columns st = sequence_columns → selects identify d r st row = events_go d r (sq_aggregate row).
Proof using.
  intros Hn Hc. unfold selects, row_is_malformed_graph, row_destination, events_go. rewrite Hn, !text_field_at.
  unfold column_index. rewrite Hc. change (listed SCHEMA_TABLES $"event_sequence") with false.
  unfold sequence_columns, is_event_table. cbn [position]. compare_names. cbn [fmap option_fmap option_map mbind option_bind orb].
  fold (sq_aggregate row). by destruct (sq_aggregate row).
Qed.

Lemma selects_event d r (et : Table) (row : Row) : t_name et = $"event" →
  t_columns et = event_columns → selects identify d r et row = events_go d r (ev_aggregate row).
Proof using.
  intros Hn Hc. unfold selects, row_is_malformed_graph, row_destination, events_go. rewrite Hn, !text_field_at.
  unfold column_index. rewrite Hc. change (listed SCHEMA_TABLES $"event") with false.
  unfold event_columns, is_event_table. cbn [position]. compare_names. cbn [fmap option_fmap option_map mbind option_bind orb].
  fold (ev_aggregate row). by destruct (ev_aggregate row).
Qed.
End Selected.
