(* ===== verification/OcMigrate.v ===== *)
(** * The migration: [crates/rtrt-cli/src/opencode_sessions.rs], [migrate]

    The whole command: finding the source, the lock, the manifest that remembers which
    generation was migrated, reading one consistent snapshot of the source, checking every
    destination, merging every destination, and the report.  The source is a file another
    program writes: each look at it finds what is there at that moment.  [MigrateSafety]
    shows what a run does whatever fails. *)
From stdpp Require Import gmap sets.
From S2P Require Import Prelude Str.
From S2P Require Import Fs Files Project.
From S2P Require Import Wire OcRows OcRoute OcEvents OcSchema OcMerge.

Inductive MigrationMode := Status | DryRun | Apply | CatchUp.
#[export] Instance MigrationMode_eq_dec : EqDecision MigrationMode.
Proof. solve_decision. Defined.

Record MigrationOptions := mkOptions {
  mo_home : Path;
  mo_source : option Path;
  mo_mode : MigrationMode;
}.

Record MigrationReport := mkReport {
  mr_source : option Path;
  mr_sessions : N;
  mr_projects : N;
  mr_archived_sessions : N;
  mr_skipped_malformed_sessions : N;
  mr_rows : N;
  mr_changed_rows : N;
  mr_conflicts : N;
  mr_private_preserved_conflicts : N;
  mr_archived_event_forks : N;
  mr_up_to_date : bool;
  mr_skipped_locked : bool;
}.
Definition no_report : MigrationReport := mkReport None 0 0 0 0 0 0 0 0 0 false false.
Definition locked_report (source : Path) : MigrationReport :=
  mkReport (Some source) 0 0 0 0 0 0 0 0 0 false true.
Definition current_report (source : Path) : MigrationReport :=
  mkReport (Some source) 0 0 0 0 0 0 0 0 0 true false.
Definition add_outcome (r : MigrationReport) (o : MergeOutcome) : MigrationReport :=
  mkReport (mr_source r) (mr_sessions r) (mr_projects r) (mr_archived_sessions r)
    (mr_skipped_malformed_sessions r) (mr_rows r) (mr_changed_rows r + o_changed o)
    (mr_conflicts r + o_conflicts o)
    (mr_private_preserved_conflicts r + o_private_preserved_conflicts o)
    (mr_archived_event_forks r + o_archived_event_forks o) (mr_up_to_date r) (mr_skipped_locked r).
Definition not_up_to_date (r : MigrationReport) : MigrationReport :=
  mkReport (mr_source r) (mr_sessions r) (mr_projects r) (mr_archived_sessions r)
    (mr_skipped_malformed_sessions r) (mr_rows r) (mr_changed_rows r) (mr_conflicts r)
    (mr_private_preserved_conflicts r) (mr_archived_event_forks r) false (mr_skipped_locked r).

(** What the manifest file says. *)
Record Manifest := mkManifest {
  mf_source_generation : option str;
  mf_report : MigrationReport;
}.

(** A file of the source as a look finds it: its metadata, the modification time in seconds
    and nanoseconds after the epoch where there is one, and what reading it gives. *)
Record SourceFile := mkSourceFile {
  sf_symlink : bool;
  sf_regular : bool;
  sf_uid : N;
  sf_dev : N;
  sf_ino : N;
  sf_len : N;
  sf_modified : option (N * N);
  sf_content : IoError + list N;
}.

(** A look at the source: its file and its log, and the database a read transaction sees. *)
Record Look := mkLook {
  lk_source : IoError + SourceFile;
  lk_wal : IoError + SourceFile;
  lk_database : Database;
}.

(** How SQLite answers [BEGIN EXCLUSIVE] on the lock file. *)
Inductive LockAnswer := Acquired | Busy | LockFailed (e : str).

(** The user's private databases and archives by destination, the manifest, how often the
    source was looked at, and the failures to come. *)
Record Machine := mkMachine {
  mc_privates : gmap str Database;
  mc_stagings : gmap str Database;
  mc_forks : gmap str (gmap str EventHistory);
  mc_manifest : option Manifest;
  mc_clock : nat;
  mc_faults : list (option str);
}.

Definition Migrate (A : Type) : Type := Machine → (str + A) * Machine.
#[export] Instance Migrate_ret : MRet Migrate := λ A a s, (inr a, s).
#[export] Instance Migrate_bind : MBind Migrate := λ A B k m s,
  match m s with
  | (inr a, s') => k a s'
  | (inl e, s') => (inl e, s')
  end.

Definition of_result {A : Type} (r : str + A) : Migrate A := λ s, (r, s).

(** A file operation that may fail. *)
Definition step : Migrate () := λ s,
  let with_faults fs := mkMachine (mc_privates s) (mc_stagings s) (mc_forks s) (mc_manifest s)
                          (mc_clock s) fs in
  match mc_faults s with
  | Some e :: fs => (inl e, with_faults fs)
  | None :: fs => (inr (), with_faults fs)
  | [] => (inr (), s)
  end.

Definition get_private (destination : str) : Migrate (option Database) := λ s,
  (inr (mc_privates s !! destination), s).
Definition get_clock : Migrate nat := λ s, (inr (mc_clock s), s).
Definition get_manifest : Migrate (option Manifest) := λ s, (inr (mc_manifest s), s).
Definition put_manifest (m : Manifest) : Migrate () := λ s,
  (inr (), mkMachine (mc_privates s) (mc_stagings s) (mc_forks s) (Some m) (mc_clock s) (mc_faults s)).

(** A merge on the files of one destination. *)
Definition world_of (destination : str) (s : Machine) : World :=
  mkWorld (mc_privates s !! destination) (mc_stagings s !! destination) empty_database
    (default ∅ (mc_forks s !! destination)) (mc_faults s).
Definition with_world (destination : str) (w : World) (s : Machine) : Machine :=
  mkMachine (partial_alter (λ _, w_destination w) destination (mc_privates s))
    (partial_alter (λ _, w_staging w) destination (mc_stagings s))
    (<[destination := w_forks w]> (mc_forks s)) (mc_manifest s) (mc_clock s) (w_faults w).
Definition at_destination {A : Type} (destination : str) (m : Merge A) : Migrate A := λ s,
  let '(r, w) := m (world_of destination s) in (r, with_world destination w s).

Fixpoint fold_steps {A S : Type} (f : S → A → Migrate S) (x : S) (l : list A) : Migrate S :=
  match l with
  | [] => mret x
  | a :: l' => x' ← f x a; fold_steps f x' l'
  end.

(** ** Finding the source *)

Section Source.
(** The file system of the run, its owner, and [XDG_DATA_HOME] where it is set. *)
Context (f : Fs) (euid : N) (xdg_data_home : option Path).

Definition not_regular (p : Path) : str :=
  $"global OpenCode database is not a regular non-symlink file: " ++ display p.

Definition validate_source (p : Path) : str + () :=
  match lstat f p with
  | inl _ => bail ($"inspect " ++ display p)
  | inr meta =>
      if is_symlink meta || negb (is_file meta) then bail (not_regular p)
      else if negb (node_uid meta =? euid)
      then bail ($"global OpenCode database has unsafe owner: " ++ display p)
      else inr ()
  end.

Definition discover_global_source (home : Path) : str + option Path :=
  let data := match xdg_data_home with
              | Some v => v
              | None => home ++ [ $".local"; $"share"]
              end in
  let source := data ++ [ $"opencode"; $"opencode.db"] in
  match lstat f source with
  | inr meta => if is_symlink meta || negb (is_file meta) then bail (not_regular source)
                else inr (Some source)
  | inl error => if bool_decide (io_kind error = NotFound) then inr None
                 else bail ($"inspect " ++ display source)
  end.

(** [match &options.source]. *)
Definition located (options : MigrationOptions) : str + option Path :=
  match mo_source options with
  | Some path => validate_source path ≫= λ _, inr (Some path)
  | None => discover_global_source (mo_home options)
  end.
End Source.

(** ** The generation of the source *)

Definition io_error {A : Type} (error : IoError) : str + A := bail (io_message error).

(** [from_be_bytes]. *)
Definition be_bytes (l : list N) : N := foldl (λ acc b, acc * 256 + b) 0 l.

Definition page_size (header : list N) : N :=
  let encoded_page_size := be_bytes (take 4 (drop 8 header)) in
  if encoded_page_size =? 0 then 65536 else encoded_page_size.

(** The header of the last whole frame, where there is one. *)
Definition final_frame (len : N) (header content : list N) : str + list N :=
  let frame_size := 24 + page_size header in
  let frame_count := (len - 32) / frame_size in
  if frame_count =? 0 then inr []
  else
    let frame_header := take 24 (drop (N.to_nat (32 + (frame_count - 1) * frame_size)) content) in
    if (length frame_header =? 24)%nat then inr frame_header else bail $"failed to fill whole buffer".

(** The two headers of a log, which hold no row of it. *)
Definition wal_headers (file : SourceFile) : str + list N :=
  match sf_content file with
  | inl error => io_error error
  | inr content =>
      let header := take 32 content in
      if (length header =? 32)%nat
      then last ← final_frame (sf_len file) header content; inr (header ++ last)
      else inr header
  end.

Definition modified_bytes (modified : option (N * N)) : list N :=
  match modified with
  | Some (secs, nanos) => le_bytes 8 secs ++ le_bytes 4 nanos
  | None => []
  end.

Definition append_file_generation (euid : N) (stamp : list N) (path : Path) (found : IoError + SourceFile)
    (optional : bool) : str + list N :=
  match found with
  | inl error => if optional && bool_decide (io_kind error = NotFound) then inr (stamp ++ [0]) else io_error error
  | inr metadata =>
      if sf_symlink metadata || negb (sf_regular metadata)
      then bail ($"unsafe OpenCode database sidecar: " ++ display path)
      else if negb (sf_uid metadata =? euid)
      then bail ($"unsafe OpenCode database sidecar owner: " ++ display path)
      else
        let stamp := stamp ++ le_bytes 8 (sf_dev metadata) ++ le_bytes 8 (sf_ino metadata) ++ [1] ++
                     le_bytes 8 (sf_len metadata) ++ modified_bytes (sf_modified metadata) in
        if optional && (0 <? sf_len metadata) then headers ← wal_headers metadata; inr (stamp ++ headers)
        else inr stamp
  end.

(** [with_file_name(format!("{}-wal", file_name))]. *)
Definition wal_path (source : Path) : str + Path :=
  match list.last source with
  | Some name => inr (removelast source ++ [name ++ $"-wal"])
  | None => bail $"global database has no filename"
  end.

Definition lk_generation (euid : N) (source : Path) (l : Look) : str + str :=
  wal ← wal_path source;
  stamp ← append_file_generation euid [] source (lk_source l) false;
  stamp ← append_file_generation euid stamp wal (lk_wal l) true;
  inr ($"v2-session-directory-" ++ hex16 16 (fnv stamp) []).

Definition state_root (home : Path) : Path := home ++ [ $".rtrt"].

(** ** Reading the source *)

Section Migration.
Context `{Sqlite}.
Context (f : Fs) (euid : N) (xdg_data_home : option Path).
(** Where a directory belongs, and the order maps are walked in at each time. *)
Context (identify : str → option str) (order : nat → gmap str str → nat → list (str * str)).
(** What successive looks at the source find. *)
Context (looks : nat → Look) (lock : LockAnswer).

Definition observe : Migrate Look := λ s,
  (inr (looks (mc_clock s)),
   mkMachine (mc_privates s) (mc_stagings s) (mc_forks s) (mc_manifest s) (S (mc_clock s)) (mc_faults s)).

Definition source_generation (source : Path) : Migrate str :=
  l ← observe; of_result (lk_generation euid source l).

Record PreparedSource := mkPrepared {
  ps_tables : list Table;
  ps_indexes : list Index;
  ps_plans : list (str * gmap str (list Row));
  ps_report : MigrationReport;
}.

Definition source_integrity (d : Database) : str + () :=
  if str_eqb (integrity d) $"ok" then inr ()
  else bail $"global OpenCode database integrity check failed".

(** A [BTreeSet] in its order. *)
Definition btree_set (m : gset str) : list str := sort_by str_cmp (elements m).

Definition count_str (p : str → bool) (l : list str) : N := N.of_nat (length (List.filter p l)).

(** What is computed from the routing. *)
Definition planned (source : Path) (tables : list Table) (indexes : list Index) (rows : RowsByTable)
    (r : Routing) : PreparedSource :=
  mkPrepared tables indexes
    (map (λ d, (d, select_rows identify d tables rows r)) (btree_set (rg_destinations r)))
    (mkReport (Some source) (N.of_nat (size (rg_sessions r)))
       (count_str (λ d, negb (str_eqb d legacy_global)) (btree_set (rg_destinations r)))
       (count_str (str_eqb legacy_global) (map snd (map_to_list (rg_sessions r))))
       (N.of_nat (size (rg_malformed_sessions r)))
       (N.of_nat (sum_list (map (λ e, length e.2) (map_to_list rows)))) 0 0 0 0 false false).

(** One attempt, inside the read transaction: its queries are steps. *)
Definition read_source (source : Path) (mode : MigrationMode) : Migrate PreparedSource :=
  l ← observe;
  let d := lk_database l in
  step ≫= λ _, of_result (source_integrity d) ≫= λ _,
  step ≫= λ _, probed ← of_result (probe_schema alphanumeric (db_catalog d) true);
  step ≫= λ _,
  let rows := read_rows d probed.1 in
  step ≫= λ _, of_result (validate_event_schema (db_catalog d) probed.1 true) ≫= λ _,
  of_result (validate_event_graph probed.1 rows global_label) ≫= λ _,
  now ← get_clock;
  r ← of_result (route_sessions identify (order now) probed.1 rows (bool_decide (mode = CatchUp)));
  step ≫= λ _, mret (planned source probed.1 probed.2 rows r).

Fixpoint attempts (n : nat) (source : Path) (mode : MigrationMode) : Migrate (PreparedSource * str) :=
  match n with
  | O => of_result (bail $"global OpenCode database changed during migration read")
  | S n' =>
      before ← source_generation source;
      step ≫= λ _,
      prepared ← read_source source mode;
      after ← source_generation source;
      if str_eqb before after then mret (prepared, before) else attempts n' source mode
  end.

Definition prepare_source : Path → MigrationMode → Migrate (PreparedSource * str) := attempts 3.

(** ** Checking a destination before anything is written *)

Definition table_clash (tables : list Table) (source : Table) : str + () :=
  match find_table tables (t_name source) with
  | Some existing => if same_table existing source then inr () else bail (table_conflict (t_name source))
  | None => inr ()
  end.

Definition index_clash (cat : Catalog) (source : Index) : str + () :=
  match find_index_table cat (i_name source) with
  | Some table => check_index alphanumeric cat source table
  | None => inr ()
  end.

Definition validate_database (source_tables : list Table) (source_indexes : list Index) (d : Database) :
    str + () :=
  (if str_eqb (integrity d) $"ok" then inr ()
   else bail $"destination OpenCode integrity check failed") ≫= λ _,
  (if (foreign_key_violations d =? 0)%Z then inr ()
   else bail $"destination OpenCode foreign-key check failed") ≫= λ _,
  probed ← probe_schema alphanumeric (db_catalog d) false;
  validate_event_schema (db_catalog d) probed.1 false ≫= λ _,
  validate_event_graph probed.1 (read_rows d probed.1) private_label ≫= λ _,
  each (table_clash probed.1) source_tables ≫= λ _,
  each (index_clash (db_catalog d)) source_indexes.

Definition validate_destination_before_merge (tables : list Table) (indexes : list Index)
    (destination : str) : Migrate () :=
  step ≫= λ _,
  found ← get_private destination;
  match found with
  | None => mret ()
  | Some d => step ≫= λ _, of_result (validate_database tables indexes d)
  end.

(** ** The lock and the manifest *)

Definition acquire_lock (mode : MigrationMode) : Migrate bool :=
  step ≫= λ _,
  match lock with
  | Acquired => mret true
  | Busy => if bool_decide (mode = CatchUp) then mret false
            else of_result (bail $"another OpenCode session migration is active")
  | LockFailed _ => of_result (bail $"another OpenCode session migration is active")
  end.

Definition manifest_generation : Migrate (option str) :=
  step ≫= λ _, m ← get_manifest; mret (m ≫= mf_source_generation).

(** Written beside its place, flushed, renamed, and the directory flushed. *)
Definition write_manifest (generation : str) (report : MigrationReport) : Migrate () :=
  step ≫= λ _, step ≫= λ _, put_manifest (mkManifest (Some generation) report) ≫= λ _, step.

(** ** The command *)

Definition writes (mode : MigrationMode) : bool :=
  match mode with Apply | CatchUp => true | Status | DryRun => false end.

(** Nothing to do for a launcher: the manifest has the source's generation. *)
Definition is_current (source : Path) (mode : MigrationMode) : Migrate bool :=
  if bool_decide (mode = CatchUp) then
    generation ← source_generation source;
    stored ← manifest_generation;
    mret (bool_decide (stored = Some generation))
  else mret false.

Definition merge_plan (tables : list Table) (indexes : list Index) (report : MigrationReport)
    (plan : str * gmap str (list Row)) : Migrate MigrationReport :=
  outcome ← at_destination plan.1 (merge_destination tables indexes plan.2);
  mret (add_outcome report outcome).

(** From the preparation on. *)
Definition carry_out (source : Path) (mode : MigrationMode) : Migrate MigrationReport :=
  prepared ← prepare_source source mode;
  let '(p, generation) := prepared in
  if negb (writes mode) then mret (ps_report p)
  else
    fold_steps (λ _ plan, validate_destination_before_merge (ps_tables p) (ps_indexes p) plan.1) ()
      (ps_plans p) ≫= λ _,
    report ← fold_steps (merge_plan (ps_tables p) (ps_indexes p)) (ps_report p) (ps_plans p);
    write_manifest generation (not_up_to_date report) ≫= λ _, mret (not_up_to_date report).

Definition refuse_private (root source : Path) : str + () :=
  if starts_with_path source (root ++ [ $"projects"])
  then bail $"refusing to treat an RTRT-private OpenCode database as global source"
  else inr ().

Definition migrate (options : MigrationOptions) : Migrate MigrationReport :=
  found ← of_result (located f euid xdg_data_home options);
  match found with
  | None => mret no_report
  | Some source =>
      of_result (validate_source f euid source) ≫= λ _,
      of_result (refuse_private (state_root (mo_home options)) source) ≫= λ _,
      let mode := mo_mode options in
      locked ← (if writes mode then step ≫= λ _, acquire_lock mode else mret true);
      if negb locked then mret (locked_report source)
      else
        current ← is_current source mode;
        if (current : bool) then mret (current_report source) else carry_out source mode
  end.
End Migration.
