(* ===== verification/MigrateSafety.v ===== *)
(** * What a migration does, whatever fails

    Properties of [OcMigrate]: a run reads one consistent snapshot of the source or gives
    up; each destination is left as it was or holds a finished merge; projects stay
    apart; and when the run succeeds everything the source holds has arrived. *)
From stdpp Require Import gmap sets.
From S2P Require Import Prelude Str.
From S2P Require Import Fs Files Project.
From S2P Require Import Wire OcRows OcRoute OcEvents OcSchema.
From S2P Require Import SchemaSafety SessionRoutes EventSafety OcMerge MergeSafety RowSafety Confine.
From S2P Require Import Arrival OcMigrate.

(** ** Reasoning about runs *)

(** What a run does not touch: the private databases, the archives and the manifest. *)
Record untouched (s s' : Machine) : Prop := mkUntouched {
  un_privates : mc_privates s' = mc_privates s;
  un_stagings : mc_stagings s' = mc_stagings s;
  un_forks : mc_forks s' = mc_forks s;
  un_manifest : mc_manifest s' = mc_manifest s;
}.
#[export] Instance untouched_preorder : PreOrder untouched.
Proof. split; [done|]. intros a b c [] []. split; congruence. Qed.

(** [m] only reads, and what it answers satisfies [Q]. *)
Definition reads {A : Type} (m : Migrate A) (Q : Machine → A → Machine → Prop) : Prop :=
  ∀ s, let '(r, s') := m s in untouched s s' ∧ match r with inr a => Q s a s' | inl _ => True end.

Lemma reads_ret {A : Type} (a : A) : reads (mret a) (λ s b s', b = a ∧ s' = s).
Proof. done. Qed.
Lemma reads_result {A : Type} (r : str + A) : reads (of_result r) (λ s b s', r = inr b ∧ s' = s).
Proof. intros s. cbn. split; [done|]. by destruct r. Qed.
Lemma reads_step : reads step (λ s _ s', mc_clock s' = mc_clock s).
Proof. intros s. unfold step. by destruct (mc_faults s) as [|[e|] fs]. Qed.
Lemma reads_clock : reads get_clock (λ s n s', n = mc_clock s ∧ s' = s).
Proof. done. Qed.
Lemma reads_private d : reads (get_private d) (λ s p s', p = mc_privates s !! d ∧ s' = s).
Proof. done. Qed.
Lemma reads_manifest : reads get_manifest (λ s m s', m = mc_manifest s ∧ s' = s).
Proof. done. Qed.

Lemma reads_bind {A B : Type} (m : Migrate A) (k : A → Migrate B) P Q :
  reads m P → (∀ a, reads (k a) (Q a)) →
  reads (m ≫= k) (λ s b s', ∃ a s1, P s a s1 ∧ untouched s s1 ∧ Q a s1 b s').
Proof.
  intros Hm Hk s. specialize (Hm s). unfold mbind, Migrate_bind. destruct (m s) as [[e|a] s1]; [done|].
  destruct Hm as [U HP]. specialize (Hk a s1). destruct (k a s1) as [r s2]. destruct Hk as [U' HQ].
  split; [by etrans|]. destruct r as [|b]; [done|]. by exists a, s1.
Qed.

Lemma reads_weaken {A : Type} (m : Migrate A) (P Q : Machine → A → Machine → Prop) :
  reads m P → (∀ s a s', untouched s s' → P s a s' → Q s a s') → reads m Q.
Proof.
  intros Hm HPQ s. specialize (Hm s). destruct (m s) as [[e|a] s']; [done|]. destruct Hm as [U HP].
  split; [done|]. by apply HPQ.
Qed.

Lemma reads_any {A : Type} (m : Migrate A) P : reads m P → reads m (λ _ _ _, True).
Proof. intros Hm. by eapply reads_weaken. Qed.

(** Two runs, one after the other. *)
Lemma migrate_bind_inv {A B : Type} (m : Migrate A) (k : A → Migrate B) s r s' :
  (m ≫= k) s = (r, s') →
  (∃ e, m s = (inl e, s') ∧ r = inl e) ∨ ∃ a s1, m s = (inr a, s1) ∧ k a s1 = (r, s').
Proof.
  unfold mbind, Migrate_bind. destruct (m s) as [[e|a] s1]; [|eauto].
  intros [= <- <-]. left. by exists e.
Qed.

Lemma reads_run {A : Type} (m : Migrate A) Q s r s' : reads m Q → m s = (r, s') →
  untouched s s' ∧ match r with inr a => Q s a s' | inl _ => True end.
Proof. intros Hm E. specialize (Hm s). by rewrite E in Hm. Qed.

Section Runs.
Context `{Sqlite} (euid : N).
Context (identify : str → option str) (order : nat → gmap str str → nat → list (str * str)).
Context (looks : nat → Look).

Lemma reads_observe : reads (observe looks) (λ s l s', l = looks (mc_clock s) ∧ mc_clock s' = S (mc_clock s)).
Proof using. done. Qed.

Lemma reads_generation source : reads (source_generation euid looks source)
  (λ s g s', lk_generation euid source (looks (mc_clock s)) = inr g ∧ mc_clock s' = S (mc_clock s)).
Proof using.
  eapply reads_weaken; [eapply reads_bind; [apply reads_observe|intros l; apply reads_result]|].
  intros s g s' _ (l & s1 & [-> Hc] & _ & Hg & ->). done.
Qed.

(** ** One consistent snapshot *)

(** What was read at a time, and found in order. *)
Record snapshot (source : Path) (mode : MigrationMode) (n : nat) (p : PreparedSource)
    (rows : gmap str (list Row)) (rt : Routing) : Prop := mkSnapshot {
  sn_integrity : integrity (lk_database (looks n)) = $"ok";
  sn_schema : probe_schema alphanumeric (db_catalog (lk_database (looks n))) true =
    inr (ps_tables p, ps_indexes p);
  sn_rows : rows = read_rows (lk_database (looks n)) (ps_tables p);
  sn_event_schema : validate_event_schema (db_catalog (lk_database (looks n))) (ps_tables p) true = inr ();
  sn_events : validate_event_graph (ps_tables p) rows global_label = inr ();
  sn_routing : route_sessions identify (order (S n)) (ps_tables p) rows (bool_decide (mode = CatchUp)) = inr rt;
  sn_plan : p = planned identify source (ps_tables p) (ps_indexes p) rows rt;
}.

Lemma reads_source source mode : reads (read_source identify order looks source mode)
  (λ s p s', mc_clock s' = S (mc_clock s) ∧ ∃ rows rt, snapshot source mode (mc_clock s) p rows rt).
Proof using.
  unfold read_source. eapply reads_weaken.
  { apply (reads_bind _ _ _ (λ l s p s', mc_clock s' = mc_clock s ∧ ∀ n, l = looks n → S n = mc_clock s →
      ∃ rows rt, snapshot source mode n p rows rt) reads_observe). intros l.
    eapply reads_weaken.
    { eapply reads_bind; [apply reads_step|intros v1]. eapply reads_bind; [apply reads_result|intros v2].
      eapply reads_bind; [apply reads_step|intros v3]. eapply reads_bind; [apply reads_result|intros probed].
      eapply reads_bind; [apply reads_step|intros v4]. eapply reads_bind; [apply reads_step|intros v5].
      eapply reads_bind; [apply reads_result|intros v6]. eapply reads_bind; [apply reads_result|intros v7].
      eapply reads_bind; [apply reads_clock|intros now]. eapply reads_bind; [apply reads_result|intros rt].
      eapply reads_bind; [apply reads_step|intros v8]. apply reads_ret. }
    intros s p s' _ (u1 & s1 & C1 & _ & [] & s2 & (I & ->) & _ & u3 & s3 & C3 & _ & probed & s4 & (S4 & ->) & _
      & u5 & s5 & C5 & _ & u6 & s6 & C6 & _ & [] & s7 & (S7 & ->) & _ & [] & s8 & (S8 & ->) & _
      & now & s9 & (-> & ->) & _ & rt & s10 & (S10 & ->) & _ & u11 & s11 & C11 & _ & -> & ->).
    split; [congruence|]. intros n -> Hn. exists (read_rows (lk_database (looks n)) probed.1), rt.
    split; cbn [ps_tables ps_indexes planned]; try done.
    - revert I. unfold source_integrity. destruct (str_eqb _ _) eqn:E; [|done]. by apply str_eqb_eq in E.
    - by destruct probed.
    - rewrite <-S10. do 2 f_equal. congruence. }
  intros s p s' _ (l & s1 & [-> Hc] & _ & Hc' & Hsnap). split; [congruence|]. by apply Hsnap.
Qed.

(** A snapshot between two looks that found the same generation. *)
Definition consistent (source : Path) (mode : MigrationMode) (g : str) (p : PreparedSource)
    (rows : gmap str (list Row)) (rt : Routing) : Prop :=
  ∃ n, lk_generation euid source (looks n) = inr g ∧ snapshot source mode (S n) p rows rt ∧
       lk_generation euid source (looks (S (S n))) = inr g.

Lemma reads_attempts source mode n : reads (attempts euid identify order looks n source mode)
  (λ _ pg _, ∃ rows rt, consistent source mode pg.2 pg.1 rows rt).
Proof using.
  induction n as [|n IH]; cbn [attempts]; [by intros s|].
  eapply reads_weaken.
  { eapply reads_bind; [apply reads_generation|intros before]. eapply reads_bind; [apply reads_step|intros v].
    eapply reads_bind; [apply reads_source|intros p]. eapply reads_bind; [apply reads_generation|intros after].
    apply (reads_weaken _ (λ _ pg _, pg = (p, before) ∧ before = after ∨
      ∃ rows rt, consistent source mode pg.2 pg.1 rows rt)); [|intros s a s' _ Ha; exact Ha].
    destruct (str_eqb before after) eqn:E.
    - eapply reads_weaken; [apply reads_ret|]. intros s pg s' _ [-> _]. left. by apply str_eqb_eq in E.
    - eapply reads_weaken; [apply IH|]. intros s pg s' _ Hpg. by right. }
  intros s pg s' _ (g & s1 & [G1 C1] & _ & v & s2 & C2 & _ & p & s3 & (C3 & rows & rt & Hsnap) & _
    & g' & s4 & [G4 C4] & _ & [[-> ->]|Hpg]); [|done].
  exists rows, rt, (mc_clock s). rewrite C2, C1 in Hsnap. rewrite C3, C2, C1 in G4. done.
Qed.

Lemma reads_fold {A S : Type} (f : S → A → Migrate S) l :
  (∀ x a, reads (f x a) (λ _ _ _, True)) → ∀ x, reads (fold_steps f x l) (λ _ _ _, True).
Proof using.
  intros Hf. induction l as [|a l IH]; intros x; cbn; [done|].
  eapply reads_any, reads_bind; [apply Hf|]. intros y. apply IH.
Qed.

Lemma reads_validate tables indexes d :
  reads (validate_destination_before_merge tables indexes d) (λ _ _ _, True).
Proof using.
  unfold validate_destination_before_merge. eapply reads_any, reads_bind; [apply reads_step|intros v].
  apply (reads_bind _ _ _ (λ _ _ _ _, True) (reads_private d)). intros [db|].
  - eapply reads_any, reads_bind; [apply reads_step|intros v']. apply reads_result.
  - eapply reads_any, reads_ret.
Qed.

End Runs.

(** ** The merges *)

Section Merges.
Context `{Sqlite}.

(** The destination [d] has the same files in both. *)
Definition same_at (d : str) (s s' : Machine) : Prop :=
  mc_privates s' !! d = mc_privates s !! d ∧ default ∅ (mc_forks s' !! d) = default ∅ (mc_forks s !! d).

Lemma same_at_refl d s : same_at d s s.
Proof using. done. Qed.
Lemma same_at_trans d s1 s2 s3 : same_at d s1 s2 → same_at d s2 s3 → same_at d s1 s3.
Proof using. intros [] []. split; congruence. Qed.
Lemma untouched_at d s s' : untouched s s' → same_at d s s'.
Proof using. intros [E1 _ E2 _]. split; congruence. Qed.

(** One merge of [d], with its answer, takes its files from those of [s] to those of [s']. *)
Definition merged_at (tables : list Table) (indexes : list Index) (d : str) (rows : gmap str (list Row))
    (s s' : Machine) (ro : str + MergeOutcome) : Prop :=
  ∃ w w', merge_destination tables indexes rows w = (ro, w') ∧
    w_destination w = mc_privates s !! d ∧ w_forks w = default ∅ (mc_forks s !! d) ∧
    mc_privates s' !! d = w_destination w' ∧ default ∅ (mc_forks s' !! d) = w_forks w'.

Lemma merge_plan_spec tables indexes report d rows s r s' :
  merge_plan tables indexes report (d, rows) s = (r, s') →
  mc_manifest s' = mc_manifest s ∧ (∀ d', d' ≠ d → same_at d' s s') ∧
  ∃ ro, merged_at tables indexes d rows s s' ro ∧
    match ro with inr o => r = inr (add_outcome report o) | inl e => r = inl e end.
Proof using.
  unfold merge_plan, mbind, Migrate_bind, at_destination. cbn [fst snd].
  destruct (merge_destination tables indexes rows (world_of d s)) as [ro w] eqn:Hrun. intros Hr.
  assert (s' = with_world d w s) as ->. { destruct ro; unfold mret, Migrate_ret in Hr; by simplify_eq. }
  split; [done|]. split.
  { intros d' Hd. split; cbn; by rewrite ?lookup_partial_alter_ne, ?lookup_insert_ne by done. }
  exists ro. split; [|destruct ro; unfold mret, Migrate_ret in Hr; by simplify_eq]. exists (world_of d s), w.
  split; [done|]. split; [done|]. split; [done|]. split; cbn.
  - by rewrite lookup_partial_alter_eq.
  - by rewrite lookup_insert_eq.
Qed.

Lemma merged_at_transport tables indexes d rows s1 s2 s3 s4 ro : same_at d s1 s2 → same_at d s3 s4 →
  merged_at tables indexes d rows s2 s3 ro → merged_at tables indexes d rows s1 s4 ro.
Proof using.
  intros [A1 A2] [B1 B2] (w & w' & E & C1 & C2 & C3 & C4). exists w, w'. split; [done|].
  split; [congruence|]. split; [congruence|]. split; congruence.
Qed.

(** Every destination of the plans was merged, or the run stopped before. *)
Lemma merge_plans_spec tables indexes plans : NoDup plans.*1 → ∀ report s r s',
  fold_steps (merge_plan tables indexes) report plans s = (r, s') →
  mc_manifest s' = mc_manifest s ∧ (∀ d, d ∉ plans.*1 → same_at d s s') ∧
  ∀ d rows, (d, rows) ∈ plans →
    (same_at d s s' ∧ ∃ e, r = inl e) ∨
    ∃ ro, merged_at tables indexes d rows s s' ro ∧ (∀ e, ro = inl e → r = inl e).
Proof using.
  induction plans as [|[d0 rows0] plans IH]; intros Hnd report s r s'; cbn [fold_steps].
  { intros [= <- <-]. split; [done|]. split; [done|]. by intros d rows ?%not_elem_of_nil. }
  cbn in Hnd. apply NoDup_cons in Hnd as [Hd0 Hnd].
  intros [(e & Hm & ->)|(report1 & s1 & Hm & Hrest)]%migrate_bind_inv;
    apply merge_plan_spec in Hm as (M1 & M2 & ro & M3 & M4).
  - split; [done|]. split; [intros d Hd; apply M2; set_solver|].
    intros d rows [[= -> ->]|Hin]%elem_of_cons.
    + right. exists ro. split; [done|]. intros e' ->. congruence.
    + left. split; [|eauto]. apply M2. intros ->. apply Hd0, list_elem_of_fmap. by exists (d0, rows).
  - destruct (IH Hnd _ _ _ _ Hrest) as (R1 & R2 & R3). split; [congruence|]. split.
    + intros d Hd. cbn in Hd. apply not_elem_of_cons in Hd as [Hne Hd].
      eapply same_at_trans; [by apply M2|by apply R2].
    + intros d rows [[= -> ->]|Hin]%elem_of_cons.
      * right. exists ro. split.
        { eapply merged_at_transport; [apply same_at_refl| |exact M3]. by apply R2. }
        intros e ->. congruence.
      * assert (Hne : d ≠ d0). { intros ->. apply Hd0, list_elem_of_fmap. by exists (d0, rows). }
        destruct (R3 d rows Hin) as [[Hs He]|(ro' & Hm' & He)].
        -- left. split; [|done]. eapply same_at_trans; [by apply M2|done].
        -- right. exists ro'. split; [|done]. eapply merged_at_transport; [by apply M2|apply same_at_refl|done].
Qed.
End Merges.

(** ** The command *)

Section Command.
Context `{Sqlite} (f : Fs) (euid : N) (xdg_data_home : option Path).
Context (identify : str → option str) (order : nat → gmap str str → nat → list (str * str)).
Context (looks : nat → Look) (lock : LockAnswer).

(** What becomes of the destinations and the manifest once the merges have begun. *)
Record carried (source : Path) (mode : MigrationMode) (s s' : Machine) (r : str + MigrationReport)
    (g : str) (p : PreparedSource) (rows : gmap str (list Row)) (rt : Routing) : Prop := mkCarried {
  ca_snapshot : consistent euid identify order looks source mode g p rows rt;
  ca_others : ∀ d, d ∉ rg_destinations rt → same_at d s s';
  ca_each : ∀ d, d ∈ rg_destinations rt →
    (same_at d s s' ∧ ∃ e, r = inl e) ∨
    ∃ ro, merged_at (ps_tables p) (ps_indexes p) d (select_rows identify d (ps_tables p) rows rt) s s' ro ∧
          (∀ e, ro = inl e → r = inl e);
  ca_manifest : (mc_manifest s' = mc_manifest s ∧ ∃ e, r = inl e) ∨
    (∃ report, mc_manifest s' = Some (mkManifest (Some g) report) ∧ (r = inr report ∨ ∃ e, r = inl e)) ∧
    ∀ d, d ∈ rg_destinations rt → ∃ o,
      merged_at (ps_tables p) (ps_indexes p) d (select_rows identify d (ps_tables p) rows rt) s s' (inr o);
}.

Lemma elem_of_btree_set (m : gset str) d : d ∈ btree_set m ↔ d ∈ m.
Proof using. unfold btree_set. by rewrite elem_of_sort_by, elem_of_elements. Qed.

Lemma plans_of source mode g p rows rt : consistent euid identify order looks source mode g p rows rt →
  NoDup (ps_plans p).*1 ∧ (∀ d, d ∈ (ps_plans p).*1 ↔ d ∈ rg_destinations rt) ∧
  ∀ d, d ∈ rg_destinations rt → (d, select_rows identify d (ps_tables p) rows rt) ∈ ps_plans p.
Proof using.
  intros (n & _ & Hsnap & _). pose proof (sn_plan _ _ _ _ _ _ _ _ _ Hsnap) as Hp.
  assert (E : ps_plans p = map (λ d, (d, select_rows identify d (ps_tables p) rows rt))
    (btree_set (rg_destinations rt))) by (rewrite Hp at 1; done).
  assert (Ekeys : (ps_plans p).*1 = btree_set (rg_destinations rt)).
  { rewrite E, <-list_fmap_compose. cbn. by rewrite list_fmap_id. }
  rewrite Ekeys. split; [|split].
  - unfold btree_set. rewrite sort_by_perm. apply NoDup_elements.
  - apply elem_of_btree_set.
  - intros d Hd. rewrite E. apply list_elem_of_fmap. exists d. split; [done|by apply elem_of_btree_set].
Qed.

Lemma step_inv s r s' : step s = (r, s') → untouched s s'.
Proof using. intros E. by destruct (reads_run step _ s r s' reads_step E). Qed.

Lemma write_manifest_spec g report s r s' : write_manifest g report s = (r, s') →
  (∀ d, same_at d s s') ∧
  (mc_manifest s' = mc_manifest s ∧ (∃ e, r = inl e) ∨ mc_manifest s' = Some (mkManifest (Some g) report)).
Proof using.
  unfold write_manifest. intros [(e & Hs & ->)|([] & s1 & H1%step_inv & Hrest)]%migrate_bind_inv.
  { apply step_inv in Hs. split; [by intros d; apply untouched_at|]. left. split; [apply Hs|eauto]. }
  apply migrate_bind_inv in Hrest as [(e & Hs & ->)|([] & s2 & H2%step_inv & Hrest)].
  { apply step_inv in Hs. assert (U : untouched s s') by (by etrans).
    split; [by intros d; apply untouched_at|]. left. split; [apply U|eauto]. }
  apply migrate_bind_inv in Hrest as [(e & [=] & _)|([] & s3 & H3 & H4%step_inv)]. injection H3 as <-.
  assert (U : untouched s s2) by (by etrans). split; [|right; by rewrite (un_manifest _ _ H4)].
  intros d. eapply same_at_trans; [by apply untouched_at|].
  eapply same_at_trans; [|by apply untouched_at]. done.
Qed.

Lemma carry_out_spec source mode s r s' : carry_out euid identify order looks source mode s = (r, s') →
  untouched s s' ∧ (writes mode = false ∨ ∃ e, r = inl e) ∨
  writes mode = true ∧ ∃ g p rows rt, carried source mode s s' r g p rows rt.
Proof using.
  unfold carry_out. intros [(e & Hs & ->)|([p g] & s1 & Hs & Hrest)]%migrate_bind_inv;
    apply (reads_run _ _ _ _ _ (reads_attempts euid identify order looks source mode 3)) in Hs as [U Hpg].
  { left. eauto. }
  destruct Hpg as (rows & rt & Hc). cbn [fst snd] in Hc. destruct (writes mode) eqn:Hw; cbn [negb] in Hrest.
  2: { injection Hrest as _ <-. left. auto. }
  destruct (plans_of _ _ _ _ _ _ Hc) as (Hnd & Hkeys & Hplans).
  apply migrate_bind_inv in Hrest as [(e & Hv & ->)|([] & s2 & Hv & Hrest)];
    apply (reads_run _ (λ _ _ _, True)) in Hv as [U2 _];
    try (apply reads_fold; intros x a; apply reads_validate).
  { left. split; [by etrans|eauto]. }
  assert (U' : untouched s s2) by (by etrans). right. split; [done|]. exists g, p, rows, rt.
  apply migrate_bind_inv in Hrest as [(e & Hm & ->)|(report & s3 & Hm & Hrest)];
    apply (merge_plans_spec _ _ _ Hnd) in Hm as (M1 & M2 & M3).
  - split; [done| | |].
    + intros d Hd. eapply same_at_trans; [by apply untouched_at|]. apply M2. by rewrite Hkeys.
    + intros d Hd. destruct (M3 _ _ (Hplans d Hd)) as [[Hs He]|(ro & Hro & He)]; [left|right].
      * split; [|done]. eapply same_at_trans; [by apply untouched_at|done].
      * exists ro. split; [|done]. eapply merged_at_transport; [by apply untouched_at|apply same_at_refl|done].
    + left. split; [|eauto]. rewrite M1. apply U'.
  - assert (Hall : ∀ d, d ∈ rg_destinations rt → ∃ o, merged_at (ps_tables p) (ps_indexes p) d
      (select_rows identify d (ps_tables p) rows rt) s s3 (inr o)).
    { intros d Hd. destruct (M3 _ _ (Hplans d Hd)) as [[_ [e He]]|([e|o] & Hro & He)]; [done| |].
      - by specialize (He e eq_refl).
      - exists o. eapply merged_at_transport; [by apply untouched_at|apply same_at_refl|done]. }
    assert (Hfin : ∀ d, same_at d s3 s' ∧ (mc_manifest s' = mc_manifest s3 ∧ (∃ e, r = inl e) ∨
      mc_manifest s' = Some (mkManifest (Some g) (not_up_to_date report)) ∧
        (r = inr (not_up_to_date report) ∨ ∃ e, r = inl e))).
    { intros d. apply migrate_bind_inv in Hrest as [(e & Hwm & ->)|([] & s4 & Hwm & Hr)];
        apply write_manifest_spec in Hwm as [W1 W2].
      - split; [done|]. destruct W2 as [[? _]| ?]; [left|right]; eauto.
      - injection Hr as <- <-. split; [done|]. destruct W2 as [[_ [e He]]| ?]; [done|right]. eauto. }
    assert (Hall' : ∀ d, d ∈ rg_destinations rt → ∃ o, merged_at (ps_tables p) (ps_indexes p) d
      (select_rows identify d (ps_tables p) rows rt) s s' (inr o)).
    { intros d Hd. destruct (Hall d Hd) as [o Ho]. exists o.
      eapply merged_at_transport; [apply same_at_refl| |exact Ho]. apply Hfin. }
    split; [done| | |].
    + intros d Hd. eapply same_at_trans; [by apply untouched_at|].
      eapply same_at_trans; [apply M2; by rewrite Hkeys|apply Hfin].
    + intros d Hd. right. destruct (Hall' d Hd) as [o Ho]. exists (inr o). split; [exact Ho|done].
    + destruct (Hfin []) as [_ [[E He]|[E Hr]]]; [left|right].
      * split; [|done]. rewrite E, M1. apply U'.
      * split; [|done]. eauto.
Qed.

Lemma carried_from source mode s0 s s' r g p rows rt : untouched s0 s →
  carried source mode s s' r g p rows rt → carried source mode s0 s' r g p rows rt.
Proof using.
  intros U [C1 C2 C3 C4].
  assert (Hm : ∀ d rows' ro, merged_at (ps_tables p) (ps_indexes p) d rows' s s' ro →
    merged_at (ps_tables p) (ps_indexes p) d rows' s0 s' ro).
  { intros d rows' ro. apply merged_at_transport; [by apply untouched_at|apply same_at_refl]. }
  split; [done| | |].
  - intros d Hd. eapply same_at_trans; [by apply untouched_at|auto].
  - intros d Hd. destruct (C3 d Hd) as [[Hs He]|(ro & Hro & He)]; [left|right; eauto].
    split; [|done]. eapply same_at_trans; [by apply untouched_at|done].
  - destruct C4 as [[E He]|[E Ho]]; [left; split; [rewrite E; apply U|done]|right]. split; [done|].
    intros d Hd. destruct (Ho d Hd) as [o ?]. eauto.
Qed.

Lemma reads_current source mode : reads (is_current euid looks source mode) (λ _ _ _, True).
Proof using.
  unfold is_current. destruct (bool_decide _); [|eapply reads_any, reads_ret].
  eapply reads_any, reads_bind; [apply reads_generation|intros g].
  eapply reads_bind; [|intros stored; apply reads_ret]. unfold manifest_generation.
  eapply reads_bind; [apply reads_step|intros v]. eapply reads_bind; [apply reads_manifest|intros m; apply reads_ret].
Qed.

Lemma reads_lock mode : reads (if writes mode then step ≫= λ _, acquire_lock lock mode else mret true)
  (λ _ b _, b = true → writes mode = true → lock = Acquired).
Proof using.
  destruct (writes mode); [|eapply reads_weaken; [apply reads_ret|done]].
  eapply reads_weaken.
  { eapply reads_bind; [apply reads_step|intros v]. unfold acquire_lock. eapply reads_bind; [apply reads_step|intros v'].
    apply (reads_weaken _ (λ _ b _, b = true → lock = Acquired)); [|intros s b s' _ Hb; exact Hb].
    destruct lock; [by eapply reads_weaken; [apply reads_ret|]| |].
    - destruct (bool_decide _); (eapply reads_weaken; [first [apply reads_ret|apply reads_result]|]).
      + by intros s b s' _ [-> _].
      + by intros s b s' _ [? _].
    - eapply reads_weaken; [apply reads_result|]. by intros s b s' _ [? _]. }
  intros s b s' _ (v & s1 & _ & _ & v' & s2 & _ & _ & Hb) E _. auto.
Qed.

Lemma result_inv {A : Type} (x : str + A) s r s' : of_result x s = (r, s') → r = x ∧ s' = s.
Proof using. by intros [= <- <-]. Qed.

Lemma migrate_spec options s r s' :
  migrate f euid xdg_data_home identify order looks lock options s = (r, s') →
  untouched s s' ∧ ((∃ e, r = inl e) ∨ (∃ report, r = inr report ∧
    (mr_source report = None ∨ mr_skipped_locked report = true ∨ mr_up_to_date report = true ∨
     writes (mo_mode options) = false))) ∨
  writes (mo_mode options) = true ∧ lock = Acquired ∧
  ∃ source g p rows rt, carried source (mo_mode options) s s' r g p rows rt.
Proof using.
  unfold migrate. intros [(e & Hf & ->)|(found & s1 & Hf & Hrest)]%migrate_bind_inv;
    apply result_inv in Hf as [_ ->]; [left; split; [done|eauto]|].
  destruct found as [source|]; [|injection Hrest as <- <-; left; split; [done|]; right; eauto].
  apply migrate_bind_inv in Hrest as [(e & Hf & ->)|([] & s2 & Hf & Hrest)];
    apply result_inv in Hf as [_ ->]; [left; split; [done|eauto]|].
  apply migrate_bind_inv in Hrest as [(e & Hf & ->)|([] & s2 & Hf & Hrest)];
    apply result_inv in Hf as [_ ->]; [left; split; [done|eauto]|].
  apply migrate_bind_inv in Hrest as [(e & Hl & ->)|(locked & s4 & Hl & Hrest)];
    apply (reads_run _ _ _ _ _ (reads_lock (mo_mode options))) in Hl as [U Hl]; [left; split; [done|eauto]|].
  destruct locked; cbn [negb] in Hrest.
  2: { injection Hrest as <- <-. left. split; [done|]. right. eexists. split; [done|]. auto. }
  apply migrate_bind_inv in Hrest as [(e & Hc & ->)|(current & s5 & Hc & Hrest)];
    apply (reads_run _ _ _ _ _ (reads_current source (mo_mode options))) in Hc as [U' _]; [left; split; [by etrans|eauto]|].
  assert (U5 : untouched s s5) by (by etrans). destruct current.
  { injection Hrest as <- <-. left. split; [done|]. right. eexists. split; [done|]. auto. }
  apply carry_out_spec in Hrest as [[U6 Hr]|(Hw & g & p & rows & rt & Hc)].
  - left. split; [by etrans|]. destruct Hr as [Hw|He]; [|by left]. destruct r as [e|report]; [eauto|]. right. eauto 10.
  - right. split; [done|]. split; [auto|]. exists source, g, p, rows, rt. by eapply carried_from.
Qed.
End Command.

(** ** What a merge leaves at a destination *)

Section Destinations.
Context `{Sqlite}.

(** A database in which a merge was finished: the rows of [old] are there, the schema is
    complete and SQLite's checks passed. *)
Record finished (tables : list Table) (indexes : list Index) (old db' : Database) : Prop := mkFinished {
  fi_rows : ∀ t, t ≠ $"event_sequence" → cells_of old t `prefix_of` cells_of db' t;
  fi_checked : checked tables indexes db';
}.

Lemma merged_at_safe tables indexes d rows s s' ro : merged_at tables indexes d rows s s' ro →
  default ∅ (mc_forks s !! d) ⊆ default ∅ (mc_forks s' !! d) ∧
  (mc_privates s' !! d = mc_privates s !! d ∧ (∃ e, ro = inl e) ∨
   ∃ db', mc_privates s' !! d = Some db' ∧
     finished tables indexes (default empty_database (mc_privates s !! d)) db').
Proof using.
  intros (w & w' & Hrun & E1 & E2 & E3 & E4). rewrite <-E2, E4, E3, <-E1.
  destruct (merge_destination_outcome tables indexes rows w ro w' Hrun)
    as [(e & -> & Hd & Hf)|(wo & wb & rb & Hbody & Hdb & Hfo & Hfb & Hrb)].
  { rewrite Hf. split; [done|]. left. eauto. }
  pose proof (growing_body (match w_destination w with Some _ => true | None => false end) tables indexes rows wo)
    as [Gc Gf _ _].
  pose proof (body_checked (match w_destination w with Some _ => true | None => false end) tables indexes rows wo)
    as Hck. unfold ends in Hck. rewrite Hbody in Gc, Gf, Hck. cbn [snd] in *. split; [by rewrite <-Hfo, Hfb|].
  destruct rb as [e|o]; [destruct Hrb as [-> ?]; eauto|]. destruct Hrb as [[? ?]|[Hd Hr]]; [by left|].
  right. exists (w_db wb). split; [done|]. split; [|done]. by rewrite <-Hdb.
Qed.

Lemma merged_at_confined tables indexes d rows s s' ro : merged_at tables indexes d rows s s' ro →
  forks_confined rows (default ∅ (mc_forks s !! d)) (default ∅ (mc_forks s' !! d)) ∧
  ∀ db', mc_privates s' !! d = Some db' →
    cells_confined rows (default empty_database (mc_privates s !! d)) db'.
Proof using.
  intros (w & w' & Hrun & E1 & E2 & E3 & E4). rewrite <-E2, E4, E3, <-E1.
  destruct (merge_destination_confined rows tables indexes w ro w' Hrun) as [Hf Hd]. split; [done|].
  intros db' E. by rewrite E in Hd.
Qed.
End Destinations.

(** C7: A migration leaves each project as it was or finished.  Whatever fails, statement,
    check, rename or the source changing underneath, a run either touches nothing, or it
    had the lock in a mode that writes and worked from one snapshot of the source, between
    two looks that found the same generation; then the projects that are no destination
    are as they were, each destination is as it was or holds a finished merge with every
    private row it had, archives only grow, and the manifest names the snapshot's
    generation only when every destination was finished. *)
Theorem migrate_all_or_nothing `{Sqlite} f euid xdg_data_home identify order looks lock options s r s' :
  migrate f euid xdg_data_home identify order looks lock options s = (r, s') →
  untouched s s' ∨
  writes (mo_mode options) = true ∧ lock = Acquired ∧ ∃ source g p rows rt,
    consistent euid identify order looks source (mo_mode options) g p rows rt ∧
    (∀ d, d ∉ rg_destinations rt → same_at d s s') ∧
    (∀ d, default ∅ (mc_forks s !! d) ⊆ default ∅ (mc_forks s' !! d) ∧
       (mc_privates s' !! d = mc_privates s !! d ∨ ∃ db', mc_privates s' !! d = Some db' ∧
          finished (ps_tables p) (ps_indexes p) (default empty_database (mc_privates s !! d)) db')) ∧
    (mc_manifest s' = mc_manifest s ∧ (∃ e, r = inl e) ∨
     (∃ report, mc_manifest s' = Some (mkManifest (Some g) report)) ∧
     ∀ d, d ∈ rg_destinations rt → ∃ db', mc_privates s' !! d = Some db' ∧
       finished (ps_tables p) (ps_indexes p) (default empty_database (mc_privates s !! d)) db').
Proof.
  intros [[U _]|(Hw & Hl & source & g & p & rows & rt & [C1 C2 C3 C4])]%migrate_spec; [by left|].
  right. split; [done|]. split; [done|]. exists source, g, p, rows, rt. split; [done|]. split; [done|]. split.
  - intros d. destruct (decide (d ∈ rg_destinations rt)) as [Hd|Hd].
    + destruct (C3 d Hd) as [[[E1 E2] _]|(ro & Hro & _)]; [rewrite E2; by auto|].
      apply merged_at_safe in Hro as [Hf [[? _]|?]]; auto.
    + destruct (C2 d Hd) as [E1 E2]. rewrite E2. by auto.
  - destruct C4 as [?|[(report & E & _) Hall]]; [by left|right]. split; [by exists report|].
    intros d Hd. destruct (Hall d Hd) as [o Ho]. by apply merged_at_safe in Ho as [_ [[_ [e [=]]]|?]].
Qed.

(** ** Projects stay apart *)

Lemma select_rows_inv identify d tables rows r name row : NoDup (map t_name tables) →
  row ∈ rows_of (select_rows identify d tables rows r) name →
  ∃ tb, tb ∈ tables ∧ t_name tb = name ∧ t_copy_rows tb = true ∧ row ∈ rows_of rows name.
Proof.
  intros Hnd Hin. destruct (decide (name ∈ map t_name tables)) as [Hn|Hn].
  - apply list_elem_of_fmap in Hn as (tb & -> & Htb). rewrite select_rows_lookup in Hin by done.
    exists tb. split; [done|]. split; [done|]. unfold select_table in Hin.
    destruct (t_copy_rows tb); [|by apply not_elem_of_nil in Hin]. split; [done|]. by apply elem_of_filter_bool in Hin as [_ ?].
  - rewrite select_rows_unknown in Hin; [by apply not_elem_of_nil in Hin|].
    apply Forall_forall. intros t Ht E. destruct Hn. apply list_elem_of_fmap. by exists t.
Qed.

(** What the migration relies on in a database of OpenCode: tables have distinct names, and
    session and message ids are distinct. *)
Record distinct_ids `{Sqlite} (d : Database) : Prop := mkDistinctIds {
  di_names : ∀ tables indexes, probe_schema alphanumeric (db_catalog d) true = inr (tables, indexes) →
    NoDup (map t_name tables);
  di_ids : ∀ tables indexes t name,
    probe_schema alphanumeric (db_catalog d) true = inr (tables, indexes) →
    name = $"session" ∨ name = $"message" → find_table tables name = Some t →
    NoDup (ids t (rows_of (read_rows d tables) name));
}.


(** ** Everything arrives *)

Section Read.
Context `{EventSqlite}.

Lemma read_rows_lookup d tables tb : NoDup (map t_name tables) → tb ∈ tables →
  rows_of (read_rows d tables) (t_name tb) = read_table d tb.
Proof using.
  intros Hnd Hin. unfold rows_of, read_rows.
  rewrite (foldl_insert_unique t_name (read_table d) tables ∅ (t_name tb) (read_table d tb)); [done| |by exists tb].
  intros a Ha E. f_equal. by eapply names_fun.
Qed.

Lemma read_rows_missing d tables name : find_table tables name = None →
  rows_of (read_rows d tables) name = [].
Proof using.
  unfold rows_of, read_rows. induction tables as [|t tables IH] using rev_ind; [done|].
  rewrite foldl_snoc. unfold find_table. intros Hf.
  assert (Hall : ∀ u, u ∈ tables ++ [t] → t_name u ≠ name).
  { intros u Hu%list_elem_of_In E. apply (find_none _ _ Hf) in Hu. by rewrite (proj2 (str_eqb_eq _ _) E) in Hu. }
  rewrite lookup_insert_ne; [|apply Hall, elem_of_app; right; left]. apply IH. unfold find_table.
  destruct (List.find _ tables) as [u|] eqn:Hu; [|done]. apply find_some in Hu as [Hin E%str_eqb_eq].
  destruct (Hall u); [|done]. apply elem_of_app. left. by apply list_elem_of_In.
Qed.

Lemma find_table_elem tables name t : find_table tables name = Some t → t ∈ tables.
Proof using. unfold find_table. intros [? _]%find_some. by apply list_elem_of_In. Qed.

(** The event tables come in a pair, with the columns the merge expects. *)
Lemma event_schema_inv cat tables q : validate_event_schema cat tables q = inr () →
  (find_table tables $"event_sequence" = None ∧ find_table tables $"event" = None) ∨
  ∃ st et, find_table tables $"event_sequence" = Some st ∧ find_table tables $"event" = Some et ∧
    t_columns st = sequence_columns ∧ t_columns et = event_columns.
Proof using.
  unfold validate_event_schema. destruct (find_table tables $"event_sequence") as [st|];
    destruct (find_table tables $"event") as [et|]; try done; [|by left].
  destruct (_ || _) eqn:Hb; [done|]. intros _. right. exists st, et. do 2 (split; [done|]).
  apply orb_false_iff in Hb as [Hb _]. apply orb_false_iff in Hb as [Hb He].
  apply orb_false_iff in Hb as [Hs _]. apply negb_false_iff, bool_decide_eq_true in Hs.
  by apply negb_false_iff, bool_decide_eq_true in He.
Qed.

Lemma probe_copies cat q tables indexes t : probe_schema alphanumeric cat q = inr (tables, indexes) →
  t ∈ tables → t_copy_rows t = listed GRAPH_TABLES (t_name t) || listed SCHEMA_TABLES (t_name t).
Proof using.
  intros (_ & entries & _ & Ht & _)%probe_schema_tables Hin. apply mapM_inr in Ht.
  apply list_elem_of_lookup in Hin as [i Hi]. destruct (Forall2_lookup_r _ _ _ _ _ Ht Hi) as (e & _ & Hp).
  by apply probe_table_shape in Hp as (_ & _ & ? & _).
Qed.

Lemma graph_not_schema name : listed GRAPH_TABLES name = true → listed SCHEMA_TABLES name = false.
Proof using.
  intros Hn%listed_elem. assert (Hall : Forall (λ n, listed SCHEMA_TABLES n = false) GRAPH_TABLES).
  { repeat (apply Forall_cons; split; [vm_compute; reflexivity|]). constructor. }
  rewrite Forall_forall in Hall. by apply Hall.
Qed.

(** What the migration relies on in the source: distinct table names, event rows as wide as
    their tables with a text or no owner, and values that a database with the source's
    schema stores as they are. *)
Record sound_source (d : Database) : Prop := mkSoundSource {
  ss_names : ∀ tables indexes, probe_schema alphanumeric (db_catalog d) true = inr (tables, indexes) →
    NoDup (map t_name tables);
  ss_sequences : Forall (λ cells, sequence_fit (map bound (map value_owned cells))) (cells_of d $"event_sequence");
  ss_events : Forall (λ cells, length cells = 5%nat) (cells_of d $"event");
  ss_welcome : ∀ tables indexes, probe_schema alphanumeric (db_catalog d) true = inr (tables, indexes) →
    ∀ cat t, t ∈ tables → validate_complete_destination alphanumeric cat tables indexes = inr () →
    welcome (read_rows d tables) cat t;
}.

Lemma source_rows d tables name t : NoDup (map t_name tables) → find_table tables name = Some t →
  t_copy_rows t = true → rows_of (read_rows d tables) name ≡ₚ map read_row (cells_of d name).
Proof using H0.
  intros Hnd Ht Hcopy. pose proof (found_name _ _ _ Ht) as <-.
  rewrite read_rows_lookup by (done || by eapply find_table_elem). unfold read_table. rewrite Hcopy.
  by rewrite scan_perm.
Qed.

(** The histories of the source are valid, and stay so when they are divided. *)
Lemma source_divided d tables label st et g : sound_source d → NoDup (map t_name tables) →
  find_table tables $"event_sequence" = Some st → find_table tables $"event" = Some et →
  t_columns st = sequence_columns → t_columns et = event_columns →
  t_copy_rows st = true → t_copy_rows et = true →
  validate_event_graph tables (read_rows d tables) label = inr () →
  source_events (part_sequences g (rows_of (read_rows d tables) $"event_sequence"))
    (part_events g (rows_of (read_rows d tables) $"event")).
Proof using H0.
  intros Hsound Hnd Hst Het Cst Cet Kst Ket Hval.
  pose proof (source_rows d tables _ st Hnd Hst Kst) as PS. pose proof (source_rows d tables _ et Hnd Het Ket) as PE.
  set (S := rows_of (read_rows d tables) $"event_sequence") in *.
  set (E := rows_of (read_rows d tables) $"event") in *.
  assert (HS : Forall (λ r, row_scalar r ∧ sequence_fit (map bound (values r))) S).
  { rewrite PS. apply Forall_map. eapply Forall_impl; [exact (ss_sequences _ Hsound)|]. intros cells Hc.
    split; [apply read_row_scalar|done]. }
  assert (HE : Forall row_scalar E).
  { rewrite PE. apply Forall_map, Forall_forall. intros cells _. apply read_row_scalar. }
  assert (Hv : valid S E).
  { apply (validate_inv tables st et (read_rows d tables) Hst Het Cst Cet label); [| |done].
    - eapply Forall_impl; [exact HS|]. intros r [_ (a & n & o & Hr & _)]. apply (f_equal length) in Hr.
      by rewrite length_map in Hr.
    - fold E. rewrite PE. apply Forall_map. eapply Forall_impl; [exact (ss_events _ Hsound)|].
      intros cells Hc. cbn. by rewrite length_map. }
  split; [by apply part_valid|by apply Forall_part..].
Qed.

Lemma selected_events identify d tables rows r st et : NoDup (map t_name tables) →
  find_table tables $"event_sequence" = Some st → find_table tables $"event" = Some et →
  t_columns st = sequence_columns → t_columns et = event_columns →
  t_copy_rows st = true → t_copy_rows et = true →
  rows_of (select_rows identify d tables rows r) $"event_sequence" =
    part_sequences (events_go d r) (rows_of rows $"event_sequence") ∧
  rows_of (select_rows identify d tables rows r) $"event" =
    part_events (events_go d r) (rows_of rows $"event").
Proof using.
  intros Hnd Hst Het Cst Cet Kst Ket. pose proof (found_name _ _ _ Hst) as Nst. pose proof (found_name _ _ _ Het) as Net.
  rewrite <-Nst at 1. rewrite <-Net at 1. rewrite !select_rows_lookup by (done || by eapply find_table_elem).
  unfold select_table, part_sequences, part_events. rewrite Kst, Ket, Nst, Net. split; apply filter_ext; intros row.
  - by apply selects_sequence.
  - by apply selects_event.
Qed.

Lemma welcome_selected identify d tables rows r cat t : NoDup (map t_name tables) → t ∈ tables →
  welcome rows cat t → welcome (select_rows identify d tables rows r) cat t.
Proof using.
  intros Hnd Ht [H1 H2]. unfold welcome. rewrite select_rows_lookup by done. unfold select_table.
  destruct (t_copy_rows t); [|by split]. split; by apply Forall_part.
Qed.

(** What a finished merge of a destination's share of the snapshot leaves there. *)
Lemma delivered_at identify order looks source mode n p rows rt d s s' o :
  sound_source (lk_database (looks n)) → (∀ db, mc_privates s !! d = Some db → readable db) →
  snapshot identify order looks source mode n p rows rt →
  merged_at (ps_tables p) (ps_indexes p) d (select_rows identify d (ps_tables p) rows rt) s s' (inr o) →
  ∃ db', mc_privates s' !! d = Some db' ∧
    (∀ t, t ∈ ps_tables p → listed GRAPH_TABLES (t_name t) = true → ¬ event_name (t_name t) →
       arrived db' t (rows_of (select_rows identify d (ps_tables p) rows rt) (t_name t))) ∧
    ∀ a h, view (rows_of rows $"event_sequence") (rows_of rows $"event") a = Some h →
      events_go d rt (Some a) = true →
      (∃ h', view (sequences db') (events db') a = Some h' ∧ eh_events h `prefix_of` eh_events h') ∨
      archived (default ∅ (mc_forks s' !! d)) h.
Proof using H0.
  intros Hso Hread Hsnap (w & w' & Hrun & E1 & E2 & E3 & E4).
  pose proof (sn_schema _ _ _ _ _ _ _ _ _ Hsnap) as Hprobe. pose proof (ss_names _ Hso _ _ Hprobe) as Hnd.
  pose proof (sn_rows _ _ _ _ _ _ _ _ _ Hsnap) as Hrows. set (db := lk_database (looks n)) in *.
  set (mine := select_rows identify d (ps_tables p) rows rt) in *.
  destruct (merge_destination_outcome _ _ mine w (inr o) w' Hrun)
    as [(e & [=] & _)|(wo & wb & rb & Hbody & Hdb & Hfo & Hfb & Hrb)].
  set (existed := match w_destination w with Some _ => true | None => false end) in *.
  destruct rb as [e|o']; [by destruct Hrb|]. destruct Hrb as [[_ [e [=]]]|[Hd _]].
  exists (w_db wb). split; [by rewrite E3|].
  pose proof (body_checked existed (ps_tables p) (ps_indexes p) mine wo) as Hck. unfold ends in Hck.
  rewrite Hbody in Hck. split.
  - intros t Ht Hg Hne. eapply (body_rows_arrive scan_perm existed); [exact Hbody|done| |done|].
    + intros u Hu _. apply welcome_selected; [done..|]. rewrite Hrows. eapply ss_welcome; [done..|apply Hck].
    + unfold merges_rows. rewrite (probe_copies _ _ _ _ t Hprobe Ht), Hg, graph_not_schema by done. cbn.
      apply negb_true_iff, not_true_iff_false. intros [E%str_eqb_eq|[E%str_eqb_eq|[=]]%orb_true_iff]%orb_true_iff;
        apply Hne; [by left|by right].
  - intros a h Hh Hgo. rewrite E4, Hfb.
    destruct (event_schema_inv _ _ _ (sn_event_schema _ _ _ _ _ _ _ _ _ Hsnap))
      as [[Hst _]|(st & et & Hst & Het & Cst & Cet)].
    { rewrite Hrows, (read_rows_missing db _ _ Hst) in Hh. done. }
    assert (Kst : t_copy_rows st = true).
    { rewrite (probe_copies _ _ _ _ st Hprobe), (found_name _ _ _ Hst) by by eapply find_table_elem. done. }
    assert (Ket : t_copy_rows et = true).
    { rewrite (probe_copies _ _ _ _ et Hprobe), (found_name _ _ _ Het) by by eapply find_table_elem. done. }
    destruct (selected_events identify d (ps_tables p) rows rt st et Hnd Hst Het Cst Cet Kst Ket) as [Es Ee].
    fold mine in Es, Ee.
    destruct (body_events_arrive existed _ _ mine wo o' wb st et Hbody Hst Het Cst Cet (conj Kst Ket)) as [_ Hev].
    + rewrite Es, Ee, Hrows. eapply source_divided; try done. rewrite <-Hrows.
      exact (sn_events _ _ _ _ _ _ _ _ _ Hsnap).
    + rewrite Hdb, E1. destruct (mc_privates s !! d) as [x|] eqn:Ex; [by apply Hread|].
      split; cbn; constructor.
    + apply Hev. rewrite Es, Ee, part_view, Hgo. done.
Qed.
End Read.

(** C12: A migration that succeeds has moved everything.  When a run that writes, found a source
    and was neither locked out nor up to date succeeds, the manifest holds the generation
    of the snapshot it read and its report; and at every destination the snapshot leads to
    there is a database in which, for each table of the session graph, every row selected
    for it is there, by its key or as often as in the source, and in which every history
    that goes there continues, unless it is in the destination's archive. *)
Theorem migrate_delivers `{EventSqlite} f euid xdg_data_home identify order looks lock options s report s' :
  (∀ n, sound_source (lk_database (looks n))) →
  (∀ d db, mc_privates s !! d = Some db → readable db) →
  migrate f euid xdg_data_home identify order looks lock options s = (inr report, s') →
  writes (mo_mode options) = true → mr_source report ≠ None →
  mr_skipped_locked report = false → mr_up_to_date report = false ∨ mc_manifest s' ≠ mc_manifest s →
  ∃ source g p rows rt,
    consistent euid identify order looks source (mo_mode options) g p rows rt ∧
    mc_manifest s' = Some (mkManifest (Some g) report) ∧
    ∀ d, d ∈ rg_destinations rt → ∃ db', mc_privates s' !! d = Some db' ∧
      (∀ t, t ∈ ps_tables p → listed GRAPH_TABLES (t_name t) = true → ¬ event_name (t_name t) →
         arrived db' t (rows_of (select_rows identify d (ps_tables p) rows rt) (t_name t))) ∧
      ∀ a h, view (rows_of rows $"event_sequence") (rows_of rows $"event") a = Some h →
        events_go d rt (Some a) = true →
        (∃ h', view (sequences db') (events db') a = Some h' ∧ eh_events h `prefix_of` eh_events h') ∨
        archived (default ∅ (mc_forks s' !! d)) h.
Proof.
  intros Hsound Hread [[U [[e [=]]|(r & [= <-] & Hr)]]|(_ & _ & source & g & p & rows & rt & C)]%migrate_spec Hw Hsrc Hl Hc.
  { destruct Hr as [?|[?|[?|?]]]; try congruence. destruct Hc as [?|Hc]; [congruence|]. by destruct Hc, U. }
  exists source, g, p, rows, rt. split; [apply C|].
  destruct (ca_manifest _ _ _ _ _ _ _ _ _ _ _ _ _ C) as [[_ [e [=]]]|[(r & Hm & [[= <-]|[e [=]]]) Hall]].
  split; [done|]. intros d Hd. destruct (Hall d Hd) as [o Ho]. clear Hall.
  destruct (ca_snapshot _ _ _ _ _ _ _ _ _ _ _ _ _ C) as (n & _ & Hsnap & _). pose proof (Hsound (S n)) as Hso.
  eapply delivered_at; [done|apply Hread|done|done].
Qed.

Module Examples.
Import MergeSafety.Examples SessionRoutes.Examples.

(** A source with five tables. *)
Definition columns_of (table : str) : list (str * str) :=
  if str_eqb table $"session"
  then map (λ c, (c, $"TEXT")) [ $"id"; $"parent_id"; $"directory"; $"project_id"; $"workspace_id"]
  else if str_eqb table $"message" then [($"id", $"TEXT"); ($"session_id", $"TEXT")]
  else if str_eqb table $"part" then [($"id", $"TEXT"); ($"message_id", $"TEXT")]
  else if str_eqb table $"event_sequence"
  then [($"aggregate_id", $"TEXT"); ($"seq", $"INTEGER"); ($"owner_id", $"TEXT")]
  else [($"id", $"TEXT"); ($"aggregate_id", $"TEXT"); ($"seq", $"INTEGER"); ($"type", $"TEXT"); ($"data", $"TEXT")].
Definition column_infos (table : str) : list ColumnInfo :=
  match columns_of table with
  | [] => []
  | key :: rest => mkColumnInfo key.1 key.2 0 None 1 0 :: map (λ c, mkColumnInfo c.1 c.2 1 None 0 0) rest
  end.
Definition event_keys (table : str) : list ForeignKeySpec :=
  if str_eqb table $"event"
  then [mkForeignKeySpec 0 0 $"event_sequence" $"aggregate_id" (Some $"aggregate_id") $"NO ACTION" $"CASCADE" $"NONE"]
  else [].
Definition event_indexes (table : str) : list IndexInfo :=
  if str_eqb table $"event" then [mkIndexInfo $"by_seq" 1 0; mkIndexInfo $"by_type" 0 0] else [].
Definition index_columns (index : str) : list IndexColumnInfo :=
  map (λ c, mkIndexColumnInfo 0 (Some c) 0 $"BINARY" 1)
    (if str_eqb index $"by_seq" then [ $"aggregate_id"; $"seq"] else [ $"aggregate_id"; $"type"; $"seq"]).
Definition with_objects (l : list SchemaObject) : Catalog :=
  mkCatalog l column_infos event_keys (λ _, Some (0, 0)%Z) event_indexes index_columns.
Definition full : list SchemaObject :=
  map (λ name, mkSchemaObject $"table" name name (Some ($"CREATE TABLE " ++ name)))
    [ $"session"; $"message"; $"part"; $"event_sequence"; $"event"].

(** Creating a table adds its object. *)
Definition created_with (cat : Catalog) (sql : str) : str + Catalog :=
  inr (with_objects (sqlite_schema cat ++ List.filter (λ o, bool_decide (so_sql o = Some sql)) full)).
#[local] Instance lite : Sqlite := {|
  alphanumeric c := is_ascii_alphabetic c || is_ascii_digit c;
  scan _ l := l;
  stored _ _ cells := cells;
  rejects _ _ _ := None;
  cell_is _ _ _ := cell_eqb;
  created := created_with;
  integrity _ := $"ok";
  foreign_key_violations _ := 0%Z;
|}.
#[local] Instance lite_events : EventSqlite.
Proof. by split. Qed.

Definition global : Database :=
  mkDatabase (with_objects full)
    (<[ $"session" := cells_of_rows [one; two; three]]> (<[ $"message" := cells_of_rows [a_row [ $"msg_1"; $"ses_2"]]]>
    (<[ $"part" := cells_of_rows [part_two]]>
    (<[ $"event_sequence" := cells_of_rows [sequence_row $"ses_2" 1 Null]]>
    (<[ $"event" := cells_of_rows [event_at $"e1" $"ses_2" 0; event_at $"e2" $"ses_2" 1]]> ∅))))).

(** The source does not change while it is read. *)
Definition a_file : SourceFile := mkSourceFile false true 1000 1 2 4096 (Some (10, 20)) (inr []).
Definition a_look (n : nat) : Look := mkLook (inr a_file) (inl not_found) global.
Definition walk_order (n : nat) (m : gmap str str) (k : nat) : list (str * str) := map_to_list m.

Definition dir : Node := mkNode Dir 1000 448.
Definition text (s : str) : Node := mkNode (File (Utf8.as_bytes s)) 1000 384.
Definition home : Path := [ $"home"; $"u"].
Definition files : gmap Path Node := list_to_map [
  ([], dir); ([ $"home"], dir); (home, dir); (home ++ [ $".local"], dir); (home ++ [ $".local"; $"share"], dir);
  (home ++ [ $".local"; $"share"; $"opencode"], dir);
  (home ++ [ $".local"; $"share"; $"opencode"; $"opencode.db"], text $"db")].
Definition fresh : Machine := mkMachine ∅ ∅ ∅ None 0 [].
Definition apply : MigrationOptions := mkOptions home None Apply.
Definition run (faults : list (option str)) :=
  migrate files 1000 None an_identify walk_order a_look Acquired apply
    (mkMachine ∅ ∅ ∅ None 0 faults).
Lemma run_pair faults : migrate files 1000 None an_identify walk_order a_look Acquired apply
  (mkMachine ∅ ∅ ∅ None 0 faults) = ((run faults).1, (run faults).2).
Proof. exact (surjective_pairing (run faults)). Qed.
Definition report : MigrationReport := match (run []).1 with inr r => r | inl _ => no_report end.

Lemma run_succeeds : (run []).1 = inr report.
Proof. vm_compute. reflexivity. Qed.

(** *** The source is sound *)

Definition probed : list Table * list Index :=
  match probe_schema alphanumeric (db_catalog global) true with inr p => p | inl _ => ([], []) end.
Definition global_rows : gmap str (list Row) := read_rows global probed.1.

Lemma probe_global tables indexes : probe_schema alphanumeric (db_catalog global) true = inr (tables, indexes) →
  tables = probed.1 ∧ indexes = probed.2.
Proof.
  assert (E : probe_schema alphanumeric (db_catalog global) true = inr probed) by (vm_compute; reflexivity).
  rewrite E. generalize probed. by intros [t i] [= -> ->].
Qed.

(** A row whose key columns are there, of integers in range and short ASCII texts. *)
Definition value_okb (v : Value) : bool :=
  match v with
  | Null => true
  | Integer n => (- 2 ^ 63 <=? n)%Z && (n <? 2 ^ 63)%Z
  | Text s => forallb (λ c, c <? 128) s && (length s <? 100)%nat
  | _ => false
  end.
Definition row_okb (t : Table) (row : Row) : bool :=
  forallb value_okb (values row) &&
  forallb (λ i, (i <? length (t_columns t))%nat && (i <? length (values row))%nat) (t_primary_key t).

Lemma value_okb_ok v : value_okb v = true → value_ok v.
Proof.
  destruct v as [|n| |s|]; cbn; try done.
  - intros [H1%Z.leb_le H2%Z.ltb_lt]%andb_true_iff. lia.
  - intros [Ha Hl]%andb_true_iff. by apply RowSafety.Examples.ascii_ok, andb_true_iff.
Qed.

Lemma row_okb_ok cat t row : row_okb t row = true → fitting cat t row ∧ row_ok row.
Proof.
  unfold row_okb. intros [Hv Hk]%andb_true_iff. rewrite forallb_forall in Hv, Hk. split; [split|].
  - done.
  - intros column v _. by apply bool_decide_eq_true.
  - apply Forall_forall. intros i Hi%list_elem_of_In. apply Hk in Hi.
    apply andb_true_iff in Hi as [H1%Nat.ltb_lt H2%Nat.ltb_lt]. by split; apply lookup_lt_is_Some.
  - apply Forall_forall. intros v Hin%list_elem_of_In. by apply value_okb_ok, Hv.
Qed.

Lemma global_sound : sound_source global.
Proof.
  split.
  - intros tables indexes [-> _]%probe_global.
    refine (bool_decide_unpack (NoDup (map t_name probed.1)) _). vm_compute. exact I.
  - apply Forall_singleton. do 3 eexists. split; [reflexivity|]. done.
  - by repeat constructor.
  - intros tables indexes [-> ->]%probe_global cat t Ht _.
    assert (Hall : forallb (λ t, forallb (row_okb t) (rows_of global_rows (t_name t))) probed.1 = true)
      by (vm_compute; reflexivity).
    rewrite forallb_forall in Hall. specialize (Hall t (proj1 (list_elem_of_In _ _) Ht)).
    rewrite forallb_forall in Hall. split; apply Forall_forall; intros row Hrow%list_elem_of_In%Hall;
      by apply (row_okb_ok cat) in Hrow as [? ?].
Qed.

Lemma global_distinct : distinct_ids global.
Proof.
  split.
  - intros tables indexes [-> _]%probe_global.
    refine (bool_decide_unpack (NoDup (map t_name probed.1)) _). vm_compute. exact I.
  - intros tables indexes t name [-> _]%probe_global Hname Ht.
    assert (Hall : ∀ n, n = $"session" ∨ n = $"message" →
      match find_table probed.1 n with
      | Some t => bool_decide (NoDup (ids t (rows_of global_rows n)))
      | None => true
      end = true) by (intros n [->| ->]; vm_compute; reflexivity).
    specialize (Hall name Hname). rewrite Ht in Hall. by apply bool_decide_eq_true in Hall.
Qed.

(** What every run reads. *)
Definition routed : Routing :=
  match route_sessions an_identify (walk_order 0) probed.1 global_rows false with
  | inr r => r
  | inl _ => mkRouting ∅ ∅ ∅ ∅ ∅ ∅ ∅ ∅ ∅
  end.

Lemma read_global source g p rows rt : consistent 1000 an_identify walk_order a_look source Apply g p rows rt →
  ps_tables p = probed.1 ∧ rows = global_rows ∧ rt = routed.
Proof.
  intros (n & _ & Hsnap & _).
  destruct (probe_global _ _ (sn_schema _ _ _ _ _ _ _ _ _ Hsnap)) as [Ht _]. split; [done|].
  pose proof (sn_rows _ _ _ _ _ _ _ _ _ Hsnap) as Hr. rewrite Ht in Hr. split; [done|].
  pose proof (sn_routing _ _ _ _ _ _ _ _ _ Hsnap) as Hrt. rewrite Ht, Hr in Hrt.
  change (walk_order (S (S n))) with (walk_order 0) in Hrt. change (bool_decide (Apply = CatchUp)) with false in Hrt.
  unfold routed. change (read_rows (lk_database (a_look (S n))) probed.1) with global_rows in Hrt. by rewrite Hrt.
Qed.

Lemma fresh_readable d db : mc_privates fresh !! d = Some db → readable db.
Proof. cbn. by rewrite lookup_empty. Qed.

(** The history of a session arrives with the session. *)
Definition its_events : list Row := [event_at $"e1" $"ses_2" 0; event_at $"e2" $"ses_2" 1].

Lemma migrate_delivers_witness : ∃ db',
  mc_privates (run []).2 !! $"a-1" = Some db' ∧
  ∃ h, view (sequences db') (events db') $"ses_2" = Some h ∧ its_events `prefix_of` eh_events h.
Proof.
  destruct (migrate_delivers files 1000 None an_identify walk_order a_look Acquired apply fresh report (run []).2)
    as (source & g & p & rows & rt & Hc & _ & H).
  - intros n. exact global_sound.
  - exact fresh_readable.
  - rewrite <-run_succeeds. exact (run_pair []).
  - reflexivity.
  - vm_compute. discriminate.
  - vm_compute. reflexivity.
  - left. vm_compute. reflexivity.
  - destruct (read_global _ _ _ _ _ Hc) as (Ht & -> & ->).
    destruct (H $"a-1") as (db' & Hdb & _ & Hev).
    { refine (bool_decide_unpack ($"a-1" ∈ rg_destinations routed) _). vm_compute. exact I. }
    exists db'. split; [exact Hdb|].
    destruct (Hev $"ses_2" (mkHistory (sequence_row $"ses_2" 1 Null) its_events)) as [Hh|Ha];
      [vm_compute; reflexivity..|exact Hh|].
    exfalso. revert Ha. unfold archived.
    assert (E : default ∅ (mc_forks (run []).2 !! $"a-1") = (∅ : gmap str EventHistory)) by (vm_compute; reflexivity).
    rewrite E. intros (k & Hk & Hs). rewrite lookup_empty in Hk. discriminate Hk.
Defined.


(** A run that cannot finish the second merge leaves the first project finished, the archive
    as it was and no manifest. *)
Definition short : list (option str) := repeat None 50 ++ [Some $"disk full"].

Lemma migrate_all_or_nothing_witness :
  mc_manifest (run short).2 = None ∧ mc_privates (run short).2 !! legacy_global = None ∧
  ∃ p db', mc_privates (run short).2 !! $"a-1" = Some db' ∧
    finished (ps_tables p) (ps_indexes p) empty_database db'.
Proof.
  split; [vm_compute; reflexivity|]. split; [vm_compute; reflexivity|].
  assert (Hsome : is_Some (mc_privates (run short).2 !! $"a-1")).
  { destruct (mc_privates (run short).2 !! $"a-1") eqn:E; [by eexists|].
    assert (Hb : match mc_privates (run short).2 !! $"a-1" with Some _ => true | None => false end = true)
      by (vm_compute; reflexivity). rewrite E in Hb. discriminate Hb. }
  destruct (migrate_all_or_nothing files 1000 None an_identify walk_order a_look Acquired apply
    (mkMachine ∅ ∅ ∅ None 0 short) (run short).1 (run short).2 (run_pair short))
    as [U|(_ & _ & source & g & p & rows & rt & _ & _ & H & _)].
  - rewrite (un_privates _ _ U) in Hsome. cbn in Hsome. rewrite lookup_empty in Hsome. destruct Hsome as [x Hx]. discriminate Hx.
  - exists p. destruct (H $"a-1") as [_ [E|(db' & E & Hf)]].
    + rewrite E in Hsome. cbn in Hsome. rewrite lookup_empty in Hsome. destruct Hsome as [x Hx]. discriminate Hx.
    + exists db'. split; [exact E|]. cbn in Hf. rewrite lookup_empty in Hf. exact Hf.
Defined.

End Examples.
