(* ===== verification/Json.v ===== *)
(** * JSON values

    [serde_json::Value] and the methods of it the program uses to build and read its own
    documents.  An object is a [BTreeMap]: its members, keys ascending.  A number is an integer,
    or a double given by its bits. *)
From S2P Require Import Prelude Str.

Inductive Json :=
| JNull
| JBool (b : bool)
| JNumber (n : Z)
| JFloat (bits : N)
| JString (s : str)
| JArray (l : list Json)
| JObject (members : list (str * Json)).

(** ** Objects as maps *)

Section Members.
Context {A : Type}.
Implicit Types (m : list (str * A)) (k : str) (v : A).

Fixpoint find_member k m : option A :=
  match m with
  | [] => None
  | (k', v) :: m' => if str_eqb k k' then Some v else find_member k m'
  end.

(** The place of a key that is not there. *)
Fixpoint place_member k v m : list (str * A) :=
  match m with
  | [] => [(k, v)]
  | (k', v') :: m' => match str_cmp k k' with
                      | Gt => (k', v') :: place_member k v m'
                      | _ => (k, v) :: m
                      end
  end.

(** [Map::insert] and [Map::remove]. *)
Definition insert_member k v m : list (str * A) :=
  match find_member k m with
  | Some _ => map (λ kv, if str_eqb k kv.1 then (k, v) else kv) m
  | None => place_member k v m
  end.
Definition remove_member k m : list (str * A) := List.filter (λ kv, negb (str_eqb k kv.1)) m.

Lemma find_place k v m j : find_member k m = None →
  find_member j (place_member k v m) = if str_eqb j k then Some v else find_member j m.
Proof.
  induction m as [|[k' v'] m IH]; cbn; [done|].
  destruct (str_eqb k k') eqn:E; [done|]. intros Hm.
  destruct (str_cmp k k'); cbn; try done. rewrite (IH Hm). destruct (str_eqb j k') eqn:Ej; [|done].
  apply str_eqb_eq in Ej as ->. destruct (str_eqb k' k) eqn:Ek; [|done].
  apply str_eqb_eq in Ek as ->. by rewrite (proj2 (str_eqb_eq k k) eq_refl) in E.
Qed.

Lemma find_replaced k v m j : is_Some (find_member k m) →
  find_member j (map (λ kv, if str_eqb k kv.1 then (k, v) else kv) m) =
  if str_eqb j k then Some v else find_member j m.
Proof.
  induction m as [|[k' v'] m IH]; cbn; [by intros [? [=]]|].
  destruct (str_eqb k k') eqn:E; cbn.
  - apply str_eqb_eq in E as ->. intros _. destruct (str_eqb j k') eqn:Ej; [done|].
    clear IH. induction m as [|[k2 v2] m IH]; cbn; [done|].
    destruct (str_eqb k' k2) eqn:E2; cbn; [|by rewrite IH].
    apply str_eqb_eq in E2 as ->. by rewrite Ej.
  - intros Hm. rewrite (IH Hm). destruct (str_eqb j k') eqn:Ej; [|done].
    apply str_eqb_eq in Ej as ->. destruct (str_eqb k' k) eqn:Ek; [|done].
    apply str_eqb_eq in Ek as ->. by rewrite (proj2 (str_eqb_eq k k) eq_refl) in E.
Qed.

(** A map after an insertion. *)
Lemma find_insert k v m j :
  find_member j (insert_member k v m) = if str_eqb j k then Some v else find_member j m.
Proof.
  unfold insert_member. destruct (find_member k m) eqn:E; [by apply find_replaced; eexists|by apply find_place].
Qed.

Lemma find_remove k m j :
  find_member j (remove_member k m) = if str_eqb j k then None else find_member j m.
Proof.
  unfold remove_member. induction m as [|[k' v'] m IH]; cbn; [by destruct (str_eqb j k)|].
  destruct (str_eqb k k') eqn:E; cbn; rewrite IH.
  - apply str_eqb_eq in E as ->. by destruct (str_eqb j k').
  - destruct (str_eqb j k') eqn:Ej; [|done]. apply str_eqb_eq in Ej as ->.
    destruct (str_eqb k' k) eqn:Ek; [|done].
    apply str_eqb_eq in Ek as ->. by rewrite (proj2 (str_eqb_eq k k) eq_refl) in E.
Qed.

Lemma length_insert k v m : length (insert_member k v m) =
  match find_member k m with Some _ => length m | None => S (length m) end.
Proof.
  unfold insert_member. destruct (find_member k m); [by rewrite length_map|].
  induction m as [|[k' v'] m IH]; cbn; [done|]. destruct (str_cmp k k'); cbn; by rewrite ?IH.
Qed.

Lemma find_member_in k v m : find_member k m = Some v → In (k, v) m.
Proof.
  induction m as [|[k' v'] m IH]; cbn; [done|]. destruct (str_eqb k k') eqn:E; [|auto].
  apply str_eqb_eq in E as ->. intros [= ->]. by left.
Qed.

Lemma in_insert k v m kv : In kv (insert_member k v m) → kv = (k, v) ∨ In kv m.
Proof.
  unfold insert_member. destruct (find_member k m).
  - intros (kv' & <- & Hin)%in_map_iff. destruct (str_eqb k kv'.1); auto.
  - induction m as [|[k' v'] m IH]; cbn; [intuition|].
    destruct (str_cmp k k'); cbn; intuition.
Qed.

Lemma in_remove k m kv : In kv (remove_member k m) ↔ In kv m ∧ kv.1 ≠ k.
Proof.
  unfold remove_member. rewrite filter_In. split; intros [Hin H]; split; try done.
  - intros <-. by rewrite (proj2 (str_eqb_eq kv.1 kv.1) eq_refl) in H.
  - destruct (str_eqb k kv.1) eqn:E; [|done]. by apply str_eqb_eq in E as ->.
Qed.
End Members.

(** [json!({ ... })]: the members, inserted one after the other. *)
Definition object (members : list (str * Json)) : Json :=
  JObject (foldl (λ m kv, insert_member kv.1 kv.2 m) [] members).
Definition strings (l : list str) : Json := JArray (map JString l).

(** ** Reading *)

(** [Value::get] with a key. *)
Definition get (k : str) (j : Json) : option Json :=
  match j with JObject m => find_member k m | _ => None end.
Definition as_str (j : Json) : option str := match j with JString s => Some s | _ => None end.
Definition as_u64 (j : Json) : option Z :=
  match j with JNumber n => if (0 <=? n)%Z then Some n else None | _ => None end.
Definition as_array (j : Json) : option (list Json) := match j with JArray l => Some l | _ => None end.
Definition as_object (j : Json) : option (list (str * Json)) :=
  match j with JObject m => Some m | _ => None end.

Definition get_str (k : str) (j : Json) : option str := get k j ≫= as_str.

(** ** Equality *)

Section Induction.
Context (P : Json → Prop) (HNull : P JNull) (HBool : ∀ b, P (JBool b)) (HNumber : ∀ n, P (JNumber n))
  (HFloat : ∀ bits, P (JFloat bits))
  (HString : ∀ s, P (JString s)) (HArray : ∀ l, Forall P l → P (JArray l))
  (HObject : ∀ m, Forall (λ kv : str * Json, P kv.2) m → P (JObject m)).

Fixpoint Json_nested_ind (j : Json) : P j :=
  match j with
  | JNull => HNull
  | JBool b => HBool b
  | JNumber n => HNumber n
  | JFloat bits => HFloat bits
  | JString s => HString s
  | JArray l => HArray l ((fix go l : Forall P l :=
      match l with [] => @List.Forall_nil _ _ | x :: l' => @List.Forall_cons _ _ _ _ (Json_nested_ind x) (go l') end) l)
  | JObject m => HObject m ((fix go m : Forall (λ kv : str * Json, P kv.2) m :=
      match m with [] => @List.Forall_nil _ _ | x :: m' => @List.Forall_cons _ _ _ _ (Json_nested_ind x.2) (go m') end) m)
  end.
End Induction.

(** [PartialEq]. *)
Fixpoint json_eqb (a b : Json) : bool :=
  match a, b with
  | JNull, JNull => true
  | JBool x, JBool y => Bool.eqb x y
  | JNumber x, JNumber y => (x =? y)%Z
  | JFloat x, JFloat y => x =? y
  | JString x, JString y => str_eqb x y
  | JArray l, JArray m =>
      (fix go l m := match l, m with
        | [], [] => true
        | x :: l', y :: m' => json_eqb x y && go l' m'
        | _, _ => false
        end) l m
  | JObject l, JObject m =>
      (fix go (l m : list (str * Json)) := match l, m with
        | [], [] => true
        | x :: l', y :: m' => str_eqb x.1 y.1 && json_eqb x.2 y.2 && go l' m'
        | _, _ => false
        end) l m
  | _, _ => false
  end.

Lemma json_eqb_eq a : ∀ b, json_eqb a b = true ↔ a = b.
Proof.
  induction a as [|x|x|x|x|l IH|l IH] using Json_nested_ind; intros [|y|y|y|y|m|m]; cbn; try (by split).
  - rewrite Bool.eqb_true_iff. split; congruence.
  - rewrite Z.eqb_eq. split; congruence.
  - rewrite N.eqb_eq. split; congruence.
  - rewrite str_eqb_eq. split; congruence.
  - revert m. induction IH as [|x l Hx _ IHl]; intros [|y m]; try (by split).
    rewrite andb_true_iff, Hx, IHl. split; [intros [-> [= ->]]|intros [= -> ->]]; done.
  - revert m. induction IH as [|x l Hx _ IHl]; intros [|y m]; try (by split).
    rewrite !andb_true_iff, Hx, IHl, str_eqb_eq. destruct x as [kx x], y as [ky y]. cbn.
    split; [intros [[-> ->] [= ->]]|intros [= -> -> ->]]; done.
Qed.
