(* ===== verification/StrictClaude.v ===== *)
(** * Direct Claude: [crates/rtrt-core/src/detect.rs], [StrictClaudeInvocation] and
    [strict_claude_command]

    The one command line on which Claude Code runs outside the sandbox, the policy it is
    given instead, and the executables that may be named in it: found in fixed places and
    replaceable by nobody but the user and root. *)
From stdpp Require Import gmap sets.
From S2P Require Import Prelude Str.
From S2P Require Import Error Json.
From S2P Require Import Fs Files Project.
From S2P Require Import Invoke.

(** ** The accepted command line *)

Record StrictClaudeInvocation := mkStrict {
  sc_model : str;
  sc_permission_mode : str;
  sc_prompt : str;
}.

Definition parse_error : Error := Provider
  $"direct Claude requires exact RTRT argv: claude -p --model opus|sonnet --output-format json --permission-mode plan|acceptEdits --permission-prompt-tool mcp__rtrt__permission_prompt <prompt>".

Definition one_of (s : str) (l : list str) : bool := existsb (str_eqb s) l.

(** [Path::new(text).file_name()]. *)
Definition file_name_of (text : str) : option str := file_name (path_components text).

Definition parse (argv : list str) : Result StrictClaudeInvocation :=
  match argv with
  | [a0; a1; a2; model; a4; a5; a6; permission_mode; a8; a9; prompt] =>
      if negb (bool_decide (file_name_of a0 = Some $"claude"))
         || negb (str_eqb a1 $"-p")
         || negb (str_eqb a2 $"--model")
         || negb (one_of model [ $"opus"; $"sonnet"])
         || negb (str_eqb a4 $"--output-format")
         || negb (str_eqb a5 $"json")
         || negb (str_eqb a6 $"--permission-mode")
         || negb (one_of permission_mode [ $"plan"; $"acceptEdits"])
         || negb (str_eqb a8 $"--permission-prompt-tool")
         || negb (str_eqb a9 CLAUDE_PERMISSION_PROMPT_TOOL)
         || is_empty prompt
         || contains_char prompt 0
      then Err parse_error
      else Ok (mkStrict model permission_mode prompt)
  | _ => Err parse_error
  end.

(** ** The process that is started *)

(** [Command]: what it runs, where, and what it changes in the environment, in order. *)
Record Command := mkCommand {
  cmd_program : Path;
  cmd_args : list str;
  cmd_current_dir : Path;
  cmd_env : list (str * option str);
}.

(** [env] and [env_remove]: the last change of a name counts. *)
Definition env_of (env : list (str * option str)) (name : str) : option (option str) :=
  snd <$> list.last (List.filter (λ kv, str_eqb kv.1 name) env).

Definition path_json (p : Path) : Json := JString (display p).

Definition credential_files (home : Path) : list Json :=
  map (λ path, object [($"path", path_json (home ++ path_components path)); ($"mode", JString $"deny")])
    [ $".ssh"; $".aws"; $".azure"; $".config/gcloud"; $".kube"; $".docker/config.json";
      $".config/gh/hosts.yml"; $".npmrc"; $".pypirc"; $".netrc"; $".git-credentials"].

Definition credential_env : list Json :=
  map (λ name, object [($"name", JString name); ($"mode", JString $"deny")])
    [ $"ANTHROPIC_API_KEY"; $"OPENAI_API_KEY"; $"OPENROUTER_API_KEY"; $"GEMINI_API_KEY";
      $"GOOGLE_API_KEY"; $"GOOGLE_APPLICATION_CREDENTIALS"; $"AZURE_OPENAI_API_KEY";
      $"AZURE_API_KEY"; $"AWS_ACCESS_KEY_ID"; $"AWS_SECRET_ACCESS_KEY"; $"AWS_SESSION_TOKEN";
      $"GITHUB_TOKEN"; $"GH_TOKEN"; $"NPM_TOKEN"; $"GROQ_API_KEY"; $"MISTRAL_API_KEY";
      $"DEEPSEEK_API_KEY"; $"XAI_API_KEY"; $"HF_TOKEN"; $"HUGGING_FACE_HUB_TOKEN"].

Definition sandbox_settings (root home : Path) : Json := object [
  ($"enabled", JBool true);
  ($"autoAllowBashIfSandboxed", JBool true);
  ($"allowUnsandboxedCommands", JBool false);
  ($"failIfUnavailable", JBool true);
  ($"excludedCommands", JArray []);
  ($"network", object [
    ($"strictAllowlist", JBool true);
    ($"allowedDomains", JArray []);
    ($"allowLocalBinding", JBool false);
    ($"allowUnixSockets", JArray [])]);
  ($"filesystem", object [
    ($"allowWrite", JArray [path_json root]);
    ($"denyRead", JArray [path_json home]);
    ($"allowRead", JArray [path_json root]);
    ($"denyWrite", JArray [])]);
  ($"credentials", object [
    ($"files", JArray (credential_files home));
    ($"envVars", JArray credential_env)])].

Definition settings (root home rtrt : Path) : Json := object [
  ($"sandbox", sandbox_settings root home);
  ($"hooks", object [
    ($"SessionStart", JArray [object [
      ($"matcher", JString $"*");
      ($"hooks", JArray [object [
        ($"type", JString $"command");
        ($"command", path_json rtrt);
        ($"args", strings [ $"hook"; $"provenance"; $"--owner"; $"opencode"]);
        ($"timeout", JNumber 5)]])]])])].

Definition mcp_config (mcp : Path) : Json := object [
  ($"mcpServers", object [($"rtrt", object [
    ($"command", path_json mcp); ($"args", strings [ $"--permission-only"])])])].

Section Process.
(** [Value::to_string]. *)
Context (to_string : Json → str).

Definition strict_claude_command_with_paths (invocation : StrictClaudeInvocation)
    (root home claude mcp rtrt claude_tmp : Path) : Command :=
  mkCommand claude
    ([ $"-p"; $"--model"; sc_model invocation] ++
     [ $"--output-format"; $"json"] ++
     [ $"--permission-mode"; sc_permission_mode invocation] ++
     [ $"--permission-prompt-tool"; CLAUDE_PERMISSION_PROMPT_TOOL] ++
     [ $"--setting-sources"; []] ++
     [ $"--settings"; to_string (settings root home rtrt)] ++
     [ $"--strict-mcp-config"] ++
     [ $"--mcp-config"; to_string (mcp_config mcp)] ++
     [ $"--"; sc_prompt invocation])
    root
    [($"CLAUDE_CONFIG_DIR", None);
     ($"CLAUDE_CODE_ADDITIONAL_DIRECTORIES_CLAUDE_MD", None);
     ($"TMPDIR", Some (display claude_tmp));
     ($"TMP", Some (display claude_tmp));
     ($"TEMP", Some (display claude_tmp));
     ($"RTRT_STRICT_CLAUDE_SANDBOX", Some $"1");
     ($"RTRT_PROJECT_ROOT", Some (display root))].

(** ** Trusted executables *)

(** [?] on a call. *)
Definition io {A : Type} (m : Act IoError A) : Act Error A := map_err (λ e, Io (io_message e)) m.

Definition untrusted_mode (n : Node) : bool :=
  (N.land (node_mode n) 73 (* 0o111 *) =? 0) || negb (N.land (node_mode n) 18 (* 0o022 *) =? 0).
Definition writable_by_others (n : Node) : bool := negb (N.land (node_mode n) 18 =? 0).

Fixpoint trusted_parents (parents : list Path) : Act Error () :=
  match parents with
  | [] => mret ()
  | parent :: rest =>
      parent_metadata ← io (metadata parent);
      if negb (is_dir parent_metadata) || writable_by_others parent_metadata
      then throw (Provider ($"untrusted writable executable parent: " ++ display parent))
      else trusted_parents rest
  end.

(** On an absolute candidate. *)
Definition validate_trusted_executable (candidate project_root0 : Path) : Act Error Path :=
  canonical ← io (canonicalize candidate);
  project_root ← io (canonicalize project_root0);
  if starts_with_path canonical project_root
  then throw (Provider ($"trusted executable must be outside project: " ++ display canonical))
  else
    meta ← io (metadata canonical);
    root_meta ← io (metadata project_root);
    if negb (is_file meta) || untrusted_mode meta ||
       (negb (node_uid meta =? 0) && negb (node_uid meta =? node_uid root_meta))
    then throw (Provider ($"untrusted executable: " ++ display canonical))
    else trusted_parents (tail (ancestors canonical)) ≫= λ _, mret canonical.

(** The places below the home directory. *)
Definition user_paths (name : str) : list str :=
  if str_eqb name $"claude"
  then [ $".local/bin"; $".npm-global/bin"; $".claude/local"; $".volta/bin";
         $".nvm/versions/node"; $".asdf/installs/nodejs"]
  else [ $".cargo/bin"; $".local/bin"].

Fixpoint user_candidates (name : str) (home : Path) (bases : list str) : Act Error (list Path) :=
  match bases with
  | [] => mret []
  | b :: rest =>
      let base := home ++ path_components b in
      here ← (if bool_decide (list.last base = Some $"node") || bool_decide (list.last base = Some $"nodejs")
              then versions ← try_ (read_dir base);
                   mret match versions with
                        | inr names => map (λ version, base ++ [version; $"bin"; name]) names
                        | inl _ => []
                        end
              else mret [base ++ [name]]);
      others ← user_candidates name home rest;
      mret (here ++ others)
  end.

Definition system_candidates (name : str) : list Path :=
  map (λ base, path_components base ++ [name])
    [ $"/usr/local/bin"; $"/usr/bin"; $"/bin"; $"/opt/homebrew/bin"].

Fixpoint first_trusted (name : str) (project_root : Path) (candidates : list Path) : Act Error Path :=
  match candidates with
  | [] => throw (Provider ($"trusted executable not found in fixed user/system locations: " ++ name))
  | candidate :: rest =>
      there ← holds_at is_file candidate;
      if negb there then first_trusted name project_root rest
      else
        found ← try_ (validate_trusted_executable candidate project_root);
        match found with
        | inr path => mret path
        | inl _ => first_trusted name project_root rest
        end
  end.

(** [detected] is the path a detection found, where it is absolute. *)
Definition trusted_executable (home : option Path) (name : str) (detected : option Path)
    (project_root : Path) : Act Error Path :=
  user ← match home with
         | Some home => user_candidates name home (user_paths name)
         | None => mret []
         end;
  first_trusted name project_root
    (match detected with Some path => [path] | None => [] end ++ user ++ system_candidates name).

(** ** The whole command *)

Context (euid umask : N) (sha256 : list N → list N).
(** The process: its current directory, the user's home, [XDG_RUNTIME_DIR] and its user. *)
Context (current_dir : IoError + Path) (home_dir : option Path) (xdg_runtime : option str)
  (current_user_id : IoError + option N).

Definition strict_claude_command (argv : list str) (project_root : Path)
    (detected_claude : option Path) : Act Error Command :=
  match parse argv with
  | Err e => throw e
  | Ok invocation =>
      root ← io (canonicalize project_root);
      here ← io (of_sum current_dir);
      cwd ← io (canonicalize here);
      if bool_decide (root = []) || negb (starts_with_path cwd root)
      then throw (Provider $"direct Claude requires cwd inside canonical project root")
      else
        claude ← trusted_executable home_dir $"claude" detected_claude root;
        mcp ← trusted_executable home_dir $"rtrt-mcp" None root;
        rtrt ← trusted_executable home_dir $"rtrt" None root;
        match home_dir with
        | None => throw (Provider $"cannot resolve invoking user's home")
        | Some home =>
            home ← io (canonicalize home);
            claude_tmp ← io (claude_runtime_tmp_dir euid umask sha256 root xdg_runtime current_user_id);
            mret (strict_claude_command_with_paths invocation root home claude mcp rtrt claude_tmp)
        end
  end.
End Process.

(** ** What a trusted executable is *)

(** Real, outside the project, executable, owned by root or the owner of the project,
    and writable by nobody else; like every directory above it. *)
Record trusted (f : Fs) (root q : Path) : Prop := mkTrusted {
  tr_real : real f q;
  tr_outside : starts_with_path q root = false;
  tr_file : ∃ n r, f !! q = Some n ∧ f !! root = Some r ∧ is_file n = true ∧
    N.land (node_mode n) 73 ≠ 0 ∧ N.land (node_mode n) 18 = 0 ∧
    (node_uid n = 0 ∨ node_uid n = node_uid r);
  tr_parents : ∀ d, d `prefix_of` q → d ≠ q →
    ∃ n, f !! d = Some n ∧ is_dir n = true ∧ N.land (node_mode n) 18 = 0;
}.

Lemma io_answer {A : Type} (m : Act IoError A) w a w' : io m w = (inr a, w') → m w = (inr a, w').
Proof. apply map_err_answer. Qed.

Lemma metadata_answer p w n w' : metadata p w = (inr n, w') → stat (tree w) p = inr n.
Proof. apply look_answer. Qed.

Lemma stat_idem f q n : real f q → stat f q = inr n → f !! q = Some n.
Proof. intros Hq. unfold stat. rewrite resolve_idem by done. destruct (f !! q); congruence. Qed.

Lemma tail_map {A B : Type} (g : A → B) l : tail (map g l) = map g (tail l).
Proof. by destruct l. Qed.

Lemma tail_ancestors (q d : Path) : d ∈ tail (ancestors q) → d `prefix_of` q ∧ d ≠ q.
Proof.
  unfold ancestors. rewrite tail_map. intros (k & -> & Hk)%list_elem_of_fmap.
  rewrite seq_S, rev_app_distr in Hk. cbn in Hk.
  apply list_elem_of_In, in_rev, in_seq in Hk as [_ Hk]. split; [apply prefix_take|].
  intros E. pose proof (length_take q k) as Hl. rewrite E in Hl. lia.
Qed.

Lemma proper_prefix_in (q d : Path) : d `prefix_of` q → d ≠ q → d ∈ tail (ancestors q).
Proof.
  intros [x ->] Hne. unfold ancestors. rewrite tail_map. apply list_elem_of_fmap.
  exists (length d). rewrite take_app_length. split; [done|].
  rewrite seq_S, rev_app_distr. cbn. apply list_elem_of_In, in_rev. rewrite rev_involutive. apply in_seq.
  rewrite length_app. destruct x; [by rewrite app_nil_r in Hne|]. cbn. lia.
Qed.

Lemma read_only_parents l : read_only (trusted_parents l).
Proof. induction l as [|p l IH]; cbn; [done|]. unfold io. read_only. Qed.

Lemma real_prefix f q d : real f q → d `prefix_of` q → d ≠ q → real_dir f d.
Proof.
  intros Hq [x ->] Hne. destruct Hq as [Hq|(d0 & c & n & E & Hd & _)]; [by eapply real_dir_app|].
  destruct x as [|c' x _] using rev_ind; [by rewrite app_nil_r in Hne|].
  rewrite app_assoc in E. apply app_inj_tail in E as [<- _]. by eapply real_dir_app.
Qed.

Lemma trusted_parents_answer l : ∀ w u w', trusted_parents l w = (inr u, w') →
  ∀ d, d ∈ l → ∃ n, stat (tree w) d = inr n ∧ is_dir n = true ∧ N.land (node_mode n) 18 = 0.
Proof.
  induction l as [|p l IH]; cbn; intros w u w' H d Hd; [by apply not_elem_of_nil in Hd|].
  apply bind_answer in H as (n & w1 & Hn & Ht & H); [|unfold io; read_only].
  apply io_answer, metadata_answer in Hn. destruct (negb (is_dir n) || writable_by_others n) eqn:E; [done|].
  apply orb_false_iff in E as [E1%negb_false_iff E2%negb_false_iff]. apply N.eqb_eq in E2.
  apply elem_of_cons in Hd as [->|Hd]; [by exists n|]. rewrite <-Ht. by eapply IH.
Qed.

Lemma read_only_validate candidate root : read_only (validate_trusted_executable candidate root).
Proof.
  unfold validate_trusted_executable, io. apply read_only_bind; [read_only|intros c].
  apply read_only_bind; [read_only|intros r]. destruct (starts_with_path c r); [done|].
  apply read_only_bind; [read_only|intros m]. apply read_only_bind; [read_only|intros rm].
  destruct (_ || _); [done|]. apply read_only_bind; [apply read_only_parents|done].
Qed.

(** An executable that passes is trusted. *)
Lemma validate_trusted candidate root w q w' : real (tree w) root →
  validate_trusted_executable candidate root w = (inr q, w') →
  tree w' = tree w ∧ resolve (tree w) candidate = inr q ∧ trusted (tree w) root q.
Proof.
  intros Hroot H. split; [pose proof (read_only_validate candidate root w) as R; by rewrite H in R|].
  unfold validate_trusted_executable in H.
  apply bind_answer in H as (c & w1 & Hc & Ht1 & H); [|unfold io; read_only].
  apply io_answer, look_answer in Hc.
  apply bind_answer in H as (r & w2 & Hr & Ht2 & H); [|unfold io; read_only].
  apply io_answer, look_answer in Hr. same_tree. rewrite resolve_idem in Hr by done. injection Hr as <-.
  destruct (starts_with_path c root) eqn:Eo; [done|].
  apply bind_answer in H as (n & w3 & Hn & Ht3 & H); [|unfold io; read_only].
  apply bind_answer in H as (rn & w4 & Hrn & Ht4 & H); [|unfold io; read_only].
  apply io_answer, metadata_answer in Hn, Hrn. same_tree.
  destruct (_ || _) eqn:E in H; [done|].
  apply orb_false_iff in E as [[E1%negb_false_iff [E2 E3]%orb_false_iff]%orb_false_iff E4].
  apply bind_answer in H as (u & w5 & Hp & _ & H); [|apply read_only_parents]. injection H as <- _.
  pose proof (resolve_real _ _ _ Hc) as Hq. apply stat_idem in Hn, Hrn; [|done..].
  split; [done|]. split; [done|done| |].
  - exists n, rn. apply N.eqb_neq in E2. apply negb_false_iff, N.eqb_eq in E3.
    apply andb_false_iff in E4. rewrite !negb_false_iff, !N.eqb_eq in E4. done.
  - intros d Hd Hne. destruct (trusted_parents_answer _ _ _ _ Hp d) as (m & Hm & ?);
      [by apply proper_prefix_in|]. same_tree. exists m. split; [|done].
    eapply stat_idem; [|done]. left. by eapply real_prefix.
Qed.

(** Where an executable is looked for. *)
Definition fixed_place (home : option Path) (name : str) (detected : option Path) (c : Path) : Prop :=
  detected = Some c ∨ c ∈ system_candidates name ∨
  ∃ h b, home = Some h ∧ b ∈ user_paths name ∧
    (c = (h ++ path_components b) ++ [name] ∨
     ∃ version, c = (h ++ path_components b) ++ [version; $"bin"; name]).

Lemma read_only_candidates name home bases : read_only (user_candidates name home bases).
Proof.
  induction bases as [|b bases IH]; cbn; [done|]. apply read_only_bind.
  - destruct (_ || _); [|done]. apply read_only_bind; [apply read_only_try; apply read_only_look|done].
  - intros here. apply read_only_bind; [done|]. by intros.
Qed.

Lemma user_candidates_places name home bases : ∀ w l w', user_candidates name home bases w = (inr l, w') →
  ∀ c, c ∈ l → ∃ b, b ∈ bases ∧ (c = (home ++ path_components b) ++ [name] ∨
    ∃ version, c = (home ++ path_components b) ++ [version; $"bin"; name]).
Proof.
  induction bases as [|b bases IH]; cbn; intros w l w' H c Hc.
  { injection H as <- _. by apply not_elem_of_nil in Hc. }
  apply bind_answer in H as (here & w1 & Hh & _ & H).
  2: { destruct (_ || _); [|done]. apply read_only_bind; [apply read_only_try; apply read_only_look|done]. }
  apply bind_answer in H as (others & w2 & Ho & _ & H); [|apply read_only_candidates].
  injection H as <- _. apply elem_of_app in Hc as [Hc|Hc].
  - exists b. split; [by left|]. destruct (_ || _) in Hh.
    + apply bind_answer in Hh as ([e|names] & w3 & _ & _ & Hh); [| |apply read_only_try; apply read_only_look];
        injection Hh as <- _; [by apply not_elem_of_nil in Hc|].
      apply list_elem_of_fmap in Hc as (version & -> & _). right. by exists version.
    + injection Hh as <- _. apply list_elem_of_singleton in Hc as ->. by left.
  - destruct (IH _ _ _ Ho c Hc) as (b' & Hb & Hp). exists b'. split; [by right|done].
Qed.

Lemma read_only_first name root l : read_only (first_trusted name root l).
Proof.
  induction l as [|c l IH]; cbn; [done|]. apply read_only_bind; [read_only|intros there].
  destruct (negb there); [done|]. apply read_only_bind; [apply read_only_try, read_only_validate|].
  by intros [|].
Qed.

Lemma first_trusted_answer name root l : ∀ w q w', real (tree w) root →
  first_trusted name root l w = (inr q, w') →
  trusted (tree w) root q ∧ ∃ c, c ∈ l ∧ resolve (tree w) c = inr q.
Proof.
  induction l as [|c l IH]; cbn; intros w q w' Hroot H; [done|].
  apply bind_answer in H as (there & w1 & _ & Ht & H); [|read_only].
  assert (Hl : ∀ w2, tree w2 = tree w → first_trusted name root l w2 = (inr q, w') →
    trusted (tree w) root q ∧ ∃ c', c' ∈ c :: l ∧ resolve (tree w) c' = inr q).
  { intros w2 Hw2 Hl. apply IH in Hl as (? & c' & ? & ?); rewrite Hw2 in *; [|done..].
    split; [done|]. exists c'. split; [by right|done]. }
  destruct (negb there); [by eapply Hl|].
  apply bind_answer in H as (found & w2 & Hf & Ht2 & H); [|apply read_only_try, read_only_validate].
  destruct found as [e|p]; [apply (Hl w2); [congruence|done]|]. injection H as <- _.
  unfold try_ in Hf. destruct (validate_trusted_executable c root w1) as [r w3] eqn:Ev. injection Hf as -> _.
  apply validate_trusted in Ev as (_ & Hc & Htr); rewrite Ht in *; [|done].
  split; [done|]. exists c. split; [by left|done].
Qed.

Lemma read_only_executable home name detected root : read_only (trusted_executable home name detected root).
Proof.
  unfold trusted_executable. apply read_only_bind; [|intros; apply read_only_first].
  destruct home; [apply read_only_candidates|done].
Qed.

Lemma trusted_executable_answer home name detected root w q w' : real (tree w) root →
  trusted_executable home name detected root w = (inr q, w') →
  trusted (tree w) root q ∧ ∃ c, fixed_place home name detected c ∧ resolve (tree w) c = inr q.
Proof.
  unfold trusted_executable. intros Hroot H.
  apply bind_answer in H as (user & w1 & Hu & Ht & H); [|destruct home; [apply read_only_candidates|done]].
  apply first_trusted_answer in H as (Htr & c & Hc & Hr); rewrite Ht in *; [|done].
  split; [done|]. exists c. split; [|done]. rewrite !elem_of_app in Hc. destruct Hc as [Hc|[Hc|Hc]].
  - left. destruct detected; [|by apply not_elem_of_nil in Hc]. by apply list_elem_of_singleton in Hc as ->.
  - right; right. destruct home as [h|]; [|injection Hu as <- _; by apply not_elem_of_nil in Hc].
    destruct (user_candidates_places _ _ _ _ _ _ Hu c Hc) as (b & Hb & Hp). by exists h, b.
  - right; by left.
Qed.

(** ** The command *)

Section Spawn.
Context (to_string : Json → str) (euid umask : N) (sha256 : list N → list N).
Context (home_dir : option Path) (xdg_runtime : option str).

(** What holds of a direct Claude process when it is spawned: [w] is before, [w'] after. *)
Record spawned (argv : list str) (project_root here : Path) (detected : option Path) (owner : N)
    (w w' : FsWorld) (invocation : StrictClaudeInvocation) (root mcp rtrt claude_tmp : Path) (c : Command) :
    Prop := mkSpawned {
  sp_parsed : parse argv = Ok invocation;
  sp_root : resolve (tree w) project_root = inr root ∧ root ≠ [];
  sp_cwd : ∃ cwd, resolve (tree w) here = inr cwd ∧ starts_with_path cwd root = true;
  sp_command : ∃ home, c = strict_claude_command_with_paths to_string invocation root home
    (cmd_program c) mcp rtrt claude_tmp;
  sp_claude : trusted (tree w) root (cmd_program c) ∧
    ∃ p, fixed_place home_dir $"claude" detected p ∧ resolve (tree w) p = inr (cmd_program c);
  sp_mcp : trusted (tree w) root mcp ∧
    ∃ p, fixed_place home_dir $"rtrt-mcp" None p ∧ resolve (tree w) p = inr mcp;
  sp_rtrt : trusted (tree w) root rtrt ∧
    ∃ p, fixed_place home_dir $"rtrt" None p ∧ resolve (tree w) p = inr rtrt;
  sp_tmp : secured euid (tree w) (tree w') ∧ private_at owner claude_tmp (tree w');
}.

End Spawn.

(** ** Examples *)

Module Examples.
Definition dir (owner : N) : Node := mkNode Dir owner 493. (* 0o755 *)
Definition program : Node := mkNode (File []) 1000 493.
Definition project : Path := [ $"home"; $"u"; $"w"].
Definition local : Path := [ $"home"; $"u"; $".local"].
Definition cargo : Path := [ $"home"; $"u"; $".cargo"].

(** A home whose [.local] belongs to [owner]. *)
Definition files (owner : N) : gmap Path Node := list_to_map [
  ([], dir 0); ([ $"tmp"], mkNode Dir 0 1023); ([ $"home"], dir 0); ([ $"home"; $"u"], dir 1000);
  (project, dir 1000); (project ++ [ $".git"], dir 1000);
  (local, dir owner); (local ++ [ $"bin"], dir 1000); (local ++ [ $"bin"; $"claude"], program);
  (cargo, dir 1000); (cargo ++ [ $"bin"], dir 1000);
  (cargo ++ [ $"bin"; $"rtrt"], program); (cargo ++ [ $"bin"; $"rtrt-mcp"], program)].
Definition sha (m : list N) : list N := map (λ b, b mod 256) (take 32 (m ++ repeat 0 32)).
Definition argv : list str :=
  [ $"claude"; $"-p"; $"--model"; $"opus"; $"--output-format"; $"json"; $"--permission-mode"; $"plan";
    $"--permission-prompt-tool"; CLAUDE_PERMISSION_PROMPT_TOOL; $"--help me"].
Definition run (owner : N) :=
  strict_claude_command (λ _, []) 1000 18 sha (inr project) (Some [ $"home"; $"u"]) None (inr (Some 1000))
    argv project None (mkFsWorld (files owner) []).
Definition answer (owner : N) : option Path :=
  match (run owner).1 with inr c => Some (cmd_program c) | inl _ => None end.

Lemma run_answers : answer 1000 = Some (local ++ [ $"bin"; $"claude"]).
Proof. vm_compute. reflexivity. Qed.


(** The modes of the directories above an executable are looked at, not their owners: it
    is still found where another user owns one of them, and can replace what is below. *)
Example foreign_parent_accepted : answer 2000 = Some (local ++ [ $"bin"; $"claude"]).
Proof. vm_compute. reflexivity. Qed.
End Examples.
