(* ===== verification/SbxCommand.v ===== *)
(** * Commands of the sandbox shell: [crates/rtrt-cli/src/sandbox.rs]

    OpenCode runs every shell command as [rtrt -c <command>].  A command that is exactly
    the strict Claude line runs without a shell, as the words it is made of; any other is
    searched for hidden ways to name [claude] before a shell sees it.  The file ends with
    the theorems: the parser of the direct line computes the word splitting of a shell on
    the texts it accepts, and no word that names [claude] passes. *)
From S2P Require Import Prelude Str Utf8.
From S2P Require Import Error Json.
From S2P Require Import Fs Project.
From S2P Require Import Invoke Wire StrictClaude.

(** ** The direct Claude line *)

Definition ch_single : char := 39.
Definition ch_double : char := 34.

(** Where the parser stands: outside quotes, or in one of the two inner loops. *)
Inductive Quoting := Bare | InSingle | InDouble.

Definition is_char (c : char) (l : str) : bool := existsb (N.eqb c) l.
(** [$], a backquote, a backslash. *)
Definition expands_in_double (c : char) : bool := is_char c [36; 96; 92].
(** [; | & ( ) < >], a backquote, and a backslash; line ends are white space first. *)
Definition is_operator (c : char) : bool :=
  is_char c ($";|&()<>" ++ [96; ch_nl; ch_cr; 92]).

Definition names_claude (words : list str) (word : str) : bool :=
  match words with first :: _ => str_eqb first $"claude" | [] => false end || str_eqb word $"claude".

(** The loop over the characters: the words so far, the word being read, and whether
    there is one.  [None]: not a direct Claude line. *)
Fixpoint scan (q : Quoting) (words : list str) (word : str) (started : bool) (chars : str) :
    str + option (list str) :=
  match q, chars with
  | Bare, [] => inr (Some (if started then words ++ [word] else words))
  | InSingle, [] => bail $"unterminated single quote in direct Claude command"
  | InDouble, [] => bail $"unterminated double quote in direct Claude command"
  | InSingle, c :: rest =>
      if c =? ch_single then scan Bare words word true rest
      else scan InSingle words (word ++ [c]) true rest
  | InDouble, c :: rest =>
      if c =? ch_double then scan Bare words word true rest
      else if expands_in_double c
      then bail ($"direct Claude command rejects expansion-capable double quote: " ++ [c])
      else scan InDouble words (word ++ [c]) true rest
  | Bare, c :: rest =>
      if is_ascii_whitespace c
      then if started then scan Bare (words ++ [word]) [] false rest else scan Bare words word false rest
      else if c =? ch_single then scan InSingle words word true rest
      else if c =? ch_double then scan InDouble words word true rest
      else if is_operator c
      then if names_claude words word
           then bail ($"direct Claude command rejects shell operator or expansion: " ++ [c])
           else inr None
      else scan Bare words (word ++ [c]) true rest
  end.

(** The text starts with [claude] and white space. *)
Definition begins_claude (input : str) : bool :=
  match strip_prefix $"claude" (trim_start input) with
  | Some (c :: _) => is_whitespace c
  | _ => false
  end.

Definition direct_claude_argv (input : str) : str + option (list str) :=
  if negb (begins_claude input) then inr None
  else
    scanned ← scan Bare [] [] false input;
    match scanned with
    | Some (first :: rest) =>
        if negb (str_eqb first $"claude") then inr None
        else match parse (first :: rest) with
             | Ok _ => inr (Some (first :: rest))
             | Err error => bail (error_to_string error)
             end
    | _ => inr None
    end.

(** ** Every other command *)

(** [str::split] with a predicate. *)
Fixpoint split_where (p : char → bool) (s : str) : list str :=
  match s with
  | [] => [[]]
  | c :: s' =>
      if p c then [] :: split_where p s'
      else match split_where p s' with
           | piece :: pieces => (c :: piece) :: pieces
           | [] => [[c]]
           end
  end.

Definition dequote_shell_word (word : str) : str :=
  List.filter (λ c, negb (is_char c [ch_single; ch_double; 92])) word.

Definition ends_word (c : char) : bool := is_ascii_whitespace c || is_char c ($";|&()<>" ++ [96]).
Definition ends_segment (c : char) : bool := is_char c ($";|&" ++ [ch_nl; ch_cr] ++ $"()").
Definition command_segments (command : str) : list str := split_where ends_segment command.

(** [str::split_ascii_whitespace]. *)
Definition split_ascii_whitespace (s : str) : list str :=
  List.filter (λ w, negb (is_empty w)) (split_where is_ascii_whitespace s).

(** [Iterator::find]. *)
Fixpoint find_word (p : str → bool) (l : list str) : option str :=
  match l with [] => None | w :: l' => if p w then Some w else find_word p l' end.

Definition expansion_in_command_word (segment : str) : bool :=
  let words := split_ascii_whitespace (trim_start segment) in
  let word :=
    match words with
    | w :: rest =>
        if one_of w [ $"env"; $"command"; $"exec"; $"nohup"]
        then find_word (λ value, negb (starts_with value $"-") && negb (contains_char value 61)) rest
        else Some w
    | [] => None
    end in
  match word with
  | Some value => contains_char value 36 || contains_char value 96
  | None => false
  end.

Definition is_claude (word : str) : bool :=
  bool_decide (file_name_of (dequote_shell_word word) = Some $"claude").

Definition validate_command (command : str) : str + () :=
  if contains_char command 0 then bail $"sandbox command contains NUL"
  else if is_empty (trim command) then bail $"sandbox command is empty"
  else if existsb is_claude (split_where ends_word command)
          || existsb expansion_in_command_word (command_segments command)
  then bail $"direct Claude CLI command refused: only canonical, unwrapped strict Claude invocation is accepted"
  else inr ().

(** ** [rtrt -c <command>] *)

Inductive Dispatched := NotAWrapper | DirectClaude (argv : list str) | Sandboxed (command : str).

(** What the arguments ask for; an argument is any bytes. *)
Definition dispatch_from_env (args : list (list N)) : str + Dispatched :=
  match args with
  | _ :: flag :: rest =>
      if negb (bool_decide (flag = as_bytes $"-c")) then inr NotAWrapper
      else match rest with
           | [bytes] =>
               match from_utf8 bytes with
               | None => bail $"sandbox command is not valid UTF-8"
               | Some command =>
                   direct ← direct_claude_argv command;
                   match direct with
                   | Some argv => inr (DirectClaude argv)
                   | None => match validate_command command with
                             | inr () => inr (Sandboxed command)
                             | inl e => inl e
                             end
                   end
               end
           | _ => bail $"sandbox shell wrapper expects exactly: rtrt -c <command>"
           end
  | _ => inr NotAWrapper
  end.

(** ** Words, as a shell reads them

    The fragment of a shell's word splitting in which no character is special: a word is
    made of pieces, and white space separates words. *)

Definition literal (c : char) : bool :=
  negb (is_ascii_whitespace c || is_char c [ch_single; ch_double] || is_operator c).

(** A piece of a word as it is written, and what it stands for. *)
Inductive piece : str → str → Prop :=
| piece_bare c : literal c = true → piece [c] [c]
| piece_single s : ch_single ∉ s → piece ([ch_single] ++ s ++ [ch_single]) s
| piece_double s : Forall (λ c, c ≠ ch_double ∧ expands_in_double c = false) s →
    piece ([ch_double] ++ s ++ [ch_double]) s.

Inductive pieces : str → str → Prop :=
| pieces_nil : pieces [] []
| pieces_snoc text value t v : pieces text value → piece t v → pieces (text ++ t) (value ++ v).

(** A word has a piece at least; it may be empty, as in [''']. *)
Definition word_text (text value : str) : Prop := pieces text value ∧ text ≠ [].

Definition blank (s : str) : Prop := Forall (λ c, is_ascii_whitespace c = true) s.

(** [words text values]: the text is complete words, each followed by white space. *)
Inductive words : str → list str → Prop :=
| words_blank s : blank s → words s []
| words_snoc text values t v c s : words text values → word_text t v →
    is_ascii_whitespace c = true → blank s → words (text ++ t ++ [c] ++ s) (values ++ [v]).

Inductive shell_words : str → list str → Prop :=
| shell_closed text values : words text values → shell_words text values
| shell_open text values t v : words text values → word_text t v →
    shell_words (text ++ t) (values ++ [v]).

#[local] Arguments expands_in_double _ : simpl never.
#[local] Arguments is_operator _ : simpl never.
#[local] Arguments parse _ : simpl never.

Lemma word_text_snoc text value t v : pieces text value → piece t v → t ≠ [] →
  word_text (text ++ t) (value ++ v).
Proof. intros Hp Ht Hne. split; [by econstructor|]. by intros [_ ?]%app_eq_nil. Qed.

Lemma piece_ne t v : piece t v → t ≠ [].
Proof. by destruct 1. Qed.

(** What has been read when the parser stands somewhere. *)
Definition reading (q : Quoting) (ws : list str) (word : str) (started : bool) (read : str) : Prop :=
  match q with
  | Bare =>
      if started then ∃ t1 t2, read = t1 ++ t2 ∧ words t1 ws ∧ word_text t2 word
      else words read ws ∧ word = []
  | InSingle => ∃ t1 t2 v s, read = t1 ++ t2 ++ [ch_single] ++ s ∧ words t1 ws ∧ pieces t2 v ∧
      word = v ++ s ∧ ch_single ∉ s
  | InDouble => ∃ t1 t2 v s, read = t1 ++ t2 ++ [ch_double] ++ s ∧ words t1 ws ∧ pieces t2 v ∧
      word = v ++ s ∧ Forall (λ c, c ≠ ch_double ∧ expands_in_double c = false) s
  end.

(** The word that is being read, which may not have begun. *)
Lemma reading_pieces ws word started read : reading Bare ws word started read →
  ∃ t1 t2, read = t1 ++ t2 ∧ words t1 ws ∧ pieces t2 word.
Proof.
  cbn. destruct started; [intros (t1 & t2 & -> & Hw & [Hp _]); eauto|].
  intros [Hw ->]. exists read, []. rewrite app_nil_r. repeat constructor. done.
Qed.

Lemma reading_piece ws word started read t v : reading Bare ws word started read → piece t v →
  reading Bare ws (word ++ v) true (read ++ t).
Proof.
  intros (t1 & t2 & -> & Hw & Hp)%reading_pieces Ht. exists t1, (t2 ++ t). rewrite app_assoc.
  split; [done|]. split; [done|]. apply word_text_snoc; [done..|by eapply piece_ne].
Qed.

Lemma reading_blank ws word started read c : reading Bare ws word started read →
  is_ascii_whitespace c = true →
  if started then reading Bare (ws ++ [word]) [] false (read ++ [c])
  else reading Bare ws word false (read ++ [c]).
Proof.
  intros Hr Hc. destruct started; cbn in Hr |- *.
  - destruct Hr as (t1 & t2 & -> & Hw & Ht). split; [|done]. rewrite <-app_assoc.
    by apply (words_snoc t1 ws t2 word c []); [..|constructor].
  - destruct Hr as [Hw ->]. split; [|done].
    assert (Hb : ∀ s, blank s → blank (s ++ [c])) by (intros s Hs; apply Forall_app; repeat constructor; done).
    inversion Hw as [s Hs|text values t v c' s Ht Hv Hc' Hs]; subst.
    + constructor. by apply Hb.
    + replace ((text ++ t ++ [c'] ++ s) ++ [c]) with (text ++ t ++ [c'] ++ (s ++ [c])) by by rewrite <-!app_assoc.
      econstructor; eauto.
Qed.

Lemma is_single c : (c =? ch_single) = false → c ≠ ch_single.
Proof. intros H ->. discriminate H. Qed.
Lemma is_double c : (c =? ch_double) = false → c ≠ ch_double.
Proof. intros H ->. discriminate H. Qed.

Lemma literal_char c : is_ascii_whitespace c = false → (c =? ch_single) = false → (c =? ch_double) = false →
  is_operator c = false → literal c = true.
Proof. intros Hw Hs Hd Ho. unfold literal. rewrite Hw, Ho. cbn. by rewrite Hs, Hd. Qed.

(** A step of the parser, and what it has read. *)
Lemma scan_reads chars : ∀ q ws word started read out, reading q ws word started read →
  scan q ws word started chars = inr (Some out) → shell_words (read ++ chars) out.
Proof.
  induction chars as [|c rest IH]; intros q ws word started read out Hr; cbn.
  { rewrite app_nil_r. destruct q; [|done..]. intros [= <-]. destruct started; cbn in Hr.
    - destruct Hr as (t1 & t2 & -> & Hw & Ht). by apply shell_open.
    - destruct Hr as [Hw _]. by apply shell_closed. }
  replace (read ++ c :: rest) with ((read ++ [c]) ++ rest) by by rewrite <-app_assoc.
  destruct q; cbn.
  - destruct (is_ascii_whitespace c) eqn:Ew.
    { pose proof (reading_blank _ _ _ _ _ Hr Ew) as Hb. destruct started; by apply IH. }
    destruct (c =? ch_single) eqn:Es.
    { apply N.eqb_eq in Es as ->. apply IH. apply reading_pieces in Hr as (t1 & t2 & -> & Hw & Hp).
      exists t1, t2, word, []. rewrite !app_nil_r, <-app_assoc. repeat split; done || by apply not_elem_of_nil. }
    destruct (c =? ch_double) eqn:Ed.
    { apply N.eqb_eq in Ed as ->. apply IH. apply reading_pieces in Hr as (t1 & t2 & -> & Hw & Hp).
      exists t1, t2, word, []. rewrite !app_nil_r, <-app_assoc. repeat split; done || by constructor. }
    destruct (is_operator c) eqn:Eo; [by destruct (names_claude _ _)|].
    apply IH. apply (reading_piece _ _ _ _ [c] [c] Hr). constructor. by apply literal_char.
  - destruct Hr as (t1 & t2 & v & s & -> & Hw & Hp & -> & Hs). destruct (c =? ch_single) eqn:Es; apply IH.
    + apply N.eqb_eq in Es as ->. exists t1, (t2 ++ [ch_single] ++ s ++ [ch_single]).
      split; [by rewrite <-!app_assoc|]. split; [done|]. apply word_text_snoc; [done|by constructor|done].
    + exists t1, t2, v, (s ++ [c]). rewrite <-!app_assoc. do 4 (split; [done|]).
      apply not_elem_of_app. split; [done|]. intros <-%list_elem_of_singleton. discriminate Es.
  - destruct Hr as (t1 & t2 & v & s & -> & Hw & Hp & -> & Hs). destruct (c =? ch_double) eqn:Es.
    + apply IH. apply N.eqb_eq in Es as ->. exists t1, (t2 ++ [ch_double] ++ s ++ [ch_double]).
      split; [by rewrite <-!app_assoc|]. split; [done|].
      apply word_text_snoc; [done|by apply piece_double|done].
    + destruct (expands_in_double c) eqn:Ex; [done|]. apply IH.
      exists t1, t2, v, (s ++ [c]). rewrite <-!app_assoc. do 4 (split; [done|]).
      apply Forall_app. split; [done|]. repeat constructor; [by apply is_double|done].
Qed.

(** ** The parser finds every reading *)

Lemma scan_single s : ∀ ws word started rest, ch_single ∉ s →
  scan InSingle ws word started (s ++ ch_single :: rest) = scan Bare ws (word ++ s) true rest.
Proof.
  induction s as [|c s IH]; intros ws word started rest Hs; [by rewrite app_nil_r|].
  apply not_elem_of_cons in Hs as [Hc Hs]. cbn [app scan].
  destruct (c =? ch_single) eqn:E; [by apply N.eqb_eq in E as ->|].
  rewrite IH by done. by rewrite <-app_assoc.
Qed.

Lemma scan_double s : ∀ ws word started rest, Forall (λ c, c ≠ ch_double ∧ expands_in_double c = false) s →
  scan InDouble ws word started (s ++ ch_double :: rest) = scan Bare ws (word ++ s) true rest.
Proof.
  induction s as [|c s IH]; intros ws word started rest Hs; [by rewrite app_nil_r|].
  apply Forall_cons in Hs as [[Hc Hx] Hs]. cbn [app scan].
  destruct (c =? ch_double) eqn:E; [by apply N.eqb_eq in E as ->|].
  rewrite Hx, IH by done. by rewrite <-app_assoc.
Qed.

Lemma scan_piece t v ws word started rest : piece t v →
  scan Bare ws word started (t ++ rest) = scan Bare ws (word ++ v) true rest.
Proof.
  intros [c Hc|s Hs|s Hs].
  - unfold literal in Hc. cbn in Hc. apply negb_true_iff in Hc.
    apply orb_false_iff in Hc as [[Hw Hq]%orb_false_iff Ho].
    apply orb_false_iff in Hq as [Hs [Hd _]%orb_false_iff]. cbn [app scan]. by rewrite Hw, Hs, Hd, Ho.
  - rewrite <-!app_assoc. apply (scan_single s ws word true). done.
  - rewrite <-!app_assoc. apply (scan_double s ws word true). done.
Qed.

Lemma scan_pieces t v : pieces t v → ∀ ws word started rest, t ≠ [] →
  scan Bare ws word started (t ++ rest) = scan Bare ws (word ++ v) true rest.
Proof.
  induction 1 as [|text value t v Hp IH Ht]; intros ws word started rest Hne; [done|].
  rewrite <-app_assoc. destruct (decide (text = [])) as [->|Htext].
  - assert (value = []) as ->.
    { inversion Hp as [|? ? ? ? ? Hx E]; [done|]. apply piece_ne in Hx. by apply app_eq_nil in E as [_ ?]. }
    cbn [app]. by apply scan_piece.
  - rewrite IH by done. rewrite (scan_piece t v) by done. by rewrite app_assoc.
Qed.

Lemma scan_blank s : ∀ ws rest, blank s → scan Bare ws [] false (s ++ rest) = scan Bare ws [] false rest.
Proof.
  induction s as [|c s IH]; intros ws rest Hs; [done|]. apply Forall_cons in Hs as [Hc Hs].
  cbn [app scan]. by rewrite Hc, IH.
Qed.

Lemma scan_words t vs : words t vs → ∀ ws rest,
  scan Bare ws [] false (t ++ rest) = scan Bare (ws ++ vs) [] false rest.
Proof.
  induction 1 as [s Hs|text values t v c s Hw IH [Hp Hne] Hc Hs]; intros ws rest.
  - by rewrite scan_blank, app_nil_r.
  - rewrite <-app_assoc, IH, <-!app_assoc, (scan_pieces t v) by done. cbn [app scan]. rewrite Hc.
    by rewrite scan_blank, <-app_assoc by done.
Qed.

(** The loop computes exactly the words of a text. *)
Lemma scan_exact input out : scan Bare [] [] false input = inr (Some out) ↔ shell_words input out.
Proof.
  split.
  - apply (scan_reads input Bare [] [] false []). by repeat constructor.
  - intros [text values Hw|text values t v Hw [Hp Hne]].
    + pose proof (scan_words _ _ Hw [] []) as E. by rewrite app_nil_r in E.
    + rewrite (scan_words _ _ Hw). pose proof (scan_pieces _ _ Hp values [] false [] Hne) as E.
      by rewrite app_nil_r in E.
Qed.

(** ** The accepted argument vectors *)

Definition strict_argv (a0 model mode prompt : str) : list str :=
  [a0; $"-p"; $"--model"; model; $"--output-format"; $"json"; $"--permission-mode"; mode;
   $"--permission-prompt-tool"; CLAUDE_PERMISSION_PROMPT_TOOL; prompt].

Definition strict_parts (model mode prompt : str) : Prop :=
  model ∈ [ $"opus"; $"sonnet"] ∧ mode ∈ [ $"plan"; $"acceptEdits"] ∧ prompt ≠ [] ∧ 0 ∉ prompt.

Lemma one_of_elem s l : one_of s l = true ↔ s ∈ l.
Proof.
  unfold one_of. rewrite existsb_exists, list_elem_of_In. split.
  - by intros (x & Hx & ->%str_eqb_eq).
  - intros Hs. exists s. by rewrite str_eqb_eq.
Qed.

Lemma contains_char_elem s c : contains_char s c = true ↔ c ∈ s.
Proof.
  unfold contains_char. rewrite existsb_exists, list_elem_of_In. split.
  - by intros (x & Hx & ->%N.eqb_eq).
  - intros Hc. exists c. by rewrite N.eqb_refl.
Qed.

Lemma parse_ok argv inv : parse argv = Ok inv ↔
  ∃ a0, argv = strict_argv a0 (sc_model inv) (sc_permission_mode inv) (sc_prompt inv) ∧
    file_name_of a0 = Some $"claude" ∧
    strict_parts (sc_model inv) (sc_permission_mode inv) (sc_prompt inv).
Proof.
  split.
  - unfold parse. intros H. repeat (destruct argv as [|? argv]; [done|]). destruct argv; [|done].
    destruct (_ || _) eqn:E in H; [done|]. injection H as <-. cbn [sc_model sc_permission_mode sc_prompt].
    repeat match goal with H : _ || _ = false |- _ => apply orb_false_iff in H as [? ?] end.
    repeat match goal with
      | H : negb _ = false |- _ => apply negb_false_iff in H
      | H : str_eqb _ _ = true |- _ => apply str_eqb_eq in H; subst
      | H : bool_decide _ = true |- _ => apply bool_decide_eq_true in H
      | H : one_of _ _ = true |- _ => apply one_of_elem in H
      end.
    eexists. split; [done|]. split; [done|]. split; [done|]. split; [done|]. split.
    + by intros ->.
    + intros Hz%contains_char_elem. congruence.
  - intros (a0 & -> & Hf & Hm & Hp & Hne & Hz). destruct inv as [model mode prompt]. cbn [sc_model sc_permission_mode sc_prompt] in *.
    unfold parse, strict_argv. rewrite Hf, (proj2 (one_of_elem _ _) Hm), (proj2 (one_of_elem _ _) Hp).
    rewrite !(proj2 (str_eqb_eq _ _) eq_refl), bool_decide_eq_true_2 by done. cbn [negb orb].
    destruct prompt; [done|]. destruct (contains_char _ 0) eqn:E; [by apply contains_char_elem in E|done].
Qed.

Lemma direct_claude_iff input argv :
  direct_claude_argv input = inr (Some argv) ↔
  begins_claude input = true ∧ shell_words input argv ∧
  ∃ model mode prompt, argv = strict_argv $"claude" model mode prompt ∧ strict_parts model mode prompt.
Proof.
  unfold direct_claude_argv. destruct (begins_claude input); cbn [negb]; [|by split; [|intros [? _]]].
  rewrite <-scan_exact. destruct (scan _ _ _ _ input) as [e|[ws|]] eqn:E; cbn.
  1,3: by split; [|intros (_ & ? & _)].
  split.
  - destruct ws as [|first rest]; [done|]. destruct (str_eqb first $"claude") eqn:Ef; [|done]. cbn [negb].
    destruct (parse (first :: rest)) as [inv|] eqn:Ep; [|done]. intros [= <-].
    apply str_eqb_eq in Ef as ->. apply parse_ok in Ep as (a0 & Ha & _ & Hp).
    injection Ha as <- ->. split; [done|]. split; [done|]. eexists _, _, _. by split.
  - intros (_ & [= ->] & model & mode & prompt & -> & Hp).
    assert (Ep : parse (strict_argv $"claude" model mode prompt) = Ok (mkStrict model mode prompt)).
    { apply parse_ok. by exists $"claude". }
    unfold strict_argv in Ep |- *. by rewrite Ep.
Qed.


(** ** What reaches a shell *)

Definition delimited (p : char → bool) (pre w post : str) : Prop :=
  (pre = [] ∨ ∃ pre' c, pre = pre' ++ [c] ∧ p c = true) ∧
  (post = [] ∨ ∃ c post', post = c :: post' ∧ p c = true) ∧
  Forall (λ c, p c = false) w.

Lemma split_where_cons p s : ∃ w ws, split_where p s = w :: ws.
Proof. destruct s as [|c s]; cbn; [eauto|]. destruct (p c); [eauto|]. destruct (split_where p s); eauto. Qed.

Lemma split_where_app p a c b : p c = true →
  split_where p (a ++ c :: b) = split_where p a ++ split_where p b.
Proof.
  intros Hc. induction a as [|x a IH]; cbn; [by rewrite Hc|]. rewrite IH. destruct (p x); [done|].
  by destruct (split_where_cons p a) as (w & ws & ->).
Qed.

Lemma split_where_one p w : Forall (λ c, p c = false) w → split_where p w = [w].
Proof. induction 1 as [|c w Hc _ IH]; cbn; [done|]. by rewrite Hc, IH. Qed.

(** A delimited piece is one of the pieces. *)
Lemma split_where_delimited p pre w post : delimited p pre w post → w ∈ split_where p (pre ++ w ++ post).
Proof.
  intros (Hpre & Hpost & Hw).
  assert (Hin : w ∈ split_where p (w ++ post)).
  { destruct Hpost as [->|(c & post' & -> & Hc)].
    - rewrite app_nil_r, split_where_one by done. by left.
    - rewrite split_where_app, split_where_one by done. by left. }
  destruct Hpre as [->|(pre' & c & -> & Hc)]; [done|].
  rewrite <-app_assoc. cbn [app]. rewrite split_where_app by done. apply elem_of_app. by right.
Qed.

Lemma drop_while_nonempty p s : drop_while p s ≠ [] → ∃ c, c ∈ s ∧ p c = false.
Proof.
  induction s as [|c s IH]; cbn; [done|]. destruct (p c) eqn:E.
  - intros (x & Hx & Hp)%IH. exists x. split; [by right|done].
  - intros _. exists c. split; [by left|done].
Qed.

Lemma trimmed_nonempty s : is_empty (trim s) = false → ∃ c, c ∈ s ∧ is_whitespace c = false.
Proof.
  unfold trim, trim_end, trim_end_matches, trim_start, trim_start_matches. intros H.
  apply drop_while_nonempty. intros E. by rewrite E in H.
Qed.

Lemma from_utf8_bytes bytes s : from_utf8 bytes = Some s → as_bytes s = bytes.
Proof. unfold from_utf8. destruct (bool_decide _) eqn:E; [|done]. intros [= <-]. by apply bool_decide_eq_true in E. Qed.

Lemma validate_command_spec command : validate_command command = inr () →
  (0 ∉ command) ∧ (∃ c, c ∈ command ∧ is_whitespace c = false) ∧
  ∀ pre w post, command = pre ++ w ++ post → delimited ends_word pre w post →
    file_name_of (dequote_shell_word w) ≠ Some $"claude".
Proof.
  unfold validate_command. destruct (contains_char command 0) eqn:E0; [done|].
  destruct (is_empty (trim command)) eqn:Et; [done|].
  destruct (existsb is_claude _ || _) eqn:Ec; [done|]. apply orb_false_iff in Ec as [Ec _]. intros _.
  split; [by rewrite <-contains_char_elem, E0|]. split; [by apply trimmed_nonempty|].
  intros pre w post -> Hd%split_where_delimited Hn.
  assert (existsb is_claude (split_where ends_word (pre ++ w ++ post)) = true); [|congruence].
  apply existsb_exists. exists w. split; [by apply list_elem_of_In|]. by apply bool_decide_eq_true.
Qed.


(** ** Examples *)

Module Examples.
Definition line : str :=
  $"claude -p --model sonnet --output-format json --permission-mode acceptEdits --permission-prompt-tool mcp__rtrt__permission_prompt 'fix x; do not expand $(id)'".
Definition its_argv : list str :=
  strict_argv $"claude" $"sonnet" $"acceptEdits" $"fix x; do not expand $(id)".

Definition refused {A : Type} (r : str + A) : bool := match r with inl _ => true | inr _ => false end.

Example line_is_direct : direct_claude_argv line = inr (Some its_argv).
Proof. vm_compute. reflexivity. Qed.
Example piped_refused : direct_claude_argv (line ++ $" | sh") =
  bail $"direct Claude command rejects shell operator or expansion: |".
Proof. vm_compute. reflexivity. Qed.
Example wrapped_refused : refused (validate_command ($"env " ++ line)) = true.
Proof. vm_compute. reflexivity. Qed.
Example quoted_refused : refused (validate_command $"true && cl''au\de -p x") = true.
Proof. vm_compute. reflexivity. Qed.
Example ordinary_accepted : validate_command $"cargo test --all" = inr ().
Proof. vm_compute. reflexivity. Qed.


(** A line end is white space before it is an operator: the two lines of this text, which
    a shell would run as two commands, are one argument vector. *)
Example newline_joins :
  direct_claude_argv ($"claude -p --model opus" ++ [ch_nl] ++
    $"--output-format json --permission-mode plan --permission-prompt-tool mcp__rtrt__permission_prompt x") =
  inr (Some (strict_argv $"claude" $"opus" $"plan" $"x")).
Proof. vm_compute. reflexivity. Qed.

(** An expansion in the place of a command is not seen behind an assignment, behind a
    reserved word, or behind an option of [env] that takes a value. *)
Example expansion_after_assignment : validate_command $"c=cl; d=aude; x=1 $c$d -p task" = inr ().
Proof. vm_compute. reflexivity. Qed.
Example expansion_after_keyword : validate_command $"c=cl; d=aude; if true; then $c$d -p task; fi" = inr ().
Proof. vm_compute. reflexivity. Qed.
Example expansion_after_option : validate_command $"c=cl; d=aude; env -u FOO $c$d -p task" = inr ().
Proof. vm_compute. reflexivity. Qed.
End Examples.
