(* ===== verification/Jsonc.v ===== *)
(** * Editing JSON with comments: [crates/rtrt-cli/src/setup.rs]

    OpenCode's configuration may hold comments and trailing commas.  It is read by turning
    it into JSON, and changed in its text: a member is replaced, inserted or removed where
    it stands.  Texts are lists of bytes, and positions are byte offsets.  The loops of a
    scanner are a Fixpoint on what is left of the text, whose mode says which loop it is
    in.  [JsoncSafety] shows that an edit is local. *)
From S2P Require Import Prelude Str Utf8.
From S2P Require Import Json.
From S2P Require Import Wire.

Definition QUOTE : N := 34.
Definition STAR : N := 42.
Definition COMMA : N := 44.
Definition SLASH : N := 47.
Definition COLON : N := 58.
Definition OPEN_BRACKET : N := 91.
Definition BACKSLASH : N := 92.
Definition CLOSE_BRACKET : N := 93.
Definition OPEN_BRACE : N := 123.
Definition CLOSE_BRACE : N := 125.

(** [bytes.get(i) == Some(&b)]. *)
Definition byte_at (raw : list N) (i : nat) (b : N) : bool :=
  match raw !! i with Some x => x =? b | None => false end.
(** The same at the head of what is left. *)
Definition next_is (rest : list N) (b : N) : bool := byte_at rest 0 b.

(** ** From JSONC to JSON *)

Inductive Scan := Code | InString | Escaped | LineComment | BlockComment.

(** The first loop: comments become spaces. *)
Fixpoint blank_comments (mode : Scan) (bytes : list N) : str + list N :=
  match bytes with
  | [] => match mode with
          | BlockComment => bail $"unterminated JSONC block comment"
          | _ => inr []
          end
  | byte :: rest =>
      match mode with
      | Escaped => out ← blank_comments InString rest; inr (byte :: out)
      | InString =>
          out ← blank_comments (if byte =? BACKSLASH then Escaped
                                else if byte =? QUOTE then Code else InString) rest;
          inr (byte :: out)
      | Code =>
          if byte =? QUOTE then out ← blank_comments InString rest; inr (byte :: out)
          else
            match rest with
            | second :: rest' =>
                if (byte =? SLASH) && (second =? SLASH)
                then out ← blank_comments LineComment rest'; inr (32 :: 32 :: out)
                else if (byte =? SLASH) && (second =? STAR)
                then out ← blank_comments BlockComment rest'; inr (32 :: 32 :: out)
                else out ← blank_comments Code rest; inr (byte :: out)
            | [] => inr [byte]
            end
      | LineComment =>
          if byte =? ch_nl then out ← blank_comments Code rest; inr (byte :: out)
          else out ← blank_comments LineComment rest; inr (32 :: out)
      | BlockComment =>
          match rest with
          | second :: rest' =>
              if (byte =? STAR) && (second =? SLASH)
              then out ← blank_comments Code rest'; inr (32 :: 32 :: out)
              else out ← blank_comments BlockComment rest;
                   inr ((if byte =? ch_nl then ch_nl else 32) :: out)
          | [] => bail $"unterminated JSONC block comment"
          end
      end
  end.

(** The first byte that is not white space closes a container. *)
Fixpoint closes_next (bytes : list N) : bool :=
  match bytes with
  | byte :: rest => if is_ascii_whitespace byte then closes_next rest
                    else (byte =? CLOSE_BRACE) || (byte =? CLOSE_BRACKET)
  | [] => false
  end.

(** The second loop: commas before the end of a container go. *)
Fixpoint drop_trailing_commas (mode : Scan) (bytes : list N) : list N :=
  match bytes with
  | [] => []
  | byte :: rest =>
      match mode with
      | Escaped => byte :: drop_trailing_commas InString rest
      | InString => byte :: drop_trailing_commas (if byte =? BACKSLASH then Escaped
                                                  else if byte =? QUOTE then Code else InString) rest
      | _ =>
          if (byte =? COMMA) && closes_next rest then drop_trailing_commas Code rest
          else byte :: drop_trailing_commas (if byte =? QUOTE then InString else Code) rest
      end
  end.

Definition is_utf8 (bytes : list N) : bool := bool_decide (as_bytes (from_utf8_lossy bytes) = bytes).

Definition jsonc_to_json (raw : list N) : str + list N :=
  without_comments ← blank_comments Code raw;
  let out := drop_trailing_commas Code without_comments in
  if is_utf8 out then inr out else bail $"JSONC conversion produced invalid UTF-8".

(** ** Scanners *)

(** [find_matching_brace] from [i], with [bytes] left: braces outside strings and comments
    are counted. *)
Fixpoint matching_brace (mode : Scan) (depth : Z) (i : nat) (bytes : list N) : option nat :=
  match bytes with
  | [] => None
  | b :: rest =>
      match mode with
      | Escaped => matching_brace InString depth (S i) rest
      | InString => matching_brace (if b =? BACKSLASH then Escaped else if b =? QUOTE then Code else InString)
                      depth (S i) rest
      | LineComment => matching_brace (if b =? ch_nl then Code else LineComment) depth (S i) rest
      | BlockComment =>
          match rest with
          | second :: rest' => if (b =? STAR) && (second =? SLASH) then matching_brace Code depth (S (S i)) rest'
                               else matching_brace BlockComment depth (S i) rest
          | [] => None
          end
      | Code =>
          if b =? QUOTE then matching_brace InString depth (S i) rest
          else if (b =? SLASH) && next_is rest SLASH then matching_brace LineComment depth (S i) rest
          else if (b =? SLASH) && next_is rest STAR
          then match rest with
               | _ :: rest' => matching_brace BlockComment depth (S (S i)) rest'
               | [] => None
               end
          else if b =? OPEN_BRACE then matching_brace Code (depth + 1)%Z (S i) rest
          else if b =? CLOSE_BRACE
          then if (depth - 1 =? 0)%Z then Some i else matching_brace Code (depth - 1)%Z (S i) rest
          else matching_brace Code depth (S i) rest
      end
  end.

Definition find_matching_brace (text : list N) (open_idx : nat) : option nat :=
  if byte_at text open_idx OPEN_BRACE then matching_brace Code 0 open_idx (drop open_idx text) else None.

(** The same with both kinds of brackets, which must nest: [stack] is what has to close. *)
Fixpoint matching_container (mode : Scan) (stack : list N) (i : nat) (bytes : list N) : option nat :=
  match bytes with
  | [] => None
  | b :: rest =>
      match mode with
      | Escaped => matching_container InString stack (S i) rest
      | InString => matching_container (if b =? BACKSLASH then Escaped else if b =? QUOTE then Code else InString)
                      stack (S i) rest
      | LineComment => matching_container (if b =? ch_nl then Code else LineComment) stack (S i) rest
      | BlockComment =>
          match rest with
          | second :: rest' => if (b =? STAR) && (second =? SLASH) then matching_container Code stack (S (S i)) rest'
                               else matching_container BlockComment stack (S i) rest
          | [] => None
          end
      | Code =>
          if b =? QUOTE then matching_container InString stack (S i) rest
          else if (b =? SLASH) && next_is rest SLASH then matching_container LineComment stack (S i) rest
          else if (b =? SLASH) && next_is rest STAR
          then match rest with
               | _ :: rest' => matching_container BlockComment stack (S (S i)) rest'
               | [] => None
               end
          else if b =? OPEN_BRACE then matching_container Code (CLOSE_BRACE :: stack) (S i) rest
          else if b =? OPEN_BRACKET then matching_container Code (CLOSE_BRACKET :: stack) (S i) rest
          else if ((b =? CLOSE_BRACE) || (b =? CLOSE_BRACKET)) && next_is stack b
          then match tail stack with
               | [] => Some i
               | stack' => matching_container Code stack' (S i) rest
               end
          else matching_container Code stack (S i) rest
      end
  end.

Definition find_matching_jsonc_container (raw : list N) (open_index : nat) (open close : N) : option nat :=
  if byte_at raw open_index open
  then matching_container Code [close] (S open_index) (drop (S open_index) raw) else None.

(** What lies between a cursor and a limit. *)
Definition window (raw : list N) (cursor limit : nat) : list N := take (limit - cursor) (drop cursor raw).

(** White space and comments: where they end. *)
Fixpoint trivia (mode : Scan) (cursor : nat) (bytes : list N) : str + nat :=
  match bytes with
  | [] => match mode with
          | BlockComment => bail $"unterminated JSONC block comment"
          | _ => inr cursor
          end
  | b :: rest =>
      match mode with
      | LineComment => if b =? ch_nl then trivia Code (S cursor) rest else trivia LineComment (S cursor) rest
      | BlockComment =>
          match rest with
          | second :: rest' => if (b =? STAR) && (second =? SLASH) then trivia Code (S (S cursor)) rest'
                               else trivia BlockComment (S cursor) rest
          | [] => bail $"unterminated JSONC block comment"
          end
      | _ =>
          if is_ascii_whitespace b then trivia Code (S cursor) rest
          else
            match rest with
            | second :: rest' =>
                if (b =? SLASH) && (second =? SLASH) then trivia LineComment (S (S cursor)) rest'
                else if (b =? SLASH) && (second =? STAR) then trivia BlockComment (S (S cursor)) rest'
                else inr cursor
            | [] => inr cursor
            end
      end
  end.

Definition skip_jsonc_trivia (raw : list N) (cursor limit : nat) : str + nat :=
  trivia Code cursor (window raw cursor limit).

(** Where the string that started before [cursor] ends. *)
Fixpoint string_end (escaped : bool) (cursor : nat) (bytes : list N) : str + nat :=
  match bytes with
  | [] => bail $"unterminated JSONC string"
  | b :: rest =>
      if (b =? QUOTE) && negb escaped then inr (S cursor)
      else string_end ((b =? BACKSLASH) && negb escaped) (S cursor) rest
  end.

(** A number, [true], [false] or [null]: where it ends; [after] follows the window. *)
Fixpoint scalar_end (cursor : nat) (bytes after : list N) : nat :=
  match bytes with
  | [] => cursor
  | b :: rest =>
      if is_ascii_whitespace b || (b =? COMMA) || (b =? CLOSE_BRACE)
         || ((b =? SLASH) && (next_is (rest ++ after) SLASH || next_is (rest ++ after) STAR))
      then cursor
      else scalar_end (S cursor) rest after
  end.

(** ** Members of an object *)

Record JsoncObjectMember := mkMember {
  jm_key : str;
  jm_key_start : nat;
  jm_value_start : nat;
  jm_value_end : nat;
}.

(** [String::replace_range] and [insert_str]. *)
Definition slice (raw : list N) (a b : nat) : list N := take (b - a) (drop a raw).
Definition replace_range (raw : list N) (a b : nat) (by_ : list N) : list N := take a raw ++ by_ ++ drop b raw.
Definition insert_at (raw : list N) (a : nat) (by_ : list N) : list N := replace_range raw a a by_.

(** [str::rfind] of a line end, and the position after it. *)
Definition after_line_end (prefix : list N) : option nat :=
  match split_once_char ch_nl (rev prefix) with
  | Some (last_line, _) => Some (length prefix - length last_line)%nat
  | None => None
  end.

Definition unterminated_object {A : Type} : str + A := bail $"unterminated JSONC object".
Definition found {A : Type} (message : str) (o : option A) : str + A :=
  match o with Some a => inr a | None => bail message end.

Section Library.
(** [serde_json]: reading a value, and writing one. *)
Context (from_slice : list N → str + Json) (to_string : Json → list N).

Definition parse_jsonc_string (raw : list N) (start limit : nat) : str + (str * nat) :=
  if negb (byte_at raw start QUOTE) then bail $"JSONC object member key is not a string"
  else
    end_ ← string_end false (S start) (window raw (S start) limit);
    value ← from_slice (slice raw start end_);
    match as_str value with
    | Some key => inr (key, end_)
    | None => bail $"invalid type: expected a string"
    end.

Definition jsonc_value_end (raw : list N) (start limit : nat) : str + nat :=
  match raw !! start with
  | None => bail $"missing JSONC value"
  | Some b =>
      if b =? OPEN_BRACE then
        end_ ← found $"unterminated JSONC object value" (find_matching_brace raw start); inr (S end_)
      else if b =? OPEN_BRACKET then
        end_ ← found $"unterminated JSONC array value"
                 (find_matching_jsonc_container raw start OPEN_BRACKET CLOSE_BRACKET);
        inr (S end_)
      else if b =? QUOTE then parsed ← parse_jsonc_string raw start limit; inr parsed.2
      else
        let cursor := scalar_end start (window raw start limit) (drop limit raw) in
        if (cursor =? start)%nat then bail $"missing JSONC value" else inr cursor
  end.

(** One turn of the loop over the members: nothing left, a comma passed, or a member. *)
Definition next_member (raw : list N) (cursor object_close : nat) :
    str + option (nat * option JsoncObjectMember) :=
  cursor ← skip_jsonc_trivia raw cursor object_close;
  if byte_at raw cursor COMMA then inr (Some (S cursor, None))
  else if (object_close <=? cursor)%nat then inr None
  else
    parsed ← parse_jsonc_string raw cursor object_close;
    let '(key, key_end) := (parsed : str * nat) in
    colon ← skip_jsonc_trivia raw key_end object_close;
    if negb (byte_at raw colon COLON) then bail ($"JSONC object key " ++ key ++ $" is missing ':'")
    else
      value_start ← skip_jsonc_trivia raw (S colon) object_close;
      value_end ← jsonc_value_end raw value_start object_close;
      inr (Some (value_end, Some (mkMember key cursor value_start value_end))).

Fixpoint members_from (fuel : nat) (raw : list N) (cursor object_close : nat) : str + list JsoncObjectMember :=
  match fuel with
  | O => bail $"out of fuel"
  | S fuel' =>
      turn ← next_member raw cursor object_close;
      match turn with
      | None => inr []
      | Some (cursor', found) =>
          members ← members_from fuel' raw cursor' object_close;
          inr (match found with Some member => member :: members | None => members end)
      end
  end.

(** Every turn moves the cursor: the length of the text is fuel enough. *)
Definition jsonc_object_members (raw : list N) (object_open : nat) : str + list JsoncObjectMember :=
  if negb (byte_at raw object_open OPEN_BRACE) then bail $"JSONC object does not start with '{'"
  else
    object_close ← found $"unterminated JSONC object" (find_matching_brace raw object_open);
    members_from (S (S (length raw))) raw (S object_open) object_close.

Definition jsonc_root_open (raw : list N) : str + nat :=
  cursor ← skip_jsonc_trivia raw 0 (length raw);
  if byte_at raw cursor OPEN_BRACE then inr cursor else bail $"OpenCode config root is not a JSON object".

(** ** Edits *)

(** Where a new member goes, and what is written there. *)
Definition insertion_point (out : list N) (object_close : nat) : nat :=
  let close_line := default object_close (after_line_end (take object_close out)) in
  if is_empty (trim (from_utf8_lossy (slice out close_line object_close))) then close_line else object_close.

Fixpoint leading_blank (bytes : list N) : list N :=
  match bytes with
  | b :: rest => if is_ascii_whitespace b then b :: leading_blank rest else []
  | [] => []
  end.

Definition base_indent (out : list N) (object_open : nat) : list N :=
  let line_start := default 0%nat (after_line_end (take object_open out)) in
  leading_blank (slice out line_start object_open).

Definition rendered_member (out : list N) (object_open insertion_at : nat) (key : str) (value : Json) : list N :=
  let indent := base_indent out object_open in
  let prefix := match last (take insertion_at out) with
                | Some c => if c =? ch_nl then [] else [ch_nl]
                | None => [ch_nl]
                end in
  prefix ++ (indent ++ [32; 32]) ++ to_string (JString key) ++ [COLON; 32] ++ to_string value ++ [ch_nl] ++ indent.

(** A comma after the last member, when there is one and it has none. *)
Definition with_comma (raw : list N) (members : list JsoncObjectMember) (object_close : nat) : str + list N :=
  match last members with
  | None => inr raw
  | Some m =>
      comma ← skip_jsonc_trivia raw (jm_value_end m) object_close;
      inr (if byte_at raw comma COMMA then raw else insert_at raw (jm_value_end m) [COMMA])
  end.

Definition jsonc_insert_object_member (raw : list N) (object_open : nat) (key : str) (value : Json) :
    str + list N :=
  members ← jsonc_object_members raw object_open;
  object_close ← found $"unterminated JSONC object" (find_matching_brace raw object_open);
  out ← with_comma raw members object_close;
  object_close ← found $"unterminated JSONC object" (find_matching_brace out object_open);
  let insertion_at := insertion_point out object_close in
  inr (insert_at out insertion_at (rendered_member out object_open insertion_at key value)).

(** [members.iter().position(..)]: the member with the key, and the one before it. *)
Fixpoint find_jsonc_member (key : str) (previous : option JsoncObjectMember) (members : list JsoncObjectMember) :
    option (option JsoncObjectMember * JsoncObjectMember) :=
  match members with
  | [] => None
  | m :: rest => if str_eqb (jm_key m) key then Some (previous, m) else find_jsonc_member key (Some m) rest
  end.

(** [path[index + 1..].iter().rev().fold(value, |value, key| json!({key: value}))]. *)
Definition nest (path : list str) (value : Json) : Json :=
  foldr (λ key value, object [(key, value)]) value path.

(** The loop over the path: [passed] is what of it was followed. *)
Fixpoint set_from (raw : list N) (object_open : nat) (passed path : list str) (value : Json) : str + list N :=
  match path with
  | [] => inr raw
  | key :: rest =>
      members ← jsonc_object_members raw object_open;
      match find_jsonc_member key None members with
      | Some (_, member) =>
          match rest with
          | [] => inr (replace_range raw (jm_value_start member) (jm_value_end member) (to_string value))
          | _ =>
              if negb (byte_at raw (jm_value_start member) OPEN_BRACE)
              then bail ($"OpenCode config " ++ Str.join $"." (passed ++ [key]) ++ $" is not an object")
              else set_from raw (jm_value_start member) (passed ++ [key]) rest value
          end
      | None => jsonc_insert_object_member raw object_open key (nest rest value)
      end
  end.

Definition jsonc_set_path (raw : list N) (path : list str) (value : Json) : str + list N :=
  object_open ← jsonc_root_open raw; set_from raw object_open [] path value.

(** Taking a member out, with a comma beside it. *)
Definition remove_at (raw : list N) (object_open : nat) (previous : option JsoncObjectMember)
    (member : JsoncObjectMember) : str + list N :=
  object_close ← found $"unterminated JSONC object" (find_matching_brace raw object_open);
  after ← skip_jsonc_trivia raw (jm_value_end member) object_close;
  if byte_at raw after COMMA then inr (replace_range raw (jm_key_start member) (S after) [])
  else
    let out := replace_range raw (jm_key_start member) (jm_value_end member) [] in
    match previous with
    | Some p =>
        comma ← skip_jsonc_trivia raw (jm_value_end p) (jm_key_start member);
        inr (if byte_at raw comma COMMA then replace_range out comma (S comma) [] else out)
    | None => inr out
    end.

Fixpoint remove_from (raw : list N) (object_open : nat) (path : list str) : str + list N :=
  match path with
  | [] => inr raw
  | key :: rest =>
      members ← jsonc_object_members raw object_open;
      match find_jsonc_member key None members with
      | None => inr raw
      | Some (previous, member) =>
          match rest with
          | [] => remove_at raw object_open previous member
          | _ => if negb (byte_at raw (jm_value_start member) OPEN_BRACE) then inr raw
                 else remove_from raw (jm_value_start member) rest
          end
      end
  end.

Definition jsonc_remove_path (raw : list N) (path : list str) : str + list N :=
  object_open ← jsonc_root_open raw; remove_from raw object_open path.

(** ** Differences *)

Record JsoncChange := mkChange {
  jc_path : list str;
  jc_value : option Json;
}.

(** [BTreeSet<&str>] of the keys of both objects, in its order. *)
Definition keys_of_both (before after : list (str * Json)) : list str :=
  dedup str_cmp (sort_by str_cmp (map fst before ++ map fst after)).

Fixpoint collect_jsonc_changes (before after : Json) (path : list str) : list JsoncChange :=
  if json_eqb before after then []
  else
    match before, after with
    | JObject before_members, JObject after_members =>
        let inside := (fix go (members : list (str * Json)) : list (str * (Json → list str → list JsoncChange)) :=
          match members with
          | [] => []
          | (key, value) :: rest => (key, collect_jsonc_changes value) :: go rest
          end) before_members in
        concat (map (λ key,
          match find_member key inside, find_member key after_members with
          | Some changes, Some value => changes value (path ++ [key])
          | None, Some value => [mkChange (path ++ [key]) (Some value)]
          | Some _, None => [mkChange (path ++ [key]) None]
          | None, None => []
          end) (keys_of_both before_members after_members))
    | _, _ => [mkChange path (Some after)]
    end.

Definition apply_change (rendered : list N) (change : JsoncChange) : str + list N :=
  if match jc_path change with [] => true | _ => false end then bail $"OpenCode config root replacement is not supported"
  else match jc_value change with
       | Some value => jsonc_set_path rendered (jc_path change) value
       | None => jsonc_remove_path rendered (jc_path change)
       end.

Fixpoint apply_changes (rendered : list N) (changes : list JsoncChange) : str + list N :=
  match changes with
  | [] => inr rendered
  | change :: rest => rendered ← apply_change rendered change; apply_changes rendered rest
  end.

Definition apply_jsonc_object_diff (raw : list N) (before after : Json) : str + list N :=
  apply_changes raw (collect_jsonc_changes before after []).

(** Strict JSON first, and otherwise without its comments and trailing commas. *)
Definition parse_json_or_jsonc (path raw : list N) : str + Json :=
  match from_slice raw with
  | inr root => inr root
  | inl strict_error =>
      match jsonc_to_json raw with
      | inl _ => bail (path ++ $": invalid JSONC")
      | inr normalized =>
          match from_slice normalized with
          | inr root => inr root
          | inl _ => bail (path ++ $": invalid JSON/JSONC (strict JSON error: " ++ strict_error ++ $")")
          end
      end
  end.
End Library.
