(* ===== verification/OcConfig.v ===== *)
(** * OpenCode's configuration file: [crates/rtrt-cli/src/setup.rs]

    Reading it, and replacing it: the edit of [Jsonc] is read back and must be the value
    that was meant, the file is backed up once, and the new text takes the old one's place
    in one step. *)
From stdpp Require Import gmap sets.
From S2P Require Import Prelude Str Utf8.
From S2P Require Import Json Jsonc.
From S2P Require Import Fs Files Project.
From S2P Require Import Wire.

(** [?] on a call, and [with_context]. *)
Definition io {A : Type} (m : Act IoError A) : Act str A := map_err io_message m.
Definition context {A : Type} (message : str) (m : Act IoError A) : Act str A := map_err (λ _, message) m.

Definition path_metadata (path : Path) : Act str (option Node) :=
  found ← try_ (symlink_metadata path);
  match found with
  | inr metadata => mret (Some metadata)
  | inl error => if bool_decide (io_kind error = NotFound) then mret None
                 else throw ($"inspect " ++ display path)
  end.

Definition reject_symlink (path : Path) (label : str) : Act str () :=
  found ← path_metadata path;
  if match found with Some metadata => is_symlink metadata | None => false end
  then throw (display path ++ $": refusing symlink " ++ label ++ $" destination")
  else mret ().

(** [path.with_extension("<extension>.bak")]. *)
Definition backup_path (path : Path) : Path :=
  match file_name path with
  | None => path
  | Some name =>
      let '(stem, ext) := split_extension name in
      let e := default [] ext in
      removelast path ++ [stem ++ $"." ++ (if is_empty e then [] else e ++ $".") ++ $"bak"]
  end.

Section Config.
Context (euid umask : N).
(** [serde_json]. *)
Context (from_slice : list N → str + Json) (to_string : Json → list N).

Definition read_opencode_config (path : Path) : Act str (list N * Json) :=
  found ← path_metadata path;
  match found with
  | None => mret (as_bytes $"{}", object [])
  | Some metadata =>
      if is_symlink metadata || negb (is_file metadata)
      then throw (display path ++ $": OpenCode config is not a real file")
      else
        text ← context ($"read " ++ display path) (read_to_string path);
        root ← of_sum (parse_json_or_jsonc from_slice (display path) (as_bytes text));
        mret (as_bytes text, root)
  end.

(** [fs::copy]: the contents, then the mode.  [wrote] says how much of a failing write
    reached the disk. *)
Definition copy (wrote : nat) (from to : Path) : Act IoError () :=
  contents ← read from;
  meta ← metadata from;
  write_file euid umask wrote to contents ≫= λ _, set_permissions to (node_mode meta).

Definition backup_if_needed (wrote : nat) (path : Path) : Act str () :=
  found ← path_metadata path;
  match found with
  | None => throw (display path ++ $": backup source is missing")
  | Some source =>
      if is_symlink source || negb (is_file source)
      then throw (display path ++ $": refusing symlink or non-file backup source")
      else
        let bak := backup_path path in
        there ← path_metadata bak;
        match there with
        | Some target => if is_symlink target || negb (is_file target)
                         then throw (display bak ++ $": refusing symlink or non-file backup destination")
                         else mret ()
        | None =>
            context ($"backup " ++ display bak) (copy wrote path bak) ≫= λ _,
            context ($"chmod 0600 " ++ display bak) (set_permissions bak PRIVATE_FILE_MODE)
        end
  end.

(** [NamedTempFile]: a new file of the name the library made up, removed unless it takes
    the target's place. *)
Definition write_private_file_atomic_same_dir (wrote : nat) (unique : str) (path : Path) (contents : list N) :
    Act str () :=
  reject_symlink path $"atomic file" ≫= λ _,
  match parent path with
  | None => throw (display path ++ $": file has no parent")
  | Some parent =>
      context ($"mkdir " ++ display parent) (create_dir_all euid umask parent) ≫= λ _,
      let temporary := parent ++ [unique] in
      file ← context ($"create temporary file in " ++ display parent)
               (create_new euid umask temporary PRIVATE_FILE_MODE);
      result ← try_ (
        context ($"chmod 0600 temporary file in " ++ display parent) (fset_permissions file PRIVATE_FILE_MODE) ≫= λ _,
        context ($"write temporary file in " ++ display parent) (write_all wrote file contents) ≫= λ _,
        context ($"sync temporary file in " ++ display parent) sync_data ≫= λ _,
        context ($"atomically replace " ++ display path) (rename temporary path));
      match result with
      | inl e => removed ← try_ (remove_file temporary); throw e
      | inr _ => context ($"sync directory " ++ display parent) sync_data
      end
  end.

Definition write_opencode_config (wrote wrote_backup : nat) (unique : str) (path : Path) (raw : list N)
    (before root : Json) : Act str () :=
  (match parent path with
   | Some parent => context ($"mkdir " ++ display parent) (create_dir_all euid umask parent)
   | None => mret ()
   end) ≫= λ _,
  there ← exists_ path;
  (if (there : bool) then backup_if_needed wrote_backup path else mret ()) ≫= λ _,
  match apply_jsonc_object_diff from_slice to_string raw before root with
  | inl _ => throw ($"surgically merge JSONC in " ++ display path)
  | inr rendered =>
      reparsed ← of_sum (parse_json_or_jsonc from_slice (display path) rendered);
      if negb (json_eqb reparsed root)
      then throw (display path ++ $": surgical JSONC merge did not produce expected config; refusing to write")
      else write_private_file_atomic_same_dir wrote unique path rendered
  end.
End Config.
