(* ===== verification/Sandbox.v ===== *)
(** * The sandbox: [crates/rtrt-cli/src/sandbox.rs]

    A command OpenCode runs is executed by bubblewrap in a mount namespace that shows the
    checkout and little else.  Here: finding the backend and the checkout, judging the
    executables that are trusted on the way, the registry that says which checkouts are
    authorized, and the argument vector of the backend.  [SandboxSafety] has the theorems. *)
From stdpp Require Import gmap sets.
From S2P Require Import Prelude Str Utf8.
From S2P Require Import Json.
From S2P Require Import Fs Files Project.
From S2P Require Import Error StrictClaude.
From S2P Require Import Wire SbxCommand OcConfig.

Definition REGISTRY_REL : str := $".config/opencode/.rtrt-sandbox-state.json".
Definition STATE_OWNER : str := $"rtrt-opencode-linux-sandbox".
Definition STATE_VERSION : Z := 2.
Definition MAX_PROJECTS : nat := 128.
Definition MAX_REGISTRY_BYTES : N := 262144.
Definition MAX_CONFIG_BYTES : N := 1048576.
Definition PRIVATE_SCRATCH : Path := [ $"rtrt-tmp"].
Definition PRIVATE_CARGO_HOME : Path := [ $"rtrt-tmp"; $"cargo-home"].
Definition PRIVATE_RUSTUP_HOME : Path := [ $"rtrt-tmp"; $"rustup-home"].

Record ProjectBoundary := mkBoundary {
  pb_root : Path;
  pb_cwd : Path;
  pb_git_writable : list Path;
}.

(** [mode & 0o111 != 0], [mode & 0o022 != 0] and [mode & 0o077 != 0]. *)
Definition executable_by_any (n : Node) : bool := negb (N.land (node_mode n) 73 =? 0).
Definition writable_by_others (n : Node) : bool := negb (N.land (node_mode n) 18 =? 0).
Definition open_to_others (n : Node) : bool := negb (N.land (node_mode n) 63 =? 0).
Definition node_len (n : Node) : N :=
  match node_kind n with File contents => N.of_nat (length contents) | _ => 0 end.
(** Neither the user's nor root's. *)
Definition foreign (uid : N) (n : Node) : bool := negb (node_uid n =? uid) && negb (node_uid n =? 0).

(** ** The backend *)

Fixpoint locate_backend_in (candidates : list Path) : Act str Path :=
  match candidates with
  | [] => throw $"strict OpenCode sandbox unavailable: install a root-owned, executable, non-group/world-writable bubblewrap at /usr/bin/bwrap or /bin/bwrap"
  | candidate :: rest =>
      metadata0 ← try_ (symlink_metadata candidate);
      match metadata0 with
      | inl _ => locate_backend_in rest
      | inr m =>
          if is_symlink m || negb (is_file m) then locate_backend_in rest
          else
            canonical0 ← try_ (canonicalize candidate);
            match canonical0 with
            | inl _ => locate_backend_in rest
            | inr canonical =>
                canonical_metadata ← try_ (metadata canonical);
                match canonical_metadata with
                | inl _ => locate_backend_in rest
                | inr c =>
                    if (node_uid c =? 0) && is_file c && executable_by_any c && negb (writable_by_others c)
                    then mret canonical
                    else locate_backend_in rest
                end
            end
      end
  end.

Definition preflight : Act str Path := locate_backend_in [[ $"usr"; $"bin"; $"bwrap"]; [ $"bin"; $"bwrap"]].

(** ** The checkout *)

(** [Path::join] with a text. *)
Definition join (base : Path) (text : str) : Path :=
  if is_absolute text then path_components text else base ++ path_components text.

Definition one_line (path : Path) (prefix : str) : Act str str :=
  raw ← context ($"read " ++ display path) (read_to_string path);
  let line := default [] (head (lines raw)) in
  match strip_prefix prefix line with
  | Some after =>
      if (1 <? length (lines raw))%nat || contains_char line 0
      then throw ($"invalid linked-worktree metadata: " ++ display path)
      else
        let value := trim after in
        if is_empty value then throw ($"empty linked-worktree metadata: " ++ display path)
        else mret value
  | None => throw ($"invalid linked-worktree metadata: " ++ display path)
  end.

Definition linked_git_dirs (root git_file : Path) : Act str (list Path) :=
  pointer ← one_line git_file $"gitdir:";
  git_dir ← context $"canonicalize worktree Git admin directory" (canonicalize (join root pointer));
  git_dir_is_dir ← holds_at is_dir git_dir;
  if negb git_dir_is_dir then throw $"linked-worktree Git admin path is not a directory"
  else
    commondir ← one_line (git_dir ++ [ $"commondir"]) [];
    common ← context $"canonicalize common Git directory" (canonicalize (join git_dir commondir));
    common_ok ← (if bool_decide (file_name common = Some $".git") then holds_at is_dir common else mret false);
    if negb common_ok
    then throw $"linked-worktree common directory is not a validated .git directory"
    else
      worktrees ← context $"canonicalize Git worktrees directory" (canonicalize (common ++ [ $"worktrees"]));
      match strip_path worktrees git_dir with
      | None => throw $"Git admin directory escapes common worktrees directory"
      | Some relative =>
          if negb (length relative =? 1)%nat
          then throw $"Git admin directory is not a direct worktrees child"
          else
            gitdir ← one_line (git_dir ++ [ $"gitdir"]) [];
            backlink ← context $"canonicalize Git worktree backlink" (canonicalize (join git_dir gitdir));
            git_file_real ← context $"canonicalize worktree .git file" (canonicalize git_file);
            if bool_decide (backlink = git_file_real) then mret [common; git_dir]
            else throw $"linked-worktree Git backlink mismatch"
      end.

(** The walk up to the first [.git]. *)
Fixpoint boundary_among (cwd : Path) (l : list Path) : Act str ProjectBoundary :=
  match l with
  | [] => throw $"sandbox requires current directory inside a canonical Git worktree"
  | ancestor :: rest =>
      let git := ancestor ++ [ $".git"] in
      metadata ← try_ (symlink_metadata git);
      match metadata with
      | inl _ => boundary_among cwd rest
      | inr m =>
          if is_symlink m then throw ($"sandbox refuses symlinked Git metadata: " ++ display git)
          else
            root ← context $"canonicalize Git worktree" (canonicalize ancestor);
            if bool_decide (root = []) || negb (starts_with_path cwd root)
            then throw $"sandbox worktree boundary is invalid"
            else
              git_writable ← (if is_dir m then mret []
                              else if is_file m then linked_git_dirs root git
                              else throw $"sandbox Git metadata is neither a directory nor a file");
              mret (mkBoundary root cwd git_writable)
      end
  end.

Definition discover_project_from (selected : Path) : Act str ProjectBoundary :=
  cwd ← context ($"canonicalize selected project " ++ display selected) (canonicalize selected);
  cwd_is_dir ← holds_at is_dir cwd;
  if negb cwd_is_dir then throw ($"selected project is not a directory: " ++ display cwd)
  else if bool_decide (cwd = []) then throw $"sandbox refuses filesystem root as current directory"
  else boundary_among cwd (ancestors cwd).

(** ** Configuration and executables *)

(** On an absolute path. *)
Definition validate_config_file (path : Path) (expected_uid : N) : Act str () :=
  metadata ← context ($"inspect OpenCode config " ++ display path) (symlink_metadata path);
  if is_symlink metadata || negb (is_file metadata)
  then throw ($"OpenCode config is not a regular file: " ++ display path)
  else if negb (node_uid metadata =? expected_uid)
  then throw $"OpenCode config is not owned by the invoking user"
  else if writable_by_others metadata
  then throw ($"OpenCode config is group/world-writable: " ++ display path)
  else if MAX_CONFIG_BYTES <? node_len metadata
  then throw ($"OpenCode config exceeds " ++ show_N MAX_CONFIG_BYTES ++ $" bytes")
  else mret ().

(** The directories above the wrapper's executable. *)
Fixpoint shell_ancestors (executable : Path) (uid : N) (reject_git_checkout : bool) (l : list Path) :
    Act str () :=
  match l with
  | [] => mret ()
  | ancestor :: rest =>
      in_checkout ← (if reject_git_checkout
                     then git ← try_ (symlink_metadata (ancestor ++ [ $".git"]));
                          mret match git with inr _ => true | inl _ => false end
                     else mret false);
      if (in_checkout : bool)
      then throw ($"OpenCode sandbox shell executable must not be installed inside a Git checkout: " ++ display executable)
      else
        metadata ← context ($"inspect sandbox shell executable ancestor " ++ display ancestor)
                     (symlink_metadata ancestor);
        if is_symlink metadata || negb (is_dir metadata)
        then throw ($"OpenCode sandbox shell executable ancestor must be a real directory, not a symlink: " ++ display ancestor)
        else if foreign uid metadata
        then throw ($"OpenCode sandbox shell executable ancestor must be owned by the invoking user or root: " ++ display ancestor)
        else if writable_by_others metadata
        then throw ($"OpenCode sandbox shell executable ancestor must not be group/world-writable: " ++ display ancestor)
        else shell_ancestors executable uid reject_git_checkout rest
  end.

(** On an absolute path. *)
Definition validate_opencode_shell_executable_for_uid (project_root : option Path) (executable : Path)
    (uid : N) (reject_git_checkout : bool) : Act str () :=
  if match project_root with Some root => starts_with_path executable root | None => false end
  then throw ($"OpenCode sandbox shell executable must be outside the writable authorized project root: " ++ display executable)
  else
    metadata ← context ($"inspect sandbox shell executable " ++ display executable) (symlink_metadata executable);
    if is_symlink metadata || negb (is_file metadata) || negb (executable_by_any metadata)
       || writable_by_others metadata
    then throw ($"OpenCode sandbox shell executable must be a real executable file not writable by group or others: " ++ display executable)
    else if foreign uid metadata
    then throw ($"OpenCode sandbox shell executable must be owned by the invoking user or root: " ++ display executable)
    else
      match parent executable with
      | None => throw $"sandbox shell executable has no parent"
      | Some parent => shell_ancestors executable uid reject_git_checkout (ancestors parent)
      end.

Fixpoint launch_ancestors (uid : N) (l : list Path) : Act str () :=
  match l with
  | [] => mret ()
  | ancestor :: rest =>
      metadata ← context ($"inspect direct-launch executable ancestor " ++ display ancestor)
                   (symlink_metadata ancestor);
      if is_symlink metadata || negb (is_dir metadata) || writable_by_others metadata
      then throw ($"direct-launch executable ancestor must be a real directory not writable by group or others: " ++ display ancestor)
      else if foreign uid metadata
      then throw ($"direct-launch executable ancestor must be owned by the invoking user/home owner or root: " ++ display ancestor)
      else launch_ancestors uid rest
  end.

Definition validate_direct_launch_executable_for_uid (boundary : ProjectBoundary) (executable : Path)
    (uid : N) : Act str () :=
  if existsb (str_eqb dotdot) executable
  then throw ($"direct-launch executable must be an absolute normalized path: " ++ display executable)
  else if starts_with_path executable (pb_root boundary)
  then throw ($"direct-launch executable must be outside the writable checkout: " ++ display executable)
  else
    metadata ← context ($"inspect direct-launch executable " ++ display executable) (symlink_metadata executable);
    if is_symlink metadata || negb (is_file metadata) || negb (executable_by_any metadata)
       || writable_by_others metadata
    then throw ($"direct-launch executable must be a regular executable file, not a symlink, and not group/world-writable: " ++ display executable)
    else if foreign uid metadata
    then throw ($"direct-launch executable must be owned by the invoking user/home owner or root: " ++ display executable)
    else
      match parent executable with
      | None => throw $"direct-launch executable has no parent"
      | Some parent => launch_ancestors uid (ancestors parent)
      end.

(** ** The registry *)

Definition path_json (p : Path) : Json := JString (display p).

(** [PathBuf::from]: whether it is absolute, and its components. *)
Definition path_of (text : str) : bool * Path := (is_absolute text, path_components text).

Definition new_registry (executable backend config : Path) (prior_shell : option Json) : Json := object [
  ($"owner", JString STATE_OWNER);
  ($"version", JNumber STATE_VERSION);
  ($"executable", path_json executable);
  ($"backend", path_json backend);
  ($"config_path", path_json config);
  ($"owned_shell", path_json executable);
  ($"prior_shell", default JNull prior_shell);
  ($"projects", object [])].

Definition not_an_object {A : Type} : str + A := bail $"sandbox registry projects is not an object".
Definition not_authorized : str :=
  $"project is not authorized for strict sandboxing; run `rtrt setup --agent opencode --sandbox --apply` here".

(** [registry.get("projects").as_object()]. *)
Definition projects_of (registry : Json) : option (list (str * Json)) :=
  get $"projects" registry ≫= as_object.

(** The same member, replaced. *)
Definition with_projects (registry : Json) (projects : list (str * Json)) : Json :=
  match registry with
  | JObject members => JObject (insert_member $"projects" (JObject projects) members)
  | other => other
  end.

Definition project_entry (root : Path) (tool_paths : list Path) : Json :=
  object [($"root", path_json root); ($"tool_paths", JArray (map path_json tool_paths))].

Definition authorize_project_with_tool_paths (registry : Json) (boundary : ProjectBoundary)
    (tool_paths : list Path) : str + Json :=
  match projects_of registry with
  | None => not_an_object
  | Some projects =>
      let key := display (pb_root boundary) in
      if bool_decide (find_member key projects = None) && (MAX_PROJECTS <=? length projects)%nat
      then bail ($"sandbox registry project limit (" ++ show_N (N.of_nat MAX_PROJECTS) ++ $") reached")
      else inr (with_projects registry
                  (insert_member key (project_entry (pb_root boundary) tool_paths) projects))
  end.

(** The registry without the project, and whether no project is left. *)
Definition deauthorize_project (registry : Json) (boundary : ProjectBoundary) : str + (Json * bool) :=
  match projects_of registry with
  | None => not_an_object
  | Some projects =>
      let key := display (pb_root boundary) in
      match find_member key projects with
      | None => bail not_authorized
      | Some _ => let projects := remove_member key projects in
                  inr (with_projects registry projects, bool_decide (projects = []))
      end
  end.

Fixpoint tool_path_list (l : list Json) : str + list (bool * Path) :=
  match l with
  | [] => inr []
  | value :: rest =>
      match as_str value with
      | None => bail $"sandbox registry contains invalid tool path"
      | Some text => paths ← tool_path_list rest; inr (path_of text :: paths)
      end
  end.

Definition project_tool_paths (registry : Json) (boundary : ProjectBoundary) : str + list (bool * Path) :=
  let key := display (pb_root boundary) in
  match (projects ← projects_of registry; find_member key projects) with
  | None => bail not_authorized
  | Some entry =>
      if negb (bool_decide (get_str $"root" entry = Some key))
      then bail $"sandbox project registry entry has mismatched canonical root"
      else match get $"tool_paths" entry ≫= as_array with
           | None => bail $"sandbox project registry entry has no tool paths"
           | Some values => tool_path_list values
           end
  end.

(** One entry of [projects]. *)
Definition check_entry (executable : Path) (entry : str * Json) : str + () :=
  let '(root, entry) := entry in
  if negb (bool_decide (get_str $"root" entry = Some root)) || negb (is_absolute root)
  then bail $"sandbox ownership registry contains invalid project root"
  else match get $"tool_paths" entry ≫= as_array with
       | None => bail $"sandbox registry project has invalid tool paths"
       | Some tools =>
           if (8 <? length tools)%nat || existsb (λ value, bool_decide (as_str value = None)) tools
           then bail $"sandbox registry project tool paths exceed bounded policy"
           else if starts_with_path executable (path_components root)
           then bail $"sandbox executable is inside an authorized project root"
           else inr ()
       end.

Fixpoint check_entries (executable : Path) (l : list (str * Json)) : str + () :=
  match l with
  | [] => inr ()
  | entry :: rest => check_entry executable entry ≫= λ _, check_entries executable rest
  end.

(** The checks on the value, after its file was read. *)
Definition check_state (executable : Path) (state : Json) : str + () :=
  if negb (bool_decide (get_str $"owner" state = Some STATE_OWNER))
     || negb (bool_decide (get $"version" state ≫= as_u64 = Some STATE_VERSION))
     || negb (bool_decide (get_str $"executable" state = Some (display executable)))
     || bool_decide (get_str $"backend" state = None)
     || bool_decide (get_str $"config_path" state = None)
     || negb (bool_decide (get_str $"owned_shell" state = Some (display executable)))
     || bool_decide (get $"prior_shell" state = None)
     || bool_decide (projects_of state = None)
  then bail $"sandbox ownership registry does not match exact executable policy"
  else
    let projects := default [] (projects_of state) in
    if (MAX_PROJECTS <? length projects)%nat
    then bail $"sandbox ownership registry exceeds bounded project limit"
    else check_entries executable projects.

(** ** The user *)

(** [Iterator::find_map]. *)
Fixpoint find_map {A B : Type} (g : A → option B) (l : list A) : option B :=
  match l with
  | [] => None
  | a :: l' => match g a with Some b => Some b | None => find_map g l' end
  end.

Section Process.
(** The process: its user and [umask], its current directory, the executable it runs, its
    environment; and [serde_json]. *)
Context (euid umask pid : N) (current_dir : Path) (current_exe : Path) (env : list (str * str)).
Context (from_slice : list N → str + Json) (to_string to_vec_pretty : Json → list N).

Definition current_linux_uid : Act str N :=
  status ← context $"read process identity" (read_to_string [ $"proc"; $"self"; $"status"]);
  match (line ← find_map (strip_prefix $"Uid:") (lines status);
         word ← head (split_ascii_whitespace line); parse_u32 word) with
  | Some uid => mret uid
  | None => throw $"cannot determine process uid"
  end.

(** The home directory of a line of the user database. *)
Definition home_of (uid : N) (line : str) : option str :=
  let fields := split_char 58 line in
  if (7 <=? length fields)%nat && bool_decide (parse_u32 (default [] (fields !! 2%nat)) = Some uid)
  then fields !! 5%nat else None.

(** [fs::canonicalize] of a path given as a text. *)
Definition canonicalize_text (text : str) : Act IoError Path :=
  if is_empty text then throw not_found else canonicalize (join current_dir text).

Definition linux_home : Act str Path :=
  uid ← current_linux_uid;
  passwd ← context $"read local user database" (read_to_string [ $"etc"; $"passwd"]);
  match find_map (home_of uid) (lines passwd) with
  | None => throw $"cannot determine invoking user's home"
  | Some home => context $"canonicalize invoking user's home" (canonicalize_text home)
  end.

Definition registry_path : Act str Path := home ← linux_home; mret (join home REGISTRY_REL).

(** ** Toolchains *)

Fixpoint tool_paths_among (uid : N) (candidates : list Path) : Act str (list Path) :=
  match candidates with
  | [] => mret []
  | candidate :: rest =>
      metadata ← try_ (symlink_metadata candidate);
      match metadata with
      | inl _ => tool_paths_among uid rest
      | inr m =>
          if is_symlink m || negb (node_uid m =? uid) || writable_by_others m || (negb (is_dir m) && negb (is_file m))
          then tool_paths_among uid rest
          else
            path ← io (canonicalize candidate);
            paths ← tool_paths_among uid rest;
            mret (path :: paths)
      end
  end.

Definition validated_tool_paths : Act str (list Path) :=
  uid ← current_linux_uid;
  home ← linux_home;
  tool_paths_among uid (map (join home)
    [ $".cargo/bin"; $".cargo/registry"; $".cargo/git"; $".local/bin"; $".rustup/toolchains";
      $".rustup/settings.toml"]).

Definition authorize_project (registry : Json) (boundary : ProjectBoundary) : Act str Json :=
  tool_paths ← validated_tool_paths; of_sum (authorize_project_with_tool_paths registry boundary tool_paths).

(** ** The user's own executables and configuration *)

Definition validate_machine_config (path : Path) : Act str () :=
  uid ← current_linux_uid; validate_config_file path uid.

Definition validate_opencode_shell_executable (boundary : ProjectBoundary) (executable : Path) : Act str () :=
  uid ← current_linux_uid;
  validate_opencode_shell_executable_for_uid (Some (pb_root boundary)) executable uid false.

Definition validate_machine_executable (executable : Path) : Act str () :=
  uid ← current_linux_uid; validate_opencode_shell_executable_for_uid None executable uid true.

Definition validate_direct_launch_executable (boundary : ProjectBoundary) (executable : Path) : Act str () :=
  trusted_uid ← current_linux_uid; validate_direct_launch_executable_for_uid boundary executable trusted_uid.

(** ** The registry's file *)

Definition load_registry_at (path : Path) (expected_uid : N) (executable : Path) : Act str Json :=
  metadata ← context ($"sandbox ownership registry missing: " ++ display path ++
                      $"; run `rtrt setup --agent opencode --sandbox --apply` in this worktree")
               (symlink_metadata path);
  if is_symlink metadata || negb (is_file metadata)
  then throw ($"sandbox ownership registry is not a regular file: " ++ display path)
  else if MAX_REGISTRY_BYTES <? node_len metadata
  then throw ($"sandbox ownership registry exceeds " ++ show_N MAX_REGISTRY_BYTES ++ $" bytes")
  else if open_to_others metadata
  then throw ($"sandbox ownership registry is not private (expected mode 0600): " ++ display path)
  else if negb (node_uid metadata =? expected_uid)
  then throw $"sandbox ownership registry is not owned by the invoking user"
  else
    bytes ← io (read path);
    state ← of_sum (from_slice bytes);
    of_sum (check_state executable state) ≫= λ _,
    validate_opencode_shell_executable_for_uid None executable expected_uid false ≫= λ _,
    mret state.

Definition load_registry : Act str Json :=
  path ← registry_path;
  uid ← current_linux_uid;
  executable ← io (canonicalize current_exe);
  load_registry_at path uid executable.

Definition load_registry_from (path executable : Path) : Act str Json :=
  uid ← current_linux_uid; load_registry_at path uid executable.

(** [nonce] is the time the temporary file is named after, [wrote] how much of a failing
    write reached the disk. *)
Definition write_registry_at (nonce : N) (wrote : nat) (path : Path) (registry : Json) : Act str () :=
  match parent path with
  | None => throw $"sandbox registry has no parent"
  | Some dir =>
      found ← try_ (symlink_metadata dir);
      if match found with inr metadata => is_symlink metadata || negb (is_dir metadata) | inl _ => false end
      then throw ($"sandbox registry directory is not a real directory: " ++ display dir)
      else
        context ($"create " ++ display dir) (create_dir_all euid umask dir) ≫= λ _,
        let bytes := to_vec_pretty registry in
        if MAX_REGISTRY_BYTES <? N.of_nat (length bytes)
        then throw ($"sandbox ownership registry exceeds " ++ show_N MAX_REGISTRY_BYTES ++ $" bytes")
        else
          let temporary := dir ++ [ $".rtrt-sandbox-state.tmp-" ++ show_N pid ++ $"-" ++ show_N nonce] in
          result ← try_ (
            file ← context ($"create " ++ display temporary) (create_new euid umask temporary PRIVATE_FILE_MODE);
            io (write_all wrote file bytes) ≫= λ _,
            io sync_data ≫= λ _,
            context ($"replace " ++ display path) (rename temporary path));
          match result with
          | inr _ => mret ()
          | inl e => removed ← try_ (remove_file temporary); throw e
          end
  end.

Definition remove_registry_at (path : Path) : Act str () :=
  context $"remove sandbox ownership registry" (remove_file path).

(** ** The registry's lock *)

Definition lock_path (registry_path : Path) : Path := removelast registry_path ++ [ $".rtrt-sandbox-state.lock"].

(** [sleeps]: what other processes do to the disk during each sleep that fits in
    [LOCK_WAIT]; [stale]: whether the lock is older than [LOCK_STALE] when it is over;
    [stamp]: what is written into the lock. *)
Fixpoint acquire_registry_lock (sleeps : list (Fs → Fs)) (stale : bool) (stamp : list N) (wrote : nat)
    (path : Path) (expected_uid : N) : Act str () :=
  made ← try_ (create_new euid umask path PRIVATE_FILE_MODE);
  match made with
  | inr file => io (write_all wrote file stamp) ≫= λ _, io sync_data ≫= λ _, io (fstat file) ≫= λ _, mret ()
  | inl error =>
      if negb (bool_decide (io_kind error = AlreadyExists))
      then throw ($"create sandbox registry lock " ++ display path)
      else
        metadata ← context ($"inspect sandbox registry lock " ++ display path) (symlink_metadata path);
        if is_symlink metadata || negb (is_file metadata) || negb (node_uid metadata =? expected_uid)
           || open_to_others metadata
        then throw ($"sandbox registry lock has unsafe type, owner, or mode: " ++ display path)
        else
          match sleeps with
          | [] => throw ($"sandbox registry lock wait timed out" ++
                         (if stale then $" (stale lock retained for safe operator inspection)" else []) ++
                         $": " ++ display path)
          | others :: rest => λ w,
              acquire_registry_lock rest stale stamp wrote path expected_uid (mkFsWorld (others (tree w)) (io_faults w))
          end
  end.

(** Dropping the lock: the file it made goes, failures aside. *)
Definition release (path : Path) : Act str () :=
  found ← try_ (symlink_metadata path);
  match found with
  | inr metadata => if negb (is_symlink metadata) && is_file metadata
                    then removed ← try_ (remove_file path); mret () else mret ()
  | inl _ => mret ()
  end.

(** An operation while the lock is held: it is dropped whatever the operation answers. *)
Definition holding {A : Type} (path : Path) (m : Act str A) : Act str A := λ w,
  let '(r, w1) := m w in (r, (release path w1).2).

Definition with_registry_lock {A : Type} (sleeps : list (Fs → Fs)) (stale : bool) (stamp : list N) (wrote : nat)
    (registry_path : Path) (operation : Act str A) : Act str A :=
  match parent registry_path with
  | None => throw $"sandbox registry has no parent"
  | Some parent =>
      found ← try_ (symlink_metadata parent);
      if match found with inr metadata => is_symlink metadata || negb (is_dir metadata) | inl _ => false end
      then throw ($"sandbox registry directory is not a real directory: " ++ display parent)
      else
        context ($"create " ++ display parent) (create_dir_all euid umask parent) ≫= λ _,
        uid ← current_linux_uid;
        metadata ← io (symlink_metadata parent);
        if foreign uid metadata || writable_by_others metadata
        then throw ($"sandbox registry directory has unsafe owner or mode: " ++ display parent)
        else
          acquire_registry_lock sleeps stale stamp wrote (lock_path registry_path) uid ≫= λ _,
          holding (lock_path registry_path) operation
  end.

(** ** Launching: the checkout is authorized once *)

Definition validate_opencode_sandbox_shell (path executable : Path) : Act str () :=
  reject_symlink path $"OpenCode config" ≫= λ _,
  config ← read_opencode_config from_slice path;
  if bool_decide (get_str $"shell" config.2 = Some (display executable)) then mret ()
  else throw (display path ++ $": OpenCode shell does not exactly match the RTRT-managed executable").

Definition absolute (paths : list Path) : list (bool * Path) := map (λ p, (true, p)) paths.

(** Whether the checkout is authorized already. *)
Definition validate_launch_state (registry : Json) (boundary : ProjectBoundary)
    (executable backend expected_config : Path) (tool_paths : list Path) : Act str bool :=
  if negb (bool_decide (get_str $"backend" registry = Some (display backend)))
     || negb (bool_decide (get_str $"config_path" registry = Some (display expected_config)))
     || negb (bool_decide (get_str $"owned_shell" registry = Some (display executable)))
  then throw $"sandbox registry config/executable/backend does not match one-time setup"
  else
    uid ← current_linux_uid;
    validate_config_file expected_config uid ≫= λ _,
    validate_opencode_sandbox_shell expected_config executable ≫= λ _,
    match project_tool_paths registry boundary with
    | inr recorded =>
        if bool_decide (recorded = absolute tool_paths) then mret true
        else throw $"sandbox toolchain paths no longer match setup-managed policy"
    | inl _ => mret false
    end.

Definition authorize_project_at (sleeps : list (Fs → Fs)) (stale : bool) (stamp : list N) (wrote_lock : nat)
    (nonce : N) (wrote : nat) (registry_path : Path) (boundary : ProjectBoundary)
    (executable backend config : Path) (tool_paths : list Path) : Act str bool :=
  uid ← current_linux_uid;
  there ← exists_ registry_path;
  already ← (if (there : bool)
             then initial ← load_registry_at registry_path uid executable;
                  validate_launch_state initial boundary executable backend config tool_paths
             else mret false);
  if (already : bool) then mret false
  else
    acquire_registry_lock sleeps stale stamp wrote_lock (lock_path registry_path) uid ≫= λ _,
    holding (lock_path registry_path) (
      current ← load_registry_at registry_path uid executable;
      known ← validate_launch_state current boundary executable backend config tool_paths;
      if (known : bool) then mret false
      else
        registry ← of_sum (authorize_project_with_tool_paths current boundary tool_paths);
        write_registry_at nonce wrote registry_path registry ≫= λ _, mret true).

(** ** The argument vector of the backend *)

(** An option of [bwrap] as the program gives it: a word, or a word and its operands. *)
Inductive Op :=
| Flag (name : str)
| CapDrop (cap : str)
| Tmpfs (p : Path)
| Proc (p : Path)
| Dev (p : Path)
| DirAt (p : Path)
| RoBind (source dest : Path)
| Bind (source dest : Path)
| SymlinkAt (target link : str)
| RemountRo (p : Path)
| Chdir (p : Path)
| Clearenv
| Setenv (key value : str).

Definition op_args (op : Op) : list str :=
  match op with
  | Flag name => [name]
  | CapDrop cap => [ $"--cap-drop"; cap]
  | Tmpfs p => [ $"--tmpfs"; display p]
  | Proc p => [ $"--proc"; display p]
  | Dev p => [ $"--dev"; display p]
  | DirAt p => [ $"--dir"; display p]
  | RoBind source dest => [ $"--ro-bind"; display source; display dest]
  | Bind source dest => [ $"--bind"; display source; display dest]
  | SymlinkAt target link => [ $"--symlink"; target; link]
  | RemountRo p => [ $"--remount-ro"; display p]
  | Chdir p => [ $"--chdir"; display p]
  | Clearenv => [ $"--clearenv"]
  | Setenv key value => [ $"--setenv"; key; value]
  end.

(** The directories above a destination, outermost first. *)
Definition add_destination_parents (path : Path) : list Op :=
  match parent path with
  | Some parent => map (λ n, DirAt (take n parent)) (seq 1 (length parent))
  | None => []
  end.

Definition bind_if_exists (source : Path) : Act str (list Op) :=
  there ← exists_ source; mret (if (there : bool) then [RoBind source source] else []).

Definition deterministic_path (tool_paths : list Path) : Act str str :=
  home ← linux_home;
  mret (Str.join $":" ([ $"/usr/local/bin"; $"/usr/bin"; $"/bin"] ++
    map display (List.filter (λ candidate, bool_decide (candidate ∈ tool_paths))
      [join home $".cargo/bin"; join home $".local/bin"]))).

Definition validated_scratch_mount (boundary : ProjectBoundary) : str + Path :=
  if existsb (λ destination, starts_with_path destination PRIVATE_SCRATCH
                             || starts_with_path PRIVATE_SCRATCH destination)
       (pb_root boundary :: pb_git_writable boundary)
  then bail ($"private sandbox scratch mount collides with an authorized project destination: " ++
             display PRIVATE_SCRATCH)
  else inr PRIVATE_SCRATCH.

Definition validated_registry_child (source : Path) (uid : N) : Act str bool :=
  found ← try_ (symlink_metadata source);
  match found with
  | inl error => if bool_decide (io_kind error = NotFound) then mret false
                 else throw ($"inspect sandbox Cargo registry child " ++ display source)
  | inr metadata =>
      if is_symlink metadata || negb (is_dir metadata) || negb (node_uid metadata =? uid)
         || writable_by_others metadata
      then throw ($"sandbox Cargo registry child is unsafe: " ++ display source)
      else mret true
  end.

Fixpoint each_op {A : Type} (g : A → Act str (list Op)) (l : list A) : Act str (list Op) :=
  match l with
  | [] => mret []
  | a :: l' => ops ← g a; rest ← each_op g l'; mret (ops ++ rest)
  end.

(** The system's own files. *)
Definition runtime_ops : Act str (list Op) :=
  usr ← bind_if_exists [ $"usr"];
  etc ← each_op (λ runtime,
      bound ← bind_if_exists runtime; mret (add_destination_parents runtime ++ bound))
    [[ $"etc"; $"ld.so.cache"]; [ $"etc"; $"nsswitch.conf"]; [ $"etc"; $"passwd"]; [ $"etc"; $"group"];
     [ $"etc"; $"hosts"]; [ $"etc"; $"localtime"]; [ $"etc"; $"ssl"; $"certs"]];
  links ← each_op (λ lt : Path * (str * str),
      let '(path, (link, target)) := lt in
      found ← try_ (symlink_metadata path);
      if match found with inr m => is_symlink m | inl _ => false end
      then mret [SymlinkAt target link] else bind_if_exists path)
    [([ $"bin"], ($"/bin", $"usr/bin")); ([ $"sbin"], ($"/sbin", $"usr/sbin"));
     ([ $"lib"], ($"/lib", $"usr/lib")); ([ $"lib64"], ($"/lib64", $"usr/lib64"))];
  mret (usr ++ [DirAt [ $"etc"]] ++ etc ++ links).

(** The checkout and its Git directories: what may be written. *)
Definition writable_ops (boundary : ProjectBoundary) : list Op :=
  add_destination_parents (pb_root boundary) ++ [Bind (pb_root boundary) (pb_root boundary)] ++
  concat (map (λ git, add_destination_parents git ++ [Bind git git]) (pb_git_writable boundary)).

(** Where a toolchain path is shown. *)
Definition tool_destination (home tool_path : Path) : Path :=
  match strip_path (join home $".cargo") tool_path with
  | Some relative =>
      if starts_with_path relative [ $"registry"] || starts_with_path relative [ $"git"]
      then PRIVATE_CARGO_HOME ++ relative
      else match strip_path (join home $".rustup") tool_path with
           | Some relative => PRIVATE_RUSTUP_HOME ++ relative
           | None => tool_path
           end
  | None => match strip_path (join home $".rustup") tool_path with
            | Some relative => PRIVATE_RUSTUP_HOME ++ relative
            | None => tool_path
            end
  end.

Definition tool_ops (home tool_path : Path) : Act str (list Op) :=
  if bool_decide (tool_path = join home $".cargo/registry") then
    children ← each_op (λ child,
        let source := tool_path ++ [child] in
        uid ← current_linux_uid;
        safe ← validated_registry_child source uid;
        mret (if (safe : bool) then [RoBind source (PRIVATE_CARGO_HOME ++ [ $"registry"; child])] else []))
      [ $"cache"; $"index"];
    mret ([DirAt (PRIVATE_CARGO_HOME ++ [ $"registry"]); DirAt (PRIVATE_CARGO_HOME ++ [ $"registry"; $"src"])]
          ++ children)
  else
    let destination := tool_destination home tool_path in
    mret (add_destination_parents destination ++ [RoBind tool_path destination]).

(** The variables that pass, of the program's own environment. *)
Definition inherited : list Op :=
  omap (λ key, Setenv key <$> find_member key env) [ $"LANG"; $"TERM"; $"COLORTERM"; $"NO_COLOR"] ++
  map (λ kv, Setenv kv.1 kv.2) (List.filter (λ kv, starts_with kv.1 $"LC_") env).

Definition namespace_ops : list Op :=
  map Flag [ $"--die-with-parent"; $"--new-session"; $"--unshare-user"; $"--disable-userns";
             $"--assert-userns-disabled"; $"--unshare-pid"; $"--unshare-ipc"; $"--unshare-uts";
             $"--unshare-net"] ++ [CapDrop $"ALL"].

(** All the options, in their order. *)
Definition sandbox_ops (boundary : ProjectBoundary) (tool_paths : list Path) : Act str (list Op) :=
  scratch ← of_sum (validated_scratch_mount boundary);
  runtime ← runtime_ops;
  home ← linux_home;
  tools ← each_op (tool_ops home) tool_paths;
  path ← deterministic_path tool_paths;
  mret (namespace_ops ++
        [Tmpfs []; Proc [ $"proc"]; Dev [ $"dev"]; Tmpfs [ $"tmp"]; Tmpfs scratch] ++
        runtime ++ writable_ops boundary ++
        [DirAt PRIVATE_CARGO_HOME; DirAt PRIVATE_RUSTUP_HOME] ++ tools ++
        [RemountRo [ $"tmp"]; RemountRo []; Chdir (pb_cwd boundary); Clearenv] ++ inherited ++
        [Setenv $"PATH" path; Setenv $"HOME" $"/nonexistent"; Setenv $"TMPDIR" (display PRIVATE_SCRATCH);
         Setenv $"CARGO_HOME" (display PRIVATE_CARGO_HOME); Setenv $"RUSTUP_HOME" (display PRIVATE_RUSTUP_HOME);
         Setenv $"CARGO_NET_OFFLINE" $"true"]).

(** What the backend is tried with: nothing but the system's programs, and one that does
    nothing. *)
Definition probe_args : Act str (list str) :=
  links ← each_op (λ lt : Path * (str * str),
      let '(path, (link, target)) := lt in
      found ← try_ (symlink_metadata path);
      if match found with inr m => is_symlink m | inl _ => false end
      then mret [SymlinkAt target link] else bind_if_exists path)
    [([ $"bin"], ($"/bin", $"usr/bin")); ([ $"lib"], ($"/lib", $"usr/lib")); ([ $"lib64"], ($"/lib64", $"usr/lib64"))];
  mret (concat (map op_args (namespace_ops ++ [RoBind [ $"usr"] [ $"usr"]] ++ links ++ [Proc [ $"proc"]; Dev [ $"dev"]]))
        ++ [ $"--"; $"/bin/true"]).

(** [status]: how a process ends, and how its exit is shown. *)
Definition preflight_usable (status : Path → list str → str + bool * str) : Act str Path :=
  backend ← preflight;
  args ← probe_args;
  match status backend args with
  | inl _ => throw ($"execute sandbox backend preflight " ++ display backend)
  | inr (true, _) => mret backend
  | inr (false, shown) =>
      throw ($"strict OpenCode sandbox backend is installed but unusable (" ++ display backend ++ $" exited " ++ shown ++
             $"); check unprivileged user-namespace policy")
  end.

(** [resolve_config]: which of OpenCode's configuration files is used. *)
Definition authorize_project_for_launch (sleeps : list (Fs → Fs)) (stale : bool) (stamp : list N) (wrote_lock : nat)
    (nonce : N) (wrote : nat) (status : Path → list str → str + bool * str) (resolve_config : Act str Path)
    (boundary : ProjectBoundary) : Act str bool :=
  executable ← context $"canonicalize installed rtrt executable" (canonicalize current_exe);
  validate_opencode_shell_executable boundary executable ≫= λ _,
  backend ← preflight_usable status;
  registry ← registry_path;
  config ← resolve_config;
  tool_paths ← validated_tool_paths;
  authorize_project_at sleeps stale stamp wrote_lock nonce wrote registry boundary executable backend config tool_paths.

(** The program and the arguments that are spawned. *)
Definition spawn_sandbox (original : str) (backend : Path) (boundary : ProjectBoundary) (tool_paths : list Path) :
    Act str (Path * list str) :=
  ops ← sandbox_ops boundary tool_paths;
  mret (backend, concat (map op_args ops) ++
                 [ $"--"; $"/bin/bash"; $"--noprofile"; $"--norc"; $"-c"; original]).

Definition discover_project : Act str ProjectBoundary := discover_project_from current_dir.

(** The checks before a command runs, and the process that runs it. *)
Definition run (original : str) : Act str (Path * list str) :=
  backend ← preflight;
  boundary ← discover_project;
  registry ← load_registry;
  if negb (bool_decide (get_str $"backend" registry = Some (display backend)))
  then throw $"sandbox backend no longer matches setup-managed ownership registry"
  else
    recorded_tool_paths ← of_sum (project_tool_paths registry boundary);
    tool_paths ← validated_tool_paths;
    if negb (bool_decide (absolute tool_paths = recorded_tool_paths))
    then throw $"sandbox toolchain paths no longer match setup-managed policy; rerun setup"
    else spawn_sandbox original backend boundary tool_paths.

(** The direct Claude line: the checkout must be authorized, and nothing is wrapped. *)
Definition run_direct_claude (json_text : Json → str) (sha256 : list N → list N) (home_dir : option Path)
    (xdg_runtime : option str) (current_user_id : IoError + option N) (argv : list str) : Act str Command :=
  boundary ← discover_project;
  registry ← load_registry;
  of_sum (project_tool_paths registry boundary) ≫= λ _,
  map_err error_to_string
    (strict_claude_command json_text euid umask sha256 (inr current_dir) home_dir xdg_runtime current_user_id
       argv (pb_root boundary) None).
End Process.
