(* ===== verification/SandboxSetup.v ===== *)
(** * Setting the sandbox up: [crates/rtrt-cli/src/setup.rs]

    Two files change together: OpenCode's configuration, whose [shell] becomes the
    wrapper, and the registry that owns it.  What is enabled is disabled again: the shell
    the user had comes back with the last project.  [SetupSafety] has the theorems. *)
From stdpp Require Import gmap sets.
From S2P Require Import Prelude Str Utf8.
From S2P Require Import Json Jsonc.
From S2P Require Import Fs Files Project.
From S2P Require Import Wire OcConfig Sandbox.

(** What differs from one run to the next in writing a file: the name of the temporary
    file, and how much of a failing write reached the disk. *)
Record Writing := mkWriting {
  wr_unique : str;
  wr_nonce : N;
  wr_wrote : nat;
  wr_wrote_backup : nat;
}.

(** [object.insert] and [object.remove] of a root that is an object. *)
Definition set_member (key : str) (value : Json) (root : Json) : Json :=
  match root with JObject members => JObject (insert_member key value members) | other => other end.
Definition unset_member (key : str) (root : Json) : Json :=
  match root with JObject members => JObject (remove_member key members) | other => other end.

Section Setup.
Context (euid umask pid : N).
Context (from_slice : list N → str + Json) (to_string to_vec_pretty : Json → list N).

Definition write_config (wr : Writing) : Path → list N → Json → Json → Act str () :=
  write_opencode_config euid umask from_slice to_string (wr_wrote wr) (wr_wrote_backup wr) (wr_unique wr).
Definition write_registry (wr : Writing) : Path → Json → Act str () :=
  write_registry_at euid umask pid to_vec_pretty (wr_nonce wr) (wr_wrote wr).

(** What follows a failure after the configuration was written: it is read again and set
    back to [before]. *)
Definition roll_back (wr : Writing) (failed : str) (error : str) (path : Path) (before : Json) : Act str () :=
  current ← read_opencode_config from_slice path;
  rolled ← try_ (write_config wr path current.1 current.2 before);
  match rolled with
  | inl rollback_error =>
      throw (failed ++ $" (" ++ error ++ $"); config rollback also failed (" ++ rollback_error ++ $")")
  | inr _ => throw error
  end.

(** The configuration, when it changes, then the registry. *)
Definition write_both (wr1 wr2 wr3 : Writing) (path registry_path : Path) (raw : list N)
    (before root registry : Json) : Act str () :=
  let config_changed := negb (json_eqb root before) in
  (if config_changed then write_config wr1 path raw before root else mret ()) ≫= λ _,
  written ← try_ (write_registry wr2 registry_path registry);
  match written with
  | inr _ => mret ()
  | inl registry_error =>
      if config_changed then roll_back wr3 $"write sandbox registry failed" registry_error path before
      else throw registry_error
  end.

(** The registry that is there, which must be this installation's, or a new one. *)
Definition owned_registry (mismatch : str) (uid : N) (path executable backend registry_path : Path)
    (root : Json) : Act str Json :=
  there ← exists_ registry_path;
  if (there : bool) then
    registry ← load_registry_at from_slice registry_path uid executable;
    if negb (bool_decide (get_str $"config_path" registry = Some (display path)))
       || negb (bool_decide (get_str $"owned_shell" registry = Some (display executable)))
       || negb (bool_decide (get_str $"backend" registry = Some (display backend)))
    then throw mismatch
    else if negb (bool_decide (get_str $"shell" root = Some (display executable)))
    then throw $"OpenCode shell was modified outside RTRT; preserving config and registry"
    else mret registry
  else mret (new_registry executable backend path (get $"shell" root)).

Definition root_object (an_object : str) (path : Path) (root : Json) : str + () :=
  match as_object root with
  | Some _ => inr ()
  | None => bail (display path ++ $": root is not " ++ an_object)
  end.

(** [tool_paths] and [uid] are what [validated_tool_paths] and [current_linux_uid] answer. *)
Definition enable_opencode_sandbox_at_registry_locked (wr1 wr2 wr3 : Writing) (uid : N)
    (tool_paths : Act str (list Path)) (boundary : ProjectBoundary) (path executable backend registry_path : Path) :
    Act str () :=
  validate_opencode_shell_executable_for_uid (Some (pb_root boundary)) executable uid false ≫= λ _,
  reject_symlink path $"OpenCode config" ≫= λ _,
  config ← read_opencode_config from_slice path;
  let '(raw, before) := (config : list N * Json) in
  of_sum (root_object $"a JSON object" path before) ≫= λ _,
  registry ← owned_registry $"existing sandbox ownership registry does not match exact config/executable/backend"
               uid path executable backend registry_path before;
  tools ← tool_paths;
  registry ← of_sum (authorize_project_with_tool_paths registry boundary tools);
  write_both wr1 wr2 wr3 path registry_path raw before
    (set_member $"shell" (path_json executable) before) registry.

(** The same without a project: the body under the lock. *)
Definition enable_opencode_machine_sandbox_locked (wr1 wr2 wr3 : Writing) (uid : N)
    (path executable backend registry_path : Path) : Act str () :=
  reject_symlink path $"OpenCode config" ≫= λ _,
  there ← exists_ path;
  (if (there : bool) then validate_config_file path uid else mret ()) ≫= λ _,
  config ← read_opencode_config from_slice path;
  let '(raw, before) := (config : list N * Json) in
  of_sum (root_object $"a JSON object" path before) ≫= λ _,
  registry ← owned_registry
               $"existing sandbox ownership registry belongs to another installation; run its recorded rtrt uninstall before reinstalling here"
               uid path executable backend registry_path before;
  write_both wr1 wr2 wr3 path registry_path raw before
    (set_member $"shell" (path_json executable) before) registry.

(** The configuration with the shell the user had. *)
Definition restored (state root : Json) : Json :=
  match get $"prior_shell" state with
  | Some JNull | None => unset_member $"shell" root
  | Some prior => set_member $"shell" prior root
  end.

(** The configuration first, then the registry goes. *)
Definition restore_and_remove (wr1 wr3 : Writing) (path registry_path : Path) (raw : list N) (state root : Json) :
    Act str () :=
  of_sum (root_object $"an object" path root) ≫= λ _,
  write_config wr1 path raw root (restored state root) ≫= λ _,
  removed ← try_ (remove_registry_at registry_path);
  match removed with
  | inr _ => mret ()
  | inl remove_error => roll_back wr3 $"remove sandbox registry failed" remove_error path root
  end.

(** The configuration a registry owns, unmodified. *)
Definition owned_config (state : Json) : Act str (Path * (list N * Json)) :=
  match get_str $"config_path" state, get_str $"owned_shell" state with
  | None, _ => throw $"sandbox registry has no config_path"
  | _, None => throw $"sandbox registry has no owned_shell"
  | Some text, Some owned =>
      let path := path_components text in
      config ← read_opencode_config from_slice path;
      if bool_decide (get_str $"shell" config.2 = Some owned) then mret (path, config)
      else throw (display path ++ $": OpenCode shell is absent or modified; preserving config and ownership registry")
  end.

Definition disable_opencode_sandbox_at_registry_locked (wr1 wr2 wr3 : Writing) (uid : N)
    (boundary : ProjectBoundary) (apply : bool) (registry_path executable : Path) : Act str () :=
  state ← load_registry_at from_slice registry_path uid executable;
  owned ← owned_config state;
  let '(path, (raw, root)) := (owned : Path * (list N * Json)) in
  of_sum (project_tool_paths state boundary) ≫= λ _,
  of_sum (match projects_of state with Some _ => inr () | None => not_an_object end) ≫= λ _,
  if negb apply then mret ()
  else
    left ← of_sum (deauthorize_project state boundary);
    let '(state', last) := (left : Json * bool) in
    if last then restore_and_remove wr1 wr3 path registry_path raw state' root
    else write_registry wr2 registry_path state'.

Definition disable_opencode_sandbox_global_locked (wr1 wr3 : Writing) (uid : N) (apply : bool)
    (registry_path executable : Path) : Act str () :=
  state ← load_registry_at from_slice registry_path uid executable;
  owned ← owned_config state;
  let '(path, (raw, root)) := (owned : Path * (list N * Json)) in
  if negb apply then mret () else restore_and_remove wr1 wr3 path registry_path raw state root.

(** ** Under the registry's lock

    The lock's waiting is as in [with_registry_lock]. *)

Section Locked.
Context (sleeps : list (Fs → Fs)) (stale : bool) (stamp : list N) (wrote : nat).

Definition enable_opencode_sandbox_at_registry (wr1 wr2 wr3 : Writing) (uid : N) (tool_paths : Act str (list Path))
    (boundary : ProjectBoundary) (path executable backend registry_path : Path) : Act str () :=
  with_registry_lock euid umask sleeps stale stamp wrote registry_path
    (enable_opencode_sandbox_at_registry_locked wr1 wr2 wr3 uid tool_paths boundary path executable backend registry_path).

Definition enable_opencode_machine_sandbox_at (wr1 wr2 wr3 : Writing) (uid : N)
    (path executable backend registry_path : Path) : Act str () :=
  with_registry_lock euid umask sleeps stale stamp wrote registry_path
    (enable_opencode_machine_sandbox_locked wr1 wr2 wr3 uid path executable backend registry_path).

(** Without a registry there is nothing to do. *)
Definition disable_opencode_sandbox_at_registry (wr1 wr2 wr3 : Writing) (uid : N) (boundary : ProjectBoundary)
    (apply : bool) (registry_path executable : Path) : Act str () :=
  there ← exists_ registry_path;
  if negb there then mret ()
  else with_registry_lock euid umask sleeps stale stamp wrote registry_path
         (disable_opencode_sandbox_at_registry_locked wr1 wr2 wr3 uid boundary apply registry_path executable).

Definition disable_opencode_sandbox_global_at (wr1 wr3 : Writing) (uid : N) (apply : bool)
    (registry_path executable : Path) : Act str () :=
  with_registry_lock euid umask sleeps stale stamp wrote registry_path
    (disable_opencode_sandbox_global_locked wr1 wr3 uid apply registry_path executable).
End Locked.
End Setup.
