(* ===== verification/SandboxSafety.v ===== *)
(** * Properties of the sandbox

    What a sandboxed command can write, which executables and checkouts are trusted, what
    the registry says after each change, and what a run has checked before it spawns. *)
From stdpp Require Import gmap sets.
From S2P Require Import Prelude Str Utf8.
From S2P Require Import Json Jsonc.
From S2P Require Import Fs Files Project.
From S2P Require Import Wire OcConfig Sandbox.

(** ** Answers of a run *)

(** Whatever is on the disk and whichever calls fail, an answer is as told. *)
Definition answers {E A : Type} (m : Act E A) (Q : A → Prop) : Prop :=
  ∀ w a w', m w = (inr a, w') → Q a.

Section Answers.
Context {E : Type}.

Lemma answers_ret {A : Type} (a : A) (Q : A → Prop) : Q a → answers (E := E) (mret a) Q.
Proof. by intros HQ w a' w' [= <- _]. Qed.
Lemma answers_throw {A : Type} (e : E) (Q : A → Prop) : answers (throw e) Q.
Proof. done. Qed.
Lemma answers_sum {A : Type} (r : E + A) (Q : A → Prop) : (∀ a, r = inr a → Q a) → answers (of_sum r) Q.
Proof. by intros HQ w a' w' [= -> _]; apply HQ. Qed.
Lemma answers_bind {A B : Type} (m : Act E A) (k : A → Act E B) (P : A → Prop) (Q : B → Prop) :
  answers m P → (∀ a, P a → answers (k a) Q) → answers (m ≫= k) Q.
Proof.
  intros Hm Hk w b w' H. unfold mbind, Act_bind in H. destruct (m w) as [[e|a] w1] eqn:Em; [done|].
  eapply Hk; [by eapply Hm|done].
Qed.
(** When the first answer says nothing. *)
Lemma answers_then {A B : Type} (m : Act E A) (k : A → Act E B) (Q : B → Prop) :
  (∀ a, answers (k a) Q) → answers (m ≫= k) Q.
Proof. intros Hk. by eapply (answers_bind _ _ (λ _, True)). Qed.
Lemma answers_if {A : Type} (b : bool) (m1 m2 : Act E A) (Q : A → Prop) :
  answers m1 Q → answers m2 Q → answers (if b then m1 else m2) Q.
Proof. by destruct b. Qed.
End Answers.

Create HintDb answers.
#[export] Hint Resolve answers_throw : answers.

Lemma answers_each {A : Type} (P : Op → Prop) (g : A → Act str (list Op)) l :
  (∀ a, a ∈ l → answers (g a) (Forall P)) → answers (each_op g l) (Forall P).
Proof.
  induction l as [|a l IH]; cbn; intros Hg; [by apply answers_ret|].
  eapply answers_bind; [apply Hg; by left|intros ops Hops].
  eapply answers_bind; [apply IH; intros b Hb; apply Hg; by right|intros rest Hrest].
  apply answers_ret, Forall_app. done.
Qed.

(** ** What may be written *)

(** The mounts the options make, the last one first, and whether each may be written. *)
Fixpoint set_read_only (p : Path) (ms : list (Path * bool)) : list (Path * bool) :=
  match ms with
  | [] => []
  | m :: ms' => if bool_decide (m.1 = p) then (p, false) :: ms' else m :: set_read_only p ms'
  end.

Definition mount (ms : list (Path * bool)) (op : Op) : list (Path * bool) :=
  match op with
  | Tmpfs p | Proc p | Dev p => (p, true) :: ms
  | RoBind _ p => (p, false) :: ms
  | Bind _ p => (p, true) :: ms
  | RemountRo p => set_read_only p ms
  | _ => ms
  end.
Definition mounts (ops : list Op) : list (Path * bool) := foldl mount [] ops.

(** The mount a path is on: the last one made at a directory above it. *)
Definition covering (ms : list (Path * bool)) (p : Path) : option (Path * bool) :=
  List.find (λ m, starts_with_path p m.1) ms.

Lemma covering_read_only d ms p m : covering (set_read_only d ms) p = Some m →
  m = (d, false) ∨ (m.1 ≠ d ∧ covering ms p = Some m).
Proof.
  induction ms as [|m0 ms IH]; cbn; [done|]. case_bool_decide as E; cbn.
  - destruct (starts_with_path p d) eqn:Ep; [intros [= <-]; by left|].
    intros Hm. right. split; [|rewrite E, Ep; done]. intros Hd.
    apply List.find_some in Hm as [_ Hm]. by rewrite Hd, Ep in Hm.
  - destruct (starts_with_path p m0.1); [|done]. intros [= <-]. by right.
Qed.

(** An option that makes nothing writable but what is listed. *)
Definition opens_only (listed : list Path) (op : Op) : Prop :=
  match op with Tmpfs p | Proc p | Dev p | Bind _ p => p ∈ listed | _ => True end.
Definition no_mount (op : Op) : Prop :=
  match op with Tmpfs _ | Proc _ | Dev _ | Bind _ _ | RoBind _ _ | RemountRo _ => False | _ => True end.

Lemma mounts_listed listed ops : Forall (opens_only listed) ops →
  ∀ m, m ∈ mounts ops → m.2 = true → m.1 ∈ listed.
Proof.
  unfold mounts. assert (Hg : ∀ ms, (∀ m, m ∈ ms → m.2 = true → m.1 ∈ listed) → Forall (opens_only listed) ops →
    ∀ m, m ∈ foldl mount ms ops → m.2 = true → m.1 ∈ listed); [|intros H; apply Hg; [by intros m Hm%not_elem_of_nil|done]].
  induction ops as [|op ops IH]; intros ms Hms Hops; [done|]. apply Forall_cons in Hops as [Hop Hops].
  cbn. apply IH; [|done]. intros m Hm Hw.
  assert (Hro : ∀ d m, m ∈ set_read_only d ms → m.2 = true → m ∈ ms).
  { clear. intros d m. induction ms as [|m0 ms IH]; cbn; [done|]. case_bool_decide.
    - intros [->|Hm]%elem_of_cons Hw; [done|by right].
    - intros [->|Hm]%elem_of_cons Hw; [by left|right; by apply IH]. }
  destruct op; cbn in Hm, Hop; try (by apply Hms); try (apply elem_of_cons in Hm as [->|Hm]; [done|by apply Hms]).
  apply Hms; [by eapply Hro|done].
Qed.

Lemma mounts_app a b : mounts (a ++ b) = foldl mount (mounts a) b.
Proof. apply foldl_app. Qed.

Lemma mounts_none ms ops : Forall no_mount ops → foldl mount ms ops = ms.
Proof. induction 1 as [|op ops Hop _ IH]; cbn; [done|]. by destruct op. Qed.

(** The variables a sandboxed command sees. *)
Definition passes (op : Op) : Prop :=
  ∃ key value, op = Setenv key value ∧
    (key ∈ [ $"LANG"; $"TERM"; $"COLORTERM"; $"NO_COLOR"; $"PATH"; $"HOME"; $"TMPDIR"; $"CARGO_HOME";
             $"RUSTUP_HOME"; $"CARGO_NET_OFFLINE"] ∨ starts_with key $"LC_" = true).

(** What a sandbox may write to: its own system mounts, the private scratch directory, the
    checkout and its Git directories. *)
Definition writable_mounts (boundary : ProjectBoundary) : list Path :=
  [] :: [ $"proc"] :: [ $"dev"] :: [ $"tmp"] :: PRIVATE_SCRATCH :: pb_root boundary :: pb_git_writable boundary.

Lemma opens_none listed l : Forall (opens_only listed) (map DirAt l).
Proof. by apply Forall_fmap, Forall_forall. Qed.
Lemma opens_parents listed p : Forall (opens_only listed) (add_destination_parents p).
Proof. unfold add_destination_parents. destruct (parent p); [|done]. by apply Forall_fmap, Forall_forall. Qed.

Section Sandboxed.
Context (current_dir : Path) (env : list (str * str)).

Lemma opens_bind_if listed p : answers (bind_if_exists p) (Forall (opens_only listed)).
Proof using. apply answers_then. intros there. apply answers_ret. destruct there; by repeat constructor. Qed.

Lemma opens_runtime listed : answers runtime_ops (Forall (opens_only listed)).
Proof using.
  eapply answers_bind; [apply (opens_bind_if listed)|intros usr Husr].
  eapply answers_bind; [apply (answers_each (opens_only listed))|intros etc Hetc].
  { intros p _. eapply answers_bind; [apply (opens_bind_if listed)|intros bound Hb].
    apply answers_ret, Forall_app. split; [apply opens_parents|done]. }
  eapply answers_bind; [apply (answers_each (opens_only listed))|intros links Hl].
  { intros [path [link target]] _. apply answers_then. intros found.
    apply answers_if; [apply answers_ret; by repeat constructor|apply opens_bind_if]. }
  apply answers_ret. rewrite !Forall_app. repeat split; done || by repeat constructor.
Qed.

Lemma opens_tool listed home p : answers (tool_ops home p) (Forall (opens_only listed)).
Proof using.
  unfold tool_ops. apply answers_if.
  - eapply answers_bind; [apply (answers_each (opens_only listed))|intros children Hc].
    { intros child _. apply answers_then. intros uid. apply answers_then. intros safe. apply answers_ret.
      destruct safe; by repeat constructor. }
    apply answers_ret. by repeat constructor.
  - apply answers_ret, Forall_app. split; [apply opens_parents|by repeat constructor].
Qed.

Lemma opens_writable boundary : Forall (opens_only (writable_mounts boundary)) (writable_ops boundary).
Proof using.
  unfold writable_ops. rewrite !Forall_app. split; [apply opens_parents|]. split.
  - apply Forall_singleton. cbn. unfold writable_mounts. set_solver.
  - apply Forall_concat, Forall_fmap, Forall_forall. intros git Hgit. cbn.
    apply Forall_app. split; [apply opens_parents|]. apply Forall_singleton. cbn. by do 6 right.
Qed.

Lemma passes_inherited : Forall passes (inherited env).
Proof using.
  unfold inherited. apply Forall_app. split.
  - apply Forall_forall. intros op (key & Hkey & Hop)%list_elem_of_omap.
    destruct (find_member key env) as [value|]; [|done]. injection Hop as <-. exists key, value. split; [done|]. left.
    do 4 (apply elem_of_cons in Hkey as [->|Hkey]; [set_solver|]). by apply not_elem_of_nil in Hkey.
  - apply Forall_fmap, Forall_forall. intros [key value] [_ Hlc]%list_elem_of_In%filter_In.
    exists key, value. split; [done|]. by right.
Qed.

(** The options of a sandbox: namespaces, mounts, what freezes them, then no mount more and
    a cleared environment. *)
Record shape (boundary : ProjectBoundary) (ops : list Op) : Prop := mkShape {
  sh_ops : ∃ pre post, ops = namespace_ops ++ pre ++ [RemountRo [ $"tmp"]; RemountRo []] ++
             [Chdir (pb_cwd boundary); Clearenv] ++ post ∧
    Forall (opens_only (writable_mounts boundary)) pre ∧ Forall passes post ∧
    Tmpfs [] ∈ pre;
}.

Lemma sandbox_shape boundary tool_paths : answers (sandbox_ops current_dir env boundary tool_paths) (shape boundary).
Proof using.
  unfold sandbox_ops. eapply answers_bind; [apply (answers_sum _ (λ scratch, scratch = PRIVATE_SCRATCH))|intros scratch ->].
  { intros scratch. unfold validated_scratch_mount. destruct (existsb _ _); [done|]. by intros [= <-]. }
  eapply answers_bind; [apply (opens_runtime (writable_mounts boundary))|intros runtime Hr].
  apply answers_then. intros home.
  eapply answers_bind; [apply (answers_each (opens_only (writable_mounts boundary))); intros p _; apply opens_tool|intros tools Ht].
  apply answers_then. intros path. apply answers_ret. split.
  exists ([Tmpfs []; Proc [ $"proc"]; Dev [ $"dev"]; Tmpfs [ $"tmp"]; Tmpfs PRIVATE_SCRATCH] ++
    runtime ++ writable_ops boundary ++ [DirAt PRIVATE_CARGO_HOME; DirAt PRIVATE_RUSTUP_HOME] ++ tools).
  eexists. split; [rewrite <-!app_assoc; reflexivity|].
  split; [|split; [|by left]].
  - rewrite !Forall_app. split; [|split; [done|split; [apply opens_writable|split; [by repeat constructor|done]]]].
    repeat constructor; cbn; set_solver.
  - apply Forall_app. split; [apply passes_inherited|].
    repeat constructor; eexists _, _; (split; [reflexivity|]); left; set_solver.
Qed.

Lemma passes_no_mount ops : Forall passes ops → Forall no_mount ops.
Proof using. intros H. eapply Forall_impl; [exact H|]. by intros op (k & v & -> & _). Qed.

(** The mount of a path that may be written is a listed one that was not frozen. *)
Lemma shape_covering boundary ops p m : shape boundary ops → covering (mounts ops) p = Some m → m.2 = true →
  m.1 ∈ [ $"proc"] :: [ $"dev"] :: PRIVATE_SCRATCH :: pb_root boundary :: pb_git_writable boundary.
Proof using.
  intros [(pre & post & -> & Hpre & Hpost & _)] Hm Hw.
  unfold mounts in Hm. rewrite !foldl_app in Hm. rewrite (mounts_none _ post) in Hm by by apply passes_no_mount.
  cbn [foldl mount] in Hm.
  apply covering_read_only in Hm as [->|[Hd1 Hm]]; [done|].
  apply covering_read_only in Hm as [->|[Hd2 Hm]]; [done|].
  apply List.find_some in Hm as [Hin _]. apply list_elem_of_In in Hin.
  pose proof (mounts_listed (writable_mounts boundary) (namespace_ops ++ pre)) as Hl.
  unfold mounts in Hl. rewrite foldl_app in Hl. apply Hl in Hin; [|by apply Forall_app; split; [repeat constructor|]|done].
  unfold writable_mounts in Hin. rewrite !elem_of_cons in Hin |- *.
  destruct Hin as [?|[?|[?|[?|Hin]]]]; [done|by left|by right; left|done|].
  right; right. unfold PRIVATE_SCRATCH in *. by rewrite !elem_of_cons in Hin.
Qed.
End Sandboxed.

(** ** The backend *)

Section Backend.
(** Which paths the process can write to that the options of [bwrap] make. *)
Context (writable : list Op → Path → Prop).

(** C3: A sandboxed command writes to the checkout and little else.  Relying on the backend
    to make its mounts in order, the last one at or above a path deciding, and to freeze
    the mount a remount names: whatever can be written lies in the checkout, in the Git
    directories of a linked worktree, in the private scratch directory, or in the
    process and device file systems.  The namespaces come before everything, and of the
    environment only what is listed reaches the command. *)
Theorem sandbox_confines current_dir env boundary tool_paths w ops w'
    (bwrap : ∀ ops p, writable ops p → ∃ m, covering (mounts ops) p = Some m ∧ m.2 = true) :
  sandbox_ops current_dir env boundary tool_paths w = (inr ops, w') →
  (∀ p, writable ops p →
    starts_with_path p (pb_root boundary) = true ∨
    (∃ git, git ∈ pb_git_writable boundary ∧ starts_with_path p git = true) ∨
    starts_with_path p PRIVATE_SCRATCH = true ∨
    starts_with_path p [ $"proc"] = true ∨ starts_with_path p [ $"dev"] = true) ∧
  namespace_ops `prefix_of` ops ∧
  ∃ before after, ops = before ++ [Clearenv] ++ after ∧ Forall passes after.
Proof.
  intros H. pose proof (sandbox_shape _ _ _ _ _ _ _ H) as S. split; [|split].
  - intros p (m & Hm & Hw)%bwrap. pose proof (shape_covering _ _ _ _ S Hm Hw) as Hin.
    apply List.find_some in Hm as [_ Hp]. rewrite !elem_of_cons in Hin.
    destruct Hin as [E|[E|[E|[E|Hgit]]]]; rewrite ?E in Hp; auto. right; left. by exists m.1.
  - destruct S as [(pre & post & -> & _)]. by eexists.
  - destruct S as [(pre & post & -> & _ & Hpost & _)].
    exists (namespace_ops ++ pre ++ [RemountRo [ $"tmp"]; RemountRo []; Chdir (pb_cwd boundary)]), post.
    split; [by rewrite <-!app_assoc|done].
Qed.
End Backend.

(** ** Trusted executables *)

Definition owned_by (uid : N) (n : Node) : Prop := node_uid n = uid ∨ node_uid n = 0.
Definition closed_to_others (n : Node) : Prop := N.land (node_mode n) 18 = 0.

(** A real file that can be executed; it and every directory above it belong to the user
    or root, and nobody else may write to them. *)
Record guarded (f : Fs) (uid : N) (q : Path) : Prop := mkGuarded {
  gd_parent : ∃ d name, q = d ++ [name] ∧ real_dir f d ∧ name ≠ dotdot;
  gd_file : ∃ n, f !! q = Some n ∧ is_file n = true ∧ N.land (node_mode n) 73 ≠ 0 ∧
    closed_to_others n ∧ owned_by uid n;
  gd_above : ∀ d, d `prefix_of` q → d ≠ q →
    ∃ n, f !! d = Some n ∧ is_dir n = true ∧ closed_to_others n ∧ owned_by uid n;
}.

Lemma context_answer {A : Type} message (m : Act IoError A) w a w' :
  context message m w = (inr a, w') → m w = (inr a, w').
Proof. apply map_err_answer. Qed.
Lemma io_result {A : Type} (m : Act IoError A) w a w' : io m w = (inr a, w') → m w = (inr a, w').
Proof. apply map_err_answer. Qed.
Lemma lstat_answer p w n w' : symlink_metadata p w = (inr n, w') → lstat (tree w) p = inr n.
Proof. apply look_answer. Qed.
Lemma not_foreign uid n : foreign uid n = false → owned_by uid n.
Proof.
  unfold foreign, owned_by. rewrite andb_false_iff, !negb_false_iff, !N.eqb_eq. done.
Qed.
Lemma not_writable n : writable_by_others n = false → closed_to_others n.
Proof. unfold writable_by_others. by rewrite negb_false_iff, N.eqb_eq. Qed.

(** What a walk up from a directory checks of each. *)
Definition checked_dir (f : Fs) (uid : N) (d : Path) : Prop :=
  ∃ n, lstat f d = inr n ∧ is_dir n = true ∧ closed_to_others n ∧ owned_by uid n.

Lemma shell_ancestors_answer executable uid reject l : ∀ w u w',
  shell_ancestors executable uid reject l w = (inr u, w') → ∀ d, d ∈ l → checked_dir (tree w) uid d.
Proof.
  induction l as [|a l IH]; cbn; intros w u w' H d Hd; [by apply not_elem_of_nil in Hd|].
  apply bind_answer in H as (inside & w1 & _ & Ht1 & H).
  2: { destruct reject; [|done]. apply read_only_bind; [read_only|done]. }
  destruct inside; [done|].
  apply bind_answer in H as (n & w2 & Hn & Ht2 & H); [|apply read_only_map_err; read_only].
  apply context_answer, lstat_answer in Hn.
  destruct (is_symlink n || negb (is_dir n)) eqn:E1; [done|]. destruct (foreign uid n) eqn:E2; [done|].
  destruct (writable_by_others n) eqn:E3; [done|]. apply orb_false_iff in E1 as [_ E1%negb_false_iff].
  rewrite <-Ht1 in *. apply elem_of_cons in Hd as [->|Hd].
  - exists n. split; [done|]. split; [done|]. split; [by apply not_writable|by apply not_foreign].
  - rewrite <-Ht2. by eapply IH.
Qed.

Lemma launch_ancestors_answer uid l : ∀ w u w',
  launch_ancestors uid l w = (inr u, w') → ∀ d, d ∈ l → checked_dir (tree w) uid d.
Proof.
  induction l as [|a l IH]; cbn; intros w u w' H d Hd; [by apply not_elem_of_nil in Hd|].
  apply bind_answer in H as (n & w2 & Hn & Ht2 & H); [|apply read_only_map_err; read_only].
  apply context_answer, lstat_answer in Hn.
  destruct (_ || writable_by_others n) eqn:E1; [done|]. destruct (foreign uid n) eqn:E2; [done|].
  apply orb_false_iff in E1 as [[_ E1%negb_false_iff]%orb_false_iff E3].
  apply elem_of_cons in Hd as [->|Hd].
  - exists n. split; [done|]. split; [done|]. split; [by apply not_writable|by apply not_foreign].
  - rewrite <-Ht2. by eapply IH.
Qed.

(** Directories checked one by one from the root are real. *)
Lemma checked_real f uid d : dotdot ∉ d → (∀ p, p `prefix_of` d → checked_dir f uid p) →
  real_dir f d ∧ ∀ p, p `prefix_of` d → ∃ n, f !! p = Some n ∧ is_dir n = true ∧ closed_to_others n ∧ owned_by uid n.
Proof.
  intros Hd Hc.
  assert (Hall : ∀ p, p `prefix_of` d → real_dir f p ∧
    ∃ n, f !! p = Some n ∧ is_dir n = true ∧ closed_to_others n ∧ owned_by uid n).
  { intros p. induction p as [|c p IH] using rev_ind; intros Hp.
    - destruct (Hc [] Hp) as (n & Hn & Hk). unfold lstat, locate in Hn. cbn in Hn.
      destruct (f !! []) as [m|] eqn:Hm; [|done]. injection Hn as ->. split; [constructor|by exists n].
    - assert (Hp' : p `prefix_of` d) by (etrans; [|exact Hp]; by eexists).
      destruct (IH Hp') as [Hr (m & Hm & Hmk & _)]. destruct (Hc _ Hp) as (n & Hn & Hk & Hrest).
      assert (Hne : c ≠ dotdot) by (intros ->; apply Hd; destruct Hp as [x ->]; set_solver).
      unfold lstat in Hn. erewrite locate_child in Hn; [|done..].
      destruct (f !! (p ++ [c])) as [n'|] eqn:Hn'; [|done]. injection Hn as ->.
      split; [by econstructor|by exists n]. }
  split; [by apply Hall|]. intros p Hp. by apply Hall.
Qed.

Lemma prefix_ancestors (p d : Path) : p `prefix_of` d → p ∈ ancestors d.
Proof.
  intros [x ->]. unfold ancestors. apply list_elem_of_fmap. exists (length p). rewrite take_app_length.
  split; [done|]. apply list_elem_of_In, in_rev. rewrite rev_involutive. apply in_seq. rewrite length_app. lia.
Qed.

(** What both validators have established. *)
Lemma guarded_of f uid q n d : parent q = Some d → dotdot ∉ q → lstat f q = inr n →
  is_file n = true → executable_by_any n = true → writable_by_others n = false → foreign uid n = false →
  (∀ p, p ∈ ancestors d → checked_dir f uid p) → guarded f uid q.
Proof.
  intros Hp Hd Hn Hf Hx Hw Ho Ha. destruct q as [|name q _] using rev_ind; [done|].
  unfold parent in Hp. destruct (q ++ [name]) eqn:Eq; [by destruct q|]. rewrite <-Eq in *. clear Eq.
  rewrite removelast_last in Hp. injection Hp as <-.
  apply not_elem_of_app in Hd as [Hdq Hdn].
  assert (Hne : name ≠ dotdot) by (intros ->; apply Hdn; by left).
  destruct (checked_real f uid q Hdq) as [Hr Habove]; [intros p Hpre; by apply Ha, prefix_ancestors|].
  destruct (Habove q) as (m & Hm & Hmk & _); [done|].
  unfold lstat in Hn. erewrite locate_child in Hn; [|done..].
  destruct (f !! (q ++ [name])) as [n'|] eqn:Hn'; [|done]. injection Hn as ->.
  split; [by exists q, name| |].
  - exists n. unfold executable_by_any in Hx. apply negb_true_iff, N.eqb_neq in Hx.
    split; [done|]. split; [done|]. split; [done|]. split; [by apply not_writable|by apply not_foreign].
  - intros p Hp Hpne. apply Habove. destruct Hp as [x Hx']. destruct x as [|c x _] using rev_ind.
    { by rewrite app_nil_r in Hx'. }
    rewrite app_assoc in Hx'. apply app_inj_tail in Hx' as [-> _]. by eexists.
Qed.

Lemma shell_executable_guarded root q uid reject w w' : dotdot ∉ q →
  validate_opencode_shell_executable_for_uid root q uid reject w = (inr (), w') →
  guarded (tree w) uid q ∧ ∀ r, root = Some r → starts_with_path q r = false.
Proof.
  intros Hd. unfold validate_opencode_shell_executable_for_uid.
  destruct (match root with Some r => starts_with_path q r | None => false end) eqn:Er; [done|]. intros H.
  apply bind_answer in H as (n & w1 & Hn & Ht & H); [|apply read_only_map_err; read_only].
  apply context_answer, lstat_answer in Hn. destruct (_ || _) eqn:E in H; [done|].
  destruct (foreign uid n) eqn:Ef; [done|].
  apply orb_false_iff in E as [[[_ E1%negb_false_iff]%orb_false_iff E2%negb_false_iff]%orb_false_iff E3].
  destruct (parent q) as [d|] eqn:Ep; [|done]. split; [|by intros r ->].
  eapply guarded_of; eauto. intros p Hp. rewrite <-Ht. by eapply shell_ancestors_answer.
Qed.

Lemma launch_executable_guarded boundary q uid w w' :
  validate_direct_launch_executable_for_uid boundary q uid w = (inr (), w') →
  guarded (tree w) uid q ∧ starts_with_path q (pb_root boundary) = false.
Proof.
  unfold validate_direct_launch_executable_for_uid. destruct (existsb (str_eqb dotdot) q) eqn:Ed; [done|].
  destruct (starts_with_path q _) eqn:Er; [done|]. intros H. split; [|done].
  apply bind_answer in H as (n & w1 & Hn & Ht & H); [|apply read_only_map_err; read_only].
  apply context_answer, lstat_answer in Hn. destruct (_ || _) eqn:E in H; [done|].
  destruct (foreign uid n) eqn:Ef; [done|].
  apply orb_false_iff in E as [[[_ E1%negb_false_iff]%orb_false_iff E2%negb_false_iff]%orb_false_iff E3].
  destruct (parent q) as [d|] eqn:Ep; [|done].
  eapply guarded_of; eauto.
  - intros Hin%list_elem_of_In. assert (existsb (str_eqb dotdot) q = true); [|congruence].
    apply existsb_exists. exists dotdot. by rewrite str_eqb_eq.
  - intros p Hp. rewrite <-Ht. by eapply launch_ancestors_answer.
Qed.

Lemma guarded_real f uid q : guarded f uid q → resolve f q = inr q.
Proof.
  intros [(d & name & -> & Hd & Hne) (n & Hn & Hf & _) _].
  by eapply resolve_child; [..|apply file_not_symlink].
Qed.

(** C16: An executable the sandbox trusts cannot be replaced by another user.  Both
    validators, the launcher's and that of the shell wrapper on a path without [..],
    accept a path only when it is its own real path, a file outside the checkout that can
    be executed, and when it and every directory up to the root belong to the user or
    root and are closed to everyone else. *)
Theorem executables_guarded boundary q uid w :
  (∀ w', validate_direct_launch_executable_for_uid boundary q uid w = (inr (), w') →
    guarded (tree w) uid q ∧ resolve (tree w) q = inr q ∧ starts_with_path q (pb_root boundary) = false) ∧
  (∀ root reject w', dotdot ∉ q →
    validate_opencode_shell_executable_for_uid root q uid reject w = (inr (), w') →
    guarded (tree w) uid q ∧ resolve (tree w) q = inr q ∧ ∀ r, root = Some r → starts_with_path q r = false).
Proof.
  split.
  - intros w' [Hg Ho]%launch_executable_guarded. split; [done|]. split; [by eapply guarded_real|done].
  - intros root reject w' Hd [Hg Ho]%shell_executable_guarded; [|done].
    split; [done|]. split; [by eapply guarded_real|done].
Qed.

(** ** The checkout *)

Lemma read_only_line p prefix : read_only (one_line p prefix).
Proof.
  unfold one_line. apply read_only_bind; [apply read_only_map_err; unfold read_to_string; read_only|].
  intros raw. destruct (strip_prefix _ _); [|done]. destruct (_ || _); [done|]. by destruct (is_empty _).
Qed.

Lemma read_only_linked root git : read_only (linked_git_dirs root git).
Proof.
  unfold linked_git_dirs, context. apply read_only_bind; [apply read_only_line|intros pointer].
  apply read_only_bind; [read_only|intros git_dir]. apply read_only_bind; [read_only|intros b]. destruct b; [|done].
  apply read_only_bind; [apply read_only_line|intros cd]. apply read_only_bind; [read_only|intros common].
  apply read_only_bind; [destruct (bool_decide _); [read_only|done]|intros b]. destruct b; [|done].
  apply read_only_bind; [read_only|intros wt]. destruct (strip_path wt git_dir); [|done].
  destruct (negb _); [done|]. apply read_only_bind; [apply read_only_line|intros gd].
  apply read_only_bind; [read_only|intros bl]. apply read_only_bind; [read_only|intros gf].
  by destruct (bool_decide _).
Qed.

(** A one-line file of a tree says a text. *)
Definition says (f : Fs) (p : Path) (prefix text : str) : Prop :=
  ∃ w w', tree w = f ∧ one_line p prefix w = (inr text, w').

Lemma holds_answer {E : Type} t p w b w' : holds_at (E := E) t p w = (inr b, w') → b = true →
  ∃ q n, resolve (tree w) p = inr q ∧ tree w !! q = Some n ∧ t n = true.
Proof.
  unfold holds_at, try_, mbind, Act_bind. destruct (metadata p w) as [r w1] eqn:Em.
  intros [= <- _] Hb. destruct r as [|n]; [done|]. apply look_answer in Em. unfold stat in Em.
  destruct (resolve (tree w) p) as [|q]; [done|]. destruct (tree w !! q) as [m|] eqn:Hq; [|done].
  injection Em as ->. by exists q, n.
Qed.

Lemma file_name_snoc (q : Path) name : file_name q = Some name → ∃ d, q = d ++ [name].
Proof.
  unfold file_name. destruct q as [|c q _] using rev_ind; [done|]. rewrite last_snoc.
  destruct (str_eqb c dotdot); [done|]. intros [= <-]. by exists q.
Qed.

Lemma resolve_twice f p q r : resolve f p = inr q → resolve f q = inr r → r = q.
Proof. intros Hq Hr. rewrite (resolve_idem f q) in Hr by by eapply resolve_real. congruence. Qed.

Record linked (f : Fs) (root git_file common git_dir : Path) : Prop := mkLinked {
  lk_pointer : ∃ text, says f git_file $"gitdir:" text ∧ resolve f (join root text) = inr git_dir;
  lk_common : ∃ text, says f (git_dir ++ [ $"commondir"]) [] text ∧ resolve f (join git_dir text) = inr common;
  lk_named : ∃ repository, common = repository ++ [ $".git"] ∧ real_dir f common;
  lk_worktree : ∃ worktrees name, resolve f (common ++ [ $"worktrees"]) = inr worktrees ∧ git_dir = worktrees ++ [name] ∧
    real_dir f git_dir;
  lk_back : ∃ text q, says f (git_dir ++ [ $"gitdir"]) [] text ∧ resolve f (join git_dir text) = inr q ∧
    resolve f git_file = inr q;
}.

Lemma real_is_dir f p q n : resolve f p = inr q → f !! q = Some n → is_dir n = true → real_dir f q.
Proof. intros Hr. apply real_dir_real. by eapply resolve_real. Qed.

Lemma linked_answer root git w l w' : linked_git_dirs root git w = (inr l, w') →
  ∃ common git_dir, l = [common; git_dir] ∧ linked (tree w) root git common git_dir.
Proof.
  unfold linked_git_dirs. intros H.
  apply bind_answer in H as (pointer & w1 & Hp & Ht1 & H); [|apply read_only_line].
  apply bind_answer in H as (git_dir & w2 & Hg & Ht2 & H); [|apply read_only_map_err; read_only].
  apply bind_answer in H as (b & w3 & Hb & Ht3 & H); [|read_only].
  destruct b; [|done]. cbn [negb] in H.
  apply bind_answer in H as (commondir & w4 & Hcd & Ht4 & H); [|apply read_only_line].
  apply bind_answer in H as (common & w5 & Hc & Ht5 & H); [|apply read_only_map_err; read_only].
  apply bind_answer in H as (b & w6 & Hcb & Ht6 & H); [|destruct (bool_decide _); [read_only|done]].
  destruct b; [|done]. cbn [negb] in H.
  apply bind_answer in H as (worktrees & w7 & Hw & Ht7 & H); [|apply read_only_map_err; read_only].
  destruct (strip_path worktrees git_dir) as [relative|] eqn:Es; [|done].
  destruct (length relative =? 1)%nat eqn:El; [|done]. cbn [negb] in H.
  apply bind_answer in H as (gitdir & w8 & Hgd & Ht8 & H); [|apply read_only_line].
  apply bind_answer in H as (backlink & w9 & Hbl & Ht9 & H); [|apply read_only_map_err; read_only].
  apply bind_answer in H as (real & w10 & Hre & Ht10 & H); [|apply read_only_map_err; read_only].
  case_bool_decide as Eb; [|done]. injection H as <- _. subst real.
  apply context_answer, look_answer in Hg, Hc, Hw, Hbl, Hre.
  destruct (bool_decide (file_name common = Some $".git")) eqn:En; [|done]. apply bool_decide_eq_true in En.
  apply holds_answer in Hb as (q & n & Hq & Hqn & Hd); [|done].
  apply holds_answer in Hcb as (q' & n' & Hq' & Hqn' & Hd'); [|done].
  same_tree.
  exists common, git_dir. split; [done|].
  pose proof (resolve_twice _ _ _ _ Hg Hq) as ->. pose proof (resolve_twice _ _ _ _ Hc Hq') as ->.
  apply file_name_snoc in En as [repository Er]. apply strip_path_Some in Es.
  destruct relative as [|name [|]]; [done| |done]. split.
  - exists pointer. split; [by exists w, w1|done].
  - exists commondir. split; [by exists w3, w4|done].
  - exists repository. split; [done|]. by eapply real_is_dir.
  - exists worktrees, name. split; [done|]. split; [done|]. by eapply real_is_dir.
  - exists gitdir, backlink. split; [by exists w7, w8|done].
Qed.

(** The checkout that was discovered. *)
Record discovered (f : Fs) (selected : Path) (b : ProjectBoundary) : Prop := mkDiscovered {
  di_cwd : resolve f selected = inr (pb_cwd b) ∧ real_dir f (pb_cwd b);
  di_root : pb_root b ≠ [] ∧ pb_root b `prefix_of` pb_cwd b ∧ real_dir f (pb_root b);
  di_git : ∃ n, lstat f (pb_root b ++ [ $".git"]) = inr n ∧ is_symlink n = false ∧
    ((is_dir n = true ∧ pb_git_writable b = []) ∨
     (is_file n = true ∧ ∃ common git_dir, pb_git_writable b = [common; git_dir] ∧
        linked f (pb_root b) (pb_root b ++ [ $".git"]) common git_dir));
}.

Lemma starts_with_prefix p : ∀ root, starts_with_path p root = true ↔ root `prefix_of` p.
Proof.
  induction p as [|c p IH]; intros [|r root]; cbn.
  1,3: by split; [intros _; apply prefix_nil|].
  - split; [done|]. by intros [? [=]].
  - rewrite andb_true_iff, str_eqb_eq, IH. split.
    + intros [-> ?]. by apply prefix_cons.
    + intros Hp. split; [by eapply prefix_cons_inv_1|by eapply prefix_cons_inv_2].
Qed.

Lemma read_only_boundary cwd l : read_only (boundary_among cwd l).
Proof.
  induction l as [|a l IH]; cbn; [done|]. apply read_only_bind; [read_only|intros [e|m]]; [done|].
  destruct (is_symlink m); [done|]. apply read_only_bind; [apply read_only_map_err; read_only|intros root].
  destruct (_ || _); [done|]. apply read_only_bind; [|done].
  destruct (is_dir m); [done|]. destruct (is_file m); [apply read_only_linked|done].
Qed.

Lemma try_result {E F A : Type} (m : Act E A) w r w' : try_ (F := F) m w = (inr r, w') →
  ∃ w1, m w = (r, w1) ∧ w' = w1.
Proof. unfold try_. destruct (m w) as [r' w1]. intros [= <- <-]. by exists w1. Qed.

Lemma boundary_answer cwd l : ∀ w b w', real_dir (tree w) cwd → (∀ a, a ∈ l → a `prefix_of` cwd) →
  boundary_among cwd l w = (inr b, w') →
  pb_cwd b = cwd ∧ pb_root b ≠ [] ∧ pb_root b `prefix_of` cwd ∧ real_dir (tree w) (pb_root b) ∧
  ∃ n, lstat (tree w) (pb_root b ++ [ $".git"]) = inr n ∧ is_symlink n = false ∧
    ((is_dir n = true ∧ pb_git_writable b = []) ∨
     (is_file n = true ∧ ∃ common git_dir, pb_git_writable b = [common; git_dir] ∧
        linked (tree w) (pb_root b) (pb_root b ++ [ $".git"]) common git_dir)).
Proof.
  induction l as [|a l IH]; cbn; intros w b w' Hcwd Hl H; [done|].
  apply bind_answer in H as (found & w1 & Hf & Ht1 & H); [|read_only].
  apply try_result in Hf as (w2 & Hf & ->). destruct found as [e|m].
  { rewrite <-Ht1 in *. eapply IH; [done| |done]. intros a' Ha. apply Hl. by right. }
  apply lstat_answer in Hf. destruct (is_symlink m) eqn:Ek; [done|].
  apply bind_answer in H as (root & w3 & Hr & Ht3 & H); [|apply read_only_map_err; read_only].
  apply context_answer, look_answer in Hr. destruct (_ || _) eqn:E in H; [done|].
  apply orb_false_iff in E as [E1%bool_decide_eq_false E2%negb_false_iff].
  assert (Ha : a `prefix_of` cwd) by (apply Hl; by left).
  assert (Hreal : real_dir (tree w) a) by (destruct Ha as [x ->]; by eapply real_dir_app).
  same_tree. rewrite resolve_dir in Hr by done. injection Hr as <-.
  apply bind_answer in H as (git & w4 & Hg & Ht4 & H).
  2: { destruct (is_dir m); [done|]. destruct (is_file m); [apply read_only_linked|done]. }
  injection H as <- _. cbn. do 4 (split; [done|]). exists m. split; [done|]. split; [done|].
  destruct (is_dir m) eqn:Ed; [injection Hg as <- _; by left|].
  destruct (is_file m) eqn:Efile; [|done]. right. split; [done|].
  apply linked_answer in Hg as (common & git_dir & -> & Hlk). rewrite Ht3 in Hlk. by exists common, git_dir.
Qed.

Lemma read_only_discover selected : read_only (discover_project_from selected).
Proof.
  unfold discover_project_from. apply read_only_bind; [apply read_only_map_err; read_only|intros c].
  apply read_only_bind; [read_only|intros d]. destruct (negb d); [done|].
  destruct (bool_decide _); [done|apply read_only_boundary].
Qed.

Lemma discovered_answer selected w b w' : discover_project_from selected w = (inr b, w') →
  tree w' = tree w ∧ discovered (tree w) selected b.
Proof.
  unfold discover_project_from. intros H.
  assert (Ht : tree w' = tree w).
  { pose proof (read_only_discover selected w) as Hro. unfold discover_project_from in Hro. by rewrite H in Hro. }
  split; [done|].
  apply bind_answer in H as (cwd & w1 & Hc & Ht1 & H); [|apply read_only_map_err; read_only].
  apply context_answer, look_answer in Hc.
  apply bind_answer in H as (d & w2 & Hd & Ht2 & H); [|read_only]. destruct d; [|done]. cbn [negb] in H.
  apply holds_answer in Hd as (q & n & Hq & Hn & Hk); [|done]. same_tree.
  pose proof (resolve_twice _ _ _ _ Hc Hq) as ->.
  assert (Hreal : real_dir (tree w) cwd) by by eapply real_is_dir.
  case_bool_decide; [done|].
  apply boundary_answer in H as (<- & ? & ? & ? & Hgit); rewrite ?Ht2 in *; [|done|].
  - by split.
  - intros a Ha. unfold ancestors in Ha. apply list_elem_of_fmap in Ha as (k & -> & _). apply prefix_take.
Qed.

(** What counts as the checkout.  The directory that was selected is real and lies in
    the answered root, which is a real directory other than the root of the file system
    and holds a [.git] that is not a link.  A [.git] directory makes nothing else
    writable; a [.git] file makes the two directories it leads to writable only when they
    are real, one is the [.git] of a repository and the other a worktree of it, and that
    worktree names this very [.git] file.  Nothing on the disk changes. *)
Theorem checkout_links_back selected w b w' :
  discover_project_from selected w = (inr b, w') →
  tree w' = tree w ∧ discovered (tree w) selected b.
Proof. apply discovered_answer. Qed.

(** ** A machine with a checkout and a linked worktree *)

Module Machine.
Definition dir (owner : N) : Node := mkNode Dir owner 493. (* 0o755 *)
Definition text (owner : N) (s : str) : Node := mkNode (File (as_bytes s)) owner 420. (* 0o644 *)
Definition program (owner : N) : Node := mkNode (File []) owner 493.
Definition home : Path := [ $"home"; $"u"].
Definition main : Path := home ++ [ $"main"].
Definition feature : Path := home ++ [ $"feature"].
Definition admin : Path := main ++ [ $".git"; $"worktrees"; $"feature"].
Definition rtrt : Path := home ++ [ $".cargo"; $"bin"; $"rtrt"].

Definition system : list (Path * Node) := [
  ([], dir 0); ([ $"home"], dir 0); (home, dir 1000); ([ $"usr"], dir 0); ([ $"usr"; $"bin"], dir 0);
  ([ $"usr"; $"bin"; $"bwrap"], program 0); ([ $"etc"], dir 0);
  ([ $"etc"; $"passwd"], text 0 $"u:x:1000:1000::/home/u:/bin/sh");
  ([ $"proc"], dir 0); ([ $"proc"; $"self"], dir 1000);
  ([ $"proc"; $"self"; $"status"], text 1000 ($"Uid:" ++ [ch_tab] ++ $"1000"))].
Definition checkouts : list (Path * Node) := [
  (main, dir 1000); (main ++ [ $".git"], dir 1000); (main ++ [ $".git"; $"worktrees"], dir 1000); (admin, dir 1000);
  (admin ++ [ $"commondir"], text 1000 $"../.."); (admin ++ [ $"gitdir"], text 1000 $"/home/u/feature/.git");
  (feature, dir 1000); (feature ++ [ $"src"], dir 1000);
  (feature ++ [ $".git"], text 1000 $"gitdir: /home/u/main/.git/worktrees/feature");
  (home ++ [ $".cargo"], dir 1000); (home ++ [ $".cargo"; $"bin"], dir 1000); (rtrt, program 1000)].
Definition disk : gmap Path Node := list_to_map (system ++ checkouts).
Definition boundary : ProjectBoundary :=
  mkBoundary feature (feature ++ [ $"src"]) [main ++ [ $".git"]; admin].
Definition world : FsWorld := mkFsWorld disk [].

Lemma checkout_links_back_witness :
  linked disk feature (feature ++ [ $".git"]) (main ++ [ $".git"]) admin.
Proof.
  assert (E : (discover_project_from (feature ++ [ $"src"]) world).1 = inr boundary) by (vm_compute; reflexivity).
  destruct (discover_project_from (feature ++ [ $"src"]) world) as [r w'] eqn:Er. cbn [fst] in E. subst r.
  destruct (checkout_links_back _ _ _ _ Er) as [_ [_ _ (n & _ & _ & [[_ [=]]|(_ & common & git_dir & [= <- <-] & H)])]].
  exact H.
Defined.

Lemma executables_guarded_witness : guarded disk 1000 rtrt.
Proof.
  destruct (executables_guarded boundary rtrt 1000 world) as [H _].
  assert (E : (validate_direct_launch_executable_for_uid boundary rtrt 1000 world).1 = inr ()) by (vm_compute; reflexivity).
  destruct (validate_direct_launch_executable_for_uid boundary rtrt 1000 world) as [r w'] eqn:Er. cbn [fst] in E. subst r.
  exact (proj1 (H _ eq_refl)).
Defined.

(** A backend that does what its mounts say. *)
Definition mounted (ops : list Op) (p : Path) : Prop := ∃ m, covering (mounts ops) p = Some m ∧ m.2 = true.
Definition ops : list Op :=
  match (sandbox_ops main [] boundary [home ++ [ $".cargo"; $"bin"]] world).1 with inr ops => ops | inl _ => [] end.

Lemma sandbox_confines_witness :
  mounted ops (feature ++ [ $"src"; $"lib.rs"]) ∧ ¬ mounted ops (home ++ [ $".ssh"; $"id"]) ∧ ¬ mounted ops rtrt.
Proof.
  assert (E : (sandbox_ops main [] boundary [home ++ [ $".cargo"; $"bin"]] world).1 = inr ops) by (vm_compute; reflexivity).
  destruct (sandbox_ops main [] boundary [home ++ [ $".cargo"; $"bin"]] world) as [r w'] eqn:Er. cbn [fst] in E. subst r.
  destruct (sandbox_confines mounted main [] boundary _ world ops w' (λ ops p H, H) Er) as [H _].
  split; [exists (feature, true); split; vm_compute; reflexivity|]. split.
  - intros [?|[(git & Hg & Hs)|[?|[?|?]]]]%H; try (vm_compute in *; discriminate).
    apply elem_of_cons in Hg as [->|[->|Hn]%elem_of_cons]; [vm_compute in Hs; discriminate Hs..|].
    by apply not_elem_of_nil in Hn.
  - intros (m & Hm & Hw). assert (E : covering (mounts ops) rtrt = Some (home ++ [ $".cargo"; $"bin"], false))
      by (vm_compute; reflexivity). rewrite E in Hm. injection Hm as <-. discriminate Hw.
Defined.
End Machine.
