(* ===== verification/RegistrySafety.v ===== *)
(** * Properties of the registry and of a run

    The registry of authorized checkouts is a bounded map from roots to toolchain paths,
    and stays one through every change; what a run has checked before it spawns. *)
From stdpp Require Import gmap sets.
From S2P Require Import Prelude Str Utf8.
From S2P Require Import Json Jsonc.
From S2P Require Import Fs Files Project.
From S2P Require Import Wire OcConfig Sandbox SandboxSafety.

(** ** Paths as texts *)

(** A component a path can have in memory: not empty, not [.], without a slash. *)
Definition named (p : Path) : Prop := Forall (λ c, c ≠ [] ∧ c ≠ $"." ∧ (ch_slash ∉ c)) p.

Lemma split_char_slashes p : named p → p ≠ [] →
  split_char ch_slash (concat (map (λ c, ch_slash :: c) p)) = [] :: p.
Proof.
  induction 1 as [|c p (Hne & Hd & Hs) Hp IH]; intros Hnil; [done|].
  cbn [map concat app split_char]. rewrite N.eqb_refl. f_equal.
  destruct p as [|c' p]; [cbn; by rewrite app_nil_r, split_char_free|].
  specialize (IH ltac:(done)). cbn [map concat app split_char] in IH |- *. rewrite N.eqb_refl in IH.
  injection IH as IH. by rewrite split_char_app, IH.
Qed.

Lemma filter_named p : named p → List.filter (λ c, negb (is_empty c) && negb (str_eqb c $".")) p = p.
Proof.
  induction 1 as [|c p (Hne & Hd & _) _ IH]; cbn; [done|]. destruct c as [|x c]; [done|]. rewrite IH.
  apply str_eqb_neq in Hd. by rewrite Hd.
Qed.

Lemma display_absolute p : is_absolute (display p) = true.
Proof. by destruct p. Qed.

Lemma path_of_display p : named p → path_of (display p) = (true, p).
Proof.
  intros Hp. unfold path_of. rewrite display_absolute. f_equal.
  destruct p as [|c p]; [vm_compute; reflexivity|]. unfold path_components, display.
  rewrite split_char_slashes by done. by apply filter_named in Hp.
Qed.

Lemma display_inj p q : named p → named q → display p = display q → p = q.
Proof. intros Hp Hq E. pose proof (path_of_display p Hp) as Ep. rewrite E, path_of_display in Ep; congruence. Qed.

(** ** The registry as a map *)

(** What is recorded for a root. *)
Definition recorded (registry : Json) (root : Path) : option (list (bool * Path)) :=
  match project_tool_paths registry (mkBoundary root [] []) with inr tools => Some tools | inl _ => None end.
Definition count (registry : Json) : nat := length (default [] (projects_of registry)).

Lemma recorded_boundary registry b :
  match project_tool_paths registry b with inr tools => Some tools | inl _ => None end = recorded registry (pb_root b).
Proof. done. Qed.

Lemma projects_with registry projects : is_Some (projects_of registry) →
  projects_of (with_projects registry projects) = Some projects.
Proof.
  intros [old H]. destruct registry as [| | | | | |members]; try done. unfold projects_of, with_projects. cbn.
  by rewrite find_insert, (proj2 (str_eqb_eq _ _) eq_refl).
Qed.

(** Everything but the projects is as it was. *)
Lemma get_with key registry projects : key ≠ $"projects" → get key (with_projects registry projects) = get key registry.
Proof.
  intros Hk. destruct registry; try done. cbn. rewrite find_insert.
  by assert (str_eqb key $"projects" = false) as -> by by apply str_eqb_neq.
Qed.

Lemma tool_path_list_strings tools : Forall named tools →
  tool_path_list (map path_json tools) = inr (absolute tools).
Proof.
  induction 1 as [|p tools Hp _ IH]; cbn; [done|]. unfold mbind, option_bind in *.
  rewrite IH. cbn. by rewrite path_of_display.
Qed.

Lemma recorded_entry registry root : recorded registry root =
  match (projects ← projects_of registry; find_member (display root) projects) with
  | None => None
  | Some entry =>
      if negb (bool_decide (get_str $"root" entry = Some (display root))) then None
      else match get $"tool_paths" entry ≫= as_array with
           | None => None
           | Some values => match tool_path_list values with inr tools => Some tools | inl _ => None end
           end
  end.
Proof.
  unfold recorded, project_tool_paths. cbn [pb_root]. destruct (projects ← _; _); [|done].
  destruct (negb _); [done|]. by destruct (_ ≫= as_array).
Qed.

Lemma project_entry_root root tools : get_str $"root" (project_entry root tools) = Some (display root).
Proof. vm_compute. reflexivity. Qed.
Lemma project_entry_tools root tools :
  get $"tool_paths" (project_entry root tools) ≫= as_array = Some (map path_json tools).
Proof. vm_compute. reflexivity. Qed.

Section Changes.
Context (registry : Json) (projects : list (str * Json)) (Hprojects : projects_of registry = Some projects).

Lemma recorded_inserted root tools r : named root → named r → Forall named tools →
  recorded (with_projects registry (insert_member (display root) (project_entry root tools) projects)) r =
  if decide (r = root) then Some (absolute tools) else recorded registry r.
Proof using Hprojects.
  intros Hroot Hr Ht. rewrite !recorded_entry, projects_with by by eexists. rewrite Hprojects.
  unfold mbind, option_bind. rewrite find_insert. destruct (decide (r = root)) as [->|Hne].
  - rewrite (proj2 (str_eqb_eq _ _) eq_refl), project_entry_root, bool_decide_eq_true_2 by done. cbn [negb].
    pose proof (project_entry_tools root tools) as E. unfold mbind, option_bind in E. rewrite E.
    by rewrite tool_path_list_strings.
  - assert (str_eqb (display r) (display root) = false) as ->; [|done].
    apply str_eqb_neq. intros E. by apply Hne, display_inj.
Qed.

Lemma recorded_removed root r : named root → named r →
  recorded (with_projects registry (remove_member (display root) projects)) r =
  if decide (r = root) then None else recorded registry r.
Proof using Hprojects.
  intros Hroot Hr. rewrite !recorded_entry, projects_with by by eexists. rewrite Hprojects.
  unfold mbind, option_bind. rewrite find_remove. destruct (decide (r = root)) as [->|Hne].
  - by rewrite (proj2 (str_eqb_eq _ _) eq_refl).
  - assert (str_eqb (display r) (display root) = false) as ->; [|done].
    apply str_eqb_neq. intros E. by apply Hne, display_inj.
Qed.
End Changes.

(** What both changes answer. *)
Lemma authorize_answer registry b tools registry' :
  authorize_project_with_tool_paths registry b tools = inr registry' ↔
  ∃ projects, projects_of registry = Some projects ∧
    (is_Some (find_member (display (pb_root b)) projects) ∨ (length projects < MAX_PROJECTS)%nat) ∧
    registry' = with_projects registry
      (insert_member (display (pb_root b)) (project_entry (pb_root b) tools) projects).
Proof.
  unfold authorize_project_with_tool_paths. destruct (projects_of registry) as [projects|].
  2: { split; [done|]. by intros (p & [=] & _). }
  destruct (_ && _) eqn:E.
  - apply andb_true_iff in E as [E1%bool_decide_eq_true E2%Nat.leb_le]. split; [done|].
    intros (p & [= <-] & [[x Hx]|Hl] & _); [congruence|lia].
  - apply andb_false_iff in E. rewrite bool_decide_eq_false, Nat.leb_gt in E. split.
    + intros [= <-]. exists projects. split; [done|]. split; [|done].
      destruct E as [E|E]; [left|by right]. by destruct (find_member _ _).
    + by intros (p & [= <-] & _ & ->).
Qed.

Lemma deauthorize_answer registry b registry' last :
  deauthorize_project registry b = inr (registry', last) ↔
  ∃ projects, projects_of registry = Some projects ∧ is_Some (find_member (display (pb_root b)) projects) ∧
    registry' = with_projects registry (remove_member (display (pb_root b)) projects) ∧
    last = bool_decide (remove_member (display (pb_root b)) projects = []).
Proof.
  unfold deauthorize_project. destruct (projects_of registry) as [projects|].
  2: { split; [done|]. by intros (p & [=] & _). }
  destruct (find_member _ projects) eqn:E.
  - split; [intros [= <- <-]; exists projects; eauto|]. by intros (p & [= <-] & _ & -> & ->).
  - split; [done|]. intros (p & [= <-] & [x Hx] & _). congruence.
Qed.


(** ** What is written is accepted *)

(** Checkouts an authorization can name: the executable lies outside, and there are at
    most as many tool paths as a registry may hold. *)
Definition may_authorize (executable : Path) (b : ProjectBoundary) (tools : list Path) : Prop :=
  named (pb_root b) ∧ starts_with_path executable (pb_root b) = false ∧ (length tools ≤ 8)%nat.

(** The registries that setup, launches and removals make, from a new one on. *)
Inductive made (executable : Path) : Json → Prop :=
| made_new backend config prior : made executable (new_registry executable backend config prior)
| made_authorized registry b tools registry' : made executable registry → may_authorize executable b tools →
    authorize_project_with_tool_paths registry b tools = inr registry' → made executable registry'
| made_removed registry b registry' last : made executable registry →
    deauthorize_project registry b = inr (registry', last) → made executable registry'.

Definition entries_ok (executable : Path) (projects : list (str * Json)) : Prop :=
  (length projects ≤ MAX_PROJECTS)%nat ∧ ∀ entry, In entry projects → check_entry executable entry = inr ().

Lemma check_entries_ok executable projects :
  (∀ entry, In entry projects → check_entry executable entry = inr ()) → check_entries executable projects = inr ().
Proof.
  induction projects as [|entry projects IH]; cbn; intros H; [done|]. rewrite H by by left. cbn.
  apply IH. intros e He. apply H. by right.
Qed.

Lemma check_project_entry executable b tools : may_authorize executable b tools →
  check_entry executable (display (pb_root b), project_entry (pb_root b) tools) = inr ().
Proof.
  intros (Hn & Ho & Hl). unfold check_entry.
  rewrite project_entry_root, bool_decide_eq_true_2, display_absolute by done. cbn [negb orb].
  rewrite project_entry_tools, length_map, (proj2 (Nat.ltb_ge _ _) Hl). cbn [orb].
  assert (existsb (λ value, bool_decide (as_str value = None)) (map path_json tools) = false) as ->.
  { clear. by induction tools as [|p tools IH]. }
  pose proof (path_of_display _ Hn) as E. unfold path_of in E. injection E as _ ->. by rewrite Ho.
Qed.

(** The members that do not change, and the projects. *)
Definition well_formed (executable : Path) (registry : Json) : Prop :=
  get_str $"owner" registry = Some STATE_OWNER ∧ (get $"version" registry ≫= as_u64) = Some STATE_VERSION ∧
  get_str $"executable" registry = Some (display executable) ∧ get_str $"backend" registry ≠ None ∧
  get_str $"config_path" registry ≠ None ∧ get_str $"owned_shell" registry = Some (display executable) ∧
  get $"prior_shell" registry ≠ None ∧
  ∃ projects, projects_of registry = Some projects ∧ entries_ok executable projects.

Lemma well_formed_accepted executable registry : well_formed executable registry →
  check_state executable registry = inr ().
Proof.
  intros (H1 & H2 & H3 & H4 & H5 & H6 & H7 & projects & H8 & Hl & He). unfold check_state.
  rewrite H1, H2, H3, H6, H8, !(bool_decide_eq_true_2 (_ = _)) by done.
  rewrite !(bool_decide_eq_false_2 (_ = None)) by done. cbn [negb orb from_option id].
  rewrite (proj2 (Nat.ltb_ge _ _) Hl). by apply check_entries_ok.
Qed.

Lemma well_formed_with executable registry projects : well_formed executable registry → entries_ok executable projects →
  well_formed executable (with_projects registry projects).
Proof.
  intros (H1 & H2 & H3 & H4 & H5 & H6 & H7 & old & H8 & _) He. unfold well_formed, get_str in *.
  rewrite !get_with by done. rewrite projects_with by by eexists. do 7 (split; [done|]). by exists projects.
Qed.

Lemma new_well_formed executable backend config prior :
  well_formed executable (new_registry executable backend config prior).
Proof.
  unfold well_formed. repeat split; try (by vm_compute).
  exists []. split; [by vm_compute|]. split; [cbn; lia|]. by intros entry [].
Qed.

Lemma made_well_formed executable registry : made executable registry → well_formed executable registry.
Proof.
  induction 1 as [backend config prior|registry b tools registry' _ IH Hm Ha|registry b registry' last _ IH Hd].
  - apply new_well_formed.
  - apply authorize_answer in Ha as (projects & Hp & Hroom & ->). apply well_formed_with; [done|].
    destruct IH as (_ & _ & _ & _ & _ & _ & _ & old & Hold & Hl & He). rewrite Hp in Hold. injection Hold as <-. split.
    + rewrite length_insert. destruct (find_member _ projects); [done|]. destruct Hroom as [[x [=]]|?]. lia.
    + intros entry [->|Hin]%in_insert; [by apply check_project_entry|by apply He].
  - apply deauthorize_answer in Hd as (projects & Hp & _ & -> & _). apply well_formed_with; [done|].
    destruct IH as (_ & _ & _ & _ & _ & _ & _ & old & Hold & Hl & He). rewrite Hp in Hold. injection Hold as <-. split.
    + etrans; [|exact Hl]. unfold remove_member. apply List.filter_length_le.
    + intros entry [Hin _]%in_remove. by apply He.
Qed.

(** A registry that setup, launches and removals have made is always one that the
    next run accepts: whatever they did, and in whichever order, the value passes every
    check of the loader for the executable it was made for, so a user is never locked out
    by the program's own writes. *)
Theorem made_registry_accepted executable registry :
  made executable registry → check_state executable registry = inr ().
Proof. intros H. by apply well_formed_accepted, made_well_formed. Qed.

(** ** A run *)

Lemma read_only_context {A : Type} message (m : Act IoError A) : read_only m → read_only (context message m).
Proof. apply read_only_map_err. Qed.
Lemma read_only_io {A : Type} (m : Act IoError A) : read_only m → read_only (io m).
Proof. apply read_only_map_err. Qed.
Lemma read_only_text p : read_only (read_to_string p).
Proof. apply read_only_look. Qed.
#[local] Hint Resolve read_only_context read_only_io read_only_text : fs.

Lemma read_only_each {A : Type} (g : A → Act str (list Op)) l :
  (∀ a, read_only (g a)) → read_only (each_op g l).
Proof. intros Hg. induction l as [|a l IH]; cbn; [done|]. read_only; eauto. Qed.

Lemma read_only_backend l : read_only (locate_backend_in l).
Proof.
  induction l as [|c l IH]; cbn; [done|]. apply read_only_bind; [read_only|intros [e|m]]; [done|].
  destruct (_ || _); [done|]. apply read_only_bind; [read_only|intros [e|q]]; [done|].
  apply read_only_bind; [read_only|intros [e|n]]; [done|]. by destruct (_ && _).
Qed.

Lemma read_only_uid : read_only current_linux_uid.
Proof. unfold current_linux_uid. apply read_only_bind; [read_only|intros status]. by destruct (find_map _ _ ≫= _). Qed.
#[local] Hint Resolve read_only_uid : fs.

Section Running.
Context (current_dir current_exe : Path) (env : list (str * str)) (from_slice : list N → str + Json).

Lemma read_only_home : read_only (linux_home current_dir).
Proof using.
  unfold linux_home, canonicalize_text. apply read_only_bind; [read_only|intros uid].
  apply read_only_bind; [read_only|intros passwd]. destruct (find_map _ _) as [home|]; [|done].
  apply read_only_context. destruct (is_empty home); [done|read_only].
Qed.
#[local] Hint Resolve read_only_home : fs.

Lemma read_only_shell root q uid reject : read_only (validate_opencode_shell_executable_for_uid root q uid reject).
Proof using.
  unfold validate_opencode_shell_executable_for_uid. destruct (match root with _ => _ end); [done|].
  apply read_only_bind; [read_only|intros n]. destruct (_ || _); [done|]. destruct (foreign uid n); [done|].
  destruct (parent q) as [d|]; [|done]. generalize (ancestors d). intros l.
  induction l as [|a l IH]; cbn; [done|]. apply read_only_bind; [destruct reject; read_only|intros inside].
  destruct inside; [done|]. apply read_only_bind; [read_only|intros m].
  destruct (_ || _); [done|]. destruct (foreign uid m); [done|]. by destruct (writable_by_others m).
Qed.
#[local] Hint Resolve read_only_shell : fs.

Lemma read_only_load path uid executable : read_only (load_registry_at from_slice path uid executable).
Proof using.
  unfold load_registry_at. apply read_only_bind; [read_only|intros n]. destruct (_ || _); [done|].
  destruct (MAX_REGISTRY_BYTES <? _); [done|]. destruct (open_to_others n); [done|].
  destruct (negb _); [done|]. apply read_only_bind; [read_only|intros bytes]. read_only.
Qed.

Lemma read_only_tools uid l : read_only (tool_paths_among uid l).
Proof using.
  induction l as [|c l IH]; cbn; [done|]. apply read_only_bind; [read_only|intros [e|m]]; [done|].
  destruct (_ || _); [done|]. read_only; eauto.
Qed.

Lemma read_only_bind_if p : read_only (bind_if_exists p).
Proof using. unfold bind_if_exists, exists_. read_only. Qed.
#[local] Hint Resolve read_only_bind_if : fs.

Lemma read_only_ops boundary tools : read_only (sandbox_ops current_dir env boundary tools).
Proof using.
  unfold sandbox_ops. apply read_only_bind; [done|intros scratch]. apply read_only_bind; [|intros runtime].
  { unfold runtime_ops. apply read_only_bind; [read_only|intros usr].
    apply read_only_bind; [apply read_only_each; intros; read_only|intros etc].
    apply read_only_bind; [|done]. apply read_only_each. intros [p [l t]].
    apply read_only_bind; [read_only|intros found]. destruct (match found with _ => _ end); read_only. }
  apply read_only_bind; [read_only|intros home]. apply read_only_bind; [|intros tool_list].
  { apply read_only_each. intros p. unfold tool_ops. destruct (bool_decide _); [|done].
    apply read_only_bind; [|done]. apply read_only_each. intros child. apply read_only_bind; [read_only|intros uid].
    apply read_only_bind; [|done]. unfold validated_registry_child. apply read_only_bind; [read_only|intros [e|m]].
    - by destruct (bool_decide _).
    - by destruct (_ || _). }
  unfold deterministic_path. read_only.
Qed.

(** The backend is root's alone to change. *)
Lemma backend_answer l : ∀ w q w', locate_backend_in l w = (inr q, w') →
  ∃ n, tree w !! q = Some n ∧ is_file n = true ∧ node_uid n = 0 ∧ closed_to_others n ∧ real (tree w) q.
Proof using.
  induction l as [|c l IH]; cbn; intros w q w' H; [done|].
  apply bind_answer in H as (found & w1 & Hf & Ht1 & H); [|read_only]. rewrite <-Ht1.
  destruct found as [e|m]; [by eapply IH|]. destruct (_ || _) in H; [by eapply IH|].
  apply bind_answer in H as (found & w2 & Hc & Ht2 & H); [|read_only].
  apply try_result in Hc as (w3 & Hc & ->). destruct found as [e|p]; [rewrite <-Ht2; by eapply IH|].
  apply bind_answer in H as (found & w4 & Hm & Ht4 & H); [|read_only].
  apply try_result in Hm as (w5 & Hm & ->). destruct found as [e|n]; [rewrite <-Ht2, <-Ht4; by eapply IH|].
  destruct (_ && _) eqn:E in H; [|rewrite <-Ht2, <-Ht4; by eapply IH]. injection H as <- _.
  apply look_answer in Hc, Hm. rewrite Ht2 in Hm.
  pose proof (resolve_real _ _ _ Hc) as Hr.
  unfold stat in Hm. rewrite resolve_idem in Hm by done. destruct (tree w1 !! p) as [n'|] eqn:Hn; [|done].
  injection Hm as ->. exists n. rewrite !andb_true_iff, negb_true_iff, N.eqb_eq in E.
  destruct E as [[[Eu Ef] _] Ew]. split; [done|]. split; [done|]. split; [done|]. split; [by apply not_writable|done].
Qed.

(** What has been established about the registry that was loaded. *)
Record loaded (f : Fs) (path : Path) (uid : N) (executable : Path) (registry : Json) : Prop := mkLoaded {
  ld_file : ∃ n, lstat f path = inr n ∧ is_symlink n = false ∧ is_file n = true ∧ node_uid n = uid ∧
    open_to_others n = false ∧ node_len n ≤ MAX_REGISTRY_BYTES;
  ld_value : ∃ bytes, read_at f path = inr bytes ∧ from_slice bytes = inr registry;
  ld_state : check_state executable registry = inr ();
  ld_executable : (dotdot ∉ executable) → guarded f uid executable;
}.

Lemma load_answer path uid executable w registry w' :
  load_registry_at from_slice path uid executable w = (inr registry, w') →
  loaded (tree w) path uid executable registry.
Proof using.
  unfold load_registry_at. intros H.
  apply bind_answer in H as (n & w1 & Hn & Ht1 & H); [|read_only]. apply context_answer, lstat_answer in Hn.
  destruct (is_symlink n || _) eqn:E1; [done|]. destruct (MAX_REGISTRY_BYTES <? node_len n) eqn:E2; [done|].
  destruct (open_to_others n) eqn:E3; [done|]. destruct (node_uid n =? uid) eqn:E4; [|done]. cbn [negb] in H.
  apply orb_false_iff in E1 as [E1 E1'%negb_false_iff].
  apply bind_answer in H as (bytes & w2 & Hb & Ht2 & H); [|read_only]. apply io_result, look_answer in Hb.
  apply bind_answer in H as (state & w3 & Hs & Ht3 & H); [|done]. injection Hs as Hs <-.
  apply bind_answer in H as ([] & w4 & Hc & Ht4 & H); [|done]. injection Hc as Hc <-.
  apply bind_answer in H as ([] & w5 & He & Ht5 & H); [|read_only]. injection H as <- _.
  clear Ht3 Ht4. same_tree. split.
  - exists n. apply N.eqb_eq in E4. apply N.ltb_ge in E2. done.
  - exists bytes. done.
  - done.
  - intros Hd. apply shell_executable_guarded in He as [Hg _]; [|done]. by rewrite Ht2 in Hg.
Qed.
End Running.

Section RunTheorem.
Context (current_dir current_exe : Path) (env : list (str * str)) (from_slice : list N → str + Json).
#[local] Hint Resolve read_only_uid read_only_home : fs.

Lemma read_only_load_registry : read_only (load_registry current_dir current_exe from_slice).
Proof using.
  unfold load_registry, registry_path. apply read_only_bind; [read_only|intros path].
  apply read_only_bind; [read_only|intros uid]. apply read_only_bind; [read_only|intros executable].
  apply read_only_load.
Qed.

(** What a run has checked before it spawns a command. *)
Record cleared (f : Fs) (original : str) (backend : Path) (args : list str) (boundary : ProjectBoundary)
    (registry : Json) (tools : list Path) : Prop := mkCleared {
  cl_backend : ∃ n, f !! backend = Some n ∧ is_file n = true ∧ node_uid n = 0 ∧ closed_to_others n;
  cl_boundary : discovered f current_dir boundary;
  cl_registry : ∃ path uid executable, resolve f current_exe = inr executable ∧
    loaded from_slice f path uid executable registry;
  cl_same_backend : get_str $"backend" registry = Some (display backend);
  cl_authorized : recorded registry (pb_root boundary) = Some (absolute tools);
  cl_args : ∃ ops, args = concat (map op_args ops) ++
                     [ $"--"; $"/bin/bash"; $"--noprofile"; $"--norc"; $"-c"; original] ∧
    shape boundary ops;
}.

End RunTheorem.

(** ** Examples *)

Module Examples.
Import Machine.
Definition registry : Json :=
  match authorize_project_with_tool_paths
    (new_registry rtrt [ $"usr"; $"bin"; $"bwrap"] (home ++ [ $".config"; $"opencode"; $"opencode.json"]) None)
    boundary [home ++ [ $".cargo"; $"bin"]] with inr r => r | inl _ => JNull end.
(** Reading the one document that is on the disk. *)
Definition from_slice (bytes : list N) : str + Json :=
  if bool_decide (bytes = as_bytes $"registry") then inr registry else inl $"expected value".
Definition disk : gmap Path Node := list_to_map (system ++ checkouts ++ [
  (home ++ [ $".config"], dir 1000); (home ++ [ $".config"; $"opencode"], dir 1000);
  (home ++ [ $".config"; $"opencode"; $".rtrt-sandbox-state.json"], mkNode (File (as_bytes $"registry")) 1000 384)]).
Definition world : FsWorld := mkFsWorld disk [].

Lemma boundary_named : named (pb_root boundary).
Proof. repeat constructor; try discriminate; apply (bool_decide_unpack (ch_slash ∉ _)); vm_compute; exact I. Defined.


Lemma made_registry_accepted_witness : check_state rtrt registry = inr ().
Proof.
  apply made_registry_accepted.
  apply (made_authorized _
    (new_registry rtrt [ $"usr"; $"bin"; $"bwrap"] (home ++ [ $".config"; $"opencode"; $"opencode.json"]) None)
    boundary [home ++ [ $".cargo"; $"bin"]]); [apply made_new| |vm_compute; reflexivity].
  split; [exact boundary_named|]. split; [vm_compute; reflexivity|]. apply Nat.leb_le. vm_compute. reflexivity.
Defined.

Definition ran := run (feature ++ [ $"src"]) rtrt [] from_slice $"cargo test" world.

End Examples.
