(* ===== verification/ConfigSafety.v ===== *)
(** * Properties of replacing the configuration

    A calculus for operations that change a few files in real directories, and what
    [write_opencode_config] leaves whatever calls fail: the old file or a whole new one
    whose value is the one that was meant. *)
From stdpp Require Import gmap sets.
From S2P Require Import Prelude Str Utf8.
From S2P Require Import Json Jsonc.
From S2P Require Import Fs Files Project ScaffoldSafety Repair Retire.
From S2P Require Import Wire SbxCommand OcConfig.

(** What a failure means, said more weakly. *)
Lemma outcome_failed {E A : Type} (m : Act E A) (P : Fs → Prop) (Q : A → Fs → Prop) (R R' : E → Fs → Prop) :
  outcome P m Q R → (∀ e f, R e f → R' e f) → outcome P m Q R'.
Proof. intros Hm HR. by eapply outcome_weaken. Qed.

(** ** A few places of a tree *)

(** Nothing changes but the nodes of [l]. *)
Definition untouched (l : list Path) (f0 f : Fs) : Prop := ∀ q : Path, (q ∉ l) → f !! q = f0 !! q.

(** Where a file can be: a name in a real directory. *)
Definition place (f : Fs) (q : Path) : Prop := ∃ d c, q = d ++ [c] ∧ c ≠ dotdot ∧ real_dir f d.

(** Only the places changed, and each is a regular file if it is there. *)
Definition settled (l : list Path) (f0 f : Fs) : Prop :=
  untouched l f0 f ∧ ∀ (q : Path) n, q ∈ l → f !! q = Some n → is_file n = true.


Section Places.
Context (l : list Path) (f0 : Fs).
Hypothesis root_there : rooted f0.
Hypothesis places : Forall (place f0) l.
Hypothesis files : settled l f0 f0.

Lemma place_in (q : Path) : q ∈ l → place f0 q.
Proof using places. intros Hq. by eapply Forall_forall in places. Qed.

Lemma dir_not_place (d : Path) : real_dir f0 d → d ∉ l.
Proof using places files.
  intros Hd Hin. destruct Hd as [|d c n Hd Hc Hn Hk].
  - apply place_in in Hin as (d & c & E & _). by destruct d.
  - apply files, file_not_dir in Hn; [|done]. by rewrite Hn in Hk.
Qed.

Lemma settled_dir (f : Fs) (d : Path) : settled l f0 f → real_dir f0 d → real_dir f d.
Proof using places files.
  intros [Hu _]. induction 1 as [|d c n Hd IH Hc Hn Hk]; [constructor|].
  econstructor; [done|done| |exact Hk]. rewrite Hu; [done|]. apply dir_not_place. by econstructor.
Qed.

Lemma settled_dir_node (f : Fs) (d : Path) : settled l f0 f → real_dir f0 d →
  ∃ n, f !! d = Some n ∧ is_dir n = true.
Proof using root_there places files.
  intros [Hu _] Hd. rewrite Hu by by apply dir_not_place. destruct Hd as [|d c n Hd Hc Hn Hk]; [done|eauto].
Qed.

Lemma settled_locate (f : Fs) (q : Path) : settled l f0 f → q ∈ l → locate f q = inr q.
Proof using root_there places files.
  intros Hf (d & c & -> & Hc & Hd)%place_in.
  destruct (settled_dir_node f d Hf Hd) as (n & Hn & Hk).
  apply (locate_child f d c n); [by apply settled_dir|done..].
Qed.

Lemma settled_lstat (f : Fs) (q : Path) : settled l f0 f → q ∈ l →
  lstat f q = match f !! q with Some n => inr n | None => inl not_found end.
Proof using root_there places files. intros Hf Hq. unfold lstat. by rewrite settled_locate. Qed.

Lemma settled_resolve (f : Fs) (q : Path) n : settled l f0 f → q ∈ l → f !! q = Some n → is_symlink n = false →
  resolve f q = inr q.
Proof using places files.
  intros Hf (d & c & -> & Hc & Hd)%place_in Hn Hk. eapply resolve_child; [by apply settled_dir|done..].
Qed.

Lemma settled_resolved (f : Fs) (q q' : Path) : settled l f0 f → q ∈ l → resolve f q = inr q' → q' = q ∧ is_Some (f !! q).
Proof using places files.
  intros Hf Hq Hr. destruct (f !! q) as [n|] eqn:Hn.
  - rewrite (settled_resolve f q n) in Hr by (done || by apply file_not_symlink, (proj2 Hf q)). by injection Hr as <-.
  - exfalso. destruct (place_in q Hq) as (d & c & -> & Hc & Hd).
    apply resolve_from_snoc in Hr as (dir & links & Hdir & Hr); [|done].
    pose proof (resolve_dir f d (settled_dir f d Hf Hd)) as E. unfold resolve in E. rewrite E in Hdir. injection Hdir as <-.
    assert (str_eqb c dotdot = false) as Ec by by apply str_eqb_neq.
    destruct links; cbn in Hr; by rewrite Ec, Hn in Hr.
Qed.

Lemma settled_put (f : Fs) (q : Path) n : settled l f0 f → q ∈ l → is_file n = true → settled l f0 (<[q := n]> f).
Proof using.
  intros [Hu Hn] Hq Hk. split.
  - intros q' Hq'. rewrite lookup_insert_ne; [by apply Hu|]. by intros ->.
  - intros q' n' Hq' Hn'. destruct (decide (q' = q)) as [->|E].
    + rewrite lookup_insert_eq in Hn'. by injection Hn' as <-.
    + rewrite lookup_insert_ne in Hn' by done. by eapply Hn.
Qed.

Lemma settled_delete (f : Fs) (q : Path) : settled l f0 f → q ∈ l → settled l f0 (delete q f).
Proof using.
  intros [Hu Hn] Hq. split.
  - intros q' Hq'. rewrite lookup_delete_ne; [by apply Hu|]. by intros ->.
  - intros q' n' Hq' Hn'. apply lookup_delete_Some in Hn' as [_ Hn']. by eapply Hn.
Qed.

(** The directories are there. *)
Lemma make_dirs_there euid umask rp (P : Fs → Prop) : (∀ f, P f → settled l f0 f) → real_dir f0 (rev rp) →
  outcome P (make_dirs euid umask rp) (λ _, P) (λ _, P).
Proof using root_there places files.
  intros HP. assert (Hmake : ∀ d (Q : Fs → Prop), real_dir f0 d → (∀ f, Q f → settled l f0 f) →
      outcome Q (make_dir euid umask d) (λ _, Q) (λ _, Q)).
  { intros d Q Hd HQ. apply outcome_call; [done|]. intros f Hf. specialize (HQ f Hf).
    destruct (locate f d) as [e|q] eqn:El; [done|].
    assert (q = d) as ->.
    { pose proof (settled_dir f d HQ Hd) as Hr. unfold locate in El.
      destruct d as [|c d _] using rev_ind; [by injection El|]. apply real_dir_snoc in Hr as (Hr & Hc & _).
      rewrite last_snoc, removelast_last in El. assert (str_eqb c dotdot = false) as E by by apply str_eqb_neq.
      rewrite E, resolve_dir in El by done. destruct (f !! d) as [m|]; [|done].
      destruct (is_dir m); [|done]. by injection El. }
    destruct (settled_dir_node f d HQ Hd) as (n & -> & _). done. }
  assert (Hthere : ∀ d (e : IoError), outcome P
      (there ← holds_at is_dir d; if (there : bool) then mret () else throw e) (λ _, P) (λ _, P)).
  { intros d e. eapply outcome_bind; [apply read_only_outcome, read_only_holds_at|].
    intros [|]; [by apply outcome_ret|by apply outcome_throw]. }
  induction rp as [|c rp IH]; intros Hd; cbn [make_dirs].
  - eapply outcome_bind_try; [by apply Hmake|by intros; apply outcome_ret|]. intros e.
    case_bool_decide; [by apply outcome_throw|apply Hthere].
  - assert (Hd' : real_dir f0 (rev rp)) by (cbn in Hd; by eapply real_dir_app).
    eapply outcome_bind_try; [by apply Hmake|by intros; apply outcome_ret|]. intros e.
    case_bool_decide; [|apply Hthere]. eapply outcome_bind; [by apply IH|]. intros u.
    eapply outcome_bind_try; [by apply Hmake|by intros; apply outcome_ret|]. intros e'. apply Hthere.
Qed.

Lemma create_dir_there euid umask d (P : Fs → Prop) : (∀ f, P f → settled l f0 f) → real_dir f0 d →
  outcome P (create_dir_all euid umask d) (λ _, P) (λ _, P).
Proof using root_there places files. intros HP Hd. apply make_dirs_there; [done|by rewrite rev_involutive]. Qed.

(** Opening a name that is there finds it. *)
Lemma resolve_new_found links : ∀ (f : Fs) rest base q,
  resolve_from links f base rest = inr q → resolve_new links f base rest = inr q.
Proof using.
  induction links as [|links IHl]; intros f;
    (induction rest as [|c rest IH]; intros base q Hq; [done|]); cbn in Hq |- *;
    (destruct (str_eqb c dotdot); [by apply IH|]);
    (destruct (f !! (base ++ [c])) as [m|] eqn:En; [|done]);
    destruct (node_kind m); try done; try (by apply IH); by apply IHl.
Qed.

Lemma settled_open (f : Fs) (q : Path) : settled l f0 f → q ∈ l → resolve_new MAX_LINKS f [] q = inr q.
Proof using places files.
  intros Hf Hq. destruct (f !! q) as [n|] eqn:Hn.
  - apply resolve_new_found. apply (settled_resolve f q n); [done..|]. apply file_not_symlink. by eapply Hf.
  - destruct (place_in q Hq) as (d & c & -> & Hc & Hd).
    apply (resolve_new_real MAX_LINKS f d []); [by apply settled_dir|done..].
Qed.

(** *** A file replaced through a temporary one *)

(** At most one place differs, and what is new there is a file. *)
Definition leftover (f1 : Fs) (t : Path) (f : Fs) : Prop :=
  untouched [t] f1 f ∧ ∀ n, f !! t = Some n → f1 !! t = Some n ∨ is_file n = true.

Lemma leftover_refl f1 t : leftover f1 t f1.
Proof using. split; [done|by left]. Qed.

Lemma leftover_put f1 t f n : leftover f1 t f → is_file n = true → leftover f1 t (<[t := n]> f).
Proof using.
  intros [Hu _] Hn. split.
  - intros q Hq. rewrite lookup_insert_ne; [by apply Hu|]. intros ->. by apply Hq, list_elem_of_here.
  - intros m. rewrite lookup_insert_eq. intros [= <-]. by right.
Qed.

Lemma leftover_alter f1 t f g : leftover f1 t f → (∀ n, is_file n = true → is_file (g n) = true) →
  (∀ n, f1 !! t = Some n → is_file n = true) → leftover f1 t (alter g t f).
Proof using.
  intros [Hu Hn] Hg Hf1. split.
  - intros q Hq. rewrite lookup_alter_ne; [by apply Hu|]. intros ->. by apply Hq, list_elem_of_here.
  - intros m. rewrite lookup_alter_eq. intros (n & Hm & ->)%fmap_Some_1. right. apply Hg.
    destruct (Hn n Hm) as [Hn1|]; [by apply Hf1|done].
Qed.

Section Temporary.
Context (f1 : Fs) (t p : Path).
Hypothesis f1_settled : settled l f0 f1.
Hypothesis t_place : t ∈ l.
Hypothesis p_place : p ∈ l.

Lemma create_place euid umask mode :
  outcome (λ f, f = f1) (create_new euid umask t mode)
    (λ q f, q = t ∧ f1 !! t = None ∧ f = <[t := mkNode (File []) euid (masked umask mode)]> f1) (λ _ f, f = f1).
Proof using root_there places files f1_settled t_place.
  apply outcome_call; [by intros|]. intros f ->. rewrite settled_locate by done.
  by destruct (f1 !! t).
Qed.

Lemma chmod_place n mode : outcome (λ f, f = <[t := n]> f1) (fset_permissions t mode)
  (λ _ f, f = <[t := chmod mode n]> f1) (λ _ f, f = <[t := n]> f1).
Proof using. apply outcome_call; [by intros|]. intros f ->. by rewrite alter_insert_eq. Qed.

Lemma write_place wrote n bytes : is_file n = true → outcome (λ f, f = <[t := n]> f1) (write_all wrote t bytes)
  (λ _ f, f = <[t := mkNode (File bytes) (node_uid n) (node_mode n)]> f1) (λ _, leftover f1 t).
Proof using.
  intros Hn w Hw. unfold write_all. rewrite Hw.
  destruct (io_faults w) as [|[e|] fs]; cbn [fst snd tree]; rewrite alter_insert_eq; try done.
  by apply leftover_put; [apply leftover_refl|].
Qed.

Lemma sync_place (P : Fs → Prop) : outcome P sync_data (λ _, P) (λ _, P).
Proof using. by apply outcome_call. Qed.

Lemma rename_place n : f1 !! t = None → is_file n = true → outcome (λ f, f = <[t := n]> f1) (rename t p)
  (λ _ f, f = <[p := n]> f1) (λ _ f, f = <[t := n]> f1).
Proof using root_there places files f1_settled t_place p_place.
  intros Ht Hn. apply outcome_call; [by intros|]. intros f ->.
  rewrite !settled_locate by (done || by apply settled_put).
  rewrite lookup_insert_eq, delete_insert_id by done.
  destruct (<[t:=n]> f1 !! p) as [m|]; [|done]. by destruct (is_dir m).
Qed.

Lemma settled_leftover f : leftover f1 t f → settled l f0 f.
Proof using f1_settled t_place.
  intros [Hu Hn]. split.
  - intros q Hq. rewrite Hu; [by apply f1_settled|]. intros ->%list_elem_of_singleton. by apply Hq.
  - intros q n Hq Hf. destruct (decide (q = t)) as [->|E].
    + destruct (Hn n Hf) as [Hn1|]; [by eapply f1_settled|done].
    + rewrite Hu in Hf by by intros ?%list_elem_of_singleton. by eapply f1_settled.
Qed.

Lemma remove_leftover {E : Type} :
  outcome (E := E) (leftover f1 t) (try_ (remove_file t)) (λ _, leftover f1 t) (λ _ _, False).
Proof using root_there places files f1_settled t_place.
  apply outcome_try, outcome_call; [done|]. intros f Hf.
  rewrite settled_locate by (done || by apply settled_leftover).
  destruct (f !! t) as [n|]; [|done]. destruct (is_dir n); [done|]. split.
  - intros q Hq. rewrite lookup_delete_ne; [by apply Hf|]. intros ->. by apply Hq, list_elem_of_here.
  - intros n'. by rewrite lookup_delete_eq.
Qed.
End Temporary.
End Places.

(** ** The configuration *)

Lemma parent_child (d : Path) c : parent (d ++ [c]) = Some d.
Proof. unfold parent. destruct (d ++ [c]) eqn:E; [by destruct d|]. by rewrite <-E, removelast_last. Qed.

Lemma read_only_reject p label : read_only (reject_symlink p label).
Proof. unfold reject_symlink, path_metadata. read_only. Qed.

Lemma outcome_io {A : Type} (m : Act IoError A) (P : Fs → Prop) (Q : A → Fs → Prop) (R : Fs → Prop) :
  outcome P m Q (λ _, R) → outcome P (io m) Q (λ _, R).
Proof. apply (outcome_map_err _ _ _ _ (λ _, R)). Qed.
Lemma outcome_context {A : Type} message (m : Act IoError A) (P : Fs → Prop) (Q : A → Fs → Prop) (R : Fs → Prop) :
  outcome P m Q (λ _, R) → outcome P (context message m) Q (λ _, R).
Proof. apply (outcome_map_err _ _ _ _ (λ _, R)). Qed.

Section Configuration.
Context (euid umask : N).
Context (from_slice : list N → str + Json) (to_string : Json → list N).

(** The file holds this value. *)
Definition holds_config (f : Fs) (p : Path) (j : Json) : Prop :=
  match f !! p with
  | Some n => ∃ bytes, node_kind n = File bytes ∧ parse_json_or_jsonc from_slice (display p) bytes = inr j
  | None => j = object []
  end.

(** A new private file with this value. *)
Definition written (f : Fs) (p : Path) (j : Json) : Prop :=
  ∃ bytes, f !! p = Some (private_file euid bytes) ∧ parse_json_or_jsonc from_slice (display p) bytes = inr j.

Lemma written_same f f' p j : f' !! p = f !! p → written f p j → written f' p j.
Proof. intros E (bytes & Hf & Hj). exists bytes. by rewrite E. Qed.

Lemma written_holds f p j : written f p j → holds_config f p j.
Proof. intros (bytes & Hf & Hj). unfold holds_config. rewrite Hf. by exists bytes. Qed.

Section Writing.
Context (l : list Path) (f0 : Fs).
Hypothesis root_there : rooted f0.
Hypothesis places : Forall (place f0) l.
Hypothesis files : settled l f0 f0.
Context (d : Path) (name unique : str).
Hypothesis d_real : real_dir f0 d.
Let path : Path := d ++ [name].
Let t : Path := d ++ [unique].
Let bak : Path := backup_path path.
Hypothesis path_place : path ∈ l.
Hypothesis t_place : t ∈ l.
Hypothesis bak_place : bak ∈ l.

(** The file replaced: all of it or nothing. *)
Lemma atomic_outcome wrote contents f1 : settled l f0 f1 →
  outcome (λ f, f = f1) (write_private_file_atomic_same_dir euid umask wrote unique path contents)
    (λ _ f, f = <[path := private_file euid contents]> f1)
    (λ _ f, leftover f1 t f ∨ f = <[path := private_file euid contents]> f1).
Proof using root_there places files d_real path_place t_place.
  intros Hs. set (done := <[path := private_file euid contents]> f1).
  assert (H1 : ∀ f, f = f1 → leftover f1 t f ∨ f = done) by (intros f ->; left; apply leftover_refl).
  assert (left_put : ∀ m b, leftover f1 t (<[t := mkNode (File b) euid m]> f1))
    by (intros; by apply leftover_put; [apply leftover_refl|]).
  unfold write_private_file_atomic_same_dir. rewrite (parent_child d name : parent path = Some d).
  eapply outcome_bind.
  { eapply outcome_failed; [apply read_only_outcome, read_only_reject|].
    intros ? f Hf. by apply H1. }
  intros u. eapply outcome_bind.
  { apply outcome_context. eapply outcome_failed; [apply (create_dir_there l f0 root_there places files euid umask d (λ f, f = f1))|].
    - by intros f ->.
    - done.
    - intros ? f Hf. by apply H1. }
  intros u'. eapply outcome_bind.
  { apply outcome_context. eapply outcome_failed; [by apply (create_place l f0)|]. intros ? f Hf. by apply H1. }
  intros file w (-> & Ht & Hw). revert w Hw.
  assert (Hrest : outcome (λ f, f = <[t := mkNode (File []) euid (masked umask PRIVATE_FILE_MODE)]> f1)
    (result ← try_ (
        context ($"chmod 0600 temporary file in " ++ display d) (fset_permissions t PRIVATE_FILE_MODE) ≫= λ _,
        context ($"write temporary file in " ++ display d) (write_all wrote t contents) ≫= λ _,
        context ($"sync temporary file in " ++ display d) sync_data ≫= λ _,
        context ($"atomically replace " ++ display path) (rename t path));
      match result with
      | inl e => removed ← try_ (remove_file t); throw e
      | inr _ => context ($"sync directory " ++ display d) sync_data
      end) (λ _ f, f = done) (λ _ f, leftover f1 t f ∨ f = done)); [|exact Hrest].
  eapply outcome_bind_try with (S := λ _ f, f = done) (T := λ _, leftover f1 t).
  - eapply outcome_bind; [apply outcome_context; eapply outcome_failed; [apply chmod_place|intros ? f ->; apply left_put]|].
    intros a. eapply outcome_bind; [apply outcome_context; by apply write_place|]. intros b.
    eapply outcome_bind; [apply outcome_context; eapply outcome_failed; [apply sync_place|intros ? f ->; apply left_put]|].
    intros c. apply outcome_context. eapply outcome_failed; [by apply (rename_place l f0 root_there places files f1 t path Hs t_place path_place (private_file euid contents))|intros ? f ->; apply left_put].
  - intros _. apply outcome_context. eapply outcome_failed; [apply sync_place|]. intros ? f Hf. by right.
  - intros e. eapply outcome_bind with (S := λ _, leftover f1 t).
    + eapply outcome_failed; [by apply (remove_leftover l f0)|done].
    + intros r. apply outcome_throw. intros f Hf. by left.
Qed.

(** The copy: only the backup can change. *)
Lemma copy_outcome wrote f1 : settled l f0 f1 →
  outcome (leftover f1 bak) (copy euid umask wrote path bak) (λ _, leftover f1 bak) (λ _, leftover f1 bak).
Proof using root_there places files bak_place.
  intros Hs. assert (Hf1 : ∀ n, f1 !! bak = Some n → is_file n = true) by (intros n; by apply Hs).
  unfold copy. eapply outcome_bind; [apply read_only_outcome; read_only|]. intros contents.
  eapply outcome_bind; [apply read_only_outcome; read_only|]. intros meta. eapply outcome_bind with (S := λ _, leftover f1 bak).
  - unfold write_file. eapply outcome_bind with (S := λ q f, q = bak ∧ leftover f1 bak f).
    + apply outcome_call; [done|]. intros f Hf. pose proof (settled_leftover l f0 f1 bak Hs bak_place f Hf) as Hsf.
      rewrite (settled_open l f0 places files f bak Hsf bak_place).
      destruct (f !! bak) as [n|] eqn:Hn; [|split; [done|by apply leftover_put]].
      destruct (is_dir n); [done|]. split; [done|by apply leftover_put].
    + intros q w [-> Hw]. unfold write_all.
      assert (Hput : ∀ bytes, leftover f1 bak (alter (λ n, mkNode (File bytes) (node_uid n) (node_mode n)) bak (tree w))).
      { intros bytes. by apply leftover_alter. }
      destruct (io_faults w) as [|[e|] fs]; exact (Hput _).
  - intros u. apply outcome_call; [done|]. intros f Hf.
    pose proof (settled_leftover l f0 f1 bak Hs bak_place f Hf) as Hsf.
    destruct (resolve f bak) as [e|q] eqn:Hr; [done|].
    apply (settled_resolved l f0 places files) in Hr as [-> _]; [|done..]. by apply leftover_alter.
Qed.

Lemma backup_outcome wrote f1 : settled l f0 f1 →
  outcome (λ f, f = f1) (backup_if_needed euid umask wrote path) (λ _, leftover f1 bak) (λ _, leftover f1 bak).
Proof using root_there places files bak_place.
  intros Hs. eapply outcome_weaken with (P' := leftover f1 bak) (Q' := λ _, leftover f1 bak) (R' := λ _, leftover f1 bak); [|by intros f ->; apply leftover_refl|done|done].
  unfold backup_if_needed. eapply outcome_bind; [apply read_only_outcome; unfold path_metadata; read_only|].
  intros [source|]; [|by apply outcome_throw]. destruct (_ || _); [by apply outcome_throw|].
  eapply outcome_bind; [apply read_only_outcome; unfold path_metadata; read_only|].
  intros [target|]; [destruct (_ || _); [by apply outcome_throw|by apply outcome_ret]|].
  eapply outcome_bind; [by apply outcome_context, copy_outcome|]. intros u.
  apply outcome_context, outcome_call; [done|]. intros f Hf.
  pose proof (settled_leftover l f0 f1 bak Hs bak_place f Hf) as Hsf.
  fold bak. destruct (resolve f bak) as [e|q] eqn:Hr; [done|].
  apply (settled_resolved l f0 places files) in Hr as [-> _]; [|done..]. apply leftover_alter; [done|by intros|].
  intros n. by apply Hs.
Qed.

(** Everything else is as it was. *)
Hypothesis path_not_bak : path ≠ bak.
Hypothesis path_not_t : path ≠ t.

Lemma write_config_outcome wrote wrote_backup raw before root f1 : settled l f0 f1 →
  outcome (λ f, f = f1)
    (write_opencode_config euid umask from_slice to_string wrote wrote_backup unique path raw before root)
    (λ _ f, settled l f0 f ∧ untouched [path; t; bak] f1 f ∧ written f path root)
    (λ _ f, settled l f0 f ∧ untouched [path; t; bak] f1 f ∧ (f !! path = f1 !! path ∨ written f path root)).
Proof using root_there places files d_real path_place t_place bak_place path_not_bak path_not_t.
  intros Hs. set (F := λ f, settled l f0 f ∧ untouched [path; t; bak] f1 f ∧ (f !! path = f1 !! path ∨ written f path root)).
  match goal with |- outcome ?P ?m ?Q _ => change (outcome P m Q (λ _, F)) end.
  assert (Hbak : ∀ f, leftover f1 bak f → untouched [path; t; bak] f1 f ∧ f !! path = f1 !! path).
  { intros f [Hu _]. split; [intros q Hq; apply Hu|apply Hu].
    - intros ->%list_elem_of_singleton. apply Hq. set_solver.
    - by intros ?%list_elem_of_singleton. }
  assert (H1 : ∀ f, leftover f1 bak f → F f).
  { intros f Hf. pose proof (Hbak f Hf) as [Hu Hp]. split; [by apply (settled_leftover l f0 f1 bak)|]. auto. }
  unfold write_opencode_config. rewrite (parent_child d name : parent path = Some d).
  eapply outcome_bind.
  { apply outcome_context. eapply outcome_failed;
      [apply (create_dir_there l f0 root_there places files euid umask d (λ f, f = f1))|].
    - by intros f ->.
    - done.
    - intros e f ->. apply H1, leftover_refl. }
  intros u. eapply outcome_bind.
  { eapply outcome_failed; [apply read_only_outcome, read_only_holds_at|]. intros e f ->. apply H1, leftover_refl. }
  intros there. eapply outcome_bind with (S := λ _, leftover f1 bak).
  { destruct there; [|apply outcome_ret; intros f ->; apply leftover_refl].
    eapply outcome_failed; [by apply backup_outcome|]. intros e f Hf. by apply H1. }
  intros u'. destruct (apply_jsonc_object_diff _ _ _ _ _) as [e|rendered]; [apply outcome_throw; by apply H1|].
  eapply outcome_bind with (S := λ j f, parse_json_or_jsonc from_slice (display path) rendered = inr j ∧ leftover f1 bak f).
  { apply outcome_sum. intros f Hf. destruct (parse_json_or_jsonc _ _ _); [by apply H1|done]. }
  intros j. apply outcome_pure. intros Hj. destruct (json_eqb j root) eqn:Ej; [|apply outcome_throw; by apply H1].
  apply json_eqb_eq in Ej as ->. cbn [negb]. intros w Hw.
  pose proof (settled_leftover l f0 f1 bak Hs bak_place _ Hw) as Hsw.
  pose proof (Hbak _ Hw) as [Huw Hpw].
  assert (Hfull : ∀ f, f = <[path := private_file euid rendered]> (tree w) →
    settled l f0 f ∧ untouched [path; t; bak] f1 f ∧ written f path root).
  { intros f ->. split; [by apply settled_put|]. split.
    - intros q Hq. rewrite lookup_insert_ne; [by apply Huw|]. intros <-. apply Hq. set_solver.
    - exists rendered. by rewrite lookup_insert_eq. }
  pose proof (atomic_outcome wrote rendered (tree w) Hsw w eq_refl) as Ha.
  destruct (write_private_file_atomic_same_dir _ _ _ _ _ _ w) as [[e|[]] w']; [|by apply Hfull].
  destruct Ha as [Ha|Ha]; [|apply Hfull in Ha as (? & ? & ?); split; auto].
  split; [by apply (settled_leftover l f0 (tree w) t)|]. destruct Ha as [Hu _]. split.
  - intros q Hq. rewrite Hu; [by apply Huw|]. intros ->%list_elem_of_singleton. apply Hq. set_solver.
  - left. rewrite Hu; [done|]. by intros ?%list_elem_of_singleton.
Qed.
End Writing.
End Configuration.

Arguments written_holds {euid from_slice f p j}.

