(* ===== verification/JsonCodec.v ===== *)
(** * A concrete [serde_json] for witnesses

    Two functions that read and write JSON values as the theorems about setup ask of
    [serde_json]: what is written is read back.  A registry is written in a code of its
    own; of texts, objects of strings are read.  Nothing here models code of the program. *)
From stdpp Require Import gmap sets.
From S2P Require Import Prelude Str Utf8.
From S2P Require Import Json Jsonc.

(** A reader and a writer for registries that need no text: every value has one code. *)
Module Codec.
Fixpoint encode (j : Json) : list N :=
  match j with
  | JNull => [0]
  | JBool b => [1; if b then 1 else 0]
  | JNumber z => [2; if (z <? 0)%Z then 1 else 0; Z.to_N (Z.abs z)]
  | JFloat bits => [3; bits]
  | JString s => 4 :: N.of_nat (length s) :: s
  | JArray values => 5 :: N.of_nat (length values) :: concat (map encode values)
  | JObject members =>
      6 :: N.of_nat (length members) ::
      concat (map (λ kv : str * Json, N.of_nat (length kv.1) :: kv.1 ++ encode kv.2) members)
  end.

(** [n] values, one after the other. *)
Fixpoint repeated {A : Type} (one : list N → option (A * list N)) (n : nat) (bytes : list N) : option (list A * list N) :=
  match n with
  | O => Some ([], bytes)
  | S n' => first ← one bytes; more ← repeated one n' first.2; Some (first.1 :: more.1, more.2)
  end.

Definition counted {A : Type} (item : nat → list N → option (A * list N)) (bytes : list N) : option (A * list N) :=
  match bytes with n :: rest => item (N.to_nat n) rest | [] => None end.
Definition text (n : nat) (bytes : list N) : option (str * list N) := Some (take n bytes, drop n bytes).

Fixpoint decode (fuel : nat) (bytes : list N) : option (Json * list N) :=
  match fuel, bytes with
  | S fuel', tag :: rest =>
      if tag =? 0 then Some (JNull, rest)
      else if tag =? 1 then match rest with b :: rest => Some (JBool (b =? 1), rest) | [] => None end
      else if tag =? 2 then
        match rest with
        | s :: n :: rest => Some (JNumber (if s =? 1 then - Z.of_N n else Z.of_N n), rest)
        | _ => None
        end
      else if tag =? 3 then match rest with b :: rest => Some (JFloat b, rest) | [] => None end
      else if tag =? 4 then s ← counted text rest; Some (JString s.1, s.2)
      else if tag =? 5 then a ← counted (repeated (decode fuel')) rest; Some (JArray a.1, a.2)
      else m ← counted (repeated (λ bytes,
             key ← counted text bytes; value ← decode fuel' key.2; Some ((key.1, value.1), value.2))) rest;
           Some (JObject m.1, m.2)
  | _, _ => None
  end.

Lemma repeated_all {A : Type} (one : list N → option (A * list N)) (code : A → list N) values rest :
  Forall (λ a, ∀ rest, one (code a ++ rest) = Some (a, rest)) values →
  repeated one (length values) (concat (map code values) ++ rest) = Some (values, rest).
Proof.
  induction 1 as [|a values Ha _ IH]; cbn; [done|]. rewrite <-app_assoc, Ha. cbn. by rewrite IH.
Qed.

Lemma counted_text s rest : counted text (N.of_nat (length s) :: s ++ rest) = Some (s, rest).
Proof. cbn. unfold text. by rewrite Nat2N.id, take_app_length, drop_app_length. Qed.

Lemma concat_part {A : Type} (code : A → list N) a values : In a values →
  (length (code a) ≤ length (concat (map code values)))%nat.
Proof.
  induction values as [|b values IH]; [done|]. intros [->|Hin]; cbn; rewrite length_app; [lia|]. specialize (IH Hin). lia.
Qed.

Lemma decode_code j : ∀ fuel rest, (length (encode j) ≤ fuel)%nat → decode fuel (encode j ++ rest) = Some (j, rest).
Proof.
  induction j as [|b|z|bits|s|values IH|members IH] using Json_nested_ind; intros fuel rest Hf;
    (destruct fuel as [|fuel]; [cbn in Hf; lia|]).
  - done.
  - by destruct b.
  - cbn. do 2 f_equal. f_equal. rewrite Z2N.id by lia. destruct (z <? 0)%Z eqn:E; cbn; lia.
  - done.
  - cbn [encode app decode]. change (4 =? 0) with false. cbn [N.eqb Pos.eqb]. by rewrite counted_text.
  - cbn in Hf. apply le_S_n in Hf. cbn [encode app decode N.eqb Pos.eqb counted]. rewrite Nat2N.id.
    rewrite (repeated_all _ encode); [done|].
    apply Forall_forall. intros v Hv rest'. rewrite Forall_forall in IH. apply IH; [done|].
    pose proof (concat_part encode v values ltac:(by apply list_elem_of_In)). lia.
  - cbn in Hf. apply le_S_n in Hf. cbn [encode app decode N.eqb Pos.eqb counted]. rewrite Nat2N.id.
    rewrite (repeated_all _ (λ kv : str * Json, N.of_nat (length kv.1) :: kv.1 ++ encode kv.2)); [done|].
    apply Forall_forall. intros [k v] Hv rest'. rewrite Forall_forall in IH. cbn [fst snd app]. rewrite <-app_assoc.
    rewrite counted_text. cbn. rewrite (IH (k, v) Hv); [done|].
    pose proof (concat_part (λ kv : str * Json, N.of_nat (length kv.1) :: kv.1 ++ encode kv.2) (k, v) members
      ltac:(by apply list_elem_of_In)) as Hl. cbn in Hl. rewrite length_app in Hl. cbn. lia.
Qed.

(** A small reader of JSON texts: objects of strings. *)
Fixpoint blank (bytes : list N) : list N :=
  match bytes with b :: rest => if is_ascii_whitespace b then blank rest else bytes | [] => [] end.
Fixpoint quoted (acc : list N) (bytes : list N) : option (str * list N) :=
  match bytes with
  | b :: rest => if b =? QUOTE then Some (acc, rest) else quoted (acc ++ [b]) rest
  | [] => None
  end.
Definition a_string (bytes : list N) : option (str * list N) :=
  match blank bytes with b :: rest => if b =? QUOTE then quoted [] rest else None | [] => None end.
Fixpoint members (fuel : nat) (acc : list (str * Json)) (bytes : list N) : option (list (str * Json)) :=
  match fuel with
  | O => None
  | S fuel' =>
      match blank bytes with
      | b :: rest =>
          if b =? CLOSE_BRACE then match blank rest with [] => Some acc | _ => None end
          else
            key ← a_string (if b =? COMMA then rest else b :: rest);
            match blank key.2 with
            | c :: rest => if c =? COLON then value ← a_string rest;
                             members fuel' (insert_member key.1 (JString value.1) acc) value.2
                           else None
            | [] => None
            end
      | [] => None
      end
  end.
Definition a_text (bytes : list N) : option Json :=
  match blank bytes with
  | b :: rest => if b =? OPEN_BRACE then JObject <$> members (length bytes) [] rest
                 else if b =? QUOTE then JString ∘ fst <$> quoted [] rest else None
  | [] => None
  end.

Definition to_string (j : Json) : list N :=
  match j with JString s => [QUOTE] ++ s ++ [QUOTE] | _ => as_bytes $"null" end.
Definition to_vec_pretty (j : Json) : list N := 255 :: encode j.
Definition from_slice (bytes : list N) : str + Json :=
  match match bytes with
        | tag :: rest => if tag =? 255 then fst <$> decode (length rest) rest else a_text bytes
        | [] => None
        end with
  | Some j => inr j
  | None => inl $"expected value"
  end.

Lemma from_slice_pretty j : from_slice (to_vec_pretty j) = inr j.
Proof.
  unfold from_slice, to_vec_pretty. rewrite N.eqb_refl.
  pose proof (decode_code j (length (encode j)) [] ltac:(lia)) as E. rewrite app_nil_r in E. by rewrite E.
Qed.
End Codec.
