(* ===== verification/SetupSafety.v ===== *)
(** * Properties of setting the sandbox up

    Two files change together: the configuration that names the wrapper, and the registry
    that owns it.  Whatever calls fail, each is the old file or the new one, and nothing
    else changes; what is enabled is disabled again. *)
From stdpp Require Import gmap sets.
From S2P Require Import Prelude Str Utf8.
From S2P Require Import Json JsonCodec Jsonc.
From S2P Require Import Fs Files Project ScaffoldSafety Repair Retire.
From S2P Require Import Wire SbxCommand OcConfig Sandbox SandboxSafety RegistrySafety.
From S2P Require Import SandboxSetup ConfigSafety.

(** ** Two files *)

Lemma houtcome_try_err {E A : Type} (m : Act E A) (P : Fs → Prop) (Q : A → Fs → Prop) (R R' : E → Fs → Prop) :
  houtcome P m Q R → (∀ e f, R e f → R' e f) → houtcome P m Q R'.
Proof. intros Hm HR. by eapply houtcome_weaken. Qed.

(** Membership in a list that is written out. *)
Ltac in_list := first [apply list_elem_of_here | apply list_elem_of_further; in_list].

Section TwoFiles.
Context (euid umask pid : N).
Context (from_slice : list N → str + Json) (to_string to_vec_pretty : Json → list N).
Context (l : list Path) (f0 : Fs).
Context (d d' : Path) (name name' : str) (wr1 wr2 wr3 : Writing).
Let path : Path := d ++ [name].
Let registry_path : Path := d' ++ [name'].
Let bak : Path := backup_path path.
Let t1 : Path := d ++ [wr_unique wr1].
Let t3 : Path := d ++ [wr_unique wr3].
Let t2 : Path := d' ++ [ $".rtrt-sandbox-state.tmp-" ++ show_N pid ++ $"-" ++ show_N (wr_nonce wr2)].

(** The places two operations on the two files use: names in real directories, which hold
    regular files or nothing, and are different. *)
Record two_files : Prop := mkTwo {
  tf_root : rooted f0;
  tf_places : Forall (place f0) l;
  tf_files : settled l f0 f0;
  tf_dir : real_dir f0 d;
  tf_dir' : real_dir f0 d';
  tf_all : Forall (λ q : Path, q ∈ l) [path; bak; t1; t3; registry_path; t2];
  tf_path : path ∉ [bak; t1; t3; registry_path; t2];
  tf_registry : registry_path ∉ [path; bak; t1; t3; t2];
}.

Hypothesis two : two_files.

Definition registry_node (registry : Json) : Node :=
  mkNode (File (to_vec_pretty registry)) euid (masked umask PRIVATE_FILE_MODE).

Lemma in_places q : q ∈ [path; bak; t1; t3; registry_path; t2] → q ∈ l.
Proof using two. intros Hq. pose proof (tf_all two) as Ha. rewrite Forall_forall in Ha. by apply Ha. Qed.

Lemma write_registry_outcome registry f1 : settled l f0 f1 →
  outcome (λ f, f = f1) (write_registry euid umask pid to_vec_pretty wr2 registry_path registry)
    (λ _ f, f = <[registry_path := registry_node registry]> f1) (λ _, leftover f1 t2).
Proof using two.
  intros Hs. pose proof two as [Hroot Hplaces Hfiles Hd Hd' _ _ _].
  assert (Hr : registry_path ∈ l) by (apply in_places; in_list).
  assert (Ht : t2 ∈ l) by (apply in_places; in_list).
  assert (H1 : ∀ f, f = f1 → leftover f1 t2 f) by (intros f ->; apply leftover_refl).
  unfold write_registry, write_registry_at. rewrite (parent_child d' name' : parent registry_path = Some d').
  eapply outcome_bind.
  { eapply outcome_failed; [apply read_only_outcome; read_only|]. intros ? f Hf. by apply H1. }
  intros found. match goal with |- context [if ?b then _ else _] => destruct b end; [by apply outcome_throw|].
  eapply outcome_bind.
  { apply outcome_context. eapply outcome_failed;
      [apply (create_dir_there l f0 Hroot Hplaces Hfiles euid umask d' (λ f, f = f1)); [by intros f ->|done]|].
    intros ? f Hf. by apply H1. }
  intros u. cbv zeta. destruct (_ <? _); [by apply outcome_throw|].
  assert (left_put : ∀ m b, leftover f1 t2 (<[t2 := mkNode (File b) euid m]> f1))
    by (intros; by apply leftover_put; [apply leftover_refl|]).
  eapply outcome_bind_try with (S := λ _ f, f = <[registry_path := registry_node registry]> f1) (T := λ _, leftover f1 t2).
  - eapply outcome_bind.
    { apply outcome_context. eapply outcome_failed; [by apply (create_place l f0)|]. intros e f Hf. by apply H1. }
    intros file w (-> & Hn & Hw). revert w Hw.
    set (n0 := mkNode (File []) euid (masked umask PRIVATE_FILE_MODE)).
    assert (Hrest : outcome (λ f, f = <[t2 := n0]> f1)
      (io (write_all (wr_wrote wr2) t2 (to_vec_pretty registry)) ≫= λ _,
       io sync_data ≫= λ _, context ($"replace " ++ display registry_path) (rename t2 registry_path))
      (λ _ f, f = <[registry_path := registry_node registry]> f1) (λ _, leftover f1 t2)); [|exact Hrest].
    eapply outcome_bind; [by apply outcome_io, write_place|].
    intros a. eapply outcome_bind.
    { apply outcome_io. eapply outcome_failed; [apply sync_place|]. intros e f ->. apply left_put. }
    intros b. apply outcome_context. eapply outcome_failed;
      [by apply (rename_place l f0 Hroot Hplaces Hfiles f1 t2 registry_path Hs Ht Hr (registry_node registry))|].
    intros e f ->. apply left_put.
  - intros u'. by apply outcome_ret.
  - intros e. eapply outcome_bind with (S := λ _, leftover f1 t2); [|intros r; by apply outcome_throw].
    eapply outcome_failed; [by apply (remove_leftover l f0)|done].
Qed.

(** *** What is read *)

Lemma houtcome_look {A : Type} (g : Fs → IoError + A) (f1 : Fs) (Q : A → Prop) (R : IoError → Prop) :
  (∀ e, outside e → R e) → match g f1 with inr a => Q a | inl e => R e end →
  houtcome (λ f, f = f1) (look g) (λ a f, f = f1 ∧ Q a) (λ e f, f = f1 ∧ R e).
Proof using.
  intros HR Hg. apply houtcome_call; [intros e f He ->; auto|]. intros f ->. by destruct (g f1).
Qed.

Lemma metadata_outcome f1 q : settled l f0 f1 → q ∈ l →
  houtcome (λ f, f = f1) (path_metadata q) (λ o f, f = f1 ∧ o = f1 !! q) (λ _ f, f = f1).
Proof using two.
  intros Hs Hq. pose proof two as [Hroot Hplaces Hfiles _ _ _ _ _]. unfold path_metadata.
  eapply houtcome_bind_try with (S := λ n f, f = f1 ∧ f1 !! q = Some n)
    (T := λ e f, f = f1 ∧ (io_kind e = NotFound → f1 !! q = None)).
  - apply houtcome_look; [by intros e []|]. rewrite (settled_lstat l f0) by done. by destruct (f1 !! q).
  - intros n. apply houtcome_ret. intros f [-> ->]. done.
  - intros e. case_bool_decide; [apply houtcome_ret|apply houtcome_throw]; intros f [-> Hn]; [|done].
    by rewrite Hn.
Qed.

Lemma read_config_outcome f1 : settled l f0 f1 →
  houtcome (λ f, f = f1) (read_opencode_config from_slice path)
    (λ c f, f = f1 ∧ holds_config from_slice f1 path c.2) (λ _ f, f = f1).
Proof using two.
  intros Hs. pose proof two as [Hroot Hplaces Hfiles _ _ _ _ _].
  assert (Hp : path ∈ l) by (apply in_places; in_list).
  unfold read_opencode_config. eapply houtcome_bind; [by apply metadata_outcome|].
  intros [n|]; (apply houtcome_at; intros ? [-> Hn]).
  - destruct (_ || _) eqn:E; [by apply houtcome_throw|]. eapply houtcome_bind.
    { apply (houtcome_map_err _ _ _ _ (λ _ f, f = f1)). unfold read_to_string.
      eapply houtcome_weaken; [apply houtcome_look with (R := λ _, True)
        (Q := λ text, node_kind n = File (as_bytes text))|by intros ? ->|intros a f Ha; exact Ha|by intros e f []]; [done|].
      rewrite (settled_resolve l f0 Hplaces Hfiles f1 path n Hs Hp), <-Hn by (done || by apply file_not_symlink, (proj2 Hs path)).
      destruct n as [[|contents|] u m]; try done. destruct (from_utf8 contents) as [s|] eqn:Eu; [|done].
      apply from_utf8_bytes in Eu as <-. done. }
    intros text. apply houtcome_at. intros ? [-> Hk]. eapply houtcome_bind with
      (S := λ j f, f = f1 ∧ parse_json_or_jsonc from_slice (display path) (as_bytes text) = inr j).
    + intros w Hh Hw. unfold of_sum. by destruct (parse_json_or_jsonc _ _ _).
    + intros j. apply houtcome_ret. intros f [-> Hj]. split; [done|]. unfold holds_config. rewrite <-Hn. cbn. eauto.
  - apply houtcome_ret. intros f ->. split; [done|]. unfold holds_config. by rewrite <-Hn.
Qed.

(** *** What is written *)

Lemma steady_config wr raw before root :
  steady (write_config euid umask from_slice to_string wr path raw before root).
Proof using.
  unfold write_config, write_opencode_config, backup_if_needed, copy, write_file,
    write_private_file_atomic_same_dir, reject_symlink, path_metadata, exists_, context, io.
  assert (Hd : ∀ p, steady (create_dir_all euid umask p)) by (intros p; apply steady_make_dirs).
  steady; try apply steady_make_dirs; case_bool_decide; steady.
Qed.

Lemma steady_registry registry :
  steady (write_registry euid umask pid to_vec_pretty wr2 registry_path registry).
Proof using. unfold write_registry, write_registry_at, context, io. steady; apply steady_make_dirs. Qed.

(** The registry is what it was; the configuration is what it was or [j]. *)
Definition only_config (f1 : Fs) (j : Json) (f : Fs) : Prop :=
  settled l f0 f ∧ f !! registry_path = f1 !! registry_path ∧
  (f !! path = f1 !! path ∨ written euid from_slice f path j).

Lemma config_outcome wr raw before root f1 : wr = wr1 ∨ wr = wr3 → settled l f0 f1 →
  houtcome (λ f, f = f1) (write_config euid umask from_slice to_string wr path raw before root)
    (λ _ f, only_config f1 root f ∧ written euid from_slice f path root) (λ _, only_config f1 root).
Proof using two.
  intros Hwr Hs. pose proof two as [Hroot Hplaces Hfiles Hd _ _ Hp Hr]. apply houtcome_of; [apply steady_config|].
  set (t := d ++ [wr_unique wr]). assert (Ht : t ∈ [path; bak; t1; t3; registry_path; t2]).
  { destruct Hwr as [->| ->]; in_list. }
  assert (Hne : t ∈ [bak; t1; t3; registry_path; t2] ∧ t ∈ [path; bak; t1; t3; t2]).
  { destruct Hwr as [->| ->]; split; in_list. }
  destruct Hne as [Hne1 Hne2].
  assert (Hunt : ∀ f, untouched [path; t; bak] f1 f → f !! registry_path = f1 !! registry_path).
  { intros f Hu. apply Hu. intros [E|[E|[E|E%not_elem_of_nil]%elem_of_cons]%elem_of_cons]%elem_of_cons;
      [..|done]; apply Hr; rewrite E; [in_list|done|in_list]. }
  eapply outcome_weaken; [apply (write_config_outcome euid umask from_slice to_string l f0 Hroot Hplaces Hfiles d name (wr_unique wr) Hd)
    with (f1 := f1)|done| |]; [apply in_places; in_list|by apply in_places|apply in_places; in_list| | |done| |].
  - intros E. apply Hp. fold path bak in E. rewrite E. in_list.
  - intros E. apply Hp. fold path in E. rewrite E. done.
  - intros u f (Hsf & Hu & Hw). split; [|done]. split; [done|]. split; [by apply Hunt|by right].
  - intros e f (Hsf & Hu & Hw). split; [done|]. split; [by apply Hunt|done].
Qed.

(** The configuration changed from one value to another, or not at all. *)
Definition between (f1 : Fs) (before after : Json) (f : Fs) : Prop :=
  settled l f0 f ∧ f !! registry_path = f1 !! registry_path ∧
  (f !! path = f1 !! path ∨ written euid from_slice f path before ∨ written euid from_slice f path after).

Lemma only_between f1 before after f : only_config f1 after f → between f1 before after f.
Proof using. intros (? & ? & [?|?]); split; auto. Qed.

Lemma roll_back_outcome failed error before after f1 f2 : only_config f1 after f2 →
  houtcome (λ f, f = f2) (roll_back euid umask from_slice to_string wr3 failed error path before)
    (λ _ _, False) (λ _, between f1 before after).
Proof using two.
  intros (Hs & Hr & Hp). assert (H2 : between f1 before after f2) by (by apply only_between).
  unfold roll_back. eapply houtcome_bind with (S := λ _ f, f = f2).
  { eapply houtcome_weaken; [by apply read_config_outcome|done|by intros c f []|by intros e f ->]. }
  intros current. eapply houtcome_bind_try; [by apply config_outcome; [right|]|..].
  - intros u. apply houtcome_throw. intros f ((Hsf & Hrf & _) & Hw). split; [done|]. split; [congruence|auto].
  - intros e. apply houtcome_throw. intros f (Hsf & Hrf & Hw). split; [done|]. split; [congruence|].
    destruct Hw as [E|?]; [|auto]. destruct Hp as [Hp|Hp]; [left; congruence|].
    right. right. by eapply written_same.
Qed.

Lemma write_both_outcome raw before root registry f1 : settled l f0 f1 → holds_config from_slice f1 path before →
  houtcome (λ f, f = f1)
    (write_both euid umask pid from_slice to_string to_vec_pretty wr1 wr2 wr3 path registry_path raw before root registry)
    (λ _ f, settled l f0 f ∧ holds_config from_slice f path root ∧ f !! registry_path = Some (registry_node registry))
    (λ _, between f1 before root).
Proof using two.
  intros Hs Hc. pose proof two as [Hroot Hplaces Hfiles _ _ _ Hp Hr]. unfold write_both.
  assert (Hrl : registry_path ∈ l) by (apply in_places; in_list).
  assert (Ht2 : t2 ∈ l) by (apply in_places; in_list).
  assert (Hpr : path ≠ registry_path) by (intros E; apply Hp; rewrite E; in_list).
  assert (Hpt : path ≠ t2) by (intros E; apply Hp; rewrite E; in_list).
  assert (Hrt : registry_path ≠ t2) by (intros E; apply Hr; rewrite E; in_list).
  set (changed := negb (json_eqb root before)).
  eapply houtcome_bind with (S := λ _ f, (only_config f1 root f ∧ (changed = false → f = f1)) ∧
    holds_config from_slice f path root).
  { destruct changed eqn:Ec.
    - eapply houtcome_weaken; [by apply (config_outcome wr1 raw before root f1); [left|]|done| |intros e f; apply only_between].
      intros u f [Ho Hw]. split; [done|by apply (written_holds (euid := euid))].
    - apply houtcome_ret. intros f ->. subst changed. apply negb_false_iff, json_eqb_eq in Ec as ->.
      split; [|done]. split; [split; auto|done]. }
  intros u. apply houtcome_at. intros f2 [[(Hs2 & Hr2 & Hp2) Hsame] Hh2].
  eapply houtcome_bind_try; [apply houtcome_of; [apply steady_registry|by apply write_registry_outcome]|..].
  - intros u'. apply houtcome_ret. intros f ->. split; [by apply settled_put|]. split; [|by rewrite lookup_insert_eq].
    unfold holds_config in *. by rewrite lookup_insert_ne.
  - intros e. apply houtcome_at. intros f3 Hf3.
    assert (Ho : only_config f1 root f3).
    { split; [by apply (settled_leftover l f0 f2 t2)|]. destruct Hf3 as [Hu _].
      rewrite (Hu registry_path) by by intros ?%list_elem_of_singleton. split; [done|].
      assert (Ep : f3 !! path = f2 !! path) by (apply Hu; by intros ?%list_elem_of_singleton).
      unfold written in *. by rewrite Ep. }
    destruct changed; [|apply houtcome_throw; intros f ->; by apply only_between].
    eapply houtcome_weaken; [by apply roll_back_outcome|done|by intros|done].
Qed.

Lemma remove_registry_outcome f1 : settled l f0 f1 →
  houtcome (λ f, f = f1) (remove_registry_at registry_path)
    (λ _ f, f = delete registry_path f1) (λ _ f, f = f1).
Proof using two.
  intros Hs. pose proof two as [Hroot Hplaces Hfiles _ _ _ _ _].
  assert (Hrl : registry_path ∈ l) by (apply in_places; in_list).
  apply (houtcome_map_err _ _ _ _ (λ _ f, f = f1)), houtcome_call; [done|]. intros f ->.
  rewrite (settled_locate l f0) by done. destruct (f1 !! registry_path) as [n|]; [|done]. by destruct (is_dir n).
Qed.

Lemma restore_outcome raw state root f1 : settled l f0 f1 →
  houtcome (λ f, f = f1)
    (restore_and_remove euid umask from_slice to_string wr1 wr3 path registry_path raw state root)
    (λ _ f, settled l f0 f ∧ written euid from_slice f path (restored state root) ∧ f !! registry_path = None)
    (λ _, between f1 root (restored state root)).
Proof using two.
  intros Hs. pose proof two as [Hroot Hplaces Hfiles _ _ _ Hp Hr]. unfold restore_and_remove.
  assert (Hrl : registry_path ∈ l) by (apply in_places; in_list).
  assert (Hpr : path ≠ registry_path) by (intros E; apply Hp; rewrite E; in_list).
  eapply houtcome_bind with (S := λ _ f, f = f1).
  { intros w Hh Hw. unfold of_sum. destruct (root_object _ _ _); split; try done. rewrite Hw. split; auto. }
  intros u. eapply houtcome_bind with (S := λ _ f, only_config f1 (restored state root) f ∧
    written euid from_slice f path (restored state root)).
  { eapply houtcome_weaken; [by apply (config_outcome wr1 raw root (restored state root) f1); [left|]|done|done|intros e f; apply only_between]. }
  intros u'. apply houtcome_at. intros f2 [Ho Hw]. pose proof Ho as (Hs2 & _ & _).
  eapply houtcome_bind_try; [by apply remove_registry_outcome|..].
  - intros u''. apply houtcome_ret. intros f ->. split; [by apply settled_delete|].
    unfold written in *. rewrite lookup_delete_ne, lookup_delete_eq by done. done.
  - intros e. eapply houtcome_weaken; [by apply roll_back_outcome|done|by intros|done].
Qed.

(** *** Enabling *)

Context (uid : N) (executable backend : Path) (tool_paths : Act str (list Path)).

Inductive Enabling := ForProject (boundary : ProjectBoundary) | ForMachine.

Definition enable (e : Enabling) : Act str () :=
  match e with
  | ForProject boundary =>
      enable_opencode_sandbox_at_registry_locked euid umask pid from_slice to_string to_vec_pretty wr1 wr2 wr3
        uid tool_paths boundary path executable backend registry_path
  | ForMachine =>
      enable_opencode_machine_sandbox_locked euid umask pid from_slice to_string to_vec_pretty wr1 wr2 wr3
        uid path executable backend registry_path
  end.

(** The configuration with the wrapper for its shell. *)
Definition wrapped (before : Json) : Json := set_member $"shell" (path_json executable) before.

(** What the registry becomes, of the one there was. *)
Definition extends_to (e : Enabling) (base registry : Json) : Prop :=
  match e with
  | ForProject boundary => ∃ tools, authorize_project_with_tool_paths base boundary tools = inr registry
  | ForMachine => registry = base
  end.

(** The registry an enabling writes: of the one that was there, or a new one that
    remembers the user's shell. *)
Definition granted (e : Enabling) (f1 : Fs) (before registry : Json) : Prop :=
  ∃ base, (base = new_registry executable backend path (get $"shell" before) ∨
           loaded from_slice f1 registry_path uid executable base ∧
           get_str $"shell" before = Some (display executable)) ∧ extends_to e base registry.

(** A program that only looks, read as an outcome. *)
Lemma houtcome_answer {A : Type} (m : Act str A) (f1 : Fs) (Q : A → Prop) : read_only m → steady m →
  (∀ w a w', tree w = f1 → m w = (inr a, w') → Q a) →
  houtcome (λ f, f = f1) m (λ a f, f = f1 ∧ Q a) (λ _ f, f = f1).
Proof using.
  intros Hr Hs HQ w Hh Hw. specialize (Hr w). pose proof (honest_steady m w Hs Hh) as Hh'. specialize (HQ w).
  destruct (m w) as [[e|a] w']; cbn in *; (split; [done|]); [congruence|]. split; [congruence|]. by apply (HQ a w').
Qed.

Lemma steady_ancestors q u reject l' : steady (shell_ancestors q u reject l').
Proof using.
  induction l' as [|p l' IH]; cbn; [done|]. apply steady_bind; [destruct reject; steady|]. intros [|]; [done|].
  unfold context. apply steady_bind; [steady|]. intros m. repeat (case_match; try done).
Qed.

Lemma steady_shell root q u reject : steady (validate_opencode_shell_executable_for_uid root q u reject).
Proof using.
  unfold validate_opencode_shell_executable_for_uid, context.
  match goal with |- steady (if ?b then _ else _) => destruct b end; [done|]. apply steady_bind; [steady|].
  intros m. destruct (_ || _); [done|]. destruct (foreign u m); [done|]. destruct (parent q); [|done].
  apply steady_ancestors.
Qed.

#[local] Hint Resolve steady_shell : steady.

Lemma steady_load q u x : steady (load_registry_at from_slice q u x).
Proof using. unfold load_registry_at, context, io. steady. Qed.

Lemma owned_registry_outcome mismatch root f1 :
  houtcome (λ f, f = f1) (owned_registry from_slice mismatch uid path executable backend registry_path root)
    (λ r f, f = f1 ∧ (r = new_registry executable backend path (get $"shell" root) ∨
       loaded from_slice f1 registry_path uid executable r ∧ get_str $"shell" root = Some (display executable)))
    (λ _ f, f = f1).
Proof using.
  assert (Hl : read_only (load_registry_at from_slice registry_path uid executable)) by apply read_only_load.
  apply houtcome_answer.
  - unfold owned_registry. apply read_only_bind; [apply read_only_holds_at|]. intros [|]; [|done].
    apply read_only_bind; [done|]. intros r. repeat (case_match; try done).
  - unfold owned_registry. apply steady_bind; [apply steady_holds_at|]. intros [|]; [|done].
    apply steady_bind; [apply steady_load|]. intros r. repeat (case_match; try done).
  - intros w r w' Hw H. unfold owned_registry in H.
    apply bind_answer in H as (there & w1 & Ht & Ht1 & H); [|apply read_only_holds_at].
    destruct there; [|left; by injection H].
    apply bind_answer in H as (r1 & w2 & Hr1 & Ht2 & H); [|done].
    destruct (_ || _); [done|]. destruct (bool_decide (get_str $"shell" root = _)) eqn:E; [|done].
    cbn [negb] in H. injection H as -> _. right. apply load_answer in Hr1. split; [|by apply bool_decide_eq_true in E].
    by rewrite Ht1, Hw in Hr1.
Qed.

Hypothesis tools_look : read_only tool_paths.
Hypothesis tools_steady : steady tool_paths.

(** A check that only looks. *)
Lemma houtcome_check {A : Type} (m : Act str A) (f1 : Fs) : read_only m → steady m →
  houtcome (λ f, f = f1) m (λ _ f, f = f1) (λ _ f, f = f1).
Proof using. intros Hr Hs. apply houtcome_of; [done|]. by apply (read_only_outcome m (λ f, f = f1)). Qed.

Lemma steady_refusal p label : steady (reject_symlink p label).
Proof using.
  unfold reject_symlink, path_metadata. apply steady_bind; [|intros o; by repeat (case_match; try done)].
  apply steady_bind; [steady|]. intros [e|n]; [by case_bool_decide|done].
Qed.

(** What follows once the configuration was read. *)
Lemma grant_outcome e mismatch before f1 (rest : Json → Act str ()) :
  (∀ base, houtcome (λ f, f = f1) (rest base)
     (λ _ f, settled l f0 f ∧ holds_config from_slice f path (wrapped before) ∧
        ∃ registry, f !! registry_path = Some (registry_node registry) ∧ extends_to e base registry)
     (λ _, between f1 before (wrapped before))) →
  settled l f0 f1 →
  houtcome (λ f, f = f1)
    (of_sum (root_object $"a JSON object" path before) ≫= λ _,
     base ← owned_registry from_slice mismatch uid path executable backend registry_path before; rest base)
    (λ _ f, settled l f0 f ∧ is_Some (as_object before) ∧ holds_config from_slice f path (wrapped before) ∧
       ∃ registry, f !! registry_path = Some (registry_node registry) ∧ granted e f1 before registry)
    (λ _, between f1 before (wrapped before)).
Proof using two.
  intros Hrest Hs. assert (H1 : ∀ f, f = f1 → between f1 before (wrapped before) f) by (intros f ->; split; auto).
  eapply houtcome_bind with (S := λ _ f, f = f1 ∧ is_Some (as_object before)).
  { intros w Hh Hw. unfold of_sum, root_object. destruct (as_object before); (split; [done|]); [|by apply H1].
    split; [done|by eexists]. }
  intros u. apply houtcome_at. intros ? [-> Ho]. eapply houtcome_bind.
  { eapply houtcome_try_err; [apply owned_registry_outcome|]. intros ? f Hf. by apply H1. }
  intros base. apply houtcome_at. intros ? [-> Hb]. eapply houtcome_weaken; [apply Hrest|done| |done].
  intros a f (Hsf & Hcf & registry & Hrf & He). do 3 (split; [done|]). exists registry. split; [done|]. by exists base.
Qed.

Lemma enable_outcome e f1 : settled l f0 f1 →
  houtcome (λ f, f = f1) (enable e)
    (λ _ f, ∃ before, holds_config from_slice f1 path before ∧
       settled l f0 f ∧ is_Some (as_object before) ∧ holds_config from_slice f path (wrapped before) ∧
       ∃ registry, f !! registry_path = Some (registry_node registry) ∧ granted e f1 before registry)
    (λ _ f, f = f1 ∨ ∃ before, holds_config from_slice f1 path before ∧ between f1 before (wrapped before) f).
Proof using two tools_look tools_steady.
  intros Hs. set (R := λ (_ : str) f, f = f1 ∨ ∃ before, holds_config from_slice f1 path before ∧ between f1 before (wrapped before) f).
  assert (H1 : ∀ e f, f = f1 → R e f) by (intros; by left).
  assert (Hlook : ∀ A (m : Act str A), read_only m → steady m → houtcome (λ f, f = f1) m (λ _ f, f = f1) R).
  { intros A m Hr Hm. eapply houtcome_try_err; [by apply houtcome_check|exact H1]. }
  destruct e as [boundary|]; cbn [enable].
  - unfold enable_opencode_sandbox_at_registry_locked.
    eapply houtcome_bind; [apply Hlook; [apply read_only_shell|apply steady_shell]|]. intros u1.
    eapply houtcome_bind; [apply Hlook; [apply read_only_reject|apply steady_refusal]|]. intros u2.
    eapply houtcome_bind; [eapply houtcome_try_err; [by apply read_config_outcome|exact H1]|].
    intros [raw before]. apply houtcome_at. intros ? [-> Hc]. cbn in Hc.
    eapply houtcome_weaken; [apply (grant_outcome (ForProject boundary) _ before f1)|done|intros a f Hf; by exists before|
      intros e f Hf; right; by exists before]; [|done].
    intros base. eapply houtcome_bind.
    { eapply houtcome_try_err; [by apply houtcome_check|]. intros e f ->. by split; auto. }
    intros tools. eapply houtcome_bind with
      (S := λ registry f, f = f1 ∧ authorize_project_with_tool_paths base boundary tools = inr registry).
    { intros w Hh Hw. unfold of_sum. destruct (authorize_project_with_tool_paths base boundary tools); (split; [done|]);
        [rewrite Hw; split; auto|done]. }
    intros registry. apply houtcome_at. intros ? [-> Ha].
    eapply houtcome_weaken; [by apply write_both_outcome|done| |done].
    intros a f (Hsf & Hcf & Hrf). do 2 (split; [done|]). exists registry. split; [done|by exists tools].
  - unfold enable_opencode_machine_sandbox_locked.
    eapply houtcome_bind; [apply Hlook; [apply read_only_reject|apply steady_refusal]|]. intros u1.
    eapply houtcome_bind; [apply Hlook; [apply read_only_holds_at|apply steady_holds_at]|]. intros there.
    eapply houtcome_bind; [apply Hlook; destruct there; try done; unfold validate_config_file, context; [read_only|steady]|]. intros u2.
    eapply houtcome_bind; [eapply houtcome_try_err; [by apply read_config_outcome|exact H1]|].
    intros [raw before]. apply houtcome_at. intros ? [-> Hc]. cbn in Hc.
    eapply houtcome_weaken; [apply (grant_outcome ForMachine _ before f1)|done|intros a f Hf; by exists before|
      intros e f Hf; right; by exists before]; [|done].
    intros registry. eapply houtcome_weaken; [by apply write_both_outcome|done| |done].
    intros a f (Hsf & Hcf & Hrf). do 2 (split; [done|]). by exists registry.
Qed.

(** *** Disabling *)

Hypothesis path_named : named path.

(** The registry that is there owns this configuration. *)
Definition owns_path (f1 : Fs) : Prop := ∀ state, loaded from_slice f1 registry_path uid executable state →
  get_str $"config_path" state = Some (display path).

Lemma load_outcome f1 :
  houtcome (λ f, f = f1) (load_registry_at from_slice registry_path uid executable)
    (λ state f, f = f1 ∧ loaded from_slice f1 registry_path uid executable state) (λ _ f, f = f1).
Proof using.
  apply houtcome_answer; [apply read_only_load|apply steady_load|].
  intros w state w' Hw H. rewrite <-Hw. by eapply load_answer.
Qed.

Lemma owned_config_outcome state f1 : settled l f0 f1 → get_str $"config_path" state = Some (display path) →
  houtcome (λ f, f = f1) (owned_config from_slice state)
    (λ c f, f = f1 ∧ c.1 = path ∧ holds_config from_slice f1 path c.2.2 ∧
       is_Some (get_str $"owned_shell" state) ∧ get_str $"shell" c.2.2 = get_str $"owned_shell" state)
    (λ _ f, f = f1).
Proof using two path_named.
  intros Hs Hp. unfold owned_config. rewrite Hp.
  destruct (get_str $"owned_shell" state) as [owned|]; [|by apply houtcome_throw].
  assert (Epath : path_components (display path) = path).
  { pose proof (path_of_display path path_named) as E. unfold path_of in E. by injection E. }
  rewrite Epath. eapply houtcome_bind; [by apply read_config_outcome|]. intros config.
  apply houtcome_at. intros ? [-> Hc]. destruct (bool_decide (get_str $"shell" config.2 = Some owned)) eqn:E;
    [|by apply houtcome_throw]. apply bool_decide_eq_true in E. apply houtcome_ret. intros f ->. cbn. eauto 10.
Qed.

(** What taking the wrapper out again leaves. *)
Definition withdrawn (f1 f : Fs) : Prop := ∃ state state' before,
  loaded from_slice f1 registry_path uid executable state ∧ holds_config from_slice f1 path before ∧
  get $"prior_shell" state' = get $"prior_shell" state ∧
  get_str $"shell" before = get_str $"owned_shell" state ∧
  settled l f0 f ∧ written euid from_slice f path (restored state' before) ∧ f !! registry_path = None.

Lemma disable_machine_outcome f1 : settled l f0 f1 → owns_path f1 →
  houtcome (λ f, f = f1)
    (disable_opencode_sandbox_global_locked euid umask from_slice to_string wr1 wr3 uid true registry_path executable)
    (λ _, withdrawn f1)
    (λ _ f, f = f1 ∨ ∃ state before, holds_config from_slice f1 path before ∧ between f1 before (restored state before) f).
Proof using two path_named.
  intros Hs Ho. unfold disable_opencode_sandbox_global_locked.
  eapply houtcome_bind; [eapply houtcome_try_err; [apply load_outcome|by left]|]. intros state.
  apply houtcome_at. intros ? [-> Hl]. eapply houtcome_bind.
  { eapply houtcome_try_err; [by apply owned_config_outcome; [|apply Ho]|by left]. }
  intros [p [raw root]]. apply houtcome_at. intros ? (-> & Hpp & Hc & _ & Hshell). cbn in Hpp, Hc, Hshell. subst p.
  eapply houtcome_weaken; [by apply restore_outcome|done| |intros e f Hf; right; eexists _, root; split; [done|exact Hf]].
  intros a f (Hsf & Hw & Hr). exists state, state, root. do 6 (split; [done|]). done.
Qed.

Lemma disable_project_outcome boundary f1 : settled l f0 f1 → owns_path f1 →
  houtcome (λ f, f = f1)
    (disable_opencode_sandbox_at_registry_locked euid umask pid from_slice to_string to_vec_pretty wr1 wr2 wr3 uid
       boundary true registry_path executable)
    (λ _ f, withdrawn f1 f ∨ ∃ state state',
       loaded from_slice f1 registry_path uid executable state ∧
       deauthorize_project state boundary = inr (state', false) ∧
       settled l f0 f ∧ f = <[registry_path := registry_node state']> f1)
    (λ _ f, leftover f1 t2 f ∨ ∃ state before, holds_config from_slice f1 path before ∧ between f1 before (restored state before) f).
Proof using two path_named.
  intros Hs Ho. set (R := λ (_ : str) f, leftover f1 t2 f ∨ ∃ state before, holds_config from_slice f1 path before ∧ between f1 before (restored state before) f).
  assert (H1 : ∀ e f, f = f1 → R e f) by (intros e f ->; left; apply leftover_refl).
  unfold disable_opencode_sandbox_at_registry_locked.
  eapply houtcome_bind; [eapply houtcome_try_err; [apply load_outcome|exact H1]|]. intros state.
  apply houtcome_at. intros ? [-> Hl]. eapply houtcome_bind.
  { eapply houtcome_try_err; [by apply owned_config_outcome; [|apply Ho]|exact H1]. }
  intros [p [raw root]]. apply houtcome_at. intros ? (-> & Hpp & Hc & _ & Hshell). cbn in Hpp, Hc, Hshell. subst p.
  assert (Hsum : ∀ A (r : str + A), houtcome (λ f, f = f1) (of_sum r) (λ a f, f = f1 ∧ r = inr a) R).
  { intros A r w Hh Hw. unfold of_sum. destruct r; split; auto. }
  eapply houtcome_bind; [apply Hsum|]. intros tools. apply houtcome_at. intros ? [-> _].
  eapply houtcome_bind; [apply Hsum|]. intros u. apply houtcome_at. intros ? [-> _]. cbn [negb].
  eapply houtcome_bind; [apply Hsum|]. intros [state' last]. apply houtcome_at. intros ? [-> Hd].
  destruct last.
  - eapply houtcome_weaken; [by apply restore_outcome|done| |intros e f Hf; right; eexists _, root; split; [done|exact Hf]].
    intros a f (Hsf & Hw & Hr). left. exists state, state', root. do 2 (split; [done|]).
    split; [|done]. apply deauthorize_answer in Hd as (projects & _ & _ & -> & _). by apply get_with.
  - eapply houtcome_weaken; [apply houtcome_of; [apply steady_registry|by apply write_registry_outcome]|done| |by left].
    intros a f ->. right. exists state, state'. do 2 (split; [done|]). split; [|done].
    apply settled_put; [done|apply in_places; in_list|done].
Qed.

(** What the registry of an enabling is read as later. *)
Lemma registry_reads registry f1 state : (∀ j, from_slice (to_vec_pretty j) = inr j) → settled l f0 f1 →
  f1 !! registry_path = Some (registry_node registry) →
  loaded from_slice f1 registry_path uid executable state → state = registry.
Proof using two.
  intros Hserde Hs Hr [_ (bytes & Hb & Hstate) _ _]. pose proof two as [_ Hplaces Hfiles _ _ _ _ _].
  assert (Hrl : registry_path ∈ l) by (apply in_places; in_list).
  unfold read_at in Hb. rewrite (settled_resolve l f0 Hplaces Hfiles f1 registry_path _ Hs Hrl Hr eq_refl), Hr in Hb.
  cbn in Hb. injection Hb as <-. rewrite Hserde in Hstate. by injection Hstate.
Qed.

Lemma granted_new e f1 before registry : settled l f0 f1 → f1 !! registry_path = None → granted e f1 before registry →
  extends_to e (new_registry executable backend path (get $"shell" before)) registry.
Proof using two.
  intros Hs Hn (base & [->|[[(n & Hl & _) _ _ _] _]] & He); [done|].
  pose proof two as [Hroot Hplaces Hfiles _ _ _ _ _].
  rewrite (settled_lstat l f0) in Hl by (done || (apply in_places; in_list)). by rewrite Hn in Hl.
Qed.
End TwoFiles.

Lemma holds_config_same from_slice f p a b : holds_config from_slice f p a → holds_config from_slice f p b → a = b.
Proof.
  unfold holds_config. destruct (f !! p); [|congruence]. intros (b1 & H1 & P1) (b2 & H2 & P2).
  rewrite H1 in H2. injection H2 as <-. congruence.
Qed.

(** The members an enabling gives a new registry. *)
Lemma new_registry_get executable backend path prior :
  let registry := new_registry executable backend path prior in
  get $"config_path" registry = Some (path_json path) ∧ get $"owned_shell" registry = Some (path_json executable) ∧
  get $"prior_shell" registry = Some (default JNull prior) ∧ projects_of registry = Some [].
Proof. repeat split. Qed.

Lemma extends_get executable backend path prior e registry key : key ≠ $"projects" →
  extends_to e (new_registry executable backend path prior) registry →
  get key registry = get key (new_registry executable backend path prior).
Proof.
  intros Hk. destruct e as [boundary|]; cbn; [|by intros ->].
  intros (tools & (projects & _ & _ & ->)%authorize_answer). by apply get_with.
Qed.

(** Taking the wrapper out again gives the user's members back. *)
Lemma restored_members state before executable key : is_Some (as_object before) →
  get $"prior_shell" state = Some (default JNull (get $"shell" before)) →
  get key (restored state (wrapped executable before)) =
  if str_eqb key $"shell" then match get $"shell" before with Some JNull => None | prior => prior end
  else get key before.
Proof.
  intros [members Ho] Hp. destruct before as [| | | | | |m]; try done. clear Ho. unfold restored, wrapped. rewrite Hp.
  cbn [get set_member unset_member] in *. destruct (find_member $"shell" m) as [prior|] eqn:Es; cbn [default].
  - unfold id. destruct prior; cbn [get set_member unset_member]; rewrite ?find_insert, ?find_remove, ?find_insert;
      by destruct (str_eqb key $"shell").
  - cbn [get unset_member]. rewrite find_remove, find_insert. by destruct (str_eqb key $"shell").
Qed.

(** ** What an operation on both files leaves *)

Section Theorems.
Context (euid umask pid : N).
Context (from_slice : list N → str + Json) (to_string to_vec_pretty : Json → list N).
Context (l : list Path) (f0 : Fs) (d d' : Path) (name name' : str).
Let path : Path := d ++ [name].
Let registry_path : Path := d' ++ [name'].
Context (uid : N) (executable backend : Path) (tool_paths : Act str (list Path)).
Hypothesis tools_look : read_only tool_paths.
Hypothesis tools_steady : steady tool_paths.


Inductive Disabling := LastProject (boundary : ProjectBoundary) | WholeMachine.
Definition disable (wr1 wr2 wr3 : Writing) (x : Disabling) : Act str () :=
  match x with
  | LastProject boundary => disable_opencode_sandbox_at_registry_locked euid umask pid from_slice to_string to_vec_pretty
      wr1 wr2 wr3 uid boundary true registry_path executable
  | WholeMachine => disable_opencode_sandbox_global_locked euid umask from_slice to_string wr1 wr3 uid true registry_path executable
  end.

(** C6: Disabling undoes enabling.  On a machine without a registry, enabling the sandbox
    and then disabling it, for the machine or for the only checkout it was enabled for,
    leaves no registry and a configuration with every member it had, and no other; only a
    [shell] that was [null] is gone.  Nothing but the two files, the backup and temporary
    files has changed. *)
Theorem disable_undoes_enable wr1 wr2 wr3 wr4 wr5 wr6 e x w w1 w2 :
  two_files pid l f0 d d' name name' wr1 wr2 wr3 → two_files pid l f0 d d' name name' wr4 wr5 wr6 →
  (∀ j, from_slice (to_vec_pretty j) = inr j) → named path →
  honest w → tree w = f0 → f0 !! registry_path = None →
  match x with LastProject boundary => e = ForProject boundary | WholeMachine => True end →
  enable euid umask pid from_slice to_string to_vec_pretty d d' name name' wr1 wr2 wr3
    uid executable backend tool_paths e w = (inr (), w1) →
  disable wr4 wr5 wr6 x w1 = (inr (), w2) →
  settled l f0 (tree w2) ∧ tree w2 !! registry_path = None ∧
  ∃ before after, holds_config from_slice f0 path before ∧ holds_config from_slice (tree w2) path after ∧
    ∀ key, get key after =
      if str_eqb key $"shell" then match get $"shell" before with Some JNull => None | prior => prior end
      else get key before.
Proof using tools_look tools_steady.
  intros two two' Hserde Hnamed Hh Hw Hnone Hx Hen Hdis. pose proof (tf_files _ _ _ _ _ _ _ _ _ _ two) as Hs.
  pose proof (enable_outcome euid umask pid from_slice to_string to_vec_pretty l f0 d d' name name' wr1 wr2 wr3 two
    uid executable backend tool_paths tools_look tools_steady e f0 Hs w Hh Hw) as H.
  rewrite Hen in H. destruct H as [Hh1 (before & Hc & Hs1 & Ho & Hc1 & registry & Hr1 & Hg)].
  eapply granted_new in Hg; [|exact two|done|done].
  destruct (new_registry_get executable backend (d ++ [name]) (get $"shell" before)) as (Gpath & _ & Gprior & Gprojects).
  assert (Hreads : ∀ state, loaded from_slice (tree w1) registry_path uid executable state → state = registry).
  { intros state. by eapply (registry_reads euid umask pid from_slice to_vec_pretty l f0). }
  assert (Howns : owns_path from_slice d d' name name' uid executable (tree w1)).
  { intros state ->%Hreads. unfold get_str. rewrite (extends_get _ _ _ _ _ _ $"config_path" ltac:(done) Hg), Gpath. done. }
  assert (Hprior : get $"prior_shell" registry = Some (default JNull (get $"shell" before))).
  { by rewrite (extends_get _ _ _ _ _ _ $"prior_shell" ltac:(done) Hg). }
  assert (Hfinish : withdrawn euid from_slice l f0 d d' name name' uid executable (tree w1) (tree w2) →
    settled l f0 (tree w2) ∧ tree w2 !! registry_path = None ∧
    ∃ before after, holds_config from_slice f0 path before ∧ holds_config from_slice (tree w2) path after ∧
      ∀ key, get key after =
        if str_eqb key $"shell" then match get $"shell" before with Some JNull => None | prior => prior end
        else get key before).
  { intros (state & state' & root & ->%Hreads & Hroot & Hp & _ & Hs2 & Hw2 & Hn2). split; [done|]. split; [done|].
    apply (holds_config_same _ _ _ _ _ Hc1) in Hroot as <-.
    exists before, (restored state' (wrapped executable before)). split; [done|].
    split; [by eapply written_holds|]. intros key. apply restored_members; [done|]. by rewrite Hp. }
  destruct x as [boundary|].
  - subst e. pose proof (disable_project_outcome euid umask pid from_slice to_string to_vec_pretty l f0 d d' name name'
      wr4 wr5 wr6 two' uid executable Hnamed boundary (tree w1) Hs1 Howns w1 Hh1 eq_refl) as H.
    cbn [disable] in Hdis. fold registry_path in H. rewrite Hdis in H.
    destruct H as [_ [H|(state & state' & ->%Hreads & Hd & _)]]; [by apply Hfinish|].
    exfalso. destruct Hg as (tools & (projects & Hp & _ & ->)%authorize_answer).
    rewrite Gprojects in Hp. injection Hp as <-. apply deauthorize_answer in Hd as (projects & Hp & _ & _ & Hlast).
    rewrite projects_with in Hp by (rewrite Gprojects; by eexists). injection Hp as <-. cbn in Hlast. rewrite (proj2 (str_eqb_eq _ _) eq_refl) in Hlast.
    done.
  - pose proof (disable_machine_outcome euid umask pid from_slice to_string l f0 d d' name name'
      wr4 wr5 wr6 two' uid executable Hnamed (tree w1) Hs1 Howns w1 Hh1 eq_refl) as H.
    cbn [disable] in Hdis. fold registry_path in H. rewrite Hdis in H. destruct H as [_ H]. by apply Hfinish.
Qed.
End Theorems.

(** ** A machine *)

Module Examples.
Import Codec.
Definition dir (owner : N) : Node := mkNode Dir owner 493. (* 0o755 *)
Definition home : Path := [ $"home"; $"u"].
Definition config_dir : Path := home ++ [ $".config"; $"opencode"].
Definition rtrt : Path := [ $"usr"; $"bin"; $"rtrt"].
Definition bwrap : Path := [ $"usr"; $"bin"; $"bwrap"].
Definition json : str := $"opencode.json".
Definition state : str := $".rtrt-sandbox-state.json".
Definition q (s : str) : str := [QUOTE] ++ s ++ [QUOTE].
Definition config_text : list N := as_bytes ($"{ // mine" ++ [ch_nl] ++ $"  " ++ q $"shell" ++ $": " ++ q $"/bin/zsh" ++ $"," ++ [ch_nl] ++
  $"  " ++ q $"theme" ++ $": " ++ q $"dark" ++ $" }").
Definition disk : gmap Path Node := list_to_map [
  ([], dir 0); ([ $"home"], dir 0); (home, dir 1000); (home ++ [ $".config"], dir 1000); (config_dir, dir 1000);
  (config_dir ++ [json], mkNode (File config_text) 1000 420);
  ([ $"usr"], dir 0); ([ $"usr"; $"bin"], dir 0); (rtrt, mkNode (File []) 0 493)].
Definition world : FsWorld := mkFsWorld disk [].
Definition writing (unique : str) (nonce : N) : Writing := mkWriting unique nonce 0 0.
Definition wr1 := writing $"a1" 1.
Definition wr2 := writing $"a2" 2.
Definition wr3 := writing $"a3" 3.
Definition l : list Path := map (λ c, config_dir ++ [c])
  [json; $"opencode.json.bak"; $"a1"; $"a3"; state; $".rtrt-sandbox-state.tmp-77-2"].

Definition enabled := enable 1000 18 77 from_slice to_string to_vec_pretty config_dir config_dir json state wr1 wr2 wr3
  1000 rtrt bwrap (mret []) ForMachine world.
Definition disabled := disable 1000 18 77 from_slice to_string to_vec_pretty config_dir state 1000 rtrt wr1 wr2 wr3 WholeMachine enabled.2.

Lemma config_dir_real : real_dir disk config_dir.
Proof.
  assert (H : ∀ d c n, real_dir disk d → c ≠ dotdot → disk !! (d ++ [c]) = Some n → is_dir n = true → real_dir disk (d ++ [c]))
    by (intros; by econstructor).
  apply (H [ $"home"; $"u"; $".config"] $"opencode" (dir 1000)); [|done|vm_compute; reflexivity|done].
  apply (H [ $"home"; $"u"] $".config" (dir 1000)); [|done|vm_compute; reflexivity|done].
  apply (H [ $"home"] $"u" (dir 1000)); [|done|vm_compute; reflexivity|done].
  apply (H [] $"home" (dir 0)); [constructor|done|vm_compute; reflexivity|done].
Defined.

Lemma two : two_files 77 l disk config_dir config_dir json state wr1 wr2 wr3.
Proof.
  split.
  - exists (dir 0). split; vm_compute; reflexivity.
  - unfold l. apply Forall_map, Forall_forall. intros c Hc. exists config_dir, c. split; [done|].
    split; [|exact config_dir_real]. intros ->. revert Hc. apply (bool_decide_unpack (_ ∉ _)). vm_compute. exact I.
  - split; [by intros|]. intros p n Hp Hn.
    assert (Ha : forallb (λ p, match disk !! p with Some n => is_file n | None => true end) l = true) by (vm_compute; reflexivity).
    rewrite forallb_forall in Ha. specialize (Ha p). rewrite Hn in Ha. by apply Ha, list_elem_of_In.
  - exact config_dir_real.
  - exact config_dir_real.
  - apply (bool_decide_unpack _). vm_compute. exact I.
  - apply (bool_decide_unpack (_ ∉ _)). vm_compute. exact I.
  - apply (bool_decide_unpack (_ ∉ _)). vm_compute. exact I.
Defined.

Lemma world_honest : honest world.
Proof. constructor. Defined.


Lemma config_named : named (config_dir ++ [json]).
Proof. repeat constructor; try discriminate; apply (bool_decide_unpack (ch_slash ∉ _)); vm_compute; exact I. Defined.

Lemma disable_undoes_enable_witness : ∃ after, holds_config from_slice (tree disabled.2) (config_dir ++ [json]) after ∧
  get $"shell" after = Some (JString $"/bin/zsh") ∧ get $"theme" after = Some (JString $"dark").
Proof.
  assert (E1 : enabled.1 = inr ()) by (vm_compute; reflexivity).
  assert (E2 : disabled.1 = inr ()) by (vm_compute; reflexivity). unfold disabled in *.
  destruct enabled as [r1 w1] eqn:R1. cbn [fst snd] in *. subst r1.
  destruct (disable _ _ _ _ _ _ _ _ _ _ _ _ _ _ w1) as [r2 w2] eqn:R2. cbn [fst snd] in *. subst r2.
  destruct (disable_undoes_enable 1000 18 77 from_slice to_string to_vec_pretty l disk config_dir config_dir json state
    1000 rtrt bwrap (mret []) (read_only_ret _) (steady_ret _) wr1 wr2 wr3 wr1 wr2 wr3 ForMachine WholeMachine world w1 w2
    two two from_slice_pretty config_named world_honest eq_refl ltac:(vm_compute; reflexivity) I R1 R2)
    as (_ & _ & before & after & Hb & Ha & Hk).
  exists after. split; [exact Ha|]. rewrite !Hk.
  assert (Hd : holds_config from_slice disk (config_dir ++ [json])
    (JObject [($"shell", JString $"/bin/zsh"); ($"theme", JString $"dark")])).
  { unfold holds_config. assert (E : disk !! (config_dir ++ [json]) = Some (mkNode (File config_text) 1000 420)) by (vm_compute; reflexivity).
    rewrite E. exists config_text. split; [reflexivity|]. vm_compute. reflexivity. }
  rewrite (holds_config_same _ _ _ _ _ Hb Hd). split; reflexivity.
Defined.

(** A failure to look at the registry is taken for its absence: enabling again, with the
    wrapper in place already, writes a new registry whose shell to restore is the wrapper.
    The user's own shell is forgotten. *)
Definition unreadable : FsWorld :=
  mkFsWorld (tree enabled.2) (replicate 5 None ++ [Some (mkIo PermissionDenied $"Permission denied")]).
Definition enabled_again := enable 1000 18 77 from_slice to_string to_vec_pretty config_dir config_dir json state wr1 wr2 wr3
  1000 rtrt bwrap (mret []) ForMachine unreadable.
Definition prior_shell (w : FsWorld) : option str :=
  match tree w !! (config_dir ++ [state]) with
  | Some (mkNode (File bytes) _ _) => match from_slice bytes with inr registry => get_str $"prior_shell" registry | inl _ => None end
  | _ => None
  end.
Example registry_forgotten :
  prior_shell enabled.2 = Some $"/bin/zsh" ∧ enabled_again.1 = inr () ∧ prior_shell enabled_again.2 = Some $"/usr/bin/rtrt".
Proof. vm_compute. repeat split. Qed.
End Examples.
