(* ===== verification/JsoncSafety.v ===== *)
(** * Properties of the editor of JSON with comments

    The scanners move forward, so the loop over the members of an object ends; an edit
    touches one value, or adds text and removes none, or removes text and adds none. *)
From stdpp Require Import list.
From S2P Require Import Prelude Str Utf8.
From S2P Require Import Json Jsonc.
From S2P Require Import Wire.

(** ** Scanners move forward *)

(** A list that is a list of at most [n]. *)
Ltac scanned IH := intros H; first [discriminate H | injection H as <-; lia | apply IH in H; [lia|cbn in *; lia] ].
Ltac scan_cases :=
  repeat match goal with
    | |- context [if ?b then _ else _] => destruct b
    | |- context [match ?l with [] => _ | _ => _ end] => destruct l
    end.

Lemma trivia_forward n : ∀ bytes mode cursor c, (length bytes ≤ n)%nat →
  trivia mode cursor bytes = inr c → (cursor ≤ c)%nat.
Proof.
  induction n as [|n IH]; intros [|b rest] mode cursor c Hn; cbn in Hn; try lia;
    destruct mode; cbn [trivia]; scan_cases; scanned IH.
Qed.

Lemma string_end_forward bytes : ∀ escaped cursor c,
  string_end escaped cursor bytes = inr c → (cursor < c)%nat.
Proof.
  induction bytes as [|b rest IH]; intros escaped cursor c; cbn; [done|].
  destruct (_ && _); [by intros [= <-]; lia|]. intros H%IH. lia.
Qed.

Lemma scalar_end_forward bytes : ∀ cursor after, (cursor ≤ scalar_end cursor bytes after)%nat.
Proof.
  induction bytes as [|b rest IH]; intros cursor after; cbn; [done|]. destruct (_ || _); [done|].
  specialize (IH (S cursor) after). lia.
Qed.

Lemma matching_brace_forward n : ∀ bytes mode depth i e, (length bytes ≤ n)%nat →
  matching_brace mode depth i bytes = Some e → (i ≤ e < i + length bytes)%nat.
Proof.
  induction n as [|n IH]; intros [|b rest] mode depth i e Hn; cbn in Hn; try lia; try by destruct mode.
  destruct mode; cbn [matching_brace length]; scan_cases; cbn [length] in *;
    intros H; first [discriminate H | injection H as <-; lia | apply IH in H; [cbn [length] in *; lia|cbn in *; lia] ].
Qed.

Lemma matching_container_forward n : ∀ bytes mode stack i e, (length bytes ≤ n)%nat →
  matching_container mode stack i bytes = Some e → (i ≤ e)%nat.
Proof.
  induction n as [|n IH]; intros [|b rest] mode stack i e Hn; cbn in Hn; try lia; try by destruct mode.
  destruct mode; cbn [matching_container]; scan_cases; cbn [length] in *;
    intros H; first [discriminate H | injection H as <-; lia | apply IH in H; [lia|cbn in *; lia] ].
Qed.

Lemma skip_forward raw cursor limit c : skip_jsonc_trivia raw cursor limit = inr c → (cursor ≤ c)%nat.
Proof. by apply (trivia_forward (length (window raw cursor limit))). Qed.

Lemma brace_forward raw i e : find_matching_brace raw i = Some e → (i ≤ e < length raw)%nat.
Proof.
  unfold find_matching_brace, byte_at. destruct (raw !! i) eqn:Hi; [|done]. destruct (_ =? _); [|done].
  apply lookup_lt_Some in Hi. intros H%(matching_brace_forward (length (drop i raw))); [|done].
  rewrite length_drop in H. lia.
Qed.

Lemma byte_inside raw i b : byte_at raw i b = true → (i < length raw)%nat.
Proof. unfold byte_at. destruct (raw !! i) eqn:E; [|done]. intros _. by eapply lookup_lt_Some. Qed.

Section Library.
Context (from_slice : list N → str + Json) (to_string : Json → list N).
Abbreviation jsonc_object_members := (jsonc_object_members from_slice).
Abbreviation members_from := (members_from from_slice).

Lemma string_forward raw start limit key e :
  parse_jsonc_string from_slice raw start limit = inr (key, e) → (start < e)%nat.
Proof.
  unfold parse_jsonc_string. destruct (negb _); [done|].
  destruct (string_end _ _ _) as [?|end_] eqn:E; [done|]. apply string_end_forward in E. cbn.
  destruct (from_slice _); [done|]. cbn. destruct (as_str _); [|done]. intros [= _ <-]. lia.
Qed.

Lemma value_forward raw start limit e : jsonc_value_end from_slice raw start limit = inr e → (start < e)%nat.
Proof.
  unfold jsonc_value_end. destruct (raw !! start) as [b|] eqn:Hb; [|done].
  destruct (b =? OPEN_BRACE).
  { destruct (find_matching_brace raw start) eqn:E; cbn; [|done]. apply brace_forward in E. intros [= <-]. lia. }
  destruct (b =? OPEN_BRACKET).
  { unfold find_matching_jsonc_container. destruct (byte_at _ _ _); [|done].
    destruct (matching_container _ _ _ _) eqn:E; cbn; [|done].
    apply (matching_container_forward (length (drop (S start) raw))) in E; [|done]. intros [= <-]. lia. }
  destruct (b =? QUOTE).
  { destruct (parse_jsonc_string _ _ _ _) as [?|[key e']] eqn:E; [done|]. apply string_forward in E. by intros [= <-]. }
  cbv zeta. destruct (_ =? start)%nat eqn:E; [done|]. apply Nat.eqb_neq in E.
  pose proof (scalar_end_forward (window raw start limit) start (drop limit raw)). intros [= <-]. lia.
Qed.

(** A turn of the loop moves the cursor, and there is none behind the text. *)
Lemma turn_forward raw cursor close c found : next_member from_slice raw cursor close = inr (Some (c, found)) →
  (close ≤ length raw)%nat → (cursor < c)%nat ∧ (cursor < length raw)%nat.
Proof.
  unfold next_member. destruct (skip_jsonc_trivia raw cursor close) as [?|c0] eqn:E0; [done|]. cbn.
  apply skip_forward in E0. destruct (byte_at raw c0 COMMA) eqn:Ec.
  { apply byte_inside in Ec. intros [= <- _] _. lia. }
  destruct (close <=? c0)%nat eqn:El; [done|]. apply Nat.leb_gt in El.
  destruct (parse_jsonc_string _ _ _ _) as [?|[key e]] eqn:Ek; [done|]. apply string_forward in Ek. cbn.
  destruct (skip_jsonc_trivia raw e close) as [?|colon] eqn:E1; [done|]. apply skip_forward in E1. cbn.
  destruct (negb _); [done|]. destruct (skip_jsonc_trivia raw (S colon) close) as [?|vs] eqn:E2; [done|].
  apply skip_forward in E2. cbn. destruct (jsonc_value_end _ _ _ _) as [?|ve] eqn:E3; [done|].
  apply value_forward in E3. cbn. intros [= <- _] Hl. lia.
Qed.

Lemma members_enough raw close n : (close ≤ length raw)%nat → ∀ m cursor,
  (length raw < n + cursor)%nat → (length raw < m + cursor)%nat → (0 < n)%nat → (0 < m)%nat →
  members_from n raw cursor close = members_from m raw cursor close.
Proof.
  intros Hc. induction n as [|n IH]; intros [|m] cursor Hn Hm Hn0 Hm0; try lia. cbn [Jsonc.members_from].
  destruct (next_member from_slice raw cursor close) as [?|[[c found]|]] eqn:E; cbn; [done| |done].
  apply turn_forward in E as [H1 H2]; [|done]. rewrite (IH m c); [done|lia..].
Qed.

(** What a member spans. *)
Lemma turn_spans raw cursor close c m : next_member from_slice raw cursor close = inr (Some (c, Some m)) →
  (jm_key_start m < jm_value_start m < jm_value_end m)%nat.
Proof.
  unfold next_member. destruct (skip_jsonc_trivia raw cursor close) as [?|c0]; [done|]. cbn.
  destruct (byte_at raw c0 COMMA); [done|]. destruct (close <=? c0)%nat; [done|].
  destruct (parse_jsonc_string _ _ _ _) as [?|[key e]] eqn:Ek; [done|]. apply string_forward in Ek. cbn.
  destruct (skip_jsonc_trivia raw e close) as [?|colon] eqn:E1; [done|]. apply skip_forward in E1. cbn.
  destruct (negb _); [done|]. destruct (skip_jsonc_trivia raw (S colon) close) as [?|vs] eqn:E2; [done|].
  apply skip_forward in E2. cbn. destruct (jsonc_value_end _ _ _ _) as [?|ve] eqn:E3; [done|].
  apply value_forward in E3. cbn. intros [= _ <-]. cbn. lia.
Qed.

Lemma members_span raw close n : ∀ cursor members, members_from n raw cursor close = inr members →
  Forall (λ m, jm_key_start m < jm_value_start m < jm_value_end m)%nat members.
Proof.
  induction n as [|n IH]; intros cursor members; cbn [Jsonc.members_from]; [done|].
  destruct (next_member from_slice raw cursor close) as [?|[[c found]|]] eqn:E; cbn; [done| |by intros [= <-]].
  destruct (members_from n raw c close) as [?|rest] eqn:Er; cbn; [done|]. apply IH in Er.
  destruct found as [m|]; intros [= <-]; [|done]. constructor; [by eapply turn_spans|done].
Qed.

Lemma object_spans raw object_open members : jsonc_object_members raw object_open = inr members →
  Forall (λ m, jm_key_start m < jm_value_start m < jm_value_end m)%nat members.
Proof.
  unfold Jsonc.jsonc_object_members. destruct (negb _); [done|]. destruct (find_matching_brace _ _) as [close|]; [|done].
  exact (members_span raw close (S (S (length raw))) (S object_open) members).
Qed.

Lemma find_member_found key : ∀ members previous p m, find_jsonc_member key previous members = Some (p, m) →
  m ∈ members ∧ jm_key m = key.
Proof.
  induction members as [|x rest IH]; intros previous p m; cbn; [done|]. destruct (str_eqb (jm_key x) key) eqn:E.
  - intros [= <- <-]. apply str_eqb_eq in E. split; [by left|done].
  - intros [Hin Hk]%IH. split; [by right|done].
Qed.

(** ** Edits are local *)

Lemma cut_sublist (raw : list N) a b : (a ≤ b)%nat → replace_range raw a b [] `sublist_of` raw.
Proof.
  intros Hab. unfold replace_range. cbn. rewrite <-(take_drop a raw) at 3. apply sublist_app; [done|].
  replace (drop b raw) with (drop (b - a) (drop a raw)) by (rewrite drop_drop; f_equal; lia).
  apply sublist_drop.
Qed.

Lemma insert_sublist (raw : list N) a more : raw `sublist_of` insert_at raw a more.
Proof.
  unfold insert_at, replace_range. rewrite <-(take_drop a raw) at 1. apply sublist_app; [done|].
  by apply sublist_inserts_l.
Qed.

Lemma inserted_sublist raw object_open key value out :
  jsonc_insert_object_member from_slice to_string raw object_open key value = inr out → raw `sublist_of` out.
Proof.
  unfold jsonc_insert_object_member. destruct (Jsonc.jsonc_object_members _ _ _) as [?|members]; [done|]. cbn.
  destruct (found _ (find_matching_brace raw object_open)) as [?|close]; [done|]. cbn.
  destruct (with_comma raw members close) as [?|out1] eqn:Ec; [done|]. cbn.
  destruct (found _ (find_matching_brace out1 object_open)) as [?|close1]; [done|]. intros [= <-].
  trans out1; [|apply insert_sublist]. unfold with_comma in Ec. destruct (last members) as [m|]; [|by injection Ec as <-].
  destruct (skip_jsonc_trivia _ _ _) as [?|comma]; [done|]. injection Ec as <-.
  destruct (byte_at _ _ _); [done|]. apply insert_sublist.
Qed.

Lemma removed_sublist raw object_open previous m out : (jm_key_start m ≤ jm_value_end m)%nat →
  remove_at raw object_open previous m = inr out → out `sublist_of` raw.
Proof.
  intros Hm. unfold remove_at. destruct (found _ _) as [?|close]; [done|]. cbn.
  destruct (skip_jsonc_trivia _ _ _) as [?|after] eqn:Ea; [done|]. apply skip_forward in Ea. cbn.
  destruct (byte_at raw after COMMA); [intros [= <-]; apply cut_sublist; lia|].
  destruct previous as [p|]; [|intros [= <-]; by apply cut_sublist].
  destruct (skip_jsonc_trivia _ _ _) as [?|comma]; [done|]. intros [= <-].
  destruct (byte_at _ _ _); [|by apply cut_sublist]. trans (replace_range raw (jm_key_start m) (jm_value_end m) []);
    apply cut_sublist; lia.
Qed.

(** One value of one object changed. *)
Definition replaced (raw : list N) (path : list str) (value : Json) (out : list N) : Prop :=
  ∃ object_open members m, jsonc_object_members raw object_open = inr members ∧ m ∈ members ∧
    last path = Some (jm_key m) ∧
    out = replace_range raw (jm_value_start m) (jm_value_end m) (to_string value).

Lemma set_from_local path : ∀ raw object_open passed value out,
  set_from from_slice to_string raw object_open passed path value = inr out →
  raw `sublist_of` out ∨ replaced raw path value out.
Proof.
  induction path as [|key rest IH]; intros raw object_open passed value out; cbn; [intros [= <-]; by left|].
  destruct (Jsonc.jsonc_object_members from_slice raw object_open) as [?|members] eqn:Em; [done|]. cbn.
  destruct (find_jsonc_member key None members) as [[p m]|] eqn:Ef; [|intros H; left; by eapply inserted_sublist].
  apply find_member_found in Ef as [Hin Hk]. destruct rest as [|key' rest].
  - intros [= <-]. right. exists object_open, members, m. by rewrite Hk.
  - destruct (negb _); [done|]. intros [H|(o & ms & m' & Ho & Hi & Hl & ->)]%IH; [by left|].
    right. by exists o, ms, m'.
Qed.

Lemma remove_from_local path : ∀ raw object_open out,
  remove_from from_slice raw object_open path = inr out → out `sublist_of` raw.
Proof.
  induction path as [|key rest IH]; intros raw object_open out; cbn; [by intros [= <-]|].
  destruct (Jsonc.jsonc_object_members from_slice raw object_open) as [?|members] eqn:Em; [done|]. cbn.
  destruct (find_jsonc_member key None members) as [[p m]|] eqn:Ef; [|by intros [= <-]].
  apply find_member_found in Ef as [Hin Hk]. destruct rest as [|key' rest].
  - apply removed_sublist. apply object_spans in Em. rewrite Forall_forall in Em. specialize (Em m Hin). lia.
  - destruct (negb _); [by intros [= <-]|]. apply IH.
Qed.

(** An edit is local.  Setting a path replaces the text of one value of an object of the
    file, or inserts text and removes none; removing a path removes text and inserts none:
    whatever else the user wrote, comments and order included, stays. *)
Theorem edits_local raw path value out :
  (jsonc_set_path from_slice to_string raw path value = inr out →
   raw `sublist_of` out ∨ replaced raw path value out) ∧
  (jsonc_remove_path from_slice raw path = inr out → out `sublist_of` raw).
Proof.
  unfold jsonc_set_path, jsonc_remove_path. destruct (jsonc_root_open raw) as [?|object_open]; [done|]. cbn.
  split; [apply set_from_local|apply remove_from_local].
Qed.

(** The loop over the members of an object ends within its fuel: more changes nothing. *)
Theorem members_end raw object_open close extra : find_matching_brace raw object_open = Some close →
  members_from (S (S (length raw)) + extra) raw (S object_open) close =
  members_from (S (S (length raw))) raw (S object_open) close.
Proof. intros Hc%brace_forward. apply members_enough; lia. Qed.
End Library.

(** ** Examples *)

Module Examples.
Definition quoted (s : str) : list N := [QUOTE] ++ s ++ [QUOTE].
(** A reader that knows the keys of the example. *)
Definition from_slice (bytes : list N) : str + Json :=
  if bool_decide (bytes = quoted $"a") then inr (JString $"a")
  else if bool_decide (bytes = quoted $"b") then inr (JString $"b") else inl $"expected value".
Definition commented : list N := $"{ " ++ quoted $"a" ++ $": 1 /* mine */, " ++ quoted $"b" ++ $": 2 }".

(** Removing a member removes the comment between its value and its comma too, although the
    editor is said to leave comments byte for byte intact. *)
Example comment_removed : jsonc_remove_path from_slice commented [ $"a"] = inr ($"{  " ++ quoted $"b" ++ $": 2 }").
Proof. vm_compute. reflexivity. Qed.
End Examples.
