(* ===== verification/CompressRules.v ===== *)
(** * The rules of the compressor: [crates/rtrt-compress/src/lib.rs] and [secrets.rs]

    The patterns, by their text, with what replaces a match; the tables of each level;
    the fillers of each language. *)
From S2P Require Import Prelude Str Error.

(** ** Secrets *)

Definition AWS_ACCESS_KEY : str := $"\b(AKIA|ASIA)[0-9A-Z]{16}\b".
Definition AWS_SECRET : str :=
  $"(?i)\baws[_-]?secret[_-]?access[_-]?key\s*[:=]\s*['" ++ [34] ++ $"]?([A-Za-z0-9+/=]{40})['" ++ [34] ++ $"]?".
Definition GITHUB_TOKEN : str := $"\bgh[opsur]_[A-Za-z0-9_]{30,}\b".
Definition GITHUB_PAT_CLASSIC : str := $"\bghp_[A-Za-z0-9]{36}\b".
Definition OPENAI_KEY : str := $"\bsk-(proj-)?[A-Za-z0-9_\-]{20,}\b".
Definition ANTHROPIC_KEY : str := $"\bsk-ant-[A-Za-z0-9_\-]{20,}\b".
Definition SLACK_TOKEN : str := $"\bxox[abprs]-[A-Za-z0-9\-]{10,}\b".
Definition PRIVATE_KEY_BLOCK : str :=
  $"-----BEGIN [A-Z ]+PRIVATE KEY-----[\s\S]*?-----END [A-Z ]+PRIVATE KEY-----".
Definition BEARER_TOKEN : str := $"\bBearer\s+([A-Za-z0-9_\-]{16,})\b".
Definition GENERIC_API_KEY : str :=
  $"(?i)\bapi[_-]?key\s*[:=]\s*['" ++ [34] ++ $"]?([A-Za-z0-9_\-]{20,})['" ++ [34] ++ $"]?".

Record Pattern := mkPattern { p_kind : str; p_regex : str }.

Definition PATTERNS : list Pattern :=
  [mkPattern $"aws-access-key" AWS_ACCESS_KEY;
   mkPattern $"aws-secret" AWS_SECRET;
   mkPattern $"github-pat" GITHUB_PAT_CLASSIC;
   mkPattern $"github-token" GITHUB_TOKEN;
   mkPattern $"anthropic-key" ANTHROPIC_KEY;
   mkPattern $"openai-key" OPENAI_KEY;
   mkPattern $"slack-token" SLACK_TOKEN;
   mkPattern $"private-key" PRIVATE_KEY_BLOCK;
   mkPattern $"bearer-token" BEARER_TOKEN;
   mkPattern $"generic-api-key" GENERIC_API_KEY].

(** ** Patterns of the rules *)

Definition EXTRA_PERIODS : str := $"\.{4,}".
Definition EXTRA_EXCLAMATION : str := $"!{2,}".
Definition EXTRA_QUESTION : str := $"\?{2,}".
Definition FILLERS : str :=
  $"(?i)\b(just|really|basically|actually|simply|literally|honestly|frankly|truly|essentially|kind of|sort of)\s+".
Definition PLEASANTRIES : str :=
  $"(?im)(^|[.!?]\s+)(sure|certainly|of course|happy to|let me|i'll|i can|i would|i'd be happy to)\b[,!\.]?\s*".
Definition HEDGES : str :=
  $"(?i)\b(i (think|believe|suspect|guess|imagine|suppose)( that)?|in my opinion|to my mind|if you ask me|perhaps|maybe|probably|possibly|likely|it (seems|appears) (that|to be)|i('m| am) (pretty |fairly |reasonably )?(sure|confident)( that)?|if i('m| am) not mistaken|if i recall correctly)[,!\.]?\s*".
Definition DISCOURSE : str :=
  $"(?i)\b(moreover|furthermore|additionally|besides|however|nevertheless|nonetheless|as (you|we) can see|as a matter of fact|needless to say|it('s| is) worth (noting|mentioning) that|of course|naturally|obviously|clearly)\b[,!\.]?\s*".
Definition ARTICLES : str := $"(?i)\b(a|an|the)\s+".
Definition MULTI_SPACE : str := $"[ \t]{2,}".
Definition MULTI_NEWLINE : str := $"\n{3,}".
Definition QUALIFIERS : str := $"(?i)\b(very|extremely|quite|rather|fairly|somewhat|extremely|highly)\s+".
Definition META_PHRASES : str :=
  $"(?i)(it is important to (note|remember|understand|mention) that |it should be noted that |it is worth (mentioning|noting|pointing out) that |as we (mentioned|noted|discussed) (earlier|above|previously),? )".
Definition PHRASE_DUE_TO : str := $"(?i)\bdue to the fact that\b".
Definition PHRASE_IN_ORDER_TO : str := $"(?i)\bin order to\b".
Definition PHRASE_AT_THIS_POINT : str := $"(?i)\bat this point in time\b".
Definition PHRASE_FOR_THE_PURPOSE : str := $"(?i)\bfor the purpose of\b".
Definition PHRASE_IN_THE_EVENT : str := $"(?i)\bin the event that\b".
Definition PHRASE_WITH_THE_EXCEPTION : str := $"(?i)\bwith the exception of\b".
Definition PHRASE_A_NUMBER_OF : str := $"(?i)\ba number of\b".
Definition PHRASE_THE_MAJORITY_OF : str := $"(?i)\bthe majority of\b".
Definition PHRASE_IN_SPITE_OF : str := $"(?i)\bin spite of( the fact that)?\b".
Definition PHRASE_ON_THE_BASIS : str := $"(?i)\bon the basis of\b".
Definition PHRASE_FOR_INSTANCE : str := $"(?i)\bfor (instance|example)\b".
Definition CAUSAL_CONNECTORS : str := $"(?i)\s*,?\s+\b(because(?:\s+of)?|therefore|thus|leads\s+to)\b\s+".
Definition CAUSAL_SO : str := $"(?i)(^|[.;,])\s*\bso\b\s+".
Definition COORDINATING_CONJUNCTIONS : str := $"(?i)\s+\b(and|but|yet)\b\s+".
Definition ABBR_AUTHENTICATION : str := $"(?i)\bauthentication\b".
Definition ABBR_AUTHORIZATION : str := $"(?i)\bauthorization\b".
Definition ABBR_CONFIGURATION : str := $"(?i)\bconfiguration\b".
Definition ABBR_IMPLEMENTATION : str := $"(?i)\bimplementation\b".
Definition ABBR_REPOSITORY : str := $"(?i)\brepository\b".
Definition ABBR_DIRECTORY : str := $"(?i)\bdirectory\b".
Definition ABBR_FUNCTION : str := $"(?i)\bfunction\b".
Definition ABBR_REQUEST : str := $"(?i)\brequest\b".
Definition ABBR_RESPONSE : str := $"(?i)\bresponse\b".
Definition ABBR_DATABASE : str := $"(?i)\bdatabase\b".
Definition ABBR_OBJECT : str := $"(?i)\bobject\b".
Definition ABBR_REFERENCE : str := $"(?i)\breference\b".
Definition ABBR_CONNECTION : str := $"(?i)\bconnection\b".
Definition ABBR_COMMAND : str := $"(?i)\bcommand\b".
Definition ABBR_APPLICATION : str := $"(?i)\bapplication\b".
Definition ABBR_DEPENDENCY : str := $"(?i)\bdependency\b".
Definition ABBR_DEPENDENCIES : str := $"(?i)\bdependencies\b".
Definition ABBR_PARAMETER : str := $"(?i)\bparameter\b".
Definition ABBR_PARAMETERS : str := $"(?i)\bparameters\b".
Definition ABBR_ARGUMENT : str := $"(?i)\bargument\b".
Definition ABBR_ARGUMENTS : str := $"(?i)\barguments\b".
Definition ABBR_ENVIRONMENT : str := $"(?i)\benvironment\b".
Definition ABBR_VARIABLE : str := $"(?i)\bvariable\b".
Definition ABBR_VARIABLES : str := $"(?i)\bvariables\b".
Definition ABBR_MESSAGE : str := $"(?i)\bmessage\b".
Definition ABBR_ERROR : str := $"(?i)\berror\b".
Definition ABBR_DOCUMENTATION : str := $"(?i)\bdocumentation\b".
Definition ABBR_DOCUMENT : str := $"(?i)\bdocument\b".
Definition ABBR_PACKAGE : str := $"(?i)\bpackage\b".
Definition ABBR_SOURCE : str := $"(?i)\bsource\b".
Definition ABBR_DESTINATION : str := $"(?i)\bdestination\b".
Definition ABBR_TEMPORARY : str := $"(?i)\btemporary\b".

(** What is kept as it is, by alternation order. *)
Definition PROTECT : str :=
  $"(?sx)
        ```.*?```               # fenced code blocks
        | `[^`]*`               # inline code
        | https?://\S+          # URLs
        | " ++ [34] ++ $"[^" ++ [34] ++ $"]*" ++ [34] ++ $"               # quoted strings
        | \S+/\S+               # bare path-shaped tokens
        | \w[\w.-]*\.\w{1,4}    # filename/version-shaped tokens
        ".

(** ** Tables *)

Definition Rule : Type := str * str.

Definition LITE_RULES : list Rule :=
  [(FILLERS, []); (MULTI_SPACE, $" "); (MULTI_NEWLINE, [ch_nl; ch_nl])].

Definition FULL_RULES : list Rule :=
  [(FILLERS, []); (PLEASANTRIES, $"$1"); (HEDGES, []); (DISCOURSE, []); (META_PHRASES, []); (ARTICLES, []);
   (MULTI_SPACE, $" "); (MULTI_NEWLINE, [ch_nl; ch_nl])].

Definition ULTRA_RULES : list Rule :=
  [(FILLERS, []); (PLEASANTRIES, $"$1"); (HEDGES, []); (DISCOURSE, []); (META_PHRASES, []); (ARTICLES, []);
   (CAUSAL_CONNECTORS, $" -> "); (CAUSAL_SO, $"$1 -> "); (COORDINATING_CONJUNCTIONS, $" ");
   (PHRASE_DUE_TO, $"because"); (PHRASE_IN_ORDER_TO, $"to"); (PHRASE_AT_THIS_POINT, $"now");
   (PHRASE_FOR_THE_PURPOSE, $"for"); (PHRASE_IN_THE_EVENT, $"if"); (PHRASE_WITH_THE_EXCEPTION, $"except");
   (PHRASE_A_NUMBER_OF, $"several"); (PHRASE_THE_MAJORITY_OF, $"most"); (PHRASE_IN_SPITE_OF, $"despite");
   (PHRASE_ON_THE_BASIS, $"based on"); (PHRASE_FOR_INSTANCE, $"e.g."); (ABBR_AUTHENTICATION, $"auth");
   (ABBR_AUTHORIZATION, $"authz"); (ABBR_CONFIGURATION, $"config"); (ABBR_IMPLEMENTATION, $"impl");
   (ABBR_REPOSITORY, $"repo"); (ABBR_DIRECTORY, $"dir"); (ABBR_FUNCTION, $"fn"); (ABBR_REQUEST, $"req");
   (ABBR_RESPONSE, $"res"); (ABBR_DATABASE, $"DB"); (ABBR_OBJECT, $"obj"); (ABBR_REFERENCE, $"ref");
   (ABBR_CONNECTION, $"conn"); (ABBR_COMMAND, $"cmd"); (ABBR_APPLICATION, $"app");
   (ABBR_DEPENDENCIES, $"deps"); (ABBR_DEPENDENCY, $"dep"); (ABBR_PARAMETERS, $"params");
   (ABBR_PARAMETER, $"param"); (ABBR_ARGUMENTS, $"args"); (ABBR_ARGUMENT, $"arg");
   (ABBR_ENVIRONMENT, $"env"); (ABBR_VARIABLES, $"vars"); (ABBR_VARIABLE, $"var"); (ABBR_MESSAGE, $"msg");
   (ABBR_ERROR, $"err"); (ABBR_DOCUMENTATION, $"docs"); (ABBR_DOCUMENT, $"doc"); (ABBR_PACKAGE, $"pkg");
   (ABBR_SOURCE, $"src"); (ABBR_DESTINATION, $"dst"); (ABBR_TEMPORARY, $"temp"); (MULTI_SPACE, $" ");
   (MULTI_NEWLINE, [ch_nl; ch_nl])].

Definition EXTREME_RULES : list Rule :=
  [(FILLERS, []); (PLEASANTRIES, $"$1"); (HEDGES, []); (DISCOURSE, []); (META_PHRASES, []);
   (QUALIFIERS, []); (ARTICLES, []); (CAUSAL_CONNECTORS, $" -> "); (CAUSAL_SO, $"$1 -> ");
   (COORDINATING_CONJUNCTIONS, $" "); (PHRASE_DUE_TO, $"because"); (PHRASE_IN_ORDER_TO, $"to");
   (PHRASE_AT_THIS_POINT, $"now"); (PHRASE_FOR_THE_PURPOSE, $"for"); (PHRASE_IN_THE_EVENT, $"if");
   (PHRASE_WITH_THE_EXCEPTION, $"except"); (PHRASE_A_NUMBER_OF, $"several");
   (PHRASE_THE_MAJORITY_OF, $"most"); (PHRASE_IN_SPITE_OF, $"despite"); (PHRASE_ON_THE_BASIS, $"based on");
   (PHRASE_FOR_INSTANCE, $"e.g."); (ABBR_AUTHENTICATION, $"auth"); (ABBR_AUTHORIZATION, $"authz");
   (ABBR_CONFIGURATION, $"config"); (ABBR_IMPLEMENTATION, $"impl"); (ABBR_REPOSITORY, $"repo");
   (ABBR_DIRECTORY, $"dir"); (ABBR_FUNCTION, $"fn"); (ABBR_REQUEST, $"req"); (ABBR_RESPONSE, $"res");
   (ABBR_DATABASE, $"DB"); (ABBR_OBJECT, $"obj"); (ABBR_REFERENCE, $"ref"); (ABBR_CONNECTION, $"conn");
   (ABBR_COMMAND, $"cmd"); (ABBR_APPLICATION, $"app"); (ABBR_DEPENDENCIES, $"deps");
   (ABBR_DEPENDENCY, $"dep"); (ABBR_PARAMETERS, $"params"); (ABBR_PARAMETER, $"param");
   (ABBR_ARGUMENTS, $"args"); (ABBR_ARGUMENT, $"arg"); (ABBR_ENVIRONMENT, $"env");
   (ABBR_VARIABLES, $"vars"); (ABBR_VARIABLE, $"var"); (ABBR_MESSAGE, $"msg"); (ABBR_ERROR, $"err");
   (ABBR_DOCUMENTATION, $"docs"); (ABBR_DOCUMENT, $"doc"); (ABBR_PACKAGE, $"pkg"); (ABBR_SOURCE, $"src");
   (ABBR_DESTINATION, $"dst"); (ABBR_TEMPORARY, $"temp"); (MULTI_SPACE, $" ");
   (MULTI_NEWLINE, [ch_nl; ch_nl])].

Definition english_rules_for (level : CompressionLevel) : list Rule :=
  match level with
  | Lite => LITE_RULES
  | Full => FULL_RULES
  | Ultra => ULTRA_RULES
  | Extreme => EXTREME_RULES
  end.

(** ** Languages *)

(** The languages the code names, and any other. *)
Inductive Lang := Eng | Kor | Jpn | Cmn | Spa | Fra | Deu | OtherLang (code : str).

#[export] Instance Lang_eq_dec : EqDecision Lang.
Proof. solve_decision. Defined.

Record LanguagePack := mkPack { fillers : list str; discourse_markers : list str }.
Record LanguagePackEntry := mkPackEntry { langs : list Lang; pack : LanguagePack }.

Definition LANGUAGE_PACKS : list LanguagePackEntry :=
  [mkPackEntry [Kor] (mkPack [$"음"; $"그"; $"뭐랄까"; $"사실상"; $"기본적으로"; $"제 생각에는"; $"어"; $"에"] []);
   mkPackEntry [Jpn] (mkPack [$"えーと"; $"まあ"; $"なんか"; $"ちょっと"; $"一応"; $"基本的に"; $"実は"] []);
   mkPackEntry [Cmn] (mkPack [$"其实"; $"基本上"; $"说实话"; $"嗯"; $"那个"; $"就是说"] []);
   mkPackEntry [Spa] (mkPack [$"bueno"; $"o sea"; $"en realidad"; $"pues"; $"mira"; $"claro que"] []);
   mkPackEntry [Fra] (mkPack [$"enfin"; $"bref"; $"tu vois"; $"genre"; $"quoi"; $"franchement"] []);
   mkPackEntry [Deu] (mkPack [$"also"; $"eigentlich"; $"sozusagen"; $"irgendwie"; $"naja"; $"halt"] [])].

Definition applies_language_pack (level : CompressionLevel) : bool :=
  match level with Full | Ultra | Extreme => true | Lite => false end.

Definition language_pack_for (lang : Lang) : option LanguagePack :=
  pack <$> List.find (λ entry, existsb (λ l, bool_decide (l = lang)) (langs entry)) LANGUAGE_PACKS.
