(* ===== verification/Compress.v ===== *)
(** * The compressor: [crates/rtrt-compress/src/lib.rs] and [secrets.rs]

    A text on its way through the compressor: secrets redacted, code and names stashed,
    the level's rules applied, the fillers of its language dropped, repeated words
    dropped, what was stashed put back; and the four ways to frame the result.

    The regular expressions' engine, the detection of a language and the printing of
    JSON are libraries: they are arguments. *)
From S2P Require Import Prelude Str Error F64 Json MemRecall CompressRules.

(** [str::replace] of a pattern that is not empty: left to right, and on after a match. *)
Fixpoint replace_go (skip : nat) (from to s : str) : str :=
  match s with
  | [] => []
  | c :: s' =>
      match skip with
      | S skip' => replace_go skip' from to s'
      | O => if starts_with s from then to ++ replace_go (length from - 1) from to s'
             else c :: replace_go 0 from to s'
      end
  end.
Definition replace (from to s : str) : str := replace_go 0 from to s.

(** [Iterator::max_by_key]: the last of the greatest. *)
Definition max_by_key {A : Type} (key : A → nat) (l : list A) : option A :=
  foldl (λ best x, match best with
                   | Some y => if (key x <? key y)%nat then Some y else Some x
                   | None => Some x
                   end) None l.

(** ** Stashing *)

Definition placeholder (i : N) : str := 1 :: $"RTRT_PROTECT_" ++ show_N i ++ [2].

Fixpoint stash_pieces (n : N) (pieces : list (str * str)) (rest : str) : str :=
  match pieces with
  | [] => rest
  | (gap, _) :: pieces' => gap ++ placeholder n ++ stash_pieces (n + 1) pieces' rest
  end.

Fixpoint restore_from (n : N) (slots : list str) (out : str) : str :=
  match slots with
  | [] => out
  | original :: slots' => restore_from (n + 1) slots' (replace (placeholder n) original out)
  end.
Definition restore_protected (input : str) (slots : list str) : str := restore_from 0 slots input.

(** ** Framing *)

Inductive OutputFormat := Plain | Markdown | Xml | JsonFormat.

Definition OutputFormat_parse (name : str) : option OutputFormat :=
  let name := to_ascii_lowercase name in
  if str_eqb name $"plain" || str_eqb name $"text" || str_eqb name $"txt" then Some Plain
  else if str_eqb name $"md" || str_eqb name $"markdown" then Some Markdown
  else if str_eqb name $"xml" then Some Xml
  else if str_eqb name $"json" then Some JsonFormat
  else None.

Definition level_slug (level : CompressionLevel) : str :=
  match level with
  | Lite => $"lite"
  | Full => $"full"
  | Ultra => $"ultra"
  | Extreme => $"extreme"
  end.

Definition xml_escape (input : str) : str := replace $"]]>" $"]]]]><![CDATA[>" input.

(** ** Language packs *)

Inductive TokenKind := Word | Whitespace | Other.

#[export] Instance TokenKind_eq_dec : EqDecision TokenKind.
Proof. solve_decision. Defined.

Definition minimum_detection_confidence (text : str) : f64 :=
  let signal_chars := length (List.filter (λ ch, negb (is_whitespace ch)) text) in
  if (signal_chars =? 0)%nat then S754_infinity false
  else f64_div (f64_of_N 1) (f64_of_N (N.of_nat signal_chars)).

Definition should_apply_english_rules (detected : option Lang) (text : str) : bool :=
  if bool_decide (detected = Some Eng) then true
  else
    let total := N.of_nat (length text) in
    if total =? 0 then false
    else
      let ascii := N.of_nat (length (List.filter (λ c, c <? 128) text)) in
      f64_le (f64_decimal false 9 (-1)) (f64_div (f64_of_N ascii) (f64_of_N total)).

(** The text a term matches at the start of [rest], and what follows. *)
Definition matched_term (rest term : str) : option (str * str) :=
  if is_ascii term then
    '(candidate, after) ← split_at_byte (str_len term) rest;
    if eq_ignore_ascii_case candidate term then Some (candidate, after) else None
  else after ← strip_prefix term rest; Some (term, after).

(** The gap after a filler, and what follows. *)
Definition is_gap_mark (ch : char) : bool := existsb (N.eqb ch) $",.!?、。".

Fixpoint take_while (p : char → bool) (s : str) : str :=
  match s with
  | [] => []
  | c :: s' => if p c then c :: take_while p s' else []
  end.

Definition skip_trailing_filler_gap (rest : str) : str * str :=
  let mark := match rest with ch :: _ => if is_gap_mark ch then [ch] else [] | [] => [] end in
  let rest := drop (length mark) rest in
  (mark ++ take_while is_whitespace rest, drop_while is_whitespace rest).

Section Text.
Context `{Unicode}.

Definition is_word_char (ch : char) : bool := (ch =? 95) || is_alphanumeric ch.

(** [prev] is the character before the term. *)
Definition has_term_boundaries (prev : option char) (after : str) : bool :=
  match prev with Some ch => negb (is_word_char ch) | None => true end &&
  match after with ch :: _ => negb (is_word_char ch) | [] => true end.

Definition matching_pack_term (prev : option char) (rest : str) (pack : LanguagePack) : option (str * str) :=
  max_by_key (λ m : str * str, length m.1)
    (List.filter (λ m, has_term_boundaries prev m.2)
      (omap (matched_term rest) (fillers pack ++ discourse_markers pack))).

(** The loop of [apply_language_pack]: [prev] is the character before [rest]. *)
Fixpoint pack_loop (fuel : nat) (pack : LanguagePack) (prev : option char) (rest : str) : str :=
  match fuel, rest with
  | S fuel', ch :: rest' =>
      match matching_pack_term prev rest pack with
      | Some (term, after) =>
          let '(gap, after) := skip_trailing_filler_gap after in
          pack_loop fuel' pack (last (term ++ gap)) after
      | None => ch :: pack_loop fuel' pack (Some ch) rest'
      end
  | _, _ => []
  end.
Definition apply_language_pack (input : str) (pack : LanguagePack) : str :=
  pack_loop (length input) pack None input.

(** ** Repeated words *)

Definition char_kind (ch : char) : TokenKind :=
  if is_word_char ch then Word else if is_whitespace ch then Whitespace else Other.

Definition same_kind (kind : TokenKind) (ch : char) : bool :=
  match kind with
  | Word => is_word_char ch
  | Whitespace => is_whitespace ch
  | Other => negb (is_word_char ch) && negb (is_whitespace ch)
  end.

(** The first token of a text, its kind, and what follows. *)
Definition next_token (rest : str) : str * TokenKind * str :=
  match rest with
  | [] => ([], Other, [])
  | first :: rest' =>
      let kind := char_kind first in
      (first :: take_while (same_kind kind) rest', kind, drop_while (same_kind kind) rest')
  end.

Definition flush (pending : option str) : str := default [] pending.

Fixpoint dedup_loop (fuel : nat) (pending previous : option str) (rest : str) : str :=
  match fuel, rest with
  | S fuel', _ :: _ =>
      let '(token, kind, after) := next_token rest in
      match kind with
      | Word =>
          let token_key := to_lowercase token in
          let numeric := forallb is_ascii_digit token in
          if negb numeric && match pending with Some _ => true | None => false end &&
             match previous with Some w => str_eqb w token_key | None => false end
          then dedup_loop fuel' None previous after
          else flush pending ++ token ++ dedup_loop fuel' None (Some token_key) after
      | Whitespace => flush pending ++ dedup_loop fuel' (Some token) previous after
      | Other => flush pending ++ token ++ dedup_loop fuel' None None after
      end
  | _, _ => flush pending
  end.
Definition dedup_immediate_words (input : str) : str := dedup_loop (length input) None None input.

(** ** The pipeline *)

(** [find_iter pattern text]: each match with the text before it, and the text after the
    last.  [replace_all pattern text replacement] expands the groups of a replacement. *)
Context (find_iter : str → str → list (str * str) * str).
Context (replace_all : str → str → str → str).
Context (detect : str → option (Lang * f64)) (json_to_string : Json → str).

Definition redact_secrets (input : str) : str :=
  foldl (λ out p, replace_all (p_regex p) out ($"<REDACTED:" ++ p_kind p ++ $">")) input PATTERNS.

Definition detect_language (text : str) : option Lang :=
  '(lang, confidence) ← detect text;
  if f64_le (minimum_detection_confidence text) confidence then Some lang else None.

Definition stash_protected (input : str) : str * list str :=
  let '(pieces, rest) := find_iter PROTECT input in
  (stash_pieces 0 pieces rest, map snd pieces).

Definition trim_redundant_punctuation (input : str) : str :=
  let out := replace_all EXTRA_PERIODS input $"..." in
  let out := replace_all EXTRA_EXCLAMATION out $"!" in
  replace_all EXTRA_QUESTION out $"?".

Definition apply_universal_passes (input : str) : str :=
  let out := replace_all MULTI_SPACE input $" " in
  let out := replace_all MULTI_NEWLINE out [ch_nl; ch_nl] in
  let out := dedup_immediate_words out in
  trim_redundant_punctuation out.

Definition compress (level : CompressionLevel) (input : str) : str :=
  let redacted := redact_secrets input in
  let detected_lang := detect_language redacted in
  let '(placeheld, slots) := stash_protected redacted in
  let out :=
    if should_apply_english_rules detected_lang redacted
    then foldl (λ out rule, replace_all rule.1 out rule.2) placeheld (english_rules_for level)
    else placeheld in
  let out :=
    if applies_language_pack level then
      match detected_lang ≫= language_pack_for with
      | Some pack => apply_language_pack out pack
      | None => out
      end
    else out in
  let out := apply_universal_passes out in
  restore_protected out slots.

Definition compress_to (level : CompressionLevel) (input : str) (format : OutputFormat) : str :=
  let body := compress level input in
  match format with
  | Plain => body
  | Markdown => $"```text rtrt-level=" ++ level_slug level ++ [ch_nl] ++
                trim_end_matches (N.eqb ch_nl) body ++ [ch_nl] ++ $"```" ++ [ch_nl]
  | Xml => $"<rtrt level=" ++ [34] ++ level_slug level ++ [34] ++ $"><![CDATA[" ++ xml_escape body ++ $"]]></rtrt>"
  | JsonFormat =>
      json_to_string (JObject (foldl (λ m kv, insert_member kv.1 kv.2 m) []
        [($"level", JString (level_slug level)); ($"content", JString body)]))
  end.
End Text.
