(* ===== verification/CompressSafety.v ===== *)
(** * What the compressor keeps

    Stashing and restoring give a text back; every pass between them leaves the
    placeholders where they are, so what was stashed comes out of [compress] as it was, in
    its order.  A text framed as XML is read back whole. *)
From S2P Require Import Prelude Str Error F64 Json MemRecall CompressRules Compress.

(** ** [str::replace] *)

Lemma replace_go_drop n from to s : replace_go n from to s = replace_go 0 from to (drop n s).
Proof. revert s. induction n as [|n IH]; intros [|c s]; cbn; try done. Qed.

Lemma replace_hit from to s : from ≠ [] → replace from to (from ++ s) = to ++ replace from to s.
Proof.
  intros Hne. destruct from as [|f from]; [done|]. unfold replace. cbn [app replace_go].
  rewrite (proj2 (starts_with_spec _ (f :: from))) by (exists s; done). f_equal.
  rewrite replace_go_drop. cbn [length]. rewrite Nat.sub_succ, Nat.sub_0_r. by rewrite drop_app_length.
Qed.

Lemma replace_miss from to c s : starts_with (c :: s) from = false → replace from to (c :: s) = c :: replace from to s.
Proof. unfold replace. cbn [replace_go]. by intros ->. Qed.

(** A text without the first character of a pattern has no match. *)
Lemma replace_free f from to a s : f ∉ a → replace (f :: from) to (a ++ s) = a ++ replace (f :: from) to s.
Proof.
  induction a as [|c a IH]; cbn [app]; [done|]. intros [Hc Ha]%not_elem_of_cons.
  rewrite replace_miss; [by rewrite IH|]. unfold starts_with. cbn.
  destruct (c =? f) eqn:E; [by apply N.eqb_eq in E|]. by rewrite ?E, ?(N.eqb_sym f c), ?E.
Qed.

(** ** Placeholders *)

Lemma show_N_inj i j : show_N i = show_N j → i = j.
Proof. intros H. by rewrite <-(show_N_value i), <-(show_N_value j), H. Qed.

Lemma show_N_free c i : is_ascii_digit c = false → c ∉ show_N i.
Proof. intros Hc. exact (digit_str_no c _ Hc (show_N_digits i)). Qed.

Definition name_of (i : N) : str := $"RTRT_PROTECT_" ++ show_N i.

Lemma placeholder_eq i : placeholder i = 1 :: name_of i ++ [2].
Proof. unfold placeholder, name_of. by rewrite <-app_assoc. Qed.

Lemma name_free c i : is_ascii_digit c = false → bool_decide (c ∈ $"RTRT_PROTECT_") = false → c ∉ name_of i.
Proof. intros Hd Hc%bool_decide_eq_false [H|H]%elem_of_app; [done|by apply (show_N_free c i)]. Qed.

Lemma placeholder_other i j s : i ≠ j → starts_with (placeholder j ++ s) (placeholder i) = false.
Proof.
  intros Hij. destruct (starts_with _ _) eqn:E; [|done]. apply starts_with_spec in E as [r E].
  unfold placeholder in E. rewrite !app_comm_cons, <-!app_assoc in E.
  apply app_inv_head in E. cbn [app] in E.
  assert (Hs : split_once_char 2 (show_N j ++ 2 :: s) = split_once_char 2 (show_N i ++ 2 :: r)) by by rewrite E.
  rewrite !split_once_char_app in Hs by by apply show_N_free.
  injection Hs as Hs _. by apply show_N_inj in Hs.
Qed.

Lemma replace_placeholder_other i j to s : i ≠ j →
  replace (placeholder i) to (placeholder j ++ s) = placeholder j ++ replace (placeholder i) to s.
Proof.
  intros Hij. pose proof (placeholder_other i j s Hij) as Ho. revert Ho.
  rewrite !(placeholder_eq j). cbn [app]. intros Ho. rewrite replace_miss by done. f_equal.
  unfold placeholder at 1 2. apply replace_free.
  intros [H|H]%elem_of_app; [by apply name_free in H|]. by apply list_elem_of_singleton in H.
Qed.

(** A text as it is between stashing and restoring: places, each followed by text. *)
Fixpoint places (f : N → str) (l : list (N * str)) : str :=
  match l with
  | [] => []
  | (i, gap) :: l' => f i ++ gap ++ places f l'
  end.
Definition laid_out (f : N → str) (first : str) (l : list (N * str)) : str := first ++ places f l.

(** Texts without the character that opens a placeholder. *)
Definition clean (s : str) : Prop := 1 ∉ s.
Definition clean_gaps (l : list (N * str)) : Prop := Forall (λ p, clean p.2) l.

Definition restored (slots : list str) (k i : N) : str :=
  if i <? k then default (placeholder i) (slots !! N.to_nat i) else placeholder i.

Lemma restored_lt slots k i : i < k → restored slots k i = default (placeholder i) (slots !! N.to_nat i).
Proof. intros H. unfold restored. by apply N.ltb_lt in H as ->. Qed.
Lemma restored_ge slots k i : k ≤ i → restored slots k i = placeholder i.
Proof. intros H. unfold restored. by apply N.ltb_ge in H as ->. Qed.

Lemma replace_places slots k original first l :
  Forall clean slots → slots !! N.to_nat k = Some original → clean first → clean_gaps l →
  replace (placeholder k) original (laid_out (restored slots k) first l) = laid_out (restored slots (k + 1)) first l.
Proof.
  intros Hs Hk Hf Hl. unfold laid_out. unfold placeholder at 1. rewrite replace_free by done.
  fold (placeholder k). f_equal.
  induction Hl as [|[i gap] l Hg Hl IH]; cbn [places]; [done|].
  assert (Hgap : replace (placeholder k) original (gap ++ places (restored slots k) l) =
                 gap ++ places (restored slots (k + 1)) l).
  { rewrite <-IH. apply replace_free, Hg. }
  destruct (N.lt_trichotomy i k) as [Hlt|[->|Hgt]].
  - rewrite !restored_lt by lia. destruct (slots !! N.to_nat i) as [s|] eqn:E; cbn [from_option id].
    + unfold placeholder at 1. rewrite replace_free; [by fold (placeholder k); rewrite Hgap|].
      by apply (proj1 (Forall_lookup _ _) Hs _ _ E).
    + rewrite replace_placeholder_other, Hgap by lia. done.
  - rewrite restored_ge, restored_lt, Hk by lia. cbn [from_option id]. by rewrite replace_hit, Hgap by done.
  - rewrite !restored_ge by lia. rewrite replace_placeholder_other, Hgap by lia. done.
Qed.

Lemma restore_from_laid_out slots done_ rest first l :
  slots = done_ ++ rest → Forall clean slots → clean first → clean_gaps l →
  restore_from (N.of_nat (length done_)) rest (laid_out (restored slots (N.of_nat (length done_))) first l) =
  laid_out (restored slots (N.of_nat (length slots))) first l.
Proof.
  intros -> Hs Hf Hl. revert done_ Hs. induction rest as [|original rest IH]; intros done_ Hs; cbn [restore_from].
  - by rewrite app_nil_r.
  - rewrite (replace_places _ _ original); try done.
    2: { rewrite Nat2N.id, lookup_app_r, Nat.sub_diag; [done|lia]. }
    specialize (IH (done_ ++ [original])). rewrite <-app_assoc in IH. cbn [app] in IH.
    rewrite length_app in IH. cbn in IH.
    replace (N.of_nat (length done_ + 1)) with (N.of_nat (length done_) + 1) in IH by lia.
    by apply IH.
Qed.

Lemma places_ext f g l : Forall (λ p, f p.1 = g p.1) l → places f l = places g l.
Proof. induction 1 as [|[i gap] l Hi _ IH]; cbn in *; [done|]. by rewrite Hi, IH. Qed.

Lemma restore_laid_out slots first l : Forall clean slots → clean first → clean_gaps l →
  restore_protected (laid_out placeholder first l) slots =
  laid_out (λ i, default (placeholder i) (slots !! N.to_nat i)) first l.
Proof.
  intros Hs Hf Hl. unfold restore_protected.
  pose proof (restore_from_laid_out slots [] slots first l eq_refl Hs Hf Hl) as H. cbn [length] in H.
  etrans; [etrans; [|exact H]|].
  - f_equal. unfold laid_out. f_equal. apply places_ext, Forall_forall. intros [i gap] _. cbn [fst].
    by rewrite restored_ge by lia.
  - unfold laid_out. f_equal. apply places_ext, Forall_forall. intros [i gap] _. cbn [fst].
    destruct (N.lt_ge_cases i (N.of_nat (length slots))); [by rewrite restored_lt|].
    rewrite restored_ge by done. rewrite lookup_ge_None_2; [done|lia].
Qed.

(** ** Stashing gives a laid out text *)

(** The text before the first stashed piece, and each piece's number with the text after it. *)
Fixpoint spans (n : N) (pieces : list (str * str)) (rest : str) : str * list (N * str) :=
  match pieces with
  | [] => (rest, [])
  | (gap, _) :: pieces' => (gap, (n, (spans (n + 1) pieces' rest).1) :: (spans (n + 1) pieces' rest).2)
  end.

Lemma stash_laid_out n pieces rest :
  stash_pieces n pieces rest = laid_out placeholder (spans n pieces rest).1 (spans n pieces rest).2.
Proof.
  revert n. induction pieces as [|[gap m] pieces IH]; intros n; cbn.
  - unfold laid_out. by rewrite app_nil_r.
  - by rewrite IH.
Qed.

Definition whole (pieces : list (str * str)) (rest : str) : str := concat (map (λ p, p.1 ++ p.2) pieces) ++ rest.

Lemma spans_filled pre pieces rest :
  laid_out (λ i, default (placeholder i) ((pre ++ map snd pieces) !! N.to_nat i))
    (spans (N.of_nat (length pre)) pieces rest).1 (spans (N.of_nat (length pre)) pieces rest).2 = whole pieces rest.
Proof.
  revert pre. induction pieces as [|[gap m] pieces IH]; intros pre; cbn [spans fst snd map].
  - unfold laid_out, whole. cbn. by rewrite app_nil_r.
  - unfold laid_out at 1. cbn [places]. specialize (IH (pre ++ [m])).
    rewrite <-app_assoc, length_app in IH. cbn [app length] in IH.
    replace (N.of_nat (length pre + 1)) with (N.of_nat (length pre) + 1) in IH by lia.
    rewrite Nat2N.id, lookup_app_r, Nat.sub_diag by lia. cbn [lookup list_lookup from_option id].
    unfold laid_out in IH. rewrite IH. unfold whole. cbn. by rewrite <-!app_assoc.
Qed.

Lemma spans_ids n pieces rest : (spans n pieces rest).2.*1 = map N.of_nat (seq (N.to_nat n) (length pieces)).
Proof.
  revert n. induction pieces as [|[gap m] pieces IH]; intros n; cbn; [done|].
  rewrite IH, N2Nat.id. do 3 f_equal. lia.
Qed.

Lemma spans_clean n pieces rest : clean (whole pieces rest) →
  clean (spans n pieces rest).1 ∧ clean_gaps (spans n pieces rest).2 ∧ Forall clean (map snd pieces).
Proof.
  unfold clean, whole. revert n. induction pieces as [|[gap m] pieces IH]; intros n; cbn.
  - repeat split; [done|constructor..].
  - rewrite <-!app_assoc. intros [Hg [Hm Hr]%not_elem_of_app]%not_elem_of_app.
    destruct (IH (n + 1) Hr) as (H1 & H2 & H3). repeat split; [done|by constructor..].
Qed.

(** ** A pass that keeps the placeholders *)

Definition keeps (P : str → str) : Prop := ∀ first l, clean first → clean_gaps l →
  ∃ first' l', P (laid_out placeholder first l) = laid_out placeholder first' l' ∧
               clean first' ∧ clean_gaps l' ∧ l'.*1 = l.*1.

Lemma keeps_id : keeps (λ s, s).
Proof. intros first l Hf Hl. by exists first, l. Qed.

Lemma keeps_compose P Q : keeps P → keeps Q → keeps (λ s, Q (P s)).
Proof.
  intros HP HQ first l Hf Hl. destruct (HP first l Hf Hl) as (f1 & l1 & -> & Hf1 & Hl1 & H1).
  destruct (HQ f1 l1 Hf1 Hl1) as (f2 & l2 & -> & Hf2 & Hl2 & H2). exists f2, l2.
  repeat split; try done. by rewrite H2.
Qed.

Lemma keeps_foldl {A : Type} (P : A → str → str) (xs : list A) :
  Forall (λ x, keeps (P x)) xs → keeps (λ s, foldl (λ out x, P x out) s xs).
Proof.
  induction 1 as [|x xs Hx _ IH]; [apply keeps_id|].
  exact (keeps_compose (P x) (λ s, foldl (λ out x, P x out) s xs) Hx IH).
Qed.

(** A pass that only drops text, is cut at the characters around a placeholder, and leaves its name. *)
Lemma keeps_cut (P : str → str) :
  (∀ a, P a `sublist_of` a) → (∀ c a b, c = 1 ∨ c = 2 → P (a ++ c :: b) = P a ++ c :: P b) →
  (∀ i, P (name_of i) = name_of i) → keeps P.
Proof.
  intros Hsub HP Hname first l Hf Hl.
  assert (Hplaces : ∀ i gap l, P (name_of i ++ 2 :: gap ++ places placeholder l) =
    name_of i ++ 2 :: P gap ++ places placeholder (map (λ p, (p.1, P p.2)) l)).
  { clear - HP Hname. intros i gap l. revert i gap.
    induction l as [|[j g] l IH]; intros i gap; cbn [places map fst snd].
    - rewrite HP, Hname, !app_nil_r by by right. done.
    - rewrite HP, Hname by by right. rewrite !placeholder_eq. cbn [app].
      rewrite <-!app_assoc. cbn [app]. rewrite HP by by left. by rewrite IH. }
  assert (Hclean : ∀ a, clean a → clean (P a)).
  { intros a Ha H1. apply Ha. by apply (elem_of_sublist _ _ _ H1). }
  exists (P first), (map (λ p, (p.1, P p.2)) l). split.
  - unfold laid_out. destruct l as [|[i gap] l]; cbn [places map fst snd]; [by rewrite !app_nil_r|].
    rewrite !placeholder_eq. cbn [app]. rewrite <-!app_assoc. cbn [app].
    rewrite HP by by left. by rewrite Hplaces.
  - split; [by apply Hclean|]. split.
    + apply Forall_map. eapply Forall_impl; [exact Hl|]. intros p Hp. by apply (Hclean p.2).
    + by rewrite <-list_fmap_compose.
Qed.

(** ** Words *)

Section Text.
Context `{Unicode}.

(** What the code relies on of Unicode's tables: the ASCII characters that are letters or digits. *)
Class AsciiLetters : Prop :=
  ascii_letters c : c < 128 → is_alphanumeric c = is_ascii_digit c || is_ascii_alphabetic c.

Lemma take_drop_while p s : take_while p s ++ drop_while p s = s.
Proof. induction s as [|c s IH]; cbn; [done|]. destruct (p c); cbn; [by rewrite IH|done]. Qed.

Lemma drop_while_shorter p s : (length (drop_while p s) ≤ length s)%nat.
Proof. induction s as [|c s IH]; cbn; [lia|]. destruct (p c); cbn; lia. Qed.

Lemma take_while_app p a c b : p c = false → take_while p (a ++ c :: b) = take_while p a.
Proof. intros Hc. induction a as [|x a IH]; cbn; [by rewrite Hc|]. by destruct (p x); rewrite ?IH. Qed.

Lemma drop_while_app p a c b : p c = false → drop_while p (a ++ c :: b) = drop_while p a ++ c :: b.
Proof. intros Hc. induction a as [|x a IH]; cbn; [by rewrite Hc|]. by destruct (p x). Qed.

Lemma while_all p s : forallb p s = true → take_while p s = s ∧ drop_while p s = [].
Proof. induction s as [|c s IH]; cbn; [done|]. intros [-> H1]%andb_true_iff. by destruct (IH H1) as [-> ->]. Qed.

(** The loop with fuel for the whole text. *)
Definition dedup (pending previous : option str) (s : str) : str := dedup_loop (length s) pending previous s.

Lemma dedup_loop_fuel fuel pending previous s : (length s ≤ fuel)%nat →
  dedup_loop fuel pending previous s = dedup pending previous s.
Proof.
  unfold dedup. revert pending previous s. induction fuel as [fuel IH] using lt_wf_ind.
  intros pending previous [|c s] Hs; [by destruct fuel|]. destruct fuel as [|fuel]; [cbn in Hs; lia|].
  cbn [length dedup_loop next_token] in *. pose proof (drop_while_shorter (same_kind (char_kind c)) s) as Hd.
  destruct (char_kind c); [destruct (_ && _); [|do 2 f_equal]|f_equal|do 2 f_equal];
    (rewrite (IH fuel) by lia; symmetry; apply IH; lia).
Qed.

(** One turn of the loop. *)
Lemma dedup_cons pending previous c s :
  dedup pending previous (c :: s) =
  let '(token, kind, after) := next_token (c :: s) in
  match kind with
  | Word =>
      if negb (forallb is_ascii_digit token) && match pending with Some _ => true | None => false end &&
         match previous with Some w => str_eqb w (to_lowercase token) | None => false end
      then dedup None previous after
      else flush pending ++ token ++ dedup None (Some (to_lowercase token)) after
  | Whitespace => flush pending ++ dedup (Some token) previous after
  | Other => flush pending ++ token ++ dedup None None after
  end.
Proof.
  unfold dedup at 1. cbn [length dedup_loop next_token].
  pose proof (drop_while_shorter (same_kind (char_kind c)) s) as Hd.
  by rewrite !dedup_loop_fuel by done.
Qed.

Lemma dedup_sublist pending previous s : dedup pending previous s `sublist_of` flush pending ++ s.
Proof.
  remember (length s) as n eqn:En. revert pending previous s En.
  induction n as [n IH] using lt_wf_ind. intros pending previous [|c s] En; [by rewrite app_nil_r|].
  rewrite dedup_cons. cbn [next_token].
  pose proof (drop_while_shorter (same_kind (char_kind c)) s) as Hd. cbn in En.
  assert (Es : c :: s = (c :: take_while (same_kind (char_kind c)) s) ++ drop_while (same_kind (char_kind c)) s)
    by (cbn; by rewrite take_drop_while).
  rewrite Es. clear Es. set (tok := c :: take_while _ _). set (after := drop_while _ _) in *.
  assert (Hi : ∀ p q, dedup p q after `sublist_of` flush p ++ after) by (intros p q; by apply (IH (length after)); [lia|]).
  destruct (char_kind c).
  - destruct (_ && _).
    + etrans; [apply Hi|]. by do 2 apply sublist_inserts_l.
    + apply sublist_app, sublist_app, Hi; done.
  - apply sublist_app; [done|]. apply (Hi (Some tok)).
  - apply sublist_app, sublist_app, Hi; done.
Qed.

Lemma char_kind_same c : same_kind (char_kind c) c = true.
Proof. unfold char_kind. destruct (is_word_char c) eqn:E1, (is_whitespace c) eqn:E2; cbn; rewrite ?E1, ?E2; done. Qed.

Lemma same_other kind c : char_kind c = Other → same_kind kind c = true → kind = Other.
Proof. unfold char_kind. destruct kind; cbn; by destruct (is_word_char c), (is_whitespace c). Qed.

(** A run of other characters may be cut anywhere. *)
Lemma dedup_other pending previous c s : char_kind c = Other →
  dedup pending previous (c :: s) = flush pending ++ c :: dedup None None s.
Proof.
  intros Hc. rewrite dedup_cons. cbn [next_token]. rewrite Hc. cbn [app]. do 2 f_equal.
  destruct s as [|d s]; [done|]. cbn [take_while drop_while].
  destruct (same_kind Other d) eqn:Ed; [|done]. rewrite dedup_cons. cbn [next_token].
  replace (char_kind d) with Other; [done|]. cbn in Ed. unfold char_kind.
  by destruct (is_word_char d), (is_whitespace d).
Qed.

Lemma dedup_cut pending previous c a b : char_kind c = Other →
  dedup pending previous (a ++ c :: b) = dedup pending previous a ++ c :: dedup None None b.
Proof.
  intros Hc. remember (length a) as n eqn:En. revert pending previous a En.
  induction n as [n IH] using lt_wf_ind. intros pending previous [|x a] En; cbn [app].
  - by rewrite dedup_other.
  - destruct (decide (char_kind x = Other)) as [Hx|Hx].
    + rewrite !dedup_other by done. rewrite (IH (length a)); [|cbn in En; lia|done]. by rewrite <-app_assoc.
    + assert (Hk : same_kind (char_kind x) c = false).
      { destruct (same_kind _ c) eqn:E; [by apply same_other in E|done]. }
      rewrite !dedup_cons. cbn [next_token]. rewrite take_while_app, drop_while_app by done.
      pose proof (drop_while_shorter (same_kind (char_kind x)) a) as Hd. cbn in En.
      destruct (char_kind x); [|by rewrite (IH (length (drop_while (same_kind Whitespace) a))), <-app_assoc by (done || lia)|done].
      destruct (_ && _); rewrite (IH (length (drop_while (same_kind Word) a))) by (done || lia); [done|].
      by rewrite <-!app_assoc.
Qed.

Lemma char_kind_placeholder `{AsciiLetters} c : c = 1 ∨ c = 2 → char_kind c = Other.
Proof. intros [-> | ->]; unfold char_kind, is_word_char; by rewrite ascii_letters. Qed.

(** A word on its own stays. *)
Lemma dedup_word c s : is_word_char c = true → forallb is_word_char s = true → dedup None None (c :: s) = c :: s.
Proof.
  intros Hc Hs. rewrite dedup_cons. cbn [next_token]. unfold char_kind. rewrite Hc.
  destruct (while_all (same_kind Word) s Hs) as [-> ->]. rewrite andb_false_r. cbn. by rewrite app_nil_r.
Qed.

Lemma name_word `{AsciiLetters} i : forallb is_word_char (name_of i) = true.
Proof.
  unfold name_of. rewrite forallb_app. apply andb_true_iff. split.
  - apply forallb_forall. intros c Hc. unfold is_word_char. apply orb_true_iff.
    assert (Hw : forallb (λ c, (c <? 128) && ((c =? 95) || (is_ascii_digit c || is_ascii_alphabetic c))) $"RTRT_PROTECT_" = true) by done.
    apply (proj1 (forallb_forall _ _) Hw) in Hc. apply andb_true_iff in Hc as [Hl%N.ltb_lt Hc].
    by rewrite ascii_letters, <-orb_true_iff.
  - apply forallb_forall. intros c Hc%list_elem_of_In. unfold is_word_char.
    pose proof (proj1 (Forall_forall _ _) (show_N_digits i) c Hc) as Hd.
    assert (Hl : c < 128) by (apply andb_true_iff in Hd as [_ Hd%N.leb_le]; lia).
    rewrite ascii_letters, Hd by done. by rewrite orb_true_r.
Qed.

Lemma keeps_dedup `{AsciiLetters} : keeps dedup_immediate_words.
Proof.
  apply (keeps_cut (dedup None None)).
  - intros a. apply (dedup_sublist None None).
  - intros c a b Hc. by apply dedup_cut, char_kind_placeholder.
  - intros i. pose proof (name_word i) as Hn. unfold name_of in *.
    change ($"RTRT_PROTECT_" ++ show_N i) with (82 :: $"TRT_PROTECT_" ++ show_N i) in *.
    cbn [forallb] in Hn. apply andb_true_iff in Hn as [H1 H2]. by apply dedup_word.
Qed.

(** ** Fillers *)

(** No term of a pack is empty, or holds an underscore or a character of a placeholder's edge. *)
Definition plain_char (c : char) : bool := negb ((c =? 1) || (c =? 2) || (c =? 95)).
Definition plain_term (t : str) : bool := negb (is_empty t) && forallb plain_char t.
Definition plain_pack (pack : LanguagePack) : bool := forallb plain_term (fillers pack ++ discourse_markers pack).

Lemma packs_plain : forallb (λ entry, plain_pack (pack entry)) LANGUAGE_PACKS = true.
Proof. by vm_compute. Qed.

Lemma language_pack_plain lang p : language_pack_for lang = Some p → plain_pack p = true.
Proof.
  unfold language_pack_for. intros (entry & He & ->)%fmap_Some. apply find_some in He as [Hin _].
  exact (proj1 (forallb_forall _ _) packs_plain entry Hin).
Qed.

Lemma split_at_byte_app n s a b : split_at_byte n s = Some (a, b) → s = a ++ b.
Proof.
  revert n a. induction s as [|c s IH]; intros n a; cbn; destruct (n =? 0); try (by intros [= <- <-]).
  destruct (n <? utf8_width c); [done|]. destruct (split_at_byte _ s) as [[x y]|] eqn:E; [|done].
  intros [= <- <-]. cbn. by rewrite (IH _ _ E).
Qed.

Lemma split_at_byte_longer n s t a b : split_at_byte n s = Some (a, b) → split_at_byte n (s ++ t) = Some (a, b ++ t).
Proof.
  revert n a. induction s as [|c s IH]; intros n a; cbn.
  - destruct (n =? 0) eqn:E; [|done]. intros [= <- <-]. destruct t; cbn; by rewrite E.
  - destruct (n =? 0); [by intros [= <- <-]|]. destruct (n <? utf8_width c); [done|].
    destruct (split_at_byte _ s) as [[x y]|] eqn:E; [|done]. intros [= <- <-]. by rewrite (IH _ _ E).
Qed.

Lemma split_at_byte_beyond n s c t a b : split_at_byte n (s ++ c :: t) = Some (a, b) →
  split_at_byte n s = None → c ∈ a.
Proof.
  revert n a. induction s as [|x s IH]; intros n a; cbn.
  - destruct (n =? 0); [done|]. destruct (n <? utf8_width c); [done|].
    destruct (split_at_byte _ t) as [[y z]|]; [|done]. intros [= <- <-] _. by left.
  - destruct (n =? 0); [done|]. destruct (n <? utf8_width x); [done|].
    destruct (split_at_byte _ (s ++ c :: t)) as [[y z]|] eqn:E; [|done]. intros [= <- <-].
    destruct (split_at_byte _ s) as [[? ?]|] eqn:E'; [done|]. intros _. right. by apply (IH _ _ E E').
Qed.

Lemma strip_prefix_cut t a c b : c ∉ t → strip_prefix t (a ++ c :: b) = (λ r, r ++ c :: b) <$> strip_prefix t a.
Proof.
  revert a. induction t as [|x t IH]; intros a; [done|]. intros [Hx Ht]%not_elem_of_cons.
  destruct a as [|y a]; cbn.
  - destruct (x =? c) eqn:E; [by apply N.eqb_eq in E|done].
  - destruct (x =? y); [by apply IH|done].
Qed.

Lemma ascii_lower_plain c : plain_char (ascii_lower c) = plain_char c.
Proof.
  unfold ascii_lower, plain_char. destruct ((65 <=? c) && (c <=? 90)) eqn:E; [|done].
  apply andb_true_iff in E as [E1%N.leb_le E2%N.leb_le]. f_equal.
  destruct (N.eqb_spec (c + 32) 1), (N.eqb_spec (c + 32) 2), (N.eqb_spec (c + 32) 95),
    (N.eqb_spec c 1), (N.eqb_spec c 2), (N.eqb_spec c 95); cbn; lia.
Qed.

Lemma lower_plain s : forallb plain_char (to_ascii_lowercase s) = forallb plain_char s.
Proof. induction s as [|c s IH]; cbn; [done|]. unfold to_ascii_lowercase in IH. by rewrite ascii_lower_plain, IH. Qed.

Lemma eq_ignore_case_plain a b : eq_ignore_ascii_case a b = true → plain_term b = true → plain_term a = true.
Proof.
  intros He%str_eqb_eq. unfold plain_term. rewrite <-(lower_plain a), <-(lower_plain b), He.
  apply (f_equal length) in He. unfold to_ascii_lowercase in He. rewrite !length_map in He.
  by destruct a, b.
Qed.

Lemma matched_term_spec rest term m after : plain_term term = true → matched_term rest term = Some (m, after) →
  rest = m ++ after ∧ plain_term m = true.
Proof.
  intros Ht. unfold matched_term. destruct (is_ascii term).
  - destruct (split_at_byte _ rest) as [[x y]|] eqn:E; [|done]. cbn.
    destruct (eq_ignore_ascii_case x term) eqn:Ex; [|done]. intros [= <- <-].
    split; [by apply split_at_byte_app in E|by apply eq_ignore_case_plain in Ex].
  - destruct (strip_prefix term rest) as [r|] eqn:E; [|done]. cbn. intros [= <- <-].
    by apply strip_prefix_Some in E.
Qed.

Lemma plain_not_in t c : plain_term t = true → plain_char c = false → c ∉ t.
Proof.
  intros [_ Ht]%andb_true_iff Hc Hin%list_elem_of_In.
  apply (proj1 (forallb_forall _ _) Ht) in Hin. congruence.
Qed.

(** What follows a cut changes nothing before it. *)
Lemma matched_term_cut a c b term : plain_term term = true → plain_char c = false →
  matched_term (a ++ c :: b) term = (λ m, (m.1, m.2 ++ c :: b)) <$> matched_term a term.
Proof.
  intros Ht Hc. unfold matched_term. destruct (is_ascii term).
  - destruct (split_at_byte (str_len term) a) as [[x y]|] eqn:E; cbn.
    + rewrite (split_at_byte_longer _ _ _ _ _ E). cbn. by destruct (eq_ignore_ascii_case x term).
    + destruct (split_at_byte (str_len term) (a ++ c :: b)) as [[x y]|] eqn:E'; [|done]. cbn.
      destruct (eq_ignore_ascii_case x term) eqn:Ex; [|done]. apply eq_ignore_case_plain in Ex; [|done].
      destruct (plain_not_in _ _ Ex Hc). exact (split_at_byte_beyond _ _ _ _ _ _ E' E).
  - rewrite strip_prefix_cut by by apply plain_not_in. by destruct (strip_prefix term a).
Qed.

Lemma max_by_key_map {A B : Type} (key : B → nat) (f : A → B) (l : list A) :
  max_by_key key (map f l) = f <$> max_by_key (λ a, key (f a)) l.
Proof.
  unfold max_by_key. change None with (f <$> None) at 1. generalize (@None A) as best.
  induction l as [|a l IH]; intros best; cbn; [done|]. rewrite <-IH. f_equal.
  destruct best as [y|]; [|done]. cbn -[Nat.ltb]. by case_match.
Qed.

Lemma max_by_key_in {A : Type} (key : A → nat) (l : list A) x : max_by_key key l = Some x → x ∈ l.
Proof.
  unfold max_by_key. assert (Hin : ∀ best, foldl (λ best x, match best with
      | Some y => if (key x <? key y)%nat then Some y else Some x | None => Some x end) best l = Some x →
      best = Some x ∨ x ∈ l).
  { induction l as [|a l IH]; intros best; cbn; [by left|]. intros [Hb|Hb]%IH; [|by right; right].
    destruct best as [y|]; [destruct (match key y with O => _ | _ => _ end); [by left|]|]; injection Hb as ->; right; by left. }
  by intros [?|?]%Hin.
Qed.

Section Pack.
Context (pack : LanguagePack) (Hplain : plain_pack pack = true).

Let plain_in term : term ∈ fillers pack ++ discourse_markers pack → plain_term term = true.
Proof. intros Hin%list_elem_of_In. exact (proj1 (forallb_forall _ _) Hplain term Hin). Qed.

Lemma matching_spec prev rest m after : matching_pack_term prev rest pack = Some (m, after) →
  rest = m ++ after ∧ plain_term m = true ∧ has_term_boundaries prev after = true.
Proof using Hplain.
  intros Hm%max_by_key_in%list_elem_of_In. apply List.filter_In in Hm as [Hm Hb].
  apply list_elem_of_In, list_elem_of_omap in Hm as (term & Hterm & Hm).
  apply matched_term_spec in Hm as [-> Hp]; auto.
Qed.

Lemma matching_cut prev a c b : plain_char c = false → is_word_char c = false →
  matching_pack_term prev (a ++ c :: b) pack = (λ m, (m.1, m.2 ++ c :: b)) <$> matching_pack_term prev a pack.
Proof using Hplain.
  intros Hc Hw. unfold matching_pack_term. 
  etrans; [|apply (max_by_key_map (λ m : str * str, length m.1) (λ m : str * str, (m.1, m.2 ++ c :: b)))]. f_equal.
  induction (fillers pack ++ discourse_markers pack) as [|t ts IH]; [done|].
  cbn [omap list_omap]. rewrite (matched_term_cut a c b t) by (done || apply plain_in; by left).
  specialize (IH (λ t' Ht', plain_in t' (list_elem_of_further _ _ _ Ht'))).
  destruct (matched_term a t) as [[m after]|]; cbn; [|exact IH].
  assert (Hb : has_term_boundaries prev (after ++ c :: b) = has_term_boundaries prev after).
  { unfold has_term_boundaries. destruct after; cbn; [by rewrite Hw|done]. }
  rewrite Hb. destruct (has_term_boundaries prev after); cbn; by rewrite <-IH.
Qed.

Definition pack_from (prev : option char) (s : str) : str := pack_loop (length s) pack prev s.

Lemma skip_gap s : (skip_trailing_filler_gap s).1 ++ (skip_trailing_filler_gap s).2 = s.
Proof using.
  unfold skip_trailing_filler_gap. cbn [fst snd]. rewrite <-app_assoc, take_drop_while.
  destruct s as [|c s]; [done|]. by destruct (is_gap_mark c).
Qed.

Lemma pack_loop_fuel fuel prev s : (length s ≤ fuel)%nat → pack_loop fuel pack prev s = pack_from prev s.
Proof using Hplain.
  unfold pack_from. revert prev s. induction fuel as [fuel IH] using lt_wf_ind.
  intros prev [|c s] Hs; [by destruct fuel|]. destruct fuel as [|fuel]; [cbn in Hs; lia|].
  cbn [length pack_loop] in *. destruct (matching_pack_term prev (c :: s) pack) as [[m after]|] eqn:E.
  - apply matching_spec in E as (E & Hm & _). pose proof (skip_gap after) as Hg.
    destruct (skip_trailing_filler_gap after) as [gap rest]. cbn in Hg. subst after.
    apply (f_equal length) in E. rewrite !length_app in E. cbn in E.
    assert ((0 < length m)%nat) by (destruct m; [done|cbn; lia]).
    rewrite (IH fuel) by lia. symmetry. apply IH; lia.
  - f_equal. by rewrite (IH fuel) by lia.
Qed.

(** One turn of the loop. *)
Lemma pack_cons prev c s :
  pack_from prev (c :: s) =
  match matching_pack_term prev (c :: s) pack with
  | Some (m, after) => let '(gap, after) := skip_trailing_filler_gap after in pack_from (last (m ++ gap)) after
  | None => c :: pack_from (Some c) s
  end.
Proof using Hplain.
  unfold pack_from at 1. cbn [length pack_loop].
  destruct (matching_pack_term prev (c :: s) pack) as [[m after]|] eqn:E; [|done].
  apply matching_spec in E as (E & Hm & _). pose proof (skip_gap after) as Hg.
  destruct (skip_trailing_filler_gap after) as [gap rest]. cbn in Hg. subst after.
  apply (f_equal length) in E. rewrite !length_app in E. cbn in E.
  assert ((0 < length m)%nat) by (destruct m; [done|cbn; lia]). apply pack_loop_fuel. lia.
Qed.

(** Induction along the loop. *)
Lemma pack_ind (P : option char → str → Prop) :
  (∀ prev, P prev []) →
  (∀ prev c s m gap after, matching_pack_term prev (c :: s) pack = Some (m, gap ++ after) →
     skip_trailing_filler_gap (gap ++ after) = (gap, after) → c :: s = m ++ gap ++ after →
     P (last (m ++ gap)) after → P prev (c :: s)) →
  (∀ prev c s, matching_pack_term prev (c :: s) pack = None → P (Some c) s → P prev (c :: s)) →
  ∀ prev s, P prev s.
Proof using Hplain.
  intros H0 H1 H2 prev s. remember (length s) as n eqn:En. revert prev s En.
  induction n as [n IH] using lt_wf_ind. intros prev [|c s] En; [done|].
  destruct (matching_pack_term prev (c :: s) pack) as [[m after]|] eqn:E.
  - pose proof (matching_spec _ _ _ _ E) as (Es & Hm & _). pose proof (skip_gap after) as Hg.
    destruct (skip_trailing_filler_gap after) as [gap rest] eqn:Eg. cbn in Hg. subst after.
    apply (H1 _ _ _ _ _ _ E Eg Es). apply (IH (length rest)); [|done].
    subst n. rewrite Es, !length_app. destruct m; [done|cbn; lia].
  - apply H2; [done|]. apply (IH (length s)); [cbn in En; lia|done].
Qed.

Lemma skip_cut after c b : is_whitespace c = false → is_gap_mark c = false →
  skip_trailing_filler_gap (after ++ c :: b) =
  let '(gap, rest) := skip_trailing_filler_gap after in (gap, rest ++ c :: b).
Proof using.
  intros Hw Hm. unfold skip_trailing_filler_gap. destruct after as [|x after]; cbn [app].
  - rewrite Hm. cbn [length drop app take_while drop_while]. by rewrite Hw.
  - destruct (is_gap_mark x); cbn [length drop app]; rewrite ?drop_0.
    + by rewrite take_while_app, drop_while_app.
    + by rewrite app_comm_cons, take_while_app, drop_while_app.
Qed.

Lemma pack_sublist prev s : pack_from prev s `sublist_of` s.
Proof using Hplain.
  revert prev s. apply pack_ind; [done|intros ? ? ? ? ? ? E Eg Es IH|intros ? ? ? E IH].
  - rewrite pack_cons, E, Eg, Es. by do 2 apply sublist_inserts_l.
  - rewrite pack_cons, E. by apply sublist_skip.
Qed.

(** The character before the text only matters when it belongs to a word. *)
Lemma pack_after c s : is_word_char c = false → pack_from (Some c) s = pack_from None s.
Proof using Hplain.
  intros Hw. destruct s as [|x s]; [done|]. rewrite !pack_cons.
  replace (matching_pack_term (Some c) (x :: s) pack) with (matching_pack_term None (x :: s) pack); [done|].
  unfold matching_pack_term, has_term_boundaries. by rewrite Hw.
Qed.

Lemma pack_cut prev c a b : plain_char c = false → is_word_char c = false → is_whitespace c = false →
  is_gap_mark c = false → pack_from prev (a ++ c :: b) = pack_from prev a ++ c :: pack_from None b.
Proof using Hplain.
  intros Hc Hw Hs Hm. 
  revert prev a. apply pack_ind; [intros prev|intros ? ? ? ? ? ? E Eg Es IH|intros ? ? ? E IH]; cbn [app].
  - pose proof (matching_cut prev [] c b Hc Hw) as Hcut. cbn [app] in Hcut.
    rewrite pack_cons, Hcut.
    destruct (matching_pack_term prev [] pack) as [[m after]|] eqn:E; [|cbn; by rewrite pack_after].
    apply matching_spec in E as (E & Hp & _). symmetry in E. apply app_eq_nil in E as [-> _]. done.
  - rewrite !pack_cons, app_comm_cons, matching_cut, E by done. cbn [fmap option_fmap option_map fst snd].
    rewrite skip_cut, Eg by done. exact IH.
  - rewrite !pack_cons, app_comm_cons, matching_cut, E by done. cbn [fmap option_fmap option_map app]. by rewrite IH.
Qed.

(** A word with an underscore is no filler. *)
Lemma pack_word prev s : forallb is_word_char s = true →
  match prev with Some c => is_word_char c = true | None => 95 ∈ s end → pack_from prev s = s.
Proof using Hplain.
  revert prev. induction s as [|c s IH]; intros prev Hall Hprev; [done|].
  rewrite pack_cons. destruct (matching_pack_term prev (c :: s) pack) as [[m after]|] eqn:E.
  - apply matching_spec in E as (E & Hp & Hb). destruct prev as [d|]; [by unfold has_term_boundaries in Hb; rewrite Hprev in Hb|].
    assert (after = []) as ->.
    { destruct after as [|d after]; [done|]. rewrite E, forallb_app in Hall. cbn [forallb] in Hall.
      apply andb_true_iff in Hall as [_ [Hd _]%andb_true_iff]. unfold has_term_boundaries in Hb. by rewrite Hd in Hb. }
    rewrite app_nil_r in E. subst m. by destruct (plain_not_in _ 95 Hp eq_refl).
  - cbn [forallb] in Hall. apply andb_true_iff in Hall as [Hc Hall]. by rewrite IH.
Qed.

Lemma keeps_pack `{AsciiLetters} : keeps (λ s, apply_language_pack s pack).
Proof using Hplain.
  apply (keeps_cut (pack_from None)).
  - intros a. apply pack_sublist.
  - intros c a b Hc. apply pack_cut; [by destruct Hc as [-> | ->]| |by destruct Hc as [-> | ->]..].
    destruct Hc as [-> | ->]; unfold is_word_char; by rewrite ascii_letters.
  - intros i. apply pack_word; [apply name_word|]. apply elem_of_app. left. by apply list_elem_of_In; vm_compute; auto 10.
Qed.
End Pack.

(** ** The whole pipeline *)

(** The patterns of the passes between stashing and restoring, with their replacements. *)
Definition all_rules : list Rule :=
  LITE_RULES ++ FULL_RULES ++ ULTRA_RULES ++ EXTREME_RULES ++
  [(MULTI_SPACE, $" "); (MULTI_NEWLINE, [ch_nl; ch_nl]); (EXTRA_PERIODS, $"..."); (EXTRA_EXCLAMATION, $"!");
   (EXTRA_QUESTION, $"?")].

Section Pipeline.
Context (find_iter : str → str → list (str * str) * str).
Context (replace_all : str → str → str → str).
Context (detect : str → option (Lang * f64)) (json_to_string : Json → str).

(** What the code relies on of the regular expressions: the matches and what is between
    them are the text, and none of the rules' patterns matches inside a placeholder. *)
Class RegexLaws : Prop := {
  find_iter_whole re s : whole (find_iter re s).1 (find_iter re s).2 = s;
  rule_keeps re rep : (re, rep) ∈ all_rules → keeps (λ s, replace_all re s rep);
}.

Lemma english_rule_in level rule : rule ∈ english_rules_for level → rule ∈ all_rules.
Proof using. unfold all_rules. rewrite !elem_of_app. destruct level; tauto. Qed.

Context `{RegexLaws} `{AsciiLetters}.

Lemma keeps_english level : keeps (λ s, foldl (λ out rule, replace_all rule.1 out rule.2) s (english_rules_for level)).
Proof.
  apply (keeps_foldl (λ rule s, replace_all rule.1 s rule.2)), Forall_forall.
  intros [re rep] Hin%english_rule_in. by apply rule_keeps.
Qed.

Lemma universal_rule re rep :
  (re, rep) ∈ [(MULTI_SPACE, $" "); (MULTI_NEWLINE, [ch_nl; ch_nl]); (EXTRA_PERIODS, $"..."); (EXTRA_EXCLAMATION, $"!");
               (EXTRA_QUESTION, $"?")] → keeps (λ s, replace_all re s rep).
Proof. intros Hin. apply rule_keeps. unfold all_rules. rewrite !elem_of_app. tauto. Qed.

Lemma keeps_universal : keeps (apply_universal_passes replace_all).
Proof.
  assert (Hu : Forall (λ rule : Rule, keeps (λ s, replace_all rule.1 s rule.2))
    [(MULTI_SPACE, $" "); (MULTI_NEWLINE, [ch_nl; ch_nl]); (EXTRA_PERIODS, $"..."); (EXTRA_EXCLAMATION, $"!");
     (EXTRA_QUESTION, $"?")]).
  { apply Forall_forall. intros [re rep]. apply universal_rule. }
  rewrite !Forall_cons in Hu. destruct Hu as (Hs & Hn & Hp & He & Hq & _).
  pose proof (keeps_compose _ _ (keeps_compose _ _ Hs Hn) keeps_dedup) as Hk.
  pose proof (keeps_compose _ _ Hk (keeps_compose _ _ (keeps_compose _ _ Hp He) Hq)) as Hall. exact Hall.
Qed.

(** Restoring fills each place with what was stashed there. *)
Lemma places_filled (pre slots : list str) (l : list (N * str)) : l.*1 = map N.of_nat (seq (length pre) (length slots)) →
  places (λ i, default (placeholder i) ((pre ++ slots) !! N.to_nat i)) l =
  concat (zip_with (λ m gap, m ++ gap) slots l.*2).
Proof using.
  revert pre l. induction slots as [|m slots IH]; intros pre l Hl.
  - by destruct l.
  - destruct l as [|[i gap] l]; [done|]. cbn [length seq map fmap list_fmap fst snd] in Hl. injection Hl as -> Hl.
    cbn [places]. rewrite Nat2N.id, lookup_app_r, Nat.sub_diag by done. cbn [lookup list_lookup from_option id].
    specialize (IH (pre ++ [m]) l). rewrite <-app_assoc in IH. cbn [app] in IH. rewrite IH.
    + cbn. by rewrite <-app_assoc.
    + rewrite Hl, length_app. cbn. do 2 f_equal. lia.
Qed.

Lemma keeps_restored P s : keeps P → clean s →
  ∃ first gaps, length gaps = length (stash_protected find_iter s).2 ∧
    restore_protected (P (stash_protected find_iter s).1) (stash_protected find_iter s).2 =
    first ++ concat (zip_with (λ m gap, m ++ gap) (stash_protected find_iter s).2 gaps).
Proof.
  intros HP Hs. unfold stash_protected. pose proof (find_iter_whole PROTECT s) as Hw.
  destruct (find_iter PROTECT s) as [pieces rest]. cbn [fst snd] in *. subst s.
  destruct (spans_clean 0 _ _ Hs) as (H1' & H2 & H3). rewrite stash_laid_out.
  destruct (HP _ _ H1' H2) as (first & l & -> & Hf & Hl & Hids). exists first, l.*2.
  rewrite spans_ids in Hids. split.
  - apply (f_equal length) in Hids. rewrite length_fmap, length_map, length_seq in Hids.
    by rewrite length_fmap, length_map.
  - rewrite restore_laid_out by done. unfold laid_out. f_equal. apply (places_filled []). cbn.
    by rewrite Hids, length_map.
Qed.

(** What is stashed comes back. *)
Lemma stash_restore s out slots : stash_protected find_iter s = (out, slots) → clean s → restore_protected out slots = s.
Proof.
  unfold stash_protected. pose proof (find_iter_whole PROTECT s) as Hw.
  destruct (find_iter PROTECT s) as [pieces rest]. cbn in Hw. intros [= <- <-] Hs. subst s.
  destruct (spans_clean 0 _ _ Hs) as (H1' & H2 & H3).
  rewrite stash_laid_out, restore_laid_out by done. exact (spans_filled [] pieces rest).
Qed.

(** The passes of [compress] between stashing and restoring. *)
Lemma keeps_passes level lang redacted : keeps (λ placeheld,
  let out :=
    if should_apply_english_rules lang redacted
    then foldl (λ out rule, replace_all rule.1 out rule.2) placeheld (english_rules_for level)
    else placeheld in
  let out :=
    if applies_language_pack level then
      match lang ≫= language_pack_for with
      | Some pack => apply_language_pack out pack
      | None => out
      end
    else out in
  apply_universal_passes replace_all out).
Proof.
  assert (He : keeps (λ s, if should_apply_english_rules lang redacted
    then foldl (λ out rule, replace_all rule.1 out rule.2) s (english_rules_for level) else s))
    by (destruct (should_apply_english_rules _ _); [apply keeps_english|apply keeps_id]).
  assert (Hp : keeps (λ s, if applies_language_pack level then
      match lang ≫= language_pack_for with Some pack => apply_language_pack s pack | None => s end else s)).
  { destruct (applies_language_pack level); [|apply keeps_id].
    destruct (lang ≫= language_pack_for) as [pack|] eqn:E; [|apply keeps_id].
    apply bind_Some in E as (l & -> & E). exact (keeps_pack pack (language_pack_plain l pack E)). }
  pose proof (keeps_compose _ _ (keeps_compose _ _ He Hp) keeps_universal) as Hall. exact Hall.
Qed.

End Pipeline.
End Text.

(** ** XML *)

(** What a reader of XML takes from character data sections: the text up to the first
    terminator, then the next section if one opens at once. *)
Fixpoint read_cdata (fuel : nat) (s : str) : option (str * str) :=
  match fuel with
  | O => None
  | S fuel' =>
      '(text, after) ← split_once $"]]>" s;
      match strip_prefix $"<![CDATA[" after with
      | Some next => '(more, rest) ← read_cdata fuel' next; Some (text ++ more, rest)
      | None => Some (text, after)
      end
  end.

Lemma strip_prefix_longer p s t r : strip_prefix p s = Some r → strip_prefix p (s ++ t) = Some (r ++ t).
Proof. intros ->%strip_prefix_Some. rewrite <-app_assoc. apply strip_prefix_app. Qed.

Lemma split_once_None_cons p c s : split_once p (c :: s) = None ↔ strip_prefix p (c :: s) = None ∧ split_once p s = None.
Proof.
  cbn [split_once]. destruct (strip_prefix p (c :: s)); [naive_solver|].
  destruct (split_once p s) as [[a b]|]; naive_solver.
Qed.

Definition terminator : str := $"]]>".

(** A terminator after a text that has none is the first. *)
Lemma split_terminator a t : split_once terminator a = None → split_once terminator (a ++ terminator ++ t) = Some (a, t).
Proof.
  change terminator with [93; 93; 62]. induction a as [|c a IH]; [done|]. intros [Hc Ha]%split_once_None_cons.
  cbn [app split_once].
  assert (Hn : strip_prefix [93; 93; 62] (c :: a ++ [93; 93; 62] ++ t) = None).
  { destruct a as [|d [|e a]]; cbn in Hc |- *; repeat case_match; done. }
  cbn [app] in Hn, IH. by rewrite Hn, IH.
Qed.

Lemma split_first body a b : split_once terminator body = Some (a, b) →
  body = a ++ terminator ++ b ∧ split_once terminator (a ++ $"]]") = None.
Proof.
  revert a. induction body as [|c s IH]; intros a; [done|]. cbn [split_once].
  destruct (strip_prefix terminator (c :: s)) as [r|] eqn:E.
  - intros [= <- <-]. by apply strip_prefix_Some in E.
  - destruct (split_once terminator s) as [[x y]|] eqn:Es; [|done]. intros [= <- <-].
    destruct (IH _ eq_refl) as [-> Hn]. split; [done|]. cbn [app]. apply split_once_None_cons. split; [|done].
    destruct (strip_prefix terminator (c :: x ++ $"]]")) as [r|] eqn:Er; [|done].
    apply (strip_prefix_longer _ _ (62 :: y)) in Er. cbn [app] in Er. rewrite <-app_assoc in Er.
    change ($"]]" ++ 62 :: y) with (terminator ++ y) in Er. by rewrite Er in E.
Qed.

Lemma escape_none body : split_once terminator body = None → xml_escape body = body.
Proof.
  unfold xml_escape. change $"]]>" with terminator. induction body as [|c s IH]; [done|].
  intros [Hc Hs]%split_once_None_cons. rewrite replace_miss; [by rewrite IH|]. unfold starts_with. by rewrite Hc.
Qed.

Lemma escape_first body a b : split_once terminator body = Some (a, b) →
  xml_escape body = a ++ $"]]]]><![CDATA[>" ++ xml_escape b.
Proof.
  unfold xml_escape. change $"]]>" with terminator. revert a. induction body as [|c s IH]; intros a; [done|].
  cbn [split_once]. destruct (strip_prefix terminator (c :: s)) as [r|] eqn:E.
  - intros [= <- <-]. apply strip_prefix_Some in E. rewrite E. by apply replace_hit.
  - destruct (split_once terminator s) as [[x y]|] eqn:Es; [|done]. intros [= <- <-].
    rewrite replace_miss by (unfold starts_with; by rewrite E). by rewrite (IH _ eq_refl).
Qed.

Lemma read_escaped fuel body rest : (length body < fuel)%nat → strip_prefix $"<![CDATA[" rest = None →
  read_cdata fuel (xml_escape body ++ terminator ++ rest) = Some (body, rest).
Proof.
  intros Hfuel Hr. revert fuel Hfuel. remember (length body) as n eqn:En. revert body En.
  induction n as [n IH] using lt_wf_ind. intros body -> [|fuel] Hfuel; [lia|]. cbn [read_cdata].
  change $"]]>" with terminator. destruct (split_once terminator body) as [[a b]|] eqn:E.
  - rewrite (escape_first _ _ _ E). pose proof (split_first _ _ _ E) as [-> Hn].
    assert (Es : (a ++ $"]]]]><![CDATA[>" ++ xml_escape b) ++ terminator ++ rest =
                 (a ++ $"]]") ++ terminator ++ $"<![CDATA[" ++ (xml_escape (62 :: b) ++ terminator ++ rest)).
    { rewrite <-!app_assoc. done. }
    rewrite Es, split_terminator by done. cbn [mbind option_bind].
    assert (Hlt : (length ((62%N : char) :: b) < length (a ++ terminator ++ b))%nat) by (rewrite !length_app; change (length terminator) with 3%nat; cbn [length]; lia).
    rewrite strip_prefix_app, (IH _ Hlt (62 :: b) eq_refl fuel) by lia.
    cbn [mbind option_bind]. by rewrite <-app_assoc.
  - rewrite (escape_none _ E), split_terminator by done. cbn [mbind option_bind]. by rewrite Hr.
Qed.

Section Framing.
Context `{Unicode} (find_iter : str → str → list (str * str) * str).
Context (replace_all : str → str → str → str) (detect : str → option (Lang * f64)) (json_to_string : Json → str).

(** Whatever the text, terminators of sections included, a reader of the XML gets it back,
    and finds the closing tag after it. *)
Theorem xml_read_back level input :
  ∃ opening, split_once $"<![CDATA[" (compress_to find_iter replace_all detect json_to_string level input Xml) =
    Some ($"<rtrt level=" ++ [34] ++ level_slug level ++ [34] ++ $">", opening) ∧
  ∃ fuel, read_cdata fuel opening = Some (compress find_iter replace_all detect level input, $"</rtrt>").
Proof.
  unfold compress_to. set (body := compress find_iter replace_all detect level input).
  exists (xml_escape body ++ terminator ++ $"</rtrt>"). split; [by destruct level|].
  exists (S (length body)). apply read_escaped; [lia|done].
Qed.
End Framing.

(** ** Concrete runs *)

Module Examples.
(** Letters and digits of ASCII; code between backquotes is protected; runs of spaces are
    shortened, and nothing else is. *)
#[local] Instance ascii : Unicode :=
  {| is_alphanumeric c := is_ascii_digit c || is_ascii_alphabetic c; to_lowercase := to_ascii_lowercase |}.

Fixpoint backquoted (fuel : nat) (s : str) : list (str * str) * str :=
  match fuel with
  | O => ([], s)
  | S fuel' =>
      match split_once_char 96 s with
      | Some (gap, after) =>
          match split_once_char 96 after with
          | Some (code, rest) =>
              let '(pieces, rest) := backquoted fuel' rest in ((gap, 96 :: code ++ [96]) :: pieces, rest)
          | None => ([], s)
          end
      | None => ([], s)
      end
  end.
Definition find_iter (re s : str) : list (str * str) * str :=
  if str_eqb re PROTECT then backquoted (length s) s else ([], s).

Fixpoint collapse (s : str) : str :=
  match s with
  | c :: s' => match s' with
               | d :: _ => if (c =? 32) && (d =? 32) then collapse s' else c :: collapse s'
               | [] => [c]
               end
  | [] => []
  end.
Definition replace_all (re s rep : str) : str := if str_eqb re MULTI_SPACE then collapse s else s.
Definition detect (s : str) : option (Lang * f64) := Some (Eng, f64_of_N 1).

#[local] Instance ascii_letters_hold : AsciiLetters.
Proof. by intros c _. Qed.

Lemma backquoted_whole fuel s : whole (backquoted fuel s).1 (backquoted fuel s).2 = s.
Proof.
  revert s. induction fuel as [|fuel IH]; intros s; cbn; [done|].
  destruct (split_once_char 96 s) as [[gap after]|] eqn:E1; [|done].
  destruct (split_once_char 96 after) as [[code rest]|] eqn:E2; [|done].
  apply split_once_char_Some in E1 as [-> _]. apply split_once_char_Some in E2 as [-> _].
  specialize (IH rest). destruct (backquoted fuel rest) as [pieces rest']. cbn in IH. subst rest.
  unfold whole. cbn. rewrite <-!app_assoc. cbn. by rewrite <-!app_assoc.
Qed.

Lemma keeps_collapse : keeps collapse.
Proof.
  apply keeps_cut.
  - induction a as [|c [|d a] IH]; cbn; [reflexivity..|]. by destruct (_ && _); constructor.
  - intros c a b Hc. assert (Hs : (c =? 32) = false) by by destruct Hc as [-> | ->].
    induction a as [|x a IH]; cbn [app collapse].
    + rewrite Hs. by destruct b.
    + destruct a as [|d a]; cbn [app] in *; [by rewrite Hs, andb_false_r; cbn; rewrite Hs; destruct b|].
      destruct (_ && _); by rewrite IH.
  - intros i. pose proof (name_free 32 i eq_refl eq_refl) as Hn. revert Hn. generalize (name_of i) as s.
    induction s as [|c [|d s] IH]; [done..|]. intros [Hc Hs]%not_elem_of_cons.
    change (collapse (c :: d :: s)) with (if (c =? 32) && (d =? 32) then collapse (d :: s) else c :: collapse (d :: s)).
    destruct (c =? 32) eqn:E; [by apply N.eqb_eq in E|]. by rewrite IH.
Qed.

#[local] Instance laws : RegexLaws find_iter replace_all.
Proof.
  split.
  - intros re s. unfold find_iter. destruct (str_eqb re PROTECT); [apply backquoted_whole|done].
  - intros re rep _. unfold replace_all. destruct (str_eqb re MULTI_SPACE); [apply keeps_collapse|apply keeps_id].
Qed.

Definition note : str := $"run  `cargo  test`  on  the  the  repo, see `main  main`".

Example note_compressed : compress find_iter replace_all detect Lite note = $"run `cargo  test` on the repo, see `main  main`".
Proof. by vm_compute. Qed.


(** A text that holds a placeholder's own characters: the code in its first backquotes is
    not what comes back. *)
Definition forged : str := $"`a" ++ placeholder 1 ++ $"` and `b`".
Example forged_not_restored :
  restore_protected (stash_protected find_iter forged).1 (stash_protected find_iter forged).2 = $"`a`b`` and `b`".
Proof. by vm_compute. Qed.

(** The payload of Markdown is not the one of the other formats: its last line ends are gone. *)
Example markdown_trims json_to_string :
  compress_to find_iter replace_all detect json_to_string Lite ($"done" ++ [ch_nl]) Plain = $"done" ++ [ch_nl] ∧
  compress_to find_iter replace_all detect json_to_string Lite ($"done" ++ [ch_nl]) Markdown =
  compress_to find_iter replace_all detect json_to_string Lite $"done" Markdown.
Proof. by vm_compute. Qed.
End Examples.
