(* ===== verification/MlCompress.v ===== *)
(** * Compression to a budget: [crates/rtrt-compress/src/ml.rs]

    A scorer gives each word of a text an importance; the best are kept, in the text's
    order, until a share of the words is reached.  The scorer is an argument, as the trait
    [TokenImportance] is in the code; the heuristic one is here. *)
From S2P Require Import Prelude Str Words Error F64 F32 MemRecall Compress CompressSafety.

(** ** Single precision, as far as this file needs it *)

Definition f32_sub (a b : f32) : f32 := SFsub f32_prec f32_emax a b.

(** [f32::ceil]. *)
Definition f32_ceil (a : f32) : f32 :=
  match a with
  | S754_finite s m (Zneg p) =>
      let d := 2 ^ Npos p in
      let q := if s then Npos m / d else (Npos m + (d - 1)) / d in
      match q with
      | N0 => S754_zero s
      | Npos q' => binary_round f32_prec f32_emax s q' 0
      end
  | _ => a
  end.

(** [f32::max]: the other one when one is no number. *)
Definition f32_max (a b : f32) : f32 :=
  if f64_is_nan a then b else if f64_is_nan b then a else if f64_lt a b then b else a.

Definition f32_clamp (a low high : f32) : f32 :=
  if f64_lt a low then low else if f64_lt high a then high else a.

(** ** Targets *)

(** The text of the error prints the ratio, a float; its printing is an argument. *)
Definition CompressionTarget_new (show : f32 → str) (ratio : f32) : Result f32 :=
  if f64_is_finite ratio && (f64_le (f32_ratio 1 20) ratio && f64_le ratio (f32_of_N 1)) then Ok ratio
  else Err (Config ($"compression ratio must be in (0.05, 1.0], got " ++ show ratio)).

(** ** The heuristic scorer *)

Definition NEGATIONS : list str :=
  [$"not"; $"no"; $"never"; $"don't"; $"doesn't"; $"didn't"; $"won't"; $"can't"; $"cannot"; $"shouldn't";
   $"mustn't"; $"isn't"; $"aren't"; $"wasn't"; $"weren't"; $"without"; $"unless"; $"nor"; $"neither"].

Definition HARD_KEEP_SCORE : f32 := f32_of_N 2.

Definition is_ascii_uppercase (c : char) : bool := (65 <=? c) && (c <=? 90).

Definition trim_matches (p : char → bool) (s : str) : str := trim_end_matches p (trim_start_matches p s).

Definition is_hard_keep (token : str) : bool :=
  if existsb is_ascii_digit token then true
  else
    let lower := replace [8217] $"'" (to_ascii_lowercase token) in
    let trimmed := trim_matches (λ c, negb ((is_ascii_digit c || is_ascii_alphabetic c) || (c =? 39))) lower in
    existsb (str_eqb trimmed) NEGATIONS.

(** The score of a word that is not kept anyway, from its length, a capital in it, and
    whether it is all punctuation. *)
Definition soft_score (len : N) (has_upper punct_only : bool) : f32 :=
  let bit (b : bool) := f32_of_N (if b then 1 else 0) in
  f32_mul
    (f32_add (f32_clamp (f32_div (f32_of_N len) (f32_of_N 10)) (f32_of_N 0) (f32_of_N 1))
             (f32_mul (bit has_upper) (f32_ratio 1 5)))
    (f32_sub (f32_of_N 1) (bit punct_only)).

Definition heuristic_score `{Unicode} (tokens : list str) : list f32 :=
  map (λ t, if is_hard_keep t then HARD_KEEP_SCORE
            else soft_score (N.of_nat (length t)) (existsb is_ascii_uppercase t)
                   (forallb (λ c, negb (is_alphanumeric c)) t)) tokens.

(** ** Choosing *)

(** [keep[idx] = true] for each: past the end is a panic. *)
Fixpoint mark (keep : list bool) (idxs : list nat) : option (list bool) :=
  match idxs with
  | [] => Some keep
  | idx :: idxs' => if (idx <? length keep)%nat then mark (<[idx := true]> keep) idxs' else None
  end.

Fixpoint kept (keep : list bool) (tokens : list str) : list str :=
  match keep, tokens with
  | k :: keep', t :: tokens' => if k : bool then t :: kept keep' tokens' else kept keep' tokens'
  | _, _ => []
  end.

Definition target_count (tokens : nat) (ratio : f32) : nat :=
  N.to_nat (f64_to_u64 (f32_max (f32_ceil (f32_mul (f32_of_N (N.of_nat tokens)) ratio)) (f32_of_N 1))).

Definition by_score (a b : nat * f32) : Ordering := f64_total_cmp b.2 a.2.

Definition ml_compress (score : list str → list f32) (input : str) (ratio : f32) : option str :=
  let tokens := split_whitespace input in
  match tokens with
  | [] => Some []
  | _ =>
      let target_count := target_count (length tokens) ratio in
      if (length tokens <=? target_count)%nat then Some input
      else
        let scores := score tokens in
        let indexed := sort_by by_score (zip (seq 0 (length scores)) scores) in
        keep ← mark (replicate (length tokens) false) (map fst (take target_count indexed));
        Some (join $" " (kept keep tokens))
  end.

(** ** What is kept *)

Lemma mark_spec keep idxs : Forall (λ i, (i < length keep)%nat) idxs →
  ∃ keep', mark keep idxs = Some keep' ∧ length keep' = length keep ∧
    ∀ i, (i < length keep)%nat → keep' !! i = Some true ↔ keep !! i = Some true ∨ i ∈ idxs.
Proof.
  revert keep. induction idxs as [|x idxs IH]; intros keep Hall.
  - exists keep. repeat split; try done; [by left|]. intros [?|Hin]; [done|by apply not_elem_of_nil in Hin].
  - inversion_clear Hall as [|? ? Hx Hr]. cbn [mark]. rewrite (proj2 (Nat.ltb_lt _ _) Hx).
    destruct (IH (<[x := true]> keep)) as (k & Hk & Hlen & Hi).
    { eapply Forall_impl; [exact Hr|]. cbn. intros i. by rewrite length_insert. }
    rewrite length_insert in Hlen, Hi. exists k. split; [done|]. split; [done|]. intros i Hlt.
    rewrite Hi, elem_of_cons by done. destruct (decide (i = x)) as [->|Hne].
    + rewrite list_lookup_insert_eq by done. tauto.
    + rewrite list_lookup_insert_ne by done. tauto.
Qed.

#[local] Instance by_score_total : TotalCmp by_score.
Proof. apply (flip_total (λ a b : nat * f32, f64_total_cmp a.2 b.2)), proj_total, _. Qed.

(** The words chosen: their places, none twice, as many as asked for; no word left out is
    worth more than one of them. *)
Lemma chosen_best scores n : (n ≤ length scores)%nat →
  ∃ best, map fst (take n (sort_by by_score (zip (seq 0 (length scores)) scores))) = best ∧
    length best = n ∧ NoDup best ∧ Forall (λ i, (i < length scores)%nat) best ∧
    ∀ i j a b, i ∈ best → j ∉ best → scores !! i = Some a → scores !! j = Some b → f64_total_cmp a b ≠ Lt.
Proof.
  intros Hn. set (all := zip (seq 0 (length scores)) scores).
  assert (Hall : ∀ i a, (i, a) ∈ all ↔ scores !! i = Some a).
  { intros i a. rewrite list_elem_of_lookup. split.
    - intros (k & Hk). unfold all in Hk. apply lookup_zip_Some in Hk as [H1 H2].
      apply lookup_seq in H1 as [-> _]. exact H2.
    - intros Hi. exists i. apply lookup_zip_Some. split; [|done]. apply lookup_seq. split; [done|].
      by apply lookup_lt_Some in Hi. }
  assert (Hnd : NoDup (sort_by by_score all).*1).
  { rewrite sort_by_perm. unfold all. rewrite fst_zip by (by rewrite length_seq). apply NoDup_seq. }
  assert (Hlen : length (sort_by by_score all) = length scores).
  { rewrite sort_by_length. unfold all. rewrite length_zip_with, length_seq. lia. }
  pose proof (sort_by_sorted_total (cmp := by_score) all) as Hsort.
  pose proof (elem_of_sort_by by_score) as Hin.
  eexists. split; [done|]. change (map fst) with (fmap (M := list) (fst (A := nat) (B := f32))).
  rewrite <-(take_drop n (sort_by by_score all)) in Hnd, Hsort. rewrite fmap_app in Hnd.
  apply NoDup_app in Hnd as (Hnd & _ & _). split; [rewrite length_fmap, length_take; lia|]. split; [done|]. split.
  - apply Forall_fmap, Forall_forall. intros [i a] Hi. cbn.
    apply (lookup_lt_Some _ _ a), Hall, Hin. by apply elem_of_take in Hi as (k & Hk & _); apply list_elem_of_lookup; exists k.
  - intros i j a b Hi Hj Ha Hb. apply list_elem_of_fmap in Hi as ([i' a'] & -> & Hi). cbn in *.
    assert (a' = a) as ->.
    { assert (Hia : (i', a') ∈ all) by (apply Hin; eapply elem_of_sublist; [exact Hi|apply sublist_take]).
      apply Hall in Hia. congruence. }
    assert (Hjd : (j, b) ∈ drop n (sort_by by_score all)).
    { apply Hall, Hin in Hb. rewrite <-(take_drop n (sort_by by_score all)) in Hb.
      apply elem_of_app in Hb as [Hb|Hb]; [|done]. destruct Hj. by apply (list_elem_of_fmap_2 fst) in Hb. }
    pose proof (StronglySorted_app_1_elem_of _ _ _ _ _ Hsort Hi Hjd) as Hc. unfold by_score in Hc. cbn in Hc.
    rewrite (cmp_opp b a). by destruct (f64_total_cmp b a).
Qed.

Lemma kept_sublist keep tokens : kept keep tokens `sublist_of` tokens.
Proof. revert tokens. induction keep as [|[] keep IH]; intros [|t tokens]; cbn; try apply sublist_nil_l; by constructor. Qed.

Lemma kept_all (p : str → bool) keep tokens : length keep = length tokens →
  (∀ i t, tokens !! i = Some t → p t = true → keep !! i = Some true) → List.filter p tokens `sublist_of` kept keep tokens.
Proof.
  revert tokens. induction keep as [|k keep IH]; intros [|t tokens] Hlen Hp; try done. cbn.
  assert (IH' : List.filter p tokens `sublist_of` kept keep tokens).
  { apply IH; [by injection Hlen|]. intros i. exact (Hp (S i)). }
  destruct (p t) eqn:Et.
  - specialize (Hp 0%nat t eq_refl Et). injection Hp as ->. by apply sublist_skip.
  - destruct k; [by apply sublist_cons|done].
Qed.

(** The places where a token has a property. *)
Definition places_of (p : str → bool) (tokens : list str) : list nat :=
  List.filter (λ i, match tokens !! i with Some t => p t | None => false end) (seq 0 (length tokens)).

Lemma places_of_length p tokens : length (places_of p tokens) = length (List.filter p tokens).
Proof.
  unfold places_of. induction tokens as [|t tokens IH]; [done|]. cbn [length seq List.filter].
  assert (Hs : length (List.filter (λ i, match (t :: tokens) !! i with Some t => p t | None => false end)
    (seq 1 (length tokens))) = length (List.filter p tokens)).
  { rewrite <-IH, <-seq_shift. clear IH. generalize (seq 0 (length tokens)) as l.
    induction l as [|i l IHl]; [done|]. cbn [map List.filter].
    change ((t :: tokens) !! S i) with (tokens !! i). destruct (tokens !! i) as [u|]; [|done].
    destruct (p u); cbn; by rewrite IHl. }
  change ((t :: tokens) !! 0%nat) with (Some t). destruct (p t); cbn [length]; by rewrite Hs.
Qed.

Lemma elem_of_places_of p tokens i : i ∈ places_of p tokens ↔ ∃ t, tokens !! i = Some t ∧ p t = true.
Proof.
  unfold places_of. rewrite list_elem_of_In, filter_In, <-list_elem_of_In. split.
  - intros [_ H]. destruct (tokens !! i) as [t|]; [by exists t|done].
  - intros (t & Ht & Hp). rewrite Ht. split; [|done]. apply lookup_lt_Some in Ht. apply elem_of_seq. lia.
Qed.

Section Choice.
Context (score : list str → list f32) (tokens : list str) (ratio : f32).
Hypothesis one_each : length (score tokens) = length tokens.
Hypothesis some_left_out : (target_count (length tokens) ratio < length tokens)%nat.

(** The words kept: exactly as many as the ratio asks for, and the best. *)
Lemma chosen : ∃ keep best, length keep = length tokens ∧ length best = target_count (length tokens) ratio ∧ NoDup best ∧
  (∀ i, i ∈ best ↔ keep !! i = Some true) ∧
  (∀ i j a b, i ∈ best → j ∉ best → score tokens !! i = Some a → score tokens !! j = Some b → f64_total_cmp a b ≠ Lt) ∧
  ∀ input, split_whitespace input = tokens → ml_compress score input ratio = Some (join $" " (kept keep tokens)).
Proof.
  destruct (chosen_best (score tokens) (target_count (length tokens) ratio)) as (best & Hb & Hlen & Hnd & Hr & Hbest);
    [lia|]. rewrite one_each in Hr.
  destruct (mark_spec (replicate (length tokens) false) best) as (keep & Hm & Hk & Hi); [by rewrite length_replicate|].
  rewrite length_replicate in Hk, Hi. exists keep, best. repeat split; try done.
  - intros H. apply Hi; [by apply (proj1 (Forall_forall _ _) Hr)|by right].
  - intros H. apply Hi in H as [H|H]; [by apply lookup_replicate in H as [? _]|done|].
    apply lookup_lt_Some in H. lia.
  - intros input <-. unfold ml_compress. destruct (split_whitespace input) as [|t ts] eqn:E; [cbn in *; lia|].
    rewrite (proj2 (Nat.leb_gt _ _)) by done. cbv zeta. rewrite Hb. rewrite Hm. done.
Qed.

(** Words that are worth more than any other are all kept when the ratio has room for them. *)
Lemma worthy_kept (p : str → bool) :
  (length (List.filter p tokens) ≤ target_count (length tokens) ratio)%nat →
  (∀ i j t u a b, tokens !! i = Some t → tokens !! j = Some u → p t = false → p u = true →
     score tokens !! i = Some a → score tokens !! j = Some b → f64_total_cmp a b = Lt) →
  ∃ words, List.filter p tokens `sublist_of` words ∧ words `sublist_of` tokens ∧
    ∀ input, split_whitespace input = tokens → ml_compress score input ratio = Some (join $" " words).
Proof.
  intros Hroom Hworth. destruct chosen as (keep & best & Hlen & Hn & Hnd & Hin & Hbest & Hrun).
  exists (kept keep tokens). split; [|by split; [apply kept_sublist|]].
  apply kept_all; [done|]. intros j u Hu Hp. apply Hin. apply dec_stable. intros Hj.
  assert (Hsub : j :: best ⊆+ places_of p tokens).
  { apply NoDup_submseteq; [by constructor|]. intros i [->|Hi]%elem_of_cons; apply elem_of_places_of; [by exists u|].
    assert (Hlt : (i < length tokens)%nat) by (rewrite <-Hlen; by apply Hin, lookup_lt_Some in Hi).
    destruct (lookup_lt_is_Some_2 _ _ Hlt) as [t Ht]. exists t. split; [done|].
    destruct (p t) eqn:Et; [done|]. exfalso.
    destruct (lookup_lt_is_Some_2 (score tokens) i) as [a Ha]; [by rewrite one_each|].
    destruct (lookup_lt_is_Some_2 (score tokens) j) as [b Hb]; [rewrite one_each; by apply lookup_lt_Some in Hu|].
    by apply (Hbest i j a b Hi Hj Ha Hb), (Hworth i j t u). }
  apply submseteq_length in Hsub. rewrite places_of_length in Hsub. cbn in Hsub. lia.
Qed.
End Choice.

(** ** The heuristic scorer *)

(** The length of words up to which scores are compared below. *)
Definition longest_word : N := 4096.

Lemma soft_below_hard len has_upper punct_only : len ≤ longest_word →
  f64_total_cmp (soft_score len has_upper punct_only) HARD_KEEP_SCORE = Lt.
Proof.
  intros Hlen.
  assert (Hall : forallb (λ n, bool_decide (f64_total_cmp (soft_score (N.of_nat n) has_upper punct_only) HARD_KEEP_SCORE = Lt))
    (seq 0 (N.to_nat (longest_word + 1))) = true) by (destruct has_upper, punct_only; by vm_compute).
  rewrite forallb_forall in Hall. specialize (Hall (N.to_nat len)). rewrite in_seq, N2Nat.id in Hall.
  specialize (Hall ltac:(lia)). by apply bool_decide_eq_true in Hall.
Qed.

Section Heuristic.
Context `{Unicode}.

Lemma heuristic_lookup tokens i t : tokens !! i = Some t →
  heuristic_score tokens !! i = Some (if is_hard_keep t then HARD_KEEP_SCORE
    else soft_score (N.of_nat (length t)) (existsb is_ascii_uppercase t) (forallb (λ c, negb (is_alphanumeric c)) t)).
Proof.
  intros Ht. unfold heuristic_score.
  match goal with |- context [map ?f tokens] => change (map f tokens) with (f <$> tokens) end.
  by rewrite list_lookup_fmap, Ht.
Qed.

End Heuristic.

Module Examples.
#[local] Existing Instance CompressSafety.Examples.ascii.

Definition order : str := $"please do not delete the production database".
Definition half : f32 := f32_ratio 1 2.

Example order_kept : ml_compress heuristic_score order half = Some $"please not production database".
Proof. by vm_compute. Qed.


(** Kept at any ratio, says the code; but not when more of them come before. *)
Example negation_lost : ml_compress heuristic_score $"copy 1 2 3 4 and not 5" (f32_ratio 2 5) = Some $"1 2 3 4".
Proof. by vm_compute. Qed.
(** The error says the least ratio is above a twentieth; a twentieth is accepted. *)
Example least_ratio_accepted show : CompressionTarget_new show (f32_ratio 1 20) = Ok (f32_ratio 1 20).
Proof. by vm_compute. Qed.
End Examples.
