(* ===== verification/ModelCache.v ===== *)
(** * The cache of model lists: [crates/rtrt-core/src/model_cache.rs]

    Asking an agent for its models costs a process; the answer is kept in one JSON file
    under the identity of the binary that gave it, and served again for a time that the
    question's own cost decides.  JSON, the probe, its duration and the clock are
    arguments. *)
From stdpp Require Import gmap sets.
From S2P Require Import Prelude Str Fs Files Json.

Definition MAX_CACHE_BYTES : N := 1024 * 1024.
Definition MAX_CACHED_MODELS : N := 4096.
Definition MAX_MODEL_ID_BYTES : N := 512.
Definition CACHE_FILE_NAME : str := $"cli-models.json".
Definition CACHE_OFF_VALUES : list str := [$"0"; $"off"; $"false"; $"no"].
Definition CACHE_REFRESH_VALUES : list str := [$"refresh"; $"force"; $"reprobe"].

(** In milliseconds, as detect.rs derives them. *)
Definition VERSION_TIMEOUT : N := 800.
Definition RUNTIME_PROBE_TIMEOUT : N := 700.
Definition MODEL_LIST_ROUND_TRIPS : N := 2.
Definition MODEL_LIST_TIMEOUT : N := VERSION_TIMEOUT + RUNTIME_PROBE_TIMEOUT * MODEL_LIST_ROUND_TRIPS.
Definition VERSION_POLL_INTERVAL : N := 20.

Inductive CacheMode := Use | Refresh | Disabled.

#[export] Instance CacheMode_eq_dec : EqDecision CacheMode.
Proof. solve_decision. Defined.

Record ProbeIdentity := mkIdentity {
  binary : str;
  version : option str;
  args : list str;
  binary_len : option N;
  binary_mtime_epoch : option N;
}.

Record CacheEntry := mkEntry {
  identity : ProbeIdentity;
  probed_at_epoch : N;
  probe_millis : N;
  models : list str;
}.

(** A [BTreeMap]: keys ascending. *)
Abbreviation CacheFile := (list (str * CacheEntry)) (only parsing).

Record Store := mkStore { path : Path; mode : CacheMode }.

Definition file_len (n : Node) : N :=
  match node_kind n with File contents => N.of_nat (length contents) | _ => 0 end.

(** [modified]: what the file's time of change is, in seconds, when it can be read. *)
Definition ProbeIdentity_new (modified : option N) (bin : Path) (ver : option str) (arguments : list str) :
    Act IoError ProbeIdentity :=
  found ← try_ (metadata bin);
  match found with
  | inr node => mret (mkIdentity (display bin) ver arguments (Some (file_len node)) modified)
  | inl _ => mret (mkIdentity (display bin) ver arguments None None)
  end.

(** The cached identity against the current one. *)
Definition identity_matches (cached current : ProbeIdentity) : bool :=
  str_eqb (binary cached) (binary current) &&
  bool_decide (args cached = args current) &&
  bool_decide (binary_len cached = binary_len current) &&
  bool_decide (binary_mtime_epoch cached = binary_mtime_epoch current) &&
  match version cached, version current with
  | Some v, Some v' => str_eqb v v'
  | _, _ => true
  end.

Definition refreshing (s : Store) : Store :=
  mkStore (path s) (match mode s with Disabled => Disabled | Use | Refresh => Refresh end).

Definition mode_from_env (raw : option str) : CacheMode :=
  match raw with
  | None => Use
  | Some raw =>
      let value := to_ascii_lowercase (trim raw) in
      if existsb (str_eqb value) CACHE_OFF_VALUES then Disabled
      else if existsb (str_eqb value) CACHE_REFRESH_VALUES then Refresh
      else Use
  end.

(** ** How long an entry is served *)

(** [Duration]s in milliseconds; the product is taken in 128 bits. *)
Definition amortization_factor : N := MODEL_LIST_TIMEOUT / N.max VERSION_POLL_INTERVAL 1.
Definition u128_max : N := 2 ^ 128 - 1.
Definition reuse_window (probe_cost : N) : N :=
  N.min (N.min (probe_cost * amortization_factor) u128_max) u64_max.

Definition is_fresh (entry : CacheEntry) (now : N) : bool :=
  if now <? probed_at_epoch entry then false
  else (now - probed_at_epoch entry) * 1000 <? reuse_window (probe_millis entry).

Definition model_char (c : char) : bool :=
  is_ascii_digit c || is_ascii_alphabetic c || existsb (N.eqb c) $"/-_.:@+".

Definition model_is_bounded (model : str) : bool :=
  negb (is_empty model) && (str_len model <=? MAX_MODEL_ID_BYTES) && contains_char model ch_slash &&
  forallb (λ segment : str, match segment with c :: _ => is_ascii_digit c || is_ascii_alphabetic c | [] => false end)
    (split_char ch_slash model) &&
  forallb model_char model.

(** The lengths are added with a check for overflow. *)
Definition total_len (ms : list str) : option N :=
  foldl (λ total model, t ← total; if t + str_len model <=? u64_max then Some (t + str_len model) else None) (Some 0) ms.

Definition models_are_bounded (ms : list str) : bool :=
  negb (match ms with [] => true | _ => false end) && (N.of_nat (length ms) <=? MAX_CACHED_MODELS) &&
  forallb model_is_bounded ms &&
  match total_len ms with Some total => total <=? MAX_CACHE_BYTES | None => false end.

(** ** What the list command prints: [parse_cli_model_list] of detect.rs *)

Definition MAX_PROBE_OUTPUT_BYTES : N := 1024 * 1024.
Definition MAX_MODEL_IDS : nat := 4096.
Definition MODEL_ID_PUNCTUATION : list char := [47; 45; 95; 46; 58; 64; 43].
Definition ANSI_ESCAPE : char := 27.

(** [escaped]: an escape sequence runs, up to its letter. *)
Fixpoint strip_ansi (escaped : bool) (line : str) : str :=
  match line with
  | [] => []
  | c :: line' =>
      if escaped then strip_ansi (negb (is_ascii_alphabetic c)) line'
      else if c =? ANSI_ESCAPE then strip_ansi true line'
      else c :: strip_ansi false line'
  end.

Definition looks_like_model_id (candidate : str) : bool :=
  contains_char candidate ch_slash &&
  forallb (λ c, (is_ascii_digit c || is_ascii_alphabetic c) || existsb (N.eqb c) MODEL_ID_PUNCTUATION) candidate &&
  forallb (λ segment : str, match segment with c :: _ => is_ascii_digit c || is_ascii_alphabetic c | [] => false end)
    (split_char ch_slash candidate).

Fixpoint parse_lines (seen ms : list str) (ls : list str) : list str :=
  match ls with
  | [] => ms
  | line :: ls' =>
      let candidate := trim (strip_ansi false line) in
      if (MAX_MODEL_ID_BYTES <? str_len candidate) || negb (looks_like_model_id candidate) then parse_lines seen ms ls'
      else if existsb (str_eqb candidate) seen then parse_lines seen ms ls'
      else
        let ms := ms ++ [candidate] in
        if (MAX_MODEL_IDS <? length ms)%nat then [] else parse_lines (candidate :: seen) ms ls'
  end.

Definition parse_cli_model_list (raw : str) : list str :=
  if MAX_PROBE_OUTPUT_BYTES <? str_len raw then [] else parse_lines [] [] (lines raw).

(** ** The file *)

Section Cache.
Context (euid umask pid : N).
Context (from_slice : list N → option CacheFile) (to_string_pretty : CacheFile → list N).

(** A node with the real path it is found at, which stands for its device and number. *)
Definition lstat_at (p : Path) : Act IoError (Path * Node) :=
  look (λ f, match locate f p with
             | inl e => inl e
             | inr q => match f !! q with Some n => inr (q, n) | None => inl not_found end
             end).

(** [File::open]: the real path stands for the descriptor. *)
Definition open_read (p : Path) : Act IoError Path :=
  look (λ f, match resolve f p with
             | inl e => inl e
             | inr q => match f !! q with Some _ => inr q | None => inl not_found end
             end).

(** [file.take(limit).read_to_end]. *)
Definition read_limited (limit : N) (q : Path) : Act IoError (list N) :=
  look (λ f, match f !! q with
             | Some n => match node_kind n with
                         | File contents => inr (take (N.to_nat limit) contents)
                         | _ => inl is_a_directory
                         end
             | None => inl not_found
             end).

(** [?] on [.ok()]. *)
Definition ok_then {E A B : Type} (m : Act IoError A) (k : A → Act E (option B)) : Act E (option B) :=
  r ← try_ m; match r with inr a => k a | inl _ => mret None end.

Definition load {E : Type} (p : Path) : Act E (option CacheFile) :=
  ok_then (lstat_at p) (λ expected,
    if is_symlink expected.2 || negb (is_file expected.2) || (MAX_CACHE_BYTES <? file_len expected.2) then mret None
    else ok_then (open_read p) (λ file,
      ok_then (fstat file) (λ metadata,
        if negb (is_file metadata) || (MAX_CACHE_BYTES <? file_len metadata) || negb (bool_decide (expected.1 = file))
        then mret None
        else ok_then (read_limited (MAX_CACHE_BYTES + 1) file) (λ bytes,
          if MAX_CACHE_BYTES <? N.of_nat (length bytes) then mret None else mret (from_slice bytes))))).

(** [nanos]: the time the scratch file is named after. *)
Definition temp_sibling (nanos : N) (p : Path) : Path :=
  removelast p ++ [default CACHE_FILE_NAME (last p) ++ $"." ++ show_N pid ++ $"." ++ show_N nanos ++ $".tmp"].

(** [wrote]: how much of a write that fails reaches the disk.  Writing such a file as JSON
    cannot fail. *)
Definition write_entry (nanos : N) (wrote : nat) (p : Path) (tool : str) (entry : CacheEntry) : Act IoError () :=
  (match p with [] => mret () | _ => create_dir_all euid umask (removelast p) end) ≫= λ _,
  loaded ← load p;
  let json := to_string_pretty (insert_member tool entry (default [] loaded)) in
  if MAX_CACHE_BYTES <? N.of_nat (length json) then throw (mkIo OtherIo $"model cache exceeds size limit")
  else
    let temp := temp_sibling nanos p in
    file ← create_new euid umask temp 384;
    written ← try_ (write_all wrote file json ≫= λ _, sync_data);
    match written with
    | inl e => removed ← try_ (remove_file temp); throw e
    | inr _ =>
        renamed ← try_ (rename temp p);
        match renamed with
        | inl e => removed ← try_ (remove_file temp); throw e
        | inr _ => set_permissions p 384
        end
    end.

Definition store {E : Type} (nanos : N) (wrote : nat) (s : Store) (tool : str) (entry : CacheEntry) : Act E () :=
  stored ← try_ (write_entry nanos wrote (path s) tool entry); mret ().

Definition fresh_models {E : Type} (s : Store) (tool : str) (current : ProbeIdentity) (now : N) :
    Act E (option (list str)) :=
  loaded ← load (path s);
  mret (file ← loaded;
        entry ← find_member tool file;
        if negb (identity_matches (identity entry) current) || negb (models_are_bounded (models entry))
           || negb (is_fresh entry now)
        then None else Some (models entry)).

(** [probe]: what the probe would answer and the milliseconds it would take; the flag of the
    result says whether it was run. *)
Definition models_or_probe_at {E : Type} (nanos : N) (wrote : nat) (s : Store) (now : N) (tool : str)
    (current : ProbeIdentity) (probe : list str * N) : Act E (list str * bool) :=
  served ← (if bool_decide (mode s = Use) then fresh_models s tool current now else mret None);
  match served with
  | Some ms => mret (ms, false)
  | None =>
      let '(ms, probe_cost) := probe in
      if negb (models_are_bounded ms) then mret ([], true)
      else
        (if negb (bool_decide (mode s = Disabled)) && negb (match ms with [] => true | _ => false end)
         then store nanos wrote s tool (mkEntry current now (N.min probe_cost u64_max) ms)
         else mret ()) ≫= λ _,
        mret (ms, true)
  end.

End Cache.
