(* ===== verification/ModelCacheSafety.v ===== *)
(** * What the cache of model lists answers, and what it leaves on disk *)
From stdpp Require Import gmap sets.
From S2P Require Import Prelude Str Json Fs Files Project ScaffoldSafety Repair Retire ConfigSafety ModelCache.

Section Answers.
Context (euid umask pid : N).
Context (from_slice : list N → option CacheFile) (to_string_pretty : CacheFile → list N).

(** The cache file at a path of a tree, with what it holds. *)
Definition cache_at (f : Fs) (p : Path) (entries : CacheFile) : Prop :=
  ∃ q n bytes, locate f p = inr q ∧ f !! q = Some n ∧ node_kind n = File bytes ∧
    N.of_nat (length bytes) ≤ MAX_CACHE_BYTES ∧ from_slice bytes = Some entries.

(** An entry that may be served at a time to who asks. *)
Definition servable (entry : CacheEntry) (current : ProbeIdentity) (now : N) : Prop :=
  identity_matches (identity entry) current = true ∧ models_are_bounded (models entry) = true ∧
  probed_at_epoch entry ≤ now ∧
  (now - probed_at_epoch entry) * 1000 < reuse_window (probe_millis entry).

Lemma is_fresh_spec entry now : is_fresh entry now = true ↔
  probed_at_epoch entry ≤ now ∧ (now - probed_at_epoch entry) * 1000 < reuse_window (probe_millis entry).
Proof using. unfold is_fresh. destruct (N.ltb_spec now (probed_at_epoch entry)); rewrite ?N.ltb_lt; intuition lia || done. Qed.

Lemma outcome_ok_then {E A B : Type} (m : Act IoError A) (k : A → Act E (option B)) (f0 : Fs)
    (S : A → Prop) (Q : option B → Prop) : Q None →
  outcome (λ f, f = f0) m (λ a f, f = f0 ∧ S a) (λ _ f, f = f0) →
  (∀ a, S a → outcome (λ f, f = f0) (k a) (λ r f, f = f0 ∧ Q r) (λ _ _, False)) →
  outcome (λ f, f = f0) (ok_then m k) (λ r f, f = f0 ∧ Q r) (λ _ _, False).
Proof using.
  intros HN Hm Hk. unfold ok_then. eapply outcome_bind_try; [exact Hm| |].
  - intros a w [Hw Ha]. by apply (Hk a Ha w).
  - intros e. apply outcome_ret. by intros f ->.
Qed.

Lemma outcome_look_same {A : Type} (g : Fs → IoError + A) f0 :
  outcome (λ f, f = f0) (look g) (λ a f, f = f0 ∧ g f0 = inr a) (λ _ f, f = f0).
Proof using. apply outcome_look; [by intros|]. by intros f a ->. Qed.

(** Loading changes nothing, cannot fail, and gives what the file holds or nothing. *)
Lemma cache_load_outcome {E : Type} p f0 :
  outcome (E := E) (λ f, f = f0) (load from_slice p)
    (λ r f, f = f0 ∧ ∀ entries, r = Some entries → cache_at f0 p entries) (λ _ _, False).
Proof using.
  set (Q := λ r, ∀ entries, r = Some entries → cache_at f0 p entries).
  assert (HN : Q None) by done. unfold load.
  eapply (outcome_ok_then _ _ f0 _ Q HN); [apply outcome_look_same|]. intros [q n] Hq. cbn [fst snd].
  destruct (locate f0 p) as [e|q'] eqn:Hl; [done|]. destruct (f0 !! q') as [n'|] eqn:Hn; [|done].
  injection Hq as -> ->.
  destruct (is_symlink n || negb (is_file n) || (MAX_CACHE_BYTES <? file_len n)); [by apply outcome_ret; intros f ->|].
  eapply (outcome_ok_then _ _ f0 _ Q HN); [apply outcome_look_same|]. intros file Hf.
  eapply (outcome_ok_then _ _ f0 _ Q HN); [apply outcome_look_same|]. intros meta Hmeta.
  destruct (negb (is_file meta) || _ || _) eqn:Hg; [by apply outcome_ret; intros f ->|].
  apply orb_false_iff in Hg as [_ Hsame]. apply negb_false_iff, bool_decide_eq_true in Hsame as ->.
  eapply (outcome_ok_then _ _ f0 _ Q HN); [apply outcome_look_same|]. intros bytes Hb.
  destruct (N.ltb_spec MAX_CACHE_BYTES (N.of_nat (length bytes))); [by apply outcome_ret; intros f ->|].
  apply outcome_ret. intros f ->. split; [done|]. intros entries He.
  cbn in Hb. rewrite Hn in Hb. destruct (node_kind n) as [|contents|] eqn:Hk; try done. injection Hb as <-.
  exists file, n, contents. rewrite length_take in H.
  assert (Hall : (length contents ≤ N.to_nat (MAX_CACHE_BYTES + 1))%nat) by lia.
  rewrite firstn_all2 in He by done. repeat split; try done. lia.
Qed.

Lemma fresh_outcome {E : Type} s tool current now f0 :
  outcome (E := E) (λ f, f = f0) (fresh_models from_slice s tool current now)
    (λ r f, f = f0 ∧ ∀ ms, r = Some ms → ∃ entries entry, cache_at f0 (path s) entries ∧
       find_member tool entries = Some entry ∧ ms = models entry ∧ servable entry current now) (λ _ _, False).
Proof using.
  unfold fresh_models. eapply outcome_bind; [apply cache_load_outcome|]. intros loaded w [Hw Hl].
  cbn [mret Act_ret]. split; [done|]. intros ms Hms. destruct loaded as [entries|]; [|done]. cbn in Hms.
  destruct (find_member tool entries) as [entry|] eqn:Hf; [|done]. cbn in Hms.
  destruct (_ || _) eqn:Hg; [done|]. injection Hms as <-.
  apply orb_false_iff in Hg as [[H1 H2]%orb_false_iff H3].
  apply negb_false_iff in H1, H2, H3. apply is_fresh_spec in H3. exists entries, entry.
  split; [by apply Hl|]. do 2 (split; [done|]). split; [exact H1|]. split; [exact H2|exact H3].
Qed.

End Answers.

(** ** What a list command prints is accepted *)

Lemma str_len_app a b : str_len (a ++ b) = str_len a + str_len b.
Proof. unfold str_len. induction a as [|c a IH]; cbn [app foldr]; [done|]. rewrite IH. lia. Qed.

Lemma str_len_sublist a b : a `sublist_of` b → str_len a ≤ str_len b.
Proof. unfold str_len. induction 1 as [|c a b _ IH|c a b _ IH]; cbn [foldr]; lia. Qed.

Lemma drop_while_sublist p s : drop_while p s `sublist_of` s.
Proof. destruct (drop_while_suffix p s) as (pre & E & _). rewrite E at 2. by apply sublist_inserts_l. Qed.

Lemma sublist_rev {A : Type} (a b : list A) : a `sublist_of` b → rev a `sublist_of` rev b.
Proof.
  induction 1 as [|x a b _ IH|x a b _ IH]; cbn; [done|by apply sublist_app|by apply sublist_inserts_r].
Qed.

Lemma trim_sublist s : trim s `sublist_of` s.
Proof.
  unfold trim, trim_end, trim_start, trim_end_matches, trim_start_matches. etrans; [|apply drop_while_sublist].
  rewrite <-(rev_involutive (drop_while is_whitespace s)) at 2. apply sublist_rev, drop_while_sublist.
Qed.

Lemma strip_ansi_sublist escaped line : strip_ansi escaped line `sublist_of` line.
Proof.
  revert escaped. induction line as [|c line IH]; intros escaped; cbn; [done|].
  destruct escaped; [by apply sublist_cons|]. destruct (c =? ANSI_ESCAPE); [by apply sublist_cons|by apply sublist_skip].
Qed.

Lemma concat_split_inclusive s : concat (split_inclusive_nl s) = s.
Proof.
  induction s as [|c s IH]; cbn; [done|]. destruct (c =? ch_nl); cbn; [by rewrite IH|].
  destruct (split_inclusive_nl s) as [|w ws]; cbn in *; by rewrite <-IH.
Qed.

Lemma strip_eol_sublist piece : strip_eol piece `sublist_of` piece.
Proof.
  unfold strip_eol. destruct (strip_suffix [ch_nl] piece) as [l|] eqn:E; [|done]. apply strip_suffix_Some in E as ->.
  destruct (strip_suffix [ch_cr] l) as [l'|] eqn:E; [|by apply sublist_inserts_r].
  apply strip_suffix_Some in E as ->. rewrite <-app_assoc. by apply sublist_inserts_r.
Qed.

Lemma lines_sublist s : concat (lines s) `sublist_of` s.
Proof.
  rewrite <-(concat_split_inclusive s) at 2. unfold lines. induction (split_inclusive_nl s) as [|w ws IH]; cbn; [done|].
  apply sublist_app; [apply strip_eol_sublist|exact IH].
Qed.

Lemma total_len_concat ms : str_len (concat ms) ≤ u64_max → total_len ms = Some (str_len (concat ms)).
Proof.
  unfold total_len. change (str_len (concat ms)) with (0 + str_len (concat ms)). generalize 0 as n.
  induction ms as [|m ms IH]; intros n; cbn [foldl concat]; [by rewrite N.add_0_r|].
  rewrite str_len_app. intros Hle. cbn [mbind option_bind]. rewrite (proj2 (N.leb_le _ _)) by lia.
  rewrite IH by lia. by rewrite N.add_assoc.
Qed.

Lemma listed_is_bounded candidate : str_len candidate ≤ MAX_MODEL_ID_BYTES → looks_like_model_id candidate = true →
  model_is_bounded candidate = true.
Proof.
  intros Hlen [[Hs Hc]%andb_true_iff Hseg]%andb_true_iff. unfold model_is_bounded.
  rewrite Hs, Hseg, (proj2 (N.leb_le _ _) Hlen), !andb_true_r. apply andb_true_iff. split; [by destruct candidate|].
  rewrite forallb_forall in Hc |- *. intros c Hin. specialize (Hc c Hin). exact Hc.
Qed.

Lemma parse_lines_bounded raw ls : ∀ seen ms, concat ms ++ concat ls `sublist_of` raw →
  forallb model_is_bounded ms = true → (length ms ≤ MAX_MODEL_IDS)%nat →
  concat (parse_lines seen ms ls) `sublist_of` raw ∧ forallb model_is_bounded (parse_lines seen ms ls) = true ∧
  (length (parse_lines seen ms ls) ≤ MAX_MODEL_IDS)%nat.
Proof.
  induction ls as [|line ls IH]; intros seen ms Hsub Hb Hlen; cbn [parse_lines].
  { cbn [concat] in Hsub. by rewrite app_nil_r in Hsub. }
  set (candidate := trim (strip_ansi false line)).
  assert (Hc : candidate `sublist_of` line) by (etrans; [apply trim_sublist|apply strip_ansi_sublist]).
  assert (Hskip : concat ms ++ concat ls `sublist_of` raw).
  { etrans; [|exact Hsub]. apply sublist_app; [done|]. cbn [concat]. by apply sublist_inserts_l. }
  destruct (_ || _) eqn:Hg; [by apply IH|]. apply orb_false_iff in Hg as [Hl%N.ltb_ge Hk%negb_false_iff].
  destruct (existsb _ seen); [by apply IH|].
  destruct (Nat.ltb_spec MAX_MODEL_IDS (length (ms ++ [candidate]))); [by repeat split; [apply sublist_nil_l|cbn; lia]|].
  apply IH; [| |done].
  - etrans; [|exact Hsub]. rewrite concat_app, <-app_assoc. cbn [concat]. rewrite app_nil_r.
    apply sublist_app; [done|]. by apply sublist_app.
  - rewrite forallb_app, Hb. cbn [forallb]. by rewrite listed_is_bounded.
Qed.

(** The cache's own check never drops what a list command printed: a list that was parsed is
    within the cache's bounds. *)
Theorem parsed_lists_accepted raw : parse_cli_model_list raw ≠ [] → models_are_bounded (parse_cli_model_list raw) = true.
Proof.
  unfold parse_cli_model_list. destruct (N.ltb_spec MAX_PROBE_OUTPUT_BYTES (str_len raw)) as [|Hraw]; [done|].
  destruct (parse_lines_bounded raw (lines raw) [] []) as (Hsub & Hb & Hlen); [apply lines_sublist|done|cbn; lia|].
  intros Hne. unfold models_are_bounded. rewrite Hb. apply str_len_sublist in Hsub.
  unfold MAX_PROBE_OUTPUT_BYTES in Hraw.
  rewrite total_len_concat by (unfold u64_max; lia). rewrite (proj2 (N.leb_le _ _)) by (unfold MAX_CACHED_MODELS, MAX_MODEL_IDS in *; lia).
  rewrite (proj2 (N.leb_le (str_len _) _)) by (unfold MAX_CACHE_BYTES; lia).
  by destruct (parse_lines _ _ _).
Qed.

(** ** What a run leaves on disk *)

Lemma snoc_match {A B : Type} (d : list A) c (x y : B) : match d ++ [c] with [] => x | _ => y end = y.
Proof. by destruct d. Qed.

Section Writing.
Context (euid umask pid : N).
Context (from_slice : list N → option CacheFile) (to_string_pretty : CacheFile → list N).
Context (l : list Path) (f0 : Fs).
Hypothesis root_there : rooted f0.
Hypothesis places : Forall (place f0) l.
Hypothesis files : settled l f0 f0.
Context (d : Path) (name : str) (nanos : N).
Hypothesis d_real : real_dir f0 d.
Let path : Path := d ++ [name].
Let t : Path := temp_sibling pid nanos path.
Hypothesis path_place : path ∈ l.
Hypothesis t_place : t ∈ l.

(** The cache file replaced by a whole one: what it held, or nothing when it could not be
    read, with the new entry. *)
Definition replaced_by (f1 : Fs) (tool : str) (entry : CacheEntry) (f : Fs) : Prop :=
  ∃ old m, (old = [] ∨ cache_at from_slice f1 path old) ∧
    f = <[path := mkNode (File (to_string_pretty (insert_member tool entry old))) euid m]> f1.

Lemma set_permissions_place n mode f1 : settled l f0 f1 → is_file n = true →
  outcome (λ f, f = <[path := n]> f1) (set_permissions path mode) (λ _ f, f = <[path := chmod mode n]> f1)
    (λ _ f, f = <[path := n]> f1).
Proof using root_there places files path_place.
  intros Hs Hn. apply outcome_call; [by intros|]. intros f ->.
  rewrite (settled_resolve l f0 places files _ path n) by
    (done || (by apply settled_put) || (by rewrite lookup_insert_eq) || by apply file_not_symlink).
  by rewrite alter_insert_eq.
Qed.

Lemma write_entry_outcome wrote tool entry f1 : settled l f0 f1 →
  outcome (λ f, f = f1) (write_entry euid umask pid from_slice to_string_pretty nanos wrote path tool entry)
    (λ _, replaced_by f1 tool entry) (λ _ f, leftover f1 t f ∨ replaced_by f1 tool entry f).
Proof using root_there places files d_real path_place t_place.
  intros Hs. assert (Hsame : ∀ f, f = f1 → leftover f1 t f ∨ replaced_by f1 tool entry f)
    by (intros f ->; left; apply leftover_refl).
  unfold write_entry. eapply outcome_bind.
  { replace (match path with [] => mret () | _ => create_dir_all euid umask (removelast path) end)
      with (create_dir_all euid umask d) by (unfold path; by rewrite snoc_match, removelast_last).
    eapply outcome_failed; [apply (create_dir_there l f0 root_there places files euid umask d (λ f, f = f1)); [by intros f ->|done]|].
    intros ? f Hf. by apply Hsame. }
  intros u. eapply outcome_bind; [eapply outcome_failed; [apply cache_load_outcome|done]|].
  intros loaded w [Hw Hold]. revert w Hw.
  set (json := to_string_pretty (insert_member tool entry (default [] loaded))).
  assert (Hdone : ∀ m, replaced_by f1 tool entry (<[path := mkNode (File json) euid m]> f1)).
  { intros m. exists (default [] loaded), m. split; [|done]. destruct loaded as [old|]; [right; by apply Hold|by left]. }
  match goal with |- ∀ w, tree w = f1 → match ?m w with _ => _ end =>
    enough (Hm : outcome (λ f, f = f1) m (λ _, replaced_by f1 tool entry) (λ _ f, leftover f1 t f ∨ replaced_by f1 tool entry f)) by exact Hm end.
  destruct (MAX_CACHE_BYTES <? N.of_nat (length json)); [by apply outcome_throw|].
  eapply outcome_bind; [eapply outcome_failed; [by apply (create_place l f0)|]; intros ? f Hf; by apply Hsame|].
  intros file w (-> & Ht & Hw). revert w Hw.
  match goal with |- ∀ w, tree w = ?f2 → match ?m w with _ => _ end =>
    enough (Hm : outcome (λ f, f = f2) m (λ _, replaced_by f1 tool entry) (λ _ f, leftover f1 t f ∨ replaced_by f1 tool entry f)) by exact Hm end.
  assert (Hclean : ∀ e : IoError, outcome (leftover f1 t) (removed ← try_ (remove_file t); throw e)
    (λ _ : (), replaced_by f1 tool entry) (λ _ f, leftover f1 t f ∨ replaced_by f1 tool entry f)).
  { intros e. eapply outcome_bind; [eapply outcome_failed; [by apply (remove_leftover l f0)|done]|].
    intros r. apply outcome_throw. by left. }
  set (new := mkNode (File json) euid (masked umask 384)).
  eapply outcome_bind_try with (S := λ _ f, f = <[t := new]> f1) (T := λ _, leftover f1 t).
  { eapply outcome_bind; [by apply write_place|]. intros a. eapply outcome_failed; [apply sync_place|].
    intros ? f ->. by apply leftover_put; [apply leftover_refl|]. }
  - intros a. eapply outcome_bind_try with (S := λ _ f, f = <[path := new]> f1) (T := λ _, leftover f1 t).
    + eapply outcome_failed; [by apply (rename_place l f0 root_there places files f1 t path)|].
      intros ? f ->. by apply leftover_put; [apply leftover_refl|].
    + intros b. eapply outcome_weaken; [by apply (set_permissions_place new 384 f1 Hs)|done| |].
      * intros ? f ->. apply Hdone.
      * intros ? f ->. right. apply Hdone.
    + exact Hclean.
  - exact Hclean.
Qed.

Lemma temp_not_path : t ≠ path.
Proof using.
  unfold t, path, temp_sibling. rewrite removelast_last, last_snoc. intros E. apply app_inj_tail in E as [_ E].
  cbn [default from_option id] in E. apply (f_equal length) in E. rewrite !length_app in E. change (length $".") with 1%nat in E. lia.
Qed.

(** Whatever calls fail, a lookup leaves the cache file as it was, or a whole new one with what
    the old one held and the answer of the probe; only a scratch file beside it may stay. *)
Theorem cache_all_or_nothing wrote cache_mode now tool current probe : outcome (E := IoError) (λ f, f = f0)
  (models_or_probe_at euid umask pid from_slice to_string_pretty nanos wrote (mkStore path cache_mode) now tool current probe)
  (λ _ f, (untouched [t] f0 f ∧ f !! path = f0 !! path) ∨
          (models_are_bounded probe.1 = true ∧
           replaced_by f0 tool (mkEntry current now (N.min probe.2 u64_max) probe.1) f)) (λ _ _, False).
Proof using root_there places files d_real path_place t_place.
  set (Q := λ f, (untouched [t] f0 f ∧ f !! path = f0 !! path) ∨ _).
  assert (Hleft : ∀ f, leftover f0 t f → Q f).
  { intros f [Hu _]. left. split; [done|]. apply Hu. intros E%list_elem_of_singleton. by destruct temp_not_path. }
  assert (Hsame : ∀ f, f = f0 → Q f) by (intros f ->; apply Hleft, leftover_refl).
  unfold models_or_probe_at. cbn [mode ModelCache.path]. eapply outcome_bind with (S := λ _ f, f = f0).
  { case_bool_decide; [|by apply outcome_ret]. eapply outcome_weaken; [apply (fresh_outcome from_slice) with (f0 := f0)|done| |done]. by intros r f [-> _]. }
  intros [ms|]; [apply outcome_ret; exact Hsame|]. destruct probe as [answer cost]. cbn [fst snd] in *.
  destruct (models_are_bounded answer) eqn:Hb; cbn [negb]; [|apply outcome_ret; exact Hsame].
  eapply outcome_bind with (S := λ _, Q); [|intros u; by apply outcome_ret].
  destruct (_ && _); [|by apply outcome_ret]. unfold store.
  eapply outcome_bind_try; [by apply (write_entry_outcome wrote tool (mkEntry current now (N.min cost u64_max) answer) f0)| |].
  - intros a. apply outcome_ret. intros f Hf. right. by split.
  - intros e. apply outcome_ret. intros f [Hf|Hf]; [by apply Hleft|right; by split].
Qed.
End Writing.

Module Examples.
Definition home : Path := [ $"h"].
Definition cache : Path := home ++ [ $"c.json"].
Definition directory : Node := mkNode Dir 7 448.
Definition machine : Fs := <[home := directory]> (<[[] := directory]> ∅).
Definition opencode : ProbeIdentity := mkIdentity $"/bin/opencode" (Some $"1") [$"models"] (Some 9) (Some 5).
Definition answer : list str := [$"a/b"; $"c/d"].
Definition entry : CacheEntry := mkEntry opencode 100 50 answer.

(** A code for files with the one entry or without any. *)
Definition to_string_pretty (file : CacheFile) : list N := match file with [] => [0] | _ => [1] end.
Definition from_slice (bytes : list N) : option CacheFile :=
  match bytes with [0] => Some [] | [1] => Some [($"opencode", entry)] | _ => None end.

Definition ask (now : N) (f : Fs) (faults : list (option IoError)) : (IoError + (list str * bool)) * FsWorld :=
  models_or_probe_at 7 0 3 from_slice to_string_pretty 4 0 (mkStore cache Use) now $"opencode" opencode (answer, 50)
    (mkFsWorld f faults).

(** Asked, then served for as long as a hundred and ten times what the question cost. *)
Definition stored : Fs := tree (ask 100 machine []).2.
Example asked_then_served :
  (ask 100 machine []).1 = inr (answer, true) ∧ (ask 105 stored []).1 = inr (answer, false) ∧
  (ask 106 stored []).1 = inr (answer, true) ∧ (ask 99 stored []).1 = inr (answer, true).
Proof. by vm_compute. Qed.

(** Served, while nothing can be written. *)
Example answered_anyway : (ask 100 machine (repeat (Some not_found) 20)).1 = inr (answer, true).
Proof. by vm_compute. Qed.

Lemma parsed_lists_accepted_witness :
  parse_cli_model_list ($"a/b" ++ [10] ++ $"Models:" ++ [10; 27] ++ $"[1mc/d" ++ [13; 10] ++ $"a/b") = answer ∧
  models_are_bounded answer = true.
Proof.
  split; [by vm_compute|].
  exact (parsed_lists_accepted ($"a/b" ++ [10] ++ $"Models:" ++ [10; 27] ++ $"[1mc/d" ++ [13; 10] ++ $"a/b") ltac:(by vm_compute)).
Defined.

Lemma cache_all_or_nothing_witness : outcome (E := IoError) (λ f, f = machine)
  (models_or_probe_at 7 0 3 from_slice to_string_pretty 4 0 (mkStore cache Use) 100 $"opencode" opencode (answer, 50))
  (λ _ f, (untouched [temp_sibling 3 4 cache] machine f ∧ f !! cache = machine !! cache) ∨
          (models_are_bounded answer = true ∧
           replaced_by 7 from_slice to_string_pretty home $"c.json" machine $"opencode" (mkEntry opencode 100 50 answer) f))
  (λ _ _, False).
Proof.
  assert (Hhome : real_dir machine home) by (apply (real_child machine [] $"h" directory); [apply real_root|by apply (bool_decide_unpack _); vm_compute|by vm_compute|done]).
  assert (Hnew : ∀ q : Path, q ∈ [cache; temp_sibling 3 4 cache] → machine !! q = None).
  { intros q [->|[->|[]%not_elem_of_nil]%elem_of_cons]%elem_of_cons; by vm_compute. }
  apply (cache_all_or_nothing 7 0 3 from_slice to_string_pretty [cache; temp_sibling 3 4 cache] machine) with (d := home) (name := $"c.json").
  - by exists directory.
  - repeat constructor; eexists home, _; (split; [reflexivity|]); (split; [by apply (bool_decide_unpack _); vm_compute|exact Hhome]).
  - split; [done|]. intros q n Hq Hn. by rewrite (Hnew q Hq) in Hn.
  - exact Hhome.
  - left.
  - right. left.
Defined.
End Examples.
